(* ===== verification/_CoqProject ===== *)
-Q . S2P
Prelude.v
GoStrings.v
Errors.v
Status.v
Mapping.v
History.v
Choice.v
Chrome.v
Paths.v
GoTime.v
Rfc3339.v
Command.v
Config.v
Events.v
Attachment.v
AppText.v
OptionRegistry.v
OptionProps.v
AppOptions.v
Registry.v
Debounce.v
Presence.v
TgErrors.v
Queue.v
Regexp.v
Redact.v
Format.v
Markdown.v
Eff.v
Files.v
Icons.v
Gateway.v
TgInbound.v
Setup.v
Json.v
JsonText.v
Logs.v
HerdrWire.v
TurnMeta.v
AppPorts.v
Stores.v
StoresProps.v
Supervisor.v
Transcript.v
Herdr.v
HerdrStream.v
System.v
StatusView.v
Panel.v
Outbound.v
OutboundProps.v
Inbound.v
InboundProps.v
Bridge.v
Capture.v
DaemonPorts.v
Dashboard.v
Daemon.v
Doctor.v
Cli.v
RelayDomain.v
RelayJson.v
Encoding.v
MaestriClient.v
Partitura.v
Catalog.v
Planner.v
RelayCli.v
RelayProg.v
Relay.v
RelayDeploy.v
RelayInbound.v
RelayOnce.v
RelayProps.v
Reconciler.v
ReconcilerLaws.v
TestKit.v
ReconcilerProps.v
ReconcilerConv.v
Mirror.v
