(* ===== verification/Prelude.v ===== *)
(** A verification development of the Telegram mirror of coding agents
    (package internal/ of the repository: domain, app, adapters, and what of
    compose and cli decides anything).

    THE PROGRAM. A daemon watches the agents of a terminal multiplexer and keeps
    one topic per agent in a Telegram forum.  The registry (app/registry.go)
    turns snapshots and socket events into agent events; the reconciler
    (app/reconciler.go, sweep.go) turns those into topic calls and records in
    the mapping (domain/mapping.go) what Telegram accepted; the debouncer
    (app/debounce.go) delays edits; the queue (adapters/telegram/queue.go) paces
    and retries the calls, and errors.go of the same adapter gives their
    failures a domain meaning; presence (app/presence.go) holds edits while the
    operator is at the desk; options and configuration (domain/options.go,
    config.go, app/options.go) steer all of it.  The bridge carries text both
    ways: app/outbound.go posts what an agent's settled screen shows and offers
    the answers of its dialogs as buttons, app/inbound.go turns the operator's
    messages, files and button presses into prompts and keys.  The relay
    (app/relay*.go, domain/relay.go, adapters/maestri) lets an operator deploy
    and steer whole teams of agents on canvases from a second group.  All texts
    pass through adapters/telegram: redact.go, format.go, markdown.go,
    gateway.go, bot.go.  Agents and screens come over the socket of
    adapters/herdr, replies from the session files adapters/transcript reads,
    and what outlives a run is kept by adapters/state.  A wizard
    (app/setup.go), a supervisor (app/supervisor.go) and a doctor
    (app/doctor.go) stand beside the daemon; cli and compose put all of them
    together.

    THE FILES, each requiring the ones it calls:
    - Prelude, GoStrings, GoTime: the language and its standard library as far
      as the source uses them: 64-bit integers with their wrap-around, times
      and saturating durations, byte strings with UTF-8 decoding, packages
      strings, strconv and unicode, time.ParseDuration, first-best selection.
      Regexp: the leftmost-first matcher of package regexp for the patterns
      the redactor is built from.  Json, JsonText: encoding/json, the values
      with their numbers in binary64 and the text of documents.  Paths:
      path/filepath on Unix.  Rfc3339: instants as text.  Encoding:
      hexadecimal, base64, escaped queries and SHA-256.
    - Errors (domain/errors.go and the wrapped errors around it): an error is a
      value, [errors_is] is errors.Is.
    - Status (domain/status.go, agent.go, topic.go), Mapping
      (domain/mapping.go): the aggregate with every method, and its theorems.
    - History, Choice, Chrome, Command, Config, Events, Attachment: the domain
      files of the same names (setup.go is in Config, CutOverlay in Chrome).
      TurnMeta: domain/turnmeta.go.  Redact: domain/redact.go, app/redact.go.
    - OptionRegistry and OptionProps (domain/options.go), AppOptions
      (app/options.go): the option specs, validation, and the options in force.
      AppText: app/links.go and the small text helpers its neighbours share.
    - Registry, Debounce, Presence: the app files of the same names; the
      registry loop is a fold over its inputs, the debouncer a step relation in
      which the waiting goroutines interleave freely with the owner's calls.
    - TgErrors, Queue, Format, Markdown, Icons, Gateway, TgInbound: the files
      of adapters/telegram.  Eff: a program over ports is a tree of calls,
      run by a handler that answers from the log so far; its weakest
      precondition [wp] and the frame, return and counting lemmas on top of it.
    - Files: the disk as what a history of answers made of it, and the atomic
      write every store goes through.  Stores, StoresProps (adapters/state):
      mapping, options, configuration, inbox, pid file and relay state.
      Logs (adapters/logging, cli/logspane.go): the rotating log and its tail.
    - HerdrWire, Herdr, HerdrStream (adapters/herdr): the shapes of the wire,
      a call with its two connections, and the stream of events with its swaps
      and reconnects.  Transcript (adapters/transcript): the last reply, read
      backwards in blocks.  System (adapters/system): the control channel,
      processes and signals, the git runner, the environment.
    - Setup (app/setup.go, telegram/discovery.go), Supervisor, Doctor (the app
      files of the same names, telegram/inspector.go).  Cli (internal/cli,
      compose/container.go, telegram/connect.go, bot.go): the commands, the
      building of a daemon, its connection to Telegram; the wizard of Setup
      runs on the console of setuppane.go ([on_console]).
    - AppPorts: the ports the bridge asks, as one family of calls [appE].
      Outbound (app/outbound.go), Inbound (app/inbound.go), StatusView and Panel
      (app/statusview.go, optionspanel.go), Capture (app/capture.go), and
      Bridge: the two queues, the handlers that take from them and the tasks
      they start.  OutboundProps and InboundProps hold the theorems about
      those two, the other files their own.
    - DaemonPorts, Dashboard (app/dashboard.go), Daemon (app/daemon.go): the loop
      as its start and one step per channel it may be woken by, a program over
      its ports and over the operations of the reconciler ([recE]), with their
      theorems for any reconciler that keeps a contract ([daemon_legal]).  Mirror puts the reconciler of
      Reconciler.v behind those operations, shows that it keeps the contract,
      and proves what holds of the two together.
    - RelayDomain (domain/relay.go), RelayJson (its JSON), RelayProg (the
      relay's programs: a tree with named atomic steps over the relay file, so
      that handlers can interleave), Relay, RelayDeploy, RelayInbound
      (app/relay.go, relay_deploy.go, relay_inbound.go, and a concrete host to
      try them on), RelayOnce, RelayProps (the theorems).
    - MaestriClient, Partitura, Catalog, Planner (adapters/maestri): the client
      of the Wire protocol, the native form of a team, the catalog of examples
      and the language model that plans.  RelayCli (cli/relay.go,
      compose/relay.go): the commands of the relay over all of these.
    - Reconciler (app/reconciler.go, sweep.go, topicview.go): every handler, as a
      computation of a state monad over the class [Gateway] of the ports it
      calls.  ReconcilerLaws states the contract of the forum (class [Forum]: a
      call that succeeds has its effect, one that fails has none; class
      [Willing]: a forum that answers) and the invariant [InStep]; it ends
      with a concrete forum that meets the contract; ReconcilerProps and
      ReconcilerConv hold the theorems.  TestKit (internal/testkit) holds the
      fakes of the tests; its Telegram meets the contract too, and the
      supervisor runs on its processes and clock.

    THE THEOREMS, by group:
    - mirror: the mapping agrees with the forum after any sequence of events,
      passes, sweeps and operator actions whatever calls fail
      ([mapping_in_step]), also while the whole daemon runs and no topic is
      renamed by hand ([daemon_in_step]); without its right the daemon touches
      no topic ([rights_lost_freezes_forum]); from a mapping in step one pass
      over a forum that answers makes the forum show every live agent and close
      the rest, topics the operator muted apart ([Reconcile_converges]), a
      second one does nothing ([Reconcile_idempotent]); nothing is written while
      writes are blocked; a sweep deletes only stale topics;
    - daemon: it ends for a reason and says so ([daemon_ends_for_a_reason]), with
      the real reconciler too ([mirror_refines_loop]); one dashboard message
      ([dashboard_one_message]);
    - bridge, outbound: a settled screen is posted once and only when due
      ([settled_posts_due]); a press types only what its button names, for the
      latest keyboard of its agent ([press_types_button]) and is answered once
      ([press_answered_once]);
    - bridge, inbound: a topic message makes at most one action, on the agent
      of its topic ([topic_message_acts_once]); an observer only reads
      ([observer_only_reads]); a pane is closed only by its last question
      ([close_needs_last_question]); the panel's buttons are understood;
    - bridge, whole: no done mark without its taken mark
      ([bridge_reactions_paid]), and only fatal errors leave a handler
      ([bridge_only_fatal]);
    - relay: nothing is created or asked twice across interleavings, failed
      saves and restarts ([relay_at_most_once]); nothing outside the allowed
      workspaces ([relay_in_scope]); strangers do nothing; an event is handled
      once; messages reach the one terminal they mean ([target_routes]);
    - calls: the queue keeps the rate limits and retries only what may be
      retried, and ends ([queue_paced], [queue_retries]); messages are split
      within the limits and sent in order ([chunk_spec],
      [splitMarkdown_bounded], [send_in_order]); secrets are hidden
      ([Redact_hides]); only the allowed are heard ([only_allowed_heard]);
    - events: the registry's consumers know the live agents exactly
      ([run_events_complete]); debounced edits are neither early, lost nor
      repeated; quiet mode is in force exactly when it should be and every flip
      is delivered;
    - adapters: a file is always the old or the new one ([save_atomic]), what
      is saved is loaded ([saved_is_loaded]), a pid file that can be read has
      one live owner ([pid_file_exclusive]), the log loses only its oldest file
      and only when it is full ([log_keeps_the_end]); a call of Herdr is written once
      ([herdr_call_once]), each line of its stream is delivered
      once and in order ([stream_in_order]); the last reply is that of the turn
      ([last_reply_of_turn]); the control channel carries its commands
      ([control_answered]);
    - Maestri: requests only as the host allows ([wire_authorised]), plans only
      of installed presets ([plan_sound]), synchronisation only below its
      directory ([sync_confined]), teams survive the native form
      ([native_export_read_back]);
    - commands: the wizard saves only what was vouched for
      ([setup_saves_vouched]); starts and stops end ([supervisor_ends]); every
      command gives back what it takes and the daemon runs only what it owns
      ([commands_give_back]); a prompt ends with its input ([choose_ends]);
      commands of the relay that should only look do ([most_commands_look]),
      the others hold the lock ([acts_under_lock]);
    - data: the mapping's methods, option bags that always validate and stay in
      sync with the file, screen histories that rebuild the transcript;
    - operator input: a slash message never becomes a prompt, dialogs and keys
      are what the screen shows, file names are safe.

    BOUNDS AND FUEL. No function runs on arbitrary fuel: recursions are
    structural on lists and strings, on the length of the string still to read
    (each step consumes at least one byte), or on a count the source bounds: the
    tries left in the queue, the 301 looks [await_floor] takes in its five
    minutes of one-second waits, the polls of the supervisor (a bound is enough
    when the clock goes on, [supervisor_ends]), the bytes left on the console
    ([choose_ends]), the runes left of a text being cut
    ([chunk_loop], [place]), the lines left of a Markdown text, and the names of
    live agents for [uniqueName], which [uniqueName_first_free] shows enough.
    Integers that are Go ints or durations keep their width where a sum or a
    product may leave it.

    NOT MODELLED. The socket server, the inspector and the one-field setters of
    the test kit; the tools of cli/dev.go; the declarations of ports.go that carry no data; constructors
    that only pass their arguments on; the files for Windows; the parsing of the
    flags of the log pane and its keys; log lines.  Sockets, HTTP, processes, the
    disk, the terminal and the clock are questions whose answers are arbitrary
    or bound by a stated contract.  The Bot API client is an external package,
    its calls are the family [api]; net/url's parser (classes [UrlParser],
    [UrlOrigin]) and the texts of foreign errors are parameters, SHA-256 is the
    class [Hashing] with its definition as the instance.  Unicode tables outside
    ASCII are the class [UnicodeTables]; the order of a Go map iteration is a
    parameter (class [TopicOrder]), or the result is shown not to depend on it; a
    mutex is the atomicity of the step it guards, a context's end is an answer a
    call may give.  A task the bridge starts runs as one step.  The registry, the
    bridge and the capture answer the daemon's loop as ports: their own
    goroutines may have run in between.  Two components whose programs are of
    different kinds meet at a question: the commands ask for the supervisor, the
    doctor and the loop of the daemon, the relay's commands for a deployment. *)
From stdpp Require Export base tactics list gmap strings sorting fin_maps pretty.
From Stdlib Require Export Ascii ZArith Lia.

Declare Scope go_scope.
Delimit Scope go_scope with go.

(** ** Machine integers

    Go's [int] and [int64] are 64-bit two's complement on every platform the
    program is built for.  Arithmetic that may overflow is written with
    [wrap64]; values that come from a bounded source carry [in_int64]. *)

Definition int64_min : Z := - 2 ^ 63.
Definition int64_max : Z := 2 ^ 63 - 1.

Definition in_int64 (z : Z) : Prop := (int64_min ≤ z ≤ int64_max)%Z.

Definition wrap64 (z : Z) : Z := ((z + 2 ^ 63) mod 2 ^ 64 - 2 ^ 63)%Z.

Lemma wrap64_range z : in_int64 (wrap64 z).
Proof.
  unfold in_int64, wrap64, int64_min, int64_max.
  pose proof (Z.mod_pos_bound (z + 2 ^ 63) (2 ^ 64)). lia.
Qed.

Lemma wrap64_id z : in_int64 z → wrap64 z = z.
Proof.
  unfold in_int64, wrap64, int64_min, int64_max. intros Hz.
  rewrite Z.mod_small; lia.
Qed.

#[global] Instance in_int64_dec z : Decision (in_int64 z).
Proof. unfold in_int64. apply _. Defined.

(** ** Time

    A [time.Time] is the number of nanoseconds since Go's zero instant
    (January 1, year 1), so the zero value is [0] and [IsZero] is a test
    against it; a [time.Duration] is an [int64] count of nanoseconds. *)

Definition Time := Z.
Definition Duration := Z.

Definition time_zero : Time := 0%Z.
Definition is_zero (t : Time) : bool := (t =? 0)%Z.
Definition time_equal (a b : Time) : bool := (a =? b)%Z.
Definition time_after (a b : Time) : bool := (b <? a)%Z.
Definition time_before (a b : Time) : bool := (a <? b)%Z.

Definition Second : Duration := 1000000000%Z.
Definition Minute : Duration := (60 * Second)%Z.
Definition Hour : Duration := (60 * Minute)%Z.

(** [t.Sub u] saturates at the ends of the [Duration] range. *)
Definition time_sub (t u : Time) : Duration :=
  Z.max int64_min (Z.min int64_max (t - u)).

(** [t.Add d]; instants are unbounded here (Go's range is 292 billion years). *)
Definition time_add (t : Time) (d : Duration) : Time := (t + d)%Z.

Lemma time_sub_exact t u : in_int64 (t - u) → time_sub t u = (t - u)%Z.
Proof. unfold in_int64, time_sub. lia. Qed.

(** Saturation never changes a comparison with a [Duration]. *)
Lemma time_sub_le t u d :
  in_int64 d → (d < int64_max)%Z → (time_sub t u ≤ d ↔ t - u ≤ d)%Z.
Proof. unfold in_int64, time_sub. lia. Qed.

(** ** Selecting the best element of a list

    The loops of the source that keep "the best so far" and replace it only
    by a strictly better candidate compute [first_best]: a maximal element,
    the first of them in list order. *)
Section first_best.
Context {A : Type} (better : A → A → bool).

Definition keep_best (b : option A) (x : A) : option A :=
match b with
| None => Some x
| Some c => if better x c then Some x else b
end.
Definition first_best (l : list A) : option A := foldl keep_best None l.

(** A strict weak order on the elements that satisfy [P]: irreflexive,
  transitive, and incomparability chains. *)
Class StrictWeak (P : A → Prop) : Prop := {
better_irrefl x : P x → better x x = false;
better_trans x y z :
  P x → P y → P z → better x y = true → better y z = true → better x z = true;
not_better_trans x y z :
  P x → P y → P z → better x y = false → better y z = false → better x z = false
}.

Lemma foldl_keep_best_some l c : ∃ b, foldl keep_best (Some c) l = Some b.
Proof.
revert c. induction l as [|x l IH]; intros c; simpl; [by eauto|].
case_match; apply IH.
Qed.

Lemma foldl_keep_best_spec P `{!StrictWeak P} l c b :
P c → Forall P l → foldl keep_best (Some c) l = Some b →
(b = c ∨ b ∈ l) ∧ better c b = false ∧ ∀ x, x ∈ l → better x b = false.
Proof.
intros Hc Hl. revert c Hc. induction Hl as [|x l Hx Hl IH]; intros c Hc Hb; simpl in Hb.
- simplify_eq. split_and!; [by left | by apply better_irrefl | by intros ? ?%elem_of_nil].
- assert (∀ y, y ∈ l → P y) as HP by (by apply Forall_forall).
  destruct (better x c) eqn:E; apply IH in Hb as ([->|Hin] & Hbest & Hall); try done.
  + split_and!; [right; left | | intros y [->|Hy]%elem_of_cons; auto].
    destruct (better c x) eqn:E'; [|done].
    by rewrite (better_trans x c x) in Hbest.
  + split_and!; [by right; right | | intros y [->|Hy]%elem_of_cons; auto].
    destruct (better c b) eqn:E'; [|done].
    rewrite (better_trans x c b) in Hbest; auto.
  + split_and!; [by left|done|]. intros y [->|Hy]%elem_of_cons; auto.
  + split_and!; [by right; right|done|]. intros y [->|Hy]%elem_of_cons; [|by apply Hall].
    eapply not_better_trans; eauto.
Qed.

Lemma first_best_spec P `{!StrictWeak P} l b :
Forall P l → first_best l = Some b → b ∈ l ∧ ∀ x, x ∈ l → better x b = false.
Proof.
destruct l as [|c l]; [done|]. unfold first_best. simpl.
intros [Hc Hl]%Forall_cons ([->|Hin] & Hb & Hall)%(foldl_keep_best_spec P); auto.
all: split; [by constructor | intros x [->|Hx]%elem_of_cons; auto].
Qed.

Lemma first_best_elem l b : first_best l = Some b → b ∈ l.
Proof.
destruct l as [|c l]; [done|]. unfold first_best. simpl. revert c.
induction l as [|x l IH]; intros c; simpl; [intros; simplify_eq; by left|].
case_match; intros Hb%IH; inversion Hb; subst; repeat constructor; done.
Qed.

Lemma first_best_none l : first_best l = None ↔ l = [].
Proof.
destruct l as [|c l]; [done|]. unfold first_best. simpl.
destruct (foldl_keep_best_some l c) as [b ->]. done.
Qed.

Lemma first_best_singleton x : first_best [x] = Some x.
Proof. done. Qed.

Lemma first_best_snoc l x : first_best (l ++ [x]) = keep_best (first_best l) x.
Proof. unfold first_best. by rewrite foldl_app. Qed.
End first_best.

(** ** Lists *)

Lemma elem_of_list_filter {A} (f : A → bool) l x :
  x ∈ List.filter f l ↔ f x = true ∧ x ∈ l.
Proof. rewrite !list_elem_of_In, filter_In. tauto. Qed.

(** A filter that leaves one element. *)
Lemma filter_single {A} (f : A → bool) (l : list A) a : List.filter f l = [a] → a ∈ l ∧ f a = true.
Proof. intros E. apply and_comm, elem_of_list_filter. rewrite E. by left. Qed.

Lemma filter_single_unique {A} (f : A → bool) (l : list A) a b :
  List.filter f l = [a] → b ∈ l → f b = true → b = a.
Proof.
  intros E Hb Hf. assert (b ∈ List.filter f l) as H by (by apply elem_of_list_filter).
  rewrite E in H. by apply list_elem_of_singleton in H.
Qed.

Lemma NoDup_filter_bool {A} (f : A → bool) l : NoDup l → NoDup (List.filter f l).
Proof.
  induction 1 as [|x l Hx _ IH]; simpl; [constructor|]. case_match; [|done].
  constructor; [|done]. by intros [_ ?]%elem_of_list_filter.
Qed.

Lemma filter_snoc {A} (f : A → bool) l x :
  List.filter f (l ++ [x]) = List.filter f l ++ if f x then [x] else [].
Proof. by rewrite List.filter_app. Qed.

Lemma Sorted_filter_bool {A} (R : relation A) `{!Transitive R} (f : A → bool) l :
  StronglySorted R l → StronglySorted R (List.filter f l).
Proof.
  induction 1 as [|x l Hs IH Hx]; simpl; [constructor|].
  case_match; [|done]. constructor; [done|].
  rewrite Forall_forall in *. intros y [_ Hy]%elem_of_list_filter. by apply Hx.
Qed.

(** ** Maps *)

Lemma map_size_filter_split `{Countable K} {A} (P Q : K * A → Prop)
    `{!∀ x, Decision (P x), !∀ x, Decision (Q x)} (m : gmap K A) :
  (∀ k x, m !! k = Some x → Q (k, x) ↔ ¬ P (k, x)) →
  (size (filter P m) + size (filter Q m) = size m)%nat.
Proof.
  intros HPQ. rewrite <-(map_filter_union_complement P m) at 3.
  rewrite map_size_disj_union by apply map_disjoint_filter_complement.
  do 2 f_equal. apply map_filter_ext. intros k x Hx. by apply HPQ.
Qed.

(** ** Occurrences of a list in a list *)

Definition occurs {A} (s t : list A) : Prop := ∃ a b, t = a ++ s ++ b.

Lemma occurs_refl {A} (s : list A) : occurs s s.
Proof. exists [], []. by rewrite app_nil_r. Qed.

Lemma occurs_app_l {A} (s x y : list A) : occurs s x → occurs s (x ++ y).
Proof. intros (a & b & ->). exists a, (b ++ y). by rewrite <-!app_assoc. Qed.

Lemma occurs_app_r {A} (s x y : list A) : occurs s y → occurs s (x ++ y).
Proof. intros (a & b & ->). exists (x ++ a), b. by rewrite <-!app_assoc. Qed.

Lemma occurs_trans {A} (s x y : list A) : occurs s x → occurs x y → occurs s y.
Proof. intros H (a & b & ->). apply occurs_app_r. by apply occurs_app_l. Qed.

Lemma occurs_nil {A} (s : list A) : occurs s [] → s = [].
Proof. intros (a & b & H). symmetry in H. by apply app_eq_nil in H as [_ [? ?]%app_eq_nil]. Qed.

(** A separator that is not in [s] splits the places where [s] can occur. *)
Lemma occurs_split {A} (s x y : list A) c :
  c ∉ s → occurs s (x ++ c :: y) → occurs s x ∨ occurs s y.
Proof.
  intros Hc (a & b & H). rewrite app_assoc in H.
  apply app_eq_inv in H as [(k & -> & _)|(k & H & H')].
  { left. exists a, k. by rewrite app_assoc. }
  apply app_eq_inv in H as [(j & -> & ->)|(j & -> & ->)].
  - destruct j as [|c' j]; simpl in H'.
    + destruct s as [|d s]; simpl in H'; simplify_eq; [|exfalso; apply Hc; by left].
      left. exists x, []. by rewrite !app_nil_r.
    + simplify_eq. right. exists j, b. by rewrite <-app_assoc.
  - destruct k as [|d k]; simpl in H'.
    + left. exists a, []. by rewrite !app_nil_r.
    + simplify_eq. exfalso. apply Hc, elem_of_app. right. by left.
Qed.
