(* ===== verification/GoStrings.v ===== *)
(** Go strings: bytes, runes and the functions of packages [strings],
    [unicode/utf8] and [strconv] that the program uses.

    A Go [string] is a byte sequence, here a [string] of 8-bit [ascii]; a
    source literal such as "⚡" is the same UTF-8 bytes in both languages.
    Runes are [Z].  Decoding follows [utf8.DecodeRune]: an ill-formed byte is
    one [rune_error] of width one. *)
From S2P Require Import Prelude.

Local Open Scope Z_scope.

(** ** Bytes *)

Definition byte_of (c : ascii) : Z := Z.of_N (Ascii.N_of_ascii c).
Definition of_byte (z : Z) : ascii := Ascii.ascii_of_N (Z.to_N z).

Lemma byte_of_range c : 0 ≤ byte_of c < 256.
Proof. unfold byte_of. pose proof (Ascii.N_ascii_bounded c). lia. Qed.

Lemma byte_of_of_byte z : 0 ≤ z < 256 → byte_of (of_byte z) = z.
Proof. intros. unfold byte_of, of_byte. rewrite Ascii.N_ascii_embedding; lia. Qed.

Lemma of_byte_of c : of_byte (byte_of c) = c.
Proof. unfold byte_of, of_byte. by rewrite N2Z.id, Ascii.ascii_N_embedding. Qed.

Abbreviation bytes := String.list_ascii_of_string.
Abbreviation of_bytes := String.string_of_list_ascii.

(** [len(s)]. *)
Definition len (s : string) : Z := Z.of_nat (String.length s).

(** [s[:n]] and [s[n:]], within the bounds of [s]. *)
Definition str_take (n : Z) (s : string) : string := of_bytes (take (Z.to_nat n) (bytes s)).
Definition str_drop (n : Z) (s : string) : string := of_bytes (drop (Z.to_nat n) (bytes s)).

(** ** UTF-8 *)

Definition rune_error : Z := 65533.

Definition is_cont (b : Z) : bool := (128 <=? b) && (b <=? 191).

(** The first code point of a non-empty string: its rune, its bytes and the
    rest ([utf8.DecodeRuneInString]).  An ill-formed byte stands alone. *)
Definition decode_rune (c0 : ascii) (r0 : string) : Z * string * string :=
  let b0 := byte_of c0 in
  let bad := (rune_error, String c0 "", r0) in
  if b0 <? 128 then (b0, String c0 "", r0)
  else if b0 <? 194 then bad
  else if b0 <? 224 then
    match r0 with
    | String c1 r1 =>
      if is_cont (byte_of c1)
      then ((b0 - 192) * 64 + (byte_of c1 - 128), String c0 (String c1 ""), r1)
      else bad
    | _ => bad
    end
  else if b0 <? 240 then
    match r0 with
    | String c1 (String c2 r2) =>
      let b1 := byte_of c1 in
      let lo := if b0 =? 224 then 160 else 128 in
      let hi := if b0 =? 237 then 159 else 191 in
      if (lo <=? b1) && (b1 <=? hi) && is_cont (byte_of c2)
      then ((b0 - 224) * 4096 + (b1 - 128) * 64 + (byte_of c2 - 128),
            String c0 (String c1 (String c2 "")), r2)
      else bad
    | _ => bad
    end
  else if b0 <? 245 then
    match r0 with
    | String c1 (String c2 (String c3 r3)) =>
      let b1 := byte_of c1 in
      let lo := if b0 =? 240 then 144 else 128 in
      let hi := if b0 =? 244 then 143 else 191 in
      if (lo <=? b1) && (b1 <=? hi) && is_cont (byte_of c2) && is_cont (byte_of c3)
      then ((b0 - 240) * 262144 + (b1 - 128) * 4096 + (byte_of c2 - 128) * 64 + (byte_of c3 - 128),
            String c0 (String c1 (String c2 (String c3 ""))), r3)
      else bad
    | _ => bad
    end
  else bad.

(** The code points of [s] with their bytes; [n] bounds their number and
    the length of [s] is always enough. *)
Fixpoint segs_n (n : nat) (s : string) : list (Z * string) :=
  match n, s with
  | S n, String c r =>
    let '(rn, b, rest) := decode_rune c r in (rn, b) :: segs_n n rest
  | _, _ => []
  end.

Definition segs (s : string) : list (Z * string) := segs_n (String.length s) s.

(** [[]rune(s)]. *)
Definition runes (s : string) : list Z := (segs s).*1.

(** [utf8.RuneCountInString]. *)
Definition rune_count (s : string) : Z := Z.of_nat (length (runes s)).

Definition valid_rune (r : Z) : bool :=
  (0 <=? r) && (r <? 55296) || (57344 <=? r) && (r <=? 1114111).

(** [utf8.AppendRune]: the encoding of one rune. *)
Definition encode_rune (r : Z) : string :=
  let r := if valid_rune r then r else rune_error in
  if r <? 128 then String (of_byte r) ""
  else if r <? 2048 then
    String (of_byte (192 + r / 64)) (String (of_byte (128 + r mod 64)) "")
  else if r <? 65536 then
    String (of_byte (224 + r / 4096)) (String (of_byte (128 + r / 64 mod 64))
      (String (of_byte (128 + r mod 64)) ""))
  else
    String (of_byte (240 + r / 262144)) (String (of_byte (128 + r / 4096 mod 64))
      (String (of_byte (128 + r / 64 mod 64)) (String (of_byte (128 + r mod 64)) ""))).

Fixpoint concat_str (l : list string) : string :=
  match l with [] => "" | s :: l => String.app s (concat_str l) end.

(** [string(rs)] for a rune slice. *)
Definition string_of_runes (rs : list Z) : string := concat_str (map encode_rune rs).

Lemma str_app_cons c (a b : string) : String.app (String c a) b = String c (String.app a b).
Proof. done. Qed.

Lemma str_app_nil_l (a : string) : String.app "" a = a.
Proof. done. Qed.

Lemma str_app_assoc (a b c : string) :
  String.app (String.app a b) c = String.app a (String.app b c).
Proof. induction a as [|x a IH]; simpl; [done|]. unfold String.app in *. simpl. by rewrite IH. Qed.

Lemma str_app_nil_r (a : string) : String.app a "" = a.
Proof. induction a as [|x a IH]; [done|]. unfold String.app in *. simpl. by rewrite IH. Qed.

(** Linear arithmetic with division and remainder by constants. *)
Ltac dlia := Z.to_euclidean_division_equations; lia.

(** Decides every boolean integer comparison of the goal that [lia] can. *)
Ltac zbool :=
  repeat match goal with
  | |- context [?a <? ?b] =>
      first [ rewrite (proj2 (Z.ltb_lt a b)) by lia
            | rewrite (proj2 (Z.ltb_ge a b)) by lia ]
  | |- context [?a <=? ?b] =>
      first [ rewrite (proj2 (Z.leb_le a b)) by lia
            | rewrite (proj2 (Z.leb_gt a b)) by lia ]
  | |- context [?a =? ?b] =>
      first [ rewrite (proj2 (Z.eqb_eq a b)) by lia
            | rewrite (proj2 (Z.eqb_neq a b)) by lia ]
  end.

(** Names the quotient and the remainder of [r] by 64. *)
Ltac digit64 r :=
  let q := fresh "q" in let m := fresh "m" in
  let Hq := fresh in let Hm := fresh in
  pose proof (Z.div_mod r 64 ltac:(lia)) as Hq;
  pose proof (Z.mod_pos_bound r 64 ltac:(lia)) as Hm;
  set (q := r / 64) in *; set (m := r mod 64) in *; clearbody q m.

Lemma valid_rune_spec r :
  valid_rune r = true ↔ 0 ≤ r < 55296 ∨ 57344 ≤ r ≤ 1114111.
Proof.
  unfold valid_rune. rewrite orb_true_iff, !andb_true_iff.
  rewrite !Z.leb_le, !Z.ltb_lt. lia.
Qed.

Lemma encode_rune_byte0 r : encode_rune r ≠ "".
Proof. unfold encode_rune. by repeat case_match. Qed.

Lemma str_length_app (a b : string) :
  String.length (String.app a b) = (String.length a + String.length b)%nat.
Proof. unfold String.app. induction a; simpl; lia. Qed.

Lemma decode_rune_split c r rn b rest :
  decode_rune c r = (rn, b, rest) → String c r = String.app b rest ∧ b ≠ "".
Proof. unfold decode_rune. intros H. by repeat case_match; simplify_eq/=. Qed.

Lemma decode_rune_shorter c r rn b rest :
  decode_rune c r = (rn, b, rest) → (String.length rest ≤ String.length r)%nat.
Proof.
  intros [E Hb]%decode_rune_split. apply (f_equal String.length) in E.
  rewrite str_length_app in E. destruct b; simpl in *; [done | lia].
Qed.

(** Fuel beyond the length changes nothing. *)
Lemma segs_n_fuel n s : (String.length s ≤ n)%nat → segs_n n s = segs s.
Proof.
  unfold segs. revert s.
  assert (∀ m k s, (String.length s ≤ m)%nat → (String.length s ≤ k)%nat →
            segs_n m s = segs_n k s) as H; [|intros; by apply H].
  induction m as [|m IH]; intros [|k] [|c s] Hm Hk; simpl in *; try done; try lia.
  destruct (decode_rune c s) as [[rn b] rest] eqn:E.
  apply decode_rune_shorter in E. f_equal. apply IH; lia.
Qed.

Lemma segs_cons c r :
  segs (String c r) = let '(rn, b, rest) := decode_rune c r in (rn, b) :: segs rest.
Proof.
  unfold segs at 1. simpl. destruct (decode_rune c r) as [[rn b] rest] eqn:E.
  apply decode_rune_shorter in E. by rewrite segs_n_fuel by done.
Qed.

(** Induction along the decoding of a string. *)
Lemma segs_ind (P : string → Prop) :
  P "" →
  (∀ c r rn b rest, decode_rune c r = (rn, b, rest) → P rest → P (String c r)) →
  ∀ s, P s.
Proof.
  intros H0 HS s. remember (String.length s) as n eqn:Hn.
  revert s Hn. induction (lt_wf n) as [n _ IH]. intros [|c r] ->; [done|].
  destruct (decode_rune c r) as [[rn b] rest] eqn:E.
  eapply HS, IH; [done| |done]. apply decode_rune_shorter in E. simpl. lia.
Qed.

Lemma concat_str_app l l' : concat_str (l ++ l') = String.app (concat_str l) (concat_str l').
Proof. induction l as [|s l IH]; [done|]. simpl. by rewrite IH, str_app_assoc. Qed.

(** The code points partition the bytes. *)
Lemma segs_concat s : concat_str (segs s).*2 = s.
Proof.
  induction s as [|c r rn b rest E IH] using segs_ind; [done|].
  rewrite segs_cons, E, fmap_cons. cbn [concat_str snd]. rewrite IH.
  by apply decode_rune_split in E as [-> _].
Qed.

Lemma decode_encode r s :
  valid_rune r = true →
  ∃ c t, String.app (encode_rune r) s = String c t ∧
    decode_rune c t = (r, encode_rune r, s).
Proof.
  intros Hr. pose proof (proj1 (valid_rune_spec r) Hr) as Hb.
  unfold encode_rune. rewrite Hr.
  destruct (r <? 128) eqn:E1; rewrite ?Z.ltb_lt, ?Z.ltb_ge in E1;
    [|destruct (r <? 2048) eqn:E2; rewrite ?Z.ltb_lt, ?Z.ltb_ge in E2;
      [|destruct (r <? 65536) eqn:E3; rewrite ?Z.ltb_lt, ?Z.ltb_ge in E3]];
    (do 2 eexists; split; [reflexivity|]); unfold decode_rune, is_cont;
    try replace (r / 262144) with (r / 64 / 64 / 64) by (rewrite !Z.div_div by lia; done);
    try replace (r / 4096) with (r / 64 / 64) by (rewrite !Z.div_div by lia; done).
  - rewrite !byte_of_of_byte by lia. zbool. done.
  - digit64 r. rewrite !byte_of_of_byte by lia. zbool. cbn [andb].
    by replace ((192 + q - 192) * 64 + (128 + m - 128)) with r by lia.
  - digit64 r. digit64 q. rewrite !byte_of_of_byte by lia.
    destruct (decide (q0 = 0)) as [E0|E0]; [|destruct (decide (q0 = 13)) as [E13|E13]];
      zbool; cbn [andb]; do 2 f_equal; lia.
  - digit64 r. digit64 q. digit64 q0. rewrite !byte_of_of_byte by lia.
    destruct (decide (q1 = 0)) as [E0|E0]; [|destruct (decide (q1 = 4)) as [E13|E13]];
      zbool; cbn [andb]; do 2 f_equal; lia.
Qed.

Lemma segs_encode r s :
  valid_rune r = true →
  segs (String.app (encode_rune r) s) = (r, encode_rune r) :: segs s.
Proof.
  intros (c & t & -> & E)%(decode_encode r s). by rewrite segs_cons, E.
Qed.

Lemma decode_rune_valid c r rn b rest :
  decode_rune c r = (rn, b, rest) → valid_rune rn = true.
Proof.
  rewrite valid_rune_spec. unfold decode_rune, is_cont, rune_error.
  pose proof (byte_of_range c). intros E.
  repeat case_match; simplify_eq; rewrite ?andb_true_iff, ?Z.leb_le, ?Z.ltb_lt, ?Z.ltb_ge,
    ?Z.eqb_eq, ?Z.eqb_neq in *; lia.
Qed.

Lemma runes_valid s : Forall (λ r, valid_rune r = true) (runes s).
Proof.
  unfold runes. induction s as [|c r rn b rest E IH] using segs_ind; [constructor|].
  rewrite segs_cons, E, fmap_cons. constructor; [by eapply decode_rune_valid | done].
Qed.

(** Decoding inverts encoding on well-formed runes. *)
Lemma runes_string_of_runes rs :
  Forall (λ r, valid_rune r = true) rs → runes (string_of_runes rs) = rs.
Proof.
  unfold runes, string_of_runes. induction 1 as [|r rs Hr _ IH]; [done|].
  cbn [map concat_str]. by rewrite segs_encode, fmap_cons, IH.
Qed.

(** ** Package [strings] *)

(** [strings.CutPrefix]. *)
Fixpoint cut_prefix (s p : string) {struct p} : option string :=
  match p, s with
  | EmptyString, _ => Some s
  | String a p', String b s' => if Ascii.eqb a b then cut_prefix s' p' else None
  | String _ _, EmptyString => None
  end.

Definition has_prefix (s p : string) : bool :=
  match cut_prefix s p with Some _ => true | None => false end.

(** [strings.TrimPrefix]. *)
Definition trim_prefix (s p : string) : string :=
  match cut_prefix s p with Some r => r | None => s end.

(** What is left of [s] before the suffix [p]. *)
Fixpoint cut_suffix (s p : string) : option string :=
  if String.eqb s p then Some ""
  else match s with
       | EmptyString => None
       | String c s' => String c <$> cut_suffix s' p
       end.

Definition has_suffix (s p : string) : bool :=
  match cut_suffix s p with Some _ => true | None => false end.

Definition trim_suffix (s p : string) : string :=
  match cut_suffix s p with Some r => r | None => s end.

(** [strings.Cut]: the parts around the first [sep]. *)
Fixpoint str_cut (s sep : string) : option (string * string) :=
  match cut_prefix s sep with
  | Some r => Some ("", r)
  | None =>
    match s with
    | EmptyString => None
    | String c s' =>
      match str_cut s' sep with
      | Some (b, a) => Some (String c b, a)
      | None => None
      end
    end
  end.

(** [strings.Contains]. *)
Definition contains (s sub : string) : bool :=
  match str_cut s sub with Some _ => true | None => false end.

(** [strings.Split] for a non-empty separator; every piece consumes at least
    the separator, so the length of [s] is enough fuel. *)
Fixpoint split_n (n : nat) (s sep : string) : list string :=
  match n with
  | O => [s]
  | S n =>
    match str_cut s sep with
    | Some (b, a) => b :: split_n n a sep
    | None => [s]
    end
  end.
Definition split (s sep : string) : list string := split_n (String.length s) s sep.

(** [strings.Split(s, "\n")] by structural recursion. *)
Fixpoint split_char (c : ascii) (s : string) : list string :=
  match s with
  | EmptyString => [""]
  | String a s' =>
    if Ascii.eqb a c then "" :: split_char c s'
    else match split_char c s' with
         | [] => [String a ""]
         | w :: ws => String a w :: ws
         end
  end.
Definition newline : ascii := "010"%char.
Definition nl : string := String newline "".
Definition lines_of (s : string) : list string := split_char newline s.

(** The order of strings, byte by byte. *)
Definition str_le (a b : string) : bool := match String.compare a b with Gt => false | _ => true end.

(** [strings.Join]. *)
Fixpoint join (l : list string) (sep : string) : string :=
  match l with
  | [] => ""
  | [s] => s
  | s :: l' => s +:+ sep +:+ join l' sep
  end.

(** [strings.Count] and [strings.ReplaceAll] for a non-empty [old]. *)
Definition count (s old : string) : Z := Z.of_nat (length (split s old)) - 1.
Definition replace_all (s old new : string) : string := join (split s old) new.

(** [strings.TrimLeft], [TrimRight] and [Trim] with an ASCII cut set. *)
Fixpoint drop_while (P : ascii → bool) (l : list ascii) : list ascii :=
  match l with
  | [] => []
  | c :: l' => if P c then drop_while P l' else l
  end.
Definition in_cutset (cutset : string) (c : ascii) : bool :=
  existsb (Ascii.eqb c) (bytes cutset).
Definition trim_left (s cutset : string) : string :=
  of_bytes (drop_while (in_cutset cutset) (bytes s)).
Definition trim_right (s cutset : string) : string :=
  of_bytes (reverse (drop_while (in_cutset cutset) (reverse (bytes s)))).
Definition trim (s cutset : string) : string := trim_right (trim_left s cutset) cutset.

(** [unicode.IsSpace]: the White_Space code points. *)
Definition is_space (r : Z) : bool :=
  ((9 <=? r) && (r <=? 13)) || (r =? 32) || (r =? 133) || (r =? 160) || (r =? 5760)
  || ((8192 <=? r) && (r <=? 8202)) || (r =? 8232) || (r =? 8233) || (r =? 8239)
  || (r =? 8287) || (r =? 12288).

Fixpoint drop_spaces (l : list (Z * string)) : list (Z * string) :=
  match l with
  | [] => []
  | (r, b) :: l' => if is_space r then drop_spaces l' else l
  end.

(** [strings.TrimSpace]. *)
Definition trim_space (s : string) : string :=
  concat_str (reverse (drop_spaces (reverse (drop_spaces (segs s))))).*2.

(** [strings.Fields]. *)
Fixpoint fields_go (cur : string) (l : list (Z * string)) : list string :=
  match l with
  | [] => if String.eqb cur "" then [] else [cur]
  | (r, b) :: l' =>
    if is_space r
    then if String.eqb cur "" then fields_go "" l' else cur :: fields_go "" l'
    else fields_go (cur +:+ b) l'
  end.
Definition fields (s : string) : list string := fields_go "" (segs s).

(** ** Case mapping

    Letters beyond ASCII are mapped by tables of package [unicode]; the model
    takes them as an instance of [UnicodeTables] and fixes the ASCII part. *)
Class UnicodeTables := {
  uc_lower : Z → Z;            (** [unicode.ToLower] above U+007F *)
  uc_fold : Z → Z → bool;      (** simple-fold equivalence of two runes not both ASCII *)
  uc_letter : Z → bool;        (** [unicode.IsLetter] above U+007F *)
  uc_digit : Z → bool;         (** [unicode.IsDigit] above U+007F *)
  uc_number : Z → bool;        (** [unicode.IsNumber] above U+007F *)
  uc_print : Z → bool          (** [strconv.IsPrint] above U+007F *)
}.

Definition ascii_upper (r : Z) : bool := (65 <=? r) && (r <=? 90).
Definition ascii_lower_letter (r : Z) : bool := (97 <=? r) && (r <=? 122).
Definition ascii_digit (r : Z) : bool := (48 <=? r) && (r <=? 57).
Definition lower_ascii (r : Z) : Z := if ascii_upper r then r + 32 else r.

Section Case.
Context {U : UnicodeTables}.

Definition rune_lower (r : Z) : Z := if r <? 128 then lower_ascii r else uc_lower r.

(** [strings.ToLower]. *)
Definition to_lower (s : string) : string := string_of_runes (map rune_lower (runes s)).

Definition rune_fold_eq (a b : Z) : bool :=
(a =? b) ||
(if (a <? 128) && (b <? 128) then lower_ascii a =? lower_ascii b else uc_fold a b).

(** [strings.EqualFold]. *)
Fixpoint fold_eq_runes (a b : list Z) : bool :=
match a, b with
| [], [] => true
| x :: a', y :: b' => rune_fold_eq x y && fold_eq_runes a' b'
| _, _ => false
end.
Definition equal_fold (s t : string) : bool := fold_eq_runes (runes s) (runes t).

Definition is_letter (r : Z) : bool :=
if r <? 128 then ascii_upper r || ascii_lower_letter r else uc_letter r.
Definition is_digit (r : Z) : bool := if r <? 128 then ascii_digit r else uc_digit r.
Definition is_number (r : Z) : bool := if r <? 128 then ascii_digit r else uc_number r.
End Case.

(** The Latin-1 tables: a concrete instance for examples. *)
Definition latin1_tables : UnicodeTables := {|
  uc_lower r := if ((192 <=? r) && (r <=? 222) && negb (r =? 215))%bool then r + 32 else r;
  uc_fold a b :=
    ((192 <=? Z.min a b) && (Z.min a b <=? 222) && negb (Z.min a b =? 215)
     && (Z.max a b =? Z.min a b + 32))%bool;
  uc_letter r := (((192 <=? r) && negb (r =? 215) && negb (r =? 247)) || (r =? 170) || (r =? 181)
                  || (r =? 186))%bool;
  uc_digit r := false;
  uc_number r := (existsb (Z.eqb r) [178; 179; 185; 188; 189; 190])%bool;
  uc_print r := ((161 <=? r) && (r <=? 255) && negb (r =? 173))%bool
|}.

(** ** Package [strconv] *)

Fixpoint digits_value (acc : Z) (l : list ascii) : option Z :=
  match l with
  | [] => Some acc
  | c :: l' =>
    if ascii_digit (byte_of c) then digits_value (acc * 10 + (byte_of c - 48)) l' else None
  end.

Definition nat_value (l : list ascii) : option Z :=
  match l with [] => None | _ => digits_value 0 l end.

(** [strconv.Atoi] and [strconv.ParseInt(s, 10, 64)]: an optional sign, at
    least one digit, and the [int64] range; [None] is any error. *)
Definition atoi (s : string) : option Z :=
  let v :=
    match s with
    | String "+" r => nat_value (bytes r)
    | String "-" r => Z.opp <$> nat_value (bytes r)
    | _ => nat_value (bytes s)
    end in
  match v with
  | Some n => if decide (in_int64 n) then Some n else None
  | None => None
  end.

(** [strconv.Itoa] and [%d]. *)
Definition itoa (n : Z) : string := pretty n.

(** The lowest [width] hexadecimal digits. *)
Fixpoint hex_digits (width : nat) (n : Z) : string :=
  match width with
  | O => ""
  | S w => String.append (hex_digits w (n / 16)) (String (default "0"%char (String.get (Z.to_nat (n mod 16)) "0123456789abcdef")) "")
  end.

(** [strconv.Quote] and [%q]. *)
Section Quote.
Context {U : UnicodeTables}.
Definition backslash : string := String "092" "".
Definition is_print (r : Z) : bool := if r <? 128 then (32 <=? r) && (r <? 127) else uc_print r.
Definition control_escape (r : Z) : option string :=
  if r =? 7 then Some "a" else if r =? 8 then Some "b" else if r =? 9 then Some "t" else if r =? 10 then Some "n"
  else if r =? 11 then Some "v" else if r =? 12 then Some "f" else if r =? 13 then Some "r" else None.
Definition quote_rune (seg : Z * string) : string :=
  let '(r, b) := seg in
  if (r =? rune_error) && Nat.eqb (String.length b) 1
  then backslash +:+ "x" +:+ match b with String c _ => hex_digits 2 (byte_of c) | EmptyString => "" end
  else if (r =? 34) || (r =? 92) then backslash +:+ b
  else if is_print r then b
  else backslash +:+ match control_escape r with
                     | Some e => e
                     | None => if (r <? 32) || (r =? 127) then "x" +:+ hex_digits 2 r
                               else if r <? 65536 then "u" +:+ hex_digits 4 r
                               else "U" +:+ hex_digits 8 r
                     end.
Definition quote (s : string) : string :=
  String "034" (String.concat "" (map quote_rune (segs s)) +:+ String "034" "").
End Quote.

(** ** Trimming code points

    An ASCII cut set never splits the encoding of a code point, so trimming
    the bytes of a well-formed string trims its code points. *)
Fixpoint drop_runes (p : Z → bool) (rs : list Z) : list Z :=
  match rs with
  | [] => []
  | r :: rs' => if p r then drop_runes p rs' else rs
  end.

Definition trim_runes (p : Z → bool) (rs : list Z) : list Z :=
  reverse (drop_runes p (reverse (drop_runes p rs))).

Lemma bytes_app a b : bytes (a +:+ b) = bytes a ++ bytes b.
Proof. induction a as [|c a IH]; [done|]. rewrite str_app_cons. simpl. by rewrite IH. Qed.

Lemma bytes_string_of_runes rs :
  bytes (string_of_runes rs) = mjoin (map (λ r, bytes (encode_rune r)) rs).
Proof.
  unfold string_of_runes. induction rs as [|r rs IH]; [done|]. cbn [map concat_str].
  rewrite bytes_app, IH. done.
Qed.

(** [f r] is the one byte of an ASCII rune, or starts above ASCII. *)
Definition byte_shape (f : Z → list ascii) (r : Z) : Prop :=
  (r < 128 ∧ f r = [of_byte r]) ∨
  (128 ≤ r ∧ ∃ b t, f r = b :: t ∧ 128 ≤ byte_of b).

Ltac high_byte := do 2 eexists; split; [reflexivity|]; rewrite byte_of_of_byte; dlia.

Lemma encode_rune_shape r :
  valid_rune r = true →
  byte_shape (λ r, bytes (encode_rune r)) r ∧ byte_shape (λ r, reverse (bytes (encode_rune r))) r.
Proof.
  intros Hr. pose proof (proj1 (valid_rune_spec r) Hr) as Hb.
  unfold byte_shape, encode_rune. rewrite Hr.
  destruct (Z.ltb_spec r 128); [by auto|].
  split; right; (split; [lia|]);
    (destruct (Z.ltb_spec r 2048); [|destruct (Z.ltb_spec r 65536)]); high_byte.
Qed.

Lemma drop_while_mjoin P p f rs :
  (∀ c, P c = p (byte_of c)) → (∀ r, 128 ≤ r → p r = false) →
  Forall (λ r, 0 ≤ r ∧ byte_shape f r) rs →
  drop_while P (mjoin (map f rs)) = mjoin (map f (drop_runes p rs)).
Proof.
  intros HP Hp. induction 1 as [|r rs [H0 Hr] _ IH]; [done|]. simpl.
  destruct Hr as [[Hlt E]|[Hge (b & t & E & Hb)]].
  - rewrite E. simpl. rewrite HP, byte_of_of_byte by lia.
    destruct (p r); [done|]. simpl. by rewrite E.
  - rewrite E. simpl. rewrite HP, (Hp (byte_of b)), (Hp r) by lia. simpl. by rewrite E.
Qed.

Lemma reverse_mjoin {A} (ls : list (list A)) : reverse (mjoin ls) = mjoin (map reverse (reverse ls)).
Proof.
  induction ls as [|l ls IH]; [done|]. simpl. rewrite reverse_app, IH, reverse_cons, map_app.
  rewrite join_app. simpl. by rewrite app_nil_r.
Qed.

Lemma map_reverse {A B} (f : A → B) l : map f (reverse l) = reverse (map f l).
Proof. apply (fmap_reverse f l). Qed.

Lemma of_bytes_bytes l : bytes (of_bytes l) = l.
Proof. apply String.list_ascii_of_string_of_list_ascii. Qed.

Lemma bytes_inj a b : bytes a = bytes b → a = b.
Proof.
  intros E. rewrite <-(String.string_of_list_ascii_of_string a), E.
  apply String.string_of_list_ascii_of_string.
Qed.

Lemma Forall_drop_runes P p rs : Forall P rs → Forall P (drop_runes p rs).
Proof. induction 1; simpl; [done|]. destruct (p _); auto. Qed.

Lemma Forall_trim_runes P p rs : Forall P rs → Forall P (trim_runes p rs).
Proof. intros ?. unfold trim_runes. rewrite Forall_reverse. apply Forall_drop_runes.
  rewrite Forall_reverse. by apply Forall_drop_runes. Qed.

Lemma trim_string_of_runes cs p rs :
  (∀ c, in_cutset cs c = p (byte_of c)) → (∀ r, 128 ≤ r → p r = false) →
  Forall (λ r, valid_rune r = true) rs →
  trim (string_of_runes rs) cs = string_of_runes (trim_runes p rs).
Proof.
  intros Hcs Hp Hv. unfold trim, trim_left, trim_right, trim_runes.
  assert (Hsh : ∀ l, Forall (λ r, valid_rune r = true) l →
            Forall (λ r, 0 ≤ r ∧ byte_shape (λ r, bytes (encode_rune r)) r) l ∧
            Forall (λ r, 0 ≤ r ∧ byte_shape (λ r, reverse (bytes (encode_rune r))) r) l).
  { intros l Hl. split; apply (Forall_impl _ _ _ Hl); intros r Hr;
      (split; [apply valid_rune_spec in Hr; lia|by apply encode_rune_shape]). }
  apply bytes_inj. rewrite !of_bytes_bytes, !bytes_string_of_runes.
  rewrite (drop_while_mjoin _ p) by (try done; by apply Hsh).
  rewrite reverse_mjoin, <-map_reverse, map_map.
  rewrite (drop_while_mjoin _ p) by
    (try done; apply Hsh; rewrite Forall_reverse; by apply Forall_drop_runes).
  rewrite reverse_mjoin, <-map_reverse, map_map.
  f_equal. apply map_ext. intros r. by rewrite reverse_involutive.
Qed.

Lemma drop_runes_app p rs : ∃ pre, rs = pre ++ drop_runes p rs.
Proof.
  induction rs as [|r rs [pre E]]; [by exists []|]. simpl. destruct (p r); [|by exists []].
  exists (r :: pre). simpl. by f_equal.
Qed.

Lemma drop_runes_head p rs r : head (drop_runes p rs) = Some r → p r = false.
Proof.
  induction rs as [|x rs IH]; simpl; [done|]. destruct (p x) eqn:E; [done|]. simpl. by intros [= <-].
Qed.

Lemma drop_runes_id p rs : (∀ r, head rs = Some r → p r = false) → drop_runes p rs = rs.
Proof. destruct rs as [|x rs]; simpl; [done|]. intros H. by rewrite H. Qed.

(** What is trimmed is an infix. *)
Lemma trim_runes_infix p rs : ∃ pre post, rs = pre ++ trim_runes p rs ++ post.
Proof.
  unfold trim_runes. destruct (drop_runes_app p rs) as [pre E].
  destruct (drop_runes_app p (reverse (drop_runes p rs))) as [post Ep].
  exists pre, (reverse post). rewrite <-reverse_app, <-Ep, reverse_involutive. done.
Qed.

Lemma trim_runes_last p rs r : last (trim_runes p rs) = Some r → p r = false.
Proof. unfold trim_runes. rewrite last_reverse. apply drop_runes_head. Qed.

Lemma trim_runes_head p rs r : head (trim_runes p rs) = Some r → p r = false.
Proof.
  intros E. assert (head (drop_runes p rs) = Some r) as H; [|by eapply drop_runes_head].
  unfold trim_runes in E.
  destruct (drop_runes_app p (reverse (drop_runes p rs))) as [pre Ep].
  rewrite <-(reverse_involutive (drop_runes p rs)), Ep, reverse_app.
  destruct (reverse (drop_runes p (reverse (drop_runes p rs)))); [done|]. by injection E as ->.
Qed.

Lemma trim_runes_id p rs :
  (∀ r, head rs = Some r → p r = false) → (∀ r, last rs = Some r → p r = false) →
  trim_runes p rs = rs.
Proof.
  intros Hh Hl. unfold trim_runes. rewrite (drop_runes_id p rs) by done.
  rewrite drop_runes_id; [apply reverse_involutive|].
  intros r. rewrite <-(reverse_involutive rs), last_reverse in Hl. apply Hl.
Qed.

(** ** Occurrences of a string in a string *)

Definition str_occurs (s t : string) : Prop := occurs (bytes s) (bytes t).

Lemma str_occurs_length s t : str_occurs s t → (String.length s ≤ String.length t)%nat.
Proof.
  assert (Hl : ∀ u, String.length u = length (bytes u)) by (induction u; simpl; congruence).
  intros (a & b & H). rewrite !Hl, H, !length_app. lia.
Qed.

Lemma cut_prefix_bytes s p r : cut_prefix s p = Some r ↔ bytes s = bytes p ++ bytes r.
Proof.
  revert s. induction p as [|c p IH]; intros s; simpl.
  - split; [congruence|]. intros ->%bytes_inj. done.
  - destruct s as [|d s]; simpl; [done|]. destruct (Ascii.eqb_spec c d) as [<-|Hne].
    + rewrite IH. split; [by intros ->|]. by intros [= ->].
    + split; [done|]. congruence.
Qed.

Lemma str_cut_none t s : str_cut t s = None → ¬ str_occurs s t.
Proof.
  induction t as [|c t IH]; intros H (a & b & E); cbn [str_cut] in H.
  - destruct (cut_prefix "" s) eqn:Hp; [done|]. destruct s; [done|].
    symmetry in E. apply app_eq_nil in E as [_ E]. done.
  - destruct (cut_prefix (String c t) s) eqn:Hp; [done|].
    destruct (str_cut t s) as [[]|] eqn:Hc; [done|]. destruct a as [|d a].
    + destruct (cut_prefix_bytes (String c t) s (of_bytes b)) as [_ Hx].
      rewrite of_bytes_bytes in Hx. rewrite Hx in Hp by done. done.
    + simpl in E. injection E as _ E. apply IH; [done|]. by exists a, b.
Qed.

Lemma str_cut_first t s b a :
  s ≠ "" → str_cut t s = Some (b, a) → bytes t = bytes b ++ bytes s ++ bytes a ∧ ¬ str_occurs s b.
Proof.
  intros Hs. revert b. induction t as [|c t IH]; intros b H; cbn [str_cut] in H.
  - destruct (cut_prefix "" s) eqn:Hp; [|done]. by destruct s.
  - destruct (cut_prefix (String c t) s) as [r|] eqn:Hp.
    + simplify_eq. apply cut_prefix_bytes in Hp. split; [done|].
      intros H%occurs_nil. apply Hs. by apply bytes_inj.
    + destruct (str_cut t s) as [[b' a']|] eqn:Hc; [|done]. simplify_eq.
      destruct (IH b' eq_refl) as [E Hno]. split; [simpl; by rewrite E|].
      intros (x & y & Hx). destruct x as [|d x]; simpl in Hx.
      * assert (cut_prefix (String c t) s = Some (of_bytes (y ++ bytes s ++ bytes a))); [|congruence].
        apply cut_prefix_bytes. rewrite of_bytes_bytes, (app_assoc (bytes s) y), <-Hx. simpl. by rewrite E.
      * injection Hx as _ Hx. apply Hno. by exists x, y.
Qed.

Lemma length_bytes s : length (bytes s) = String.length s.
Proof. induction s; simpl; congruence. Qed.

(** The pieces of [split] are pieces of the string and hold no separator. *)
Lemma split_pieces t s :
  s ≠ "" → Forall (λ p, str_occurs p t ∧ ¬ str_occurs s p) (split t s) ∧ join (split t s) s = t.
Proof.
  intros Hs. unfold split. assert (∀ n t, (String.length t ≤ n)%nat →
    Forall (λ p, str_occurs p t ∧ ¬ str_occurs s p) (split_n n t s) ∧ join (split_n n t s) s = t) as H;
    [|by apply H].
  clear t. induction n as [|n IH]; intros t Hn; simpl.
  - split; [|done]. constructor; [|constructor]. split; [apply occurs_refl|].
    destruct t; [|simpl in Hn; lia]. intros H%occurs_nil. apply Hs. by apply bytes_inj.
  - destruct (str_cut t s) as [[b a]|] eqn:Hc.
    + apply str_cut_first in Hc as [E Hno]; [|done].
      assert (Hlen : (String.length a < String.length t)%nat).
      { rewrite <-!length_bytes, E, !length_app. destruct s; [done|]. simpl. lia. }
      destruct (IH a) as [Hf Hj]; [lia|]. split.
      * constructor; [split; [|done]; unfold str_occurs; rewrite E; apply occurs_app_l, occurs_refl|].
        eapply Forall_impl; [done|]. intros p [Hp ?]. split; [|done].
        unfold str_occurs. rewrite E. by do 2 apply occurs_app_r.
      * assert (split_n n a s ≠ []) as Hne by (destruct n; simpl; [done|]; by case_match; [case_match|]).
        destruct (split_n n a s) as [|p ps] eqn:Es; [done|]. rewrite <-Es in *.
        replace (join (b :: split_n n a s) s) with (b +:+ s +:+ join (split_n n a s) s) by (by rewrite Es).
        rewrite Hj. apply bytes_inj. by rewrite !bytes_app, E.
    + split; [|done]. constructor; [|constructor]. split; [apply occurs_refl|by apply str_cut_none].
Qed.

Lemma split_nonempty t s : split t s ≠ [].
Proof. unfold split. destruct (String.length t); simpl; [done|]. repeat case_match; done. Qed.

(** Nothing is counted exactly when the string does not occur. *)
Lemma count_zero t s : s ≠ "" → ¬ 0 < count t s → ¬ str_occurs s t.
Proof.
  intros Hs Hc. destruct (split_pieces t s Hs) as [Hf Hj]. unfold count in Hc.
  pose proof (split_nonempty t s). destruct (split t s) as [|p [|q ps]]; simpl in Hc; [done| |lia].
  simpl in Hj. subst p. by inversion Hf as [|?? [_ ?]].
Qed.

(** A code point below U+0080 is one byte. *)
Lemma decode_rune_ascii c r rn b rest :
  decode_rune c r = (rn, b, rest) → rn < 128 → b = String c "" ∧ rn = byte_of c.
Proof.
  unfold decode_rune, is_cont, rune_error. pose proof (byte_of_range c). intros E Hr.
  repeat case_match; simplify_eq; rewrite ?andb_true_iff, ?Z.leb_le, ?Z.ltb_lt, ?Z.ltb_ge,
    ?Z.eqb_eq, ?Z.eqb_neq in *; try done; lia.
Qed.

(** The bytes of a string of ASCII code points are those code points. *)
Lemma runes_ascii_bytes s : Forall (λ r, r < 128) (runes s) → map byte_of (bytes s) = runes s.
Proof.
  unfold runes. induction s as [|c r rn b rest E IH] using segs_ind; [done|].
  rewrite segs_cons, E, fmap_cons. intros Hf. inversion Hf as [|?? Hr Hrest]; subst.
  destruct (decode_rune_ascii _ _ _ _ _ E Hr) as [-> ->].
  apply decode_rune_split in E as [E _]. rewrite str_app_cons, str_app_nil_l in E. injection E as ->.
  cbn. f_equal. by apply IH.
Qed.
(** A code point never runs into an ASCII byte. *)
Lemma decode_rune_app_ascii c r x b :
  byte_of x < 128 →
  decode_rune c (r +:+ String x b) = let '(rn, bs, rest) := decode_rune c r in (rn, bs, rest +:+ String x b).
Proof.
  intros Hx. assert (Hc : is_cont (byte_of x) = false) by (unfold is_cont; lia).
  assert (Hl : ∀ lo, 128 ≤ lo → (lo <=? byte_of x) = false) by (intros; lia).
  unfold decode_rune. destruct r as [|c1 [|c2 [|c3 r]]]; cbn [String.append]; rewrite ?Hc, ?andb_false_r;
  repeat (case_match; simplify_eq/=; try done).
  all: unfold is_cont in *; exfalso; lia.
Qed.

Lemma segs_app_ascii a x b : byte_of x < 128 → segs (a +:+ String x b) = segs a ++ segs (String x b).
Proof.
  intros Hx. induction a as [|c r rn bs rest E IH] using segs_ind; [done|].
  change (String c r +:+ String x b) with (String c (r +:+ String x b)).
  rewrite (segs_cons c), (segs_cons c), decode_rune_app_ascii, E by done. by rewrite IH.
Qed.

Lemma segs_ascii_cons x b : byte_of x < 128 → segs (String x b) = (byte_of x, String x "") :: segs b.
Proof. intros Hx. rewrite segs_cons. unfold decode_rune. by rewrite (proj2 (Z.ltb_lt _ _) Hx). Qed.

Lemma runes_app_ascii a x b : byte_of x < 128 → runes (a +:+ String x b) = runes a ++ byte_of x :: runes b.
Proof. intros Hx. unfold runes. rewrite segs_app_ascii, segs_ascii_cons by done. by rewrite fmap_app. Qed.

(** ** Decimal numbers *)

Lemma digits_value_step acc x l :
  (x < 10)%N → digits_value acc (pretty_N_char x :: l) = digits_value (acc * 10 + Z.of_N x) l.
Proof.
  intros Hx. assert (x = 0 ∨ x = 1 ∨ x = 2 ∨ x = 3 ∨ x = 4 ∨ x = 5 ∨ x = 6 ∨ x = 7 ∨ x = 8 ∨ x = 9)%N as H by lia.
  destruct_or! H; subst x; reflexivity.
Qed.

Lemma digits_value_pretty x s : digits_value 0 (bytes (pretty_N_go x s)) = digits_value (Z.of_N x) (bytes s).
Proof.
  revert s. induction (N.lt_wf_0 x) as [x _ IH]. intros s.
  destruct (decide (x = 0)%N) as [->|Hx]; [by rewrite pretty_N_go_0|].
  rewrite pretty_N_go_step by lia. rewrite IH by (apply N.div_lt; lia).
  change (bytes (String ?c s)) with (c :: bytes s). rewrite digits_value_step by (apply N.mod_lt; lia).
  f_equal. rewrite <-(N2Z.inj_mul _ 10), <-N2Z.inj_add. f_equal. pose proof (N.div_mod x 10 ltac:(lia)). lia.
Qed.

(** A text of digits only is read as its value. *)
Lemma atoi_digits s n : digits_value 0 (bytes s) = Some n → s ≠ "" → in_int64 n → atoi s = Some n.
Proof.
  intros Hd Hs Hn. assert (nat_value (bytes s) = Some n) as Hv by (destruct s; [done|exact Hd]).
  unfold atoi. destruct s as [|c s]; [done|].
  assert (∀ d, ascii_digit (byte_of d) = false → c ≠ d) as Hc.
  { intros d E ->. change (bytes (String d s)) with (d :: bytes s) in Hd. cbn [digits_value] in Hd. by rewrite E in Hd. }
  assert (c ≠ "+"%char ∧ c ≠ "-"%char) as [Hp Hm] by (split; by apply Hc).
  destruct c as [[] [] [] [] [] [] [] []]; try (rewrite Hv; by rewrite decide_True); done.
Qed.

Lemma pretty_N_go_nonempty x s : s ≠ "" → pretty_N_go x s ≠ "".
Proof.
  revert s. induction (N.lt_wf_0 x) as [x _ IH]. intros s Hs. destruct (decide (x = 0)%N) as [->|Hx]; [by rewrite pretty_N_go_0|].
  rewrite pretty_N_go_step by lia. apply IH; [apply N.div_lt; lia|done].
Qed.

Lemma atoi_itoa n : 0 ≤ n → in_int64 n → atoi (itoa n) = Some n.
Proof.
  intros H0 Hn. destruct n as [|p|p]; [reflexivity| |lia]. change (itoa (Z.pos p)) with (pretty_N_go (N.pos p) "").
  apply atoi_digits; [by rewrite digits_value_pretty| |done].
  rewrite pretty_N_go_step by lia. by apply pretty_N_go_nonempty.
Qed.
