(* ===== verification/Errors.v ===== *)
(** The error vocabulary: the sentinels of internal/domain/errors.go, the
    wrapped errors the program builds around them, and [errors.Is].

    An error is a value.  [fmt.Errorf] with [%w] keeps its format string, its
    rendered operands and the errors it wraps; errors of the Telegram library
    and of package [context] are constructors of their own, so that
    [errors.Is] and [errors.As] are structural recursions over the chain. *)
From S2P Require Import Prelude GoStrings.

Local Open Scope Z_scope.

(** internal/domain/errors.go, in its order. *)
Inductive sentinel :=
  | ErrNotConfigured | ErrAgentGone | ErrTopicGone | ErrTopicClosed | ErrTopicMuted
  | ErrForbidden | ErrMessageGone | ErrBotUnauthorized | ErrPollerConflict
  | ErrChatMigrated | ErrDisconnected | ErrAlreadyRunning | ErrNotRunning
  | ErrUnsupportedPlatform | ErrControlUnavailable | ErrUnknownOption
  | ErrInvalidOption | ErrDuplicateIcon | ErrIdleUnsupported | ErrNoReply
  | ErrFileTooBig | ErrNotRepository | ErrGitMissing | ErrInvalidObserver.

#[global] Instance sentinel_eq_dec : EqDecision sentinel.
Proof. solve_decision. Defined.

(** Errors of the Telegram library the adapter tells apart, of packages
    [context], [io] and [io/fs], the two "not modified" sentinels of the
    Telegram adapter, and the private sentinels of the Herdr and transcript
    adapters, the cancelled wizard, the cap of a git run and two errors of
    system calls. *)
Inductive foreign :=
  | CtxCanceled | CtxDeadlineExceeded
  | BotForbidden | BotUnauthorized | BotConflict | BotBadRequest | BotNotFound
  | ErrTopicNotModified | ErrMessageNotModified
  | EOF | ErrUnexpectedEOF | ErrNotExist | ErrExist
  | errDial | errStop | ErrSetupCancelled
  | errOutputCapped | ESRCH | EPERM.

#[global] Instance foreign_eq_dec : EqDecision foreign.
Proof. solve_decision. Defined.

(** - [Sentinel s], [Foreign f]: a sentinel value;
    - [ChatMigratedError id]: the domain error type;
    - [TooManyRequests msg s], [MigrateError id]: error types of the library;
    - [APIError code desc wait inner]: the Telegram adapter's error type;
    - [HerdrError code message]: the Herdr adapter's [*APIError];
    - [Errorf fmt args errs]: [fmt.Errorf] wrapping [errs];
    - [Opaque msg]: any other error. *)
Inductive error :=
  | Sentinel (s : sentinel)
  | Foreign (f : foreign)
  | ChatMigratedError (newChatID : Z)
  | TooManyRequests (message : string) (retryAfter : Z)
  | MigrateError (toChatID : Z)
  | APIError (code : Z) (description : string) (retryAfter : Duration) (inner : error)
  | HerdrError (code message : string)
  | Errorf (format : string) (args : list string) (wraps : list error)
  | Opaque (msg : string).

(** Some error of the [%w] tree of [e] satisfies [p]. *)
Fixpoint chain_any (p : error → bool) (e : error) : bool :=
  p e ||
  match e with
  | APIError _ _ _ inner => chain_any p inner
  | Errorf _ _ es => existsb (chain_any p) es
  | _ => false
  end.

(** [errors.Is(err, target)] for a domain sentinel; a [ChatMigratedError]
    answers for [ErrChatMigrated] through its [Is] method. *)
Definition is_sentinel (s : sentinel) (e : error) : bool :=
  match e with
  | Sentinel s' => bool_decide (s' = s)
  | ChatMigratedError _ => bool_decide (s = ErrChatMigrated)
  | _ => false
  end.
Definition errors_is (e : error) (s : sentinel) : bool := chain_any (is_sentinel s) e.

(** [errors.Is] for the other sentinels. *)
Definition is_foreign_node (f : foreign) (e : error) : bool :=
  match e with Foreign f' => bool_decide (f' = f) | _ => false end.
Definition is_foreign (e : error) (f : foreign) : bool := chain_any (is_foreign_node f) e.

(** [errors.As]: the first node of the chain, depth first, of a kind. *)
Fixpoint errors_as {A} (pick : error → option A) (e : error) : option A :=
  match pick e with
  | Some a => Some a
  | None =>
    match e with
    | APIError _ _ _ inner => errors_as pick inner
    | Errorf _ _ es =>
      (fix go (es : list error) : option A :=
         match es with
         | [] => None
         | e :: es' => match errors_as pick e with Some a => Some a | None => go es' end
         end) es
    | _ => None
    end
  end.

Definition context_error (e : error) : bool :=
  is_foreign e CtxCanceled || is_foreign e CtxDeadlineExceeded.

Lemma errors_is_sentinel s t : errors_is (Sentinel s) t = bool_decide (s = t).
Proof. unfold errors_is. simpl. by rewrite orb_false_r. Qed.

(** Wrapping one error with [%w] keeps its identity. *)
Lemma errors_is_wrap f args e t : errors_is (Errorf f args [e]) t = errors_is e t.
Proof. unfold errors_is. simpl. by rewrite orb_false_r. Qed.

Lemma is_foreign_wrap f args e t : is_foreign (Errorf f args [e]) t = is_foreign e t.
Proof. unfold is_foreign. simpl. by rewrite orb_false_r. Qed.

(** A computation that may fail. *)
Inductive result (A : Type) :=
  | Ok (a : A)
  | Err (e : error).
Arguments Ok {A} a.
Arguments Err {A} e.

Definition is_ok {A} (r : result A) : bool := match r with Ok _ => true | Err _ => false end.
