(* ===== verification/Status.v ===== *)
(** internal/domain/status.go, agent.go and topic.go: the status of an agent,
    its identity and label, and the forum topic that mirrors it. *)
From S2P Require Import Prelude GoStrings.

Local Open Scope Z_scope.

(** ** status.go

    [Status] is a string type in the source, so any string is a value of it. *)
Definition Status := string.

Definition StatusWorking : Status := "working".
Definition StatusIdle : Status := "idle".
Definition StatusBlocked : Status := "blocked".
Definition StatusDone : Status := "done".
Definition StatusUnknown : Status := "unknown".
Definition StatusExited : Status := "exited".

Definition displayNameMaxRunes : nat := 128.

Definition legacyPrefixes : list string := ["⚙️"; "💤"; "❓"; "✅"; "❔"; "🏁"].

Definition ParseStatus (s : string) : Status :=
  if existsb (String.eqb s) [StatusWorking; StatusIdle; StatusBlocked; StatusDone; StatusUnknown]
  then s else StatusUnknown.

Definition Live (s : Status) : bool := negb (String.eqb s StatusExited).

Definition Emoji (s : Status) : string :=
  if String.eqb s StatusWorking then "⚡"
  else if String.eqb s StatusIdle then "✅"
  else if String.eqb s StatusBlocked then "❓"
  else if String.eqb s StatusDone then "🏆"
  else if String.eqb s StatusExited then "🏁"
  else "👀".

Definition ReadyForInput (s : Status) : bool :=
  String.eqb s StatusIdle || String.eqb s StatusDone.

Definition DisplayName (label : string) : string :=
  if rune_count label <=? Z.of_nat displayNameMaxRunes then label
  else string_of_runes (take displayNameMaxRunes (runes label)).

(** The loop over [legacyPrefixes]: the first prefix that matches is cut. *)
Fixpoint strip_first (ps : list string) (name : string) : string :=
  match ps with
  | [] => name
  | p :: ps' =>
    match cut_prefix name p with
    | Some r => trim_left r (String " " (String "009" ""))
    | None => strip_first ps' name
    end
  end.
Definition StripPrefix (name : string) : string := strip_first legacyPrefixes name.

(** ** agent.go *)

Record Key := mkKey { PaneID : string; TerminalID : string }.

#[global] Instance Key_eq_dec : EqDecision Key.
Proof. solve_decision. Defined.

#[global] Instance Key_countable : Countable Key.
Proof.
  refine (inj_countable' (λ k, (PaneID k, TerminalID k)) (λ p, mkKey p.1 p.2) _).
  by intros [].
Defined.

Definition KeyString (k : Key) : string := PaneID k +:+ "/" +:+ TerminalID k.

Record Agent := mkAgent {
  AKey : Key;
  WorkspaceID : string;
  WorkspaceLabel : string;
  TabID : string;
  TabLabel : string;
  Kind : string;
  Name : string;
  Title : string;
  AStatus : Status;
  Revision : Z;
  StateChangeSeq : Z;
  Focused : bool;
  Cwd : string
}.

#[global] Instance Agent_eq_dec : EqDecision Agent.
Proof. solve_decision. Defined.

Definition labelSeparator : string := " · ".

(** [if s == "" { s = t }]. *)
Definition or_else (s t : string) : string := if String.eqb s "" then t else s.

Definition Label (a : Agent) : string :=
  let ws := or_else (WorkspaceLabel a) (WorkspaceID a) in
  let who := or_else (or_else (Name a) (TabLabel a)) (Kind a) in
  if String.eqb ws "" then who
  else if String.eqb who "" then ws
  else ws +:+ labelSeparator +:+ who.

(** Field updates of an [Agent] value. *)
Definition with_status (a : Agent) (s : Status) : Agent :=
  mkAgent (AKey a) (WorkspaceID a) (WorkspaceLabel a) (TabID a) (TabLabel a) (Kind a)
    (Name a) (Title a) s (Revision a) (StateChangeSeq a) (Focused a) (Cwd a).
Definition with_title (a : Agent) (t : string) : Agent :=
  mkAgent (AKey a) (WorkspaceID a) (WorkspaceLabel a) (TabID a) (TabLabel a) (Kind a)
    (Name a) t (AStatus a) (Revision a) (StateChangeSeq a) (Focused a) (Cwd a).
Definition with_name (a : Agent) (n : string) : Agent :=
  mkAgent (AKey a) (WorkspaceID a) (WorkspaceLabel a) (TabID a) (TabLabel a) (Kind a)
    n (Title a) (AStatus a) (Revision a) (StateChangeSeq a) (Focused a) (Cwd a).
Definition with_tab_label (a : Agent) (l : string) : Agent :=
  mkAgent (AKey a) (WorkspaceID a) (WorkspaceLabel a) (TabID a) l (Kind a)
    (Name a) (Title a) (AStatus a) (Revision a) (StateChangeSeq a) (Focused a) (Cwd a).
Definition with_workspace_label (a : Agent) (l : string) : Agent :=
  mkAgent (AKey a) (WorkspaceID a) l (TabID a) (TabLabel a) (Kind a)
    (Name a) (Title a) (AStatus a) (Revision a) (StateChangeSeq a) (Focused a) (Cwd a).
Definition with_cwd (a : Agent) (c : string) : Agent :=
  mkAgent (AKey a) (WorkspaceID a) (WorkspaceLabel a) (TabID a) (TabLabel a) (Kind a)
    (Name a) (Title a) (AStatus a) (Revision a) (StateChangeSeq a) (Focused a) c.

Record Workspace := mkWorkspace { WsID : string; WsLabel : string }.

Record Tab := mkTab { TabID' : string; TabWorkspaceID : string; TabLabel' : string; RootPaneID : string }.

(** ** topic.go *)

Record Topic := mkTopic {
  TThreadID : Z;
  TName : string;
  TIconEmojiID : string;
  TClosed : bool
}.

(** Nil pointers are [None]. *)
Record TopicPatch := mkPatch { PName : option string; PStatus : option Status }.

Definition PatchEmpty (p : TopicPatch) : bool :=
  match PName p, PStatus p with None, None => true | _, _ => false end.

(** ** Facts *)

Lemma runes_take_valid n s : Forall (λ r, valid_rune r = true) (take n (runes s)).
Proof. apply Forall_take, runes_valid. Qed.

Lemma runes_clamped label :
  runes (string_of_runes (take displayNameMaxRunes (runes label)))
  = take displayNameMaxRunes (runes label).
Proof. apply runes_string_of_runes, runes_take_valid. Qed.

(** a topic name is the label when it fits and otherwise the label's
    first 128 code points; either way it decodes to the first 128 code points
    of the label, so no name exceeds the Telegram limit and clamping twice is
    clamping once. *)
Theorem DisplayName_clamps label :
  runes (DisplayName label) = take displayNameMaxRunes (runes label)
  ∧ rune_count (DisplayName label) ≤ 128
  ∧ (rune_count label ≤ 128 → DisplayName label = label)
  ∧ DisplayName (DisplayName label) = DisplayName label.
Proof.
  assert (Hr : runes (DisplayName label) = take displayNameMaxRunes (runes label)).
  { unfold DisplayName, rune_count. case_match eqn:E; [|apply runes_clamped].
    apply Z.leb_le in E. rewrite take_ge by lia. done. }
  assert (Hc : rune_count (DisplayName label) ≤ 128).
  { unfold rune_count. rewrite Hr, length_take. unfold displayNameMaxRunes. lia. }
  assert (Hid : ∀ l, rune_count l ≤ 128 → DisplayName l = l).
  { intros l Hl. unfold DisplayName, displayNameMaxRunes.
    by rewrite (proj2 (Z.leb_le _ _)) by lia. }
  auto.
Qed.

Lemma DisplayName_clamps_witness : DisplayName "V3Jobs · claude" = "V3Jobs · claude".
Proof.
  destruct (DisplayName_clamps "V3Jobs · claude") as (_ & _ & H & _). apply H. by vm_compute.
Defined.

Lemma ParseStatus_live s : Live (ParseStatus s) = true.
Proof.
  unfold ParseStatus, Live. case_match eqn:E; [|done].
  apply existsb_exists in E as (x & Hx & ->%String.eqb_eq).
  simpl in Hx. destruct_or!; subst; done.
Qed.

(** A rune list without the separator [" · "] cannot hide one: two agents with
    the same workspace and different, non-empty names have different labels. *)
Lemma Label_who a b :
  or_else (WorkspaceLabel a) (WorkspaceID a) = or_else (WorkspaceLabel b) (WorkspaceID b) →
  or_else (WorkspaceLabel a) (WorkspaceID a) ≠ "" →
  Name a ≠ "" → Name b ≠ "" → Label a = Label b → Name a = Name b.
Proof.
  unfold Label. intros <- Hws Ha Hb.
  assert (∀ x y, x ≠ "" → or_else x y = x) as Ho.
  { intros x y Hx. unfold or_else. by destruct (String.eqb_spec x ""). }
  rewrite !(Ho (Name a)), !(Ho (Name b)) by (rewrite ?Ho; done).
  destruct (String.eqb_spec (or_else (WorkspaceLabel a) (WorkspaceID a)) ""); [done|].
  destruct (String.eqb_spec (Name a) ""), (String.eqb_spec (Name b) ""); try done.
  intros E%(inj (String.app _)). by apply (inj (String.app _)) in E.
Qed.
