(* ===== verification/Mapping.v ===== *)
(** internal/domain/mapping.go: the aggregate that links agents to forum
    topics, with every method of the source.

    [Topics] is a [gmap] from the string form of a key to the entry.  The
    source stores pointers, but each entry is reachable from exactly one key
    and every method looks it up again, so an update through the pointer is an
    update of the map.  A Go loop over the map in random order is a fold whose
    result does not depend on the order. *)
From S2P Require Import Prelude GoStrings Status.

Local Open Scope Z_scope.

Definition MappingVersion : Z := 1.

Record TopicEntry := mkEntry {
  ThreadID : Z;
  EName : string;
  EStatus : Status;
  Closed : bool;
  Muted : bool;
  UpdatedAt : Time
}.

#[global] Instance TopicEntry_eq_dec : EqDecision TopicEntry.
Proof. solve_decision. Defined.

Definition EntryLabel (e : TopicEntry) : string := StripPrefix (EName e).

Record Mapping := mkMapping {
  Version : Z;
  ChatID : Z;
  Topics : gmap string TopicEntry;
  Dashboard : Z
}.

Definition set_topics (m : Mapping) (t : gmap string TopicEntry) : Mapping :=
  mkMapping (Version m) (ChatID m) t (Dashboard m).
Definition set_dashboard (m : Mapping) (d : Z) : Mapping :=
  mkMapping (Version m) (ChatID m) (Topics m) d.

Definition NewMapping (chatID : Z) : Mapping := mkMapping MappingVersion chatID ∅ 0.

Definition ParseKey (s : string) : option Key :=
  match str_cut s "/" with
  | None => None
  | Some (pane, term) =>
    if String.eqb pane "" || String.eqb term "" then None else Some (mkKey pane term)
  end.

Definition Desired (a : Agent) : string * Status := (DisplayName (Label a), AStatus a).

Definition TopicFor (m : Mapping) (k : Key) : option TopicEntry := Topics m !! KeyString k.

(** Field updates through the entry pointer. *)
Definition e_muted (b : bool) (now : Time) (e : TopicEntry) : TopicEntry :=
  mkEntry (ThreadID e) (EName e) (EStatus e) (Closed e) b now.
Definition e_status (s : Status) (now : Time) (e : TopicEntry) : TopicEntry :=
  mkEntry (ThreadID e) (EName e) s (Closed e) (Muted e) now.
Definition e_closed (b : bool) (now : Time) (e : TopicEntry) : TopicEntry :=
  mkEntry (ThreadID e) (EName e) (EStatus e) b (Muted e) now.
Definition e_name (n : string) (now : Time) (e : TopicEntry) : TopicEntry :=
  mkEntry (ThreadID e) n (EStatus e) (Closed e) (Muted e) now.
Definition e_patch (p : TopicPatch) (now : Time) (e : TopicEntry) : TopicEntry :=
  mkEntry (ThreadID e) (default (EName e) (PName p)) (default (EStatus e) (PStatus p))
    (Closed e) (Muted e) now.

(** [e, ok := m.Topics[k.String()]; if !ok { return }; ... e.X = ...]. *)
Definition update_entry (m : Mapping) (k : Key) (f : TopicEntry → TopicEntry) : Mapping :=
  match Topics m !! KeyString k with
  | None => m
  | Some e => set_topics m (<[KeyString k := f e]> (Topics m))
  end.

Definition setMuted (m : Mapping) (k : Key) (muted : bool) (now : Time) : Mapping :=
  update_entry m k (e_muted muted now).
Definition Mute (m : Mapping) (k : Key) (now : Time) : Mapping := setMuted m k true now.
Definition Unmute (m : Mapping) (k : Key) (now : Time) : Mapping := setMuted m k false now.

Definition Link (m : Mapping) (k : Key) (t : Topic) (a : Agent) (now : Time) : Mapping :=
  let '(name, status) := Desired a in
  let name := if String.eqb (TName t) "" then name else TName t in
  set_topics m (<[KeyString k := mkEntry (TThreadID t) name status (TClosed t) false now]> (Topics m)).

Definition Diff (m : Mapping) (k : Key) (a : Agent) : TopicPatch * bool :=
  match Topics m !! KeyString k with
  | None => (mkPatch None None, false)
  | Some e =>
    if negb (Live (EStatus e)) then (mkPatch None None, false)
    else
      let '(name, status) := Desired a in
      let p := if negb (String.eqb name (EName e))
               then mkPatch (Some name) (Some status) else mkPatch None None in
      let p := if negb (String.eqb status (EStatus e))
               then mkPatch (PName p) (Some status) else p in
      (p, negb (PatchEmpty p))
  end.

Definition Apply (m : Mapping) (k : Key) (p : TopicPatch) (now : Time) : Mapping :=
  update_entry m k (e_patch p now).
Definition MarkExited (m : Mapping) (k : Key) (now : Time) : Mapping :=
  update_entry m k (e_status StatusExited now).
Definition MarkClosed (m : Mapping) (k : Key) (now : Time) : Mapping :=
  update_entry m k (e_closed true now).
Definition MarkReopened (m : Mapping) (k : Key) (now : Time) : Mapping :=
  update_entry m k (e_closed false now).
Definition Forget (m : Mapping) (k : Key) : Mapping :=
  set_topics m (delete (KeyString k) (Topics m)).

(** [sort.Strings] over the keys of the map. *)
Definition sortedKeys (m : Mapping) : list string :=
  merge_sort String.le (map_to_list (Topics m)).*1.

Definition Keys (m : Mapping) : list Key := omap ParseKey (sortedKeys m).

(** [m.newer(a, b)] on the two entries. *)
Definition newer_entry (ea eb : TopicEntry) : bool :=
  if negb (time_equal (UpdatedAt ea) (UpdatedAt eb))
  then time_after (UpdatedAt ea) (UpdatedAt eb)
  else Live (EStatus ea) && negb (Live (EStatus eb)).
Definition newer (m : Mapping) (a b : string) : bool :=
  match Topics m !! a, Topics m !! b with
  | Some ea, Some eb => newer_entry ea eb
  | _, _ => false (* a nil entry; the callers pass keys of the map *)
  end.

(** One turn of the loop of [KeyForThread]; [best] is [""] before a match. *)
Definition thread_step (m : Mapping) (threadID : Z) (best key : string) : string :=
  match Topics m !! key with
  | None => best
  | Some e =>
    if negb (ThreadID e =? threadID) then best
    else if String.eqb best "" || newer m key best then key else best
  end.
Definition KeyForThread (m : Mapping) (threadID : Z) : option Key :=
  let best := foldl (thread_step m threadID) "" (sortedKeys m) in
  if String.eqb best "" then None else ParseKey best.

Definition Orphans (m : Mapping) (live : gset Key) : list Key :=
  List.filter (λ k,
    match TopicFor m k with
    | Some e => if negb (Live (EStatus e)) || Muted e then false else bool_decide (k ∉ live)
    | None => false
    end) (Keys m).

Definition Unclosed (m : Mapping) : list Key :=
  List.filter (λ k,
    match TopicFor m k with
    | Some e => negb (Live (EStatus e)) && negb (Closed e) && negb (Muted e)
    | None => false
    end) (Keys m).

(** The order of both [sort.Slice] calls: by time, ties by string key. *)
Definition aged_le (x y : string * Time) : Prop :=
  x.2 < y.2 ∨ x.2 = y.2 ∧ String.le x.1 y.1.
#[global] Instance aged_le_dec : RelDecision aged_le.
Proof. intros x y. unfold aged_le. apply _. Defined.

(** The loop [for _, a := range exited] of [Prune]. *)
Fixpoint prune_loop (maxEntries : Z) (t : gmap string TopicEntry) (l : list (string * Time))
    (removed : Z) : gmap string TopicEntry * Z :=
  match l with
  | [] => (t, removed)
  | (key, _) :: l' =>
    if Z.of_nat (size t) <=? maxEntries then (t, removed)
    else prune_loop maxEntries (delete key t) l' (removed + 1)
  end.

Definition exited_entries (t : gmap string TopicEntry) : list (string * Time) :=
  omap (λ '(key, e), if negb (Live (EStatus e)) then Some (key, UpdatedAt e) else None)
    (map_to_list t).

Definition Prune (m : Mapping) (maxEntries : Z) : Mapping * Z :=
  if (maxEntries <=? 0) || (Z.of_nat (size (Topics m)) <=? maxEntries) then (m, 0)
  else
    let exited := merge_sort aged_le (exited_entries (Topics m)) in
    let '(t, removed) := prune_loop maxEntries (Topics m) exited 0 in
    (set_topics m t, removed).

(** [maxAge] is a [Duration]; the age is [now.Sub(e.UpdatedAt)]. *)
Definition is_stale (now : Time) (maxAge : Duration) (e : TopicEntry) : bool :=
  negb (Live (EStatus e) || negb (Closed e) || (time_sub now (UpdatedAt e) <=? maxAge)).

(** Candidates with the sort key the second loop compares. *)
Definition stale_aged (m : Mapping) (k : Key) : string * Time :=
  (KeyString k, match TopicFor m k with Some e => UpdatedAt e | None => 0 end).
Definition stale_le (m : Mapping) (j k : Key) : Prop := aged_le (stale_aged m j) (stale_aged m k).
#[global] Instance stale_le_dec m : RelDecision (stale_le m).
Proof. intros x y. unfold stale_le. apply _. Defined.

Definition Stale (m : Mapping) (now : Time) (maxAge : Duration) : list Key :=
  merge_sort (stale_le m)
    (List.filter (λ k,
      match TopicFor m k with Some e => is_stale now maxAge e | None => false end) (Keys m)).

Definition Counts (m : Mapping) : Z * Z * Z :=
  map_fold (λ _ e '(live, exited, muted),
    let '(live, exited) :=
      if Live (EStatus e) then (live + 1, exited) else (live, exited + 1) in
    (live, exited, if Muted e then muted + 1 else muted)) (0, 0, 0) (Topics m).

(** One turn of the first loop of [DedupeThreads]. *)
Definition dedupe_step (m : Mapping) (best : gmap Z string) (key : string) : gmap Z string :=
  match Topics m !! key with
  | None => best
  | Some e =>
    match best !! ThreadID e with
    | None => <[ThreadID e := key]> best
    | Some cur => if newer m key cur then <[ThreadID e := key]> best else best
    end
  end.
Definition best_keys (m : Mapping) : gmap Z string := foldl (dedupe_step m) ∅ (sortedKeys m).
Definition DedupeThreads (m : Mapping) : Mapping * Z :=
  let best := best_keys m in
  let dropped := filter (λ '(key, e), best !! ThreadID e ≠ Some key) (Topics m) in
  (set_topics m (filter (λ '(key, e), best !! ThreadID e = Some key) (Topics m)),
   Z.of_nat (size dropped)).

(** * Theorems about the mapping aggregate of Mapping.v: keys, duplicate
    threads, drift, pruning and the stale-topic list. *)
(** ** The sorted keys *)

Lemma elem_of_sortedKeys m key : key ∈ sortedKeys m ↔ is_Some (Topics m !! key).
Proof.
  unfold sortedKeys. rewrite merge_sort_Permutation, list_elem_of_fmap. split.
  - intros ([k e] & -> & H%elem_of_map_to_list). simpl. by eexists.
  - intros [e He]. exists (key, e). by rewrite elem_of_map_to_list.
Qed.

Lemma sortedKeys_NoDup m : NoDup (sortedKeys m).
Proof. unfold sortedKeys. rewrite merge_sort_Permutation. apply NoDup_fst_map_to_list. Qed.

Lemma elem_of_Keys m k :
  k ∈ Keys m ↔ ∃ key, is_Some (Topics m !! key) ∧ ParseKey key = Some k.
Proof. unfold Keys. rewrite list_elem_of_omap. by setoid_rewrite elem_of_sortedKeys. Qed.

(** ** Keys *)

Definition no_slash (s : string) : Prop := str_cut s "/" = None.

Lemma str_cut_app_slash p t :
  no_slash p → str_cut (p +:+ "/" +:+ t) "/" = Some (p, t).
Proof.
  unfold no_slash. induction p as [|c p IH]; [by destruct t|].
  rewrite str_app_cons. cbn [str_cut cut_prefix].
  destruct (Ascii.eqb "/" c); [done|].
  destruct (str_cut p "/") as [[]|]; [done|]. intros _. by rewrite IH.
Qed.

Lemma str_cut_Some_app s t b : str_cut s "/" = Some (b, t) → s = b +:+ "/" +:+ t ∧ no_slash b.
Proof.
  unfold no_slash. revert b.
  induction s as [|c s IH]; intros b; cbn [str_cut cut_prefix]; [done|].
  destruct (Ascii.eqb_spec "/" c) as [<-|Hc].
  - intros. by simplify_eq.
  - destruct (str_cut s "/") as [[b' a']|]; [|done]. intros. simplify_eq.
    destruct (IH b' eq_refl) as [-> Hb]. split; [done|].
    cbn [str_cut cut_prefix]. rewrite (proj2 (Ascii.eqb_neq _ _)) by done. by rewrite Hb.
Qed.

(** A key Herdr produces: both ids non-empty, no slash in the pane id. *)
Definition wf_key (k : Key) : Prop :=
  no_slash (PaneID k) ∧ PaneID k ≠ "" ∧ TerminalID k ≠ "".

(** [ParseKey] and [Key.String] are inverse: parsing the string of a
    well-formed key gives the key back, every string that parses is the string
    of the key it parses to, and what it parses to is well formed. *)
Theorem ParseKey_String_roundtrip k s :
  wf_key k →
  ParseKey (KeyString k) = Some k ∧
  (∀ k', ParseKey s = Some k' → KeyString k' = s ∧ wf_key k').
Proof.
  intros (Hs & Hp & Ht). split.
  - unfold ParseKey, KeyString. rewrite str_cut_app_slash by done.
    destruct (String.eqb_spec (PaneID k) ""), (String.eqb_spec (TerminalID k) ""); try done.
    by destruct k.
  - intros k'. unfold ParseKey. destruct (str_cut s "/") as [[p t]|] eqn:E; [|done].
    destruct (String.eqb_spec p ""), (String.eqb_spec t ""); try done. intros. simplify_eq/=.
    apply str_cut_Some_app in E as [-> ?]. by split_and!.
Qed.

Lemma ParseKey_String_roundtrip_witness :
  ParseKey (KeyString (mkKey "p1" "t/2")) = Some (mkKey "p1" "t/2").
Proof.
  apply (ParseKey_String_roundtrip (mkKey "p1" "t/2") "").
  split_and!; [reflexivity | discriminate | discriminate].
Defined.

(** ** Newest entry of a thread *)

Lemma newer_entry_spec a b :
  newer_entry a b = true ↔
  UpdatedAt b < UpdatedAt a ∨
  UpdatedAt a = UpdatedAt b ∧ Live (EStatus a) = true ∧ Live (EStatus b) = false.
Proof.
  unfold newer_entry, time_equal, time_after.
  destruct (Z.eqb_spec (UpdatedAt a) (UpdatedAt b)) as [E|E]; simpl.
  - rewrite andb_true_iff, negb_true_iff. naive_solver lia.
  - rewrite Z.ltb_lt. naive_solver lia.
Qed.

Lemma newer_entry_false a b :
  newer_entry a b = false ↔
  UpdatedAt a ≤ UpdatedAt b ∧
  (UpdatedAt a = UpdatedAt b → Live (EStatus a) = true → Live (EStatus b) = true).
Proof.
  pose proof (newer_entry_spec a b) as H. rewrite <-not_true_iff_false, H.
  destruct (Live (EStatus a)), (Live (EStatus b)); naive_solver lia.
Qed.

Section thread.
Context (m : Mapping) (tid : Z).

(** The keys of [m] whose entry has thread [tid]. *)
Definition in_thread (key : string) : bool :=
match Topics m !! key with Some e => ThreadID e =? tid | None => false end.
Definition thread_keys : list string := List.filter in_thread (sortedKeys m).

Lemma elem_of_thread_keys key :
key ∈ thread_keys ↔ ∃ e, Topics m !! key = Some e ∧ ThreadID e = tid.
Proof.
unfold thread_keys, in_thread. rewrite elem_of_list_filter, elem_of_sortedKeys. split.
- intros [H [e He]]. rewrite He in H. exists e. by rewrite <-Z.eqb_eq.
- intros (e & -> & H). rewrite Z.eqb_eq. eauto.
Qed.
End thread.

#[local] Instance newer_strict_weak m :
  StrictWeak (newer m) (λ key, is_Some (Topics m !! key)).
Proof.
  split; intros x; unfold newer.
  - intros [ex ->]. rewrite newer_entry_false. naive_solver lia.
  - intros y z [ex ->] [ey ->] [ez ->]. rewrite !newer_entry_spec. naive_solver lia.
  - intros y z [ex ->] [ey ->] [ez ->]. rewrite !newer_entry_false. naive_solver lia.
Qed.

(** The two loops of the source compute the same first-best key. *)
Lemma dedupe_fold m tid l :
  foldl (dedupe_step m) ∅ l !! tid = first_best (newer m) (List.filter (in_thread m tid) l).
Proof.
  induction l as [|key l IH] using rev_ind; [done|].
  rewrite foldl_app, filter_snoc. cbn [foldl].
  unfold dedupe_step at 1. unfold in_thread at 2.
  destruct (Topics m !! key) as [e|] eqn:He; [|by rewrite IH, app_nil_r].
  destruct (Z.eqb_spec (ThreadID e) tid) as [<-|Hne].
  - rewrite first_best_snoc, <-IH. unfold keep_best.
    destruct (foldl _ ∅ l !! ThreadID e) as [cur|] eqn:Hcur; [|apply lookup_insert_eq].
    destruct (newer m key cur); [apply lookup_insert_eq|done].
  - rewrite app_nil_r, <-IH.
    repeat case_match; by rewrite ?lookup_insert_ne.
Qed.

Lemma best_keys_lookup m tid :
  best_keys m !! tid = first_best (newer m) (thread_keys m tid).
Proof. apply dedupe_fold. Qed.

Lemma thread_fold m tid l :
  "" ∉ l →
  foldl (thread_step m tid) "" l
  = default "" (first_best (newer m) (List.filter (in_thread m tid) l)).
Proof.
  induction l as [|key l IH] using rev_ind; [done|]. intros Hl.
  rewrite foldl_app, filter_snoc. cbn [foldl].
  rewrite IH by set_solver. unfold thread_step.
  change (in_thread m tid key) with
    (match Topics m !! key with Some e => ThreadID e =? tid | None => false end).
  destruct (Topics m !! key) as [e|] eqn:He; [|by rewrite app_nil_r].
  destruct (Z.eqb_spec (ThreadID e) tid) as [Ht|Hne]; cbn [negb]; [|by rewrite app_nil_r].
  rewrite first_best_snoc. unfold keep_best.
  destruct (first_best _ _) as [cur|] eqn:Hcur; [|done]. simpl.
  assert (cur ≠ "") as Hc%String.eqb_neq.
  { intros ->. apply first_best_elem, elem_of_list_filter in Hcur as [_ Hcur].
    apply Hl, elem_of_app. by left. }
  rewrite Hc. by destruct (newer m key cur).
Qed.

Lemma thread_keys_present m tid :
  Forall (λ key, is_Some (Topics m !! key)) (thread_keys m tid).
Proof. apply Forall_forall. intros key (e & -> & _)%elem_of_thread_keys. eauto. Qed.

(** The entry [best_keys] elects for a thread: it is an entry of the thread
    and no entry of the thread is newer. *)
Lemma best_keys_spec m tid key :
  best_keys m !! tid = Some key →
  ∃ e, Topics m !! key = Some e ∧ ThreadID e = tid ∧
    ∀ key' e', Topics m !! key' = Some e' → ThreadID e' = tid → newer_entry e' e = false.
Proof.
  rewrite best_keys_lookup.
  intros [Hin Hmax]%(first_best_spec _ _); [|apply thread_keys_present].
  apply elem_of_thread_keys in Hin as (e & He & Ht). exists e. split_and!; [done..|].
  intros key' e' He' Ht'. specialize (Hmax key'). unfold newer in Hmax.
  rewrite He, He' in Hmax. apply Hmax, elem_of_thread_keys. eauto.
Qed.

Lemma best_keys_some m key e :
  Topics m !! key = Some e → ∃ key', best_keys m !! ThreadID e = Some key'.
Proof.
  intros He. rewrite best_keys_lookup.
  destruct (first_best _ _) eqn:E; [eauto|]. apply first_best_none in E.
  assert (key ∈ thread_keys m (ThreadID e)) as H by (apply elem_of_thread_keys; eauto).
  rewrite E in H. by apply elem_of_nil in H.
Qed.

Lemma DedupeThreads_lookup m key e :
  Topics (DedupeThreads m).1 !! key = Some e ↔
  Topics m !! key = Some e ∧ best_keys m !! ThreadID e = Some key.
Proof. unfold DedupeThreads. simpl. by rewrite map_lookup_filter_Some. Qed.

(** After [DedupeThreads] no two entries share a thread; every thread
    that had an entry keeps exactly one of its entries, unchanged, and that one
    is at least as new as every entry dropped (live entries win ties); the
    count returned is the number of entries dropped. *)
Theorem DedupeThreads_spec m m' n :
  DedupeThreads m = (m', n) →
  Topics m' ⊆ Topics m ∧
  (∀ k1 e1 k2 e2, Topics m' !! k1 = Some e1 → Topics m' !! k2 = Some e2 →
     ThreadID e1 = ThreadID e2 → k1 = k2) ∧
  (∀ k e, Topics m !! k = Some e → ∃ k' e', Topics m' !! k' = Some e' ∧
     ThreadID e' = ThreadID e ∧ newer_entry e e' = false) ∧
  n = Z.of_nat (size (Topics m)) - Z.of_nat (size (Topics m')).
Proof.
  intros [= <- <-].
  pose proof (DedupeThreads_lookup m) as Hl. unfold DedupeThreads in Hl.
  cbn [fst set_topics Topics] in *. split_and!.
  - apply map_filter_subseteq.
  - intros k1 e1 k2 e2 [_ H1]%Hl [_ H2]%Hl Ht. congruence.
  - intros k e He. destruct (best_keys_some m k e He) as [k' Hk'].
    destruct (best_keys_spec _ _ _ Hk') as (e' & He' & Ht & Hmax).
    exists k', e'. rewrite Hl, Ht. eauto.
  - rewrite <-(map_size_filter_split
      (λ '(key, e), best_keys m !! ThreadID e = Some key)
      (λ '(key, e), best_keys m !! ThreadID e ≠ Some key) (Topics m)) by done.
    lia.
Qed.

Lemma DedupeThreads_spec_witness :
  let e (t : Time) := mkEntry 7 "x" StatusIdle false false t in
  let m := mkMapping 1 (-100) (<["p/1" := e 5]> (<["p/2" := e 9]> ∅)) 0 in
  (DedupeThreads m).2 = 1 ∧ Topics (DedupeThreads m).1 ⊆ Topics m.
Proof.
  intros e m. split; [by vm_compute|].
  apply (DedupeThreads_spec m (DedupeThreads m).1 (DedupeThreads m).2). by destruct (DedupeThreads m).
Defined.

Lemma best_keys_dedupe m : best_keys (DedupeThreads m).1 = best_keys m.
Proof.
  apply map_eq. intros tid.
  destruct (best_keys m !! tid) as [key|] eqn:E.
  - destruct (best_keys_spec _ _ _ E) as (e & He & <- & _).
    assert (Topics (DedupeThreads m).1 !! key = Some e) as Hd by by apply DedupeThreads_lookup.
    destruct (best_keys_some _ _ _ Hd) as [key' Hk'].
    destruct (best_keys_spec _ _ _ Hk') as (e' & [He' Hb]%DedupeThreads_lookup & Ht & _).
    rewrite Hk', <-E. congruence.
  - destruct (best_keys (DedupeThreads m).1 !! tid) as [key|] eqn:E'; [|done].
    destruct (best_keys_spec _ _ _ E') as (e & [He Hb]%DedupeThreads_lookup & <- & _).
    by rewrite E in Hb.
Qed.

Lemma KeyForThread_best m tid :
  Topics m !! "" = None → KeyForThread m tid = best_keys m !! tid ≫= ParseKey.
Proof.
  intros Hm. unfold KeyForThread. rewrite best_keys_lookup, thread_fold.
  2: { rewrite elem_of_sortedKeys, Hm. by intros [??]. }
  fold (thread_keys m tid). destruct (first_best _ _) as [key|]; [|done]. simpl.
  by destruct (String.eqb_spec key "") as [->|].
Qed.

(** The agent behind a topic is the one [DedupeThreads] would keep for
    its thread, so removing duplicates changes no answer of [KeyForThread],
    and removing them twice removes nothing more. *)
Theorem KeyForThread_dedupe m tid :
  Topics m !! "" = None →
  KeyForThread m tid = best_keys m !! tid ≫= ParseKey ∧
  KeyForThread (DedupeThreads m).1 tid = KeyForThread m tid ∧
  (DedupeThreads (DedupeThreads m).1).1 = (DedupeThreads m).1.
Proof.
  intros Hm. split_and!; [by apply KeyForThread_best| |].
  - rewrite !KeyForThread_best, best_keys_dedupe; [done..|].
    destruct (Topics (DedupeThreads m).1 !! "") as [e|] eqn:E; [|done].
    apply DedupeThreads_lookup in E as [E _]. congruence.
  - unfold DedupeThreads at 1. rewrite best_keys_dedupe. simpl. unfold set_topics. simpl.
    f_equal. apply map_filter_id. by intros k e [_ ?]%DedupeThreads_lookup.
Qed.

Lemma KeyForThread_dedupe_witness :
  let e (b : bool) := mkEntry 7 "x" (if b then StatusIdle else StatusExited) false false 10 in
  let m := mkMapping 1 (-100) (<["p/1" := e false]> (<["p/2" := e true]> ∅)) 0 in
  KeyForThread m 7 = Some (mkKey "p" "2") ∧
  KeyForThread (DedupeThreads m).1 7 = KeyForThread m 7.
Proof.
  intros e m. split; [by vm_compute|].
  by apply (KeyForThread_dedupe m 7).
Defined.

(** ** Drift *)

Lemma update_entry_lookup m k f key :
  Topics (update_entry m k f) !! key
  = if decide (KeyString k = key) then f <$> Topics m !! key else Topics m !! key.
Proof.
  unfold update_entry. destruct (Topics m !! KeyString k) as [e|] eqn:E; simpl.
  - rewrite lookup_insert. case_decide; [|done]. subst. by rewrite E.
  - case_decide; [|done]. subst. by rewrite E.
Qed.

(** Writing the patch [Diff] computed makes the entry say what the agent
    should have, touches nothing else, and leaves no further difference: the
    edit loop of the reconciler converges in one accepted call. *)
Theorem Diff_Apply_converges m k a p now :
  Diff m k a = (p, true) →
  let m' := Apply m k p now in
  (∃ e e', Topics m !! KeyString k = Some e ∧ Topics m' !! KeyString k = Some e' ∧
     (EName e', EStatus e') = Desired a ∧ UpdatedAt e' = now ∧
     ThreadID e' = ThreadID e ∧ Closed e' = Closed e ∧ Muted e' = Muted e) ∧
  (∀ key, key ≠ KeyString k → Topics m' !! key = Topics m !! key) ∧
  Diff m' k a = (mkPatch None None, false).
Proof.
  unfold Diff. destruct (Topics m !! KeyString k) as [e|] eqn:He; [|done].
  destruct (Live (EStatus e)) eqn:Hlive; simpl; [|done]. intros Hp.
  assert (Happ : (EName (e_patch p now e), EStatus (e_patch p now e)) = Desired a).
  { unfold Desired. revert Hp. simpl.
    destruct (String.eqb_spec (DisplayName (Label a)) (EName e)), (String.eqb_spec (AStatus a) (EStatus e));
      simpl; intros; simplify_eq/=; congruence. }
  unfold Apply. rewrite update_entry_lookup, decide_True, He by done. simpl. split_and!.
  - exists e, (e_patch p now e). done.
  - intros key Hne. by rewrite update_entry_lookup, decide_False by congruence.
  - unfold Desired in Happ. simpl in Happ. injection Happ as Hn Hs. rewrite Hn, Hs.
    rewrite !String.eqb_refl. simpl. by destruct (Live (AStatus a)).
Qed.

Lemma Diff_Apply_converges_witness :
  let a := mkAgent (mkKey "p" "1") "w1" "V3Jobs" "" "" "claude" "" "" StatusWorking 0 0 false "" in
  let e := mkEntry 7 "V3Jobs" StatusIdle false false 10 in
  let m := mkMapping 1 (-100) (<["p/1" := e]> ∅) 0 in
  let m' := Apply m (mkKey "p" "1") (mkPatch (Some "V3Jobs · claude") (Some StatusWorking)) 20 in
  Diff m' (mkKey "p" "1") a = (mkPatch None None, false).
Proof.
  intros a e m m'.
  apply (Diff_Apply_converges m (mkKey "p" "1") a
    (mkPatch (Some "V3Jobs · claude") (Some StatusWorking)) 20). by vm_compute.
Defined.

(** ** Age order *)

#[global] Instance aged_le_trans : Transitive aged_le.
Proof.
  intros [k1 t1] [k2 t2] [k3 t3]. unfold aged_le. simpl.
  intros [?|[-> ?]] [?|[-> ?]]; try (left; lia). right. split; [done|]. by etrans.
Qed.
#[global] Instance aged_le_total : Total aged_le.
Proof.
  intros [k1 t1] [k2 t2]. unfold aged_le. simpl.
  destruct (Z.lt_trichotomy t1 t2) as [?|[->|?]]; [by left; left| |by right; left].
  destruct (total String.le k1 k2); [left|right]; by right.
Qed.

#[global] Instance stale_le_trans m : Transitive (stale_le m).
Proof. intros x y z. unfold stale_le. apply aged_le_trans. Qed.
#[global] Instance stale_le_total m : Total (stale_le m).
Proof. intros x y. unfold stale_le. apply aged_le_total. Qed.

Lemma elem_of_exited_entries t key at_ :
  (key, at_) ∈ exited_entries t ↔
  ∃ e, t !! key = Some e ∧ Live (EStatus e) = false ∧ UpdatedAt e = at_.
Proof.
  unfold exited_entries. rewrite list_elem_of_omap. split.
  - intros ([k e] & H%elem_of_map_to_list & E). exists e.
    destruct (Live (EStatus e)) eqn:L; simplify_eq/=. eauto.
  - intros (e & H & L & <-). exists (key, e). rewrite elem_of_map_to_list. by rewrite L.
Qed.

(** ** Pruning *)

Definition delete_keys (t : gmap string TopicEntry) (ks : list string) : gmap string TopicEntry :=
  foldl (λ t k, delete k t) t ks.

Lemma delete_keys_lookup t ks key e :
  delete_keys t ks !! key = Some e ↔ t !! key = Some e ∧ key ∉ ks.
Proof.
  revert t. induction ks as [|k ks IH]; intros t; unfold delete_keys in *; simpl; [set_solver|].
  rewrite IH, lookup_delete_Some, not_elem_of_cons. naive_solver.
Qed.

(** The loop deletes a prefix of its list: as much as the cap needs, and no
    entry more. *)
Lemma prune_loop_spec max t l r t' r' :
  (∀ key, key ∈ l.*1 → is_Some (t !! key)) → NoDup l.*1 →
  prune_loop max t l r = (t', r') →
  ∃ l1 l2, l = l1 ++ l2 ∧ t' = delete_keys t l1.*1 ∧
    r' - r = Z.of_nat (size t) - Z.of_nat (size t') ∧
    (l2 = [] ∨ Z.of_nat (size t') ≤ max) ∧ (l1 = [] ∨ max ≤ Z.of_nat (size t')).
Proof.
  revert t r. induction l as [|[key at_] l IH]; intros t r Hin Hnd Hp; simpl in Hp.
  { simplify_eq. exists [], []. split_and!; auto; lia. }
  destruct (Z.leb_spec (Z.of_nat (size t)) max) as [Hle|Hgt].
  { simplify_eq. exists [], ((key, at_) :: l). split_and!; auto; lia. }
  rewrite fmap_cons in *. apply NoDup_cons in Hnd as [Hkey Hnd]. simpl in *.
  destruct (Hin key) as [e He]; [by left|].
  assert (size t = S (size (delete key t))) as Hsz.
  { pose proof (map_size_ne_0_lookup_2 t key (mk_is_Some _ _ He)).
    rewrite map_size_delete, He. simpl. lia. }
  apply IH in Hp as (l1 & l2 & -> & -> & Hr & Hmax & Hmin); [|intros k Hk|done].
  - exists ((key, at_) :: l1), l2. rewrite fmap_cons. split_and!; [done..|lia|done|].
    right. destruct Hmin as [->|]; [|done]. unfold delete_keys. simpl. lia.
  - rewrite lookup_delete_ne by set_solver. apply Hin. by right.
Qed.

Lemma exited_sorted_keys t key :
  key ∈ (merge_sort aged_le (exited_entries t)).*1 ↔
  ∃ e, t !! key = Some e ∧ Live (EStatus e) = false.
Proof.
  rewrite merge_sort_Permutation, list_elem_of_fmap. split.
  - intros ([k at_] & -> & (e & ? & ? & _)%elem_of_exited_entries). eauto.
  - intros (e & He & Hl). exists (key, UpdatedAt e). rewrite elem_of_exited_entries. eauto.
Qed.

Lemma exited_entries_NoDup t : NoDup (exited_entries t).*1.
Proof.
  unfold exited_entries. pose proof (NoDup_fst_map_to_list t) as H.
  induction (map_to_list t) as [|[k e] l IH]; [constructor|].
  rewrite fmap_cons in H. apply NoDup_cons in H as [Hk H]. simpl in Hk |- *.
  destruct (Live (EStatus e)); simpl; [by apply IH|].
  constructor; [|by apply IH]. intros ([k' a] & E & Hin)%list_elem_of_fmap. simpl in E. subst k'.
  apply list_elem_of_omap in Hin as ([k' e'] & Hin & E). case_match; simplify_eq.
  apply Hk, list_elem_of_fmap. eexists (_, _). done.
Qed.

(** [Prune] above the cap deletes the keys of a prefix [l1] of the exited
    entries in age order, and [l2] is what stays of them. *)
Lemma Prune_split m max m' n :
  0 < max → max < Z.of_nat (size (Topics m)) → Prune m max = (m', n) →
  ∃ l1 l2, Topics m' = delete_keys (Topics m) l1.*1 ∧
    n = Z.of_nat (size (Topics m)) - Z.of_nat (size (Topics m')) ∧
    (l2 = [] ∨ Z.of_nat (size (Topics m')) ≤ max) ∧
    (l1 = [] ∨ max ≤ Z.of_nat (size (Topics m'))) ∧
    StronglySorted aged_le (l1 ++ l2) ∧
    ∀ k a, (k, a) ∈ l1 ++ l2 ↔ ∃ e, Topics m !! k = Some e ∧ Live (EStatus e) = false ∧ UpdatedAt e = a.
Proof.
  intros Hmax Hgt. unfold Prune.
  rewrite (proj2 (Z.leb_gt max 0)), (proj2 (Z.leb_gt _ max)) by done. simpl.
  set (l := merge_sort aged_le _).
  destruct (prune_loop max (Topics m) l 0) as [t removed] eqn:Hp. intros [= <- <-].
  apply prune_loop_spec in Hp as (l1 & l2 & Hl12 & -> & Hr & Hcap & Hmin).
  2: { intros key (e & He & _)%exited_sorted_keys. eauto. }
  2: { unfold l. rewrite merge_sort_Permutation. apply exited_entries_NoDup. }
  exists l1, l2. cbn [set_topics Topics]. rewrite <-Hl12. split_and!; auto; [lia| |].
  - apply (StronglySorted_merge_sort _).
  - intros k a. unfold l. by rewrite merge_sort_Permutation, elem_of_exited_entries.
Qed.

(** [Prune] never drops a live entry and never invents one; the entries
    it drops are the oldest exited ones (ties by key); afterwards the mapping
    fits the cap or holds live entries only, and no entry was dropped beyond
    what the cap needed; the count returned is the number dropped. *)
Theorem Prune_spec m max m' n :
  0 < max → Prune m max = (m', n) →
  Topics m' ⊆ Topics m ∧
  (∀ k e, Topics m !! k = Some e → Live (EStatus e) = true → Topics m' !! k = Some e) ∧
  (∀ k e k' e', Topics m !! k = Some e → Topics m' !! k = None →
     Topics m' !! k' = Some e' → Live (EStatus e') = false →
     aged_le (k, UpdatedAt e) (k', UpdatedAt e')) ∧
  (Z.of_nat (size (Topics m')) ≤ max ∨
     ∀ k e, Topics m' !! k = Some e → Live (EStatus e) = true) ∧
  (n = 0 ∨ max ≤ Z.of_nat (size (Topics m'))) ∧
  n = Z.of_nat (size (Topics m)) - Z.of_nat (size (Topics m')).
Proof.
  intros Hmax Hp. destruct (decide (Z.of_nat (size (Topics m)) ≤ max)) as [Hle|Hgt].
  { unfold Prune in Hp. rewrite (proj2 (Z.leb_gt max 0)), (proj2 (Z.leb_le _ max)) in Hp by done.
    simplify_eq/=. split_and!; auto; [|lia]. intros. congruence. }
  destruct (Prune_split m max m' n) as (l1 & l2 & Ht & Hn & Hcap & Hmin & Hs & Hl); [lia..|done|].
  assert (Hkept : ∀ k e, Topics m' !! k = Some e → Topics m !! k = Some e ∧ k ∉ l1.*1).
  { intros k e. rewrite Ht. apply delete_keys_lookup. }
  assert (Hin : ∀ k e, Topics m !! k = Some e → Live (EStatus e) = false →
    (k, UpdatedAt e) ∈ l1 ∨ (k, UpdatedAt e) ∈ l2).
  { intros k e He Hd. apply elem_of_app, Hl. eauto. }
  assert (Hkey : ∀ k a, (k, a) ∈ l1 → k ∈ l1.*1).
  { intros k a Hk. apply list_elem_of_fmap. by eexists (_, _). }
  assert (Hl1 : ∀ k, k ∈ l1.*1 → ∃ e, Topics m !! k = Some e ∧ Live (EStatus e) = false ∧
    (k, UpdatedAt e) ∈ l1).
  { intros k ([k' a] & -> & Hk)%list_elem_of_fmap.
    destruct (proj1 (Hl k' a)) as (e & ? & ? & <-); [set_solver|]. eauto. }
  split_and!; [| | | | |done].
  - apply map_subseteq_spec. by intros k e [? _]%Hkept.
  - intros k e He Hlive. rewrite Ht. apply delete_keys_lookup. split; [done|].
    intros (e' & ? & ? & _)%Hl1. congruence.
  - intros k e k' e' He Hn' [He' Hk']%Hkept Hd. apply (StronglySorted_app_1_elem_of aged_le l1 l2); [done| |].
    + destruct (decide (k ∈ l1.*1)) as [(? & ? & ? & ?)%Hl1|Hk]; [congruence|].
      rewrite Ht, (proj2 (delete_keys_lookup _ _ k e)) in Hn' by done. done.
    + destruct (Hin k' e') as [Hk|]; [done..| |done]. by apply Hkey in Hk.
  - destruct Hcap as [->|]; [|by left]. right. intros k e [He Hk]%Hkept.
    destruct (Live (EStatus e)) eqn:Hd; [done|].
    destruct (Hin k e) as [Hk'%Hkey|?%elem_of_nil]; done.
  - destruct Hmin as [->|]; [left|by right]. rewrite Hn, Ht. unfold delete_keys. simpl. lia.
Qed.

Lemma Prune_spec_witness :
  let e (s : Status) (t : Time) := mkEntry 7 "x" s false false t in
  let m := mkMapping 1 (-100)
    (<["a/1" := e StatusIdle 1]> (<["b/1" := e StatusExited 2]> (<["c/1" := e StatusExited 3]> ∅))) 0 in
  ∃ m', Prune m 2 = (m', 1) ∧ Topics m' !! "a/1" = Some (e StatusIdle 1).
Proof.
  intros e m. eexists. split; [vm_compute; reflexivity|].
  eapply (Prune_spec m 2); [lia|vm_compute; reflexivity| |]; reflexivity.
Defined.

(** ** The stale-topic list *)

Lemma is_stale_spec now maxAge e :
  is_stale now maxAge e = true ↔
  Live (EStatus e) = false ∧ Closed e = true ∧ maxAge < time_sub now (UpdatedAt e).
Proof.
  unfold is_stale. rewrite negb_true_iff, !orb_false_iff, negb_false_iff, Z.leb_gt. naive_solver.
Qed.

Lemma ParseKey_Some s k : ParseKey s = Some k → KeyString k = s.
Proof.
  unfold ParseKey. destruct (str_cut s "/") as [[p t]|] eqn:E; [|done].
  destruct (String.eqb p "" || String.eqb t ""); [done|]. intros. simplify_eq/=.
  by apply str_cut_Some_app in E as [-> _].
Qed.

(** Two map keys never parse to the same agent. *)
Lemma Keys_NoDup m : NoDup (Keys m).
Proof.
  unfold Keys. pose proof (sortedKeys_NoDup m) as H.
  induction H as [|s l Hs H IH]; [constructor|]. simpl.
  destruct (ParseKey s) as [k|] eqn:E; simpl; [|done].
  constructor; [|done]. intros (s' & Hin & E')%list_elem_of_omap.
  apply ParseKey_Some in E, E'. congruence.
Qed.

Lemma elem_of_Keys_lookup m k : k ∈ Keys m → is_Some (TopicFor m k).
Proof.
  intros (key & He & Hk)%elem_of_Keys. unfold TopicFor. by rewrite (ParseKey_Some _ _ Hk).
Qed.

Lemma elem_of_Stale m now maxAge k :
  k ∈ Stale m now maxAge ↔
  ∃ e, k ∈ Keys m ∧ TopicFor m k = Some e ∧ Live (EStatus e) = false ∧
    Closed e = true ∧ maxAge < time_sub now (UpdatedAt e).
Proof.
  unfold Stale. rewrite merge_sort_Permutation, elem_of_list_filter.
  destruct (TopicFor m k) as [e|]; [|naive_solver]. rewrite is_stale_spec. naive_solver.
Qed.

(** [Stale] lists exactly the keys of exited, closed entries older than
    [maxAge] (muted ones included, live or open ones never), each once, oldest
    first with ties by key. *)
Theorem Stale_spec m now maxAge :
  (∀ k, k ∈ Stale m now maxAge ↔
     ∃ e, k ∈ Keys m ∧ TopicFor m k = Some e ∧ Live (EStatus e) = false ∧
       Closed e = true ∧ maxAge < time_sub now (UpdatedAt e)) ∧
  StronglySorted (stale_le m) (Stale m now maxAge) ∧ NoDup (Stale m now maxAge) ∧
  (∀ k e, TopicFor m k = Some e → Live (EStatus e) = true → k ∉ Stale m now maxAge).
Proof.
  pose proof (elem_of_Stale m now maxAge) as Hin.
  split_and!; [done|apply (StronglySorted_merge_sort _)| |].
  { unfold Stale. rewrite merge_sort_Permutation. apply NoDup_filter_bool, Keys_NoDup. }
  intros k e He Hl (e' & _ & ? & ? & _)%Hin. congruence.
Qed.

Lemma Stale_spec_witness :
  let m := mkMapping 1 (-100) (<["a/1" := mkEntry 7 "x" StatusIdle true false 0]> ∅) 0 in
  mkKey "a" "1" ∉ Stale m 100 10.
Proof.
  intros m. destruct (Stale_spec m 100 10) as (_ & _ & _ & H).
  apply (H _ (mkEntry 7 "x" StatusIdle true false 0)); reflexivity.
Defined.
