(* ===== verification/History.v ===== *)
(** internal/domain/history.go: the output of one agent accumulated from
    screen snapshots, and the theorem that snapshots of a scrolling transcript
    are stitched back into that transcript. *)
From S2P Require Import Prelude GoStrings.

Local Open Scope Z_scope.

Definition HistoryLiveLines : nat := 8.
Definition HistoryAnchorWindow : nat := 6.
Definition HistoryAnchorLines : Z := 3.
Definition HistoryMaxLines : Z := 2000.
Definition HistoryMaxBytes : Z := 262144. (* 256 << 10 *)
Definition HistoryGapMarker : string := "…".

(** A nil slice and an empty one are both [[]]: the code only takes lengths. *)
Record History := mkHistory {
  committed : list string;
  hbytes : Z;
  prev : list string;
  tail : list string;
  mark : Z;
  truncated : bool
}.

Definition NewHistory : History := mkHistory [] 0 [] [] (-1) false.

Definition set_tail (h : History) (t : list string) : History :=
  mkHistory (committed h) (hbytes h) (prev h) t (mark h) (truncated h).
Definition set_prev (h : History) (p : list string) : History :=
  mkHistory (committed h) (hbytes h) p (tail h) (mark h) (truncated h).
Definition set_committed (h : History) (c : list string) (b : Z) : History :=
  mkHistory c b (prev h) (tail h) (mark h) (truncated h).
Definition set_mark (h : History) (mk : Z) (tr : bool) : History :=
  mkHistory (committed h) (hbytes h) (prev h) (tail h) mk tr.

Definition line_bytes (l : string) : Z := len l + 1.
Definition total_bytes (ls : list string) : Z := foldr (λ l n, line_bytes l + n) 0 ls.

Definition splitLive (lines : list string) : list string * list string :=
  if Nat.leb (length lines) HistoryLiveLines then ([], lines)
  else
    let cut := (length lines - HistoryLiveLines)%nat in
    (take cut lines, drop cut lines).

(** The counting loop of [aligned]: non-blank lines of the overlap and how
    many of them equal the line of the new screen at the same index. *)
Fixpoint anchor_counts (window : nat) (overlap stable : list string) : Z * Z :=
  match window, overlap, stable with
  | S window, o :: overlap, s :: stable =>
    let '(text, hits) := anchor_counts window overlap stable in
    if String.eqb (trim_space o) "" then (text, hits)
    else (text + 1, if String.eqb o s then hits + 1 else hits)
  | _, _, _ => (0, 0)
  end.

Definition aligned (overlap stable : list string) : bool :=
  let window := Nat.min (length overlap) HistoryAnchorWindow in
  let '(text, hits) := anchor_counts window overlap stable in
  if text =? 0 then false
  else
    let need := if text <? HistoryAnchorLines then text else HistoryAnchorLines in
    need <=? hits.

Definition commit (h : History) (lines : list string) : History :=
  set_committed h (committed h ++ lines) (hbytes h + total_bytes lines).

Definition cut (h : History) (n : nat) : History :=
  set_committed h (take n (committed h)) (hbytes h - total_bytes (drop n (committed h))).

(** The loop of [trim]: the lines that stay, their bytes and the number dropped. *)
Fixpoint trim_loop (ls : list string) (bytes : Z) (dropped : Z) : list string * Z * Z :=
  match ls with
  | [] => ([], bytes, dropped)
  | l :: ls' =>
    if (HistoryMaxLines <? Z.of_nat (length ls)) || (HistoryMaxBytes <? bytes)
    then trim_loop ls' (bytes - line_bytes l) (dropped + 1)
    else (ls, bytes, dropped)
  end.

Definition trim_history (h : History) : History :=
  let '(ls, bytes, dropped) := trim_loop (committed h) (hbytes h) 0 in
  if dropped =? 0 then h
  else
    let h' := set_committed h ls bytes in
    if 0 <=? mark h
    then let mk := mark h - dropped in
         if mk <? 0 then set_mark h' 0 true else set_mark h' mk (truncated h)
    else set_mark h' (mark h) true.

(** The loop over [shift]: the first suffix of the previous screen that fits
    into the new one and is aligned with it. *)
Fixpoint find_shift (prev stable : list string) (shift : nat) : option (nat * list string) :=
  match prev with
  | [] => None
  | _ :: prev' =>
    if Nat.ltb (length stable) (length prev) || negb (aligned prev stable)
    then find_shift prev' stable (S shift)
    else Some (shift, prev)
  end.

(** [Append] returns (added, shift, gap); the deferred function that stores
    [prev] and trims runs on every return after the tail is set. *)
Definition Append (h : History) (lines : list string) : History * (Z * Z * bool) :=
  let '(stable, tl) := splitLive lines in
  let h := set_tail h tl in
  match stable with
  | [] => (h, (0, 0, false))
  | _ =>
    let finish h := trim_history (set_prev h stable) in
    match prev h with
    | [] => (finish (commit h stable), (Z.of_nat (length stable), 0, false))
    | _ =>
      match find_shift (prev h) stable 0 with
      | Some (shift, overlap) =>
        let keep := (length (committed h) - length overlap)%nat in
        let skip := (length overlap - length (committed h))%nat in
        (finish (commit (cut h keep) (drop skip stable)),
         (Z.of_nat (length stable) - Z.of_nat (length overlap), Z.of_nat shift, false))
      | None =>
        (finish (commit (commit h [HistoryGapMarker]) stable),
         (Z.of_nat (length stable), Z.of_nat (length (prev h)), true))
      end
    end
  end.

Definition Mark (h : History) : History := set_mark h (Z.of_nat (length (committed h))) false.
Definition Marked (h : History) : bool := 0 <=? mark h.
Definition Len (h : History) : Z := Z.of_nat (length (committed h)).

Definition CommittedTail (h : History) (n : Z) : list string :=
  if n <=? 0 then []
  else
    let n := if Len h <? n then Len h else n in
    drop (Z.to_nat (Len h - n)) (committed h).

Definition Lines (h : History) : list string :=
  let start := if 0 <? mark h then mark h else 0 in
  let start := if Len h <? start then Len h else start in
  (if truncated h then [HistoryGapMarker] else [])
    ++ drop (Z.to_nat start) (committed h) ++ tail h.

(** ** Accounting *)

Lemma total_bytes_app a b : total_bytes (a ++ b) = total_bytes a + total_bytes b.
Proof. unfold total_bytes. induction a; simpl; lia. Qed.

Lemma total_bytes_split n ls : total_bytes (take n ls) + total_bytes (drop n ls) = total_bytes ls.
Proof. by rewrite <-total_bytes_app, take_drop. Qed.

Lemma line_bytes_pos l : 0 < line_bytes l.
Proof. unfold line_bytes, len. lia. Qed.

Record Inv (h : History) : Prop := {
  inv_bytes : hbytes h = total_bytes (committed h);
  inv_mark : -1 ≤ mark h ≤ Len h;
  inv_lines : Len h ≤ HistoryMaxLines;
  inv_cap : hbytes h ≤ HistoryMaxBytes
}.

Lemma trim_loop_spec ls bytes d ls' bytes' d' :
  bytes = total_bytes ls → trim_loop ls bytes d = (ls', bytes', d') →
  d ≤ d' ∧ ls' = drop (Z.to_nat (d' - d)) ls ∧ d' - d = Z.of_nat (length ls - length ls') ∧
  (length ls' ≤ length ls)%nat ∧ bytes' = total_bytes ls' ∧
  Z.of_nat (length ls') ≤ HistoryMaxLines ∧ bytes' ≤ HistoryMaxBytes.
Proof.
  revert bytes d. induction ls as [|l ls IH]; intros bytes d Hb Ht; cbn [trim_loop] in Ht.
  { simplify_eq. rewrite Z.sub_diag. unfold HistoryMaxLines, HistoryMaxBytes. simpl in *.
    split_and!; try done; lia. }
  destruct (_ || _) eqn:E.
  - apply IH in Ht as (Hd & -> & Hlen & Hle & -> & ? & ?); [|simpl in Hb; lia].
    replace (Z.to_nat (d' - d)) with (S (Z.to_nat (d' - (d + 1)))) by lia.
    cbn [drop length]. split_and!; auto; lia.
  - simplify_eq. apply orb_false_iff in E as [E1%Z.ltb_ge E2%Z.ltb_ge].
    rewrite !Z.sub_diag. simpl in *. split_and!; auto; lia.
Qed.

(** Trimming an accounted history restores the caps. *)
Lemma trim_history_inv h :
  hbytes h = total_bytes (committed h) → -1 ≤ mark h ≤ Len h → Inv (trim_history h).
Proof.
  intros Hb Hm. unfold trim_history, Len in *.
  destruct (trim_loop _ _ _) as [[ls bytes] d] eqn:Ht.
  pose proof Ht as Ht'. apply trim_loop_spec in Ht' as (Hd & Hls & Hlen & Hle & -> & ? & ?); [|done].
  destruct (Z.eqb_spec d 0) as [->|Hd0].
  - change (drop _ _) with (committed h) in Hls. subst ls. split; unfold Len; lia.
  - destruct (Z.leb_spec 0 (mark h)); [destruct (Z.ltb_spec (mark h - d) 0)|];
      split; unfold Len; simpl; lia.
Qed.

Lemma find_shift_spec p stable n shift overlap :
  find_shift p stable n = Some (shift, overlap) →
  (n ≤ shift)%nat ∧ overlap = drop (shift - n) p ∧ overlap ≠ [] ∧
  (length overlap ≤ length stable)%nat ∧ aligned overlap stable = true.
Proof.
  revert n. induction p as [|x p IH]; intros n; cbn [find_shift]; [done|].
  destruct (_ || _) eqn:E.
  - intros (Hn & -> & ?)%IH. split; [lia|].
    replace (shift - n)%nat with (S (shift - S n)) by lia. done.
  - intros [= <- <-]. rewrite Nat.sub_diag. apply orb_false_iff in E as [E1 E2].
    apply Nat.ltb_ge in E1. apply negb_false_iff in E2. done.
Qed.

Lemma Inv_NewHistory : Inv NewHistory.
Proof. split; vm_compute; intuition congruence. Qed.

(** The accounting of a history is exact after any operation: [bytes] is
    the size of the committed lines with their newlines, the mark points into
    them (or is -1), and both caps hold; [Append] and [Mark] preserve this
    whatever the screen contains. *)
Theorem History_invariant h lines :
  Inv h → Inv (Mark h) ∧ Inv (Append h lines).1.
Proof.
  intros [Hb Hm Hl Hc]. split.
  { split; unfold Mark, Len in *; simpl; lia. }
  unfold Append. destruct (splitLive lines) as [stable tl].
  destruct stable as [|s stable]; [by split|]. set (st := s :: stable) in *.
  unfold set_tail. cbn [prev committed].
  destruct (prev h) as [|p ps] eqn:Hp; cbn [fst].
  - apply trim_history_inv; unfold Len in *; cbn [set_prev commit set_committed committed hbytes mark];
      rewrite ?total_bytes_app, ?length_app; lia.
  - destruct (find_shift _ _ _) as [[shift overlap]|] eqn:Hf; cbn [fst].
    + apply find_shift_spec in Hf as (_ & _ & _ & Hle & _).
      apply trim_history_inv; unfold Len in *; cbn [set_prev commit cut set_committed committed hbytes mark].
      * rewrite total_bytes_app.
        pose proof (total_bytes_split (length (committed h) - length overlap) (committed h)). lia.
      * rewrite length_app, length_take, length_drop. lia.
    + apply trim_history_inv; unfold Len in *; cbn [set_prev commit set_committed committed hbytes mark];
        rewrite ?total_bytes_app, ?length_app; lia.
Qed.

Lemma History_invariant_witness :
  Inv (Append (Mark (Append NewHistory (repeat "line" 12)).1) (repeat "next" 20)).1.
Proof.
  apply (History_invariant _ (repeat "next" 20)).
  apply (History_invariant _ []).
  apply (History_invariant _ (repeat "line" 12)). apply Inv_NewHistory.
Defined.

(** ** Stitching

    The abstract view: the agent prints a transcript [T]; a snapshot shows a
    window of it, and successive windows scroll down. *)

Definition slice {A} (T : list A) (a b : nat) : list A := take (b - a) (drop a T).

Section slice.
Context {A : Type} (T : list A).

Lemma length_slice a b : (b ≤ length T)%nat → length (slice T a b) = (b - a)%nat.
Proof. intros. unfold slice. rewrite length_take, length_drop. lia. Qed.

Lemma slice_lookup a b i : (i < b - a)%nat → slice T a b !! i = T !! (a + i)%nat.
Proof. intros. unfold slice. by rewrite lookup_take_lt, lookup_drop by done. Qed.

Lemma drop_slice a b k : drop k (slice T a b) = slice T (a + k) b.
Proof. unfold slice. rewrite skipn_firstn_comm, drop_drop. f_equal; lia. Qed.

Lemma slice_app a b c : (a ≤ b ≤ c)%nat → slice T a b ++ slice T b c = slice T a c.
Proof.
intros. unfold slice. replace (c - a)%nat with ((b - a) + (c - b))%nat by lia.
rewrite <-(take_take_drop _ (b - a) (c - b)), drop_drop. by replace (a + (b - a))%nat with b by lia.
Qed.

Lemma take_slice a b k : (a ≤ k ≤ b)%nat → take (k - a) (slice T a b) = slice T a k.
Proof. intros. unfold slice. rewrite take_take. f_equal. lia. Qed.

Lemma slice_cons a b :
(a < b)%nat → (a < length T)%nat → ∃ x, slice T a b = x :: slice T (S a) b.
Proof.
intros Hab Ha. destruct (lookup_lt_is_Some_2 T a Ha) as [x Hx]. exists x.
unfold slice. rewrite (drop_S _ _ _ Hx). by replace (b - a)%nat with (S (b - S a)) by lia.
Qed.
End slice.

Definition blank (l : string) : bool := String.eqb (trim_space l) "".

Lemma anchor_counts_same w o s :
  (∀ i, (i < w)%nat → o !! i = s !! i) → Forall (λ l, blank l = false) o →
  anchor_counts w o s = (Z.of_nat (Nat.min w (length o)), Z.of_nat (Nat.min w (length o))).
Proof.
  revert o s. induction w as [|w IH]; intros [|x o] s Heq Hb; try done.
  pose proof (Heq 0%nat ltac:(lia)) as H0. destruct s as [|y s]; [done|]. injection H0 as <-.
  apply Forall_cons in Hb as [Hx Hb]. cbn [anchor_counts].
  rewrite (IH o s); [|intros i Hi; apply (Heq (S i)); lia|done].
  unfold blank in Hx. rewrite Hx, String.eqb_refl. f_equal; simpl; lia.
Qed.

Lemma anchor_counts_diff w o s :
  (∀ i x y, (i < w)%nat → o !! i = Some x → s !! i = Some y → x ≠ y) →
  (anchor_counts w o s).2 = 0 ∧ 0 ≤ (anchor_counts w o s).1.
Proof.
  revert o s. induction w as [|w IH]; intros [|x o] [|y s] Hne; try done.
  cbn [anchor_counts].
  destruct (IH o s) as [H1 H2]; [intros i a b Hi; apply (Hne (S i)); lia|].
  destruct (anchor_counts w o s) as [text hits]. simpl in *. subst hits.
  pose proof (Hne 0%nat x y ltac:(lia) eq_refl eq_refl) as Hxy%String.eqb_neq. rewrite Hxy.
  case_match; simpl; split; lia.
Qed.

Lemma trim_history_id h :
  Len h ≤ HistoryMaxLines → hbytes h ≤ HistoryMaxBytes → trim_history h = h.
Proof.
  unfold trim_history, Len. intros Hl Hb.
  assert (trim_loop (committed h) (hbytes h) 0 = (committed h, hbytes h, 0)) as ->; [|done].
  destruct (committed h) as [|l ls]; [done|]. cbn [trim_loop].
  by rewrite (proj2 (Z.ltb_ge _ _)), (proj2 (Z.ltb_ge _ _)) by done.
Qed.

Section stitching.
Context (T : list string) (HT : NoDup T) (Hblank : Forall (λ l, blank l = false) T).

Lemma aligned_same a b c :
(a < b)%nat → (b ≤ c)%nat → (b ≤ length T)%nat → aligned (slice T a b) (slice T a c) = true.
Proof.
intros Hab Hbc Hb. unfold aligned. rewrite length_slice by lia.
rewrite anchor_counts_same, length_slice; [|lia| |].
2: { intros i Hi. by rewrite !slice_lookup by lia. }
2: { unfold slice. by apply Forall_take, Forall_drop. }
unfold HistoryAnchorLines, HistoryAnchorWindow.
destruct (Z.eqb_spec (Z.of_nat (Nat.min (Nat.min (b - a) 6) (b - a))) 0); [lia|].
apply Z.leb_le. match goal with |- context [?x <? 3] => destruct (Z.ltb_spec x 3); lia end.
Qed.

Lemma aligned_shifted a a' b c :
a ≠ a' → aligned (slice T a b) (slice T a' c) = false.
Proof.
intros Hne. unfold aligned.
destruct (anchor_counts_diff (Nat.min (length (slice T a b)) HistoryAnchorWindow)
  (slice T a b) (slice T a' c)) as [H2 H1].
{ intros i x y _ Hx Hy <-. apply Hne.
  unfold slice in Hx, Hy. apply lookup_take_Some in Hx as [Hx _], Hy as [Hy _].
  rewrite lookup_drop in Hx, Hy. pose proof (NoDup_lookup _ _ _ _ HT Hx Hy). lia. }
destruct (anchor_counts _ _ _) as [text hits]. simpl in *. subst.
destruct (Z.eqb_spec text 0); [done|]. apply Z.leb_gt. unfold HistoryAnchorLines.
destruct (Z.ltb_spec text 3); lia.
Qed.

(** The shift found is how far the window moved. *)
Lemma find_shift_slice a a' b b' n :
(a ≤ a' < b)%nat → (b ≤ b')%nat → (b' ≤ length T)%nat →
find_shift (slice T a b) (slice T a' b') n = Some (n + (a' - a), slice T a' b)%nat.
Proof.
intros Ha Hb Hb'. remember (a' - a)%nat as d eqn:Hd. revert a n Ha Hd.
induction d as [|d IH]; intros a n Ha Hd.
- assert (a = a') as -> by lia. rewrite Nat.add_0_r.
  assert (slice T a' b ≠ []) as Hnil.
  { intros E%(f_equal length). rewrite length_slice in E; simpl in E; lia. }
  destruct (slice T a' b) as [|x s] eqn:E; [done|]. cbn [find_shift]. rewrite <-E.
  rewrite aligned_same, !length_slice by lia.
  by rewrite (proj2 (Nat.ltb_ge _ _)) by lia.
- destruct (slice_cons T a b) as [x Hx]; [lia..|].
  rewrite Hx. cbn [find_shift]. rewrite <-Hx.
  rewrite aligned_shifted, orb_true_r by lia.
  rewrite IH by lia. do 2 f_equal. lia.
Qed.

(** A history that holds the transcript from [a0] to [b], having last seen
  the window that starts at [a]; [mk] is where the mark stands. *)
Record Holds (h : History) (a0 a b : nat) (mk : option nat) : Prop := {
h_committed : committed h = slice T a0 b;
h_bytes : hbytes h = total_bytes (slice T a0 b);
h_prev : prev h = slice T a b;
h_tail : tail h = slice T b (b + HistoryLiveLines);
h_order : (a0 ≤ a < b)%nat;
h_mark : match mk with
         | None => mark h = -1
         | Some p => (a0 ≤ p ≤ b)%nat ∧ mark h = Z.of_nat p - Z.of_nat a0
         end;
h_trunc : truncated h = false
}.

(** The window from [a] whose stable part ends at [b]. *)
Definition window (a b : nat) : list string := slice T a (b + HistoryLiveLines).

(** The transcript from [a0] to [b] exists and fits the caps. *)
Definition fits (a0 b : nat) : Prop :=
(b + HistoryLiveLines ≤ length T)%nat ∧ Z.of_nat (b - a0) ≤ HistoryMaxLines ∧
total_bytes (slice T a0 b) ≤ HistoryMaxBytes.

Lemma splitLive_window a b :
(a < b)%nat → (b + HistoryLiveLines ≤ length T)%nat →
splitLive (window a b) = (slice T a b, slice T b (b + HistoryLiveLines)).
Proof.
intros Hab Hb. unfold splitLive, window. rewrite length_slice by done.
rewrite (proj2 (Nat.leb_gt _ _)) by (unfold HistoryLiveLines; lia).
replace (b + HistoryLiveLines - a - HistoryLiveLines)%nat with (b - a)%nat by lia.
rewrite take_slice, drop_slice by lia. by replace (a + (b - a))%nat with b by lia.
Qed.

Lemma slice_nonempty a b : (a < b)%nat → (b ≤ length T)%nat → slice T a b ≠ [].
Proof. intros Hab Hb E%(f_equal length). rewrite length_slice in E; simpl in E; lia. Qed.

Lemma Append_first a b :
(a < b)%nat → fits a b →
Holds (Append NewHistory (window a b)).1 a a b None.
Proof.
intros Hab (Hb & Hl & Hc). unfold Append. rewrite splitLive_window by done.
pose proof (slice_nonempty a b Hab ltac:(lia)) as Hne.
destruct (slice T a b) as [|x xs] eqn:E; [done|]. rewrite <-E in *. cbn [prev set_tail NewHistory fst].
rewrite trim_history_id; unfold Len; simpl; rewrite ?length_slice by lia; [by split|lia..].
Qed.

Lemma Append_scroll h a0 a b a' b' mk :
Holds h a0 a b mk → (a ≤ a' < b)%nat → (b ≤ b')%nat → fits a0 b' →
Holds (Append h (window a' b')).1 a0 a' b' mk ∧
(Append h (window a' b')).2 = (Z.of_nat (b' - b), Z.of_nat (a' - a), false).
Proof.
intros [Hco Hby Hpr Hta Hor Hmk Htr] Ha Hb (Hb' & Hl & Hc).
unfold Append. rewrite splitLive_window by lia.
pose proof (slice_nonempty a' b' ltac:(lia) ltac:(lia)) as Hne.
destruct (slice T a' b') as [|x xs] eqn:E; [done|]. rewrite <-E in *. clear E x xs.
cbn [prev set_tail committed]. rewrite Hpr.
pose proof (slice_nonempty a b ltac:(lia) ltac:(lia)) as Hnp.
destruct (slice T a b) as [|x xs] eqn:E; [done|]. rewrite <-E in *. clear E x xs.
rewrite find_shift_slice by lia. rewrite Hco, !length_slice by lia.
replace (b - a' - (b - a0))%nat with 0%nat by lia. rewrite drop_0.
assert (Hcom : take (b - a0 - (b - a')) (slice T a0 b) ++ slice T a' b' = slice T a0 b').
{ replace (b - a0 - (b - a'))%nat with (a' - a0)%nat by lia.
  rewrite take_slice, slice_app by lia. done. }
assert (Hbt : total_bytes (slice T a0 b) - total_bytes (drop (b - a0 - (b - a')) (slice T a0 b))
  + total_bytes (slice T a' b') = total_bytes (slice T a0 b')).
{ rewrite <-Hcom, total_bytes_app.
  pose proof (total_bytes_split (b - a0 - (b - a')) (slice T a0 b)). lia. }
unfold commit, cut, set_committed, set_prev, set_tail.
cbn [fst snd committed hbytes prev tail mark truncated].
rewrite Hco, Hby, Hcom, Hbt. split; [|repeat f_equal; lia].
rewrite trim_history_id; unfold Len; cbn [committed hbytes]; rewrite ?length_slice by lia; [|lia..].
split; cbn; auto; [lia|]. destruct mk; [|done]. lia.
Qed.

(** Windows that scroll down by less than a screen each. *)
Fixpoint scrolls (a b : nat) (ws : list (nat * nat)) : Prop :=
match ws with
| [] => True
| (a', b') :: ws => (a ≤ a' < b)%nat ∧ (b ≤ b')%nat ∧ scrolls a' b' ws
end.

Definition feed (h : History) (w : nat * nat) : History := (Append h (window w.1 w.2)).1.
Fixpoint last_window (a b : nat) (ws : list (nat * nat)) : nat * nat :=
match ws with [] => (a, b) | (a', b') :: ws => last_window a' b' ws end.

Lemma scrolls_le a b ws : scrolls a b ws → (b ≤ (last_window a b ws).2)%nat.
Proof.
revert a b. induction ws as [|[a' b'] ws IH]; intros a b; [done|].
intros (_ & Hb & H). etrans; [done|]. by apply IH.
Qed.

Lemma fits_le a0 b b' : (a0 ≤ b ≤ b')%nat → fits a0 b' → fits a0 b.
Proof.
intros Hb (H1 & H2 & H3). split_and!; [lia..|]. rewrite <-(slice_app T a0 b b') in H3 by lia.
rewrite total_bytes_app in H3.
assert (0 ≤ total_bytes (slice T b b')); [|lia].
clear. induction (slice T b b') as [|l ls IH]; simpl; [done|]. pose proof (line_bytes_pos l). lia.
Qed.

Lemma feed_scrolls h a0 a b mk ws :
Holds h a0 a b mk → scrolls a b ws → fits a0 (last_window a b ws).2 →
Holds (foldl feed h ws) a0 (last_window a b ws).1 (last_window a b ws).2 mk.
Proof.
revert h a b. induction ws as [|[a' b'] ws IH]; intros h a b Hh Hs Hf; [done|].
destruct Hs as (Ha & Hb & Hs).
simpl in Hf |- *. apply IH; [|done..].
pose proof (scrolls_le _ _ _ Hs). destruct Hh.
apply (Append_scroll h a0 a b a' b' mk); [by split|lia|lia|].
apply (fits_le a0 b' (last_window a' b' ws).2); [lia|done].
Qed.
End stitching.

(** C39: stitching is exact within the caps. Take any transcript of distinct,
    non-blank lines and any snapshots of it that scroll down by less than a
    screen at a time, with the operator's message ([Mark]) after the first of
    two runs of them. As long as the lines that scrolled out since the first
    snapshot are at most 2000 and 256 KiB ([fits]), the history returns from
    the mark on precisely the transcript lines that followed it, up to the
    bottom of the last screen: none lost, none repeated, no gap. Past the caps
    the oldest lines are dropped and [Lines] may start with a gap marker; the
    theorem says nothing of such transcripts. *)
Theorem snapshots_stitch (T : list string) a b ws1 ws2 :
  NoDup T → Forall (λ l, blank l = false) T → (a < b)%nat →
  scrolls a b ws1 →
  let '(a1, b1) := last_window a b ws1 in
  scrolls a1 b1 ws2 →
  let '(_, b2) := last_window a1 b1 ws2 in
  fits T a b2 →
  let before := foldl (feed T) NewHistory ((a, b) :: ws1) in
  Lines before = slice T a (b1 + HistoryLiveLines) ∧
  Lines (foldl (feed T) (Mark before) ws2) = slice T b1 (b2 + HistoryLiveLines).
Proof.
  intros HT Hb Hab Hs1. destruct (last_window a b ws1) as [a1 b1] eqn:E1.
  intros Hs2. destruct (last_window a1 b1 ws2) as [a2 b2] eqn:E2. intros Hf before.
  pose proof (scrolls_le _ _ _ Hs1) as Hle1. rewrite E1 in Hle1. simpl in Hle1.
  pose proof (scrolls_le _ _ _ Hs2) as Hle2. rewrite E2 in Hle2. simpl in Hle2.
  assert (Hh : Holds T before a a1 b1 None).
  { pose proof (feed_scrolls T HT Hb _ a a b None ws1
      (Append_first T a b Hab (fits_le T a b b2 ltac:(lia) Hf)) Hs1) as H.
    rewrite E1 in H. apply H. apply (fits_le T a b1 b2); [simpl; lia|done]. }
  assert (Hm : Holds T (Mark before) a a1 b1 (Some b1)).
  { destruct Hh as [Hco Hby Hpr Hta Hor Hmk Htr]. split; try done; simpl; try lia.
    rewrite Hco, length_slice; destruct Hf; lia. }
  apply (feed_scrolls T HT Hb _ a a1 b1 (Some b1) ws2) in Hm; [|done|by rewrite E2].
  rewrite E2 in Hm. simpl in Hm. destruct Hf as (HfT & _).
  split.
  - destruct Hh as [Hco Hby Hpr Hta Hor Hmk Htr]. unfold Lines, Len.
    rewrite Hmk, Htr, Hco, Hta. simpl. rewrite length_slice by lia.
    rewrite (proj2 (Z.ltb_ge _ _)) by lia. rewrite drop_0. apply slice_app. lia.
  - destruct Hm as [Hco Hby Hpr Hta Hor [Hpb Hmk] Htr]. unfold Lines, Len.
    rewrite Hmk, Htr, Hco, Hta, length_slice by lia.
    replace (if 0 <? _ then _ else 0) with (Z.of_nat b1 - Z.of_nat a)
      by (destruct (Z.ltb_spec 0 (Z.of_nat b1 - Z.of_nat a)); lia).
    rewrite (proj2 (Z.ltb_ge _ _)) by lia. rewrite drop_slice.
    replace (a + Z.to_nat (Z.of_nat b1 - Z.of_nat a))%nat with b1 by lia.
    apply slice_app. lia.
Qed.

Lemma snapshots_stitch_witness :
  let T := map (λ n : nat, "line " +:+ pretty n) (seq 0 20) in
  let before := foldl (feed T) NewHistory [(0, 4); (2, 6)]%nat in
  Lines before = slice T 0 14 ∧ Lines (foldl (feed T) (Mark before) [(5, 9)]%nat) = slice T 6 17.
Proof.
  intros T before.
  apply (snapshots_stitch T 0 4 [(2, 6)]%nat [(5, 9)]%nat).
  - apply (bool_decide_unpack (NoDup T)). by vm_compute.
  - apply (bool_decide_unpack (Forall (λ l, blank l = false) T)). by vm_compute.
  - lia.
  - simpl. lia.
  - simpl. lia.
  - split_and!; [by vm_compute; lia|by vm_compute|by vm_compute].
Defined.
