(* ===== verification/Choice.v ===== *)
(** internal/domain/choice.go: the numbered dialog at the bottom of a blocked
    screen, and the keys that submit a multi-select one.

    The two regular expressions of the file are deterministic (no alternative
    shares a first character with another), so each is written as the scanner
    it denotes over the decoded code points; [\s] is RE2's ASCII class. *)
From S2P Require Import Prelude GoStrings.

Local Open Scope Z_scope.

Record Choice := mkChoice { Number : Z; ChLabel : string }.

Definition MaxChoiceButtons : Z := 5.
Definition minChoices : Z := 2.
Definition choiceRuleMinRunes : Z := 8.

Record Dialog := mkDialog {
  Choices : list Choice;
  Multi : bool;
  TextEntry : Z;
  TextLabel : string;
  Cursor : Z;
  SubmitRow : Z
}.

(** The zero [Dialog]: the screen ends in no dialog. *)
Definition noDialog : Dialog := mkDialog [] false 0 "" 0 0.

Definition KeyEnter : string := "enter".
Definition KeyDown : string := "down".
Definition KeyUp : string := "up".
Definition submitLabel : string := "Submit".

(** The two counting loops run [SubmitRow - cursor] times down, then
    [cursor - SubmitRow] times up; at most one of them runs. *)
Definition SubmitKeys (d : Dialog) : list string :=
  if SubmitRow d =? 0 then [KeyEnter]
  else
    let cursor := if Cursor d =? 0 then 1 else Cursor d in
    let downs := Z.to_nat (SubmitRow d - cursor) in
    let ups := Z.to_nat (cursor - SubmitRow d) in
    repeat KeyDown downs ++ repeat KeyUp ups ++ [KeyEnter].

Definition ServiceTypeSomething : string := "Type something".
Definition ServiceChatAboutThis : string := "Chat about this".
Definition choiceServiceLabels : list string := [ServiceTypeSomething; ServiceChatAboutThis].

(** ** The regular expressions *)

(** [\s] of RE2. *)
Definition re_space (r : Z) : bool := (r =? 9) || (r =? 10) || (r =? 12) || (r =? 13) || (r =? 32).

Fixpoint skip_re_spaces (l : list (Z * string)) : list (Z * string) :=
  match l with
  | (r, b) :: l' => if re_space r then skip_re_spaces l' else l
  | [] => []
  end.

(** [\s+]: at least one, then all. *)
Definition re_spaces1 (l : list (Z * string)) : option (list (Z * string)) :=
  match l with
  | (r, _) :: l' => if re_space r then Some (skip_re_spaces l') else None
  | [] => None
  end.

(** A rune allowed inside the brackets: not a bracket, not [\s]. *)
Definition box_rune (r : Z) : bool := negb ((r =? 91) || (r =? 93) || re_space r).

(** [checkboxGlyph]: what follows a leading checkbox and its spaces. *)
Definition checkbox_rest (l : list (Z * string)) : option (list (Z * string)) :=
  match l with
  | (r0, _) :: l1 =>
    if r0 =? 91 (* "[" *) then
      match l1 with
      | (r1, _) :: (r2, _) :: l2 =>
        if (box_rune r1 || (r1 =? 32)) && (r2 =? 93) then re_spaces1 l2
        else
          match l2 with
          | (r3, _) :: l3 => if box_rune r1 && box_rune r2 && (r3 =? 93) then re_spaces1 l3 else None
          | [] => None
          end
      | _ => None
      end
    else if (r0 =? 9744) || (r0 =? 9745) || (r0 =? 9746) (* ☐ ☑ ☒ *) then re_spaces1 l1
    else None
  | [] => None
  end.

Definition stripCheckbox (label : string) : string :=
  match checkbox_rest (segs label) with
  | Some rest => trim_space (concat_str rest.*2)
  | None => label
  end.

Definition hasCheckbox (label : string) : bool := negb (String.eqb (stripCheckbox label) label).

Definition allCheckboxes (choices : list Choice) : bool :=
  forallb (λ c, hasCheckbox (ChLabel c)) choices && negb (Nat.eqb (length choices) 0).

Definition cursor_rune : Z := 10095. (* ❯ *)

(** [choiceItem]: the digit and the label of "N. Label", with the optional
    cursor in front; [.] stops at a newline, so the label holds none. *)
Definition choice_item (l : list (Z * string)) : option (Z * string) :=
  let l := skip_re_spaces l in
  let l := match l with
           | (r, _) :: l' => if r =? cursor_rune then skip_re_spaces l' else l
           | [] => l
           end in
  match l with
  | (d, _) :: (dot, _) :: l' =>
    if (49 <=? d) && (d <=? 57) && (dot =? 46) then
      match re_spaces1 l' with
      | Some (c :: rest) =>
        if forallb (λ x, negb (x.1 =? 10)) rest
        then Some (d - 48, concat_str (c :: rest).*2) else None
      | _ => None
      end
    else None
  | _ => None
  end.

Definition tab : string := String "009" "".
Definition cr : string := String "013" "".

Definition parseChoiceLine (line : string) : option (Z * string) :=
  match choice_item (segs (trim_right line (" " +:+ tab +:+ cr))) with
  | Some (n, label) => Some (n, trim_space label)
  | None => None
  end.

Definition hasCursor (line : string) : bool := has_prefix (trim_left line (" " +:+ tab)) "❯".

Definition isSubmitRow (line : string) : bool :=
  let trimmed := trim_space line in
  String.eqb trimmed submitLabel
  || String.eqb (trim_space (trim_prefix trimmed "❯")) submitLabel && has_prefix trimmed "❯".

Definition isChoiceRule (trimmed : string) : bool :=
  if rune_count trimmed <? choiceRuleMinRunes then false
  else forallb (λ r, (r =? 9472) || (r =? 9620) || (r =? 9473) || (r =? 9552)) (* ─ ▔ ━ ═ *)
         (runes trimmed).

Definition isChoiceFiller (line : string) : bool :=
  let trimmed := trim_space line in
  if String.eqb trimmed "" then true
  else if isChoiceRule trimmed then true
  else if has_prefix line "  " then true
  else if contains trimmed " · " then true
  else has_prefix trimmed "Enter " || has_prefix trimmed "Esc ".

Fixpoint index_of (l : list string) (s : string) (i : Z) : Z :=
  match l with
  | [] => -1
  | x :: l' => if String.eqb x s then i else index_of l' s (i + 1)
  end.
Definition serviceRank (label : string) : Z := index_of choiceServiceLabels label 0.

(** ** ParseDialog *)

(** The lines from the last "1." item on; [None] when there is none. *)
Fixpoint from_last_first_item (lines : list string) : option (list string) :=
  match lines with
  | [] => None
  | l :: lines' =>
    match from_last_first_item lines' with
    | Some tl => Some tl
    | None =>
      match parseChoiceLine l with
      | Some (n, _) => if n =? 1 then Some lines else None
      | None => None
      end
    end
  end.

(** The variables of the line loop. *)
Record scan := mkScan { sc_items : list Choice; sc_rows : Z; sc_cursor : Z; sc_submit : Z }.

Definition scan_line (st : scan) (line : string) : option scan :=
  match parseChoiceLine line with
  | Some (n, label) =>
    if negb (n =? Z.of_nat (length (sc_items st)) + 1) then None
    else
      let rows := sc_rows st + 1 in
      Some (mkScan (sc_items st ++ [mkChoice n label]) rows
              (if hasCursor line then rows else sc_cursor st) (sc_submit st))
  | None =>
    if isSubmitRow line then
      let rows := sc_rows st + 1 in
      Some (mkScan (sc_items st) rows (if hasCursor line then rows else sc_cursor st) rows)
    else if negb (isChoiceFiller line) then None
    else Some st
  end.

Fixpoint scan_lines (st : scan) (lines : list string) : option scan :=
  match lines with
  | [] => Some st
  | l :: lines' =>
    match scan_line st l with Some st' => scan_lines st' lines' | None => None end
  end.

(** The loop that separates the service entries from the options; the state
    is (bestRank, dialog so far). *)
Definition sort_item (acc : Z * Dialog) (c : Choice) : Z * Dialog :=
  let '(bestRank, d) := acc in
  let plain := trim_suffix (stripCheckbox (ChLabel c)) "." in
  let rank := serviceRank plain in
  if 0 <=? rank then
    if rank <? bestRank
    then (rank, mkDialog (Choices d) (Multi d) (Number c) plain (Cursor d) (SubmitRow d))
    else (bestRank, d)
  else (bestRank, mkDialog (Choices d ++ [c]) (Multi d) (TextEntry d) (TextLabel d)
                    (Cursor d) (SubmitRow d)).

Definition screen_lines (screen : string) : list string :=
  lines_of (replace_all screen (cr +:+ nl) nl).

Definition ParseDialog (screen : string) : Dialog :=
  match from_last_first_item (screen_lines screen) with
  | None => noDialog
  | Some block =>
    match scan_lines (mkScan [] 0 0 0) block with
    | None => noDialog
    | Some st =>
      let d0 := mkDialog [] false 0 "" (sc_cursor st) (sc_submit st) in
      let '(_, d) :=
        foldl sort_item (Z.of_nat (length choiceServiceLabels), d0) (sc_items st) in
      let n := Z.of_nat (length (Choices d)) in
      if (n <? minChoices) || (MaxChoiceButtons <? n) then noDialog
      else mkDialog (Choices d) (allCheckboxes (Choices d)) (TextEntry d) (TextLabel d)
             (Cursor d) (SubmitRow d)
    end
  end.

Definition ParseChoices (screen : string) : list Choice := Choices (ParseDialog screen).

(** ** What a parsed dialog guarantees *)

Definition by_number (c d : Choice) : Prop := Number c < Number d.
#[global] Instance by_number_trans : Transitive by_number.
Proof. intros x y z. unfold by_number. lia. Qed.

(** The label without checkbox and period, as compared with the service list. *)
Definition plain_label (c : Choice) : string := trim_suffix (stripCheckbox (ChLabel c)) ".".
Definition is_option (c : Choice) : bool := serviceRank (plain_label c) <? 0.

(** [c] was read from one of [lines]. *)
Definition shown_on (lines : list string) (c : Choice) : Prop :=
  ∃ line, line ∈ lines ∧ parseChoiceLine line = Some (Number c, ChLabel c).

Lemma choice_item_digit l n label : choice_item l = Some (n, label) → 1 ≤ n ≤ 9.
Proof.
  unfold choice_item. generalize (skip_re_spaces l). intros k E.
  destruct (match k with [] => k | (r, _) :: l' => if r =? cursor_rune then skip_re_spaces l' else k end)
    as [|[d ?] [|[dot ?] ?]]; [done..|].
  destruct (_ && _) eqn:H in E; [|done].
  apply andb_true_iff in H as [[H1 H2]%andb_true_iff _]. apply Z.leb_le in H1, H2.
  destruct (re_spaces1 _) as [[|c rest]|]; [done| |done].
  destruct (forallb _ rest); [|done]. simplify_eq. lia.
Qed.

Lemma parseChoiceLine_digit line n label : parseChoiceLine line = Some (n, label) → 1 ≤ n ≤ 9.
Proof.
  unfold parseChoiceLine. destruct (choice_item _) as [[n' label']|] eqn:E; [|done].
  intros. simplify_eq. by eapply choice_item_digit.
Qed.

Record ScanInv (lines : list string) (st : scan) : Prop := {
  si_sorted : StronglySorted by_number (sc_items st);
  si_bound : Forall (λ c, 1 ≤ Number c ≤ Z.of_nat (length (sc_items st))) (sc_items st);
  si_shown : Forall (shown_on lines) (sc_items st);
  si_rows : Z.of_nat (length (sc_items st)) ≤ sc_rows st;
  si_cursor : 0 ≤ sc_cursor st ≤ sc_rows st;
  si_submit : 0 ≤ sc_submit st ≤ sc_rows st
}.

Lemma StronglySorted_snoc {A} (R : relation A) l x :
  StronglySorted R l → Forall (λ y, R y x) l → StronglySorted R (l ++ [x]).
Proof.
  induction 1 as [|y l Hs IH Hy]; simpl; intros H; [by repeat constructor|].
  apply Forall_cons in H as [Hyx H]. constructor; [by apply IH|].
  rewrite Forall_app. auto.
Qed.

Lemma scan_line_inv lines st line st' :
  ScanInv lines st → line ∈ lines → scan_line st line = Some st' → ScanInv lines st'.
Proof.
  intros [Hs Hb Hsh Hr Hc Hsub] Hl. unfold scan_line.
  destruct (parseChoiceLine line) as [[n label]|] eqn:E.
  - destruct (Z.eqb_spec n (Z.of_nat (length (sc_items st)) + 1)) as [->|]; [|done].
    intros [= <-]. split; cbn [sc_items sc_rows sc_cursor sc_submit]; rewrite ?length_app; simpl.
    + apply StronglySorted_snoc; [done|].
      apply (Forall_impl _ _ _ Hb). unfold by_number. simpl. lia.
    + apply Forall_app. split; [|apply Forall_singleton; simpl; lia].
      apply (Forall_impl _ _ _ Hb). lia.
    + apply Forall_app. split; [done|]. apply Forall_singleton. by exists line.
    + lia.
    + destruct (hasCursor line); lia.
    + lia.
  - destruct (isSubmitRow line).
    + intros [= <-]. split; simpl; auto; try lia. destruct (hasCursor line); lia.
    + destruct (isChoiceFiller line); [|done]. intros. simplify_eq/=. by split.
Qed.

Lemma scan_lines_inv lines st ls st' :
  ScanInv lines st → (∀ l, l ∈ ls → l ∈ lines) → scan_lines st ls = Some st' → ScanInv lines st'.
Proof.
  revert st. induction ls as [|l ls IH]; intros st Hi Hin; cbn [scan_lines].
  - by intros [= <-].
  - destruct (scan_line st l) as [st1|] eqn:E; [|done]. apply IH.
    + eapply scan_line_inv; [done| |done]. apply Hin. by left.
    + intros l' Hl'. apply Hin. by right.
Qed.

Lemma from_last_first_item_sub lines block l :
  from_last_first_item lines = Some block → l ∈ block → l ∈ lines.
Proof.
  revert block. induction lines as [|x lines IH]; intros block; cbn [from_last_first_item]; [done|].
  destruct (from_last_first_item lines) as [tl|].
  - intros [= <-] Hl. right. by eapply IH.
  - repeat case_match; intros; by simplify_eq.
Qed.

Lemma StronglySorted_by_number_inj l c d :
  StronglySorted by_number l → c ∈ l → d ∈ l → Number c = Number d → c = d.
Proof.
  induction 1 as [|x l Hs IH Hx]; [by intros ?%elem_of_nil|].
  rewrite Forall_forall in Hx. unfold by_number in Hx.
  intros [->|Hc]%elem_of_cons [->|Hd]%elem_of_cons E; auto.
  - specialize (Hx d Hd). lia.
  - specialize (Hx c Hc). lia.
Qed.

(** The text-entry part of a dialog after some items were sorted. *)
Definition text_ok (items : list Choice) (d : Dialog) : Prop :=
  (TextEntry d = 0 ∧ TextLabel d = "") ∨
  ∃ c, c ∈ items ∧ is_option c = false ∧ TextEntry d = Number c ∧ TextLabel d = plain_label c.

Lemma sort_items_spec items acc :
  let r := foldl sort_item acc items in
  Choices r.2 = Choices acc.2 ++ List.filter is_option items ∧
  Cursor r.2 = Cursor acc.2 ∧ SubmitRow r.2 = SubmitRow acc.2 ∧
  (text_ok [] acc.2 → text_ok items r.2).
Proof.
  induction items as [|c items IH] using rev_ind; [by rewrite app_nil_r|].
  cbv zeta in *. rewrite foldl_app, filter_snoc. cbn [foldl].
  destruct (foldl sort_item acc items) as [rank d]. simpl in IH.
  destruct IH as (Hc & Hcu & Hsu & Ht). unfold sort_item. fold (plain_label c).
  assert (Htext : text_ok [] acc.2 → text_ok (items ++ [c]) d).
  { intros [?|(c' & Hin & ?)]%Ht; [by left|right; exists c']. rewrite elem_of_app. auto. }
  assert (is_option c = negb (0 <=? serviceRank (plain_label c))) as ->.
  { unfold is_option. by rewrite Z.leb_antisym, negb_involutive. }
  destruct (0 <=? serviceRank (plain_label c)) eqn:Hrank; simpl.
  - rewrite app_nil_r. destruct (serviceRank (plain_label c) <? rank); simpl; [|done].
    split_and!; [done..|]. intros _. right. exists c. split_and!; [set_solver| |done..].
    unfold is_option. apply Z.leb_le in Hrank. by apply Z.ltb_ge.
  - rewrite Hc, app_assoc. split_and!; [done..|]. by intros ?%Htext.
Qed.

(** Whatever the screen, [ParseDialog] answers no dialog or a usable one:
    two to five options, numbered increasingly within 1..9, each number and
    label read together from one line of the screen (so the digit sent for an
    option is the digit the agent shows), none of them a service entry; the
    text entry, when there is one, is a service entry of the screen and not
    one of the options; [Multi] holds when all options carry a checkbox. *)
Theorem ParseDialog_sound screen :
  let d := ParseDialog screen in
  let lines := screen_lines screen in
  d = noDialog ∨
  (2 ≤ Z.of_nat (length (Choices d)) ≤ 5 ∧
   StronglySorted by_number (Choices d) ∧
   (∀ c, c ∈ Choices d → 1 ≤ Number c ≤ 9 ∧ shown_on lines c ∧ is_option c = true) ∧
   (TextEntry d = 0 ∧ TextLabel d = "" ∨
    ∃ c, shown_on lines c ∧ is_option c = false ∧ TextEntry d = Number c ∧
      TextLabel d = plain_label c ∧ ∀ o, o ∈ Choices d → Number o ≠ TextEntry d) ∧
   Multi d = allCheckboxes (Choices d) ∧ 0 ≤ Cursor d ∧ 0 ≤ SubmitRow d).
Proof.
  cbv zeta. unfold ParseDialog. set (lines := screen_lines screen).
  destruct (from_last_first_item lines) as [block|] eqn:Hblock; [|by left].
  destruct (scan_lines _ block) as [st|] eqn:Hscan; [|by left].
  apply (scan_lines_inv lines) in Hscan as [Hs Hb Hsh Hr Hc Hsub].
  2: { split; simpl; auto using SSorted_nil, Forall_nil_2; lia. }
  2: { intros l. by apply from_last_first_item_sub. }
  set (d0 := mkDialog [] false 0 "" _ _).
  pose proof (sort_items_spec (sc_items st) (Z.of_nat (length choiceServiceLabels), d0)) as Hd.
  cbv zeta in Hd.
  destruct (foldl sort_item _ (sc_items st)) as [rank d]. simpl in Hd.
  destruct Hd as (Hch & Hcu & Hsr & Ht). specialize (Ht (or_introl (conj eq_refl eq_refl))).
  destruct (_ || _) eqn:Hn; [by left|]. right.
  apply orb_false_iff in Hn as [H1%Z.ltb_ge H2%Z.ltb_ge].
  cbn [Choices Multi TextEntry TextLabel Cursor SubmitRow]. rewrite Hch in *.
  assert (Hin : ∀ c, c ∈ sc_items st → 1 ≤ Number c ≤ 9 ∧ shown_on lines c).
  { intros c Hc'. rewrite Forall_forall in Hsh. pose proof (Hsh c Hc') as Hshc.
    split; [|done]. destruct Hshc as (line & _ & E). by eapply parseChoiceLine_digit. }
  unfold minChoices, MaxChoiceButtons in *. split; [lia|]. split_and!; [| | |done|lia|lia].
  - by apply Sorted_filter_bool; [apply _|].
  - intros c [Ho Hc']%elem_of_list_filter. destruct (Hin c Hc'). auto.
  - destruct Ht as [?|(c & Hc' & Hno & Hte & Htl)]; [by left|right]. exists c.
    destruct (Hin c Hc') as [_ ?]. split_and!; [done..|].
    intros o [Ho Ho']%elem_of_list_filter. rewrite Hte. intros Heq.
    enough (o = c) by congruence.
    by apply (StronglySorted_by_number_inj (sc_items st)).
Qed.

(** The row the cursor is on after a key. *)
Definition move (row : Z) (key : string) : Z :=
  if String.eqb key KeyDown then row + 1
  else if String.eqb key KeyUp then row - 1 else row.

Lemma move_repeat key n row k :
  (∀ r, move r key = r + k) → foldl move row (repeat key n) = row + Z.of_nat n * k.
Proof. intros Hk. revert row. induction n as [|n IH]; intros row; simpl; [lia|]. rewrite IH, Hk. lia. Qed.

(** the keys of [SubmitKeys] are arrows that walk the cursor from its
    row (row 1 when none is drawn) exactly to the Submit row, by the shortest
    way, and then one enter; without a Submit row they are the enter alone. *)
Theorem SubmitKeys_navigates d :
  let start := if Cursor d =? 0 then 1 else Cursor d in
  ∃ arrows, SubmitKeys d = arrows ++ [KeyEnter] ∧
    Forall (λ k, k = KeyDown ∨ k = KeyUp) arrows ∧
    (SubmitRow d = 0 → arrows = []) ∧
    (SubmitRow d ≠ 0 → foldl move start arrows = SubmitRow d ∧
       Z.of_nat (length arrows) = Z.abs (SubmitRow d - start)).
Proof.
  cbv zeta. unfold SubmitKeys. destruct (Z.eqb_spec (SubmitRow d) 0) as [->|Hne].
  { exists []. split_and!; auto. done. }
  set (start := if Cursor d =? 0 then 1 else Cursor d). rewrite app_assoc.
  eexists. split; [done|]. split_and!; [|done|].
  - apply Forall_app. rewrite !Forall_forall. split; intros x Hx%list_elem_of_In%repeat_spec; auto.
  - intros _. rewrite foldl_app, length_app, !repeat_length.
    rewrite (move_repeat KeyDown _ _ 1), (move_repeat KeyUp _ _ (-1)); [lia|done|].
    intros r. done.
Qed.

Lemma SubmitKeys_navigates_witness :
  SubmitKeys (mkDialog [] true 3 "Type something" 2 4) = [KeyDown; KeyDown; KeyEnter] ∧
  foldl move 2 [KeyDown; KeyDown] = 4.
Proof.
  split; [reflexivity|].
  destruct (SubmitKeys_navigates (mkDialog [] true 3 "Type something" 2 4))
    as (arrows & H & _ & _ & Hm).
  assert (arrows = [KeyDown; KeyDown]) as <-.
  { apply (inj (.++ [KeyEnter])). by rewrite <-H. }
  apply Hm. simpl. lia.
Defined.
