(* ===== verification/Chrome.v ===== *)
(** internal/domain/chrome.go: cutting Claude Code's input frame from the
    bottom of a screen, and the overlay cut of internal/domain/command.go,
    which walks the lines of a screen the same way. *)
From S2P Require Import Prelude GoStrings.

Local Open Scope Z_scope.

Definition chromeRuleMinRunes : Z := 8.
Definition chromePrompt : string := "❯".
Definition chromeShortcutsHint : string := "? for shortcuts".
Definition chromeCycleHint : string := "shift+tab to cycle".
Definition chromeStatusSeparators : Z := 2.
Definition chromeHintPrefixes : list string := ["⏵⏵ "; "▶▶ "; "⏸ "].

Definition isChromeHint (line : string) : bool :=
  let trimmed := trim_space line in
  if String.eqb trimmed chromeShortcutsHint || contains trimmed chromeCycleHint then true
  else existsb (has_prefix trimmed) chromeHintPrefixes.

Definition isChromeStatus (line : string) : bool :=
  let trimmed := trim_space line in
  chromeStatusSeparators <=? count trimmed " │ " + count trimmed " | ".

Definition isChromePromptRow (line : string) : bool := String.eqb (trim_space line) chromePrompt.

Definition isChromeRule (line : string) : bool :=
  let trimmed := trim_space line in
  if rune_count trimmed <? chromeRuleMinRunes then false
  else forallb (λ r, r =? 9472 (* ─ *)) (runes trimmed).

(** [lines[i]]; the index is in range wherever the code reads it. *)
Definition line_at (lines : list string) (i : nat) : string := default "" (lines !! i).

Definition isChromeBox (lines : list string) (end_ : nat) : bool :=
  if Nat.ltb end_ 3 then false
  else isChromeRule (line_at lines (end_ - 3)) && isChromePromptRow (line_at lines (end_ - 2))
       && isChromeRule (line_at lines (end_ - 1)).

(** [for end > 0 && p(lines[end-1]) { end-- }]. *)
Fixpoint walk_up (p : string → bool) (lines : list string) (end_ : nat) : nat :=
  match end_ with
  | O => O
  | S e => if p (line_at lines e) then walk_up p lines e else S e
  end.

Definition is_blank (line : string) : bool := String.eqb (trim_space line) "".

Definition CutChrome (text : string) : string * Z :=
  if String.eqb text "" then (text, 0)
  else
    let lines := lines_of text in
    let end_ := walk_up is_blank lines (length lines) in
    let cut := walk_up isChromeHint lines end_ in
    let hints := (end_ - cut)%nat in
    let status := Nat.ltb 0 cut && isChromeStatus (line_at lines (cut - 1)) in
    let boxTop := if status then (cut - 1)%nat else cut in
    let box := isChromeBox lines boxTop in
    let cut := if box then (boxTop - 3)%nat
               else if status && Nat.ltb 0 hints then boxTop else cut in
    let removed := Z.of_nat end_ - Z.of_nat cut in
    if removed =? 0 then (text, 0) else (join (take cut lines) nl, removed).

(** ** command.go: CutOverlay *)

Definition overlayRuleMinRunes : Z := 8.

Definition isOverlayRule (line : string) : bool :=
  let line := trim_space line in
  if forallb (λ r, r =? 9620 (* ▔ *)) (runes line) then overlayRuleMinRunes <=? rune_count line
  else false.

(** The lines after the last rule, if any. *)
Fixpoint after_last_rule (lines : list string) : option (list string) :=
  match lines with
  | [] => None
  | l :: lines' =>
    match after_last_rule lines' with
    | Some tl => Some tl
    | None => if isOverlayRule l then Some lines' else None
    end
  end.

Definition CutOverlay (text : string) : string :=
  match after_last_rule (lines_of text) with
  | Some tl => join tl nl
  | None => text
  end.

(** ** Lines *)

Lemma walk_up_le p lines e : (walk_up p lines e ≤ e)%nat.
Proof. induction e as [|e IH]; simpl; [done|]. destruct (p _); lia. Qed.

Lemma walk_up_spec p lines e i :
  (walk_up p lines e ≤ i < e)%nat → p (line_at lines i) = true.
Proof.
  induction e as [|e IH]; simpl; [lia|]. destruct (p (line_at lines e)) eqn:E; [|lia].
  intros Hi. destruct (decide (i = e)) as [->|]; [done|]. apply IH. lia.
Qed.

Lemma walk_up_stop p lines e :
  (0 < walk_up p lines e)%nat → p (line_at lines (walk_up p lines e - 1)) = false.
Proof.
  induction e as [|e IH]; simpl; [lia|]. destruct (p (line_at lines e)) eqn:E; [done|].
  intros _. by replace (S e - 1)%nat with e by lia.
Qed.

(** The shape of what [CutChrome] may remove, bottom up: hints, at most one
    status line, the box; a status line only above a hint or right below the
    box. *)
Record FrameShape (lines : list string) (cut end_ : nat) (box status hints : nat) : Prop := {
  fs_size : end_ = (cut + box + status + hints)%nat;
  fs_box : box = 0%nat ∨ box = 3%nat ∧ isChromeRule (line_at lines cut) = true ∧
             isChromePromptRow (line_at lines (cut + 1)) = true ∧
             isChromeRule (line_at lines (cut + 2)) = true;
  fs_status : status = 0%nat ∨
             status = 1%nat ∧ isChromeStatus (line_at lines (cut + box)) = true ∧
             (0 < hints ∨ box = 3)%nat;
  fs_hints : ∀ i, (cut + box + status ≤ i < end_)%nat → isChromeHint (line_at lines i) = true
}.

Lemma isChromeBox_at lines e :
  isChromeBox lines e = true →
  (3 ≤ e)%nat ∧ isChromeRule (line_at lines (e - 3)) = true ∧
  isChromePromptRow (line_at lines (e - 3 + 1)) = true ∧
  isChromeRule (line_at lines (e - 3 + 2)) = true.
Proof.
  unfold isChromeBox. destruct (Nat.ltb_spec e 3); [done|].
  rewrite !andb_true_iff. intros [[? ?] ?].
  replace (e - 3 + 1)%nat with (e - 2)%nat by lia.
  by replace (e - 3 + 2)%nat with (e - 1)%nat by lia.
Qed.

(** The frame the code finds below [boxTop], when it finds one. *)
Lemma frame_found lines end_ hcut (status : bool) :
  (hcut ≤ end_)%nat →
  (∀ i, (hcut ≤ i < end_)%nat → isChromeHint (line_at lines i) = true) →
  (status = true → (0 < hcut)%nat ∧ isChromeStatus (line_at lines (hcut - 1)) = true) →
  let boxTop := if status then (hcut - 1)%nat else hcut in
  let box := isChromeBox lines boxTop in
  let cut := if box then (boxTop - 3)%nat
             else if status && Nat.ltb 0 (end_ - hcut) then boxTop else hcut in
  (cut ≤ end_)%nat ∧
  ∃ box' status' hints, FrameShape lines cut end_ box' status' hints.
Proof.
  intros Hle Hh Hst. cbv zeta. set (boxTop := if status then _ else _).
  assert (Hhint : ∀ k i, (k = hcut → k ≤ i < end_ → isChromeHint (line_at lines i) = true)%nat)
    by (intros k i -> ?; by apply Hh).
  destruct (isChromeBox lines boxTop) eqn:Hbox.
  - apply isChromeBox_at in Hbox as (H3 & Hb). split; [unfold boxTop in *; destruct status; lia|].
    exists 3%nat, (if status then 1 else 0)%nat, (end_ - hcut)%nat. unfold boxTop in *. clear boxTop.
    destruct status; split; try lia; try (by right); try (by left); try (intros i; apply Hhint; lia).
    right. destruct (Hst eq_refl) as [? Hs]. split_and!; [done| |by right].
    by replace (hcut - 1 - 3 + 3)%nat with (hcut - 1)%nat by lia.
  - unfold boxTop. clear Hbox boxTop. destruct status; cbn [andb].
    + destruct (Hst eq_refl) as [Hpos Hs]. destruct (Nat.ltb_spec 0 (end_ - hcut)).
      * split; [lia|]. exists 0%nat, 1%nat, (end_ - hcut)%nat.
        split; [lia|by left| |intros i; apply Hhint; lia]. right. rewrite Nat.add_0_r. auto.
      * split; [lia|]. exists 0%nat, 0%nat, 0%nat. split; [lia|by left|by left|lia].
    + split; [lia|]. exists 0%nat, 0%nat, (end_ - hcut)%nat.
      split; [lia|by left|by left|intros i; apply Hhint; lia].
Qed.

(** [CutChrome] removes nothing but the input frame. When it reports no
    line removed the text is untouched; otherwise the result is the first
    lines of the text, the lines after the frame are blank, and the removed
    lines are, bottom up, mode hints, at most one status line (only when a hint
    or the box vouches for it) and at most one complete box. *)
Theorem CutChrome_shape text :
  let lines := lines_of text in
  let '(out, removed) := CutChrome text in
  (removed = 0 ∧ out = text) ∨
  (∃ cut end_ box status hints,
     out = join (take cut lines) nl ∧ removed = Z.of_nat (box + status + hints) ∧ 0 < removed ∧
     (end_ ≤ length lines)%nat ∧ FrameShape lines cut end_ box status hints ∧
     (∀ i, (end_ ≤ i < length lines)%nat → is_blank (line_at lines i) = true)).
Proof.
  cbv zeta. unfold CutChrome. destruct (String.eqb text ""); [by left|].
  set (lines := lines_of text). set (end_ := walk_up is_blank lines (length lines)).
  set (hcut := walk_up isChromeHint lines end_).
  set (status := Nat.ltb 0 hcut && isChromeStatus (line_at lines (hcut - 1))).
  destruct (frame_found lines end_ hcut status) as [Hle (box & st & hints & Hf)].
  - apply walk_up_le.
  - intros i. apply walk_up_spec.
  - intros [Hpos%Nat.ltb_lt Hs]%andb_true_iff. done.
  - set (cut := if isChromeBox _ _ then _ else _) in Hle, Hf |- *. cbv zeta.
    destruct (Z.eqb_spec (Z.of_nat end_ - Z.of_nat cut) 0); [by left|right].
    exists cut, end_, box, st, hints. destruct Hf as [Hsz Hb Hs Hh].
    split_and!; [done|lia|lia|apply walk_up_le|by split|intros i; apply walk_up_spec].
Qed.
