(* ===== verification/Paths.v ===== *)
(** Package [path/filepath] on Unix: [Clean], [Join], [Base],
    [Dir] and [Ext]. *)
From S2P Require Import Prelude GoStrings.

Local Open Scope Z_scope.

Definition slash : ascii := "/"%char.
Definition slash_str : string := "/".

(** The elements that remain: empty ones and dots go, a double dot takes the
    one before it away, and is kept only where there is none to take and the
    path is relative.  [acc] is reversed. *)
Fixpoint clean_elements (rooted : bool) (acc elements : list string) : list string :=
  match elements with
  | [] => reverse acc
  | e :: elements =>
    if String.eqb e "" || String.eqb e "." then clean_elements rooted acc elements
    else if String.eqb e ".." then
      match acc with
      | a :: acc' => if String.eqb a ".." then clean_elements rooted (e :: acc) elements else clean_elements rooted acc' elements
      | [] => if rooted then clean_elements rooted [] elements else clean_elements rooted [e] elements
      end
    else clean_elements rooted (e :: acc) elements
  end.

Definition Clean (path : string) : string :=
  let rooted := has_prefix path slash_str in
  let body := join (clean_elements rooted [] (split_char slash path)) slash_str in
  if rooted then slash_str +:+ body else if String.eqb body "" then "." else body.

Definition Join (elements : list string) : string :=
  match List.filter (λ e, negb (String.eqb e "")) elements with
  | [] => ""
  | es => Clean (join es slash_str)
  end.

(** The last element of a path. *)
Definition Base (path : string) : string :=
  if String.eqb path "" then "."
  else
    let p := trim_right path slash_str in
    if String.eqb p "" then slash_str else default "" (last (split_char slash p)).

(** [filepath.Dir] of a path with a separator. *)
Definition Dir (path : string) : string :=
  match reverse (split_char slash path) with
  | _ :: (_ :: _) as up => Clean (join (reverse up) slash_str +:+ slash_str)
  | _ => "."
  end.

(** The suffix from the last point of the last element. *)
Definition Ext (path : string) : string :=
  let name := default "" (last (split_char slash path)) in
  match reverse (split_char "." name) with
  | e :: _ :: _ => "." +:+ e
  | _ => ""
  end.

Example paths_sample :
  (Clean "/a/./b//../c/", Join ["/home/op"; ".claude"; "projects"; "-x"], Base "/a/b.txt/", Ext "a.tar.gz", Ext "d.x/name")
  = ("/a/c", "/home/op/.claude/projects/-x", "b.txt", ".gz", "").
Proof. vm_compute. reflexivity. Qed.

(** ** Paths below a directory *)

Lemma split_char_some c s : split_char c s ≠ [].
Proof. destruct s as [|x s]; [done|]. cbn. destruct (Ascii.eqb x c); [done|]. by destruct (split_char c s). Qed.

Lemma split_char_cut c a b : split_char c (a +:+ String c b) = split_char c a ++ split_char c b.
Proof.
  induction a as [|x a IH]; [rewrite str_app_nil_l; cbn [split_char]; by rewrite Ascii.eqb_refl|]. rewrite str_app_cons. cbn [split_char].
  destruct (Ascii.eqb x c); [by rewrite IH|]. rewrite IH. pose proof (split_char_some c a). by destruct (split_char c a).
Qed.

Lemma join_cons x l sep : l ≠ [] → join (x :: l) sep = x +:+ sep +:+ join l sep.
Proof. by destruct l. Qed.

Lemma join_app l l' sep : l ≠ [] → l' ≠ [] → join (l ++ l') sep = join l sep +:+ sep +:+ join l' sep.
Proof.
  intros Hl Hl'. induction l as [|x [|y l] IH]; [done| |].
  - cbn [app]. by rewrite join_cons.
  - change ((x :: y :: l) ++ l') with (x :: (y :: l) ++ l'). rewrite join_cons by done. rewrite IH by done. rewrite (join_cons x (y :: l)) by done. by rewrite !str_app_assoc.
Qed.

Lemma join_split c s : join (split_char c s) (String c "") = s.
Proof.
  induction s as [|x s IH]; [done|]. cbn [split_char]. destruct (Ascii.eqb_spec x c) as [->|].
  - rewrite join_cons by apply split_char_some. by rewrite IH.
  - pose proof (split_char_some c s). destruct (split_char c s) as [|f [|g r]]; [done| |]; cbn [join] in *; by rewrite <-IH, ?str_app_cons.
Qed.

(** An element that names a file or a directory. *)
Definition valid_element (e : string) : bool := negb (String.eqb e "" || String.eqb e "." || String.eqb e "..").

Lemma clean_elements_valid rooted acc l : Forall (λ e, valid_element e = true) l → clean_elements rooted acc l = reverse acc ++ l.
Proof.
  intros Hl. revert acc. induction Hl as [|e l He _ IH]; intros acc; cbn [clean_elements]; [by rewrite app_nil_r|].
  unfold valid_element in He. apply negb_true_iff in He. apply orb_false_iff in He as [He1 He2]. rewrite He1, He2, IH.
  by rewrite reverse_cons, <-app_assoc.
Qed.

(** A rooted path with nothing to clean, the root itself aside. *)
Definition clean_path (path : string) : Prop :=
  ∃ els, els ≠ [] ∧ Forall (λ e, valid_element e = true) els ∧ split_char slash path = "" :: els.

(** A path of valid elements joined to a clean one lies below it. *)
Lemma join_below dir name : clean_path dir → Forall (λ e, valid_element e = true) (split_char slash name) →
  Join [dir; name] = dir +:+ slash_str +:+ name.
Proof.
  intros (els & Hels & Hv & Hsplit) Hn.
  assert (dir ≠ "") as Hdir by (intros ->; cbn in Hsplit; by injection Hsplit as <-).
  assert (name ≠ "") as Hname by (intros ->; inversion Hn; done).
  assert (dir = slash_str +:+ join els slash_str) as Hd. { pose proof (join_split slash dir) as E. rewrite Hsplit, join_cons in E by done. by rewrite <-E. }
  unfold Join. cbn [List.filter]. rewrite (proj2 (String.eqb_neq dir "")), (proj2 (String.eqb_neq name "")) by done. cbn [negb join].
  unfold Clean. assert (split_char slash (dir +:+ slash_str +:+ name) = "" :: els ++ split_char slash name) as ->.
  { unfold slash_str, slash in *. rewrite str_app_cons, str_app_nil_l, split_char_cut, Hsplit. done. }
  assert (has_prefix (dir +:+ slash_str +:+ name) slash_str = true) as -> by (by rewrite Hd).
  cbn [clean_elements]. change (String.eqb "" "" || String.eqb "" ".") with true. cbv iota.
  rewrite clean_elements_valid by (by apply Forall_app). change (reverse []) with (@nil string). rewrite app_nil_l, join_app by (done || apply split_char_some).
  change slash_str with (String slash ""). rewrite (join_split slash name). rewrite Hd. by rewrite !str_app_assoc.
Qed.
