(* ===== verification/GoTime.v ===== *)
(** [time.ParseDuration] of Go's standard library, which reads the argument of
    /away, and [Duration.String], which words the durations of notices.

    The function works on [uint64] with explicit overflow checks, written out
    here; the fractional part goes through [float64], modelled with the
    axiom-free binary64 operations of [SpecFloat]. *)
From S2P Require Import Prelude GoStrings.
From Stdlib Require Import SpecFloat.

Local Open Scope Z_scope.

Definition two63 : Z := 2 ^ 63.

Definition float64_of (z : Z) : spec_float := binary_normalize 53 1024 z 0 false.
Definition fmul (x y : spec_float) : spec_float := SFmul 53 1024 x y.
Definition fdiv (x y : spec_float) : spec_float := SFdiv 53 1024 x y.

(** [uint64(x)] for a non-negative finite [x]: truncation. *)
Definition trunc_float (x : spec_float) : Z :=
  match x with
  | S754_finite false m e => if 0 <=? e then Zpos m * 2 ^ e else Zpos m / 2 ^ (- e)
  | _ => 0
  end.

(** [leadingInt]: value and rest, or [None] on overflow. *)
Fixpoint leadingInt (x : Z) (s : list ascii) : option (Z * list ascii) :=
  match s with
  | c :: s' =>
    if ascii_digit (byte_of c) then
      if two63 / 10 <? x then None
      else
        let x := x * 10 + (byte_of c - 48) in
        if two63 <? x then None else leadingInt x s'
    else Some (x, s)
  | [] => Some (x, s)
  end.

(** [leadingFraction]: digits beyond the precision are read and ignored. *)
Fixpoint leadingFraction (x : Z) (scale : spec_float) (overflow : bool) (s : list ascii)
    : Z * spec_float * list ascii :=
  match s with
  | c :: s' =>
    if ascii_digit (byte_of c) then
      if overflow || ((two63 - 1) / 10 <? x) then leadingFraction x scale true s'
      else
        let y := x * 10 + (byte_of c - 48) in
        if two63 <? y then leadingFraction x scale true s'
        else leadingFraction y (fmul scale (float64_of 10)) false s'
    else (x, scale, s)
  | [] => (x, scale, s)
  end.

Definition unitMap (u : string) : option Z :=
  if String.eqb u "ns" then Some 1
  else if String.eqb u "us" || String.eqb u "µs" || String.eqb u "μs" then Some 1000
  else if String.eqb u "ms" then Some 1000000
  else if String.eqb u "s" then Some Second
  else if String.eqb u "m" then Some Minute
  else if String.eqb u "h" then Some Hour
  else None.

Definition num_char (c : ascii) : bool := Ascii.eqb c "." || ascii_digit (byte_of c).

(** The bytes before the next digit or dot, and the rest. *)
Fixpoint take_unit (s : list ascii) : list ascii * list ascii :=
  match s with
  | c :: s' => if num_char c then ([], s) else let '(u, r) := take_unit s' in (c :: u, r)
  | [] => ([], [])
  end.

(** One turn of the loop: the value of one component and the rest. *)
Definition duration_step (s : list ascii) : option (Z * list ascii) :=
  match s with
  | [] => None
  | c :: _ =>
    if negb (num_char c) then None
    else
      match leadingInt 0 s with
      | None => None
      | Some (v, s1) =>
        let pre := negb (Nat.eqb (length s) (length s1)) in
        let '(f, scale, s2, post) :=
          match s1 with
          | "."%char :: s1' =>
            let '(f, scale, s2) := leadingFraction 0 (float64_of 1) false s1' in
            (f, scale, s2, negb (Nat.eqb (length s1') (length s2)))
          | _ => (0, float64_of 1, s1, false)
          end in
        if negb pre && negb post then None
        else
          let '(u, s3) := take_unit s2 in
          match u, unitMap (of_bytes u) with
          | _ :: _, Some unit =>
            if two63 / unit <? v then None
            else
              let v := v * unit in
              let v := if 0 <? f
                       then v + trunc_float (fmul (float64_of f) (fdiv (float64_of unit) scale))
                       else v in
              if two63 <? v then None else Some (v, s3)
          | _, _ => None
          end
      end
  end.

(** The loop; every turn consumes a character, so the length is enough fuel. *)
Fixpoint duration_loop (n : nat) (d : Z) (s : list ascii) : option Z :=
  match s, n with
  | [], _ => Some d
  | _, O => None
  | _, S n =>
    match duration_step s with
    | None => None
    | Some (v, s') => if two63 <? d + v then None else duration_loop n (d + v) s'
    end
  end.

Definition ParseDuration (s : string) : option Duration :=
  let '(neg, s) :=
    match bytes s with
    | "-"%char :: r => (true, r)
    | "+"%char :: r => (false, r)
    | r => (false, r)
    end in
  match s with
  | [] => None
  | ["0"%char] => Some 0
  | _ =>
    match duration_loop (length s) 0 s with
    | None => None
    | Some d => if neg then Some (- d) else if two63 - 1 <? d then None else Some d
    end
  end.

Lemma leadingInt_suffix x s v r : leadingInt x s = Some (v, r) → (length r ≤ length s)%nat.
Proof.
  revert x. induction s as [|c s IH]; intros x; cbn [leadingInt]; [by intros [= _ <-]|].
  repeat case_match; intros H'; simplify_eq; simpl; [|lia]. by apply IH in H'; lia.
Qed.

Lemma leadingFraction_suffix x sc o s v sc' r :
  leadingFraction x sc o s = (v, sc', r) → (length r ≤ length s)%nat.
Proof.
  revert x sc o. induction s as [|c s IH]; intros x sc o; cbn [leadingFraction]; [by intros [= _ _ <-]|].
  repeat case_match; intros H'; try (apply IH in H'; simpl; lia). by simplify_eq.
Qed.

Lemma take_unit_split s u r : take_unit s = (u, r) → s = u ++ r.
Proof.
  revert u. induction s as [|c s IH]; intros u; cbn [take_unit]; [by intros [= <- <-]|].
  destruct (num_char c); [by intros [= <- <-]|].
  destruct (take_unit s) as [u' r'] eqn:E. intros [= <- ->]. by rewrite (IH u').
Qed.

(** Every component of a duration consumes its unit, so the loop terminates
    within its fuel and the fuel never decides the answer. *)
Lemma duration_step_shorter s v r : duration_step s = Some (v, r) → (length r < length s)%nat.
Proof.
  unfold duration_step. destruct s as [|c s]; [done|]. set (t := c :: s) in *. clearbody t.
  destruct (negb (num_char c)); [done|].
  destruct (leadingInt 0 t) as [[n s1]|] eqn:E1; [|done]. apply leadingInt_suffix in E1.
  set (p := match s1 with [] => _ | _ => _ end).
  assert (length p.1.2 ≤ length s1)%nat as Hp.
  { unfold p. clear p. destruct s1 as [|a s1]; [done|].
    destruct a as [[][][][][][][][]]; try (simpl; lia).
    destruct (leadingFraction 0 (float64_of 1) false s1) as [[f sc] s2] eqn:E2.
    apply leadingFraction_suffix in E2. simpl. lia. }
  destruct p as [[[f sc] s2] post]. simpl in Hp.
  destruct (_ && _); [done|].
  destruct (take_unit s2) as [u s3] eqn:E3. apply take_unit_split in E3.
  destruct u as [|a u]; [done|]. apply (f_equal length) in E3. simpl in E3. rewrite length_app in E3.
  destruct (unitMap _) as [unit|]; [|done].
  destruct (_ <? _); [done|]. destruct (_ <? _); [done|]. intros [= _ <-]. lia.
Qed.

Lemma duration_loop_fuel n m d s :
  (length s ≤ n)%nat → (length s ≤ m)%nat → duration_loop n d s = duration_loop m d s.
Proof.
  revert m d s. induction n as [|n IH]; intros [|m] d [|c s] Hn Hm; simpl in Hn, Hm; try done; try lia.
  cbn [duration_loop]. destruct (duration_step (c :: s)) as [[v r]|] eqn:E; [|done].
  apply duration_step_shorter in E. simpl in E. destruct (_ <? _); [done|]. apply IH; lia.
Qed.

(** ** [Duration.String] *)

(** The fraction [v / 10^prec] with its point, without trailing zeros. *)
Definition frac_text (v : Z) (prec : nat) : string :=
  match pretty (10 ^ Z.of_nat prec + v mod 10 ^ Z.of_nat prec) with
  | String _ digits => let t := trim_right digits "0" in if String.eqb t "" then "" else "." +:+ t
  | EmptyString => ""
  end.

Definition duration_string (d : Duration) : string :=
  let u := Z.abs d in
  (if d <? 0 then "-" else "") +:+
  if u =? 0 then "0s"
  else if u <? 1000 then itoa u +:+ "ns"
  else if u <? 1000000 then itoa (u / 1000) +:+ frac_text u 3 +:+ "µs"
  else if u <? Second then itoa (u / 1000000) +:+ frac_text u 6 +:+ "ms"
  else
    let secs := u / Second in
    let minutes := secs / 60 in
    (if 60 <=? minutes then itoa (minutes / 60) +:+ "h" else "") +:+
    (if 0 <? minutes then itoa (minutes mod 60) +:+ "m" else "") +:+
    itoa (secs mod 60) +:+ frac_text u 9 +:+ "s".
