(* ===== verification/Rfc3339.v ===== *)
(** Package [time]: instants as the calendar of UTC names them, and the text
    [time.RFC3339Nano] of an instant, written by [Format] and read by [Parse].

    [Time] counts nanoseconds from Go's zero time, 0001-01-01T00:00:00Z.  The
    text of an instant is that in UTC: zones only matter to its wording. *)
From S2P Require Import Prelude GoStrings.

Local Open Scope Z_scope.

(** ** The calendar *)

Definition leap (y : Z) : bool := (y mod 4 =? 0) && (negb (y mod 100 =? 0) || (y mod 400 =? 0)).
Definition days_before_year (y : Z) : Z := 365 * (y - 1) + (y - 1) / 4 - (y - 1) / 100 + (y - 1) / 400.
Definition month_lengths (l : bool) : list Z := [31; if l then 29 else 28; 31; 30; 31; 30; 31; 31; 30; 31; 30; 31].
Definition days_in (y m : Z) : Z := nth (Z.to_nat (m - 1)) (month_lengths (leap y)) 0.
Definition days_before_month (l : bool) (m : Z) : Z := foldr Z.add 0 (take (Z.to_nat (m - 1)) (month_lengths l)).

(** The number of a date, from 0 for 0001-01-01. *)
Definition day_number (y m d : Z) : Z := days_before_year y + days_before_month (leap y) m + (d - 1).

(** The year of a day and its place in it. *)
Definition year_of (n : Z) : Z * Z :=
  let a := n / 146097 in let r := n mod 146097 in
  let b := Z.min 3 (r / 36524) in let r := r - b * 36524 in
  let c := r / 1461 in let r := r mod 1461 in
  let d := Z.min 3 (r / 365) in
  (400 * a + 100 * b + 4 * c + d + 1, r - d * 365).

(** The month of a day of the year and its place in it, both from 1. *)
Fixpoint month_of (lengths : list Z) (m day : Z) : Z * Z :=
  match lengths with
  | n :: rest => if day <? n then (m, day + 1) else month_of rest (m + 1) (day - n)
  | [] => (m, day + 1)
  end.

Definition date_of (n : Z) : Z * Z * Z :=
  let '(y, yday) := year_of n in
  let '(m, d) := month_of (month_lengths (leap y)) 1 yday in (y, m, d).

Definition day_ns : Z := 24 * Hour.

Lemma year_of_spec n y r : 0 ≤ n → year_of n = (y, r) →
  1 ≤ y ∧ 0 ≤ r < (if leap y then 366 else 365) ∧ n = days_before_year y + r.
Proof.
  unfold year_of. intros Hn [= <- <-].
  pose proof (Z.div_mod n 146097 ltac:(lia)) as H1. pose proof (Z.mod_pos_bound n 146097 ltac:(lia)) as B1.
  set (a := n / 146097) in *. set (r1 := n mod 146097) in *. clearbody a r1.
  pose proof (Z.div_mod r1 36524 ltac:(lia)) as H2. pose proof (Z.mod_pos_bound r1 36524 ltac:(lia)) as B2.
  set (b0 := r1 / 36524) in *. set (x := r1 mod 36524) in *. clearbody b0 x.
  set (b := Z.min 3 b0). set (r2 := r1 - b * 36524).
  assert (0 ≤ b ≤ 3 ∧ 0 ≤ r2 < (if b =? 3 then 36525 else 36524)) as [Hb Hr2].
  { unfold r2, b. destruct (Z.eqb_spec (Z.min 3 b0) 3); lia. }
  pose proof (Z.div_mod r2 1461 ltac:(lia)) as H3. pose proof (Z.mod_pos_bound r2 1461 ltac:(lia)) as B3.
  assert (r1 = b * 36524 + r2) as Hr1 by (unfold r2; lia). clearbody b r2.
  set (c := r2 / 1461) in *. set (r3 := r2 mod 1461) in *. clearbody c r3.
  pose proof (Z.div_mod r3 365 ltac:(lia)) as H4. pose proof (Z.mod_pos_bound r3 365 ltac:(lia)) as B4.
  set (d0 := r3 / 365) in *. set (x4 := r3 mod 365) in *. clearbody d0 x4.
  set (d := Z.min 3 d0). assert (0 ≤ d ≤ 3 ∧ 0 ≤ r3 - d * 365 < (if d =? 3 then 366 else 365)) as [Hd Hr].
  { unfold d. destruct (Z.eqb_spec (Z.min 3 d0) 3); lia. }
  clearbody d.
  assert (0 ≤ c ≤ 24 ∧ (c = 24 → b ≠ 3 → r3 < 1460)) as [Hc Hlast] by (destruct (Z.eqb_spec b 3); lia).
  set (y := 400 * a + 100 * b + 4 * c + d + 1).
  assert (y - 1 = 400 * a + 100 * b + 4 * c + d) as Hy by (unfold y; lia).
  assert ((y - 1) / 4 = 100 * a + 25 * b + c ∧ (y - 1) / 100 = 4 * a + b ∧ (y - 1) / 400 = a) as (D4 & D100 & D400).
  { rewrite Hy. repeat split; symmetry; [apply (Z.div_unique_pos _ _ _ d)|apply (Z.div_unique_pos _ _ _ (4 * c + d))|apply (Z.div_unique_pos _ _ _ (100 * b + 4 * c + d))]; lia. }
  assert (leap y = (d =? 3) && (negb (c =? 24) || (b =? 3))) as ->.
  { unfold leap. assert (y mod 4 = (d + 1) mod 4 ∧ y mod 100 = (4 * c + d + 1) mod 100 ∧ y mod 400 = (100 * b + 4 * c + d + 1) mod 400) as (M4 & M100 & M400).
    { unfold y. repeat split; [rewrite <-(Z.mod_add (d + 1) (100 * a + 25 * b + c) 4)|rewrite <-(Z.mod_add (4 * c + d + 1) (4 * a + b) 100)|rewrite <-(Z.mod_add (100 * b + 4 * c + d + 1) a 400)]; try lia; f_equal; lia. }
    rewrite M4, M100, M400. destruct (Z.eqb_spec d 3) as [->|].
    - cbn [Z.add]. change ((3 + 1) mod 4 =? 0) with true. cbn [andb].
      destruct (Z.eqb_spec c 24) as [->|].
      + cbn [negb orb]. change ((4 * 24 + 3 + 1) mod 100 =? 0) with true. cbn [negb orb]. destruct (Z.eqb_spec b 3) as [->|]; [done|].
        rewrite Z.mod_small by lia. apply Z.eqb_neq. lia.
      + rewrite Z.mod_small by lia. destruct (Z.eqb_spec (4 * c + 3 + 1) 0); [lia|done].
    - rewrite Z.mod_small by lia. by destruct (Z.eqb_spec (d + 1) 0); [lia|]. }
  unfold days_before_year. rewrite D4, D100, D400. repeat split.
  - lia.
  - lia.
  - destruct (Z.eqb_spec d 3), (Z.eqb_spec c 24), (Z.eqb_spec b 3); cbn; lia.
  - lia.
Qed.

Lemma month_of_spec (l : bool) r m d : 0 ≤ r < (if l then 366 else 365) → month_of (month_lengths l) 1 r = (m, d) →
  1 ≤ m ≤ 12 ∧ 1 ≤ d ≤ nth (Z.to_nat (m - 1)) (month_lengths l) 0 ∧ days_before_month l m + (d - 1) = r.
Proof.
  set (ok := λ (l : bool) (r : Z), let '(m, d) := month_of (month_lengths l) 1 r in
    (1 <=? m) && (m <=? 12) && (1 <=? d) && (d <=? nth (Z.to_nat (m - 1)) (month_lengths l) 0) && (days_before_month l m + (d - 1) =? r)).
  assert (forallb (ok true) (seqZ 0 366) = true ∧ forallb (ok false) (seqZ 0 365) = true) as [Ht Hf] by (by vm_compute).
  intros Hr. assert (ok l r = true) as H.
  { destruct l; [rewrite forallb_forall in Ht; apply Ht|rewrite forallb_forall in Hf; apply Hf]; apply list_elem_of_In, elem_of_seqZ; lia. }
  unfold ok in H. intros E. rewrite E in H. rewrite !andb_true_iff, !Z.leb_le, Z.eqb_eq in H. lia.
Qed.

Lemma date_of_spec n y m d : 0 ≤ n → date_of n = (y, m, d) →
  1 ≤ y ∧ 1 ≤ m ≤ 12 ∧ 1 ≤ d ≤ days_in y m ∧ day_number y m d = n.
Proof.
  unfold date_of. intros Hn. destruct (year_of n) as [y' r] eqn:Ey. destruct (year_of_spec n y' r Hn Ey) as (Hy & Hr & ->).
  destruct (month_of _ 1 r) as [m' d'] eqn:Em. pose proof (month_of_spec (leap y') r m' d' Hr Em) as Hm. intros [= -> -> ->].
  unfold day_number, days_in. lia.
Qed.

(** ** Text *)

Definition digit_char (n : Z) : ascii := of_byte (48 + n mod 10).

(** The lowest [w] decimal digits. *)
Fixpoint dec (w : nat) (n : Z) : string :=
  match w with
  | O => ""
  | S w => dec w (n / 10) +:+ String (digit_char n) ""
  end.

(** A fraction of [w] digits without its trailing zeros. *)
Fixpoint frac (w : nat) (n : Z) : string :=
  match w with
  | O => ""
  | S w' => if n mod 10 =? 0 then frac w' (n / 10) else dec w n
  end.

(** [t.UTC().Format(time.RFC3339Nano)] for the years 0 to 9999. *)
Definition format_rfc3339 (t : Time) : string :=
  let '(y, m, d) := date_of (t / day_ns) in
  let s := t mod day_ns in
  let ns := s mod Second in
  dec 4 y +:+ "-" +:+ dec 2 m +:+ "-" +:+ dec 2 d +:+ "T" +:+
  dec 2 (s / Hour) +:+ ":" +:+ dec 2 (s / Minute mod 60) +:+ ":" +:+ dec 2 (s / Second mod 60) +:+
  (if ns =? 0 then "" else "." +:+ frac 9 ns) +:+ "Z".

Fixpoint read_dec (w : nat) (acc : Z) (s : string) : option (Z * string) :=
  match w, s with
  | O, _ => Some (acc, s)
  | S w, String c r => if ascii_digit (byte_of c) then read_dec w (acc * 10 + (byte_of c - 48)) r else None
  | _, _ => None
  end.
Definition expect (c : ascii) (s : string) : option string :=
  match s with String c' r => if Ascii.eqb c' c then Some r else None | EmptyString => None end.

(** The digits after a point, to the ninth. *)
Fixpoint read_frac (w : nat) (acc : Z) (s : string) : Z * string :=
  match s with
  | String c r =>
    if ascii_digit (byte_of c)
    then match w with S w => read_frac w (acc * 10 + (byte_of c - 48)) r | O => read_frac O acc r end
    else (acc * 10 ^ Z.of_nat w, s)
  | EmptyString => (acc * 10 ^ Z.of_nat w, s)
  end.

Definition read_nanos (s : string) : Z * string :=
  match s with
  | String p (String c _ as r) =>
    if (Ascii.eqb p "." || Ascii.eqb p ",") && ascii_digit (byte_of c) then read_frac 9 0 r else (0, s)
  | _ => (0, s)
  end.

(** The hour of [Parse] may be one digit; that of a JSON timestamp, which
    [strict] is for, may not, nor may it have a comma or a zone of 24 hours. *)
Section Parse.
Context (strict : bool).

Definition read_hour (s : string) : option (Z * string) :=
  match read_dec 2 0 s with
  | Some x => Some x
  | None => if strict then None else read_dec 1 0 s
  end.

(** Seconds east of UTC. *)
Definition read_zone (s : string) : option Z :=
  match s with
  | String "Z" "" => Some 0
  | String sign r =>
    '(hh, r) ← read_dec 2 0 r; r ← expect ":" r; '(mm, r) ← read_dec 2 0 r;
    if negb (String.eqb r "") || (if strict then (24 <=? hh) || (60 <=? mm) else (24 <? hh) || (60 <? mm)) then None
    else
      let off := (hh * 60 + mm) * 60 in
      if Ascii.eqb sign "+" then Some off else if Ascii.eqb sign "-" then Some (- off) else None
  | EmptyString => None
  end.

(** [time.Parse(time.RFC3339Nano, s)]. *)
Definition parse_rfc3339 (s : string) : option Time :=
  '(y, s) ← read_dec 4 0 s; s ← expect "-" s;
  '(m, s) ← read_dec 2 0 s; s ← expect "-" s;
  '(d, s) ← read_dec 2 0 s; s ← expect "T" s;
  '(h, s) ← read_hour s; s ← expect ":" s;
  '(mi, s) ← read_dec 2 0 s; s ← expect ":" s;
  '(sec, s) ← read_dec 2 0 s;
  if strict && has_prefix s "," then None
  else
    let '(ns, s) := read_nanos s in
    off ← read_zone s;
    if (1 <=? m) && (m <=? 12) && (h <? 24) && (mi <? 60) && (sec <? 60) && (1 <=? d) && (d <=? days_in y m)
    then Some (day_number y m d * day_ns + h * Hour + mi * Minute + sec * Second + ns - off * Second)
    else None.
End Parse.

Example parse_sample : parse_rfc3339 false "2026-09-03T07:08:09.125+02:00" = Some (day_number 2026 9 3 * day_ns + 5 * Hour + 8 * Minute + 9125000000).
Proof. vm_compute. reflexivity. Qed.

(** ** What is written is read back *)

Lemma digit_char_byte n : byte_of (digit_char n) = 48 + n mod 10.
Proof. pose proof (Z.mod_pos_bound n 10 ltac:(lia)). unfold digit_char. apply byte_of_of_byte. lia. Qed.

Lemma digit_char_digit n : ascii_digit (byte_of (digit_char n)) = true.
Proof.
  pose proof (Z.mod_pos_bound n 10 ltac:(lia)). rewrite digit_char_byte. unfold ascii_digit. zbool. done.
Qed.

Lemma read_dec_dec w n acc r : 0 ≤ n < 10 ^ Z.of_nat w → read_dec w acc (dec w n +:+ r) = Some (acc * 10 ^ Z.of_nat w + n, r).
Proof.
  revert n acc r. assert (∀ w n acc r, 0 ≤ n < 10 ^ Z.of_nat w →
      ∀ k, read_dec (w + k) acc (dec w n +:+ r) = read_dec k (acc * 10 ^ Z.of_nat w + n) r) as H.
  { clear w. induction w as [|w IH]; intros n acc r Hn k.
    - cbn in Hn. cbn [dec plus]. rewrite str_app_nil_l. f_equal. lia.
    - rewrite Nat2Z.inj_succ, Z.pow_succ_r in Hn |- * by lia. cbn [dec]. rewrite str_app_assoc.
      rewrite str_app_cons, str_app_nil_l. replace (S w + k)%nat with (w + S k)%nat by lia.
      rewrite IH by (split; [apply Z.div_pos; lia|apply Z.div_lt_upper_bound; lia]). cbn [read_dec].
      rewrite digit_char_digit, digit_char_byte. f_equal. pose proof (Z.div_mod n 10 ltac:(lia)). lia. }
  intros n acc r Hn. specialize (H w n acc r Hn 0%nat). rewrite Nat.add_0_r in H. rewrite H. done.
Qed.

Lemma read_frac_dec k w n acc r : (k ≤ w)%nat → 0 ≤ n < 10 ^ Z.of_nat k →
  read_frac w acc (dec k n +:+ String "Z" r) = ((acc * 10 ^ Z.of_nat k + n) * 10 ^ Z.of_nat (w - k), String "Z" r).
Proof.
  intros Hk Hn. assert (∀ k n acc w, 0 ≤ n < 10 ^ Z.of_nat k → ∀ s,
      read_frac (k + w) acc (dec k n +:+ s) = read_frac w (acc * 10 ^ Z.of_nat k + n) s) as H.
  { clear. induction k as [|k IH]; intros n acc w Hn s.
    - cbn in Hn. cbn [dec plus]. rewrite str_app_nil_l. f_equal. lia.
    - rewrite Nat2Z.inj_succ, Z.pow_succ_r in Hn |- * by lia. cbn [dec]. rewrite str_app_assoc, str_app_cons, str_app_nil_l.
      replace (S k + w)%nat with (k + S w)%nat by lia.
      rewrite IH by (split; [apply Z.div_pos; lia|apply Z.div_lt_upper_bound; lia]). cbn [read_frac].
      rewrite digit_char_digit, digit_char_byte. f_equal. pose proof (Z.div_mod n 10 ltac:(lia)). lia. }
  replace w with (k + (w - k))%nat at 1 by lia. rewrite H by done. reflexivity.
Qed.

Lemma frac_dec w n : 0 ≤ n < 10 ^ Z.of_nat w → ∃ k m, (k ≤ w)%nat ∧ frac w n = dec k m ∧ 0 ≤ m < 10 ^ Z.of_nat k
  ∧ n = m * 10 ^ Z.of_nat (w - k).
Proof.
  revert n. induction w as [|w IH]; intros n Hn; [exists 0%nat, 0; cbn in *; split_and!; (done || lia)|]. cbn [frac]. destruct (Z.eqb_spec (n mod 10) 0) as [E|].
  - rewrite Nat2Z.inj_succ, Z.pow_succ_r in Hn by lia.
    destruct (IH (n / 10)) as (k & m & Hk & Hf & Hm & Hd); [split; [apply Z.div_pos; lia|apply Z.div_lt_upper_bound; lia]|].
    exists k, m. split; [lia|]. split; [done|]. split; [done|].
    replace (S w - k)%nat with (S (w - k)) by lia. rewrite Nat2Z.inj_succ, Z.pow_succ_r by lia.
    pose proof (Z.div_mod n 10 ltac:(lia)). nia.
  - exists (S w), n. split; [lia|]. split; [done|]. split; [done|]. rewrite Nat.sub_diag. cbn. lia.
Qed.

Lemma dec_head k m : (0 < k)%nat → ∃ c r, dec k m = String c r ∧ ascii_digit (byte_of c) = true.
Proof.
  revert m. induction k as [|k IH]; intros m Hk; [lia|]. cbn [dec]. destruct k as [|k].
  - cbn [dec]. rewrite str_app_nil_l. do 2 eexists. split; [reflexivity|]. apply digit_char_digit.
  - destruct (IH (m / 10) ltac:(lia)) as (c & r & -> & Hc). rewrite str_app_cons. eauto.
Qed.

Lemma read_nanos_frac n : 0 < n < Second → read_nanos ("." +:+ frac 9 n +:+ "Z") = (n, "Z").
Proof.
  intros Hn. destruct (frac_dec 9 n) as (k & m & Hk & -> & Hm & Hd); [change (10 ^ Z.of_nat 9) with Second; lia|].
  assert (0 < k)%nat as Hk0. { destruct k; [cbn in Hm; assert (m = 0) by lia; subst; lia|lia]. }
  rewrite str_app_cons, str_app_nil_l. destruct (dec_head k m Hk0) as (c & r & E & Hc).
  pose proof (read_frac_dec k 9 m 0 "" Hk Hm) as Hr. rewrite E, str_app_cons in Hr |- *. unfold read_nanos.
  rewrite Hc. cbn [orb andb Ascii.eqb]. change (Ascii.eqb "." ".") with true. cbn [orb andb]. rewrite Hr. f_equal. lia.
Qed.

Lemma expect_dash c s : expect c (String c "" +:+ s) = Some s.
Proof. rewrite str_app_cons, str_app_nil_l. cbn. by rewrite Ascii.eqb_refl. Qed.

Lemma days_in_small y m : days_in y m ≤ 31.
Proof.
  unfold days_in. assert (Forall (λ d, d ≤ 31) (month_lengths (leap y))) as H by (destruct (leap y); repeat constructor; lia).
  destruct (lt_dec (Z.to_nat (m - 1)) (length (month_lengths (leap y)))).
  - rewrite Forall_forall in H. apply H. apply list_elem_of_In, nth_In. done.
  - rewrite nth_overflow by lia. lia.
Qed.

Definition max_time : Time := days_before_year 10000 * day_ns.

(** An instant of the years 1 to 9999 is read back from its text, whether the
    text is read strictly or not. *)
Lemma parse_format strict t : 0 ≤ t < max_time → parse_rfc3339 strict (format_rfc3339 t) = Some t.
Proof.
  intros Ht. unfold format_rfc3339.
  pose proof (Z.div_mod t day_ns ltac:(done)) as Hday. pose proof (Z.mod_pos_bound t day_ns ltac:(done)) as Hs.
  assert (0 ≤ t / day_ns < days_before_year 10000) as Hn.
  { split; [apply Z.div_pos; [lia|done]|]. apply Z.div_lt_upper_bound; [done|]. unfold max_time in Ht. lia. }
  set (n := t / day_ns) in *. set (s := t mod day_ns) in *. clearbody n s. subst t.
  destruct (date_of n) as [[y m] d] eqn:Ed. destruct (date_of_spec n y m d ltac:(lia) Ed) as (Hy & Hm & Hd & Hnum).
  assert (y ≤ 9999) as Hy2.
  { destruct (decide (y ≤ 9999)); [done|]. exfalso. unfold day_number in Hnum.
    assert (0 ≤ days_before_month (leap y) m) as Hb.
    { unfold days_before_month. generalize (Z.to_nat (m - 1)) as k. intros k. assert (Forall (Z.le 0) (month_lengths (leap y))) as H by (destruct (leap y); repeat constructor; lia).
      apply (Forall_take _ k) in H. induction H; cbn; lia. }
    assert (days_before_year 10000 ≤ days_before_year y); [|lia]. unfold days_before_year.
    assert (9999 ≤ y - 1) as Hy3 by lia. clear -Hy3. set (x := y - 1) in *. change (10000 - 1) with 9999. clearbody x.
    Z.to_euclidean_division_equations. lia. }
  pose proof (days_in_small y m).
  assert (s = s / Hour * Hour + s / Minute mod 60 * Minute + s / Second mod 60 * Second + s mod Second
    ∧ 0 ≤ s / Hour < 24 ∧ 0 ≤ s / Minute mod 60 < 60 ∧ 0 ≤ s / Second mod 60 < 60 ∧ 0 ≤ s mod Second < Second) as (Hsum & H1 & H2 & H3 & H4).
  { change Hour with 3600000000000 in *. change Minute with 60000000000 in *. change Second with 1000000000 in *. change day_ns with 86400000000000 in *.
    clear -Hs. Z.to_euclidean_division_equations. lia. }
  unfold parse_rfc3339, read_hour. rewrite read_dec_dec by (cbn; lia). cbn [mbind option_bind].
  repeat (rewrite expect_dash; cbn [mbind option_bind]; rewrite read_dec_dec by (cbn; lia); cbn [mbind option_bind]).
  set (ns := s mod Second) in *.
  assert (read_nanos ((if ns =? 0 then "" else "." +:+ frac 9 ns) +:+ "Z") = (ns, "Z")
    ∧ has_prefix ((if ns =? 0 then "" else "." +:+ frac 9 ns) +:+ "Z") "," = false) as [Hns Hcomma].
  { destruct (Z.eqb_spec ns 0) as [->|]; [done|]. rewrite str_app_assoc, read_nanos_frac by lia. by rewrite str_app_cons. }
  rewrite Hns, Hcomma, andb_false_r, !Z.mul_0_l, !Z.add_0_l. cbn [read_zone mbind option_bind].
  assert ((1 <=? m) && (m <=? 12) && (s / Hour <? 24) && (s / Minute mod 60 <? 60) && (s / Second mod 60 <? 60)
    && (1 <=? d) && (d <=? days_in y m) = true) as ->.
  { rewrite !andb_true_iff, !Z.leb_le, !Z.ltb_lt. lia. }
  f_equal. rewrite Hnum. lia.
Qed.
