(* ===== verification/Command.v ===== *)
(** internal/domain/command.go: the grammar of operator messages and the
    routing of a topic message to a prompt, a key press or a command.
    ([CutOverlay] of the same file is in Chrome.v.) *)
From S2P Require Import Prelude GoStrings GoTime Status.

Local Open Scope Z_scope.

Inductive CommandKind :=
  | CmdPrompt | CmdKeys | CmdScreen | CmdFocus | CmdStatus | CmdHelp | CmdOptions
  | CmdAway | CmdHere | CmdForward | CmdStop | CmdInterrupt | CmdClose | CmdNew
  | CmdGit | CmdObservers | CmdUnknown.

#[global] Instance CommandKind_eq_dec : EqDecision CommandKind.
Proof. solve_decision. Defined.

Definition KeyEscape : string := "esc".
Definition KeyInterrupt : string := "ctrl+c".
Definition DefaultAgentKind : string := "claude".
Definition AgentKinds : list string :=
  ["pi"; "claude"; "codex"; "gemini"; "cursor"; "devin"; "agy"; "cline";
   "omp"; "mastracode"; "opencode"; "copilot"; "kimi"; "kiro"; "droid";
   "amp"; "grok"; "hermes"; "kilo"; "qodercli"; "maki"].

Inductive MatchResult := MatchNone | MatchOne | MatchMany.

Definition MaxScreenLines : Z := 200.

Inductive ForwardPost := ForwardPostNone | ForwardPostTail | ForwardPostScreen.

Record ForwardRule := mkForwardRule { Post : option ForwardPost; Dismiss : bool }.

(** The zero rule: its [Post] is the empty string, none of the constants. *)
Definition noForward : ForwardRule := mkForwardRule None false.

Definition forwardRules : gmap string ForwardRule := list_to_map
  [("clear", mkForwardRule (Some ForwardPostTail) false);
   ("compact", mkForwardRule (Some ForwardPostNone) false);
   ("usage", mkForwardRule (Some ForwardPostScreen) true);
   ("model", mkForwardRule (Some ForwardPostScreen) true)].

Definition forwardRuleFor (word : string) (hasArgs : bool) : option ForwardRule :=
  match forwardRules !! word with
  | None => None
  | Some rule =>
    if String.eqb word "model" && hasArgs then Some (mkForwardRule (Some ForwardPostTail) false)
    else Some rule
  end.

Definition ForwardWords : list string := merge_sort String.le (map_to_list forwardRules).*1.

Inductive ObserverAction := ObserverList | ObserverAdd | ObserverRemove.
Record ObserversSpec := mkObserversSpec { Action : ObserverAction; ObserverID : Z }.
Record GitSpec := mkGitSpec { Sub : string; GitArgs : list string }.

Record Command := mkCommand {
  CmdKind : CommandKind;
  CmdText : string;
  CmdKeyList : list string;
  CmdLines : Z;
  All : bool;
  Forward : ForwardRule;
  Away : Duration;
  CmdWorkspace : string;
  CmdAgentKind : string;
  Git : GitSpec;
  Observers : ObserversSpec
}.

(** Composite literals: [Command{Kind: k}] and the ones that set one more field. *)
Definition command (k : CommandKind) : Command :=
  mkCommand k "" [] 0 false noForward 0 "" "" (mkGitSpec "" []) (mkObserversSpec ObserverList 0).
Definition text_command (k : CommandKind) (text : string) : Command :=
  mkCommand k text [] 0 false noForward 0 "" "" (mkGitSpec "" []) (mkObserversSpec ObserverList 0).
Definition keys_command (keys : list string) : Command :=
  mkCommand CmdKeys "" keys 0 false noForward 0 "" "" (mkGitSpec "" [])
    (mkObserversSpec ObserverList 0).
Definition screen_command (lines : Z) (all : bool) : Command :=
  mkCommand CmdScreen "" [] lines all noForward 0 "" "" (mkGitSpec "" [])
    (mkObserversSpec ObserverList 0).
Definition forward_command (line : string) (rule : ForwardRule) : Command :=
  mkCommand CmdForward line [] 0 false rule 0 "" "" (mkGitSpec "" [])
    (mkObserversSpec ObserverList 0).
Definition away_command (d : Duration) : Command :=
  mkCommand CmdAway "" [] 0 false noForward d "" "" (mkGitSpec "" [])
    (mkObserversSpec ObserverList 0).
Definition new_command (workspace kind : string) : Command :=
  mkCommand CmdNew "" [] 0 false noForward 0 workspace kind (mkGitSpec "" [])
    (mkObserversSpec ObserverList 0).
Definition git_command (g : GitSpec) : Command :=
  mkCommand CmdGit "" [] 0 false noForward 0 "" "" g (mkObserversSpec ObserverList 0).
Definition observers_command (o : ObserversSpec) : Command :=
  mkCommand CmdObservers "" [] 0 false noForward 0 "" "" (mkGitSpec "" []) o.

Definition GitLogDefault : Z := 10.
Definition GitLogMax : Z := 50.
Definition GitUsage : string := "usage: /git status | diff [staged] | log [N]".
Definition ObserversUsage : string := "/observers, /observers add <id>, /observers remove <id>".
Definition MinAway : Duration := Minute.
Definition MaxAway : Duration := 7 * 24 * Hour.

Definition shortReplies : gmap string string := list_to_map
  [("y", "y"); ("yes", "y"); ("n", "n"); ("no", "n"); ("enter", "enter"); ("ok", "enter");
   ("esc", KeyEscape); ("escape", KeyEscape)].

(** [n, err := strconv.ParseInt(args[1])] with [err != nil || id <= 0] folded. *)
Definition positive_id (s : string) : option Z :=
  match atoi s with
  | Some id => if id <=? 0 then None else Some id
  | None => None
  end.

Section Parser.
Context {U : UnicodeTables}.

Definition IsAgentKind (s : string) : bool := existsb (λ k, equal_fold k s) AgentKinds.

Definition have_label (ws : Workspace) : string :=
  let have := to_lower (trim_space (WsLabel ws)) in
  if String.eqb have "" then to_lower (WsID ws) else have.

(** The switch of the loop: an exact label first, else a prefix. *)
Definition match_step (want : string) (acc : list Workspace * list Workspace) (ws : Workspace)
    : list Workspace * list Workspace :=
  let '(exact, prefixed) := acc in
  let have := have_label ws in
  if String.eqb have want then (exact ++ [ws], prefixed)
  else if has_prefix have want then (exact, prefixed ++ [ws])
  else (exact, prefixed).

Definition MatchWorkspaces (label : string) (workspaces : list Workspace) : list Workspace :=
  let want := to_lower (trim_space label) in
  if String.eqb want "" then []
  else
    let '(exact, prefixed) := foldl (match_step want) ([], []) workspaces in
    if Nat.ltb 0 (length exact) then exact else prefixed.

Definition noWorkspace : Workspace := mkWorkspace "" "".

Definition MatchWorkspace (label : string) (workspaces : list Workspace) : Workspace * MatchResult :=
  match MatchWorkspaces label workspaces with
  | [] => (noWorkspace, MatchNone)
  | [ws] => (ws, MatchOne)
  | _ => (noWorkspace, MatchMany)
  end.

Definition parseObservers (args : list string) : Command :=
  match args with
  | [] => command CmdObservers
  | _ =>
    let unknown := text_command CmdUnknown ("/observers " +:+ join args " ") in
    match args with
    | [verb; arg] =>
      match positive_id arg with
      | None => unknown
      | Some id =>
        if String.eqb (to_lower verb) "add" then observers_command (mkObserversSpec ObserverAdd id)
        else if String.eqb (to_lower verb) "remove"
             then observers_command (mkObserversSpec ObserverRemove id)
        else unknown
      end
    | _ => unknown
    end
  end.

(** [None] is [(GitSpec{}, false)]. *)
Definition ParseGit (args : list string) : option GitSpec :=
  match args with
  | [] => None
  | sub :: rest =>
    let sub := to_lower sub in
    if String.eqb sub "status" then
      match rest with
      | [] => Some (mkGitSpec "status" ["status"; "--short"; "--branch"])
      | _ => None
      end
    else if String.eqb sub "diff" then
      match rest with
      | [] => Some (mkGitSpec "diff" ["diff"; "HEAD"])
      | [arg] => if equal_fold arg "staged" then Some (mkGitSpec "diff" ["diff"; "--cached"])
                 else None
      | _ => None
      end
    else if String.eqb sub "log" then
      let log n := Some (mkGitSpec "log" ["log"; "--oneline"; "--decorate"; "-n"; itoa n]) in
      match rest with
      | [] => log GitLogDefault
      | [arg] =>
        match atoi arg with
        | Some v => log (Z.min (Z.max v 1) GitLogMax)
        | None => None
        end
      | _ => None
      end
    else None
  end.

Definition bareCommand (kind : CommandKind) (word : string) (args : list string) : Command :=
  match args with
  | [] => command kind
  | _ => text_command CmdUnknown ("/" +:+ word +:+ " " +:+ join args " ")
  end.

Definition parseNew (args : list string) : Command :=
  match last args with
  | None => command CmdNew
  | Some lst =>
    if IsAgentKind lst
    then new_command (join (removelast args) " ") (to_lower lst)
    else new_command (join args " ") DefaultAgentKind
  end.

Definition parseAway (args : list string) : Command :=
  match args with
  | [] => command CmdAway
  | [arg] =>
    match ParseDuration (to_lower arg) with
    | Some d =>
      if (d <? MinAway) || (MaxAway <? d) then text_command CmdUnknown ("/away " +:+ join args " ")
      else away_command d
    | None => text_command CmdUnknown ("/away " +:+ join args " ")
    end
  | _ => text_command CmdUnknown ("/away " +:+ join args " ")
  end.

Definition parseScreen (args : list string) : Command :=
  match args with
  | [] => command CmdScreen
  | arg :: rest =>
    if equal_fold arg "all" then
      match rest with
      | [] => screen_command 0 true
      | _ => text_command CmdUnknown ("/screen " +:+ join args " ")
      end
    else
      match atoi arg with
      | None => text_command CmdUnknown ("/screen " +:+ arg)
      | Some n =>
        let n := if n <? 1 then 1 else n in
        let n := if MaxScreenLines <? n then MaxScreenLines else n in
        screen_command n false
      end
  end.

(** The switch on the slash word. *)
Definition dispatch (word rest : string) (args : list string) : Command :=
  if String.eqb word "screen" then parseScreen args
  else if String.eqb word "keys" then
    match args with [] => text_command CmdUnknown "/keys" | _ => keys_command args end
  else if String.eqb word "focus" then command CmdFocus
  else if String.eqb word "status" then command CmdStatus
  else if String.eqb word "help" then command CmdHelp
  else if String.eqb word "options" then command CmdOptions
  else if String.eqb word "away" then parseAway args
  else if String.eqb word "here" then bareCommand CmdHere word args
  else if String.eqb word "stop" then bareCommand CmdStop word args
  else if String.eqb word "interrupt" then bareCommand CmdInterrupt word args
  else if String.eqb word "close" then bareCommand CmdClose word args
  else if String.eqb word "new" then parseNew args
  else if String.eqb word "git" then git_command (default (mkGitSpec "" []) (ParseGit args))
  else if String.eqb word "observers" then parseObservers args
  else
    match forwardRuleFor word (negb (String.eqb rest "")) with
    | Some rule =>
      forward_command ("/" +:+ word +:+ (if String.eqb rest "" then "" else " " +:+ rest)) rule
    | None => text_command CmdUnknown ("/" +:+ word)
    end.

(** The word of a slash message without its "@bot" suffix, or the suffix that
    names another bot. *)
Definition strip_bot (word botUsername : string) : string + string :=
  match str_cut word "@" with
  | Some (w, suffix) =>
    if negb (String.eqb botUsername "") && negb (equal_fold suffix botUsername)
    then inr ("/" +:+ w +:+ "@" +:+ suffix) else inl w
  | None => inl word
  end.

Definition ParseCommand (text botUsername : string) : Command :=
  let trimmed := trim_space text in
  if negb (has_prefix trimmed "/") then text_command CmdPrompt text
  else
    match fields trimmed with
    | [] => text_command CmdUnknown "" (* not reached: see fields_slash *)
    | field :: args =>
      match strip_bot (trim_prefix field "/") botUsername with
      | inr unknown => text_command CmdUnknown unknown
      | inl word => dispatch (to_lower word) (trim_space (trim_prefix trimmed field)) args
      end
    end.

Definition is_reply_digit (t : string) : bool :=
  match t with
  | String c "" => (49 <=? byte_of c) && (byte_of c <=? 57)
  | _ => false
  end.

Definition ShortReply (text : string) : option (list string) :=
  let t := to_lower (trim_space text) in
  if is_reply_digit t then Some [t]
  else match shortReplies !! t with Some key => Some [key] | None => None end.

Definition Route (text botUsername : string) (status : Status) : Command :=
  if has_prefix (trim_space text) "/" then ParseCommand text botUsername
  else
    match (if String.eqb status StatusBlocked then ShortReply text else None) with
    | Some keys => keys_command keys
    | None => text_command CmdPrompt text
    end.
End Parser.

(** ** Routing *)

Lemma fields_go_nonempty cur l : cur ≠ "" → fields_go cur l ≠ [].
Proof.
  revert cur. induction l as [|[r b] l IH]; intros cur Hne; cbn [fields_go].
  - by destruct (String.eqb_spec cur "").
  - destruct (is_space r); [by destruct (String.eqb_spec cur "")|].
    apply IH. by destruct cur.
Qed.

(** A trimmed message that starts with a slash has a first field, so
    [fields[0]] is in range. *)
Lemma fields_slash s : has_prefix s "/" = true → fields s ≠ [].
Proof.
  unfold has_prefix. destruct s as [|c s]; [done|].
  destruct (decide (c = "/"%char)) as [->|Hne]; [intros _|].
  2: { cbn [cut_prefix]. destruct (Ascii.eqb_spec "/" c); [congruence|intros [=]]. }
  unfold fields. rewrite segs_cons.
  change (decode_rune "/" s) with (47, "/", s). cbn [fields_go].
  change (is_space 47) with false. by apply fields_go_nonempty.
Qed.

(** The field in progress grows up to the next space. *)
Lemma fields_go_prefix cur l field args : cur ≠ "" → fields_go cur l = field :: args →
  ∃ more tail, field = cur +:+ more ∧ concat_str l.*2 = more +:+ tail.
Proof.
  revert cur. induction l as [|[r b] l IH]; intros cur Hne; cbn [fields_go].
  - rewrite (proj2 (String.eqb_neq cur "")) by done. intros [= <- <-]. exists "", "". by rewrite str_app_nil_r.
  - destruct (is_space r).
    + rewrite (proj2 (String.eqb_neq cur "")) by done. intros [= <- _]. exists "". eexists. by rewrite str_app_nil_r.
    + intros H. apply IH in H as (more & tail & -> & E); [|by destruct cur]. exists (b +:+ more), tail.
      split; [by rewrite str_app_assoc|]. change (concat_str ((r, b) :: l).*2) with (b +:+ concat_str l.*2).
      by rewrite E, str_app_assoc.
Qed.

(** A line that starts with a slash is its first field, slash included, and
    what follows it. *)
Lemma fields_slash_split s field args : has_prefix s "/" = true → fields s = field :: args →
  ∃ word tail, field = "/" +:+ word ∧ s = field +:+ tail.
Proof.
  unfold has_prefix. destruct (cut_prefix s "/") as [s'|] eqn:E; [intros _|done]. apply cut_prefix_bytes in E.
  change (bytes "/") with ["/"%char] in E. destruct s as [|c s]; [done|]. injection E as -> ->%bytes_inj.
  unfold fields. rewrite segs_cons. change (decode_rune "/" s') with (47, "/", s'). cbn [fields_go]. change (is_space 47) with false.
  intros (more & tail & -> & Hc)%fields_go_prefix; [|done]. exists more, tail. split; [done|].
  rewrite segs_concat in Hc. by rewrite Hc.
Qed.

(** The git invocations a phone can cause. *)
Inductive git_allowed : GitSpec → Prop :=
  | git_none : git_allowed (mkGitSpec "" [])
  | git_status : git_allowed (mkGitSpec "status" ["status"; "--short"; "--branch"])
  | git_diff : git_allowed (mkGitSpec "diff" ["diff"; "HEAD"])
  | git_diff_staged : git_allowed (mkGitSpec "diff" ["diff"; "--cached"])
  | git_log n : 1 ≤ n ≤ GitLogMax →
      git_allowed (mkGitSpec "log" ["log"; "--oneline"; "--decorate"; "-n"; itoa n]).

Section Route.
Context {U : UnicodeTables}.

(** What every command but a prompt and a forwarded line guarantees. *)
Record ArgsOk (c : Command) : Prop := {
  ok_lines : 0 ≤ CmdLines c ≤ MaxScreenLines;
  ok_away : Away c = 0 ∨ MinAway ≤ Away c ≤ MaxAway;
  ok_observers : Action (Observers c) = ObserverList ∧ ObserverID (Observers c) = 0 ∨
                 Action (Observers c) ≠ ObserverList ∧ 0 < ObserverID (Observers c);
  ok_git : git_allowed (Git c);
  ok_kind : CmdAgentKind c = "" ∧ CmdWorkspace c = "" ∨ CmdAgentKind c = DefaultAgentKind ∨
            ∃ word, IsAgentKind word = true ∧ CmdAgentKind c = to_lower word;
  ok_keys : CmdKind c = CmdKeys → CmdKeyList c ≠ []
}.

Definition interactive (c : Command) : Prop := CmdKind c = CmdPrompt ∨ CmdKind c = CmdForward.

Definition parsed_ok (c : Command) : Prop := ArgsOk c ∧ ¬ interactive c.

Lemma command_ok k : k ≠ CmdPrompt → k ≠ CmdForward → k ≠ CmdKeys → parsed_ok (command k).
Proof.
  intros ???. split; [split|intros [?|?]]; simpl in *; try done; auto using git_none.
Qed.

Lemma text_args_ok k text : k ≠ CmdKeys → ArgsOk (text_command k text).
Proof. intros ?. split; simpl in *; try done; auto using git_none. Qed.

Lemma unknown_ok text : parsed_ok (text_command CmdUnknown text).
Proof. split; [by apply text_args_ok|by intros [?|?]]. Qed.

Lemma positive_id_pos s id : positive_id s = Some id → 0 < id.
Proof. unfold positive_id. destruct (atoi s); [|done]. case_match eqn:E; [done|]. intros [= <-]. lia. Qed.

Lemma parseObservers_ok args : parsed_ok (parseObservers args).
Proof.
  unfold parseObservers. destruct args as [|verb [|arg [|]]]; try apply unknown_ok.
  - by apply command_ok.
  - destruct (positive_id arg) as [id|] eqn:E; [|apply unknown_ok].
    apply positive_id_pos in E.
    repeat case_match; try apply unknown_ok;
      (split; [split|intros [?|?]]); simpl in *; try done; auto using git_none; by right.
Qed.

Lemma ParseGit_allowed args spec : ParseGit args = Some spec → git_allowed spec.
Proof.
  unfold ParseGit. destruct args as [|sub rest]; [done|].
  repeat case_match; intros; simplify_eq; constructor; unfold GitLogMax, GitLogDefault; lia.
Qed.

Lemma parseNew_ok args : parsed_ok (parseNew args).
Proof.
  unfold parseNew. destruct (last args) as [lst|]; [|by apply command_ok].
  destruct (IsAgentKind lst) eqn:E;
    (split; [split|intros [?|?]]); simpl in *; try done; eauto using git_none.
Qed.

Lemma parseAway_ok args : parsed_ok (parseAway args).
Proof.
  unfold parseAway. destruct args as [|arg [|]]; [by apply command_ok| |apply unknown_ok].
  destruct (ParseDuration (to_lower arg)) as [d|]; [|apply unknown_ok].
  destruct (_ || _) eqn:E; [apply unknown_ok|]. apply orb_false_iff in E as [H1 H2].
  apply Z.ltb_ge in H1, H2.
  (split; [split|intros [?|?]]); simpl in *; try done; auto using git_none.
Qed.

Lemma parseScreen_ok args : parsed_ok (parseScreen args).
Proof.
  unfold parseScreen. destruct args as [|arg rest]; [by apply command_ok|].
  destruct (equal_fold arg "all"); [destruct rest|destruct (atoi arg) as [n|]]; try apply unknown_ok;
    (split; [split|intros [?|?]]); simpl in *; try done; auto using git_none.
  unfold MaxScreenLines. destruct (Z.ltb_spec n 1); [done|]. destruct (Z.ltb_spec 200 n); lia.
Qed.

Lemma bareCommand_ok k word args :
  k ≠ CmdPrompt → k ≠ CmdForward → k ≠ CmdKeys → parsed_ok (bareCommand k word args).
Proof. intros. destruct args; [by apply command_ok|apply unknown_ok]. Qed.

Lemma forwardRuleFor_word word b rule : forwardRuleFor word b = Some rule → word ∈ ForwardWords.
Proof.
  unfold forwardRuleFor, ForwardWords. rewrite merge_sort_Permutation.
  destruct (forwardRules !! word) as [r|] eqn:E; [|done]. intros _.
  apply list_elem_of_fmap. exists (word, r). split; [done|]. by apply elem_of_map_to_list.
Qed.

(** Every parse is either a checked command or a forwarded line. *)
Lemma dispatch_cases word rest args :
  parsed_ok (dispatch word rest args) ∨
  ∃ rule, forwardRuleFor word (negb (String.eqb rest "")) = Some rule ∧
    dispatch word rest args =
      forward_command ("/" +:+ word +:+ (if String.eqb rest "" then "" else " " +:+ rest)) rule.
Proof.
  unfold dispatch.
  repeat match goal with |- context [if String.eqb word ?w then _ else _] =>
    destruct (String.eqb_spec word w); [left|] end;
  try by apply command_ok.
  - apply parseScreen_ok.
  - destruct args; [apply unknown_ok|].
    (split; [split|intros [?|?]]); simpl; try done; auto using git_none.
  - apply parseAway_ok.
  - by apply bareCommand_ok.
  - by apply bareCommand_ok.
  - by apply bareCommand_ok.
  - by apply bareCommand_ok.
  - apply parseNew_ok.
  - (split; [split|intros [?|?]]); simpl; try done; auto.
    destruct (ParseGit args) eqn:E; simpl; eauto using ParseGit_allowed, git_none.
  - apply parseObservers_ok.
  - destruct (forwardRuleFor word _) as [rule|]; [right; by eauto|left; apply unknown_ok].
Qed.

(** The word of a slash line addressed to the bot [bot] (or to none), what is
    typed after it, and its arguments. *)
Definition typed_as (bot text word rest : string) (args : list string) : Prop :=
  ∃ field tail w, fields (trim_space text) = field :: args ∧ trim_space text = field +:+ tail ∧ rest = trim_space tail ∧
    word = to_lower w ∧ ¬ str_occurs "@" w ∧
    (field = "/" +:+ w ∨ ∃ suffix, field = "/" +:+ w +:+ "@" +:+ suffix ∧ (bot = "" ∨ equal_fold suffix bot = true)).

Lemma trim_prefix_app a b : trim_prefix (a +:+ b) a = b.
Proof.
  unfold trim_prefix. destruct (cut_prefix (a +:+ b) a) as [c|] eqn:E.
  - apply cut_prefix_bytes in E. rewrite bytes_app in E. by apply app_inv_head, bytes_inj in E.
  - assert (cut_prefix (a +:+ b) a = Some b) as H by (apply cut_prefix_bytes, bytes_app). congruence.
Qed.

Lemma strip_bot_typed w0 bot w : strip_bot w0 bot = inl w → ¬ str_occurs "@" w ∧
  (w0 = w ∨ ∃ suffix, w0 = w +:+ "@" +:+ suffix ∧ (bot = "" ∨ equal_fold suffix bot = true)).
Proof.
  unfold strip_bot. destruct (str_cut w0 "@") as [[a suffix]|] eqn:E.
  - apply str_cut_first in E as [E Hno]; [|done]. rewrite <-!bytes_app in E. apply bytes_inj in E.
    destruct (String.eqb_spec bot "") as [->|]; cbn [negb andb]; [intros [= <-]; split; [done|]; right; exists suffix; by auto|].
    destruct (equal_fold suffix bot) eqn:Hf; [|done]. intros [= <-]. split; [done|]. right. exists suffix. by auto.
  - intros [= <-]. split; [by apply str_cut_none|]. by left.
Qed.

(** A slash line is for another bot, or dispatched on the word typed. *)
Lemma ParseCommand_slash text bot : has_prefix (trim_space text) "/" = true →
  (∃ unknown, ParseCommand text bot = text_command CmdUnknown unknown) ∨
  ∃ word rest args, typed_as bot text word rest args ∧ ParseCommand text bot = dispatch word rest args.
Proof.
  intros Hs. unfold ParseCommand. rewrite Hs. cbn [negb].
  destruct (fields (trim_space text)) as [|field args] eqn:Hf; [left; by eexists|].
  destruct (fields_slash_split _ _ _ Hs Hf) as (w0 & tail & -> & Ht).
  rewrite trim_prefix_app. destruct (strip_bot w0 bot) as [w|] eqn:Hw; [|left; by eexists]. right.
  apply strip_bot_typed in Hw as [Hno Hw]. exists (to_lower w), (trim_space tail), args.
  split; [|by rewrite Ht, trim_prefix_app]. exists ("/" +:+ w0), tail, w. split_and!; [done..|].
  destruct Hw as [->|(suffix & -> & Hb)]; [by left|right]. by exists suffix.
Qed.

(** Only /keys presses keys, those it lists. *)
Definition no_keys (c : Command) : Prop := CmdKind c ≠ CmdKeys.
Lemma bareCommand_no_keys k word args : k ≠ CmdKeys → no_keys (bareCommand k word args).
Proof. unfold bareCommand, no_keys. by repeat case_match. Qed.
Lemma parse_no_keys args : no_keys (parseScreen args) ∧ no_keys (parseAway args) ∧ no_keys (parseNew args) ∧ no_keys (parseObservers args).
Proof. unfold parseScreen, parseAway, parseNew, parseObservers, no_keys. split_and!; by repeat case_match. Qed.

Lemma dispatch_keys word rest args : CmdKind (dispatch word rest args) = CmdKeys →
  word = "keys" ∧ CmdKeyList (dispatch word rest args) = args.
Proof.
  pose proof (parse_no_keys args) as (H1 & H2 & H3 & H4). unfold no_keys in *. unfold dispatch.
  repeat match goal with |- context [if String.eqb word ?w then _ else _] => destruct (String.eqb_spec word w) end;
    try done; try (intros H; exfalso; revert H; by apply bareCommand_no_keys).
  - by destruct args.
  - by destruct (forwardRuleFor _ _).
Qed.

Lemma Route_slash_ok text bot : has_prefix (trim_space text) "/" = true → ArgsOk (ParseCommand text bot) ∧ CmdKind (ParseCommand text bot) ≠ CmdPrompt.
Proof.
  intros [[unknown ->]|(word & rest & args & _ & ->)]%(ParseCommand_slash text bot); [split; [by apply text_args_ok|done]|].
  destruct (dispatch_cases word rest args) as [[Ha Hi]|(rule & _ & ->)].
  - split; [done|]. intros H. apply Hi. by left.
  - split; [|done]. split; simpl; try done; auto using git_none.
Qed.

(** The key names a reply to a blocked agent can press. *)
Definition reply_keys : list string :=
  ["1"; "2"; "3"; "4"; "5"; "6"; "7"; "8"; "9"; "y"; "n"; "enter"; "esc"].

Lemma is_reply_digit_keys t : is_reply_digit t = true → t ∈ reply_keys.
Proof.
  destruct t as [|[[] [] [] [] [] [] [] []] [|]]; try done;
    intros H; vm_compute in H; try discriminate H; apply (bool_decide_unpack _); vm_compute; exact I.
Qed.

Lemma ShortReply_keys text keys : ShortReply text = Some keys → ∃ k, keys = [k] ∧ k ∈ reply_keys.
Proof.
  unfold ShortReply. destruct (is_reply_digit _) eqn:E.
  - intros [= <-]. eauto using is_reply_digit_keys.
  - destruct (shortReplies !! _) as [k|] eqn:Hk; [|done]. intros [= <-]. exists k. split; [done|].
    apply elem_of_list_to_map_2 in Hk. unfold KeyEscape in Hk.
    repeat (apply elem_of_cons in Hk as [[= _ ->]|Hk]; [apply (bool_decide_unpack _); by vm_compute|]).
    by apply elem_of_nil in Hk.
Qed.

(** C37: how a topic message reaches an agent. A message that does not start
    with a slash is typed as a prompt exactly as written, or, when the agent
    waits for an answer, is the single key its short reply names. A slash line
    never becomes a prompt. It is typed into the agent only when its own first
    word, up to the name of this bot and in lower case, is one of the forwarded
    words, and the typed line is that word with the operator's text after it; it
    presses keys only as /keys, and exactly those listed after it; whatever
    it is, its arguments are within their bounds. *)
Theorem Route_safe text bot status :
  let c := Route text bot status in
  let slash := has_prefix (trim_space text) "/" in
  (slash = false → c = text_command CmdPrompt text ∨
     status = StatusBlocked ∧ ∃ k, k ∈ reply_keys ∧ ShortReply text = Some [k] ∧ c = keys_command [k]) ∧
  (slash = false → status ≠ StatusBlocked → c = text_command CmdPrompt text) ∧
  (slash = true →
     CmdKind c ≠ CmdPrompt ∧ ArgsOk c ∧
     (CmdKind c = CmdForward → ∃ word rest args, typed_as bot text word rest args ∧ word ∈ ForwardWords ∧
        CmdText c = "/" +:+ word +:+ (if String.eqb rest "" then "" else " " +:+ rest) ∧
        forwardRuleFor word (negb (String.eqb rest "")) = Some (Forward c)) ∧
     (CmdKind c = CmdKeys → ∃ rest, typed_as bot text "keys" rest (CmdKeyList c))).
Proof.
  cbv zeta. unfold Route. destruct (has_prefix _ "/") eqn:Hs.
  - split; [done|]. split; [done|]. intros _. destruct (Route_slash_ok text bot Hs) as [Ha Hp]. split; [done|]. split; [done|].
    destruct (ParseCommand_slash text bot Hs) as [[unknown ->]|(word & rest & args & Ht & ->)]; [done|]. split.
    + intros Hk. destruct (dispatch_cases word rest args) as [[_ Hi]|(rule & Hr & ->)]; [exfalso; apply Hi; by right|].
      exists word, rest, args. eauto using forwardRuleFor_word.
    + intros Hk. apply dispatch_keys in Hk as [-> ->]. by exists rest.
  - split; [|split; [|done]]; intros _.
    + destruct (String.eqb_spec status StatusBlocked) as [->|]; [|by left].
      destruct (ShortReply text) as [keys|] eqn:E; [|by left]. right.
      apply ShortReply_keys in E as Hk. destruct Hk as (k & -> & ?). eauto 6.
    + intros Hne. destruct (String.eqb_spec status StatusBlocked); [done|]. done.
Qed.

(** Every argument a parsed command carries is within its bounds,
    whatever was typed: at most 200 screen lines, an absence of a minute to a
    week, an observer id above zero for add and remove, an argv of the git
    allow-list (no path or flag of the operator's), an agent kind that is the
    default or matches the list of kinds, and at least one key for /keys. *)
Theorem Route_arguments text bot status : ArgsOk (Route text bot status).
Proof.
  unfold Route. destruct (has_prefix _ "/") eqn:Hs; [by apply Route_slash_ok|].
  destruct (if String.eqb status StatusBlocked then _ else _) as [keys|] eqn:E; [|by apply text_args_ok].
  destruct (String.eqb status StatusBlocked); [|done].
  apply ShortReply_keys in E as (k & -> & _).
  split; simpl; try done; auto using git_none.
Qed.

(** ** Workspaces by label *)

Lemma match_fold want ws acc :
  foldl (match_step want) acc ws =
  (acc.1 ++ List.filter (λ w, String.eqb (have_label w) want) ws,
   acc.2 ++ List.filter (λ w, negb (String.eqb (have_label w) want) && has_prefix (have_label w) want) ws).
Proof.
  revert acc. induction ws as [|w ws IH]; intros [e p]; simpl; [by rewrite !app_nil_r|].
  rewrite IH. destruct (String.eqb _ want), (has_prefix _ want); simpl; by rewrite <-?app_assoc.
Qed.

(** a typed label selects the workspaces whose label it equals, or,
    when there is none, those whose label it begins, in Herdr's order and
    never anything for an empty text; [MatchWorkspace] answers a workspace
    exactly when one is selected, and then that one. *)
Theorem MatchWorkspace_spec label ws :
  let want := to_lower (trim_space label) in
  let exact := List.filter (λ w, String.eqb (have_label w) want) ws in
  let prefixed := List.filter (λ w, has_prefix (have_label w) want) ws in
  let selected := if String.eqb want "" then [] else match exact with [] => prefixed | _ => exact end in
  MatchWorkspaces label ws = selected ∧
  (∀ w, MatchWorkspace label ws = (w, MatchOne) ↔ selected = [w]) ∧
  ((MatchWorkspace label ws).2 = MatchNone ↔ selected = []).
Proof.
  cbv zeta. set (want := to_lower (trim_space label)).
  assert (E : MatchWorkspaces label ws =
    (if String.eqb want "" then []
     else match List.filter (λ w, String.eqb (have_label w) want) ws with
          | [] => List.filter (λ w, has_prefix (have_label w) want) ws
          | _ => List.filter (λ w, String.eqb (have_label w) want) ws
          end)).
  { unfold MatchWorkspaces. fold want. destruct (String.eqb want ""); [done|].
    rewrite match_fold. cbn [fst snd app].
    destruct (List.filter _ ws) as [|w l] eqn:Hx at 1; rewrite Hx; [|done]. simpl.
    apply List.filter_ext_in. intros w Hw.
    assert (String.eqb (have_label w) want = false) as ->; [|done].
    apply not_true_iff_false. intros Hq. enough (w ∈ @nil Workspace) by set_solver.
    rewrite <-Hx. apply elem_of_list_filter. split; [done|]. by apply list_elem_of_In. }
  split; [done|]. unfold MatchWorkspace. rewrite E.
  set (sel := if String.eqb want "" then _ else _). destruct sel as [|w [|w' l]]; simpl; split;
    try done; intros; split; intros; by simplify_eq.
Qed.
End Route.

Lemma Route_safe_witness :
  Route (U:=latin1_tables) " 2 " "bot" StatusBlocked = keys_command ["2"] ∧
  CmdText (Route (U:=latin1_tables) "/Model@bot  opus" "bot" StatusIdle) = "/model opus" ∧
  Route (U:=latin1_tables) " 2 " "bot" StatusIdle = text_command CmdPrompt " 2 ".
Proof.
  split; [vm_compute; reflexivity|]. split; [vm_compute; reflexivity|].
  apply (Route_safe (U:=latin1_tables) " 2 " "bot" StatusIdle); vm_compute; congruence.
Defined.

(** A table that knows one more letter: LATIN SMALL LETTER LONG S folds to
    "s" and is its own lower case. *)
Definition long_s_tables : UnicodeTables := {|
  uc_lower r := r;
  uc_fold a b := ((Z.min a b =? 115) || (Z.min a b =? 83)) && (Z.max a b =? 383);
  uc_letter r := r =? 383;
  uc_digit r := false;
  uc_number r := false;
  uc_print r := true
|}.

(** The kind of /new is matched by [EqualFold] and spelled by [ToLower]; the
    two disagree on letters such as the long s, so the kind that is passed on
    need not be one of [AgentKinds]. *)
Lemma parseNew_unlisted_kind :
  let c := parseNew (U:=long_s_tables) ["shop"; "curſor"] in
  CmdAgentKind c = "curſor" ∧ existsb (String.eqb (CmdAgentKind c)) AgentKinds = false.
Proof. by vm_compute. Qed.
