(* ===== verification/Config.v ===== *)
(** internal/domain/config.go and setup.go: the configuration of the daemon,
    the roles it gives to Telegram users, and the values the setup wizard
    exchanges with its ports. *)
From S2P Require Import Prelude GoStrings Errors.

Local Open Scope Z_scope.

Definition ConfigVersion : Z := 1.

Record Config := mkConfig {
  Version : Z;
  BotToken : string;
  BotUsername : string;
  ChatID : Z;
  ChatTitle : string;
  OperatorIDs : list Z;
  ObserverIDs : list Z;
  LogLevel : string;
  ConfiguredAt : Time
}.

Definition with_observers (c : Config) (obs : list Z) : Config :=
  mkConfig (Version c) (BotToken c) (BotUsername c) (ChatID c) (ChatTitle c) (OperatorIDs c) obs
    (LogLevel c) (ConfiguredAt c).

Inductive Role := RoleStranger | RoleObserver | RoleOperator.

#[global] Instance Role_eq_dec : EqDecision Role.
Proof. solve_decision. Defined.

Definition RoleString (r : Role) : string :=
  match r with
  | RoleOperator => "operator"
  | RoleObserver => "observer"
  | RoleStranger => "stranger"
  end.

(** The two membership loops. *)
Fixpoint id_in (ids : list Z) (id : Z) : bool :=
  match ids with
  | [] => false
  | x :: ids' => if x =? id then true else id_in ids' id
  end.
Definition IsOperator (c : Config) (id : Z) : bool := id_in (OperatorIDs c) id.
Definition IsObserver (c : Config) (id : Z) : bool := id_in (ObserverIDs c) id.

Definition ConfigRole (c : Config) (id : Z) : Role :=
  if IsOperator c id then RoleOperator
  else if IsObserver c id then RoleObserver
  else RoleStranger.

Definition invalid_observer (format : string) (args : list string) : error :=
  Errorf format args [Sentinel ErrInvalidObserver].

(** The pair [(Config, error)]; [None] is the nil error. *)
Definition WithObserver (c : Config) (id : Z) : Config * option error :=
  if id <=? 0 then (c, Some (invalid_observer "%w: id must be a positive number" []))
  else if IsOperator c id then (c, Some (invalid_observer "%w: %d is an operator" [itoa id]))
  else if IsObserver c id
  then (c, Some (invalid_observer "%w: %d is already an observer" [itoa id]))
  else (with_observers c (ObserverIDs c ++ [id]), None).

Definition WithoutObserver (c : Config) (id : Z) : Config * option error :=
  if negb (IsObserver c id)
  then (c, Some (invalid_observer "%w: %d is not an observer" [itoa id]))
  else (with_observers c (List.filter (λ ob, negb (ob =? id)) (ObserverIDs c)), None).

Definition not_configured (format : string) (args : list string) : error :=
  Errorf format args [Sentinel ErrNotConfigured].

Definition Validate (c : Config) : option error :=
  if negb (Version c =? ConfigVersion)
  then Some (not_configured "%w: version %d, want %d" [itoa (Version c); itoa ConfigVersion])
  else if String.eqb (BotToken c) "" then Some (not_configured "%w: bot_token is empty" [])
  else if 0 <=? ChatID c
  then Some (not_configured "%w: chat_id %d is not a supergroup id" [itoa (ChatID c)])
  else match OperatorIDs c with
       | [] => Some (not_configured "%w: operator_ids is empty" [])
       | _ => None
       end.

(** ** setup.go *)

Record BotIdentity := mkBotIdentity { BotID : Z; IdentityUsername : string }.
Record GroupCandidate := mkGroupCandidate {
  CandChatID : Z; CandTitle : string; CandFromID : Z; CandFromUsername : string }.

Definition SetupLink (botUsername : string) : string :=
  "https://t.me/" +:+ botUsername +:+ "?start=setup".

(** ** Roles *)

Lemma id_in_spec ids id : id_in ids id = true ↔ id ∈ ids.
Proof.
  induction ids as [|x ids IH]; simpl; [set_solver|].
  rewrite elem_of_cons. destruct (Z.eqb_spec x id) as [->|]; [tauto|]. rewrite IH. naive_solver.
Qed.

Lemma id_in_app a b id : id_in (a ++ b) id = id_in a id || id_in b id.
Proof. induction a as [|x a IH]; simpl; [done|]. by destruct (x =? id). Qed.

Lemma filter_ne_notin ids id :
  id_in ids id = false → List.filter (λ ob, negb (ob =? id)) ids = ids.
Proof.
  induction ids as [|x ids IH]; simpl; [done|]. destruct (Z.eqb_spec x id); [done|].
  simpl. intros ?. by rewrite IH.
Qed.

Lemma id_in_filter_ne ids id other :
  id_in (List.filter (λ ob, negb (ob =? id)) ids) other = id_in ids other && negb (other =? id).
Proof.
  induction ids as [|x ids IH]; simpl; [done|].
  destruct (Z.eqb_spec x id) as [->|]; simpl.
  - rewrite IH. destruct (Z.eqb_spec id other) as [->|]; [|done].
    by rewrite Z.eqb_refl, andb_false_r.
  - destruct (Z.eqb_spec x other) as [->|]; [|done]. by destruct (Z.eqb_spec other id).
Qed.

(** making someone an observer gives exactly that stranger with a positive
    id the observer role and changes no other role, and taking the id off again
    restores the configuration; an operator never becomes an observer. In every
    other case the configuration is unchanged and the error is
    [ErrInvalidObserver]. *)
Theorem WithObserver_spec c id :
  match WithObserver c id with
  | (c', None) =>
    0 < id ∧ ConfigRole c id = RoleStranger ∧ ConfigRole c' id = RoleObserver ∧
    (∀ other, other ≠ id → ConfigRole c' other = ConfigRole c other) ∧
    WithoutObserver c' id = (c, None)
  | (c', Some e) =>
    c' = c ∧ errors_is e ErrInvalidObserver = true ∧ (id ≤ 0 ∨ ConfigRole c id ≠ RoleStranger)
  end.
Proof.
  unfold WithObserver, ConfigRole. destruct (Z.leb_spec id 0); [split_and!; auto|].
  destruct (IsOperator c id) eqn:Hop; [split_and!; auto|].
  destruct (IsObserver c id) eqn:Hob; [split_and!; auto|].
  assert (∀ i, IsObserver (with_observers c (ObserverIDs c ++ [id])) i = IsObserver c i || (id =? i)) as E.
  { intros i. unfold IsObserver. cbn [with_observers ObserverIDs]. rewrite id_in_app. simpl.
    by destruct (id =? i). }
  change (IsOperator (with_observers c (ObserverIDs c ++ [id]))) with (IsOperator c).
  rewrite Hop, E, Hob, Z.eqb_refl. split_and!; [done..| |].
  - intros other Hne. rewrite E. destruct (Z.eqb_spec id other); [done|]. by rewrite orb_false_r.
  - unfold WithoutObserver. rewrite E, Hob, Z.eqb_refl. cbn [with_observers ObserverIDs].
    simpl negb. cbv iota. rewrite filter_snoc, Z.eqb_refl. simpl. rewrite app_nil_r.
    rewrite filter_ne_notin by done. by destruct c.
Qed.

Lemma WithObserver_spec_witness :
  let c := mkConfig 1 "t" "b" (-100) "g" [7] [] "" 0 in
  WithObserver c 9 = (with_observers c [9], None) ∧ ConfigRole (with_observers c [9]) 9 = RoleObserver ∧
  ConfigRole (with_observers c [9]) 7 = ConfigRole c 7.
Proof.
  cbv zeta. set (c := mkConfig 1 "t" "b" (-100) "g" [7] [] "" 0).
  split; [reflexivity|]. split; [reflexivity|].
  pose proof (WithObserver_spec c 9) as H.
  change (WithObserver c 9) with (with_observers c [9], @None error) in H. cbv iota beta in H.
  destruct H as (_ & _ & _ & H & _). apply H. lia.
Defined.

(** Removing an observer takes the role from every occurrence of the id and from
    nobody else; an operator listed as observer too stays an operator. *)
Lemma WithoutObserver_spec c id :
  match WithoutObserver c id with
  | (c', None) =>
    IsObserver c id = true ∧ IsObserver c' id = false ∧
    ∀ other, IsOperator c' other = IsOperator c other ∧
             (other ≠ id → ConfigRole c' other = ConfigRole c other)
  | (c', Some e) =>
    c' = c ∧ errors_is e ErrInvalidObserver = true ∧ IsObserver c id = false
  end.
Proof.
  unfold WithoutObserver. destruct (IsObserver c id) eqn:Hob; [simpl|by split_and!].
  assert (E : ∀ i, IsObserver (with_observers c (List.filter (λ ob, negb (ob =? id)) (ObserverIDs c))) i
                   = IsObserver c i && negb (i =? id)) by (intros; apply id_in_filter_ne).
  split; [done|]. split; [by rewrite E, Z.eqb_refl, andb_false_r|].
  intros other. split; [done|]. intros Hne. unfold ConfigRole. rewrite E.
  destruct (Z.eqb_spec other id); [done|]. by rewrite andb_true_r.
Qed.

(** A usable configuration has the current version, a token, a supergroup id and
    an operator; every failure is [ErrNotConfigured]. *)
Lemma Validate_spec c :
  match Validate c with
  | None => Version c = ConfigVersion ∧ BotToken c ≠ "" ∧ ChatID c < 0 ∧ OperatorIDs c ≠ []
  | Some e => errors_is e ErrNotConfigured = true
  end.
Proof.
  unfold Validate. destruct (Z.eqb_spec (Version c) ConfigVersion); [|done]. simpl.
  destruct (String.eqb_spec (BotToken c) ""); [done|]. destruct (Z.leb_spec 0 (ChatID c)); [done|].
  by destruct (OperatorIDs c).
Qed.
