(* ===== verification/Events.v ===== *)
(** internal/domain/events.go: the closed set of events the gateways deliver,
    one constructor of [Event] per type that implements the marker. *)
From S2P Require Import Prelude Status Config.

Local Open Scope Z_scope.

Inductive HerdrEventKind :=
  | PaneAgentDetected | PaneAgentStatusChanged | PaneClosed | PaneExited | PaneUpdated
  | TabRenamed | WorkspaceRenamed | StreamReset
  | OtherKind (name : string).

Record HerdrEvent := mkHerdrEvent {
  EvKind : HerdrEventKind;
  EvPaneID : string;
  EvWorkspaceID : string;
  EvTabID : string;
  EvAgent : option Agent;
  EvLabel : string;
  FinalStatus : option Status;
  Released : bool
}.

Record TopicMessage := mkTopicMessage {
  MsgThreadID : Z; MsgMessageID : Z; MsgFromID : Z; MsgText : string; MsgReplyTo : Z }.

Inductive AttachmentKind :=
  | AttachmentPhoto | AttachmentDocument | AttachmentVoice | AttachmentAudio | AttachmentVideo.

#[global] Instance AttachmentKind_eq_dec : EqDecision AttachmentKind.
Proof. solve_decision. Defined.

Record TopicAttachment := mkTopicAttachment {
  AttThreadID : Z;
  AttMessageID : Z;
  AttFromID : Z;
  GroupID : string;
  AttKind : AttachmentKind;
  FileID : string;
  AttName : string;
  MIME : string;
  Size : Z;
  Caption : string;
  AttReplyTo : Z
}.

Record ButtonPressed := mkButtonPressed {
  CallbackID : string; BtnThreadID : Z; BtnMessageID : Z; BtnFromID : Z; BtnData : string }.

Record GeneralCommand := mkGeneralCommand {
  GenMessageID : Z; GenFromID : Z; GenText : string; GenRole : Role }.

Record StrangerSeen := mkStrangerSeen {
  StrFromID : Z; StrName : string; StrUsername : string; StrThreadID : Z; StrAt : Time }.

Inductive Event :=
  | EvHerdr (e : HerdrEvent)
  | EvTopicMessage (e : TopicMessage)
  | EvTopicAttachment (e : TopicAttachment)
  | EvButtonPressed (e : ButtonPressed)
  | EvGeneralCommand (e : GeneralCommand)
  | EvTopicRenamed (threadID : Z) (name : string)
  | EvTopicClosed (threadID : Z)
  | EvTopicReopened (threadID : Z)
  | EvRightsChanged (canManageTopics : bool)
  | EvStrangerSeen (e : StrangerSeen).
