(* ===== verification/Attachment.v ===== *)
(** internal/domain/attachment.go: the file names of the inbox and the prompt
    that hands saved attachments to an agent. *)
From S2P Require Import Prelude GoStrings Rfc3339 Events.

Local Open Scope Z_scope.

Definition safeNameMaxRunes : Z := 80.

Section Names.
Context {U : UnicodeTables}.

(** The case of the switch that keeps a rune. *)
Definition keeps (r : Z) : bool := (r =? 46) || (r =? 95) || is_letter r || is_digit r.

(** The loop over the runes: the builder's content and [lastDash]. *)
Definition safe_step (acc : string * bool) (r : Z) : string * bool :=
  let '(b, lastDash) := acc in
  if keeps r then (b +:+ encode_rune r, false)
  else if lastDash then (b, lastDash) else (b +:+ "-", true).

Definition SafeFileName (name fallback : string) : string :=
  let '(b, _) := foldl safe_step ("", false) (runes name) in
  let out := trim b "-." in
  let out := if safeNameMaxRunes <? rune_count out
             then trim (string_of_runes (take (Z.to_nat safeNameMaxRunes) (runes out))) "-."
             else out in
  if String.eqb out "" then fallback else out.

(** A number of at least [width] digits. *)
Definition pad_int (width : nat) (n : Z) : string :=
  String.concat "" (repeat "0" (width - String.length (itoa n))) +:+ itoa n.

(** [at.Format("20060102-150405")]: the civil date and time of an instant in a
    location [zone] seconds east of UTC. *)
Definition format_stamp (at_ : Time) (zone : Z) : string :=
  let secs := at_ / Second + zone in
  let '(y, m, d) := date_of (secs / 86400) in
  let s := secs mod 86400 in
  pad_int 4 y +:+ pad_int 2 m +:+ pad_int 2 d +:+ "-" +:+
  pad_int 2 (s / 3600) +:+ pad_int 2 (s / 60 mod 60) +:+ pad_int 2 (s mod 60).

Definition InboxFileName (at_ : Time) (zone : Z) (messageID : Z) (name : string) : string :=
  format_stamp at_ zone +:+ "-" +:+ itoa messageID +:+ "-" +:+ name.

Definition attachmentExtensions : gmap string string := list_to_map
  [("image/jpeg", ".jpg"); ("image/png", ".png"); ("image/gif", ".gif"); ("image/webp", ".webp");
   ("audio/ogg", ".ogg"); ("audio/mpeg", ".mp3"); ("audio/mp4", ".m4a"); ("audio/x-m4a", ".m4a");
   ("video/mp4", ".mp4"); ("video/quicktime", ".mov"); ("application/pdf", ".pdf");
   ("text/plain", ".txt")].

Definition DefaultAttachmentName (kind : AttachmentKind) (mime : string) : string :=
  let '(base, ext) :=
    match kind with
    | AttachmentPhoto => ("photo", ".jpg")
    | AttachmentVoice => ("voice", ".ogg")
    | AttachmentAudio => ("audio", ".mp3")
    | AttachmentVideo => ("video", ".mp4")
    | AttachmentDocument => ("file", ".bin")
    end in
  base +:+ default ext (attachmentExtensions !! to_lower (trim_space mime)).

Definition AttachmentPrompt (caption : string) (paths : list string) : string :=
  let caption := trim_space caption in
  let lines := join paths nl in
  if String.eqb caption "" then lines else caption +:+ nl +:+ nl +:+ lines.

(** ** Safe names *)

(** The runes the loop writes. *)
Fixpoint sanitize (lastDash : bool) (rs : list Z) : list Z :=
  match rs with
  | [] => []
  | r :: rs' =>
    if keeps r then r :: sanitize false rs'
    else if lastDash then sanitize true rs' else 45 :: sanitize true rs'
  end.

(** No hyphen follows a hyphen. *)
Fixpoint compact (dash : bool) (rs : list Z) : bool :=
  match rs with
  | [] => true
  | r :: rs' => if r =? 45 then negb dash && compact true rs' else compact false rs'
  end.

Definition edge (r : Z) : bool := (r =? 45) || (r =? 46).
Definition safe_rune (r : Z) : Prop := r = 45 ∨ keeps r = true.

Lemma safe_fold b dash rs :
  Forall (λ r, valid_rune r = true) rs →
  (foldl safe_step (b, dash) rs).1 = b +:+ string_of_runes (sanitize dash rs).
Proof.
  intros Hv. revert b dash. induction Hv as [|r rs Hr _ IH]; intros b dash; [by rewrite str_app_nil_r|].
  cbn [foldl sanitize safe_step]. destruct (keeps r); [|destruct dash]; rewrite IH; [|done|];
    by rewrite str_app_assoc.
Qed.

Lemma keeps_45 : keeps 45 = false.
Proof. done. Qed.

Lemma sanitize_valid dash rs :
  Forall (λ r, valid_rune r = true) rs → Forall (λ r, valid_rune r = true) (sanitize dash rs).
Proof.
  intros Hv. revert dash. induction Hv; intros dash; simpl; [done|].
  destruct (keeps _); [auto|]. destruct dash; auto.
Qed.

Lemma sanitize_safe dash rs : Forall safe_rune (sanitize dash rs).
Proof.
  revert dash. induction rs as [|r rs IH]; intros dash; simpl; [done|].
  unfold safe_rune in *. destruct (keeps r) eqn:E; [auto|]. destruct dash; auto.
Qed.

Lemma sanitize_compact dash rs : compact dash (sanitize dash rs) = true.
Proof.
  revert dash. induction rs as [|r rs IH]; intros dash; simpl; [done|].
  destruct (keeps r) eqn:E; [|destruct dash; simpl; by rewrite ?IH].
  simpl. destruct (Z.eqb_spec r 45) as [->|]; [by rewrite keeps_45 in E|]. apply IH.
Qed.

Lemma sanitize_id dash rs : Forall safe_rune rs → compact dash rs = true → sanitize dash rs = rs.
Proof.
  intros Hs. revert dash. induction Hs as [|r rs Hr _ IH]; intros dash; simpl; [done|].
  destruct Hr as [->|Hk].
  - rewrite keeps_45. simpl. rewrite andb_true_iff. intros [Hd ?]. destruct dash; [done|]. by rewrite IH.
  - rewrite Hk. destruct (Z.eqb_spec r 45) as [->|]; [by rewrite keeps_45 in Hk|]. intros. by rewrite IH.
Qed.

Lemma compact_app dash a b : compact dash (a ++ b) = true → compact dash a = true ∧ compact false b = true.
Proof.
  revert dash. induction a as [|r a IH]; intros dash; simpl.
  - intros H. split; [done|]. destruct b as [|x b]; [done|]. simpl in *.
    destruct (x =? 45); [|done]. simpl. by apply andb_true_iff in H as [_ ?].
  - destruct (r =? 45); [|apply IH]. rewrite !andb_true_iff. intros [? ?%IH]. tauto.
Qed.

Lemma compact_trim rs : compact false rs = true → compact false (trim_runes edge rs) = true.
Proof.
  destruct (trim_runes_infix edge rs) as (pre & post & E). rewrite E at 1.
  intros [_ H]%compact_app. by apply compact_app in H as [? _].
Qed.

Lemma trim_edges rs :
  Forall (λ r, valid_rune r = true) rs →
  trim (string_of_runes rs) "-." = string_of_runes (trim_runes edge rs).
Proof.
  apply trim_string_of_runes.
  - intros c. unfold in_cutset, edge. cbn.
    assert (H : ∀ d, Ascii.eqb c d = (byte_of c =? byte_of d)).
    { intros d. destruct (Ascii.eqb_spec c d) as [->|Hne]; [by rewrite Z.eqb_refl|].
      symmetry. apply Z.eqb_neq. intros E. apply Hne. by rewrite <-(of_byte_of c), E, of_byte_of. }
    rewrite !H. change (byte_of "-"%char) with 45. change (byte_of "."%char) with 46.
    by rewrite orb_false_r.
  - intros r ?. unfold edge. by zbool.
Qed.

Lemma length_trim_runes p rs : (length (trim_runes p rs) ≤ length rs)%nat.
Proof.
  destruct (trim_runes_infix p rs) as (pre & post & E).
  rewrite E at 2. rewrite !length_app. lia.
Qed.

(** The runes of the name before the fallback. *)
Definition safe_runes (name : string) : list Z :=
  let out := trim_runes edge (sanitize false (runes name)) in
  if safeNameMaxRunes <? Z.of_nat (length out)
  then trim_runes edge (take (Z.to_nat safeNameMaxRunes) out) else out.

Lemma string_of_runes_empty rs :
  Forall (λ r, valid_rune r = true) rs → string_of_runes rs = "" → rs = [].
Proof. intros Hv E. by rewrite <-(runes_string_of_runes rs), E. Qed.

Lemma safe_runes_valid name : Forall (λ r, valid_rune r = true) (safe_runes name).
Proof.
  pose proof (sanitize_valid false _ (runes_valid name)) as Hv. unfold safe_runes.
  destruct (_ <? _); repeat (apply Forall_trim_runes || apply Forall_take); done.
Qed.

Lemma SafeFileName_runes name fallback :
  SafeFileName name fallback =
  match safe_runes name with [] => fallback | rs => string_of_runes rs end.
Proof.
  pose proof (safe_runes_valid name) as Hs. pose proof (sanitize_valid false _ (runes_valid name)) as Hv.
  unfold SafeFileName. pose proof (safe_fold "" false _ (runes_valid name)) as E.
  destruct (foldl safe_step _ _) as [b dash]. cbn [fst] in E. rewrite str_app_nil_l in E. subst b.
  rewrite trim_edges by done.
  assert (Ht : Forall (λ r, valid_rune r = true) (trim_runes edge (sanitize false (runes name))))
    by by apply Forall_trim_runes.
  unfold rune_count. rewrite runes_string_of_runes, trim_edges by (done || by apply Forall_take).
  set (out := if safeNameMaxRunes <? _ then string_of_runes _ else _).
  assert (out = string_of_runes (safe_runes name)) as ->.
  { unfold out, safe_runes. by destruct (_ <? _). }
  destruct (String.eqb_spec (string_of_runes (safe_runes name)) "") as [E|Hne].
  - by rewrite (string_of_runes_empty _ Hs E).
  - by destruct (safe_runes name).
Qed.

Record SafeRunes (rs : list Z) : Prop := {
  sr_len : Z.of_nat (length rs) ≤ safeNameMaxRunes;
  sr_safe : Forall safe_rune rs;
  sr_compact : compact false rs = true;
  sr_head r : head rs = Some r → edge r = false;
  sr_last r : last rs = Some r → edge r = false
}.

Lemma safe_runes_ok name : SafeRunes (safe_runes name).
Proof.
  unfold safe_runes. set (out := trim_runes edge (sanitize false (runes name))).
  assert (Forall safe_rune out) by apply Forall_trim_runes, sanitize_safe.
  assert (Hc : compact false out = true) by apply compact_trim, sanitize_compact.
  destruct (Z.ltb_spec safeNameMaxRunes (Z.of_nat (length out))) as [Hlt|Hle].
  - split.
    + pose proof (length_trim_runes edge (take (Z.to_nat safeNameMaxRunes) out)) as Hl.
      rewrite length_take in Hl. unfold safeNameMaxRunes in *. lia.
    + by apply Forall_trim_runes, Forall_take.
    + apply compact_trim. rewrite <-(take_drop (Z.to_nat safeNameMaxRunes) out) in Hc.
      by apply compact_app in Hc as [? _].
    + intros r. apply trim_runes_head.
    + intros r. apply trim_runes_last.
  - split; [done..|intros r; apply trim_runes_head|intros r; apply trim_runes_last].
Qed.

Lemma safe_runes_id rs :
  Forall (λ r, valid_rune r = true) rs → SafeRunes rs → safe_runes (string_of_runes rs) = rs.
Proof.
  intros Hv [Hl Hs Hc Hh Hla]. unfold safe_runes. rewrite runes_string_of_runes by done.
  rewrite sanitize_id, trim_runes_id by done. by destruct (Z.ltb_spec safeNameMaxRunes (Z.of_nat (length rs))); [lia|].
Qed.

(** The name a file gets in the inbox is harmless whatever the sender called
    it: unless it is the fallback it is not empty, has at most 80 code points, each
    a letter, a digit, a dot, an underscore or a hyphen (so no separator), starts
    and ends with neither dot nor hyphen (so it is no "..", no hidden file, no
    flag), and sanitising it again changes nothing. *)
Theorem SafeFileName_safe name fallback :
  let out := SafeFileName name fallback in
  out = fallback ∨
  (out ≠ "" ∧ rune_count out ≤ safeNameMaxRunes ∧ Forall safe_rune (runes out) ∧
   (∀ r, head (runes out) = Some r ∨ last (runes out) = Some r → r ≠ 45 ∧ r ≠ 46) ∧
   SafeFileName out fallback = out).
Proof.
  cbv zeta. destruct (safe_runes name) as [|r0 rs0] eqn:E; [left; by rewrite SafeFileName_runes, E|right].
  assert (Hout : SafeFileName name fallback = string_of_runes (safe_runes name))
    by by rewrite SafeFileName_runes, E.
  rewrite Hout. pose proof (safe_runes_valid name) as Hv. pose proof (safe_runes_ok name) as Hok.
  assert (Hne : safe_runes name ≠ []) by by rewrite E. clear E Hout.
  unfold rune_count. rewrite (runes_string_of_runes _ Hv).
  rewrite SafeFileName_runes, safe_runes_id by done. destruct Hok as [Hl Hs Hc Hh Hla].
  split_and!; [by intros ?%string_of_runes_empty|done|done| |by destruct (safe_runes name)].
  intros r Hx. assert (Hr : edge r = false) by (destruct Hx; auto).
  by apply orb_false_iff in Hr as [?%Z.eqb_neq ?%Z.eqb_neq].
Qed.
End Names.

Lemma SafeFileName_safe_witness :
  let out := SafeFileName (U:=latin1_tables) "../.. my file!!.tar.gz-" "f" in
  out = "my-file-.tar.gz" ∧ (∀ r, head (runes out) = Some r → r ≠ 46).
Proof.
  cbv zeta. assert (E : SafeFileName (U:=latin1_tables) "../.. my file!!.tar.gz-" "f" = "my-file-.tar.gz")
    by (vm_compute; reflexivity).
  split; [exact E|].
  destruct (SafeFileName_safe (U:=latin1_tables) "../.. my file!!.tar.gz-" "f") as [H|(_ & _ & _ & H & _)].
  - rewrite E in H. discriminate H.
  - intros r Hr. apply (H r). by left.
Defined.

Example stamp_example :
  InboxFileName ((62135596800 + 1767323045) * Second) 0 7 "x.png" = "20260102-030405-7-x.png".
Proof. by vm_compute. Qed.
