(* ===== verification/AppText.v ===== *)
(** Text helpers the use cases share: internal/app/links.go, the terminal text
    of internal/app/outbound.go, [failureReason] of internal/app/inbound.go and
    [isFatal] of internal/app/daemon.go. *)
From S2P Require Import Prelude GoStrings Errors Chrome.

Local Open Scope Z_scope.

Definition topicLink (chatID threadID : Z) : string :=
  let id := if chatID <? 0 then wrap64 (- chatID) else chatID in
  "https://t.me/c/" +:+ trim_prefix (itoa id) "100" +:+ "/" +:+ itoa threadID.
Definition messageLink (chatID threadID messageID : Z) : string :=
  topicLink chatID threadID +:+ "/" +:+ itoa messageID.

Definition isFatal (e : error) : bool :=
  errors_is e ErrBotUnauthorized || errors_is e ErrPollerConflict || errors_is e ErrForbidden.

(** What is left of an error a handler absorbs unless it is fatal. *)
Definition fatal_only (err : option error) : option error :=
  match err with Some e => if isFatal e then Some e else None | None => None end.

(** [error_text] stands for [err.Error()]. *)
Definition failureReason (error_text : error → string) (err : error) : string :=
  if errors_is err ErrAgentGone then "agent is gone"
  else if errors_is err ErrDisconnected then "herdr is unreachable"
  else trim_space (match str_cut (error_text err) nl with
                   | Some (line, _) => line
                   | None => error_text err
                   end).

(** ** Terminal text *)

Definition crlf : string := String "013" nl.
Definition line_blanks : string := " " +:+ String "009" (String "013" "").

Definition screenLines (text : string) : list string :=
  map (λ l, trim_right l line_blanks) (lines_of (replace_all text crlf nl)).

(** The blank lines at both ends dropped. *)
Fixpoint drop_blank (lines : list string) : list string :=
  match lines with
  | l :: ls => if String.eqb l "" then drop_blank ls else lines
  | [] => []
  end.
Definition trimScreen (text : string) : string :=
  join (reverse (drop_blank (reverse (drop_blank (screenLines text))))) nl.

Definition cleanScreen (text : string) (chrome : bool) : string * Z :=
  let text := trimScreen text in
  if negb chrome then (text, 0)
  else
    let '(cut, n) := CutChrome text in
    if n =? 0 then (text, 0) else (trimScreen cut, n).

Definition lastLines (text : string) (n : nat) : string :=
  let lines := screenLines (trim_space text) in
  trimScreen (join (drop (length lines - n) lines) nl).

(** The first [n] runes of a text, with an ellipsis when it is longer. *)
Definition ellipsis_at (text : string) (n : nat) : string :=
  if rune_count text <=? Z.of_nat n then text
  else trim_space (string_of_runes (take (n - 1) (runes text))) +:+ "…".

Definition choiceLabelRunes : nat := 60.
Definition cutLabel (label : string) : string := ellipsis_at label choiceLabelRunes.

Definition headOf (text : string) (n : nat) : string := ellipsis_at (join (fields text) " ") n.

Lemma isFatal_fatal_only err e : fatal_only err = Some e → isFatal e = true ∧ err = Some e.
Proof. unfold fatal_only. destruct err as [x|]; [|done]. case_match eqn:H; [|done]. by intros [= <-]. Qed.
