(* ===== verification/OptionRegistry.v ===== *)
(** internal/domain/options.go: the registry of options, the value bag and
    its typed readers, the status icons, and the validation of a bag. *)
From S2P Require Import Prelude GoStrings Errors Status.

Local Open Scope Z_scope.

Inductive OptionKind := KindBool | KindChoice | KindText.

Record OptionGroup := mkOptionGroup {
  GroupName : string; GroupTitle : string; GroupDescription : string }.

Record OptionSpec := mkOptionSpec {
  OptKey : string;
  OptGroup : string;
  OptTitle : string;
  OptDescription : string;
  OptKind : OptionKind;
  Default : string;
  OptChoices : string;
  OptValidate : option (string → option error)
}.

Definition dquote : string := String "034" "".

Definition DoneMode := string.
Definition DoneScreen : DoneMode := "screen".
Definition DoneReply : DoneMode := "reply".
Definition DoneFormatted : DoneMode := "formatted".

Definition PostsMode := string.
Definition PostsSilent : PostsMode := "silent".
Definition PostsHeld : PostsMode := "held".
Definition PostsNormal : PostsMode := "normal".

Definition iconStatuses : list Status :=
  [StatusWorking; StatusIdle; StatusBlocked; StatusDone; StatusUnknown; StatusExited].

Definition OptionSyncEnabled : string := "sync.enabled".
Definition OptionSyncDashboard : string := "sync.dashboard".
Definition OptionRedact : string := "privacy.redact".
Definition OptionDeleteAfterDays : string := "topics.delete_after_days".
Definition OptionNoticeDelay : string := "topics.notice_delay".
Definition ChoiceSourceNotice : string := "notice".
Definition OptionQuietEnabled : string := "quiet.enabled".
Definition OptionQuietIdleMinutes : string := "quiet.idle_minutes".
Definition OptionQuietTopics : string := "quiet.topics".
Definition OptionQuietPosts : string := "quiet.posts".
Definition OptionQuietReannounce : string := "quiet.reannounce".
Definition ChoiceSourceIcons : string := "icons".
Definition ChoiceSourceDays : string := "days".
Definition ChoiceSourceMinutes : string := "minutes".
Definition ChoiceSourcePosts : string := "posts".
Definition OptionPostsDone : string := "posts.done".
Definition OptionPostsMeta : string := "posts.meta".
Definition OptionPostsFold : string := "posts.fold".
Definition ChoiceSourceLines : string := "lines".
Definition OptionPostsChrome : string := "posts.chrome".
Definition ChoiceSourceDone : string := "done".
Definition OptionPostsReactions : string := "posts.reactions".
Definition OptionPostsPager : string := "posts.pager".
Definition OptionPostsBlockedDelay : string := "posts.blocked_delay".
Definition OptionPostsMinSeconds : string := "posts.min_seconds".
Definition ChoiceSourceSeconds : string := "seconds".
Definition OptionInboxEnabled : string := "inbox.enabled".
Definition OptionInboxMaxMB : string := "inbox.max_mb".
Definition OptionInboxDeleteAfterDays : string := "inbox.delete_after_days".
Definition ChoiceSourceMegabytes : string := "megabytes".
Definition GroupSync : string := "sync".
Definition GroupQuiet : string := "quiet".
Definition GroupPosts : string := "posts".
Definition GroupInbox : string := "inbox".
Definition GroupAppearance : string := "appearance".
Definition GroupPrivacy : string := "privacy".
Definition GroupTopics : string := "topics".
Definition iconKeyPrefix : string := "icons.".

Definition IconKey (st : Status) : string := iconKeyPrefix +:+ st.

Definition StatusOfIconKey (key : string) : option Status :=
  match cut_prefix key iconKeyPrefix with
  | None => None
  | Some st => if existsb (String.eqb st) iconStatuses then Some st else None
  end.

(** ** Choice lists and validators *)

Definition daysChoices : list string := ["0"; "7"; "14"; "30"; "60"; "90"].
Definition maxDeleteAfterDays : Z := 3650.
Definition minutesChoices : list string := ["1"; "2"; "3"; "5"; "10"; "15"].
Definition maxIdleMinutes : Z := 1440.
Definition defaultQuietIdle : Duration := 3 * Minute.
Definition postsChoices : list string := [PostsSilent; PostsHeld; PostsNormal].
Definition doneChoices : list string := [DoneScreen; DoneReply; DoneFormatted].
Definition secondsChoices : list string := ["0"; "5"; "10"; "30"; "60"; "120"].
Definition maxSeconds : Z := 3600.
Definition noticeChoices : list string := ["0"; "10"; "20"; "30"; "60"; "120"].
Definition linesChoices : list string := ["0"; "10"; "20"; "40"].
Definition maxLines : Z := 1000.
Definition defaultFoldAfter : Z := 20.
Definition megabytesChoices : list string := ["5"; "10"; "20"].
Definition maxInboxMB : Z := 20.

Definition StaticChoices (name : string) : option (list string) :=
  if String.eqb name ChoiceSourceMegabytes then Some megabytesChoices
  else if String.eqb name ChoiceSourceDays then Some daysChoices
  else if String.eqb name ChoiceSourceMinutes then Some minutesChoices
  else if String.eqb name ChoiceSourcePosts then Some postsChoices
  else if String.eqb name ChoiceSourceDone then Some doneChoices
  else if String.eqb name ChoiceSourceSeconds then Some secondsChoices
  else if String.eqb name ChoiceSourceNotice then Some noticeChoices
  else if String.eqb name ChoiceSourceLines then Some linesChoices
  else None.

(** [strconv.Atoi(strings.TrimSpace(value))]. *)
Definition parse_count (value : string) : option Z := atoi (trim_space value).

(** The five validators differ in their bounds and in the message. *)
Definition validate_count (lo hi : Z) (message value : string) : option error :=
  let bad := Some (Errorf message [value; itoa hi] [Sentinel ErrInvalidOption]) in
  match parse_count value with
  | None => bad
  | Some n => if (n <? lo) || (hi <? n) then bad else None
  end.

Definition validateDays : string → option error :=
  validate_count 0 maxDeleteAfterDays "%q is not a day count between 0 and %d: %w".
Definition validateMinutes : string → option error :=
  validate_count 1 maxIdleMinutes "%q is not a minute count between 1 and %d: %w".
Definition validateMegabytes : string → option error :=
  validate_count 1 maxInboxMB "%q is not a megabyte count between 1 and %d: %w".
Definition validateSeconds : string → option error :=
  validate_count 0 maxSeconds "%q is not a second count between 0 and %d: %w".
Definition validateLines : string → option error :=
  validate_count 0 maxLines "%q is not a line count between 0 and %d: %w".

(** ** The registry *)

Definition OptionGroupSpecs : list OptionGroup :=
  [mkOptionGroup GroupSync "Sync" "What the mirror writes to Telegram.";
   mkOptionGroup GroupQuiet "Quiet" "Less noise while you are at the machine.";
   mkOptionGroup GroupPosts "Posts" "What a topic receives from its agent: questions, done posts, reactions.";
   mkOptionGroup GroupInbox "Inbox" "Files you send to a topic: saved on this machine and handed to the agent as a path.";
   mkOptionGroup GroupAppearance "Appearance" "How topics and status lines look.";
   mkOptionGroup GroupPrivacy "Privacy" "What never leaves this machine.";
   mkOptionGroup GroupTopics "Topics" "Lifecycle of the forum topics."].

Definition iconDescription (st : Status) : string :=
  if String.eqb st StatusWorking then "Topic icon while the agent is working."
  else if String.eqb st StatusIdle then "Topic icon while the agent waits at its prompt."
  else if String.eqb st StatusBlocked then "Topic icon while the agent asks a question or waits for approval."
  else if String.eqb st StatusDone then "Topic icon after the agent finished its turn."
  else if String.eqb st StatusUnknown then "Topic icon when Herdr cannot tell the state."
  else if String.eqb st StatusExited then "Topic icon after the agent's pane closed." else "".

Definition first_specs : list OptionSpec :=
  [mkOptionSpec OptionSyncEnabled GroupSync "Herdr → Telegram sync"
     "Mirror Herdr agents into Telegram topics. Off: no topic edits and no screen posts until it is on again."
     KindBool "true" "" None;
   mkOptionSpec OptionSyncDashboard GroupSync "Dashboard in General"
     "One pinned message in General, edited in place and never ringing: every live agent with its status, how long it has been in it and a link to its topic. Off unpins and deletes it."
     KindBool "true" "" None;
   mkOptionSpec OptionQuietEnabled GroupQuiet "Quiet while at the desk"
     "While you are typing on this machine, topic edits wait and screen posts are silent; everything catches up when you leave."
     KindBool "false" "" None;
   mkOptionSpec OptionQuietIdleMinutes GroupQuiet "Away after"
     "Minutes without keyboard or mouse input before you count as away."
     KindChoice "3" ChoiceSourceMinutes (Some validateMinutes);
   mkOptionSpec OptionQuietTopics GroupQuiet "Hold topic edits"
     "While at the desk, no topic is created, renamed, closed or given a new icon; each of those rings the phone."
     KindBool "true" "" None;
   mkOptionSpec OptionQuietPosts GroupQuiet "Screen posts"
     "While at the desk: Silent posts without sound, Held waits until you leave, Normal posts as usual."
     KindChoice PostsSilent ChoiceSourcePosts None;
   mkOptionSpec OptionQuietReannounce GroupQuiet "Re-announce on leaving"
     "When you leave, post the screen of every agent still waiting, with sound, once per question."
     KindBool "true" "" None;
   mkOptionSpec OptionPostsDone GroupPosts "Done post"
     "What is posted when an agent finishes: Screen is the last 12 lines of the terminal, Reply is the agent's last message from its transcript, Formatted renders that message with bold, lists, links and code."
     KindChoice DoneScreen ChoiceSourceDone None;
   mkOptionSpec OptionPostsMeta GroupPosts "Turn summary line"
     "End every done post with one line from the agent's transcript: how long the turn took, the model, how many files it edited and how many tokens it wrote. Claude Code only; without a transcript the post ends as before."
     KindBool "true" "" None;
   mkOptionSpec OptionPostsFold GroupPosts "Fold long replies after"
     "A done post taken from the transcript (Reply or Formatted) with more lines than this arrives collapsed: Telegram shows its first lines and an arrow to open the rest. The summary line stays visible. Off never folds; Screen posts are never folded."
     KindChoice "20" ChoiceSourceLines (Some validateLines);
   mkOptionSpec OptionPostsChrome GroupPosts "Trim the input frame"
     "Cut Claude Code's input box, status line and mode hint from the bottom of every screen post so it ends on the agent's last line. A question's options are never cut. Off posts the screen as captured."
     KindBool "true" "" None;
   mkOptionSpec OptionPostsReactions GroupPosts "React to prompts"
     "👀 on your message once the agent took it, 👌 when that turn ends. Off (default): no reactions."
     KindBool "false" "" None;
   mkOptionSpec OptionPostsPager GroupPosts "Questions in the bot's chat"
     "On: a question from an agent is posted into its topic without a sound and sent to you in the bot's private chat with a sound and a link to the topic. Mute the group in Telegram and only questions ring. Off: the topic post rings, nothing is sent to the private chat."
     KindBool "true" "" None;
   mkOptionSpec OptionPostsBlockedDelay GroupPosts "Question delay"
     "Wait this long after an agent asks before posting, and stay silent when it was answered in Herdr meanwhile; the better of two screen captures is posted. Off posts after the usual 1.5 s."
     KindChoice "0" ChoiceSourceSeconds (Some validateSeconds);
   mkOptionSpec OptionPostsMinSeconds GroupPosts "Skip short done posts"
     "A finished turn shorter than this posts nothing. Off posts every done screen."
     KindChoice "0" ChoiceSourceSeconds (Some validateSeconds);
   mkOptionSpec OptionInboxEnabled GroupInbox "Accept files"
     "Photos, documents, voice notes, audio and video sent to a topic are saved to the inbox and the agent is prompted with the path. Off: such messages are refused with a notice."
     KindBool "true" "" None;
   mkOptionSpec OptionInboxMaxMB GroupInbox "Largest file"
     "Files above this size are refused. Telegram lets bots download 20 MB at most."
     KindChoice "20" ChoiceSourceMegabytes (Some validateMegabytes);
   mkOptionSpec OptionInboxDeleteAfterDays GroupInbox "Delete files after"
     "Inbox files older than this are deleted once a day. Off keeps them."
     KindChoice "7" ChoiceSourceDays (Some validateDays)].

Definition icon_spec (st : Status) : OptionSpec :=
  mkOptionSpec (IconKey st) GroupAppearance st (iconDescription st) KindChoice (Emoji st)
    ChoiceSourceIcons None.

Definition last_specs : list OptionSpec :=
  [mkOptionSpec OptionRedact GroupPrivacy "Redact secrets"
     "Mask API keys, tokens, passwords and private keys in every screen posted to Telegram."
     KindBool "true" "" None;
   mkOptionSpec OptionDeleteAfterDays GroupTopics "Delete closed topics after"
     "Delete the topic of an exited agent once it has been closed for this long, and forget it. Off keeps every topic."
     KindChoice "30" ChoiceSourceDays (Some validateDays);
   mkOptionSpec OptionNoticeDelay GroupTopics "Keep icon notices for"
     ("How long the " +:+ dquote +:+ "changed the topic icon" +:+ dquote +:+ " notice stays before the daemon deletes it. Clients learn the new icon from that notice; a client that was asleep when it was deleted keeps drawing the old icon until it next opens the topic. Keep leaves every notice in place.")
     KindChoice "20" ChoiceSourceNotice (Some validateSeconds)].

Definition buildOptionSpecs : list OptionSpec :=
  first_specs ++ map icon_spec iconStatuses ++ last_specs.
Definition OptionSpecs : list OptionSpec := buildOptionSpecs.

Definition OptionGroups : list OptionGroup := OptionGroupSpecs.

Definition OptionsInGroup (group : string) : list OptionSpec :=
  List.filter (λ s, String.eqb (OptGroup s) group) OptionSpecs.

Definition LookupOption (key : string) : option OptionSpec :=
  List.find (λ s, String.eqb (OptKey s) key) OptionSpecs.

Definition LookupOptionGroup (name : string) : option OptionGroup :=
  List.find (λ g, String.eqb (GroupName g) name) OptionGroupSpecs.

(** ** Choice words *)

Definition postsWord (value : string) : string :=
  let m := trim_space value in
  if String.eqb m PostsSilent then "Silent"
  else if String.eqb m PostsHeld then "Held"
  else if String.eqb m PostsNormal then "Normal"
  else value.

Definition doneWord (value : string) : string :=
  let m := trim_space value in
  if String.eqb m DoneScreen then "Screen"
  else if String.eqb m DoneReply then "Reply"
  else if String.eqb m DoneFormatted then "Formatted"
  else value.

(** The inner switch of one case: the value itself when it is no number, a
    word for zero when the case has one, else the number with its suffix. *)
Definition count_word (value : string) (zero : option string) (word : Z → string) : string :=
  match parse_count value with
  | None => value
  | Some n =>
    match zero with
    | Some w => if n =? 0 then w else word n
    | None => word n
    end
  end.

Definition ChoiceLabel (spec : OptionSpec) (value : string) : string :=
  let c := OptChoices spec in
  if String.eqb c ChoiceSourceLines then count_word value (Some "Off") (λ n, itoa n +:+ " lines")
  else if String.eqb c ChoiceSourceNotice
  then count_word value (Some "Keep") (λ n, itoa n +:+ " s")
  else if String.eqb c ChoiceSourceMegabytes then count_word value None (λ n, itoa n +:+ " MB")
  else if String.eqb c ChoiceSourceDays
  then count_word value (Some "Off") (λ n, if n =? 1 then "1 day" else itoa n +:+ " days")
  else if String.eqb c ChoiceSourceMinutes then count_word value None (λ n, itoa n +:+ " min")
  else if String.eqb c ChoiceSourceSeconds
  then count_word value (Some "Off") (λ n, itoa n +:+ " s")
  else if String.eqb c ChoiceSourcePosts then postsWord value
  else if String.eqb c ChoiceSourceDone then doneWord value
  else value.

Definition ChoiceButton (spec : OptionSpec) (value : string) : string :=
  let c := OptChoices spec in
  if String.eqb c ChoiceSourceLines then count_word value (Some "Off") itoa
  else if String.eqb c ChoiceSourceNotice
  then count_word value (Some "Keep") (λ n, itoa n +:+ "s")
  else if String.eqb c ChoiceSourceMegabytes then count_word value None (λ n, itoa n +:+ "MB")
  else if String.eqb c ChoiceSourceDays then count_word value (Some "Off") (λ n, itoa n +:+ "d")
  else if String.eqb c ChoiceSourceMinutes then count_word value None (λ n, itoa n +:+ "m")
  else if String.eqb c ChoiceSourceSeconds
  then count_word value (Some "Off") (λ n, itoa n +:+ "s")
  else if String.eqb c ChoiceSourcePosts then postsWord value
  else if String.eqb c ChoiceSourceDone then doneWord value
  else value.

(** ** The value bag *)

Record Options := mkOptions { values : gmap string string }.

Definition DefaultOptions : Options := mkOptions ∅.

(** [Options.String]. *)
Definition OptString (o : Options) (key : string) : string :=
  match values o !! key with
  | Some v => v
  | None => match LookupOption key with Some spec => Default spec | None => "" end
  end.

Definition OptBool (o : Options) (key : string) : bool := String.eqb (OptString o key) "true".

Definition is_bool_word (v : string) : bool := String.eqb v "true" || String.eqb v "false".
Definition is_kind_bool (k : OptionKind) : bool := match k with KindBool => true | _ => false end.

(** The pair [(Options, error)]; [None] is the nil error. *)
Definition With (o : Options) (key value : string) : Options * option error :=
  match LookupOption key with
  | None => (o, Some (Errorf "option %q: %w" [key] [Sentinel ErrUnknownOption]))
  | Some spec =>
    if is_kind_bool (OptKind spec) && negb (is_bool_word value)
    then (o, Some (Errorf "option %q: %q is not a bool: %w" [key; value] [Sentinel ErrInvalidOption]))
    else (mkOptions (<[key := value]> (values o)), None)
  end.

Definition Values (o : Options) : gmap string string :=
  foldl (λ out s, <[OptKey s := OptString o (OptKey s)]> out) ∅ OptionSpecs.

Definition IsDefault (o : Options) (key : string) : bool :=
  match LookupOption key with
  | Some spec => String.eqb (OptString o key) (Default spec)
  | None => false
  end.

(** ** Typed readers

    [time.Duration(n) * unit] is a product of [int64]. *)

Definition SyncEnabled (o : Options) : bool := OptBool o OptionSyncEnabled.
Definition DashboardEnabled (o : Options) : bool := OptBool o OptionSyncDashboard.
Definition PagerEnabled (o : Options) : bool := OptBool o OptionPostsPager.
Definition RedactEnabled (o : Options) : bool := OptBool o OptionRedact.
Definition InboxEnabled (o : Options) : bool := OptBool o OptionInboxEnabled.
Definition QuietEnabled (o : Options) : bool := OptBool o OptionQuietEnabled.
Definition QuietTopics (o : Options) : bool := OptBool o OptionQuietTopics.
Definition QuietReannounce (o : Options) : bool := OptBool o OptionQuietReannounce.
Definition PostsReactions (o : Options) : bool := OptBool o OptionPostsReactions.
Definition PostsChrome (o : Options) : bool := OptBool o OptionPostsChrome.
Definition PostsMeta (o : Options) : bool := OptBool o OptionPostsMeta.

Definition days_of (n : option Z) : Duration :=
  match n with
  | None => 0
  | Some n => if n <=? 0 then 0 else wrap64 (wrap64 (n * 24) * Hour)
  end.
Definition DeleteAfter (o : Options) : Duration :=
  days_of (parse_count (OptString o OptionDeleteAfterDays)).
Definition InboxDeleteAfter (o : Options) : Duration :=
  days_of (parse_count (OptString o OptionInboxDeleteAfterDays)).

Definition InboxMaxBytes (o : Options) : Z :=
  let n := match parse_count (OptString o OptionInboxMaxMB) with
           | None => maxInboxMB
           | Some n => if (n <? 1) || (maxInboxMB <? n) then maxInboxMB else n
           end in
  wrap64 (wrap64 (n * 1024) * 1024).

Definition QuietIdle (o : Options) : Duration :=
  match parse_count (OptString o OptionQuietIdleMinutes) with
  | None => defaultQuietIdle
  | Some n => if n <? 1 then defaultQuietIdle else wrap64 (n * Minute)
  end.

Definition QuietPosts (o : Options) : PostsMode :=
  let m := trim_space (OptString o OptionQuietPosts) in
  if existsb (String.eqb m) [PostsSilent; PostsHeld; PostsNormal] then m else PostsSilent.

Definition PostsDone (o : Options) : DoneMode :=
  let m := trim_space (OptString o OptionPostsDone) in
  if existsb (String.eqb m) [DoneScreen; DoneReply; DoneFormatted] then m else DoneScreen.

Definition seconds (o : Options) (key : string) : Duration :=
  match parse_count (OptString o key) with
  | None => 0
  | Some n => if n <=? 0 then 0 else wrap64 (n * Second)
  end.
Definition BlockedDelay (o : Options) : Duration := seconds o OptionPostsBlockedDelay.
Definition MinTurn (o : Options) : Duration := seconds o OptionPostsMinSeconds.

Definition FoldAfter (o : Options) : Z :=
  match parse_count (OptString o OptionPostsFold) with
  | None => defaultFoldAfter
  | Some n => if (n <? 0) || (maxLines <? n) then defaultFoldAfter else n
  end.

(** [n, _ = strconv.Atoi(spec.Default)]: zero when that fails. *)
Definition default_notice : Z :=
  match LookupOption OptionNoticeDelay with
  | Some spec => default 0 (atoi (Default spec))
  | None => 0
  end.

Definition NoticeDelay (o : Options) : Duration * bool :=
  let n := match parse_count (OptString o OptionNoticeDelay) with
           | None => default_notice
           | Some n => if n <? 0 then default_notice else n
           end in
  if n =? 0 then (0, false) else (wrap64 (n * Second), true).

(** ** Status icons *)

Record StatusIcons := mkStatusIcons {
  Working : string; Idle : string; Blocked : string; Done : string; Unknown : string;
  Exited : string }.

Definition OptStatusIcons (o : Options) : StatusIcons :=
  let icon st := OptString o (IconKey st) in
  mkStatusIcons (icon StatusWorking) (icon StatusIdle) (icon StatusBlocked) (icon StatusDone)
    (icon StatusUnknown) (icon StatusExited).

Definition DefaultStatusIcons : StatusIcons := OptStatusIcons DefaultOptions.

Definition IconFor (s : StatusIcons) (st : Status) : string :=
  if String.eqb st StatusWorking then Working s
  else if String.eqb st StatusIdle then Idle s
  else if String.eqb st StatusBlocked then Blocked s
  else if String.eqb st StatusDone then Done s
  else if String.eqb st StatusExited then Exited s
  else Unknown s.

Definition variation_selector : string := encode_rune 65039.
Definition emojiKey (e : string) : string := replace_all e variation_selector "".

(** The loop of [Duplicate] over the remaining statuses. *)
Fixpoint find_duplicate (s : StatusIcons) (seen : gmap string Status) (sts : list Status)
    : option (Status * Status) :=
  match sts with
  | [] => None
  | st :: sts' =>
    let key := emojiKey (IconFor s st) in
    if String.eqb key "" then find_duplicate s seen sts'
    else match seen !! key with
         | Some prev => Some (prev, st)
         | None => find_duplicate s (<[key := st]> seen) sts'
         end
  end.
Definition Duplicate (s : StatusIcons) : option (Status * Status) := find_duplicate s ∅ iconStatuses.

Definition UsedBy (s : StatusIcons) (emoji : string) : option Status :=
  let want := emojiKey emoji in
  if String.eqb want "" then None
  else List.find (λ st, String.eqb (emojiKey (IconFor s st)) want) iconStatuses.

(** ** Validation *)

(** [ChoiceSource]; a nil source is [None]. *)
Definition ChoiceSource := option (string → list string).

Definition containsEmoji (lst : list string) (v : string) : bool :=
  existsb (λ e, String.eqb (emojiKey e) (emojiKey v)) lst.

Definition option_error (format key : string) (args : list string) (e : error) : option error :=
  Some (Errorf format (key :: args) [e]).

(** One turn of the loop of [ValidateOptions]. *)
Definition validate_spec (choices : ChoiceSource) (v : string) (spec : OptionSpec) : option error :=
  let key := OptKey spec in
  match OptKind spec with
  | KindBool =>
    if is_bool_word v then None
    else option_error "option %q: %q is not a bool: %w" key [v] (Sentinel ErrInvalidOption)
  | KindChoice =>
    if String.eqb v "" then option_error "option %q: empty: %w" key [] (Sentinel ErrInvalidOption)
    else
      match OptValidate spec with
      | Some validate =>
        match validate v with
        | Some err => option_error "option %q: %w" key [] err
        | None => None
        end
      | None =>
        let lst := match StaticChoices (OptChoices spec) with
                   | Some l => l
                   | None => match choices with Some f => f (OptChoices spec) | None => [] end
                   end in
        if Nat.ltb 0 (length lst) && negb (containsEmoji lst v)
        then option_error "option %q: %q is not in the %s list: %w" key [v; OptChoices spec]
               (Sentinel ErrInvalidOption)
        else None
      end
  | KindText =>
    if String.eqb (trim_space v) ""
    then option_error "option %q: empty: %w" key [] (Sentinel ErrInvalidOption) else None
  end.

Fixpoint validate_specs (o : Options) (choices : ChoiceSource) (specs : list OptionSpec) : option error :=
  match specs with
  | [] => None
  | spec :: specs' =>
    match validate_spec choices (OptString o (OptKey spec)) spec with
    | Some e => Some e
    | None => validate_specs o choices specs'
    end
  end.

Definition ValidateOptions (o : Options) (choices : ChoiceSource) : option error :=
  match validate_specs o choices OptionSpecs with
  | Some e => Some e
  | None =>
    match Duplicate (OptStatusIcons o) with
    | Some (a, b) =>
      Some (Errorf "%w: %s and %s share %s" [a; b; IconFor (OptStatusIcons o) a]
              [Sentinel ErrDuplicateIcon])
    | None => None
    end
  end.

(** One turn of the loop of [SanitizeOptions]: (clean, dropped). *)
Definition sanitize_step (o : Options) (choices : ChoiceSource)
    (acc : Options * list string) (spec : OptionSpec) : Options * list string :=
  let '(clean, dropped) := acc in
  let value := OptString o (OptKey spec) in
  if String.eqb value (Default spec) then (clean, dropped)
  else
    let '(next, err) := With clean (OptKey spec) value in
    let err := match err with None => ValidateOptions next choices | Some e => Some e end in
    match err with
    | Some _ => (clean, dropped ++ [OptKey spec])
    | None => (next, dropped)
    end.

Definition SanitizeOptions (o : Options) (choices : ChoiceSource) : Options * list string :=
  foldl (sanitize_step o choices) (DefaultOptions, []) OptionSpecs.
