(* ===== verification/OptionProps.v ===== *)
(** Theorems about the options of OptionRegistry.v: what a validated bag
    guarantees to its readers, and what sanitising a bag keeps and drops. *)
From S2P Require Import Prelude GoStrings Errors Status OptionRegistry.

Local Open Scope Z_scope.

(** ** The registry *)

Lemma OptionKeys_NoDup : NoDup (map OptKey OptionSpecs).
Proof. apply (bool_decide_unpack _). by vm_compute. Qed.

Lemma find_key_in specs spec :
  NoDup (map OptKey specs) → spec ∈ specs →
  List.find (λ s, String.eqb (OptKey s) (OptKey spec)) specs = Some spec.
Proof.
  induction specs as [|s specs IH]; [by intros _ ?%elem_of_nil|].
  cbn [map List.find]. intros [Hn Hd]%NoDup_cons [->|Hin]%elem_of_cons.
  - by rewrite String.eqb_refl.
  - destruct (String.eqb_spec (OptKey s) (OptKey spec)) as [E|]; [|by apply IH].
    destruct Hn. rewrite E. apply list_elem_of_In, in_map, list_elem_of_In, Hin.
Qed.

Lemma LookupOption_in spec : spec ∈ OptionSpecs → LookupOption (OptKey spec) = Some spec.
Proof. apply find_key_in, OptionKeys_NoDup. Qed.

Lemma LookupOption_Some key spec : LookupOption key = Some spec → spec ∈ OptionSpecs ∧ OptKey spec = key.
Proof.
  intros [Hin E]%List.find_some. split; [by apply list_elem_of_In|]. by apply String.eqb_eq.
Qed.

Lemma IconKey_spec st : st ∈ iconStatuses → icon_spec st ∈ OptionSpecs.
Proof.
  intros Hst. unfold OptionSpecs, buildOptionSpecs. rewrite !elem_of_app. right. left.
  apply list_elem_of_In, in_map, list_elem_of_In, Hst.
Qed.

(** The default of a bool option is a bool. *)
Lemma default_bool spec :
  spec ∈ OptionSpecs → is_kind_bool (OptKind spec) && negb (is_bool_word (Default spec)) = false.
Proof.
  intros Hin%list_elem_of_In.
  assert (H : forallb (λ s, negb (is_kind_bool (OptKind s) && negb (is_bool_word (Default s)))) OptionSpecs = true)
    by (vm_compute; reflexivity).
  rewrite forallb_forall in H. by apply negb_true_iff, H.
Qed.

(** The option [key] is a choice checked as a count between [lo] and [hi]. *)
Definition counted (key : string) (lo hi : Z) : Prop :=
  match LookupOption key with
  | Some spec => OptKind spec = KindChoice ∧ ∃ msg, OptValidate spec = Some (validate_count lo hi msg)
  | None => False
  end.

Lemma counted_options :
  counted OptionDeleteAfterDays 0 maxDeleteAfterDays ∧
  counted OptionInboxDeleteAfterDays 0 maxDeleteAfterDays ∧
  counted OptionQuietIdleMinutes 1 maxIdleMinutes ∧
  counted OptionInboxMaxMB 1 maxInboxMB ∧
  counted OptionPostsBlockedDelay 0 maxSeconds ∧
  counted OptionPostsMinSeconds 0 maxSeconds ∧
  counted OptionPostsFold 0 maxLines ∧
  counted OptionNoticeDelay 0 maxSeconds.
Proof. split_and!; (split; [reflexivity|eexists; reflexivity]). Qed.

(** The registry is used through the lemmas above. *)
#[local] Opaque OptionSpecs.

(** ** The value bag *)

Lemma OptString_default spec : spec ∈ OptionSpecs → OptString DefaultOptions (OptKey spec) = Default spec.
Proof. intros Hin. unfold OptString. cbn [values DefaultOptions]. by rewrite lookup_empty, LookupOption_in. Qed.

(** The bag after [With] stores the value. *)
Definition bag_set (o : Options) (key value : string) : Options := mkOptions (<[key := value]> (values o)).

Lemma OptString_set o key value k :
  OptString (bag_set o key value) k = if decide (k = key) then value else OptString o k.
Proof.
  unfold OptString, bag_set. cbn [values]. case_decide as H.
  - subst. by rewrite lookup_insert_eq.
  - by rewrite lookup_insert_ne.
Qed.

Lemma With_cases o key value o' e :
  With o key value = (o', e) →
  (e = None ∧ o' = bag_set o key value ∧ is_Some (LookupOption key)) ∨
  (∃ err, e = Some err ∧ o' = o ∧
     (errors_is err ErrUnknownOption = true ∧ LookupOption key = None ∨
      errors_is err ErrInvalidOption = true ∧ is_bool_word value = false)).
Proof.
  unfold With. destruct (LookupOption key) as [spec|].
  - destruct (is_kind_bool _ && _) eqn:E; intros [= <- <-].
    + right. eexists. split_and!; [done..|]. right. split; [done|].
      apply andb_true_iff in E as [_ E]. by apply negb_true_iff in E.
    + left. split_and!; [done..|]. by eexists.
  - intros [= <- <-]. right. eexists. split_and!; [done..|]. by left.
Qed.

(** ** Duplicate icons *)

Definition distinct_icons (s : StatusIcons) : Prop :=
  ∀ a b, a ∈ iconStatuses → b ∈ iconStatuses →
    emojiKey (IconFor s a) ≠ "" → emojiKey (IconFor s a) = emojiKey (IconFor s b) → a = b.

Lemma find_duplicate_None s seen sts :
  find_duplicate s seen sts = None → NoDup sts →
  (∀ a, a ∈ sts → emojiKey (IconFor s a) ≠ "" → seen !! emojiKey (IconFor s a) = None) ∧
  (∀ a b, a ∈ sts → b ∈ sts → emojiKey (IconFor s a) ≠ "" →
     emojiKey (IconFor s a) = emojiKey (IconFor s b) → a = b).
Proof.
  revert seen. induction sts as [|st sts IH]; intros seen; cbn [find_duplicate].
  { intros _ _. split; intros a; [|intros b]; by intros ?%elem_of_nil. }
  intros H [Hn Hd]%NoDup_cons.
  destruct (String.eqb_spec (emojiKey (IconFor s st)) "") as [E|E].
  - destruct (IH _ H Hd) as [H1 H2]. split.
    + intros a [->|Ha]%elem_of_cons ?; [done|by apply H1].
    + intros a b [->|Ha]%elem_of_cons [->|Hb]%elem_of_cons ??; try congruence. by apply H2.
  - destruct (seen !! _) eqn:Hs; [done|]. destruct (IH _ H Hd) as [H1 H2]. split.
    + intros a [->|Ha]%elem_of_cons Hne; [done|]. specialize (H1 a Ha Hne).
      by apply lookup_insert_None in H1 as [? _].
    + intros a b [->|Ha]%elem_of_cons [->|Hb]%elem_of_cons Hne Heq; [done| | |by apply H2].
      * assert (Hne' : emojiKey (IconFor s b) ≠ "") by congruence.
        specialize (H1 b Hb Hne'). apply lookup_insert_None in H1 as [_ H1]. congruence.
      * specialize (H1 a Ha Hne). apply lookup_insert_None in H1 as [_ H1]. congruence.
Qed.

Lemma find_duplicate_none s seen sts :
  NoDup sts →
  (∀ a, a ∈ sts → emojiKey (IconFor s a) ≠ "" → seen !! emojiKey (IconFor s a) = None) →
  (∀ a b, a ∈ sts → b ∈ sts → emojiKey (IconFor s a) ≠ "" →
     emojiKey (IconFor s a) = emojiKey (IconFor s b) → a = b) →
  find_duplicate s seen sts = None.
Proof.
  revert seen. induction sts as [|st sts IH]; intros seen; cbn [find_duplicate]; [done|].
  intros [Hn Hd]%NoDup_cons H1 H2.
  assert (Hrest : ∀ a b, a ∈ sts → b ∈ sts → emojiKey (IconFor s a) ≠ "" →
     emojiKey (IconFor s a) = emojiKey (IconFor s b) → a = b).
  { intros a b Ha Hb. apply H2; by right. }
  destruct (String.eqb_spec (emojiKey (IconFor s st)) "") as [E|E].
  - apply IH; [done| |done]. intros a Ha. apply H1. by right.
  - rewrite (H1 st) by (done || by left). apply IH; [done| |done].
    intros a Ha Hne. apply lookup_insert_None. split; [apply H1; [by right|done]|].
    intros Heq. enough (st = a) by (subst; done). apply H2; [by left|by right|done|done].
Qed.

Lemma iconStatuses_NoDup : NoDup iconStatuses.
Proof. apply (bool_decide_unpack _). by vm_compute. Qed.

Lemma Duplicate_None s : Duplicate s = None ↔ distinct_icons s.
Proof.
  unfold Duplicate, distinct_icons. split.
  - intros H. by apply find_duplicate_None in H as [_ H]; [|apply iconStatuses_NoDup].
  - intros H. apply find_duplicate_none; [apply iconStatuses_NoDup|by intros; apply lookup_empty|done].
Qed.

(** ** A valid bag *)

Definition spec_ok (choices : ChoiceSource) (v : string) (spec : OptionSpec) : Prop :=
  validate_spec choices v spec = None.

Record Valid (o : Options) (choices : ChoiceSource) : Prop := {
  valid_spec spec : spec ∈ OptionSpecs → spec_ok choices (OptString o (OptKey spec)) spec;
  valid_icons : distinct_icons (OptStatusIcons o)
}.

Lemma validate_specs_None o choices specs :
  validate_specs o choices specs = None ↔
  ∀ spec, spec ∈ specs → spec_ok choices (OptString o (OptKey spec)) spec.
Proof.
  unfold spec_ok. induction specs as [|s specs IH]; cbn [validate_specs].
  { split; [by intros _ ? ?%elem_of_nil|done]. }
  destruct (validate_spec _ _ s) as [e|] eqn:E.
  - split; [done|]. intros H. specialize (H s). rewrite E in H. by apply H; left.
  - rewrite IH. split; intros H spec; [|intros ?; apply H; by right].
    intros [->|Hin]%elem_of_cons; [done|by apply H].
Qed.

Lemma ValidateOptions_None o choices : ValidateOptions o choices = None ↔ Valid o choices.
Proof.
  unfold ValidateOptions. destruct (validate_specs o choices OptionSpecs) as [e|] eqn:E.
  - split; [done|]. intros [H _]. by rewrite (proj2 (validate_specs_None _ _ _) H) in E.
  - rewrite validate_specs_None in E. destruct (Duplicate _) as [[a b]|] eqn:Hd.
    + split; [done|]. intros [_ H]. apply Duplicate_None in H. congruence.
    + apply Duplicate_None in Hd. by split.
Qed.

Lemma IconFor_icons o st : st ∈ iconStatuses → IconFor (OptStatusIcons o) st = OptString o (IconKey st).
Proof.
  intros Hst. unfold iconStatuses in Hst.
  repeat (apply elem_of_cons in Hst as [->|Hst]; [done|]). by apply elem_of_nil in Hst.
Qed.

(** ** Sanitising *)

Section Sanitize.
Context (o : Options) (choices : ChoiceSource).

Definition accepts (next : Options) : bool :=
  match ValidateOptions next choices with None => true | Some _ => false end.

Lemma accepts_valid next : accepts next = true ↔ Valid next choices.
Proof. unfold accepts. rewrite <-ValidateOptions_None. by destruct (ValidateOptions next choices). Qed.

(** A value [With] refuses would be refused by the validation as well. *)
Lemma sanitize_step_eq clean dropped spec :
  spec ∈ OptionSpecs →
  sanitize_step o choices (clean, dropped) spec =
  let key := OptKey spec in
  let value := OptString o key in
  if String.eqb value (Default spec) then (clean, dropped)
  else if accepts (bag_set clean key value) then (bag_set clean key value, dropped)
  else (clean, dropped ++ [key]).
Proof.
  intros Hin. unfold sanitize_step, accepts. cbv zeta. destruct (String.eqb _ (Default spec)); [done|].
  destruct (With clean (OptKey spec) (OptString o (OptKey spec))) as [next err] eqn:E.
  unfold With in E. rewrite LookupOption_in in E by done.
  destruct (is_kind_bool (OptKind spec) && _) eqn:Hb; simplify_eq.
  - destruct (ValidateOptions (bag_set _ _ _) choices) eqn:Hv; [done|]. exfalso.
    apply ValidateOptions_None in Hv as [Hv _]. specialize (Hv spec Hin). unfold spec_ok in Hv.
    rewrite OptString_set, decide_True in Hv by done. unfold validate_spec in Hv.
    apply andb_true_iff in Hb as [Hk Hb]. destruct (OptKind spec); [|done..].
    by destruct (is_bool_word _).
  - by destruct (ValidateOptions _ choices).
Qed.

(** The state of the loop after the specs [pre]. *)
Record SanitizeInv (pre : list OptionSpec) (clean : Options) (dropped : list string) : Prop := {
  san_valid : Valid clean choices;
  san_value spec : spec ∈ pre →
    OptString clean (OptKey spec) =
      if decide (OptKey spec ∈ dropped) then Default spec else OptString o (OptKey spec);
  san_keys key : is_Some (values clean !! key) → key ∈ map OptKey pre;
  san_dropped key : key ∈ dropped → key ∈ map OptKey pre
}.

Lemma key_in spec specs : spec ∈ specs → OptKey spec ∈ map OptKey specs.
Proof. intros. by apply list_elem_of_In, in_map, list_elem_of_In. Qed.

Lemma fresh_default pre clean dropped spec :
  SanitizeInv pre clean dropped → spec ∈ OptionSpecs → OptKey spec ∉ map OptKey pre →
  OptString clean (OptKey spec) = Default spec ∧ OptKey spec ∉ dropped.
Proof.
  intros Hi Hin Hn. split; [|by intros ?%(san_dropped _ _ _ Hi)].
  unfold OptString. rewrite LookupOption_in by done.
  destruct (values clean !! OptKey spec) eqn:E; [|done].
  destruct Hn. apply (san_keys _ _ _ Hi). by rewrite E.
Qed.

Lemma sanitize_step_inv pre clean dropped spec :
  SanitizeInv pre clean dropped → spec ∈ OptionSpecs → OptKey spec ∉ map OptKey pre →
  let r := sanitize_step o choices (clean, dropped) spec in SanitizeInv (pre ++ [spec]) r.1 r.2.
Proof.
  intros Hi Hin Hn. destruct (fresh_default _ _ _ _ Hi Hin Hn) as [Hdef Hnd].
  assert (Hne : ∀ s, s ∈ pre → OptKey s ≠ OptKey spec).
  { intros s Hs E. apply Hn. rewrite <-E. by apply key_in. }
  destruct Hi as [Hv Hval Hk Hd].
  rewrite sanitize_step_eq by done. cbv zeta.
  destruct (String.eqb_spec (OptString o (OptKey spec)) (Default spec)) as [Heq|Heq];
    [|destruct (accepts (bag_set clean _ _)) eqn:Hacc]; (split; cbn [fst snd]);
    rewrite ?map_app; cbn [map]; try done; try (intros k; rewrite elem_of_app; by auto).
  - intros s [Hs|Hs]%elem_of_app; [by apply Hval|]. apply list_elem_of_singleton in Hs as ->.
    rewrite decide_False, Heq by done. done.
  - by apply accepts_valid.
  - intros s [Hs|Hs]%elem_of_app; rewrite OptString_set.
    + rewrite decide_False by by apply Hne. by apply Hval.
    + apply list_elem_of_singleton in Hs as ->. by rewrite decide_True, decide_False.
  - intros k Hk'. rewrite elem_of_app, list_elem_of_singleton.
    destruct (decide (k = OptKey spec)); [by right|]. left. apply Hk.
    unfold bag_set in Hk'. cbn [values] in Hk'. by rewrite lookup_insert_ne in Hk'.
  - intros s [Hs|Hs]%elem_of_app.
    + rewrite Hval by done. specialize (Hne s Hs).
      destruct (decide (OptKey s ∈ dropped)); [rewrite decide_True|rewrite decide_False]; set_solver.
    + apply list_elem_of_singleton in Hs as ->. rewrite decide_True by set_solver. done.
  - intros k [Hk'|Hk']%elem_of_app; rewrite elem_of_app; set_solver.
Qed.

Lemma elem_of_middle {A} (x : A) pre post : x ∈ pre ++ x :: post.
Proof. apply elem_of_app. right. by left. Qed.

Lemma NoDup_keys_app pre spec post :
  NoDup (map OptKey (pre ++ spec :: post)) →
  OptKey spec ∉ map OptKey pre ∧ OptKey spec ∉ map OptKey post.
Proof.
  rewrite map_app. cbn [map]. intros (_ & Hd & [Hn _]%NoDup_cons)%NoDup_app.
  split; [|done]. intros H. apply (Hd _ H). by left.
Qed.

Lemma sanitize_inv pre post :
  Valid DefaultOptions choices → OptionSpecs = pre ++ post →
  let r := foldl (sanitize_step o choices) (DefaultOptions, []) pre in SanitizeInv pre r.1 r.2.
Proof.
  intros Hdef. revert post. induction pre as [|spec pre IH] using rev_ind; intros post E; cbv zeta.
  - simpl. split; [done| | |]; [by intros ? ?%elem_of_nil| |done].
    intros key [v Hv]. cbn in Hv. by rewrite lookup_empty in Hv.
  - rewrite foldl_app. cbn [foldl]. rewrite <-app_assoc in E. specialize (IH _ E).
    destruct (foldl _ _ pre) as [clean dropped]. apply sanitize_step_inv; [done| |].
    + rewrite E. apply elem_of_middle.
    + pose proof OptionKeys_NoDup as Hd. rewrite E in Hd. by apply NoDup_keys_app in Hd as [? _].
Qed.

Lemma sanitize_dropped_grows acc specs :
  (∀ s, s ∈ specs → s ∈ OptionSpecs) →
  ∃ extra, (foldl (sanitize_step o choices) acc specs).2 = acc.2 ++ extra ∧
    ∀ k, k ∈ extra → k ∈ map OptKey specs.
Proof.
  intros Hs. revert acc. induction specs as [|s specs IH]; intros [clean dropped].
  { exists []. rewrite app_nil_r. split; [done|by intros ? ?%elem_of_nil]. }
  cbn [foldl map]. rewrite sanitize_step_eq by (apply Hs; by left). cbv zeta.
  assert (Hs' : ∀ s, s ∈ specs → s ∈ OptionSpecs) by (intros; apply Hs; by right).
  destruct (String.eqb _ _); [|destruct (accepts _)].
  - destruct (IH Hs' (clean, dropped)) as (x & -> & Hx). exists x. set_solver.
  - edestruct (IH Hs') as (x & -> & Hx). exists x. set_solver.
  - edestruct (IH Hs') as (x & -> & Hx). exists (OptKey s :: x). cbn [snd].
    rewrite <-app_assoc. split; [done|]. set_solver.
Qed.
End Sanitize.

(** Sanitising what was sanitised replays the accepted steps. *)
Lemma sanitize_replay o choices pre post :
  Valid DefaultOptions choices → OptionSpecs = pre ++ post →
  let r := SanitizeOptions o choices in
  foldl (sanitize_step r.1 choices) (DefaultOptions, []) pre =
  ((foldl (sanitize_step o choices) (DefaultOptions, []) pre).1, []).
Proof.
  intros Hdef. cbv zeta. revert post. induction pre as [|spec pre IH] using rev_ind; intros post E; [done|].
  rewrite !foldl_app. cbn [foldl]. rewrite <-app_assoc in E. cbn [app] in E. rewrite (IH _ E).
  assert (Hin : spec ∈ OptionSpecs) by (rewrite E; apply elem_of_middle).
  pose proof (sanitize_inv o choices OptionSpecs [] Hdef (eq_sym (app_nil_r _))) as Hfull.
  pose proof OptionKeys_NoDup as Hd. rewrite E in Hd. apply NoDup_keys_app in Hd as [Hpre Hpost].
  pose proof (sanitize_inv o choices pre _ Hdef E) as Hi.
  assert (Hr : (SanitizeOptions o choices).2 = (foldl (sanitize_step o choices)
    (sanitize_step o choices (foldl (sanitize_step o choices) (DefaultOptions, []) pre) spec) post).2).
  { unfold SanitizeOptions. by rewrite E, foldl_app. }
  destruct (foldl (sanitize_step o choices) (DefaultOptions, []) pre) as [clean dropped].
  cbn [fst snd] in *. destruct (fresh_default _ _ _ _ _ _ Hi Hin Hpre) as [_ Hnd].
  destruct (sanitize_dropped_grows o choices
    (sanitize_step o choices (clean, dropped) spec) post) as (x & Ex & Hx).
  { intros s Hs. rewrite E, elem_of_app. right. by right. }
  rewrite Ex in Hr. clear Ex. rewrite !sanitize_step_eq in * by done. cbv zeta in *.
  change (foldl (sanitize_step o choices) (DefaultOptions, []) OptionSpecs)
    with (SanitizeOptions o choices) in Hfull.
  pose proof (san_value _ _ _ _ _ Hfull spec Hin) as Hval. rewrite Hval.
  destruct (String.eqb_spec (OptString o (OptKey spec)) (Default spec)) as [Heq|Heq].
  - case_decide; [by rewrite String.eqb_refl|]. by rewrite Heq, String.eqb_refl.
  - destruct (accepts choices (bag_set clean (OptKey spec) (OptString o (OptKey spec)))) eqn:Hacc.
    + rewrite decide_False by (rewrite Hr; set_solver).
      destruct (String.eqb_spec (OptString o (OptKey spec)) (Default spec)); [done|].
      by rewrite Hacc.
    + rewrite decide_True by (rewrite Hr; set_solver). by rewrite String.eqb_refl.
Qed.

(** Sanitising a bag read from a file always ends in a valid bag (when the
    defaults are valid for the icon list in force), every option either keeps its
    value or is reported as dropped and falls back to its default, only registry
    keys are reported, and sanitising the result again changes nothing. *)
Theorem SanitizeOptions_spec o choices (Hdef : ValidateOptions DefaultOptions choices = None) :
  let r := SanitizeOptions o choices in
  ValidateOptions r.1 choices = None ∧
  (∀ spec, spec ∈ OptionSpecs → OptString r.1 (OptKey spec) =
     if decide (OptKey spec ∈ r.2) then Default spec else OptString o (OptKey spec)) ∧
  (∀ key, key ∈ r.2 → is_Some (LookupOption key)) ∧
  SanitizeOptions r.1 choices = (r.1, []).
Proof.
  cbv zeta. rewrite ValidateOptions_None in *.
  pose proof (sanitize_inv o choices OptionSpecs [] Hdef (eq_sym (app_nil_r _))) as [Hv Hval _ Hd].
  change (foldl (sanitize_step o choices) (DefaultOptions, []) OptionSpecs)
    with (SanitizeOptions o choices) in *.
  split_and!; [done|done| |].
  - intros key Hk. apply Hd, list_elem_of_In, in_map_iff in Hk as (spec & <- & Hin%list_elem_of_In).
    rewrite LookupOption_in by done. by eexists.
  - apply (sanitize_replay o choices OptionSpecs [] Hdef). by rewrite app_nil_r.
Qed.

Definition one_icon : ChoiceSource := Some (λ _, ["⚡"; "✅"; "❓"; "🏆"; "👀"; "🏁"; "🔥"]).

Lemma SanitizeOptions_spec_witness :
  let o := mkOptions (list_to_map [("icons.working", "🔥"); ("posts.fold", "9999");
                                   ("icons.idle", "🔥"); ("no.such.key", "x")]) in
  let r := SanitizeOptions o one_icon in
  r.2 = ["posts.fold"; "icons.idle"] ∧ OptString r.1 "icons.working" = "🔥" ∧
  ValidateOptions r.1 one_icon = None.
Proof.
  cbv zeta. split; [vm_compute; reflexivity|]. split; [vm_compute; reflexivity|].
  apply SanitizeOptions_spec. vm_compute. reflexivity.
Defined.

(** No status shows the default icon of another one. *)
Definition icons_uncrossed (o : Options) : Prop :=
  ∀ a b, a ∈ iconStatuses → b ∈ iconStatuses → a ≠ b →
    emojiKey (OptString o (IconKey a)) ≠ emojiKey (OptString DefaultOptions (IconKey b)).

(** A bag that takes each value from a valid bag or from the defaults is valid
    when no icon of the one is a default icon of the other. *)
Lemma mixture_valid o m choices :
  Valid DefaultOptions choices → Valid o choices → icons_uncrossed o →
  (∀ spec, spec ∈ OptionSpecs → OptString m (OptKey spec) = OptString o (OptKey spec) ∨
                                OptString m (OptKey spec) = Default spec) →
  Valid m choices.
Proof.
  intros [Hd1 Hd2] [Ho1 Ho2] Hx Hm.
  assert (Hm' : ∀ spec, spec ∈ OptionSpecs → OptString m (OptKey spec) = OptString o (OptKey spec) ∨
     OptString m (OptKey spec) = OptString DefaultOptions (OptKey spec)).
  { intros spec Hin. rewrite OptString_default by done. auto. }
  split.
  - intros spec Hin. destruct (Hm' spec Hin) as [-> | ->]; auto.
  - intros a b Ha Hb. rewrite !IconFor_icons by done. intros Hne Heq.
    assert (Hab : ∀ st, st ∈ iconStatuses → OptString m (IconKey st) = OptString o (IconKey st) ∨
       OptString m (IconKey st) = OptString DefaultOptions (IconKey st)).
    { intros st Hst. apply (Hm' (icon_spec st)), IconKey_spec, Hst. }
    destruct (decide (a = b)) as [|Hn]; [done|exfalso].
    destruct (Hab a Ha) as [Ea|Ea], (Hab b Hb) as [Eb|Eb]; rewrite Ea in *; rewrite Eb in Heq.
    + apply Hn, Ho2; rewrite ?IconFor_icons by done; done.
    + by apply (Hx a b).
    + by apply (Hx b a).
    + apply Hn, Hd2; rewrite ?IconFor_icons by done; done.
Qed.

(** a valid bag whose icons do not use each other's defaults survives
    sanitising whole: nothing is dropped and every option keeps its value. *)
Theorem SanitizeOptions_keeps o choices
    (Hdef : ValidateOptions DefaultOptions choices = None)
    (Hval : ValidateOptions o choices = None) (Hx : icons_uncrossed o) :
  let r := SanitizeOptions o choices in
  r.2 = [] ∧ ∀ spec, spec ∈ OptionSpecs → OptString r.1 (OptKey spec) = OptString o (OptKey spec).
Proof.
  cbv zeta. rewrite ValidateOptions_None in *.
  assert (H : ∀ pre post, OptionSpecs = pre ++ post →
    (foldl (sanitize_step o choices) (DefaultOptions, []) pre).2 = []).
  { intros pre. induction pre as [|spec pre IH] using rev_ind; intros post E; [done|].
    rewrite foldl_app. cbn [foldl]. rewrite <-app_assoc in E. specialize (IH _ E).
    pose proof (sanitize_inv o choices pre _ Hdef E) as Hi.
    assert (Hin : spec ∈ OptionSpecs) by (rewrite E; apply elem_of_middle).
    pose proof OptionKeys_NoDup as Hd. rewrite E in Hd. apply NoDup_keys_app in Hd as [Hpre _].
    destruct (foldl _ _ pre) as [clean dropped]. cbn [fst snd] in *. subst dropped.
    rewrite sanitize_step_eq by done. cbv zeta. destruct (String.eqb _ _); [done|].
    enough (accepts choices (bag_set clean (OptKey spec) (OptString o (OptKey spec))) = true) as ->
      by done.
    apply accepts_valid, (mixture_valid o); [done..|]. intros s Hs. rewrite OptString_set.
    case_decide as Hk; [left; by rewrite Hk|].
    destruct (decide (OptKey s ∈ map OptKey pre)) as [Hsp|Hsp].
    - left. apply list_elem_of_In, in_map_iff in Hsp as (s' & Hk' & Hs'%list_elem_of_In).
      rewrite <-Hk'. rewrite (san_value _ _ _ _ _ Hi s' Hs').
      rewrite decide_False by by intros ?%elem_of_nil. done.
    - right. by apply (fresh_default _ _ _ _ _ _ Hi). }
  assert (Hnil : (SanitizeOptions o choices).2 = []) by (apply (H _ []); by rewrite app_nil_r).
  split; [done|]. intros spec Hin.
  pose proof (sanitize_inv o choices OptionSpecs [] Hdef (eq_sym (app_nil_r _))) as Hi.
  change (foldl (sanitize_step o choices) (DefaultOptions, []) OptionSpecs)
    with (SanitizeOptions o choices) in Hi.
  rewrite (san_value _ _ _ _ _ Hi spec Hin), Hnil. rewrite decide_False by by intros ?%elem_of_nil. done.
Qed.

Lemma SanitizeOptions_keeps_witness :
  let o := mkOptions {["icons.idle" := "🔥"]} in
  (SanitizeOptions o one_icon).2 = [].
Proof.
  cbv zeta. apply SanitizeOptions_keeps; [vm_compute; reflexivity..|].
  intros a b Ha Hb Hne.
  repeat (apply elem_of_cons in Ha as [->|Ha]; [|]); try by apply elem_of_nil in Ha.
  all: repeat (apply elem_of_cons in Hb as [->|Hb]; [vm_compute in Hne |- *; congruence|]).
  all: by apply elem_of_nil in Hb.
Defined.

(** ** Readers *)

Lemma validate_count_None lo hi msg v :
  validate_count lo hi msg v = None → ∃ n, parse_count v = Some n ∧ lo ≤ n ≤ hi.
Proof.
  unfold validate_count. destruct (parse_count v) as [n|]; [|done].
  destruct (Z.ltb_spec n lo), (Z.ltb_spec hi n); try done. intros _. exists n. split; [done|lia].
Qed.

Lemma valid_count o choices key lo hi :
  Valid o choices → counted key lo hi →
  ∃ n, parse_count (OptString o key) = Some n ∧ lo ≤ n ≤ hi.
Proof.
  intros [Hv _]. unfold counted. destruct (LookupOption key) as [spec|] eqn:E; [|done].
  apply LookupOption_Some in E as [Hin <-]. specialize (Hv spec Hin). unfold spec_ok, validate_spec in Hv.
  intros (Hk & msg & Hval). rewrite Hk, Hval in Hv. destruct (String.eqb _ ""); [done|].
  destruct (validate_count lo hi msg _) eqn:Ec; [done|]. by eapply validate_count_None.
Qed.

Lemma wrap_product n lo hi unit :
  lo ≤ n ≤ hi → int64_min ≤ lo * unit → hi * unit ≤ int64_max → 0 ≤ unit → wrap64 (n * unit) = n * unit.
Proof. intros. apply wrap64_id. unfold in_int64. nia. Qed.

Ltac small := unfold Hour, Minute, Second, int64_min, int64_max in *; lia.

(** The readers of the day, minute, second and size counts, on a count in range. *)
Lemma days_of_count n : 0 ≤ n ≤ maxDeleteAfterDays → days_of (Some n) = n * 24 * Hour.
Proof.
  unfold maxDeleteAfterDays. intros Hn. unfold days_of. destruct (Z.leb_spec n 0); [small|].
  rewrite (wrap_product n 0 3650) by small. apply wrap64_id. unfold in_int64. small.
Qed.

Lemma seconds_count o key n :
  parse_count (OptString o key) = Some n → 0 ≤ n ≤ maxSeconds → seconds o key = n * Second.
Proof.
  unfold maxSeconds, seconds. intros -> Hn. destruct (Z.leb_spec n 0); [small|].
  apply (wrap_product n 0 3600); small.
Qed.

(** On a valid bag no reader wraps around or falls back: each duration is
    exactly the stored count times its unit and within the documented bounds (ten
    years, one day, one hour), the inbox limit is between 1 and 20 MiB, a notice
    delay is positive exactly when notices are deleted. *)
Theorem readers_bounded o choices (Hval : ValidateOptions o choices = None) :
  let count key := parse_count (OptString o key) in
  (∃ n, count OptionDeleteAfterDays = Some n ∧ 0 ≤ n ≤ 3650 ∧ DeleteAfter o = n * 24 * Hour) ∧
  (∃ n, count OptionInboxDeleteAfterDays = Some n ∧ 0 ≤ n ≤ 3650 ∧ InboxDeleteAfter o = n * 24 * Hour) ∧
  (∃ n, count OptionQuietIdleMinutes = Some n ∧ 1 ≤ n ≤ 1440 ∧ QuietIdle o = n * Minute) ∧
  (∃ n, count OptionInboxMaxMB = Some n ∧ 1 ≤ n ≤ 20 ∧ InboxMaxBytes o = n * 1024 * 1024) ∧
  (∃ n, count OptionPostsBlockedDelay = Some n ∧ 0 ≤ n ≤ 3600 ∧ BlockedDelay o = n * Second) ∧
  (∃ n, count OptionPostsMinSeconds = Some n ∧ 0 ≤ n ≤ 3600 ∧ MinTurn o = n * Second) ∧
  (∃ n, count OptionPostsFold = Some n ∧ 0 ≤ n ≤ 1000 ∧ FoldAfter o = n) ∧
  (∃ n, count OptionNoticeDelay = Some n ∧ 0 ≤ n ≤ 3600 ∧
     NoticeDelay o = (n * Second, negb (n =? 0))).
Proof.
  apply ValidateOptions_None in Hval. cbv zeta.
  destruct counted_options as (H1 & H2 & H3 & H4 & H5 & H6 & H7 & H8).
  apply (valid_count _ _ _ _ _ Hval) in H1 as (n1 & E1 & H1).
  apply (valid_count _ _ _ _ _ Hval) in H2 as (n2 & E2 & H2).
  apply (valid_count _ _ _ _ _ Hval) in H3 as (n3 & E3 & H3).
  apply (valid_count _ _ _ _ _ Hval) in H4 as (n4 & E4 & H4).
  apply (valid_count _ _ _ _ _ Hval) in H5 as (n5 & E5 & H5).
  apply (valid_count _ _ _ _ _ Hval) in H6 as (n6 & E6 & H6).
  apply (valid_count _ _ _ _ _ Hval) in H7 as (n7 & E7 & H7).
  apply (valid_count _ _ _ _ _ Hval) in H8 as (n8 & E8 & H8).
  unfold DeleteAfter, InboxDeleteAfter, QuietIdle, InboxMaxBytes, BlockedDelay, MinTurn, FoldAfter,
    NoticeDelay, maxDeleteAfterDays, maxIdleMinutes, maxSeconds, maxInboxMB, maxLines in *.
  split_and!; eexists; (split_and!; [eassumption|lia..|]).
  - by erewrite E1, days_of_count.
  - by erewrite E2, days_of_count.
  - rewrite E3. destruct (Z.ltb_spec n3 1); [lia|]. apply (wrap_product n3 1 1440); small.
  - rewrite E4. destruct (Z.ltb_spec n4 1), (Z.ltb_spec 20 n4); try lia. simpl.
    rewrite (wrap_product n4 1 20) by small. apply wrap64_id. unfold in_int64. small.
  - by apply seconds_count.
  - by apply seconds_count.
  - rewrite E7. destruct (Z.ltb_spec n7 0), (Z.ltb_spec 1000 n7); done || lia.
  - rewrite E8. destruct (Z.ltb_spec n8 0); [lia|].
    destruct (Z.eqb_spec n8 0) as [->|]; [done|]. f_equal. apply (wrap_product n8 0 3600); small.
Qed.

Lemma readers_bounded_witness :
  let o := mkOptions {[OptionDeleteAfterDays := " +3650"]} in
  ∃ n, parse_count (OptString o OptionDeleteAfterDays) = Some n ∧ 0 ≤ n ≤ 3650 ∧
    DeleteAfter o = n * 24 * Hour.
Proof.
  cbv zeta. set (o := mkOptions _).
  assert (H : ValidateOptions o None = None) by (vm_compute; reflexivity).
  exact (proj1 (readers_bounded o None H)).
Defined.
