(* ===== verification/AppOptions.v ===== *)
(** internal/app/options.go: the options in force, changed by the operator
    through [Set] and [Reset] and saved before they take effect.

    The store is a port of the domain, so [Save] is a parameter over the state
    [W] of everything outside; a hook is a function on that state too, which
    makes the order of the save and of the hooks visible. *)
From S2P Require Import Prelude GoStrings Errors Status OptionRegistry OptionProps.

Local Open Scope Z_scope.

Section AppOptions.
Context {W : Type}.

Record optionHook := mkOptionHook { prefix : string; fn : string → Options → W → W }.

Record AppOptions := mkAppOptions {
  cur : Options;
  store : option (W → Options → W * option error);
  choices : ChoiceSource;
  hooks : list optionHook
}.

Definition NewOptions (c : Options) (s : option (W → Options → W * option error)) (ch : ChoiceSource)
    : AppOptions := mkAppOptions c s ch [].

Definition with_cur (o : AppOptions) (next : Options) : AppOptions :=
  mkAppOptions next (store o) (choices o) (hooks o).

Definition Choices_ (o : AppOptions) (name : string) : list string :=
  match StaticChoices name with
  | Some lst => lst
  | None => match choices o with Some f => f name | None => [] end
  end.

Definition OnChange (o : AppOptions) (p : string) (f : string → Options → W → W) : AppOptions :=
  mkAppOptions (cur o) (store o) (choices o) (hooks o ++ [mkOptionHook p f]).

(** The slice comparison [len(s) >= len(prefix) && s[:len(prefix)] == prefix]. *)
Definition hasPrefix (s p : string) : bool := String.eqb (String.substring 0 (String.length p) s) p.

Definition save (o : AppOptions) (next : Options) (w : W) : W * option error :=
  match store o with
  | None => (w, None)
  | Some s =>
    match s w next with
    | (w', Some e) => (w', Some (Errorf "save options: %w" [] [e]))
    | (w', None) => (w', None)
    end
  end.

Definition hooksFor (o : AppOptions) (key : string) : list optionHook :=
  List.filter (λ h, hasPrefix key (prefix h)) (hooks o).

(** The inner loop of [runHooks]. *)
Fixpoint run_hooks_key (hs : list optionHook) (key : string) (c : Options) (w : W) : W :=
  match hs with
  | [] => w
  | h :: hs' =>
    if negb (hasPrefix key (prefix h)) then run_hooks_key hs' key c w
    else run_hooks_key hs' key c (fn h key c w)
  end.
Fixpoint runHooks (hs : list optionHook) (keys : list string) (c : Options) (w : W) : W :=
  match keys with
  | [] => w
  | key :: keys' => runHooks hs keys' c (run_hooks_key hs key c w)
  end.

(** [Set]; the operator id [by] only reaches the log. *)
Definition Set_ (o : AppOptions) (key value : string) (w : W) : AppOptions * W * option error :=
  if String.eqb (OptString (cur o) key) value && bool_decide (is_Some (LookupOption key))
  then (o, w, None)
  else
    let '(next, err) := With (cur o) key value in
    let err := match err with None => ValidateOptions next (choices o) | Some e => Some e end in
    match err with
    | Some e => (o, w, Some e)
    | None =>
      match save o next w with
      | (w', Some e) => (o, w', Some e)
      | (w', None) =>
        let o' := with_cur o next in
        (o', runHooks (hooksFor o key) [key] next w', None)
      end
    end.

(** The loop of [Reset]: the bag and the changed keys, or the error of [With]. *)
Definition reset_step (acc : error + Options * list string) (spec : OptionSpec)
    : error + Options * list string :=
  match acc with
  | inl e => inl e
  | inr (next, keys) =>
    if String.eqb (OptString next (OptKey spec)) (Default spec) then inr (next, keys)
    else match With next (OptKey spec) (Default spec) with
         | (_, Some e) => inl e
         | (next', None) => inr (next', keys ++ [OptKey spec])
         end
  end.

Definition Reset_ (o : AppOptions) (group : string) (w : W) : AppOptions * W * (bool * option error) :=
  match foldl reset_step (inr (cur o, [])) (OptionsInGroup group) with
  | inl e => (o, w, (false, Some e))
  | inr (_, []) => (o, w, (false, None))
  | inr (next, keys) =>
    match ValidateOptions next (choices o) with
    | Some e => (o, w, (false, Some e))
    | None =>
      match save o next w with
      | (w', Some e) => (o, w', (false, Some e))
      | (w', None) => (with_cur o next, runHooks (hooks o) keys next w', (true, None))
      end
    end
  end.

(** ** Changes *)

(** The hooks for [keys] in the order they run. *)
Definition hook_calls (hs : list optionHook) (keys : list string) (c : Options) : list (W → W) :=
  mjoin (map (λ key, map (λ h, fn h key c) (List.filter (λ h, hasPrefix key (prefix h)) hs)) keys).

Lemma run_hooks_key_calls hs key c w :
  run_hooks_key hs key c w =
  foldl (λ w f, f w) w (map (λ h, fn h key c) (List.filter (λ h, hasPrefix key (prefix h)) hs)).
Proof.
  revert w. induction hs as [|h hs IH]; intros w; [done|]. cbn [run_hooks_key List.filter].
  destruct (hasPrefix key (prefix h)); simpl; apply IH.
Qed.

Lemma runHooks_calls hs keys c w :
  runHooks hs keys c w = foldl (λ w f, f w) w (hook_calls hs keys c).
Proof.
  revert w. induction keys as [|key keys IH]; intros w; [done|].
  cbn [runHooks]. rewrite IH, run_hooks_key_calls. unfold hook_calls. cbn [map]. simpl.
  by rewrite foldl_app.
Qed.

Lemma filter_filter_same {A} (f : A → bool) l : List.filter f (List.filter f l) = List.filter f l.
Proof. induction l as [|x l IH]; [done|]. simpl. destruct (f x) eqn:E; simpl; rewrite ?E; congruence. Qed.

(** [Set] either changes nothing, or saves the new bag and only then lets
    it take effect and runs, once each and in registration order, the hooks
    whose prefix matches. A rejected value touches neither memory nor the store
    and leaves no hook run; a failed save leaves the options in force; a value
    equal to the one in force does nothing at all. *)
Theorem Set_atomic o key value w :
  let next := bag_set (cur o) key value in
  match Set_ o key value w with
  | (o', w', None) =>
    o' = o ∧ w' = w ∧ OptString (cur o) key = value ∨
    ∃ w1, save o next w = (w1, None) ∧ o' = with_cur o next ∧ OptString (cur o') key = value ∧
      ValidateOptions next (choices o) = None ∧
      w' = foldl (λ w f, f w) w1 (hook_calls (hooks o) [key] next)
  | (o', w', Some e) =>
    o' = o ∧ (w' = w ∨ ∃ e', save o next w = (w', Some e') ∧ e = e')
  end.
Proof.
  cbv zeta. unfold Set_. destruct (String.eqb_spec (OptString (cur o) key) value) as [Heq|Heq].
  all: cbn [andb]; try (destruct (bool_decide _); [by left|]).
  all: destruct (With (cur o) key value) as [next err] eqn:E; apply With_cases in E;
    destruct E as [(-> & -> & _)|(e & -> & -> & _)]; [|split; [done|by left]].
  all: destruct (ValidateOptions _ _) as [e|] eqn:Hv; [split; [done|by left]|].
  all: destruct (save o _ w) as [w1 [e|]] eqn:Hs; [split; [done|right; by exists e]|].
  all: right; exists w1; split_and!; [done|done| |done|].
  all: try (cbn [cur with_cur]; by rewrite OptString_set, decide_True).
  all: rewrite runHooks_calls; f_equal; unfold hook_calls, hooksFor; cbn [map]; simpl;
    by rewrite filter_filter_same.
Qed.

(** What [Reset] has in hand after the specs [done] of the group. *)
Lemma reset_fold specs next keys :
  (∀ s, s ∈ specs → s ∈ OptionSpecs) → NoDup (map OptKey specs) →
  ∃ next' keys', foldl reset_step (inr (next, keys)) specs = inr (next', keys ++ keys') ∧
    (∀ k, OptString next' k =
       match List.find (λ s, String.eqb (OptKey s) k) specs with
       | Some s => Default s | None => OptString next k end) ∧
    keys' = map OptKey (List.filter (λ s, negb (String.eqb (OptString next (OptKey s)) (Default s))) specs) ∧
    (keys' = [] → next' = next).
Proof.
  revert next keys. induction specs as [|s specs IH]; intros next keys Hin Hd.
  { exists next, []. rewrite app_nil_r. by split_and!. }
  cbn [foldl map List.filter List.find reset_step] in *. apply NoDup_cons in Hd as [Hn Hd].
  assert (Hs : s ∈ OptionSpecs) by (apply Hin; by left).
  assert (Hin' : ∀ s, s ∈ specs → s ∈ OptionSpecs) by (intros; apply Hin; by right).
  assert (Hnf : List.find (λ s', String.eqb (OptKey s') (OptKey s)) specs = None).
  { destruct (List.find _ specs) as [s'|] eqn:E; [|done]. apply List.find_some in E as [Hs' Heq].
    apply String.eqb_eq in Heq. destruct Hn. rewrite <-Heq. by apply list_elem_of_In, in_map. }
  destruct (String.eqb_spec (OptString next (OptKey s)) (Default s)) as [Heq|Heq]; simpl.
  - destruct (IH next keys Hin' Hd) as (next' & keys' & E & Hv & Hk & Hnil).
    exists next', keys'. split_and!; [done| |done|done]. intros k. rewrite Hv.
    destruct (String.eqb_spec (OptKey s) k) as [<-|]; [|done]. by rewrite Hnf.
  - destruct (With next (OptKey s) (Default s)) as [next1 err] eqn:Ew. unfold With in Ew.
    rewrite LookupOption_in in Ew by done.
    assert (is_kind_bool (OptKind s) && negb (is_bool_word (Default s)) = false) as Hb.
    { by apply default_bool. }
    rewrite Hb in Ew. injection Ew as <- <-. fold (bag_set next (OptKey s) (Default s)).
    destruct (IH (bag_set next (OptKey s) (Default s)) (keys ++ [OptKey s]) Hin' Hd)
      as (next' & keys' & E & Hv & Hk & _).
    exists next', (OptKey s :: keys'). rewrite <-app_assoc in E. split_and!; [done| | |done].
    + intros k. rewrite Hv. destruct (String.eqb_spec (OptKey s) k) as [<-|Hk'].
      * by rewrite Hnf, OptString_set, decide_True.
      * destruct (List.find _ specs); [done|]. rewrite OptString_set. by rewrite decide_False.
    + f_equal. rewrite Hk. f_equal. apply List.filter_ext_in. intros s' Hs'%list_elem_of_In.
      rewrite OptString_set. rewrite decide_False; [done|]. intros E'. destruct Hn. rewrite <-E'.
      by apply key_in.
Qed.

Lemma OptionsInGroup_in group s : s ∈ OptionsInGroup group ↔ s ∈ OptionSpecs ∧ OptGroup s = group.
Proof. unfold OptionsInGroup. rewrite elem_of_list_filter, String.eqb_eq. tauto. Qed.

Lemma NoDup_keys_filter (f : OptionSpec → bool) specs :
  NoDup (map OptKey specs) → NoDup (map OptKey (List.filter f specs)).
Proof.
  induction specs as [|s specs IH]; [done|]. cbn [map List.filter]. intros [Hn Hd]%NoDup_cons.
  destruct (f s); [|by apply IH]. cbn [map]. apply NoDup_cons. split; [|by apply IH].
  intros (s' & E & [_ Hs']%list_elem_of_In%elem_of_list_filter)%list_elem_of_In%in_map_iff.
  apply Hn. rewrite <-E. by apply key_in.
Qed.

Definition changed_keys (c : Options) (group : string) : list string :=
  map OptKey (List.filter (λ s, negb (String.eqb (OptString c (OptKey s)) (Default s)))
                (OptionsInGroup group)).

Lemma changed_keys_nil c group s :
  changed_keys c group = [] → s ∈ OptionsInGroup group → OptString c (OptKey s) = Default s.
Proof.
  unfold changed_keys. intros H Hs. apply map_eq_nil in H.
  destruct (String.eqb_spec (OptString c (OptKey s)) (Default s)) as [|Hne]; [done|].
  enough (s ∈ @nil OptionSpec) by set_solver. rewrite <-H. apply elem_of_list_filter.
  split; [|done]. by destruct (String.eqb_spec (OptString c (OptKey s)) (Default s)).
Qed.

(** [Reset] puts every option of the group back to its default in one
    save, leaves every other option alone and runs the hooks of exactly the keys
    that changed; it reports no change exactly when the group was already at its
    defaults, and an error leaves the options in force as they were. *)
Theorem Reset_spec o group w :
  let keys := changed_keys (cur o) group in
  match Reset_ o group w with
  | (o', w', (false, None)) =>
    o' = o ∧ w' = w ∧ keys = [] ∧
    ∀ s, s ∈ OptionsInGroup group → OptString (cur o) (OptKey s) = Default s
  | (o', w', (true, None)) =>
    keys ≠ [] ∧ (∃ w1, save o (cur o') w = (w1, None) ∧
      w' = foldl (λ w f, f w) w1 (hook_calls (hooks o) keys (cur o'))) ∧
    o' = with_cur o (cur o') ∧ ValidateOptions (cur o') (choices o) = None ∧
    ∀ s, s ∈ OptionSpecs → OptString (cur o') (OptKey s) =
      if String.eqb (OptGroup s) group then Default s else OptString (cur o) (OptKey s)
  | (o', w', (changed, Some e)) =>
    changed = false ∧ o' = o ∧ (w' = w ∨ ∃ next e', save o next w = (w', Some e'))
  end.
Proof.
  cbv zeta. unfold Reset_.
  assert (Hin : ∀ s, s ∈ OptionsInGroup group → s ∈ OptionSpecs)
    by by intros s [? _]%OptionsInGroup_in.
  assert (Hd : NoDup (map OptKey (OptionsInGroup group))) by apply NoDup_keys_filter, OptionKeys_NoDup.
  destruct (reset_fold (OptionsInGroup group) (cur o) [] Hin Hd) as (next & keys & E & Hv & Hk & Hnil).
  cbn [app] in E. rewrite E.
  assert (Hk' : changed_keys (cur o) group = keys) by (unfold changed_keys; by rewrite Hk).
  clear Hk. rename Hk' into Hk.
  destruct keys as [|k ks].
  { split_and!; [done..|]. intros s. by apply changed_keys_nil. }
  destruct (ValidateOptions next (choices o)) as [e|] eqn:Hval; [by auto|].
  destruct (save o next w) as [w1 [e|]] eqn:Hs; [by eauto 8|].
  cbn [cur with_cur]. rewrite Hk. split_and!; [done| |done|done|].
  - exists w1. split; [done|]. by rewrite runHooks_calls.
  - intros s Hs'. rewrite Hv.
    destruct (List.find _ (OptionsInGroup group)) as [s'|] eqn:Hf.
    + apply List.find_some in Hf as [Hs2%list_elem_of_In Hkey%String.eqb_eq].
      apply OptionsInGroup_in in Hs2 as [Hs2 <-].
      assert (s' = s) as ->; [|by rewrite String.eqb_refl].
      apply LookupOption_in in Hs2. apply LookupOption_in in Hs'. congruence.
    + destruct (String.eqb_spec (OptGroup s) group) as [Hg|]; [|done]. exfalso.
      eapply List.find_none in Hf; [|apply list_elem_of_In, OptionsInGroup_in; by split].
      by rewrite String.eqb_refl in Hf.
Qed.

(** ** Memory and store agree *)

Section Sync.
Context (disk : W → Options).

(** The store writes its file atomically: a successful save is what a load would
    read, a failed one leaves the file alone; hooks do not write it. *)
Definition store_ok (o : AppOptions) : Prop :=
  ∀ s w next w' e, store o = Some s → s w next = (w', e) →
    disk w' = match e with None => next | Some _ => disk w end.
Definition hooks_ok (o : AppOptions) : Prop :=
  ∀ h key c w, h ∈ hooks o → disk (fn h key c w) = disk w.

Inductive operation := OpSet (key value : string) | OpReset (group : string).

Definition apply_op (s : AppOptions * W) (op : operation) : AppOptions * W :=
  match op with
  | OpSet key value => (Set_ s.1 key value s.2).1
  | OpReset group => (Reset_ s.1 group s.2).1
  end.

Record InSync (o : AppOptions) (w : W) : Prop := {
  sync_valid : Valid (cur o) (choices o);
  sync_disk : disk w = cur o
}.

Lemma hook_calls_disk o keys c w :
  hooks_ok o → disk (foldl (λ w f, f w) w (hook_calls (hooks o) keys c)) = disk w.
Proof.
  intros Hh. assert (H : ∀ f, f ∈ hook_calls (hooks o) keys c → ∀ w, disk (f w) = disk w).
  { unfold hook_calls. intros f (l & Hf & Hl)%list_elem_of_join.
    apply list_elem_of_In, in_map_iff in Hl as (key & <- & _).
    apply list_elem_of_In, in_map_iff in Hf as (h & <- & Hin%list_elem_of_In).
    apply elem_of_list_filter in Hin as [_ ?]. intros. by apply Hh. }
  revert w H. induction (hook_calls (hooks o) keys c) as [|f fs IH]; intros w H; [done|]. simpl.
  rewrite IH; [|intros; apply H; by right]. apply H. by left.
Qed.

Lemma save_disk o next w w' e :
  store_ok o → is_Some (store o) → save o next w = (w', e) →
  disk w' = match e with None => next | Some _ => disk w end.
Proof.
  unfold save. intros Hs [s Es]. rewrite Es. destruct (s w next) as [w1 e1] eqn:E.
  specialize (Hs s w next w1 e1 Es E). by destruct e1; intros [= <- <-].
Qed.

(** What one change can do, [Set] and [Reset] alike. *)
Inductive outcome (o : AppOptions) (w : W) : AppOptions → W → Prop :=
  | unchanged : outcome o w o w
  | save_failed next w' e : save o next w = (w', Some e) → outcome o w o w'
  | saved next keys w1 :
      save o next w = (w1, None) → Valid next (choices o) →
      outcome o w (with_cur o next) (foldl (λ w f, f w) w1 (hook_calls (hooks o) keys next)).

Lemma Set_outcome o key value w :
  outcome o w (apply_op (o, w) (OpSet key value)).1 (apply_op (o, w) (OpSet key value)).2.
Proof.
  cbn [apply_op fst snd]. unfold Set_. destruct (_ && _); [constructor|].
  destruct (With (cur o) key value) as [next [e|]]; [constructor|].
  destruct (ValidateOptions _ _) as [e|] eqn:Hv; [constructor|].
  destruct (save o next w) as [w1 [e|]] eqn:Hs; [by eapply save_failed|].
  cbn [fst snd]. rewrite runHooks_calls.
  replace (hook_calls (hooksFor o key) [key] next) with (hook_calls (hooks o) [key] next).
  - apply saved; [done|by apply ValidateOptions_None].
  - unfold hook_calls, hooksFor. cbn [map]. simpl. by rewrite filter_filter_same.
Qed.

Lemma Reset_outcome o group w :
  outcome o w (apply_op (o, w) (OpReset group)).1 (apply_op (o, w) (OpReset group)).2.
Proof.
  cbn [apply_op fst snd]. unfold Reset_.
  destruct (foldl reset_step _ _) as [e|[next [|k ks]]]; [constructor|constructor|].
  destruct (ValidateOptions _ _) as [e|] eqn:Hv; [constructor|].
  destruct (save o next w) as [w1 [e|]] eqn:Hs; [by eapply save_failed|].
  cbn [fst snd]. rewrite runHooks_calls. apply saved; [done|by apply ValidateOptions_None].
Qed.

Lemma outcome_sync o w o' w' :
  store_ok o → hooks_ok o → is_Some (store o) → InSync o w → outcome o w o' w' →
  InSync o' w' ∧ choices o' = choices o ∧ store o' = store o ∧ hooks o' = hooks o.
Proof.
  intros Hso Hho Hst [Hv Hd] [|next w1 e Hs|next keys w1 Hs Hvn]; (split; [|done]).
  - by split.
  - split; [done|]. by rewrite (save_disk _ _ _ _ _ Hso Hst Hs).
  - split; [done|]. rewrite hook_calls_disk by done. by rewrite (save_disk _ _ _ _ _ Hso Hst Hs).
Qed.

(** C38: whatever the operator changes, in whatever order and whichever saves
    fail, the options in force stay valid and the file on disk holds exactly
    them, as long as the store replaces its file atomically. *)
Theorem options_in_sync o w ops
    (Hstore : store_ok o) (Hhooks : hooks_ok o) (Hsome : is_Some (store o))
    (Hstart : ValidateOptions (cur o) (choices o) = None) (Hdisk : disk w = cur o) :
  let s := foldl apply_op (o, w) ops in
  ValidateOptions (cur s.1) (choices o) = None ∧ disk s.2 = cur s.1.
Proof.
  cbv zeta. apply ValidateOptions_None in Hstart. rewrite ValidateOptions_None.
  assert (Hi : InSync o w) by by split. clear Hstart Hdisk. revert o w Hstore Hhooks Hsome Hi.
  induction ops as [|op ops IH]; intros o w Hso Hho Hst Hi; [by destruct Hi|]. cbn [foldl].
  assert (Ho : outcome o w (apply_op (o, w) op).1 (apply_op (o, w) op).2)
    by (destruct op; [apply Set_outcome|apply Reset_outcome]).
  destruct (apply_op (o, w) op) as [o1 w1]. cbn [fst snd] in Ho.
  apply outcome_sync in Ho as (Hi1 & Hch & Hs1 & Hh1); [|done..]. rewrite <-Hch.
  apply IH; [| |by rewrite Hs1|done].
  - unfold store_ok. by rewrite Hs1.
  - unfold hooks_ok. by rewrite Hh1.
Qed.
End Sync.
End AppOptions.

(** A store whose whole state is the bag it last saved. *)
Definition file_store : Options → Options → Options * option error := λ _ next, (next, None).

Lemma Reset_spec_witness :
  let off := bag_set (bag_set DefaultOptions OptionSyncEnabled "false") OptionRedact "false" in
  let o : AppOptions (W:=unit) := NewOptions off None None in
  let r := Reset_ o GroupSync tt in
  r.2 = (true, None) ∧ OptString (cur r.1.1) OptionSyncEnabled = "true" ∧
  OptString (cur r.1.1) OptionRedact = "false".
Proof.
  cbv zeta. set (off := bag_set _ _ _). set (o := NewOptions off None None).
  assert (E : Reset_ o GroupSync tt =
    (with_cur o (bag_set off OptionSyncEnabled "true"), tt, (true, None))) by (vm_compute; reflexivity).
  pose proof (Reset_spec o GroupSync tt) as H. cbv zeta in H. rewrite E in *. cbn [fst snd].
  destruct H as (_ & _ & _ & _ & H). split; [reflexivity|].
  assert (Hspec : ∀ key, match LookupOption key with
    | Some s => OptKey s = key ∧ s ∈ OptionSpecs | None => True end).
  { intros key. destruct (LookupOption key) as [s|] eqn:Es; [|exact I].
    destruct (LookupOption_Some _ _ Es). auto. }
  split.
  - pose proof (Hspec OptionSyncEnabled) as Hk. destruct (LookupOption OptionSyncEnabled) as [s|] eqn:Es;
      [|vm_compute in Es; discriminate Es].
    destruct Hk as [Hk Hin]. specialize (H s Hin). rewrite Hk in H. rewrite H.
    vm_compute in Es. injection Es as <-. reflexivity.
  - pose proof (Hspec OptionRedact) as Hk. destruct (LookupOption OptionRedact) as [s|] eqn:Es;
      [|vm_compute in Es; discriminate Es].
    destruct Hk as [Hk Hin]. specialize (H s Hin). rewrite Hk in H. rewrite H.
    vm_compute in Es. injection Es as <-. reflexivity.
Defined.

Lemma options_in_sync_witness :
  let o := NewOptions DefaultOptions (Some file_store) None in
  let s := foldl apply_op (o, DefaultOptions)
    [OpSet OptionSyncEnabled "false"; OpSet OptionPostsFold "abc"; OpSet "icons.idle" "🔥";
     OpReset GroupSync] in
  s.2 = cur s.1 ∧ OptString s.2 "icons.idle" = "🔥".
Proof.
  cbv zeta. split; [|vm_compute; reflexivity].
  set (o := NewOptions DefaultOptions (Some file_store) None). set (ops := [_; _; _; _]).
  assert (Hs : store_ok id o) by (intros s w next w' e [= <-] [= <- <-]; reflexivity).
  assert (Hh : hooks_ok id o) by (intros h key c w Hin; by apply elem_of_nil in Hin).
  assert (Hsome : is_Some (store o)) by by eexists.
  assert (Hv : ValidateOptions (cur o) (choices o) = None) by (vm_compute; reflexivity).
  exact (proj2 (options_in_sync id o DefaultOptions ops Hs Hh Hsome Hv eq_refl)).
Defined.

(** The options after a restart: the saved bag, sanitised as the composition
    root does. *)
Definition reload (w : Options) (ch : ChoiceSource) : Options :=
  match SanitizeOptions w ch with
  | (_, []) => w
  | (clean, _) => clean
  end.

(** Three changes through the panel, each accepted, exchange the icons of two
    statuses; after a restart both are back at their defaults. *)
Lemma swapped_icons_lost :
  let o := NewOptions DefaultOptions (Some file_store) None in
  let s := foldl apply_op (o, DefaultOptions)
    [OpSet "icons.working" "🔥"; OpSet "icons.idle" "⚡"; OpSet "icons.working" "✅"] in
  ValidateOptions s.2 None = None ∧
  OptString s.2 "icons.working" = "✅" ∧ OptString s.2 "icons.idle" = "⚡" ∧
  OptString (reload s.2 None) "icons.working" = "⚡" ∧
  OptString (reload s.2 None) "icons.idle" = "✅".
Proof. by vm_compute. Qed.
