(* ===== verification/Registry.v ===== *)
(** internal/app/registry.go: the set of live agents, fed by agent.list
    snapshots and socket events, and the stream of agent events it emits.

    [ListAgents] and [WatchPanes] belong to the Herdr gateway port: the list it
    answers is an argument, the pane set is a result. The order in which a
    [range] loop visits a map is unspecified in Go, so it is a parameter
    [range], a permutation of the map for each loop (numbered by its place in
    the code). *)
From S2P Require Import Prelude GoStrings Errors Status Config Events.

Local Open Scope Z_scope.

Definition reconcileInterval : Duration := 15 * Second.
Definition snapshotCoalesce : Duration := 500 * 1000000.

Inductive AgentEventKind := AgentAppeared | AgentChanged | AgentGone.
Record AgentEvent := mkAgentEvent { AEKind : AgentEventKind; AEAgent : Agent }.

Record Registry := mkRegistry {
  agents : gmap Key Agent;
  byPane : gmap string Key;
  lastOK : Time;
  lastErr : option error;
  lastErrAt : Time
}.

Definition NewRegistry : Registry := mkRegistry ∅ ∅ time_zero None time_zero.

Definition set_agents (r : Registry) (ag : gmap Key Agent) : Registry :=
  mkRegistry ag (byPane r) (lastOK r) (lastErr r) (lastErrAt r).

Definition differs (a b : Agent) : bool :=
  negb (String.eqb (Label a) (Label b)) || negb (String.eqb (AStatus a) (AStatus b)).

Definition exited (a : Agent) : Agent := with_status a StatusExited.

Definition event_key (e : AgentEvent) : Key := AKey (AEAgent e).
Definition event_le (x y : AgentEvent) : Prop := String.le (KeyString (event_key x)) (KeyString (event_key y)).
#[global] Instance event_le_dec : RelDecision event_le.
Proof. intros x y. unfold event_le. apply _. Defined.

Definition sortEvents (evs : list AgentEvent) : list AgentEvent := merge_sort event_le evs.

Definition agent_le (x y : Agent) : Prop := String.le (KeyString (AKey x)) (KeyString (AKey y)).
#[global] Instance agent_le_dec : RelDecision agent_le.
Proof. intros x y. unfold agent_le. apply _. Defined.

Definition RegAgent (r : Registry) (key : Key) : option Agent := agents r !! key.

Record Health := mkHealth { HLastOK : Time; HLastErr : option error; HLastErrAt : Time }.
Definition RegHealth (r : Registry) : Health := mkHealth (lastOK r) (lastErr r) (lastErrAt r).

(** ** Socket events: (registry, events, structural) *)

Definition applyStatus (r : Registry) (ev : HerdrEvent) : Registry * list AgentEvent * bool :=
  match byPane r !! EvPaneID ev, EvAgent ev with
  | Some key, Some ea =>
    match agents r !! key with
    | None => (r, [], true) (* not reached: byPane names live agents, see RegInv *)
    | Some old =>
      let a := with_status old (AStatus ea) in
      let a := if String.eqb (Title ea) "" then a else with_title a (Title ea) in
      let r' := set_agents r (<[key := a]> (agents r)) in
      if negb (differs old a) then (r', [], false)
      else (r', [mkAgentEvent AgentChanged a], false)
    end
  | _, _ => (r, [], true)
  end.

Definition applyUpdate (r : Registry) (ev : HerdrEvent) : Registry * list AgentEvent * bool :=
  match EvAgent ev with
  | None => (r, [], false)
  | Some a =>
    if String.eqb (Kind a) "" then (r, [], false)
    else
      match agents r !! AKey a with
      | None => (r, [], true)
      | Some old =>
        let a := if String.eqb (WorkspaceLabel a) "" then with_workspace_label a (WorkspaceLabel old) else a in
        let a := if String.eqb (TabLabel a) "" then with_tab_label a (TabLabel old) else a in
        let a := with_name a (Name old) in
        let a := if String.eqb (Cwd a) "" then with_cwd a (Cwd old) else a in
        let r' := set_agents r (<[AKey a := a]> (agents r)) in
        if negb (differs old a) then (r', [], false)
        else (r', [mkAgentEvent AgentChanged a], false)
      end
  end.

Definition RegApply (r : Registry) (ev : HerdrEvent) : Registry * list AgentEvent * bool :=
  match EvKind ev with
  | PaneAgentStatusChanged => applyStatus r ev
  | PaneUpdated => applyUpdate r ev
  | StreamReset | PaneAgentDetected | PaneClosed | PaneExited | TabRenamed | WorkspaceRenamed =>
    (r, [], true)
  | OtherKind _ => (r, [], false)
  end.

Section Snapshots.
Context (range : nat → gmap Key Agent → list (Key * Agent)).

(** ** Snapshots *)

Definition Live_ (r : Registry) : list Agent := merge_sort agent_le (range 0 (agents r)).*2.

Definition index_agents (l : list Agent) : gmap Key Agent :=
  foldl (λ next a, if String.eqb (Kind a) "" then next else <[AKey a := a]> next) ∅ l.

Definition gone_events (next : gmap Key Agent) (l : list (Key * Agent)) : list AgentEvent :=
  omap (λ p, match next !! p.1 with
             | None => Some (mkAgentEvent AgentGone (exited p.2))
             | Some _ => None
             end) l.
Definition appeared_events (old : gmap Key Agent) (l : list (Key * Agent)) : list AgentEvent :=
  omap (λ p, match old !! p.1 with
             | None => Some (mkAgentEvent AgentAppeared p.2)
             | Some _ => None
             end) l.
Definition changed_events (old : gmap Key Agent) (l : list (Key * Agent)) : list AgentEvent :=
  omap (λ p, match old !! p.1 with
             | Some o => if differs o p.2 then Some (mkAgentEvent AgentChanged p.2) else None
             | None => None
             end) l.

Definition applySnapshot (r : Registry) (listed : list Agent) (now : Time)
    : Registry * list AgentEvent * list string :=
  let next := index_agents listed in
  let gone := gone_events next (range 1 (agents r)) in
  let appeared := appeared_events (agents r) (range 2 next) in
  let changed := changed_events (agents r) (range 2 next) in
  let panes := map PaneID (range 3 next).*1 in
  let bp := foldl (λ m key, <[PaneID key := key]> m) ∅ (range 3 next).*1 in
  (mkRegistry next bp now None (lastErrAt r),
   sortEvents gone ++ sortEvents appeared ++ sortEvents changed,
   merge_sort String.le panes).

(** [Snapshot]: the answer of [ListAgents] in, the registry, the events and the
    panes to watch out; a failure of [WatchPanes] is only logged. *)
Definition Snapshot (r : Registry) (listed : result (list Agent)) (now : Time)
    : Registry * result (list AgentEvent) * option (list string) :=
  match listed with
  | Err e =>
    (mkRegistry (agents r) (byPane r) (lastOK r) (Some e) now,
     Err (Errorf "agent snapshot: %w" [] [e]), None)
  | Ok l => let '(r', evs, panes) := applySnapshot r l now in (r', Ok evs, Some panes)
  end.

(** ** The loop of [Run]

    The variables of the loop; a nil channel is [None]. *)
Record RunState := mkRunState {
  rs_reg : Registry;
  rs_tick : Time;             (** when the interval timer fires *)
  rs_coalesce : option Time;  (** when the armed coalescing timer fires *)
  rs_open : bool              (** the events channel is not closed *)
}.

(** What the [select] received, with the clock at that moment and the answer
    the gateway would give to a snapshot taken now. *)
Inductive run_input :=
  | InEvent (raw : Event) | InClosed | InCoalesce | InTick | InRequest.

Definition take_snapshot (s : RunState) (listed : result (list Agent)) (now : Time)
    : RunState * list AgentEvent :=
  let '(r', evs, _) := Snapshot (rs_reg s) listed now in
  (mkRunState r' (time_add now reconcileInterval) None (rs_open s),
   match evs with Ok l => l | Err _ => [] end).

Definition run_step (s : RunState) (i : run_input) (listed : result (list Agent)) (now : Time)
    : RunState * list AgentEvent :=
  match i with
  | InClosed => (mkRunState (rs_reg s) (rs_tick s) (rs_coalesce s) false, [])
  | InEvent (EvHerdr ev) =>
    let '(r', evs, structural) := RegApply (rs_reg s) ev in
    let s' := mkRunState r' (rs_tick s) (rs_coalesce s) (rs_open s) in
    match EvKind ev with
    | StreamReset =>
      let '(s'', more) := take_snapshot s' listed now in (s'', evs ++ more)
    | _ =>
      (mkRunState r' (rs_tick s)
         (match rs_coalesce s with
          | None => if structural then Some (time_add now snapshotCoalesce) else None
          | Some d => Some d
          end) (rs_open s), evs)
    end
  | InEvent _ => (s, [])
  | InCoalesce | InTick | InRequest => take_snapshot s listed now
  end.

Definition run_start (now : Time) : RunState :=
  mkRunState NewRegistry (time_add now reconcileInterval) None true.
End Snapshots.

(** ** Invariant *)

(** Every agent is filed under its own key and has a kind; [byPane] names a live
    agent of that pane, and knows a pane for every live agent. *)
Record RegInv (r : Registry) : Prop := {
  reg_key k a : agents r !! k = Some a → AKey a = k;
  reg_pane p k : byPane r !! p = Some k → PaneID k = p ∧ is_Some (agents r !! k);
  reg_watched k : is_Some (agents r !! k) → is_Some (byPane r !! PaneID k)
}.

Lemma index_agents_key l k a : index_agents l !! k = Some a → AKey a = k ∧ a ∈ l ∧ Kind a ≠ "".
Proof.
  unfold index_agents. induction l as [|x l IH] using rev_ind; [cbn [foldl]; by rewrite lookup_empty|].
  rewrite foldl_app. cbn [foldl]. destruct (String.eqb_spec (Kind x) "") as [E|E].
  - intros (? & ? & ?)%IH. rewrite elem_of_app. auto.
  - rewrite lookup_insert_Some, elem_of_app, list_elem_of_singleton.
    intros [[<- <-]|[_ (? & ? & ?)%IH]]; auto.
Qed.

Lemma index_agents_own l k a : index_agents l !! k = Some a → AKey a = k.
Proof. by intros [? _]%index_agents_key. Qed.

Lemma index_by_pane (ks : list Key) (m : gmap string Key) p k :
  foldl (λ m key, <[PaneID key := key]> m) m ks !! p = Some k →
  (k ∈ ks ∧ PaneID k = p) ∨ m !! p = Some k.
Proof.
  revert m. induction ks as [|x ks IH]; intros m; cbn [foldl]; [by right|].
  intros [[? ?]|H]%IH; [left; split; [by right|done]|].
  apply lookup_insert_Some in H as [[<- <-]|[_ ?]]; [left; split; [by left|done]|by right].
Qed.

Lemma index_by_pane_some (ks : list Key) (m : gmap string Key) k :
  k ∈ ks ∨ is_Some (m !! PaneID k) →
  is_Some (foldl (λ m key, <[PaneID key := key]> m) m ks !! PaneID k).
Proof.
  revert m. induction ks as [|x ks IH]; intros m; cbn [foldl].
  { by intros [?%elem_of_nil|?]. }
  intros H. apply IH. rewrite lookup_insert_is_Some'.
  destruct H as [[->|?]%elem_of_cons|?]; auto.
Qed.

Section Props.
Context (range : nat → gmap Key Agent → list (Key * Agent)).
Hypothesis range_perm : ∀ i m, range i m ≡ₚ map_to_list m.

Lemma elem_of_range i m k a : (k, a) ∈ range i m ↔ m !! k = Some a.
Proof. by rewrite range_perm, elem_of_map_to_list. Qed.

Lemma elem_of_range_keys i m k : k ∈ (range i m).*1 ↔ is_Some (m !! k).
Proof.
  rewrite list_elem_of_fmap. split.
  - intros ([k' a] & -> & H%elem_of_range). by eexists.
  - intros [a H%(elem_of_range i)]. by exists (k, a).
Qed.

Lemma range_NoDup i m : NoDup (range i m).*1.
Proof. rewrite range_perm. apply NoDup_fst_map_to_list. Qed.

Lemma applySnapshot_inv r listed now : RegInv (applySnapshot range r listed now).1.1.
Proof.
  unfold applySnapshot. split; cbn [agents byPane fst].
  - intros k a H. by apply index_agents_key in H as [? _].
  - intros p k [[H <-]|H]%index_by_pane; [|by rewrite lookup_empty in H].
    by apply elem_of_range_keys in H.
  - intros k Hk. apply index_by_pane_some. left. by apply elem_of_range_keys.
Qed.

Lemma set_agent_inv r k a old :
  RegInv r → AKey a = k → agents r !! k = Some old → RegInv (set_agents r (<[k := a]> (agents r))).
Proof.
  intros [Hk Hp Hw] Ha Hold. split; unfold set_agents; cbn [agents byPane].
  - intros k' a' [[<- <-]|[_ ?]]%lookup_insert_Some; [done|by apply Hk].
  - intros p k' H. apply Hp in H as [<- H]. split; [done|]. rewrite lookup_insert_is_Some'. by right.
  - intros k'. rewrite lookup_insert_is_Some'. intros [<-|?]; [|by apply Hw]. apply Hw. by eexists.
Qed.

(** ** Replaying the events *)

(** What a consumer that only follows the events knows of an agent. *)
Definition facet (a : Agent) : string * Status := (Label a, AStatus a).
Definition replay_event (v : gmap Key (string * Status)) (e : AgentEvent) : gmap Key (string * Status) :=
  match AEKind e with
  | AgentGone => delete (event_key e) v
  | AgentAppeared | AgentChanged => <[event_key e := facet (AEAgent e)]> v
  end.
Definition replay (v : gmap Key (string * Status)) (evs : list AgentEvent) := foldl replay_event v evs.

(** The view a consumer should have. *)
Definition view (r : Registry) : gmap Key (string * Status) := facet <$> agents r.

Definition event_result (e : AgentEvent) : option (string * Status) :=
  match AEKind e with AgentGone => None | _ => Some (facet (AEAgent e)) end.

Lemma replay_event_lookup v e k :
  replay_event v e !! k = if decide (event_key e = k) then event_result e else v !! k.
Proof.
  unfold replay_event, event_result. destruct (AEKind e); case_decide as H; subst;
    by rewrite ?lookup_insert_eq, ?lookup_delete_eq, ?lookup_insert_ne, ?lookup_delete_ne by done.
Qed.

Lemma replay_other v evs k : k ∉ map event_key evs → replay v evs !! k = v !! k.
Proof.
  unfold replay. revert v. induction evs as [|e evs IH]; intros v; [done|].
  cbn [map foldl]. rewrite not_elem_of_cons. intros [Hne H].
  rewrite IH by done. rewrite replay_event_lookup, decide_False; [done|congruence].
Qed.

Lemma replay_in v evs e :
  NoDup (map event_key evs) → e ∈ evs → replay v evs !! event_key e = event_result e.
Proof.
  unfold replay. revert v. induction evs as [|x evs IH]; intros v; [by intros _ ?%elem_of_nil|].
  cbn [map foldl]. intros [Hn Hd]%NoDup_cons [->|Hin]%elem_of_cons; [|by apply IH].
  fold (replay (replay_event v x) evs). rewrite replay_other by done.
  by rewrite replay_event_lookup, decide_True.
Qed.

Lemma map_event_key_perm l l' : l ≡ₚ l' → map event_key l ≡ₚ map event_key l'.
Proof. apply Permutation_map. Qed.

Lemma differs_facet a b : differs a b = false ↔ facet a = facet b.
Proof.
  unfold differs, facet. rewrite orb_false_iff, !negb_false_iff, !String.eqb_eq. split; [|naive_solver].
  by intros [-> ->].
Qed.

Lemma view_insert r k a :
  view (set_agents r (<[k := a]> (agents r))) = <[k := facet a]> (view r).
Proof. unfold view, set_agents. cbn [agents]. apply fmap_insert. Qed.

(** One changed agent: the event carries the new facet, and no event is needed
    when the facet did not change. *)
Lemma change_one r k old a :
  RegInv r → AKey a = k → agents r !! k = Some old →
  let r' := set_agents r (<[k := a]> (agents r)) in
  let evs := if negb (differs old a) then [] else [mkAgentEvent AgentChanged a] in
  RegInv r' ∧ replay (view r) evs = view r'.
Proof.
  intros Hi Ha Hold. cbv zeta. split; [by eapply set_agent_inv|]. rewrite view_insert.
  destruct (differs old a) eqn:Hd; simpl.
  - unfold replay_event. cbn [AEKind]. unfold event_key. cbn [AEAgent]. by rewrite Ha.
  - apply differs_facet in Hd. symmetry. apply insert_id. unfold view.
    by rewrite lookup_fmap, Hold, <-Hd.
Qed.

Lemma with_keys a s t : AKey (with_status a s) = AKey a ∧ AKey (with_title a t) = AKey a.
Proof. done. Qed.

Lemma RegApply_replay r ev :
  RegInv r →
  RegInv (RegApply r ev).1.1 ∧ replay (view r) (RegApply r ev).1.2 = view (RegApply r ev).1.1.
Proof.
  intros Hi. unfold RegApply. destruct (EvKind ev); try done.
  - unfold applyStatus. destruct (byPane r !! _) as [key|]; [|done].
    destruct (EvAgent ev) as [ea|]; [|done]. destruct (agents r !! key) as [old|] eqn:Hold; [|done].
    set (a := if String.eqb (Title ea) "" then _ else _).
    assert (Ha : AKey a = key).
    { unfold a. destruct (String.eqb _ ""); exact (reg_key _ Hi _ _ Hold). }
    pose proof (change_one r key old a Hi Ha Hold) as H. cbv zeta in *. by destruct (negb _).
  - unfold applyUpdate. destruct (EvAgent ev) as [ea|]; [|done]. destruct (String.eqb (Kind ea) ""); [done|].
    destruct (agents r !! AKey ea) as [old|] eqn:Hold; [|done]. cbv zeta.
    set (a1 := if String.eqb (WorkspaceLabel ea) "" then _ else _).
    set (a2 := if String.eqb (TabLabel a1) "" then _ else _).
    set (a := if String.eqb (Cwd (with_name a2 (Name old))) "" then _ else _).
    assert (Ha : AKey a = AKey ea).
    { unfold a, a2, a1. by repeat destruct (String.eqb _ ""). }
    rewrite Ha. pose proof (change_one r (AKey ea) old a Hi Ha Hold) as H. by destruct (negb _).
Qed.

Lemma elem_of_gone next i m e :
  e ∈ gone_events next (range i m) ↔
  ∃ k a, m !! k = Some a ∧ next !! k = None ∧ e = mkAgentEvent AgentGone (exited a).
Proof.
  unfold gone_events. rewrite list_elem_of_omap. split.
  - intros ([k a] & H%elem_of_range & E). cbn [fst snd] in E.
    destruct (next !! k) eqn:Hk; simplify_eq. eauto.
  - intros (k & a & H & Hn & ->). exists (k, a). cbn [fst snd]. by rewrite elem_of_range, Hn.
Qed.

Lemma elem_of_appeared old i m e :
  e ∈ appeared_events old (range i m) ↔
  ∃ k a, m !! k = Some a ∧ old !! k = None ∧ e = mkAgentEvent AgentAppeared a.
Proof.
  unfold appeared_events. rewrite list_elem_of_omap. split.
  - intros ([k a] & H%elem_of_range & E). cbn [fst snd] in E.
    destruct (old !! k) eqn:Hk; simplify_eq. eauto.
  - intros (k & a & H & Hn & ->). exists (k, a). cbn [fst snd]. by rewrite elem_of_range, Hn.
Qed.

Lemma elem_of_changed old i m e :
  e ∈ changed_events old (range i m) ↔
  ∃ k a o, m !! k = Some a ∧ old !! k = Some o ∧ differs o a = true ∧ e = mkAgentEvent AgentChanged a.
Proof.
  unfold changed_events. rewrite list_elem_of_omap. split.
  - intros ([k a] & H%elem_of_range & E). cbn [fst snd] in E.
    destruct (old !! k) as [o|] eqn:Hk; [|done]. destruct (differs o a) eqn:Hd; simplify_eq. eauto 8.
  - intros (k & a & o & H & Ho & Hd & ->). exists (k, a). cbn [fst snd]. by rewrite elem_of_range, Ho, Hd.
Qed.

(** Events selected from a map keep distinct keys. *)
Lemma omap_keys_NoDup i m (f : Key * Agent → option AgentEvent) :
  (∀ k a e, m !! k = Some a → f (k, a) = Some e → event_key e = k) →
  NoDup (map event_key (omap f (range i m))).
Proof.
  intros Hf. assert (Hf' : ∀ p e, p ∈ range i m → f p = Some e → event_key e = p.1).
  { intros [k a] e Hp%elem_of_range. by apply Hf. }
  pose proof (range_NoDup i m) as Hd. clear Hf. induction (range i m) as [|p l IH]; [constructor|].
  rewrite fmap_cons in Hd. apply NoDup_cons in Hd as [Hn Hd].
  assert (IH' := IH (λ p' e Hp, Hf' p' e (list_elem_of_further _ _ _ Hp)) Hd).
  simpl. destruct (f p) as [e|] eqn:E; [|done]. cbn [map]. apply NoDup_cons. split; [|done].
  rewrite (Hf' p e) by (done || by left). intros Hin. apply Hn.
  apply list_elem_of_In, in_map_iff in Hin as (e' & Ek & Hin%list_elem_of_In).
  apply list_elem_of_omap in Hin as (p' & Hp' & E').
  apply list_elem_of_fmap. exists p'. split; [|done]. rewrite <-Ek. apply (Hf' p'); [by right|done].
Qed.

Lemma snapshot_events_NoDup r listed now :
  RegInv r → NoDup (map event_key (applySnapshot range r listed now).1.2).
Proof.
  intros Hi. unfold applySnapshot. cbn [fst snd]. set (next := index_agents listed).
  rewrite !map_app. unfold sortEvents.
  rewrite !(Permutation_map event_key (merge_sort_Permutation event_le _)).
  assert (Hnext : ∀ k a, next !! k = Some a → AKey a = k) by apply index_agents_own.
  rewrite !NoDup_app. split_and!.
  - apply omap_keys_NoDup. intros k a e Ha E. cbn [fst snd] in E.
    destruct (next !! k); simplify_eq. exact (reg_key _ Hi _ _ Ha).
  - intros k Hk. apply list_elem_of_In, in_map_iff in Hk as (e & <- & He%list_elem_of_In).
    apply elem_of_gone in He as (k' & a & Ha & Hn & ->).
    assert (event_key (mkAgentEvent AgentGone (exited a)) = k') as -> by exact (reg_key _ Hi _ _ Ha).
    rewrite <-map_app. intros Hk. apply list_elem_of_In, in_map_iff in Hk as (e & Ek & He%list_elem_of_In).
    apply elem_of_app in He as [He|He];
      [apply elem_of_appeared in He as (k2 & a2 & H2 & _ & ->)
      |apply elem_of_changed in He as (k2 & a2 & o & H2 & _ & _ & ->)];
      apply Hnext in H2 as E2; unfold event_key in Ek; cbn [AEAgent] in Ek; congruence.
  - apply omap_keys_NoDup. intros k a e Ha E. cbn [fst snd] in E.
    destruct (agents r !! k); simplify_eq. by apply Hnext.
  - intros k Hk Hk2. apply list_elem_of_In, in_map_iff in Hk as (e & <- & He%list_elem_of_In).
    apply list_elem_of_In, in_map_iff in Hk2 as (e2 & Ek & He2%list_elem_of_In).
    apply elem_of_appeared in He as (k1 & a1 & H1 & Hn & ->).
    apply elem_of_changed in He2 as (k2 & a2 & o & H2 & Ho & _ & ->).
    apply Hnext in H1, H2. unfold event_key in Ek. cbn [AEAgent] in Ek. congruence.
  - apply omap_keys_NoDup. intros k a e Ha E. cbn [fst snd] in E.
    destruct (agents r !! k) as [o|]; [|done]. destruct (differs o a); simplify_eq. by apply Hnext.
Qed.

Lemma elem_of_snapshot_events r listed now e :
  e ∈ (applySnapshot range r listed now).1.2 ↔
  e ∈ gone_events (index_agents listed) (range 1 (agents r)) ∨
  e ∈ appeared_events (agents r) (range 2 (index_agents listed)) ∨
  e ∈ changed_events (agents r) (range 2 (index_agents listed)).
Proof.
  unfold applySnapshot, sortEvents. cbn [fst snd]. by rewrite !elem_of_app, !merge_sort_Permutation.
Qed.

Lemma applySnapshot_replay r listed now :
  RegInv r →
  replay (view r) (applySnapshot range r listed now).1.2 = view (applySnapshot range r listed now).1.1.
Proof.
  intros Hi. pose proof (snapshot_events_NoDup r listed now Hi) as Hd.
  assert (Hev := elem_of_snapshot_events r listed now).
  set (evs := (applySnapshot range r listed now).1.2) in *.
  set (next := index_agents listed) in *.
  assert (Hnext : ∀ k a, next !! k = Some a → AKey a = k) by apply index_agents_own.
  apply map_eq. intros k. unfold view at 2. cbn [applySnapshot fst agents]. fold next. rewrite lookup_fmap.
  assert (Hin : ∀ e, e ∈ evs → event_key e = k → replay (view r) evs !! k = event_result e).
  { intros e He <-. by apply replay_in. }
  destruct (next !! k) as [a|] eqn:Ha, (agents r !! k) as [old|] eqn:Hold; cbn [fmap option_fmap option_map].
  - destruct (differs old a) eqn:Hdf.
    + rewrite (Hin (mkAgentEvent AgentChanged a)); [done| |by apply Hnext].
      apply Hev. right. right. apply elem_of_changed. eauto 8.
    + rewrite replay_other.
      * unfold view. rewrite lookup_fmap, Hold. apply differs_facet in Hdf. by rewrite <-Hdf.
      * intros Hk. apply list_elem_of_In, in_map_iff in Hk as (e & Ek & He%list_elem_of_In).
        apply Hev in He as [He|[He|He]].
        -- apply elem_of_gone in He as (k' & a' & H & Hn & ->). apply (reg_key _ Hi) in H.
           unfold event_key, exited in Ek. cbn in Ek. congruence.
        -- apply elem_of_appeared in He as (k' & a' & H & Hn & ->). apply Hnext in H as E'.
           unfold event_key in Ek. cbn in Ek. congruence.
        -- apply elem_of_changed in He as (k' & a' & o & H & Ho & Hd' & ->). apply Hnext in H as E'.
           unfold event_key in Ek. cbn in Ek. simplify_eq. congruence.
  - rewrite (Hin (mkAgentEvent AgentAppeared a)); [done| |by apply Hnext].
    apply Hev. right. left. apply elem_of_appeared. eauto 8.
  - rewrite (Hin (mkAgentEvent AgentGone (exited old))); [done| |exact (reg_key _ Hi _ _ Hold)].
    apply Hev. left. apply elem_of_gone. eauto 8.
  - rewrite replay_other; [unfold view; by rewrite lookup_fmap, Hold|].
    intros Hk. apply list_elem_of_In, in_map_iff in Hk as (e & Ek & He%list_elem_of_In).
    apply Hev in He as [He|[He|He]].
    + apply elem_of_gone in He as (k' & a' & H & Hn & ->). apply (reg_key _ Hi) in H as E'.
      unfold event_key, exited in Ek. cbn in Ek. congruence.
    + apply elem_of_appeared in He as (k' & a' & H & Hn & ->). apply Hnext in H as E'.
      unfold event_key in Ek. cbn in Ek. congruence.
    + apply elem_of_changed in He as (k' & a' & o & H & Ho & Hd' & ->). apply Hnext in H as E'.
      unfold event_key in Ek. cbn in Ek. congruence.
Qed.

Lemma take_snapshot_replay s listed now :
  RegInv (rs_reg s) →
  RegInv (rs_reg (take_snapshot range s listed now).1) ∧
  replay (view (rs_reg s)) (take_snapshot range s listed now).2
    = view (rs_reg (take_snapshot range s listed now).1).
Proof.
  intros Hi. unfold take_snapshot, Snapshot. destruct listed as [l|e]; [|].
  - pose proof (applySnapshot_inv (rs_reg s) l now) as H1.
    pose proof (applySnapshot_replay (rs_reg s) l now Hi) as H2.
    by destruct (applySnapshot range (rs_reg s) l now) as [[r' evs] panes].
  - split; [|done]. destruct Hi. by split.
Qed.

Lemma replay_app v a b : replay v (a ++ b) = replay (replay v a) b.
Proof. apply foldl_app. Qed.

Lemma run_step_replay s i listed now :
  RegInv (rs_reg s) →
  RegInv (rs_reg (run_step range s i listed now).1) ∧
  replay (view (rs_reg s)) (run_step range s i listed now).2
    = view (rs_reg (run_step range s i listed now).1).
Proof.
  intros Hi. destruct i as [[ev| | | | | | | | | ]| | | |]; cbn [run_step]; try done;
    try by apply take_snapshot_replay.
  pose proof (RegApply_replay (rs_reg s) ev Hi) as [Hi' Hr].
  destruct (RegApply (rs_reg s) ev) as [[r' evs] structural]. cbn [fst snd] in *.
  destruct (EvKind ev); try done.
  pose proof (take_snapshot_replay (mkRunState r' (rs_tick s) (rs_coalesce s) (rs_open s)) listed now Hi')
    as [Hi2 Hr2]. cbn [rs_reg] in Hr2.
  destruct (take_snapshot range _ listed now) as [s2 more]. cbn [fst snd] in *. split; [done|].
  by rewrite replay_app, Hr.
Qed.

(** The loop over a sequence of inputs: the state and everything emitted. *)
Definition run (s : RunState) (l : list (run_input * result (list Agent) * Time))
    : RunState * list AgentEvent :=
  foldl (λ acc x, let '(i, listed, now) := x in
                  let '(s', evs) := run_step range acc.1 i listed now in (s', acc.2 ++ evs)) (s, []) l.

(** C35: the events are enough: a consumer that starts with nothing and only
    follows the emitted events knows, after any interleaving of snapshots, socket
    events, failures and resets, exactly the live agents with their current label
    and status; and every agent stays filed under its own key and pane. *)
Theorem run_events_complete l now0 :
  let '(s, evs) := run (run_start now0) l in
  replay ∅ evs = view (rs_reg s) ∧ RegInv (rs_reg s).
Proof.
  assert (H : ∀ s evs, RegInv (rs_reg s) → replay ∅ evs = view (rs_reg s) →
    let r := foldl (λ acc x, let '(i, listed, now) := x in
                  let '(s', evs) := run_step range acc.1 i listed now in (s', acc.2 ++ evs)) (s, evs) l in
    replay ∅ r.2 = view (rs_reg r.1) ∧ RegInv (rs_reg r.1)).
  { induction l as [|[[i listed] now] l IH]; intros s evs Hi Hv; cbn [foldl]; [done|].
    cbn [fst snd]. pose proof (run_step_replay s i listed now Hi) as [Hi' Hr].
    destruct (run_step range s i listed now) as [s' evs']. apply IH; [done|].
    by rewrite replay_app, Hv. }
  unfold run. specialize (H (run_start now0) []). destruct (foldl _ _ l) as [s evs]. apply H.
  - split; cbn; [intros ? ? ?|intros ? ? ?|intros ? [? ?]]; by rewrite lookup_empty in *.
  - unfold view. cbn. by rewrite fmap_empty.
Qed.
End Props.

Lemma run_events_complete_witness :
  let a := mkAgent (mkKey "p1" "t1") "w" "shop" "" "" "claude" "" "" StatusIdle 0 0 false "" in
  let upd := mkHerdrEvent PaneAgentStatusChanged "p1" "" "" (Some (with_status a StatusBlocked)) "" None false in
  let l := [(InTick, Ok [a], 5); (InEvent (EvHerdr upd), Ok [], 6); (InTick, Ok [], 7)] in
  let '(s, evs) := run (λ _ m, map_to_list m) (run_start 0) l in
  map AEKind evs = [AgentAppeared; AgentChanged; AgentGone] ∧ replay ∅ evs = view (rs_reg s).
Proof.
  cbv zeta. set (l := [_; _; _]).
  pose proof (run_events_complete (λ _ m, map_to_list m) (λ _ _, Permutation_refl _) l 0) as H.
  destruct (run (λ _ m, map_to_list m) (run_start 0) l) as [s evs] eqn:E.
  destruct H as [H _]. split; [|exact H].
  vm_compute in E. injection E as _ <-. reflexivity.
Defined.
