(* ===== verification/Debounce.v ===== *)
(** internal/app/debounce.go: one trailing timer per agent key.

    [ScheduleAfter] starts a goroutine per timer, so the component is a step
    relation: the calls of the owner and, interleaved in any order, the steps of
    the waiting goroutines. A cancel channel is a token (a number never used
    twice); closing it adds the token to [closed]. *)
From S2P Require Import Prelude Status.

Local Open Scope Z_scope.

(** Where the goroutine of a token is: in the [select]; past it because the
    timer fired, before the lock; past the lock, about to send on [due]. *)
Inductive phase := Waiting | Fired | Sending.

#[global] Instance phase_eq_dec : EqDecision phase.
Proof. solve_decision. Defined.

Record waiter := mkWaiter { w_key : Key; w_deadline : Time; w_phase : phase }.

Definition due_capacity : nat := 256.

Record debouncer := mkDebouncer {
  pending : gmap Key nat;
  waiters : gmap nat waiter;
  closed : gset nat;
  fresh_token : nat;
  due : list Key;
  clock_now : Time;
  latest : gmap Key Time   (** when the last timer armed for a key fires; not in the code *)
}.

Definition newDebouncer : debouncer := mkDebouncer ∅ ∅ ∅ 0 [] 0 ∅.

Definition close_token (closed : gset nat) (t : option nat) : gset nat :=
  match t with Some t => {[t]} ∪ closed | None => closed end.

Definition ScheduleAfter (d : debouncer) (key : Key) (delay : Duration) : debouncer :=
  let t := fresh_token d in
  let deadline := time_add (clock_now d) delay in
  mkDebouncer (<[key := t]> (pending d)) (<[t := mkWaiter key deadline Waiting]> (waiters d))
    (close_token (closed d) (pending d !! key)) (S t) (due d) (clock_now d)
    (<[key := deadline]> (latest d)).

Definition Schedule (d : debouncer) (key : Key) (delay : Duration) : debouncer := ScheduleAfter d key delay.

Definition Cancel (d : debouncer) (key : Key) : debouncer * bool :=
  match pending d !! key with
  | None => (d, false)
  | Some t =>
    (mkDebouncer (delete key (pending d)) (waiters d) ({[t]} ∪ closed d) (fresh_token d) (due d)
       (clock_now d) (latest d), true)
  end.

(** [sortKeys]: by the string form. *)
Definition key_le (x y : Key) : Prop := String.le (KeyString x) (KeyString y).
#[global] Instance key_le_dec : RelDecision key_le.
Proof. intros x y. unfold key_le. apply _. Defined.

Definition Drain (d : debouncer) : debouncer * list Key :=
  (mkDebouncer ∅ (waiters d) (list_to_set (map_to_list (pending d)).*2 ∪ closed d) (fresh_token d)
     (due d) (clock_now d) (latest d),
   merge_sort key_le (map_to_list (pending d)).*1).

Definition Pending (d : debouncer) : nat := size (pending d).

Definition set_phase (d : debouncer) (t : nat) (w : waiter) (p : phase) : debouncer :=
  mkDebouncer (pending d) (<[t := mkWaiter (w_key w) (w_deadline w) p]> (waiters d)) (closed d)
    (fresh_token d) (due d) (clock_now d) (latest d).
Definition drop_waiter (d : debouncer) (t : nat) : debouncer :=
  mkDebouncer (pending d) (delete t (waiters d)) (closed d) (fresh_token d) (due d) (clock_now d) (latest d).

(** What happens in a step, as the owner sees it. *)
Inductive label :=
  | LSchedule (k : Key) (delay : Duration) | LCancel (k : Key) | LDrain
  | LInternal | LTaken (k : Key) | LReceive (k : Key) | LTime.

Inductive step : debouncer → label → debouncer → Prop :=
  | step_schedule d k delay : step d (LSchedule k delay) (ScheduleAfter d k delay)
  | step_cancel d k : step d (LCancel k) (Cancel d k).1
  | step_drain d : step d LDrain (Drain d).1
  | step_time d now :
      clock_now d ≤ now →
      step d LTime (mkDebouncer (pending d) (waiters d) (closed d) (fresh_token d) (due d) now (latest d))
  (** [case <-timer] *)
  | step_timer d t w :
      waiters d !! t = Some w → w_phase w = Waiting → w_deadline w ≤ clock_now d →
      step d LInternal (set_phase d t w Fired)
  (** [case <-cancel: return] *)
  | step_cancelled d t w :
      waiters d !! t = Some w → w_phase w = Waiting → t ∈ closed d →
      step d LInternal (drop_waiter d t)
  (** the lock: [d.pending[key] != cancel] *)
  | step_stale d t w :
      waiters d !! t = Some w → w_phase w = Fired → pending d !! w_key w ≠ Some t →
      step d LInternal (drop_waiter d t)
  (** [delete(d.pending, key)] *)
  | step_take d t w :
      waiters d !! t = Some w → w_phase w = Fired → pending d !! w_key w = Some t →
      step d (LTaken (w_key w))
        (set_phase (mkDebouncer (delete (w_key w) (pending d)) (waiters d) (closed d) (fresh_token d)
                      (due d) (clock_now d) (latest d)) t w Sending)
  (** [d.due <- key], when the buffer has room *)
  | step_send d t w :
      waiters d !! t = Some w → w_phase w = Sending → (length (due d) < due_capacity)%nat →
      step d LInternal
        (mkDebouncer (pending d) (delete t (waiters d)) (closed d) (fresh_token d)
           (due d ++ [w_key w]) (clock_now d) (latest d))
  (** the owner receives from [Due] *)
  | step_receive d k ks :
      due d = k :: ks →
      step d (LReceive k)
        (mkDebouncer (pending d) (waiters d) (closed d) (fresh_token d) ks (clock_now d) (latest d)).

(** Runs with their labels, oldest first. *)
Inductive steps : debouncer → list label → debouncer → Prop :=
  | steps_nil d : steps d [] d
  | steps_snoc d ls d1 l d2 : steps d ls d1 → step d1 l d2 → steps d (ls ++ [l]) d2.

(** ** Invariant *)

Record DebInv (d : debouncer) : Prop := {
  deb_fresh t : is_Some (waiters d !! t) → (t < fresh_token d)%nat;
  deb_pending k t : pending d !! k = Some t →
    (t < fresh_token d)%nat ∧ t ∉ closed d ∧
    ∃ w, waiters d !! t = Some w ∧ w_key w = k ∧ w_phase w ≠ Sending ∧
         latest d !! k = Some (w_deadline w);
  deb_fired t w : waiters d !! t = Some w → w_phase w ≠ Waiting → w_deadline w ≤ clock_now d;
  deb_closed t : t ∈ closed d → (t < fresh_token d)%nat;
  deb_live t w : waiters d !! t = Some w → w_phase w = Waiting →
    t ∈ closed d ∨ pending d !! w_key w = Some t;
  deb_due : (length (due d) ≤ due_capacity)%nat
}.

Lemma newDebouncer_inv : DebInv newDebouncer.
Proof.
  split; cbn [newDebouncer pending waiters closed fresh_token due clock_now latest];
    try (intros *; rewrite lookup_empty; by intros).
  - by intros t ?%elem_of_empty.
  - unfold due_capacity. simpl. lia.
Qed.

Lemma ScheduleAfter_inv d k delay : DebInv d → DebInv (ScheduleAfter d k delay).
Proof.
  intros [Hf Hp Hfi Hc Hl Hd]. unfold ScheduleAfter.
  assert (Hold : ∀ t, pending d !! k = Some t → (t < fresh_token d)%nat) by by intros t [? _]%Hp.
  split; cbn [pending waiters closed fresh_token due clock_now latest].
  - intros t. rewrite lookup_insert_is_Some'. intros [<-|H%Hf]; lia.
  - intros k' t' [[<- <-]|[Hne H]]%lookup_insert_Some.
    + split; [lia|]. split.
      * intros Hin. assert (fresh_token d ∈ closed d) as ?%Hc; [|lia].
        destruct (pending d !! k) as [t|] eqn:E; [|done]. cbn [close_token] in Hin.
        apply elem_of_union in Hin as [Heq%elem_of_singleton|?]; [|done]. specialize (Hold t eq_refl). lia.
      * eexists. rewrite lookup_insert_eq. split_and!; [done..|]. by rewrite lookup_insert_eq.
    + apply Hp in H as (Hlt & Hnc & w & Hw & Hk & Hph & Hla). split; [lia|]. split.
      * destruct (pending d !! k) as [t|] eqn:E; [|done]. cbn [close_token].
        rewrite not_elem_of_union, not_elem_of_singleton. split; [|done]. intros ->.
        apply Hp in E as (_ & _ & w' & Hw' & Hk' & _). congruence.
      * exists w. rewrite lookup_insert_ne by lia. split_and!; [done..|]. by rewrite lookup_insert_ne.
  - intros t w [[<- <-]|[Hne H]]%lookup_insert_Some; [done|by eapply Hfi].
  - intros t. destruct (pending d !! k) as [t'|] eqn:E; cbn [close_token].
    + intros [Heq%elem_of_singleton|?%Hc]%elem_of_union; [specialize (Hold t' eq_refl)|]; lia.
    + intros ?%Hc. lia.
  - intros t w [[<- <-]|[Hne H]]%lookup_insert_Some Hph; cbn [w_key].
    + right. by rewrite lookup_insert_eq.
    + destruct (Hl t w H Hph) as [Hin|Hin].
      * left. destruct (pending d !! k); [|done]. cbn. set_solver.
      * destruct (decide (w_key w = k)) as [<-|].
        -- left. rewrite Hin. cbn. set_solver.
        -- right. by rewrite lookup_insert_ne.
  - done.
Qed.

Lemma Cancel_inv d k : DebInv d → DebInv (Cancel d k).1.
Proof.
  intros Hi. unfold Cancel. destruct (pending d !! k) as [t|] eqn:E; [|done].
  destruct Hi as [Hf Hp Hfi Hc Hl Hd]. cbn [fst].
  split; cbn [pending waiters closed fresh_token due clock_now latest]; try done.
  - intros k' t' [Hne H]%lookup_delete_Some. destruct (Hp _ _ H) as (Hlt & Hnc & w & Hw & Hk & Hph & Hla).
    split; [done|]. split; [|eauto 8]. rewrite not_elem_of_union, not_elem_of_singleton. split; [|done].
    intros ->. apply Hp in E as (_ & _ & w' & Hw' & Hk' & _). congruence.
  - intros t'. rewrite elem_of_union, elem_of_singleton. intros [->|?%Hc]; [|done]. by apply Hp in E as [? _].
  - intros t' w Hw Hph. rewrite elem_of_union, elem_of_singleton.
    destruct (Hl t' w Hw Hph) as [?|Hpd]; [by auto|].
    destruct (decide (w_key w = k)) as [Hk|]; [left; left; congruence|right].
    by rewrite lookup_delete_ne.
Qed.

Lemma elem_of_pending_tokens d t :
  t ∈@{gset nat} list_to_set (map_to_list (pending d)).*2 ↔ ∃ k, pending d !! k = Some t.
Proof.
  rewrite elem_of_list_to_set, list_elem_of_fmap. split.
  - intros ([k t'] & -> & H%elem_of_map_to_list). by exists k.
  - intros [k H]. exists (k, t). by rewrite elem_of_map_to_list.
Qed.

Lemma Drain_inv d : DebInv d → DebInv (Drain d).1.
Proof.
  intros [Hf Hp Hfi Hc Hl Hd]. unfold Drain. cbn [fst].
  split; cbn [pending waiters closed fresh_token due clock_now latest]; try done.
  - intros t. rewrite elem_of_union, elem_of_pending_tokens. intros [[k [? _]%Hp]|?%Hc]; done.
  - intros t w Hw Hph. left. rewrite elem_of_union, elem_of_pending_tokens.
    destruct (Hl t w Hw Hph); [by auto|]. left. by eexists.
Qed.

(** The goroutine steps touch one waiter. *)
Lemma set_phase_inv d t w p :
  DebInv d → waiters d !! t = Some w → w_phase w ≠ Sending → p = Fired → w_deadline w ≤ clock_now d →
  DebInv (set_phase d t w p).
Proof.
  intros [Hf Hp Hfi Hc Hl Hd] Hw Hph -> Hdl. unfold set_phase.
  split; cbn [pending waiters closed fresh_token due clock_now latest]; try done.
  - intros t'. rewrite lookup_insert_is_Some'. intros [<-|?]; apply Hf; eauto.
  - intros k t' H. destruct (Hp _ _ H) as (Hlt & Hnc & w' & Hw' & Hk & Hph' & Hla).
    split; [done|]. split; [done|]. destruct (decide (t = t')) as [->|].
    + assert (w' = w) as -> by congruence. eexists. rewrite lookup_insert_eq. by split_and!.
    + exists w'. by rewrite lookup_insert_ne.
  - intros t' w' [[<- <-]|[Hne H]]%lookup_insert_Some; [done|by eapply Hfi].
  - intros t' w' [[<- <-]|[Hne H]]%lookup_insert_Some ?; [done|by apply Hl].
Qed.

Lemma drop_waiter_inv d t w :
  DebInv d → waiters d !! t = Some w → pending d !! w_key w ≠ Some t → DebInv (drop_waiter d t).
Proof.
  intros [Hf Hp Hfi Hc Hl Hd] Hw Hnp. unfold drop_waiter.
  split; cbn [pending waiters closed fresh_token due clock_now latest]; try done.
  - intros t'. rewrite lookup_delete_is_Some. intros [_ ?]. by apply Hf.
  - intros k t' H. destruct (Hp _ _ H) as (Hlt & Hnc & w' & Hw' & Hk & Hph' & Hla).
    split; [done|]. split; [done|]. exists w'. rewrite lookup_delete_ne; [done|]. intros ->.
    congruence.
  - intros t' w' [Hne H]%lookup_delete_Some. by eapply Hfi.
  - intros t' w' [Hne H]%lookup_delete_Some. by apply Hl.
Qed.

Lemma step_inv d l d' : step d l d' → DebInv d → DebInv d'.
Proof.
  intros Hs Hi. destruct Hs as
    [d k delay|d k|d|d now Hnow|d t w Hw Hph Hdl|d t w Hw Hph Hin|d t w Hw Hph Hne|d t w Hw Hph Hpd
    |d t w Hw Hph Hlen|d k ks Hdue].
  - by apply ScheduleAfter_inv.
  - by apply Cancel_inv.
  - by apply Drain_inv.
  - destruct Hi as [Hf Hp Hfi Hc Hl Hd]. split; cbn [pending waiters closed fresh_token due clock_now latest]; try done.
    intros t w Hw Hph. specialize (Hfi t w Hw Hph). lia.
  - apply set_phase_inv; by rewrite ?Hph.
  - eapply drop_waiter_inv; [done..|]. intros Hpd. by apply (deb_pending _ Hi) in Hpd as (_ & ? & _).
  - by eapply drop_waiter_inv.
  - assert (Hdl : w_deadline w ≤ clock_now d) by (eapply (deb_fired _ Hi); [done|by rewrite Hph]).
    destruct Hi as [Hf Hp Hfi Hc Hl Hd]. unfold set_phase.
    split; cbn [pending waiters closed fresh_token due clock_now latest]; try done.
    + intros t'. rewrite lookup_insert_is_Some'. intros [<-|?]; apply Hf; eauto.
    + intros k t' [Hne H]%lookup_delete_Some. destruct (Hp _ _ H) as (Hlt & Hnc & w' & Hw' & Hk & Hph' & Hla).
      split; [done|]. split; [done|]. exists w'. rewrite lookup_insert_ne; [done|]. congruence.
    + intros t' w' [[<- <-]|[Hne H]]%lookup_insert_Some; [done|by eapply Hfi].
    + intros t' w' [[<- <-]|[Hne H]]%lookup_insert_Some Hph'; [done|].
      destruct (Hl t' w' H Hph') as [?|Hpd']; [by left|right].
      rewrite lookup_delete_ne; [done|]. congruence.
  - assert (Hnp : pending d !! w_key w ≠ Some t).
    { intros Hpd. apply (deb_pending _ Hi) in Hpd as (_ & _ & w' & Hw' & _ & Hph' & _). congruence. }
    destruct (drop_waiter_inv d t w Hi Hw Hnp) as [Hf Hp Hfi Hc Hl Hd].
    split; cbn [pending waiters closed fresh_token due clock_now latest drop_waiter] in *; try done.
    rewrite length_app. simpl. lia.
  - destruct Hi as [Hf Hp Hfi Hc Hl Hd]. split; cbn [pending waiters closed fresh_token due clock_now latest]; try done.
    rewrite Hdue in Hd. simpl in Hd. lia.
Qed.

Lemma steps_inv d ls d' : steps d ls d' → DebInv d → DebInv d'.
Proof. induction 1 as [|? ? ? ? ? _ IH Hs]; [done|]. intros Hi. eapply step_inv; [done|]. by apply IH. Qed.

Lemma steps_app d ls1 d1 ls2 d2 : steps d ls1 d1 → steps d1 ls2 d2 → steps d (ls1 ++ ls2) d2.
Proof.
  intros H1. induction 1 as [|? ? ? ? ? _ IH Hs]; [by rewrite app_nil_r|].
  rewrite app_assoc. eapply steps_snoc; [by apply IH|done].
Qed.

Lemma steps_one d l d' : step d l d' → steps d [l] d'.
Proof. intros H. apply (steps_snoc d [] d l d'); [constructor|done]. Qed.

(** The debounce is trailing: in every execution an edit is released only
    once the deadline of the last [Schedule] of its key has passed, however many
    earlier timers of that key fired or were cancelled in the meantime. *)
Theorem released_after_last ls d k d'
    (Hrun : steps newDebouncer ls d) (Hstep : step d (LTaken k) d') :
  ∃ deadline, latest d !! k = Some deadline ∧ deadline ≤ clock_now d ∧ pending d' !! k = None.
Proof.
  pose proof (steps_inv _ _ _ Hrun newDebouncer_inv) as Hi.
  inversion Hstep as [| | | | | | |d0 t w Hw Hph Hpd| |]; subst.
  destruct (deb_pending _ Hi _ _ Hpd) as (_ & _ & w' & Hw' & _ & _ & Hla).
  exists (w_deadline w). assert (w' = w) as -> by congruence. split_and!; [done| |].
  - eapply (deb_fired _ Hi); [done|by rewrite Hph].
  - cbn. by rewrite lookup_delete_eq.
Qed.

(** ** Accounting *)

Definition scheduled (k : Key) (ls : list label) : nat :=
  length (List.filter (λ l, match l with LSchedule k' _ => bool_decide (k' = k) | _ => false end) ls).
Definition taken (k : Key) (ls : list label) : nat :=
  length (List.filter (λ l, match l with LTaken k' => bool_decide (k' = k) | _ => false end) ls).
Definition received (k : Key) (ls : list label) : nat :=
  length (List.filter (λ l, match l with LReceive k' => bool_decide (k' = k) | _ => false end) ls).
Definition in_due (k : Key) (l : list Key) : nat := length (List.filter (λ k', bool_decide (k' = k)) l).

(** The goroutines about to send [k]. *)
Definition sending (k : Key) (d : debouncer) : nat :=
  size (filter (λ p : nat * waiter, w_key p.2 = k ∧ w_phase p.2 = Sending) (waiters d)).

Lemma size_filter_insert (P : nat * waiter → Prop) `{!∀ x, Decision (P x)} (m : gmap nat waiter) t w :
  size (filter P (<[t := w]> m)) =
  ((if decide (P (t, w)) then 1 else 0) + size (filter P (delete t m)))%nat.
Proof.
  rewrite <-insert_delete_eq. destruct (decide (P (t, w))) as [HP|HP].
  - rewrite map_filter_insert_True by done. rewrite map_size_insert_None; [done|].
    apply map_lookup_filter_None. left. by rewrite lookup_delete_eq.
  - rewrite map_filter_insert_False by done. by rewrite delete_delete_eq.
Qed.

Lemma size_filter_delete (P : nat * waiter → Prop) `{!∀ x, Decision (P x)} (m : gmap nat waiter) t w :
  m !! t = Some w →
  size (filter P m) = ((if decide (P (t, w)) then 1 else 0) + size (filter P (delete t m)))%nat.
Proof. intros Hm. rewrite <-(insert_id m t w Hm) at 1. apply size_filter_insert. Qed.

Lemma delete_fresh (m : gmap nat waiter) t : m !! t = None → delete t m = m.
Proof. apply delete_id. Qed.

Record Accounted (k : Key) (ls : list label) (d : debouncer) : Prop := {
  acc_delivered : taken k ls = (received k ls + in_due k (due d) + sending k d)%nat;
  acc_armed : (taken k ls + (if pending d !! k then 1 else 0) ≤ scheduled k ls)%nat
}.

Lemma filter_snoc_length {A} (f : A → bool) l x :
  length (List.filter f (l ++ [x])) = (length (List.filter f l) + if f x then 1 else 0)%nat.
Proof. rewrite filter_snoc, length_app. by destruct (f x). Qed.

Lemma in_due_snoc k l x : in_due k (l ++ [x]) = (in_due k l + if decide (x = k) then 1 else 0)%nat.
Proof. unfold in_due. rewrite filter_snoc_length. by case_decide; case_bool_decide. Qed.

Lemma in_due_cons k l x : in_due k (x :: l) = ((if decide (x = k) then 1 else 0) + in_due k l)%nat.
Proof. unfold in_due. simpl. case_decide; case_bool_decide; done. Qed.

(** The effect of one waiter changing on [sending]. *)
Lemma sending_set k d t w p :
  waiters d !! t = Some w → w_phase w ≠ Sending →
  sending k (set_phase d t w p) =
  (sending k d + if decide (w_key w = k ∧ p = Sending) then 1 else 0)%nat.
Proof.
  intros Hw Hph. unfold sending, set_phase. cbn [waiters]. rewrite size_filter_insert.
  rewrite (size_filter_delete _ _ t w Hw).
  rewrite (decide_False (P:=w_key (t, w).2 = k ∧ w_phase (t, w).2 = Sending)) by by intros [_ ?].
  cbn [snd w_key w_phase]. destruct (decide (w_key w = k ∧ p = Sending)); simpl; lia.
Qed.

Lemma sending_delete k d t w :
  waiters d !! t = Some w →
  sending k d = ((if decide (w_key w = k ∧ w_phase w = Sending) then 1 else 0)
                 + sending k (drop_waiter d t))%nat.
Proof. intros Hw. unfold sending, drop_waiter. cbn [waiters]. by rewrite (size_filter_delete _ _ t w Hw). Qed.

Lemma sending_fresh k d t w m :
  waiters d !! t = None → w_phase w ≠ Sending → waiters m = <[t := w]> (waiters d) →
  sending k m = sending k d.
Proof.
  intros Hn Hph E. unfold sending. rewrite E, size_filter_insert, delete_id by done.
  rewrite decide_False by by intros [_ ?]. done.
Qed.

Lemma steps_accounted k d ls : steps newDebouncer ls d → Accounted k ls d.
Proof.
  intros Hrun. remember newDebouncer as d0 eqn:E0.
  induction Hrun as [d|d ls d1 l d2 Hrun IH Hs]; subst.
  { split; [|done]. cbn. unfold sending. cbn. by rewrite map_filter_empty, map_size_empty. }
  specialize (IH eq_refl). pose proof (steps_inv _ _ _ Hrun newDebouncer_inv) as Hi.
  destruct IH as [Hdel Harm].
  split; unfold taken, received, scheduled in *; rewrite !filter_snoc_length; destruct Hs as
    [d k' delay|d k'|d|d now Hnow|d t w Hw Hph Hdl|d t w Hw Hph Hin|d t w Hw Hph Hne|d t w Hw Hph Hpd
    |d t w Hw Hph Hlen|d k' ks Hdue]; rewrite ?Nat.add_0_r.
  all: try (rewrite Hdel; f_equal; fail).
  - rewrite Hdel. f_equal. symmetry.
    apply (sending_fresh k d (fresh_token d) (mkWaiter k' (time_add (clock_now d) delay) Waiting));
      [|done|done].
    apply eq_None_not_Some. intros ?%(deb_fresh _ Hi). lia.
  - rewrite Hdel. unfold Cancel. by destruct (pending d !! k').
  - rewrite Hdel, (sending_set k d t w Fired Hw) by by rewrite Hph.
    rewrite decide_False by by intros [_ ?]. cbn [due set_phase]. lia.
  - rewrite Hdel, (sending_delete k d t w Hw). rewrite decide_False by (rewrite Hph; by intros [_ ?]).
    cbn [due drop_waiter]. lia.
  - rewrite Hdel, (sending_delete k d t w Hw). rewrite decide_False by (rewrite Hph; by intros [_ ?]).
    cbn [due drop_waiter]. lia.
  - rewrite Hdel. set (dp := mkDebouncer _ _ _ _ _ _ _).
    rewrite (sending_set k dp t w Sending) by (done || by rewrite Hph).
    change (sending k dp) with (sending k d). cbn [due set_phase dp].
    case_bool_decide as Hk; case_decide as Hd; naive_solver lia.
  - rewrite Hdel, (sending_delete k d t w Hw). rewrite Hph. cbn [due]. rewrite in_due_snoc.
    change (sending k (mkDebouncer (pending d) (delete t (waiters d)) (closed d) (fresh_token d)
      (due d ++ [w_key w]) (clock_now d) (latest d))) with (sending k (drop_waiter d t)).
    repeat case_decide; naive_solver lia.
  - rewrite Hdel, Hdue, in_due_cons. cbn [due].
    change (sending k (mkDebouncer (pending d) (waiters d) (closed d) (fresh_token d) ks
      (clock_now d) (latest d))) with (sending k d).
    case_decide; case_bool_decide; try done; lia.
  - unfold ScheduleAfter. cbn [pending]. case_bool_decide as Hk.
    + subst. rewrite lookup_insert_eq. destruct (pending d !! k); lia.
    + rewrite lookup_insert_ne by done. lia.
  - unfold Cancel. destruct (pending d !! k') as [t|] eqn:E; [|done]. cbn [pending fst].
    destruct (decide (k' = k)) as [->|]; [rewrite lookup_delete_eq|by rewrite lookup_delete_ne].
    destruct (pending d !! k); lia.
  - destruct (pending d !! k); lia.
  - done.
  - done.
  - done.
  - done.
  - cbn [pending set_phase]. case_bool_decide as Hk.
    + rewrite <-Hk in *. rewrite Hpd in Harm. rewrite lookup_delete_eq. lia.
    + rewrite lookup_delete_ne by done. lia.
  - done.
  - done.
Qed.

(** Nothing is lost and nothing is invented: in every execution each
    release of a key is received by the owner, waits in the channel, or is held
    by exactly one goroutine about to send it, and there are at most as many
    releases as calls of [Schedule], one of which is still unspent while the key
    is armed. *)
Theorem debounce_accounting ls d k (Hrun : steps newDebouncer ls d) :
  taken k ls = (received k ls + in_due k (due d) + sending k d)%nat ∧
  (taken k ls + (if pending d !! k then 1 else 0) ≤ scheduled k ls)%nat.
Proof. by destruct (steps_accounted k d ls Hrun). Qed.

(** C40: an armed key is never stuck: from every reachable state in which it is
    pending the clock and the goroutines alone can release it. *)
Theorem armed_can_release ls d k
    (Hrun : steps newDebouncer ls d) (Harmed : is_Some (pending d !! k)) :
  ∃ ls' d', steps d (ls' ++ [LTaken k]) d' ∧ pending d' !! k = None ∧
    Forall (λ l, l = LTime ∨ l = LInternal) ls'.
Proof.
  pose proof (steps_inv _ _ _ Hrun newDebouncer_inv) as Hi. destruct Harmed as [t Hpd].
  destruct (deb_pending _ Hi _ _ Hpd) as (_ & _ & w & Hw & Hk & Hph & _). subst k.
  destruct (w_phase w) eqn:Ep; [| |done].
  - set (d1 := mkDebouncer (pending d) (waiters d) (closed d) (fresh_token d) (due d)
                 (Z.max (clock_now d) (w_deadline w)) (latest d)).
    set (d2 := set_phase d1 t w Fired).
    exists [LTime; LInternal]. eexists. split; [|split; [|rewrite !Forall_cons; by auto]].
    + apply (steps_snoc _ [LTime; LInternal] d2); [apply (steps_snoc _ [LTime] d1); [apply steps_one|]|].
      * apply step_time. lia.
      * apply step_timer; [done|done|]. cbn. lia.
      * apply (step_take d2 t (mkWaiter (w_key w) (w_deadline w) Fired)); [|done|done].
        cbn. by rewrite lookup_insert_eq.
    + cbn. by rewrite lookup_delete_eq.
  - exists []. eexists. split; [|split; [|constructor]].
    + apply steps_one, (step_take d t w); done.
    + cbn. by rewrite lookup_delete_eq.
Qed.

(** [Drain] hands every armed key to the owner, once, and disarms them all. *)
Lemma Drain_spec d :
  (∀ k, k ∈ (Drain d).2 ↔ is_Some (pending d !! k)) ∧ NoDup (Drain d).2 ∧ Pending (Drain d).1 = 0%nat.
Proof.
  unfold Drain, Pending. cbn [fst snd pending]. split_and!; [|rewrite merge_sort_Permutation|apply map_size_empty].
  - intros k. rewrite merge_sort_Permutation, list_elem_of_fmap. split.
    + intros ([k' t] & -> & H%elem_of_map_to_list). by eexists.
    + intros [t H]. exists (k, t). by rewrite elem_of_map_to_list.
  - apply NoDup_fst_map_to_list.
Qed.

Lemma released_after_last_witness :
  let k := mkKey "p" "t" in
  ∃ ls d d', steps newDebouncer ls d ∧ step d (LTaken k) d' ∧
    ∃ deadline, latest d !! k = Some deadline ∧ deadline ≤ clock_now d ∧ pending d' !! k = None.
Proof.
  cbv zeta. set (k := mkKey "p" "t").
  set (d1 := ScheduleAfter newDebouncer k 3). set (d2 := ScheduleAfter d1 k 5).
  set (d3 := mkDebouncer (pending d2) (waiters d2) (closed d2) (fresh_token d2) (due d2) 9 (latest d2)).
  set (d4 := set_phase d3 1 (mkWaiter k 5 Waiting) Fired).
  assert (Hrun : steps newDebouncer [LSchedule k 3; LSchedule k 5; LTime; LInternal] d4).
  { apply (steps_snoc _ [LSchedule k 3; LSchedule k 5; LTime] d3);
      [apply (steps_snoc _ [LSchedule k 3; LSchedule k 5] d2);
        [apply (steps_snoc _ [LSchedule k 3] d1); [apply steps_one|]|]|].
    - apply step_schedule.
    - apply step_schedule.
    - apply step_time. vm_compute. discriminate.
    - apply step_timer; [vm_compute; reflexivity|reflexivity|vm_compute; discriminate]. }
  assert (Hstep : step d4 (LTaken k)
    (set_phase (mkDebouncer (delete k (pending d4)) (waiters d4) (closed d4) (fresh_token d4) (due d4)
       (clock_now d4) (latest d4)) 1 (mkWaiter k 5 Fired) Sending)).
  { apply (step_take d4 1 (mkWaiter k 5 Fired)); vm_compute; reflexivity. }
  do 3 eexists. split; [exact Hrun|]. split; [exact Hstep|].
  exact (released_after_last _ _ _ _ Hrun Hstep).
Defined.

Lemma debounce_accounting_witness :
  let k := mkKey "p" "t" in
  let d := ScheduleAfter (ScheduleAfter newDebouncer k 3) k 5 in
  (taken k [LSchedule k 3%Z; LSchedule k 5%Z] + (if pending d !! k then 1 else 0)
     ≤ scheduled k [LSchedule k 3%Z; LSchedule k 5%Z])%nat.
Proof.
  cbv zeta. set (k := mkKey "p" "t").
  apply (debounce_accounting [LSchedule k 3%Z; LSchedule k 5%Z]).
  apply (steps_snoc _ [LSchedule k 3] (ScheduleAfter newDebouncer k 3)); [apply steps_one|];
    apply step_schedule.
Defined.

Lemma armed_can_release_witness :
  let k := mkKey "p" "t" in
  ∃ ls' d', steps (ScheduleAfter newDebouncer k 3) (ls' ++ [LTaken k]) d' ∧ pending d' !! k = None ∧
    Forall (λ l, l = LTime ∨ l = LInternal) ls'.
Proof.
  cbv zeta. set (k := mkKey "p" "t").
  apply (armed_can_release [LSchedule k 3]); [apply steps_one, step_schedule|].
  exists 0%nat. vm_compute. reflexivity.
Defined.
