(* ===== verification/Presence.v ===== *)
(** internal/domain/presence.go and internal/app/presence.go: whether quiet mode
    is in force, and the flips of that flag the daemon loop receives.

    The options in force, the clock and the answer of the idle source are
    arguments of each operation; every operation runs under the mutex, so a
    sequence of operations is a sequence of calls. The channel [Changes], of
    capacity one, is an optional value. *)
From S2P Require Import Prelude GoStrings Errors OptionRegistry.

Local Open Scope Z_scope.

Record PresenceState := mkPresenceState {
  Enabled : bool;
  Supported : bool;
  AtDesk : bool;
  ManualAway : bool;
  Until : Time;
  Quiet : bool
}.

Definition Word (s : PresenceState) : string :=
  if negb (Enabled s) || negb (Supported s) then "off"
  else if ManualAway s then "away-manual"
  else if Quiet s then "on"
  else "away".

Record Presence := mkPresence {
  atDesk : bool;
  sampled : bool;
  unsupported : bool;
  failing : bool;
  manualAway : bool;
  manualUntil : Time;
  quiet : bool;
  changes : option bool
}.

(** [nil_idle]: the idle source is nil. *)
Definition NewPresence (nil_idle : bool) : Presence :=
  mkPresence false false nil_idle false false time_zero false None.

Definition state (o : Options) (p : Presence) : PresenceState :=
  mkPresenceState (QuietEnabled o) (negb (unsupported p)) (sampled p && atDesk p) (manualAway p)
    (manualUntil p) (quiet p).

Definition set_away (p : Presence) (away : bool) (until : Time) : Presence :=
  mkPresence (atDesk p) (sampled p) (unsupported p) (failing p) away until (quiet p) (changes p).

(** The flag [recompute] derives. *)
Definition effective (o : Options) (p : Presence) : bool :=
  QuietEnabled o && negb (unsupported p) && sampled p && atDesk p && negb (manualAway p).

(** An undelivered value is taken out first, so the send never blocks. *)
Definition recompute (o : Options) (p : Presence) : Presence :=
  let q := effective o p in
  if Bool.eqb q (quiet p) then p
  else mkPresence (atDesk p) (sampled p) (unsupported p) (failing p) (manualAway p) (manualUntil p)
         q (Some q).

Definition sample (o : Options) (p : Presence) (idle : result Duration) : Presence :=
  if unsupported p then p
  else
    match idle with
    | Err e =>
      if errors_is e ErrIdleUnsupported
      then mkPresence false true true (failing p) (manualAway p) (manualUntil p) (quiet p) (changes p)
      else mkPresence (atDesk p) (sampled p) (unsupported p) true (manualAway p) (manualUntil p)
             (quiet p) (changes p)
    | Ok d =>
      mkPresence (d <? QuietIdle o) true (unsupported p) false (manualAway p) (manualUntil p)
        (quiet p) (changes p)
    end.

Definition expire_away (p : Presence) (now : Time) : Presence :=
  if manualAway p && negb (is_zero (manualUntil p)) && negb (time_before now (manualUntil p))
  then set_away p false time_zero else p.

Definition Poll (o : Options) (p : Presence) (now : Time) (idle : result Duration) : Presence :=
  recompute o (sample o (expire_away p now) idle).

Definition Away (o : Options) (p : Presence) (now : Time) (d : Duration) : Presence * PresenceState :=
  let p' := recompute o (set_away p true (if 0 <? d then time_add now d else time_zero)) in
  (p', state o p').

Definition Here (o : Options) (p : Presence) : Presence * PresenceState :=
  let p' := recompute o (set_away p false time_zero) in (p', state o p').

Definition Recompute (o : Options) (p : Presence) : Presence := recompute o p.

(** The daemon loop receives from [Changes]. *)
Definition receive (p : Presence) : Presence * option bool :=
  (mkPresence (atDesk p) (sampled p) (unsupported p) (failing p) (manualAway p) (manualUntil p)
     (quiet p) None, changes p).

(** ** Sequences of operations *)

Inductive op :=
  | OpPoll (o : Options) (now : Time) (idle : result Duration)
  | OpAway (o : Options) (now : Time) (d : Duration)
  | OpHere (o : Options)
  | OpRecompute (o : Options)
  | OpReceive.

(** The tracker and the last value the daemon received. *)
Definition apply_op (s : Presence * bool) (x : op) : Presence * bool :=
  let '(p, seen) := s in
  match x with
  | OpPoll o now idle => (Poll o p now idle, seen)
  | OpAway o now d => ((Away o p now d).1, seen)
  | OpHere o => ((Here o p).1, seen)
  | OpRecompute o => (Recompute o p, seen)
  | OpReceive => ((receive p).1, default seen (receive p).2)
  end.

Definition op_options (x : op) : option Options :=
  match x with
  | OpPoll o _ _ | OpAway o _ _ | OpHere o | OpRecompute o => Some o
  | OpReceive => None
  end.

(** The flag equals the last value received or waiting, and a platform without an
    idle source is never quiet. *)
Record PresenceInv (p : Presence) (seen : bool) : Prop := {
  pr_view : quiet p = default seen (changes p);
  pr_unsupported : unsupported p = true → quiet p = true → False;
  pr_until : manualAway p = false → manualUntil p = time_zero
}.

Lemma recompute_quiet o p : quiet (recompute o p) = effective o p.
Proof. unfold recompute. by destruct (Bool.eqb_spec (effective o p) (quiet p)). Qed.

Lemma recompute_same o p :
  let r := recompute o p in
  atDesk r = atDesk p ∧ sampled r = sampled p ∧ unsupported r = unsupported p ∧
  manualAway r = manualAway p ∧ manualUntil r = manualUntil p ∧ effective o r = effective o p.
Proof. cbv zeta. unfold recompute. by destruct (Bool.eqb _ _). Qed.

Lemma recompute_inv o p seen :
  quiet p = default seen (changes p) → (manualAway p = false → manualUntil p = time_zero) →
  PresenceInv (recompute o p) seen.
Proof.
  intros Hv Hu. pose proof (recompute_same o p) as (_ & _ & Hun & Hm & Hmu & _). split.
  - unfold recompute. destruct (Bool.eqb_spec (effective o p) (quiet p)); [done|]. done.
  - rewrite recompute_quiet, Hun. unfold effective. intros -> H. by rewrite andb_false_r in H.
  - by rewrite Hm, Hmu.
Qed.

Lemma sample_same o p idle :
  quiet (sample o p idle) = quiet p ∧ changes (sample o p idle) = changes p ∧
  manualAway (sample o p idle) = manualAway p ∧ manualUntil (sample o p idle) = manualUntil p.
Proof. unfold sample. destruct (unsupported p), idle; try done. by destruct (errors_is _ _). Qed.

Lemma expire_away_same p now :
  quiet (expire_away p now) = quiet p ∧ changes (expire_away p now) = changes p ∧
  ((manualAway p = false → manualUntil p = time_zero) →
   manualAway (expire_away p now) = false → manualUntil (expire_away p now) = time_zero).
Proof. unfold expire_away. by destruct (_ && _). Qed.

Lemma apply_op_inv s x :
  PresenceInv s.1 s.2 → PresenceInv (apply_op s x).1 (apply_op s x).2.
Proof.
  destruct s as [p seen]. cbn [fst snd]. intros [Hv Hun Hu].
  destruct x as [o now idle|o now d|o|o|]; cbn [apply_op fst snd Away Here].
  - destruct (sample_same o (expire_away p now) idle) as (Hq & Hc & Hm & Hmu).
    destruct (expire_away_same p now) as (Hq' & Hc' & Hu').
    apply recompute_inv; [by rewrite Hq, Hc, Hq', Hc'|]. rewrite Hm, Hmu. auto.
  - by apply recompute_inv.
  - by apply recompute_inv.
  - by apply recompute_inv.
  - split; cbn [receive fst snd quiet changes unsupported manualAway manualUntil]; [|done|done].
    rewrite Hv. by destruct (changes p).
Qed.

Lemma run_inv nil_idle ops : PresenceInv (foldl apply_op (NewPresence nil_idle, false) ops).1
                                         (foldl apply_op (NewPresence nil_idle, false) ops).2.
Proof.
  assert (H : PresenceInv (NewPresence nil_idle, false).1 (NewPresence nil_idle, false).2) by by split.
  revert H. generalize (NewPresence nil_idle, false). induction ops as [|x ops IH]; intros s H; [done|].
  cbn [foldl]. by apply IH, apply_op_inv.
Qed.

(** Quiet mode is in force exactly when it should be: after any sequence of
    polls, /away, /here, option changes and receptions by the daemon, ending in
    an operation that looked at the options, the flag holds iff the option is on,
    the platform has an idle source, the last good sample saw input within the
    threshold and no /away is active; and the daemon's last received or waiting
    value is that flag, so no flip is ever missed. *)
Theorem quiet_exact nil_idle ops x o (Hlast : op_options x = Some o) :
  let '(p, seen) := foldl apply_op (NewPresence nil_idle, false) (ops ++ [x]) in
  quiet p = effective o p ∧ default seen (changes p) = quiet p ∧
  (Word (state o p) = "on" ↔ quiet p = true).
Proof.
  pose proof (run_inv nil_idle (ops ++ [x])) as Hi. rewrite foldl_app in *. cbn [foldl] in *.
  destruct (foldl apply_op _ ops) as [p0 seen0].
  destruct (apply_op (p0, seen0) x) as [p seen] eqn:E. destruct Hi as [Hv _ _].
  assert (Hq : quiet p = effective o p).
  { assert (∃ p1, p = recompute o p1) as [p1 ->].
    { destruct x; cbn [apply_op op_options Away Here fst] in E, Hlast; try discriminate Hlast;
        injection Hlast as ->; injection E as <- _; by eexists. }
    rewrite recompute_quiet. symmetry. apply recompute_same. }
  split; [done|]. split; [done|].
  unfold Word, state. cbn [Enabled Supported ManualAway Quiet]. rewrite Hq. unfold effective.
  by destruct (QuietEnabled o), (unsupported p), (sampled p), (atDesk p), (manualAway p).
Qed.

Lemma quiet_exact_witness :
  let o := mkOptions {[OptionQuietEnabled := "true"]} in
  let '(p, seen) := foldl apply_op (NewPresence false, false) ([OpPoll o 5 (Ok 0)] ++ [OpRecompute o]) in
  quiet p = true ∧ default seen (changes p) = quiet p.
Proof.
  cbv zeta. set (o := mkOptions _).
  pose proof (quiet_exact false [OpPoll o 5 (Ok 0)] (OpRecompute o) o eq_refl) as H.
  destruct (foldl apply_op _ _) as [p seen] eqn:E. destruct H as (_ & H & _). split; [|exact H].
  vm_compute in E. injection E as <- <-. reflexivity.
Defined.

(** ** The /away override *)

(** Operations that leave the override alone: polls before it expires, option
    changes and receptions. *)
Definition before (until : Time) (x : op) : Prop :=
  match x with
  | OpPoll _ now _ => is_zero until = true ∨ now < until
  | OpRecompute _ | OpReceive => True
  | _ => False
  end.

Lemma before_step until s x :
  manualAway s.1 = true → manualUntil s.1 = until → quiet s.1 = false → before until x →
  let s' := apply_op s x in
  manualAway s'.1 = true ∧ manualUntil s'.1 = until ∧ quiet s'.1 = false.
Proof.
  destruct s as [p seen]. cbn [fst]. intros Hm Hu Hq Hb. cbv zeta.
  destruct x as [o now idle|o now d|o|o|]; try done; cbn [apply_op fst].
  - assert (He : expire_away p now = p).
    { unfold expire_away, time_before. rewrite Hm, Hu. cbn [before] in Hb.
      destruct Hb as [->|Hb]; [done|]. destruct (Z.ltb_spec now until); [|lia]. by destruct (is_zero until). }
    unfold Poll. rewrite He. destruct (sample_same o p idle) as (_ & _ & Hm' & Hu').
    destruct (recompute_same o (sample o p idle)) as (_ & _ & _ & Hm2 & Hu2 & _).
    rewrite Hm2, Hu2, Hm', Hu', recompute_quiet. unfold effective. rewrite Hm', Hm.
    by rewrite andb_false_r.
  - destruct (recompute_same o p) as (_ & _ & _ & Hm2 & Hu2 & _). unfold Recompute.
    rewrite Hm2, Hu2, recompute_quiet. unfold effective. rewrite Hm. by rewrite andb_false_r.
Qed.

(** /away is respected: from the moment it is given, and until /here or the
    end of its time, no poll, sample, option change or failure makes the daemon
    quiet again; the first poll at or after the end restores the automatic
    verdict. *)
Theorem away_holds o0 p seen now d ops (Hpos : 0 < now) (Hd : 0 ≤ d)
    (Hops : Forall (before (if 0 <? d then time_add now d else time_zero)) ops) :
  let s := foldl apply_op (apply_op (p, seen) (OpAway o0 now d)) ops in
  quiet s.1 = false ∧ manualAway s.1 = true ∧
  ∀ o later idle, 0 < d → now + d ≤ later →
    let p' := Poll o s.1 later idle in manualAway p' = false ∧ quiet p' = effective o p'.
Proof.
  cbv zeta. set (until := if 0 <? d then time_add now d else time_zero) in *.
  set (s0 := apply_op (p, seen) (OpAway o0 now d)).
  assert (H0 : manualAway s0.1 = true ∧ manualUntil s0.1 = until ∧ quiet s0.1 = false).
  { unfold s0. cbn [apply_op Away fst]. fold until.
    destruct (recompute_same o0 (set_away p true until)) as (_ & _ & _ & Hm2 & Hu2 & _).
    rewrite Hm2, Hu2, recompute_quiet. unfold effective. cbn [set_away manualAway]. by rewrite andb_false_r. }
  assert (H : manualAway (foldl apply_op s0 ops).1 = true ∧ manualUntil (foldl apply_op s0 ops).1 = until ∧
              quiet (foldl apply_op s0 ops).1 = false).
  { clearbody s0. revert s0 H0. induction Hops as [|x ops Hx _ IH]; intros s0 (Hm & Hu & Hq); [done|].
    cbn [foldl]. apply IH. by apply before_step. }
  destruct H as (Hm & Hu & Hq). split_and!; [done..|]. intros o later idle Hdpos Hlater.
  set (q := (foldl apply_op s0 ops).1) in *. cbv zeta.
  assert (He : manualAway (expire_away q later) = false).
  { unfold expire_away, is_zero, time_before. rewrite Hm, Hu. unfold until, time_add.
    destruct (Z.ltb_spec 0 d); [|lia]. destruct (Z.eqb_spec (now + d) 0); [lia|].
    destruct (Z.ltb_spec later (now + d)); [lia|]. done. }
  unfold Poll. destruct (sample_same o (expire_away q later) idle) as (_ & _ & Hm' & _).
  destruct (recompute_same o (sample o (expire_away q later) idle)) as (_ & _ & _ & Hm2 & _ & Heff).
  rewrite Hm2, Hm'. split; [done|]. by rewrite recompute_quiet, Heff.
Qed.

Lemma away_holds_witness :
  let o := mkOptions {[OptionQuietEnabled := "true"]} in
  let s := foldl apply_op (apply_op (NewPresence false, false) (OpAway o 10 100))
    [OpPoll o 50 (Ok 0); OpRecompute o] in
  quiet s.1 = false ∧ manualAway (Poll o s.1 110 (Ok 0)) = false.
Proof.
  cbv zeta. set (o := mkOptions _).
  destruct (away_holds o (NewPresence false) false 10 100 [OpPoll o 50 (Ok 0); OpRecompute o])
    as (H1 & _ & H2).
  - lia.
  - lia.
  - apply Forall_cons. split; [right; vm_compute; reflexivity|].
    apply Forall_cons. split; [exact I|constructor].
  - split; [exact H1|]. apply (H2 o 110 (Ok 0)); lia.
Defined.
