(* ===== verification/TgErrors.v ===== *)
(** internal/adapters/telegram/errors.go: how an error of the Bot API library
    becomes an error the application can act on, and which errors the queue may
    retry.

    [error_string] stands for [err.Error()], which for the library's errors is
    code outside the repository. *)
From S2P Require Import Prelude GoStrings Errors.

Local Open Scope Z_scope.

Definition pick_tmr (e : error) : option (string * Z) :=
  match e with TooManyRequests m s => Some (m, s) | _ => None end.
Definition pick_mig (e : error) : option Z := match e with MigrateError id => Some id | _ => None end.
(** Code, description and retry_after. *)
Definition pick_api (e : error) : option (Z * string * Duration) :=
  match e with APIError c d w _ => Some (c, d, w) | _ => None end.

Definition wrap2 (outer inner : error) : error := Errorf "%w: %w" [] [outer; inner].

Section Translate.
Context {U : UnicodeTables} (error_string : error → string).

Definition badRequestPrefix : string := error_string (Foreign BotBadRequest) +:+ ", ".

Definition description400 (e : error) : string := trim_prefix (error_string e) badRequestPrefix.

Definition classify400 (e : error) : error :=
  let desc := description400 e in
  let lower := to_lower desc in
  if contains lower "thread not found" || contains lower "topic not found"
     || contains lower "topic_deleted" || contains lower "topic_id_invalid"
  then wrap2 (Sentinel ErrTopicGone) e
  else if contains lower "topic_closed" then wrap2 (Sentinel ErrTopicClosed) e
  else if contains lower "topic_not_modified" then wrap2 (Foreign ErrTopicNotModified) e
  else if contains lower "message is not modified" then wrap2 (Foreign ErrMessageNotModified) e
  else if has_prefix lower "bad request: message to " && has_suffix lower " not found"
  then wrap2 (Sentinel ErrMessageGone) e
  else APIError 400 desc 0 e.

(** [translate] of a non-nil error. *)
Definition translate (e : error) : error :=
  match errors_as pick_tmr e with
  | Some (message, seconds) => APIError 429 message (wrap64 (seconds * Second)) e
  | None =>
    match errors_as pick_mig e with
    | Some id => wrap2 (ChatMigratedError id) e
    | None =>
      if is_foreign e BotForbidden then wrap2 (Sentinel ErrForbidden) e
      else if is_foreign e BotUnauthorized then wrap2 (Sentinel ErrBotUnauthorized) e
      else if is_foreign e BotConflict then wrap2 (Sentinel ErrPollerConflict) e
      else if is_foreign e BotBadRequest then classify400 e
      else e
    end
  end.

Definition isMarkupError (e : error) : bool :=
  match errors_as pick_api e with
  | None => false
  | Some (code, desc, _) =>
    if negb (code =? 400) then false
    else
      let lower := to_lower desc in
      contains lower "can't parse entities" || contains lower "message is too long"
  end.

Definition isRetryable (e : error) : bool :=
  if is_foreign e CtxCanceled then false
  else
    match errors_as pick_api e with
    | Some (code, _, _) => (code =? 429) || (500 <=? code)
    | None =>
      if is_foreign e BotBadRequest || is_foreign e BotUnauthorized || is_foreign e BotForbidden
         || is_foreign e BotNotFound || is_foreign e BotConflict
         || errors_is e ErrForbidden || errors_is e ErrBotUnauthorized || errors_is e ErrPollerConflict
         || errors_is e ErrTopicGone || errors_is e ErrTopicClosed || errors_is e ErrMessageGone
         || errors_is e ErrChatMigrated
      then false
      else match errors_as pick_mig e with Some _ => false | None => true end
    end.

Definition retryAfter (e : error) : option Duration :=
  let tmr := match errors_as pick_tmr e with
             | Some (_, seconds) => Some (wrap64 (seconds * Second))
             | None => None
             end in
  match errors_as pick_api e with
  | Some (code, _, wait) => if code =? 429 then Some wait else tmr
  | None => tmr
  end.

(** ** Library errors

    What the library returns: one of its errors, or an error of the transport or
    the context, possibly wrapped with more text. *)
Inductive raw : error → Prop :=
  | raw_foreign f : raw (Foreign f)
  | raw_tmr m s : raw (TooManyRequests m s)
  | raw_mig id : raw (MigrateError id)
  | raw_other m : raw (Opaque m)
  | raw_wrap f args e : raw e → raw (Errorf f args [e]).

Lemma errors_as_wrap {A} (pick : error → option A) f args e :
  pick (Errorf f args [e]) = None → errors_as pick (Errorf f args [e]) = errors_as pick e.
Proof. intros H. simpl. rewrite H. by destruct (errors_as pick e). Qed.

Lemma errors_as_wrap2 {A} (pick : error → option A) o e :
  (∀ f args es, pick (Errorf f args es) = None) → errors_as pick o = None →
  errors_as pick (wrap2 o e) = errors_as pick e.
Proof. intros H Ho. unfold wrap2. simpl. rewrite H. simpl in *. rewrite Ho. by destruct (errors_as pick e). Qed.

(** The innermost error of a raw chain decides everything. *)
Fixpoint core (e : error) : error :=
  match e with
  | Errorf _ _ [e'] => core e'
  | _ => e
  end.

Record same_class (e c : error) : Prop := {
  sc_tmr : errors_as pick_tmr e = errors_as pick_tmr c;
  sc_mig : errors_as pick_mig e = errors_as pick_mig c;
  sc_api : errors_as pick_api e = errors_as pick_api c;
  sc_is s : errors_is e s = errors_is c s;
  sc_foreign f : is_foreign e f = is_foreign c f
}.

Lemma raw_core e : raw e → same_class e (core e) ∧ raw (core e) ∧ ∀ f args e', core e ≠ Errorf f args [e'].
Proof.
  induction 1 as [f|m s|id|m|f args e Hr IH]; try (split_and!; [by split|by constructor|done]).
  destruct IH as ([H1 H2 H3 H4 H5] & Hrc & Hne). cbn [core]. split_and!; [|done|done].
  split; [by rewrite errors_as_wrap|by rewrite errors_as_wrap|by rewrite errors_as_wrap| |].
  - intros s. by rewrite errors_is_wrap.
  - intros g. by rewrite is_foreign_wrap.
Qed.

(** A raw error holds no adapter error and no domain sentinel. *)
Lemma raw_plain e : raw e → errors_as pick_api e = None ∧ ∀ s, errors_is e s = false.
Proof.
  intros Hr. destruct (raw_core e Hr) as ([H1 H2 H3 H4 H5] & Hrc & Hne). rewrite H3.
  split; [|intros s; rewrite H4]; inversion Hrc; subst; done || by destruct (Hne f args e0).
Qed.

Lemma errors_is_wrap2 o e s : errors_is (wrap2 o e) s = errors_is o s || errors_is e s.
Proof. unfold errors_is, wrap2. simpl. by rewrite orb_false_r. Qed.
Lemma is_foreign_wrap2 o e f : is_foreign (wrap2 o e) f = is_foreign o f || is_foreign e f.
Proof. unfold is_foreign, wrap2. simpl. by rewrite orb_false_r. Qed.

Lemma is_foreign_api c d w e f : is_foreign (APIError c d w e) f = is_foreign e f.
Proof. done. Qed.
Lemma errors_is_api c d w e s : errors_is (APIError c d w e) s = errors_is e s.
Proof. done. Qed.

(** What [translate] made of a raw error, by the error at its core. *)
Inductive translated (e : error) : error → Prop :=
  | tr_limit m s : core e = TooManyRequests m s →
      translated e (APIError 429 m (wrap64 (s * Second)) e)
  | tr_migrated id : core e = MigrateError id → translated e (wrap2 (ChatMigratedError id) e)
  | tr_sentinel f s : core e = Foreign f →
      (f, s) ∈ [(BotForbidden, ErrForbidden); (BotUnauthorized, ErrBotUnauthorized);
                (BotConflict, ErrPollerConflict); (BotBadRequest, ErrTopicGone);
                (BotBadRequest, ErrTopicClosed); (BotBadRequest, ErrMessageGone)] →
      translated e (wrap2 (Sentinel s) e)
  | tr_unmodified g : core e = Foreign BotBadRequest →
      g = ErrTopicNotModified ∨ g = ErrMessageNotModified → translated e (wrap2 (Foreign g) e)
  | tr_bad_request : core e = Foreign BotBadRequest → translated e (APIError 400 (description400 e) 0 e)
  | tr_same : (∀ f, core e = Foreign f → f ∉ [BotForbidden; BotUnauthorized; BotConflict; BotBadRequest]) →
      (∀ m s, core e ≠ TooManyRequests m s) → (∀ id, core e ≠ MigrateError id) → translated e e.

Lemma translate_cases e : raw e → translated e (translate e).
Proof.
  intros Hr. destruct (raw_core e Hr) as ([H1 H2 H3 H4 H5] & Hrc & Hne). unfold translate.
  rewrite H1, H2, !H5. destruct (core e) as [s|f|id|m s|id|c d w i|hc hm|fm args es|m] eqn:Ec;
    try (inversion Hrc; fail); cbn [errors_as pick_tmr pick_mig].
  - assert (Hf : ∀ g, is_foreign (Foreign f) g = bool_decide (f = g)).
    { intros g. unfold is_foreign. cbn. by rewrite orb_false_r. }
    rewrite !Hf. destruct (decide (f = BotBadRequest)) as [->|Hb].
    + rewrite !bool_decide_false, bool_decide_true by done. unfold classify400.
      repeat match goal with |- context [if ?b then _ else _] => destruct b end;
        try (by apply tr_bad_request); try (apply tr_unmodified; by auto);
        apply (tr_sentinel _ BotBadRequest); try done; set_solver.
    + repeat case_bool_decide; subst; try done;
        try (eapply tr_sentinel; [exact Ec|set_solver]).
      apply tr_same; [|intros; congruence..]. intros g Hg. rewrite Ec in Hg. simplify_eq.
      rewrite !not_elem_of_cons. split_and!; [congruence..|by intros ?%elem_of_nil].
  - by apply tr_limit.
  - by apply tr_migrated.
  - exfalso. inversion Hrc as [| | | |f0 a0 e1 Hr1]; subst. by eapply Hne.
  - change (translated e e). apply tr_same; intros; congruence.
Qed.

Lemma same_class_foreign e f :
  same_class e (Foreign f) →
  errors_as pick_tmr e = None ∧ errors_as pick_mig e = None ∧ errors_as pick_api e = None ∧
  (∀ s, errors_is e s = false) ∧ ∀ g, is_foreign e g = bool_decide (f = g).
Proof.
  intros [H1 H2 H3 H4 H5]. rewrite H1, H2, H3. split_and!; [done..| |].
  - intros s. by rewrite H4.
  - intros g. rewrite H5. unfold is_foreign. cbn. by rewrite orb_false_r.
Qed.

(** Translating an error never changes what the queue does with it: a
    library error and its translation are both retryable or both final, ask for
    the same wait, and stay recognisable as the library error they were. *)
Theorem translate_retry e (Hraw : raw e) :
  isRetryable (translate e) = isRetryable e ∧ retryAfter (translate e) = retryAfter e ∧
  ∀ f, is_foreign e f = true → is_foreign (translate e) f = true.
Proof.
  destruct (raw_core e Hraw) as (Hsc & _ & _). destruct (raw_plain e Hraw) as [Hapi Hsen].
  destruct (translate_cases e Hraw) as [m s Ec|id Ec|f s Ec Hin|g Ec Hg|Ec|Hf Ht Hm]; [..|done];
    rewrite Ec in Hsc.
  - destruct Hsc as [H1 H2 _ _ H5]. split_and!; [| |done].
    + unfold isRetryable. rewrite Hapi, !is_foreign_api, !Hsen, !H5, H2. done.
    + unfold retryAfter. rewrite Hapi, H1. done.
  - destruct Hsc as [H1 H2 _ _ H5]. split_and!.
    + unfold isRetryable. rewrite !is_foreign_wrap2, !errors_is_wrap2, !errors_as_wrap2 by done.
      rewrite Hapi, !Hsen, !H5, H2. done.
    + unfold retryAfter. by rewrite !errors_as_wrap2.
    + intros f. rewrite is_foreign_wrap2. intros ->. by rewrite orb_true_r.
  - destruct (same_class_foreign e f Hsc) as (H1 & H2 & _ & _ & H5). split_and!.
    + unfold isRetryable. rewrite !is_foreign_wrap2, !errors_is_wrap2, !errors_as_wrap2 by done.
      rewrite Hapi, !Hsen, !H5, H2.
      repeat (apply elem_of_cons in Hin as [[= -> ->]|Hin]; [vm_compute; reflexivity|]).
      by apply elem_of_nil in Hin.
    + unfold retryAfter. by rewrite !errors_as_wrap2.
    + intros f'. rewrite is_foreign_wrap2. intros ->. by rewrite orb_true_r.
  - destruct (same_class_foreign e _ Hsc) as (H1 & H2 & _ & _ & H5). split_and!.
    + unfold isRetryable. rewrite !is_foreign_wrap2, !errors_is_wrap2, !errors_as_wrap2 by done.
      rewrite Hapi, !Hsen, !H5, H2. destruct Hg as [-> | ->]; vm_compute; reflexivity.
    + unfold retryAfter. by rewrite !errors_as_wrap2.
    + intros f'. rewrite is_foreign_wrap2. intros ->. by rewrite orb_true_r.
  - destruct (same_class_foreign e _ Hsc) as (H1 & H2 & _ & _ & H5). split_and!; [| |done].
    + unfold isRetryable. rewrite Hapi, !is_foreign_api, !Hsen, !H5, H2. done.
    + unfold retryAfter. change (errors_as pick_tmr (APIError 400 (description400 e) 0 e))
        with (errors_as pick_tmr e). by rewrite Hapi, H1.
Qed.

Lemma errors_is_migrated id s : errors_is (ChatMigratedError id) s = bool_decide (s = ErrChatMigrated).
Proof. unfold errors_is, chain_any, is_sentinel. by rewrite orb_false_r. Qed.

(** a translated error has at most one meaning for the application, and a
    topic or message is only reported gone on the library's "bad request". *)
Theorem translate_one_meaning e (Hraw : raw e) :
  (∀ s s', errors_is (translate e) s = true → errors_is (translate e) s' = true → s = s') ∧
  (∀ s, s ∈ [ErrTopicGone; ErrTopicClosed; ErrMessageGone] → errors_is (translate e) s = true →
     is_foreign e BotBadRequest = true).
Proof.
  destruct (raw_core e Hraw) as (Hsc & _ & _). destruct (raw_plain e Hraw) as [_ Hsen].
  destruct (translate_cases e Hraw) as [m s Ec|id Ec|f s Ec Hin|g Ec Hg|Ec|Hf Ht Hm].
  - split; intros ?; rewrite errors_is_api, Hsen; done.
  - assert (E : ∀ s, errors_is (wrap2 (ChatMigratedError id) e) s = true → s = ErrChatMigrated).
    { intros s. rewrite errors_is_wrap2, Hsen, orb_false_r, errors_is_migrated.
      by rewrite bool_decide_eq_true. }
    split; [by intros s s' ->%E ->%E|]. intros s Hs ->%E.
    repeat (apply elem_of_cons in Hs as [?|Hs]; [done|]). by apply elem_of_nil in Hs.
  - rewrite Ec in Hsc. destruct (same_class_foreign e f Hsc) as (_ & _ & _ & _ & H5).
    assert (E : ∀ s', errors_is (wrap2 (Sentinel s) e) s' = true → s' = s).
    { intros s'. rewrite errors_is_wrap2, Hsen, orb_false_r, errors_is_sentinel.
      by rewrite bool_decide_eq_true. }
    split; [by intros s1 s2 ->%E ->%E|]. intros s1 Hs ->%E. rewrite H5.
    repeat (apply elem_of_cons in Hin as [[= -> ->]|Hin]; [|]); try by apply elem_of_nil in Hin.
    all: try (vm_compute; reflexivity).
    all: exfalso; repeat (apply elem_of_cons in Hs as [?|Hs]; [done|]); by apply elem_of_nil in Hs.
  - split; intros ?; rewrite errors_is_wrap2, Hsen, orb_false_r; unfold errors_is; cbn; done.
  - split; intros ?; rewrite errors_is_api, Hsen; done.
  - split; intros ?; rewrite Hsen; done.
Qed.
End Translate.

(** How the library renders a 400. *)
Definition sample_error_string (e : error) : string :=
  match e with
  | Foreign BotBadRequest => "bad request"
  | Errorf _ [desc] [Foreign BotBadRequest] => "bad request, " +:+ desc
  | _ => ""
  end.

Lemma translate_retry_witness :
  let e := Errorf "%w, %s" ["Bad Request: TOPIC_ID_INVALID"] [Foreign BotBadRequest] in
  let t := translate (U:=latin1_tables) sample_error_string e in
  errors_is t ErrTopicGone = true ∧ isRetryable t = isRetryable e.
Proof.
  cbv zeta. split; [vm_compute; reflexivity|].
  apply (translate_retry (U:=latin1_tables) sample_error_string). repeat constructor.
Defined.

Lemma translate_one_meaning_witness :
  let e := Errorf "%w, %s" ["Bad Request: message to edit not found"] [Foreign BotBadRequest] in
  let t := translate (U:=latin1_tables) sample_error_string e in
  errors_is t ErrMessageGone = true ∧ ∀ s, errors_is t s = true → ErrMessageGone = s.
Proof.
  cbv zeta. split; [vm_compute; reflexivity|]. intros s.
  apply (translate_one_meaning (U:=latin1_tables) sample_error_string); [repeat constructor|].
  vm_compute. reflexivity.
Defined.
