(* ===== verification/Queue.v ===== *)
(** internal/adapters/telegram/queue.go: the serial queue of Telegram calls, its
    pacing and its retries.

    The world [W] is everything outside the queue: the clock, the contexts and
    the Bot API. [Now], [Sleep] and the contexts are fields of a class with their
    documented laws; the operation of a job is an argument. [Run] executes one
    job at a time on one goroutine, so a run of the queue is a list of jobs. *)
From S2P Require Import Prelude GoStrings Errors TgErrors.

Local Open Scope Z_scope.

Record QueueConfig := mkQueueConfig {
  MinGap : Duration;
  WindowLimit : Z;
  Window : Duration;
  MaxTries : Z;
  MaxWait : Duration
}.

Definition DefaultQueueConfig : QueueConfig := mkQueueConfig Second 20 Minute 5 Minute.

Definition or_default (x def : Z) : Z := if x <=? 0 then def else x.

(** The defaults [NewQueue] fills in. *)
Definition normalise (cfg : QueueConfig) : QueueConfig :=
  mkQueueConfig (or_default (MinGap cfg) (MinGap DefaultQueueConfig))
    (or_default (WindowLimit cfg) (WindowLimit DefaultQueueConfig))
    (or_default (Window cfg) (Window DefaultQueueConfig))
    (or_default (MaxTries cfg) (MaxTries DefaultQueueConfig))
    (or_default (MaxWait cfg) (MaxWait DefaultQueueConfig)).

(** The queue: [stamps] is the ring of the times of the last attempts. *)
Record Queue := mkQueue {
  qcfg : QueueConfig;
  stamps : list Time;
  head : nat;
  count : nat
}.

Definition NewQueue (cfg : QueueConfig) : Queue :=
  let cfg := normalise cfg in
  mkQueue cfg (repeat time_zero (Z.to_nat (WindowLimit cfg))) 0 0.

(** [q.stamps[i]], in range. *)
Definition stamp_at (q : Queue) (i : nat) : Time := default time_zero (stamps q !! i).

Class World (W : Type) := {
  Now : W → Time;
  Sleep : W → Duration → W * option error;
  run_err : W → option error;   (** [runCtx.Err()] *)
  ctx_err : W → option error    (** [ctx.Err()] of the job's derived context *)
}.

(** A job: its operation and the error of its context. *)
Record job (W : Type) := mkJob {
  op : W → W * option error;
  job_err : W → option error
}.
Arguments mkJob {W}.
Arguments op {W}.
Arguments job_err {W}.

Section Queue.
Context {W : Type} `{World W}.

(** [pace] up to its sleep: how long it must wait at [now]. *)
Definition pace_wait (q : Queue) (now : Time) : Duration :=
  let n := length (stamps q) in
  let wait :=
    if Nat.ltb 0 (count q)
    then wrap64 (MinGap (qcfg q) - time_sub now (stamp_at q ((head q + count q - 1) mod n)%nat))
    else 0 in
  if Nat.eqb (count q) n then
    let w := wrap64 (Window (qcfg q) - time_sub now (stamp_at q (head q))) in
    if wait <? w then w else wait
  else wait.

Definition pace (q : Queue) (w : W) : W * option error :=
  let wait := pace_wait q (Now w) in
  if wait <=? 0 then (w, ctx_err w) else Sleep w wait.

Definition stamp (q : Queue) (now : Time) : Queue :=
  let n := length (stamps q) in
  if Nat.eqb (count q) n
  then mkQueue (qcfg q) (<[head q := now]> (stamps q)) ((head q + 1) mod n)%nat (count q)
  else mkQueue (qcfg q) (<[((head q + count q) mod n)%nat := now]> (stamps q)) (head q) (S (count q)).

(** A negative wait means: give up. *)
Definition backoff (q : Queue) (e : error) (try : Z) : Duration :=
  match retryAfter e with
  | Some ra => if MaxWait (qcfg q) <? ra then -1 else ra
  | None => wrap64 (wrap64 (try * try) * Second)
  end.

Definition sleepErr (j : job W) (w : W) (e : error) : error :=
  match run_err w with
  | Some e' => e'
  | None => match job_err j w with Some e' => e' | None => e end
  end.

(** The retry loop from attempt [try] on; [left] is the number of attempts left,
    [MaxTries - try + 1]. The result carries the outcomes of the calls made. *)
Fixpoint attempts (left : nat) (q : Queue) (j : job W) (try : Z) (err : option error) (w : W)
    : Queue * W * option error * list (option error) :=
  match left with
  | O => (q, w, err, [])
  | S left' =>
    match pace q w with
    | (w1, Some e) => (q, w1, Some (sleepErr j w1 e), [])
    | (w1, None) =>
      let q1 := stamp q (Now w1) in
      match op j w1 with
      | (w2, None) => (q1, w2, None, [None])
      | (w2, Some e) =>
        match ctx_err w2 with
        | Some _ => (q1, w2, Some (sleepErr j w2 e), [Some e])
        | None =>
          if negb (isRetryable e) || (try =? MaxTries (qcfg q)) then (q1, w2, Some e, [Some e])
          else
            let wait := backoff q1 e try in
            if wait <? 0 then (q1, w2, Some e, [Some e])
            else
              match Sleep w2 wait with
              | (w3, Some serr) => (q1, w3, Some (sleepErr j w3 serr), [Some e])
              | (w3, None) =>
                let '(q', w', r, n) := attempts left' q1 j (try + 1) (Some e) w3 in
                (q', w', r, Some e :: n)
              end
        end
      end
    end
  end.

Definition execute (q : Queue) (j : job W) (w : W) : Queue * W * option error * list (option error) :=
  attempts (Z.to_nat (MaxTries (qcfg q))) q j 1 None w.

(** The loop of [Run] over the jobs it receives: a job whose context already ended
    is answered without a call; the loop stops when [runCtx] has ended, and the
    jobs it did not reach are answered with that error. *)
Fixpoint run_jobs (q : Queue) (js : list (job W)) (w : W) : Queue * W * list (option error) :=
  match js with
  | [] => (q, w, [])
  | j :: js' =>
    match run_err w with
    | Some e => (q, w, map (λ _, Some e) js)
    | None =>
      match job_err j w with
      | Some e => let '(q', w', rs) := run_jobs q js' w in (q', w', Some e :: rs)
      | None =>
        let '(q1, w1, r, _) := execute q j w in
        let '(q', w', rs) := run_jobs q1 js' w1 in (q', w', r :: rs)
      end
    end
  end.
End Queue.

(** ** Laws of the environment

    Time does not run backwards; a sleep that is not interrupted lasts at least
    as long as asked.  [calls] is what the other side of the queue sees: the
    times at which an operation was started, the latest last.  A sleep starts
    none. *)
Class WorldLaws (W : Type) `{World W} := {
  calls : W → list Time;
  sleep_mono (w : W) d w' r : Sleep w d = (w', r) → Now w ≤ Now w';
  sleep_full (w : W) d w' : Sleep w d = (w', None) → 0 < d → Now w + d ≤ Now w';
  sleep_calls (w : W) d w' r : Sleep w d = (w', r) → calls w' = calls w
}.

(** A job whose operation takes its time and is seen when it starts. *)
Definition seen {W} `{WorldLaws W} (j : job W) : Prop :=
  ∀ w w' r, op j w = (w', r) → Now w ≤ Now w' ∧ calls w' = calls w ++ [Now w].

(** ** The ring of stamps *)

Definition limit (q : Queue) : nat := Z.to_nat (WindowLimit (qcfg q)).

Record ConfigOk (cfg : QueueConfig) : Prop := {
  cfg_gap : 0 < MinGap cfg ≤ int64_max;
  cfg_limit : 0 < WindowLimit cfg;
  cfg_window : 0 < Window cfg ≤ int64_max;
  cfg_tries : 0 < MaxTries cfg
}.

(** The ring holds the last [limit] of the calls [l], the oldest at [head]. *)
Record RingInv (q : Queue) (l : list Time) : Prop := {
  ring_cfg : ConfigOk (qcfg q);
  ring_len : length (stamps q) = limit q;
  ring_head : (head q < limit q)%nat;
  ring_count : count q = Nat.min (length l) (limit q);
  ring_at i : (i < count q)%nat →
    stamps q !! ((head q + i) mod limit q)%nat = l !! (length l - count q + i)%nat
}.

Lemma limit_pos q : ConfigOk (qcfg q) → (0 < limit q)%nat.
Proof. intros [_ Hl _ _]. unfold limit. lia. Qed.

Lemma mod_inj_window n a b : (0 < n)%nat → (a ≤ b < a + n)%nat → (a mod n = b mod n)%nat → a = b.
Proof.
  intros Hn Hab E. pose proof (Nat.div_mod_eq a n) as Ha. pose proof (Nat.div_mod_eq b n) as Hb.
  rewrite E in Ha. assert (b - a = n * (b / n) - n * (a / n))%nat as Hd by lia.
  destruct (decide (b / n = a / n)%nat) as [Eq|Ne]; [rewrite Eq in *; lia|].
  assert (a / n ≤ b / n)%nat by (apply Nat.Div0.div_le_mono; lia). nia.
Qed.

Lemma log_snoc_lookup (l : list Time) x i : (i < length l)%nat → (l ++ [x]) !! i = l !! i.
Proof. apply lookup_app_l. Qed.

Lemma stamp_ring q l now : RingInv q l → RingInv (stamp q now) (l ++ [now]).
Proof.
  intros [Hc Hlen Hh Hct Hat]. pose proof (limit_pos q Hc) as Hn. unfold stamp. rewrite Hlen.
  destruct (Nat.eqb_spec (count q) (limit q)) as [Hfull|Hpart].
  - split; cbn [qcfg stamps head count]; unfold limit in *; cbn [qcfg]; try done.
    + by rewrite length_insert.
    + apply Nat.mod_upper_bound. lia.
    + rewrite length_app. simpl. lia.
    + intros i Hi. set (n := Z.to_nat (WindowLimit (qcfg q))) in *.
      assert (Hhead : (head q mod n = head q)%nat) by by apply Nat.mod_small.
      rewrite Nat.Div0.add_mod_idemp_l. rewrite length_app. simpl.
      destruct (decide (i = n - 1)%nat) as [->|Hi'].
      * replace (head q + 1 + (n - 1))%nat with (head q + 1 * n)%nat by lia.
        rewrite Nat.Div0.mod_add, Hhead, list_lookup_insert_eq by lia.
        rewrite lookup_app_r by lia. by replace (length l + 1 - count q + (n - 1) - length l)%nat
          with 0%nat by lia.
      * rewrite list_lookup_insert_ne.
        -- replace (head q + 1 + i)%nat with (head q + S i)%nat by lia.
           rewrite Hat by lia. rewrite log_snoc_lookup by lia. f_equal. lia.
        -- intros E. enough (head q = head q + 1 + i)%nat by lia.
           apply (mod_inj_window n); [lia..|]. by rewrite Hhead.
  - split; cbn [qcfg stamps head count]; unfold limit in *; cbn [qcfg]; try done.
    + by rewrite length_insert.
    + rewrite length_app. simpl. lia.
    + intros i Hi. set (n := Z.to_nat (WindowLimit (qcfg q))) in *. rewrite length_app. simpl.
      destruct (decide (i = count q)) as [->|Hi'].
      * rewrite list_lookup_insert_eq by (rewrite Hlen; apply Nat.mod_upper_bound; lia).
        rewrite lookup_app_r by lia. by replace (length l + 1 - S (count q) + count q - length l)%nat
          with 0%nat by lia.
      * rewrite list_lookup_insert_ne.
        -- rewrite Hat by lia. rewrite log_snoc_lookup by lia. f_equal. lia.
        -- intros E. symmetry in E. apply (mod_inj_window n) in E; lia.
Qed.

(** What the ring answers: the last attempt and the one [limit] back. *)
Lemma ring_last q l x :
  RingInv q l → (0 < count q)%nat → last l = Some x →
  stamp_at q ((head q + count q - 1) mod length (stamps q)) = x.
Proof.
  intros [Hc Hlen Hh Hct Hat] Hpos Hl. unfold stamp_at. rewrite Hlen.
  replace (head q + count q - 1)%nat with (head q + (count q - 1))%nat by lia.
  rewrite Hat by lia. rewrite last_lookup in Hl.
  replace (length l - count q + (count q - 1))%nat with (pred (length l)) by lia.
  by rewrite Hl.
Qed.

Lemma ring_oldest q l :
  RingInv q l → count q = limit q → l !! (length l - limit q)%nat = Some (stamp_at q (head q)).
Proof.
  intros [Hc Hlen Hh Hct Hat] Hfull. pose proof (limit_pos q Hc) as Hn.
  specialize (Hat 0%nat). rewrite Nat.add_0_r, Nat.mod_small in Hat by done.
  unfold stamp_at. rewrite Hat by lia. rewrite Hfull, Nat.add_0_r.
  destruct (lookup_lt_is_Some_2 l (length l - limit q)) as [x Hx]; [lia|]. by rewrite Hx.
Qed.

(** ** Pacing *)

(** The next call may start at [t]. *)
Record ready (cfg : QueueConfig) (l : list Time) (t : Time) : Prop := {
  ready_gap (x : Time) : last l = Some x → x + MinGap cfg ≤ t;
  ready_window (s : Time) : (Z.to_nat (WindowLimit cfg) ≤ length l)%nat →
    l !! (length l - Z.to_nat (WindowLimit cfg))%nat = Some s → s + Window cfg ≤ t
}.

(** Two calls are [MinGap] apart, and [Window] apart when [limit] lie between. *)
Record Paced (cfg : QueueConfig) (l : list Time) : Prop := {
  paced_gap i (a b : Time) : l !! i = Some a → l !! S i = Some b → a + MinGap cfg ≤ b;
  paced_window i (a b : Time) : l !! i = Some a → l !! (i + Z.to_nat (WindowLimit cfg))%nat = Some b →
    a + Window cfg ≤ b
}.

(** No call lies in the future of the clock. *)
Definition past (l : list Time) (t : Time) : Prop := ∀ x, x ∈ l → x ≤ t.

Lemma gap_wait g now x :
  0 < g ≤ int64_max → x ≤ now →
  wrap64 (g - time_sub now x) = g - time_sub now x ∧
  (wrap64 (g - time_sub now x) ≤ 0 → x + g ≤ now) ∧
  (0 < wrap64 (g - time_sub now x) → now + wrap64 (g - time_sub now x) = x + g).
Proof.
  intros Hg Hx. assert (Hw : wrap64 (g - time_sub now x) = g - time_sub now x).
  { apply wrap64_id. unfold in_int64, time_sub, int64_min, int64_max in *. lia. }
  rewrite Hw. unfold time_sub, int64_min, int64_max in *. split; [done|]. lia.
Qed.

Lemma pace_wait_ready q l now t :
  RingInv q l → past l now → now ≤ t → (0 < pace_wait q now → now + pace_wait q now ≤ t) →
  ready (qcfg q) l t.
Proof.
  intros Hr Hp Ht Hw. pose proof (ring_cfg _ _ Hr) as [Hg Hl Hwin _].
  pose proof (ring_count _ _ Hr) as Hct. pose proof (limit_pos q (ring_cfg _ _ Hr)) as Hlim.
  unfold pace_wait in Hw. set (n := length (stamps q)) in *.
  assert (Hn : n = limit q) by apply (ring_len _ _ Hr).
  (* the gap part *)
  set (wait := if Nat.ltb 0 (count q) then _ else 0) in Hw.
  assert (Hgap : ∀ x, last l = Some x →
     (wait ≤ 0 → x + MinGap (qcfg q) ≤ now) ∧ (0 < wait → now + wait = x + MinGap (qcfg q))).
  { intros x Hx. assert (Hpos : (0 < count q)%nat).
    { rewrite last_lookup in Hx. apply lookup_lt_Some in Hx. lia. }
    unfold wait. destruct (Nat.ltb_spec 0 (count q)); [|lia]. unfold n.
    rewrite (ring_last q l x) by done. apply gap_wait; [done|]. apply Hp.
    rewrite last_lookup in Hx. by eapply list_elem_of_lookup_2. }
  clearbody wait.
  destruct (Nat.eqb_spec (count q) n) as [Hfull|Hpart].
  - rewrite Hn in Hfull. pose proof (ring_oldest q l Hr Hfull) as Hold.
    set (s := stamp_at q (head q)) in *.
    destruct (gap_wait (Window (qcfg q)) now s Hwin) as (_ & H1 & H2).
    { apply Hp. by eapply list_elem_of_lookup_2. }
    set (w := wrap64 (Window (qcfg q) - time_sub now s)) in *. clearbody w.
    split.
    + intros x Hx. destruct (Hgap x Hx) as [Ha Hb]. destruct (Z.ltb_spec wait w); lia.
    + intros s' _ Hs'. fold (limit q) in Hs'. rewrite Hold in Hs'. injection Hs' as <-. destruct (Z.ltb_spec wait w); lia.
  - split.
    + intros x Hx. destruct (Hgap x Hx) as [Ha Hb]. lia.
    + intros s Hge. fold (limit q) in Hge. lia.
Qed.

Lemma snoc_paced cfg l t :
  0 < WindowLimit cfg → Paced cfg l → ready cfg l t → Paced cfg (l ++ [t]).
Proof.
  intros Hlim [Hg Hw] [Rg Rw]. set (n := Z.to_nat (WindowLimit cfg)) in *. assert (0 < n)%nat by lia.
  split.
  - intros i a b Ha Hb. destruct (decide (S i < length l)%nat) as [Hlt|Hge].
    + rewrite log_snoc_lookup in Ha, Hb by lia. by eapply Hg.
    + apply lookup_lt_Some in Hb as Hlen. rewrite length_app in Hlen. simpl in Hlen.
      assert (S i = length l) as Hi by lia.
      rewrite lookup_app_r in Hb by lia. rewrite Hi, Nat.sub_diag in Hb. injection Hb as <-.
      rewrite log_snoc_lookup in Ha by lia. apply Rg. rewrite last_lookup, <-Hi. done.
  - fold n. intros i a b Ha Hb.
    destruct (decide (i + n < length l)%nat) as [Hlt|Hge].
    + rewrite log_snoc_lookup in Ha, Hb by lia. by eapply Hw.
    + apply lookup_lt_Some in Hb as Hlen. rewrite length_app in Hlen. simpl in Hlen.
      assert (i + n = length l)%nat as Hi by lia.
      rewrite lookup_app_r in Hb by lia. rewrite Hi, Nat.sub_diag in Hb. injection Hb as <-.
      rewrite log_snoc_lookup in Ha by lia. apply Rw; [lia|]. by replace (length l - n)%nat with i by lia.
Qed.

Lemma stamp_cfg q t : qcfg (stamp q t) = qcfg q.
Proof. unfold stamp. by destruct (Nat.eqb _ _). Qed.

Section Pacing.
Context {W : Type} `{WorldLaws W}.

Record QueueInv (q : Queue) (w : W) : Prop := {
  inv_ring : RingInv q (calls w);
  inv_paced : Paced (qcfg q) (calls w);
  inv_past : past (calls w) (Now w)
}.

Lemma pace_spec q w w' r :
  QueueInv q w → pace q w = (w', r) →
  Now w ≤ Now w' ∧ calls w' = calls w ∧ (r = None → ready (qcfg q) (calls w) (Now w')).
Proof.
  intros [Hr _ Hp]. unfold pace. destruct (Z.leb_spec (pace_wait q (Now w)) 0) as [Hle|Hgt].
  - intros [= <- <-]. split; [lia|]. split; [done|]. intros _. apply (pace_wait_ready q _ (Now w)); [done..|lia].
  - intros E. pose proof (sleep_mono _ _ _ _ E). pose proof (sleep_calls _ _ _ _ E). split_and!; [done..|]. intros ->.
    apply (pace_wait_ready q _ (Now w)); [done..|]. intros _. by apply (sleep_full w).
Qed.

Lemma inv_later q w w' : QueueInv q w → Now w ≤ Now w' → calls w' = calls w → QueueInv q w'.
Proof. intros [Hr Hpc Hp] Ht Hc. split; rewrite Hc; [done..|]. intros x Hx. specialize (Hp x Hx). lia. Qed.

(** A call that is due, stamped and made. *)
Lemma call_inv q w j w' r : QueueInv q w → ready (qcfg q) (calls w) (Now w) → seen j → op j w = (w', r) →
  QueueInv (stamp q (Now w)) w' ∧ Now w ≤ Now w' ∧ calls w' = calls w ++ [Now w].
Proof.
  intros [Hr Hpc Hp] Hrd Hj E. destruct (Hj _ _ _ E) as [Ht Hc]. split_and!; [|done..]. split; rewrite Hc.
  - by apply stamp_ring.
  - rewrite stamp_cfg. apply snoc_paced; [|done..]. by destruct (ring_cfg _ _ Hr).
  - intros x. rewrite elem_of_app, list_elem_of_singleton. intros [Hx| ->]; [specialize (Hp x Hx); lia|lia].
Qed.

(** One job keeps the invariant, whatever its operation answers; the outcomes
    reported are those of the calls it made. *)
Definition ran (q q' : Queue) (w w' : W) (es : list (option error)) : Prop :=
  QueueInv q' w' ∧ Now w ≤ Now w' ∧ qcfg q' = qcfg q ∧ length (calls w') = (length (calls w) + length es)%nat.

Lemma attempts_inv left q j try err w q' w' r es :
  QueueInv q w → seen j → attempts left q j try err w = (q', w', r, es) → ran q q' w w' es.
Proof.
  intros Hi Hj. revert q try err w q' w' r es Hi.
  induction left as [|left IH]; intros q try err w q' w' r es Hi E; cbn [attempts] in E.
  { injection E as <- <- <- <-. split_and!; [done|lia|done|simpl; lia]. }
  destruct (pace q w) as [w1 [e|]] eqn:Ep; destruct (pace_spec q w _ _ Hi Ep) as (Ht1 & Hs1 & Hrd).
  { injection E as <- <- <- <-. split_and!; [by eapply inv_later|done|done|rewrite Hs1; simpl; lia]. }
  specialize (Hrd eq_refl). pose proof (inv_later _ _ _ Hi Ht1 Hs1) as Hi1. rewrite <-Hs1 in Hrd.
  cbv zeta in E. destruct (op j w1) as [w2 o] eqn:Eo.
  destruct (call_inv _ _ _ _ _ Hi1 Hrd Hj Eo) as (Hi2 & Ht2 & Hs2).
  assert (Hdone : ∀ x, ran q (stamp q (Now w1)) w w2 [x]).
  { intros x. split_and!; [done|lia|apply stamp_cfg|rewrite Hs2, Hs1, length_app; simpl; lia]. }
  destruct o as [e|]; [|by injection E as <- <- <- <-].
  destruct (ctx_err w2); [by injection E as <- <- <- <-|].
  destruct (negb (isRetryable e) || _); [by injection E as <- <- <- <-|].
  destruct (_ <? 0); [by injection E as <- <- <- <-|].
  destruct (Sleep w2 _) as [w3 se] eqn:Es. pose proof (sleep_mono _ _ _ _ Es) as Ht3. pose proof (sleep_calls _ _ _ _ Es) as Hs3.
  pose proof (inv_later _ _ _ Hi2 Ht3 Hs3) as Hi3. destruct (Hdone (Some e)) as (_ & _ & Hc & Hn).
  destruct se as [se|].
  { injection E as <- <- <- <-. split_and!; [done|lia|done|by rewrite Hs3]. }
  destruct (attempts left _ j _ _ w3) as [[[q4 w4] r4] es4] eqn:Ea. injection E as <- <- <- <-.
  destruct (IH _ _ _ _ _ _ _ _ Hi3 Ea) as (Hi4 & Ht4 & Hc4 & Hn4).
  split_and!; [done|lia|congruence|]. rewrite Hn4, Hs3, Hn. simpl. lia.
Qed.

Lemma run_jobs_inv js q w q' w' rs :
  QueueInv q w → Forall seen js → run_jobs q js w = (q', w', rs) →
  QueueInv q' w' ∧ qcfg q' = qcfg q.
Proof.
  intros Hi Hjs. revert q w q' w' rs Hi. induction Hjs as [|j js Hj _ IH]; intros q w q' w' rs Hi E;
    cbn [run_jobs] in E; [by injection E as <- <- <-|].
  destruct (run_err w); [by injection E as <- <- <-|].
  destruct (job_err j w).
  - destruct (run_jobs q js w) as [[q1 w1] rs1] eqn:Er. injection E as <- <- <-. by eapply IH.
  - unfold execute in E. destruct (attempts _ q j 1 None w) as [[[q1 w1] r1] es1] eqn:Ea.
    apply attempts_inv in Ea as (Hi1 & _ & Hc1 & _); [|done..].
    destruct (run_jobs q1 js w1) as [[q2 w2] rs2] eqn:Er. injection E as <- <- <-.
    destruct (IH _ _ _ _ _ Hi1 Er) as [? ?]. split; [done|congruence].
Qed.

Lemma NewQueue_inv cfg w :
  MinGap cfg ≤ int64_max → Window cfg ≤ int64_max → calls w = [] → QueueInv (NewQueue cfg) w.
Proof.
  intros Hg Hw Hs. assert (Hc : ConfigOk (normalise cfg)).
  { split; unfold normalise, or_default; cbn [MinGap WindowLimit Window MaxTries DefaultQueueConfig];
      repeat case_match; rewrite ?Z.leb_le, ?Z.leb_gt in *; unfold int64_max, Minute, Second in *; lia. }
  assert (Hpos : (0 < Z.to_nat (WindowLimit (normalise cfg)))%nat) by (destruct Hc; lia).
  split; rewrite Hs.
  - split; unfold NewQueue, limit; cbn [qcfg stamps head count]; [done|by rewrite repeat_length|done|done|lia].
  - split; intros i a b; by rewrite ?lookup_nil.
  - intros x. by intros ?%elem_of_nil.
Qed.

(** C17: whatever the jobs do, fail, time out or get cancelled, the calls of
    the jobs' operations keep Telegram's limits: two calls, retries and failed
    ones included, start at least [MinGap] apart, and any call and the one
    [WindowLimit] calls later start at least [Window] apart, so no window holds
    more than [WindowLimit] of them. The times are those at which the operations
    themselves see the clock ([seen]); no time passes between a stamp and the
    start of the operation behind it. *)
Theorem queue_paced cfg js w (Hgap : MinGap cfg ≤ int64_max) (Hwin : Window cfg ≤ int64_max)
    (Hjs : Forall seen js) (Hw : calls w = []) :
  let '(_, w', _) := run_jobs (NewQueue cfg) js w in Paced (normalise cfg) (calls w').
Proof.
  destruct (run_jobs (NewQueue cfg) js w) as [[q w'] rs] eqn:E.
  destruct (run_jobs_inv js _ w q w' rs (NewQueue_inv cfg w Hgap Hwin Hw) Hjs E) as [[_ Hp _] Hc].
  by rewrite Hc in Hp.
Qed.
End Pacing.

(** ** Retries *)

Section Retries.
Context {W : Type} `{World W}.

(** The job ended because a context ended: its own, the queue's, or the sleep
    that noticed it. *)
Definition interrupted (j : job W) (r : option error) : Prop :=
  ∃ w e, r = Some (sleepErr j w e) ∧
    (is_Some (ctx_err w) ∨ ∃ w0 d, Sleep w0 d = (w, Some e)).

(** How a job with [left] attempts left, the next one numbered [try], ends. *)
Record Tried (left : nat) (q : Queue) (j : job W) (try : Z) (q' : Queue) (r : option error)
    (es : list (option error)) : Prop := {
  tried_bound : (length es ≤ left)%nat;
  tried_retry i x : es !! i = Some x → (S i < length es)%nat →
    ∃ e, x = Some e ∧ isRetryable e = true;
  tried_ok : r = None ↔ last es = Some None;
  tried_failed e : r = Some e → interrupted j r ∨
    last es = Some (Some e) ∧
    (isRetryable e = false ∨ length es = left ∨
     ∃ wait, retryAfter e = Some wait ∧ (MaxWait (qcfg q) < wait ∨ wait < 0))
}.

Lemma tried_interrupt left q j try w e :
  (0 < left)%nat → interrupted j (Some (sleepErr j w e)) → Tried left q j try q (Some (sleepErr j w e)) [].
Proof.
  intros Hl Hi. split; simpl; [lia|by intros i x ?%lookup_lt_Some; simpl in *; lia|done|].
  intros e' He. by left.
Qed.

Lemma tried_last left q j try now r x :
  (0 < left)%nat → (r = None ↔ x = None) →
  (∀ e, r = Some e → interrupted j r ∨ x = Some e ∧ (isRetryable e = false ∨ left = 1%nat ∨
     ∃ wait, retryAfter e = Some wait ∧ (MaxWait (qcfg q) < wait ∨ wait < 0))) →
  Tried left q j try (stamp q now) r [x].
Proof.
  intros Hl Hr He. split; simpl.
  - lia.
  - intros i y _ Hi. lia.
  - rewrite Hr. split; [by intros ->|by intros [= ->]].
  - intros e E. destruct (He e E) as [?|(-> & H1)]; [by left|right]. split; [done|].
    destruct H1 as [?|[->|?]]; auto.
Qed.

Lemma tried_next left q j try now q' r es e0 :
  Tried left (stamp q now) j (try + 1) q' r es → isRetryable e0 = true → (r = None → es ≠ []) →
  (∀ e, r = Some e → es = [] → interrupted j r) →
  Tried (S left) q j try q' r (Some e0 :: es).
Proof.
  intros [Hb Hre Hok Hf] He0 Hne Hint. pose proof (stamp_cfg q now) as Hc. split; simpl.
  - lia.
  - intros [|i] x Hx Hlt; simpl in Hx; [injection Hx as <-; eauto|]. apply (Hre i x Hx). lia.
  - rewrite Hok. destruct es as [|y es]; [|done]. split; [done|]. intros [=].
  - intros e E. destruct es as [|y es].
    + left. by eapply Hint.
    + destruct (Hf e E) as [?|[Hlast Hw]]; [by left|right]. split; [done|]. rewrite Hc in Hw.
      destruct Hw as [?|[Heq|?]]; [by auto| |by auto]. right. left. simpl in *. by rewrite Heq.
Qed.

Lemma attempts_tried left q j try err w q' w' r es :
  Z.of_nat left = MaxTries (qcfg q) - try + 1 → (0 < left)%nat → 0 < try → MaxTries (qcfg q) ≤ 2 ^ 15 →
  attempts left q j try err w = (q', w', r, es) → Tried left q j try q' r es.
Proof.
  revert q try err w q' w' r es.
  induction left as [|left IH]; intros q try err w q' w' r es Hleft Hpos Htry Hmax E; [lia|].
  cbn [attempts] in E. destruct (pace q w) as [w1 [e|]] eqn:Ep.
  { injection E as <- <- <- <-. apply tried_interrupt; [done|].
    exists w1, e. split; [done|]. unfold pace in Ep. destruct (_ <=? 0).
    - injection Ep as <- Ec. left. rewrite Ec. by eexists.
    - right. by eauto. }
  cbv zeta in E. destruct (op j w1) as [w2 [e|]] eqn:Eo.
  2: { injection E as <- <- <- <-. apply tried_last; [lia|done|done]. }
  destruct (ctx_err w2) as [ce|] eqn:Ectx.
  { injection E as <- <- <- <-. apply tried_last; [lia|done|]. intros e' _. left.
    exists w2, e. rewrite Ectx. eauto. }
  destruct (negb (isRetryable e) || _) eqn:Efin.
  { injection E as <- <- <- <-. apply tried_last; [lia|done|]. intros e' [= <-]. right. split; [done|].
    apply orb_true_iff in Efin as [Hn%negb_true_iff|Hm%Z.eqb_eq]; [by left|right; left; lia]. }
  apply orb_false_iff in Efin as [Hret%negb_false_iff Hm%Z.eqb_neq].
  destruct (Z.ltb_spec (backoff (stamp q (Now w1)) e try) 0) as [Hb|Hb].
  { injection E as <- <- <- <-. apply tried_last; [lia|done|]. intros e' [= <-]. right. split; [done|].
    right. right. unfold backoff in Hb. destruct (retryAfter e) as [ra|].
    - exists ra. split; [done|]. rewrite stamp_cfg in Hb.
      destruct (Z.ltb_spec (MaxWait (qcfg q)) ra); auto.
    - exfalso. assert (Htr : 1 ≤ try ≤ 32768) by lia. assert (Hsq : 1 ≤ try * try ≤ 32768 * 32768) by nia.
      clear - Hb Hsq. assert (H64 : in_int64 (try * try) ∧ in_int64 (try * try * Second))
        by (unfold in_int64, int64_min, int64_max, Second; lia).
      destruct H64 as [Ha Hs]. rewrite (wrap64_id _ Ha), (wrap64_id _ Hs) in Hb. unfold Second in Hb. lia. }
  destruct (Sleep w2 _) as [w3 [se|]] eqn:Es.
  { injection E as <- <- <- <-. apply tried_last; [lia|done|]. intros e' _. left. exists w3, se. eauto. }
  destruct (attempts left _ j _ _ w3) as [[[q4 w4] r4] es4] eqn:Ea. injection E as <- <- <- <-.
  assert (Hc : qcfg (stamp q (Now w1)) = qcfg q) by apply stamp_cfg.
  apply IH in Ea; [|rewrite Hc; lia|lia|lia|by rewrite Hc].
  eapply tried_next; [done|done| |].
  - intros Hr Hnil. subst es4. apply (tried_ok _ _ _ _ _ _ _ Ea) in Hr. done.
  - intros e' E' Hnil. subst es4. destruct (tried_failed _ _ _ _ _ _ _ Ea e' E') as [?|[? _]]; done.
Qed.

(** A job makes at most [MaxTries] calls; it is
    repeated only after an error worth another try, succeeds exactly when its last
    call did, and otherwise reports the last error, which was final, used up the
    attempts or asked for too long a wait, or reports that it was interrupted. *)
Theorem queue_retries (q : Queue) (j : job W) (w : W) (Htries : 0 < MaxTries (qcfg q) ≤ 2 ^ 15) :
  let '(q', w', r, es) := execute q j w in
  Tried (Z.to_nat (MaxTries (qcfg q))) q j 1 q' r es.
Proof.
  destruct (execute q j w) as [[[q' w'] r] es] eqn:E. unfold execute in E.
  eapply attempts_tried; [..|exact E]; lia.
Qed.
End Retries.

(** A world made of a clock and the calls seen: sleeping advances the clock,
    nothing ends. *)
#[global] Instance clock_world : World (Z * list Time) := {
  Now := fst;
  Sleep w d := ((w.1 + Z.max d 0, w.2), None);
  run_err _ := None;
  ctx_err _ := None
}.

#[global, refine] Instance clock_laws : WorldLaws (Z * list Time) := { calls := snd }.
Proof. all: cbn; intros; simplify_eq; cbn; solve [done|lia]. Defined.

(** A job that takes 3 ns and is told to wait 2 s the first minute. *)
Definition busy_job : job (Z * list Time) :=
  mkJob (λ w, ((w.1 + 3, w.2 ++ [w.1]), if w.1 <? 60 then Some (TooManyRequests "slow" 2) else None)) (λ _, None).

Lemma busy_seen : seen busy_job.
Proof. intros [t l] w' r. cbn. intros [= <- <-]. cbn. split; [lia|done]. Qed.

Lemma queue_paced_witness :
  let '(_, w, rs) := run_jobs (NewQueue DefaultQueueConfig) [busy_job; busy_job] (5, []) in
  rs = [None; None] ∧ calls w = [5; 2000000008; 3000000008] ∧ Paced (normalise DefaultQueueConfig) (calls w).
Proof.
  pose proof (queue_paced DefaultQueueConfig [busy_job; busy_job] (5, []) ltac:(vm_compute; discriminate)
    ltac:(vm_compute; discriminate) (Forall_cons_2 _ _ _ busy_seen (Forall_cons_2 _ _ _ busy_seen (Forall_nil_2 _))) eq_refl) as H.
  destruct (run_jobs (NewQueue DefaultQueueConfig) [busy_job; busy_job] (5, [])) as [[q w] rs] eqn:E.
  vm_compute in E. injection E as <- <- <-. split; [reflexivity|]. split; [reflexivity|exact H].
Defined.

Lemma queue_retries_witness :
  let '(q', w', r, es) := execute (NewQueue DefaultQueueConfig) busy_job (5, []) in
  r = None ∧ es = [Some (TooManyRequests "slow" 2); None] ∧ (length es ≤ 5)%nat.
Proof.
  pose proof (queue_retries (NewQueue DefaultQueueConfig) busy_job (5, [])
    ltac:(vm_compute; split; [reflexivity|discriminate])) as H.
  destruct (execute _ _ _) as [[[q' w'] r] es] eqn:E. destruct H as [Hb _ _ _].
  vm_compute in E. injection E as <- <- <- <-. split; [reflexivity|]. split; [reflexivity|exact Hb].
Defined.
