(* ===== verification/Regexp.v ===== *)
(** The part of Go's package regexp that the program uses: leftmost
    matching with preference order (greedy and lazy repetition, ordered
    alternatives), captures, the ASCII word boundary, the beginning and the
    end of text.

    The text is its code points with their bytes, as [segs] gives them; an
    ill-formed byte is one [rune_error], as package regexp decodes it. *)
From S2P Require Import Prelude GoStrings.

Definition seg : Type := Z * string.

(** A position in the text: the code point before it, its index, the rest. *)
Record input := mkInput { before : option Z; pos : nat; rest : list seg }.

(** Only single-rune classes are repeated in the patterns. *)
Inductive re :=
  | RChar (p : Z → bool)
  | RRep (p : Z → bool) (min : nat) (max : option nat) (greedy : bool)
  | RSeq (r1 r2 : re)
  | RAlt (r1 r2 : re)
  | RGroup (n : nat) (r : re)
  | RWordB
  | RBegin
  | REnd.

(** Captures, newest first: group, start, end. *)
Definition caps : Type := list (nat * (nat * nat)).
Definition outcome : Type := option (nat * caps).

(** [\w] of the ASCII word boundary. *)
Definition is_word (r : Z) : bool :=
  ascii_upper r || ascii_lower_letter r || ascii_digit r || (r =? 95)%Z.
Definition at_word (o : option Z) : bool := match o with Some r => is_word r | None => false end.

(** [p{min,max}], the longest run first when greedy, the shortest otherwise. *)
Fixpoint run_rep (p : Z → bool) (greedy : bool) (l : list seg) (mn : nat) (mx : option nat)
    (bf : option Z) (i : nat) (k : input → outcome) : outcome :=
  match l with
  | [] => if Nat.eqb mn 0 then k (mkInput bf i []) else None
  | (x, b) :: l' =>
    let can := p x && match mx with Some O => false | _ => true end in
    if greedy then
      match (if can then run_rep p greedy l' (pred mn) (pred <$> mx) (Some x) (S i) k else None) with
      | Some res => Some res
      | None => if Nat.eqb mn 0 then k (mkInput bf i l) else None
      end
    else
      match (if Nat.eqb mn 0 then k (mkInput bf i l) else None) with
      | Some res => Some res
      | None => if can then run_rep p greedy l' (pred mn) (pred <$> mx) (Some x) (S i) k else None
      end
  end.

Fixpoint run (r : re) (i : input) (c : caps) (k : input → caps → outcome) : outcome :=
  match r with
  | RChar p =>
    match rest i with
    | (x, _) :: l => if p x then k (mkInput (Some x) (S (pos i)) l) c else None
    | [] => None
    end
  | RRep p mn mx g => run_rep p g (rest i) mn mx (before i) (pos i) (λ i', k i' c)
  | RSeq r1 r2 => run r1 i c (λ i' c', run r2 i' c' k)
  | RAlt r1 r2 => match run r1 i c k with Some res => Some res | None => run r2 i c k end
  | RGroup n r => run r i c (λ i' c', k i' ((n, (pos i, pos i')) :: c'))
  | RWordB =>
    if negb (Bool.eqb (at_word (before i)) (at_word (fst <$> head (rest i)))) then k i c else None
  | RBegin => match before i with None => k i c | _ => None end
  | REnd => match rest i with [] => k i c | _ => None end
  end.

(** [FindAllStringSubmatchIndex]: the matches from left to right; a pattern
    of the program never matches the empty string. *)
Record rmatch := mkMatch { m_start : nat; m_end : nat; m_caps : caps }.

Definition match_at (r : re) (i : input) : outcome := run r i [] (λ i' c, Some (pos i', c)).

Fixpoint find_all (r : re) (bf : option Z) (p : nat) (l : list seg) (skip : nat) : list rmatch :=
  match l with
  | [] => []
  | (x, b) :: l' =>
    match skip with
    | S k => find_all r (Some x) (S p) l' k
    | O =>
      match match_at r (mkInput bf p l) with
      | Some (e, c) =>
        if Nat.ltb p e then mkMatch p e c :: find_all r (Some x) (S p) l' (e - S p)
        else find_all r (Some x) (S p) l' 0
      | None => find_all r (Some x) (S p) l' 0
      end
    end
  end.

Fixpoint group (c : caps) (n : nat) : option (nat * nat) :=
  match c with
  | [] => None
  | (m, span) :: c' => if Nat.eqb m n then Some span else group c' n
  end.

(** [text[a:b]] between two positions of the code points of [text]. *)
Definition slice (l : list seg) (a b : nat) : string := concat_str (take (b - a) (drop a l)).*2.

(** What a match captured: group 0 is the whole match, an unset group is
    the empty string. *)
Definition captured (l : list seg) (m : rmatch) (n : nat) : string :=
  match n with
  | O => slice l (m_start m) (m_end m)
  | _ => match group (m_caps m) n with Some (a, b) => slice l a b | None => EmptyString end
  end.

(** [MatchString] and [FindStringSubmatch]. *)
Definition FindStringSubmatch (r : re) (s : string) : option (nat → string) :=
  let l := segs s in captured l <$> head (find_all r None 0 l 0).
Definition MatchString (r : re) (s : string) : bool :=
  match FindStringSubmatch r s with Some _ => true | None => false end.

(** [ReplaceAllStringFunc], with the groups and the index of the match at hand. *)
Fixpoint replace_from (f : nat → (nat → string) → string) (l : list seg) (n last : nat) (ms : list rmatch) : string :=
  match ms with
  | [] => concat_str (drop last l).*2
  | m :: ms => slice l last (m_start m) +:+ f n (captured l m) +:+ replace_from f l (S n) (m_end m) ms
  end.
Definition replace_nth (r : re) (f : nat → (nat → string) → string) (s : string) : string :=
  let l := segs s in replace_from f l 0 0 (find_all r None 0 l 0).
Definition replace_func (r : re) (f : (nat → string) → string) : string → string := replace_nth r (λ _, f).
Definition all_matches (r : re) (s : string) : list (nat → string) :=
  let l := segs s in map (captured l) (find_all r None 0 l 0).

(** ** Writing patterns *)

Definition is_c (c : ascii) (r : Z) : bool := (r =? byte_of c)%Z.
Definition one_of (s : string) (r : Z) : bool := existsb (λ c, is_c c r) (bytes s).
Definition re_space (r : Z) : bool := ((r =? 9) || (r =? 10) || (r =? 12) || (r =? 13) || (r =? 32))%Z.
(** [.], without and with [(?s)]. *)
Definition re_dot (r : Z) : bool := negb (r =? 10)%Z.
Definition re_any (r : Z) : bool := true.

Definition reps : re := RRep (λ _, false) 0 (Some O) true.
Definition lit_with (f : ascii → Z → bool) (s : string) : re :=
  foldr (λ c r, RSeq (RChar (f c)) r) reps (bytes s).
Definition lit : string → re := lit_with is_c.
Definition many (p : Z → bool) (mn : nat) : re := RRep p mn None true.
Definition lazy (p : Z → bool) (mn : nat) : re := RRep p mn None false.
Definition times (p : Z → bool) (mn mx : nat) : re := RRep p mn (Some mx) true.
Fixpoint seqs (rs : list re) : re :=
  match rs with [] => reps | [r] => r | r :: rs => RSeq r (seqs rs) end.
Fixpoint alts (r : re) (rs : list re) : re :=
  match rs with [] => r | r' :: rs => RAlt r (alts r' rs) end.

(** The groups a pattern captures. *)
Fixpoint groups (r : re) : list nat :=
  match r with
  | RSeq r1 r2 | RAlt r1 r2 => groups r1 ++ groups r2
  | RGroup n r => n :: groups r
  | _ => []
  end.

(** ** What a match says *)

(** [i'] is further on in the text of [i]. *)
Definition further (i i' : input) : Prop :=
  ∃ l, rest i = l ++ rest i' ∧ pos i' = (pos i + length l)%nat.

Lemma further_refl i : further i i.
Proof. exists []. split; [done|]. simpl. lia. Qed.

Lemma further_trans i1 i2 i3 : further i1 i2 → further i2 i3 → further i1 i3.
Proof.
  intros (l & H & P) (l' & H' & P'). exists (l ++ l'). rewrite H, H', length_app.
  split; [by rewrite app_assoc|]. lia.
Qed.

Lemma further_pos i i' : further i i' → (pos i ≤ pos i')%nat.
Proof. intros (l & _ & ->). lia. Qed.

Lemma further_step bf i x b l bf' : further (mkInput bf i ((x, b) :: l)) (mkInput bf' (S i) l).
Proof. exists [(x, b)]. split; [done|]. simpl. lia. Qed.

Lemma run_rep_sound p g l mn mx bf i k res :
  run_rep p g l mn mx bf i k = Some res →
  ∃ i', further (mkInput bf i l) i' ∧ k i' = Some res.
Proof.
  revert mn mx bf i. induction l as [|[x b] l IH]; intros mn mx bf i; simpl.
  - case_match; [|done]. intros Hk. eexists. split; [apply further_refl|done].
  - assert (Hstop : (if Nat.eqb mn 0 then k (mkInput bf i ((x, b) :: l)) else None) = Some res →
      ∃ i', further (mkInput bf i ((x, b) :: l)) i' ∧ k i' = Some res).
    { case_match; [|done]. intros Hk. eexists. split; [apply further_refl|done]. }
    assert (Hmore : ∀ can : bool, (if can then run_rep p g l (pred mn) (pred <$> mx) (Some x) (S i) k else None) = Some res →
      ∃ i', further (mkInput bf i ((x, b) :: l)) i' ∧ k i' = Some res).
    { intros [|]; [|done]. intros (i' & Hf & Hk)%IH. exists i'. split; [|done].
      by eapply further_trans; [apply further_step|]. }
    destruct g; lazymatch goal with |- match ?e with _ => _ end = _ → _ => destruct e eqn:E end;
      intros H; [injection H as ->; by eapply Hmore|by apply Hstop| |by eapply Hmore].
    injection H as ->. by apply Hstop.
Qed.

(** Captures made on the way from [i] to [i']. *)
Definition caps_in (r : re) (i i' : input) (c : caps) : Prop :=
  Forall (λ x, x.1 ∈ groups r ∧ pos i ≤ x.2.1 ≤ x.2.2 ∧ x.2.2 ≤ pos i')%nat c.

Lemma run_sound r i c k res :
  run r i c k = Some res →
  ∃ i' c2, further i i' ∧ k i' (c2 ++ c) = Some res ∧ caps_in r i i' c2.
Proof.
  revert i c k. induction r as [p|p mn mx g|r1 IH1 r2 IH2|r1 IH1 r2 IH2|n r IH| | |]; intros i c k; simpl.
  - destruct i as [bf j [|[x b] l]]; simpl; [done|]. case_match; [|done]. intros Hk.
    eexists _, []. split_and!; [apply further_step|done|constructor].
  - intros (i' & Hf & Hk)%run_rep_sound. exists i', []. split_and!; [|done|constructor]. by destruct i.
  - intros (i1 & c1 & Hf1 & H1 & Hc1)%IH1. apply IH2 in H1 as (i2 & c2 & Hf2 & H2 & Hc2).
    exists i2, (c2 ++ c1). rewrite <-app_assoc. split_and!; [by eapply further_trans|done|].
    apply further_pos in Hf1, Hf2. apply Forall_app. split.
    + eapply Forall_impl; [done|]. intros x [? ?]. cbn. rewrite elem_of_app. split; [by right|lia].
    + eapply Forall_impl; [done|]. intros x [? ?]. cbn. rewrite elem_of_app. split; [by left|lia].
  - destruct (run r1 i c k) as [res'|] eqn:E.
    + intros [= ->]. apply IH1 in E as (i' & c2 & Hf & Hk & Hc). exists i', c2. split_and!; [done..|].
      eapply Forall_impl; [done|]. intros x [? ?]. cbn. rewrite elem_of_app. split; [by left|done].
    + intros (i' & c2 & Hf & Hk & Hc)%IH2. exists i', c2. split_and!; [done..|].
      eapply Forall_impl; [done|]. intros x [? ?]. cbn. rewrite elem_of_app. split; [by right|done].
  - intros (i' & c2 & Hf & Hk & Hc)%IH. exists i', ((n, (pos i, pos i')) :: c2).
    split_and!; [done..|]. apply further_pos in Hf. constructor; [cbn; split; [by left|lia]|].
    eapply Forall_impl; [done|]. intros x [? ?]. cbn. split; [by right|done].
  - case_match; [|done]. intros Hk. exists i, []. split_and!; [apply further_refl|done|constructor].
  - case_match; [done|]. intros Hk. exists i, []. split_and!; [apply further_refl|done|constructor].
  - case_match; [|done]. intros Hk. exists i, []. split_and!; [apply further_refl|done|constructor].
Qed.

Lemma group_app_skip c2 c n : Forall (λ x : nat * (nat * nat), x.1 ≠ n) c2 → group (c2 ++ c) n = group c n.
Proof.
  induction 1 as [|[m span] c2 Hm _ IH]; [done|]. cbn in *. by rewrite (proj2 (Nat.eqb_neq _ _) Hm).
Qed.

Lemma caps_in_skip r i i' c n : caps_in r i i' c → n ∉ groups r → Forall (λ x : nat * (nat * nat), x.1 ≠ n) c.
Proof. intros H Hn. eapply Forall_impl; [done|]. intros x [Hx _] E. apply Hn. by rewrite <-E. Qed.

(** A group at the head of a sequence captures from where the sequence starts. *)
Lemma run_group_head n p b i c k res :
  n ∉ groups b → run (RSeq (RGroup n p) b) i c k = Some res →
  ∃ i1 i2 c', further i i1 ∧ further i1 i2 ∧ k i2 c' = Some res ∧
    group c' n = Some (pos i, pos i1) ∧
    ∀ m, m ∉ groups (RSeq (RGroup n p) b) → group c' m = group c m.
Proof.
  intros Hn H. cbn [run] in H. apply run_sound in H as (i1 & c1 & Hf1 & H & Hc1).
  apply run_sound in H as (i2 & c2 & Hf2 & H & Hc2). exists i1, i2, (c2 ++ (n, (pos i, pos i1)) :: c1 ++ c).
  split_and!; [done..| |].
  - rewrite group_app_skip by (by eapply caps_in_skip). cbn. by rewrite Nat.eqb_refl.
  - intros m Hm. cbn [groups] in Hm. rewrite not_elem_of_app, not_elem_of_cons in Hm.
    destruct Hm as [[Hmn Hmp] Hmb].
    rewrite group_app_skip by (by eapply caps_in_skip). cbn.
    rewrite (proj2 (Nat.eqb_neq _ _)) by congruence. rewrite group_app_skip; [done|by eapply caps_in_skip].
Qed.
