(* ===== verification/Format.v ===== *)
(** internal/adapters/telegram/format.go: cutting a text into pieces of at
    most so many UTF-16 code units, which is how Telegram measures a message,
    and escaping a piece for parse_mode HTML. *)
From S2P Require Import Prelude GoStrings.

Local Open Scope Z_scope.

(** ** Lengths in UTF-16 code units *)

(** [utf16.RuneLen]. *)
Definition RuneLen (r : Z) : Z :=
  if valid_rune r then (if r <? 65536 then 1 else 2) else -1.

(** What one rune costs: a rune without a UTF-16 form costs one. *)
Definition rune_units (r : Z) : Z := if RuneLen r <? 0 then 1 else RuneLen r.

Definition units (rs : list Z) : Z := foldr (λ r n, rune_units r + n) 0 rs.
Definition utf16Len (s : string) : Z := units (runes s).

(** The loop of [fitUTF16] from an index on; [first] is [i == 0]. *)
Fixpoint fit_from (max n : Z) (first : bool) (rs : list Z) : nat :=
  match rs with
  | [] => 0
  | r :: rs =>
    if (max <? n + rune_units r) && negb first then 0
    else S (fit_from max (n + rune_units r) false rs)
  end.
Definition fitUTF16 (rs : list Z) (max : Z) : nat := fit_from max 0 true rs.

Fixpoint lastIndexRune (rs : list Z) (r : Z) : Z :=
  match rs with
  | [] => -1
  | x :: rs =>
    let i := lastIndexRune rs r in
    if 0 <=? i then i + 1 else if x =? r then 0 else -1
  end.

(** ** Cutting *)

Definition newline_rune : Z := 10.
Definition drop_newline (rs : list Z) : list Z :=
  match rs with r :: rs' => if r =? newline_rune then rs' else rs | [] => [] end.

(** Where the first piece ends when not everything fits. *)
Definition cut_point (n : nat) (rs : list Z) : nat :=
  let nl := lastIndexRune (take n rs) newline_rune in
  if Z.of_nat (n / 2) <? nl then Z.to_nat nl else n.

(** The loop of [chunk]; every round takes at least one rune. *)
Fixpoint chunk_loop (fuel : nat) (rest : list Z) (max : Z) : list (list Z) :=
  match fuel with
  | O => []
  | S fuel =>
    let n := fitUTF16 rest max in
    if Nat.eqb n (length rest) then [rest]
    else
      let cut := cut_point n rest in
      let rest' := drop_newline (drop cut rest) in
      take cut rest :: match rest' with [] => [] | _ => chunk_loop fuel rest' max end
  end.

Definition chunk (text : string) (max : Z) : list string :=
  if String.eqb text "" then []
  else if max <=? 0 then [text]
  else map string_of_runes (chunk_loop (length (runes text)) (runes text) max).

(** ** Escaping and names *)

(** A replacer whose old strings are single bytes replaces byte by byte. *)
Definition escape_bytes (f : ascii → option string) (s : string) : string :=
  concat_str (map (λ c, default (String c "") (f c)) (bytes s)).

(** [html.EscapeString]. *)
Definition html_entity (c : ascii) : option string :=
  match c with
  | "&"%char => Some "&amp;"
  | "'"%char => Some "&#39;"
  | "<"%char => Some "&lt;"
  | ">"%char => Some "&gt;"
  | "034"%char => Some "&#34;"
  | _ => None
  end.
Definition EscapeString : string → string := escape_bytes html_entity.

Definition renderPlain (part : string) : string := EscapeString part.
Definition renderCode (part : string) : string := "<pre>" +:+ EscapeString part +:+ "</pre>".

Definition textMax : Z := 4096 - 64.
Definition defaultTopicName : string := "agent".

Definition truncateName (s : string) (max : Z) : string :=
  let s := trim_space s in
  let s := if String.eqb s "" then defaultTopicName else s in
  let r := runes s in
  let n := fitUTF16 r max in
  if Nat.ltb n (length r) then string_of_runes (take n r) else s.

(** ** Lemmas on lengths *)

Lemma rune_units_range r : 1 ≤ rune_units r ≤ 2.
Proof. unfold rune_units, RuneLen. destruct (valid_rune r), (r <? 65536); simpl; lia. Qed.

Lemma units_app a b : units (a ++ b) = units a + units b.
Proof. induction a as [|r a IH]; simpl; lia. Qed.

Lemma units_cons r a : units (r :: a) = rune_units r + units a.
Proof. done. Qed.

Lemma units_length rs : Z.of_nat (length rs) ≤ units rs.
Proof. induction rs as [|r rs IH]; simpl; [lia|]. pose proof (rune_units_range r). lia. Qed.

Lemma units_nonneg rs : 0 ≤ units rs.
Proof. pose proof (units_length rs). lia. Qed.

Lemma units_take n rs : units (take n rs) ≤ units rs.
Proof. rewrite <-(take_drop n rs) at 2. rewrite units_app. pose proof (units_nonneg (drop n rs)). lia. Qed.

(** [fitUTF16] takes the longest prefix that fits, and at least one rune. *)
Lemma fit_from_spec max n first rs :
  let k := fit_from max n first rs in
  (k ≤ length rs)%nat ∧
  (first = false → n ≤ max → n + units (take k rs) ≤ max) ∧
  (first = true → n + 2 ≤ max → n + units (take k rs) ≤ max) ∧
  (first = true → rs ≠ [] → (0 < k)%nat) ∧
  (∀ r, rs !! k = Some r → max < n + units (take k rs) + rune_units r).
Proof.
  cbv zeta. revert n first. induction rs as [|r rs IH]; intros n first; simpl.
  { split_and!; [lia|lia|lia|done|done]. }
  destruct (Z.ltb_spec max (n + rune_units r)) as [Hlt|Hle]; simpl; destruct first; simpl.
  - destruct (IH (n + rune_units r) false) as (H1 & _ & _ & _ & H5). pose proof (rune_units_range r).
    split_and!; [lia|done|lia|lia|]. intros x Hx. specialize (H5 x Hx). lia.
  - split_and!; [lia|lia|done|done|]. intros x [= ->]. simpl. lia.
  - destruct (IH (n + rune_units r) false) as (H1 & H2 & _ & _ & H5).
    split_and!; [lia|done| |lia|].
    + intros _ _. specialize (H2 eq_refl Hle). lia.
    + intros x Hx. specialize (H5 x Hx). lia.
  - destruct (IH (n + rune_units r) false) as (H1 & H2 & _ & _ & H5).
    split_and!; [lia| |done|done|].
    + intros _ _. specialize (H2 eq_refl Hle). lia.
    + intros x Hx. specialize (H5 x Hx). lia.
Qed.

Lemma fitUTF16_spec rs max :
  2 ≤ max → rs ≠ [] →
  (0 < fitUTF16 rs max ≤ length rs)%nat ∧ units (take (fitUTF16 rs max) rs) ≤ max ∧
  ∀ r, rs !! fitUTF16 rs max = Some r → max < units (take (fitUTF16 rs max) rs ++ [r]).
Proof.
  intros Hm Hrs. destruct (fit_from_spec max 0 true rs) as (H1 & _ & H3 & H4 & H5).
  unfold fitUTF16. split_and!; [by apply H4|done|apply H3; [done|lia]|].
  intros r Hr. specialize (H5 r Hr). rewrite units_app. simpl. lia.
Qed.

Lemma fitUTF16_pos rs max : rs ≠ [] → (0 < fitUTF16 rs max ≤ length rs)%nat.
Proof. intros Hrs. destruct (fit_from_spec max 0 true rs) as (H1 & _ & _ & H4 & _). by split; [apply H4|]. Qed.

Lemma lastIndexRune_spec rs r :
  (lastIndexRune rs r = -1 ∧ r ∉ rs) ∨
  ∃ a b, rs = a ++ r :: b ∧ r ∉ b ∧ lastIndexRune rs r = Z.of_nat (length a).
Proof.
  induction rs as [|x rs IH]; simpl; [left; split; [done|apply not_elem_of_nil]|].
  destruct IH as [[-> Hn]|(a & b & -> & Hb & ->)].
  - simpl. destruct (Z.eqb_spec x r) as [->|Hx].
    + right. by exists [], rs.
    + left. split; [done|]. rewrite elem_of_cons. intros [->|?]; done.
  - right. exists (x :: a), b. split_and!; [done..|]. destruct (Z.leb_spec 0 (Z.of_nat (length a))); simpl; lia.
Qed.

(** ** What [chunk] computes

    [cuts max rs ps]: the text [rs] is cut into the pieces [ps]. A piece that
    is not the last ends where the next rune would not fit, or before the last
    newline up to there when that one lies in the second half; the newline at
    a cut is dropped. *)
Inductive cuts (max : Z) : list Z → list (list Z) → Prop :=
  | cuts_last rs : rs ≠ [] → units rs ≤ max → cuts max rs [rs]
  | cuts_line a b r c ps :
      units (a ++ newline_rune :: b) ≤ max → max < units ((a ++ newline_rune :: b) ++ [r]) →
      newline_rune ∉ b → (length (a ++ newline_rune :: b) / 2 < length a)%nat →
      cuts_tail max (b ++ r :: c) ps →
      cuts max ((a ++ newline_rune :: b) ++ r :: c) (a :: ps)
  | cuts_full a r c ps :
      a ≠ [] → units a ≤ max → max < units (a ++ [r]) →
      (∀ x y, a = x ++ newline_rune :: y → newline_rune ∉ y → (length x ≤ length a / 2)%nat) →
      cuts_tail max (drop_newline (r :: c)) ps →
      cuts max (a ++ r :: c) (a :: ps)
with cuts_tail (max : Z) : list Z → list (list Z) → Prop :=
  | tail_done : cuts_tail max [] []
  | tail_more rs ps : cuts max rs ps → cuts_tail max rs ps.

Scheme cuts_mut := Minimality for cuts Sort Prop
  with cuts_tail_mut := Minimality for cuts_tail Sort Prop.

(** [rs] is the pieces with nothing or one newline behind each. *)
Definition rejoins (rs : list Z) (ps : list (list Z)) : Prop :=
  ∃ seps, length seps = length ps ∧ Forall (λ s, s = [] ∨ s = [newline_rune]) seps ∧
    rs = mjoin (zip_with (++) ps seps).

Lemma rejoins_cons p s rs ps :
  s = [] ∨ s = [newline_rune] → rejoins rs ps → rejoins (p ++ s ++ rs) (p :: ps).
Proof.
  intros Hs (seps & Hl & Hf & ->). exists (s :: seps). split_and!; [simpl; lia|by constructor|].
  simpl. by rewrite app_assoc.
Qed.

Lemma rejoins_nil : rejoins [] [].
Proof. by exists []. Qed.

Lemma drop_newline_split rs : ∃ s, (s = [] ∨ s = [newline_rune]) ∧ rs = s ++ drop_newline rs.
Proof.
  destruct rs as [|r rs]; [by exists []; split; [left|]|]. simpl.
  destruct (Z.eqb_spec r newline_rune) as [->|]; [exists [newline_rune]|exists []]; split; auto.
Qed.

Lemma cuts_rejoins max rs ps : cuts max rs ps → rejoins rs ps.
Proof.
  intros H. induction H using cuts_mut with (P0 := rejoins); try done; try apply rejoins_nil.
  - pose proof (rejoins_cons rs [] [] [] (or_introl eq_refl) rejoins_nil) as H'. by rewrite !app_nil_r in H'.
  - rewrite <-app_assoc. simpl. exact (rejoins_cons a [newline_rune] _ _ (or_intror eq_refl) IHcuts).
  - destruct (drop_newline_split (r :: c)) as (s & Hs & E). rewrite E. by apply rejoins_cons.
Qed.

Lemma cuts_bounded max rs ps : cuts max rs ps → Forall (λ p, p ≠ [] ∧ units p ≤ max) ps.
Proof.
  intros H.
  induction H using cuts_mut with (P0 := λ _ ps, Forall (λ p, p ≠ [] ∧ units p ≤ max) ps);
    try done; constructor; try done.
  split; [intros ->; simpl in *; lia|]. rewrite units_app in H.
  pose proof (units_nonneg (newline_rune :: b)). lia.
Qed.

(** One round of the loop on a text that does not fit. *)
Lemma cut_round max rs ps :
  2 ≤ max → rs ≠ [] → fitUTF16 rs max ≠ length rs →
  let cut := cut_point (fitUTF16 rs max) rs in
  cuts_tail max (drop_newline (drop cut rs)) ps → cuts max rs (take cut rs :: ps).
Proof.
  intros Hm Hrs Hn cut. unfold cut, cut_point. clear cut.
  destruct (fitUTF16_spec rs max Hm Hrs) as (Hk & Hfit & Hmax).
  set (n := fitUTF16 rs max) in *. destruct (drop n rs) as [|r c] eqn:Hd.
  { apply (f_equal length) in Hd. rewrite length_drop in Hd. simpl in Hd. lia. }
  assert (Hr : rs !! n = Some r) by (rewrite <-(Nat.add_0_r n), <-lookup_drop, Hd; done).
  specialize (Hmax r Hr).
  assert (Hl : length (take n rs) = n) by (rewrite length_take; lia).
  assert (E : rs = take n rs ++ r :: c) by (by rewrite <-Hd, take_drop).
  assert (Ha : take n rs ≠ []) by (intros H0; rewrite H0 in Hl; simpl in Hl; lia).
  set (a := take n rs) in *. clearbody a n. clear Hr Hd Hn Hrs Hk. subst rs.
  destruct (lastIndexRune_spec a newline_rune) as [[-> Hno]|(x & b & -> & Hb & ->)].
  - rewrite (proj2 (Z.ltb_ge _ _)) by lia. subst n. rewrite drop_app_length, take_app_length.
    intros Ht. apply cuts_full; [done..| |done].
    intros x y -> _. destruct Hno. rewrite elem_of_app, elem_of_cons. auto.
  - destruct (Z.ltb_spec (Z.of_nat (n / 2)) (Z.of_nat (length x))) as [Hlt|Hge].
    + rewrite Nat2Z.id. rewrite <-!app_assoc, drop_app_length, take_app_length. simpl.
      intros Ht. rewrite app_comm_cons, app_assoc.
      apply cuts_line; [done..|subst n; lia|done].
    + subst n. rewrite drop_app_length, take_app_length. intros Ht.
      apply cuts_full; [done..| |done].
      intros x' y' E Hy. assert (x' = x) as ->; [|lia].
      revert Hb Hy E. clear. revert x'. induction x as [|h x IH]; intros [|h' x'] Hb Hy E; simplify_eq/=; [done|..].
      * destruct Hb. rewrite elem_of_app, elem_of_cons. auto.
      * destruct Hy. rewrite elem_of_app, elem_of_cons. auto.
      * f_equal. by apply IH.
Qed.

Lemma chunk_loop_cuts fuel rs max :
  2 ≤ max → rs ≠ [] → (length rs ≤ fuel)%nat → cuts max rs (chunk_loop fuel rs max).
Proof.
  intros Hm. revert rs. induction fuel as [|fuel IH]; intros rs Hrs Hf.
  { destruct rs; simpl in *; [done|lia]. }
  simpl. destruct (Nat.eqb_spec (fitUTF16 rs max) (length rs)) as [E|E].
  { apply cuts_last; [done|]. pose proof (fitUTF16_spec rs max Hm Hrs) as (_ & H & _).
    by rewrite E, take_ge in H by done. }
  apply cut_round; [done..|]. set (cut := cut_point _ rs).
  destruct (drop_newline (drop cut rs)) as [|r rest] eqn:Hd; [constructor|].
  constructor. apply IH; [done|]. rewrite <-Hd.
  destruct (drop_newline_split (drop cut rs)) as (s & _ & E'). apply (f_equal length) in E'.
  rewrite length_drop, length_app in E'.
  assert (0 < cut)%nat; [|lia]. unfold cut, cut_point.
  pose proof (fitUTF16_pos rs max Hrs). case_match eqn:H'; [|lia].
  apply Z.ltb_lt in H'. lia.
Qed.

Lemma runes_nonempty text : text ≠ EmptyString → runes text ≠ [].
Proof. intros Ht Hr. apply Ht. rewrite <-(segs_concat text). unfold runes in Hr. by destruct (segs text). Qed.

Lemma chunk_loop_ok text max :
  2 ≤ max → text ≠ EmptyString →
  chunk text max = map string_of_runes (chunk_loop (length (runes text)) (runes text) max) ∧
  cuts max (runes text) (chunk_loop (length (runes text)) (runes text) max).
Proof.
  intros Hm Ht. unfold chunk. rewrite (proj2 (String.eqb_neq _ _)) by done. rewrite (proj2 (Z.leb_gt _ _)) by lia.
  split; [done|]. apply chunk_loop_cuts; [done|by apply runes_nonempty|lia].
Qed.

Lemma rejoins_valid rs ps : Forall (λ r, valid_rune r = true) rs → rejoins rs ps →
  Forall (Forall (λ r, valid_rune r = true)) ps.
Proof.
  intros Hv (seps & Hl & _ & ->). revert seps Hl Hv.
  induction ps as [|p ps IH]; intros [|s seps] Hl Hv; try done; constructor; simpl in *.
  - by apply Forall_app in Hv as [[? _]%Forall_app _].
  - apply Forall_app in Hv as [_ Hv]. eapply IH; [|done]. lia.
Qed.

(** A piece is not empty and fits. *)
Lemma chunk_pieces text max : 2 ≤ max → text ≠ EmptyString →
  ∀ p, p ∈ chunk text max → p ≠ EmptyString ∧ utf16Len p ≤ max.
Proof.
  intros Hm Ht p Hp. destruct (chunk_loop_ok text max Hm Ht) as [E Hc]. rewrite E in Hp.
  apply list_elem_of_fmap in Hp as (rs & -> & Hrs).
  pose proof (cuts_bounded _ _ _ Hc) as Hb. rewrite Forall_forall in Hb. destruct (Hb rs Hrs) as [Hne Hu].
  pose proof (rejoins_valid _ _ (runes_valid text) (cuts_rejoins _ _ _ Hc)) as Hv. rewrite Forall_forall in Hv.
  split.
  - destruct rs as [|r rs]; [done|]. unfold string_of_runes. simpl. pose proof (encode_rune_byte0 r). by destruct (encode_rune r).
  - unfold utf16Len. by rewrite runes_string_of_runes by (by apply Hv).
Qed.

(** A text is cut into pieces of at most [max] UTF-16 code units, none
    empty, by the rule of [cuts], and the pieces with at most one newline
    behind each are the text again: no rune is lost, doubled or split. *)
Theorem chunk_spec text max :
  2 ≤ max → text ≠ EmptyString →
  ∃ ps, chunk text max = map string_of_runes ps ∧ cuts max (runes text) ps ∧
    Forall (λ p, p ≠ [] ∧ units p ≤ max) ps ∧ rejoins (runes text) ps.
Proof.
  intros Hm Ht. destruct (chunk_loop_ok text max Hm Ht) as [E Hc]. eexists. rewrite E.
  split_and!; [done..|by eapply cuts_bounded|by eapply cuts_rejoins].
Qed.

Lemma chunk_spec_witness :
  chunk "one😀 two" 5 = ["one😀"; " two"] ∧
  ∃ ps, chunk "one😀 two" 5 = map string_of_runes ps ∧ cuts 5 (runes "one😀 two") ps ∧
    Forall (λ p, p ≠ [] ∧ units p ≤ 5) ps ∧ rejoins (runes "one😀 two") ps.
Proof. split; [reflexivity|]. refine (chunk_spec "one😀 two" 5 _ _); [lia|congruence]. Defined.

Example chunk_newline : chunk ("abc" +:+ nl +:+ "d" +:+ nl +:+ nl +:+ "ef") 5 = ["abc"; "d" +:+ nl +:+ nl +:+ "ef"].
Proof. reflexivity. Qed.

(** A topic name fits, whatever the label. *)
Lemma truncateName_fits s max :
  5 ≤ max → utf16Len (truncateName s max) ≤ max ∧ truncateName s max ≠ EmptyString.
Proof.
  intros Hm. unfold truncateName. cbv zeta.
  set (t := if String.eqb (trim_space s) "" then defaultTopicName else trim_space s).
  assert (Ht : t ≠ EmptyString).
  { unfold t. case_match eqn:E; [done|]. by apply String.eqb_neq. }
  clearbody t. pose proof (runes_nonempty t Ht) as Hr.
  destruct (fitUTF16_spec (runes t) max ltac:(lia) Hr) as (Hk & Hfit & _).
  destruct (Nat.ltb_spec (fitUTF16 (runes t) max) (length (runes t))) as [Hlt|Hge].
  - unfold utf16Len. rewrite runes_string_of_runes by (apply Forall_take, runes_valid).
    split; [done|]. destruct (runes t) as [|r l]; [done|].
    destruct (fitUTF16 (r :: l) max) as [|k]; [lia|]. simpl. unfold string_of_runes. simpl.
    pose proof (encode_rune_byte0 r). by destruct (encode_rune r).
  - rewrite take_ge in Hfit by lia. done.
Qed.
