(* ===== verification/Markdown.v ===== *)
(** internal/adapters/telegram/markdown.go: an agent's Markdown rendered into
    the HTML subset Telegram accepts, and cut before rendering so that code
    fences are closed at a seam and reopened behind it. *)
From S2P Require Import Prelude GoStrings Regexp Format.

Local Open Scope Z_scope.

(** ** Patterns *)

Definition blank_tab (r : Z) : bool := (r =? 32) || (r =? 9).
Definition carriage : string := String "013" nl.

Definition mdFence : re :=
  seqs [RBegin; times re_space 0 3; RGroup 1 (RAlt (many (is_c "`") 3) (many (is_c "~") 3));
        RGroup 2 (many re_dot 0); REnd].
Definition table_char (r : Z) : bool := re_space r || one_of ":|-" r.
Definition mdTableRule : re :=
  seqs [RBegin; many re_space 0; times (is_c "|") 0 1; many table_char 0; lit "-"; many table_char 0;
        lit "|"; many table_char 0; REnd].
Definition mdHeading : re :=
  seqs [RBegin; times re_space 0 3; times (is_c "#") 1 6; many re_space 1; RGroup 1 (lazy re_dot 0);
        many re_space 0; many (is_c "#") 0; many re_space 0; REnd].
Definition mdBullet : re :=
  seqs [RBegin; RGroup 1 (many re_space 0); RChar (one_of "-*+"); many blank_tab 1].
Definition mdQuote : re := seqs [RBegin; times re_space 0 3; lit "&gt;"; times blank_tab 0 1].
(** Two more marks are required, and from the third one on blanks and marks
    come in any order: this is the repeated group and the blanks behind it. *)
Definition rule_mark : Z → bool := one_of "-*_".
Definition mdRule : re :=
  seqs [RBegin; times re_space 0 3; RChar rule_mark; many blank_tab 0; RChar rule_mark;
        many blank_tab 0; RChar rule_mark; many (λ r, blank_tab r || rule_mark r) 0; REnd].
Definition mdCode : re := seqs [lit "`"; RGroup 1 (many (λ r, negb (is_c "`" r || (r =? 10))) 1); lit "`"].
Definition mdLink : re :=
  seqs [lit "["; RGroup 1 (many (λ r, negb (is_c "]" r || (r =? 10))) 0); lit "](";
        RGroup 2 (many (λ r, negb (is_c ")" r || re_space r)) 1); lit ")"].
Definition mdBoldItal : re :=
  seqs [lit "***"; RGroup 1 (lazy (λ r, negb (is_c "*" r || (r =? 10))) 1); lit "***"].
Definition mdBold : re := seqs [lit "**"; RGroup 1 (lazy re_any 1); lit "**"].
Definition mdStrike : re := seqs [lit "~~"; RGroup 1 (lazy re_any 1); lit "~~"].
Definition mdStash : re := seqs [RChar (Z.eqb 0); RGroup 1 (many ascii_digit 1); RChar (Z.eqb 0)].
Definition mdLang : re :=
  seqs [RBegin; many (λ r, ascii_upper r || ascii_lower_letter r || ascii_digit r || one_of "_+#.-" r) 1; REnd].

Section Words.
Context {U : UnicodeTables}.

(** [[^\pL\pN_]] and [[^\pL\pN_*]]: what may stand beside an emphasis. *)
Definition beside (r : Z) : bool := negb (is_letter r || is_number r || is_c "_" r).
Definition beside_star (r : Z) : bool := beside r && negb (is_c "*" r).
Definition around (out : Z → bool) (mark : string) (body : re) : re :=
  seqs [RGroup 1 (RAlt RBegin (RChar out)); lit mark; RGroup 2 body; lit mark; RGroup 3 (RAlt (RChar out) REnd)].
Definition emphasis_char (c : ascii) (r : Z) : bool := negb (is_c c r || (r =? 10) || one_of "<>" r).
Definition mdBoldAlt : re := around beside "__" (lazy re_any 1).
Definition mdItalic : re := around beside_star "*" (lazy (emphasis_char "*") 1).
Definition mdItalicAlt : re := around beside "_" (lazy (emphasis_char "_") 1).
End Words.

Definition mdRuleLine : string := "———".

(** [htmlEscaper] and [attrEscaper]. *)
Definition htmlEscaper : string → string := escape_bytes (λ c,
  match c with
  | "&"%char => Some "&amp;"
  | "<"%char => Some "&lt;"
  | ">"%char => Some "&gt;"
  | _ => None
  end).
Definition attrEscaper : string → string := escape_bytes (λ c,
  match c with
  | "034"%char => Some "&quot;"
  | "'"%char => Some "&#39;"
  | _ => None
  end).

(** ** Blocks *)

Inductive mdKind := code | table | text.
Record mdBlock := mkBlock { kind : mdKind; body : string; info : string }.

Definition flushPlain (plain : list string) : list mdBlock :=
  match plain with [] => [] | _ => [mkBlock text (join plain nl) ""] end.

(** The marker and what follows it on a line that opens or closes a fence. *)
Definition fence_of (line : string) : option (string * string) :=
  match FindStringSubmatch mdFence line with Some m => Some (m 1%nat, m 2%nat) | None => None end.

(** The lines before the closing marker, and those behind it. *)
Fixpoint fence_body (marker : string) (lines : list string) : list string * list string :=
  match lines with
  | [] => ([], [])
  | l :: ls =>
    if has_prefix (trim_space l) marker then ([], ls)
    else let '(b, r) := fence_body marker ls in (l :: b, r)
  end.

Definition has_bar (line : string) : bool := contains line "|".
Fixpoint table_body (lines : list string) : list string * list string :=
  match lines with
  | l :: ls => if has_bar l then let '(b, r) := table_body ls in (trim_space l :: b, r) else ([], lines)
  | [] => ([], [])
  end.
Definition table_rule (lines : list string) : bool :=
  match lines with l :: _ => has_bar l && MatchString mdTableRule l | [] => false end.

(** Every round consumes at least a line. *)
Fixpoint blocks_loop (fuel : nat) (lines plain : list string) : list mdBlock :=
  match fuel, lines with
  | S fuel, l :: ls =>
    match fence_of l with
    | Some (marker, rest) =>
      let '(b, r) := fence_body marker ls in
      flushPlain plain ++ mkBlock code (join b nl) (trim_space rest) :: blocks_loop fuel r []
    | None =>
      if has_bar l && table_rule ls then
        let '(b, r) := table_body lines in
        flushPlain plain ++ mkBlock table (join b nl) "" :: blocks_loop fuel r []
      else blocks_loop fuel ls (plain ++ [l])
    end
  | _, _ => flushPlain plain
  end.
Definition mdBlocks (text : string) : list mdBlock :=
  let lines := lines_of text in blocks_loop (length lines) lines [].

(** ** Rendering *)

Section Render.
Context {U : UnicodeTables}.

Definition nul : string := String "000" "".

Definition render_line (ln : string) : string :=
  if MatchString mdRule ln then mdRuleLine
  else
    match FindStringSubmatch mdHeading ln with
    | Some m => "<b>" +:+ replace_all (m 1%nat) "**" "" +:+ "</b>"
    | None => replace_func mdBullet (λ m, m 1%nat +:+ "• ") (replace_func mdQuote (λ _, "│ ") ln)
    end.

Definition render_link (m : nat → string) : string :=
  let label := if String.eqb (m 1%nat) "" then m 2%nat else m 1%nat in
  "<a href=" +:+ String "034" (attrEscaper (m 2%nat)) +:+ String "034" ">" +:+ label +:+ "</a>".

Definition render_emphasis (text : string) : string :=
  let text := replace_func mdBoldItal (λ m, "<b><i>" +:+ m 1%nat +:+ "</i></b>") text in
  let text := replace_func mdBold (λ m, "<b>" +:+ m 1%nat +:+ "</b>") text in
  let text := replace_func mdBoldAlt (λ m, m 1%nat +:+ "<b>" +:+ m 2%nat +:+ "</b>" +:+ m 3%nat) text in
  let text := replace_func mdItalic (λ m, m 1%nat +:+ "<i>" +:+ m 2%nat +:+ "</i>" +:+ m 3%nat) text in
  let text := replace_func mdItalicAlt (λ m, m 1%nat +:+ "<i>" +:+ m 2%nat +:+ "</i>" +:+ m 3%nat) text in
  replace_func mdStrike (λ m, "<s>" +:+ m 1%nat +:+ "</s>") text.

(** A placeholder whose number is not one of the stash stays as it is. *)
Definition unstash (stash : list string) (m : nat → string) : string :=
  match atoi (m 1%nat) with
  | Some n =>
    if (n <? 0) || (Z.of_nat (length stash) <=? n) then m 0%nat
    else "<code>" +:+ htmlEscaper (nth (Z.to_nat n) stash "") +:+ "</code>"
  | None => m 0%nat
  end.

Definition renderInline (text : string) : string :=
  let text := replace_all text nul "" in
  let stash := map (λ m : nat → string, m 1%nat) (all_matches mdCode text) in
  let text := replace_nth mdCode (λ i _, nul +:+ itoa (Z.of_nat i) +:+ nul) text in
  let text := htmlEscaper text in
  let text := join (map render_line (lines_of text)) nl in
  let text := replace_func mdLink render_link text in
  replace_func mdStash (unstash stash) (render_emphasis text).

Definition block_lang (b : mdBlock) : string :=
  match kind b, fields (info b) with
  | code, f :: _ => if MatchString mdLang f then f else "plaintext"
  | _, _ => "plaintext"
  end.

Definition render_block (b : mdBlock) : list string :=
  match kind b with
  | text => [renderInline (body b)]
  | _ =>
    if String.eqb (trim_space (body b)) "" then []
    else ["<pre><code class=" +:+ String "034" ("language-" +:+ block_lang b) +:+ String "034" ">" +:+
          htmlEscaper (body b) +:+ "</code></pre>"]
  end.

Definition renderMarkdown (part : string) : string :=
  trim (join (mjoin (map render_block (mdBlocks (replace_all part carriage nl)))) nl) nl.
End Render.

(** ** Splitting *)

Definition fenceOnly (part : string) : bool :=
  let marked := List.filter (λ ln, negb (String.eqb (trim_space ln) "")) (lines_of part) in
  forallb (MatchString mdFence) marked && (Z.of_nat (length marked) <=? 2).

(** The variables of [splitMarkdown]; [info] is [finfo]. *)
Record split := mkSplit {
  parts : list string; cur : list string; size : Z; fence : string; finfo : string; openAt : Z
}.

(** [emit] on the current lines: what it appends to the parts. *)
Definition emit (cur : list string) : list string :=
  let p := join cur nl in
  if negb (String.eqb (trim_space p) "") && negb (fenceOnly p) then [p] else [].

Definition opener_last (st : split) : bool :=
  negb (String.eqb (fence st) "") && (0 <=? openAt st) && (openAt st =? Z.of_nat (length (cur st)) - 1).

Definition flush (reopen : bool) (st : split) : split :=
  let opener := nth (Z.to_nat (openAt st)) (cur st) "" in
  let before := take (Z.to_nat (openAt st)) (cur st) in
  if reopen && opener_last st then
    mkSplit (parts st ++ emit before) [opener] (utf16Len opener) (fence st) (finfo st) 0
  else
    let closed :=
      if opener_last st then before
      else if negb (String.eqb (fence st) "") then cur st ++ [fence st] else cur st in
    let parts' := parts st ++ emit closed in
    if reopen && negb (String.eqb (fence st) "") then
      mkSplit parts' [fence st +:+ finfo st] (utf16Len (fence st +:+ finfo st)) (fence st) (finfo st) (-1)
    else mkSplit parts' [] 0 (fence st) (finfo st) (-1).

Definition fresh (st : split) : bool :=
  match cur st with
  | [] => true
  | [_] => negb (String.eqb (fence st) "") && (openAt st <=? 0)
  | _ => false
  end.

Definition room_of (max : Z) (fence : string) : Z :=
  Z.max 1 (if String.eqb fence "" then max else max - (utf16Len fence + 1)).

(** The newline before a line that is not the first. *)
Definition seam (cur : list string) : Z := match cur with [] => 0 | _ => 1 end.

Definition push (st : split) (line : string) : split :=
  mkSplit (parts st) (cur st ++ [line]) (size st) (fence st) (finfo st) (openAt st).

(** The inner loop: the line, or what is left of it, that goes into [cur]
    and what it adds. Starting a new part is followed by a round that cuts or
    stops, and a cut takes at least one rune. *)
Fixpoint place (fuel : nat) (room : Z) (line : string) (st : split) : string * Z * split :=
  let add := utf16Len line + seam (cur st) in
  match fuel with
  | O => (line, add, st)
  | S fuel =>
    if (size st + add <=? room) || String.eqb line "" then (line, add, st)
    else if negb (fresh st) then place fuel room line (flush true st)
    else
      let avail := room - size st - seam (cur st) in
      if avail <? 1 then (line, add, st)
      else
        let rs := runes line in
        let n := fitUTF16 rs avail in
        place fuel room (string_of_runes (drop n rs)) (flush true (push st (string_of_runes (take n rs))))
  end.

(** The fence after a line, before it is appended. *)
Definition track (line : string) (st : split) : split :=
  match fence_of line with
  | Some (marker, rest) =>
    if negb (String.eqb (fence st) "") && has_prefix (trim_space line) (fence st)
    then mkSplit (parts st) (cur st) (size st) "" "" (-1)
    else if String.eqb (fence st) "" then
      mkSplit (parts st) (cur st) (size st) marker (trim_space rest) (Z.of_nat (length (cur st)))
    else st
  | None => st
  end.

Definition add_line (max : Z) (st : split) (line : string) : split :=
  let '(line, add, st) := place (length (runes line) + 3) (room_of max (fence st)) line st in
  let st := push (track line st) line in
  mkSplit (parts st) (cur st) (size st + add) (fence st) (finfo st) (openAt st).

Definition splitMarkdown (text : string) (max : Z) : list string :=
  let text := replace_all text carriage nl in
  if String.eqb (trim_space text) "" then []
  else if max <=? 0 then [text]
  else parts (flush false (foldl (add_line max) (mkSplit [] [] 0 "" "" (-1)) (lines_of text))).

(** ** How long the parts are *)

Definition blanks (l : list string) : Z := Z.of_nat (length (List.filter (String.eqb "") l)).

(** What a part may exceed the bound by: a blank line is taken without a
    look at the room, so nothing holds its part back, nor the closing marker
    then put behind it. *)
Definition overrun (mark n : Z) : Z := if n =? 0 then 0 else n + mark.

(** The line and what cutting can leave of it. *)
Definition rests (line : string) : list string :=
  line :: map (λ n, string_of_runes (drop n (runes line))) (seq 0 (S (length (runes line)))).

(** Markers are shorter than [mark], and where a line or the rest of one
    opens a fence, the opener leaves room for something. *)
Definition short_opener (max mark : Z) (line : string) : bool :=
  match fence_of line with
  | Some (marker, rest) =>
    (utf16Len marker + 1 <=? mark) && (utf16Len line + mark + 3 <=? max) &&
    (utf16Len (marker +:+ trim_space rest) + mark + 3 <=? max)
  | None => true
  end.
Definition short_openers (max mark : Z) (line : string) : bool := forallb (short_opener max mark) (rests line).

Lemma join_snoc l x sep : join (l ++ [x]) sep = match l with [] => x | _ => join l sep +:+ sep +:+ x end.
Proof.
  induction l as [|y l IH]; [done|]. destruct l as [|z l]; [done|].
  change (join ((y :: z :: l) ++ [x]) sep) with (y +:+ sep +:+ join ((z :: l) ++ [x]) sep).
  rewrite IH. change (join (y :: z :: l) sep) with (y +:+ sep +:+ join (z :: l) sep).
  by rewrite !str_app_assoc.
Qed.

Lemma utf16Len_join l x :
  utf16Len (join (l ++ [x]) nl) = utf16Len (join l nl) + seam l + utf16Len x.
Proof.
  rewrite join_snoc. destruct l as [|y l]; [done|]. unfold utf16Len, nl.
  change (String newline "" +:+ x) with (String newline x).
  rewrite runes_app_ascii, units_app, units_cons by done. unfold seam.
  change (rune_units (byte_of newline)) with 1. lia.
Qed.

Lemma utf16Len_nonneg s : 0 ≤ utf16Len s.
Proof. apply units_nonneg. Qed.

Lemma utf16Len_empty s : utf16Len s = 0 → s = EmptyString.
Proof.
  unfold utf16Len. intros H. destruct (decide (s = EmptyString)) as [|Hs]; [done|].
  apply runes_nonempty in Hs. pose proof (units_length (runes s)). destruct (runes s); [done|]. simpl in *. lia.
Qed.

Lemma lines_of_app a b : lines_of (a +:+ nl +:+ b) = lines_of a ++ lines_of b.
Proof.
  unfold lines_of. induction a as [|c a IH]; [done|]. simpl. change (String.app a) with (String.append a).
  destruct (Ascii.eqb c newline); [by rewrite IH|].
  rewrite IH. by destruct (split_char newline a) eqn:E; [destruct a; simpl in E; repeat case_match|].
Qed.

Lemma blanks_app a b : blanks (a ++ b) = blanks a + blanks b.
Proof. unfold blanks. rewrite List.filter_app, length_app. lia. Qed.

Lemma blanks_nonneg l : 0 ≤ blanks l.
Proof. unfold blanks. lia. Qed.

Lemma blanks_one x : x ≠ EmptyString → blanks [x] = 0.
Proof. unfold blanks. simpl. by destruct x. Qed.

Lemma blanks_lines l : l ≠ [] → blanks l ≤ blanks (lines_of (join l nl)).
Proof.
  induction l as [|x l IH] using rev_ind; [done|]. intros _. rewrite blanks_app, join_snoc.
  assert (Hx : blanks [x] ≤ blanks (lines_of x)).
  { destruct x; [done|]. unfold blanks at 1. simpl. apply blanks_nonneg. }
  destruct l as [|y l]; [done|]. rewrite lines_of_app, blanks_app.
  specialize (IH ltac:(done)). lia.
Qed.

Lemma overrun_mono mark a b : 0 ≤ mark → 0 ≤ a ≤ b → overrun mark a ≤ overrun mark b.
Proof. unfold overrun. intros. destruct (Z.eqb_spec a 0), (Z.eqb_spec b 0); lia. Qed.

Section Bound.
Context (max mark : Z) (Hmax : 2 ≤ max) (Hmark : 0 ≤ mark).

Definition within (p : string) : Prop := utf16Len p ≤ max + overrun mark (blanks (lines_of p)).
Definition short (s : string) : Prop := utf16Len s + mark + 3 ≤ max.

(** The opener and the lines before it. *)
Definition opened (cur : list string) : Prop :=
  ∃ before o, cur = before ++ [o] ∧ short o ∧ utf16Len (join before nl) ≤ max + blanks before.

Definition open_ok (st : split) : Prop :=
  utf16Len (fence st) + 1 ≤ mark ∧ short (fence st +:+ finfo st) ∧ cur st ≠ [].

(** The state when a part is about to be written. *)
Definition ready (st : split) : Prop :=
  Forall within (parts st) ∧
  (fence st = EmptyString → utf16Len (join (cur st) nl) ≤ max + overrun mark (blanks (cur st))) ∧
  (fence st ≠ EmptyString → open_ok st ∧
    if opener_last st then opened (cur st)
    else utf16Len (join (cur st) nl) + utf16Len (fence st) + 1 ≤ max + overrun mark (blanks (cur st))).

(** The state between two lines. *)
Definition inv (st : split) : Prop :=
  Forall within (parts st) ∧
  size st = utf16Len (join (cur st) nl) ∧ size st ≤ max + blanks (cur st) ∧
  (fence st ≠ EmptyString → open_ok st ∧ -1 ≤ openAt st < Z.of_nat (length (cur st)) ∧
    (∀ l, cur st = [l] → short l) ∧
    if opener_last st then opened (cur st)
    else blanks (cur st) = 0 → size st + utf16Len (fence st) + 1 ≤ max).

Lemma overrun_ge n : 0 ≤ n → n ≤ overrun mark n.
Proof. unfold overrun. destruct (Z.eqb_spec n 0); lia. Qed.

Lemma emit_within l :
  utf16Len (join l nl) ≤ max + overrun mark (blanks l) → Forall within (emit l).
Proof.
  intros H. unfold emit. case_match; [|constructor]. constructor; [|constructor].
  unfold within. destruct l as [|x l].
  { change (utf16Len _) with 0. change (blanks _) with 1. unfold overrun. simpl. lia. }
  pose proof (blanks_lines (x :: l) ltac:(done)) as Hb.
  pose proof (overrun_mono mark _ _ Hmark (conj (blanks_nonneg (x :: l)) Hb)). lia.
Qed.

Lemma inv_ready st : inv st → ready st.
Proof.
  intros (Hp & Hs & Hb & Hf). pose proof (blanks_nonneg (cur st)) as Hn. pose proof (overrun_ge _ Hn).
  split_and!; [done|intros _; lia|]. intros Hne. destruct (Hf Hne) as (Ho & _ & _ & Hl). split; [done|].
  destruct (opener_last st); [done|]. destruct Ho as [Ho _]. unfold overrun in *.
  destruct (Z.eqb_spec (blanks (cur st)) 0) as [E|]; [specialize (Hl E)|]; lia.
Qed.

Lemma opened_take st :
  opener_last st = true → opened (cur st) →
  ∃ o, nth (Z.to_nat (openAt st)) (cur st) "" = o ∧ short o ∧
    Forall within (emit (take (Z.to_nat (openAt st)) (cur st))).
Proof.
  unfold opener_last. rewrite !andb_true_iff, Z.leb_le, Z.eqb_eq. intros [[_ H0] Hat] (before & o & E & Ho & Hb).
  rewrite E in *. rewrite length_app in Hat. simpl in Hat.
  assert (Z.to_nat (openAt st) = length before) as -> by lia.
  exists o. rewrite nth_middle, take_app_length. split_and!; [done..|]. apply emit_within.
  pose proof (overrun_ge _ (blanks_nonneg before)). lia.
Qed.

Lemma utf16Len_single x : utf16Len (join [x] nl) = utf16Len x.
Proof. done. Qed.

Lemma short_size x : short x → utf16Len x ≤ max + blanks [x].
Proof. unfold short. pose proof (blanks_nonneg [x]). lia. Qed.

Lemma emit_closed st : ready st → opener_last st = false →
  Forall within (emit (if negb (String.eqb (fence st) "") then cur st ++ [fence st] else cur st)).
Proof.
  intros (_ & He & Hf) Hl. destruct (String.eqb_spec (fence st) "") as [E|E]; simpl.
  - apply emit_within. by apply He.
  - destruct (Hf E) as [(_ & _ & Hc) H]. rewrite Hl in H. apply emit_within.
    rewrite utf16Len_join, blanks_app, blanks_one, Z.add_0_r by done. destruct (cur st); [done|]. unfold seam. lia.
Qed.

Lemma flush_within b st : ready st → Forall within (parts (flush b st)).
Proof.
  intros H. pose proof H as (Hp & _ & Hf). pose proof (emit_closed st H) as Hc. unfold flush.
  destruct (opener_last st) eqn:Hl.
  - assert (fence st ≠ EmptyString) as Hne.
    { unfold opener_last in Hl. intros E. by rewrite E in Hl. }
    destruct (Hf Hne) as [_ Ho]. destruct (opened_take st Hl Ho) as (o & _ & _ & Hw).
    destruct b; simpl; [by apply Forall_app|]. by apply Forall_app.
  - rewrite andb_false_r. specialize (Hc eq_refl).
    destruct (b && negb (String.eqb (fence st) "")); simpl; by apply Forall_app.
Qed.

Lemma flush_inv st : ready st → inv (flush true st) ∧ fresh (flush true st) = true ∧ fence (flush true st) = fence st.
Proof.
  intros H. pose proof (flush_within true st H) as Hw. destruct H as (_ & _ & Hf). unfold flush in *. simpl in *.
  destruct (opener_last st) eqn:Hl.
  - assert (fence st ≠ EmptyString) as Hne.
    { unfold opener_last in Hl. intros E. by rewrite E in Hl. }
    destruct (Hf Hne) as [(H1 & H2 & _) Ho]. destruct (opened_take st Hl Ho) as (o & -> & Hs & _).
    pose proof (short_size o Hs). split_and!; [|unfold fresh; simpl; by rewrite (proj2 (String.eqb_neq _ _))|done].
    split_and!; simpl; [done..|]. intros _. split_and!; [done..|lia|lia|by intros l [= <-]|].
    unfold opener_last. simpl. rewrite (proj2 (String.eqb_neq _ _)) by done. simpl.
    exists [], o. split_and!; [done..|]. change (0 ≤ max + 0). lia.
  - destruct (String.eqb_spec (fence st) "") as [E|E]; simpl in *.
    + split_and!; [|done..]. split_and!; simpl; [done..| |done]. unfold blanks. simpl. lia.
    + destruct (Hf E) as [(H1 & H2 & _) _]. pose proof (short_size _ H2).
      split_and!; [|unfold fresh; simpl; by rewrite (proj2 (String.eqb_neq _ _))|done].
      split_and!; simpl; [done..|]. intros _. split_and!; [done..|by intros l [= <-]|].
      unfold opener_last. simpl. rewrite andb_false_r. simpl. intros _. unfold short in H2. lia.
Qed.

Lemma room_fence st : fence st ≠ EmptyString → open_ok st → room_of max (fence st) = max - (utf16Len (fence st) + 1).
Proof.
  intros Hne (H1 & H2 & _). unfold room_of. rewrite (proj2 (String.eqb_neq _ _)) by done.
  unfold short in H2. pose proof (utf16Len_nonneg (fence st +:+ finfo st)). lia.
Qed.

Lemma room_none : room_of max EmptyString = max.
Proof. unfold room_of. simpl. lia. Qed.

(** In a fresh part there is room for a rune. *)
Lemma fresh_room st :
  inv st → fresh st = true → 2 ≤ room_of max (fence st) - size st - seam (cur st).
Proof.
  intros (_ & Hs & _ & Hf). unfold fresh. destruct (cur st) as [|l [|]] eqn:Hc; [|..|done].
  - intros _. destruct (String.eqb_spec (fence st) "") as [->|E].
    + rewrite room_none, Hs. change (2 ≤ max - 0 - 0). lia.
    + destruct (Hf E) as ((_ & _ & H) & _). by rewrite Hc in H.
  - rewrite andb_true_iff, negb_true_iff. intros [E%String.eqb_neq _].
    destruct (Hf E) as (Ho & _ & H & _). specialize (H l eq_refl). rewrite room_fence by done.
    destruct Ho as (H1 & _). unfold short in H. rewrite Hs, utf16Len_single. unfold seam. lia.
Qed.

Lemma push_ready st rs :
  inv st → fresh st = true → Forall (λ r, valid_rune r = true) rs →
  units rs ≤ room_of max (fence st) - size st - seam (cur st) →
  ready (push st (string_of_runes rs)).
Proof.
  intros (Hp & Hs & Hb & Hf) Hfr Hv Hu. set (x := string_of_runes rs).
  assert (Hx : utf16Len x = units rs) by (unfold utf16Len, x; by rewrite runes_string_of_runes).
  pose proof (blanks_nonneg (cur st ++ [x])) as Hn. pose proof (overrun_ge _ Hn).
  split_and!; simpl; [done|..].
  - intros E. rewrite E, room_none in Hu. rewrite utf16Len_join, Hx. lia.
  - intros E. destruct (Hf E) as (Ho & Hat & _ & _). rewrite (room_fence st E Ho) in Hu.
    destruct Ho as (H1 & H2 & H3). split; [split_and!; [done..|]; simpl; by destruct (cur st)|].
    assert (opener_last (push st x) = false) as ->.
    { unfold opener_last. simpl. rewrite length_app. simpl. apply andb_false_intro2, Z.eqb_neq. lia. }
    rewrite utf16Len_join, Hx. lia.
Qed.
Lemma rests_self line : line ∈ rests line.
Proof. by left. Qed.

Lemma rests_drop line n : string_of_runes (drop n (runes line)) ∈ rests line.
Proof.
  right. rewrite list_elem_of_fmap.
  exists (Nat.min n (length (runes line))). split.
  - destruct (Nat.min_spec n (length (runes line))) as [[_ ->]|[H ->]]; [done|]. by rewrite !drop_ge.
  - rewrite elem_of_seq. lia.
Qed.

Lemma rests_trans line x y : x ∈ rests line → y ∈ rests x → y ∈ rests line.
Proof.
  intros Hx Hy. apply elem_of_cons in Hy as [->|Hy]; [done|].
  apply elem_of_cons in Hx as [->|Hx]; [by right|].
  apply list_elem_of_fmap in Hx as (n & -> & _). apply list_elem_of_fmap in Hy as (m & -> & _).
  rewrite runes_string_of_runes by (apply Forall_drop, runes_valid).
  rewrite drop_drop. apply rests_drop.
Qed.

(** The inner loop ends with a line that fits or is blank. *)
Definition placed (line : string) (fenced : string) (o : string * Z * split) : Prop :=
  let '(line', add, st) := o in
  inv st ∧ fence st = fenced ∧ line' ∈ rests line ∧ add = utf16Len line' + seam (cur st) ∧
  (size st + add ≤ room_of max fenced ∨ line' = EmptyString).

Lemma place_ok fuel line st :
  inv st → (length (runes line) + (if fresh st then 1 else 2) ≤ fuel)%nat →
  placed line (fence st) (place fuel (room_of max (fence st)) line st).
Proof.
  revert line st. induction fuel as [|fuel IH]; intros line st Hi Hf; [destruct (fresh st); lia|].
  cbn [place]. destruct (Z.leb_spec (size st + (utf16Len line + seam (cur st))) (room_of max (fence st))) as [H1|H1].
  { split_and!; [done..|apply rests_self|done|by left]. }
  destruct (String.eqb_spec line "") as [->|Hne].
  { split_and!; [done..|apply rests_self|done|by right]. }
  simpl. destruct (fresh st) eqn:Hfr; simpl.
  - pose proof (fresh_room st Hi Hfr) as Hr. rewrite (proj2 (Z.ltb_ge _ _)) by lia.
    set (avail := room_of max (fence st) - size st - seam (cur st)) in *.
    destruct (fitUTF16_spec (runes line) avail Hr (runes_nonempty line Hne)) as (Hk & Hu & _).
    set (n := fitUTF16 (runes line) avail) in *.
    pose proof (push_ready st (take n (runes line)) Hi Hfr
      (Forall_take _ _ _ (runes_valid line)) Hu) as Hp.
    destruct (flush_inv _ Hp) as (Hi' & Hf' & E). simpl in E. rewrite <-E.
    assert (length (runes (string_of_runes (drop n (runes line)))) = length (runes line) - n)%nat as Hlen.
    { rewrite runes_string_of_runes, length_drop; [done|apply Forall_drop, runes_valid]. }
    specialize (IH (string_of_runes (drop n (runes line))) _ Hi').
    rewrite Hf', Hlen in IH. specialize (IH ltac:(lia)). unfold placed in *.
    destruct (place _ _ _ _) as [[line' add] st']. destruct IH as (? & ? & ? & ? & ?).
    split_and!; try done. by eapply rests_trans; [apply rests_drop|].
  - destruct (flush_inv _ (inv_ready _ Hi)) as (Hi' & Hf' & E). rewrite <-E.
    apply IH; [done|]. rewrite Hf'. lia.
Qed.

(** A line that neither opens nor closes a fence. *)
Lemma keep_fence st x :
  inv st → utf16Len x + seam (cur st) + size st ≤ room_of max (fence st) ∨ x = EmptyString →
  size st + (utf16Len x + seam (cur st)) ≤ max + blanks (cur st ++ [x]) →
  inv (mkSplit (parts st) (cur st ++ [x]) (size st + (utf16Len x + seam (cur st))) (fence st) (finfo st) (openAt st)).
Proof.
  intros (Hp & Hs & Hb & Hf) Hroom Hle.
  assert (Hlen : Z.of_nat (length (cur st ++ [x])) = Z.of_nat (length (cur st)) + 1)
    by (rewrite length_app; simpl; lia).
  split_and!; simpl; [done|rewrite utf16Len_join; lia|done|].
  intros Hne. destruct (Hf Hne) as (Ho & Hat & _ & _). pose proof Ho as (H1 & H2 & H3).
  split_and!; simpl; [split_and!; simpl; [done|done|by destruct (cur st)]|lia|lia| |].
  - intros l E. by destruct (cur st) as [|? []]; simplify_eq/=.
  - unfold opener_last. simpl. rewrite (proj2 (Z.eqb_neq _ _)) by lia. rewrite andb_false_r.
    rewrite blanks_app. pose proof (blanks_nonneg (cur st)). intros Hz. destruct Hroom as [Hr| ->].
    + rewrite room_fence in Hr by done. lia.
    + change (blanks [""]) with 1 in Hz. lia.
Qed.

Lemma add_line_inv st line :
  inv st → short_openers max mark line = true → inv (add_line max st line).
Proof.
  intros Hi Ho. unfold add_line.
  pose proof (place_ok (length (runes line) + 3) line st Hi ltac:(destruct (fresh st); lia)) as H.
  destruct (place _ _ _ _) as [[x add] st']. destruct H as ((Hp & Hs & Hb & Hf) & E & Hx & -> & Hroom).
  assert (Hox : short_opener max mark x = true).
  { unfold short_openers in Ho. rewrite forallb_forall in Ho. apply Ho. by apply list_elem_of_In. }
  clear Ho. rewrite <-E in Hroom. clear E Hi.
  assert (Hnew : size st' + (utf16Len x + seam (cur st')) = utf16Len (join (cur st' ++ [x]) nl))
    by (rewrite utf16Len_join; lia).
  assert (Hle : size st' + (utf16Len x + seam (cur st')) ≤ max + blanks (cur st' ++ [x])).
  { rewrite blanks_app. pose proof (blanks_nonneg [x]). pose proof (blanks_nonneg (cur st')).
    destruct Hroom as [Hr| ->].
    - assert (room_of max (fence st') ≤ max); [|lia]. unfold room_of.
      pose proof (utf16Len_nonneg (fence st')). destruct (String.eqb _ _); lia.
    - change (utf16Len "") with 0. change (blanks [""]) with 1. assert (seam (cur st') ≤ 1) by (destruct (cur st'); done). lia. }
  assert (Hlen : Z.of_nat (length (cur st' ++ [x])) = Z.of_nat (length (cur st')) + 1)
    by (rewrite length_app; simpl; lia).
  assert (Happ : cur st' ++ [x] ≠ []) by (by destruct (cur st')).
  unfold track, short_opener in *. destruct (fence_of x) as [[m r]|] eqn:Hfe.
  - destruct (String.eqb_spec (fence st') "") as [Ef|Ef]; simpl.
    + rewrite !andb_true_iff, !Z.leb_le in Hox. destruct Hox as [[Hm Hsx] Hsi].
      split_and!; simpl; [done..|]. intros Hne.
      split_and!; simpl; [by split_and!|lia|lia| |].
      * intros l El. destruct (cur st') as [|? []]; by simplify_eq/=.
      * unfold opener_last. simpl. rewrite (proj2 (String.eqb_neq _ _)) by done. simpl.
        rewrite (proj2 (Z.leb_le _ _)) by lia. simpl. rewrite (proj2 (Z.eqb_eq _ _)) by lia.
        exists (cur st'), x. split_and!; [done..|lia].
    + destruct (has_prefix (trim_space x) (fence st')); simpl; [by split_and!|].
      apply (keep_fence st' x); [by split_and!| |done]; destruct Hroom; [left; lia|by right].
  - apply (keep_fence st' x); [by split_and!| |done]; destruct Hroom; [left; lia|by right].
Qed.

(** C36: for a text whose fence openers leave room in a part
    ([short_openers]: the markers are shorter than [mark], and a line or a cut
    rest of one that opens a fence has at least [mark + 3] code units left), a
    part without blank lines is at most [max] UTF-16 code units long, the
    markers that close and reopen its fences included. A part with blank lines
    can be longer than [max], by at most the number of its blank lines and one
    closing marker: blank lines are appended without a look at the room, so
    the bound the code's comment promises does not hold of such a part
    ([blank_lines_overrun]). *)
Theorem splitMarkdown_bounded text :
  forallb (short_openers max mark) (lines_of (replace_all text carriage nl)) = true →
  Forall within (splitMarkdown text max).
Proof.
  intros H. unfold splitMarkdown. case_match; [constructor|]. rewrite (proj2 (Z.leb_gt _ _)) by lia.
  apply flush_within, inv_ready.
  assert (Hi : inv (mkSplit [] [] 0 "" "" (-1))).
  { split_and!; simpl; [constructor|done| |done]. change (blanks []) with 0. lia. }
  rewrite forallb_forall in H. revert Hi H. generalize (mkSplit [] [] 0 "" "" (-1)).
  induction (lines_of _) as [|l ls IH]; intros st Hi Hl; [done|].
  simpl. apply IH; [|by intros; apply Hl; right]. apply add_line_inv; [done|]. apply Hl. by left.
Qed.
End Bound.

Definition sample_reply : string :=
  join ["intro text"; "```go"; "line one"; "line two"; ""; "line three is long"; "```"; "end"] nl.
Definition sample_parts : list string :=
  [join ["intro text"] nl; join ["```go"; "line one"; "```"] nl; join ["```go"; "line two"; ""; "```"] nl;
   join ["```go"; "line three is "; "```"] nl; join ["```go"; "long"; "```"; "end"] nl].

Lemma splitMarkdown_bounded_witness :
  splitMarkdown sample_reply 24 = sample_parts ∧ Forall (within 24 4) (splitMarkdown sample_reply 24).
Proof.
  split; [vm_compute; reflexivity|].
  refine (splitMarkdown_bounded 24 4 _ _ sample_reply _); [lia|lia|vm_compute; reflexivity].
Defined.

(** Blank lines are taken into a full part: this one has seven code units. *)
Lemma blank_lines_overrun :
  splitMarkdown (join ["ab"; ""; ""; ""; ""; ""; "cd"] nl) 4 = [join ["ab"; ""; ""; ""; ""; ""] nl; "cd"] ∧
  utf16Len (join ["ab"; ""; ""; ""; ""; ""] nl) = 7.
Proof. vm_compute. done. Qed.

(** A closing marker indented by four columns ends the block for [mdBlocks]
    and not for [splitMarkdown], which then reopens the fence around prose. *)
Lemma indented_close :
  map kind (mdBlocks (join ["```"; "a"; "    ```"; "prose one"; "prose two"] nl)) = [code; text] ∧
  splitMarkdown (join ["```"; "a"; "    ```"; "prose one"; "prose two"] nl) 27 =
    [join ["```"; "a"; "    ```"; "prose one"; "```"] nl; join ["```"; "prose two"; "```"] nl].
Proof. vm_compute. done. Qed.

(** Emphasis that overlaps comes out as tags that overlap. *)
Lemma overlapping_emphasis :
  renderMarkdown (U:=latin1_tables) "~~a **b~~ c**" = "<s>a <b>b</s> c</b>".
Proof. vm_compute. reflexivity. Qed.

(** A quote mark takes one code unit, what it is rendered as takes two. *)
Lemma quote_grows : renderMarkdown (U:=latin1_tables) ">a" = "│ a" ∧ utf16Len ">a" = 2 ∧ utf16Len "│ a" = 3.
Proof. vm_compute. done. Qed.
