(* ===== verification/Eff.v ===== *)
(** Sequential programs over ports.

    A handler that one goroutine runs to its end is a tree: it asks an
    operation of a port and goes on with the answer, or reads and changes the
    state the goroutine owns. What other goroutines change (options, mappings,
    clocks, flags) is asked through an operation, so every read may see a new
    value. The trees are finite: a handler ends for every sequence of answers. *)
From S2P Require Import Prelude Errors.

Section Eff.
Context {E : Type → Type} {S : Type}.

Inductive prog (A : Type) : Type :=
  | Ret (a : A)
  | Vis {B : Type} (o : E B) (k : B → prog A)
  | Upd {B : Type} (f : S → S * B) (k : B → prog A).

Inductive event : Type :=
  | Ev {B : Type} (o : E B) (b : B).

(** The state and what has been asked and answered, the newest first. *)
Record world := mkWorld { st : S; trace : list event }.
End Eff.
Arguments prog : clear implicits.
Arguments event : clear implicits.
Arguments world : clear implicits.
Arguments Ret {E S A} a.
Arguments Vis {E S A B} o k.
Arguments Upd {E S A B} f k.
Arguments mkWorld {E S} _ _.

Declare Scope eff_scope.
Delimit Scope eff_scope with eff.

Section Ops.
Context {E : Type → Type} {S : Type}.
Local Notation prog := (prog E S).

Fixpoint bind {A B} (p : prog A) (f : A → prog B) : prog B :=
  match p with
  | Ret a => f a
  | Vis o k => Vis o (λ b, bind (k b) f)
  | Upd g k => Upd g (λ b, bind (k b) f)
  end.

Definition call {B} (o : E B) : prog B := Vis o Ret.
Definition gets {B} (f : S → B) : prog B := Upd (λ s, (s, f s)) Ret.
Definition modify (f : S → S) : prog unit := Upd (λ s, (f s, tt)) Ret.

(** A Go [error] result: [None] is nil. *)
Definition nil_ : prog (option error) := Ret None.
Definition fail (e : error) : prog (option error) := Ret (Some e).
End Ops.

Notation "'do' x ← m ; k" := (bind m (λ x, k))
  (at level 100, x name, m at level 99, k at level 200, right associativity) : eff_scope.
(** [if err := m; err != nil { return err }]. *)
Notation "'must' m ; k" := (bind m (λ e, match e with Some e => Ret (Some e) | None => k end))
  (at level 100, m at level 99, k at level 200, right associativity) : eff_scope.

Section World.
Context {E : Type → Type} {S : Type}.
Local Notation prog := (prog E S).
Local Notation world := (world E S).

Definition put (s : S) (w : world) : world := mkWorld s (trace w).
Definition told {B} (o : E B) (b : B) (w : world) : world := mkWorld (st w) (Ev o b :: trace w).

(** The answers the ports may give after a history. *)
Context (legal : list (event E) → ∀ B, E B → B → Prop).

Inductive exec : ∀ {A}, prog A → world → A → world → Prop :=
  | exec_ret {A} (a : A) w : exec (Ret a) w a w
  | exec_vis {A B} (o : E B) (k : B → prog A) w b r w' :
      legal (trace w) _ o b → exec (k b) (told o b w) r w' → exec (Vis o k) w r w'
  | exec_upd {A B} (f : S → S * B) (k : B → prog A) w r w' :
      exec (k (f (st w)).2) (put (f (st w)).1 w) r w' → exec (Upd f k) w r w'.

(** Whatever the ports answer, the program ends in [Q]. *)
Fixpoint wp {A} (p : prog A) (w : world) (Q : A → world → Prop) : Prop :=
  match p with
  | Ret a => Q a w
  | Vis o k => ∀ b, legal (trace w) _ o b → wp (k b) (told o b w) Q
  | Upd f k => wp (k (f (st w)).2) (put (f (st w)).1 w) Q
  end.

Lemma wp_exec {A} (p : prog A) w a w' Q : exec p w a w' → wp p w Q → Q a w'.
Proof.
  intros He. revert Q. induction He as [A a w|A B o k w b r w2 Hb _ IH|A B f k w r w2 _ IH]; intros Q HQ; cbn in HQ.
  - exact HQ.
  - exact (IH Q (HQ b Hb)).
  - exact (IH Q HQ).
Qed.

Lemma wp_mono {A} (p : prog A) w (Q Q' : A → world → Prop) :
  (∀ a w, Q a w → Q' a w) → wp p w Q → wp p w Q'.
Proof. intros HQ. revert w. induction p as [a|B o k IH|B f k IH]; intros w; cbn; eauto. Qed.

Lemma wp_bind {A B} (p : prog A) (f : A → prog B) w Q :
  wp p w (λ a w, wp (f a) w Q) → wp (bind p f) w Q.
Proof. revert w. induction p as [a|C o k IH|C g k IH]; intros w; cbn; eauto. Qed.

Lemma wp_must (p : prog (option error)) (q : prog (option error)) w Q :
  wp p w (λ e w, match e with Some e => Q (Some e) w | None => wp q w Q end) →
  wp (bind p (λ e, match e with Some e => Ret (Some e) | None => q end)) w Q.
Proof. intros H. apply wp_bind. eapply wp_mono; [|exact H]. by intros [e|] w'. Qed.

Lemma wp_and {A} (p : prog A) w Q Q' : wp p w Q → wp p w Q' → wp p w (λ a w, Q a w ∧ Q' a w).
Proof. revert w. induction p as [a|B o k IH|B f k IH]; intros w; cbn; eauto. Qed.

(** One question and what is done with its answer; a look at the state. *)
Lemma wp_ask {A B} (o : E B) (k : B → prog A) w Q :
  (∀ b, legal (trace w) _ o b → wp (k b) (told o b w) Q) → wp (bind (call o) k) w Q.
Proof. done. Qed.

Lemma wp_look {A B} (f : S → B) (k : B → prog A) w Q : wp (k (f (st w))) w Q → wp (bind (gets f) k) w Q.
Proof. by destruct w. Qed.

Lemma wp_update {A} (f : S → S) (k : unit → prog A) w Q : wp (k tt) (put (f (st w)) w) Q → wp (bind (modify f) k) w Q.
Proof. done. Qed.

(** A run with answers computed from the trace. *)
Definition oracle := ∀ B, E B → list (event E) → B.
Fixpoint interp {A} (orc : oracle) (p : prog A) (w : world) : A * world :=
  match p with
  | Ret a => (a, w)
  | Vis o k => let b := orc _ o (trace w) in interp orc (k b) (told o b w)
  | Upd f k => interp orc (k (f (st w)).2) (put (f (st w)).1 w)
  end.

Lemma interp_exec {A} orc (p : prog A) w :
  (∀ h B (o : E B), legal h B o (orc B o h)) → exec p w (interp orc p w).1 (interp orc p w).2.
Proof.
  intros Ho. revert w. induction p as [a|B o k IH|B f k IH]; intros w; cbn; econstructor; [by apply Ho|apply IH..].
Qed.

(** ** Sessions: handlers run one after the other *)

Context {C R : Type} (run : C → prog R).

Inductive session : world → list (C * R) → world → Prop :=
  | session_nil w : session w [] w
  | session_cons w c r w1 l w2 : exec (run c) w r w1 → session w1 l w2 → session w ((c, r) :: l) w2.

Fixpoint interp_all (orc : oracle) (cs : list C) (w : world) : list (C * R) * world :=
  match cs with
  | [] => ([], w)
  | c :: cs => let '(r, w1) := interp orc (run c) w in let '(l, w2) := interp_all orc cs w1 in ((c, r) :: l, w2)
  end.

Lemma interp_all_session orc cs w :
  (∀ h B (o : E B), legal h B o (orc B o h)) → session w (interp_all orc cs w).1 (interp_all orc cs w).2.
Proof.
  intros Ho. revert w. induction cs as [|c cs IH]; intros w; cbn; [constructor|].
  pose proof (interp_exec orc (run c) w Ho) as He. destruct (interp orc (run c) w) as [r w1]. specialize (IH w1).
  destruct (interp_all orc cs w1) as [l w2]. by econstructor.
Qed.

Lemma session_inv (I : world → Prop) (ok : C → Prop) w l w' :
  (∀ c w, ok c → I w → wp (run c) w (λ _, I)) → Forall (λ x, ok x.1) l → I w → session w l w' → I w'.
Proof.
  intros Hstep Hok Hw Hs. revert Hok Hw. induction Hs as [w|w c r w1 l w2 He _ IH]; [done|].
  intros [Hc Hl]%Forall_cons Hw. apply IH; [done|]. exact (wp_exec _ _ _ _ _ He (Hstep c w Hc Hw)).
Qed.
End World.
Arguments wp_exec {E S legal A p w a w' Q} _ _.
Arguments session_inv {E S legal C R run} I ok {w l w'} _ _ _ _.

(** Any answer. *)
Definition anything {E : Type → Type} (h : list (event E)) (B : Type) (o : E B) (b : B) : Prop := True.

(** A loop over [l] that ends at the first error. *)
Fixpoint each {E S A} (f : A → prog E S (option error)) (l : list A) : prog E S (option error) :=
  match l with
  | [] => Ret None
  | x :: l' => bind (f x) (λ e, match e with Some e => Ret (Some e) | None => each f l' end)
  end.

Lemma wp_each {E S A} legal (I : world E S → Prop) (Q : error → world E S → Prop)
    (f : A → prog E S (option error)) l w :
  (∀ x w, x ∈ l → I w → wp legal (f x) w (λ e w, match e with Some e => Q e w | None => I w end)) →
  I w → wp legal (each f l) w (λ e w, match e with Some e => Q e w | None => I w end).
Proof.
  revert w. induction l as [|x l IH]; intros w H Hw; cbn; [done|].
  apply wp_must. eapply wp_mono; [|apply H; [by left|done]]. intros [e|] w' H'; [done|].
  apply IH; [|done]. intros y w'' ?. apply H. by right.
Qed.

(** A handler of a part of the state. *)
Fixpoint zoom {E S T A} (get : T → S) (set : T → S → T) (p : prog E S A) : prog E T A :=
  match p with
  | Ret a => Ret a
  | Vis o k => Vis o (λ b, zoom get set (k b))
  | Upd f k => Upd (λ t, (set t (f (get t)).1, (f (get t)).2)) (λ b, zoom get set (k b))
  end.

Lemma wp_zoom {E S T A} legal (get : T → S) (set : T → S → T) (p : prog E S A) (w : world E T)
    (Q : A → world E S → Prop) :
  (∀ t s, get (set t s) = s) → (∀ t s s', set (set t s) s' = set t s') → (∀ t, set t (get t) = t) →
  wp legal p (mkWorld (get (st w)) (trace w)) Q →
  wp legal (zoom get set p) w (λ a w', Q a (mkWorld (get (st w')) (trace w')) ∧ st w' = set (st w) (get (st w'))).
Proof.
  intros Hgs Hss Hsg. revert w. induction p as [a|B o k IH|B f k IH]; intros w; cbn; [by rewrite Hsg|..].
  - intros H b Hb. by apply (IH b (told o b w)), H.
  - intros H. eapply wp_mono; [|apply (IH _ (put (set (st w) (f (get (st w))).1) w))].
    + cbn. intros a w' [HQ E']. split; [done|]. rewrite E' at 1. apply Hss.
    + cbn. by rewrite Hgs.
Qed.

(** What happened stays in the trace. *)
Lemma wp_grows {E S A} legal (p : prog E S A) w : wp legal p w (λ _ w', ∃ l, trace w' = l ++ trace w).
Proof.
  revert w. induction p as [a|B o k IH|B f k IH]; intros w; cbn.
  - by exists [].
  - intros b _. eapply wp_mono; [|apply IH]. intros a w' [l ->]. cbn. exists (l ++ [Ev o b]). by rewrite <-app_assoc.
  - exact (IH _ (put (f (st w)).1 w)).
Qed.

(** ** What a program leaves alone *)

(** [p] changes nothing [f] sees, whatever the ports answer. *)
Definition frames {E S A T} (f : world E S → T) (p : prog E S A) : Prop :=
  ∀ w, wp anything p w (λ _ w', f w' = f w).

Section frames.
Context {E : Type → Type} {S T : Type} (f : world E S → T).

Lemma frames_ret {A} (a : A) : frames f (Ret a).
Proof. by intros w. Qed.

Lemma frames_bind {A B} (p : prog E S A) (k : A → prog E S B) :
  frames f p → (∀ a, frames f (k a)) → frames f (bind p k).
Proof.
  intros Hp Hk w. apply wp_bind. eapply wp_mono; [|apply Hp]. intros a w' <-. apply Hk.
Qed.

Lemma frames_call {B} (o : E B) : (∀ w b, f (told o b w) = f w) → frames f (call o).
Proof. intros H w b _. apply H. Qed.

Lemma frames_gets {B} (g : S → B) : frames f (gets g).
Proof. by intros [s h]. Qed.

Lemma frames_modify (g : S → S) : (∀ s h, f (mkWorld (g s) h) = f (mkWorld s h)) → frames f (modify g).
Proof. intros H [s h]. apply H. Qed.

Lemma frames_each {A} (q : A → prog E S (option error)) l : (∀ x, frames f (q x)) → frames f (each q l).
Proof.
  intros H. induction l as [|x l IH]; [apply frames_ret|].
  apply frames_bind; [done|]. intros [e|]; [apply frames_ret|exact IH].
Qed.

(** What holds of the rest of a program holds after a part [f] does not see. *)
Lemma wp_frames {A B} (p : prog E S A) (k : A → prog E S B) w Q :
  frames f p → (∀ a w', f w' = f w → wp anything (k a) w' Q) → wp anything (bind p k) w Q.
Proof. intros Hp Hk. apply wp_bind. eapply wp_mono; [|apply Hp]. apply Hk. Qed.
End frames.

(** With what happened before still in the trace. *)
Lemma wp_framed {E S T A} (f : world E S → T) (p : prog E S A) w (Q : A → world E S → Prop) :
  frames f p → (∀ a w', f w' = f w → trace w ⊆ trace w' → Q a w') → wp anything p w Q.
Proof.
  intros Hp HQ. eapply wp_mono; [|apply wp_and; [apply Hp|apply wp_grows]].
  intros a w' [H [l Hl]]. apply HQ; [done|]. rewrite Hl. set_solver.
Qed.

(** What the results of a program are, whatever the ports answer. *)
Definition returns {E S A} (Q : A → Prop) (p : prog E S A) : Prop :=
  ∀ w, wp anything p w (λ a _, Q a).

(** The errors it may end with. *)
Definition errs {E S} (ok : error → Prop) : prog E S (option error) → Prop := returns (from_option ok True).

(** The same for a program that ends in a value and an error. *)
Definition errs_with {E S A} (ok : error → Prop) : prog E S (A * option error) → Prop :=
  returns (λ r, from_option ok True r.2).

Section returns.
Context {E : Type → Type} {S : Type}.

Lemma returns_any {A} (p : prog E S A) : returns (λ _, True) p.
Proof. intros w. revert w. induction p as [a|B o k IH|B g k IH]; intros w; cbn; auto. Qed.

Lemma returns_ret {A} (Q : A → Prop) a : Q a → returns Q (Ret a : prog E S A).
Proof. by intros H w. Qed.

Lemma returns_bind {A B} (P : A → Prop) (Q : B → Prop) (p : prog E S A) k :
  returns P p → (∀ a, P a → returns Q (k a)) → returns Q (bind p k).
Proof. intros Hp Hk w. apply wp_bind. eapply wp_mono; [|apply Hp]. intros a w' Ha. by apply Hk. Qed.

Lemma returns_then {A B} (Q : B → Prop) (p : prog E S A) k : (∀ a, returns Q (k a)) → returns Q (bind p k).
Proof. intros Hk. eapply returns_bind; [apply returns_any|]. auto. Qed.

Context (ok : error → Prop).

Lemma errs_none : errs ok (Ret None : prog E S _).
Proof. by apply returns_ret. Qed.

Lemma errs_then {A} (p : prog E S A) k : (∀ a, errs ok (k a)) → errs ok (bind p k).
Proof. apply returns_then. Qed.

Lemma errs_must (p q : prog E S (option error)) :
  errs ok p → errs ok q → errs ok (bind p (λ e, match e with Some e => Ret (Some e) | None => q end)).
Proof. intros Hp Hq. eapply returns_bind; [exact Hp|]. intros [e|] He; [by apply returns_ret|exact Hq]. Qed.

Lemma errs_second {A} (p : prog E S (A * option error)) k :
  errs_with ok p → (∀ r, from_option ok True r.2 → errs ok (k r)) → errs ok (bind p k).
Proof. intros Hp Hk. eapply returns_bind; [exact Hp|exact Hk]. Qed.

Lemma errs_each {A} (q : A → prog E S (option error)) l : (∀ x, errs ok (q x)) → errs ok (each q l).
Proof. intros H. induction l as [|x l IH]; [apply errs_none|]. by apply errs_must. Qed.
End returns.
Create HintDb frames.
Lemma frames_nil {E S T} (f : world E S → T) : frames f nil_.
Proof. apply frames_ret. Qed.
Lemma errs_nil {E S} ok : errs ok (nil_ : prog E S _).
Proof. apply errs_none. Qed.
#[export] Hint Resolve frames_ret frames_gets frames_nil errs_none errs_nil : frames.

(** The view of the part a zoomed handler works on. *)
Definition part {E S T} (get : T → S) (w : world E T) : world E S := mkWorld (get (st w)) (trace w).

(** A zoomed handler leaves alone what the handler does. *)
Lemma frames_zoom {E S T A B} (get : T → S) (set : T → S → T) (f : world E S → B) (p : prog E S A) :
  (∀ t s, get (set t s) = s) → (∀ t s s', set (set t s) s' = set t s') → (∀ t, set t (get t) = t) →
  frames f p → frames (λ w, f (part get w)) (zoom get set p).
Proof.
  intros Hgs Hss Hsg Hp w. eapply wp_mono; [|apply (wp_zoom anything get set p w (λ _ w', f w' = f (part get w)) Hgs Hss Hsg), Hp].
  intros a w' [H _]. exact H.
Qed.

(** It only changes the part. *)
Lemma frames_outside {E S T A B} (get : T → S) (set : T → S → T) (f : world E T → B) (p : prog E S A) :
  (∀ t s, get (set t s) = s) → (∀ t s s', set (set t s) s' = set t s') → (∀ t, set t (get t) = t) →
  (∀ t s h h', f (mkWorld (set t s) h) = f (mkWorld t h')) → frames f (zoom get set p).
Proof.
  intros Hgs Hss Hsg Hf w. eapply wp_mono; [|apply (wp_zoom anything get set p w (λ _ _, True) Hgs Hss Hsg), (returns_any p)].
  intros a [t h] [_ H]. cbn in H. rewrite H. destruct w as [t0 h0]. apply Hf.
Qed.

Lemma returns_zoom {E S T A} (get : T → S) (set : T → S → T) (Q : A → Prop) (p : prog E S A) :
  (∀ t s, get (set t s) = s) → (∀ t s s', set (set t s) s' = set t s') → (∀ t, set t (get t) = t) →
  returns Q p → returns Q (zoom get set p).
Proof.
  intros Hgs Hss Hsg Hp w. eapply wp_mono; [|apply (wp_zoom anything get set p w (λ a _, Q a) Hgs Hss Hsg), Hp].
  intros a w' [H _]. exact H.
Qed.

(** A program over some ports as a program over more. *)
Fixpoint embed {E F S A} (φ : ∀ B, E B → F B) (p : prog E S A) : prog F S A :=
  match p with
  | Ret a => Ret a
  | Vis o k => Vis (φ _ o) (λ b, embed φ (k b))
  | Upd f k => Upd f (λ b, embed φ (k b))
  end.

(** [p] asks only operations of [P]. *)
Fixpoint asks_only {E S A} (P : ∀ B, E B → Prop) (p : prog E S A) : Prop :=
  match p with
  | Ret a => True
  | Vis o k => P _ o ∧ ∀ b, asks_only P (k b)
  | Upd f k => ∀ b, asks_only P (k b)
  end.

Lemma asks_only_bind {E S A B} (P : ∀ B, E B → Prop) (p : prog E S A) (k : A → prog E S B) :
  asks_only P p → (∀ a, asks_only P (k a)) → asks_only P (bind p k).
Proof. intros Hp Hk. induction p as [a|C o q IH|C f q IH]; cbn in *; naive_solver. Qed.

Lemma frames_embed {E F S A T} (φ : ∀ B, E B → F B) (P : ∀ B, E B → Prop) (f : world F S → T) (p : prog E S A) :
  (∀ B (o : E B) b w, P B o → f (told (φ B o) b w) = f w) → (∀ s w, f (put s w) = f w) →
  asks_only P p → frames f (embed φ p).
Proof.
  intros Ho Hs. induction p as [a|C o q IH|C g q IH]; cbn; intros Hp w; cbn.
  - done.
  - intros b _. destruct Hp as [Hp Hq]. eapply wp_mono; [|exact (IH b (Hq b) _)]. intros a w' ->. by apply Ho.
  - eapply wp_mono; [|apply (IH _ (Hp _))]. intros a w' ->. apply Hs.
Qed.

(** Fewer answers are legal. *)
Lemma wp_legal {E S A} legal (p : prog E S A) w Q : wp anything p w Q → wp legal p w Q.
Proof. revert w. induction p as [a|B o k IH|B f k IH]; intros w; cbn; unfold anything; auto. Qed.

Lemma wp_framed_part {E S A B T} legal (f : world E S → T) (p : prog E S A) (k : A → prog E S B) w Q :
  frames f p → (∀ a w', f w' = f w → wp legal (k a) w' Q) → wp legal (bind p k) w Q.
Proof. intros Hp Hk. apply wp_bind. eapply wp_mono; [|apply wp_legal, Hp]. apply Hk. Qed.

(** [p] asks only operations of [pre], given that the answers are in [post]. *)
Fixpoint guarded {E S A} (pre : ∀ B, E B → Prop) (post : ∀ B, E B → B → Prop) (p : prog E S A) (Q : A → Prop) : Prop :=
  match p with
  | Ret a => Q a
  | Vis o k => pre _ o ∧ ∀ b, post _ o b → guarded pre post (k b) Q
  | Upd f k => ∀ s, guarded pre post (k (f s).2) Q
  end.

Section guarded.
Context {E : Type → Type} {S : Type} (pre : ∀ B, E B → Prop) (post : ∀ B, E B → B → Prop).

Lemma guarded_mono {A} (p : prog E S A) (Q Q' : A → Prop) :
  (∀ a, Q a → Q' a) → guarded pre post p Q → guarded pre post p Q'.
Proof. intros HQ. induction p as [a|B o k IH|B f k IH]; cbn; naive_solver. Qed.

Lemma guarded_bind {A B} (p : prog E S A) (k : A → prog E S B) P Q :
  guarded pre post p P → (∀ a, P a → guarded pre post (k a) Q) → guarded pre post (bind p k) Q.
Proof. intros Hp Hk. induction p as [a|C o q IH|C f q IH]; cbn in *; naive_solver. Qed.

Lemma guarded_each {A} (q : A → prog E S (option error)) l :
  (∀ x, x ∈ l → guarded pre post (q x) (λ _, True)) → guarded pre post (each q l) (λ _, True).
Proof.
  induction l as [|x l IH]; intros Hq; [done|]. apply (guarded_bind _ _ (λ _, True)); [apply Hq; by left|].
  intros [e|] _; [done|]. apply IH. intros y Hy. apply Hq. by right.
Qed.

Lemma guarded_only {A} (p : prog E S A) : asks_only pre p → guarded pre post p (λ _, True).
Proof. induction p as [a|B o k IH|B f k IH]; cbn; naive_solver. Qed.
End guarded.

Lemma guarded_zoom {E S T A} (get : T → S) (set : T → S → T) pre post (p : prog E S A) Q :
  guarded pre post p Q → guarded pre post (zoom get set p) Q.
Proof. induction p as [a|B o k IH|B f k IH]; cbn; naive_solver. Qed.
