(* ===== verification/Files.v ===== *)
(** The files the stores keep: the operations of package [os] they use, as
    questions, and [writeAtomic] of internal/adapters/state/atomic.go.

    [files] is what a history of answers has made of the disk, and [fs_legal]
    what the answers may be: an operation that fails changes nothing (a write
    may leave a part), a read sees what was written, a temporary file is a new
    one. *)
From S2P Require Import Prelude GoStrings Errors Eff Paths.

Local Open Scope Z_scope.

Record dirent := mkDirent { DirName : string; Regular : bool }.

Inductive fsE : Type → Type :=
  | FReadFile (path : string) : fsE (result string)
  | FMkdirAll (dir : string) (mode : Z) : fsE (option error)
  | FCreateTemp (path : string) : fsE (result string)      (* os.CreateTemp beside path, named after it *)
  | FCreateExcl (path : string) : fsE (option error)       (* O_CREATE|O_EXCL *)
  | FWrite (name data : string) : fsE (nat * option error)  (* bytes written *)
  | FSync (name : string) : fsE (option error)
  | FChmod (name : string) (mode : Z) : fsE (option error)
  | FClose (name : string) : fsE (option error)
  | FRename (from to : string) : fsE (option error)
  | FRemove (path : string) : fsE (option error)
  | FLstat (path : string) : fsE (option error)
  | FStatTime (path : string) : fsE (result Time)
  | FReadDir (dir : string) : fsE (result (list dirent))
  | FInfo (dir name : string) : fsE (result Time)
  | FGlob (pattern : string) : fsE (result (list string))
  | FAbs (path : string) : fsE (result string)
  | FNow : fsE Time
  | FCtxErr : fsE (option error)
  | FAlive (pid : Z) : fsE bool.

Local Open Scope eff_scope.

Section Atomic.
Context {S : Type}.
Local Notation prog := (prog fsE S).

(** The deferred function: the temporary file goes if anything failed. *)
Definition discard (name : string) (e : error) : prog (option error) :=
  do _ ← call (FClose name); do _ ← call (FRemove name); fail e.

Definition attempt (name : string) (o : fsE (option error)) (wrap : error → error) (k : prog (option error)) : prog (option error) :=
  do e ← call o;
  match e with Some e => discard name (wrap e) | None => k end.

Definition writeAtomic (path data : string) (mode : Z) : prog (option error) :=
  do e ← call (FMkdirAll (Dir path) 493);
  match e with
  | Some e => fail (Errorf "mkdir %s: %w" [Dir path] [e])
  | None =>
    do t ← call (FCreateTemp path);
    match t with
    | Err e => fail (Errorf "create temp for %s: %w" [path] [e])
    | Ok name =>
      do n ← call (FWrite name data);
      match n.2 with
      | Some e => discard name (Errorf "write %s: %w" [name] [e])
      | None =>
        attempt name (FSync name) (λ e, Errorf "sync %s: %w" [name] [e])
          (attempt name (FChmod name mode) (λ e, Errorf "chmod %s: %w" [name] [e])
            (attempt name (FClose name) (λ e, Errorf "close %s: %w" [name] [e])
              (attempt name (FRename name path) (λ e, Errorf "rename %s -> %s: %w" [name; path] [e]) nil_)))
      end
    end
  end.
End Atomic.

(** ** The disk *)

Section Disk.
Context (disk0 : gmap string string).

(** What an answer makes of the files. *)
Definition effect {B} (o : fsE B) : B → gmap string string → gmap string string :=
  match o in fsE B return B → gmap string string → gmap string string with
  | FCreateTemp _ => λ r m, match r with Ok name => <[name := ""]> m | Err _ => m end
  | FCreateExcl path => λ e m, match e with None => <[path := ""]> m | Some _ => m end
  | FWrite name data => λ n m, <[name := default "" (m !! name) +:+ of_bytes (take n.1 (bytes data))]> m
  | FRename from to => λ e m, match e with
                              | None => match m !! from with Some d => <[to := d]> (delete from m) | None => m end
                              | Some _ => m
                              end
  | FRemove path => λ e m, match e with None => delete path m | Some _ => m end
  | _ => λ _ m, m
  end.
Fixpoint files (h : list (event fsE)) : gmap string string :=
  match h with Ev o b :: h => effect o b (files h) | [] => disk0 end.

Definition exists_err (e : error) : bool := is_foreign e ErrExist.

Definition fs_legal (h : list (event fsE)) (B : Type) (o : fsE B) (b : B) : Prop :=
  match o in fsE B return B → Prop with
  | FReadFile path => λ r, match r with
                           | Ok d => files h !! path = Some d
                           | Err e => is_foreign e ErrNotExist = true → files h !! path = None
                           end
  | FCreateTemp path => λ r, match r with Ok name => name ≠ path ∧ files h !! name = None | Err _ => True end
  | FCreateExcl path => λ e, match e with
                             | None => files h !! path = None
                             | Some e => is_foreign e ErrExist = true → is_Some (files h !! path)
                             end
  | FWrite _ data => λ n, n.2 = None → n.1 = String.length data
  | FLstat path => λ e, match e with
                        | None => is_Some (files h !! path)
                        | Some e => is_foreign e ErrNotExist = true → files h !! path = None
                        end
  | _ => λ _, True
  end b.

Context {S : Type}.
Local Notation world := (world fsE S).

(** The files at every moment between two histories. *)
Definition throughout (P : gmap string string → Prop) (h h' : list (event fsE)) : Prop :=
  ∀ h1, h `suffix_of` h1 → h1 `suffix_of` h' → P (files h1).

Lemma throughout_refl (P : gmap string string → Prop) h : P (files h) → throughout P h h.
Proof. intros HP h1 H1 H2. by rewrite (anti_symm suffix h1 h). Qed.

Lemma throughout_cons (P : gmap string string → Prop) h h' ev : throughout P h h' → P (files (ev :: h')) → throughout P h (ev :: h').
Proof. intros Ht HP h1 H1 [[|x k] E]; cbn in E; [by subst|]. injection E as -> ->. apply Ht; [done|by exists k]. Qed.

(** What a run does to one path, step by step. *)
Lemma wp_step {A B} (P : gmap string string → Prop) (h0 : list (event fsE)) (o : fsE B) (k : B → prog fsE S A) (w : world) Q :
  throughout P h0 (trace w) →
  (∀ b, fs_legal (trace w) B o b → P (files (Ev o b :: trace w)) ∧ (throughout P h0 (Ev o b :: trace w) → wp fs_legal (k b) (told o b w) Q)) →
  wp fs_legal (bind (call o) k) w Q.
Proof. intros Ht Hk. apply wp_ask. intros b Hb. destruct (Hk b Hb) as [HP Hw]. apply Hw. by apply throughout_cons. Qed.

Section Atomic.
Context (path data : string) (mode : Z) (old : option string).

Definition old_or_new (m : gmap string string) : Prop := m !! path = old ∨ m !! path = Some data.

Lemma wp_discard h0 name e w (Q : option error → world → Prop) : name ≠ path →
  throughout old_or_new h0 (trace w) → files (trace w) !! path = old →
  (∀ w', throughout old_or_new h0 (trace w') → files (trace w') !! path = old → Q (Some e) w') →
  wp fs_legal (discard name e) w Q.
Proof.
  intros Hne Ht Ho HQ. unfold discard.
  apply (wp_step old_or_new h0); [done|]. intros b _. split; [by left|]. intros Ht1.
  apply (wp_step old_or_new h0); [done|]. intros b2 _.
  assert (files (Ev (FRemove name) b2 :: Ev (FClose name) b :: trace w) !! path = old) as Ho2.
  { cbn. destruct b2; [done|]. by rewrite lookup_delete_ne. }
  split; [by left|]. intros Ht2. by apply HQ.
Qed.

(** One of the steps between the write and the rename. *)
Lemma wp_attempt h0 name (o : fsE (option error)) wrap k w (Q : option error → world → Prop) : name ≠ path →
  (∀ b m, effect o b m = m) → throughout old_or_new h0 (trace w) → files (trace w) !! path = old →
  (∀ e w', throughout old_or_new h0 (trace w') → files (trace w') !! path = old → Q (Some e) w') →
  (∀ w', throughout old_or_new h0 (trace w') → files (trace w') = files (trace w) → wp fs_legal k w' Q) →
  wp fs_legal (attempt name o wrap k) w Q.
Proof.
  intros Hne He Ht Ho HQ Hk. apply (wp_step old_or_new h0); [done|]. intros b _.
  assert (files (Ev o b :: trace w) = files (trace w)) as Hf by apply He. rewrite Hf. split; [by left|]. intros Ht1.
  destruct b as [e|]; [apply (wp_discard h0); [done|done|by cbn [told trace]; rewrite Hf|apply HQ]|by apply Hk].
Qed.

Lemma wp_writeAtomic (w : world) : files (trace w) !! path = old →
  wp fs_legal (writeAtomic path data mode) w (λ r w', throughout old_or_new (trace w) (trace w')
    ∧ match r with None => files (trace w') !! path = Some data | Some _ => files (trace w') !! path = old end).
Proof.
  intros Ho. set (h0 := trace w).
  assert (throughout old_or_new h0 (trace w)) as Ht by (apply throughout_refl; by left).
  apply (wp_step old_or_new h0); [done|]. intros b _. cbn [files effect]. split; [by left|]. intros Ht1.
  destruct b as [e|]; [done|].
  apply (wp_step old_or_new h0); [done|]. intros [name|e] Hl; [|split; [by left|done]].
  destruct Hl as [Hne Hnew]. cbn [told trace files effect].
  assert (<[name := ""]> (files (trace w)) !! path = old) as Ho1 by (by rewrite lookup_insert_ne).
  split; [by left|]. intros Ht2.
  apply (wp_step old_or_new h0); [done|]. intros [n e] Hn. cbn [told trace files effect fst snd] in Hn |- *.
  rewrite lookup_insert_eq. cbn [default]. rewrite str_app_nil_l, insert_insert_eq.
  assert (<[name := of_bytes (take n (bytes data))]> (files (trace w)) !! path = old) as Ho2 by (by rewrite lookup_insert_ne).
  split; [by left|]. intros Ht3. destruct e as [e|].
  { apply (wp_discard h0); [done|done| |by auto]. cbn [told trace files effect fst]. by rewrite lookup_insert_eq, insert_insert_eq. }
  cbn in Hn. rewrite Hn in * by done.
  specialize (Hn eq_refl). subst n.
  assert (of_bytes (take (String.length data) (bytes data)) = data) as Hall.
  { apply bytes_inj. rewrite of_bytes_bytes, take_ge; [done|]. by rewrite length_bytes. }
  set (w3 := told (FWrite name data) _ _) in *.
  assert (files (trace w3) = <[name := data]> (files (trace w))) as Hf3.
  { cbn [w3 told trace files effect fst]. rewrite lookup_insert_eq. cbn [default]. by rewrite str_app_nil_l, insert_insert_eq, Hall. }
  rewrite Hall in Ho2. change (throughout old_or_new h0 (trace w3)) in Ht3. rewrite <-Hf3 in Ho2. clearbody w3.
  assert (∀ w' : world, throughout old_or_new h0 (trace w') → files (trace w') = files (trace w3) → files (trace w') !! path = old) as Hold by (intros w' _ ->; done).
  apply (wp_attempt h0); [done|done|done|done|by auto|]. intros w4 Ht4 Hf4.
  apply (wp_attempt h0); [done|done|done|by rewrite Hf4|by auto|]. intros w5 Ht5 Hf5.
  apply (wp_attempt h0); [done|done|done|by rewrite Hf5, Hf4|by auto|]. intros w6 Ht6 Hf6. rewrite Hf5, Hf4, Hf3 in Hf6.
  apply (wp_step old_or_new h0); [done|]. intros [e|] _; cbn [told trace files effect]; rewrite Hf6.
  - assert (<[name := data]> (files (trace w)) !! path = old) as Ho6 by (by rewrite lookup_insert_ne).
    split; [by left|]. intros Ht7. apply (wp_discard h0); [done|done|by cbn [told trace files effect]; rewrite Hf6|by auto].
  - rewrite lookup_insert_eq. split; [right; apply lookup_insert_eq|]. intros Ht7. split; [done|].
    cbn [told trace files effect]. rewrite Hf6, lookup_insert_eq. apply lookup_insert_eq.
Qed.

(** C6: a file the program saves is replaced whole or not at all: at every
    moment of the save, so also where a crash cuts it short, the file holds
    what it held before or all of the new content; it holds the new content
    if the save returns nil, and the old one if it returns an error. *)
Theorem save_atomic (w : world) r w' : files (trace w) !! path = old →
  exec fs_legal (writeAtomic path data mode) w r w' →
  throughout old_or_new (trace w) (trace w')
  ∧ (r = None → files (trace w') !! path = Some data)
  ∧ (r ≠ None → files (trace w') !! path = old).
Proof.
  intros Ho He. destruct (wp_exec He (wp_writeAtomic w Ho)) as [Ht Hr]. split; [exact Ht|]. by destruct r.
Qed.
End Atomic.
End Disk.

(** ** A sample disk *)

(** A disk on which everything works but the operations of [broken]. *)
Definition sample_fs (broken : ∀ B, fsE B → bool) (disk0 : gmap string string) : oracle (E := fsE) := λ B o h,
  let fails (e : fsE (option error)) := if broken _ e then Some (Opaque "disk full") else None in
  match o in fsE B return B with
  | FReadFile path => match files disk0 h !! path with Some d => Ok d | None => Err (Foreign ErrNotExist) end
  | FMkdirAll d m => fails (FMkdirAll d m)
  | FCreateTemp path => match files disk0 h !! (path +:+ ".1.tmp") with None => Ok (path +:+ ".1.tmp") | Some _ => Err (Foreign ErrExist) end
  | FCreateExcl path => match files disk0 h !! path with None => None | Some _ => Some (Foreign ErrExist) end
  | FWrite name data => if broken _ (FWrite name data) then (0%nat, Some (Opaque "disk full")) else (String.length data, None)
  | FSync name => fails (FSync name)
  | FChmod name m => fails (FChmod name m)
  | FClose name => fails (FClose name)
  | FRename a b => fails (FRename a b)
  | FRemove path => fails (FRemove path)
  | FLstat path => match files disk0 h !! path with Some _ => None | None => Some (Foreign ErrNotExist) end
  | FStatTime _ => Ok 5
  | FReadDir _ => Ok []
  | FInfo _ _ => Ok 5
  | FGlob _ => Ok []
  | FAbs path => Ok path
  | FNow => 9
  | FCtxErr => None
  | FAlive _ => false
  end.

Lemma longer_path path : path +:+ ".1.tmp" ≠ path.
Proof. intros H. apply (f_equal String.length) in H. rewrite str_length_app in H. cbn in H. lia. Qed.

Lemma sample_fs_legal broken disk0 h B (o : fsE B) : fs_legal disk0 h B o (sample_fs broken disk0 B o h).
Proof.
  destruct o; cbn; try done.
  - by destruct (files disk0 h !! path) eqn:E.
  - destruct (files disk0 h !! (path +:+ ".1.tmp")) eqn:E; [done|]. split; [apply longer_path|done].
  - destruct (files disk0 h !! path) eqn:E; [|done]. by intros _.
  - destruct (broken _ _); [done|]. by intros _.
  - by destruct (files disk0 h !! path) eqn:E.
Qed.

Lemma save_atomic_witness :
  let full := λ B (o : fsE B), match o with FRename _ _ => true | _ => false end in
  let run := interp (sample_fs full {["/s/a" := "old"]}) (writeAtomic (S := unit) "/s/a" "new" 420) (mkWorld tt []) in
  run.1 = Some (Errorf "rename %s -> %s: %w" ["/s/a.1.tmp"; "/s/a"] [Opaque "disk full"])
  ∧ files {["/s/a" := "old"]} (trace run.2) !! "/s/a" = Some "old".
Proof.
  intros full run. assert (run.1 = Some (Errorf "rename %s -> %s: %w" ["/s/a.1.tmp"; "/s/a"] [Opaque "disk full"])) as Hr by (by vm_compute).
  split; [exact Hr|].
  refine (proj2 (proj2 (save_atomic {["/s/a" := "old"]} "/s/a" "new" 420 (Some "old") (mkWorld tt []) run.1 run.2 _
    (interp_exec (fs_legal {["/s/a" := "old"]}) (sample_fs full {["/s/a" := "old"]}) _ _ (sample_fs_legal full _)))) _).
  - by vm_compute.
  - by rewrite Hr.
Defined.
