(* ===== verification/Icons.v ===== *)
(** internal/adapters/telegram/icons.go: the topic icons of a forum, found by
    emoji in the pack Telegram offers. *)
From S2P Require Import Prelude GoStrings Errors Status OptionRegistry TgErrors.

Local Open Scope Z_scope.

Record Icon := mkIcon { EmojiID : string; Color : Z }.

Definition emojiKey (e : string) : string := replace_all e variation_selector "".

Definition statusColor (s : Status) : option Z :=
  if String.eqb s StatusWorking then Some 7322096
  else if String.eqb s StatusIdle then Some 16766590
  else if String.eqb s StatusBlocked then Some 16478047
  else if String.eqb s StatusDone then Some 9367192
  else if String.eqb s StatusUnknown then Some 13338331
  else if String.eqb s StatusExited then Some 13338331
  else None.

(** A sticker of the pack; a nil pointer is [None]. *)
Record Sticker := mkSticker { CustomEmojiID : string; StEmoji : string }.

Record IconSet := mkIconSet { byEmoji : gmap string string; order : list string }.
Definition no_icons : IconSet := mkIconSet ∅ [].

Definition index_sticker (set : IconSet) (s : option Sticker) : IconSet :=
  match s with
  | None => set
  | Some s =>
    if String.eqb (CustomEmojiID s) "" || String.eqb (StEmoji s) "" then set
    else
      let key := emojiKey (StEmoji s) in
      match byEmoji set !! key with
      | Some _ => set
      | None => mkIconSet (<[key := CustomEmojiID s]> (byEmoji set)) (order set ++ [StEmoji s])
      end
  end.
Definition NewIconSet (stickers : list (option Sticker)) : IconSet := foldl index_sticker no_icons stickers.

Definition Emojis (s : IconSet) : list string := order s.
Definition ID (s : IconSet) (emoji : string) : option string := byEmoji s !! emojiKey emoji.

Definition ForEmoji (s : IconSet) (emoji : string) (status : Status) : Icon :=
  let color := default (default 0 (statusColor StatusUnknown)) (statusColor status) in
  mkIcon (default "" (ID s emoji)) color.

(** The answer of getForumTopicIconStickers as the icon set. *)
Definition LoadIcons {U : UnicodeTables} (error_string : error → string) (answer : result (list (option Sticker))) : result IconSet :=
  match answer with
  | Err e => Err (Errorf "getForumTopicIconStickers: %w" [] [translate error_string e])
  | Ok stickers => Ok (NewIconSet stickers)
  end.

(** ** The pack and its index

    The first sticker of an emoji wins, whatever its variation selectors. *)
Definition usable (s : option Sticker) : bool :=
  match s with
  | Some s => negb (String.eqb (CustomEmojiID s) "") && negb (String.eqb (StEmoji s) "")
  | None => false
  end.

Definition first_id (l : list (option Sticker)) (key : string) : option string :=
  foldr (λ s r, match s with
                | Some x => if usable s && String.eqb (emojiKey (StEmoji x)) key then Some (CustomEmojiID x) else r
                | None => r
                end) None l.

Lemma index_sticker_lookup set s key :
  byEmoji (index_sticker set s) !! key =
    match byEmoji set !! key with Some id => Some id | None => first_id [s] key end.
Proof.
  unfold index_sticker, first_id. destruct s as [s|]; simpl; [|by destruct (byEmoji set !! key)].
  destruct (String.eqb (CustomEmojiID s) ""), (String.eqb (StEmoji s) ""); simpl;
    try by destruct (byEmoji set !! key).
  destruct (byEmoji set !! emojiKey (StEmoji s)) eqn:E; simpl; destruct (String.eqb_spec (emojiKey (StEmoji s)) key) as [<-|Hne].
  - by rewrite E.
  - by destruct (byEmoji set !! key).
  - by rewrite lookup_insert_eq, E.
  - rewrite lookup_insert_ne by done. by destruct (byEmoji set !! key).
Qed.

Lemma first_id_cons s l key :
  first_id (s :: l) key = match first_id [s] key with Some id => Some id | None => first_id l key end.
Proof. unfold first_id. simpl. destruct s as [s|]; [|done]. by destruct (_ && _). Qed.

Lemma NewIconSet_first stickers key : byEmoji (NewIconSet stickers) !! key = first_id stickers key.
Proof.
  unfold NewIconSet. assert (H : ∀ l set, byEmoji (foldl index_sticker set l) !! key =
      match byEmoji set !! key with Some id => Some id | None => first_id l key end).
  { induction l as [|s l IH]; intros set; cbn [foldl]; [by unfold first_id; simpl; destruct (byEmoji set !! key)|].
    rewrite IH, index_sticker_lookup, (first_id_cons s l). by destruct (byEmoji set !! key). }
  rewrite H. reflexivity.
Qed.
