(* ===== verification/Gateway.v ===== *)
(** internal/adapters/telegram/gateway.go: the gateway over the Bot API.

    The Bot API client is third-party code: its methods are the operations
    [Api] with any answer, an error being the library's own before
    [translate]. The call queue is seen from its caller (its pacing and
    retries are Queue.v): it lets a call through, or ends with an error of its
    own, and it may try again after a retryable error. *)
From S2P Require Import Prelude GoStrings Errors Status Config OptionRegistry Events TgErrors Redact.
From S2P Require Import Format Markdown Eff Icons.

Local Open Scope Z_scope.
Local Open Scope eff_scope.

Definition forceReplyPlaceholder : string := "text for the agent".
Definition topicNameMax : Z := 128.
Definition eventBuffer : Z := 64.
Definition NoticeDelay : Duration := 20 * Second.
Definition noticeKeep : Z := -1.
Definition strangerEvery : Duration := 10 * Minute.
Definition footerMax : Z := 200.

(** ** The allow-lists *)

Record access := mkAccess { operators : gset Z; observers : gset Z }.

Definition newAccess (operators observers : list Z) : access :=
  mkAccess (list_to_set operators) (list_to_set observers).

Definition role (a : access) (id : Z) : Role :=
  if decide (id ∈ operators a) then RoleOperator
  else if decide (id ∈ observers a) then RoleObserver
  else RoleStranger.

(** ** The Bot API *)

Inductive ReplyMarkup :=
  | NoMarkup
  | InlineKeyboard (rows : list (list (string * string)))   (** text and callback data *)
  | ForceReply (selective : bool) (placeholder : string).

(** [bot.SendMessageParams]; parse_mode is HTML, a reply may be sent without
    the message it quotes. *)
Record SendMessageParams := mkSend {
  SChat : Z; SThread : Z; SText : string; SSilent : bool; SReply : option Z; SMarkup : ReplyMarkup
}.

Inductive ChatMemberType := ChatMemberTypeOwner | ChatMemberTypeAdministrator | ChatMemberTypeOther.

(** [models.ChatMember] with the rights of its [Administrator], if set. *)
Record AdminRights := mkAdmin { ACanManageTopics : bool; ACanDeleteMessages : bool; ACanPinMessages : bool }.
Record ChatMember := mkMember { MType : ChatMemberType; Administrator : option AdminRights }.

Definition is_administrator (m : ChatMember) : bool :=
  match MType m with ChatMemberTypeAdministrator => true | _ => false end.
Definition is_owner (m : ChatMember) : bool := match MType m with ChatMemberTypeOwner => true | _ => false end.
Definition admin_right (f : AdminRights → bool) (m : ChatMember) : bool :=
  is_administrator m && match Administrator m with Some a => f a | None => false end.
Definition canManageTopics : ChatMember → bool := admin_right ACanManageTopics.
Definition canDeleteMessages : ChatMember → bool := admin_right ACanDeleteMessages.
Definition canPinMessages : ChatMember → bool := admin_right ACanPinMessages.

Record DocumentParams := mkDocParams {
  DPChat : Z; DPThread : Z; DPName : string; DPData : string; DPCaption : string; DPReply : option Z
}.

(** The methods called, with their answers; a message pointer may be nil. *)
Inductive api : Type → Type :=
  | CreateForumTopic (chat : Z) (name : string) (color : Z) (icon : string) : api Topic
  | EditForumTopic (chat thread : Z) (name icon : string) : api unit
  | CloseForumTopic (chat thread : Z) : api unit
  | DeleteForumTopic (chat thread : Z) : api unit
  | ReopenForumTopic (chat thread : Z) : api unit
  | GetChat (chat : Z) : api bool
  | GetChatMember (chat user : Z) : api ChatMember
  | SendMessage (p : SendMessageParams) : api (option Z)
  | EditMessageText (chat message : Z) (text : string) (html : bool) (markup : ReplyMarkup) : api unit
  | EditMessageReplyMarkup (chat message : Z) (markup : ReplyMarkup) : api unit
  | AnswerCallbackQuery (callback text : string) : api unit
  | GetFile (id : string) : api (Z * string)                 (** size and download link *)
  | SendDocument (p : DocumentParams) : api unit
  | SetMessageReaction (chat message : Z) (emoji : string) : api unit
  | SendTyping (chat : Z) : api unit
  | PinChatMessage (chat message : Z) : api unit
  | UnpinChatMessage (chat message : Z) : api unit
  | DeleteChatMessage (chat message : Z) : api unit.

(** What happens to an event offered to the application. *)
Inductive delivery := Delivered | NotDelivered.

(** [QueueTurn]: the queue lets the call through ([None]), or it has stopped or
    the caller's context has ended. [QueueAgain]: it waits and tries again.
    A response is its status, its body and whether reading it breaks off at
    the end of that body. *)
Inductive gwE : Type → Type :=
  | QueueTurn : gwE (option error)
  | QueueAgain : gwE bool
  | Api {A} (c : api A) : gwE (result A)
  | HttpGet (link : string) : gwE (result (Z * string * bool))
  | Now : gwE Time
  | Sleep (d : Duration) : gwE bool                          (** false: the context ended first *)
  | Offer (ev : Event) : gwE delivery
  | TryOffer (ev : Event) : gwE delivery.

(** ** The state *)

Record Gateway := mkGateway {
  gaccess : access;
  gstatusIcons : StatusIcons;
  iconWarned : gset string;
  noticeDelay : Z;
  deleteWarned : bool;
  lastStranger : gmap Z Time
}.

Definition NewGateway (operators observers : list Z) (noticeDelay : Duration) : Gateway :=
  mkGateway (newAccess operators observers) DefaultStatusIcons ∅ noticeDelay false ∅.

Definition SetAccess (operators observers : list Z) (g : Gateway) : Gateway :=
  mkGateway (newAccess operators observers) (gstatusIcons g) (iconWarned g) (noticeDelay g) (deleteWarned g) (lastStranger g).
Definition SetNoticeDelay (delay : Duration) (del : bool) (g : Gateway) : Gateway :=
  mkGateway (gaccess g) (gstatusIcons g) (iconWarned g) (if del then delay else noticeKeep) (deleteWarned g) (lastStranger g).
Definition SetStatusIcons (icons : StatusIcons) (g : Gateway) : Gateway :=
  mkGateway (gaccess g) icons ∅ (noticeDelay g) (deleteWarned g) (lastStranger g).
Definition warn_icon (emoji : string) (g : Gateway) : Gateway :=
  mkGateway (gaccess g) (gstatusIcons g) ({[emoji]} ∪ iconWarned g) (noticeDelay g) (deleteWarned g) (lastStranger g).
Definition warn_delete (g : Gateway) : Gateway :=
  mkGateway (gaccess g) (gstatusIcons g) (iconWarned g) (noticeDelay g) true (lastStranger g).
Definition meet_stranger (id : Z) (now : Time) (g : Gateway) : Gateway :=
  mkGateway (gaccess g) (gstatusIcons g) (iconWarned g) (noticeDelay g) (deleteWarned g) (<[id := now]> (lastStranger g)).

(** ** Text helpers *)

Definition wrap (body : string) (folded : bool) (footer : string) : string :=
  let body := if folded then "<blockquote expandable>" +:+ body +:+ "</blockquote>" else body in
  if String.eqb footer "" then body else body +:+ nl +:+ renderPlain footer.

Definition truncateFooter (footer : string) (max : Z) : string :=
  let footer := trim_space (replace_all footer nl " ") in
  let rs := runes footer in
  if Nat.ltb (fitUTF16 rs max) (length rs)
  then string_of_runes (take (fitUTF16 rs (max - 1)) rs) +:+ "…"
  else footer.

Definition append_last (l : list string) (s : string) : list string :=
  match reverse l with x :: r => reverse ((x +:+ s) :: r) | [] => [] end.

Definition capParts (parts : list string) (max : Z) : list string * Z * Z :=
  if (max <=? 0) || (Z.of_nat (length parts) <=? max) then (parts, 0, 0)
  else
    let dropped := join (drop (Z.to_nat max) parts) nl in
    let chars := rune_count dropped in
    let kept := take (Z.to_nat max) parts in
    (append_last kept (nl +:+ "… (+" +:+ itoa chars +:+ " chars)"), Z.of_nat (length parts) - max, chars).

Definition head_runes (s : string) (n : Z) : string :=
  let rs := runes s in if Z.of_nat (length rs) <=? n then s else string_of_runes (take (Z.to_nat n) rs).

(** The rows so far, the newest first, each with its buttons newest first. *)
Fixpoint keyboard_rows (rows : list (list (string * string))) (lastRow : Z) (bs : list Button) : list (list (string * string)) :=
  match bs with
  | [] => reverse (map reverse rows)
  | b :: bs =>
    let btn := (BText b, BData b) in
    match rows with
    | row :: rows' =>
      if negb (BRow b =? 0) && (BRow b =? lastRow) then keyboard_rows ((btn :: row) :: rows') lastRow bs
      else keyboard_rows ([btn] :: rows) (BRow b) bs
    | [] => keyboard_rows [[btn]] (BRow b) bs
    end
  end.
Definition inlineKeyboard (buttons : list Button) : ReplyMarkup := InlineKeyboard (keyboard_rows [] 0 buttons).

(** ** The operations *)

Section Gateway.
Context {U : UnicodeTables} (error_string : error → string).
Context (chatID botID : Z) (icons : IconSet) (MaxTries : nat).
Local Notation prog := (prog gwE Gateway).
Local Notation translate := (translate error_string).

Definition ask {B} (o : gwE B) : prog B := call o.
Definition api_call {A} (c : api A) : prog (result A) :=
  do r ← ask (Api c); Ret (match r with Ok a => Ok a | Err e => Err (translate e) end).

(** [queue.Do]. *)
Fixpoint queue_do {A} (tries : nat) (op : prog (result A)) : prog (result A) :=
  do turn ← ask QueueTurn;
  match turn with
  | Some e => Ret (Err e)
  | None =>
    do r ← op;
    match r, tries with
    | Err e, S tries =>
      if isRetryable e then
        do again ← ask QueueAgain;
        if again then queue_do tries op else Ret r
      else Ret r
    | _, _ => Ret r
    end
  end.
Definition Do {A} (op : prog (result A)) : prog (result A) := queue_do (pred MaxTries) op.

Definition err_of {A} (r : result A) : option error := match r with Ok _ => None | Err e => Some e end.

Definition finish (method : string) (err : option error) : option error :=
  match err with Some e => Some (Errorf "%s: %w" [method] [e]) | None => None end.

Definition simple {A} (method : string) (c : api A) : prog (option error) :=
  do r ← Do (api_call c); Ret (finish method (err_of r)).

Definition iconFor (status : Status) : prog Icon :=
  do set ← gets gstatusIcons;
  let emoji := IconFor set status in
  let icon := ForEmoji icons emoji status in
  if String.eqb (EmojiID icon) "" && negb (String.eqb emoji "")
  then do _ ← modify (warn_icon emoji); Ret icon
  else Ret icon.

Definition CreateTopic (name : string) (status : Status) : prog (Topic * option error) :=
  do icon ← iconFor status;
  let name := truncateName name topicNameMax in
  do r ← Do (api_call (CreateForumTopic chatID name (Color icon) (EmojiID icon)));
  let topic := match r with Ok t => mkTopic (TThreadID t) (TName t) (TIconEmojiID t) false | Err _ => mkTopic 0 "" "" false end in
  Ret (topic, finish "createForumTopic" (err_of r)).

Definition EditTopic (threadID : Z) (patch : TopicPatch) : prog (option error) :=
  let name := match PName patch with Some n => truncateName n topicNameMax | None => "" end in
  do icon ← match PStatus patch with
            | Some s => do i ← iconFor s; Ret (EmojiID i)
            | None => Ret ""
            end;
  if String.eqb name "" && String.eqb icon "" then nil_
  else
    do r ← Do (api_call (EditForumTopic chatID threadID name icon));
    let err := err_of r in
    let err := match err with
               | Some e => if is_foreign e ErrTopicNotModified then None else Some e
               | None => None
               end in
    Ret (finish "editForumTopic" err).

Definition CloseTopic (threadID : Z) := simple "closeForumTopic" (CloseForumTopic chatID threadID).
Definition DeleteTopic (threadID : Z) := simple "deleteForumTopic" (DeleteForumTopic chatID threadID).
Definition ReopenTopic (threadID : Z) := simple "reopenForumTopic" (ReopenForumTopic chatID threadID).

Record Rights := mkRights {
  IsForum : bool; IsAdmin : bool; RCanManageTopics : bool; RCanDeleteMessages : bool; RCanPinMessages : bool
}.
Definition no_rights (forum : bool) : Rights := mkRights forum false false false false.
Definition member_rights (forum : bool) (m : ChatMember) : Rights :=
  mkRights forum (is_administrator m || is_owner m) (canManageTopics m || is_owner m)
    (canDeleteMessages m || is_owner m) (canPinMessages m || is_owner m).

Definition get_rights : prog (Rights * option error) :=
  do chat ← Do (do r ← api_call (GetChat chatID);
                Ret (match r with Err e => Err (Errorf "getChat: %w" [] [e]) | ok => ok end));
  match chat with
  | Err e => Ret (no_rights false, finish "getChat" (Some e))
  | Ok forum =>
    do member ← Do (do r ← api_call (GetChatMember chatID botID);
                    Ret (match r with Err e => Err (Errorf "getChatMember: %w" [] [e]) | ok => ok end));
    match member with
    | Err e => Ret (no_rights forum, finish "getChatMember" (Some e))
    | Ok m => Ret (member_rights forum m, None)
    end
  end.

(** ** Sending *)

Definition sendPart (p : SendMessageParams) : prog (result Z) :=
  do r ← Do (api_call (SendMessage p));
  Ret (match r with Ok (Some id) => Ok id | Ok None => Ok 0 | Err e => Err e end).

Definition markdown_of (out : Outgoing) : bool := OMarkdown out && negb (OCode out) && negb (OHTML out).
Definition footer_of (out : Outgoing) : string := truncateFooter (OFooter out) footerMax.
Definition limit_of (footer : string) : Z :=
  if String.eqb footer "" then textMax else textMax - (utf16Len footer + 1).
Definition split_text (out : Outgoing) : list string :=
  let limit := limit_of (footer_of out) in
  if markdown_of out then splitMarkdown (OText out) limit else chunk (OText out) limit.
Definition parts_of (out : Outgoing) : list string := let '(parts, _, _) := capParts (split_text out) (OMaxParts out) in parts.

Definition part_body (out : Outgoing) (part : string) : string :=
  if OCode out then renderCode part
  else if OHTML out then part
  else if markdown_of out then renderMarkdown part
  else renderPlain part.
Definition folded (out : Outgoing) (part : string) : bool := (0 <? OFold out) && (OFold out <? count part nl + 1).

(** The markup of the last part: buttons win over a forced reply. *)
Definition last_markup (out : Outgoing) : ReplyMarkup :=
  match OButtons out with
  | [] => if OForceReply out then ForceReply true forceReplyPlaceholder else NoMarkup
  | bs => inlineKeyboard bs
  end.

(** The message of part [i] of [n], with the body given. *)
Definition part_params (chat thread : Z) (out : Outgoing) (i n : nat) (part body : string) : SendMessageParams :=
  let last := Nat.eqb i (pred n) in
  mkSend chat thread (wrap body (folded out part) (if last then footer_of out else "")) (negb (ONotify out))
    (if Nat.eqb i 0 && negb (OReplyTo out =? 0) then Some (OReplyTo out) else None)
    (if last then last_markup out else NoMarkup).

Definition send_error (out : Outgoing) (i n : nat) (e : error) : error :=
  Errorf "sendMessage thread %d part %d/%d: %w" [itoa (OThreadID out); itoa (Z.of_nat i + 1); itoa (Z.of_nat n)] [e].

(** The loop over the parts from the [i]-th on. *)
Fixpoint send_parts (chat thread : Z) (out : Outgoing) (n i : nat) (lastID : Z) (parts : list string) : prog (result Z) :=
  match parts with
  | [] => Ret (Ok lastID)
  | part :: parts =>
    do r ← sendPart (part_params chat thread out i n part (part_body out part));
    do r ← match r with
           | Err e =>
             if markdown_of out && isMarkupError e
             then sendPart (part_params chat thread out i n part (renderCode part))
             else Ret r
           | Ok _ => Ret r
           end;
    match r with
    | Err e => Ret (Err (send_error out i n e))
    | Ok id => send_parts chat thread out n (S i) id parts
    end
  end.

Definition send (chat thread : Z) (out : Outgoing) : prog (result Z) :=
  let parts := parts_of out in send_parts chat thread out (length parts) 0 0 parts.

Definition Send (out : Outgoing) : prog (result Z) := send chatID (OThreadID out) out.
Definition direct (o : Outgoing) : Outgoing :=
  mkOutgoing 0 (OText o) (OCode o) (OHTML o) (OMarkdown o) (OMaxParts o) 0 (ONotify o) (OButtons o) (OForceReply o)
    (OFooter o) (OFold o).
Definition SendDirect (userID : Z) (out : Outgoing) : prog (result Z) := send userID 0 (direct out).

(** ** Editing and the rest *)

Definition not_modified (err : option error) : option error :=
  match err with Some e => if is_foreign e ErrMessageNotModified then None else Some e | None => None end.

Definition EditText (messageID : Z) (text : string) (html : bool) (buttons : list Button) : prog (option error) :=
  let text := if textMax <? rune_count text
              then string_of_runes (take (Z.to_nat (textMax - 1)) (runes text)) +:+ "…" else text in
  do r ← Do (api_call (EditMessageText chatID messageID text html (inlineKeyboard buttons)));
  Ret (finish "editMessageText" (not_modified (err_of r))).

Definition EditButtons (messageID : Z) (buttons : list Button) : prog (option error) :=
  do r ← Do (api_call (EditMessageReplyMarkup chatID messageID (inlineKeyboard buttons)));
  Ret (finish "editMessageReplyMarkup" (not_modified (err_of r))).

(** Not through the queue. *)
Definition AnswerButton (callbackID text : string) : prog (option error) :=
  do r ← api_call (AnswerCallbackQuery callbackID text); Ret (finish "answerCallbackQuery" (err_of r)).

(** [io.ReadAll(io.LimitReader(body, n))]. *)
Definition read_limited (body : string) (broken : bool) (n : Z) : option string :=
  if n <=? len body then Some (of_bytes (take (Z.to_nat n) (bytes body)))
  else if broken then None else Some body.

Definition Download (fileID : string) (max : Z) : prog (result string) :=
  do f ← ask (Api (GetFile fileID));
  match f with
  | Err e =>
    if contains (to_lower (error_string e)) "too big" then Ret (Err (Sentinel ErrFileTooBig))
    else Ret (Err (Errorf "getFile: %w" [] [translate e]))
  | Ok (size, link) =>
    if max <? size then Ret (Err (Sentinel ErrFileTooBig))
    else
      do resp ← ask (HttpGet link);
      match resp with
      | Err e => Ret (Err (Opaque ("download: " +:+ error_string e)))
      | Ok (status, body, broken) =>
        if negb (status =? 200) then Ret (Err (Opaque ("download: status " +:+ itoa status)))
        else
          match read_limited body broken (wrap64 (max + 1)) with
          | None => Ret (Err (Opaque "download read"))
          | Some data => if max <? len data then Ret (Err (Sentinel ErrFileTooBig)) else Ret (Ok data)
          end
      end
  end.

Definition send_document (doc : Document) : prog (option error) :=
  let reply := if DReplyTo doc =? 0 then None else Some (DReplyTo doc) in
  do r ← Do (api_call (SendDocument (mkDocParams chatID (DThreadID doc) (DName doc) (DData doc) (DCaption doc) reply)));
  Ret (match r with
       | Ok _ => None
       | Err e => Some (Errorf "sendDocument thread %d %q: %w" [itoa (DThreadID doc); DName doc] [e])
       end).

Definition React (messageID : Z) (emoji : string) := simple "setMessageReaction" (SetMessageReaction chatID messageID emoji).
Definition ProbeDirect (userID : Z) := simple "sendChatAction" (SendTyping userID).
Definition Pin (messageID : Z) := simple "pinChatMessage" (PinChatMessage chatID messageID).
Definition Unpin (messageID : Z) := simple "unpinChatMessage" (UnpinChatMessage chatID messageID).
Definition DeleteMessage (messageID : Z) := simple "deleteMessage" (DeleteChatMessage chatID messageID).

(** ** What is sent *)

(** A message Telegram accepted, with the id it answered. *)
Definition accepted1 (e : event gwE) : option (SendMessageParams * Z) :=
  match e with
  | Ev o b =>
    match o in gwE B return B → option (SendMessageParams * Z) with
    | Api c =>
      match c in api A return result A → option (SendMessageParams * Z) with
      | SendMessage p => λ r, match r with Ok id => Some (p, default 0 id) | Err _ => None end
      | _ => λ _, None
      end
    | _ => λ _, None
    end b
  end.
Definition accepted (h : list (event gwE)) : list (SendMessageParams * Z) := omap accepted1 (reverse h).

Arguments accepted _ : simpl never.

Lemma accepted_cons e h : accepted (e :: h) = accepted h ++ option_list (accepted1 e).
Proof.
  unfold accepted. rewrite reverse_cons, omap_app. simpl. by destruct (accepted1 e).
Qed.

(** The queue calls an operation until it does not fail, or gives up. *)
Lemma wp_queue_do {A} legal tries (op : prog (result A)) (I : world gwE Gateway → Prop) (Q : A → world gwE Gateway → Prop) w :
  (∀ w b, I w → I (told QueueTurn b w)) → (∀ w b, I w → I (told QueueAgain b w)) →
  (∀ w, I w → wp legal op w (λ r w', match r with Ok a => Q a w' | Err _ => I w' end)) →
  I w → wp legal (queue_do tries op) w (λ r w', match r with Ok a => Q a w' | Err _ => I w' end).
Proof.
  intros Ht Ha Hop. revert w. induction tries as [|tries IH]; intros w Hw; cbn; intros [e|] _; cbn; auto.
  - apply wp_bind. eapply wp_mono; [|apply Hop; by apply Ht]. by intros [a|e] w' H.
  - apply wp_bind. eapply wp_mono; [|apply Hop; by apply Ht]. intros [a|e] w' H; [done|].
    destruct (isRetryable e); [|done]. cbn. intros [|] _; cbn; auto.
Qed.

Lemma wp_sendPart legal p w :
  wp legal (sendPart p) w (λ r w', match r with
    | Ok id => accepted (trace w') = accepted (trace w) ++ [(p, id)]
    | Err _ => accepted (trace w') = accepted (trace w) end).
Proof.
  unfold sendPart. apply wp_bind. eapply wp_mono; [|apply (wp_queue_do legal (pred MaxTries) (api_call (SendMessage p))
    (λ w', accepted (trace w') = accepted (trace w))
    (λ id w', accepted (trace w') = accepted (trace w) ++ [(p, default 0 id)]))].
  - by intros [[id|]|e] w' H.
  - intros w' b H. cbn. by rewrite accepted_cons, app_nil_r.
  - intros w' b H. cbn. by rewrite accepted_cons, app_nil_r.
  - intros w' H. unfold api_call. cbn. intros [id|e] _; cbn; rewrite accepted_cons, H; simpl; [done|]. by rewrite app_nil_r.
  - done.
Qed.

(** [sent] are the messages of the parts from the [i]-th on, in their order:
    each is the part rendered, or as <pre> when the rendering was refused. *)
Fixpoint in_order (chat thread : Z) (out : Outgoing) (n i : nat) (parts : list string) (sent : list (SendMessageParams * Z)) : Prop :=
  match parts, sent with
  | _, [] => True
  | part :: parts, (p, _) :: sent =>
    (p = part_params chat thread out i n part (part_body out part) ∨
     markdown_of out = true ∧ p = part_params chat thread out i n part (renderCode part)) ∧
    in_order chat thread out n (S i) parts sent
  | [], _ :: _ => False
  end.

Definition last_id (d : Z) (sent : list (SendMessageParams * Z)) : Z := default d (snd <$> last sent).

Lemma last_id_cons d p id sent : last_id d ((p, id) :: sent) = last_id id sent.
Proof. unfold last_id. destruct sent as [|y l]; [done|]. rewrite last_cons_cons. by destruct (last (y :: l)) eqn:E; [|apply last_None in E]. Qed.

Definition outcome_ok (d : Z) (parts : list string) (sent : list (SendMessageParams * Z)) (r : result Z) : Prop :=
  match r with
  | Ok id => length sent = length parts ∧ id = last_id d sent
  | Err _ => (length sent < length parts)%nat
  end.

Lemma wp_send_parts legal chat thread out n i d parts w :
  wp legal (send_parts chat thread out n i d parts) w (λ r w', ∃ sent,
    accepted (trace w') = accepted (trace w) ++ sent ∧ in_order chat thread out n i parts sent ∧ outcome_ok d parts sent r).
Proof.
  revert i d w. induction parts as [|part parts IH]; intros i d w; cbn [send_parts].
  { exists []. rewrite app_nil_r. by split_and!. }
  set (first := part_params chat thread out i n part (part_body out part)).
  assert (Hrest : ∀ p id w', accepted (trace w') = accepted (trace w) ++ [(p, id)] →
      (p = first ∨ markdown_of out = true ∧ p = part_params chat thread out i n part (renderCode part)) →
      wp legal (send_parts chat thread out n (S i) id parts) w' (λ r w'', ∃ sent,
        accepted (trace w'') = accepted (trace w) ++ sent ∧ in_order chat thread out n i (part :: parts) sent ∧
        outcome_ok d (part :: parts) sent r)).
  { intros p id w' Ha Hp. eapply wp_mono; [|apply IH]. intros r w'' (sent & E & Ho & Hr).
    exists ((p, id) :: sent). rewrite E, Ha, <-app_assoc. split_and!; [done|done|].
    destruct r as [x|e]; cbn in *; [|lia]. rewrite last_id_cons. destruct Hr. split; [lia|done]. }
  assert (Hfail : ∀ (e : error) (w' : world gwE Gateway), accepted (trace w') = accepted (trace w) →
      ∃ sent, accepted (trace w') = accepted (trace w) ++ sent ∧ in_order chat thread out n i (part :: parts) sent ∧
        outcome_ok d (part :: parts) sent (Err (send_error out i n e))).
  { intros e w' Ha. exists []. rewrite app_nil_r. split_and!; [done..|]. cbn. lia. }
  apply wp_bind. eapply wp_mono; [|apply wp_sendPart]. intros [id|e] w' Ha.
  - cbn. eapply Hrest; [done|by left].
  - destruct (markdown_of out && isMarkupError e) eqn:Em; [|cbn; exact (Hfail e w' Ha)].
    apply andb_true_iff in Em as [Em _]. apply wp_bind. eapply wp_mono; [|apply wp_sendPart].
    intros [id|e'] w'' Ha'; rewrite Ha in Ha'; cbn; [|exact (Hfail e' w'' Ha')]. eapply Hrest; [done|by right].
Qed.

(** C34: the parts of a message are accepted one after the other, each once
    and in order, the reply and the keyboard on the right one; a failure stops
    the rest, and success means every part is there and names the last one. *)
Theorem send_in_order legal chat thread out w r w' :
  exec legal (send chat thread out) w r w' →
  ∃ sent, accepted (trace w') = accepted (trace w) ++ sent ∧
    in_order chat thread out (length (parts_of out)) 0 (parts_of out) sent ∧ outcome_ok 0 (parts_of out) sent r.
Proof. intros He. exact (wp_exec He (wp_send_parts legal chat thread out _ 0 0 _ w)). Qed.
End Gateway.

(** A footer leaves room for the text. *)
Lemma truncateFooter_fits footer max : 3 ≤ max → utf16Len (truncateFooter footer max) ≤ max.
Proof.
  intros Hm. unfold truncateFooter. cbv zeta. set (f := trim_space _). clearbody f.
  destruct (decide (f = EmptyString)) as [->|Hf]; [simpl; unfold utf16Len; simpl; lia|].
  pose proof (runes_nonempty f Hf) as Hr.
  destruct (Nat.ltb_spec (fitUTF16 (runes f) max) (length (runes f))) as [_|Hge].
  - destruct (fitUTF16_spec (runes f) (max - 1) ltac:(lia) Hr) as (_ & Hu & _).
    set (p := take _ (runes f)) in *.
    assert (Hp : Forall (λ r, valid_rune r = true) p) by apply Forall_take, runes_valid.
    assert (E : string_of_runes p +:+ "…" = string_of_runes (p ++ [8230])).
    { unfold string_of_runes. rewrite map_app, concat_str_app. done. }
    rewrite E. unfold utf16Len. rewrite runes_string_of_runes by (apply Forall_app; split; [done|by repeat constructor]).
    rewrite units_app. simpl. change (rune_units 8230) with 1. lia.
  - destruct (fitUTF16_spec (runes f) max ltac:(lia) Hr) as (_ & Hu & _). rewrite take_ge in Hu by lia. done.
Qed.

(** What is shown of a plain or code message, footer included, stays
    below the limit of a Telegram message. *)
Theorem plain_parts_fit out part :
  markdown_of out = false → OMaxParts out ≤ 0 → part ∈ parts_of out →
  utf16Len part + (if String.eqb (footer_of out) "" then 0 else utf16Len (footer_of out) + 1) ≤ textMax.
Proof.
  intros Hm Hmax Hp. unfold parts_of, capParts in Hp. rewrite (proj2 (Z.leb_le _ _) Hmax) in Hp. simpl in Hp.
  unfold split_text in Hp. rewrite Hm in Hp.
  assert (Hf : utf16Len (footer_of out) ≤ 200) by exact (truncateFooter_fits (OFooter out) footerMax ltac:(done)).
  assert (Hl : 2 ≤ limit_of (footer_of out)).
  { unfold limit_of, textMax. pose proof (utf16Len_nonneg (footer_of out)). case_match; lia. }
  destruct (decide (OText out = EmptyString)) as [E|E]; [by rewrite E in Hp; apply elem_of_nil in Hp|].
  destruct (chunk_pieces (OText out) _ Hl E part Hp) as [_ Hu]. unfold limit_of, textMax in *. case_match; lia.
Qed.

Definition sample_out : Outgoing :=
  mkOutgoing 7 "hello" false false false 0 3 true [mkButton "ok" "1" 0] false "claude · 2m" 0.

Lemma plain_parts_fit_witness :
  "hello" ∈ parts_of sample_out ∧
  utf16Len "hello" + (if String.eqb (footer_of sample_out) "" then 0 else utf16Len (footer_of sample_out) + 1) ≤ textMax.
Proof.
  assert (H : "hello" ∈ parts_of sample_out) by (vm_compute; left).
  split; [exact H|]. refine (plain_parts_fit sample_out "hello" _ _ H); [reflexivity|done].
Defined.

(** A Telegram that accepts every message and refuses everything else. *)
Definition sample_oracle : oracle (E:=gwE) := λ B o h,
  match o in gwE B return B with
  | QueueTurn => None
  | QueueAgain => true
  | Api c =>
    match c in api A return result A with
    | SendMessage _ => Ok (Some (100 + Z.of_nat (length h)))
    | _ => Err (Foreign BotNotFound)
    end
  | HttpGet _ => Err (Opaque "no route")
  | Now => 0
  | Sleep _ => true
  | Offer _ => Delivered
  | TryOffer _ => Delivered
  end.
Definition sample_world : world gwE Gateway := mkWorld (NewGateway [1] [2] 0) [].

Lemma send_in_order_witness :
  let run := interp sample_oracle (send (U:=latin1_tables) sample_error_string 3 4 7 sample_out) sample_world in
  run.1 = Ok 101 ∧
  ∃ sent, accepted (trace run.2) = accepted (trace sample_world) ++ sent ∧
    in_order (U:=latin1_tables) 4 7 sample_out (length (parts_of sample_out)) 0
      (parts_of sample_out) sent ∧
    outcome_ok 0 (parts_of sample_out) sent run.1.
Proof.
  split; [vm_compute; reflexivity|].
  refine (send_in_order (U:=latin1_tables) sample_error_string 3 anything 4 7 sample_out sample_world _ _ _).
  apply interp_exec. done.
Defined.

(** A text of two code units per rune is not cut by [EditText], which counts
    runes, and is longer than a message may be. *)
Lemma edit_counts_runes :
  let text := string_of_runes (repeat 128512 4000) in
  rune_count text ≤ textMax ∧ utf16Len text = 8000.
Proof. vm_compute. split; congruence. Qed.
