(* ===== verification/TgInbound.v ===== *)
(** internal/adapters/telegram/inbound.go: updates of the Bot API become
    events of the application.

    [Update] and its parts carry the fields the code reads of the library's
    types of the same names; a nil pointer is [None]. *)
From S2P Require Import Prelude GoStrings Errors Config Events TgErrors Eff Icons Gateway.

Local Open Scope Z_scope.
Local Open Scope eff_scope.

Record User := mkUser { UserID : Z; IsBot : bool; FirstName : string; LastName : string; Username : string }.

(** A file of a message: [FileName] and the sizes where the kind has them. *)
Record TgFile := mkTgFile { TFileID : string; TFileName : string; TMime : string; TFileSize : Z }.
Record PhotoSize := mkPhoto { PhFileID : string; Width : Z; Height : Z; PhFileSize : Z }.

Record Message := mkMessage {
  MID : Z; MChat : Z; MThread : Z; IsTopicMessage : bool; From : option User; MText : string;
  ForumTopicEdited : option string; ForumTopicClosed : bool; ForumTopicReopened : bool; PinnedMessage : bool;
  ReplyToMessage : option Z; MediaGroupID : string; MCaption : string;
  MDocument : option TgFile; Photo : list PhotoSize; Voice : option TgFile; Audio : option TgFile; Video : option TgFile
}.

(** [QMessage] is [None] where Telegram withheld the message. *)
Record CallbackQuery := mkCallback { QID : string; QFrom : User; QMessage : option Message; QData : string }.

Record ChatMemberUpdated := mkMemberUpdate { CMChat : Z; CMFrom : User; NewChatMember : ChatMember; CMTitle : string; CMIsForum : bool }.

Record Update := mkUpdate {
  UMessage : option Message; UCallbackQuery : option CallbackQuery; MyChatMember : option ChatMemberUpdated
}.

Definition isGeneral (m : Message) : bool := negb (IsTopicMessage m) || (MThread m =? 0).
Definition senderID (m : Message) : Z := match From m with Some u => UserID u | None => 0 end.
Definition callbackMessage (q : CallbackQuery) : option Message := QMessage q.
Definition replyToID (m : Message) : Z := default 0 (ReplyToMessage m).

(** The largest photo, the last of equal ones; the product is a Go int. *)
Definition larger (best p : PhotoSize) : PhotoSize :=
  if wrap64 (Width best * Height best) <=? wrap64 (Width p * Height p) then p else best.

Definition attachment (m : Message) (kind : AttachmentKind) (file name mime : string) (size : Z) : TopicAttachment :=
  mkTopicAttachment (MThread m) (MID m) (senderID m) (MediaGroupID m) kind file name mime size (MCaption m) (replyToID m).

Definition attachmentOf (m : Message) : option TopicAttachment :=
  match MDocument m, Photo m, Voice m, Audio m, Video m with
  | Some d, _, _, _, _ => Some (attachment m AttachmentDocument (TFileID d) (TFileName d) (TMime d) (TFileSize d))
  | None, p :: ps, _, _, _ =>
    let best := foldl larger p ps in
    Some (attachment m AttachmentPhoto (PhFileID best) "" "image/jpeg" (PhFileSize best))
  | None, [], Some v, _, _ => Some (attachment m AttachmentVoice (TFileID v) "" (TMime v) (TFileSize v))
  | None, [], None, Some a, _ => Some (attachment m AttachmentAudio (TFileID a) (TFileName a) (TMime a) (TFileSize a))
  | None, [], None, None, Some v => Some (attachment m AttachmentVideo (TFileID v) (TFileName v) (TMime v) (TFileSize v))
  | None, [], None, None, None => None
  end.

Section Inbound.
Context {U : UnicodeTables} (error_string : error → string) (chatID botID : Z) (MaxTries : nat).
Local Notation prog := (prog gwE Gateway).
Local Notation translate := (translate error_string).

Definition skip : prog unit := Ret tt.
Definition emit (ev : Event) : prog unit := do _ ← ask (Offer ev); skip.

Definition stranger (from : option User) (threadID : Z) : prog unit :=
  match from with
  | None => skip
  | Some u =>
    if IsBot u || (UserID u =? botID) then skip
    else
      do now ← ask Now;
      do last ← gets (λ g, lastStranger g !! UserID u);
      let first := match last with None => true | Some t => strangerEvery <=? time_sub now t end in
      if first then
        do _ ← modify (meet_stranger (UserID u) now);
        let name := trim_space (FirstName u +:+ " " +:+ LastName u) in
        do _ ← ask (TryOffer (EvStrangerSeen (mkStrangerSeen (UserID u) name (Username u) threadID now)));
        skip
      else skip
  end.

Arguments stranger _ _ : simpl never.

(** *** The match functions *)

Definition matchOwnService (u : Update) : bool :=
  match UMessage u with
  | Some m =>
    match From m with
    | Some f =>
      negb (botID =? 0) && (UserID f =? botID) && (MChat m =? chatID) &&
      (match ForumTopicEdited m with Some _ => true | None => false end
       || ForumTopicClosed m || ForumTopicReopened m || PinnedMessage m)
    | None => false
    end
  | None => false
  end.

Definition matchCallback (u : Update) : bool :=
  match UCallbackQuery u with
  | Some q => match callbackMessage q with Some m => MChat m =? chatID | None => false end
  | None => false
  end.

Definition matchOurTopic (u : Update) : prog bool :=
  match UMessage u with
  | None => Ret false
  | Some m =>
    if negb (MChat m =? chatID) then Ret false
    else if isGeneral m then Ret false
    else
      do a ← gets gaccess;
      match role a (senderID m) with
      | RoleOperator => Ret true
      | RoleObserver => Ret false
      | RoleStranger => do _ ← stranger (From m) (MThread m); Ret false
      end
  end.

Definition matchGeneral (u : Update) : prog bool :=
  match UMessage u with
  | None => Ret false
  | Some m =>
    if negb (MChat m =? chatID) || negb (isGeneral m) then Ret false
    else
      do a ← gets gaccess;
      match role a (senderID m) with
      | RoleStranger => do _ ← stranger (From m) 0; Ret false
      | _ => Ret (has_prefix (MText m) "/")
      end
  end.

Definition matchMyChatMember (u : Update) : bool :=
  match MyChatMember u with Some cm => CMChat cm =? chatID | None => false end.

(** *** The handlers *)

Definition onTopicUpdate (m : Message) : prog unit :=
  let thread := MThread m in
  match ForumTopicEdited m with
  | Some name => if String.eqb name "" then skip else emit (EvTopicRenamed thread name)
  | None =>
    if ForumTopicClosed m then emit (EvTopicClosed thread)
    else if ForumTopicReopened m then emit (EvTopicReopened thread)
    else if negb (String.eqb (MText m) "")
    then emit (EvTopicMessage (mkTopicMessage thread (MID m) (senderID m) (MText m) (replyToID m)))
    else match attachmentOf m with Some at_ => emit (EvTopicAttachment at_) | None => skip end
  end.

Definition onCallback (q : CallbackQuery) (m : Message) : prog unit :=
  do a ← gets gaccess;
  match role a (UserID (QFrom q)) with
  | RoleOperator =>
    emit (EvButtonPressed (mkButtonPressed (QID q) (MThread m) (MID m) (UserID (QFrom q)) (QData q)))
  | r =>
    do _ ← match r with RoleObserver => skip | _ => stranger (Some (QFrom q)) (MThread m) end;
    do _ ← ask (Api (AnswerCallbackQuery (QID q) "not allowed"));
    skip
  end.

Definition onGeneral (m : Message) : prog unit :=
  do a ← gets gaccess;
  emit (EvGeneralCommand (mkGeneralCommand (MID m) (senderID m) (MText m) (role a (senderID m)))).

Definition onMyChatMember (cm : ChatMemberUpdated) : prog unit :=
  emit (EvRightsChanged (canManageTopics (NewChatMember cm))).

(** What [onOwnService] hands to a goroutine: the notice and the setting it
    arrived under. *)
Definition onOwnService (m : Message) : prog (option (Z * Z)) :=
  do setting ← gets noticeDelay; Ret (Some (MID m, setting)).

Definition deleteServiceMessage (messageID setting : Z) : prog unit :=
  if setting =? noticeKeep then skip
  else
    do waited ← (if 0 <? setting then ask (Sleep setting) else Ret true);
    if negb waited then skip
    else
      do r ← Do MaxTries (api_call error_string (DeleteChatMessage chatID messageID));
      match r with
      | Ok _ => skip
      | Err e => if is_foreign e CtxCanceled then skip else modify warn_delete
      end.

(** One update: the first match function that accepts it selects the handler;
    a handler reads what its match function has found to be there. *)
Definition quiet (p : prog unit) : prog (option (Z * Z)) := do _ ← p; Ret None.
Definition with_message (f : Message → prog (option (Z * Z))) (u : Update) : prog (option (Z * Z)) :=
  match UMessage u with Some m => f m | None => Ret None end.
Definition with_callback (f : CallbackQuery → Message → prog (option (Z * Z))) (u : Update) : prog (option (Z * Z)) :=
  match UCallbackQuery u with
  | Some q => match callbackMessage q with Some m => f q m | None => Ret None end
  | None => Ret None
  end.
Definition with_member (f : ChatMemberUpdated → prog (option (Z * Z))) (u : Update) : prog (option (Z * Z)) :=
  match MyChatMember u with Some cm => f cm | None => Ret None end.

Definition handlers : list ((Update → prog bool) * (Update → prog (option (Z * Z)))) :=
  [(λ u, Ret (matchOwnService u), with_message onOwnService);
   (λ u, Ret (matchCallback u), with_callback (λ q m, quiet (onCallback q m)));
   (matchOurTopic, with_message (λ m, quiet (onTopicUpdate m)));
   (matchGeneral, with_message (λ m, quiet (onGeneral m)));
   (λ u, Ret (matchMyChatMember u), with_member (λ cm, quiet (onMyChatMember cm)))].

Fixpoint first_match (hs : list ((Update → prog bool) * (Update → prog (option (Z * Z))))) (u : Update) : prog (option (Z * Z)) :=
  match hs with
  | [] => Ret None
  | (matches, run) :: hs =>
    do b ← matches u;
    if b then run u else first_match hs u
  end.
Definition process : Update → prog (option (Z * Z)) := first_match handlers.

(** ** Who is heard *)

(** What is offered to the application, each event with how it is offered. *)
Definition offered1 (e : event gwE) : option (Event * bool) :=
  match e with
  | Ev o _ => match o with Offer ev => Some (ev, true) | TryOffer ev => Some (ev, false) | _ => None end
  end.
Definition offered (h : list (event gwE)) : list (Event * bool) := omap offered1 h.
Arguments offered _ : simpl never.

Lemma offered_cons e h : offered (e :: h) = option_list (offered1 e) ++ offered h.
Proof. unfold offered. simpl. by destruct (offered1 e). Qed.

Definition in_topic (m : Message) : Prop := MChat m = chatID ∧ isGeneral m = false.

(** [ev] may be offered for the update [u] under the lists [a]. *)
Definition admitted (a : access) (u : Update) (x : Event * bool) : Prop :=
  match x with
  | (EvTopicMessage _, true) | (EvTopicAttachment _, true) | (EvTopicRenamed _ _, true)
  | (EvTopicClosed _, true) | (EvTopicReopened _, true) =>
    ∃ m, UMessage u = Some m ∧ in_topic m ∧ role a (senderID m) = RoleOperator
  | (EvButtonPressed b, true) =>
    ∃ q m, UCallbackQuery u = Some q ∧ QMessage q = Some m ∧ MChat m = chatID ∧
      role a (UserID (QFrom q)) = RoleOperator ∧ BtnFromID b = UserID (QFrom q) ∧ BtnData b = QData q
  | (EvGeneralCommand c, true) =>
    ∃ m, UMessage u = Some m ∧ MChat m = chatID ∧ isGeneral m = true ∧ has_prefix (MText m) "/" = true ∧
      GenRole c = role a (senderID m) ∧ GenRole c ≠ RoleStranger ∧ GenText c = MText m
  | (EvRightsChanged r, true) =>
    ∃ cm, MyChatMember u = Some cm ∧ CMChat cm = chatID ∧ r = canManageTopics (NewChatMember cm)
  | (EvStrangerSeen s, false) => role a (StrFromID s) = RoleStranger ∧ StrFromID s ≠ botID
  | _ => False
  end.

(** What a step of the processing keeps: the lists in force, and that all it
    offered is admitted. *)
Definition heard (a : access) (u : Update) (h : list (event gwE)) (w : world gwE Gateway) : Prop :=
  gaccess (st w) = a ∧ ∃ l, offered (trace w) = l ++ offered h ∧ Forall (admitted a u) l.

Lemma heard_told a u h w {B} (o : gwE B) b :
  heard a u h w → Forall (admitted a u) (option_list (offered1 (Ev o b))) → heard a u h (told o b w).
Proof.
  intros (Ha & l & E & Hl) Ho. split; [done|]. cbn. rewrite offered_cons, E, app_assoc.
  eexists. split; [done|]. by apply Forall_app.
Qed.

Lemma heard_put a u h w s : heard a u h w → gaccess s = gaccess (st w) → heard a u h (put s w).
Proof. intros (Ha & H) E. split; [cbn; by rewrite E|done]. Qed.

Context (legal : list (event gwE) → ∀ B, gwE B → B → Prop).

Lemma wp_emit a u h w ev :
  heard a u h w → admitted a u (ev, true) → wp legal (emit ev) w (λ _, heard a u h).
Proof. intros Hw Hev d _. apply heard_told; [done|]. by repeat constructor. Qed.

Lemma wp_stranger a u h w from thread :
  heard a u h w → (∀ f, from = Some f → role a (UserID f) = RoleStranger) →
  wp legal (stranger from thread) w (λ _, heard a u h).
Proof.
  intros Hw Hf. unfold stranger. destruct from as [f|]; [|done].
  destruct (IsBot f || (UserID f =? botID)) eqn:E; [done|]. apply orb_false_iff in E as [_ Hb%Z.eqb_neq].
  cbn. intros now _. destruct (match _ with None => true | Some t => _ end); cbn.
  - intros d _. apply heard_told; [|repeat constructor; cbn; [by apply Hf|done]].
    apply heard_put; [|done]. apply heard_put; [|done]. apply heard_told; [done|constructor].
  - apply heard_put; [|done]. apply heard_told; [done|constructor].
Qed.

Lemma wp_quiet a u h w p : wp legal p w (λ _, heard a u h) → wp legal (quiet p) w (λ _, heard a u h).
Proof. intros H. apply wp_bind. eapply wp_mono; [|exact H]. done. Qed.

Lemma wp_onTopicUpdate a u h w m :
  heard a u h w → UMessage u = Some m → in_topic m → role a (senderID m) = RoleOperator →
  wp legal (onTopicUpdate m) w (λ _, heard a u h).
Proof.
  intros Hw Hu Hm Hr. unfold onTopicUpdate.
  destruct (ForumTopicEdited m); [case_match; [done|apply wp_emit; [done|by exists m]]|].
  do 3 (case_match; [apply wp_emit; [done|by exists m]|]). case_match; [|done]. apply wp_emit; [done|by exists m].
Qed.

Lemma wp_matchOurTopic a u h w :
  heard a u h w →
  wp legal (matchOurTopic u) w (λ b w, heard a u h w ∧
    (b = true → ∃ m, UMessage u = Some m ∧ in_topic m ∧ role a (senderID m) = RoleOperator)).
Proof.
  intros Hw. unfold matchOurTopic. destruct (UMessage u) as [m|] eqn:Hu; [|by split].
  destruct (Z.eqb_spec (MChat m) chatID) as [Hc|]; [|by split]. simpl.
  destruct (isGeneral m) eqn:Hg; [by split|]. cbn. pose proof (proj1 Hw) as Ha.
  assert (Hp : heard a u h (put (st w) w)) by by apply heard_put.
  rewrite Ha. destruct (role a (senderID m)) eqn:Hr; cbn.
  - apply wp_bind. eapply wp_mono; [|apply (wp_stranger a u h)]; [done|done|].
    intros f Hf. unfold senderID in Hr. by rewrite Hf in Hr.
  - by split.
  - split; [done|]. intros _. by exists m.
Qed.

Lemma wp_matchGeneral a u h w :
  heard a u h w →
  wp legal (matchGeneral u) w (λ b w, heard a u h w ∧
    (b = true → ∃ m, UMessage u = Some m ∧ MChat m = chatID ∧ isGeneral m = true ∧
       has_prefix (MText m) "/" = true ∧ role a (senderID m) ≠ RoleStranger)).
Proof.
  intros Hw. unfold matchGeneral. destruct (UMessage u) as [m|] eqn:Hu; [|by split].
  destruct (Z.eqb_spec (MChat m) chatID) as [Hc|]; [|by split]. simpl.
  destruct (isGeneral m) eqn:Hg; [|by split]. cbn. pose proof (proj1 Hw) as Ha.
  assert (Hp : heard a u h (put (st w) w)) by by apply heard_put.
  rewrite Ha. destruct (role a (senderID m)) eqn:Hr; cbn.
  - apply wp_bind. eapply wp_mono; [|apply (wp_stranger a u h)]; [done|done|].
    intros f Hf. unfold senderID in Hr. by rewrite Hf in Hr.
  - split; [done|]. intros Hpre. exists m. by rewrite Hr.
  - split; [done|]. intros Hpre. exists m. by rewrite Hr.
Qed.

Lemma wp_onCallback a u h w q m :
  heard a u h w → UCallbackQuery u = Some q → QMessage q = Some m → MChat m = chatID →
  wp legal (onCallback q m) w (λ _, heard a u h).
Proof.
  intros Hw Hq Hm Hc. unfold onCallback. cbn. pose proof (proj1 Hw) as Ha.
  assert (Hp : heard a u h (put (st w) w)) by by apply heard_put.
  rewrite Ha. destruct (role a (UserID (QFrom q))) eqn:Hr.
  - apply wp_bind. eapply wp_mono; [|apply (wp_stranger a u h); [done|by intros f [= <-]]].
    intros [] w' Hw' r _. apply heard_told; [done|constructor].
  - cbn. intros r _. apply heard_told; [done|constructor].
  - apply wp_emit; [done|]. by exists q, m.
Qed.

Lemma wp_process u w :
  wp legal (process u) w (λ _ w', heard (gaccess (st w)) u (trace w) w').
Proof.
  set (a := gaccess (st w)). set (h := trace w).
  assert (Hw : heard a u h w) by (split; [done|]; exists []; split; [done|constructor]).
  clearbody a h. unfold process, handlers. cbn [first_match].
  cbn [bind]. destruct (matchOwnService u).
  { unfold with_message. destruct (UMessage u); [|done]. cbn. by apply heard_put. }
  cbn [bind]. destruct (matchCallback u) eqn:Ec.
  { unfold matchCallback, with_callback in *. destruct (UCallbackQuery u) as [q|] eqn:Hq; [|done].
    destruct (callbackMessage q) as [m|] eqn:Hm; [|done]. apply Z.eqb_eq in Ec.
    by apply wp_quiet, wp_onCallback. }
  apply wp_bind. eapply wp_mono; [|apply wp_matchOurTopic, Hw]. intros [|] w1 [Hw1 Ht].
  { destruct (Ht eq_refl) as (m & Hu & Hm & Hr). unfold with_message. rewrite Hu.
    by apply wp_quiet, wp_onTopicUpdate. }
  apply wp_bind. eapply wp_mono; [|apply wp_matchGeneral, Hw1]. intros [|] w2 [Hw2 Hg].
  { destruct (Hg eq_refl) as (m & Hu & Hc & Hgen & Hpre & Hr). unfold with_message. rewrite Hu.
    apply wp_quiet. unfold onGeneral. cbn [bind gets wp]. apply wp_emit; [by apply heard_put|].
    exists m. cbn. rewrite (proj1 Hw2). by split_and!. }
  cbn [bind]. destruct (matchMyChatMember u) eqn:Em; [|done].
  unfold matchMyChatMember, with_member in *. destruct (MyChatMember u) as [cm|] eqn:Hcm; [|done].
  apply Z.eqb_eq in Em. apply wp_quiet, wp_emit; [done|]. by exists cm.
Qed.

(** C32: whatever Telegram delivers, the application hears of messages,
    files, topic changes and buttons only from operators, of commands in
    General only from operators and observers with their true role, all in the
    one group; of anybody else it hears at most that there was a stranger. *)
Theorem only_allowed_heard u w r w' :
  exec legal (process u) w r w' →
  ∃ l, offered (trace w') = l ++ offered (trace w) ∧ Forall (admitted (gaccess (st w)) u) l.
Proof. intros He. exact (proj2 (wp_exec He (wp_process u w))). Qed.
End Inbound.

Definition sample_message (from : Z) (text : string) : Message :=
  mkMessage 9 (-100) 7 true (Some (mkUser from false "Ann" "" "ann")) text None false false false None "" ""
    None [] None None None.
Definition sample_update (from : Z) (text : string) : Update := mkUpdate (Some (sample_message from text)) None None.

Lemma only_allowed_heard_witness :
  let run := interp sample_oracle (process (-100) 5 (sample_update 1 "go on")) sample_world in
  offered (trace run.2) = [(EvTopicMessage (mkTopicMessage 7 9 1 "go on" 0), true)] ∧
  ∃ l, offered (trace run.2) = l ++ offered (trace sample_world) ∧
    Forall (admitted (-100) 5 (gaccess (st sample_world)) (sample_update 1 "go on")) l.
Proof.
  split; [vm_compute; reflexivity|].
  refine (only_allowed_heard (-100) 5 anything (sample_update 1 "go on") sample_world _ _ _).
  apply interp_exec. done.
Defined.

(** A stranger is reported, and not again within ten minutes. *)
Example stranger_once :
  let orc := sample_oracle in
  let w1 := (interp orc (process (-100) 5 (sample_update 3 "hi")) sample_world).2 in
  let w2 := (interp orc (process (-100) 5 (sample_update 3 "hi")) w1).2 in
  offered (trace w1) = [(EvStrangerSeen (mkStrangerSeen 3 "Ann" "ann" 7 0), false)] ∧ offered (trace w2) = offered (trace w1).
Proof. vm_compute. done. Qed.
