(* ===== verification/Setup.v ===== *)
(** internal/app/setup.go and internal/adapters/telegram/discovery.go: the
    setup wizard and the probe that finds the group for it.

    The probe is a goroutine of its own; it handles one update of the Bot API
    after the other and puts candidates into a channel the wizard reads.  The
    two share only that channel, so an update is handled in one step between
    two steps of the wizard.  The wizard waits on a [select]: a run is given
    the list of what wakes it, and the error of the context that ends it. *)
From S2P Require Import Prelude GoStrings Errors Config OptionRegistry TgErrors Eff Gateway TgInbound.

Local Open Scope Z_scope.

(** ** The probe *)

Definition setupRequestID : Z := 1.
Definition setupChooseButton : string := "Choose group".

(** A button that asks the user for a group, with the rights asked for him and
    for the bot: topics, messages to delete, messages to pin, new members'
    promotion. *)
Record ChatRights := mkChatRights { ManageTopics : bool; DeleteMessages : bool; PinMessages : bool; PromoteMembers : bool }.
Record RequestChat := mkRequestChat {
  RCText : string; RCRequestID : Z; RCChannel : bool; RCForum : bool; RCUserRights : ChatRights; RCBotRights : ChatRights; RCTitle : bool
}.
Inductive setup_markup := ReplyKeyboard (button : RequestChat) | RemoveKeyboard.

Definition chooseGroupKeyboard : setup_markup :=
  ReplyKeyboard (mkRequestChat setupChooseButton setupRequestID false true
    (mkChatRights true true true true) (mkChatRights true true true false) true).

(** The message of a [chat_shared] reply, and what the probe reads of an
    update: a message of a private chat, or a change of the bot's membership. *)
Record ChatShared := mkChatShared { RequestID : Z; SharedChat : Z; SharedTitle : string }.
Record PrivateMessage := mkPrivate { PrivateChat : Z; PrivateFrom : User; Shared : option ChatShared }.
Record SetupUpdate := mkSetupUpdate { Membership : option ChatMemberUpdated; Private : option PrivateMessage }.
(** What [getChat] tells: the title and whether it is a forum. *)
Record ChatInfo := mkChatInfo { InfoTitle : string; InfoForum : bool }.

(** The ports of the wizard and of the probe. *)
Inductive setupE : Type → Type :=
  | StLoad : setupE (result Config)
  | StSave (c : Config) : setupE (option error)
  | StPrint (text : string) : setupE unit
  | StAskSecret (prompt : string) : setupE (result string)
  | StConfirm (prompt : string) : setupE (result bool)
  | StChoose (prompt : string) (options : list string) : setupE (result Z)
  | StOpenLink (url : string) : setupE (option error)
  | StNow : setupE Time
  | StClient (token : string) : setupE (option error)              (* the client of a token; no call *)
  | StGetMe (token : string) : setupE (result BotIdentity)
  | StDeleteWebhook : setupE (option error)
  | StGetChat (chat : Z) : setupE (result ChatInfo)
  | StGetChatMember (chat user : Z) : setupE (result ChatMember)
  | StReply (chat : Z) (text : string) (markup : setup_markup) : setupE (option error)
  | StOffer (c : GroupCandidate) : setupE bool.                    (* false: the context ended first *)

(** [botID], [seen] and the channel [out], by what is in it. *)
Record Probe := mkProbe { botID : Z; seen : gset Z; out : list GroupCandidate; polling : bool }.
Definition newProbe : Probe := mkProbe 0 ∅ [] false.

Definition identified (id : Z) (p : Probe) : Probe := mkProbe id (seen p) (out p) (polling p).
Definition see (chat : Z) (p : Probe) : Probe := mkProbe (botID p) ({[chat]} ∪ seen p) (out p) (polling p).
Definition push (c : GroupCandidate) (p : Probe) : Probe := mkProbe (botID p) (seen p) (out p ++ [c]) (polling p).
Definition set_out (l : list GroupCandidate) (p : Probe) : Probe := mkProbe (botID p) (seen p) l (polling p).
Definition start_polling (p : Probe) : Probe := mkProbe (botID p) (seen p) (out p) true.

Local Open Scope eff_scope.

Section Setup.
Context {U : UnicodeTables} (error_string : error → string).
Local Notation prog := (prog setupE Probe).
Local Notation translate := (translate error_string).

Definition ask {B} (o : setupE B) : prog B := call o.
Definition look {B} (f : Probe → B) : prog B := gets f.

Definition Identity (token : string) : prog (result BotIdentity) :=
  do r ← ask (StGetMe token);
  match r with
  | Err e => Ret (Err (Errorf "getMe: %w" [] [translate e]))
  | Ok me =>
    do e ← ask StDeleteWebhook;
    match e with
    | Some e => Ret (Err (Errorf "deleteWebhook: %w" [] [translate e]))
    | None => do _ ← modify (identified (BotID me)); Ret (Ok me)
    end
  end.

Definition Candidates : prog (option error) :=
  do p ← look polling;
  if p then fail (Opaque "setup probe already polling") else do _ ← modify start_polling; nil_.

(** Once per chat. *)
Definition report (c : GroupCandidate) : prog unit :=
  do dup ← look (λ p : Probe, bool_decide (CandChatID c ∈ seen p));
  do _ ← modify (see (CandChatID c));
  if dup then Ret tt
  else
    do b ← ask (StOffer c);
    if b then modify (push c) else Ret tt.

Definition reply (chat : Z) (text : string) (markup : setup_markup) : prog unit := do _ ← ask (StReply chat text markup); Ret tt.

Definition manage : string := dquote +:+ "Manage topics" +:+ dquote.

Definition onChatShared (m : PrivateMessage) (shared : ChatShared) : prog unit :=
  if negb (RequestID shared =? setupRequestID) then Ret tt
  else
    do r ← ask (StGetChat (SharedChat shared));
    match r with
    | Err _ => reply (PrivateChat m) "I cannot see that group. Add me to it first, then choose it again." chooseGroupKeyboard
    | Ok chat =>
      let title := if String.eqb (InfoTitle chat) "" then SharedTitle shared else InfoTitle chat in
      if negb (InfoForum chat)
      then reply (PrivateChat m) (quote title +:+ " has Topics disabled. Enable Topics in the group settings and choose it again.") chooseGroupKeyboard
      else
        do id ← look botID;
        do r ← ask (StGetChatMember (SharedChat shared) id);
        match r with
        | Err _ => reply (PrivateChat m) ("I could not check my rights there. Add me to the group as an administrator with " +:+ manage +:+ " and choose it again.") chooseGroupKeyboard
        | Ok member =>
          if negb (canManageTopics member)
          then reply (PrivateChat m) ("I am in " +:+ quote title +:+ " but without the " +:+ manage +:+ " right. Grant it in the group's administrators list and choose the group again.") chooseGroupKeyboard
          else
            do _ ← reply (PrivateChat m) ("Connected to " +:+ quote title +:+ ". Go back to the Herdr terminal to confirm.") RemoveKeyboard;
            report (mkGroupCandidate (SharedChat shared) title (UserID (PrivateFrom m)) (Username (PrivateFrom m)))
        end
    end.

Definition onPrivate (m : PrivateMessage) : prog unit :=
  match Shared m with
  | Some shared => onChatShared m shared
  | None => reply (PrivateChat m) ("Choose the forum group to mirror Herdr agents into. Telegram will add me there as an administrator with the " +:+ manage +:+ " right.") chooseGroupKeyboard
  end.

(** A change of the membership; the flag of the update is confirmed with
    [getChat] when it is absent. *)
Definition report_member (cm : ChatMemberUpdated) (title : string) : prog unit :=
  report (mkGroupCandidate (CMChat cm) title (UserID (CMFrom cm)) (Username (CMFrom cm))).
Definition onMember (cm : ChatMemberUpdated) : prog unit :=
  if negb (canManageTopics (NewChatMember cm)) then Ret tt
  else if CMIsForum cm then report_member cm (CMTitle cm)
  else
    do r ← ask (StGetChat (CMChat cm));
    match r with
    | Err _ => Ret tt
    | Ok full =>
      if negb (InfoForum full) then Ret tt
      else report_member cm (if String.eqb (InfoTitle full) "" then CMTitle cm else InfoTitle full)
    end.

(** The first handler that matches. *)
Definition probe_update (u : SetupUpdate) : prog unit :=
  match Membership u, Private u with
  | Some cm, _ => onMember cm
  | None, Some m => onPrivate m
  | None, None => Ret tt
  end.

(** ** The wizard *)

Definition setupWait : Duration := 10 * Minute.
Definition setupSiblingWait : Duration := 3 * Second.
Definition setupTokenTries : nat := 3.

Definition print (text : string) : prog unit := do _ ← ask (StPrint text); Ret tt.

Definition describeUser (c : GroupCandidate) : string :=
  if String.eqb (CandFromUsername c) "" then "id " +:+ itoa (CandFromID c)
  else "@" +:+ CandFromUsername c +:+ " (id " +:+ itoa (CandFromID c) +:+ ")".

(** [tries] attempts are left. *)
Fixpoint ask_token (tries : nat) : prog (result (string * BotIdentity)) :=
  match tries with
  | O => Ret (Err (Errorf "%w: too many rejected tokens" [] [Foreign ErrSetupCancelled]))
  | S tries =>
    do r ← ask (StAskSecret "Bot token from @BotFather");
    match r with
    | Err e => Ret (Err e)
    | Ok answer =>
      let token := trim_space answer in
      if String.eqb token "" then do _ ← print "The token is empty."; ask_token tries
      else
        do e ← ask (StClient token);
        match e with
        | Some e => Ret (Err (Errorf "telegram client: %w" [] [e]))
        | None =>
          do r ← Identity token;
          match r with
          | Ok identity => Ret (Ok (token, identity))
          | Err e =>
            if errors_is e ErrBotUnauthorized
            then do _ ← print "Telegram rejected this token. Check it in @BotFather and try again."; ask_token tries
            else Ret (Err (Errorf "identity: %w" [] [e]))
          end
        end
    end
  end.
Definition askToken : prog (result (string * BotIdentity)) := ask_token setupTokenTries.

Definition cancelled : result GroupCandidate := Err (Foreign ErrSetupCancelled).

Definition option_line (c : GroupCandidate) : string :=
  quote (CandTitle c) +:+ " (chat " +:+ itoa (CandChatID c) +:+ "), operator " +:+ describeUser c.
Definition save_prompt (c : GroupCandidate) : string :=
  "Group " +:+ quote (CandTitle c) +:+ ", operator " +:+ describeUser c +:+ ". Save? [y/N]".
Definition choose_prompt : string := "Several groups were chosen. Which one should be mirrored?".

Definition choose (found : list GroupCandidate) : prog (result GroupCandidate) :=
  match found with
  | [c] =>
    do r ← ask (StConfirm (save_prompt c));
    Ret (match r with Err e => Err e | Ok true => Ok c | Ok false => cancelled end)
  | _ =>
    do r ← ask (StChoose choose_prompt (map option_line found));
    Ret (match r with
         | Err e => Err e
         | Ok idx => if (idx <? 0) || (Z.of_nat (length found) <=? idx) then cancelled
                     else match found !! Z.to_nat idx with Some c => Ok c | None => cancelled end
         end)
  end.

(** What the [select] of the wait may see, and what happens meanwhile in the
    probe: an update, the end of the polling, the two timers. *)
Inductive setup_wake :=
  | WUpdate (u : SetupUpdate) | WCandidate | WClosed | WHint | WSiblings.

Definition seen_line (c : GroupCandidate) : string :=
  "Seen: " +:+ quote (CandTitle c) +:+ " (chat " +:+ itoa (CandChatID c) +:+ "), chosen by " +:+ describeUser c +:+ ".".

(** [found], and whether the hint is still to come; the timer of the siblings
    runs from the first candidate.  A wake that cannot happen is passed over.
    The polling ends only after the candidates in the channel are taken. *)
Fixpoint wait (wakes : list setup_wake) (ctx_err : error) (found : list GroupCandidate) (hint : bool) : prog (result GroupCandidate) :=
  match wakes with
  | [] => Ret (Err ctx_err)
  | WUpdate u :: wakes => do _ ← probe_update u; wait wakes ctx_err found hint
  | WCandidate :: wakes =>
    do o ← look out;
    match o with
    | [] => wait wakes ctx_err found hint
    | c :: o =>
      do _ ← modify (set_out o);
      do _ ← print (seen_line c);
      wait wakes ctx_err (found ++ [c]) hint
    end
  | WClosed :: wakes =>
    do o ← look out;
    match o with
    | [] => Ret (Err (Errorf "telegram updates stopped: %w" [] [Foreign ErrSetupCancelled]))
    | _ => wait wakes ctx_err found hint
    end
  | WHint :: wakes =>
    if hint
    then
      do _ ← print ("Nothing seen yet. Open the link above and choose a group; if the bot was added by hand earlier, grant it the " +:+ manage +:+ " right again.");
      wait wakes ctx_err found false
    else wait wakes ctx_err found hint
  | WSiblings :: wakes =>
    match found with
    | [] => wait wakes ctx_err found hint
    | _ => choose found
    end
  end.

Definition pickCandidate (wakes : list setup_wake) (ctx_err : error) : prog (result GroupCandidate) :=
  do e ← Candidates;
  match e with
  | Some e => Ret (Err (Errorf "watch updates: %w" [] [e]))
  | None => wait wakes ctx_err [] true
  end.

(** The configuration and whether a new one was saved. *)
Definition no_config : Config := mkConfig 0 "" "" 0 "" [] [] "" time_zero.
Definition configured (existing : Config) (token : string) (identity : BotIdentity) (c : GroupCandidate) (now : Time) : Config :=
  mkConfig ConfigVersion token (IdentityUsername identity) (CandChatID c) (CandTitle c) [CandFromID c] [] (LogLevel existing) now.

Definition ids_text (ids : list Z) : string := "[" +:+ join (map itoa ids) " " +:+ "]".

Definition configure (existing : Config) (wakes : list setup_wake) (ctx_err : error) : prog (result (Config * bool)) :=
  do r ← askToken;
  match r with
  | Err e => Ret (Err e)
  | Ok (token, identity) =>
    do _ ← print ("Token accepted: @" +:+ IdentityUsername identity +:+ ".");
    let link := SetupLink (IdentityUsername identity) in
    do _ ← ask (StOpenLink link);
    do _ ← print ("Open " +:+ link +:+ " in Telegram, press Start and tap " +:+ dquote +:+ "Choose group" +:+ dquote +:+ ".");
    do _ ← print ("Telegram adds the bot to the group you pick as an administrator with the " +:+ manage +:+ " and " +:+ dquote +:+ "Delete messages" +:+ dquote +:+ " rights.");
    do _ ← print "Adding the bot to a forum group by hand with that right works too. Waiting...";
    do r ← pickCandidate wakes ctx_err;
    match r with
    | Err e => Ret (Err e)
    | Ok candidate =>
      do now ← ask StNow;
      let cfg := configured existing token identity candidate now in
      do e ← ask (StSave cfg);
      match e with
      | Some e => Ret (Err (Errorf "save config: %w" [] [e]))
      | None =>
        do _ ← print ("Saved: group " +:+ quote (ChatTitle cfg) +:+ " (chat " +:+ itoa (ChatID cfg) +:+ "), operator " +:+ describeUser candidate +:+ ".");
        Ret (Ok (cfg, true))
      end
    end
  end.

(** [Load] answers a configuration beside an [ErrNotConfigured] as well: the
    stores give the empty one. *)
Definition RunSetup (wakes : list setup_wake) (ctx_err : error) : prog (result (Config * bool)) :=
  do r ← ask StLoad;
  match r with
  | Ok existing =>
    do _ ← print ("Currently configured: group " +:+ quote (ChatTitle existing) +:+ " (chat " +:+ itoa (ChatID existing) +:+ "), operator ids " +:+ ids_text (OperatorIDs existing) +:+ ".");
    do r ← ask (StConfirm "Reconfigure with a new token and group? [y/N]");
    match r with
    | Err e => Ret (Err e)
    | Ok false => do _ ← print "Keeping the current configuration."; Ret (Ok (existing, false))
    | Ok true => configure existing wakes ctx_err
    end
  | Err e =>
    if errors_is e ErrNotConfigured then configure no_config wakes ctx_err
    else Ret (Err (Errorf "load config: %w" [] [e]))
  end.
End Setup.

(** * What the wizard saves *)
Section Saved.
Context {U : UnicodeTables} (error_string : error → string) (wakes0 : list setup_wake).
Local Notation prog := (prog setupE Probe).
Local Notation world := (world setupE Probe).
Local Abbreviation wpa := (wp anything).

(** Telegram said that a chat is a forum. *)
Definition forum_seen (chat : Z) (h : list (event setupE)) : Prop :=
  ∃ info, Ev (StGetChat chat) (Ok info) ∈ h ∧ InfoForum info = true.

(** The operator chose the group in the private chat, and it is a forum where
    the bot may manage topics. *)
Definition chosen (bot : Z) (h : list (event setupE)) (c : GroupCandidate) : Prop :=
  ∃ u m shared member, WUpdate u ∈ wakes0 ∧ Private u = Some m ∧ Shared m = Some shared ∧ RequestID shared = setupRequestID ∧
    SharedChat shared = CandChatID c ∧ UserID (PrivateFrom m) = CandFromID c ∧ forum_seen (CandChatID c) h ∧
    Ev (StGetChatMember (CandChatID c) bot) (Ok member) ∈ h ∧ canManageTopics member = true.
(** Somebody gave the bot the right to manage topics in a forum. *)
Definition promoted (h : list (event setupE)) (c : GroupCandidate) : Prop :=
  ∃ u cm, WUpdate u ∈ wakes0 ∧ Membership u = Some cm ∧ CMChat cm = CandChatID c ∧ UserID (CMFrom cm) = CandFromID c ∧
    canManageTopics (NewChatMember cm) = true ∧ (CMIsForum cm = true ∨ forum_seen (CandChatID c) h).
Definition vouched (bot : Z) (h : list (event setupE)) (c : GroupCandidate) : Prop := chosen bot h c ∨ promoted h c.

(** The user said yes to this candidate, or picked it. *)
Definition confirmed (h : list (event setupE)) (c : GroupCandidate) : Prop :=
  Ev (StConfirm (save_prompt c)) (Ok true) ∈ h ∨
  ∃ found idx, Ev (StChoose choose_prompt (map option_line found)) (Ok idx) ∈ h ∧ 0 ≤ idx ∧ found !! Z.to_nat idx = Some c.

(** Telegram accepted the token. *)
Definition token_accepted (token : string) (me : BotIdentity) (h : list (event setupE)) : Prop :=
  token ≠ "" ∧ Ev (StGetMe token) (Ok me) ∈ h ∧ Ev StDeleteWebhook None ∈ h.

Definition justified (h : list (event setupE)) (cfg : Config) : Prop :=
  ∃ token me c, token_accepted token me h ∧ vouched (BotID me) h c ∧ confirmed h c ∧
    Version cfg = ConfigVersion ∧ BotToken cfg = token ∧ BotUsername cfg = IdentityUsername me ∧
    ChatID cfg = CandChatID c ∧ ChatTitle cfg = CandTitle c ∧ OperatorIDs cfg = [CandFromID c] ∧ ObserverIDs cfg = [].

(** Nothing was saved yet. *)
Definition unsaved (h : list (event setupE)) : Prop := ∀ cfg e, Ev (StSave cfg) e ∉ h.

Lemma unsaved_told {B} (o : setupE B) b (w : world) :
  match o with StSave _ => False | _ => True end → unsaved (trace w) → unsaved (trace (told o b w)).
Proof. intros Ho Hw cfg e [H|H]%elem_of_cons; [|by apply Hw in H]. destruct o; simplify_eq; done. Qed.

(** What is found keeps its witnesses while the trace grows. *)
Lemma forum_seen_mono chat h h' : h ⊆ h' → forum_seen chat h → forum_seen chat h'.
Proof. intros Hs (info & H1 & H2). exists info. auto. Qed.
Lemma vouched_mono bot h h' c : h ⊆ h' → vouched bot h c → vouched bot h' c.
Proof.
  intros Hs [(u & m & sh & mb & H1 & H2 & H3 & H4 & H5 & H6 & H7 & H8 & H9)|(u & cm & H1 & H2 & H3 & H4 & H5 & H6)]; [left|right].
  - exists u, m, sh, mb. repeat (split; [done|]). split; [by eapply forum_seen_mono|]. auto.
  - exists u, cm. repeat (split; [done|]). destruct H6 as [?|H6]; [by left|]. right. by eapply forum_seen_mono.
Qed.
Lemma confirmed_mono h h' c : h ⊆ h' → confirmed h c → confirmed h' c.
Proof. intros Hs [H|(f & i & H & H')]; [left|right; exists f, i]; auto. Qed.
Lemma token_accepted_mono token me h h' : h ⊆ h' → token_accepted token me h → token_accepted token me h'.
Proof. intros Hs (H1 & H2 & H3). by repeat split; auto. Qed.

Lemma told_sub {B} (o : setupE B) b (w : world) : trace w ⊆ trace (told o b w).
Proof. intros x H. by right. Qed.

(** The probe of the bot [bot] has reported vouched candidates only. *)
Definition probing (bot : Z) (w : world) : Prop :=
  botID (st w) = bot ∧ Forall (vouched bot (trace w)) (out (st w)) ∧ unsaved (trace w).

Lemma probing_told {B} bot (o : setupE B) b w :
  match o with StSave _ => False | _ => True end → probing bot w → probing bot (told o b w).
Proof.
  intros Ho (H1 & H2 & H3). split; [done|]. split; [|by apply unsaved_told].
  eapply Forall_impl; [exact H2|]. intros c. apply vouched_mono, told_sub.
Qed.

(** From [w] on: what was reported before stays in the trace. *)
Definition probed (bot : Z) (w w' : world) : Prop := probing bot w' ∧ trace w ⊆ trace w'.

Lemma wp_report bot c w : probing bot w → vouched bot (trace w) c →
  wpa (report c) w (λ _ w', probed bot w w').
Proof.
  intros Hw Hc. unfold report, look. apply wp_look, wp_update. set (w1 := put _ w).
  assert (Hw1 : probing bot w1) by exact Hw. destruct (bool_decide _); [by split|].
  apply wp_ask. intros [] _; [|split; [by apply probing_told|exact (told_sub (StOffer c) false w1)]].
  destruct (probing_told bot (StOffer c) true w1 I Hw1) as (H1 & H2 & H3). split; [|exact (told_sub (StOffer c) true w1)].
  split; [done|]. split; [|done]. apply Forall_app. split; [done|]. constructor; [|done]. eapply vouched_mono; [|exact Hc]. exact (told_sub (StOffer c) true w1).
Qed.

Lemma wp_reply bot chat text mk w : probing bot w → wpa (reply chat text mk) w (λ _ w', probed bot w w').
Proof. intros Hw. apply wp_ask. intros e _. split; [by apply probing_told|apply told_sub]. Qed.

Lemma probed_after {B} bot (o : setupE B) b w w' : probed bot (told o b w) w' → probed bot w w'.
Proof. intros [H1 H2]. split; [done|]. intros x Hx. apply H2. by right. Qed.

(** Candidates the handlers report are vouched for by what was asked since. *)
Lemma wp_probe_update bot u w : WUpdate u ∈ wakes0 → probing bot w →
  wpa (probe_update u) w (λ _ w', probed bot w w').
Proof.
  intros Hu Hw. unfold probe_update. destruct (Membership u) as [cm|] eqn:Hm.
  - unfold onMember. destruct (canManageTopics _) eqn:Hc; cbn [negb]; [|by split].
    destruct (CMIsForum cm) eqn:Hf.
    + apply wp_report; [done|]. right. exists u, cm. by auto 10.
    + apply wp_ask. intros [full|e] _; [|split; [by apply probing_told|apply told_sub]].
      destruct (InfoForum full) eqn:Hforum; cbn [negb]; [|split; [by apply probing_told|apply told_sub]].
      eapply wp_mono; [intros a w'; apply (probed_after bot (StGetChat (CMChat cm)) (Ok full))|].
      apply wp_report; [by apply probing_told|]. right. exists u, cm. repeat (split; [done|]). right. exists full. split; [by left|done].
  - destruct (Private u) as [m|] eqn:Hp; [|by split]. unfold onPrivate. destruct (Shared m) as [sh|] eqn:Hs; [|by apply wp_reply].
    unfold onChatShared. destruct (Z.eqb_spec (RequestID sh) setupRequestID) as [Hreq|_]; cbn [negb]; [|by split].
    apply wp_ask. intros r _. eapply wp_mono; [intros a w'; apply (probed_after bot (StGetChat (SharedChat sh)) r)|].
    destruct r as [info|e]; [|by apply wp_reply, probing_told].
    set (w1 := told _ _ w). assert (Hw1 : probing bot w1) by by apply probing_told.
    destruct (InfoForum info) eqn:Hforum; cbn [negb]; [|by apply wp_reply].
    unfold look. apply wp_look. replace (botID (st w1)) with bot by (symmetry; apply Hw1).
    apply wp_ask. intros r _. eapply wp_mono; [intros a w'; apply (probed_after bot (StGetChatMember (SharedChat sh) bot) r)|].
    destruct r as [mb|e]; [|by apply wp_reply, probing_told].
    set (w2 := told _ _ w1). assert (Hw2 : probing bot w2) by by apply probing_told.
    destruct (canManageTopics mb) eqn:Hmb; cbn [negb]; [|by apply wp_reply].
    apply wp_bind. eapply wp_mono; [|by apply wp_reply]. intros _ w3 [Hw3 Hsub].
    eapply wp_mono; [|apply wp_report; [done|]].
    + intros a w' [H1 H2]. split; [done|]. intros x Hx. by apply H2, Hsub.
    + left. exists u, m, sh, mb. repeat (split; [done|]). split; [|split; [|done]].
      * exists info. split; [|done]. apply Hsub. cbn. by right; left.
      * apply Hsub. by left.
Qed.

(** The wait ends with a candidate somebody vouched for and the user confirmed. *)
Definition picked (bot : Z) (r : result GroupCandidate) (w : world) : Prop :=
  unsaved (trace w) ∧ match r with Ok c => vouched bot (trace w) c ∧ confirmed (trace w) c | Err _ => True end.

Lemma picked_err bot e w : probing bot w → picked bot (Err e) w.
Proof. intros Hw. split; [apply Hw|done]. Qed.

Lemma wp_choose bot found w : probing bot w → Forall (vouched bot (trace w)) found →
  wpa (choose found) w (picked bot).
Proof.
  intros Hw Hf. assert (Hin : ∀ B (o : setupE B) b c, c ∈ found → vouched bot (trace (told o b w)) c).
  { intros B o b c Hc. eapply vouched_mono; [apply told_sub|]. by eapply Forall_forall in Hf. }
  assert (Hmany : wpa (do r ← ask (StChoose choose_prompt (map option_line found));
      Ret (match r with Err e => Err e | Ok idx => if (idx <? 0) || (Z.of_nat (length found) <=? idx) then cancelled
           else match found !! Z.to_nat idx with Some c => Ok c | None => cancelled end end)) w (picked bot)).
  { apply wp_ask. intros [idx|e] _; [|by apply picked_err, probing_told]. cbn [wp].
    destruct (_ || _) eqn:Hidx; [by apply picked_err, probing_told|]. apply orb_false_iff in Hidx as [H1%Z.ltb_ge H2].
    destruct (found !! Z.to_nat idx) as [c|] eqn:Hc; [|by apply picked_err, probing_told].
    split; [by apply unsaved_told, Hw|]. split; [by apply Hin; eapply list_elem_of_lookup_2|].
    right. exists found, idx. split; [by left|done]. }
  unfold choose. destruct found as [|c [|c' l]]; [exact Hmany| |exact Hmany].
  apply wp_ask. intros [[]|e] _; [|by apply picked_err, probing_told..].
  split; [by apply unsaved_told, Hw|]. split; [by apply Hin; left|]. left. by left.
Qed.

Lemma wp_wait bot wakes e found hint w : wakes ⊆ wakes0 → probing bot w → Forall (vouched bot (trace w)) found →
  wpa (wait wakes e found hint) w (picked bot).
Proof.
  revert found hint w. induction wakes as [|k wakes IH]; intros found hint w Hs Hw Hf; [by apply picked_err|].
  assert (Hs' : wakes ⊆ wakes0) by (intros x Hx; apply Hs; by right).
  destruct k as [u| | | |]; cbn [wait].
  - apply wp_bind. eapply wp_mono; [|apply wp_probe_update; [apply Hs; by left|done]]. intros _ w1 [Hw1 Hsub].
    apply IH; [done..|]. eapply Forall_impl; [exact Hf|]. intros c. by apply vouched_mono.
  - unfold look. apply wp_look. destruct (out (st w)) as [|c o] eqn:Ho; [by apply IH|].
    destruct Hw as (H1 & H2 & H3). rewrite Ho in H2. apply Forall_cons in H2 as [Hc H2].
    apply wp_update, wp_bind, wp_ask. intros [] _.
    set (w1 := put (set_out o (st w)) w). assert (Hw1 : probing bot w1) by done.
    apply IH; [done|by apply probing_told|]. apply Forall_app. split; [|constructor; [|done]].
    + eapply Forall_impl; [exact Hf|]. intros x. apply vouched_mono, (told_sub _ _ w1).
    + eapply vouched_mono; [|exact Hc]. apply (told_sub _ _ w1).
  - unfold look. apply wp_look. destruct (out (st w)) as [|c o] eqn:Ho; [by apply picked_err|by apply IH].
  - destruct hint; [|by apply IH]. apply wp_bind, wp_ask. intros [] _. apply IH; [done|by apply probing_told|].
    eapply Forall_impl; [exact Hf|]. intros x. apply vouched_mono, told_sub.
  - destruct found as [|c l]; [by apply IH|by apply wp_choose].
Qed.

(** A token is taken only if Telegram accepts it. *)
Definition fresh_probe (w : world) : Prop := out (st w) = [] ∧ unsaved (trace w).
Definition asked (r : result (string * BotIdentity)) (w : world) : Prop :=
  unsaved (trace w) ∧ match r with Ok (token, me) => token_accepted token me (trace w) ∧ probing (BotID me) w | Err _ => True end.

Lemma fresh_told {B} (o : setupE B) b w : match o with StSave _ => False | _ => True end → fresh_probe w → fresh_probe (told o b w).
Proof. intros Ho [H1 H2]. split; [done|by apply unsaved_told]. Qed.

Lemma wp_Identity token w : fresh_probe w → token ≠ "" →
  wpa (Identity error_string token) w (λ r w', fresh_probe w' ∧
    match r with Ok me => token_accepted token me (trace w') ∧ botID (st w') = BotID me | Err _ => True end).
Proof.
  intros Hw Ht. apply wp_ask. intros [me|e] _; [|split; [by apply fresh_told|done]].
  apply wp_ask. intros [e|] _; [split; [by repeat apply fresh_told|done]|].
  apply wp_update. split; [exact (fresh_told StDeleteWebhook None _ I (fresh_told (StGetMe token) (Ok me) w I Hw))|].
  split; [|done]. split; [done|]. cbn. rewrite !elem_of_cons. auto.
Qed.

Lemma wp_ask_token n w : fresh_probe w → wpa (ask_token error_string n) w asked.
Proof.
  revert w. induction n as [|n IH]; intros w Hw; [split; [apply Hw|done]|]. cbn [ask_token].
  apply wp_ask. intros [answer|e] _; [|split; [by apply fresh_told|done]].
  destruct (String.eqb_spec (trim_space answer) "") as [_|Hne].
  { apply wp_bind, wp_ask. intros [] _. by apply IH; repeat apply fresh_told. }
  apply wp_ask. intros [e|] _; [split; [by repeat apply fresh_told|done]|].
  apply wp_bind. eapply wp_mono; [|apply wp_Identity; [by repeat apply fresh_told|done]].
  intros [me|e] w1 [Hw1 Hme].
  - destruct Hme as [Hacc Hid]. split; [apply Hw1|]. split; [done|]. destruct Hw1 as [Ho Hu].
    split; [done|]. split; [by rewrite Ho|done].
  - destruct (errors_is e ErrBotUnauthorized); [|split; [apply Hw1|done]].
    apply wp_bind, wp_ask. intros [] _. by apply IH, fresh_told.
Qed.

Definition setup_outcome (r : result (Config * bool)) (h : list (event setupE)) : Prop :=
  (∀ cfg e, Ev (StSave cfg) e ∈ h → justified h cfg) ∧
  match r with
  | Ok (cfg, true) => Ev (StSave cfg) None ∈ h
  | Ok (cfg, false) => unsaved h ∧ Ev StLoad (Ok cfg) ∈ h
  | Err _ => ∀ cfg, Ev (StSave cfg) None ∉ h
  end.

Lemma outcome_err e h : unsaved h → setup_outcome (Err e) h.
Proof. intros Hh. split; [by intros cfg x Hx%Hh|by intros cfg Hx%Hh]. Qed.

Lemma outcome_kept cfg h : unsaved h → Ev StLoad (Ok cfg) ∈ h → setup_outcome (Ok (cfg, false)) h.
Proof. intros Hh Hl. split; [by intros c x Hx%Hh|done]. Qed.

(** A word to the user. *)
Lemma wp_says {A B} bot (o : setupE B) (k : prog A) w Q : match o with StSave _ => False | _ => True end → probing bot w →
  (∀ w', probed bot w w' → wpa k w' Q) → wpa (do _ ← ask o; k) w Q.
Proof. intros Ho Hw Hk. apply wp_ask. intros b _. apply Hk. split; [by apply probing_told|apply told_sub]. Qed.
Lemma wp_print {A} bot text (k : prog A) w Q : probing bot w → (∀ w', probed bot w w' → wpa k w' Q) → wpa (do _ ← print text; k) w Q.
Proof. intros Hw Hk. apply wp_bind. by apply (wp_says bot (StPrint text)). Qed.

Lemma wp_pick bot e w : probing bot w → wpa (pickCandidate wakes0 e) w (λ r w', picked bot r w' ∧ trace w ⊆ trace w').
Proof.
  intros Hw. apply wp_and; [|eapply wp_mono; [|apply wp_grows]; intros r w' [l ->]; set_solver].
  unfold pickCandidate. apply wp_bind. unfold Candidates, look. apply wp_look. destruct (polling (st w)); [by apply picked_err|].
  apply wp_update. by apply wp_wait.
Qed.

(** What an event saves. *)
Definition save_answer (ev : event setupE) : option (Config * option error) :=
  match ev with
  | Ev o b => match o in setupE B return B → option (Config * option error) with StSave c => λ e, Some (c, e) | _ => λ _, None end b
  end.

Lemma one_save cfg r h x y : unsaved h → Ev (StSave x) y ∈ Ev (StSave cfg) r :: h → x = cfg ∧ y = r.
Proof. intros Hh [H|H]%elem_of_cons; [by apply (f_equal save_answer) in H; simplify_eq/=|by apply Hh in H]. Qed.

Lemma wp_configure existing e w : fresh_probe w →
  wpa (configure error_string existing wakes0 e) w (λ r w', setup_outcome r (trace w')).
Proof.
  intros Hw. apply wp_bind. eapply wp_mono; [|by apply wp_ask_token]. intros [[token me]|x] w1 [Hu H]; [|by apply outcome_err].
  destruct H as [Hacc Hw1]. apply (wp_print (BotID me)); [done|]. intros w2 [Hw2 S2]. apply (wp_says (BotID me)); [done..|]. intros w3 [Hw3 S3].
  do 3 (apply (wp_print (BotID me)); [done|]; intros ?w [?Hw ?S]).
  apply wp_bind. eapply wp_mono; [|by apply wp_pick]. intros [c|x] w7 [[Hu7 Hc] S7]; [|by apply outcome_err].
  destruct Hc as [Hv Hconf]. apply wp_ask. intros now _. apply wp_ask. intros r _.
  set (cfg := configured _ _ _ _ _).
  assert (Hj : ∀ h, trace w7 ⊆ h → justified h cfg).
  { intros h Hh. exists token, me, c. split; [eapply token_accepted_mono; [|exact Hacc]; set_solver|].
    split; [by eapply vouched_mono|]. split; [by eapply confirmed_mono|]. done. }
  assert (Hu8 : unsaved (trace (told StNow now w7))) by by apply unsaved_told.
  destruct r as [x|].
  - split; [|intros y Hy; by apply one_save in Hy as [_ ?]].
    intros y z Hy. apply one_save in Hy as [-> _]; [|done]. apply Hj. intros ev Hev. by do 2 right.
  - apply wp_bind, wp_ask. intros [] _. split; [|cbn; by right; left].
    intros y z [Hy|Hy]%elem_of_cons; [by simplify_eq|]. apply one_save in Hy as [-> _]; [|done].
    apply Hj. intros ev Hev. by do 3 right.
Qed.
End Saved.

(** C30: The wizard saves a configuration only for a token Telegram accepts
    and a group the user confirmed, in which the bot may manage topics: a
    forum the operator chose in the private chat with the bot, or one where he
    gave the bot that right; that person, and nobody else, becomes operator.
    It reports a new configuration only if it was saved, the old one only if
    nothing was, and an error only if no save succeeded. *)
Theorem setup_saves_vouched {U : UnicodeTables} error_string wakes ctx_err :
  wp anything (RunSetup error_string wakes ctx_err) (mkWorld newProbe []) (λ r w, setup_outcome wakes r (trace w)).
Proof.
  assert (Hfresh : fresh_probe (mkWorld newProbe [])) by (split; [done|]; by intros cfg e ?%not_elem_of_nil).
  apply wp_ask. intros [existing|e] _.
  - apply wp_bind, wp_ask. intros [] _. apply wp_ask. intros [[]|e] _.
    + by apply wp_configure; repeat apply fresh_told.
    + apply wp_bind, wp_ask. intros [] _. apply outcome_kept; [by repeat apply unsaved_told; try apply Hfresh|].
      cbn. rewrite !elem_of_cons. auto.
    + apply outcome_err. by repeat apply unsaved_told; try apply Hfresh.
  - destruct (errors_is e ErrNotConfigured); [by apply wp_configure, fresh_told|]. apply outcome_err.
    by apply unsaved_told; try apply Hfresh.
Qed.

(** A run: a rejected token, then one that is taken; the operator shares a
    forum where the bot may manage topics and says yes. *)
Definition sample_wizard : oracle (E := setupE) := λ B o h,
  match o with
  | StLoad => Err (Sentinel ErrNotConfigured)
  | StSave _ => None
  | StPrint _ => tt
  | StAskSecret _ => Ok (if Nat.ltb (length h) 2 then "bad" else " 1:tok ")
  | StConfirm _ => Ok true
  | StChoose _ _ => Ok 0
  | StOpenLink _ => None
  | StNow => 50
  | StClient _ => None
  | StGetMe t => if String.eqb t "1:tok" then Ok (mkBotIdentity 1 "relay_bot") else Err (Foreign BotUnauthorized)
  | StDeleteWebhook => None
  | StGetChat _ => Ok (mkChatInfo "Agents" true)
  | StGetChatMember _ _ => Ok (mkMember ChatMemberTypeAdministrator (Some (mkAdmin true true true)))
  | StReply _ _ _ => None
  | StOffer _ => true
  end.

Example setup_run {U : UnicodeTables} :
  (interp sample_wizard (RunSetup (λ _, "text")
    [WSiblings; WUpdate (mkSetupUpdate None (Some (mkPrivate 9 (mkUser 9 false "" "" "boss") (Some (mkChatShared 1 (-100) "old name"))))); WHint; WCandidate; WSiblings]
    (Foreign CtxCanceled)) (mkWorld newProbe [])).1
  = Ok (mkConfig 1 "1:tok" "relay_bot" (-100) "Agents" [9] [] "" 50, true).
Proof. vm_compute. reflexivity. Qed.
