(* ===== verification/Json.v ===== *)
(** JSON documents as package encoding/json decodes them into the shapes the
    program asks for.  A document that arrives is well-formed (the decoder of
    the HTTP client or of the state file has read it), so it is a value of
    [json].  A number is an integer, a binary64 the program computed, or the
    text of a literal with a fraction or an exponent.  JsonText.v has the text
    of documents. *)
From S2P Require Import Prelude GoStrings Regexp Redact.
From Stdlib Require Export SpecFloat.

Local Open Scope Z_scope.

Inductive json :=
  | JNull
  | JBool (b : bool)
  | JInt (n : Z)
  | JNum (n : spec_float)
  | JLit (text : string)
  | JStr (s : string)
  | JArr (l : list json)
  | JObj (fields : list (string * json)).

(** [float64(n)]. *)
Definition float64_of (n : Z) : spec_float := binary_normalize 53 1024 n 0 false.
Definition jint (n : Z) : json := JInt n.

(** How the decoder names a value in its errors. *)
Definition json_kind (j : json) : string :=
  match j with
  | JNull => "null" | JBool _ => "bool" | JInt _ | JNum _ | JLit _ => "number"
  | JStr _ => "string" | JArr _ => "array" | JObj _ => "object"
  end.

(** A key of a document stands for a struct field if the two are equal under
    case folding; of several, the last one is kept. *)
Definition key_folds (name key : string) : bool :=
  Nat.eqb (length (runes key)) (String.length name)
  && forallb (λ cr, is_ci (of_byte (lower_ascii (byte_of cr.1))) cr.2) (zip (bytes name) (runes key)).

Fixpoint last_field (p : string → bool) (fields : list (string * json)) : option json :=
  match fields with
  | [] => None
  | (k, v) :: rest =>
    match last_field p rest with
    | Some w => Some w
    | None => if p k then Some v else None
    end
  end.

(** A key of a [map[string]json.RawMessage], and a field of a struct; null
    leaves either without fields. *)
Definition map_field (name : string) (fields : list (string * json)) : option json :=
  last_field (String.eqb name) fields.
Definition struct_field (name : string) (fields : list (string * json)) : option json :=
  last_field (key_folds name) fields.

(** The fields of an object; [None] is the decoder's type error. *)
Definition as_fields (j : json) : option (list (string * json)) :=
  match j with JObj fs => Some fs | JNull => Some [] | _ => None end.

(** A string field, which absence and null leave empty. *)
Definition as_string (v : option json) : option string :=
  match v with
  | None | Some JNull => Some ""
  | Some (JStr s) => Some s
  | Some _ => None
  end.

(** A string behind a pointer, which absence and null leave nil; a boolean; an
    [int64] or [int], which a number outside the range or with a fraction is not. *)
Definition as_pointer (v : option json) : option (option string) :=
  match v with
  | None | Some JNull => Some None
  | Some (JStr s) => Some (Some s)
  | Some _ => None
  end.
Definition as_bool (v : option json) : option bool :=
  match v with
  | None | Some JNull => Some false
  | Some (JBool b) => Some b
  | Some _ => None
  end.
Definition as_int (v : option json) : option Z :=
  match v with
  | None | Some JNull => Some 0
  | Some (JInt n) => if decide (in_int64 n) then Some n else None
  | Some _ => None
  end.

(** A field that holds a struct, and slices of integers and of strings. *)
Definition as_ints (v : option json) : option (list Z) :=
  match v with
  | None | Some JNull => Some []
  | Some (JArr l) => mapM (λ j, as_int (Some j)) l
  | Some _ => None
  end.
Definition as_struct (v : option json) : option (list (string * json)) := as_fields (default JNull v).
Definition as_strings (v : option json) : option (list string) :=
  match v with
  | None | Some JNull => Some []
  | Some (JArr l) => mapM (λ j, as_string (Some j)) l
  | Some _ => None
  end.

(** A field that holds a slice of structs. *)
Definition as_structs (v : option json) : option (list (list (string * json))) :=
  match v with
  | None | Some JNull => Some []
  | Some (JArr l) => mapM as_fields l
  | Some _ => None
  end.

Lemma last_field_elem p fields v :
  last_field p fields = Some v → ∃ k, (k, v) ∈ fields ∧ p k = true.
Proof.
  induction fields as [|[k w] rest IH]; cbn [last_field]; [done|]. intros H.
  destruct (last_field p rest) eqn:E.
  - destruct (IH H) as (k' & Hin & Hp). exists k'. split; [by right|done].
  - destruct (p k) eqn:Hp; [|done]. injection H as ->. exists k. split; [by left|done].
Qed.

Example struct_field_folds :
  struct_field "nodes" [("Nodes", JNull); ("other", JBool true); ("NODES", JBool false)] = Some (JBool false)
  ∧ struct_field "isMeta" [("IsMeta", JBool true)] = Some (JBool true).
Proof. by vm_compute. Qed.

(** ** Maps and their fields *)

(** A map is written with its keys in order. *)
Fixpoint insert_field {A} (x : string * A) (l : list (string * A)) : list (string * A) :=
  match l with
  | [] => [x]
  | y :: l' => if str_le x.1 y.1 then x :: l else y :: insert_field x l'
  end.
Definition sorted_fields {A} (m : gmap string A) : list (string * A) := foldr insert_field [] (map_to_list m).
Definition map_of_fields {A} (l : list (string * A)) : gmap string A := foldl (λ m kv, <[kv.1 := kv.2]> m) ∅ l.

Lemma insert_field_perm {A} (x : string * A) l : insert_field x l ≡ₚ x :: l.
Proof.
  induction l as [|y l IH]; cbn [insert_field]; [done|]. destruct (str_le _ _); [done|]. rewrite IH. apply Permutation_swap.
Qed.

Lemma sorted_fields_perm {A} (m : gmap string A) : sorted_fields m ≡ₚ map_to_list m.
Proof.
  unfold sorted_fields. induction (map_to_list m) as [|x l IH]; cbn [foldr]; [done|]. by rewrite insert_field_perm, IH.
Qed.

Lemma sorted_fields_NoDup {A} (m : gmap string A) : NoDup (sorted_fields m).*1.
Proof. rewrite sorted_fields_perm. apply NoDup_fst_map_to_list. Qed.

Lemma elem_of_sorted_fields {A} (m : gmap string A) k v : (k, v) ∈ sorted_fields m ↔ m !! k = Some v.
Proof. rewrite sorted_fields_perm. apply elem_of_map_to_list. Qed.

Lemma map_of_fields_list {A} (l : list (string * A)) : NoDup l.*1 → map_of_fields l = list_to_map l.
Proof.
  unfold map_of_fields. intros Hl. rewrite <-(map_union_empty (list_to_map l)). generalize (∅ : gmap string A). revert Hl.
  induction l as [|[k v] l IH]; intros Hl m; cbn [foldl list_to_map foldr fst snd] in *; [by rewrite (left_id_L ∅ (∪))|].
  apply NoDup_cons in Hl as [Hk Hl]. rewrite IH by done. rewrite <-insert_union_l, insert_union_r; [done|].
  by apply not_elem_of_list_to_map_1.
Qed.

Lemma map_of_sorted_fields {A} (m : gmap string A) : map_of_fields (sorted_fields m) = m.
Proof.
  rewrite map_of_fields_list by apply sorted_fields_NoDup.
  rewrite (list_to_map_proper _ (map_to_list m) (sorted_fields_NoDup m) (sorted_fields_perm m)). apply list_to_map_to_list.
Qed.

(** A map with string keys. *)
Definition as_map {A} (dec : json → option A) (v : option json) : option (gmap string A) :=
  match v with
  | None | Some JNull => Some ∅
  | Some (JObj fs) => map_of_fields <$> mapM (λ kv, a ← dec kv.2; Some (kv.1, a)) fs
  | Some _ => None
  end.

(** * Binary64 numbers as decimal text: [strconv.ParseFloat] of the literal of a
    JSON number, and the shortest decimal that reads back, which encoding/json
    writes. *)
(** [± m * 10^e], correctly rounded. *)
Definition float_of_decimal (neg : bool) (m e : Z) : spec_float :=
  if m =? 0 then S754_zero neg
  else
    let m' := if neg then - m else m in
    if 0 <=? e then binary_normalize 53 1024 (m' * 10 ^ e) 0 neg
    else SFdiv 53 1024 (S754_finite neg (Z.to_pos m) 0) (S754_finite false (Z.to_pos (10 ^ (- e))) 0).

(** ** Reading a literal *)

Fixpoint digits_prefix (l : list ascii) (acc : Z) (n : nat) : Z * nat * list ascii :=
  match l with
  | c :: l' => if ascii_digit (byte_of c) then digits_prefix l' (acc * 10 + (byte_of c - 48)) (S n) else (acc, n, l)
  | [] => (acc, n, [])
  end.

(** The number a literal of the JSON grammar stands for; one too large for a
    binary64 is an error. *)
Definition literal_value (text : string) : option spec_float :=
  let l := bytes text in
  let '(neg, l) := match l with c :: l' => if Ascii.eqb c "-" then (true, l') else (false, l) | [] => (false, l) end in
  let '(m, _, l) := digits_prefix l 0 0 in
  let '(m, k, l) := match l with
                    | c :: l' => if Ascii.eqb c "." then digits_prefix l' m 0 else (m, 0%nat, l)
                    | [] => (m, 0%nat, l)
                    end in
  let e := match l with
           | _ :: s :: l' =>
             if Ascii.eqb s "-" then - (digits_prefix l' 0 0).1.1
             else if Ascii.eqb s "+" then (digits_prefix l' 0 0).1.1
             else (digits_prefix (s :: l') 0 0).1.1
           | _ => 0
           end in
  match float_of_decimal neg m (e - Z.of_nat k) with
  | S754_infinity _ | S754_nan => None
  | f => Some f
  end.

(** A [float64] field. *)
Definition as_float (v : option json) : option spec_float :=
  match v with
  | None | Some JNull => Some (S754_zero false)
  | Some (JInt n) => match float64_of n with S754_infinity _ | S754_nan => None | f => Some f end
  | Some (JNum f) => Some f
  | Some (JLit text) => literal_value text
  | Some _ => None
  end.

(** ** The shortest decimal *)

Definition float_eqb (x y : spec_float) : bool :=
  match x, y with
  | S754_finite s m e, S754_finite s' m' e' => Bool.eqb s s' && Pos.eqb m m' && Z.eqb e e'
  | S754_zero s, S754_zero s' => Bool.eqb s s'
  | _, _ => false
  end.

(** The decimal exponent [k] with [10^(k-1) <= p/q < 10^k]; [fuel] steps from
    the estimate are enough. *)
Fixpoint exponent_up (fuel : nat) (p q k : Z) : Z :=
  match fuel with
  | O => k
  | S fuel => if p <? q then k else exponent_up fuel p (10 * q) (k + 1)
  end.
Fixpoint exponent_down (fuel : nat) (p q k : Z) : Z :=
  match fuel with
  | O => k
  | S fuel => if 10 * p <? q then exponent_down fuel (10 * p) q (k - 1) else k
  end.
Definition decimal_exponent (p q : Z) : Z := if q <=? p then exponent_up 310 p q 0 else exponent_down 330 p q 0.

(** [p/q] to [n] digits, down or up: the one that reads back, the nearer of
    two. *)
Definition digits_at (f : spec_float) (p q k : Z) (n : Z) : option (Z * Z) :=
  let e := k - n in
  let '(a, b) := if 0 <=? e then (p, q * 10 ^ e) else (p * 10 ^ (- e), q) in
  let down := a / b in let rest := a mod b in
  let ok m := float_eqb (float_of_decimal false m e) f in
  match ok down, ok (down + 1) with
  | true, true => Some (if (2 * rest <? b) || ((2 * rest =? b) && Z.even down) then down else down + 1, e)
  | true, false => Some (down, e)
  | false, true => Some (down + 1, e)
  | false, false => None
  end.
Fixpoint shortest (fuel : nat) (f : spec_float) (p q k n : Z) : option (Z * Z) :=
  match fuel with
  | O => None
  | S fuel => match digits_at f p q k n with Some r => Some r | None => shortest fuel f p q k (n + 1) end
  end.

Fixpoint strip_zeros (fuel : nat) (m e : Z) : Z * Z :=
  match fuel with
  | O => (m, e)
  | S fuel => if m mod 10 =? 0 then strip_zeros fuel (m / 10) (e + 1) else (m, e)
  end.

(** [m * 10^e] of a positive finite number. *)
Definition shortest_decimal (m : positive) (x : Z) : option (Z * Z) :=
  let '(p, q) := if 0 <=? x then (Z.pos m * 2 ^ x, 1) else (Z.pos m, 2 ^ (- x)) in
  match shortest 17 (S754_finite false m x) p q (decimal_exponent p q) 1 with
  | Some (d, e) => Some (strip_zeros 17 d e)
  | None => None
  end.

Fixpoint zeros (n : nat) : string := match n with O => "" | S n => String "0" (zeros n) end.
Definition point_at (n : Z) (s : string) : string := str_take n s +:+ "." +:+ str_drop n s.

(** The digits [s] with the point after the first [k]: ['f'] for the usual
    sizes, ['e'] for others, its exponent of one digit if it can. *)
Definition decimal_text (s : string) (k : Z) : string :=
  let n := len s in
  if (k <? -5) || (21 <? k) then
    (if n =? 1 then s else point_at 1 s) +:+ "e" +:+ (if k - 1 <? 0 then "-" else "+") +:+ itoa (Z.abs (k - 1))
  else if k <=? 0 then "0." +:+ zeros (Z.to_nat (- k)) +:+ s
  else if n <=? k then s +:+ zeros (Z.to_nat (k - n))
  else point_at k s.

(** How encoding/json writes a [float64]. *)
Definition float_text (f : spec_float) : option string :=
  match f with
  | S754_zero neg => Some (if neg then "-0" else "0")
  | S754_finite neg m x =>
    match shortest_decimal m x with
    | Some (d, e) => let s := itoa d in Some ((if neg then "-" else "") +:+ decimal_text s (len s + e))
    | None => None
    end
  | _ => None
  end.

Definition fl (m e : Z) : spec_float := float_of_decimal (m <? 0) (Z.abs m) e.

Example float_texts :
  map float_text [fl 100 0; fl (-25) (-1); fl 1 (-1); fl 123456789 10; fl 1 21; fl 1 20; fl 1 (-6); fl 1 (-7); fl 12 (-8); fl 5 (-324); fl 17976931348623157 292; fl 6 1]
  = map Some ["100"; "-2.5"; "0.1"; "1234567890000000000"; "1e+21"; "100000000000000000000"; "0.000001"; "1e-7"; "1.2e-7"; "5e-324"; "1.7976931348623157e+308"; "60"].
Proof. vm_compute. reflexivity. Qed.

Example literals :
  map literal_value ["1.5e2"; "0.1"; "-0.0"; "1E400"; "123.456"] = [Some (fl 150 0); Some (fl 1 (-1)); Some (S754_zero true); None; Some (fl 123456 (-3))].
Proof. vm_compute. reflexivity. Qed.
