(* ===== verification/JsonText.v ===== *)
(** The text of JSON documents: [json.Unmarshal] and [json.Marshal] of
    encoding/json between bytes and the values of Json.v.

    [Unmarshal] is the decoder for well-formed and ill-formed text alike (a
    document nested deeper than 10000 levels, which the decoder refuses, is
    accepted here).  [render] is the encoder, compact ([json.Marshal]) or
    indented by two spaces ([json.MarshalIndent]), with the escapes for HTML
    that the package writes by default; infinities and NaN have no text.  What
    is written is read back, but for binary64 numbers, which come back as the
    integers or the literals they were written as. *)
From S2P Require Import Prelude GoStrings Json.

Local Open Scope Z_scope.

Definition quote_char : ascii := "034"%char.
Definition backslash_char : ascii := "092"%char.

(** ** Reading *)

Definition is_ws (c : ascii) : bool :=
  Ascii.eqb c " " || Ascii.eqb c "009" || Ascii.eqb c newline || Ascii.eqb c "013".

Fixpoint skip_ws (s : string) : string :=
  match s with
  | String c r => if is_ws c then skip_ws r else s
  | EmptyString => ""
  end.

Definition hex_value (c : ascii) : option Z :=
  let b := byte_of c in
  if ascii_digit b then Some (b - 48)
  else if (97 <=? b) && (b <=? 102) then Some (b - 87)
  else if (65 <=? b) && (b <=? 70) then Some (b - 55)
  else None.

(** Four hexadecimal digits. *)
Definition hex4 (s : string) : option (Z * string) :=
  match s with
  | String a (String b (String c (String d r))) =>
    match hex_value a, hex_value b, hex_value c, hex_value d with
    | Some a, Some b, Some c, Some d => Some (((a * 16 + b) * 16 + c) * 16 + d, r)
    | _, _, _, _ => None
    end
  | _ => None
  end.

(** The rune of a [\u] escape: a surrogate needs its other half, which
    follows as an escape of its own; alone it is U+FFFD. *)
Definition is_surrogate (r : Z) : bool := (55296 <=? r) && (r <=? 57343).
Definition utf16_decode (hi lo : Z) : option Z :=
  if (55296 <=? hi) && (hi <=? 56319) && (56320 <=? lo) && (lo <=? 57343)
  then Some ((hi - 55296) * 1024 + (lo - 56320) + 65536) else None.

Definition unicode_escape (s : string) : option (Z * string) :=
  match hex4 s with
  | None => None
  | Some (r, rest) =>
    if is_surrogate r then
      match rest with
      | String a (String b rest') =>
        if Ascii.eqb a backslash_char && Ascii.eqb b "u" then
          match hex4 rest' with
          | Some (r2, rest2) => match utf16_decode r r2 with Some c => Some (c, rest2) | None => Some (rune_error, rest) end
          | None => None
          end
        else Some (rune_error, rest)
      | _ => Some (rune_error, rest)
      end
    else Some (r, rest)
  end.

(** What follows a backslash. *)
Definition escape (s : string) : option (Z * string) :=
  match s with
  | EmptyString => None
  | String c r =>
    if Ascii.eqb c quote_char || Ascii.eqb c backslash_char || Ascii.eqb c "/" then Some (byte_of c, r)
    else if Ascii.eqb c "b" then Some (8, r)
    else if Ascii.eqb c "f" then Some (12, r)
    else if Ascii.eqb c "n" then Some (10, r)
    else if Ascii.eqb c "r" then Some (13, r)
    else if Ascii.eqb c "t" then Some (9, r)
    else if Ascii.eqb c "u" then unicode_escape r
    else None
  end.

(** The characters of a string up to its closing quote; bytes that are not
    UTF-8 become U+FFFD. *)
Fixpoint read_chars (n : nat) (s : string) : option (list Z * string) :=
  match n, s with
  | S n, String c r =>
    if Ascii.eqb c quote_char then Some ([], r)
    else
      match (if Ascii.eqb c backslash_char then escape r
             else if byte_of c <? 32 then None
             else let '(rn, _, r') := decode_rune c r in Some (rn, r')) with
      | Some (rn, r') => match read_chars n r' with Some (t, r'') => Some (rn :: t, r'') | None => None end
      | None => None
      end
  | _, _ => None
  end.

Definition read_string (s : string) : option (string * string) :=
  match read_chars (String.length s) s with
  | Some (rs, r) => Some (string_of_runes rs, r)
  | None => None
  end.

Fixpoint span_digits (s : string) : string * string :=
  match s with
  | String c r =>
    if ascii_digit (byte_of c) then let '(d, r') := span_digits r in (String c d, r') else ("", s)
  | EmptyString => ("", "")
  end.

(** A number, its sign read: an integer, or a literal whose text is kept. *)
Definition read_frac (s : string) : option (string * string) :=
  match s with
  | String "." r =>
    let '(d, r') := span_digits r in if String.eqb d "" then None else Some ("." +:+ d, r')
  | _ => Some ("", s)
  end.
Definition read_exp (s : string) : option (string * string) :=
  match s with
  | String e r =>
    if Ascii.eqb e "e" || Ascii.eqb e "E" then
      let '(sign, r1) := match r with
                         | String "+" r1 => ("+", r1)
                         | String "-" r1 => ("-", r1)
                         | _ => ("", r)
                         end in
      let '(d, r2) := span_digits r1 in
      if String.eqb d "" then None else Some (String e (sign +:+ d), r2)
    else Some ("", s)
  | EmptyString => Some ("", s)
  end.

Definition read_number (neg : bool) (s : string) : option (json * string) :=
  let '(d, r) := span_digits s in
  let '(d, r) := match d with
                 | String "0" (String _ _ as more) => ("0", more +:+ r)
                 | _ => (d, r)
                 end in
  match digits_value 0 (bytes d), d with
  | Some v, String _ _ =>
    match read_frac r with
    | None => None
    | Some (frac, r) =>
      match read_exp r with
      | None => None
      | Some (exp, r) =>
        if String.eqb frac "" && String.eqb exp ""
        then Some (JInt (if neg then - v else v), r)
        else Some (JLit ((if neg then "-" else "") +:+ d +:+ frac +:+ exp), r)
      end
    end
  | _, _ => None
  end.

Definition read_word (word : string) (v : json) (s : string) : option (json * string) :=
  match cut_prefix s word with Some r => Some (v, r) | None => None end.

(** A value; [n] bounds the values and separators read, and the length of the
    text is enough. *)
Fixpoint read_value (n : nat) (s : string) : option (json * string) :=
  match n, skip_ws s with
  | S n, String c r =>
    if Ascii.eqb c quote_char then
      match read_string r with Some (t, r) => Some (JStr t, r) | None => None end
    else if Ascii.eqb c "{" then
      match skip_ws r with
      | String "}" r => Some (JObj [], r)
      | _ => match read_members n r with Some (l, r) => Some (JObj l, r) | None => None end
      end
    else if Ascii.eqb c "[" then
      match skip_ws r with
      | String "]" r => Some (JArr [], r)
      | _ => match read_elements n r with Some (l, r) => Some (JArr l, r) | None => None end
      end
    else if Ascii.eqb c "-" then read_number true r
    else if ascii_digit (byte_of c) then read_number false (String c r)
    else if Ascii.eqb c "t" then read_word "rue" (JBool true) r
    else if Ascii.eqb c "f" then read_word "alse" (JBool false) r
    else if Ascii.eqb c "n" then read_word "ull" JNull r
    else None
  | _, _ => None
  end
with read_elements (n : nat) (s : string) : option (list json * string) :=
  match n with
  | O => None
  | S n =>
    match read_value n s with
    | Some (v, r) =>
      match skip_ws r with
      | String "," r => match read_elements n r with Some (l, r) => Some (v :: l, r) | None => None end
      | String "]" r => Some ([v], r)
      | _ => None
      end
    | None => None
    end
  end
with read_members (n : nat) (s : string) : option (list (string * json) * string) :=
  match n, skip_ws s with
  | S n, String c r =>
    if Ascii.eqb c quote_char then
      match read_string r with
      | Some (k, r) =>
        match skip_ws r with
        | String ":" r =>
          match read_value n r with
          | Some (v, r) =>
            match skip_ws r with
            | String "," r => match read_members n r with Some (l, r) => Some ((k, v) :: l, r) | None => None end
            | String "}" r => Some ([(k, v)], r)
            | _ => None
            end
          | None => None
          end
        | _ => None
        end
      | None => None
      end
    else None
  | _, _ => None
  end.

(** [json.Unmarshal]: one value and nothing after it. *)
Definition Unmarshal (s : string) : option json :=
  match read_value (S (String.length s)) s with
  | Some (v, r) => if String.eqb (skip_ws r) "" then Some v else None
  | None => None
  end.

(** ** Writing *)

Definition escape_u (r : Z) : string := String backslash_char ("u" +:+ hex_digits 4 r).
Definition html_char (r : Z) : bool := (r =? 60) || (r =? 62) || (r =? 38).

Definition write_rune (seg : Z * string) : string :=
  let '(r, b) := seg in
  if (r =? 34) || (r =? 92) then String backslash_char b
  else if r =? 8 then String backslash_char "b"
  else if r =? 12 then String backslash_char "f"
  else if r =? 10 then String backslash_char "n"
  else if r =? 13 then String backslash_char "r"
  else if r =? 9 then String backslash_char "t"
  else if (r <? 32) || html_char r || (r =? 8232) || (r =? 8233) then escape_u r
  else if (r =? rune_error) && Nat.eqb (String.length b) 1 then escape_u r
  else b.

Definition write_string (s : string) : string :=
  String quote_char (concat_str (map write_rune (segs s)) +:+ String quote_char "").

Fixpoint spaces (n : nat) : string := match n with O => "" | S n => String " " (spaces n) end.

Section Render.
(** [indent] is [json.MarshalIndent] with two spaces. *)
Context (indent : bool).

Definition new_line (depth : nat) : string := if indent then String newline (spaces (2 * depth)) else "".
Definition colon : string := if indent then ": " else ":".

(** The items of a list or an object, each on a line of its own. *)
Definition write_items (depth : nat) (l : list string) : string :=
  new_line (S depth) +:+ join l ("," +:+ new_line (S depth)) +:+ new_line depth.

Fixpoint render (depth : nat) (j : json) : option string :=
  match j with
  | JNull => Some "null"
  | JBool b => Some (if b then "true" else "false")
  | JInt n => Some (itoa n)
  | JNum f => float_text f
  | JLit t => Some t
  | JStr s => Some (write_string s)
  | JArr l =>
    match l with
    | [] => Some "[]"
    | _ => l' ← mapM (render (S depth)) l; Some ("[" +:+ write_items depth l' +:+ "]")
    end
  | JObj l =>
    match l with
    | [] => Some "{}"
    | _ => l' ← mapM (λ '(k, v), t ← render (S depth) v; Some (write_string k +:+ colon +:+ t)) l;
           Some ("{" +:+ write_items depth l' +:+ "}")
    end
  end.
End Render.

Definition Marshal (j : json) : option string := render false 0 j.
Definition MarshalIndent (j : json) : option string := render true 0 j.

(** ** What is written is read back *)

Example unmarshal_sample :
  Unmarshal ("{" +:+ String quote_char ("a" +:+ String quote_char " : [1, -20,true,null , 1.5e3]} "))
  = Some (JObj [("a", JArr [JInt 1; JInt (-20); JBool true; JNull; JLit "1.5e3"])]).
Proof. vm_compute. reflexivity. Qed.

(** Text that is UTF-8 throughout. *)
Definition utf8 (s : string) : Prop := string_of_runes (runes s) = s.

Lemma utf8_runes rs : Forall (λ r, valid_rune r = true) rs → utf8 (string_of_runes rs).
Proof. intros H. unfold utf8. by rewrite runes_string_of_runes. Qed.

(** The documents whose text is read back as they are. *)
Fixpoint plain (j : json) : Prop :=
  match j with
  | JNum _ | JLit _ => False
  | JStr s => utf8 s
  | JArr l => foldr (λ v, and (plain v)) True l
  | JObj l => foldr (λ '(k, v), and (utf8 k ∧ plain v)) True l
  | _ => True
  end.

Section json_ind.
Context (P : json → Prop) (Hnull : P JNull) (Hbool : ∀ b, P (JBool b)) (Hint : ∀ n, P (JInt n)) (Hnum : ∀ n, P (JNum n))
  (Hlit : ∀ t, P (JLit t)) (Hstr : ∀ s, P (JStr s)) (Harr : ∀ l, Forall P l → P (JArr l))
  (Hobj : ∀ l, Forall (λ kv, P kv.2) l → P (JObj l)).
Fixpoint json_rect' (j : json) : P j :=
  match j with
  | JNull => Hnull | JBool b => Hbool b | JInt n => Hint n | JNum n => Hnum n | JLit t => Hlit t | JStr s => Hstr s
  | JArr l => Harr l ((fix go l : Forall P l := match l with [] => List.Forall_nil _ | v :: l => List.Forall_cons _ _ _ (json_rect' v) (go l) end) l)
  | JObj l => Hobj l ((fix go l : Forall (λ kv, P kv.2) l := match l with [] => List.Forall_nil _ | kv :: l => List.Forall_cons _ _ _ (json_rect' kv.2) (go l) end) l)
  end.
End json_ind.

Lemma decode_rune_low c t r b rest : decode_rune c t = (r, b, rest) → byte_of c < 128 → r = byte_of c.
Proof. unfold decode_rune. intros H Hc. rewrite (proj2 (Z.ltb_lt _ _) Hc) in H. by injection H. Qed.

Lemma write_rune_plain r : (r <? 32) || html_char r || (r =? 8232) || (r =? 8233) = true → 0 ≤ r →
  r ∈ (seqZ 0 32 ++ [60; 62; 38; 8232; 8233]).
Proof.
  unfold html_char. rewrite !orb_true_iff, Z.ltb_lt, !Z.eqb_eq. intros H Hr. rewrite elem_of_app, elem_of_seqZ.
  destruct (decide (r < 32)); [left; lia|right]. assert (r = 60 ∨ r = 62 ∨ r = 38 ∨ r = 8232 ∨ r = 8233) as H' by lia.
  destruct_or! H'; subst; set_solver.
Qed.

(** One rune of a string. *)
Definition cons_rune (r : Z) (o : option (list Z * string)) : option (list Z * string) :=
  match o with Some (rs, rest) => Some (r :: rs, rest) | None => None end.

Lemma read_chars_plain n r t : valid_rune r = true → r ≠ 34 → r ≠ 92 → 32 ≤ r →
  read_chars (S n) (encode_rune r +:+ t) = cons_rune r (read_chars n t).
Proof.
  intros Hv H1 H2 H3. destruct (decode_encode r t Hv) as (c & t' & -> & E). cbn [read_chars].
  pose proof (decode_rune_low _ _ _ _ _ E) as Hlow. pose proof (byte_of_range c).
  destruct (Ascii.eqb_spec c quote_char) as [->|_]; [by specialize (Hlow eq_refl)|].
  destruct (Ascii.eqb_spec c backslash_char) as [->|_]; [by specialize (Hlow eq_refl)|].
  rewrite E. destruct (byte_of c <? 32) eqn:Hc; [|done].
  apply Z.ltb_lt in Hc. specialize (Hlow ltac:(lia)). lia.
Qed.

Lemma read_chars_rune n r t : valid_rune r = true →
  read_chars (S n) (write_rune (r, encode_rune r) +:+ t) = cons_rune r (read_chars n t).
Proof.
  intros Hv. assert (0 ≤ r) as H0 by (apply valid_rune_spec in Hv; lia).
  unfold write_rune.
  destruct ((r =? 34) || (r =? 92)) eqn:E1.
  { rewrite orb_true_iff, !Z.eqb_eq in E1. by destruct E1 as [-> | ->]. }
  do 5 (lazymatch goal with |- context [r =? ?k] => destruct (Z.eqb_spec r k) as [->|_]; [done|] end).
  destruct (_ || _ || _ || _) eqn:E7.
  { pose proof (write_rune_plain r E7 H0) as Hin. clear -Hin. cbn in Hin.
    repeat (apply elem_of_cons in Hin as [->|Hin]; [reflexivity|]). by apply elem_of_nil in Hin. }
  assert ((r =? rune_error) && Nat.eqb (String.length (encode_rune r)) 1 = false) as ->.
  { destruct (Z.eqb_spec r rune_error) as [->|]; reflexivity. }
  rewrite !orb_false_iff, Z.ltb_ge in E7. rewrite orb_false_iff, !Z.eqb_neq in E1. apply read_chars_plain; tauto.
Qed.

Lemma read_chars_write rs : Forall (λ r, valid_rune r = true) rs → ∀ n rest, (length rs < n)%nat →
  read_chars n (concat_str (map write_rune (segs (string_of_runes rs))) +:+ String quote_char rest) = Some (rs, rest).
Proof.
  induction 1 as [|r rs Hr _ IH]; intros [|n] rest Hn; cbn [length] in Hn; try lia; [reflexivity|].
  unfold string_of_runes. cbn [map concat_str]. rewrite segs_encode by done. cbn [map concat_str].
  rewrite str_app_assoc, read_chars_rune by done. fold (string_of_runes rs). by rewrite IH by lia.
Qed.

Lemma write_rune_length r : valid_rune r = true → (1 ≤ String.length (write_rune (r, encode_rune r)))%nat.
Proof.
  intros Hv. unfold write_rune, escape_u. repeat case_match; cbn; try lia.
  destruct (encode_rune r) eqn:E; cbn; [by apply encode_rune_byte0 in E|lia].
Qed.

Lemma write_length rs : Forall (λ r, valid_rune r = true) rs →
  (length rs ≤ String.length (concat_str (map write_rune (segs (string_of_runes rs)))))%nat.
Proof.
  induction 1 as [|r rs Hr _ IH]; [cbn; lia|]. unfold string_of_runes. cbn [map concat_str]. rewrite segs_encode by done.
  cbn [map concat_str length]. rewrite str_length_app. fold (string_of_runes rs). pose proof (write_rune_length r Hr). lia.
Qed.

Lemma read_string_write s rest : utf8 s →
  read_string (concat_str (map write_rune (segs s)) +:+ String quote_char rest) = Some (s, rest).
Proof.
  intros Hs. unfold read_string. pose proof (runes_valid s) as Hv.
  pose proof (write_length _ Hv) as Hl. pose proof (read_chars_write _ Hv) as Hr. rewrite Hs in Hl, Hr.
  rewrite Hr; [by rewrite Hs|]. rewrite str_length_app. cbn [String.length]. lia.
Qed.

(** *** Numbers *)

Lemma digits_value_digits l acc v : digits_value acc l = Some v → Forall (λ c, ascii_digit (byte_of c) = true) l.
Proof.
  revert acc. induction l as [|c l IH]; intros acc; [by constructor|]. cbn [digits_value].
  destruct (ascii_digit (byte_of c)) eqn:E; [|done]. intros H. constructor; eauto.
Qed.

(** What may follow a number. *)
Definition ends_number (s : string) : bool :=
  match s with
  | EmptyString => true
  | String c _ => negb (ascii_digit (byte_of c) || Ascii.eqb c "." || Ascii.eqb c "e" || Ascii.eqb c "E")
  end.

Lemma span_digits_app d rest : Forall (λ c, ascii_digit (byte_of c) = true) (bytes d) → ends_number rest = true →
  span_digits (d +:+ rest) = (d, rest).
Proof.
  induction d as [|c d IH]; intros Hd Hr.
  - rewrite str_app_nil_l. destruct rest as [|c rest]; [done|]. cbn [ends_number] in Hr. cbn [span_digits].
    by destruct (ascii_digit (byte_of c)).
  - change (bytes (String c d)) with (c :: bytes d) in Hd. apply Forall_cons in Hd as [Hc Hd].
    rewrite str_app_cons. cbn [span_digits]. by rewrite Hc, IH.
Qed.

Lemma read_number_digits neg d v rest : digits_value 0 (bytes d) = Some v → d ≠ "" →
  (∀ c r, d = String "0" (String c r) → False) → ends_number rest = true →
  read_number neg (d +:+ rest) = Some (JInt (if neg then - v else v), rest).
Proof.
  intros Hv Hne H0 Hr. unfold read_number. rewrite span_digits_app by eauto using digits_value_digits.
  assert (match d with String "0" (String _ _ as more) => ("0", more +:+ rest) | _ => (d, rest) end = (d, rest)) as ->.
  { destruct d as [|c [|c' d]]; [done| |]; destruct c as [[] [] [] [] [] [] [] []]; try done. by destruct (H0 c' d). }
  rewrite Hv. destruct d as [|c d]; [done|].
  assert (read_frac rest = Some ("", rest)) as ->.
  { destruct rest as [|a rest]; [done|]. unfold read_frac. cbn in Hr. destruct a as [[] [] [] [] [] [] [] []]; done. }
  assert (read_exp rest = Some ("", rest)) as ->; [|done].
  destruct rest as [|a rest]; [done|]. cbn [ends_number] in Hr. rewrite !negb_orb, !andb_true_iff, !negb_true_iff in Hr.
  destruct Hr as [[_ He] HE]. unfold read_exp. by rewrite He, HE.
Qed.

Lemma pretty_head x s : (0 < x)%N → ∃ c r, pretty_N_go x s = String c r ∧ c ≠ "0"%char.
Proof.
  revert s. induction (N.lt_wf_0 x) as [x _ IH]. intros s Hx. rewrite pretty_N_go_step by lia.
  destruct (decide (x `div` 10 = 0)%N) as [E|E].
  - rewrite E, pretty_N_go_0. do 2 eexists. split; [reflexivity|]. apply N.div_small_iff in E; [|lia].
    rewrite N.mod_small by done. assert (x = 1 ∨ x = 2 ∨ x = 3 ∨ x = 4 ∨ x = 5 ∨ x = 6 ∨ x = 7 ∨ x = 8 ∨ x = 9)%N as H by lia.
    by destruct_or! H; subst.
  - apply IH; [apply N.div_lt; lia|]. by apply N.neq_0_lt_0.
Qed.

Definition digit_head (s : string) : bool :=
  match s with String c _ => ascii_digit (byte_of c) | EmptyString => false end.

Lemma itoa_reads n rest : ends_number rest = true →
  match itoa n with
  | String "-" d => read_number true (d +:+ rest) = Some (JInt n, rest)
  | s => digit_head s = true ∧ read_number false (s +:+ rest) = Some (JInt n, rest)
  end.
Proof.
  intros Hr. assert (∀ neg p, digit_head (pretty_N_go (N.pos p) "") = true
      ∧ read_number neg (pretty_N_go (N.pos p) "" +:+ rest) = Some (JInt (if neg then Z.neg p else Z.pos p), rest)) as Hp.
  { intros neg p. destruct (pretty_head (N.pos p) "") as (c & r & E & Hc); [lia|].
    pose proof (digits_value_pretty (N.pos p) "") as Hv. cbn [bytes digits_value Z.of_N] in Hv.
    change (digits_value (Z.of_N (N.pos p)) (bytes "")) with (Some (Z.pos p)) in Hv. split.
    - rewrite E in Hv |- *. change (bytes (String c r)) with (c :: bytes r) in Hv. cbn [digits_value] in Hv.
      cbn. by destruct (ascii_digit (byte_of c)).
    - rewrite (read_number_digits neg _ (Z.pos p)); [by destruct neg|done|by rewrite E| |done].
      intros a b Ha. rewrite E in Ha. by injection Ha as ->. }
  destruct n as [|p|p].
  - change (itoa 0) with "0". cbn. split; [done|]. by apply (read_number_digits false "0" 0).
  - change (itoa (Z.pos p)) with (pretty_N_go (N.pos p) ""). destruct (Hp false p) as [H1 H2].
    destruct (pretty_N_go (N.pos p) "") as [|c d]; [done|]. destruct c as [[] [] [] [] [] [] [] []]; done.
  - change (itoa (Z.neg p)) with (String "-" (pretty_N_go (N.pos p) "")). apply (Hp true p).
Qed.

(** *** Values *)

Fixpoint jsize (j : json) : nat :=
  match j with
  | JArr l => S (foldr (λ v n, S (jsize v) + n)%nat 0%nat l)
  | JObj l => S (foldr (λ kv n, S (jsize kv.2) + n)%nat 0%nat l)
  | _ => 1
  end.

Lemma skip_spaces n s : skip_ws (spaces n +:+ s) = skip_ws s.
Proof. induction n as [|n IH]; [done|]. exact IH. Qed.

Lemma skip_new_line i d s : skip_ws (new_line i d +:+ s) = skip_ws s.
Proof. destruct i; [|done]. unfold new_line. rewrite str_app_cons. apply skip_spaces. Qed.

Lemma read_value_skip n s s' : skip_ws s = skip_ws s' → read_value n s = read_value n s'.
Proof. intros H. destruct n; [done|]. cbn [read_value]. by rewrite H. Qed.

Lemma read_members_skip n s s' : skip_ws s = skip_ws s' → read_members n s = read_members n s'.
Proof. intros H. destruct n; [done|]. cbn [read_members]. by rewrite H. Qed.

Lemma read_elements_skip n s s' : skip_ws s = skip_ws s' → read_elements n s = read_elements n s'.
Proof. intros H. destruct n; [done|]. cbn [read_elements]. by rewrite (read_value_skip n s s'). Qed.

Lemma read_string_json s rest n : utf8 s → (0 < n)%nat → read_value n (write_string s +:+ rest) = Some (JStr s, rest).
Proof.
  intros Hs Hn. destruct n as [|n]; [lia|]. unfold write_string. rewrite str_app_cons, str_app_assoc.
  cbn [read_value]. change (skip_ws (String quote_char ?x)) with (String quote_char x). cbv iota.
  change (Ascii.eqb quote_char quote_char) with true. cbv iota. rewrite str_app_cons, str_app_nil_l. by rewrite read_string_write.
Qed.

Section RoundTrip.
Context (i : bool).

Definition reads (j : json) : Prop := plain j → ∀ depth t, render i depth j = Some t →
  ∀ n rest, (jsize j ≤ n)%nat → ends_number rest = true → read_value n (t +:+ rest) = Some (j, rest).

(** What a value starts with. *)
Definition value_head (s : string) : bool :=
  match s with
  | String c _ => negb (is_ws c || Ascii.eqb c "]" || Ascii.eqb c "}")
  | EmptyString => false
  end.

Lemma itoa_head n : value_head (itoa n) = true.
Proof.
  pose proof (itoa_reads n "" eq_refl) as H. destruct (itoa n) as [|c d]; [by destruct H|].
  destruct c as [[] [] [] [] [] [] [] []]; try reflexivity; by destruct H.
Qed.

Lemma render_head depth j t : plain j → render i depth j = Some t → value_head t = true.
Proof.
  destruct j as [|b|n|n|l|s|l|l]; cbn [plain render]; intros Hp H; try done; simplify_eq.
  - reflexivity.
  - by destruct b.
  - apply itoa_head.
  - reflexivity.
  - destruct l as [|v l]; [by simplify_eq|]. apply bind_Some in H as (l' & _ & [= <-]). reflexivity.
  - destruct l as [|v l]; [by simplify_eq|]. apply bind_Some in H as (l' & _ & [= <-]). reflexivity.
Qed.

Lemma value_head_app t s : value_head t = true → value_head (t +:+ s) = true ∧ skip_ws (t +:+ s) = t +:+ s.
Proof.
  destruct t as [|c t]; [done|]. rewrite str_app_cons. cbn [value_head skip_ws]. intros H. split; [done|].
  by destruct (is_ws c).
Qed.

Lemma elements_read depth l ts :
  Forall reads l → foldr (λ v, and (plain v)) True l → mapM (render i (S depth)) l = Some ts → l ≠ [] →
  ∀ n rest, (foldr (λ v n, S (jsize v) + n)%nat 0%nat l ≤ n)%nat →
  read_elements n (join ts ("," +:+ new_line i (S depth)) +:+ new_line i depth +:+ "]" +:+ rest) = Some (l, rest).
Proof.
  intros Hl. revert ts. induction Hl as [|v l Hv Hl IH]; intros ts Hp Hts Hne n rest Hn; [done|]. clear Hne.
  destruct Hp as [Hpv Hpl]. cbn [mapM] in Hts. apply bind_Some in Hts as (t & Ht & (ts' & Hts & [= <-])%bind_Some).
  cbn [foldr] in Hn. destruct n as [|n]; [lia|]. cbn [read_elements].
  destruct l as [|v' l].
  - injection Hts as <-. cbn [join]. erewrite Hv; [|done..|lia|by destruct i].
    rewrite skip_new_line. reflexivity.
  - destruct ts' as [|t' ts']; [cbn in Hts; by apply bind_Some in Hts as (? & _ & (? & _ & [=])%bind_Some)|].
    change (join (t :: t' :: ts') ?sep) with (t +:+ sep +:+ join (t' :: ts') sep).
    rewrite !str_app_assoc. erewrite Hv; [|done..|lia|done].
    rewrite str_app_cons. change (skip_ws (String "," ?s)) with (String "," s). cbv iota. rewrite str_app_nil_l.
    rewrite (read_elements_skip _ _ _ (skip_new_line i (S depth) _)). by rewrite IH by (done || lia).
Qed.

Lemma members_read depth l ts :
  Forall (λ kv, reads kv.2) l → foldr (λ '(k, v), and (utf8 k ∧ plain v)) True l →
  mapM (λ '(k, v), t ← render i (S depth) v; Some (write_string k +:+ colon i +:+ t)) l = Some ts → l ≠ [] →
  ∀ n rest, (foldr (λ kv n, S (jsize kv.2) + n)%nat 0%nat l ≤ n)%nat →
  read_members n (join ts ("," +:+ new_line i (S depth)) +:+ new_line i depth +:+ "}" +:+ rest) = Some (l, rest).
Proof.
  intros Hl. revert ts. induction Hl as [|[k v] l Hv Hl IH]; intros ts Hp Hts Hne n rest Hn; [done|]. clear Hne.
  destruct Hp as [[Hk Hpv] Hpl]. cbn [mapM] in Hts.
  apply bind_Some in Hts as (t & (tv & Ht & [= <-])%bind_Some & (ts' & Hts & [= <-])%bind_Some).
  cbn [foldr snd] in Hn, Hv. destruct n as [|n]; [lia|].
  assert (∀ r, read_members (S n) (write_string k +:+ colon i +:+ tv +:+ r) =
      match read_value n (tv +:+ r) with
      | Some (v, r) => match skip_ws r with
                       | String "," r => match read_members n r with Some (l, r) => Some ((k, v) :: l, r) | None => None end
                       | String "}" r => Some ([(k, v)], r)
                       | _ => None
                       end
      | None => None
      end) as Hstep.
  { intros r. unfold write_string. rewrite str_app_cons, str_app_assoc. cbn [read_members].
    change (skip_ws (String quote_char ?x)) with (String quote_char x). cbv iota.
    change (Ascii.eqb quote_char quote_char) with true. cbv iota. rewrite str_app_cons, str_app_nil_l, read_string_write by done.
    destruct i; [|reflexivity]. change (skip_ws (colon true +:+ ?x)) with (String ":" (String " " x)). cbv iota.
    by rewrite (read_value_skip n (String " " (tv +:+ r)) (tv +:+ r) eq_refl). }
  destruct l as [|[k' v'] l].
  - injection Hts as <-. cbn [join]. rewrite !str_app_assoc, Hstep. erewrite Hv; [|done..|lia|by destruct i].
    rewrite skip_new_line. reflexivity.
  - destruct ts' as [|t' ts']; [cbn in Hts; by apply bind_Some in Hts as (? & _ & (? & _ & [=])%bind_Some)|].
    change (join (?t :: t' :: ts') ?sep) with (t +:+ sep +:+ join (t' :: ts') sep).
    rewrite !str_app_assoc, Hstep. erewrite Hv; [|done..|lia|done].
    rewrite str_app_cons. change (skip_ws (String "," ?s)) with (String "," s). cbv iota. rewrite str_app_nil_l.
    rewrite (read_members_skip _ _ _ (skip_new_line i (S depth) _)). by rewrite IH by (done || lia).
Qed.

Lemma render_reads j : reads j.
Proof.
  induction j as [|b|z|z|lit|s|l IH|l IH] using json_rect'; intros Hp depth t Ht n rest Hn Hr;
    cbn [jsize] in Hn; destruct n as [|n]; try lia; cbn [render] in Ht; try done.
  - by injection Ht as <-.
  - injection Ht as <-. by destruct b.
  - injection Ht as <-. pose proof (itoa_reads z rest Hr) as H. pose proof (itoa_head z) as Hh.
    destruct (itoa z) as [|c d]; [by destruct H|]. rewrite str_app_cons in *. cbn [read_value skip_ws].
    cbn [value_head] in Hh. destruct (is_ws c) eqn:Hw; [done|]. cbv iota.
    destruct c as [[] [] [] [] [] [] [] []]; try exact H; try (by destruct H as [_ ->]); by destruct H.
  - injection Ht as <-. apply read_string_json; [done|lia].
  - destruct l as [|v l]; [by injection Ht as <-|]. apply bind_Some in Ht as (ts & Hts & [= <-]).
    unfold write_items. rewrite !str_app_assoc, str_app_cons, str_app_nil_l. cbn [read_value].
    change (skip_ws (String "[" ?x)) with (String "[" x). cbv iota.
    change (Ascii.eqb "[" quote_char) with false. change (Ascii.eqb "[" "{") with false. change (Ascii.eqb "[" "[") with true. cbv iota.
    pose proof (elements_read depth (v :: l) ts IH Hp Hts ltac:(done) n rest ltac:(lia)) as He.
    rewrite (read_elements_skip _ _ _ (skip_new_line i (S depth) _)), He.
    cbn [mapM] in Hts. apply bind_Some in Hts as (t & Hv & (ts' & _ & [= <-])%bind_Some). destruct Hp as [Hp _].
    rewrite skip_new_line. pose proof (render_head _ _ _ Hp Hv) as Hh.
    assert (∃ r, join (t :: ts') ("," +:+ new_line i (S depth)) +:+ new_line i depth +:+ "]" +:+ rest = t +:+ r) as [r ->].
    { destruct ts'; [by eexists|]. eexists. cbn [join]. by rewrite !str_app_assoc. }
    destruct (value_head_app t r Hh) as [Hh' ->]. destruct (t +:+ r) as [|c x]; [done|]. cbn [value_head] in Hh'.
    destruct c as [[] [] [] [] [] [] [] []]; done.
  - destruct l as [|[k v] l]; [by injection Ht as <-|]. apply bind_Some in Ht as (ts & Hts & [= <-]).
    unfold write_items. rewrite !str_app_assoc, str_app_cons, str_app_nil_l. cbn [read_value].
    change (skip_ws (String "{" ?x)) with (String "{" x). cbv iota.
    change (Ascii.eqb "{" quote_char) with false. change (Ascii.eqb "{" "{") with true. cbv iota.
    pose proof (members_read depth ((k, v) :: l) ts IH Hp Hts ltac:(done) n rest ltac:(lia)) as He.
    rewrite (read_members_skip _ _ _ (skip_new_line i (S depth) _)), He.
    cbn [mapM] in Hts. apply bind_Some in Hts as (t & (tv & Hv & [= <-])%bind_Some & (ts' & _ & [= <-])%bind_Some).
    rewrite skip_new_line.
    assert (∃ r, join ((write_string k +:+ colon i +:+ tv) :: ts') ("," +:+ new_line i (S depth)) +:+ new_line i depth +:+ "}" +:+ rest
      = String quote_char r) as [r ->].
    { unfold write_string. destruct ts'; eexists; cbn [join]; rewrite ?str_app_assoc, str_app_cons; reflexivity. }
    reflexivity.
Qed.

Lemma mapM_cons_nil {A B} (f : A → option B) x l k : mapM f (x :: l) = Some k → k ≠ [].
Proof. cbn [mapM]. by intros (y & _ & (ys & _ & [= <-])%bind_Some)%bind_Some. Qed.

(** The fuel: a text is as long as what it holds is large. *)
Lemma join_length ts sep : (1 ≤ String.length sep)%nat → ts ≠ [] →
  (foldr (λ t n, S (String.length t) + n) 0 ts ≤ S (String.length (join ts sep)))%nat.
Proof.
  intros Hs. induction ts as [|t ts IH]; [done|]. intros _. destruct ts as [|t' ts]; [cbn; lia|].
  change (join (t :: t' :: ts) sep) with (t +:+ sep +:+ join (t' :: ts) sep). rewrite !str_length_app.
  specialize (IH ltac:(done)). cbn [foldr] in *. lia.
Qed.

Lemma items_length {A} (size : A → nat) (f : A → option string) l ts :
  Forall (λ x, ∀ t, f x = Some t → size x ≤ String.length t)%nat l → mapM f l = Some ts →
  (foldr (λ x n, S (size x) + n) 0 l ≤ (foldr (λ t n, S (String.length t) + n) 0 ts))%nat.
Proof.
  intros Hl. revert ts. induction Hl as [|x l Hx Hl IH]; intros ts; cbn [mapM].
  - intros [= <-]. done.
  - intros (t & Ht & (ts' & Hts & [= <-])%bind_Some)%bind_Some. specialize (IH _ Hts). specialize (Hx _ Ht).
    cbn [foldr]. lia.
Qed.

Lemma jsize_length j : plain j → ∀ depth t, render i depth j = Some t → (jsize j ≤ String.length t)%nat.
Proof.
  assert (∀ d ts, ts ≠ [] → (foldr (λ t n, S (String.length t) + n) 0 ts ≤ S (String.length (write_items i d ts)))%nat) as Hi.
  { intros d ts Hts. unfold write_items. rewrite !str_length_app.
    pose proof (join_length ts ("," +:+ new_line i (S d)) ltac:(rewrite str_length_app; cbn; lia) Hts). lia. }
  induction j as [|b|z|z|lit|s|l IH|l IH] using json_rect'; intros Hp depth t Ht; pose proof (render_head _ _ _ Hp Ht) as Hh;
    cbn [jsize]; try (destruct t; [done|cbn; lia]).
  - destruct l as [|v l]; [injection Ht as <-; cbn; lia|]. cbn [render] in Ht. apply bind_Some in Ht as (ts & Hts & [= <-]).
    assert (Forall (λ x, ∀ t, render i (S depth) x = Some t → jsize x ≤ String.length t)%nat (v :: l)) as Hall.
    { clear -IH Hp. cbn [plain] in Hp. induction IH as [|x l' Hx Hl IH']; [constructor|]. destruct Hp as [Hpx Hpl].
      constructor; [by apply Hx|by apply IH']. }
    pose proof (items_length _ _ _ _ Hall Hts) as Hl. rewrite !str_length_app. specialize (Hi depth ts (mapM_cons_nil _ _ _ _ Hts)).
    cbn [String.length]. lia.
  - destruct l as [|v l]; [injection Ht as <-; cbn; lia|]. cbn [render] in Ht. apply bind_Some in Ht as (ts & Hts & [= <-]).
    assert (Forall (λ kv, ∀ t, (λ '(k, v), t ← render i (S depth) v; Some (write_string k +:+ colon i +:+ t)) kv = Some t → jsize kv.2 ≤ String.length t)%nat (v :: l)) as Hall.
    { clear -IH Hp. cbn [plain] in Hp. induction IH as [|[k x] l' Hx Hl IH']; [constructor|]. destruct Hp as [[_ Hpx] Hpl].
      constructor; [|by apply IH']. intros t (tv & Ht & [= <-])%bind_Some. specialize (Hx Hpx _ _ Ht). rewrite !str_length_app. cbn [snd] in *. lia. }
    pose proof (items_length _ _ _ _ Hall Hts) as Hl. rewrite !str_length_app. specialize (Hi depth ts (mapM_cons_nil _ _ _ _ Hts)).
    cbn [String.length]. lia.
Qed.

(** A document is read back from its text, whatever white space follows. *)
Lemma unmarshal_render j depth t rest : plain j → render i depth j = Some t → skip_ws rest = "" →
  ends_number rest = true → Unmarshal (t +:+ rest) = Some j.
Proof.
  intros Hp Ht Hr He. unfold Unmarshal. pose proof (jsize_length j Hp depth t Ht).
  rewrite (render_reads j Hp depth t Ht) by (rewrite ?str_length_app; lia || done). by rewrite Hr.
Qed.
End RoundTrip.
