(* ===== verification/Logs.v ===== *)
(** internal/adapters/logging and internal/cli/logspane.go: the log file of the
    daemon with its rotation, the levels of the log, and the pane that follows
    the file.

    A log consists of the live file and its backups; they are numbered here,
    the live file being 0, and [file_name] gives the path of a number. *)
From S2P Require Import Prelude GoStrings Errors GoTime Paths Rfc3339 Eff Json JsonText AppText.

Local Open Scope Z_scope.

(** ** The rotating writer *)

Inductive logE : Type → Type :=
  | LOpen : logE (option error)                        (* the live file, created if missing, to append *)
  | LStat : logE (result Z)
  | LAppend (p : string) : logE (Z * option error)      (* bytes written *)
  | LClose : logE (option error)
  | LRemove (i : nat) : logE (option error)
  | LRename (i j : nat) : logE (option error).

Definition RotateSize : Z := Z.shiftl 5 20.
Definition RotateKeep : nat := 2.

(** [file] is nil or the live file; [n] counts its bytes. *)
Record RotatingWriter := mkWriter { file : bool; n_bytes : Z }.

Local Open Scope eff_scope.

Section Rotate.
Context (path : string) (size : Z) (keep : nat).
Local Notation prog := (prog logE RotatingWriter).
Definition put_log {B} (o : logE B) : prog B := call o.

Definition backupName (i : nat) : string := path +:+ "." +:+ itoa (Z.of_nat i).
Definition file_name (i : nat) : string := match i with O => path | _ => backupName i end.

Definition open_log : prog (option error) :=
  do e ← put_log LOpen;
  match e with
  | Some e => fail (Errorf "open log %s: %w" [path] [e])
  | None =>
    do r ← put_log LStat;
    match r with
    | Err e => do _ ← put_log LClose; fail (Errorf "stat log %s: %w" [path] [e])
    | Ok bytes => do _ ← modify (λ _, mkWriter true bytes); nil_
    end
  end.

(** A step a missing file does not stop. *)
Definition step (o : logE (option error)) (what : string) (i : nat) (k : prog (option error)) : prog (option error) :=
  do e ← put_log o;
  match e with
  | Some e => if is_foreign e ErrNotExist then k else fail (Errorf (what +:+ " %s: %w") [file_name i] [e])
  | None => k
  end.

(** The loop from [i] down to 1. *)
Fixpoint shift (i : nat) (k : prog (option error)) : prog (option error) :=
  match i with
  | O => k
  | S j =>
    if Nat.eqb i keep then step (LRemove i) "remove" i (shift j k)
    else step (LRename i (S i)) "rename" i (shift j k)
  end.

Definition rotate : prog (option error) :=
  do e ← put_log LClose;
  match e with
  | Some e => fail (Errorf "close log %s: %w" [path] [e])
  | None =>
    do _ ← modify (λ w, mkWriter false (n_bytes w));
    shift keep
      (if Nat.leb 1 keep then step (LRename 0 1) "rename" 0 open_log else step (LRemove 0) "remove" 0 open_log)
  end.

Definition append (p : string) : prog (Z * option error) :=
  do r ← put_log (LAppend p);
  do _ ← modify (λ w, mkWriter (file w) (n_bytes w + r.1));
  Ret r.

Definition Write (p : string) : prog (Z * option error) :=
  do f ← gets file;
  do n ← gets n_bytes;
  if negb f then Ret (0, Some (Errorf "write log %s: closed" [path] []))
  else if (0 <? n) && (size <? n + Z.of_nat (String.length p))
  then
    do e ← rotate;
    match e with Some e => Ret (0, Some e) | None => append p end
  else append p.

Definition CloseLog : prog (option error) :=
  do f ← gets file;
  if negb f then nil_
  else do e ← put_log LClose; do _ ← modify (λ w, mkWriter false (n_bytes w)); Ret e.

(** ** The disk *)

(** The files by number. *)
Definition disk := nat → option string.
Definition set_file (i : nat) (d : option string) (m : disk) : disk := λ j, if Nat.eqb j i then d else m j.

Context (disk0 : disk).
Definition log_effect {B} (o : logE B) : B → disk → disk :=
  match o in logE B return B → disk → disk with
  | LOpen => λ e m, match e, m 0%nat with None, None => set_file 0 (Some "") m | _, _ => m end
  | LAppend p => λ r m, set_file 0 (Some (default "" (m 0%nat) +:+ str_take r.1 p)) m
  | LRemove i => λ e m, match e with None => set_file i None m | Some _ => m end
  | LRename i j => λ e m, match e with None => set_file i None (set_file j (m i) m) | Some _ => m end
  | _ => λ _ m, m
  end.
Fixpoint disk_of (h : list (event logE)) : disk :=
  match h with Ev o b :: h => log_effect o b (disk_of h) | [] => disk0 end.

Definition size_of (d : option string) : Z := Z.of_nat (String.length (default "" d)).

(** What the system may answer: [Stat] tells the size of the live file, an
    append writes a prefix of the record, a file that is missing is missing. *)
Definition log_legal (h : list (event logE)) (B : Type) (o : logE B) (b : B) : Prop :=
  match o in logE B return B → Prop with
  | LStat => λ r, match r with Ok bytes => bytes = size_of (disk_of h 0%nat) | Err _ => True end
  | LAppend p => λ r, 0 ≤ r.1 ≤ Z.of_nat (String.length p) ∧ (r.2 = None → r.1 = Z.of_nat (String.length p))
  | LRemove i | LRename i _ => λ e, match e with Some e => is_foreign e ErrNotExist = true → disk_of h i = None | None => is_Some (disk_of h i) end
  | _ => λ _, True
  end b.

(** The text of the log, the oldest backup first. *)
Fixpoint backups (m : disk) (k : nat) : string :=
  match k with O => "" | S j => default "" (m k) +:+ backups m j end.
Definition log_text (m : disk) : string := backups m keep +:+ default "" (m 0%nat).

(** What the appends of a history wrote. *)
Fixpoint appended (h : list (event logE)) : string :=
  match h with
  | Ev o b :: h => appended h +:+ (match o in logE B return B → string with LAppend p => λ r, str_take r.1 p | _ => λ _, "" end b)
  | [] => ""
  end.

(** What the removals of a history took away. *)
Definition removed_by {B} (o : logE B) (b : B) (m : disk) : string :=
  match o in logE B return B → string with
  | LRemove i => λ e, match e with None => default "" (m i) | Some _ => "" end
  | _ => λ _, ""
  end b.
Fixpoint removed (h : list (event logE)) : string :=
  match h with Ev o b :: h => removed h +:+ removed_by o b (disk_of h) | [] => "" end.

Lemma backups_ext m m' k : (∀ i, (0 < i ≤ k)%nat → m i = m' i) → backups m k = backups m' k.
Proof. induction k as [|k IH]; intros H; [done|]. cbn. rewrite H by lia. f_equal. apply IH. intros i Hi. apply H. lia. Qed.

Lemma set_same i d m : set_file i d m i = d.
Proof. unfold set_file. by rewrite Nat.eqb_refl. Qed.
Lemma set_other i j d m : j ≠ i → set_file i d m j = m j.
Proof. unfold set_file. intros H. by destruct (Nat.eqb_spec j i). Qed.

(** A backup moves to the place above it. *)
Definition move (i j : nat) (m : disk) : disk := set_file i None (set_file j (m i) m).
Lemma backups_move m i k : (0 < i)%nat → (S i ≤ k)%nat → m (S i) = None → backups (move i (S i) m) k = backups m k.
Proof.
  intros Hi Hk Hm. induction k as [|k IH]; [lia|]. destruct (decide (i = k)) as [->|Hne].
  - destruct k as [|k]; [lia|]. cbn [backups]. unfold move. rewrite set_other, set_same, set_same, Hm by lia. cbn [default].
    rewrite !str_app_nil_l. f_equal. apply backups_ext. intros j Hj. rewrite !set_other by lia. done.
  - cbn [backups]. f_equal; [unfold move; by rewrite !set_other by lia|]. apply IH. lia.
Qed.

(** ** Nothing is lost but the oldest *)

(** No file is longer than [bound], the longest record and the size. *)
Context (bound longest : Z) (Hsize : size ≤ bound) (Hok0 : ∀ i, size_of (disk0 i) ≤ bound).
Local Notation world := (world logE RotatingWriter).
Local Abbreviation wpl := (wp log_legal).
Local Abbreviation D w := (disk_of (trace w)).

(** The live file has no room for a record. *)
Definition full (m : disk) : Prop := size < size_of (m 0%nat) + longest.
(** Only the last file is removed, and only once the live one is full. *)
Definition due {B} (o : logE B) (m : disk) : Prop :=
  match o with LRemove i => i = keep ∧ full m | _ => True end.
Fixpoint removals_due (h : list (event logE)) : Prop :=
  match h with Ev o _ :: h => due o (disk_of h) ∧ removals_due h | [] => True end.

(** What is read back is all that was written but what was removed; no file is
    too long; beyond the backups nothing is touched. *)
Definition kept (w : world) : Prop :=
  (log_text disk0 +:+ appended (trace w) = removed (trace w) +:+ log_text (D w) ∧ removals_due (trace w)) ∧
  (∀ i, size_of (D w i) ≤ bound) ∧ (∀ i, (keep < i)%nat → D w i = disk0 i).
(** The counter of an open file. *)
Definition counted (w : world) : Prop := file (st w) = true → n_bytes (st w) = size_of (D w 0%nat).

(** A step that appends nothing and loses only what it removes. *)
Lemma kept_step {B} (o : logE B) b (w : world) (m : disk) : log_effect o b (D w) = m → appended (trace (told o b w)) = appended (trace w) →
  due o (D w) → log_text (D w) = removed_by o b (D w) +:+ log_text m →
  (∀ i, size_of (m i) ≤ bound) → (∀ i, (keep < i)%nat → m i = D w i) →
  kept w → kept (told o b w).
Proof.
  intros Hm Ha Hd Hl Hb Hk ((H1 & Hr) & H2 & H3). unfold kept. cbn [told trace disk_of removed] in *. rewrite Hm, Ha.
  split; [split; [|done]|split; [done|]].
  - by rewrite H1, Hl, str_app_assoc.
  - intros i Hi. rewrite Hk by done. by apply H3.
Qed.

Lemma kept_same {B} (o : logE B) b w : log_effect o b (D w) = D w → appended (trace (told o b w)) = appended (trace w) →
  due o (D w) → removed_by o b (D w) = "" → kept w → kept (told o b w).
Proof. intros Hm Ha Hd Hr Hw. eapply kept_step; [exact Hm|done..| |apply Hw|done|done]. rewrite Hr. done. Qed.

Lemma appended_nothing {B} (o : logE B) b (w : world) : match o with LAppend _ => False | _ => True end → appended (trace (told o b w)) = appended (trace w).
Proof. intros Ho. cbn. destruct o; try done; by rewrite str_app_nil_r. Qed.

Lemma move_sizes i j m : (∀ k, size_of (m k) ≤ bound) → 0 ≤ bound → ∀ k, size_of (move i j m k) ≤ bound.
Proof.
  intros H H0 k. unfold move. destruct (decide (k = i)) as [->|Hi]; [rewrite set_same; by unfold size_of|]. rewrite set_other by done.
  destruct (decide (k = j)) as [->|Hj]; [rewrite set_same|rewrite set_other by done]; apply H.
Qed.

Lemma bound_pos w : kept w → 0 ≤ bound.
Proof. intros (_ & H & _). specialize (H 0%nat). unfold size_of in H. lia. Qed.

(** A step of the rotation, for any answer. *)
Lemma wp_log_step o what i k (w : world) Q : kept w →
  (∀ e, log_legal (trace w) _ o e → (∀ x, e = Some x → is_foreign x ErrNotExist = true) → kept (told o e w) ∧ wpl k (told o e w) Q) →
  (∀ e x, log_legal (trace w) _ o (Some e) → Q (Some x) (told o (Some e) w)) → wpl (step o what i k) w Q.
Proof.
  intros Hw Hk Hf. apply wp_ask. intros [e|] Hl; [|by apply (Hk None)].
  destruct (is_foreign e ErrNotExist) eqn:He; [|by eapply Hf]. apply (Hk (Some e)); [done|]. by intros x [= <-].
Qed.

Lemma log_text_remove_last m : (1 ≤ keep)%nat → log_text m = default "" (m keep) +:+ log_text (set_file keep None m).
Proof.
  intros Hk. unfold log_text. destruct keep as [|k]; [lia|]. cbn [backups].
  rewrite set_same, set_other by lia. cbn [default]. rewrite str_app_nil_l, str_app_assoc. do 2 f_equal.
  apply backups_ext. intros j Hj. by rewrite set_other by lia.
Qed.

Definition steady (w : world) : Prop := kept w ∧ counted w.
Lemma closed_steady w : kept w → file (st w) = false → steady w.
Proof. intros Hw Hf. split; [done|]. intros Hf'. by rewrite Hf in Hf'. Qed.

(** The live file is opened again, empty when it is missing. *)
Lemma wp_open (w : world) (Q : option error → world → Prop) : kept w → file (st w) = false → D w 0%nat = None →
  (∀ e w', steady w' → (e = None → file (st w') = true ∧ size_of (D w' 0%nat) = 0) → Q e w') → wpl open_log w Q.
Proof.
  intros Hw Hf Hm HQ. apply wp_ask. intros [e|] _.
  { apply HQ; [|done]. apply closed_steady; [|done]. apply kept_same; [done|by apply appended_nothing|done..]. }
  set (w1 := told LOpen None w). assert (Hf1 : file (st w1) = false) by done. assert (HD : D w1 = set_file 0 (Some "") (D w)) by (cbn; by rewrite Hm).
  assert (Hw1 : kept w1).
  { eapply kept_step; [exact HD|by apply appended_nothing|done| | | |done].
    - cbn [removed_by]. rewrite str_app_nil_l. unfold log_text. rewrite set_same, Hm. cbn [default]. f_equal.
      apply backups_ext. intros j Hj. by rewrite set_other by lia.
    - intros j. destruct (decide (j = 0%nat)) as [->|Hj]; [rewrite set_same; exact (bound_pos _ Hw)|rewrite set_other by done; apply Hw].
    - intros j Hj. by rewrite set_other by lia. }
  assert (HD0 : D w1 0%nat = Some "") by by rewrite HD, set_same. clearbody w1.
  apply wp_ask. intros [bytes|e] Hl.
  - apply wp_update. set (w2 := put _ _). assert (Hw2 : kept w2) by (apply (kept_same LStat (Ok bytes) w1); [done|by apply appended_nothing|done..]).
    assert (HD2 : D w2 0%nat = Some "") by exact HD0.
    cbn in Hl. rewrite HD0 in Hl. apply HQ; [split; [done|intros _; by rewrite HD2]|intros _; split; [done|by rewrite HD2]].
  - apply wp_ask. intros c _. apply HQ; [|done].
    apply closed_steady; [|done]. by do 2 (apply kept_same; [done|by apply appended_nothing|done..|]).
Qed.

(** What a rename makes of the text. *)
Lemma log_text_move m i : (0 < i)%nat → (S i ≤ keep)%nat → m (S i) = None → log_text (move i (S i) m) = log_text m.
Proof. intros Hi Hk Hm. unfold log_text. rewrite backups_move by done. f_equal. unfold move. by rewrite !set_other by lia. Qed.
Lemma log_text_first m : (1 ≤ keep)%nat → m 1%nat = None → log_text (move 0 1 m) = log_text m.
Proof.
  intros Hk Hm. unfold log_text. unfold move at 2. rewrite set_same. cbn [default]. rewrite str_app_nil_r.
  clear Hok0. induction keep as [|k IH]; [lia|]. destruct (decide (k = 0%nat)) as [->|Hk0].
  - cbn [backups]. unfold move. rewrite set_other, set_same, Hm by lia. cbn [default]. by rewrite str_app_nil_r.
  - cbn [backups]. rewrite IH, str_app_assoc by lia. unfold move. by rewrite !set_other by lia.
Qed.

(** A step that failed has changed nothing. *)
Definition failed_step {B} (o : logE B) : B → Prop :=
  match o in logE B return B → Prop with LRemove _ | LRename _ _ => λ e, e ≠ None | _ => λ _, False end.
Lemma kept_failed {B} (o : logE B) b w : failed_step o b → due o (D w) → kept w → kept (told o b w).
Proof.
  intros Hf Hd. apply kept_same; [destruct o; try done; by destruct b|by apply appended_nothing; destruct o|done|].
  destruct o; try done. by destruct b.
Qed.

(** The loop: the place above the next backup is free. *)
Lemma wp_shift i k (w : world) Q : (i ≤ keep)%nat → kept w → file (st w) = false → (i = keep → full (D w)) → ((i < keep)%nat → D w (S i) = None) →
  (∀ w', kept w' → file (st w') = false → (keep = 0%nat → full (D w')) → ((1 ≤ keep)%nat → D w' 1%nat = None) → wpl k w' Q) →
  (∀ x w', steady w' → Q (Some x) w') → wpl (shift i k) w Q.
Proof.
  revert w. induction i as [|i IH]; intros w Hi Hw Hf Hfull Hfree Hk HQ; [by apply Hk; auto|]. cbn [shift].
  destruct (Nat.eqb_spec (S i) keep) as [Hlast|Hlast]; apply wp_log_step; try done.
  - specialize (Hfull Hlast). intros e Hl He. assert (Hw1 : kept (told (LRemove (S i)) e w)).
    { destruct e as [x|]; [by apply kept_failed|]. apply (kept_step _ _ _ (set_file (S i) None (D w))); [done|by apply appended_nothing|done| | | |done].
      - rewrite Hlast. apply log_text_remove_last. lia.
      - intros j. destruct (decide (j = S i)) as [->|Hj]; [rewrite set_same; exact (bound_pos _ Hw)|rewrite set_other by done; apply Hw].
      - intros j Hj. by rewrite set_other by lia. }
    split; [done|]. apply IH; [lia|done|done|lia| |done|done]. intros _. destruct e as [x|]; [by apply Hl, He|exact (set_same _ _ _)].
  - intros e x Hl. apply HQ, closed_steady; [apply kept_failed; [done|by split; [|apply Hfull]|done]|done].
  - intros e Hl He. specialize (Hfree ltac:(lia)). assert (Hw1 : kept (told (LRename (S i) (S (S i))) e w)).
    { destruct e as [x|]; [by apply kept_failed|]. apply (kept_step _ _ _ (move (S i) (S (S i)) (D w))); [done|by apply appended_nothing|done| | | |done].
      - symmetry. apply (log_text_move (D w) (S i)); [lia|lia|done].
      - apply move_sizes; [apply Hw|exact (bound_pos _ Hw)].
      - intros j Hj. unfold move. by rewrite !set_other by lia. }
    split; [done|]. apply IH; [lia|done|done|lia| |done|done]. intros _. destruct e as [x|]; [by apply Hl, He|exact (set_same _ _ _)].
  - intros e x Hl. apply HQ, closed_steady; [by apply kept_failed|done].
Qed.

Lemma wp_rotate (w : world) Q : steady w → full (D w) →
  (∀ e w', steady w' → (e = None → file (st w') = true ∧ size_of (D w' 0%nat) = 0) → Q e w') → wpl rotate w Q.
Proof.
  intros [Hw Hc] Hfull HQ. apply wp_ask. intros [e|] _.
  { apply HQ; [|done]. split; [by apply kept_same; [|apply appended_nothing|..]|exact Hc]. }
  apply wp_update. set (w1 := put _ _).
  assert (Hw1 : kept w1) by (apply (kept_same LClose None w); [done|by apply appended_nothing|done..]).
  assert (Hfull1 : full (D w1)) by exact Hfull.
  apply wp_shift; [lia|done|done|done|intros ?; lia| |by intros x w' Hw'; apply HQ].
  clearbody w1. intros w2 Hw2 Hf Hfull2 Hfree. destruct (Nat.leb_spec 1 keep) as [Hk|Hk]; (apply wp_log_step; [done| |]).
  - intros e Hl He. assert (Hw3 : kept (told (LRename 0 1) e w2)).
    { destruct e as [x|]; [by apply kept_failed|].
      apply (kept_step _ _ _ (move 0 1 (D w2))); [done|by apply appended_nothing|done| | | |done].
      - symmetry. apply log_text_first; [done|by apply Hfree].
      - apply move_sizes; [apply Hw2|exact (bound_pos _ Hw2)].
      - intros j Hj. unfold move. by rewrite !set_other by lia. }
    split; [done|]. apply wp_open; [done|done| |done]. destruct e as [x|]; [by apply Hl, He|exact (set_same _ _ _)].
  - intros e x Hl. apply HQ; [|done]. apply closed_steady; [by apply kept_failed|done].
  - assert (Hk0 : keep = 0%nat) by lia. specialize (Hfull2 Hk0). intros e Hl He. assert (Hw3 : kept (told (LRemove 0) e w2)).
    { destruct e as [x|]; [by apply kept_failed|].
      apply (kept_step _ _ _ (set_file 0 None (D w2))); [done|by apply appended_nothing|done| | | |done].
      - unfold log_text. rewrite Hk0. cbn [backups removed_by]. by rewrite set_same, !str_app_nil_l, str_app_nil_r.
      - intros j. destruct (decide (j = 0%nat)) as [->|Hj]; [rewrite set_same; exact (bound_pos _ Hw2)|rewrite set_other by done; apply Hw2].
      - intros j Hj. by rewrite set_other by lia. }
    split; [done|]. apply wp_open; [done|done| |done]. destruct e as [x|]; [by apply Hl, He|exact (set_same _ _ _)].
  - intros e x Hl. apply HQ; [|done]. apply closed_steady; [apply kept_failed; [done|split; [lia|apply Hfull2; lia]|done]|done].
Qed.

Lemma size_some s : size_of (Some s) = Z.of_nat (String.length s).
Proof. done. Qed.

Lemma length_str_take n s : 0 ≤ n ≤ Z.of_nat (String.length s) → Z.of_nat (String.length (str_take n s)) = n.
Proof. intros H. unfold str_take. rewrite <-length_bytes, of_bytes_bytes, length_take, length_bytes. lia. Qed.

(** A record there is room for. *)
Lemma wp_append p (w : world) (Q : Z * option error → world → Prop) : steady w → file (st w) = true →
  size_of (D w 0%nat) + Z.of_nat (String.length p) ≤ bound → (∀ r w', steady w' → Q r w') → wpl (append p) w Q.
Proof.
  intros [Hw Hc] Hf Hroom HQ. apply wp_ask. intros r [Hr _]. apply wp_update, HQ. set (w1 := put _ _).
  assert (HD : D w1 = set_file 0 (Some (default "" (D w 0%nat) +:+ str_take r.1 p)) (D w)) by done.
  assert (Hlen : size_of (D w1 0%nat) = size_of (D w 0%nat) + r.1).
  { rewrite HD, set_same, size_some, str_length_app, Nat2Z.inj_add, length_str_take by done. done. }
  split; [|intros _; rewrite Hlen, <-Hc by done; done].
  destruct Hw as ((H1 & Hrem) & H2 & H3). split; [split; [|by split]|split].
  - change (removed (trace w1)) with (removed (trace w) +:+ ""). rewrite str_app_nil_r.
    change (appended (trace w1)) with (appended (trace w) +:+ str_take r.1 p).
    rewrite <-str_app_assoc, H1, HD. unfold log_text. rewrite set_same. cbn [default]. rewrite !str_app_assoc. do 2 f_equal.
    apply backups_ext. intros j Hj. by rewrite set_other by lia.
  - intros j. destruct (decide (j = 0%nat)) as [->|Hj]; [rewrite Hlen; lia|]. rewrite HD, set_other by done. apply H2.
  - intros j Hj. rewrite HD, set_other by lia. by apply H3.
Qed.

Lemma wp_Write p (w : world) : Z.of_nat (String.length p) ≤ bound → Z.of_nat (String.length p) ≤ longest → steady w → wpl (Write p) w (λ _ w', steady w').
Proof.
  intros Hp Hp2 Hw. apply wp_look, wp_look. destruct (file (st w)) eqn:Hf; cbn [negb]; [|done].
  pose proof (proj2 Hw Hf) as Hc. destruct (Z.ltb_spec 0 (n_bytes (st w))) as [Hn|Hn]; cbn [andb].
  - destruct (Z.ltb_spec size (n_bytes (st w) + Z.of_nat (String.length p))); [|apply wp_append; [done|done|lia|done]].
    apply wp_bind, wp_rotate; [done|unfold full; lia|]. intros [e|] w1 Hw1 H1; [done|]. destruct (H1 eq_refl) as [Hf1 Hs1].
    apply wp_append; [done|done|lia|done].
  - apply wp_append; [done|done|lia|done].
Qed.

(** ** What a write reports is what it appended *)

Definition silent (text : string) (w : world) : Prop := appended (trace w) = text.
Lemma silent_told {B} (o : logE B) b w text : match o with LAppend _ => False | _ => True end → silent text w → silent text (told o b w).
Proof. intros Ho Hw. unfold silent. by rewrite appended_nothing. Qed.
Lemma silent_put s text w : silent text w → silent text (put s w).
Proof. done. Qed.

Lemma wp_open_silent text w : silent text w → wpl open_log w (λ _, silent text).
Proof.
  intros Hw. apply wp_ask. intros [e|] _; [by apply silent_told|]. apply wp_ask. intros [n|e] _.
  - by apply wp_update, silent_put, silent_told, silent_told.
  - apply wp_ask. intros c _. by repeat (apply silent_told; [done|]).
Qed.
Lemma wp_step_silent text o what i k w : match o with LAppend _ => False | _ => True end → silent text w →
  (∀ w', silent text w' → wpl k w' (λ _, silent text)) → wpl (step o what i k) w (λ _, silent text).
Proof. intros Ho Hw Hk. apply wp_ask. intros [e|] _; [destruct (is_foreign e ErrNotExist); [by apply Hk, silent_told|by apply silent_told]|by apply Hk, silent_told]. Qed.
Lemma wp_rotate_silent text w : silent text w → wpl rotate w (λ _, silent text).
Proof.
  intros Hw. apply wp_ask. intros [e|] _; [by apply silent_told|]. apply wp_update. set (w1 := put _ _).
  assert (Hw1 : silent text w1) by (by apply silent_put, silent_told). clearbody w1. revert w1 Hw1. generalize keep at 1. intros i. induction i as [|i IH]; intros w1 Hw1; cbn [shift].
  - destruct (Nat.leb 1 keep); apply wp_step_silent; [done|done|by apply wp_open_silent|done|done|by apply wp_open_silent].
  - destruct (Nat.eqb (S i) keep); by apply wp_step_silent.
Qed.

(** The bytes reported were appended, all of them when no error is. *)
Definition reported (p : string) (text : string) (r : Z * option error) (w : world) : Prop :=
  silent (text +:+ str_take r.1 p) w ∧ (r.2 = None → r.1 = Z.of_nat (String.length p)).
Lemma wp_append_reported p text w : silent text w → wpl (append p) w (λ r w', reported p text r w').
Proof. intros Hw. apply wp_ask. intros r [_ Hr]. apply wp_update. split; [|exact Hr]. unfold silent in *. cbn. by rewrite Hw. Qed.
Lemma wp_Write_reported p text w : silent text w → wpl (Write p) w (λ r w', reported p text r w').
Proof.
  intros Hw. assert (H0 : ∀ w' e, silent text w' → reported p text (0, Some e) w').
  { intros w' e Hw'. split; [|done]. unfold silent. cbn [fst]. change (str_take 0 p) with "". by rewrite str_app_nil_r. }
  apply wp_look, wp_look. destruct (negb (file (st w))); [by apply H0|]. destruct (_ && _); [|by apply wp_append_reported].
  apply wp_bind. eapply wp_mono; [|by apply (wp_rotate_silent text)]. intros [e|] w1 Hw1; [by apply H0|by apply wp_append_reported].
Qed.

(** All that a session reported to have written. *)
Fixpoint written (l : list (string * (Z * option error))) : string :=
  match l with (p, r) :: l => str_take r.1 p +:+ written l | [] => "" end.
Definition whole (x : string * (Z * option error)) : Prop := x.2.2 = None → x.2.1 = Z.of_nat (String.length x.1).
Lemma session_reported text w l w' : session log_legal Write w l w' → silent text w → silent (text +:+ written l) w' ∧ Forall whole l.
Proof.
  intros Hs. revert text. induction Hs as [w|w c r w1 l w2 He _ IH]; intros text Hw; cbn; [by rewrite str_app_nil_r|].
  destruct (wp_exec He (wp_Write_reported c text w Hw)) as [H1 H2]. destruct (IH _ H1) as [H3 H4].
  split; [by rewrite <-str_app_assoc|by constructor].
Qed.
End Rotate.

(** [NewRotatingWriter]. *)
Definition NewRotatingWriter : string → prog logE RotatingWriter (option error) := open_log.

Lemma wp_NewRotatingWriter path size keep disk0 bound longest : (∀ i, size_of (disk0 i) ≤ bound) →
  wp (log_legal disk0) (NewRotatingWriter path) (mkWorld (mkWriter false 0) []) (λ _ w, steady size keep disk0 bound longest w).
Proof.
  intros Hok. set (w0 := mkWorld _ _). assert (Hw : kept size keep disk0 bound longest w0).
  { split; [split; [by cbn; rewrite str_app_nil_r, str_app_nil_l|done]|]. done. }
  destruct (disk0 0%nat) as [d|] eqn:Hd; [|by eapply wp_open].
  assert (Hs : ∀ e, kept size keep disk0 bound longest (told LOpen e w0)).
  { intros e. apply kept_same; [|by apply appended_nothing|done..]. cbn. destruct e; [done|]. by rewrite Hd. }
  apply wp_ask. intros [e|] _; [by apply closed_steady|]. apply wp_ask. intros [bytes|e] Hl.
  - apply wp_update. split; [apply (kept_same _ _ _ _ _ LStat (Ok bytes) (told LOpen None w0)); [done|by apply appended_nothing|done..]|].
    intros _. exact Hl.
  - apply wp_ask. intros c _. apply closed_steady; [|done]. by do 2 (apply kept_same; [done|by apply appended_nothing|done..|]).
Qed.

(** C28: Whatever fails while the log is written and rotated, nothing of it is
    lost but its oldest file, and that only when the live one is full: the
    files of the log, the oldest backup first, hold exactly what was in them at
    the start and all that was written since, less what was removed in front;
    each removal is that of the last backup (of the live file if none is kept)
    at a moment when the live file has no room for the longest record.  No file
    is longer than the size or the longest record, none is made beyond the
    backups, and the writer's counter is the size of the live file.  Written is
    what the writes reported, the whole record where they reported no error. *)
Theorem log_keeps_the_end path size keep disk0 bound longest r l w1 w :
  size ≤ bound → longest ≤ bound → (∀ i, size_of (disk0 i) ≤ bound) → Forall (λ x, Z.of_nat (String.length x.1) ≤ longest) l →
  exec (log_legal disk0) (NewRotatingWriter path) (mkWorld (mkWriter false 0) []) r w1 →
  session (log_legal disk0) (Write path size keep) w1 l w →
  log_text keep disk0 +:+ written l = removed disk0 (trace w) +:+ log_text keep (disk_of disk0 (trace w)) ∧
  Forall whole l ∧ removals_due size keep disk0 longest (trace w) ∧
  (∀ i, size_of (disk_of disk0 (trace w) i) ≤ bound) ∧
  (∀ i, (keep < i)%nat → disk_of disk0 (trace w) i = disk0 i) ∧
  (file (st w) = true → n_bytes (st w) = size_of (disk_of disk0 (trace w) 0%nat)).
Proof.
  intros Hs Hlo Hok Hl He Hses.
  assert (Hw : steady size keep disk0 bound longest w).
  { refine (session_inv (steady size keep disk0 bound longest) (λ p, Z.of_nat (String.length p) ≤ longest) _ Hl _ Hses).
    - intros p w0 Hp Hw0. apply wp_Write; [done|lia|done|done].
    - exact (wp_exec He (wp_NewRotatingWriter path size keep disk0 bound longest Hok)). }
  destruct Hw as [((H0 & H1) & H2 & H3) H4].
  assert (Hq : silent "" w1) by exact (wp_exec He (wp_open_silent path disk0 "" (mkWorld (mkWriter false 0) []) eq_refl)).
  destruct (session_reported path size keep disk0 "" w1 l w Hses Hq) as [Hq2 Hr]. unfold silent in Hq2. rewrite str_app_nil_l in Hq2.
  rewrite <-Hq2. by split_and!.
Qed.

(** A disk on which a rename of the first backup fails once. *)
Definition sample_disk (disk0 : disk) : oracle (E := logE) := λ B o h,
  match o in logE B return B with
  | LOpen | LClose => None
  | LStat => Ok (size_of (disk_of disk0 h 0%nat))
  | LAppend p => (Z.of_nat (String.length p), None)
  | LRemove i => match disk_of disk0 h i with Some _ => None | None => Some (Foreign ErrNotExist) end
  | LRename i j => match disk_of disk0 h i with Some _ => None | None => Some (Foreign ErrNotExist) end
  end.

Lemma log_disk_legal disk0 h B (o : logE B) : log_legal disk0 h B o (sample_disk disk0 B o h).
Proof. destruct o; cbn; try done; [lia|..]; by destruct (disk_of disk0 h i) eqn:E. Qed.

Example log_keeps_the_end_witness :
  let disk0 : disk := λ _, None in
  let first := interp (sample_disk disk0) (NewRotatingWriter "d.log") (mkWorld (mkWriter false 0) []) in
  let run := interp_all (Write "d.log" 10 2) (sample_disk disk0) ["aaaa,"; "bbbb,"; "cccc,"; "dddd,"; "eeee,"; "ffff,"; "gggg,"] first.2 in
  map (disk_of disk0 (trace run.2)) [0%nat; 1%nat; 2%nat; 3%nat] = [Some "gggg,"; Some "eeee,ffff,"; Some "cccc,dddd,"; None] ∧
  removed disk0 (trace run.2) = "aaaa,bbbb," ∧
  log_text 2 disk0 +:+ written run.1 = removed disk0 (trace run.2) +:+ log_text 2 (disk_of disk0 (trace run.2)).
Proof.
  intros disk0 first run. split; [vm_compute; reflexivity|]. split; [vm_compute; reflexivity|].
  pose proof (interp_exec (log_legal disk0) (sample_disk disk0) (NewRotatingWriter "d.log") (mkWorld (mkWriter false 0) []) (log_disk_legal disk0)) as He.
  pose proof (interp_all_session (log_legal disk0) (Write "d.log" 10 2) (sample_disk disk0) ["aaaa,"; "bbbb,"; "cccc,"; "dddd,"; "eeee,"; "ffff,"; "gggg,"] first.2 (log_disk_legal disk0)) as Hs.
  refine (proj1 (log_keeps_the_end "d.log" 10 2 disk0 10 5 _ _ _ _ _ _ _ _ He Hs)); [lia|lia|by intros i|vm_compute; repeat constructor; discriminate].
Defined.


(** ** The levels of the log *)

Inductive level := LevelDebug | LevelInfo | LevelWarn | LevelError.
Section Levels.
Context {U : UnicodeTables}.
Definition ParseLevel (s : string) : level :=
  let s := to_lower (trim_space s) in
  if String.eqb s "debug" then LevelDebug
  else if String.eqb s "warn" || String.eqb s "warning" then LevelWarn
  else if String.eqb s "error" then LevelError
  else LevelInfo.
Definition ResolveLevel (envValue configValue : string) : level :=
  if String.eqb (trim_space envValue) "" then ParseLevel configValue else ParseLevel envValue.
End Levels.

(** ** Several handlers for one record

    A handler has a level of its own and takes a record with an error or none. *)
Section Tee.
Context {R : Type}.
Record handler := mkHandler { enabled : level → bool; handle : level → R → option error }.
Definition tee_enabled (hs : list handler) (l : level) : bool := existsb (λ h, enabled h l) hs.
(** Every handler that admits the record gets it; the first error counts. *)
Definition tee_handle (hs : list handler) (l : level) (r : R) : option error :=
  foldl (λ first h, if negb (enabled h l) then first
                    else match handle h l r, first with Some e, None => Some e | _, _ => first end) None hs.
Definition Tee (loggers : list (option handler)) : handler :=
  match omap Datatypes.id loggers with
  | [] => mkHandler (λ _, false) (λ _ _, None)
  | [h] => h
  | hs => mkHandler (tee_enabled hs) (tee_handle hs)
  end.

(** The tee answers like its handlers: a record is wanted if one of them wants
    it, and the error is the first of those that do. *)
Lemma tee_handle_first hs l r : tee_handle hs l r = head (omap (λ h, if enabled h l then handle h l r else None) hs).
Proof.
  unfold tee_handle. assert (H : ∀ first, foldl (λ first h, if negb (enabled h l) then first
      else match handle h l r, first with Some e, None => Some e | _, _ => first end) first hs
    = match first with Some e => Some e | None => head (omap (λ h, if enabled h l then handle h l r else None) hs) end).
  { induction hs as [|h hs IH]; intros [e|]; [done..| |]; cbn; rewrite IH.
    - destruct (enabled h l), (handle h l r); done.
    - destruct (enabled h l), (handle h l r); done. }
  by rewrite H.
Qed.
End Tee.

(** ** A line of the log for the pane *)

Section Render.
Context {U : UnicodeTables} (zone : Duration).

(** What [json.Unmarshal] makes of a document in an [any]. *)
Fixpoint any_of (j : json) : option json :=
  match j with
  | JArr l => l' ← mapM any_of l; Some (JArr l')
  | JObj fs => fs' ← mapM (λ '(k, v), v' ← any_of v; Some (k, v')) fs; Some (JObj (sorted_fields (map_of_fields fs')))
  | JInt _ | JLit _ => f ← as_float (Some j); Some (JNum f)
  | _ => Some j
  end.

(** The integer a float equals, if it is one of 64 bits; Go leaves the
    conversion of others open, which are taken as different here. *)
Definition float_int (f : spec_float) : option Z :=
  match f with
  | S754_zero _ => Some 0
  | S754_finite neg m e =>
    let n := if 0 <=? e then Some (Z.pos m * 2 ^ e) else if Z.pos m mod 2 ^ (- e) =? 0 then Some (Z.pos m / 2 ^ (- e)) else None in
    match n with
    | Some n => let n := if neg then - n else n in if (int64_min <=? n) && (n <=? int64_max) then Some n else None
    | None => None
    end
  | _ => None
  end.

(** [%g] of the digits [s], the point after the first [k]: with an exponent of
    at least two digits where it is below -4 or from 6 on. *)
Definition g_digits (s : string) (k : Z) : string :=
  let exp := k - 1 in
  if (exp <? -4) || (6 <=? exp) then
    (if len s =? 1 then s else point_at 1 s) +:+ "e" +:+ (if exp <? 0 then "-" else "+") +:+
      (if Z.abs exp <? 10 then "0" else "") +:+ itoa (Z.abs exp)
  else if k <=? 0 then "0." +:+ zeros (Z.to_nat (- k)) +:+ s
  else if len s <=? k then s +:+ zeros (Z.to_nat (k - len s))
  else point_at k s.
Definition g_text (f : spec_float) : string :=
  match f with
  | S754_zero neg => if neg then "-0" else "0"
  | S754_infinity neg => if neg then "-Inf" else "+Inf"
  | S754_nan => "NaN"
  | S754_finite neg m x =>
    (if neg then "-" else "") +:+
    match shortest_decimal m x with Some (d, e) => g_digits (itoa d) (len (itoa d) + e) | None => "" end
  end.

Definition blank_or_quote : string := " " +:+ String "009" (String "034" "").
Definition contains_any (s chars : string) : bool := existsb (in_cutset chars) (bytes s).

Definition renderValue (v : json) : string :=
  match v with
  | JStr x => if contains_any x blank_or_quote then quote x else x
  | JNum f => match float_int f with Some n => itoa n | None => g_text f end
  | JNull => "null"
  | _ => default "" (Marshal v)
  end.

(** [Local().Format("15:04:05")]. *)
Definition clock_text (t : Time) : string :=
  let s := (t + zone) mod day_ns / Second in
  dec 2 (s / 3600) +:+ ":" +:+ dec 2 (s / 60 mod 60) +:+ ":" +:+ dec 2 (s mod 60).

Definition text_field (name : string) (rec : list (string * json)) : option string :=
  match map_field name rec with Some (JStr s) => Some s | _ => None end.
Definition named (k : string) : bool := String.eqb k "time" || String.eqb k "level" || String.eqb k "msg".
Definition spaced (s : string) : string := if String.eqb s "" then "" else s +:+ " ".

Definition render_record (rec : list (string * json)) : string :=
  let ts := match text_field "time" rec with
            | Some raw => match parse_rfc3339 false raw with Some t => clock_text t | None => raw end
            | None => ""
            end in
  spaced ts +:+ spaced (default "" (text_field "level" rec)) +:+ default "" (text_field "msg" rec) +:+
  String.concat "" (map (λ '(k, v), " " +:+ k +:+ "=" +:+ renderValue v) (List.filter (λ '(k, _), negb (named k)) rec)).

Definition renderLogLine (line : string) : string :=
  let line := trim_right line (String "013" "") in
  if negb (has_prefix line "{") then line
  else match Unmarshal line with
       | Some j => match any_of j with Some (JObj rec) => render_record rec | _ => line end
       | None => line
       end.
End Render.

Definition dq : string := String "034" "".
Example rendered {U : UnicodeTables} :
  let q s := dq +:+ s +:+ dq in
  map (renderLogLine (2 * Hour))
    ["{" +:+ q "time" +:+ ":" +:+ q "2026-09-03T07:08:09.5Z" +:+ "," +:+ q "msg" +:+ ":" +:+ q "hello" +:+ "," +:+ q "level" +:+ ":" +:+ q "INFO" +:+ "," +:+
     q "n" +:+ ":3," +:+ q "a" +:+ ":" +:+ q "x y" +:+ "," +:+ q "f" +:+ ":1234567.5," +:+ q "l" +:+ ":[1,true]}"; "plain text"]
  = ["09:08:09 INFO hello a=" +:+ q "x y" +:+ " f=1.2345675e+06 l=[1,true] n=3"; "plain text"].
Proof. vm_compute. reflexivity. Qed.

(** ** The pane that follows the file

    A file is named by its identity, which [os.SameFile] compares. *)

Inductive tailE : Type → Type :=
  | TStat : tailE (result (Z * Z))                      (* identity and size of what the path names *)
  | TOpen : tailE (result Z)                            (* opened, and the identity of what was opened *)
  | TSeek (off : Z) : tailE (option error)
  | TSeekEnd : tailE (result Z)
  | TRead : tailE (result string)                       (* from there to the end *)
  | TScan : tailE (list string * option error)          (* the lines of the file; a line too long ends the scan *)
  | TClose : tailE unit
  | TPrint (line : string) : tailE unit
  | TTick : tailE bool.                                 (* false: the context ended first *)

Definition logsTailLines : nat := 100.
Definition logsPollInterval : Duration := 500 * 1000000.

Record tailer := mkTailer { tfile : bool; tinfo : Z; toffset : Z; tpartial : string }.
Definition newTailer : tailer := mkTailer false 0 0 "".

Section Tail.
Context {U : UnicodeTables} (zone : Duration).
Local Notation prog := (prog tailE tailer).
Definition tail {B} (o : tailE B) : prog B := call o.

Definition open_tail : prog (option error) :=
  do r ← tail TOpen;
  match r with
  | Err e => fail e
  | Ok id => do _ ← modify (λ _, mkTailer true id 0 ""); nil_
  end.
Definition close_tail : prog unit :=
  do f ← gets tfile;
  if f : bool then do _ ← tail TClose; modify (λ t, mkTailer false (tinfo t) (toffset t) (tpartial t)) else Ret tt.

Fixpoint print_lines (ls : list string) : prog unit :=
  match ls with
  | [] => Ret tt
  | l :: ls => do _ ← tail (TPrint (renderLogLine zone l)); print_lines ls
  end.

(** The complete lines of a text and what is left of it. *)
Definition complete (text : string) : list string * string :=
  let lines := split_char newline text in (removelast lines, default "" (last lines)).
Definition advance (data : string) (t : tailer) : tailer :=
  mkTailer (tfile t) (tinfo t) (toffset t + len data) (complete (tpartial t +:+ data)).2.
(** What was appended since the last time. *)
Definition read_on : prog (option error) :=
  do off ← gets toffset;
  do e ← tail (TSeek off);
  match e with
  | Some e => fail e
  | None =>
    do r ← tail TRead;
    match r with
    | Err e => fail e
    | Ok data =>
      do partial ← gets tpartial;
      do _ ← modify (advance data);
      do _ ← print_lines (complete (partial +:+ data)).1;
      nil_
    end
  end.
Definition poll_new (size : Z) : prog (option error) :=
  do off ← gets toffset;
  if size =? off then nil_ else read_on.

Definition poll : prog (option error) :=
  do r ← tail TStat;
  match r with
  | Err e => if is_foreign e ErrNotExist then nil_ else fail e
  | Ok (id, size) =>
    do t ← gets Datatypes.id;
    if negb (tfile t) || negb (id =? tinfo t) || (size <? toffset t) then
      do _ ← close_tail;
      do e ← open_tail;
      match e with
      | Some e => if is_foreign e ErrNotExist then nil_ else fail e
      | None => poll_new size
      end
    else poll_new size
  end.

(** The last [n] lines of the file. *)
Definition last_lines (n : nat) (ls : list string) : list string := drop (length ls - n) ls.
Definition show_tail (n : nat) : prog (option error) :=
  do r ← tail TScan;
  match r with
  | (_, Some e) => fail e
  | (ls, None) =>
    do _ ← print_lines (last_lines n ls);
    do r ← tail TSeekEnd;
    match r with
    | Ok e => do _ ← modify (λ t, mkTailer (tfile t) (tinfo t) e (tpartial t)); nil_
    | Err _ => nil_
    end
  end.

Fixpoint follow (polls : nat) : prog (option error) :=
  match polls with
  | O => nil_
  | S polls =>
    do on ← tail TTick;
    if negb on then nil_
    else do e ← poll; match e with Some e => fail e | None => follow polls end
  end.
Definition run_tail (polls n : nat) : prog (option error) :=
  do e ← open_tail;
  do e ← match e with
         | Some e => if is_foreign e ErrNotExist then do _ ← tail (TPrint "(no log file yet)"); nil_ else fail e
         | None => show_tail n
         end;
  match e with
  | Some e => do _ ← close_tail; fail e
  | None => do e ← follow polls; do _ ← close_tail; Ret e
  end.

(** ** The lines do not depend on where the reads cut the text *)

(** What a history printed, and what it read. *)
Fixpoint printed (h : list (event tailE)) : list string :=
  match h with Ev o b :: h => printed h ++ match o with TPrint l => [l] | _ => [] end | [] => [] end.
Fixpoint reads (h : list (event tailE)) : string :=
  match h with
  | Ev o b :: h => reads h +:+ (match o in tailE B return B → string with TRead => λ r, match r with Ok d => d | Err _ => "" end | _ => λ _, "" end b)
  | [] => ""
  end.

Lemma complete_snoc l x text : split_char newline text = l ++ [x] → complete text = (l, x).
Proof. intros E. unfold complete. by rewrite E, removelast_last, last_snoc. Qed.

Lemma split_char_last c s : ∃ l x, split_char c s = l ++ [x].
Proof. destruct (exists_last (split_char_some c s)) as (l & x & E). by exists l, x. Qed.

Lemma split_lines_app c a b l x : split_char c a = l ++ [x] → split_char c (a +:+ b) = l ++ split_char c (x +:+ b).
Proof.
  revert l x. induction a as [|y a IH]; intros l x E.
  { destruct l as [|z [|z' l]]; [|discriminate..]. by injection E as <-. }
  rewrite str_app_cons. cbn [split_char] in *. destruct (Ascii.eqb_spec y c) as [->|Hy].
  - destruct l as [|z l]; [injection E as _ E; by destruct (split_char_some c a)|]. injection E as <- E. by rewrite (IH l x E).
  - destruct (split_char_last c a) as (l0 & x0 & Ea). rewrite (IH _ _ Ea). rewrite Ea in E.
    destruct l0 as [|f r]; cbn [app] in *.
    + destruct l as [|z [|z' l]]; [|discriminate..]. injection E as <-. rewrite str_app_cons. cbn [split_char app].
      destruct (Ascii.eqb_spec y c); [done|]. done.
    + destruct l as [|z l]; [by destruct r|]. injection E as <- E. by apply app_inj_tail in E as [-> ->].
Qed.

(** Reading on after a text is completing what was left of it. *)
Lemma complete_app a b : complete (a +:+ b) = ((complete a).1 ++ (complete ((complete a).2 +:+ b)).1, (complete ((complete a).2 +:+ b)).2).
Proof.
  destruct (split_char_last newline a) as (l & x & E). rewrite (complete_snoc l x a E). cbn [fst snd].
  destruct (split_char_last newline (x +:+ b)) as (l' & x' & E'). rewrite (complete_snoc l' x' _ E').
  apply complete_snoc. by rewrite (split_lines_app _ _ _ _ _ E), E', app_assoc.
Qed.

Definition tracked (w : world tailE tailer) : Prop :=
  printed (trace w) = map (renderLogLine zone) (complete (reads (trace w))).1 ∧ tpartial (st w) = (complete (reads (trace w))).2.

Lemma wp_print_lines ls (w : world tailE tailer) :
  wp anything (print_lines ls) w (λ _ w', st w' = st w ∧ printed (trace w') = printed (trace w) ++ map (renderLogLine zone) ls ∧ reads (trace w') = reads (trace w)).
Proof.
  revert w. induction ls as [|l ls IH]; intros w; [by rewrite app_nil_r|]. apply wp_ask. intros [] _.
  eapply wp_mono; [|apply IH]. cbn. intros [] w' (-> & -> & ->). by rewrite <-app_assoc, str_app_nil_r.
Qed.

Lemma wp_read_on (w : world tailE tailer) : tracked w → wp anything read_on w (λ _ w', tracked w').
Proof.
  intros [Hp Hr]. unfold read_on. apply wp_look, wp_ask. intros [e|] _.
  { split; cbn; by rewrite ?app_nil_r, ?str_app_nil_r. }
  apply wp_ask. intros [data|e] _; [|split; cbn; by rewrite ?app_nil_r, ?str_app_nil_r].
  apply wp_look, wp_update, wp_bind. eapply wp_mono; [|apply wp_print_lines]. cbn. intros [] w' (Hst & Hpr & Hre).
  rewrite !app_nil_r, Hp, Hr, <-map_app in Hpr. rewrite str_app_nil_r in Hre. split; rewrite Hre, complete_app.
  - exact Hpr.
  - rewrite Hst. cbn. by rewrite Hr.
Qed.
End Tail.

(** However a growing file is cut into reads, the pane prints the complete lines
    of what it has read, each once and in order, and keeps the rest. *)
Theorem tail_lines {U : UnicodeTables} zone (l : list (unit * option error)) w :
  session anything (λ _ : unit, read_on zone) (mkWorld newTailer []) l w →
  printed (trace w) = map (renderLogLine zone) (complete (reads (trace w))).1 ∧ tpartial (st w) = (complete (reads (trace w))).2.
Proof.
  intros Hs. refine (session_inv (tracked zone) (λ _, True) _ _ _ Hs); [intros c w0 _; apply wp_read_on|by apply Forall_true|done].
Qed.
