(* ===== verification/HerdrWire.v ===== *)
(** internal/adapters/herdr/wire.go and the decoders of call.go, gateway.go and
    stream.go: the shapes of Herdr's newline-delimited JSON, what an agent of
    the wire is in the domain, and what an event line means. *)
From S2P Require Import Prelude GoStrings Status Events Json JsonText.

Local Open Scope Z_scope.

Definition protocolVersion : Z := 17.

(** ** Titles

    [unicode.So], [unicode.Sm] and [unicode.Mn] are tables of the standard
    library; their part above ASCII is a parameter. *)
Class SymbolTables := { uc_symbol : Z → bool }.

(** The part of them up to U+00FF, the two blocks agents spin glyphs of
    (dingbats, braille), the variation selector and U+FFFD. *)
Definition glyph_tables : SymbolTables := {|
  uc_symbol r := existsb (Z.eqb r) [166; 169; 172; 174; 176; 177; 215; 247; 65039; 65533]
    || ((9984 <=? r) && (r <=? 10087)) || ((10240 <=? r) && (r <=? 10495))
|}.

Section Wire.
Context {S : SymbolTables}.

Definition symbol_rune (r : Z) : bool :=
  if r <? 128 then existsb (Z.eqb r) [43; 60; 61; 62; 124; 126] else uc_symbol r.
Definition title_noise (r : Z) : bool := is_space r || symbol_rune r || (r =? 65039).

Fixpoint drop_segs (p : Z → bool) (l : list (Z * string)) : list (Z * string) :=
  match l with
  | (r, b) :: l' => if p r then drop_segs p l' else l
  | [] => []
  end.
Definition trim_left_func (p : Z → bool) (s : string) : string := concat_str (drop_segs p (segs s)).*2.

Definition cleanTitle (s : string) : string := trim_space (trim_left_func title_noise s).

(** ** Agents *)

Record agentInfo := mkAgentInfo {
  AI_PaneID : string; AI_WorkspaceID : string; AI_TabID : string; AI_TerminalID : string;
  AI_Agent : string; AI_AgentStatus : string; AI_Name : option string; AI_DisplayAgent : string;
  AI_Title : string; AI_TerminalTitle : string; AI_TerminalTitleStripped : string;
  AI_Cwd : string; AI_ForegroundCwd : string; AI_Focused : bool;
  AI_Revision : Z; AI_StateChangeSeq : Z;
  AI_InteractiveReady : bool; AI_LaunchPending : bool; AI_ScreenDetectionSkipped : bool
}.

(** [json.Unmarshal] into the struct: a field of another type fails it. *)
Definition decode_agentInfo (fs : list (string * json)) : option agentInfo :=
  let str name := as_string (struct_field name fs) in
  let bool name := as_bool (struct_field name fs) in
  let int name := as_int (struct_field name fs) in
  pane ← str "pane_id"; ws ← str "workspace_id"; tab ← str "tab_id"; term ← str "terminal_id";
  agent ← str "agent"; status ← str "agent_status"; name ← as_pointer (struct_field "name" fs);
  display ← str "display_agent"; title ← str "title"; ttitle ← str "terminal_title";
  stripped ← str "terminal_title_stripped"; cwd ← str "cwd"; fcwd ← str "foreground_cwd";
  focused ← bool "focused"; rev ← int "revision"; seq ← int "state_change_seq";
  ready ← bool "interactive_ready"; pending ← bool "launch_pending"; skipped ← bool "screen_detection_skipped";
  Some (mkAgentInfo pane ws tab term agent status name display title ttitle stripped cwd fcwd focused rev seq ready pending skipped).

Definition pickTitle (a : agentInfo) : string :=
  let t := cleanTitle (AI_Title a) in
  if negb (String.eqb t "") then t
  else
    let t := cleanTitle (AI_TerminalTitleStripped a) in
    if negb (String.eqb t "") then t else cleanTitle (AI_TerminalTitle a).

Definition toDomainAgent (a : agentInfo) : Agent := {|
  AKey := mkKey (AI_PaneID a) (AI_TerminalID a);
  WorkspaceID := AI_WorkspaceID a; WorkspaceLabel := "";
  TabID := AI_TabID a; TabLabel := "";
  Kind := AI_Agent a;
  Name := match AI_Name a with Some n => trim_space n | None => "" end;
  Title := pickTitle a;
  AStatus := ParseStatus (AI_AgentStatus a);
  Revision := AI_Revision a; StateChangeSeq := AI_StateChangeSeq a;
  Focused := AI_Focused a; Cwd := AI_Cwd a
|}.

(** ** Replies *)

Record wireError := mkWireError { WE_Code : string; WE_Message : string }.
Record response := mkResponse { RespID : string; RespResult : option json; RespError : option wireError }.

Definition decode_wireError (fs : list (string * json)) : option wireError :=
  code ← as_string (struct_field "code" fs); message ← as_string (struct_field "message" fs);
  Some (mkWireError code message).

Definition decode_response (j : json) : option response :=
  fs ← as_fields j; id ← as_string (struct_field "id" fs);
  err ← match struct_field "error" fs with
        | None | Some JNull => Some None
        | Some e => efs ← as_fields e; w ← decode_wireError efs; Some (Some w)
        end;
  Some (mkResponse id (struct_field "result" fs) err).

(** [json.Unmarshal] of a raw field: a field that is absent is no document. *)
Definition raw_fields (raw : option json) : option (list (string * json)) :=
  match raw with Some j => as_fields j | None => None end.

Record workspaceInfo := mkWorkspaceInfo { WI_WorkspaceID : string; WI_Label : string }.
Record tabInfo := mkTabInfo { TI_TabID : string; TI_WorkspaceID : string; TI_Label : string }.

Definition decode_workspaceInfo (fs : list (string * json)) : option workspaceInfo :=
  id ← as_string (struct_field "workspace_id" fs); label ← as_string (struct_field "label" fs);
  Some (mkWorkspaceInfo id label).
Definition decode_tabInfo (fs : list (string * json)) : option tabInfo :=
  id ← as_string (struct_field "tab_id" fs); ws ← as_string (struct_field "workspace_id" fs);
  label ← as_string (struct_field "label" fs);
  Some (mkTabInfo id ws label).

(** A result whose type is named and that holds a list of structs. *)
Definition decode_list {A} (field : string) (decode : list (string * json) → option A) (raw : option json) : option (list A) :=
  fs ← raw_fields raw; _ ← as_string (struct_field "type" fs);
  l ← as_structs (struct_field field fs); mapM decode l.

Definition decode_agentList (raw : option json) : option (list agentInfo) := decode_list "agents" decode_agentInfo raw.
Definition decode_workspaceList (raw : option json) : option (list workspaceInfo) := decode_list "workspaces" decode_workspaceInfo raw.
Definition decode_tabList (raw : option json) : option (list tabInfo) := decode_list "tabs" decode_tabInfo raw.

(** Version and protocol of a pong. *)
Definition decode_pong (raw : option json) : option (string * Z) :=
  fs ← raw_fields raw; _ ← as_string (struct_field "type" fs);
  version ← as_string (struct_field "version" fs); protocol ← as_int (struct_field "protocol" fs);
  Some (version, protocol).

(** Text, revision and whether it was cut. *)
Definition decode_paneRead (raw : option json) : option (string * Z * bool) :=
  fs ← raw_fields raw; _ ← as_string (struct_field "type" fs);
  read ← as_struct (struct_field "read" fs);
  _ ← mapM (λ k, as_string (struct_field k read)) ["pane_id"; "workspace_id"; "tab_id"; "source"; "format"];
  text ← as_string (struct_field "text" read); rev ← as_int (struct_field "revision" read);
  cut ← as_bool (struct_field "truncated" read);
  Some (text, rev, cut).

(** The tab and the id of its root pane. *)
Definition decode_tabCreated (raw : option json) : option (tabInfo * string) :=
  fs ← raw_fields raw; _ ← as_string (struct_field "type" fs);
  tfs ← as_struct (struct_field "tab" fs); tab ← decode_tabInfo tfs;
  pfs ← as_struct (struct_field "root_pane" fs);
  pane ← as_string (struct_field "pane_id" pfs); _ ← as_string (struct_field "workspace_id" pfs);
  _ ← as_string (struct_field "tab_id" pfs);
  Some (tab, pane).

Definition decode_agentStarted (raw : option json) : option agentInfo :=
  fs ← raw_fields raw; _ ← as_string (struct_field "type" fs);
  afs ← as_struct (struct_field "agent" fs); a ← decode_agentInfo afs;
  _ ← as_strings (struct_field "argv" fs);
  Some a.

(** ** Requests *)

Definition opt_field (name value : string) : list (string * json) := if String.eqb value "" then [] else [(name, JStr value)].
Definition target_field (target : string) : string * json := ("target", JStr target).

Definition request (id method : string) (params : json) : json :=
  JObj [("id", JStr id); ("method", JStr method); ("params", params)].
Definition no_params : json := JObj [].
Definition readParams (target source : string) (lines : Z) : json :=
  JObj ([target_field target; ("source", JStr source)] ++ (if lines =? 0 then [] else [("lines", JInt lines)])
        ++ [("format", JStr "text"); ("strip_ansi", JBool true)]).
Definition promptParams (target text : string) : json := JObj [target_field target; ("text", JStr text)].
Definition sendKeysParams (target : string) (keys : list string) : json :=
  JObj [target_field target; ("keys", JArr (map JStr keys))].
Definition focusParams (target : string) : json := JObj [target_field target].
Definition renameParams (target : string) (name : option string) : json :=
  JObj [target_field target; ("name", match name with Some n => JStr n | None => JNull end)].
Definition tabRenameParams (tab label : string) : json := JObj [("tab_id", JStr tab); ("label", JStr label)].
Definition tabCreateParams (ws : string) : json := JObj (opt_field "workspace_id" ws ++ [("focus", JBool false)]).
Definition agentStartParams (name kind pane : string) (timeoutMS : Z) : json :=
  JObj ([("name", JStr name); ("kind", JStr kind); ("pane_id", JStr pane)]
        ++ (if timeoutMS =? 0 then [] else [("timeout_ms", JInt timeoutMS)])).
Definition paneCloseParams (pane : string) : json := JObj [("pane_id", JStr pane)].
Definition notifyParams (title body sound : string) : json :=
  JObj ([("title", JStr title)] ++ opt_field "body" body ++ opt_field "sound" sound).

Definition subscription (kind pane : string) : json := JObj (("type", JStr kind) :: opt_field "pane_id" pane).
Definition subscribeParams (subs : list json) : json := JObj [("subscriptions", JArr subs)].

(** ** Events *)

Definition herdr_event (kind : HerdrEventKind) : HerdrEvent := mkHerdrEvent kind "" "" "" None "" None false.
Definition pane_event (kind : HerdrEventKind) (pane ws : string) (agent : option Agent) : HerdrEvent :=
  mkHerdrEvent kind pane ws "" agent "" None false.

(** The agent an event about a pane describes. *)
Definition event_agent (pane ws kind title : string) (status : Status) : Agent :=
  mkAgent (mkKey pane "") ws "" "" "" kind "" title status 0 0 false "".

Definition translate_detected (d : list (string * json)) : option HerdrEvent :=
  pane ← as_string (struct_field "pane_id" d); ws ← as_string (struct_field "workspace_id" d);
  agent ← as_pointer (struct_field "agent" d); released ← as_bool (struct_field "released" d);
  final ← as_pointer (struct_field "final_status" d);
  Some (mkHerdrEvent PaneAgentDetected pane ws ""
          ((λ kind, event_agent pane ws kind "" StatusUnknown) <$> agent) "" (ParseStatus <$> final) released).

Definition translate_status (d : list (string * json)) : option HerdrEvent :=
  pane ← as_string (struct_field "pane_id" d); ws ← as_string (struct_field "workspace_id" d);
  agent ← as_string (struct_field "agent" d); status ← as_string (struct_field "agent_status" d);
  _ ← as_string (struct_field "display_agent" d); title ← as_string (struct_field "title" d);
  Some (pane_event PaneAgentStatusChanged pane ws (Some (event_agent pane ws agent (cleanTitle title) (ParseStatus status)))).

Definition translate_pane (kind : HerdrEventKind) (d : list (string * json)) : option HerdrEvent :=
  pane ← as_string (struct_field "pane_id" d); ws ← as_string (struct_field "workspace_id" d);
  Some (pane_event kind pane ws None).

Definition translate_updated (d : list (string * json)) : option HerdrEvent :=
  pfs ← as_struct (struct_field "pane" d); info ← decode_agentInfo pfs;
  let a := toDomainAgent info in
  Some (mkHerdrEvent PaneUpdated (PaneID (AKey a)) (WorkspaceID a) (TabID a) (Some a) "" None false).

Definition translate_tab (d : list (string * json)) : option HerdrEvent :=
  tab ← as_string (struct_field "tab_id" d); label ← as_string (struct_field "label" d);
  Some (mkHerdrEvent TabRenamed "" "" tab None label None false).

Definition translate_workspace (d : list (string * json)) : option HerdrEvent :=
  ws ← as_string (struct_field "workspace_id" d); label ← as_string (struct_field "label" d);
  Some (mkHerdrEvent WorkspaceRenamed "" ws "" None label None false).

Definition translate_kind (kind : string) : option (list (string * json) → option HerdrEvent) :=
  if String.eqb kind "pane_agent_detected" then Some translate_detected
  else if String.eqb kind "pane_agent_status_changed" then Some translate_status
  else if String.eqb kind "pane_closed" then Some (translate_pane PaneClosed)
  else if String.eqb kind "pane_exited" then Some (translate_pane PaneExited)
  else if String.eqb kind "pane_updated" then Some translate_updated
  else if String.eqb kind "tab_renamed" then Some translate_tab
  else if String.eqb kind "workspace_renamed" then Some translate_workspace
  else None.

(** [translateEvent]: [None] for a line that is no envelope, an unknown kind
    and data of the wrong shape. *)
Definition translateEvent (line : string) : option HerdrEvent :=
  env ← Unmarshal line ≫= as_fields; event ← as_string (struct_field "event" env);
  if String.eqb event "" then None
  else
    translate ← translate_kind (replace_all event "." "_");
    data ← raw_fields (struct_field "data" env);
    translate data.
End Wire.

(** ** Samples *)

Definition str_field (k v : string) : string * json := (k, JStr v).

Definition sample_agent : json :=
  JObj [str_field "pane_id" "p1"; str_field "terminal_id" "t1"; str_field "agent" "claude"; str_field "agent_status" "working";
        str_field "name" " Ann "; str_field "title" "✳ fix the build "; ("revision", JInt 7); ("focused", JBool true)].

Definition sample_line : string :=
  default "" (Marshal (JObj [str_field "event" "pane.updated"; ("data", JObj [("pane", sample_agent)])])).

Example sample_line_translated :
  @translateEvent glyph_tables sample_line
  = Some (mkHerdrEvent PaneUpdated "p1" "" "" (Some (mkAgent (mkKey "p1" "t1") "" "" "" "" "claude" "Ann" "fix the build"
            StatusWorking 7 0 true "")) "" None false).
Proof. vm_compute. reflexivity. Qed.
