(* ===== verification/TurnMeta.v ===== *)
(** internal/domain/turnmeta.go and doctor.go: the summary line under a done
    post, and the levels of a doctor report.

    Float64 arithmetic is IEEE 754 binary64 of the Standard Library's
    [SpecFloat]; [%.1f] rounds the exact value half to even, as strconv does. *)
From S2P Require Import Prelude GoStrings Json.


Local Open Scope Z_scope.

Record TurnMeta := mkTurnMeta {
  Model : string; Started : Time; Ended : Time; Files : list string; OutputTokens : Z
}.

(** ** Durations *)

Definition MetaDuration (m : TurnMeta) : option Duration :=
  if is_zero (Started m) || is_zero (Ended m) || negb (time_after (Ended m) (Started m)) then None
  else Some (time_sub (Ended m) (Started m)).

(** [d.Round(unit)] for a positive [unit]: half away from zero, saturating. *)
Definition round_to (d unit : Duration) : Duration :=
  let r := Z.rem d unit in
  if d <? 0 then
    let r := - r in
    if r + r <? unit then d + r
    else let d1 := wrap64 (d - unit + r) in if d1 <? d then d1 else int64_min
  else if r + r <? unit then d - r
  else let d1 := wrap64 (d + unit - r) in if d <? d1 then d1 else int64_max.

Definition formatTurnDuration (d : Duration) : string :=
  if d <? Minute then itoa (Z.quot (round_to d Second) Second) +:+ " s"
  else
    let minutes := Z.quot (round_to d Minute) Minute in
    let minutes := if minutes <? 1 then 1 else minutes in
    if minutes <? 60 then itoa minutes +:+ " min"
    else
      let rest := minutes mod 60 in
      if 0 <? rest then itoa (minutes / 60) +:+ " h " +:+ itoa rest +:+ " min"
      else itoa (minutes / 60) +:+ " h".

(** ** Token counts *)

(** [float64(n)/1000]. *)
Definition thousands (n : Z) : spec_float := SFdiv 53 1024 (float64_of n) (float64_of 1000).

(** The value of a non-negative float times [k], rounded: half to even, and
    half away from zero. *)
Definition scaled (x : spec_float) (k : Z) : Z * Z :=
  match x with
  | S754_finite _ m e => if 0 <=? e then (Zpos m * 2 ^ e * k, 1) else (Zpos m * k, 2 ^ (- e))
  | _ => (0, 1)
  end.
Definition round_half_even (p : Z * Z) : Z :=
  let '(n, d) := p in
  let q := n / d in
  let r := n mod d in
  if 2 * r <? d then q else if d <? 2 * r then q + 1 else if Z.even q then q else q + 1.
Definition round_half_up (p : Z * Z) : Z := let '(n, d) := p in (2 * n + d) / (2 * d).

Definition tenths (n : Z) : Z := round_half_even (scaled (thousands n) 10).

Definition formatTokens (n : Z) : string :=
  if n <? 1000 then itoa n
  else if n <? 9950 then itoa (tenths n / 10) +:+ "." +:+ itoa (tenths n mod 10) +:+ "k"
  else itoa (round_half_up (scaled (thousands n) 1)) +:+ "k".

(** ** The model name *)

Definition isDateSegment (s : string) : bool :=
  Nat.eqb (String.length s) 8 && forallb ascii_digit (runes s).

(** The parts around the last [-]. *)
Fixpoint cut_last_dash (s : string) : option (string * string) :=
  match s with
  | EmptyString => None
  | String c s' =>
    match cut_last_dash s' with
    | Some (b, a) => Some (String c b, a)
    | None => if Ascii.eqb c "-" then Some ("", s') else None
    end
  end.

Definition ShortModel (model : string) : string :=
  let model := trim_prefix (trim_space model) "claude-" in
  match cut_last_dash model with
  | Some (b, a) => if negb (String.eqb b "") && isDateSegment a then b else model
  | None => model
  end.

Definition Line (m : TurnMeta) : string :=
  join (match MetaDuration m with Some d => ["⏱ " +:+ formatTurnDuration d] | None => [] end
        ++ (let model := ShortModel (Model m) in if String.eqb model "" then [] else [model])
        ++ (match length (Files m) with
            | 0%nat => []
            | 1%nat => ["✏️ 1 file"]
            | n => ["✏️ " +:+ itoa (Z.of_nat n) +:+ " files"]
            end)
        ++ (if 0 <? OutputTokens m then ["↑ " +:+ formatTokens (OutputTokens m) +:+ " tokens"] else [])) " · ".

Example line_of_the_comment :
  Line (mkTurnMeta "claude-fable-5-1" 1 (1 + 4 * Minute + 10 * Second) ["a"; "b"; "c"] 12345)
  = "⏱ 4 min · fable-5-1 · ✏️ 3 files · ↑ 12k tokens".
Proof. vm_compute. reflexivity. Qed.

Example short_models :
  map ShortModel ["claude-haiku-4-5-20251001"; "claude-fable-5-1"; " gpt-5 "; "-20251001"]
  = ["haiku-4-5"; "fable-5-1"; "gpt-5"; "-20251001"].
Proof. vm_compute. reflexivity. Qed.

(** ** Rendering is close to the value *)

Lemma round_to_close d unit :
  0 ≤ d → 0 < unit → d + unit ≤ int64_max →
  unit * Z.quot (round_to d unit) unit = round_to d unit ∧ 2 * Z.abs (round_to d unit - d) ≤ unit.
Proof.
  intros Hd Hu Hb. unfold round_to. rewrite (proj2 (Z.ltb_ge _ _)) by done.
  rewrite Z.rem_mod_nonneg by lia. pose proof (Z.mod_pos_bound d unit Hu) as Hr.
  pose proof (Z.div_mod d unit ltac:(lia)) as Hdm. set (r := d mod unit) in *. set (q := d / unit) in *.
  destruct (Z.ltb_spec (r + r) unit).
  - replace (d - r) with (q * unit) by lia. rewrite Z.quot_mul by lia. lia.
  - rewrite wrap64_id by (unfold in_int64, int64_min, int64_max in *; lia).
    rewrite (proj2 (Z.ltb_lt _ _)) by lia.
    replace (d + unit - r) with ((q + 1) * unit) by lia. rewrite Z.quot_mul by lia. lia.
Qed.

(** Below a minute the text is in seconds, from there on in hours and
    minutes, never off by more than half a unit. *)
Lemma formatTurnDuration_close d :
  0 < d → d + Minute ≤ int64_max →
  if d <? Minute
  then ∃ s, formatTurnDuration d = itoa s +:+ " s" ∧ 2 * Z.abs (s * Second - d) ≤ Second
  else ∃ h m, 0 ≤ h ∧ 0 ≤ m < 60 ∧ 2 * Z.abs ((60 * h + m) * Minute - d) ≤ Minute ∧
       formatTurnDuration d = (if 0 <? h then itoa h +:+ " h" else "")
         +:+ (if (0 <? h) && (0 <? m) then " " else "") +:+ (if 0 <? m then itoa m +:+ " min" else "").
Proof.
  intros Hd Hb. unfold formatTurnDuration. destruct (Z.ltb_spec d Minute) as [Hlt|Hge].
  - destruct (round_to_close d Second) as [Hq Hc]; [lia|done|unfold Minute, Second in *; lia|].
    exists (Z.quot (round_to d Second) Second). split; [done|]. lia.
  - destruct (round_to_close d Minute) as [Hq Hc]; [lia|done|done|].
    set (n := Z.quot (round_to d Minute) Minute) in *.
    assert (Hn : 1 ≤ n) by (unfold Minute, Second in *; nia).
    rewrite (proj2 (Z.ltb_ge n 1)) by done. exists (n / 60), (n mod 60).
    pose proof (Z.div_mod n 60 ltac:(done)). pose proof (Z.mod_pos_bound n 60 ltac:(done)).
    split_and!; [apply Z.div_pos; lia|lia|lia|lia|].
    destruct (Z.ltb_spec n 60) as [Hn60|Hn60].
    + rewrite Z.div_small, Z.mod_small by lia. cbn [Z.ltb Z.compare andb].
      by rewrite (proj2 (Z.ltb_lt 0 n)) by lia.
    + assert (1 ≤ n / 60) by (apply Z.div_le_lower_bound; lia).
      rewrite (proj2 (Z.ltb_lt 0 (n / 60))) by lia. cbn [andb].
      destruct (Z.ltb_spec 0 (n mod 60)); [by rewrite str_app_assoc|by rewrite !str_app_nil_r].
Qed.

(** ** The doctor report *)

Inductive CheckLevel := CheckOK | CheckWarn | CheckFail.
Record Check := mkCheck { CName : string; CLevel : CheckLevel; CDetail : string }.

Definition Mark (c : Check) : string :=
  match CLevel c with CheckWarn => "!" | CheckFail => "✗" | CheckOK => "✓" end.

Definition Summarize (checks : list Check) : Z * Z * Z :=
  foldl (λ '(ok, warn, fail) c,
    match CLevel c with
    | CheckWarn => (ok, warn + 1, fail)
    | CheckFail => (ok, warn, fail + 1)
    | CheckOK => (ok + 1, warn, fail)
    end) (0, 0, 0) checks.
