(* ===== verification/AppPorts.v ===== *)
(** The ports the bridge goroutine works on (internal/domain/ports.go and the
    parts of internal/app other goroutines own), as operations with any
    answer: both gateways, the registry, the published view of the mapping, the
    options in force, presence, the transcripts, the debouncers, the capture,
    git, the inbox and the config store. *)
From S2P Require Import Prelude GoStrings Errors Status Mapping Config OptionRegistry Presence Events TurnMeta Redact Eff.

Local Open Scope Z_scope.

Inductive ScreenSource := ScreenVisible | ScreenDetection | ScreenRecent.
Record Screen := mkScreen { SText : string; SRevision : Z; STruncated : bool }.
Record Reply := mkReply { RText : string; RSource : string; RAge : Duration; RWritten : Time; RMeta : TurnMeta }.
Record GitResult := mkGitResult { GOutput : string; GTruncated : bool }.

(** The debouncers: screens, turns and forwarded commands. *)
Inductive timer := ScreenTimer | TurnTimer | CommandTimer.

(** What a background goroutine is to do before it reports back as a job. *)
Inductive task :=
  | StartTask (messageID : Z) (workspace kind name paneID : string) (started : Time)
  | DownloadTask (key : Key) (threadID messageID : Z) (caption : string) (parts : list TopicAttachment) (max : Z) (started : Time).

Inductive appE : Type → Type :=
  (* TelegramGateway *)
  | TgSend (out : Outgoing) : appE (result Z)
  | TgSendDirect (user : Z) (out : Outgoing) : appE (result Z)
  | TgSendDocument (doc : Document) : appE (option error)
  | TgEditText (message : Z) (text : string) (html : bool) (buttons : list Button) : appE (option error)
  | TgEditButtons (message : Z) (buttons : list Button) : appE (option error)
  | TgAnswer (callback text : string) : appE (option error)
  | TgReact (thread message : Z) (emoji : string) : appE (option error)
  | TgDownload (file : string) (max : Z) : appE (result string)
  | TgSetAccess (operators observers : list Z) : appE unit
  (* HerdrGateway *)
  | HerdrReadScreen (pane : string) (source : ScreenSource) (lines : Z) : appE (result Screen)
  | HerdrPrompt (pane text : string) : appE (option error)
  | HerdrSendKeys (pane : string) (keys : list string) : appE (option error)
  | HerdrFocus (pane : string) : appE (option error)
  | HerdrClosePane (pane : string) : appE (option error)
  | HerdrListWorkspaces : appE (result (list Workspace))
  | HerdrCreateTab (workspace : string) : appE (result Tab)
  | HerdrStartAgent (name kind pane : string) (timeout : Duration) : appE (result Agent)
  (* the registry and the view of the mapping *)
  | AgentOf (key : Key) : appE (option Agent)
  | LiveAgents : appE (list Agent)
  | EntryOf (key : Key) : appE (option TopicEntry)
  | KeyOfThread (thread : Z) : appE (option Key)
  (* clock, options, presence, pager flag *)
  | Now : appE Time
  | OptionsNow : appE Options
  | OptionsSet (key value : string) (by_ : Z) : appE (option error)
  | OptionsReset (group : string) (by_ : Z) : appE (bool * option error)
  | OptionsChoices (name : string) : appE (list string)
  | Quiet : appE bool
  | PresenceNow : appE PresenceState
  | PresenceAway (d : Duration) (by_ : Z) : appE PresenceState
  | PresenceHere (by_ : Z) : appE PresenceState
  | StatusSince : appE (gmap Key Time)
  | PagerReachable : appE bool
  | SetPagerReachable (ok : bool) : appE unit
  (* transcripts, timers, capture *)
  | LastReply (agent : Agent) : appE (result Reply)
  | Schedule (t : timer) (key : Key) : appE unit
  | ScheduleAfter (t : timer) (key : Key) (d : Duration) : appE unit
  | Cancel (t : timer) (key : Key) : appE unit
  | CaptureSince (key : Key) : appE (result (list string * bool))
  | PublishLines (key : Key) (lines : list string) : appE unit
  (* the machine *)
  | GitRun (dir : string) (args : list string) : appE (result GitResult)
  | InboxSave (name data : string) : appE (result string)
  | ConfigSave (cfg : Config) : appE (option error)
  | Spawn (t : task) : appE unit.

Definition ask {S B} (o : appE B) : prog appE S B := call o.

(** One step of a walk over a program for [frames]: the leaves are in the hint
    database, a call or a change of state is seen through. *)
Ltac framed_step :=
  match goal with
  | |- ∀ _, _ => intro
  | |- frames _ (bind _ _) => apply frames_bind
  | |- frames _ (each _ _) => apply frames_each
  | |- frames _ (ask _) => apply frames_call; intros; reflexivity
  | |- frames _ (modify _) => apply frames_modify; intros; reflexivity
  | |- frames _ (let '_ := ?x in _) => destruct x
  | |- frames _ (match ?x with _ => _ end) => destruct x
  | |- frames _ (if ?x then _ else _) => destruct x
  end.
Ltac framed := repeat first [solve [auto 2 with frames nocore] | framed_step].

(** The same for the errors a program ends with. *)
Ltac errs_step :=
  match goal with
  | |- ∀ _, _ => intro
  | |- errs _ (bind _ (λ e, match e with Some e => Ret (Some e) | None => _ end)) => apply errs_must
  | |- errs _ (bind _ _) => apply errs_then
  | |- errs _ (each _ _) => apply errs_each
  | |- errs _ (let '_ := ?x in _) => destruct x
  | |- errs _ (match ?x with _ => _ end) => destruct x
  | |- errs _ (if ?x then _ else _) => destruct x
  end.
Ltac errands :=
  repeat first
    [ solve [auto 2 with frames nocore]
    | match goal with
      | H : from_option _ _ _ |- errs _ (Ret _) => by apply returns_ret
      | |- errs _ (bind _ _) => eapply errs_second; [solve [auto 2 with frames nocore]|]; intros [? [?|]] ?; cbn [fst snd] in *
      end
    | errs_step ].

(** Ports that succeed at everything and know of nothing: the rest of the
    world of the sample runs. *)
Definition idle_port {B} (o : appE B) : B :=
  match o in appE B return B with
  | TgSend _ => Ok 100
  | TgSendDirect _ _ => Ok 200
  | TgDownload _ _ => Ok ""
  | HerdrReadScreen _ _ _ => Ok (mkScreen "" 0 false)
  | HerdrListWorkspaces => Ok []
  | HerdrCreateTab ws => Ok (mkTab "t" ws "" "p9")
  | HerdrStartAgent _ _ _ _ => Err (Sentinel ErrAgentGone)
  | AgentOf _ => None
  | LiveAgents => []
  | EntryOf _ => None
  | KeyOfThread _ => None
  | Now => 1000 * Second
  | OptionsNow => DefaultOptions
  | OptionsReset _ _ => (true, None)
  | OptionsChoices _ => []
  | Quiet => false
  | PresenceNow | PresenceAway _ _ | PresenceHere _ => mkPresenceState false false false false 0 false
  | StatusSince => ∅
  | PagerReachable => false
  | LastReply _ => Err (Sentinel ErrNoReply)
  | CaptureSince _ => Ok ([], false)
  | GitRun _ _ => Ok (mkGitResult "" false)
  | InboxSave name _ => Ok name
  | _ => ltac:(first [exact None | exact tt])
  end.
