(* ===== verification/Stores.v ===== *)
(** internal/adapters/state: the mapping, the options and the configuration as
    files, the inbox of attachments, the pid file and the relay state.

    A file's text is a document of JsonText.v.  Timestamps are written in UTC;
    the raw JSON of an option the build does not know is kept as a value. *)
From S2P Require Import Prelude GoStrings Errors Status Json JsonText Rfc3339 Paths Mapping Config OptionRegistry Eff Files.

Local Open Scope Z_scope.

(** ** Shapes *)

(** [Time.MarshalJSON]: the years 0 to 9999. *)
Definition time_json (t : Time) : option json :=
  if (days_before_year 0 * day_ns <=? t) && (t <? max_time) then Some (JStr (format_rfc3339 t)) else None.
Definition as_time (v : option json) : option Time :=
  match v with
  | None | Some JNull => Some time_zero
  | Some (JStr s) => parse_rfc3339 true s
  | Some _ => None
  end.

(** A field that is left out when it is zero. *)
Definition omit_int (k : string) (n : Z) : list (string * json) := if n =? 0 then [] else [(k, JInt n)].
Definition omit_bool (k : string) (b : bool) : list (string * json) := if b then [(k, JBool true)] else [].
Definition omit_str (k s : string) : list (string * json) := if String.eqb s "" then [] else [(k, JStr s)].
Definition omit_ints (k : string) (l : list Z) : list (string * json) := match l with [] => [] | _ => [(k, JArr (map JInt l))] end.

(** *** mapping_store.go *)

Definition mappingFileEntry (e : TopicEntry) : option json :=
  stamp ← time_json (UpdatedAt e);
  Some (JObj ([("thread_id", JInt (ThreadID e)); ("name", JStr (EName e)); ("status", JStr (EStatus e)); ("closed", JBool (Closed e))]
              ++ omit_bool "muted" (Muted e) ++ [("updated_at", stamp)])).

Definition mappingFile (m : Mapping) : option json :=
  topics ← mapM (λ '(k, e), j ← mappingFileEntry e; Some (k, j)) (sorted_fields (Topics m));
  Some (JObj ([("version", JInt (Mapping.Version m)); ("chat_id", JInt (Mapping.ChatID m)); ("topics", JObj topics)]
              ++ omit_int "dashboard_message_id" (Dashboard m))).

Definition decode_entry (j : json) : option TopicEntry :=
  fs ← as_fields j;
  thread ← as_int (struct_field "thread_id" fs); name ← as_string (struct_field "name" fs);
  status ← as_string (struct_field "status" fs); closed ← as_bool (struct_field "closed" fs);
  muted ← as_bool (struct_field "muted" fs); stamp ← as_time (struct_field "updated_at" fs);
  Some (mkEntry thread name status closed muted stamp).

Definition decode_mapping (j : json) : option Mapping :=
  fs ← as_fields j;
  version ← as_int (struct_field "version" fs); chat ← as_int (struct_field "chat_id" fs);
  tfs ← as_struct (struct_field "topics" fs); topics ← mapM (λ '(k, j), e ← decode_entry j; Some (k, e)) tfs;
  dash ← as_int (struct_field "dashboard_message_id" fs);
  Some (mkMapping (if version =? 0 then MappingVersion else version) chat (map_of_fields topics) dash).

(** *** config_store.go *)

Definition ids_json (l : list Z) : json := match l with [] => JNull | _ => JArr (map JInt l) end.

Definition configFile (c : Config) : option json :=
  stamp ← time_json (ConfiguredAt c);
  Some (JObj ([("version", JInt (Version c)); ("bot_token", JStr (BotToken c))] ++ omit_str "bot_username" (BotUsername c)
              ++ [("chat_id", JInt (ChatID c))] ++ omit_str "chat_title" (ChatTitle c) ++ [("operator_ids", ids_json (OperatorIDs c))]
              ++ omit_ints "observer_ids" (ObserverIDs c)
              ++ omit_str "log_level" (LogLevel c) ++ [("configured_at", stamp)])).

Definition decode_config (j : json) : option Config :=
  fs ← as_fields j;
  version ← as_int (struct_field "version" fs); token ← as_string (struct_field "bot_token" fs);
  bot ← as_string (struct_field "bot_username" fs); chat ← as_int (struct_field "chat_id" fs);
  title ← as_string (struct_field "chat_title" fs); ops ← as_ints (struct_field "operator_ids" fs);
  obs ← as_ints (struct_field "observer_ids" fs); level ← as_string (struct_field "log_level" fs);
  stamp ← as_time (struct_field "configured_at" fs);
  Some (mkConfig version token bot chat title ops obs level stamp).

(** *** options_store.go *)

Definition optionsVersion : Z := 1.

(** [strconv.ParseBool]. *)
Definition parse_bool (s : string) : option bool :=
  if existsb (String.eqb s) ["1"; "t"; "T"; "TRUE"; "true"; "True"] then Some true
  else if existsb (String.eqb s) ["0"; "f"; "F"; "FALSE"; "false"; "False"] then Some false
  else None.
Definition bool_word (b : bool) : string := if b then "true" else "false".

Definition encodeOptionValue (kind : OptionKind) (value : string) : option json :=
  if is_kind_bool kind then JBool <$> parse_bool value else Some (JStr value).
Definition decodeOptionValue (kind : OptionKind) (raw : json) : option string :=
  if is_kind_bool kind then
    match raw with
    | JNull => Some "false"
    | JBool b => Some (bool_word b)
    | JStr s => if is_bool_word s then Some s else None
    | _ => None
    end
  else as_string (Some raw).

(** The error names the first option that does not encode. *)
Fixpoint encode_specs (o : Options) (specs : list OptionSpec) (vals : gmap string json) : gmap string json + error :=
  match specs with
  | [] => inl vals
  | spec :: specs =>
    match encodeOptionValue (OptKind spec) (OptString o (OptKey spec)) with
    | None => inr (Errorf "encode option %q: %w" [OptKey spec] [Opaque "strconv"])
    | Some raw => encode_specs o specs (<[OptKey spec := raw]> vals)
    end
  end.
Definition optionsFile (vals : gmap string json) : json :=
  JObj [("version", JInt optionsVersion); ("values", JObj (sorted_fields vals))].

(** One value of the file: an option, or one of another build. *)
Definition load_value (acc : Options * gmap string json) (kv : string * json) : Options * gmap string json :=
  let '(o, extra) := acc in let '(key, raw) := kv in
  match LookupOption key with
  | None => (o, <[key := raw]> extra)
  | Some spec =>
    match decodeOptionValue (OptKind spec) raw with
    | None => (o, extra)
    | Some value => match With o key value with (o', None) => (o', extra) | (_, Some _) => (o, extra) end
    end
  end.

(** The values of a file. *)
Definition decode_options (j : json) : option (gmap string json) :=
  fs ← as_fields j; _ ← as_int (struct_field "version" fs); vals ← as_struct (struct_field "values" fs);
  Some (map_of_fields vals).

(** ** The stores *)

Local Open Scope eff_scope.
Section Stores.
Context (path : string) (error_text : error → string).

Definition MappingFileName : string := "mapping.json".
Definition OptionsFileName : string := "options.json".
Definition ConfigFileName : string := "config.json".
Definition file_mode (private : bool) : Z := if private then 384 else 420.

(** [MarshalIndent] and the newline the stores append. *)
Definition document (j : option json) : option string := t ← j ≫= MarshalIndent; Some (t +:+ nl).

Section Documents.
Context {T : Type}.
Local Notation prog := (prog fsE T).

Definition save_document (what : string) (private : bool) (j : option json) : prog (option error) :=
  match document j with
  | None => fail (Errorf ("encode " +:+ what +:+ ": %w") [] [Opaque "json"])
  | Some text =>
    do e ← writeAtomic path text (file_mode private);
    match e with Some e => fail (Errorf ("save " +:+ what +:+ ": %w") [] [e]) | None => nil_ end
  end.

(** [now.UTC().Format("20060102T150405")]. *)
Definition broken_stamp (t : Time) : string :=
  let '(y, m, d) := date_of (t / day_ns) in
  let s := t mod day_ns in
  dec 4 y +:+ dec 2 m +:+ dec 2 d +:+ "T" +:+ dec 2 (s / Hour) +:+ dec 2 (s / Minute mod 60) +:+ dec 2 (s / Second mod 60).

Definition LoadMapping : prog (result Mapping) :=
  do r ← call (FReadFile path);
  match r with
  | Err e => if is_foreign e ErrNotExist then Ret (Ok (NewMapping 0)) else Ret (Err (Errorf "read mapping: %w" [] [e]))
  | Ok data =>
    match Unmarshal data ≫= decode_mapping with
    | Some m => Ret (Ok m)
    | None =>
      do now ← call FNow;
      do e ← call (FRename path (path +:+ ".broken-" +:+ broken_stamp now));
      match e with
      | Some e => Ret (Err (Errorf "mapping %s is malformed (%v) and could not be moved aside: %w" [path; "json"] [e]))
      | None => Ret (Ok (NewMapping 0))
      end
    end
  end.
Definition SaveMapping (m : Mapping) : prog (option error) := save_document "mapping" false (mappingFile m).

Definition BrokenFiles : prog (result (list string)) :=
  do r ← call (FGlob (path +:+ ".broken-*"));
  Ret (match r with
       | Err e => Err (Errorf "list broken mapping files: %w" [] [e])
       | Ok l => Ok (map Base l)
       end).

Definition LoadConfig : prog (result Config) :=
  do r ← call (FReadFile path);
  match r with
  | Err e =>
    if is_foreign e ErrNotExist then Ret (Err (Errorf "config %s: %w" [path] [Sentinel ErrNotConfigured]))
    else Ret (Err (Errorf "read config: %w" [] [e]))
  | Ok data =>
    match Unmarshal data ≫= decode_config with
    | None => Ret (Err (Errorf "config %s: %w: %v" [path; "json"] [Sentinel ErrNotConfigured]))
    | Some cfg =>
      match Validate cfg with
      | Some e => Ret (Err (Errorf "config %s: %w" [path] [e]))
      | None => Ret (Ok cfg)
      end
    end
  end.
Definition SaveConfig (cfg : Config) : prog (option error) :=
  match Validate cfg with
  | Some e => fail (Errorf "save config: %w" [] [e])
  | None => save_document "config" true (configFile cfg)
  end.
End Documents.

(** The options store keeps the values of the file it does not know. *)
Local Notation prog := (prog fsE (gmap string json)).

Definition LoadOptions : prog (Options * option error) :=
  do r ← call (FReadFile path);
  match r with
  | Err e => if is_foreign e ErrNotExist then Ret (DefaultOptions, None) else Ret (DefaultOptions, Some (Errorf "read options: %w" [] [e]))
  | Ok data =>
    match Unmarshal data ≫= decode_options with
    | None => Ret (DefaultOptions, Some (Errorf "options %s: %w" [path] [Opaque "json"]))
    | Some vals =>
      let '(o, extra) := foldl load_value (DefaultOptions, ∅) (map_to_list vals) in
      do _ ← modify (λ _, extra);
      Ret (o, None)
    end
  end.
Definition SaveOptions (o : Options) : prog (option error) :=
  do extra ← gets id;
  match encode_specs o OptionSpecs extra with
  | inr e => fail e
  | inl vals => save_document "options" true (Some (optionsFile vals))
  end.

(** *** relay.go *)

Definition LoadRelay {T} : Eff.prog fsE T (result (option string)) :=
  do r ← call (FReadFile path);
  Ret (match r with
       | Err e => if is_foreign e ErrNotExist then Ok None else Err e
       | Ok data => Ok (Some data)
       end).
Definition SaveRelay {T} (data : string) : Eff.prog fsE T (option error) := writeAtomic path data (file_mode true).
End Stores.

(** ** inbox.go *)

Section Inbox.
Context (dir : string) {T : Type}.
Local Notation prog := (prog fsE T).

Definition InboxDirName : string := "inbox".
Definition inboxDirMode : Z := 448.
Definition inboxFileMode : Z := 384.

Definition has_separator (name : string) : bool := existsb (λ c, Ascii.eqb c slash || Ascii.eqb c "\") (bytes name).
Definition unsafe_name (name : string) : bool :=
  String.eqb name "" || negb (String.eqb name (Base name)) || has_separator name || String.eqb name "." || String.eqb name "..".

(** The loop of [freePath] from the [n]th try; a thousand tries are all there
    are. *)
Fixpoint free_path (turns : nat) (name stem ext : string) (n : Z) (path : string) : prog (result string) :=
  let none_free := Err (Errorf "inbox: no free name for %q" [name] []) in
  match turns with
  | O => Ret none_free
  | S turns =>
    do e ← call (FLstat path);
    match e with
    | Some e => if is_foreign e ErrNotExist then Ret (Ok path) else Ret (Err (Errorf "inbox: stat %s: %w" [path] [e]))
    | None => if 1000 <? n then Ret none_free else free_path turns name stem ext (n + 1) (Join [dir; stem +:+ "-" +:+ itoa n +:+ ext])
    end
  end.
Definition freePath (name : string) : prog (result string) :=
  let ext := Ext name in free_path 1000 name (trim_suffix name ext) ext 2 (Join [dir; name]).

Definition SaveInbox (name data : string) : prog (result string) :=
  if unsafe_name name then Ret (Err (Errorf "inbox: unsafe name %q" [name] []))
  else
    do e ← call (FMkdirAll dir inboxDirMode);
    match e with
    | Some e => Ret (Err (Errorf "inbox: mkdir %s: %w" [dir] [e]))
    | None =>
      do p ← freePath name;
      match p with
      | Err e => Ret (Err e)
      | Ok path =>
        do e ← writeAtomic path data inboxFileMode;
        match e with
        | Some e => Ret (Err (Errorf "inbox: %w" [] [e]))
        | None =>
          do a ← call (FAbs path);
          Ret (Ok (match a with Ok abs => abs | Err _ => path end))
        end
      end
    end.

(** The loop of [Sweep] with the number deleted so far. *)
Fixpoint sweep_entries (cutoff : Time) (entries : list dirent) (deleted : Z) : prog (Z * option error) :=
  match entries with
  | [] => Ret (deleted, None)
  | e :: entries =>
    do c ← call FCtxErr;
    match c with
    | Some c => Ret (deleted, Some c)
    | None =>
      if negb (Regular e) || has_prefix (DirName e) "." then sweep_entries cutoff entries deleted
      else
        do i ← call (FInfo dir (DirName e));
        match i with
        | Err _ => sweep_entries cutoff entries deleted
        | Ok written =>
          if negb (time_before written cutoff) then sweep_entries cutoff entries deleted
          else
            do r ← call (FRemove (Join [dir; DirName e]));
            match r with
            | Some _ => sweep_entries cutoff entries deleted
            | None => sweep_entries cutoff entries (deleted + 1)
            end
        end
    end
  end.

Definition SweepInbox (olderThan : Duration) : prog (Z * option error) :=
  do r ← call (FReadDir dir);
  match r with
  | Err e => if is_foreign e ErrNotExist then Ret (0, None) else Ret (0, Some (Errorf "inbox: list %s: %w" [dir] [e]))
  | Ok entries => do now ← call FNow; sweep_entries (time_add now (- olderThan)) entries 0
  end.
End Inbox.

(** ** pidfile.go: the state is the pid this process recorded, 0 for none *)

Section PidFile.
Context (path : string).
Local Notation prog := (prog fsE Z).

Definition PidFileName : string := "daemon.pid".
Record PidInfo := mkPidInfo { PID : Z; Since : Time }.

(** The pid a text holds. *)
Definition parse_pid (text : string) : option Z :=
  match atoi (trim_space text) with
  | Some pid => if pid <=? 0 then None else Some pid
  | None => None
  end.

Definition read_pid : prog (result PidInfo) :=
  do r ← call (FReadFile path);
  match r with
  | Err e => Ret (Err e)
  | Ok data =>
    match parse_pid data with
    | None => Ret (Err (Errorf "pid file %s: bad content %q" [path; trim_space data] []))
    | Some pid =>
      do s ← call (FStatTime path);
      Ret (match s with Err e => Err e | Ok since => Ok (mkPidInfo pid since) end)
    end
  end.

Definition create_pid (pid : Z) : prog (option error) :=
  do e ← call (FCreateExcl path);
  match e with
  | Some e => fail e
  | None =>
    do n ← call (FWrite path (itoa pid +:+ nl));
    match n.2 with
    | Some e => do _ ← call (FClose path); do _ ← call (FRemove path); fail e
    | None => call (FClose path)
    end
  end.

Definition remove_pid (wrap : error → error) : prog (option error) :=
  do e ← call (FRemove path);
  match e with
  | Some e => if is_foreign e ErrNotExist then nil_ else fail (wrap e)
  | None => nil_
  end.

(** The attempts of [Acquire] that are left. *)
Fixpoint acquire (attempts : nat) (pid : Z) : prog (option error) :=
  match attempts with
  | O => fail (Errorf "%w: pid file keeps reappearing" [] [Sentinel ErrAlreadyRunning])
  | S attempts =>
    do e ← create_pid pid;
    match e with
    | None => do _ ← modify (λ _, pid); nil_
    | Some e =>
      if negb (is_foreign e ErrExist) then fail (Errorf "create pid file: %w" [] [e])
      else
        do r ← read_pid;
        do live ← match r with Ok info => call (FAlive (PID info)) | Err _ => Ret false end;
        if live : bool then
          fail (Errorf "%w: pid %d" [match r with Ok info => itoa (PID info) | Err _ => "" end] [Sentinel ErrAlreadyRunning])
        else
          must remove_pid (λ e, Errorf "remove stale pid file: %w" [] [e]);
          acquire attempts pid
    end
  end.
Definition Acquire (pid : Z) : prog (option error) :=
  do e ← call (FMkdirAll (Dir path) 493);
  match e with
  | Some e => fail (Errorf "mkdir for pid file: %w" [] [e])
  | None => acquire 2 pid
  end.

Definition ReadPid : prog (result PidInfo) :=
  do r ← read_pid;
  Ret (match r with
       | Err e => if is_foreign e ErrNotExist then Err (Sentinel ErrNotRunning) else Err e
       | Ok info => Ok info
       end).

Definition disown : prog (option error) := do _ ← modify (λ _, 0); nil_.

Definition Release : prog (option error) :=
  do owned ← gets id;
  if owned =? 0 then nil_
  else
    do r ← read_pid;
    match r with
    | Err e =>
      if is_foreign e ErrNotExist then disown
      else must remove_pid (λ e, Errorf "remove pid file: %w" [] [e]); disown
    | Ok info =>
      if negb (PID info =? owned) then disown
      else must remove_pid (λ e, Errorf "remove pid file: %w" [] [e]); disown
    end.
End PidFile.
