(* ===== verification/StoresProps.v ===== *)
(** Theorems about the stores of Stores.v: what one run of the program saves,
    the next one loads. *)
From S2P Require Import Prelude GoStrings Errors Status Json JsonText Rfc3339 Paths Mapping Config OptionRegistry OptionProps Eff Files Stores.

Local Open Scope Z_scope.

(** ** Documents *)

Lemma plain_mapM {A} (f : A → option string) l : Forall (λ x, is_Some (f x)) l → is_Some (mapM f l).
Proof. intros H. apply mapM_is_Some. done. Qed.

Lemma plain_elements l : foldr (λ v, and (plain v)) True l ↔ Forall plain l.
Proof. induction l; cbn [foldr]; [done|]. rewrite Forall_cons. by rewrite IHl. Qed.

Lemma plain_members l : foldr (λ '(k, v), and (utf8 k ∧ plain v)) True l ↔ Forall (λ kv, utf8 kv.1 ∧ plain kv.2) l.
Proof. induction l as [|[k v] l IH]; cbn [foldr]; [done|]. rewrite Forall_cons. cbn [fst snd]. by rewrite IH. Qed.

Lemma render_plain i j : plain j → ∀ depth, is_Some (render i depth j).
Proof.
  induction j as [|b|n|n|t|s|l IH|l IH] using json_rect'; cbn [plain render]; intros Hp depth; try done.
  - apply plain_elements in Hp. destruct l as [|x l]; [done|]. set (l' := x :: l) in *. clearbody l'.
    destruct (plain_mapM (render i (S depth)) l') as [ts Hts].
    { rewrite Forall_forall in Hp, IH |- *. intros v Hv. by apply IH; [|apply Hp]. }
    rewrite Hts. cbn [mbind option_bind]. by eexists.
  - apply plain_members in Hp. destruct l as [|x l]; [done|]. set (l' := x :: l) in *. clearbody l'.
    destruct (plain_mapM (λ '(k, v), t ← render i (S depth) v; Some (write_string k +:+ colon i +:+ t)) l') as [ts Hts].
    { rewrite Forall_forall in Hp, IH |- *. intros [k v] Hv. destruct (IH _ Hv (proj2 (Hp _ Hv)) (S depth)) as [t Ht]. cbn [snd] in Ht.
      rewrite Ht. cbn [mbind option_bind]. by eexists. }
    rewrite Hts. cbn [mbind option_bind]. by eexists.
Qed.

Lemma document_plain j : plain j → ∃ text, document (Some j) = Some text ∧ Unmarshal text = Some j.
Proof.
  intros Hp. unfold document, MarshalIndent. destruct (render_plain true j Hp 0) as [t Ht].
  cbn [mbind option_bind]. rewrite Ht. cbn [mbind option_bind]. eexists. split; [reflexivity|].
  by apply (unmarshal_render true j 0).
Qed.

Lemma as_int_ok n : in_int64 n → as_int (Some (JInt n)) = Some n.
Proof. intros H. cbn [as_int]. by rewrite decide_True. Qed.

(** ASCII text is UTF-8. *)
Definition ascii_text (s : string) : Prop := Forall (λ c, byte_of c < 128) (bytes s).

Lemma ascii_text_app a b : ascii_text a → ascii_text b → ascii_text (a +:+ b).
Proof. unfold ascii_text. intros Ha Hb. rewrite bytes_app. by apply Forall_app. Qed.

Lemma ascii_text_dec w n : ascii_text (dec w n).
Proof.
  revert n. induction w as [|w IH]; intros n; cbn [dec]; [constructor|]. apply ascii_text_app; [done|].
  repeat constructor. rewrite digit_char_byte. pose proof (Z.mod_pos_bound n 10 ltac:(lia)). lia.
Qed.

Lemma ascii_text_frac w n : ascii_text (frac w n).
Proof. revert n. induction w as [|w IH]; intros n; cbn [frac]; [constructor|]. destruct (_ =? 0); [done|]. apply ascii_text_dec. Qed.

Lemma utf8_ascii s : ascii_text s → utf8 s.
Proof.
  unfold utf8. induction s as [|c s IH]; intros H; [done|]. apply Forall_cons in H as [Hc Hs].
  unfold runes. rewrite segs_ascii_cons by done. rewrite fmap_cons. cbn [fst]. fold (runes s).
  assert (∀ r rs, string_of_runes (r :: rs) = encode_rune r +:+ string_of_runes rs) as -> by done. rewrite IH by done.
  pose proof (byte_of_range c). unfold encode_rune, valid_rune.
  rewrite (proj2 (Z.leb_le 0 (byte_of c))), (proj2 (Z.ltb_lt (byte_of c) 55296)) by lia.
  cbn [andb orb]. rewrite (proj2 (Z.ltb_lt (byte_of c) 128)) by done. by rewrite of_byte_of, str_app_cons.
Qed.

Lemma utf8_format t : utf8 (format_rfc3339 t).
Proof.
  apply utf8_ascii. unfold format_rfc3339. destruct (date_of _) as [[y m] d].
  repeat (first [apply ascii_text_dec | apply ascii_text_app]); try by repeat constructor.
  case_match; [constructor|]. apply ascii_text_app; [by repeat constructor|apply ascii_text_frac].
Qed.

Lemma time_json_ok t : 0 ≤ t < max_time → ∃ j, time_json t = Some j ∧ plain j ∧ as_time (Some j) = Some t.
Proof.
  intros Ht. unfold time_json. assert (days_before_year 0 * day_ns ≤ 0) by (by vm_compute).
  rewrite (proj2 (Z.leb_le _ _)), (proj2 (Z.ltb_lt _ _)) by lia. cbn [andb]. eexists. split; [reflexivity|].
  split; [apply utf8_format|by apply parse_format].
Qed.

(** The fields of a decoder whose names are known. *)
Ltac read_fields :=
  repeat match goal with
         | |- context [struct_field ?k ?fs] => let v := eval vm_compute in (struct_field k fs) in change (struct_field k fs) with v
         end; cbn [mbind option_bind].

(** ** The mapping *)

Definition entry_ok (e : TopicEntry) : Prop :=
  in_int64 (ThreadID e) ∧ utf8 (EName e) ∧ utf8 (EStatus e) ∧ 0 ≤ UpdatedAt e < max_time.
Definition mapping_ok (m : Mapping) : Prop :=
  Mapping.Version m ≠ 0 ∧ in_int64 (Mapping.Version m) ∧ in_int64 (Mapping.ChatID m) ∧ in_int64 (Dashboard m)
  ∧ map_Forall (λ k e, utf8 k ∧ entry_ok e) (Topics m).

Lemma entry_document e : entry_ok e → ∃ j, mappingFileEntry e = Some j ∧ plain j ∧ decode_entry j = Some e.
Proof.
  destruct e as [t n s c mu u]. intros (Ht & Hn & Hs & Hu). cbn in Ht, Hn, Hs, Hu.
  destruct (time_json_ok u Hu) as (j & Hj & Hp & Hd). unfold mappingFileEntry. cbn [UpdatedAt]. rewrite Hj. cbn [mbind option_bind].
  eexists. split; [reflexivity|]. destruct mu; (split; [cbn; by split_and!|]); cbn [omit_bool app Muted ThreadID EName EStatus Closed];
    unfold decode_entry; cbn [as_fields mbind option_bind]; read_fields; rewrite Hd, (as_int_ok _ Ht); reflexivity.
Qed.

(** A map is written entry by entry. *)
Lemma map_document {A} (enc : A → option json) (dec : json → option A) (m : gmap string A) :
  map_Forall (λ k a, utf8 k ∧ ∃ j, enc a = Some j ∧ plain j ∧ dec j = Some a) m →
  ∃ fs, mapM (λ '(k, a), j ← enc a; Some (k, j)) (sorted_fields m) = Some fs ∧ plain (JObj fs)
    ∧ mapM (λ '(k, j), a ← dec j; Some (k, a)) fs = Some (sorted_fields m).
Proof.
  intros H. assert (Forall (λ ka, utf8 ka.1 ∧ ∃ j, enc ka.2 = Some j ∧ plain j ∧ dec j = Some ka.2) (sorted_fields m)) as Hall.
  { apply Forall_forall. intros [k a] Hin. apply H. by apply elem_of_sorted_fields. }
  clear H. induction Hall as [|[k a] l (Hk & j & He & Hp & Hd) _ IH]; [by exists []|]. destruct IH as (fs & Hf & Hpf & Hdf).
  cbn [fst snd] in *. exists ((k, j) :: fs). cbn [mapM]. rewrite He, Hf. cbn [mbind option_bind]. split; [done|].
  split; [by cbn|]. rewrite Hd, Hdf. done.
Qed.

Lemma mapping_document m : mapping_ok m → ∃ j, mappingFile m = Some j ∧ plain j ∧ decode_mapping j = Some m.
Proof.
  destruct m as [v c t d]. intros (Hv0 & Hv & Hc & Hd & Ht). cbn in Hv0, Hv, Hc, Hd, Ht.
  destruct (map_document mappingFileEntry decode_entry t) as (fs & Hf & Hp & Hdec).
  { intros k e He. destruct (Ht k e He) as [Hk He']. split; [done|]. by apply entry_document. }
  unfold mappingFile. cbn [Topics]. rewrite Hf. cbn [mbind option_bind]. eexists. split; [reflexivity|].
  cbn [Mapping.Version Mapping.ChatID Dashboard]. unfold omit_int. destruct (Z.eqb_spec d 0) as [->|Hd0]; (split; [cbn; cbn in Hp; by split_and!|]); cbn [app];
    unfold decode_mapping; cbn [as_fields mbind option_bind]; read_fields;
    rewrite !as_int_ok by done; unfold as_struct; cbn [mbind option_bind default as_fields id]; rewrite Hdec; cbn [mbind option_bind as_int];
    rewrite map_of_sorted_fields, (proj2 (Z.eqb_neq v 0)) by done; done.
Qed.

(** ** The configuration *)

Definition config_ok (c : Config) : Prop :=
  in_int64 (Version c) ∧ in_int64 (ChatID c) ∧ Forall in_int64 (OperatorIDs c ++ ObserverIDs c)
  ∧ utf8 (BotToken c) ∧ utf8 (BotUsername c) ∧ utf8 (ChatTitle c) ∧ utf8 (LogLevel c) ∧ 0 ≤ ConfiguredAt c < max_time.

Lemma ints_read l : Forall in_int64 l → mapM (λ j, as_int (Some j)) (map JInt l) = Some l.
Proof. induction 1; cbn [map mapM]; [done|]. rewrite as_int_ok by done. cbn [mbind option_bind]. by rewrite IHForall. Qed.

Lemma ints_plain l : plain (JArr (map JInt l)).
Proof. cbn. by induction l. Qed.

Lemma config_document c : config_ok c → ∃ j, configFile c = Some j ∧ plain j ∧ decode_config j = Some c.
Proof.
  destruct c as [v token bot chat title ops obs level u]. intros (Hv & Hc & Hi & Ht & Hb & Hti & Hl & Hu). cbn in *.
  apply Forall_app in Hi as [Hops Hobs]. destruct (time_json_ok u Hu) as (j & Hj & Hp & Hd).
  unfold configFile. cbn [ConfiguredAt]. rewrite Hj. cbn [mbind option_bind]. eexists. split; [reflexivity|].
  cbn [Version BotToken BotUsername ChatID ChatTitle OperatorIDs ObserverIDs LogLevel].
  assert (∃ jo, ids_json ops = jo ∧ plain jo ∧ as_ints (Some jo) = Some ops) as (jo & -> & Hpo & Hro).
  { eexists. split; [done|]. unfold ids_json. destruct ops as [|o ops]; [done|]. split; [apply (ints_plain (o :: ops))|]. by apply (ints_read (o :: ops)). }
  assert (∃ jf, omit_ints "observer_ids" obs = jf
    ∧ (obs = [] ∧ jf = [] ∨ jf = [("observer_ids", JArr (map JInt obs))])) as (jf & -> & Hjf).
  { eexists. split; [done|]. destruct obs; [by left|by right]. }
  pose proof (ints_plain obs) as Hpobs. pose proof (ints_read obs Hobs) as Hrobs.
  set (jobs := JArr (map JInt obs)) in *. assert (as_ints (Some jobs) = Some obs) as Hro2 by done. clearbody jobs.
  unfold omit_str, decode_config. cbn [as_fields mbind option_bind].
  destruct (String.eqb_spec bot "") as [->|], (String.eqb_spec title "") as [->|], (String.eqb_spec level "") as [->|], Hjf as [[-> ->]| ->];
    (split; [cbn; by split_and!|]); cbn [app]; read_fields;
    rewrite Hd, !as_int_ok, Hro by done; cbn [mbind option_bind as_string]; rewrite ?Hro2; done.
Qed.


(** ** The options *)

Definition raw_of (o : Options) (spec : OptionSpec) : option json := encodeOptionValue (OptKind spec) (OptString o (OptKey spec)).

(** The options can be written, and nothing else shares their names. *)
Definition options_ok (o : Options) (extra : gmap string json) : Prop :=
  Forall (λ spec, utf8 (OptKey spec) ∧ utf8 (OptString o (OptKey spec))
    ∧ (is_kind_bool (OptKind spec) = true → is_bool_word (OptString o (OptKey spec)) = true)) OptionSpecs
  ∧ map_Forall (λ k j, utf8 k ∧ plain j ∧ LookupOption k = None) extra.

#[local] Opaque OptionSpecs.

Lemma bool_word_read v : is_bool_word v = true → ∃ b, parse_bool v = Some b ∧ bool_word b = v.
Proof. unfold is_bool_word. rewrite orb_true_iff, !String.eqb_eq. intros [-> | ->]; [by exists true|by exists false]. Qed.

(** What is written for an option is read as its value. *)
Lemma raw_of_read o spec : utf8 (OptString o (OptKey spec)) →
  (is_kind_bool (OptKind spec) = true → is_bool_word (OptString o (OptKey spec)) = true) →
  ∃ raw, raw_of o spec = Some raw ∧ plain raw ∧ decodeOptionValue (OptKind spec) raw = Some (OptString o (OptKey spec)).
Proof.
  unfold raw_of, encodeOptionValue, decodeOptionValue. intros Hu Hb. destruct (is_kind_bool (OptKind spec)).
  - destruct (bool_word_read _ (Hb eq_refl)) as (b & -> & <-). cbn. by eexists.
  - by eexists.
Qed.

(** Every option gets its value in the file, and only the options do. *)
Lemma encode_specs_spec o specs vals : NoDup (map OptKey specs) → Forall (λ spec, is_Some (raw_of o spec)) specs →
  ∃ vals', encode_specs o specs vals = inl vals' ∧ (∀ spec, spec ∈ specs → vals' !! OptKey spec = raw_of o spec)
    ∧ (∀ k, k ∉ map OptKey specs → vals' !! k = vals !! k).
Proof.
  revert vals. induction specs as [|spec specs IH]; intros vals Hnd Hall; cbn [encode_specs].
  { exists vals. split; [done|]. split; [by intros ? ?%not_elem_of_nil|done]. }
  apply Forall_cons in Hall as [[raw Hraw] Hall]. apply NoDup_cons in Hnd as [Hnew Hnd].
  unfold raw_of in Hraw. rewrite Hraw. destruct (IH (<[OptKey spec := raw]> vals) Hnd Hall) as (vals' & He & Hin & Hout).
  exists vals'. split; [done|]. split.
  - intros spec' [-> |H]%elem_of_cons; [|by apply Hin]. rewrite Hout by done. rewrite lookup_insert_eq. done.
  - intros k Hk. cbn [map] in Hk. apply not_elem_of_cons in Hk as [Hk1 Hk2]. rewrite Hout by done. by rewrite lookup_insert_ne.
Qed.

(** Values that are read one by one, in whatever order they come. *)
Definition known (key : string) (raw : json) (value : string) : Prop :=
  ∃ spec, LookupOption key = Some spec ∧ decodeOptionValue (OptKind spec) raw = Some value
    ∧ (is_kind_bool (OptKind spec) = true → is_bool_word value = true).

Lemma load_value_known o extra key raw value : known key raw value → load_value (o, extra) (key, raw) = (bag_set o key value, extra).
Proof.
  intros (spec & Hl & Hd & Hb). cbn [load_value]. rewrite Hl, Hd. unfold With. rewrite Hl.
  destruct (is_kind_bool _); [by rewrite (Hb eq_refl)|done].
Qed.

Lemma load_values l : NoDup l.*1 → Forall (λ kv, (∃ value, known kv.1 kv.2 value) ∨ LookupOption kv.1 = None) l →
  ∀ acc, let r := foldl load_value acc l in
  (∀ key raw value, (key, raw) ∈ l → known key raw value → OptString r.1 key = value)
  ∧ (∀ key, key ∉ l.*1 → OptString r.1 key = OptString acc.1 key ∧ r.2 !! key = acc.2 !! key)
  ∧ (∀ key raw, (key, raw) ∈ l → LookupOption key = None → r.2 !! key = Some raw)
  ∧ (∀ key, is_Some (LookupOption key) → r.2 !! key = acc.2 !! key).
Proof.
  induction l as [|[key raw] l IH]; intros Hnd Hall [o extra]; cbn [foldl].
  { split_and!; by intros ? ?%not_elem_of_nil || done || intros ? ? ?%not_elem_of_nil || intros ? ? ? ?%not_elem_of_nil. }
  apply NoDup_cons in Hnd as [Hnew Hnd]. apply Forall_cons in Hall as [Hk Hall]. cbn [fst snd] in Hk, Hnew.
  destruct (IH Hnd Hall (load_value (o, extra) (key, raw))) as (H1 & H2 & H3 & H4).
  destruct (H2 key Hnew) as [Ho Hx].
  split_and!.
  - intros k j v [[= -> ->]|Hin]%elem_of_cons Hkn; [|by apply (H1 k j)]. rewrite Ho, (load_value_known o extra key raw v Hkn).
    cbn [fst]. by rewrite OptString_set, decide_True.
  - intros k Hk'. cbn [fmap list_fmap fst] in Hk'. apply not_elem_of_cons in Hk' as [Hne Hk']. destruct (H2 k Hk') as [-> ->].
    destruct Hk as [[v Hkn]|Hno].
    + rewrite (load_value_known _ _ _ _ v Hkn). cbn [fst snd]. by rewrite OptString_set, decide_False.
    + cbn [load_value fst snd]. rewrite Hno. cbn [fst snd]. split; [done|]. by rewrite lookup_insert_ne.
  - intros k j [[= -> ->]|Hin]%elem_of_cons Hno; [|by apply H3]. rewrite Hx. cbn [load_value snd]. rewrite Hno. cbn [snd]. apply lookup_insert_eq.
  - intros k Hs. rewrite H4 by done. destruct Hk as [[v Hkn]|Hno].
    + by rewrite (load_value_known _ _ _ _ v Hkn).
    + cbn [load_value snd]. rewrite Hno. cbn [snd]. apply lookup_insert_ne. intros ->. destruct Hs as [? Hs]. by rewrite Hno in Hs.
Qed.

(** The file of the options, and what is read of it. *)
Lemma options_document o extra : options_ok o extra →
  ∃ vals, encode_specs o OptionSpecs extra = inl vals ∧ plain (optionsFile vals) ∧ decode_options (optionsFile vals) = Some vals
    ∧ let r := foldl load_value (DefaultOptions, ∅) (map_to_list vals) in
      (∀ spec, spec ∈ OptionSpecs → OptString r.1 (OptKey spec) = OptString o (OptKey spec)) ∧ r.2 = extra.
Proof.
  intros [Ho Hx]. rewrite Forall_forall in Ho.
  destruct (encode_specs_spec o OptionSpecs extra OptionKeys_NoDup) as (vals & He & Hin & Hout).
  { apply Forall_forall. intros spec Hs. destruct (Ho spec Hs) as (_ & Hu & Hb). destruct (raw_of_read o spec Hu Hb) as (raw & -> & _). by eexists. }
  assert (∀ k j, vals !! k = Some j → utf8 k ∧ plain j ∧ ((∃ spec, spec ∈ OptionSpecs ∧ OptKey spec = k ∧ known k j (OptString o k)) ∨ LookupOption k = None ∧ extra !! k = Some j)) as Hvals.
  { intros k j Hk. destruct (decide (k ∈ map OptKey OptionSpecs)) as [Hkey|Hkey].
    - apply list_elem_of_fmap in Hkey as (spec & -> & Hs). destruct (Ho spec Hs) as (Huk & Hu & Hb).
      destruct (raw_of_read o spec Hu Hb) as (raw & Hr & Hp & Hd). rewrite (Hin spec Hs), Hr in Hk. injection Hk as ->.
      split_and!; [done..|]. left. exists spec. split_and!; [done..|]. exists spec. split_and!; [by apply LookupOption_in|done..].
    - rewrite Hout in Hk by done. destruct (Hx k j Hk) as (Hu & Hp & Hno). split_and!; [done..|]. by right. }
  exists vals. split; [done|]. split.
  { split; [by split|]. split; [|done]. split; [done|]. apply plain_members, Forall_forall. intros [k j] Hkj. apply elem_of_sorted_fields in Hkj. cbn [fst snd].
    destruct (Hvals k j Hkj) as (? & ? & _). done. }
  split.
  { unfold decode_options, optionsFile. pose proof (map_of_sorted_fields vals) as Hm. set (fs := sorted_fields vals) in *. clearbody fs. cbn [as_fields mbind option_bind]. read_fields. unfold optionsVersion.
    rewrite as_int_ok by (by vm_compute). unfold as_struct. cbn [mbind option_bind default as_fields id]. by rewrite Hm. }
  destruct (load_values (map_to_list vals) (NoDup_fst_map_to_list vals)) with (acc := (DefaultOptions, ∅ : gmap string json)) as (H1 & H2 & H3 & H4).
  { apply Forall_forall. intros [k j] Hkj%elem_of_map_to_list. cbn [fst snd]. destruct (Hvals k j Hkj) as (_ & _ & [(? & _ & _ & Hk)|[Hk _]]); eauto. }
  split.
  - intros spec Hs. destruct (Ho spec Hs) as (_ & Hu & Hb). destruct (raw_of_read o spec Hu Hb) as (raw & Hr & _ & Hd).
    apply (H1 _ raw); [apply elem_of_map_to_list; by rewrite Hin|]. exists spec. split_and!; [by apply LookupOption_in|done..].
  - apply map_eq. intros k. destruct (LookupOption k) as [spec|] eqn:Hl.
    + rewrite H4 by done. change ((DefaultOptions, ∅ : gmap string json).2 !! k) with (None : option json). destruct (extra !! k) as [j|] eqn:Hk; [|done]. destruct (Hx k j Hk) as (_ & _ & Hno). by rewrite Hl in Hno.
    + assert (k ∉ map OptKey OptionSpecs) as Hkey.
      { intros (spec & -> & Hs)%list_elem_of_fmap. by rewrite LookupOption_in in Hl. }
      destruct (extra !! k) as [j|] eqn:Hk.
      * apply H3; [|done]. apply elem_of_map_to_list. by rewrite Hout.
      * destruct (H2 k) as [_ E]; [|by rewrite E]. intros ([k' j] & -> & Hkj%elem_of_map_to_list)%list_elem_of_fmap. cbn [fst] in *.
        rewrite Hout, Hk in Hkj by done. done.
Qed.

(** ** One run saves, the next loads *)

Local Open Scope eff_scope.
Section Stores.
Context (disk0 : gmap string string) (path : string).
Local Abbreviation wpf := (wp (fs_legal disk0)).

Lemma frames_writeAtomic {T} text mode : frames st (writeAtomic (S := T) path text mode).
Proof.
  unfold writeAtomic, attempt, discard, fail, nil_.
  repeat (first [apply frames_ret | apply frames_bind; [apply frames_call; done|intros ?] | case_match]).
Qed.

Lemma wp_save_document {T} what private j text (w : world fsE T) : document j = Some text →
  wpf (save_document path what private j) w (λ r w', st w' = st w ∧ (r = None → files disk0 (trace w') !! path = Some text)).
Proof.
  intros Hd. unfold save_document. rewrite Hd. apply wp_bind.
  eapply wp_mono; [|apply wp_and; [apply wp_legal, frames_writeAtomic|apply (wp_writeAtomic disk0 path text (file_mode private) (files disk0 (trace w) !! path) w eq_refl)]].
  cbn beta. intros [e|] w' (Hst & _ & Hr); cbn [wp fail nil_]; by split.
Qed.

(** A save and the load of the next run. *)
Definition save_and_load {T A} (save : prog fsE T (option error)) (load : prog fsE T A) : prog fsE T (option error * A) :=
  do e ← save; do r ← load; Ret (e, r).

(** An answer of the disk that makes a save fail. *)
Definition failing (ev : event fsE) : Prop :=
  let 'Ev o b := ev in
  match o in fsE B return B → Prop with
  | FMkdirAll _ _ | FSync _ | FChmod _ _ | FClose _ | FRename _ _ => λ e, e ≠ None
  | FCreateTemp _ => λ r, ∃ e, r = Err e
  | FWrite _ _ => λ n, n.2 ≠ None
  | _ => λ _, False
  end b.

(** Something of [P] was answered after the history [h0]. *)
Definition since (P : event fsE → Prop) (h0 h : list (event fsE)) : Prop := ∃ l, h = l ++ h0 ∧ Exists P l.

Lemma since_app P h0 h l : since P h0 h → since P h0 (l ++ h).
Proof. intros (k & -> & H). exists (l ++ k). rewrite <-app_assoc. split; [done|]. apply Exists_app. by right. Qed.

Lemma since_now P l h0 ev : P ev → since P h0 (ev :: l ++ h0).
Proof. intros H. exists (ev :: l). split; [done|]. by constructor. Qed.

Lemma since_front P l h0 h : since P (l ++ h0) h → since P h0 h.
Proof. intros (k & -> & H). exists (k ++ l). rewrite app_assoc. split; [done|]. apply Exists_app. by left. Qed.

(** The rest of a run does not undo it. *)
Lemma wp_since {T A} legal P h0 (p : prog fsE T A) w : since P h0 (trace w) → wp legal p w (λ _ w', since P h0 (trace w')).
Proof. intros H. eapply wp_mono; [|apply wp_grows]. intros a w' [l ->]. by apply since_app. Qed.

Lemma wp_attempt_fails {T} name (o : fsE (option error)) wrap k h0 l (w : world fsE T) :
  trace w = l ++ h0 → (∀ e, failing (Ev o (Some e))) →
  (∀ w', trace w' = (Ev o None :: l) ++ h0 → wpf k w' (λ r w', r ≠ None → since failing h0 (trace w'))) →
  wpf (attempt name o wrap k) w (λ r w', r ≠ None → since failing h0 (trace w')).
Proof.
  intros Hw Ho Hk. apply wp_ask. intros [e|] _; [|apply Hk; cbn [told trace]; by rewrite Hw].
  apply wp_ask. intros b _. apply wp_ask. intros b2 _. cbn [wp told trace fail]. rewrite Hw. intros _. apply (since_app _ _ _ [_; _]). by apply since_now.
Qed.

Lemma wp_writeAtomic_fails {T} text mode (w : world fsE T) :
  wpf (writeAtomic path text mode) w (λ r w', r ≠ None → since failing (trace w) (trace w')).
Proof.
  apply wp_ask. intros [e|] _; [intros _; by apply (since_now _ [])|].
  apply wp_ask. intros [name|e] _; [|intros _; apply (since_now _ [_]); by eexists].
  apply wp_ask. intros [n [e|]] _; cbn [snd].
  { apply wp_ask. intros b _. apply wp_ask. intros b2 _ _. apply (since_app _ _ _ [_; _]). by apply (since_now _ [_; _]). }
  eapply (wp_attempt_fails _ _ _ _ _ [_; _; _]); [reflexivity|done|]. intros w4 H4.
  eapply wp_attempt_fails; [exact H4|done|]. intros w5 H5. eapply wp_attempt_fails; [exact H5|done|]. intros w6 H6.
  eapply wp_attempt_fails; [exact H6|done|]. by intros w7 _ H.
Qed.

Lemma wp_save_document_fails {T} what private j text (w : world fsE T) : document j = Some text →
  wpf (save_document path what private j) w (λ r w', r ≠ None → since failing (trace w) (trace w')).
Proof.
  intros Hd. unfold save_document. rewrite Hd. apply wp_bind. eapply wp_mono; [|apply wp_writeAtomic_fails].
  cbn beta. intros [e|] w' H; [|done]. intros _. by apply H.
Qed.

(** What a save and the next load come to: with a nil error of the save the
    load returns the value itself, or the read of the file failed, with another
    error than that there is no file, and the load returns that; and the save
    returns an error only when it [refused] the value or the disk failed it. *)
Definition read_back {T A} (a : A) (wrap : error → error) (refused : Prop) (w : world fsE T) (e : option error) (r : result A)
    (w' : world fsE T) : Prop :=
  match e with
  | None => r = Ok a ∨ ∃ err h, trace w' = Ev (FReadFile path) (Err err) :: h ∧ is_foreign err ErrNotExist = false ∧ r = Err (wrap err)
  | Some _ => refused ∨ since failing (trace w) (trace w')
  end.

Lemma wp_save_and_load {T A} save load (a : A) wrap refused (w : world fsE T) :
  wpf save w (λ e w', match e with
                      | None => wpf load w' (λ r w2, read_back a wrap refused w None r w2)
                      | Some _ => refused ∨ since failing (trace w) (trace w')
                      end) →
  wpf (save_and_load save load) w (λ r w', read_back a wrap refused w r.1 r.2 w').
Proof.
  intros Hs. apply wp_bind. eapply wp_mono; [|exact Hs]. cbn beta. intros [e|] w' Hf; apply wp_bind.
  - eapply wp_mono; [|apply wp_grows]. intros r w2 [l Hl]. cbn. rewrite Hl. destruct Hf as [Hf|Hf]; [by left|right]. by apply since_app.
  - by eapply wp_mono; [|exact Hf].
Qed.

(** The save of a document and a load that reads it. *)
Lemma wp_saved_loaded {T A} what private j text load (a : A) wrap refused (w : world fsE T) : document j = Some text →
  (∀ w2 : world fsE T, files disk0 (trace w2) !! path = Some text → wpf load w2 (λ r w3, read_back a wrap refused w None r w3)) →
  wpf (save_and_load (save_document path what private j) load) w (λ r w', read_back a wrap refused w r.1 r.2 w').
Proof.
  intros Hd Hl. apply wp_save_and_load.
  eapply wp_mono; [|apply wp_and; [by apply (wp_save_document what private j text)|by apply (wp_save_document_fails what private j text)]].
  cbn beta. intros [e|] w2 [[_ Hf] Hx]; [right; by apply Hx|]. by apply Hl, Hf.
Qed.

Lemma wp_LoadMapping {T} m j text refused (w0 w : world fsE T) : Unmarshal text = Some j → decode_mapping j = Some m →
  files disk0 (trace w) !! path = Some text →
  wpf (LoadMapping path) w (λ r w', read_back m (λ e, Errorf "read mapping: %w" [] [e]) refused w0 None r w').
Proof.
  intros Hu Hd Hf. apply wp_ask. intros [d|e] Hl; cbn in Hl.
  - rewrite Hf in Hl. injection Hl as <-. rewrite Hu. cbn [mbind option_bind]. rewrite Hd. by left.
  - destruct (is_foreign e ErrNotExist) eqn:He; [by rewrite Hl in Hf|]. right. by exists e, (trace w).
Qed.

Lemma wp_LoadConfig {T} c j text refused (w0 w : world fsE T) : Unmarshal text = Some j → decode_config j = Some c → Validate c = None →
  files disk0 (trace w) !! path = Some text →
  wpf (LoadConfig path) w (λ r w', read_back c (λ e, Errorf "read config: %w" [] [e]) refused w0 None r w').
Proof.
  intros Hu Hd Hv Hf. apply wp_ask. intros [d|e] Hl; cbn in Hl.
  - rewrite Hf in Hl. injection Hl as <-. rewrite Hu. cbn [mbind option_bind]. rewrite Hd, Hv. by left.
  - destruct (is_foreign e ErrNotExist) eqn:He; [by rewrite Hl in Hf|]. right. by exists e, (trace w).
Qed.

(** C7: a mapping that [Save] wrote, its nil result in hand, is the mapping
    the next [Load] returns; only when the read of the file itself fails, for
    another reason than that there is no file, does [Load] return an error,
    and it is that one: no topic is lost, renamed or reopened across a
    restart, and the mapping is never mistaken for a new or a broken one.
    [Save] returns an error only when the disk failed one of its steps.  The
    same holds of a configuration, which [Save] also refuses when it is not
    valid. *)
Theorem saved_is_loaded {T} (w w' : world fsE T) e :
  (∀ m r, mapping_ok m → exec (fs_legal disk0) (save_and_load (SaveMapping path m) (LoadMapping path)) w (e, r) w' →
     read_back m (λ e, Errorf "read mapping: %w" [] [e]) False w e r w')
  ∧ (∀ c r, config_ok c → exec (fs_legal disk0) (save_and_load (SaveConfig path c) (LoadConfig path)) w (e, r) w' →
     read_back c (λ e, Errorf "read config: %w" [] [e]) (Validate c ≠ None) w e r w').
Proof.
  split.
  - intros m r Hm He. destruct (mapping_document m Hm) as (j & Hj & Hp & Hd). destruct (document_plain j Hp) as (text & Ht & Hu).
    refine (wp_exec He (wp_saved_loaded _ _ _ text _ m _ False w _ _)); [by rewrite Hj|]. intros w2. by apply (wp_LoadMapping m j text).
  - intros c r Hc He. destruct (config_document c Hc) as (j & Hj & Hp & Hd). destruct (document_plain j Hp) as (text & Ht & Hu).
    refine (wp_exec He (Q := λ r w', read_back c _ _ w r.1 r.2 w') _). unfold SaveConfig. destruct (Validate c) as [er|] eqn:Hv.
    + apply wp_save_and_load. by left.
    + apply (wp_saved_loaded _ _ _ text); [by rewrite Hj|]. intros w2. by apply (wp_LoadConfig c j text).
Qed.

Lemma wp_LoadOptions extra j vals text (w : world fsE (gmap string json)) :
  Unmarshal text = Some j → decode_options j = Some vals → files disk0 (trace w) !! path = Some text →
  wpf (LoadOptions path) w (λ r w', r.2 = None → r.1 = (foldl load_value (DefaultOptions, ∅) (map_to_list vals)).1
    ∧ ((foldl load_value (DefaultOptions, ∅) (map_to_list vals)).2 = extra → st w' = extra)).
Proof.
  intros Hu Hd Hf. apply wp_ask. intros [d|e] Hl; cbn in Hl.
  - rewrite Hf in Hl. injection Hl as <-. rewrite Hu. cbn [mbind option_bind]. rewrite Hd.
    destruct (foldl load_value _ _) as [o x]. by apply wp_update.
  - destruct (is_foreign e ErrNotExist); [by rewrite Hl in Hf|]. done.
Qed.

(** Options that [Save] wrote, its nil result in hand, are the options
    the next [Load] returns without an error: each has the value it had, a
    bool as a bool of the file, and the values another build of the program
    left in the file are still there. *)
Theorem saved_options_are_loaded o (w w' : world fsE (gmap string json)) e r : options_ok o (st w) →
  exec (fs_legal disk0) (save_and_load (SaveOptions path o) (LoadOptions path)) w (e, r) w' → e = None → r.2 = None →
  (∀ spec, spec ∈ OptionSpecs → OptString r.1 (OptKey spec) = OptString o (OptKey spec)) ∧ st w' = st w.
Proof.
  intros Ho He. destruct (options_document o (st w) Ho) as (vals & Hv & Hp & Hd & Hval & Hx).
  destruct (document_plain _ Hp) as (text & Ht & Hu).
  enough (wpf (save_and_load (SaveOptions path o) (LoadOptions path)) w (λ r w', r.1 = None → r.2.2 = None →
    r.2.1 = (foldl load_value (DefaultOptions, ∅) (map_to_list vals)).1 ∧ st w' = st w)) as H.
  { intros Hn Hr. destruct (wp_exec He H Hn Hr) as [H1 ->]. cbn [fst snd] in H1. by rewrite H1. }
  apply wp_bind. apply wp_look. cbn [id]. rewrite Hv.
  eapply wp_mono; [|apply (wp_save_document _ _ _ text); done]. cbn beta. intros [er|] w2 [Hst Hf]; apply wp_bind.
  - eapply wp_mono; [|apply wp_legal, returns_any]. by intros a w3 _.
  - eapply wp_mono; [|by apply (wp_LoadOptions (st w) (optionsFile vals) vals text), Hf]. intros a w3 Ha _ Hn. destruct (Ha Hn) as [H1 Hs]. cbn [fst snd]. split; [exact H1|by apply Hs].
Qed.
End Stores.

Definition works : ∀ B, fsE B → bool := λ _ _, false.
Definition sample_mapping : Mapping :=
  mkMapping 1 (-1001) (<["1/a" := mkEntry 7 "api · é" "idle" false true 125000000]> {["1/b" := mkEntry 9 "web" "done" true false 0]}) 44.
Definition sample_config : Config := mkConfig 1 "t0k" "" (-1001) "Team" [5; 6] [] "info" 86400000000000.

Lemma text_utf8 s : String.eqb (string_of_runes (runes s)) s = true → utf8 s.
Proof. apply String.eqb_eq. Qed.

Lemma sample_mapping_ok : mapping_ok sample_mapping.
Proof.
  unfold mapping_ok, sample_mapping. cbn [Mapping.Version Mapping.ChatID Dashboard Topics]. split_and!; [done|by vm_compute..|].
  apply map_Forall_insert; [by vm_compute|]. rewrite map_Forall_singleton. split; (split; [by apply text_utf8; vm_compute|]);
    (split; [by vm_compute|]); (split_and!; [by apply text_utf8; vm_compute..|by vm_compute|by vm_compute]).
Qed.

Lemma saved_is_loaded_witness :
  let run := interp (sample_fs works ∅) (save_and_load (SaveMapping "/s/m" sample_mapping) (LoadMapping "/s/m")) (mkWorld tt []) in
  run.1 = (None, Ok sample_mapping)
  ∧ read_back "/s/m" sample_mapping (λ e, Errorf "read mapping: %w" [] [e]) False (mkWorld tt []) run.1.1 run.1.2 run.2.
Proof.
  intros run. split; [by vm_compute|].
  refine (proj1 (saved_is_loaded ∅ "/s/m" (mkWorld tt []) run.2 run.1.1) sample_mapping run.1.2 sample_mapping_ok _).
  rewrite <-(surjective_pairing run.1). exact (interp_exec (fs_legal ∅) (sample_fs works ∅) _ _ (sample_fs_legal works ∅)).
Defined.

Definition sample_options : Options := mkOptions (<[OptionRedact := "false"]> {["icons.idle" := "🔥"]}).
Definition sample_extra : gmap string json := {["future.key" := JArr [JInt 3; JStr "x"]]}.

Lemma sample_options_ok : options_ok sample_options sample_extra.
Proof.
  split.
  - assert (forallb (λ spec, String.eqb (string_of_runes (runes (OptKey spec))) (OptKey spec)
      && String.eqb (string_of_runes (runes (OptString sample_options (OptKey spec)))) (OptString sample_options (OptKey spec))
      && implb (is_kind_bool (OptKind spec)) (is_bool_word (OptString sample_options (OptKey spec)))) OptionSpecs = true) as H by (by vm_compute).
    apply Forall_forall. intros spec Hs. rewrite forallb_forall in H. apply list_elem_of_In, H in Hs.
    apply andb_true_iff in Hs as [[Hk Hv]%andb_true_iff Hb]. split_and!; [by apply text_utf8..|]. intros Hkind. by rewrite Hkind in Hb.
  - apply map_Forall_singleton. split; [by apply text_utf8; vm_compute|]. split; [|by vm_compute]. cbn. split_and!; [done| |done]. by apply text_utf8; vm_compute.
Qed.

Lemma saved_options_are_loaded_witness :
  let run := interp (sample_fs works ∅) (save_and_load (SaveOptions "/s/o" sample_options) (LoadOptions "/s/o")) (mkWorld sample_extra []) in
  (run.1.1 = None ∧ run.1.2.2 = None)
  ∧ (∀ spec, spec ∈ OptionSpecs → OptString run.1.2.1 (OptKey spec) = OptString sample_options (OptKey spec)) ∧ st run.2 = sample_extra.
Proof.
  intros run. assert (run.1.1 = None ∧ run.1.2.2 = None) as [Hn Hr] by (by vm_compute). split; [by split|].
  refine (saved_options_are_loaded ∅ "/s/o" sample_options (mkWorld sample_extra []) run.2 run.1.1 run.1.2 sample_options_ok _ Hn Hr).
  rewrite <-(surjective_pairing run.1). exact (interp_exec (fs_legal ∅) (sample_fs works ∅) _ _ (sample_fs_legal works ∅)).
Defined.

(** ** The pid file *)

(** The newline behind a number is trimmed. *)
Lemma drop_spaces_id l : Forall (λ seg, is_space seg.1 = false) l → drop_spaces l = l.
Proof. intros [|[r b] l' H _]; [done|]. cbn [fst] in H. cbn [drop_spaces]. by rewrite H. Qed.

Lemma trim_digits d : Forall (λ c, ascii_digit (byte_of c) = true) (bytes d) → trim_space (d +:+ nl) = d.
Proof.
  intros Hd. assert (Forall (λ seg : Z * string, is_space seg.1 = false) (segs d)) as Hs.
  { clear -Hd. induction d as [|c d IH]; [constructor|]. apply Forall_cons in Hd as [Hc Hd].
    assert (48 ≤ byte_of c ≤ 57) by (unfold ascii_digit in Hc; lia).
    rewrite segs_ascii_cons by lia. constructor; [|by apply IH]. cbn [fst]. unfold is_space. by zbool. }
  unfold trim_space, nl. rewrite segs_app_ascii by (by vm_compute). rewrite segs_ascii_cons by (by vm_compute).
  assert (drop_spaces (segs d ++ (byte_of newline, String newline "") :: segs "") = segs d ++ [(10, String newline "")] ∨ segs d = []) as [-> | E].
  { destruct Hs as [|[r b] l H _]; [by right|]. left. cbn [app drop_spaces fst] in *. by rewrite H. }
  - rewrite reverse_app. change (drop_spaces (reverse [(10, String newline "")] ++ reverse (segs d))) with (drop_spaces (reverse (segs d))).
    rewrite drop_spaces_id by (by apply Forall_reverse). rewrite reverse_involutive. apply segs_concat.
  - rewrite E. rewrite <-(segs_concat d), E. by vm_compute.
Qed.

Section PidFile.
Context (disk0 : gmap string string) (live : Z → bool) (path : string).

(** The kernel tells which processes live.  Between the steps of a call the
    files are what its own steps made of them. *)
Definition pid_legal (h : list (event fsE)) (B : Type) (o : fsE B) (b : B) : Prop :=
  fs_legal disk0 h B o b ∧ match o in fsE B return B → Prop with FAlive p => λ b, b = live p | _ => λ _, True end b.
Local Abbreviation wpp := (wp pid_legal).

(** The pid file could not be read. *)
Definition unread (ev : event fsE) : Prop :=
  let 'Ev o b := ev in
  match o in fsE B return B → Prop with
  | FReadFile p => λ r, p = path ∧ ∃ e, r = Err e
  | FStatTime p => λ r, p = path ∧ ∃ e, r = Err e
  | _ => λ _, False
  end b.

(** A step of [Acquire] the disk refused, for another reason than that there
    is a pid file. *)
Definition disk_failed (ev : event fsE) : Prop :=
  let 'Ev o b := ev in
  match o in fsE B return B → Prop with
  | FMkdirAll _ _ | FClose _ | FRemove _ => λ e, e ≠ None
  | FCreateExcl _ => λ e, ∃ x, e = Some x ∧ is_foreign x ErrExist = false
  | FWrite _ _ => λ n, n.2 ≠ None
  | _ => λ _, False
  end b.

(** The pid file names a process. *)
Definition names (owner : Z) (w : world fsE Z) : Prop := ∃ text, files disk0 (trace w) !! path = Some text ∧ parse_pid text = Some owner.
Definition untouched (w w' : world fsE Z) : Prop := files disk0 (trace w') = files disk0 (trace w).

Lemma parse_pid_own pid : 0 < pid → in_int64 pid → parse_pid (itoa pid +:+ nl) = Some pid.
Proof.
  intros Hp Hi. unfold parse_pid. rewrite trim_digits.
  - rewrite atoi_itoa by (done || lia). by rewrite (proj2 (Z.leb_gt _ _)).
  - destruct pid as [|p|p]; [lia| |lia]. change (itoa (Z.pos p)) with (pretty_N_go (N.pos p) "").
    eapply (digits_value_digits _ 0). by rewrite digits_value_pretty.
Qed.

(** What the file says, read: its pid, that it holds none, or that it cannot be read. *)
Lemma wp_read_pid (w : world fsE Z) (Q : result PidInfo → world fsE Z → Prop) :
  (∀ info w', names (PID info) w → st w' = st w → untouched w w' → (∃ l, trace w' = l ++ trace w) → Q (Ok info) w') →
  (∀ e w', since unread (trace w) (trace w') ∨ (∀ owner, ¬ names owner w) → untouched w w' → (∃ l, trace w' = l ++ trace w) → Q (Err e) w') →
  wpp (read_pid path) w Q.
Proof.
  intros Hok Herr. apply wp_ask. intros [d|e] [Hl _]; cbn in Hl.
  - destruct (parse_pid d) as [pid|] eqn:Hp.
    + apply wp_ask. intros [t|e] _; [apply Hok; [by exists d|done|done|eexists [_; _]; reflexivity]|].
      apply Herr; [left|done|eexists [_; _]; reflexivity]. apply (since_now _ [_]). split; [done|by eexists].
    + apply Herr; [right|done|eexists [_]; reflexivity]. intros owner (text & Hf & Ht). congruence.
  - apply Herr; [left|done|eexists [_]; reflexivity]. apply (since_now _ []). split; [done|by eexists].
Qed.

(** The file is made with the pid; it was there; or the disk failed. *)
Lemma wp_create_pid pid (w : world fsE Z) (Q : option error → world fsE Z → Prop) :
  (∀ w', files disk0 (trace w) !! path = None → files disk0 (trace w') !! path = Some (itoa pid +:+ nl) → Q None w') →
  (∀ e w', is_foreign e ErrExist = true → is_Some (files disk0 (trace w) !! path) → st w' = st w → untouched w w' → (∃ l, trace w' = l ++ trace w) → Q (Some e) w') →
  (∀ e w', is_foreign e ErrExist = false → untouched w w' → st w' = st w → since disk_failed (trace w) (trace w') → Q (Some e) w') →
  (∀ e w', files disk0 (trace w) !! path = None → since disk_failed (trace w) (trace w') → Q (Some e) w') →
  wpp (create_pid path pid) w Q.
Proof.
  intros Hok Hthere Hfull Hfail. apply wp_ask. intros [e|] [Hl _]; cbn in Hl.
  - destruct (is_foreign e ErrExist) eqn:He; [apply Hthere; [done|by apply Hl|done|done|eexists [_]; reflexivity]|].
    assert (since disk_failed (trace w) (Ev (FCreateExcl path) (Some e) :: trace w)) by (apply (since_now _ []); by eexists).
    by apply Hfull.
  - apply wp_ask. intros [n [e|]] [Hn _]; cbn [snd].
    + apply wp_ask. intros b _. apply wp_ask. intros b2 _. apply Hfail; [done|]. apply (since_app _ _ _ [_; _]). by apply (since_now _ [_]).
    + cbn in Hn. rewrite Hn by done. apply wp_ask. intros [e|] _; [apply Hfail; [done|by apply (since_now _ [_; _])]|]. apply Hok; [done|].
      cbn [told trace files effect fst snd].
      rewrite !lookup_insert_eq. cbn [default id]. rewrite str_app_nil_l. f_equal. apply bytes_inj.
      rewrite of_bytes_bytes, take_ge; [done|]. by rewrite length_bytes.
Qed.

Lemma wp_acquire n pid (w : world fsE Z) :
  wpp (acquire path n pid) w (λ r w', r = None → files disk0 (trace w') !! path = Some (itoa pid +:+ nl) ∧ st w' = pid).
Proof.
  revert w. induction n as [|n IH]; intros w; [done|]. cbn [acquire]. apply wp_bind.
  eapply wp_mono; [|apply (wp_create_pid pid w (λ r w', r = None → files disk0 (trace w') !! path = Some (itoa pid +:+ nl))); by intros].
  cbn beta. intros [e|] w1 Hf; [|apply wp_update; by split; [apply Hf|]].
  destruct (negb _); [done|]. apply wp_bind. eapply wp_mono; [|apply wp_legal, returns_any]. intros r w2 _.
  apply wp_bind. eapply wp_mono; [|apply wp_legal, returns_any]. intros live' w3 _. destruct live'; [done|].
  apply wp_must. eapply wp_mono; [|apply wp_legal, returns_any]. by intros [e'|] w4 _.
Qed.

(** While a live process owns the file. *)
Lemma wp_acquire_owned owner n pid (w : world fsE Z) : names owner w → live owner = true →
  wpp (acquire path n pid) w (λ r w', (r ≠ None ∧ untouched w w' ∧ st w' = st w) ∨ since unread (trace w) (trace w')).
Proof.
  intros Hn Hlive. destruct n as [|n]; [by left|]. cbn [acquire]. destruct Hn as (text & Hf & Hp). apply wp_bind.
  apply wp_create_pid; [by rewrite Hf| |intros e w1 -> Hu Hs _; by left|by rewrite Hf].
  - intros e w1 -> _ Hs Hu [l Hl]. cbn [negb]. apply wp_bind. apply wp_read_pid.
    + intros info w2 (text' & Hf' & Hp') Hs2 Hu2 _. rewrite Hu, Hf in Hf'. injection Hf' as <-. rewrite Hp in Hp'. injection Hp' as Ho.
      apply wp_ask. intros b [_ Hb]. cbn in Hb. rewrite <-Ho, Hlive in Hb. subst b. left. split; [done|]. cbn. unfold untouched in *. cbn. split; congruence.
    + intros e' w2 [Hr|Hno] Hu2 _; [|destruct (Hno owner); exists text; by rewrite Hu].
      eapply wp_mono; [|apply (wp_since _ unread (trace w))]; [intros a w3 H; by right|]. rewrite Hl in Hr. by apply since_front in Hr.
Qed.

Lemma wp_release_owned owner (w : world fsE Z) : names owner w → st w ≠ owner →
  wpp (Release path) w (λ r w', (r = None ∧ untouched w w' ∧ st w' = 0) ∨ since unread (trace w) (trace w')).
Proof.
  intros (text & Hf & Hp) Ho. apply wp_look. cbn [id]. destruct (Z.eqb_spec (st w) 0) as [E|_]; [left; by rewrite <-E|].
  apply wp_bind. apply wp_read_pid.
  - intros info w1 (t & Ht & Hpt) Hs Hu _. rewrite Hf in Ht. injection Ht as <-. rewrite Hp in Hpt. injection Hpt as <-.
    rewrite (proj2 (Z.eqb_neq owner (st w))) by done. cbn [negb]. apply wp_update. by left.
  - intros e w1 [Hr|Hno] _ _; [|destruct (Hno owner); by exists text].
    eapply wp_mono; [|by apply (wp_since _ unread (trace w))]. intros a w2 H. by right.
Qed.

(** What stands in the way of an [Acquire]: a live owner, or the disk. *)
Definition held_up (w w' : world fsE Z) : Prop := (∃ owner, names owner w ∧ live owner = true) ∨ since disk_failed (trace w) (trace w').

Lemma held_up_later (w w1 w' : world fsE Z) l : trace w1 = l ++ trace w → since disk_failed (trace w1) (trace w') → held_up w w'.
Proof. intros H1 H. right. rewrite H1 in H. by apply since_front in H. Qed.

Lemma wp_held_up (p : prog fsE Z (option error)) (w w1 : world fsE Z) :
  since disk_failed (trace w) (trace w1) → wpp p w1 (λ r w', r ≠ None → held_up w w').
Proof. intros H. eapply wp_mono; [|by apply wp_since]. intros a w' H' _. by right. Qed.

Lemma wp_acquire_free n pid (w : world fsE Z) : files disk0 (trace w) !! path = None →
  wpp (acquire path (S n) pid) w (λ r w', r ≠ None → held_up w w').
Proof.
  intros Hf. cbn [acquire]. apply wp_bind. apply wp_create_pid.
  - intros w1 _ _. apply wp_update. by intros H.
  - rewrite Hf. by intros e w1 _ [].
  - intros e w1 -> _ _ Hd _. by right.
  - intros e w1 _ Hd. by apply wp_held_up.
Qed.

Lemma wp_acquire_stale pid (w : world fsE Z) : wpp (acquire path 2 pid) w (λ r w', r ≠ None → held_up w w').
Proof.
  cbn [acquire]. apply wp_bind. apply wp_create_pid.
  - intros w1 _ _. apply wp_update. by intros H.
  - intros e w1 -> [text Hf] _ Hu1 [l1 Hl1]. cbn [negb].
    assert (∀ w2, untouched w w2 → (∃ l, trace w2 = l ++ trace w) →
      wpp (must remove_pid path (λ e, Errorf "remove stale pid file: %w" [] [e]); acquire path 1 pid) w2 (λ r w', r ≠ None → held_up w w')) as Hremove.
    { intros w2 Hu [l Hl]. apply wp_must. unfold remove_pid. apply wp_ask. intros [x|] _.
      - assert (since disk_failed (trace w) (Ev (FRemove path) (Some x) :: trace w2)) as Hd by (rewrite Hl; by apply since_now).
        destruct (is_foreign x ErrNotExist); [|intros _; by right]. by apply wp_held_up.
      - cbn [wp nil_]. eapply wp_mono; [|apply wp_acquire_free; cbn; apply lookup_delete_eq].
        intros r w3 Hr Hne. destruct (Hr Hne) as [(owner & (t & Ht & _) & _)|Hd].
        + cbn in Ht. by rewrite lookup_delete_eq in Ht.
        + apply (held_up_later w (told (FRemove path) None w2) w3 (Ev (FRemove path) None :: l)); [cbn; by rewrite Hl|done]. }
    apply wp_bind. apply wp_read_pid.
    + intros info w2 Hn Hs Hu2 [l2 Hl2]. apply wp_ask. intros b [_ Hb]. cbn in Hb. destruct b.
      * intros _. left. exists (PID info). split; [|done]. destruct Hn as (t & Ht & Hp). exists t. by rewrite <-Hu1.
      * apply Hremove; [unfold untouched in *; cbn; congruence|]. cbn. rewrite Hl2, Hl1. exists (Ev (FAlive (PID info)) false :: l2 ++ l1). cbn. by rewrite <-app_assoc.
    + intros e' w2 _ Hu2 [l2 Hl2]. apply Hremove; [unfold untouched in *; congruence|]. rewrite Hl2, Hl1. exists (l2 ++ l1). by rewrite <-app_assoc.
  - intros e w1 -> _ _ Hd _. by right.
  - intros e w1 _ Hd. by apply wp_held_up.
Qed.

(** C22: the pid file keeps a second daemon out, as long as it can be read.
    An [Acquire] that returns nil leaves its own pid in the file and remembers
    it. While the file names a live process, an [Acquire] fails and changes
    nothing, unless the read of the file itself fails: a file that cannot be
    read, or holds no pid, is taken for a stale one. An [Acquire] fails only
    because of a live owner or because the disk refused a step: a stale file
    never keeps a daemon from starting. And a [Release] of a process whose pid
    the file no longer holds leaves the file to the newer owner, again unless
    the read fails. All of it for calls between whose steps no other process
    changes the file. *)
Theorem pid_file_exclusive (w w' : world fsE Z) r pid :
  (exec pid_legal (Acquire path pid) w r w' →
     (r = None → 0 < pid → in_int64 pid → st w' = pid ∧ names pid w')
     ∧ (∀ owner, names owner w → live owner = true → (r ≠ None ∧ untouched w w' ∧ st w' = st w) ∨ since unread (trace w) (trace w'))
     ∧ (r ≠ None → held_up w w'))
  ∧ (∀ owner, names owner w → st w ≠ owner → exec pid_legal (Release path) w r w' →
     (r = None ∧ untouched w w' ∧ st w' = 0) ∨ since unread (trace w) (trace w')).
Proof.
  split.
  - intros He. split_and!.
    + intros Hr Hpos Hint. enough (files disk0 (trace w') !! path = Some (itoa pid +:+ nl) ∧ st w' = pid) as [Hf Hst].
      { split; [done|]. eexists. split; [exact Hf|]. by apply parse_pid_own. }
      revert Hr. refine (wp_exec He (Q := λ r w', r = None → _ ∧ _) _). apply wp_ask. intros [e|] _; [done|]. apply wp_acquire.
    + intros owner Hn Hlive. refine (wp_exec He (Q := λ r w', (r ≠ None ∧ untouched w w' ∧ st w' = st w) ∨ since unread (trace w) (trace w')) _).
      apply wp_ask. intros [e|] _; [by left|]. eapply wp_mono; [|by apply (wp_acquire_owned owner)].
      intros r2 w2 [H|H]; [by left|right]. by apply (since_front _ [_]) in H.
    + refine (wp_exec He (Q := λ r w', r ≠ None → held_up w w') _). apply wp_ask. intros [e|] _.
      * intros _. right. by apply (since_now _ []).
      * eapply wp_mono; [|apply wp_acquire_stale]. intros r2 w2 H Hr. destruct (H Hr) as [Ho|Hd]; [by left|right]. by apply (since_front _ [_]) in Hd.
  - intros owner Hn Ho He. refine (wp_exec He (Q := λ r w', (r = None ∧ untouched w w' ∧ st w' = 0) ∨ since unread (trace w) (trace w')) _).
    by apply (wp_release_owned owner).
Qed.
End PidFile.

(** A disk that works, with the processes of [live]. *)
Definition sample_pids (disk0 : gmap string string) (live : Z → bool) : oracle (E := fsE) := λ B o h,
  match o in fsE B return B → B with FAlive p => λ _, live p | _ => λ b, b end (sample_fs works disk0 B o h).

Lemma sample_pids_legal disk0 live h B (o : fsE B) : pid_legal disk0 live h B o (sample_pids disk0 live B o h).
Proof. split; [destruct o; try done; apply (sample_fs_legal works disk0 h)|by destruct o]. Qed.

Lemma pid_file_exclusive_witness :
  let disk := {["/s/p" := "41" +:+ nl]} in
  let run := interp (sample_pids disk (λ p, p =? 41)) (Acquire "/s/p" 77) (mkWorld 0 []) in
  run.1 ≠ None ∧ names disk "/s/p" 41 (mkWorld 0 [])
  ∧ ((run.1 ≠ None ∧ untouched disk (mkWorld 0 []) run.2 ∧ st run.2 = 0) ∨ since (unread "/s/p") [] (trace run.2)).
Proof.
  intros disk run. assert (names disk "/s/p" 41 (mkWorld 0 [])) as Hn by (by exists ("41" +:+ nl); split; vm_compute).
  split; [by vm_compute|]. split; [exact Hn|].
  refine (proj1 (proj2 (proj1 (pid_file_exclusive disk (λ p, p =? 41) "/s/p" (mkWorld 0 []) run.2 run.1 77) _)) 41 Hn _); [|by vm_compute].
  apply interp_exec, sample_pids_legal.
Defined.
