(* ===== verification/Supervisor.v ===== *)
(** internal/app/supervisor.go: starting, stopping and signalling the daemon
    through its pid file and the control of processes.

    The two waits poll until a deadline; [polls] bounds the polls, and with a
    clock that goes on while the supervisor sleeps a bound is enough. *)
From S2P Require Import Prelude GoStrings GoTime Errors TurnMeta Eff Stores.

Local Open Scope Z_scope.

Definition stopTimeout : Duration := 10 * Second.
Definition startTimeout : Duration := 5 * Second.
Definition supervisorPoll : Duration := 200 * 1000000.

Record DaemonStatus := mkDaemonStatus { Running : bool; DPID : Z; DSince : Time }.

Inductive supE : Type → Type :=
  | SPidRead : supE (result PidInfo)
  | SRelease : supE (option error)
  | SAlive (pid : Z) : supE bool
  | SSpawn (args : list string) : supE (result Z)
  | SStop (pid : Z) : supE (option error)
  | SResync (pid : Z) : supE (option error)
  | SStatus : supE (result string)
  | SKill (pid : Z) : supE (option error)
  | SNow : supE Time
  | SSleep (d : Duration) : supE (option error).     (* the error of a context that ends first *)

Definition Summary (st : DaemonStatus) (now : Time) : string :=
  if negb (Running st) then
    if negb (DPID st =? 0) then "not running (stale pid file for " +:+ itoa (DPID st) +:+ ")" else "not running"
  else
    let up := round_to (time_sub now (DSince st)) Second in
    "running (pid " +:+ itoa (DPID st) +:+ ", up " +:+ duration_string (if up <? 0 then 0 else up) +:+ ")".

Local Open Scope eff_scope.
Local Notation prog := (prog supE unit).

Section Supervisor.
Context (error_text : error → string) (StopTimeout StartTimeout Poll : Duration).

Definition Status_ : prog DaemonStatus :=
  do r ← call SPidRead;
  match r with
  | Err _ => Ret (mkDaemonStatus false 0 time_zero)
  | Ok info =>
    do live ← call (SAlive (PID info));
    Ret (mkDaemonStatus live (PID info) (Since info))
  end.

(** The wait of [Start]; [None] once the polls are used up. *)
Definition started : Type := Z * bool * option error.
Fixpoint await_claim (polls : nat) (pid : Z) (deadline : Time) : prog (option started) :=
  match polls with
  | O => Ret None
  | S polls =>
    do live ← call (SAlive pid);
    if negb live
    then Ret (Some (pid, false, Some (Errorf "daemon %d exited right after start; check daemon.err.log and daemon.log" [itoa pid] [])))
    else
      do r ← call SPidRead;
      if (match r with Ok info => PID info =? pid | Err _ => false end) then Ret (Some (pid, false, None))
      else
        do now ← call SNow;
        if negb (time_before now deadline)
        then Ret (Some (pid, false, Some (Errorf "daemon %d started but did not claim the pid file within %s" [itoa pid; duration_string StartTimeout] [])))
        else
          do e ← call (SSleep Poll);
          match e with
          | Some e => Ret (Some (pid, false, Some e))
          | None => await_claim polls pid deadline
          end
  end.

Definition Start (polls : nat) : prog (option started) :=
  do st ← Status_;
  if Running st then Ret (Some (DPID st, true, None))
  else
    do r ← call (SSpawn ["daemon"]);
    match r with
    | Err e => Ret (Some (0, false, Some (Errorf "spawn daemon: %w" [] [e])))
    | Ok pid => do now ← call SNow; await_claim polls pid (time_add now StartTimeout)
    end.

(** Killing, which a process that is gone already is no failure of. *)
Definition kill (pid : Z) (done : prog (option (option error))) : prog (option (option error)) :=
  do e ← call (SKill pid);
  match e with
  | Some e => if errors_is e ErrNotRunning then done else Ret (Some (Some (Errorf "kill daemon: %w" [] [e])))
  | None => done
  end.
Definition release : prog (option (option error)) := do _ ← call SRelease; Ret (Some None).

Fixpoint await_exit (polls : nat) (pid : Z) (deadline : Time) : prog (option (option error)) :=
  match polls with
  | O => Ret None
  | S polls =>
    do live ← call (SAlive pid);
    if negb live then release
    else
      do now ← call SNow;
      if negb (time_before now deadline) then kill pid release
      else
        do e ← call (SSleep Poll);
        match e with
        | Some e => Ret (Some (Some e))
        | None => await_exit polls pid deadline
        end
  end.

Definition Stop (polls : nat) : prog (option (option error)) :=
  do st ← Status_;
  if negb (Running st) then Ret (Some (Some (Sentinel ErrNotRunning)))
  else
    do e ← call (SStop (DPID st));
    match e with
    | Some e =>
      if errors_is e ErrNotRunning then Ret (Some (Some (Sentinel ErrNotRunning)))
      else if negb (errors_is e ErrControlUnavailable) then Ret (Some (Some e))
      else kill (DPID st) release
    | None => do now ← call SNow; await_exit polls (DPID st) (time_add now StopTimeout)
    end.

Definition Restart (polls : nat) : prog (option (Z * option error)) :=
  do r ← Stop polls;
  match r with
  | None => Ret None
  | Some e =>
    if (match e with Some e => negb (errors_is e ErrNotRunning) | None => false end) then Ret (Some (0, e))
    else do s ← Start polls; Ret (match s with Some (pid, _, e) => Some (pid, e) | None => None end)
  end.

Definition Resync : prog (option error) :=
  do st ← Status_;
  if negb (Running st) then fail (Sentinel ErrNotRunning) else call (SResync (DPID st)).

Definition Describe : prog string :=
  do st ← Status_;
  do now ← call SNow;
  let line := Summary st now in
  if negb (Running st) then Ret line
  else
    do r ← call SStatus;
    Ret (match r with
         | Err e => if errors_is e ErrControlUnavailable then line +:+ " · no control channel"
                    else line +:+ " · status unavailable: " +:+ error_text e
         | Ok stats => if String.eqb stats "" then line else line +:+ " · " +:+ stats
         end).

(** ** The waits end *)

(** The clock does not go back, and goes on while the supervisor sleeps:
    [clock h] is the time it has reached. *)
Fixpoint clock (h : list (event supE)) : option Time :=
  match h with
  | [] => None
  | Ev o b :: h =>
    match o in supE B return B → option Time with
    | SNow => λ t, Some t
    | SSleep d => λ e, match e, clock h with None, Some t => Some (t + d) | _, c => c end
    | _ => λ _, clock h
    end b
  end.
Definition ticking (h : list (event supE)) (B : Type) (o : supE B) (b : B) : Prop :=
  match o in supE B return B → Prop with
  | SNow => λ t, match clock h with Some t0 => t0 ≤ t | None => True end
  | _ => λ _, True
  end b.

(** The polls of a wait. *)
Definition polls_of (timeout : Duration) : nat := S (S (Z.to_nat (timeout / Poll))).

Definition spawns (h : list (event supE)) : nat := length (List.filter (λ ev, match ev with Ev (SSpawn _) _ => true | _ => false end) h).

(** The last that was seen: a process that lives and owns the pid file; a
    process that is gone, of itself or killed, and a pid file released. *)
Definition claimed (pid : Z) (h : list (event supE)) : Prop :=
  ∃ info h', PID info = pid ∧ h = Ev SPidRead (Ok info) :: Ev (SAlive pid) true :: h'.
Definition gone (pid : Z) (h : list (event supE)) : Prop :=
  ∃ e ev h', h = Ev SRelease e :: ev :: h' ∧
    (ev = Ev (SAlive pid) false ∨ ∃ e', ev = Ev (SKill pid) e' ∧ ∀ x, e' = Some x → errors_is x ErrNotRunning = true).

(** The reasons to kill: no control channel, or a stop that lasts. *)
Definition unreachable (pid : Z) (h : list (event supE)) : Prop :=
  ∃ e, Ev (SStop pid) (Some e) ∈ h ∧ errors_is e ErrControlUnavailable = true.
Definition overdue (pid : Z) (h : list (event supE)) : Prop :=
  ∃ t0 t1, Ev (SStop pid) None ∈ h ∧ Ev SNow t0 ∈ h ∧ Ev SNow t1 ∈ h ∧ time_add t0 StopTimeout ≤ t1.
(** The process the pid file named when it was alive. *)
Definition named (pid : Z) (h : list (event supE)) : Prop :=
  ∃ info, PID info = pid ∧ Ev SPidRead (Ok info) ∈ h ∧ Ev (SAlive pid) true ∈ h.
Definition cause (pid : Z) (h : list (event supE)) : Prop := named pid h ∧ (unreachable pid h ∨ overdue pid h).
Definition kills_for_cause (pid : Z) (h : list (event supE)) : Prop := ∀ p e, Ev (SKill p) e ∈ h → p = pid ∧ cause pid h.

(** What a start comes to, and a stop. *)
Definition start_outcome (r : option started) (h : list (event supE)) : Prop :=
  ∃ pid running e, r = Some (pid, running, e) ∧
    if running then spawns h = 0%nat ∧ e = None ∧ named pid h
    else spawns h = 1%nat ∧ (e = None → claimed pid h).
Definition stop_outcome (r : option (option error)) (h : list (event supE)) : Prop :=
  ∃ pid e, r = Some e ∧ spawns h = 0%nat ∧ kills_for_cause pid h ∧ (e = None → named pid h ∧ gone pid h).

Context (Hpoll : 0 < Poll).
Local Abbreviation wpt := (wp ticking).

Lemma wp_await_claim n pid deadline (w : world supE unit) c :
  spawns (trace w) = 1%nat → clock (trace w) = Some c → deadline - c < Z.of_nat n * Poll →
  wpt (await_claim (S n) pid deadline) w (λ r w', ∃ e, r = Some (pid, false, e) ∧ spawns (trace w') = 1%nat ∧ (e = None → claimed pid (trace w'))).
Proof.
  revert w c. induction n as [|n IH]; intros w c Hs Hc Hn.
  all: cbn [await_claim]; apply wp_ask; intros [] _; cbn [negb]; [|by exists (Some (Errorf "daemon %d exited right after start; check daemon.err.log and daemon.log" [itoa pid] []))].
  all: apply wp_ask; intros r _; destruct (match r with Ok info => PID info =? pid | Err _ => false end) eqn:Hr.
  1, 3: exists None; split; [done|]; split; [done|]; intros _; destruct r as [info|]; [|done]; apply Z.eqb_eq in Hr; by exists info, (trace w).
  all: apply wp_ask; intros now Hnow; cbn in Hnow; rewrite Hc in Hnow; unfold time_before.
  all: destruct (Z.ltb_spec now deadline); cbn [negb]; [|eexists; split; [done|]; by split].
  - lia.
  - apply wp_ask. intros [e|] _; [by exists (Some e)|]. eapply IH; [done..|]. lia.
Qed.

Lemma timeout_polls timeout n : 0 ≤ timeout → (S (Z.to_nat (timeout / Poll)) ≤ n)%nat → timeout < Z.of_nat n * Poll.
Proof.
  intros H Hn. pose proof (Z.div_pos timeout Poll H Hpoll). pose proof (Z.mul_succ_div_gt timeout Poll Hpoll). nia.
Qed.

Lemma wp_Status (w : world supE unit) Q :
  (∀ st w', spawns (trace w') = spawns (trace w) → (Running st = true → named (DPID st) (trace w')) →
    (∀ p e, Ev (SKill p) e ∈ trace w' → Ev (SKill p) e ∈ trace w) → Q st w') →
  wpt Status_ w Q.
Proof.
  intros HQ. apply wp_ask. intros [info|e] _; [|apply HQ; [done..|]].
  - apply wp_ask. intros live _. apply HQ; cbn; [done| |].
    + intros ->. exists info. split; [done|]. rewrite !elem_of_cons. auto.
    + intros p e [H|[H|H]%elem_of_cons]%elem_of_cons; [simplify_eq..|done].
  - intros p e' [H|H]%elem_of_cons; [simplify_eq|done].
Qed.

Lemma start_ends polls : 0 ≤ StartTimeout → (polls_of StartTimeout ≤ polls)%nat →
  wpt (Start polls) (mkWorld tt []) (λ r w, start_outcome r (trace w)).
Proof.
  intros Hto Hpolls. destruct polls as [|polls]; [by apply Nat.nle_succ_0 in Hpolls|]. apply le_S_n in Hpolls. apply wp_bind, wp_Status. intros st w Hs Hlive _. destruct (Running st).
  - exists (DPID st), true, None. by auto.
  - apply wp_ask. intros [pid|e] _; [|exists 0, false; eexists; split; [done|]; split; [exact (f_equal S Hs)|done]].
    apply wp_ask. intros now _. eapply wp_mono; [|eapply wp_await_claim; [exact (f_equal S Hs)|done|]].
    + intros r w' (e & -> & He). by exists pid, false, e.
    + pose proof (timeout_polls StartTimeout polls Hto Hpolls). unfold time_add. lia.
Qed.
(** The trace of a stop that has not killed. *)
Definition unkilled (h : list (event supE)) : Prop := spawns h = 0%nat ∧ ∀ p e, Ev (SKill p) e ∉ h.

Lemma unkilled_told {B} (o : supE B) b (w : world supE unit) :
  match o with SKill _ | SSpawn _ => False | _ => True end → unkilled (trace w) → unkilled (trace (told o b w)).
Proof.
  intros Ho [H1 H2]. split; [by destruct o|]. intros p e [H|H]%elem_of_cons; [|by eapply H2].
  destruct o; simplify_eq; done.
Qed.

Lemma unkilled_cause pid h : unkilled h → kills_for_cause pid h.
Proof. intros [_ H] p e He. by apply H in He. Qed.

Lemma named_cons pid h ev : named pid h → named pid (ev :: h).
Proof. intros (info & H1 & H2 & H3). exists info. split; [done|]. rewrite !elem_of_cons. auto. Qed.

Lemma cause_cons pid h ev : cause pid h → cause pid (ev :: h).
Proof.
  intros [Hn Hc]. split; [by apply named_cons|]. revert Hc.
  intros [(e & H1 & H2)|(t0 & t1 & H1 & H2 & H3 & H4)]; [left; exists e|right; exists t0, t1]; rewrite !elem_of_cons; auto.
Qed.

Lemma wp_release (w : world supE unit) (Q : option (option error) → world supE unit → Prop) :
  (∀ e, Q (Some None) (told SRelease e w)) → wpt release w Q.
Proof. intros HQ. apply wp_ask. intros e _. apply HQ. Qed.

Lemma wp_kill pid (w : world supE unit) : unkilled (trace w) → cause pid (trace w) →
  wpt (kill pid release) w (λ r w', stop_outcome r (trace w')).
Proof.
  intros [Hs Hk] Hc. apply wp_ask. intros e _.
  assert (Hkill : ∀ h, h = [] ∨ (∃ x, h = [Ev SRelease x]) → kills_for_cause pid (h ++ trace (told (SKill pid) e w))).
  { intros h Hh p x Hx. assert (Hin : Ev (SKill p) x ∈ trace (told (SKill pid) e w)).
    { destruct Hh as [->|[y ->]]; [done|]. apply elem_of_cons in Hx as [Hx|Hx]; [by simplify_eq|done]. }
    split; [apply elem_of_cons in Hin as [Hin|Hin]; [by simplify_eq|by apply Hk in Hin]|].
    destruct Hh as [->|[y ->]]; cbn; by repeat apply cause_cons. }
  assert (Hrel : (∀ x, e = Some x → errors_is x ErrNotRunning = true) → wpt release (told (SKill pid) e w) (λ r w', stop_outcome r (trace w'))).
  { intros He. apply wp_release. intros x. exists pid, None. split; [done|]. split; [done|].
    split; [by apply (Hkill [Ev SRelease x]); right; exists x|]. intros _. split; [repeat apply named_cons; apply Hc|]. eexists _, _, _. split; [done|]. right. by exists e. }
  destruct e as [e|]; [|by apply Hrel]. destruct (errors_is e ErrNotRunning) eqn:He; [by apply Hrel; intros x [= <-]|].
  exists pid, (Some (Errorf "kill daemon: %w" [] [e])). split; [done|]. split; [done|]. split; [|done]. by apply (Hkill []); left.
Qed.

Lemma wp_await_exit n pid t0 (w : world supE unit) c :
  unkilled (trace w) → named pid (trace w) → Ev (SStop pid) None ∈ trace w → Ev SNow t0 ∈ trace w → clock (trace w) = Some c →
  time_add t0 StopTimeout - c < Z.of_nat n * Poll →
  wpt (await_exit (S n) pid (time_add t0 StopTimeout)) w (λ r w', stop_outcome r (trace w')).
Proof.
  revert w c. induction n as [|n IH]; intros w c Hw Hname Hstop Ht Hc Hn.
  all: cbn [await_exit]; apply wp_ask; intros [] _; cbn [negb];
    [|apply wp_release; intros e; exists pid, None; split; [done|]; split; [by apply Hw|]; split;
      [apply unkilled_cause; by repeat apply unkilled_told|intros _; split; [by repeat apply named_cons|]; eexists _, _, _; by split; [|left]]].
  all: apply wp_ask; intros now Hnow; cbn in Hnow; rewrite Hc in Hnow; unfold time_before.
  all: destruct (Z.ltb_spec now (time_add t0 StopTimeout)); cbn [negb];
    [|apply wp_kill; [by repeat apply unkilled_told|split; [by repeat apply named_cons|]; right; exists t0, now; cbn; rewrite !elem_of_cons; auto 6]].
  - lia.
  - apply wp_ask. intros [e|] _.
    + exists pid, (Some e). split; [done|]. split; [by apply Hw|]. split; [|done]. apply unkilled_cause. by repeat apply unkilled_told.
    + eapply IH; [by repeat apply unkilled_told|by repeat apply named_cons|cbn; by rewrite !elem_of_cons; auto..|done|lia].
Qed.

Lemma stop_ends polls : 0 ≤ StopTimeout → (polls_of StopTimeout ≤ polls)%nat →
  wpt (Stop polls) (mkWorld tt []) (λ r w, stop_outcome r (trace w)).
Proof.
  intros Hto Hpolls. destruct polls as [|polls]; [by apply Nat.nle_succ_0 in Hpolls|]. apply le_S_n in Hpolls. apply wp_bind, wp_Status. intros st w Hs Hname Hk.
  assert (Hw : unkilled (trace w)). { split; [done|]. intros p e He. apply Hk in He. by apply not_elem_of_nil in He. }
  assert (Hfail : ∀ h x, unkilled h → stop_outcome (Some (Some x)) h).
  { intros h x Hh. exists (DPID st), (Some x). split; [done|]. split; [by apply Hh|]. by split; [apply unkilled_cause|]. }
  destruct (Running st); cbn [negb]; [|by apply Hfail]. apply wp_ask. intros [e|] _.
  - destruct (errors_is e ErrNotRunning); [by apply Hfail, unkilled_told|].
    destruct (errors_is e ErrControlUnavailable) eqn:He; cbn [negb]; [|by apply Hfail, unkilled_told].
    apply wp_kill; [by apply unkilled_told|]. split; [by apply named_cons, Hname|]. left. exists e. split; [by left|done].
  - apply wp_ask. intros now _. eapply wp_await_exit; [by repeat apply unkilled_told|by repeat apply named_cons; apply Hname|cbn; rewrite !elem_of_cons; auto..|done|].
    pose proof (timeout_polls StopTimeout polls Hto Hpolls). unfold time_add. lia.
Qed.
End Supervisor.

(** C27: With a clock that does not go back and goes on while the supervisor
    sleeps, a start and a stop both end, within a number of polls computed from
    the timeout.  A start spawns nothing when the pid file names a process that
    lives, and one process otherwise; it succeeds then only if that process
    lives and owns the pid file.  A stop spawns nothing; it succeeds only if
    the process the pid file named was seen gone or was killed, and then
    releases the pid file; it kills no other process, and that one only when no
    control channel answers or the stop has taken longer than its timeout. *)
Theorem supervisor_ends StopTimeout StartTimeout Poll polls :
  0 < Poll → 0 ≤ StartTimeout → 0 ≤ StopTimeout →
  (polls_of Poll StartTimeout ≤ polls)%nat → (polls_of Poll StopTimeout ≤ polls)%nat →
  wp ticking (Start StartTimeout Poll polls) (mkWorld tt []) (λ r w, start_outcome r (trace w)) ∧
  wp ticking (Stop StopTimeout Poll polls) (mkWorld tt []) (λ r w, stop_outcome StopTimeout r (trace w)).
Proof. intros Hp H1 H2 Hn1 Hn2. split; [by apply start_ends|by apply stop_ends]. Qed.

(** The daemon ignores the stop: it is killed after the timeout of two polls. *)
Definition stubborn : oracle (E := supE) := λ B o h,
  match o with
  | SPidRead => Ok (mkPidInfo 7 0)
  | SRelease => None
  | SAlive _ => true
  | SSpawn _ => Ok 8
  | SStop _ | SResync _ | SKill _ => None
  | SStatus => Ok "3 agents"
  | SNow => match clock h with Some t => t | None => 100 end
  | SSleep _ => None
  end.

Example supervisor_ends_witness :
  (interp stubborn (Stop 2 1 4) (mkWorld tt [])).1 = Some None ∧
  stop_outcome 2 (interp stubborn (Stop 2 1 4) (mkWorld tt [])).1 (trace (interp stubborn (Stop 2 1 4) (mkWorld tt [])).2) ∧
  start_outcome (interp stubborn (Start 2 1 4) (mkWorld tt [])).1 (trace (interp stubborn (Start 2 1 4) (mkWorld tt [])).2).
Proof.
  assert (Hl : ∀ h B (o : supE B), ticking h B o (stubborn B o h)).
  { intros h B []; cbn; try done. by destruct (clock h). }
  destruct (supervisor_ends 2 2 1 4) as [Hstart Hstop]; [lia..| | |].
  1, 2: vm_compute; lia.
  split; [reflexivity|]. split; [exact (wp_exec (interp_exec ticking stubborn _ _ Hl) Hstop)|].
  exact (wp_exec (interp_exec ticking stubborn _ _ Hl) Hstart).
Defined.
