(* ===== verification/Transcript.v ===== *)
(** internal/adapters/transcript: the last reply of an agent, read from the
    session file the agent writes.

    [walkBack] reads the file from its end in blocks and visits its lines,
    newest first; [lastReplyFrom] is the visitor that looks for the reply and
    collects what the records of the turn say about it; [LastReply] finds the
    file.  The directory, the file and the clock are questions. *)
From S2P Require Import Prelude GoStrings Errors Status Paths Rfc3339 Redact Eff Json JsonText TurnMeta AppPorts.

Local Open Scope Z_scope.

(** ** slug.go *)

Definition slug_char (r : Z) : bool := ascii_lower_letter r || ascii_upper r || ascii_digit r.
(** [utf16.RuneLen], at least one. *)
Definition utf16_units (r : Z) : nat := if 65536 <=? r then 2 else 1.
Fixpoint dashes (n : nat) : string := match n with O => "" | S n => String "-" (dashes n) end.
Definition projectSlug (cwd : string) : string :=
  concat_str (map (λ r, if slug_char r then encode_rune r else dashes (utf16_units r)) (runes cwd)).

(** ** tail.go: records *)

Record record := mkRecord {
  RecType : string; IsSidechain : bool; IsMeta : bool; Timestamp : string; RequestID : string;
  MsgModel : string; MsgContent : option json; OutTokens : Z
}.

Definition decode_record (j : json) : option record :=
  fs ← as_fields j;
  type ← as_string (struct_field "type" fs); side ← as_bool (struct_field "isSidechain" fs);
  meta ← as_bool (struct_field "isMeta" fs); stamp ← as_string (struct_field "timestamp" fs);
  request ← as_string (struct_field "requestId" fs); msg ← as_struct (struct_field "message" fs);
  model ← as_string (struct_field "model" msg); usage ← as_struct (struct_field "usage" msg);
  tokens ← as_int (struct_field "output_tokens" usage);
  Some (mkRecord type side meta stamp request model (struct_field "content" msg) tokens).

Record contentPart := mkPart { PartType : string; PartText : string; PartName : string; FilePath : string; NotebookPath : string }.

Definition decode_part (fs : list (string * json)) : option contentPart :=
  type ← as_string (struct_field "type" fs); text ← as_string (struct_field "text" fs);
  name ← as_string (struct_field "name" fs); input ← as_struct (struct_field "input" fs);
  file ← as_string (struct_field "file_path" input); notebook ← as_string (struct_field "notebook_path" input);
  Some (mkPart type text name file notebook).

(** The parts of a content that is a list; [None] when it is none or does not
    decode. *)
Definition content_parts (content : option json) : option (list contentPart) :=
  match content with
  | Some (JArr _) => as_structs content ≫= mapM decode_part
  | _ => None
  end.

Definition editTools : list string := ["Edit"; "Write"; "MultiEdit"; "NotebookEdit"].

Definition part_paths (p : contentPart) : list string :=
  if negb (String.eqb (PartType p) "tool_use") || negb (existsb (String.eqb (PartName p)) editTools) then []
  else List.filter (λ s, negb (String.eqb s "")) [FilePath p; NotebookPath p].
Definition editedPaths (content : option json) : list string :=
  match content_parts content with Some parts => parts ≫= part_paths | None => [] end.

Definition parseStamp (s : string) : Time := default time_zero (parse_rfc3339 false s).

(** Whether the operator typed the record. *)
Definition isPrompt (rec : record) : bool :=
  if IsMeta rec then false
  else
    match MsgContent rec with
    | None => false
    | Some (JStr s) => negb (String.eqb s "")
    | Some (JArr _) as c =>
      match content_parts c with
      | Some parts => negb (existsb (λ p, String.eqb (PartType p) "tool_result") parts)
      | None => true
      end
    | Some _ => true
    end.

(** The text of the newest part that has one. *)
Fixpoint newest_text (parts : list contentPart) : option string :=
  match parts with
  | [] => None
  | p :: parts =>
    if negb (String.eqb (PartType p) "text") then newest_text parts
    else let t := trim_space (PartText p) in if negb (String.eqb t "") then Some t else newest_text parts
  end.
Definition lastText (content : option json) : option string :=
  match content with
  | Some (JStr s) => let t := trim_space s in if negb (String.eqb t "") then Some t else None
  | _ => match content_parts content with Some parts => newest_text (reverse parts) | None => None end
  end.

(** ** tail.go: the turn *)

Record turnStats := mkTurn {
  TurnModel : string; TurnStarted : Time; TurnEnded : Time; TurnFiles : list string;
  TurnTokens : Z; SeenRequests : gset string; Complete : bool
}.
Definition empty_turn : turnStats := mkTurn "" 0 0 [] 0 ∅ false.

Definition absorb (t : turnStats) (rec : record) : turnStats :=
  let fresh := String.eqb (RequestID rec) "" || negb (bool_decide (RequestID rec ∈ SeenRequests t)) in
  mkTurn
    (if String.eqb (TurnModel t) "" then MsgModel rec else TurnModel t)
    (TurnStarted t)
    (if is_zero (TurnEnded t) then parseStamp (Timestamp rec) else TurnEnded t)
    (TurnFiles t ++ editedPaths (MsgContent rec))
    (if fresh then wrap64 (TurnTokens t + OutTokens rec) else TurnTokens t)
    (if String.eqb (RequestID rec) "" then SeenRequests t else {[RequestID rec]} ∪ SeenRequests t)
    (Complete t).

(** The first occurrences of the reversed list. *)
Fixpoint first_seen (seen : list string) (l : list string) : list string :=
  match l with
  | [] => []
  | x :: l => if bool_decide (x ∈ seen) then first_seen seen l else x :: first_seen (x :: seen) l
  end.
Definition uniqueReversed (paths : list string) : list string := first_seen [] (reverse paths).

Definition turn_meta (t : turnStats) : TurnMeta.TurnMeta :=
  mkTurnMeta (TurnModel t) (TurnStarted t) (TurnEnded t) (uniqueReversed (TurnFiles t)) (TurnTokens t).

(** The visitor's variables. *)
Record scan := mkScan { Skipped : Z; Turn : turnStats; Found : option string }.
Definition empty_scan : scan := mkScan 0 empty_turn None.

Definition no_reply (format : string) (args : list string) : error := Errorf format args [Sentinel ErrNoReply].

Definition set_prompt (t : turnStats) (stamp : string) : turnStats :=
  mkTurn (TurnModel t) (parseStamp stamp) (TurnEnded t) (TurnFiles t) (TurnTokens t) (SeenRequests t) true.

Definition visit_record (rec : record) (s : scan) : scan * option error :=
  if IsSidechain rec then (s, None)
  else if String.eqb (RecType rec) "user" then
    if isPrompt rec then
      (mkScan (Skipped s) (set_prompt (Turn s) (Timestamp rec)) (Found s),
       Some (match Found s with
             | None => no_reply "%w: no reply text after the last prompt" []
             | Some _ => Foreign errStop
             end))
    else (s, None)
  else if String.eqb (RecType rec) "assistant" then
    (mkScan (Skipped s) (absorb (Turn s) rec)
       (match Found s with Some t => Some t | None => lastText (MsgContent rec) end), None)
  else (s, None).

Definition visit (line : string) (s : scan) : scan * option error :=
  let line := trim_space line in
  if String.eqb line "" then (s, None)
  else
    match Unmarshal line ≫= decode_record with
    | None => (mkScan (Skipped s + 1) (Turn s) (Found s), None)
    | Some rec => visit_record rec s
    end.

(** ** tail.go: the walk *)

Definition blockSize : Z := 65536.

Record entry := mkEntry { EntryName : string; EntryIsDir : bool }.

Inductive transcriptE : Type → Type :=
  | TCtxErr : transcriptE (option error)
  | THome : transcriptE (result string)
  | TReadDir (dir : string) : transcriptE (result (list entry))
  | TInfo (dir name : string) : transcriptE (result Time)
  | TNow : transcriptE Time
  | TOpen (path : string) : transcriptE (option error)
  | TStat : transcriptE (result Z)
  | TReadAt (n pos : Z) : transcriptE (result string).

Local Notation prog := (prog transcriptE unit).
Local Open Scope eff_scope.

(** Visits lines until one ends the walk. *)
Fixpoint visit_all {A} (visit : string → A → A * option error) (lines : list string) (a : A) : A * option error :=
  match lines with
  | [] => (a, None)
  | line :: lines =>
    let '(a, e) := visit line a in
    match e with Some e => (a, Some e) | None => visit_all visit lines a end
  end.

Section Reader.
Context (error_text : error → string) (maxScan : Z).

Section Walk.
Context {A : Type} (visit : string → A → A * option error) (budget : Z).

(** The loop; every turn reads a block, and [turns] is the number of blocks. *)
Fixpoint walk (turns : nat) (pos read : Z) (carry : string) (a : A) : prog (Z * option error * A) :=
  match turns with
  | S turns =>
    if (0 <? pos) && (read <? budget) then
      let n := if pos <? blockSize then pos else blockSize in
      let pos := pos - n in
      do r ← call (TReadAt n pos);
      match r with
      | Err e => Ret (read, Some (no_reply "%w: read transcript: %v" [error_text e]), a)
      | Ok buf =>
        let read := read + n in
        let segments := split_char newline (buf +:+ carry) in
        let '(carry, segments) := if 0 <? pos then (hd "" segments, tl segments) else ("", segments) in
        let '(a, e) := visit_all visit (reverse segments) a in
        match e with
        | Some e => Ret (read, Some e, a)
        | None => walk turns pos read carry a
        end
      end
    else Ret (read, None, a)
  | O => Ret (read, None, a)
  end.

Definition blocks (size : Z) : nat := Z.to_nat ((size + blockSize - 1) / blockSize).
Definition walkBack (size : Z) (a : A) : prog (Z * option error * A) := walk (blocks size) size 0 "" a.
End Walk.

(** What the walk found: the text with what is known of its turn. *)
Definition reply_outcome (size budget read : Z) (err : option error) (s : scan) : result (string * turnStats) :=
  match err, Found s with
  | Some e, Some t => Ok (t, Turn s)
  | Some e, None => if is_foreign e errStop then Ok ("", Turn s) else Err e
  | None, Some t => Ok (t, Turn s)
  | None, None =>
    if (budget <=? read) && (budget <? size) then Err (no_reply "%w: no prompt within the last %d bytes" [itoa budget])
    else Err (no_reply "%w: transcript has no reply" [])
  end.

Definition lastReplyFrom (size budget : Z) : prog (result (string * turnStats)) :=
  do w ← walkBack visit budget size empty_scan;
  let '(read, err, s) := w in Ret (reply_outcome size budget read err s).

Definition lastReplyIn (path : string) (budget : Z) : prog (result (string * turnStats)) :=
  do e ← call (TOpen path);
  match e with
  | Some e => Ret (Err (no_reply "%w: open transcript: %v" [error_text e]))
  | None =>
    do r ← call TStat;
    match r with
    | Err e => Ret (Err (no_reply "%w: stat transcript: %v" [error_text e]))
    | Ok size => lastReplyFrom size budget
    end
  end.

(** ** reader.go *)

Definition kindClaude : string := "claude".
Definition transcriptSuffix : string := ".jsonl".
Definition projectsDir : list string := [".claude"; "projects"].

(** The newest of the entries, its time, and how many there are. *)
Fixpoint newest_entry (dir : string) (entries : list entry) (best : string * Time * Z) : prog (string * Time * Z) :=
  match entries with
  | [] => Ret best
  | e :: entries =>
    if EntryIsDir e || negb (has_suffix (EntryName e) transcriptSuffix) then newest_entry dir entries best
    else
      do r ← call (TInfo dir (EntryName e));
      match r with
      | Err _ => newest_entry dir entries best
      | Ok written =>
        let '(path, modTime, n) := best in
        newest_entry dir entries
          (if String.eqb path "" || time_after written modTime then (Join [dir; EntryName e], written, n + 1) else (path, modTime, n + 1))
      end
  end.

Definition newestTranscript (dir : string) : prog (result (string * Time)) :=
  do r ← call (TReadDir dir);
  match r with
  | Err e =>
    if is_foreign e ErrNotExist then Ret (Err (no_reply "%w: no transcript directory %s" [dir]))
    else Ret (Err (no_reply "%w: read %s: %v" [dir; error_text e]))
  | Ok entries =>
    do b ← newest_entry dir entries ("", 0, 0);
    let '(path, modTime, _) := b in
    if String.eqb path "" then Ret (Err (no_reply "%w: no transcript files in %s" [dir]))
    else Ret (Ok (path, modTime))
  end.

Definition LastReply (agent : Agent) : prog (result Reply) :=
  do e ← call TCtxErr;
  match e with
  | Some e => Ret (Err e)
  | None =>
    if negb (String.eqb (Kind agent) kindClaude) then Ret (Err (no_reply "%w: unsupported agent %q" [Kind agent]))
    else if String.eqb (trim_space (Cwd agent)) "" then Ret (Err (no_reply "%w: agent has no working directory" []))
    else
      do h ← call THome;
      match h with
      | Err e => Ret (Err (no_reply "%w: home directory: %v" [error_text e]))
      | Ok home =>
        let dir := Join ([home] ++ projectsDir ++ [projectSlug (Cwd agent)]) in
        do t ← newestTranscript dir;
        match t with
        | Err e => Ret (Err e)
        | Ok (path, modTime) =>
          do now ← call TNow;
          let age := time_sub now modTime in
          do r ← lastReplyIn path maxScan;
          match r with
          | Err e => Ret (Err e)
          | Ok (text, turn) => Ret (Ok (mkReply text path age modTime (turn_meta turn)))
          end
        end
      end
  end.
End Reader.

Definition defaultMaxScan : Z := 4194304.

(** * The reverse walk over a transcript visits what splitting the file would,
    and the reply is the last text of the last turn. *)
(** ** Lines *)

Lemma split_char_nonempty c s : split_char c s ≠ [].
Proof. induction s as [|a s IH]; [done|]. cbn [split_char]. destruct (Ascii.eqb a c); [done|]. by destruct (split_char c s). Qed.

Lemma split_char_head c s f rs : split_char c s = f :: rs → split_char c f = [f].
Proof.
  revert f rs. induction s as [|a s IH]; intros f rs; cbn [split_char]; [by intros [= <- <-]|].
  destruct (Ascii.eqb_spec a c); [by intros [= <- <-]|].
  destruct (split_char c s) as [|w ws] eqn:E; [by apply split_char_nonempty in E|]. intros [= <- <-].
  cbn [split_char]. destruct (Ascii.eqb_spec a c); [done|]. by rewrite (IH w ws).
Qed.

(** The lines of a text before another: those of the text up to the other's
    first line, then the rest. *)
Lemma split_char_before c a b f rs : split_char c b = f :: rs → split_char c (a +:+ b) = split_char c (a +:+ f) ++ rs.
Proof.
  intros Hb. induction a as [|x a IH]; [rewrite !str_app_nil_l, Hb; by rewrite (split_char_head c b f rs)|].
  rewrite !str_app_cons. cbn [split_char]. destruct (Ascii.eqb x c); [by rewrite IH|]. rewrite IH.
  destruct (split_char c (a +:+ f)) as [|w ws] eqn:E; [by apply split_char_nonempty in E|]. done.
Qed.

Section visits.
Context {A : Type} (v : string → A → A * option error).

Lemma visit_all_app l1 l2 a :
  visit_all v (l1 ++ l2) a = match visit_all v l1 a with (a, Some e) => (a, Some e) | (a, None) => visit_all v l2 a end.
Proof.
  revert a. induction l1 as [|x l1 IH]; intros a; [done|]. cbn. destruct (v x a) as [a1 [e|]]; [done|]. apply IH.
Qed.
End visits.

(** ** The walk *)

Section Walk.
Context (file : string).
Definition size : Z := len file.

Definition suffix (k : Z) : string := of_bytes (drop (Z.to_nat (size - k)) (bytes file)).
Definition slice (n pos : Z) : string := of_bytes (take (Z.to_nat n) (drop (Z.to_nat pos) (bytes file))).

(** The file is what every read sees. *)
Definition reads_file (h : list (event transcriptE)) (B : Type) (o : transcriptE B) (b : B) : Prop :=
  match o in transcriptE B return B → Prop with TReadAt n pos => λ r, r = Ok (slice n pos) | _ => λ _, True end b.

(** The lines of the last [k] bytes, less the one that may start before them. *)
Definition complete_lines (k : Z) : list string :=
  if k =? 0 then []
  else let lines := split_char newline (suffix k) in if k =? size then lines else tl lines.

(** How far a walk with a budget goes: whole blocks. *)
Definition reach (budget : Z) : Z := Z.min size (blockSize * ((Z.max 0 budget + blockSize - 1) / blockSize)).

Lemma size_bytes : Z.of_nat (length (bytes file)) = size.
Proof. unfold size, len. by rewrite length_bytes. Qed.

Lemma suffix_0 : suffix 0 = "".
Proof. unfold suffix. rewrite Z.sub_0_r. rewrite drop_ge; [done|]. pose proof size_bytes. lia. Qed.

Lemma slice_suffix n k : 0 ≤ n → 0 ≤ k → k + n ≤ size → slice n (size - (k + n)) +:+ suffix k = suffix (k + n).
Proof.
  intros Hn Hk Hs. apply bytes_inj. rewrite bytes_app. unfold slice, suffix. rewrite !of_bytes_bytes.
  rewrite <-(take_drop (Z.to_nat n) (drop (Z.to_nat (size - (k + n))) (bytes file))) at 2. f_equal.
  rewrite drop_drop. f_equal. lia.
Qed.

(** What one more block adds. *)
Lemma complete_step k n : 0 ≤ k → 0 < n → k + n ≤ size →
  let segments := split_char newline (slice n (size - (k + n)) +:+ hd "" (split_char newline (suffix k))) in
  complete_lines (k + n) = (if k + n =? size then segments else tl segments) ++ complete_lines k
  ∧ hd "" (split_char newline (suffix (k + n))) = hd "" segments.
Proof.
  intros Hk Hn Hs segments. destruct (split_char newline (suffix k)) as [|f rs] eqn:E; [by apply split_char_nonempty in E|].
  assert (split_char newline (suffix (k + n)) = segments ++ rs) as Hnew.
  { rewrite <-slice_suffix by lia. by apply split_char_before. }
  assert (complete_lines k = rs) as Hold.
  { unfold complete_lines. destruct (Z.eqb_spec k 0) as [->|].
    - rewrite suffix_0 in E. by injection E as <- <-.
    - rewrite (proj2 (Z.eqb_neq k size)) by lia. by rewrite E. }
  assert (segments ≠ []) as Hne by apply split_char_nonempty. rewrite Hold. unfold complete_lines.
  rewrite (proj2 (Z.eqb_neq (k + n) 0)) by lia. rewrite Hnew. destruct segments as [|s segments]; [done|].
  split; [|done]. by destruct (k + n =? size).
Qed.

Lemma complete_extends k1 k2 : 0 ≤ k1 → k1 ≤ k2 → k2 ≤ size → ∃ new, complete_lines k2 = new ++ complete_lines k1.
Proof.
  intros H0 H1 H2. destruct (decide (k1 = k2)) as [->|]; [by exists []|].
  pose proof (complete_step k1 (k2 - k1) H0 ltac:(lia) ltac:(lia)) as [H _]. replace (k1 + (k2 - k1)) with k2 in H by lia. eauto.
Qed.

Context (error_text : error → string) {A : Type} (v : string → A → A * option error) (budget : Z) (a0 : A).

Lemma reach_bounds : 0 ≤ reach budget ≤ size ∧ reach budget < Z.max 0 budget + blockSize ∧ (reach budget = size ∨ budget ≤ reach budget).
Proof.
  pose proof size_bytes. unfold reach. change blockSize with 65536. Z.to_euclidean_division_equations. lia.
Qed.

Lemma reach_least m : 0 ≤ m → budget ≤ m * blockSize → reach budget ≤ m * blockSize.
Proof.
  intros Hm Hb. unfold reach. assert ((Z.max 0 budget + blockSize - 1) / blockSize < m + 1); [|change blockSize with 65536 in *; lia].
  change blockSize with 65536 in *. apply Z.div_lt_upper_bound; lia.
Qed.

Lemma reach_more m : 0 ≤ m → m * blockSize < budget → Z.min size ((m + 1) * blockSize) ≤ reach budget.
Proof.
  intros Hm Hb. unfold reach. assert (m + 1 ≤ (Z.max 0 budget + blockSize - 1) / blockSize); [|change blockSize with 65536 in *; lia].
  change blockSize with 65536 in *. apply Z.div_le_lower_bound; lia.
Qed.

(** A stop while reading is the stop of the whole. *)
Lemma stopped_early k a e : 0 ≤ k ≤ reach budget → visit_all v (reverse (complete_lines k)) a0 = (a, Some e) →
  visit_all v (reverse (complete_lines (reach budget))) a0 = (a, Some e).
Proof.
  intros Hk Hv. pose proof reach_bounds. destruct (complete_extends k (reach budget)) as [new ->]; [lia..|].
  by rewrite reverse_app, visit_all_app, Hv.
Qed.

Definition walked (r : Z * option error * A) : Prop :=
  (r.2, r.1.2) = visit_all v (reverse (complete_lines (reach budget))) a0
  ∧ 0 ≤ r.1.1 ≤ reach budget ∧ (r.1.2 = None → r.1.1 = reach budget).

Lemma wp_walk turns k a w : 0 ≤ k ≤ reach budget → (∃ m, k = m * blockSize ∨ k = size) → size - k ≤ Z.of_nat turns * blockSize →
  visit_all v (reverse (complete_lines k)) a0 = (a, None) →
  wp reads_file (walk error_text v budget turns (size - k) k (if k =? size then "" else hd "" (split_char newline (suffix k))) a) w
    (λ r _, walked r).
Proof.
  pose proof reach_bounds as (Hr0 & Hr1 & Hr2).
  revert k a w. induction turns as [|turns IH]; intros k a w Hk Hm Hf Hv.
  - assert (k = size) as -> by lia. cbn [walk wp]. unfold walked. cbn. replace (reach budget) with size by lia. rewrite Hv. split; [done|lia].
  - cbn [walk]. destruct ((0 <? size - k) && (k <? budget)) eqn:Hgo.
    2: { cbn [wp]. unfold walked. cbn. assert (k = reach budget) as <-; [|rewrite Hv; split; [done|lia]].
         apply andb_false_iff in Hgo. rewrite !Z.ltb_ge in Hgo. destruct Hgo; [lia|]. destruct Hm as [m [Hm|Hm]]; [|lia].
         pose proof (reach_least m). change blockSize with 65536 in *. lia. }
    apply andb_true_iff in Hgo. rewrite !Z.ltb_lt in Hgo. destruct Hgo as [Hpos Hbud].
    rewrite (proj2 (Z.eqb_neq k size)) by lia. set (n := if size - k <? blockSize then size - k else blockSize).
    assert (0 < n ≤ blockSize ∧ k + n ≤ size ∧ (n = blockSize ∨ k + n = size)) as (Hn & Hkn & Hcase).
    { unfold n. change blockSize with 65536. destruct (Z.ltb_spec (size - k) 65536); lia. }
    assert (k + n ≤ reach budget) as Hreach.
    { destruct Hm as [m [Hm|Hm]]; [|lia]. pose proof (reach_more m). change blockSize with 65536 in *. lia. }
    apply wp_ask. intros r ->. cbv beta iota zeta. replace (size - k - n) with (size - (k + n)) by lia.
    destruct (complete_step k n ltac:(lia) ltac:(lia) Hkn) as [Hc Hh].
    set (segments := split_char newline _) in *. 
    assert ((if 0 <? size - (k + n) then (hd "" segments, tl segments) else ("", segments))
      = (if k + n =? size then "" else hd "" (split_char newline (suffix (k + n))), if k + n =? size then segments else tl segments)) as ->.
    { rewrite Hh. destruct (Z.eqb_spec (k + n) size) as [->|]; [by rewrite Z.sub_diag|]. by rewrite (proj2 (Z.ltb_lt _ _)) by lia. }
    cbv beta iota. set (new := if k + n =? size then segments else tl segments) in *.
    assert (visit_all v (reverse (complete_lines (k + n))) a0 = visit_all v (reverse new) a) as Hvis.
    { by rewrite Hc, reverse_app, visit_all_app, Hv. }
    destruct (visit_all v (reverse new) a) as [a' [e|]].
    + cbn [wp]. unfold walked. cbn. split; [|split; [lia|done]]. symmetry. by apply (stopped_early (k + n)); [lia|].
    + apply IH; [lia| |clearbody n; change blockSize with 65536 in *; lia|done]. destruct Hcase as [->| ->]; [|exists 0; by right]. destruct Hm as [m [Hm|Hm]]; [|lia].
      exists (m + 1). left. lia.
Qed.

Lemma wp_walkBack w : wp reads_file (walkBack error_text v budget size a0) w (λ r _, walked r).
Proof.
  pose proof reach_bounds as (H0 & H1 & H2). pose proof size_bytes.
  unfold walkBack. pose proof (wp_walk (blocks size) 0 a0 w) as Hw. rewrite Z.sub_0_r in Hw.
  assert ((if 0 =? size then "" else hd "" (split_char newline (suffix 0))) = "") as Hc by (rewrite suffix_0; by destruct (0 =? size)).
  rewrite Hc in Hw. apply Hw; [lia|by exists 0; left| |done].
  unfold blocks. change blockSize with 65536. rewrite Z2Nat.id by (apply Z.div_pos; lia). Z.to_euclidean_division_equations. lia.
Qed.

(** Walking a transcript back in blocks is splitting it: whatever the
    visitor does, it sees the lines of the part that the budget reaches, the
    newest first, and no other, up to the one it stops at; the bytes read are
    whole blocks and less than a block over the budget. *)
Theorem walkBack_splits w read err a w' :
  exec reads_file (walkBack error_text v budget size a0) w (read, err, a) w' →
  (a, err) = visit_all v (reverse (complete_lines (reach budget))) a0
  ∧ 0 ≤ read ≤ reach budget ∧ (err = None → read = reach budget)
  ∧ reach budget < Z.max 0 budget + blockSize ∧ (reach budget = size ∨ budget ≤ reach budget).
Proof.
  intros He. pose proof reach_bounds as (H0 & H1 & H2).
  destruct (wp_exec He (wp_walkBack w)) as (Hv & Hr & Hn). cbn in Hv, Hr, Hn. split_and!; (done || lia).
Qed.
End Walk.

(** ** The reply *)

(** The record of a line, if it is one of the main conversation. *)
Definition main_record (line : string) : option record :=
  let line := trim_space line in
  if String.eqb line "" then None
  else match Unmarshal line ≫= decode_record with
       | Some rec => if IsSidechain rec then None else Some rec
       | None => None
       end.

Definition is_prompt (rec : record) : bool := String.eqb (RecType rec) "user" && isPrompt rec.
Definition is_assistant (rec : record) : bool := String.eqb (RecType rec) "assistant".

(** The records after the operator's last prompt, of those given newest first,
    and that prompt. *)
Fixpoint last_turn (recs : list record) : list record * option record :=
  match recs with
  | [] => ([], None)
  | r :: recs => if is_prompt r then ([], Some r) else let '(t, p) := last_turn recs in (r :: t, p)
  end.

(** The texts of a turn, newest first. *)
Definition turn_texts (turn : list record) : list string :=
  omap (λ r, if is_assistant r then lastText (MsgContent r) else None) turn.

Definition turn_stats (turn : list record) (prompt : option record) : turnStats :=
  let t := foldl (λ t r, if is_assistant r then absorb t r else t) empty_turn turn in
  match prompt with Some p => set_prompt t (Timestamp p) | None => t end.

(** What the conversation says, its lines given newest first. *)
Definition conversation (lines : list string) : option string * turnStats :=
  let '(turn, prompt) := last_turn (omap main_record lines) in
  (head (turn_texts turn), turn_stats turn prompt).

Lemma visit_other line s : main_record line = None → ∃ s', visit line s = (s', None) ∧ Turn s' = Turn s ∧ Found s' = Found s.
Proof.
  unfold main_record, visit. destruct (String.eqb _ _); [by eexists|]. destruct (Unmarshal _ ≫= decode_record) as [rec|]; [|by eexists].
  unfold visit_record. destruct (IsSidechain rec); [by eexists|done].
Qed.

Lemma visit_main line rec s : main_record line = Some rec →
  visit line s = visit_record rec s ∧ IsSidechain rec = false.
Proof.
  unfold main_record, visit. destruct (String.eqb _ _); [done|]. destruct (Unmarshal _ ≫= decode_record) as [rec'|]; [|done].
  destruct (IsSidechain rec') eqn:E; [done|]. by intros [= ->].
Qed.

(** The state of the visitor after some lines. *)
Lemma visit_all_conversation lines s :
  let '(turn, prompt) := last_turn (omap main_record lines) in
  let '(s', err) := visit_all visit lines s in
  Found s' = match Found s with Some t => Some t | None => head (turn_texts turn) end
  ∧ Turn s' = match prompt with
              | Some p => set_prompt (foldl (λ t r, if is_assistant r then absorb t r else t) (Turn s) turn) (Timestamp p)
              | None => foldl (λ t r, if is_assistant r then absorb t r else t) (Turn s) turn
              end
  ∧ err = match prompt with
          | Some _ => Some (match Found s' with None => no_reply "%w: no reply text after the last prompt" [] | Some _ => Foreign errStop end)
          | None => None
          end.
Proof.
  revert s. induction lines as [|line lines IH]; intros s; cbn [omap list_omap last_turn visit_all].
  - cbn. by destruct (Found s).
  - destruct (main_record line) as [rec|] eqn:Hrec.
    + destruct (visit_main line rec s Hrec) as [-> Hside]. cbn [last_turn]. unfold is_prompt. unfold visit_record at 1. rewrite Hside.
      destruct (String.eqb (RecType rec) "user") eqn:Hu; cbn [andb].
      * destruct (isPrompt rec); cbn; [by destruct (Found s)|]. specialize (IH s).
        assert (is_assistant rec = false) as Ha by (unfold is_assistant; apply String.eqb_eq in Hu; by rewrite Hu).
        destruct (last_turn _) as [turn prompt]. destruct (visit_all visit lines s) as [s' err]. cbn. rewrite Ha. exact IH.
      * fold (is_assistant rec). destruct (is_assistant rec) eqn:Ha.
        -- cbn. specialize (IH (mkScan (Skipped s) (absorb (Turn s) rec) (match Found s with Some t => Some t | None => lastText (MsgContent rec) end))).
           destruct (last_turn _) as [turn prompt]. destruct (visit_all visit lines _) as [s' err]. cbn in IH |- *. rewrite Ha.
           destruct IH as (H1 & H2 & H3). split_and!; [|done|done]. rewrite H1. destruct (Found s); [done|]. by destruct (lastText _).
        -- cbn. specialize (IH s). destruct (last_turn _) as [turn prompt]. destruct (visit_all visit lines s) as [s' err]. cbn. rewrite Ha. exact IH.
    + destruct (visit_other line s Hrec) as (s1 & -> & Ht & Hf). specialize (IH s1). rewrite Ht, Hf in IH. exact IH.
Qed.

Section Reply.
Context (file : string) (error_text : error → string) (budget : Z).

(** C33: the reply of a transcript is the last text the agent wrote after the
    operator's last prompt within the part the budget reaches, whatever lines
    of other kinds, subagents and broken records lie between; the stats are
    those of that turn, complete exactly if its prompt was reached; without
    such a text the error is [ErrNoReply]. *)
Theorem last_reply_of_turn w r w' :
  exec (reads_file file) (lastReplyFrom error_text (size file) budget) w r w' →
  let '(text, stats) := conversation (reverse (complete_lines file (reach file budget))) in
  match text with
  | Some t => r = Ok (t, stats)
  | None => ∃ e, r = Err e ∧ errors_is e ErrNoReply = true
  end.
Proof.
  intros He. set (lines := reverse _). pose proof (visit_all_conversation lines empty_scan) as Hc. unfold conversation, turn_stats.
  assert (wp (reads_file file) (lastReplyFrom error_text (size file) budget) w
    (λ r _, ∃ read, r = reply_outcome (size file) budget read (visit_all visit lines empty_scan).2 (visit_all visit lines empty_scan).1)) as Hwp.
  { apply wp_bind. eapply wp_mono; [|apply wp_walkBack]. intros [[read err] s] w2 (Hv & _ & _). cbn in Hv |- *. exists read.
    fold lines in Hv. by rewrite <-Hv. }
  destruct (wp_exec He Hwp) as (read & ->). destruct (last_turn _) as [turn prompt].
  destruct (visit_all visit lines empty_scan) as [s err]. cbn in Hc |- *. destruct Hc as (Hf & Ht & ->).
  unfold reply_outcome. rewrite Ht. destruct (head (turn_texts turn)) as [t|]; rewrite Hf.
  - by destruct prompt.
  - destruct prompt as [p|]; [by eexists|]. destruct (_ && _); by eexists.
Qed.
End Reply.

(** ** Slugs and files *)

Lemma dashes_bytes n : Forall (λ c, c = "-"%char) (bytes (dashes n)).
Proof. induction n as [|n IH]; [constructor|]. change (bytes (dashes (S n))) with ("-"%char :: bytes (dashes n)). by constructor. Qed.

Definition slug_byte (c : ascii) : Prop := c = "-"%char ∨ slug_char (byte_of c) = true.

(** The directory name is made of ASCII letters, digits and dashes: it is one
    path element whatever the working directory holds. *)
Lemma projectSlug_bytes cwd : Forall slug_byte (bytes (projectSlug cwd)).
Proof.
  unfold projectSlug. generalize (runes cwd) as rs. induction rs as [|r rs IH]; [constructor|]. cbn [map concat_str].
  rewrite bytes_app. apply Forall_app. split; [|exact IH]. destruct (slug_char r) eqn:E.
  - assert (0 ≤ r < 128) as Hr.
    { unfold slug_char, ascii_lower_letter, ascii_upper, ascii_digit in E. rewrite !orb_true_iff, !andb_true_iff, !Z.leb_le in E. lia. }
    unfold encode_rune. assert (valid_rune r = true) as -> by (apply valid_rune_spec; lia). rewrite (proj2 (Z.ltb_lt _ _)) by lia.
    constructor; [|constructor]. right. by rewrite byte_of_of_byte by lia.
  - eapply Forall_impl; [apply dashes_bytes|]. intros c ->. by left.
Qed.

Lemma first_seen_spec seen l : NoDup (first_seen seen l) ∧ ∀ x, x ∈ first_seen seen l ↔ x ∈ l ∧ x ∉ seen.
Proof.
  revert seen. induction l as [|x l IH]; intros seen; cbn [first_seen]; [split; [constructor|set_solver]|].
  destruct (IH seen) as [H1 H2]. destruct (IH (x :: seen)) as [H3 H4]. case_bool_decide as Hx.
  - split; [done|]. intros y. rewrite H2. set_solver.
  - split; [constructor; [rewrite H4; set_solver|done]|]. intros y. rewrite elem_of_cons, H4. destruct (decide (y = x)); set_solver.
Qed.

(** Every file of the turn is named once. *)
Lemma uniqueReversed_spec paths : NoDup (uniqueReversed paths) ∧ ∀ x, x ∈ uniqueReversed paths ↔ x ∈ paths.
Proof.
  destruct (first_seen_spec [] (reverse paths)) as [H1 H2]. split; [done|]. intros x. unfold uniqueReversed. rewrite H2, elem_of_reverse. set_solver.
Qed.

(** ** A sample transcript *)

Definition sample_record (type stamp : string) (content : json) (extra : list (string * json)) : string :=
  default "" (Marshal (JObj ([("type", JStr type); ("timestamp", JStr stamp)] ++ extra
    ++ [("message", JObj [("model", JStr "m"); ("content", content); ("usage", JObj [("output_tokens", JInt 5)])])]))).
Definition text_part (t : string) : json := JObj [("type", JStr "text"); ("text", JStr t)].

Definition sample_file : string := join
  [sample_record "assistant" "2026-09-03T07:00:00Z" (JArr [text_part "earlier"]) [];
   sample_record "user" "2026-09-03T07:01:00Z" (JStr "fix it") [];
   sample_record "assistant" "2026-09-03T07:02:00Z" (JArr [text_part " done "; JObj [("type", JStr "tool_use"); ("name", JStr "Edit"); ("input", JObj [("file_path", JStr "a.go")])]]) [];
   "not json";
   sample_record "assistant" "2026-09-03T07:03:00Z" (JStr "aside") [("isSidechain", JBool true)]; ""] nl.

Definition sample_disk : oracle (E := transcriptE) := λ B o _,
  match o in transcriptE B return B with
  | TCtxErr => None
  | THome => Ok "/home/op"
  | TReadDir _ => Ok [mkEntry "s.jsonl" false]
  | TInfo _ _ => Ok 7
  | TNow => 9
  | TOpen _ => None
  | TStat => Ok (size sample_file)
  | TReadAt n pos => Ok (slice sample_file n pos)
  end.

Lemma sample_disk_legal h B (o : transcriptE B) : reads_file sample_file h B o (sample_disk B o h).
Proof. by destruct o. Qed.

Lemma last_reply_of_turn_witness :
  let run := interp sample_disk (lastReplyFrom (λ _, "?") (size sample_file) 1000) (mkWorld tt []) in
  let said := conversation (reverse (complete_lines sample_file (reach sample_file 1000))) in
  said.1 = Some "done" ∧ TurnFiles said.2 = ["a.go"] ∧ run.1 = Ok ("done", said.2).
Proof.
  intros run said. split; [by vm_compute|]. split; [by vm_compute|].
  exact (last_reply_of_turn sample_file (λ _, "?") 1000 (mkWorld tt []) run.1 run.2
    (interp_exec (reads_file sample_file) sample_disk _ _ sample_disk_legal)).
Defined.

Lemma walkBack_splits_witness :
  let v := λ line (seen : list string), (line :: seen, None) in
  let run := interp sample_disk (walkBack (λ _, "?") v 1000 (size sample_file) []) (mkWorld tt []) in
  run.1 = (size sample_file, None, split_char newline sample_file) ∧ (run.1.2, run.1.1.2) = visit_all v (reverse (complete_lines sample_file (reach sample_file 1000))) [].
Proof.
  intros v run. split; [by vm_compute|].
  assert (run.1 = (size sample_file, None, split_char newline sample_file)) as E by (by vm_compute). rewrite E.
  refine (proj1 (walkBack_splits sample_file (λ _, "?") v 1000 [] (mkWorld tt []) (size sample_file) None (split_char newline sample_file) run.2 _)).
  rewrite <-E. exact (interp_exec (reads_file sample_file) sample_disk _ _ sample_disk_legal).
Defined.
