(* ===== verification/Herdr.v ===== *)
(** internal/adapters/herdr: the backoff schedule of stream.go, the single
    request of call.go, the gateway of gateway.go and the command line of cli.go.

    A request is a program over [herdrE]: the socket, the context, the clock
    and the random numbers.  [HReceive] stands for the lines the connection
    yields until it fails, and how it fails; the code stops reading at the
    reply. *)
From S2P Require Import Prelude GoStrings Errors Status GoTime Events Redact Eff Json JsonText HerdrWire TurnMeta AppPorts.

Local Open Scope Z_scope.

Definition Millisecond : Duration := 1000000.

(** ** stream.go: Backoff *)

Record Backoff := mkBackoff { BMin : Duration; BMax : Duration; BJitter : spec_float }.

Definition DefaultBackoff : Backoff :=
  mkBackoff (250 * Millisecond) (10 * Second) (fdiv (GoTime.float64_of 2) (GoTime.float64_of 10)).

(** The loop of [Next]. *)
Fixpoint doubled (hi : Duration) (attempt : nat) (d : Duration) : Duration :=
  match attempt with
  | S n => if d <? hi then doubled hi n (wrap64 (d * 2)) else d
  | O => d
  end.

Definition positive (x : spec_float) : bool := SFltb (S754_zero false) x.

(** The delay before the jitter, and with [u] of [rand.Float64]. *)
Definition next_base (b : Backoff) (attempt : nat) : Duration :=
  let lo := if BMin b <=? 0 then BMin DefaultBackoff else BMin b in
  let hi := if BMax b <? lo then lo else BMax b in
  let d := doubled hi attempt lo in
  if hi <? d then hi else d.
Definition Next (b : Backoff) (attempt : nat) (u : spec_float) : Duration :=
  let d := next_base b attempt in
  if positive (BJitter b) then wrap64 (d + trunc_float (fmul (fmul u (BJitter b)) (GoTime.float64_of d))) else d.

Definition zero_backoff (b : Backoff) : bool :=
  (BMin b =? 0) && (BMax b =? 0) && match BJitter b with S754_zero _ => true | _ => false end.
Definition gateway_backoff (b : Backoff) : Backoff := if zero_backoff b then DefaultBackoff else b.

(** ** call.go *)

Inductive herdrE : Type → Type :=
  | HSeq : herdrE Z                                  (* callSeq.Add(1) *)
  | HDial : herdrE (option error)
  | HWrite (line : string) : herdrE (option error)
  | HReceive : herdrE (list string * error)
  | HClose : herdrE unit
  | HCtxErr : herdrE (option error)
  | HRand : herdrE spec_float
  | HSleep (d : Duration) : herdrE bool
  | HStartStream : herdrE unit
  | HStopStream : herdrE unit.

(** The gateway: whether it was started and not closed. *)
Record Gateway := mkGateway { Running : bool }.

Local Notation prog := (prog herdrE Gateway).
Local Open Scope eff_scope.

Section Herdr.
Context {T : SymbolTables} (path : string) (backoff : Backoff) (error_text : error → string).

Definition codeNotFound : string := "not_found".

Definition ctxErr (method : string) (err : error) : prog error :=
  do c ← call HCtxErr;
  Ret (match c with Some c => Errorf "herdr %s: %w" [method] [c] | None => err end).

(** The read loop: a line that is no reply to [id] is passed over. *)
Fixpoint await {A} (method id : string) (decode : option json → option A) (lines : list string) (err : error)
    : prog (result A) :=
  match lines with
  | [] =>
    let err := if is_foreign err EOF || is_foreign err ErrUnexpectedEOF
               then Errorf "%w: server closed before replying to %s" [method] [Sentinel ErrDisconnected]
               else Errorf "herdr read %s: %w" [method] [err] in
    do e ← ctxErr method err; Ret (Err e)
  | raw :: lines =>
    match Unmarshal raw ≫= decode_response with
    | None => await method id decode lines err
    | Some r =>
      if negb (String.eqb (RespID r) id) then await method id decode lines err
      else
        match RespError r with
        | Some e => Ret (Err (HerdrError (WE_Code e) (WE_Message e)))
        | None =>
          match decode (RespResult r) with
          | Some a => Ret (Ok a)
          | None => Ret (Err (Errorf "herdr decode %s result: %w" [method] [Opaque "json"]))
          end
        end
    end
  end.

(** The connection, closed whatever comes of it. *)
Definition callOnce {A} (id method : string) (params : json) (decode : option json → option A) : prog (result A) :=
  match Marshal (request id method params) with
  | None => Ret (Err (Errorf "herdr encode %s: %w" [method] [Opaque "json"]))
  | Some line =>
    do e ← call HDial;
    match e with
    | Some e => Ret (Err (Errorf "%w %s: %w" [path] [Foreign errDial; e]))
    | None =>
      do e ← call (HWrite (line +:+ nl));
      do r ← match e with
             | Some e => do e ← ctxErr method (Errorf "herdr write %s: %w" [method] [e]); Ret (Err e)
             | None => do got ← call HReceive; await method id decode got.1 got.2
             end;
      do _ ← call HClose;
      Ret r
    end
  end.

Definition call_ {A} (method : string) (params : json) (decode : option json → option A) : prog (result A) :=
  do seq ← call HSeq;
  callOnce ("r" +:+ itoa seq) method params decode.

Definition ping : prog (result (string * Z)) := call_ "ping" no_params decode_pong.

(** ** gateway.go *)

Definition pick_herdr (e : error) : option (string * string) :=
  match e with HerdrError code message => Some (code, message) | _ => None end.

Definition translateCallErr (method : string) (err : error) : error :=
  match errors_as pick_herdr err with
  | None => err
  | Some (code, message) =>
    if String.eqb code codeNotFound then Errorf "herdr %s: %w" [method] [Sentinel ErrAgentGone]
    else Errorf "herdr %s: %w" [method] [HerdrError code message]
  end.

Definition next_delay (attempt : nat) : prog Duration :=
  if positive (BJitter backoff) then do u ← call HRand; Ret (Next backoff attempt u)
  else Ret (next_base backoff attempt).

(** What is made of the error of a request. *)
Definition settle {A} (method : string) (r : result A) : result A :=
  match r with
  | Ok a => Ok a
  | Err e =>
    Err (translateCallErr method
           (if is_foreign e errDial then Errorf "%w: %v" [error_text e] [Sentinel ErrDisconnected] else e))
  end.

(** [Gateway.call]: a dial that failed is tried once more after a pause. *)
Definition gcall {A} (method : string) (params : json) (decode : option json → option A) : prog (result A) :=
  do r ← call_ method params decode;
  match r with
  | Err e =>
    if is_foreign e errDial then
      do c ← call HCtxErr;
      match c with
      | Some _ => Ret (settle method r)
      | None =>
        do delay ← next_delay 0;
        do slept ← call (HSleep delay);
        if slept : bool then do r ← call_ method params decode; Ret (settle method r)
        else do c ← call HCtxErr; Ret (Err (Errorf "herdr %s: %w" [method] (option_list c)))
      end
    else Ret (settle method r)
  | Ok _ => Ret r
  end.

(** A request whose result is not read. *)
Definition gdo (method : string) (params : json) : prog (option error) :=
  do r ← gcall method params (λ _, Some tt);
  Ret (match r with Ok _ => None | Err e => Some e end).

Definition Ping : prog (result (string * Z)) := ping.

Definition Start : prog (option error) :=
  do running ← gets Running;
  if running : bool then fail (Opaque "herdr gateway already started")
  else
    do r ← Ping;
    match r with
    | Err e => fail e
    | Ok _ => do _ ← modify (λ _, mkGateway true); do _ ← call HStartStream; nil_
    end.

Definition Close : prog (option error) :=
  do running ← gets Running;
  if running : bool then do _ ← modify (λ _, mkGateway false); do _ ← call HStopStream; nil_ else nil_.

(** The labels by id, as the code fills its maps. *)
Definition ws_labels (wss : list workspaceInfo) : gmap string string :=
  foldl (λ m w, <[WI_WorkspaceID w := trim_space (WI_Label w)]> m) ∅ wss.
Definition tab_labels (tabs : list tabInfo) : gmap string string :=
  foldl (λ m t, <[TI_TabID t := trim_space (TI_Label t)]> m) ∅ tabs.

Definition labelled (wss : list workspaceInfo) (tabs : list tabInfo) (a : agentInfo) : Agent :=
  let d := toDomainAgent a in
  let d := with_workspace_label d (default "" (ws_labels wss !! WorkspaceID d)) in
  with_tab_label d (default "" (tab_labels tabs !! TabID d)).

Definition ListAgents : prog (result (list Agent)) :=
  do r ← gcall "agent.list" no_params decode_agentList;
  match r with
  | Err e => Ret (Err e)
  | Ok [] => Ret (Ok [])
  | Ok agents =>
    do r ← gcall "workspace.list" no_params decode_workspaceList;
    match r with
    | Err e => Ret (Err e)
    | Ok wss =>
      do r ← gcall "tab.list" no_params decode_tabList;
      match r with
      | Err e => Ret (Err e)
      | Ok tabs => Ret (Ok (map (labelled wss tabs) agents))
      end
    end
  end.

Definition source_word (s : ScreenSource) : string :=
  match s with ScreenVisible => "visible" | ScreenDetection => "detection" | ScreenRecent => "recent" end.

Definition ReadScreen (target : string) (source : ScreenSource) (lines : Z) : prog (result Screen) :=
  do r ← gcall "agent.read" (readParams target (source_word source) lines) decode_paneRead;
  Ret (match r with Err e => Err e | Ok (text, rev, cut) => Ok (mkScreen text rev cut) end).

Definition Prompt (target text : string) : prog (option error) := gdo "agent.prompt" (promptParams target text).
Definition SendKeys (target : string) (keys : list string) : prog (option error) := gdo "agent.send_keys" (sendKeysParams target keys).
Definition Focus (target : string) : prog (option error) := gdo "agent.focus" (focusParams target).
Definition Rename (target : string) (name : option string) : prog (option error) := gdo "agent.rename" (renameParams target name).
Definition RenameTab (tab label : string) : prog (option error) := gdo "tab.rename" (tabRenameParams tab label).

Definition ListWorkspaces : prog (result (list Workspace)) :=
  do r ← gcall "workspace.list" no_params decode_workspaceList;
  Ret (match r with
       | Err e => Err e
       | Ok wss => Ok (map (λ w, mkWorkspace (WI_WorkspaceID w) (trim_space (WI_Label w))) wss)
       end).

Definition CreateTab (ws : string) : prog (result Tab) :=
  do r ← gcall "tab.create" (tabCreateParams ws) decode_tabCreated;
  Ret (match r with
       | Err e => Err e
       | Ok (t, pane) => Ok (mkTab (TI_TabID t) (TI_WorkspaceID t) (trim_space (TI_Label t)) pane)
       end).

Definition StartAgentMinTimeout : Duration := 3001 * Millisecond.
Definition StartAgentMaxTimeout : Duration := 300 * Second.
Definition clamp_timeout (timeout : Duration) : Duration := Z.min (Z.max timeout StartAgentMinTimeout) StartAgentMaxTimeout.

Definition StartAgent (name kind pane : string) (timeout : Duration) : prog (result Agent) :=
  do r ← gcall "agent.start" (agentStartParams name kind pane (Z.quot (clamp_timeout timeout) Millisecond)) decode_agentStarted;
  Ret (match r with Err e => Err e | Ok a => Ok (toDomainAgent a) end).

Definition ClosePane (pane : string) : prog (option error) := gdo "pane.close" (paneCloseParams pane).

Inductive NotifySound := NotifySoundNone | NotifySoundDefault | OtherSound (name : string).
Definition wireSound (s : NotifySound) : string :=
  match s with NotifySoundNone => "none" | NotifySoundDefault => "done" | OtherSound _ => "" end.
Definition Notify (title body : string) (sound : NotifySound) : prog (option error) :=
  gdo "notification.show" (notifyParams title body (wireSound sound)).
End Herdr.

(** ** cli.go *)

Inductive cliE : Type → Type :=
  | RunCommand (bin : string) (args : list string) : cliE (option error * string * string).   (* error, stdout, stderr *)

(** [NewCLI]: the herdr binary, the plugin checkout and the caller's PATH. *)
Record CLI := mkCLI { Bin : string; Root : string; Path : string }.

Definition path_separator : string := ":".
Definition panePath (root path : string) : string :=
  if String.eqb path "" then root else root +:+ path_separator +:+ path.

Definition cli_run (c : CLI) (args : list string) : Eff.prog cliE unit (option error) :=
  do r ← call (RunCommand (Bin c) args);
  let '(err, stdout, stderr) := r in
  match err with
  | None => nil_
  | Some e =>
    let msg := trim_space stderr in
    let msg := if String.eqb msg "" then trim_space stdout else msg in
    if negb (String.eqb msg "") then fail (Errorf "herdr %s: %w: %s" [join args " "; msg] [e])
    else fail (Errorf "herdr %s: %w" [join args " "] [e])
  end.

Definition OpenPane (c : CLI) (pluginID entrypoint : string) : Eff.prog cliE unit (option error) :=
  let args := ["plugin"; "pane"; "open"; "--plugin"; pluginID; "--entrypoint"; entrypoint] in
  cli_run c (if String.eqb (Root c) "" then args else args ++ ["--env"; "PATH=" +:+ panePath (Root c) (Path c)]).

(** * The Herdr gateway: the backoff schedule, what a request writes and reads,
    and the agents it delivers. *)
(** ** The schedule *)

Lemma doubled_le hi n d : hi ≤ d → doubled hi n d = d.
Proof. intros H. destruct n; [done|]. cbn [doubled]. by rewrite (proj2 (Z.ltb_ge _ _)). Qed.

Lemma doubled_spec hi n d : 0 < d → hi ≤ 2 ^ 62 → Z.min hi (doubled hi n d) = Z.min hi (d * 2 ^ Z.of_nat n).
Proof.
  intros Hd Hhi. revert d Hd. induction n as [|n IH]; intros d Hd; [by rewrite Z.mul_1_r|]. cbn [doubled].
  rewrite Nat2Z.inj_succ, Z.pow_succ_r by lia. destruct (Z.ltb_spec d hi) as [Hlt|Hge].
  - assert (wrap64 (d * 2) = d * 2) as ->.
    { apply wrap64_id. unfold in_int64, int64_min, int64_max. change (2 ^ 62) with 4611686018427387904 in Hhi.
      change (2 ^ 63) with 9223372036854775808. lia. }
    rewrite IH by lia. f_equal. lia.
  - pose proof (Z.pow_pos_nonneg 2 (Z.of_nat n) ltac:(lia) ltac:(lia)). nia.
Qed.

Definition schedule_min (b : Backoff) : Duration := if BMin b <=? 0 then BMin DefaultBackoff else BMin b.
Definition schedule_max (b : Backoff) : Duration := Z.max (BMax b) (schedule_min b).

(** The reconnect delay is the minimum doubled per attempt up to the
    maximum, without overflow for any maximum up to 2^62 nanoseconds, with the
    default for a minimum that is not positive and a maximum no lower than it;
    the jitter only adds to it. *)
Theorem backoff_schedule b n : BMax b ≤ 2 ^ 62 → BMin b ≤ 2 ^ 62 →
  next_base b n = Z.min (schedule_max b) (schedule_min b * 2 ^ Z.of_nat n)
  ∧ schedule_min b ≤ next_base b n ≤ schedule_max b
  ∧ (next_base b n ≤ next_base b (S n))
  ∧ ∀ u, ∃ extra, 0 ≤ extra ∧ Next b n u = wrap64 (next_base b n + extra).
Proof.
  intros Hmax Hmin.
  assert (0 < schedule_min b ≤ 2 ^ 62) as Hlo.
  { unfold schedule_min. destruct (Z.leb_spec (BMin b) 0); [done|lia]. }
  assert (∀ m, next_base b m = Z.min (schedule_max b) (schedule_min b * 2 ^ Z.of_nat m)) as Hbase.
  { intros m. unfold next_base. fold (schedule_min b). set (lo := schedule_min b) in *.
    assert ((if BMax b <? lo then lo else BMax b) = schedule_max b) as ->.
    { unfold schedule_max. fold lo. destruct (Z.ltb_spec (BMax b) lo); lia. }
    rewrite <-doubled_spec by (unfold schedule_max; fold lo; lia). destruct (Z.ltb_spec (schedule_max b) (doubled (schedule_max b) m lo)); lia. }
  assert (∀ m, in_int64 (next_base b m)) as Hrange.
  { intros m. rewrite Hbase. pose proof (Z.pow_pos_nonneg 2 (Z.of_nat m) ltac:(lia) ltac:(lia)).
    unfold in_int64, int64_min, int64_max, schedule_max. change (2 ^ 62) with 4611686018427387904 in *.
    change (2 ^ 63) with 9223372036854775808. nia. }
  pose proof (Z.pow_pos_nonneg 2 (Z.of_nat n) ltac:(lia) ltac:(lia)) as Hp. split; [done|]. split.
  { rewrite Hbase. unfold schedule_max. nia. }
  split.
  { rewrite !Hbase, Nat2Z.inj_succ, Z.pow_succ_r by lia. nia. }
  intros u. unfold Next. destruct (positive (BJitter b)).
  - eexists. split; [|reflexivity]. unfold trunc_float. case_match; try lia. case_match; [lia|].
    case_match; [|apply Z.div_pos; lia]. apply Z.mul_nonneg_nonneg; lia.
  - exists 0. split; [lia|]. by rewrite Z.add_0_r, wrap64_id.
Qed.

Lemma backoff_schedule_witness :
  map (next_base DefaultBackoff) [0; 1; 5; 6; 60]%nat
  = map (Z.mul Millisecond) [250; 500; 8000; 10000; 10000]
  ∧ schedule_min DefaultBackoff ≤ next_base DefaultBackoff 3 ≤ schedule_max DefaultBackoff.
Proof.
  split; [by vm_compute|]. destruct (backoff_schedule DefaultBackoff 3) as (_ & H & _); [done|done|exact H].
Defined.

(** ** One request *)

(** What a run wrote, newest first, how often it dialled, and what it read. *)
Definition ev_sent (ev : event herdrE) : list string := match ev with Ev (HWrite line) _ => [line] | _ => [] end.
Definition ev_dials (ev : event herdrE) : nat := match ev with Ev HDial _ => 1 | _ => 0 end.
Fixpoint sent (h : list (event herdrE)) : list string :=
  match h with ev :: h => ev_sent ev ++ sent h | [] => [] end.
Fixpoint dials (h : list (event herdrE)) : nat :=
  match h with ev :: h => (ev_dials ev + dials h)%nat | [] => 0%nat end.

(** An error of the socket or the context: not the adapter's own mark of a
    failed dial, and nothing the server answered. *)
Definition port_error (e : error) : Prop :=
  is_foreign e errDial = false ∧ errors_is e ErrAgentGone = false ∧ errors_as pick_herdr e = None.

Lemma port_error_not_gone method : ¬ port_error (Errorf "herdr %s: %w" [method] [Sentinel ErrAgentGone]).
Proof. by intros (_ & H & _). Qed.

Lemma port_error_wrap f args e : port_error e → port_error (Errorf f args [e]).
Proof. intros (H1 & H2 & H3). repeat split; [by rewrite is_foreign_wrap|by rewrite errors_is_wrap|]. cbn. by rewrite H3. Qed.

Definition herdr_legal (h : list (event herdrE)) (B : Type) (o : herdrE B) (b : B) : Prop :=
  match o in herdrE B return B → Prop with
  | HWrite _ => λ e, from_option port_error True e
  | HReceive => λ got, port_error got.2
  | HCtxErr => λ e, from_option port_error True e
  | _ => λ _, True
  end b.

(** The reply to [id] among the lines: the first response with that id. *)
Fixpoint reply_of (id : string) (lines : list string) : option response :=
  match lines with
  | [] => None
  | raw :: lines =>
    match Unmarshal raw ≫= decode_response with
    | Some r => if String.eqb (RespID r) id then Some r else reply_of id lines
    | None => reply_of id lines
    end
  end.

Section Once.
Context {T : SymbolTables} (path : string) (backoff : Backoff) (error_text : error → string).
Context {A : Type} (method : string) (params : json) (decode : option json → option A).
Local Notation world := (world herdrE Gateway).
Local Notation wp := (wp herdr_legal).

Definition request_line (seq : Z) : option string :=
  (λ line, line +:+ nl) <$> Marshal (request ("r" +:+ itoa seq) method params).

(** The request went out once, on a connection that yielded [got], and [r] is
    what the reply to it says. *)
Definition answers (r : result A) (reply : option response) : Prop :=
  match reply with
  | None => ∃ e, r = Err e ∧ port_error e
  | Some rep =>
    match RespError rep, decode (RespResult rep) with
    | Some e, _ => r = Err (HerdrError (WE_Code e) (WE_Message e))
    | None, Some a => r = Ok a
    | None, None => ∃ e, r = Err e ∧ port_error e
    end
  end.

Inductive tried (w w' : world) (r : result A) : Prop :=
  | tried_not e : sent (trace w') = sent (trace w) → r = Err e → is_foreign e errDial = true ∨ port_error e → tried w w' r
  | tried_unwritten seq line e : request_line seq = Some line → sent (trace w') = line :: sent (trace w) →
      r = Err e → port_error e → tried w w' r
  | tried_sent seq line got end_ : request_line seq = Some line → sent (trace w') = line :: sent (trace w) →
      Ev HReceive (got, end_) ∈ trace w' → answers r (reply_of ("r" +:+ itoa seq) got) → tried w w' r.

Lemma answers_not_dial r reply : answers r reply → ∀ e, r = Err e → is_foreign e errDial = false.
Proof.
  unfold answers. intros H e ->. destruct reply as [rep|]; [|by destruct H as (e' & [= ->] & [? _])].
  destruct (RespError rep); [by injection H as ->|]. destruct (decode _); [done|]. by destruct H as (e' & [= ->] & [? _]).
Qed.

Lemma wp_ctxErr err w (Q : error → world → Prop) : port_error err →
  (∀ e w', port_error e → trace w ⊆ trace w' → sent (trace w') = sent (trace w) → dials (trace w') = dials (trace w) → Q e w') →
  wp (ctxErr method err) w Q.
Proof.
  intros He HQ. apply wp_ask. intros c Hc. cbn. apply HQ; [|by apply list_subseteq_cons|done..].
  destruct c as [c|]; [|done]. by apply port_error_wrap.
Qed.

Lemma wp_await id lines err w (Q : result A → world → Prop) : port_error err →
  (∀ r w', answers r (reply_of id lines) → trace w ⊆ trace w' → sent (trace w') = sent (trace w) → dials (trace w') = dials (trace w) → Q r w') →
  wp (await method id decode lines err) w Q.
Proof.
  intros He. induction lines as [|raw lines IH]; intros HQ; cbn [await reply_of] in *.
  - apply wp_bind, wp_ctxErr; [destruct (_ || _); by apply port_error_wrap|]. intros e w' Hf ???. cbn. apply HQ; [by eexists|done..].
  - destruct (Unmarshal raw ≫= decode_response) as [rep|]; [|by apply IH].
    destruct (String.eqb (RespID rep) id); cbn [negb]; [|by apply IH].
    destruct (RespError rep) eqn:Er; [|destruct (decode (RespResult rep)) eqn:Ed]; cbn; apply HQ; try done; unfold answers; rewrite ?Er, ?Ed; eauto.
    eexists. split; [reflexivity|]. done.
Qed.

(** One try dials once and writes at most the request, on the connection it
    dialled; an error marked as a failed dial means nothing was written. *)
Lemma wp_gateway_call w :
  wp (call_ path method params decode) w (λ r w', tried w w' r ∧ (dials (trace w') ≤ S (dials (trace w)))%nat
    ∧ (∀ e, r = Err e → is_foreign e errDial = true → sent (trace w') = sent (trace w))).
Proof.
  apply wp_ask. intros seq _. unfold callOnce. destruct (Marshal _) as [line|] eqn:Hm.
  2: { cbn. split; [|split; [lia|done]]. eapply tried_not; [done..|by right]. }
  assert (request_line seq = Some (line +:+ nl)) as Hl by (unfold request_line; by rewrite Hm).
  apply wp_ask. intros [e|] _; [cbn; split; [eapply tried_not; [done|done|by left]|split; [lia|done]]|].
  apply wp_ask. intros [e|] He; apply wp_bind.
  - apply wp_bind, wp_ctxErr; [by apply port_error_wrap|]. intros e' w' Hf _ Hs Hd. cbn. rewrite Hs, Hd.
    split; [by eapply tried_unwritten|]. split; [cbn; lia|]. intros e2 [= <-] Hd2. destruct Hf as [Hf _]. congruence.
  - apply wp_ask. intros [got err] Hg. apply wp_await; [exact Hg|]. intros r w' Ha Hsub Hs Hd. cbn. rewrite Hs, Hd.
    split; [|split].
    + eapply tried_sent; [exact Hl|by cbn; rewrite Hs| |exact Ha]. cbn. right. apply Hsub. by left.
    + cbn. lia.
    + intros e -> Hf. rewrite (answers_not_dial _ _ Ha e eq_refl) in Hf. done.
Qed.

(** The gateway's call: the outcome of the one try that got through, or none. *)
Definition called (w w' : world) (r : result A) : Prop :=
  (∃ r0, tried w w' r0 ∧ r = settle error_text method r0)
  ∨ sent (trace w') = sent (trace w) ∧ ∃ e, r = Err e ∧ port_error e.

Lemma tried_after w1 w2 w r : sent (trace w1) = sent (trace w) → tried w1 w2 r → tried w w2 r.
Proof.
  intros Hs [e H1 H2 H3|seq line e H1 H2 H3 H4|seq line got end_ H1 H2 H3 H4].
  - eapply tried_not; [congruence|done..].
  - eapply tried_unwritten; [done|congruence|done..].
  - eapply tried_sent; [done|congruence|done..].
Qed.

Lemma wp_gcall w :
  wp (gcall path backoff error_text method params decode) w (λ r w', called w w' r ∧ (dials (trace w') ≤ 2 + dials (trace w))%nat).
Proof.
  apply wp_bind. eapply wp_mono; [|apply wp_gateway_call]. intros [a|e] w1 (Ht & Hd & Hn).
  { cbn. split; [|lia]. left. by exists (Ok a). }
  destruct (is_foreign e errDial) eqn:He; [|cbn; split; [left; by exists (Err e)|lia]].
  specialize (Hn e eq_refl He).
  apply wp_ask. intros [c|] _; [cbn; split; [|lia]; left; exists (Err e); split; [eapply tried_not; [done|done|by left]|done]|].
  assert (∀ delay w2, sent (trace w2) = sent (trace w1) → (dials (trace w2) = dials (trace w1))%nat →
    wp (bind (call (HSleep delay)) (λ slept, if slept : bool
          then bind (call_ path method params decode) (λ r, Ret (settle error_text method r))
          else bind (call HCtxErr) (λ c, Ret (Err (Errorf "herdr %s: %w" [method] (option_list c)))))) w2
      (λ r w', called w w' r ∧ (dials (trace w') ≤ 2 + dials (trace w))%nat)) as Hrest.
  { intros delay w2 Hs2 Hd2. apply wp_ask. intros [] _.
    - apply wp_bind. eapply wp_mono; [|apply wp_gateway_call]. cbn. intros r w3 (Ht' & Hd' & _). cbn in Hd'. split; [|lia].
      left. exists r. split; [|done]. eapply tried_after; [|exact Ht']. cbn. congruence.
    - apply wp_ask. intros c Hc. cbn. split; [|lia]. right. split; [cbn; congruence|]. eexists. split; [done|].
      destruct c as [c|]; [by apply port_error_wrap|done]. }
  apply wp_bind. unfold next_delay. destruct (positive _).
  - apply wp_ask. intros u _. by apply Hrest.
  - by apply Hrest.
Qed.

(** C9: however the socket fails, a gateway call dials at most twice and
    writes its request at most once, as one line with the id of its reply; it
    succeeds only with what the first reply to that id says, and fails with
    [ErrAgentGone] exactly when that reply is the error not_found. *)
Theorem herdr_call_once w r w' :
  exec herdr_legal (gcall path backoff error_text method params decode) w r w' →
  (dials (trace w') ≤ 2 + dials (trace w))%nat
  ∧ (sent (trace w') = sent (trace w) ∧ (∃ e, r = Err e ∧ errors_is e ErrAgentGone = false)
     ∨ ∃ seq line, request_line seq = Some line ∧ sent (trace w') = line :: sent (trace w)
       ∧ (∀ a, r = Ok a → ∃ got end_ rep, Ev HReceive (got, end_) ∈ trace w' ∧ reply_of ("r" +:+ itoa seq) got = Some rep
            ∧ RespError rep = None ∧ decode (RespResult rep) = Some a)
       ∧ (∀ e, r = Err e → errors_is e ErrAgentGone = true ↔ ∃ got end_ rep we, Ev HReceive (got, end_) ∈ trace w'
            ∧ reply_of ("r" +:+ itoa seq) got = Some rep ∧ RespError rep = Some we ∧ WE_Code we = codeNotFound
            ∧ r = Err (Errorf "herdr %s: %w" [method] [Sentinel ErrAgentGone]))).
Proof.
  intros He. pose proof (wp_exec He (wp_gcall w)) as [Hc Hd]. split; [exact Hd|].
  assert (∀ e, port_error e → translateCallErr method e = e ∧ errors_is e ErrAgentGone = false) as Hport.
  { intros e (_ & H1 & H2). split; [|done]. unfold translateCallErr. by rewrite H2. }
  assert (∀ e, port_error e → settle (A := A) error_text method (Err e) = Err e) as Hsettle.
  { intros e Hp. cbn. rewrite (proj1 Hp). by rewrite (proj1 (Hport e Hp)). }
  destruct Hc as [(r0 & [e Hs Hr Hp|seq line e Hl Hs Hr Hp|seq line got end_ Hl Hs Hin Ha] & ->)|(Hs & e & -> & Hp)]; subst.
  - left. split; [done|]. destruct Hp as [Hf|Hp]; [|rewrite Hsettle by done; exists e; split; [done|by apply Hport]].
    eexists. split; [reflexivity|]. rewrite Hf. by vm_compute.
  - right. exists seq, line. rewrite Hsettle by done. split_and!; [done|done|done|]. intros e' [= <-].
    rewrite (proj2 (Hport e Hp)). split; [done|]. intros (? & ? & ? & ? & _ & _ & _ & _ & [= ->]). by destruct (port_error_not_gone _ Hp).
  - right. exists seq, line. split_and!; [done|done|..]; unfold answers in Ha.
    + intros a Hr. destruct (reply_of _ got) as [rep|] eqn:Hrep; [|by destruct Ha as (e & -> & _)].
      destruct (RespError rep) eqn:Hre; [by subst|]. destruct (decode (RespResult rep)) as [a'|] eqn:Hdec; [|by destruct Ha as (e & -> & _)].
      subst r0. injection Hr as <-. eauto 10.
    + intros e Hr. destruct (reply_of _ got) as [rep|] eqn:Hrep.
      2: { destruct Ha as (e' & -> & Hp). rewrite Hsettle in Hr |- * by done. injection Hr as <-. rewrite (proj2 (Hport _ Hp)).
           split; [done|]. intros (? & ? & ? & ? & _ & _ & _ & _ & [= ->]). by destruct (port_error_not_gone _ Hp). }
      destruct (RespError rep) as [we|] eqn:Hre.
      * subst r0. cbn in Hr |- *. unfold translateCallErr in Hr |- *. cbn in Hr |- *. destruct (String.eqb_spec (WE_Code we) codeNotFound).
        -- injection Hr as <-. split; [|done]. intros _. by exists got, end_, rep, we.
        -- injection Hr as <-. split; [done|]. by intros (? & ? & ? & ? & _ & _ & _ & _ & [= ]).
      * destruct (decode _); [by subst|]. destruct Ha as (e' & -> & Hp). rewrite Hsettle in Hr |- * by done. injection Hr as <-.
        rewrite (proj2 (Hport _ Hp)). split; [done|]. intros (? & ? & ? & ? & _ & _ & _ & _ & [= ->]). by destruct (port_error_not_gone _ Hp).
  - left. split; [done|]. exists e. split; [done|]. by apply Hport.
Qed.
End Once.

(** ** The agents it delivers *)

(** Cutting a string between two of its code points keeps the others. *)
Lemma decode_rune_trunc c r1 r2 rn b rest :
  decode_rune c (r1 +:+ r2) = (rn, b, rest) → (String.length b ≤ S (String.length r1))%nat →
  ∃ rest1, decode_rune c r1 = (rn, b, rest1) ∧ rest = rest1 +:+ r2.
Proof.
  unfold decode_rune. intros H Hb.
  destruct r1 as [|c1 [|c2 [|c3 r1]]]; rewrite ?str_app_cons, ?str_app_nil_l in H;
    [destruct r2 as [|d1 [|d2 [|d3 r2]]]|destruct r2 as [|d1 [|d2 r2]]|destruct r2 as [|d1 r2]|];
    repeat case_match; simplify_eq; cbn [String.length] in Hb; try lia; eexists; split; try reflexivity.
Qed.

Lemma str_app_inj_l (a b c : string) : a +:+ b = a +:+ c → b = c.
Proof. intros H. apply bytes_inj. apply (f_equal bytes) in H. rewrite !bytes_app in H. by simplify_list_eq. Qed.

Lemma segs_prefix l : ∀ s post, segs s = l ++ post → segs (concat_str l.*2) = l.
Proof.
  induction l as [|[rn b] l IH]; intros s post Hs; [done|]. destruct s as [|c r]; [done|].
  rewrite segs_cons in Hs. destruct (decode_rune c r) as [[rn' b'] rest] eqn:E. cbn [app] in Hs. injection Hs as -> -> Hs.
  rewrite fmap_cons. cbn [concat_str snd]. pose proof (decode_rune_split _ _ _ _ _ E) as [Hsplit Hlen].
  pose proof (segs_concat rest) as Hrest. rewrite Hs, fmap_app, concat_str_app in Hrest.
  destruct b as [|c' b]; [done|]. rewrite str_app_cons in Hsplit. injection Hsplit as <- Hr. rewrite <-Hrest, <-str_app_assoc in Hr.
  rewrite Hr in E. destruct (decode_rune_trunc _ _ _ _ _ _ E) as (rest1 & E1 & _).
  { rewrite str_length_app. cbn. lia. }
  rewrite str_app_cons, segs_cons, E1. pose proof (decode_rune_split _ _ _ _ _ E1) as [Hsplit _].
  rewrite str_app_cons in Hsplit. injection Hsplit as Hsplit. apply str_app_inj_l in Hsplit as <-. f_equal. by eapply IH.
Qed.

Lemma segs_suffix s pre l : segs s = pre ++ l → segs (concat_str l.*2) = l.
Proof.
  revert pre. induction s as [|c r rn b rest E IH] using segs_ind; intros pre Hs.
  - by destruct pre, l.
  - destruct pre as [|x pre]; [rewrite app_nil_l in Hs; by rewrite <-Hs, segs_concat|].
    rewrite segs_cons, E in Hs. injection Hs as _ Hs. by eapply IH.
Qed.

Lemma segs_infix s pre l post : segs s = pre ++ l ++ post → segs (concat_str l.*2) = l.
Proof. intros Hs. apply (segs_prefix l (concat_str (l ++ post).*2) post). by apply (segs_suffix s pre). Qed.

Lemma drop_segs_split p l : ∃ pre, l = pre ++ drop_segs p l.
Proof.
  induction l as [|[r b] l [pre IH]]; [by exists []|]. cbn [drop_segs]. destruct (p r); [|by exists []].
  exists ((r, b) :: pre). cbn. by rewrite <-IH.
Qed.

Lemma drop_segs_head p l r b : head (drop_segs p l) = Some (r, b) → p r = false.
Proof. induction l as [|[r' b'] l IH]; [done|]. cbn [drop_segs]. destruct (p r') eqn:E; [done|]. by intros [= -> ->]. Qed.

Lemma drop_spaces_segs l : drop_spaces l = drop_segs is_space l.
Proof. induction l as [|[r b] l IH]; [done|]. cbn. by rewrite IH. Qed.

(** Neither the first nor the last rune is white space. *)
Definition tidy (s : string) : Prop :=
  ∀ r, head (runes s) = Some r ∨ last (runes s) = Some r → is_space r = false.

(** The code points [strings.TrimSpace] keeps. *)
Lemma trim_space_segs s : ∃ pre post, segs s = pre ++ segs (trim_space s) ++ post
  ∧ (∀ r b, head (segs (trim_space s)) = Some (r, b) → is_space r = false)
  ∧ (∀ r b, last (segs (trim_space s)) = Some (r, b) → is_space r = false)
  ∧ (∀ r b, head (segs s) = Some (r, b) → is_space r = false → segs (trim_space s) ≠ [] → head (segs (trim_space s)) = Some (r, b)).
Proof.
  unfold trim_space. rewrite !drop_spaces_segs.
  destruct (drop_segs_split is_space (segs s)) as [pre Hpre]. set (l1 := drop_segs is_space (segs s)) in *.
  destruct (drop_segs_split is_space (reverse l1)) as [post Hpost]. set (l2 := drop_segs is_space (reverse l1)) in *.
  assert (l1 = reverse l2 ++ reverse post) as Hl1 by (rewrite <-(reverse_involutive l1), Hpost; by rewrite reverse_app).
  assert (segs (concat_str (reverse l2).*2) = reverse l2) as Hs by (apply (segs_infix s pre _ (reverse post)); by rewrite <-Hl1).
  exists pre, (reverse post). rewrite Hs. split_and!.
  - by rewrite <-Hl1.
  - intros r b Hh. apply (drop_segs_head is_space (segs s) r b). fold l1. rewrite Hl1. by destruct (reverse l2).
  - intros r b Hl. rewrite last_reverse in Hl. by apply (drop_segs_head is_space (reverse l1) r b).
  - intros r b Hh Hsp Hne. assert (l1 = segs s) as Hl. { unfold l1. destruct (segs s) as [|[r0 b0] l]; [done|]. injection Hh as -> ->. cbn. by rewrite Hsp. }
    rewrite <-Hl, Hl1 in Hh. by destruct (reverse l2).
Qed.

Lemma head_runes (l : list (Z * string)) : head l.*1 = fst <$> head l.
Proof. by destruct l. Qed.

Lemma trim_space_tidy s : tidy (trim_space s).
Proof.
  destruct (trim_space_segs s) as (pre & post & _ & Hh & Hl & _). intros r [H|H]; unfold runes in H.
  - rewrite head_runes in H. destruct (head (segs (trim_space s))) as [[r' b]|] eqn:E; [|done]. injection H as <-. by eapply Hh.
  - rewrite fmap_last in H. destruct (last (segs (trim_space s))) as [[r' b]|] eqn:E; [|done]. injection H as <-. by eapply Hl.
Qed.

Section Agents.
Context {T : SymbolTables}.

(** A title starts with no spinner glyph either. *)
Definition titled (s : string) : Prop := tidy s ∧ ∀ r, head (runes s) = Some r → title_noise r = false.

Lemma cleanTitle_titled s : titled (cleanTitle s).
Proof.
  split; [apply trim_space_tidy|]. intros r H. unfold cleanTitle in H. set (t := trim_left_func title_noise s) in *.
  assert (segs t = drop_segs title_noise (segs s)) as Ht.
  { destruct (drop_segs_split title_noise (segs s)) as [pre Hpre]. by eapply segs_suffix. }
  unfold runes in H. rewrite head_runes in H. destruct (head (segs (trim_space t))) as [[r' b]|] eqn:E; [|done]. injection H as <-. cbn [fst].
  destruct (trim_space_segs t) as (pre & post & _ & _ & _ & Hkeep).
  destruct (head (segs t)) as [[r0 b0]|] eqn:E0.
  - rewrite Ht in E0. apply drop_segs_head in E0 as Hn. unfold title_noise in Hn. rewrite !orb_false_iff in Hn. destruct Hn as [[Hsp ?] ?].
    specialize (Hkeep r0 b0 eq_refl Hsp). rewrite Hkeep in E by (intros En; by rewrite En in E).
    injection E as <- <-. by apply drop_segs_head in E0.
  - destruct (segs t) eqn:Es; [|done]. assert (t = "") as Et by (rewrite <-(segs_concat t), Es; done). by rewrite Et in E.
Qed.

(** The statuses Herdr knows. *)
Definition wire_status (s : Status) : Prop := s ∈ [StatusWorking; StatusIdle; StatusBlocked; StatusDone; StatusUnknown].

Lemma ParseStatus_wire s : wire_status (ParseStatus s).
Proof.
  unfold ParseStatus, wire_status. destruct (existsb _ _) eqn:E; [|set_solver].
  apply existsb_exists in E as (x & Hx & ->%String.eqb_eq). by apply list_elem_of_In.
Qed.

(** What the application may rely on of an agent. *)
Record agent_ok (a : Agent) : Prop := {
  ok_status : wire_status (AStatus a);
  ok_name : tidy (Name a);
  ok_title : titled (Title a);
  ok_labels : tidy (WorkspaceLabel a) ∧ tidy (TabLabel a)
}.

Lemma tidy_empty : tidy "".
Proof. by intros r [?|?]. Qed.

Lemma titled_empty : titled "".
Proof. split; [apply tidy_empty|done]. Qed.

Lemma toDomainAgent_ok a : agent_ok (toDomainAgent a).
Proof.
  split; cbn.
  - apply ParseStatus_wire.
  - destruct (AI_Name a); [apply trim_space_tidy|apply tidy_empty].
  - unfold pickTitle. repeat case_match; apply cleanTitle_titled.
  - split; apply tidy_empty.
Qed.

Lemma event_agent_ok pane ws kind title status : titled title → wire_status status → agent_ok (event_agent pane ws kind title status).
Proof. intros Ht Hs. split; [done|apply tidy_empty|done|]. split; apply tidy_empty. Qed.

Definition event_ok (ev : HerdrEvent) : Prop :=
  from_option agent_ok True (EvAgent ev) ∧ from_option wire_status True (FinalStatus ev) ∧ EvKind ev ≠ StreamReset.

Lemma translate_kind_ok kind f d ev : translate_kind kind = Some f → f d = Some ev → event_ok ev.
Proof.
  unfold translate_kind.
  repeat (destruct (String.eqb kind _); [intros [= <-]|]); [..|done];
    unfold translate_detected, translate_status, translate_pane, translate_updated, translate_tab, translate_workspace;
    intros Hev; repeat (apply bind_Some in Hev as (? & _ & Hev)); injection Hev as <-; split_and!; try done; cbn [EvAgent FinalStatus].
  - match goal with |- context [_ <$> ?o] => destruct o end; [|done]. apply event_agent_ok; [apply titled_empty|cbn; set_solver].
  - match goal with |- context [_ <$> ?o] => destruct o end; [|done]. apply ParseStatus_wire.
  - apply event_agent_ok; [apply cleanTitle_titled|apply ParseStatus_wire].
  - apply toDomainAgent_ok.
Qed.

Lemma tidy_label (l : list (string * string)) (m : gmap string string) k :
  (∀ k, tidy (default "" (m !! k))) → tidy (default "" (foldl (λ m kv, <[kv.1 := trim_space kv.2]> m) m l !! k)).
Proof.
  revert m. induction l as [|[k' v] l IH]; intros m Hm; [apply Hm|]. cbn [foldl fst snd]. apply IH. intros k0.
  destruct (decide (k' = k0)) as [->|Hne]; [rewrite lookup_insert_eq; apply trim_space_tidy|by rewrite lookup_insert_ne].
Qed.

Lemma foldl_labels {A} (id label : A → string) l (m : gmap string string) :
  foldl (λ m x, <[id x := trim_space (label x)]> m) m l
  = foldl (λ m kv, <[kv.1 := trim_space kv.2]> m) m (map (λ x, (id x, label x)) l).
Proof. revert m. induction l as [|x l IH]; intros m; [done|]. exact (IH _). Qed.

Lemma labelled_ok wss tabs a : agent_ok (labelled wss tabs a).
Proof.
  destruct (toDomainAgent_ok a) as [H1 H2 H3 _]. unfold labelled. split; try done. unfold ws_labels, tab_labels.
  rewrite (foldl_labels WI_WorkspaceID WI_Label), (foldl_labels TI_TabID TI_Label). split; apply tidy_label; intros k; rewrite lookup_empty; apply tidy_empty.
Qed.

(** C21: every agent the adapter delivers, in a listing, from a start or with
    an event of the stream, has one of the five statuses Herdr knows, and a
    name, labels and a title without white space around them, the title
    without a spinner glyph before it; a final status is one of the five too,
    and no event line reads as a stream reset. *)
Theorem delivered_agents_ok path backoff error_text name kind pane timeout line :
  returns (λ r, match r with Ok l => Forall agent_ok l | Err _ => True end) (ListAgents path backoff error_text)
  ∧ returns (λ r, match r with Ok a => agent_ok a | Err _ => True end) (StartAgent path backoff error_text name kind pane timeout)
  ∧ match translateEvent line with Some ev => event_ok ev | None => True end.
Proof.
  split_and!.
  - unfold ListAgents. apply returns_then. intros [[|a l]|e]; [by apply returns_ret| |by apply returns_ret].
    apply returns_then. intros [wss|e]; [|by apply returns_ret]. apply returns_then. intros [tabs|e]; [|by apply returns_ret].
    apply returns_ret. apply Forall_fmap, Forall_true. intros x. apply labelled_ok.
  - unfold StartAgent. apply returns_then. intros [a|e]; apply returns_ret; [apply toDomainAgent_ok|done].
  - destruct (translateEvent line) as [ev|] eqn:Hev; [|done]. unfold translateEvent in Hev.
    apply bind_Some in Hev as (env & _ & (event & _ & Hev)%bind_Some). destruct (String.eqb event ""); [done|].
    apply bind_Some in Hev as (f & Hf & (d & _ & Hd)%bind_Some). by eapply translate_kind_ok.
Qed.
End Agents.
(** ** A sample request *)

(** A socket that refuses the first dial and answers the second request after
    a line of noise. *)
Definition flaky_socket : oracle (E := herdrE) := λ B o h,
  match o in herdrE B return B with
  | HSeq => Z.of_nat (S (dials h))
  | HDial => if Nat.eqb (dials h) 0 then Some (Opaque "connection refused") else None
  | HWrite _ => None
  | HReceive => (["noise"; default "" (Marshal (JObj [("id", JStr "r2"); ("result", JObj [])]))], Foreign EOF)
  | HClose => tt
  | HCtxErr => None
  | HRand => S754_zero false
  | HSleep _ => true
  | HStartStream => tt
  | HStopStream => tt
  end.

Lemma flaky_socket_legal h B (o : herdrE B) : herdr_legal h B o (flaky_socket B o h).
Proof. by destruct o. Qed.

Lemma herdr_call_once_witness :
  let p := gcall "/tmp/herdr.sock" DefaultBackoff (λ _, "?") "agent.prompt" (promptParams "p1" "hi") (λ _, Some tt) in
  let run := interp flaky_socket p (mkWorld (mkGateway false) []) in
  run.1 = Ok tt ∧ length (sent (trace run.2)) = 1%nat ∧ (dials (trace run.2) ≤ 2)%nat.
Proof.
  intros p run. split; [by vm_compute|]. split; [by vm_compute|].
  pose proof (herdr_call_once "/tmp/herdr.sock" DefaultBackoff (λ _, "?") "agent.prompt" (promptParams "p1" "hi") (λ _, Some tt)
    (mkWorld (mkGateway false) []) run.1 run.2 (interp_exec herdr_legal flaky_socket _ _ flaky_socket_legal)) as [H _]. exact H.
Defined.
