(* ===== verification/HerdrStream.v ===== *)
(** internal/adapters/herdr/stream.go: the subscription that delivers Herdr's
    events, its swap when the watched panes change and its reconnects.

    One goroutine runs [Run]; a select is a question [SSelect], and the lines
    of a connection that is being drained are one question [SDrain], with
    whether the context ended before the connection did.  [Run] is cut after a
    number of turns of the select per connection, so every run of the code has
    runs of the model for its beginnings.  [SetPanes], which other goroutines
    call, is a function on the state under the mutex. *)
From S2P Require Import Prelude GoStrings Errors Status GoTime Events Redact Eff Json JsonText HerdrWire TurnMeta AppPorts Herdr.

Local Open Scope Z_scope.

Definition globalKinds : list string :=
  ["pane.agent_detected"; "pane.closed"; "pane.exited"; "pane.updated"; "tab.renamed"; "workspace.renamed"].
Definition subscribeTimeout : Duration := 5 * Second.
Definition drainGrace : Duration := 100 * Millisecond.
Definition stableAfter : Duration := 5 * Second.

(** ** The watched panes *)

Record watch := mkWatch { Panes : list string; Changed : bool }.

(** [slices.Sort] and [slices.Compact]. *)
Fixpoint insert_sorted (x : string) (l : list string) : list string :=
  match l with
  | [] => [x]
  | y :: l' => if str_le x y then x :: l else y :: insert_sorted x l'
  end.
Definition sort_strings (l : list string) : list string := foldr insert_sorted [] l.
Fixpoint compact_strings (l : list string) : list string :=
  match l with
  | x :: (y :: _) as l' => if String.eqb x y then compact_strings l' else x :: compact_strings l'
  | _ => l
  end.

Definition SetPanes (ids : list string) (w : watch) : watch :=
  let next := compact_strings (sort_strings ids) in
  if bool_decide (next = Panes w) then w else mkWatch next true.

(** ** The connection *)

Inductive selected := SelDone | SelChanged | SelLine (line : string) | SelErr (e : error).

Inductive streamE : Type → Type :=
  | SPanes : streamE (list string)                   (* currentPanes *)
  | SDial : streamE (result Z)
  | SDeadline (c : Z) (d : option Duration) : streamE unit
  | SWrite (c : Z) (line : string) : streamE (option error)
  | SReadLine (c : Z) : streamE (result string)
  | SClose (c : Z) : streamE unit
  | SSelect (c : Z) : streamE selected
  | SDrain (c : Z) : streamE (list string * bool)
  | SSignalLater (d : Duration) : streamE unit       (* the goroutine that signals the change again *)
  | SEmit (ev : HerdrEvent) : streamE bool
  | SCtxErr : streamE (option error)
  | SSleep (d : Duration) : streamE bool
  | SNow : streamE Time
  | SRand : streamE spec_float.

Local Notation prog := (prog streamE unit).
Local Open Scope eff_scope.

Section Stream.
Context {T : SymbolTables} (path : string) (backoff : Backoff).

Definition subscriptions (panes : list string) : list json :=
  map (λ k, subscription k "") globalKinds ++ map (subscription "pane.agent_status_changed") panes.

(** What the reply to events.subscribe says: nil if the subscription started. *)
Definition subscribe_reply (raw : string) : option error :=
  match Unmarshal raw ≫= decode_response with
  | None => Some (Errorf "decode subscribe reply: %w" [] [Opaque "json"])
  | Some resp =>
    match RespError resp with
    | Some e => Some (HerdrError (WE_Code e) (WE_Message e))
    | None =>
      match raw_fields (RespResult resp) ≫= λ fs, as_string (struct_field "type" fs) with
      | Some "subscription_started" => None
      | _ => Some (Errorf "unexpected subscribe reply %s" [trim_space raw] [])
      end
    end
  end.

Definition refuse {A} (c : Z) (e : error) : prog (result A) := do _ ← call (SClose c); Ret (Err e).

Definition subscribe (panes : list string) : prog (result Z) :=
  do r ← call SDial;
  match r with
  | Err e => Ret (Err (Errorf "dial %s: %w" [path] [e]))
  | Ok c =>
    match Marshal (request "sub" "events.subscribe" (subscribeParams (subscriptions panes))) with
    | None => refuse c (Errorf "encode subscribe: %w" [] [Opaque "json"])
    | Some line =>
      do _ ← call (SDeadline c (Some subscribeTimeout));
      do e ← call (SWrite c (line +:+ nl));
      match e with
      | Some e => refuse c (Errorf "write subscribe: %w" [] [e])
      | None =>
        do raw ← call (SReadLine c);
        match raw with
        | Err e => refuse c (Errorf "await subscription_started: %w" [] [e])
        | Ok raw =>
          match subscribe_reply raw with
          | Some e => refuse c e
          | None => do _ ← call (SDeadline c None); Ret (Ok c)
          end
        end
      end
    end
  end.

Definition stream_delay (attempt : nat) : prog Duration :=
  if positive (BJitter backoff) then do u ← call SRand; Ret (Next backoff attempt u)
  else Ret (next_base backoff attempt).

(** Forwards what the lines mean; false when the consumer is gone. *)
Fixpoint forward (lines : list string) : prog bool :=
  match lines with
  | [] => Ret true
  | line :: lines =>
    match translateEvent line with
    | None => forward lines
    | Some ev => do ok ← call (SEmit ev); if ok : bool then forward lines else Ret false
    end
  end.

Definition drainOld (old : Z) : prog (option error) :=
  do _ ← call (SDeadline old (Some drainGrace));
  do got ← call (SDrain old);
  do ok ← forward got.1;
  do e ← (if ok && negb got.2 then nil_ else call SCtxErr);
  do _ ← call (SClose old);
  Ret e.

(** [serve] after some turns: still serving a connection, or done with it. *)
Inductive served := Serving | Served (e : option error).

Definition leave (c : Z) (e : option error) : prog served := do _ ← call (SClose c); Ret (Served e).
Definition leave_ctx (c : Z) : prog served := do e ← call SCtxErr; leave c e.

Fixpoint serve (turns : nat) (c : Z) : prog served :=
  match turns with
  | O => Ret Serving
  | S n =>
    do s ← call (SSelect c);
    match s with
    | SelDone => leave_ctx c
    | SelChanged =>
      do panes ← call SPanes;
      do next ← subscribe panes;
      match next with
      | Err _ =>
        do e ← call SCtxErr;
        match e with
        | Some e => leave c (Some e)
        | None => do delay ← stream_delay 0; do _ ← call (SSignalLater delay); serve n c
        end
      | Ok next =>
        do e ← drainOld c;
        match e with Some e => leave next (Some e) | None => serve n next end
      end
    | SelErr e => leave c (Some e)
    | SelLine line =>
      do ok ← forward [line];
      if ok : bool then serve n c else leave_ctx c
    end
  end.

Definition stream_reset : HerdrEvent := herdr_event StreamReset.

(** A pause before the next attempt; the run goes on with [k]. *)
Definition pause (attempt : nat) (k : prog (option (option error))) : prog (option (option error)) :=
  do delay ← stream_delay attempt;
  do slept ← call (SSleep delay);
  if slept : bool then k else do e ← call SCtxErr; Ret (Some e).

(** [Run] with the number of turns each connection is watched for: [None] is
    a run that goes on. *)
Fixpoint Run (turns : list nat) (attempt : nat) : prog (option (option error)) :=
  match turns with
  | [] => Ret None
  | n :: turns =>
    do panes ← call SPanes;
    do r ← subscribe panes;
    match r with
    | Err _ =>
      do e ← call SCtxErr;
      match e with
      | Some e => Ret (Some (Some e))
      | None => pause attempt (Run turns (S attempt))
      end
    | Ok c =>
      do connectedAt ← call SNow;
      do s ← serve n c;
      match s with
      | Serving => Ret None
      | Served _ =>
        do e ← call SCtxErr;
        match e with
        | Some e => Ret (Some (Some e))
        | None =>
          do now ← call SNow;
          let attempt := if stableAfter <=? time_sub now connectedAt then 0%nat else attempt in
          do delay ← stream_delay attempt;
          do ok ← call (SEmit stream_reset);
          if ok : bool then
            do slept ← call (SSleep delay);
            if slept : bool then Run turns (S attempt) else do e ← call SCtxErr; Ret (Some e)
          else do e ← call SCtxErr; Ret (Some e)
        end
      end
    end
  end.
End Stream.

(** * The Herdr stream delivers what its connections yield, in order, says so of
    every gap, and leaves no connection open. *)
Section Props.
Context {T : SymbolTables} (path : string) (backoff : Backoff).
Local Notation world := (world streamE unit).

(** ** What a run has to deliver and what it delivered *)

(** The events owed for an answer: those of the lines read, and a reset for a
    connection that failed. *)
Definition owed {B} (o : streamE B) : B → list HerdrEvent :=
  match o in streamE B return B → list HerdrEvent with
  | SSelect _ => λ s, match s with
                      | SelLine line => option_list (translateEvent line)
                      | SelErr _ => [stream_reset]
                      | _ => []
                      end
  | SDrain _ => λ got, omap translateEvent got.1
  | _ => λ _, []
  end.
Definition delivered {B} (o : streamE B) : B → list HerdrEvent :=
  match o in streamE B return B → list HerdrEvent with
  | SEmit ev => λ ok, if ok then [ev] else []
  | _ => λ _, []
  end.

Fixpoint due (h : list (event streamE)) : list HerdrEvent :=
  match h with Ev o b :: h => due h ++ owed o b | [] => [] end.
Fixpoint emitted (h : list (event streamE)) : list HerdrEvent :=
  match h with Ev o b :: h => emitted h ++ delivered o b | [] => [] end.

(** Connections opened less connections closed. *)
Definition opening {B} (o : streamE B) : B → Z :=
  match o in streamE B return B → Z with
  | SDial => λ r, match r with Ok _ => 1 | Err _ => 0 end
  | SClose _ => λ _, -1
  | _ => λ _, 0
  end.
Fixpoint open (h : list (event streamE)) : Z :=
  match h with Ev o b :: h => open h + opening o b | [] => 0 end.

(** An answer that shows the context has ended. *)
Definition ended_by {B} (o : streamE B) : B → bool :=
  match o in streamE B return B → bool with
  | SSelect _ => λ s, match s with SelDone => true | _ => false end
  | SDrain _ => λ got, got.2
  | SEmit _ => negb
  | SSleep _ => negb
  | SCtxErr => λ e, match e with Some _ => true | None => false end
  | _ => λ _, false
  end.
Fixpoint ended (h : list (event streamE)) : bool :=
  match h with Ev o b :: h => ended_by o b || ended h | [] => false end.

(** A context that has ended stays so. *)
Definition stream_legal (h : list (event streamE)) (B : Type) (o : streamE B) (b : B) : Prop :=
  match o in streamE B return B → Prop with
  | SCtxErr => λ e, ended h = true → e ≠ None
  | _ => λ _, True
  end b.
Local Notation wp := (wp stream_legal).

(** Nothing is owed; or the run is over and what is owed was cut off. *)
Definition level (w : world) : Prop := emitted (trace w) = due (trace w).
Definition behind (w : world) : Prop := emitted (trace w) `prefix_of` due (trace w).

Lemma level_behind w : level w → behind w.
Proof. unfold level, behind. by intros ->. Qed.

Lemma wp_subscribe panes w (Q : result Z → world → Prop) :
  (∀ r w', emitted (trace w') = emitted (trace w) → due (trace w') = due (trace w) →
     open (trace w') = open (trace w) + (if is_ok r then 1 else 0) → Q r w') →
  wp (subscribe path panes) w Q.
Proof.
  intros HQ. apply wp_ask. intros [c|e] _; [|apply HQ; cbn; rewrite ?app_nil_r; done || lia].
  assert (∀ e w', emitted (trace w') = emitted (trace w) → due (trace w') = due (trace w) → open (trace w') = open (trace w) + 1 →
    wp (refuse c e) w' Q) as Hrefuse.
  { intros e w' H1 H2 H3. apply wp_ask. intros [] _. cbn. apply HQ; cbn; rewrite ?app_nil_r, ?H1, ?H2, ?H3; done || lia. }
  destruct (Marshal _) as [line|]; [|apply Hrefuse; cbn; rewrite ?app_nil_r; done || lia].
  apply wp_ask. intros [] _. apply wp_ask. intros [e|] _; [apply Hrefuse; cbn; rewrite ?app_nil_r; done || lia|].
  apply wp_ask. intros [raw|e] _; [|apply Hrefuse; cbn; rewrite ?app_nil_r; done || lia].
  destruct (subscribe_reply raw) as [e|]; [apply Hrefuse; cbn; rewrite ?app_nil_r; done || lia|].
  apply wp_ask. intros [] _. cbn. apply HQ; cbn; rewrite ?app_nil_r; done || lia.
Qed.

Lemma wp_forward lines w (Q : bool → world → Prop) :
  (∀ w', emitted (trace w') = emitted (trace w) ++ omap translateEvent lines → due (trace w') = due (trace w) →
     open (trace w') = open (trace w) → (ended (trace w) = true → ended (trace w') = true) → Q true w') →
  (∀ w', (emitted (trace w') `prefix_of` emitted (trace w) ++ omap translateEvent lines) → due (trace w') = due (trace w) →
     open (trace w') = open (trace w) → ended (trace w') = true → Q false w') →
  wp (forward lines) w Q.
Proof.
  revert w. induction lines as [|line lines IH]; intros w Ht Hf; cbn [forward].
  - apply Ht; cbn; rewrite ?app_nil_r; done.
  - destruct (translateEvent line) as [ev|] eqn:Hev.
    2: { apply IH; cbn [omap list_omap] in *; rewrite Hev in *; assumption. }
    cbn [omap list_omap] in Ht, Hf. rewrite Hev in Ht, Hf. apply wp_ask. intros [] _.
    + apply IH; intros w'; cbn [trace told emitted delivered due owed open opening ended ended_by orb negb]; rewrite <-app_assoc, ?app_nil_r, ?Z.add_0_r; eauto.
    + cbn. apply Hf; cbn; rewrite ?app_nil_r, ?Z.add_0_r; try done. by apply prefix_app_r.
Qed.

(** What [drainOld] and [serve] leave behind: everything delivered, or a run
    that is over because the context ended. *)
Definition over (w : world) : Prop := behind w ∧ ended (trace w) = true.

Lemma wp_drainOld old w (Q : option error → world → Prop) : level w →
  (∀ w', level w' → open (trace w') = open (trace w) - 1 → Q None w') →
  (∀ e w', over w' → open (trace w') = open (trace w) - 1 → Q (Some e) w') →
  wp (drainOld old) w Q.
Proof.
  intros Hw Hn Hs. apply wp_ask. intros [] _. apply wp_ask. intros [lines cut] _. apply wp_bind. cbn [fst snd].
  assert (∀ w', over w' → open (trace w') = open (trace w) →
    wp (bind (call SCtxErr) (λ e, bind (call (SClose old)) (λ _, Ret e))) w' Q) as Hctx.
  { intros w' [Hb He] Ho. apply wp_ask. intros [e|] Hl; [|cbn in Hl; by destruct (Hl He)].
    apply wp_ask. intros [] _. apply Hs; [|cbn; lia]. unfold over, behind. cbn. rewrite !app_nil_r. split; [exact Hb|].
    by rewrite ?orb_true_r. }
  apply wp_forward.
  - intros w' He Hd Ho Hend. cbn in He, Hd, Ho, Hend. rewrite !app_nil_r in He. rewrite app_nil_r in Hd.
    assert (level w') as Hl by (unfold level; by rewrite He, Hd, Hw). destruct cut; cbn [andb negb].
    + apply Hctx; [|lia]. split; [by apply level_behind|by apply Hend].
    + apply wp_bind. cbn. intros [] _. apply Hn; [|cbn; lia]. unfold level. cbn. by rewrite !app_nil_r.
  - intros w' He Hd Ho Hend. cbn in He, Hd, Ho. rewrite !app_nil_r in He. rewrite app_nil_r in Hd. cbn [andb].
    apply Hctx; [|lia]. split; [|done]. unfold behind. by rewrite Hd, <-Hw.
Qed.

Lemma wp_leave c e w (Q : served → world → Prop) :
  (∀ w', emitted (trace w') = emitted (trace w) → due (trace w') = due (trace w) → open (trace w') = open (trace w) - 1 →
     ended (trace w') = ended (trace w) → Q (Served e) w') →
  wp (leave c e) w Q.
Proof. intros HQ. apply wp_ask. intros [] _. cbn. apply HQ; cbn; rewrite ?app_nil_r; done || lia. Qed.

(** A connection that failed: one reset is owed. *)
Definition gap (w : world) : Prop := due (trace w) = emitted (trace w) ++ [stream_reset].

Lemma wp_leave_ctx c w (Q : served → world → Prop) : over w →
  (∀ e w', over w' → open (trace w') = open (trace w) - 1 → Q (Served e) w') →
  wp (leave_ctx c) w Q.
Proof.
  intros [Hb He] HQ. apply wp_ask. intros e _. apply wp_leave. cbn. intros w' H1 H2 H3 H4. apply HQ; [|lia].
  unfold over, behind. rewrite H1, H2, H4, !app_nil_r. split; [exact Hb|]. by rewrite He, orb_true_r.
Qed.

Lemma wp_stream_delay attempt w (Q : Duration → world → Prop) :
  (∀ d w', emitted (trace w') = emitted (trace w) → due (trace w') = due (trace w) → open (trace w') = open (trace w) →
     ended (trace w') = ended (trace w) → Q d w') →
  wp (stream_delay backoff attempt) w Q.
Proof.
  intros HQ. unfold stream_delay. destruct (positive _); [|by apply HQ].
  apply wp_ask. intros u _. cbn. apply HQ; cbn; rewrite ?app_nil_r; done || lia.
Qed.

Lemma wp_serve n c w (Q : served → world → Prop) : level w →
  (∀ w', level w' → open (trace w') = open (trace w) → Q Serving w') →
  (∀ e w', gap w' ∨ over w' → open (trace w') = open (trace w) - 1 → Q (Served e) w') →
  wp (serve path backoff n c) w Q.
Proof.
  revert c w. induction n as [|n IH]; intros c w Hw Hgo Hend; cbn [serve]; [by apply Hgo|].
  apply wp_ask. intros [| |line|e] _.
  - apply wp_leave_ctx; [split; [apply level_behind; unfold level; cbn; rewrite !app_nil_r; exact Hw|done]|].
    intros e w' Ho Hopen. cbn in Hopen. apply Hend; [by right|lia].
  - apply wp_ask. intros panes _. apply wp_bind, wp_subscribe. intros [next|e] w' He Hd Ho;
      cbn in He, Hd, Ho; rewrite !app_nil_r in He, Hd.
    + assert (level w') as Hw' by (unfold level; by rewrite He, Hd). apply wp_bind, wp_drainOld; [done|..].
      * intros w2 Hl Ho2. apply IH; [done|intros; apply Hgo; [done|lia]|intros; apply Hend; [done|lia]].
      * intros e w2 [Hb Hen] Ho2. apply wp_leave. intros w3 H1 H2 H3 H4. apply Hend; [|lia]. right. unfold over, behind. by rewrite H1, H2, H4.
    + apply wp_ask. intros [e'|] Hl.
      * apply wp_leave. cbn. intros w2 H1 H2 H3 H4. apply Hend; [|lia]. right. unfold over, behind. rewrite H1, H2, H4, !app_nil_r, He, Hd.
        split; [by rewrite Hw|done].
      * apply wp_bind, wp_stream_delay. intros d w2 H1 H2 H3 H4. cbn in H1, H2, H3. apply wp_ask. intros [] _. apply IH.
        -- unfold level. cbn. rewrite !app_nil_r, H1, H2, !app_nil_r, He, Hd. exact Hw.
        -- cbn. intros w3 Hl3 Ho3. apply Hgo; [done|lia].
        -- cbn. intros e3 w3 Hl3 Ho3. apply Hend; [done|lia].
  - apply wp_bind, wp_forward; cbn [trace told omap list_omap due owed emitted delivered open opening].
    + intros w' He Hd Ho _. apply IH; [|intros; apply Hgo; [done|lia]|intros; apply Hend; [done|lia]].
      unfold level. rewrite He, Hd, app_nil_r, Hw. by destruct (translateEvent line).
    + intros w' He Hd Ho Hen. apply wp_leave_ctx; [|intros; apply Hend; [by right|lia]]. split; [|done].
      unfold behind. rewrite Hd, <-Hw. rewrite app_nil_r in He. by destruct (translateEvent line).
  - apply wp_leave. cbn. intros w' H1 H2 H3 H4. apply Hend; [|lia]. left. unfold gap. rewrite H1, H2, app_nil_r. by rewrite Hw.
Qed.

(** A run that goes on is level with at most one connection open; one that is
    over has none. *)
Definition told_all (o : Z) (r : option (option error)) (w : world) : Prop :=
  match r with
  | None => level w ∧ open (trace w) ≤ o + 1
  | Some _ => behind w ∧ open (trace w) = o
  end.

Lemma wp_exit w o : behind w → open (trace w) = o →
  wp (bind (call SCtxErr) (λ e, Ret (Some e))) w (told_all o).
Proof. intros Hb Ho. apply wp_ask. intros e _. cbn. unfold told_all, behind. cbn. rewrite !app_nil_r. split; [exact Hb|lia]. Qed.

Lemma wp_sleep d k w o : level w → open (trace w) = o →
  (∀ w', level w' → open (trace w') = o → wp k w' (told_all o)) →
  wp (bind (call (SSleep d)) (λ slept, if slept : bool then k else bind (call SCtxErr) (λ e, Ret (Some e)))) w (told_all o).
Proof.
  intros Hw Ho Hk. assert (∀ b, level (told (SSleep d) b w)) as Hl by (intros b; unfold level; cbn; by rewrite !app_nil_r).
  apply wp_ask. intros [] _; [apply Hk; [apply Hl|cbn; lia]|apply wp_exit; [apply level_behind, Hl|cbn; lia]].
Qed.

Lemma wp_stream_Run turns attempt w : level w → wp (Run path backoff turns attempt) w (told_all (open (trace w))).
Proof.
  revert attempt w. induction turns as [|n turns IH]; intros attempt w Hw; cbn [Run]; [split; [done|lia]|].
  assert (∀ o att w', level w' → open (trace w') = o → wp (Run path backoff turns att) w' (told_all o)) as IH'.
  { intros o att w' Hl <-. by apply IH. }
  apply wp_ask. intros panes _. apply wp_bind, wp_subscribe. intros [c|e] w1 He Hd Ho; cbn in He, Hd, Ho; rewrite !app_nil_r in He, Hd.
  - assert (level w1) as Hw1 by (unfold level; by rewrite He, Hd). apply wp_ask. intros at_ _. apply wp_bind, wp_serve.
    + unfold level. cbn. rewrite !app_nil_r. exact Hw1.
    + cbn. intros w2 Hl2 Ho2. split; [done|lia].
    + intros e w2 Hend Ho2. cbn in Ho2. cbv beta iota. apply wp_ask. intros [e'|] Hl.
      * cbn. split; [|cbn; lia]. unfold behind. cbn. rewrite !app_nil_r. destruct Hend as [Hg|[Hb _]]; [|done]. rewrite Hg. by apply prefix_app_r.
      * destruct Hend as [Hg|[_ Hen]]; [|cbn in Hl; by destruct (Hl Hen)].
        apply wp_ask. intros now _. cbv zeta. apply wp_bind, wp_stream_delay. intros d w3 H1 H2 H3 H4. cbn in H1, H2, H3. rewrite !app_nil_r in H1, H2.
        apply wp_ask. intros [] _.
        -- apply wp_sleep; [|cbn; lia|intros w4 Hl4 Ho4; by apply IH'].
           unfold level. cbn. by rewrite app_nil_r, H1, H2, Hg.
        -- apply wp_exit; [|cbn; lia]. unfold behind. cbn. rewrite !app_nil_r, H1, H2, Hg. by apply prefix_app_r.
  - assert (level w1) as Hw1 by (unfold level; by rewrite He, Hd). apply wp_ask. intros [e'|] Hl.
    + cbn. split; [|cbn; lia]. apply level_behind. unfold level. cbn. rewrite !app_nil_r. exact Hw1.
    + apply wp_bind, wp_stream_delay. intros d w2 H1 H2 H3 H4. cbn in H1, H2, H3.
      apply wp_sleep; [|lia|intros w4 Hl4 Ho4; by apply IH'].
      unfold level. rewrite H1, H2, !app_nil_r. exact Hw1.
Qed.

(** C8: the stream delivers what the lines of its connections mean: each line
    read from a connection is forwarded once, in the order the lines are read,
    across every swap of the connection, and one reset for every connection
    that fails. An event that Herdr pushes while both connections of a swap are
    live is a line of each, and is delivered twice. A run that goes on has
    delivered all of it, one that the end of the context stopped a beginning,
    and when it returns every connection it opened is closed. *)
Theorem stream_in_order turns r w :
  exec stream_legal (Run path backoff turns 0) (mkWorld tt []) r w →
  (emitted (trace w) `prefix_of` due (trace w))
  ∧ (r = None → emitted (trace w) = due (trace w) ∧ open (trace w) ≤ 1)
  ∧ (r ≠ None → open (trace w) = 0).
Proof.
  intros He. pose proof (wp_exec He (wp_stream_Run turns 0 (mkWorld tt []) eq_refl)) as H. destruct r as [e|]; cbn in H.
  - destruct H as [Hb Ho]. by split_and!.
  - destruct H as [Hl Ho]. split_and!; [by apply level_behind|done|done].
Qed.
End Props.

(** ** The watched panes *)

Lemma insert_sorted_elem x y l : y ∈ insert_sorted x l ↔ y = x ∨ y ∈ l.
Proof. induction l as [|z l IH]; cbn; [set_solver|]. destruct (str_le x z); set_solver. Qed.

Lemma sort_strings_elem y l : y ∈ sort_strings l ↔ y ∈ l.
Proof. induction l as [|x l IH]; cbn; [done|]. rewrite insert_sorted_elem. set_solver. Qed.

Lemma compact_strings_elem y l : y ∈ compact_strings l ↔ y ∈ l.
Proof.
  induction l as [|x [|z l] IH]; [done|done|]. cbn [compact_strings]. destruct (String.eqb_spec x z) as [->|]; set_solver.
Qed.

(** Every pane asked for is watched, and no other; the loop hears of a change
    unless the set is the one in force. *)
Lemma SetPanes_watches ids w y : y ∈ Panes (SetPanes ids w) ↔ y ∈ ids.
Proof.
  unfold SetPanes. case_bool_decide as E; cbn [Panes]; [rewrite <-E|]; by rewrite compact_strings_elem, sort_strings_elem.
Qed.

Lemma SetPanes_signals ids w : Panes (SetPanes ids w) ≠ Panes w → Changed (SetPanes ids w) = true.
Proof. unfold SetPanes. by case_bool_decide. Qed.

(** ** A sample run *)

(** A subscription that yields an event, is swapped for one with more panes
    while a second event is under way, and fails; the next dial finds the
    context ended. *)
Definition count_dials (h : list (event streamE)) : nat :=
  length (List.filter (λ ev, match ev with Ev SDial _ => true | _ => false end) h).
Definition closed_line (pane : string) : string :=
  default "" (Marshal (JObj [str_field "event" "pane.closed"; ("data", JObj [str_field "pane_id" pane])])).
Definition sample_script : list selected := [SelLine (closed_line "p1"); SelChanged; SelLine "noise"; SelErr (Foreign EOF)].
Definition count_selects (h : list (event streamE)) : nat :=
  length (List.filter (λ ev, match ev with Ev (SSelect _) _ => true | _ => false end) h).

Definition sample_stream : oracle (E := streamE) := λ B o h,
  match o in streamE B return B with
  | SPanes => ["p1"]
  | SDial => if Nat.ltb (count_dials h) 2 then Ok (Z.of_nat (count_dials h)) else Err (Opaque "gone")
  | SDeadline _ _ => tt
  | SWrite _ _ => None
  | SReadLine _ => Ok (default "" (Marshal (JObj [str_field "id" "sub"; ("result", JObj [str_field "type" "subscription_started"])])))
  | SClose _ => tt
  | SSelect _ => nth (count_selects h) sample_script SelDone
  | SDrain _ => ([closed_line "p2"], false)
  | SSignalLater _ => tt
  | SEmit _ => true
  | SCtxErr => if ended h || Nat.leb 3 (count_dials h) then Some (Foreign CtxCanceled) else None
  | SSleep _ => true
  | SNow => 0
  | SRand => S754_zero false
  end.

Lemma sample_stream_legal h B (o : streamE B) : stream_legal h B o (sample_stream B o h).
Proof. destruct o; try done. cbn. intros ->. done. Qed.

Lemma stream_in_order_witness :
  let run := interp sample_stream (@Run glyph_tables "/tmp/herdr.sock" DefaultBackoff [10; 10]%nat 0) (mkWorld tt []) in
  run.1 = Some (Some (Foreign CtxCanceled))
  ∧ map EvKind (emitted (trace run.2)) = [PaneClosed; PaneClosed; StreamReset] ∧ open (trace run.2) = 0.
Proof.
  intros run. assert (run.1 = Some (Some (Foreign CtxCanceled))) as Hr by (by vm_compute).
  split; [exact Hr|]. split; [by vm_compute|].
  apply (stream_in_order (T := glyph_tables) "/tmp/herdr.sock" DefaultBackoff [10; 10]%nat run.1 run.2).
  - exact (interp_exec stream_legal sample_stream _ _ sample_stream_legal).
  - by rewrite Hr.
Defined.
