(* ===== verification/System.v ===== *)
(** internal/adapters/system: the control channel of the daemon, processes and
    their signals on Unix, the git runner, the environment, the opener of links
    and the idle time of the machine.

    The bytes a peer of the control channel sends before it stops are a string;
    what the operating system answers is asked for. *)
From S2P Require Import Prelude GoStrings Errors Status Paths Regexp Eff AppPorts Herdr.

Local Open Scope Z_scope.

(** ** The control channel *)

Definition ControlFileName : string := "control.sock".
Definition controlTimeout : Duration := 2 * Second.
Definition controlMaxLine : Z := 256.
Definition ControlStop : string := "stop".
Definition ControlResync : string := "resync".
Definition ControlStatus : string := "status".

(** The handlers that are set, and the line [Status] returns now. *)
Record ControlHandlers := mkControl { HStop : bool; HResync : bool; HStatus : option string }.
Inductive control_call := CallStop | CallResync.

(** A line of at most [controlMaxLine] bytes, and whether it lacks its end. *)
Definition read_line (data : string) : string * bool :=
  let data := str_take controlMaxLine data in
  match str_cut data nl with
  | Some (line, _) => (line +:+ nl, false)
  | None => (data, true)
  end.

(** The calls made and the reply written, if there is one. *)
Definition serveControlConn {U : UnicodeTables} (h : ControlHandlers) (data : string) : list control_call * option string :=
  let '(line, err) := read_line data in
  let cmd := to_lower (trim_space line) in
  if err && String.eqb cmd "" then ([], None)
  else
    let '(calls, reply) :=
      if String.eqb cmd ControlStop then (if HStop h then [CallStop] else [], "ok")
      else if String.eqb cmd ControlResync then (if HResync h then [CallResync] else [], "ok")
      else if String.eqb cmd ControlStatus
           then ([], match HStatus h with Some s => "ok " +:+ replace_all s nl " " | None => "ok" end)
      else ([], "error: unknown command " +:+ cmd) in
    (calls, Some (reply +:+ nl)).

(** What the client makes of the bytes the daemon sent; [e] is the error its
    read ended with, if no line did. *)
Definition control_reply (cmd data : string) (e : error) : result string :=
  let '(line, err) := read_line data in
  let line := trim_space line in
  if String.eqb line "" then Err (Errorf "control %s: read: %w" [cmd] [if err then e else Foreign ErrUnexpectedEOF])
  else match cut_prefix line "ok" with
       | Some rest => Ok (trim_space rest)
       | None => Err (Errorf "control %s: %s" [cmd; line] [])
       end.

(** ** Processes *)

Inductive sysE : Type → Type :=
  | YDial : sysE (option error)
  | YListen (path : string) : sysE (option error)
  | YStat (path : string) : sysE (option error)
  | YRemove (path : string) : sysE (option error)
  | YChmod (path : string) (mode : Z) : sysE unit
  | YWrite (line : string) : sysE (option error)
  | YRead : sysE (string * error)                       (* the bytes, and the error at their end *)
  | YKill (pid signal : Z) : sysE (option error)
  | YExecutable : sysE (result string)
  | YMkdirAll (dir : string) (mode : Z) : sysE (option error)
  | YOpenTrunc (path : string) (mode : Z) : sysE (option error)
  | YStart (exe : string) (args : list string) : sysE (result Z).

Definition SIGHUP : Z := 1.
Definition SIGKILL : Z := 9.
Definition SIGTERM : Z := 15.
Definition ErrLogFileName : string := "daemon.err.log".

Local Open Scope eff_scope.

Section Process.
Context (stateDir exe : string).
Local Notation prog := (prog sysE unit).
Definition sys {B} (o : sysE B) : prog B := call o.

Definition SendControl (cmd : string) : prog (result string) :=
  do e ← sys YDial;
  match e with
  | Some _ => Ret (Err (Errorf "control %s: %w" [cmd] [Sentinel ErrControlUnavailable]))
  | None =>
    do e ← sys (YWrite (cmd +:+ nl));
    match e with
    | Some e => Ret (Err (Errorf "control %s: write: %w" [cmd] [e]))
    | None => do r ← sys YRead; Ret (control_reply cmd r.1 r.2)
    end
  end.

Definition ControlPath : string := Join [stateDir; ControlFileName].

(** The listener, on a socket that is new or was left behind. *)
Definition ListenControl : prog (option error) :=
  do e ← sys (YMkdirAll stateDir 493);
  match e with
  | Some e => fail (Errorf "mkdir state dir: %w" [] [e])
  | None =>
    let path := ControlPath in
    let failed e := fail (Errorf "listen on %s: %w" [path] [e]) in
    let listening := do _ ← sys (YChmod path 384); nil_ in
    do err ← sys (YListen path);
    match err with
    | None => listening
    | Some err =>
      do statErr ← sys (YStat path);
      match statErr with
      | Some _ => failed err
      | None =>
        do dialErr ← sys YDial;
        match dialErr with
        | None => fail (Errorf "another daemon listens on %s" [path] [])
        | Some _ =>
          do e ← sys (YRemove path);
          match e with
          | Some e => fail (Errorf "remove stale %s: %w" [path] [e])
          | None => do err ← sys (YListen path); match err with Some err => failed err | None => listening end
          end
        end
      end
    end
  end.

Definition Alive (pid : Z) : prog bool :=
  if pid <=? 0 then Ret false
  else
    do e ← sys (YKill pid 0);
    Ret (match e with None => true | Some e => is_foreign e EPERM end).

Definition signal (pid sig : Z) (name : string) : prog (option error) :=
  if pid <=? 0 then fail (Errorf (name +:+ ": %w") [] [Sentinel ErrNotRunning])
  else
    do e ← sys (YKill pid sig);
    Ret (match e with
         | None => None
         | Some e => Some (Errorf (name +:+ " %d: %w") [itoa pid] [if is_foreign e ESRCH then Sentinel ErrNotRunning else e])
         end).

(** The control channel first, the signal for a daemon without one. *)
Definition ask_or_signal (cmd : string) (pid sig : Z) (name : string) : prog (option error) :=
  do r ← SendControl cmd;
  match r with
  | Ok _ => nil_
  | Err e => if negb (errors_is e ErrControlUnavailable) then fail e else signal pid sig name
  end.
Definition StopProcess (pid : Z) : prog (option error) := ask_or_signal ControlStop pid SIGTERM "stop".
Definition ResyncProcess (pid : Z) : prog (option error) := ask_or_signal ControlResync pid SIGHUP "resync".
Definition KillProcess (pid : Z) : prog (option error) := signal pid SIGKILL "kill".
Definition StatusProcess : prog (result string) := SendControl ControlStatus.

Definition Spawn (args : list string) : prog (result Z) :=
  do r ← (if String.eqb exe "" then sys YExecutable else Ret (Ok exe));
  match r with
  | Err e => Ret (Err (Errorf "locate executable: %w" [] [e]))
  | Ok exe =>
    do e ← sys (YMkdirAll stateDir 493);
    match e with
    | Some e => Ret (Err (Errorf "mkdir state dir: %w" [] [e]))
    | None =>
      let errPath := Join [stateDir; ErrLogFileName] in
      do e ← sys (YOpenTrunc errPath 384);
      match e with
      | Some e => Ret (Err (Errorf "open %s: %w" [errPath] [e]))
      | None =>
        do r ← sys (YStart exe args);
        Ret (match r with Err e => Err (Errorf "start %s: %w" [exe] [e]) | Ok pid => Ok pid end)
      end
    end
  end.
End Process.

(** ** The git runner *)

Definition gitMaxOutput : Z := Z.shiftl 5 20.
Definition gitTimeout : Duration := 10 * Second.

Record limitedWriter := mkLimited { lbuf : string; lcapped : bool }.
(** [Write]: the bytes taken, and whether the copy goes on. *)
Definition limited_write (max : Z) (w : limitedWriter) (p : string) : limitedWriter * (Z * bool) :=
  let room := max - len (lbuf w) in
  if room <=? 0 then (mkLimited (lbuf w) true, (0, false))
  else if room <? len p then (mkLimited (lbuf w +:+ str_take room p) true, (room, false))
  else (mkLimited (lbuf w +:+ p) (lcapped w), (len p, true)).
(** The copy of what a process writes, chunk by chunk, ends with an error. *)
Fixpoint copy_output (max : Z) (w : limitedWriter) (chunks : list string) : limitedWriter :=
  match chunks with
  | [] => w
  | p :: chunks => let '(w, (_, on)) := limited_write max w p in if on : bool then copy_output max w chunks else w
  end.

(** A run of the binary: what it wrote, the error of [Run] and its text, the
    exit code, whether the time was up. *)
Record git_run := mkGitRun { RunOut : list string; RunErr : option error; RunExit : Z; RunStderr : string; RunTimedOut : bool }.

Section Git.
Context (error_text : error → string).

Definition isBrokenPipe (e : error) (stderr : string) : bool :=
  contains (error_text e) "broken pipe" || contains (error_text e) "signal: broken pipe" || contains stderr "Broken pipe".
Definition firstLine (s : string) : string := trim_space (match str_cut s nl with Some (line, _) => line | None => s end).

Definition git_argv (args : list string) : list string := ["-c"; "color.ui=never"] ++ args.
Definition output_blanks : string := " " +:+ String "009" (String "013" nl).

(** [path] is what [LookPath] found; the run is for [git_argv args]. *)
Definition RunGit (found : bool) (dir : string) (args : list string) (r : git_run) : result GitResult :=
  if negb found then Err (Sentinel ErrGitMissing)
  else
    let stdout := copy_output gitMaxOutput (mkLimited "" false) (RunOut r) in
    let res := mkGitResult (trim_right (lbuf stdout) output_blanks) (lcapped stdout) in
    match RunErr r with
    | None => Ok res
    | Some e =>
      if lcapped stdout && (is_foreign e errOutputCapped || (RunExit r =? 0) || isBrokenPipe e (RunStderr r)) then Ok res
      else if RunTimedOut r then Err (Foreign CtxDeadlineExceeded)
      else
        let msg := trim_space (RunStderr r) in
        if contains msg "not a git repository" then Err (Errorf "%w: %s" [dir] [Sentinel ErrNotRepository])
        else if String.eqb msg "" then Err (Errorf "git %s: %w" [hd "" args] [e])
        else Err (Errorf "git %s: %w: %s" [hd "" args; firstLine msg] [e])
    end.
End Git.

(** ** The environment *)

Definition DefaultPluginID : string := "permgps.telegram-agents".
Record PluginEnv := mkEnv {
  PluginID : string; Root : string; ConfigDir : string; StateDir : string; SocketPathE : string; BinPath : string;
  EnvLogLevel : string; EnvPath : string; InsideHerdr : bool
}.

Section Env.
Context (lookup : string → option string) (home : result string).
Definition env_get (key : string) : string := default "" (lookup key).

Definition SocketPath : result string :=
  let p := env_get "HERDR_SOCKET_PATH" in
  if negb (String.eqb p "") then Ok p
  else match home with
       | Err e => Err (Errorf "HERDR_SOCKET_PATH unset and home dir unknown: %w" [] [e])
       | Ok dir => Ok (Join [dir; ".config"; "herdr"; "herdr.sock"])
       end.

Definition ReadEnvFrom : PluginEnv * option error :=
  let env sock := mkEnv (or_else (env_get "HERDR_PLUGIN_ID") DefaultPluginID) (env_get "HERDR_PLUGIN_ROOT")
    (env_get "HERDR_PLUGIN_CONFIG_DIR") (env_get "HERDR_PLUGIN_STATE_DIR") sock (or_else (env_get "HERDR_BIN_PATH") "herdr")
    (env_get "LOG_LEVEL") (env_get "PATH") (String.eqb (env_get "HERDR_ENV") "1") in
  if String.eqb (ConfigDir (env "")) ""
  then (env "", Some (Errorf "HERDR_PLUGIN_CONFIG_DIR is not set: run this command from Herdr" [] []))
  else if String.eqb (StateDir (env "")) ""
  then (env "", Some (Errorf "HERDR_PLUGIN_STATE_DIR is not set: run this command from Herdr" [] []))
  else match SocketPath with Err e => (env "", Some e) | Ok sock => (env sock, None) end.
End Env.

(** ** Links, and the idle time *)

Definition openCommand (goos url : string) : result (string * list string) :=
  if negb (has_prefix url "https://") && negb (has_prefix url "http://") then Err (Opaque "only http(s) links can be opened")
  else if String.eqb goos "darwin" then Ok ("open", [url])
  else if String.eqb goos "windows" then Ok ("rundll32", ["url.dll,FileProtocolHandler"; url])
  else Ok ("xdg-open", [url]).

(** What the launcher printed and the error of its run. *)
Definition OpenURL (goos url : string) (out : string) (err : option error) : option error :=
  match openCommand goos url with
  | Err e => Some e
  | Ok (name, _) =>
    match err with
    | None => None
    | Some e =>
      let msg := trim_space out in
      if negb (String.eqb msg "") then Some (Errorf "%s: %w: %s" [name; msg] [e]) else Some (Errorf "%s: %w" [name] [e])
    end
  end.

Definition hidIdleTime : re :=
  seqs [lit (String "034" "HIDIdleTime"); lit (String "034" ""); many re_space 0; lit "="; many re_space 0;
        RGroup 1 (many (λ r, (48 <=? r) && (r <=? 57)) 1)].
Definition errNoHIDIdleTime : error := Opaque "HIDIdleTime not found in ioreg output".

(** Nanoseconds: an unsigned number of 64 bits read as a signed one. *)
Definition parseHIDIdleTime (out : string) : result Duration :=
  match FindStringSubmatch hidIdleTime out with
  | None => Err errNoHIDIdleTime
  | Some m =>
    match digits_value 0 (bytes (m 1%nat)) with
    | Some n => if n <? 2 ^ 64 then Ok (wrap64 n) else Err (Errorf "strconv.ParseUint: parsing %s: value out of range" [m 1%nat] [])
    | None => Err (Errorf "strconv.ParseUint: parsing %s: invalid syntax" [m 1%nat] [])
    end
  end.

(** [Idle] of a platform whose sample is [sample]. *)
Definition Idle (sample : result Duration) : result Duration :=
  match sample with
  | Ok d => Ok d
  | Err e => if errors_is e ErrIdleUnsupported then Err e else Err (Errorf "input idle: %w" [] [e])
  end.

(** * What the channel and the runner promise *)

(** ** The output of git is a prefix of what it wrote *)

Lemma len_app a b : len (a +:+ b) = len a + len b.
Proof. unfold len. rewrite str_length_app. lia. Qed.
Lemma str_take_ge n s : len s ≤ n → str_take n s = s.
Proof.
  intros H. unfold str_take. rewrite take_ge; [apply bytes_inj, of_bytes_bytes|]. unfold len in H. rewrite length_bytes. lia.
Qed.
Lemma str_take_app n a b : len a ≤ n → str_take n (a +:+ b) = a +:+ str_take (n - len a) b.
Proof.
  intros H. apply bytes_inj. unfold str_take, len in *. rewrite bytes_app, !of_bytes_bytes, bytes_app, take_app, of_bytes_bytes, length_bytes.
  rewrite take_ge by (rewrite length_bytes; lia). do 2 f_equal. lia.
Qed.

(** A copy of chunks that are not empty collects the beginning of the output,
    and says so if it is cut. *)
Lemma copy_output_spec max w chunks : len (lbuf w) ≤ max → lcapped w = false → Forall (λ p, 0 < len p) chunks →
  let all := lbuf w +:+ String.concat "" chunks in
  copy_output max w chunks = mkLimited (str_take max all) (max <? len all).
Proof.
  intros Hlen Hcap Hne. revert w Hlen Hcap. induction Hne as [|p chunks Hp _ IH]; intros [buf cap] Hlen Hcap; cbn in Hlen, Hcap; subst cap; cbn [copy_output lbuf].
  { rewrite str_app_nil_r, str_take_ge by done. by rewrite (proj2 (Z.ltb_ge _ _)). }
  assert (Hall : String.concat "" (p :: chunks) = p +:+ String.concat "" chunks) by (destruct chunks; [by rewrite str_app_nil_r|done]).
  rewrite Hall. unfold limited_write. cbn [lbuf lcapped]. set (rest := String.concat "" chunks) in *.
  assert (Hrest : 0 ≤ len rest) by (unfold len; lia).
  destruct (Z.leb_spec (max - len buf) 0) as [Hr|Hr]; [|destruct (Z.ltb_spec (max - len buf) (len p)) as [Hs|Hs]].
  - rewrite str_take_app, (proj2 (Z.ltb_lt _ _)) by (rewrite ?len_app; lia).
    replace (max - len buf) with 0 by lia. unfold str_take at 1. cbn. by rewrite str_app_nil_r.
  - rewrite (proj2 (Z.ltb_lt _ _)) by (rewrite ?len_app; lia). f_equal. rewrite (str_take_app max buf) by lia. f_equal.
    apply bytes_inj. unfold str_take. rewrite !of_bytes_bytes, bytes_app, take_app_le; [done|]. rewrite length_bytes. unfold len in *. lia.
  - rewrite IH by (cbn; rewrite ?len_app; lia || done). cbn [lbuf]. by rewrite !str_app_assoc.
Qed.

(** ** A command is answered *)

(** Trimming on the right alone, of code points. *)
Definition rtrim (l : list (Z * string)) : list (Z * string) := reverse (drop_spaces (reverse l)).

Lemma trim_space_rtrim s : trim_space s = concat_str (rtrim (drop_spaces (segs s))).*2.
Proof. done. Qed.

Lemma drop_spaces_app l x : drop_spaces (l ++ x) = match drop_spaces l with [] => drop_spaces x | d => d ++ x end.
Proof. induction l as [|[r b] l IH]; [done|]. cbn. by destruct (is_space r). Qed.

Lemma rtrim_cons x l : rtrim (x :: l) = match rtrim l with [] => if is_space x.1 then [] else [x] | d => x :: d end.
Proof.
  unfold rtrim. rewrite reverse_cons, drop_spaces_app. destruct (drop_spaces (reverse l)) as [|y d] eqn:E.
  - destruct x as [r b]. cbn. by destruct (is_space r).
  - rewrite reverse_app. cbn [reverse]. destruct (reverse (y :: d)) eqn:E'; [|done]. apply (f_equal length) in E'. by rewrite length_reverse in E'.
Qed.

Lemma rtrim_drop l : drop_spaces (rtrim l) = rtrim (drop_spaces l).
Proof.
  induction l as [|[r b] l IH]; [done|]. rewrite rtrim_cons. cbn [drop_spaces fst]. destruct (is_space r) eqn:Hr.
  - rewrite <-IH. destruct (rtrim l); [done|]. cbn [drop_spaces]. by rewrite Hr.
  - rewrite rtrim_cons. cbn [fst]. rewrite Hr. destruct (rtrim l); cbn [drop_spaces]; by rewrite Hr.
Qed.

Lemma drop_spaces_idem l : drop_spaces (drop_spaces l) = drop_spaces l.
Proof. induction l as [|[r b] l IH]; [done|]. cbn. destruct (is_space r) eqn:Hr; [done|]. cbn. by rewrite Hr. Qed.
Lemma rtrim_idem l : rtrim (rtrim l) = rtrim l.
Proof. unfold rtrim. by rewrite reverse_involutive, drop_spaces_idem. Qed.

(** [ok], a blank and a text, as the client reads it. *)
Lemma reply_trimmed s :
  trim_space ("ok " +:+ s +:+ nl) = "ok" +:+ match rtrim (segs s) with [] => "" | l => " " +:+ concat_str l.*2 end.
Proof.
  rewrite trim_space_rtrim. change ("ok " +:+ s +:+ nl) with (String "o" (String "k" (String " " (s +:+ String newline "")))).
  rewrite !segs_ascii_cons, segs_app_ascii by done. change (segs (String newline "")) with [(10, String newline "")].
  change (drop_spaces _) with ((111, "o") :: (107, "k") :: (32, " ") :: segs s ++ [(10, String newline "")]).
  rewrite !rtrim_cons. assert (rtrim (segs s ++ [(10, String newline "")]) = rtrim (segs s)) as ->.
  { unfold rtrim. by rewrite reverse_app. }
  destruct (rtrim (segs s)); done.
Qed.

Lemma trim_rtrim s : trim_space (concat_str (rtrim (segs s)).*2) = trim_space s.
Proof.
  assert (segs (concat_str (rtrim (segs s)).*2) = rtrim (segs s)) as E.
  { destruct (drop_segs_split is_space (reverse (segs s))) as [post Hp]. rewrite <-drop_spaces_segs in Hp.
    apply (segs_prefix _ s (reverse post)). unfold rtrim. rewrite <-reverse_app, <-Hp. by rewrite reverse_involutive. }
  by rewrite !trim_space_rtrim, E, rtrim_drop, rtrim_idem.
Qed.

Lemma trim_blank s : trim_space (" " +:+ s) = trim_space s.
Proof. rewrite !trim_space_rtrim. change (" " +:+ s) with (String " " s). by rewrite segs_ascii_cons. Qed.

Definition no_newline (s : string) : Prop := newline ∉ bytes s.

Lemma no_newline_piece s : ¬ str_occurs nl s → no_newline s.
Proof. intros H (a & b & E)%list_elem_of_split. apply H. by exists a, b. Qed.

Lemma join_no_newline l sep : Forall no_newline l → no_newline sep → no_newline (join l sep).
Proof.
  intros Hl Hs. induction Hl as [|x l Hx _ IH]; [by apply not_elem_of_nil|]. unfold no_newline in *. destruct l as [|y l]; [done|].
  change (join (x :: y :: l) sep) with (x +:+ sep +:+ join (y :: l) sep). rewrite !bytes_app, !elem_of_app. tauto.
Qed.

Lemma replace_no_newline s : no_newline (replace_all s nl " ").
Proof.
  apply join_no_newline; [|by apply not_elem_of_cons; split; [|apply not_elem_of_nil]].
  destruct (split_pieces s nl ltac:(done)) as [H _]. eapply Forall_impl; [exact H|]. intros p [_ Hp]. by apply no_newline_piece.
Qed.

Lemma str_cut_line s : no_newline s → str_cut (s +:+ nl) nl = Some (s, "").
Proof.
  induction s as [|c s IH]; intros H; [done|]. apply not_elem_of_cons in H as [Hc H].
  rewrite str_app_cons. cbn [str_cut]. rewrite (IH H). destruct (cut_prefix (String c (s +:+ nl)) nl) as [r|] eqn:E; [|done].
  apply cut_prefix_bytes in E. by injection E as ->.
Qed.

Lemma read_whole_line s : no_newline s → len s < controlMaxLine → read_line (s +:+ nl) = (s +:+ nl, false).
Proof.
  intros Hs Hl. unfold read_line. rewrite str_take_ge by (rewrite len_app; change (len nl) with 1; unfold controlMaxLine in *; lia).
  by rewrite str_cut_line.
Qed.

(** A command from the client to the daemon and back. *)
Definition exchange {U : UnicodeTables} (h : ControlHandlers) (cmd : string) (e : error) : list control_call * option (result string) :=
  let '(calls, reply) := serveControlConn h (cmd +:+ nl) in (calls, (λ data, control_reply cmd data e) <$> reply).

(** A stop and a resync reach their handler and come back without a text; the
    status comes back as the daemon gave it, on one line without outer white
    space, if it is at most 252 bytes long; another word reaches no handler. *)
Theorem control_answered {U : UnicodeTables} h e :
  exchange h ControlStop e = ((if HStop h then [CallStop] else []), Some (Ok "")) ∧
  exchange h ControlResync e = ((if HResync h then [CallResync] else []), Some (Ok "")) ∧
  (∀ s, HStatus h = Some s → len (replace_all s nl " ") ≤ 252 →
     exchange h ControlStatus e = ([], Some (Ok (trim_space (replace_all s nl " "))))) ∧
  (∀ data c, c ∈ (serveControlConn h data).1 →
     to_lower (trim_space (read_line data).1) = match c with CallStop => ControlStop | CallResync => ControlResync end).
Proof.
  assert (Hs : serveControlConn h (ControlStatus +:+ nl) = ([], Some (match HStatus h with Some s => "ok " +:+ replace_all s nl " " | None => "ok" end +:+ nl))) by (vm_compute; done).
  split; [vm_compute; by destruct (HStop h)|]. split; [vm_compute; by destruct (HResync h)|].
  split.
  2: { intros data c. unfold serveControlConn. destruct (read_line data) as [line err]. cbn [fst]. set (cmd := to_lower _).
       destruct (err && _); [by intros ?%elem_of_nil|].
       destruct (String.eqb_spec cmd ControlStop) as [->|_]; [destruct (HStop h); [by intros ->%list_elem_of_singleton|by intros ?%elem_of_nil]|].
       destruct (String.eqb_spec cmd ControlResync) as [->|_]; [destruct (HResync h); [by intros ->%list_elem_of_singleton|by intros ?%elem_of_nil]|].
       destruct (String.eqb cmd ControlStatus); by intros ?%elem_of_nil. }
  intros s Hst Hl. unfold exchange. rewrite Hs, Hst. cbn [fmap option_fmap option_map]. do 2 f_equal.
  set (r := replace_all s nl " ") in *. pose proof (replace_no_newline s : no_newline r) as Hr. unfold control_reply.
  rewrite read_whole_line.
  2: { intros H. apply Hr. rewrite str_app_cons in H. repeat (apply elem_of_cons in H as [H|H]; [done|]). done. }
  2: { rewrite len_app. change (len "ok ") with 3. unfold controlMaxLine. lia. }
  rewrite str_app_assoc, reply_trimmed. change (cut_prefix ("ok" +:+ ?x) "ok") with (Some x).
  destruct (rtrim (segs r)) as [|y l] eqn:E; cbn [String.eqb Ascii.eqb Bool.eqb].
  - f_equal. rewrite <-(trim_rtrim r), E. done.
  - f_equal. rewrite trim_blank, <-E. apply trim_rtrim.
Qed.
