(* ===== verification/StatusView.v ===== *)
(** internal/app/statusview.go: the overview of the live agents that /status
    and the dashboard share. *)
From S2P Require Import Prelude GoStrings Errors Status Mapping OptionRegistry Presence Registry AppText Format Attachment Eff AppPorts.

Local Open Scope Z_scope.
Local Open Scope eff_scope.

Definition plural (n : Z) (noun : string) : string :=
  if n =? 1 then "1 " +:+ noun else itoa n +:+ " " +:+ noun +:+ "s".

Definition presenceHeaderQuiet : string := "🔕 quiet: you are at the desk (/away to override)" +:+ nl.
Definition presenceHeaderManual (until : string) : string := "🏃 away (manual) until " +:+ until +:+ nl.
Definition presenceHeaderOpen : string := "🏃 away (manual) until /here" +:+ nl.

Record statusView := mkStatusView {
  svAgents : list Agent; svTopics : bool; svIcons : StatusIcons; svSyncOff : bool; svPresence : string;
  svChatID : Z; svSince : gmap Key Time; svNow : Time; svFooter : string; svMaxAgents : Z
}.

Definition formatDuration (d : Duration) : string :=
  let minutes := (if d <? 0 then 0 else d) / Minute in
  if minutes <? 1 then ""
  else if minutes <? 60 then itoa minutes +:+ " min"
  else if minutes <? 24 * 60 then itoa (minutes / 60) +:+ " h " +:+ itoa (minutes mod 60) +:+ " min"
  else let hours := minutes / 60 in itoa (hours / 24) +:+ " d " +:+ itoa (hours mod 24) +:+ " h".

(** [sort.Slice] by label, ties by key. *)
Definition label_le (a b : Agent) : Prop :=
  if decide (Label a = Label b) then String.le (KeyString (AKey a)) (KeyString (AKey b)) else String.le (Label a) (Label b).
#[export] Instance label_le_dec : RelDecision label_le.
Proof. intros a b. unfold label_le. case_decide; apply _. Defined.

(** How long the agent has been in its status, when that is known. *)
Definition since_text (v : statusView) (a : Agent) : string :=
  match svSince v !! AKey a with
  | Some at_ => let d := formatDuration (time_sub (svNow v) at_) in if String.eqb d "" then "" else " · " +:+ d
  | None => ""
  end.

Section StatusView.
Context {S : Type}.
Local Notation prog := (prog appE S).

(** One line of the list. *)
Definition agent_line (v : statusView) (a : Agent) : prog string :=
  let label := EscapeString (Label a) in
  do label ← (if svTopics v then
                do entry ← ask (EntryOf (AKey a));
                Ret match entry with
                    | Some e =>
                      if Live (EStatus e)
                      then "<a href=" +:+ dquote +:+ topicLink (svChatID v) (ThreadID e) +:+ dquote +:+ ">" +:+ label +:+ "</a>"
                      else label
                    | None => label
                    end
              else Ret label);
  Ret (IconFor (svIcons v) (AStatus a) +:+ " " +:+ label +:+ since_text v a).

Fixpoint agent_lines (v : statusView) (agents : list Agent) : prog (list string) :=
  match agents with
  | [] => Ret []
  | a :: agents => do line ← agent_line v a; do lines ← agent_lines v agents; Ret (line :: lines)
  end.

Definition view_header (v : statusView) : string :=
  (if svSyncOff v then "🔇 Herdr → Telegram sync is off (/options)" +:+ nl else "") +:+ svPresence v.

Definition view_body (v : statusView) : prog string :=
  let live := merge_sort label_le (filter (λ a, Live (AStatus a)) (svAgents v)) in
  let n := Z.of_nat (length live) in
  match live with
  | [] => Ret (view_header v +:+ "no agents")
  | _ =>
    let more := if (0 <? svMaxAgents v) && (svMaxAgents v <? n) then n - svMaxAgents v else 0 in
    let live := if 0 <? more then take (Z.to_nat (svMaxAgents v)) live else live in
    do lines ← agent_lines v live;
    Ret (join ((view_header v +:+ plural n "agent") :: lines ++
               (if 0 <? more then ["… +" +:+ itoa more +:+ " more"] else [])) nl)
  end.

Definition view_render (v : statusView) : prog string :=
  do body ← view_body v;
  Ret (if String.eqb (svFooter v) "" then body else body +:+ nl +:+ nl +:+ svFooter v).

Context (zone : Z) (presence : bool).

(** [Format("15:04")] in the clock's location. *)
Definition wallClock (at_ : Time) : string :=
  let s := (at_ / Second + zone) mod 86400 in
  pad_int 2 (s / 3600) +:+ ":" +:+ pad_int 2 (s / 60 mod 60).

Definition presenceHeaderText (quietEnabled : bool) : prog string :=
  if negb presence || negb quietEnabled then Ret ""
  else
    do st ← ask PresenceNow;
    Ret (if ManualAway st && is_zero (Until st) then presenceHeaderOpen
         else if ManualAway st then presenceHeaderManual (wallClock (Until st))
         else if Presence.Quiet st then presenceHeaderQuiet
         else "").
End StatusView.
