(* ===== verification/Panel.v ===== *)
(** internal/app/optionspanel.go: the settings panel of /options, one message
    edited in place. *)
From S2P Require Import Prelude GoStrings Errors Status Config Events AppText OptionRegistry OptionProps AppOptions Redact Format Eff AppPorts.

Local Open Scope Z_scope.
Local Open Scope eff_scope.

Definition iconGridCols : Z := 8.
Definition iconGridRows : Z := 7.
Definition panelPrefix : string := "o:".

Definition panelTitle : string := "Options".
Definition panelPickGroup : string := "Pick a group.".
Definition panelCurrent : string := "Current".
Definition panelOn : string := "on".
Definition panelOff : string := "off".
Definition panelIconFor : string := "Icon for".
Definition panelOnlyPackIcons : string := "Telegram allows only these icons for topics.".
Definition panelPackUnavailable : string := "icon pack unavailable, restart the daemon".
Definition panelBack : string := "‹ Back".
Definition panelClose : string := "✖ Close".
Definition panelReset : string := "↺ Reset to defaults".
Definition panelToastSaved : string := "saved".
Definition panelToastUsedBy (by_ : string) : string := "used by " +:+ by_.
Definition panelToastNotEdit : string := "not editable yet".
Definition panelToastUnknown : string := "unknown button".
Definition panelToastDefaults : string := "already at defaults".
Definition panelInGeneral : string := "options live in General".

Record view := mkView { vText : string; vButtons : list Button }.

(** The message that carries the live keyboard. *)
Record panel := mkPanel { lastID : Z }.

(** ** Callback data *)

Inductive panelAction :=
  | AHome | AClose | ANoop
  | AGroup (group : Z) | AReset (group : Z)
  | AToggle (key : string) | AText (key : string)
  | AGrid (key : string) (page : Z) | APick (key : string) (index : Z).

Definition dataHome : string := panelPrefix +:+ "h".
Definition dataClose : string := panelPrefix +:+ "x".
Definition dataNoop : string := panelPrefix +:+ "n".
Definition dataGroup (gi : Z) : string := panelPrefix +:+ "g:" +:+ itoa gi.
Definition dataReset (gi : Z) : string := panelPrefix +:+ "r:" +:+ itoa gi.
Definition dataToggle (key : string) : string := panelPrefix +:+ "t:" +:+ key.
Definition dataText (key : string) : string := panelPrefix +:+ "e:" +:+ key.
Definition dataGrid (key : string) (page : Z) : string := panelPrefix +:+ "c:" +:+ key +:+ ":" +:+ itoa page.
Definition dataPick (key : string) (index : Z) : string := panelPrefix +:+ "v:" +:+ key +:+ ":" +:+ itoa index.

Definition panel_num (s : string) : option Z :=
  match atoi s with Some n => if n <? 0 then None else Some n | None => None end.

(** [None] is [errPanelData]. *)
Definition parsePanelData (data : string) : option panelAction :=
  match cut_prefix data panelPrefix with
  | None => None
  | Some rest =>
    match split_char ":" rest with
    | ["h"] => Some AHome
    | ["x"] => Some AClose
    | ["n"] => Some ANoop
    | ["g"; n] => AGroup <$> panel_num n
    | ["r"; n] => AReset <$> panel_num n
    | ["t"; key] => if String.eqb key "" then None else Some (AToggle key)
    | ["e"; key] => if String.eqb key "" then None else Some (AText key)
    | ["c"; key; n] => if String.eqb key "" then None else AGrid key <$> panel_num n
    | ["v"; key; n] => if String.eqb key "" then None else APick key <$> panel_num n
    | _ => None
    end
  end.

(** ** Rendering *)

Definition groupAt (i : Z) : option OptionGroup :=
  if i <? 0 then None else OptionGroups !! Z.to_nat i.

Fixpoint index_of_group (name : string) (groups : list OptionGroup) (i : Z) : Z :=
  match groups with
  | [] => 0
  | g :: groups => if String.eqb (GroupName g) name then i else index_of_group name groups (i + 1)
  end.
Definition groupIndex (name : string) : Z := index_of_group name OptionGroups 0.

Definition own_row (text data : string) : Button := mkButton text data 0.

Definition bold (text : string) : string := "<b>" +:+ EscapeString text +:+ "</b>".

Definition renderHome : view :=
  let groups := OptionGroups in
  mkView
    ("<b>" +:+ panelTitle +:+ "</b>" +:+ nl +:+ panelPickGroup +:+ nl +:+
     concat_str (map (λ g, nl +:+ bold (GroupTitle g) +:+ ": " +:+ EscapeString (GroupDescription g)) groups))
    (imap (λ i g, own_row (GroupTitle g) (dataGroup (Z.of_nat i))) groups ++ [own_row panelClose dataClose]).

Definition displayValue (spec : OptionSpec) (value : string) : string :=
  match OptKind spec with
  | KindChoice => ChoiceLabel spec value
  | KindBool => if String.eqb value "true" then panelOn else panelOff
  | KindText => value
  end.

Definition option_button (spec : OptionSpec) (value : string) : Button :=
  match OptKind spec with
  | KindBool => own_row ((if String.eqb value "true" then "☑" else "☐") +:+ " " +:+ OptTitle spec) (dataToggle (OptKey spec))
  | KindChoice => own_row (ChoiceLabel spec value +:+ " " +:+ OptTitle spec) (dataGrid (OptKey spec) 0)
  | KindText => own_row (OptTitle spec +:+ ": " +:+ value) (dataText (OptKey spec))
  end.

Definition renderGroup (gi : Z) (opts : Options) : view :=
  match groupAt gi with
  | None => renderHome
  | Some g =>
    let specs := OptionsInGroup (GroupName g) in
    mkView
      (bold (GroupTitle g) +:+ nl +:+ "<i>" +:+ EscapeString (GroupDescription g) +:+ "</i>" +:+ nl +:+
       concat_str (map (λ spec, nl +:+ bold (OptTitle spec) +:+ ": " +:+ EscapeString (OptDescription spec) +:+ nl +:+
         panelCurrent +:+ ": " +:+ EscapeString (displayValue spec (OptString opts (OptKey spec)))) specs))
      (map (λ spec, option_button spec (OptString opts (OptKey spec))) specs ++
       [own_row panelReset (dataReset gi); own_row panelBack dataHome; own_row panelClose dataClose])
  end.

Definition sameEmoji (a b : string) : bool := String.eqb (emojiKey a) (emojiKey b).

(** The entries of [pack] from [start] on, as buttons in rows of [iconGridCols]. *)
Definition pick_buttons (key : string) (start : Z) (label : string → string) (entries : list string) : list Button :=
  imap (λ i v, mkButton (label v) (dataPick key (start + Z.of_nat i)) (1 + Z.of_nat i / iconGridCols)) entries.

Definition bracketed (current : bool) (label : string) : string := if current then "[" +:+ label +:+ "]" else label.

Definition icon_pages (pack : list string) : Z :=
  let perPage := iconGridCols * iconGridRows in (Z.of_nat (length pack) + perPage - 1) / perPage.

Definition renderIconGrid (spec : OptionSpec) (page : Z) (opts : Options) (pack : list string) : view :=
  let current := OptString opts (OptKey spec) in
  let text := "<b>" +:+ panelIconFor +:+ " " +:+ EscapeString (OptTitle spec) +:+ "</b>" +:+ nl +:+
    EscapeString (OptDescription spec) +:+ nl +:+ panelOnlyPackIcons +:+ nl +:+ panelCurrent +:+ ": " +:+ EscapeString current in
  let back := own_row panelBack (dataGroup (groupIndex (OptGroup spec))) in
  match pack with
  | [] => mkView (text +:+ nl +:+ nl +:+ panelPackUnavailable) [back]
  | _ =>
    let perPage := iconGridCols * iconGridRows in
    let pages := icon_pages pack in
    let page := if pages <=? page then pages - 1 else page in
    let start := page * perPage in
    let entries := take (Z.to_nat perPage) (drop (Z.to_nat start) pack) in
    let nav := iconGridRows + 1 in
    mkView text
      (pick_buttons (OptKey spec) start (λ v, bracketed (sameEmoji v current) v) entries ++
       (if 1 <? pages then
          [(if 0 <? page then mkButton "‹" (dataGrid (OptKey spec) (page - 1)) nav else mkButton "·" dataNoop nav);
           mkButton (itoa (page + 1) +:+ "/" +:+ itoa pages) dataNoop nav;
           (if page <? pages - 1 then mkButton "›" (dataGrid (OptKey spec) (page + 1)) nav else mkButton "·" dataNoop nav)]
        else []) ++ [back])
  end.

Section Panel.
Context (error_text : error → string).
Local Notation prog := (prog appE panel).

Definition renderGrid (spec : OptionSpec) (page : Z) (opts : Options) (pack : list string) : view :=
  if String.eqb (OptChoices spec) ChoiceSourceIcons then renderIconGrid spec page opts pack
  else
    let current := trim_space (OptString opts (OptKey spec)) in
    mkView
      (bold (OptTitle spec) +:+ nl +:+ EscapeString (OptDescription spec) +:+ nl +:+
       panelCurrent +:+ ": " +:+ EscapeString (ChoiceLabel spec current))
      (pick_buttons (OptKey spec) 0 (λ v, bracketed (String.eqb (trim_space v) current) (ChoiceButton spec v)) pack ++
       [own_row panelBack (dataGroup (groupIndex (OptGroup spec)))]).

(** What is left when the panel is closed. *)
Definition renderSummary (opts : Options) : string :=
  "<b>" +:+ panelTitle +:+ "</b>" +:+
  concat_str (map (λ g, nl +:+ nl +:+ bold (GroupTitle g) +:+
    concat_str (map (λ spec, nl +:+ EscapeString (OptTitle spec) +:+ ": " +:+
      EscapeString (displayValue spec (OptString opts (OptKey spec)))) (OptionsInGroup (GroupName g)))) OptionGroups).

(** ** The handlers *)

Definition set_last (id : Z) : prog unit := modify (λ _, mkPanel id).

Definition panel_message (text : string) (replyTo : Z) (buttons : list Button) : Outgoing :=
  mkOutgoing 0 text false true false 0 replyTo false buttons false "" 0.

Definition Open (cmd : GeneralCommand) : prog (option error) :=
  do last ← gets lastID;
  must (if last =? 0 then nil_ else do e ← ask (TgEditButtons last []); Ret (fatal_only e));
  do r ← ask (TgSend (panel_message (vText renderHome) (GenMessageID cmd) (vButtons renderHome)));
  match r with
  | Err e => Ret (fatal_only (Some e))
  | Ok id => do _ ← set_last id; nil_
  end.

Definition panel_edit (messageID : Z) (text : string) (buttons : list Button) : prog (option error) :=
  do err ← ask (TgEditText messageID text true buttons);
  match err with
  | None => nil_
  | Some e =>
    if isFatal e then fail e
    else
      do r ← ask (TgSend (panel_message text 0 buttons));
      match r with
      | Err e => Ret (fatal_only (Some e))
      | Ok id => do _ ← set_last id; nil_
      end
  end.

Definition show (messageID : Z) (v : view) : prog (option error) :=
  must panel_edit messageID (vText v) (vButtons v);
  do last ← gets lastID;
  do _ ← (if last =? 0 then set_last messageID else Ret tt);
  nil_.

Definition answer0 (callbackID toast : string) : prog unit :=
  do _ ← ask (TgAnswer callbackID toast); Ret tt.
Definition panel_answer (callbackID toast : string) : prog (option error) :=
  do _ ← answer0 callbackID toast; nil_.

Definition warning (e : error) : string := "⚠️ " +:+ failureReason error_text e.

(** The spec of a choice option. *)
Definition choice_spec (key : string) : option OptionSpec :=
  match LookupOption key with
  | Some spec => match OptKind spec with KindChoice => Some spec | _ => None end
  | None => None
  end.

(** Another status that shows the icon already. *)
Definition used_elsewhere (opts : Options) (key value : string) : option Status :=
  match StatusOfIconKey key with
  | Some st => match UsedBy (OptStatusIcons opts) value with
               | Some other => if String.eqb other st then None else Some other
               | None => None
               end
  | None => None
  end.

Definition panel_pick (ev : ButtonPressed) (key : string) (index : Z) (spec : OptionSpec) : prog (option error) :=
  do pack ← ask (OptionsChoices (OptChoices spec));
  match (if index <? 0 then None else pack !! Z.to_nat index) with
  | None => panel_answer (CallbackID ev) panelToastUnknown
  | Some value =>
    do cur ← ask OptionsNow;
    let grid := renderGrid spec (index / (iconGridCols * iconGridRows)) cur pack in
    match used_elsewhere cur key value with
    | Some other =>
      do _ ← answer0 (CallbackID ev) (panelToastUsedBy other);
      show (BtnMessageID ev) grid
    | None =>
      do err ← ask (OptionsSet key value (BtnFromID ev));
      match err with
      | Some e => do _ ← answer0 (CallbackID ev) (warning e); show (BtnMessageID ev) grid
      | None =>
        do _ ← answer0 (CallbackID ev) panelToastSaved;
        do o ← ask OptionsNow;
        show (BtnMessageID ev) (renderGroup (groupIndex (OptGroup spec)) o)
      end
    end
  end.

Definition panel_toggle (ev : ButtonPressed) (key : string) (spec : OptionSpec) : prog (option error) :=
  do o ← ask OptionsNow;
  do err ← ask (OptionsSet key (if OptBool o key then "false" else "true") (BtnFromID ev));
  do _ ← answer0 (CallbackID ev) match err with Some e => warning e | None => panelToastSaved end;
  do o ← ask OptionsNow;
  show (BtnMessageID ev) (renderGroup (groupIndex (OptGroup spec)) o).

Definition panel_reset (ev : ButtonPressed) (gi : Z) (g : OptionGroup) : prog (option error) :=
  do r ← ask (OptionsReset (GroupName g) (BtnFromID ev));
  do _ ← answer0 (CallbackID ev)
           match r.2 with
           | Some e => warning e
           | None => if r.1 then panelToastSaved else panelToastDefaults
           end;
  do o ← ask OptionsNow;
  show (BtnMessageID ev) (renderGroup gi o).

Definition panel_close (ev : ButtonPressed) : prog (option error) :=
  do _ ← answer0 (CallbackID ev) "";
  do last ← gets lastID;
  do _ ← (if last =? BtnMessageID ev then set_last 0 else Ret tt);
  do o ← ask OptionsNow;
  panel_edit (BtnMessageID ev) (renderSummary o) [].

Definition PressPanel (ev : ButtonPressed) : prog (option error) :=
  let unknown := panel_answer (CallbackID ev) panelToastUnknown in
  match parsePanelData (BtnData ev) with
  | None => unknown
  | Some ANoop => panel_answer (CallbackID ev) ""
  | Some AHome => do _ ← answer0 (CallbackID ev) ""; show (BtnMessageID ev) renderHome
  | Some AClose => panel_close ev
  | Some (AGroup gi) =>
    match groupAt gi with
    | None => unknown
    | Some _ => do _ ← answer0 (CallbackID ev) ""; do o ← ask OptionsNow; show (BtnMessageID ev) (renderGroup gi o)
    end
  | Some (AReset gi) => match groupAt gi with None => unknown | Some g => panel_reset ev gi g end
  | Some (AToggle key) =>
    match LookupOption key with
    | Some spec => match OptKind spec with KindBool => panel_toggle ev key spec | _ => unknown end
    | None => unknown
    end
  | Some (AText key) =>
    match LookupOption key with
    | Some _ => panel_answer (CallbackID ev) panelToastNotEdit
    | None => unknown
    end
  | Some (AGrid key page) =>
    match choice_spec key with
    | None => unknown
    | Some spec =>
      do _ ← answer0 (CallbackID ev) "";
      do pack ← ask (OptionsChoices (OptChoices spec));
      do o ← ask OptionsNow;
      show (BtnMessageID ev) (renderGrid spec page o pack)
    end
  | Some (APick key index) => match choice_spec key with None => unknown | Some spec => panel_pick ev key index spec end
  end.
End Panel.

(** * The callback data of the options panel: it is read back as written, and
    every button the panel draws is one it understands. *)
(** ** Numbers *)

Lemma panel_num_itoa n : 0 ≤ n → in_int64 n → panel_num (itoa n) = Some n.
Proof. intros H0 Hn. unfold panel_num. rewrite atoi_itoa by done. by rewrite (proj2 (Z.ltb_ge n 0)). Qed.

(** ** Fields *)

Definition no_colon (s : string) : Prop := ":"%char ∉ bytes s.

Lemma split_char_one s : no_colon s → split_char ":" s = [s].
Proof.
  induction s as [|c s IH]; [done|]. intros H. change (bytes (String c s)) with (c :: bytes s) in H.
  unfold no_colon in H. change (bytes (String c s)) with (c :: bytes s) in H. apply not_elem_of_cons in H as [Hc Hs].
  cbn [split_char]. destruct (Ascii.eqb_spec c ":"); [by subst|]. by rewrite IH.
Qed.

Lemma split_char_app s t : no_colon s → split_char ":" (s +:+ ":" +:+ t) = s :: split_char ":" t.
Proof.
  induction s as [|c s IH]; [done|]. intros H. unfold no_colon in H.
  change (bytes (String c s)) with (c :: bytes s) in H. apply not_elem_of_cons in H as [Hc Hs].
  change (String c s +:+ ":" +:+ t) with (String c (s +:+ ":" +:+ t)). cbn [split_char].
  destruct (Ascii.eqb_spec c ":"); [by subst|]. by rewrite IH.
Qed.

Lemma digits_no_colon s n : digits_value 0 (bytes s) = Some n → no_colon s.
Proof.
  unfold no_colon. generalize 0. induction (bytes s) as [|c l IH]; intros acc; [by intros _ ?%elem_of_nil|].
  cbn [digits_value]. destruct (ascii_digit (byte_of c)) eqn:Hd; [|done]. intros H.
  apply not_elem_of_cons. split; [|by eapply IH]. intros <-. by vm_compute in Hd.
Qed.

Lemma itoa_no_colon n : 0 ≤ n → no_colon (itoa n).
Proof.
  intros H0. destruct n as [|p|p]; [by apply (digits_no_colon _ 0)| |lia].
  apply (digits_no_colon _ (Z.pos p)). change (itoa (Z.pos p)) with (pretty_N_go (N.pos p) ""). by rewrite digits_value_pretty.
Qed.

(** ** What the buttons say *)

Definition data_of (a : panelAction) : string :=
  match a with
  | AHome => dataHome | AClose => dataClose | ANoop => dataNoop
  | AGroup gi => dataGroup gi | AReset gi => dataReset gi
  | AToggle key => dataToggle key | AText key => dataText key
  | AGrid key page => dataGrid key page | APick key index => dataPick key index
  end.

Definition key_ok (key : string) : Prop := key ≠ "" ∧ no_colon key.
Definition num_ok (n : Z) : Prop := 0 ≤ n ∧ in_int64 n.
Definition action_ok (a : panelAction) : Prop :=
  match a with
  | AHome | AClose | ANoop => True
  | AGroup n | AReset n => num_ok n
  | AToggle key | AText key => key_ok key
  | AGrid key n | APick key n => key_ok key ∧ num_ok n
  end.

Lemma cut_panel s : cut_prefix (panelPrefix +:+ s) panelPrefix = Some s.
Proof. done. Qed.

(** Callback data is read back as the action it was written for. *)
Lemma parse_data_of a : action_ok a → parsePanelData (data_of a) = Some a.
Proof.
  intros Ha. unfold parsePanelData.
  destruct a as [| | |n|n|key|key|key n|key n]; try reflexivity; cbn [data_of action_ok] in *;
    unfold dataGroup, dataReset, dataToggle, dataText, dataGrid, dataPick; rewrite cut_panel.
  - destruct Ha as [H0 Hn]. change (split_char ":" ("g:" +:+ itoa n)) with ("g" :: split_char ":" (itoa n)).
    rewrite split_char_one by by apply itoa_no_colon. cbn. by rewrite panel_num_itoa.
  - destruct Ha as [H0 Hn]. change (split_char ":" ("r:" +:+ itoa n)) with ("r" :: split_char ":" (itoa n)).
    rewrite split_char_one by by apply itoa_no_colon. cbn. by rewrite panel_num_itoa.
  - destruct Ha as [Hne Hc]. change (split_char ":" ("t:" +:+ key)) with ("t" :: split_char ":" key).
    rewrite split_char_one by done. cbn. by destruct (String.eqb_spec key "").
  - destruct Ha as [Hne Hc]. change (split_char ":" ("e:" +:+ key)) with ("e" :: split_char ":" key).
    rewrite split_char_one by done. cbn. by destruct (String.eqb_spec key "").
  - destruct Ha as [[Hne Hc] [H0 Hn]].
    change (split_char ":" ("c:" +:+ key +:+ ":" +:+ itoa n)) with ("c" :: split_char ":" (key +:+ ":" +:+ itoa n)).
    rewrite split_char_app, split_char_one by (done || by apply itoa_no_colon). cbn.
    destruct (String.eqb_spec key ""); [done|]. by rewrite panel_num_itoa.
  - destruct Ha as [[Hne Hc] [H0 Hn]].
    change (split_char ":" ("v:" +:+ key +:+ ":" +:+ itoa n)) with ("v" :: split_char ":" (key +:+ ":" +:+ itoa n)).
    rewrite split_char_app, split_char_one by (done || by apply itoa_no_colon). cbn.
    destruct (String.eqb_spec key ""); [done|]. by rewrite panel_num_itoa.
Qed.

(** Callback data is read back as the action it was written for, so no
    button of the panel can be taken for another. *)
Theorem panel_data_roundtrip a : action_ok a → parsePanelData (data_of a) = Some a.
Proof. apply parse_data_of. Qed.

Lemma panel_data_roundtrip_witness :
  dataPick OptionDeleteAfterDays 2 = "o:v:topics.delete_after_days:2" ∧
  parsePanelData "o:v:topics.delete_after_days:2" = Some (APick OptionDeleteAfterDays 2).
Proof.
  split; [reflexivity|]. refine (panel_data_roundtrip (APick OptionDeleteAfterDays 2) _).
  split; [split; [done|]|split; [lia|by vm_compute]]. intros H%list_elem_of_In. by vm_compute in H; destruct_or! H.
Defined.

(** ** Every button drawn is understood *)

(** What a press finds: the group, the switch, the choices and the entry are there. *)
Definition meant (pack : list string) (a : panelAction) : Prop :=
  match a with
  | AHome | AClose | ANoop => True
  | AGroup gi | AReset gi => is_Some (groupAt gi)
  | AToggle key => ∃ spec, LookupOption key = Some spec ∧ OptKind spec = KindBool
  | AText key => is_Some (LookupOption key)
  | AGrid key _ => is_Some (choice_spec key)
  | APick key index => is_Some (choice_spec key) ∧ index < Z.of_nat (length pack)
  end.

Definition understood (pack : list string) (b : Button) : Prop :=
  ∃ a, parsePanelData (BData b) = Some a ∧ meant pack a.

Lemma understood_data pack a text row : action_ok a → meant pack a → understood pack (mkButton text (data_of a) row).
Proof. intros Ha Hm. exists a. split; [by apply parse_data_of|done]. Qed.

(** The registry: keys fit into callback data, are found again, and belong to a group. *)
Definition spec_drawable (s : OptionSpec) : bool :=
  negb (String.eqb (OptKey s) "") && negb (existsb (Ascii.eqb ":") (bytes (OptKey s))) &&
  match LookupOption (OptKey s) with
  | Some t => match OptKind t, OptKind s with
              | KindBool, KindBool | KindChoice, KindChoice | KindText, KindText => true
              | _, _ => false
              end
  | None => false
  end &&
  match groupAt (groupIndex (OptGroup s)) with Some _ => true | None => false end &&
  (0 <=? groupIndex (OptGroup s)) && (groupIndex (OptGroup s) <? 100).

Lemma specs_drawable : forallb spec_drawable OptionSpecs = true.
Proof. vm_compute. reflexivity. Qed.

Lemma spec_facts s :
  s ∈ OptionSpecs →
  key_ok (OptKey s) ∧ (∃ t, LookupOption (OptKey s) = Some t ∧ OptKind t = OptKind s) ∧
  is_Some (groupAt (groupIndex (OptGroup s))) ∧ num_ok (groupIndex (OptGroup s)).
Proof.
  intros Hs. pose proof specs_drawable as H. rewrite forallb_forall in H. specialize (H s). rewrite <-list_elem_of_In in H.
  specialize (H Hs). unfold spec_drawable in H. rewrite !andb_true_iff in H.
  destruct H as [[[[[Hne Hc] Hl] Hg] H0] H1]. split_and!.
  - split; [intros E; by rewrite E in Hne|]. intros Hin. apply negb_true_iff in Hc.
    assert (existsb (Ascii.eqb ":") (bytes (OptKey s)) = true); [|congruence].
    apply existsb_exists. exists ":"%char. split; [by apply list_elem_of_In|done].
  - destruct (LookupOption (OptKey s)) as [t|]; [|done]. exists t. split; [done|]. by destruct (OptKind t), (OptKind s).
  - by destruct (groupAt (groupIndex (OptGroup s))); [eexists|].
  - unfold num_ok, in_int64, int64_min, int64_max. lia.
Qed.

Lemma groups_few gi g : groupAt gi = Some g → num_ok gi.
Proof.
  unfold groupAt. destruct (gi <? 0) eqn:H; [done|]. intros Hl%lookup_lt_Some.
  assert (length OptionGroups < 100)%nat by (vm_compute; lia).
  unfold num_ok, in_int64, int64_min, int64_max. lia.
Qed.

(** The views the panel shows, with the entries a grid offers. *)
Inductive drawn : list string → view → Prop :=
  | drawn_home : drawn [] renderHome
  | drawn_group gi opts : is_Some (groupAt gi) → drawn [] (renderGroup gi opts)
  | drawn_grid spec page opts pack :
      spec ∈ OptionSpecs → OptKind spec = KindChoice → 0 ≤ page → Z.of_nat (length pack) ≤ int64_max →
      drawn pack (renderGrid spec page opts pack).

Lemma home_understood b : b ∈ vButtons renderHome → understood [] b.
Proof.
  cbn [vButtons renderHome]. rewrite elem_of_app, list_elem_of_singleton. intros [Hb| ->].
  - apply list_elem_of_lookup in Hb as [i Hi]. rewrite list_lookup_imap in Hi.
    destruct (OptionGroups !! i) as [g|] eqn:Hg; [|done]. injection Hi as <-.
    assert (groupAt (Z.of_nat i) = Some g) as Hat by (unfold groupAt; rewrite (proj2 (Z.ltb_ge _ _)) by lia; by rewrite Nat2Z.id).
    apply (understood_data [] (AGroup (Z.of_nat i))); [by eapply groups_few|by exists g].
  - by apply (understood_data [] AClose).
Qed.

Lemma choice_drawable spec : spec ∈ OptionSpecs → OptKind spec = KindChoice → is_Some (choice_spec (OptKey spec)).
Proof.
  intros Hs Hk. destruct (spec_facts _ Hs) as (_ & (t & Hl & Ht) & _). unfold choice_spec. rewrite Hl, Ht, Hk. by eexists.
Qed.

Lemma option_understood spec value : spec ∈ OptionSpecs → understood [] (option_button spec value).
Proof.
  intros Hs. destruct (spec_facts _ Hs) as (Hk & (t & Hl & Ht) & _). unfold option_button.
  destruct (OptKind spec) eqn:Hkind.
  - apply (understood_data [] (AToggle (OptKey spec))); [done|]. exists t. by rewrite Ht.
  - apply (understood_data [] (AGrid (OptKey spec) 0)); [split; [done|by vm_compute]|by apply choice_drawable].
  - apply (understood_data [] (AText (OptKey spec))); [done|by exists t].
Qed.

Lemma group_understood gi opts b : is_Some (groupAt gi) → b ∈ vButtons (renderGroup gi opts) → understood [] b.
Proof.
  intros [g Hg]. unfold renderGroup. rewrite Hg. cbn [vButtons]. rewrite elem_of_app. intros [Hb|Hb].
  - rewrite list_elem_of_In, in_map_iff in Hb. destruct Hb as (spec & <- & Hs%list_elem_of_In). apply option_understood.
    by apply OptionsInGroup_in in Hs as [Hs _].
  - repeat (apply elem_of_cons in Hb as [->|Hb]); [| | |by apply elem_of_nil in Hb].
    + apply (understood_data [] (AReset gi)); [by eapply groups_few|by exists g].
    + by apply (understood_data [] AHome).
    + by apply (understood_data [] AClose).
Qed.

Lemma back_understood pack spec row text :
  spec ∈ OptionSpecs → understood pack (mkButton text (dataGroup (groupIndex (OptGroup spec))) row).
Proof.
  intros Hs. destruct (spec_facts _ Hs) as (_ & _ & Hg & Hn). by apply (understood_data pack (AGroup (groupIndex (OptGroup spec)))).
Qed.

Lemma picks_understood pack spec label entries start b :
  spec ∈ OptionSpecs → OptKind spec = KindChoice → 0 ≤ start →
  start + Z.of_nat (length entries) ≤ Z.of_nat (length pack) → Z.of_nat (length pack) ≤ int64_max →
  b ∈ pick_buttons (OptKey spec) start label entries → understood pack b.
Proof.
  intros Hs Hk H0 Hlen Hmax Hb. apply list_elem_of_lookup in Hb as [i Hi]. unfold pick_buttons in Hi.
  rewrite list_lookup_imap in Hi. destruct (entries !! i) as [v|] eqn:Hv; [|done]. injection Hi as <-.
  apply lookup_lt_Some in Hv. destruct (spec_facts _ Hs) as (Hkey & _).
  apply (understood_data pack (APick (OptKey spec) (start + Z.of_nat i))).
  - split; [done|]. unfold num_ok, in_int64, int64_min in *. lia.
  - split; [by apply choice_drawable|lia].
Qed.

Lemma grid_understood spec page opts pack b :
  spec ∈ OptionSpecs → OptKind spec = KindChoice → 0 ≤ page → Z.of_nat (length pack) ≤ int64_max →
  b ∈ vButtons (renderGrid spec page opts pack) → understood pack b.
Proof.
  intros Hs Hk Hp Hmax. unfold renderGrid. destruct (String.eqb _ ChoiceSourceIcons).
  2: { cbn [vButtons]. rewrite elem_of_app, list_elem_of_singleton. intros [Hb| ->]; [|by apply back_understood].
       eapply picks_understood; [exact Hs|exact Hk| | |exact Hmax|exact Hb]; lia. }
  unfold renderIconGrid. destruct pack as [|v pack']; [cbn; intros ->%list_elem_of_singleton; by apply back_understood|].
  set (pack := v :: pack') in *. cbn [vButtons]. set (pages := icon_pages pack).
  assert (1 ≤ pages ∧ pages * 56 < Z.of_nat (length pack) + 56 ∧ Z.of_nat (length pack) ≤ pages * 56) as (Hpg & Hpg2 & Hpg3).
  { unfold pages, icon_pages. change (iconGridCols * iconGridRows) with 56. cbn [length pack]. dlia. }
  set (pg := if pages <=? page then pages - 1 else page).
  assert (0 ≤ pg < pages) as Hpgr by (unfold pg; destruct (Z.leb_spec pages page); lia).
  change (iconGridCols * iconGridRows) with 56.
  assert (∀ n, 0 ≤ n < pages → num_ok n) as Hnum by (intros n Hn; unfold num_ok, in_int64, int64_min, int64_max in *; lia).
  destruct (spec_facts _ Hs) as (Hkey & _). pose proof (choice_drawable _ Hs Hk) as Hch.
  rewrite !elem_of_app, list_elem_of_singleton. intros [Hb|[Hb| ->]]; [| |by apply back_understood].
  - eapply picks_understood; [exact Hs|exact Hk| | |exact Hmax|exact Hb]; [lia|]. rewrite length_take, length_drop.
    change (Z.to_nat 56) with 56%nat. lia.
  - destruct (1 <? pages); [|by apply elem_of_nil in Hb].
    repeat (apply elem_of_cons in Hb as [->|Hb]); [| | |by apply elem_of_nil in Hb].
    + destruct (Z.ltb_spec 0 pg); [|by apply (understood_data pack ANoop)].
      apply (understood_data pack (AGrid (OptKey spec) (pg - 1))); [split; [done|apply Hnum; lia]|done].
    + by apply (understood_data pack ANoop).
    + destruct (Z.ltb_spec pg (pages - 1)); [|by apply (understood_data pack ANoop)].
      apply (understood_data pack (AGrid (OptKey spec) (pg + 1))); [split; [done|apply Hnum; lia]|done].
Qed.

(** Every button the options panel draws, on the home view, a group or a
    page of choices, carries data the panel reads back as an action whose
    group, switch, choice and entry exist: no button of a fresh panel answers
    "unknown button". *)
Theorem panel_buttons_understood pack v b : drawn pack v → b ∈ vButtons v → understood pack b.
Proof.
  intros Hv. revert b. destruct Hv as [|gi opts Hg|spec page opts pack Hs Hk Hp Hmax]; intros b Hb.
  - by apply home_understood.
  - by eapply group_understood.
  - by eapply grid_understood.
Qed.
(** A grid of days: its third button picks the third entry. *)
Definition no_spec : OptionSpec := mkOptionSpec "" "" "" "" KindText "" "" None.
Definition days_spec : OptionSpec := default no_spec (OptionSpecs !! 25%nat).
Definition days_view : view := renderGrid days_spec 0 DefaultOptions daysChoices.
Definition days_button : Button := default (mkButton "" "" 0) (vButtons days_view !! 2%nat).

Lemma lookup_default {A} (d : A) l i : (i < length l)%nat → default d (l !! i) ∈ l.
Proof. intros [x Hx]%lookup_lt_is_Some. rewrite Hx. by eapply list_elem_of_lookup_2. Qed.

Lemma panel_buttons_understood_witness :
  BData days_button = "o:v:topics.delete_after_days:2" ∧ understood daysChoices days_button.
Proof.
  split; [vm_compute; reflexivity|].
  refine (panel_buttons_understood daysChoices days_view days_button _ _).
  - refine (drawn_grid days_spec 0 DefaultOptions daysChoices (lookup_default no_spec OptionSpecs 25 _) _ _ _);
      [apply Nat.ltb_lt; vm_compute; reflexivity|vm_compute; reflexivity|done|apply Z.leb_le; vm_compute; reflexivity].
  - refine (lookup_default (mkButton "" "" 0) (vButtons days_view) 2 _). apply Nat.ltb_lt. vm_compute. reflexivity.
Defined.
