(* ===== verification/Outbound.v ===== *)
(** internal/app/outbound.go: what an agent shows is posted into its topic, and
    the buttons under a question are pressed back into the agent.

    The handlers run one after the other on the bridge goroutine, so their
    state is their own; everything else is a port of AppPorts.v. Log lines, and
    clock reads made only for them, are left out. *)
From S2P Require Import Prelude GoStrings Errors Status Mapping Config OptionRegistry Events TurnMeta Redact.
From S2P Require Import Format Choice AppText Registry Attachment Eff AppPorts.

Local Open Scope Z_scope.
Local Open Scope eff_scope.

(** ** The state *)

Record pendingCapture := mkCapture { pcText : string; pcSeq : Z }.

Record keyboard := mkKeyboard {
  kbMessage : Z; kbChoices : list Choice; kbMulti : bool; kbTextEntry : Z; kbTextLabel : string;
  kbCursor : Z; kbSubmitRow : Z; kbWaiting : bool
}.

Record typingWait := mkWait { twThread : Z; twMessage : Z; twUntil : Time }.

Record turn := mkTurn { tThread : Z; tMessage : Z; tStarted : Time; tReacted : bool; tEnded : bool }.

Record outbound := mkOutbound {
  lastPosted : gmap Key string;
  keyboards : gmap Key keyboard;
  announced : gset Key;
  turns : gmap Key turn;
  captures : gmap Key pendingCapture;
  refresh : gmap Key Z;
  typing : gmap Key typingWait
}.

Definition newOutbound : outbound := mkOutbound ∅ ∅ ∅ ∅ ∅ ∅ ∅.

Definition on_posted f (o : outbound) := mkOutbound (f (lastPosted o)) (keyboards o) (announced o) (turns o) (captures o) (refresh o) (typing o).
Definition on_keyboards f (o : outbound) := mkOutbound (lastPosted o) (f (keyboards o)) (announced o) (turns o) (captures o) (refresh o) (typing o).
Definition on_announced f (o : outbound) := mkOutbound (lastPosted o) (keyboards o) (f (announced o)) (turns o) (captures o) (refresh o) (typing o).
Definition on_turns f (o : outbound) := mkOutbound (lastPosted o) (keyboards o) (announced o) (f (turns o)) (captures o) (refresh o) (typing o).
Definition on_captures f (o : outbound) := mkOutbound (lastPosted o) (keyboards o) (announced o) (turns o) (f (captures o)) (refresh o) (typing o).
Definition on_refresh f (o : outbound) := mkOutbound (lastPosted o) (keyboards o) (announced o) (turns o) (captures o) (f (refresh o)) (typing o).
Definition on_typing f (o : outbound) := mkOutbound (lastPosted o) (keyboards o) (announced o) (turns o) (captures o) (refresh o) (f (typing o)).

Definition submitData : string := "enter".
Definition textEntryPrefix : string := "t:".
Definition doneData : string := "done".
Definition reactionTaken : string := "👀".
Definition reactionDone : string := "👌".

(** internal/app/consts.go. *)
Definition screenSettle : Duration := 1500 * 1000000.
Definition turnSettle : Duration := 5 * Second.
Definition blockedLines : Z := 25.
Definition doneLines : Z := 12.
Definition replyMaxParts : Z := 5.
Definition pagerLines : nat := 6.
Definition typingTimeout : Duration := 10 * Minute.
Definition typingHeadRunes : nat := 30.
Definition screenAllInlineRunes : Z := 12000.

Definition pagerNotice : string :=
  "⚠️ questions will ring in the topics: the bot cannot write to your private chat (open the bot and press Start)".

(** ** Rendering *)

Definition keycap (n : Z) : string := itoa n +:+ encode_rune 65039 +:+ encode_rune 8419.

Definition preHTML (text : string) : string := "<pre>" +:+ EscapeString text +:+ "</pre>".

Definition choiceButtons (d : Dialog) : list Button :=
  match Choices d with
  | [] => []
  | cs =>
    map (λ c, mkButton (keycap (Number c) +:+ " " +:+ cutLabel (ChLabel c)) (itoa (Number c)) 0) cs ++
    (if Multi d then [mkButton "✔ Submit" submitData 0] else []) ++
    (if 0 <? TextEntry d then [mkButton ("✏️ " +:+ TextLabel d) (textEntryPrefix +:+ itoa (TextEntry d)) 0] else [])
  end.

Definition pagerText (label screen : string) (dialog : Dialog) (link : string) : string :=
  "❓ <b>" +:+ EscapeString label +:+ "</b> is waiting for you" +:+ nl +:+
  match Choices dialog with
  | [] => match lastLines screen pagerLines with
          | EmptyString => ""
          | tail => "<pre>" +:+ EscapeString tail +:+ "</pre>" +:+ nl
          end
  | cs => concat_str (map (λ c, itoa (Number c) +:+ ". " +:+ EscapeString (ChLabel c) +:+ nl) cs)
  end +:+
  "<a href=" +:+ String "034" link +:+ String "034" ">open the topic</a>".

(** [betterCapture]: more options first, then the longer text. *)
Definition betterCapture (first second : string) : string * bool :=
  let a := Z.of_nat (length (ParseChoices first)) in
  let b := Z.of_nat (length (ParseChoices second)) in
  if a <? b then (second, true)
  else if b <? a then (first, false)
  else if len first <? len second then (second, true)
  else (first, false).

Inductive pressKind := pressUnknown | pressDigit | pressSubmit | pressText.
#[export] Instance pressKind_eq : EqDecision pressKind.
Proof. solve_decision. Defined.

Definition pressKindOf (data : string) : pressKind * Z :=
  if String.eqb data submitData then (pressSubmit, 0)
  else
    let kind := if has_prefix data textEntryPrefix then pressText else pressDigit in
    match atoi (trim_prefix data textEntryPrefix) with
    | Some n => if (n <? 1) || (9 <? n) then (pressUnknown, 0) else (kind, n)
    | None => (pressUnknown, 0)
    end.

Definition plain_post (thread : Z) (text : string) (code : bool) : Outgoing :=
  mkOutgoing thread text code false false 0 0 false [] false "" 0.

Section Outbound.
(** What the handlers are created with; [replies] says whether there is a
    transcript source, [zone] is the location the clock shows times in. *)
Context (hashText : string → string) (error_text : error → string).
Context (chatID : Z) (operators : list Z) (replies : bool) (zone : Z).
Local Notation prog := (prog appE outbound).

Definition opts : prog Options := ask OptionsNow.
Definition skip : prog (option error) := nil_.

Definition clean (text : string) : prog string :=
  do o ← opts; Ret (cleanScreen text (PostsChrome o)).1.

(** [absorbEdit], [answer], [react] and [sendFailed] return fatal errors only. *)
Definition absorb (p : prog (option error)) : prog (option error) := do e ← p; Ret (fatal_only e).
Definition answer (callbackID text : string) : prog (option error) := absorb (ask (TgAnswer callbackID text)).
Definition edit_buttons (message : Z) (bs : list Button) : prog (option error) := absorb (ask (TgEditButtons message bs)).

(** ** Turns *)

Definition react (t : turn) (emoji : string) : prog (option error) :=
  absorb (ask (TgReact (tThread t) (tMessage t) emoji)).

Definition set_turn (key : Key) (t : turn) : prog unit := modify (on_turns (insert key t)).
Definition drop_turn (key : Key) : prog unit := modify (on_turns (delete key)).

Definition PromptSent (key : Key) (threadID messageID : Z) : prog (option error) :=
  do agent ← ask (AgentOf key);
  do started ← match agent with
               | Some a => if String.eqb (AStatus a) StatusWorking then ask Now else Ret time_zero
               | None => Ret time_zero
               end;
  let t := mkTurn threadID messageID started false false in
  do _ ← ask (Cancel TurnTimer key);
  do o ← opts;
  if PostsReactions o then
    must react t reactionTaken;
    do _ ← set_turn key (mkTurn threadID messageID started true false);
    nil_
  else
    do _ ← set_turn key t;
    nil_.

Definition observeTurn (ev : AgentEvent) : prog unit :=
  let key := event_key ev in
  let status := AStatus (AEAgent ev) in
  do t ← gets (λ o, turns o !! key);
  match AEKind ev with
  | AgentGone =>
    do _ ← match t with Some _ => drop_turn key | None => Ret tt end;
    ask (Cancel TurnTimer key)
  | _ =>
    if String.eqb status StatusWorking then
      do _ ← ask (Cancel TurnTimer key);
      match t with
      | Some t =>
        if tEnded t then do now ← ask Now; set_turn key (mkTurn 0 0 now false false)
        else if is_zero (tStarted t) then
          do now ← ask Now; set_turn key (mkTurn (tThread t) (tMessage t) now (tReacted t) (tEnded t))
        else set_turn key t
      | None => do now ← ask Now; set_turn key (mkTurn 0 0 now false false)
      end
    else if String.eqb status StatusIdle then
      match t with Some _ => ask (Schedule TurnTimer key) | None => Ret tt end
    else if String.eqb status StatusDone then
      do _ ← ask (Cancel TurnTimer key);
      match t with
      | Some t => set_turn key (mkTurn (tThread t) (tMessage t) (tStarted t) (tReacted t) true)
      | None => Ret tt
      end
    else ask (Cancel TurnTimer key)
  end.

Definition finishTurn (t : turn) : prog (option error) :=
  if negb (tReacted t) then nil_
  else do o ← opts; if PostsReactions o then react t reactionDone else nil_.

Definition EndTurn (key : Key) : prog (option error) :=
  do t ← gets (λ o, turns o !! key);
  match t with
  | None => nil_
  | Some t =>
    do agent ← ask (AgentOf key);
    match agent with
    | Some a =>
      if String.eqb (AStatus a) StatusIdle then do _ ← drop_turn key; finishTurn t else nil_
    | None => nil_
    end
  end.

(** ** Typing waits and keyboards *)

Definition endTyping (key : Key) : prog unit := modify (on_typing (delete key)).

Definition retire (key : Key) : prog (option error) :=
  do kb ← gets (λ o, keyboards o !! key);
  match kb with
  | None => nil_
  | Some kb =>
    do _ ← modify (on_keyboards (delete key));
    do _ ← modify (on_refresh (delete key));
    do _ ← (if kbWaiting kb then endTyping key else Ret tt);
    edit_buttons (kbMessage kb) []
  end.

Definition markTyping (key : Key) (w : typingWait) (text : string) : prog (option error) :=
  do kb ← gets (λ o, keyboards o !! key);
  do _ ← match kb with
         | Some kb => if kbMessage kb =? twMessage w then modify (on_keyboards (delete key)) else Ret tt
         | None => Ret tt
         end;
  edit_buttons (twMessage w) [mkButton text doneData 0].

Definition TakeTyping (key : Key) : prog (option typingWait) :=
  do w ← gets (λ o, typing o !! key);
  match w with
  | None => Ret None
  | Some w =>
    do now ← ask Now;
    if time_after now (twUntil w) then
      do _ ← endTyping key;
      do _ ← markTyping key w "✏️ expired";
      Ret None
    else do _ ← endTyping key; Ret (Some w)
  end.

Definition TypingDone (key : Key) (w : typingWait) (text : string) : prog (option error) :=
  markTyping key w ("✅ ✏️ · " +:+ headOf text typingHeadRunes).

Definition CancelTyping (key : Key) : prog (option error) :=
  do w ← gets (λ o, typing o !! key);
  match w with
  | None => nil_
  | Some w => do _ ← endTyping key; markTyping key w "✏️ cancelled"
  end.

(** ** Posting *)

Definition Live_post (key : Key) (lines : list string) : prog (option error) :=
  do o ← opts;
  if negb (SyncEnabled o) then nil_
  else
    do entry ← ask (EntryOf key);
    match entry with
    | Some e =>
      if negb (Live (EStatus e)) || Muted e then nil_
      else
        do text ← clean (join lines nl);
        if String.eqb text "" then nil_
        else
          do r ← ask (TgSend (plain_post (ThreadID e) text true));
          match r with Ok _ => nil_ | Err err => Ret (fatal_only (Some err)) end
    | None => nil_
    end.

Definition Observe (ev : AgentEvent) : prog unit :=
  let key := event_key ev in
  let status := AStatus (AEAgent ev) in
  let gone := match AEKind ev with AgentGone => true | _ => false end in
  let away := negb (String.eqb status StatusBlocked) || gone in
  let worth := match AEKind ev with
               | AgentAppeared => String.eqb status StatusBlocked
               | AgentChanged => String.eqb status StatusBlocked || String.eqb status StatusDone
               | AgentGone => false
               end in
  do _ ← observeTurn ev;
  do _ ← (if away then modify (on_announced (λ s, s ∖ {[key]})) else Ret tt);
  do _ ← (if away then modify (on_captures (delete key)) else Ret tt);
  if gone then ask (Cancel ScreenTimer key)
  else if worth then
    do c ← gets (λ o, captures o !! key);
    match c with
    | Some c => if pcSeq c =? StateChangeSeq (AEAgent ev) then Ret tt else ask (Schedule ScreenTimer key)
    | None => ask (Schedule ScreenTimer key)
    end
  else
    do r ← gets (λ o, refresh o !! key);
    match r with Some _ => Ret tt | None => ask (Cancel ScreenTimer key) end.

Definition Forget (key : Key) : prog (option error) :=
  do _ ← ask (Cancel ScreenTimer key);
  do _ ← ask (Cancel TurnTimer key);
  do _ ← modify (on_posted (delete key));
  do _ ← modify (on_announced (λ s, s ∖ {[key]}));
  do _ ← drop_turn key;
  do _ ← modify (on_captures (delete key));
  do _ ← modify (on_refresh (delete key));
  do _ ← endTyping key;
  retire key.

(** The screen of an agent, cleaned; [None] when it cannot be read. *)
Definition read_clean (key : Key) (lines : Z) : prog (option string) :=
  do r ← ask (HerdrReadScreen (PaneID key) ScreenDetection lines);
  match r with Ok s => do text ← clean (SText s); Ret (Some text) | Err _ => Ret None end.

Definition with_dialog (kb : keyboard) (d : Dialog) : keyboard :=
  mkKeyboard (kbMessage kb) (Choices d) (kbMulti kb) (TextEntry d) (TextLabel d) (Cursor d) (SubmitRow d) (kbWaiting kb).

(** Whether the message was redrawn, or nothing else should happen. *)
Definition refreshKeyboard (key : Key) (msgID lines : Z) : prog (bool * option error) :=
  do kb ← gets (λ o, keyboards o !! key);
  match kb with
  | Some kb =>
    if negb (kbMessage kb =? msgID) then Ret (false, None)
    else
      do text ← read_clean key lines;
      match text with
      | None => Ret (true, None)
      | Some text =>
        let d := ParseDialog text in
        if negb (Multi d) then Ret (false, None)
        else
          do _ ← modify (on_keyboards (insert key (with_dialog kb d)));
          do _ ← modify (on_posted (insert key (hashText text)));
          do e ← absorb (ask (TgEditText msgID (preHTML text) true (choiceButtons d)));
          Ret (true, e)
      end
  | None => Ret (false, None)
  end.

(** The text to post once the blocked delay is over; [None] while it runs. *)
Definition delayedCapture (key : Key) (agent : Agent) (lines : Z) (delay : Duration) : prog (option string) :=
  do pending ← gets (λ o, captures o !! key);
  do text ← read_clean key lines;
  match text with
  | None => Ret None
  | Some text =>
    let again := match pending with Some p => if pcSeq p =? StateChangeSeq agent then Some p else None | None => None end in
    match again with
    | None =>
      do _ ← modify (on_captures (insert key (mkCapture text (StateChangeSeq agent))));
      do _ ← ask (ScheduleAfter ScreenTimer key delay);
      Ret None
    | Some p =>
      do _ ← modify (on_captures (delete key));
      Ret (Some (betterCapture (pcText p) text).1)
    end
  end.

Definition paging : prog bool :=
  do o ← opts;
  if negb (PagerEnabled o) then Ret false
  else do ok ← ask PagerReachable; Ret (ok && negb (Nat.eqb (length operators) 0)).

(** The loop of [page]: who was reached, how many chats are closed, and the
    fatal error that ended it. *)
Fixpoint ring (ops : list Z) (out : Outgoing) (reached : list Z) (closed : Z) : prog (list Z * Z * option error) :=
  match ops with
  | [] => Ret (reached, closed, None)
  | op :: ops =>
    do r ← ask (TgSendDirect op out);
    match r with
    | Ok _ => ring ops out (reached ++ [op]) closed
    | Err e =>
      if errors_is e ErrBotUnauthorized || errors_is e ErrPollerConflict then Ret (reached, closed, Some e)
      else if errors_is e ErrForbidden then ring ops out reached (closed + 1)
      else ring ops out reached closed
    end
  end.

Definition page (agent : Agent) (threadID messageID : Z) (text : string) (dialog : Dialog) : prog (bool * option error) :=
  let body := pagerText (Label agent) text dialog (messageLink chatID threadID messageID) in
  let out := mkOutgoing 0 body false true false 0 0 true [] false "" 0 in
  do r ← ring operators out [] 0;
  let '(reached, closed, err) := r in
  match err with
  | Some e => Ret (negb (Nat.eqb (length reached) 0), Some e)
  | None =>
    if negb (Nat.eqb (length reached) 0) then Ret (true, None)
    else if closed <? Z.of_nat (length operators) then Ret (false, None)
    else
      do _ ← ask (SetPagerReachable false);
      do _ ← ask (TgSend (plain_post 0 pagerNotice false));
      Ret (false, None)
  end.

(** What a done post takes from the transcript: the mode, the text and the
    footer. A transcript written before the turn began belongs to another. *)
Definition stale_reply_of (t : option turn) (r : Reply) : bool :=
  match t with
  | Some t => negb (is_zero (tStarted t)) && negb (is_zero (RWritten r)) && time_before (RWritten r) (tStarted t)
  | None => false
  end.

Definition read_reply (agent : Agent) (t : option turn) (mode : DoneMode) (wantMeta : bool) : prog (DoneMode * string * string) :=
  do r ← ask (LastReply agent);
  let ok := match r with Ok r => if stale_reply_of t r then None else Some r | Err _ => None end in
  Ret match ok with
      | None => (DoneScreen, "", "")
      | Some r =>
        let text := if String.eqb mode DoneScreen then "" else trim_space (RText r) in
        (mode, text, if wantMeta then Line (RMeta r) else "")
      end.

(** A done post of a turn shorter than posts.min_seconds. *)
Definition short_turn (agent : Agent) (t : option turn) : prog bool :=
  do o ← opts;
  match t with
  | Some t =>
    if String.eqb (AStatus agent) StatusDone && (0 <? MinTurn o) && negb (is_zero (tStarted t))
    then do now ← ask Now; Ret (time_sub now (tStarted t) <? MinTurn o)
    else Ret false
  | None => Ret false
  end.

(** Whether the post rings; [None] when quiet mode holds it back. *)
Definition notify_for (agent : Agent) (force : bool) : prog (option bool) :=
  let blocked := String.eqb (AStatus agent) StatusBlocked in
  if force then Ret (Some true)
  else
    do q ← ask Quiet;
    if negb q then Ret (Some blocked)
    else
      do o ← opts;
      if String.eqb (QuietPosts o) PostsHeld then Ret None
      else if String.eqb (QuietPosts o) PostsSilent then Ret (Some false)
      else Ret (Some blocked).

(** What is posted: its text, where it comes from and the footer. *)
Record content := mkContent { cText : string; cMode : DoneMode; cFooter : string }.

(** The content of the post; [None] when there is nothing to post now. *)
Definition take_content (key : Key) (agent : Agent) (t : option turn) (lines : Z) (force : bool) : prog (option content) :=
  let done := String.eqb (AStatus agent) StatusDone in
  do mode ← (if done then do o ← opts; Ret (PostsDone o) else Ret DoneScreen);
  do captured ←
    (if String.eqb (AStatus agent) StatusBlocked then
       do o ← opts;
       if force then do _ ← modify (on_captures (delete key)); Ret (Some None)
       else if 0 <? BlockedDelay o then
         do chosen ← delayedCapture key agent lines (BlockedDelay o);
         Ret (match chosen with Some text => Some (Some text) | None => None end)
       else Ret (Some None)
     else Ret (Some None));
  match captured with
  | None => Ret None
  | Some captured =>
    let mode := if negb (String.eqb mode DoneScreen) && negb replies then DoneScreen else mode in
    do wantMeta ← (if done then do o ← opts; Ret (PostsMeta o && replies) else Ret false);
    match captured with
    | Some text => Ret (Some (mkContent text mode ""))
    | None =>
      do r ← (if negb (String.eqb mode DoneScreen) || wantMeta then read_reply agent t mode wantMeta
              else Ret (mode, "", ""));
      let '(mode, text, footer) := r in
      if String.eqb mode DoneScreen then
        do text ← read_clean key lines;
        Ret (match text with Some text => Some (mkContent text mode footer) | None => None end)
      else Ret (Some (mkContent text mode footer))
    end
  end.

Definition keyboard_of (id : Z) (d : Dialog) : keyboard :=
  mkKeyboard id (Choices d) (Multi d) (TextEntry d) (TextLabel d) (Cursor d) (SubmitRow d) false.

(** The message of a post. *)
Definition post_of (entry : TopicEntry) (c : content) (notify : bool) (buttons : list Button) (fold : Z) : Outgoing :=
  let formatted := String.eqb (cMode c) DoneFormatted in
  let screen := String.eqb (cMode c) DoneScreen in
  mkOutgoing (ThreadID entry) (cText c) (negb formatted) false formatted (if screen then 0 else replyMaxParts) 0
    notify buttons false (cFooter c) (if screen then 0 else fold).

(** The post itself, once it is known to be new. *)
Definition send_post (key : Key) (agent : Agent) (entry : TopicEntry) (c : content) (notify : bool) : prog (option error) :=
  let blocked := String.eqb (AStatus agent) StatusBlocked in
  must retire key;
  do fold ← (if String.eqb (cMode c) DoneScreen then Ret 0 else do o ← opts; Ret (FoldAfter o));
  let dialog := if blocked then ParseDialog (cText c) else noDialog in
  let buttons := if blocked then choiceButtons dialog else [] in
  do paged ← (if notify && blocked then paging else Ret false);
  do r ← ask (TgSend (post_of entry c (notify && negb paged) buttons fold));
  match r with
  | Err e => Ret (fatal_only (Some e))
  | Ok id =>
    do _ ← modify (on_posted (insert key (hashText (cText c))));
    do _ ← match buttons with [] => Ret tt | _ => modify (on_keyboards (insert key (keyboard_of id dialog))) end;
    if paged then
      do p ← page agent (ThreadID entry) id (cText c) dialog;
      match p.2 with
      | Some e => Ret (Some e)
      | None => do _ ← (if p.1 then modify (on_announced (union {[key]})) else Ret tt); nil_
      end
    else
      do _ ← (if notify && blocked then modify (on_announced (union {[key]})) else Ret tt);
      nil_
  end.

Definition fire_post (key : Key) (agent : Agent) (t : option turn) (lines : Z) (force : bool) : prog (option error) :=
  do short ← short_turn agent t;
  if short then skip
  else
    do entry ← ask (EntryOf key);
    match entry with
    | None => skip
    | Some entry =>
      if negb (Live (EStatus entry)) || Muted entry then skip
      else
        do notify ← notify_for agent force;
        match notify with
        | None => skip
        | Some notify =>
          do c ← take_content key agent t lines force;
          match c with
          | None => skip
          | Some c =>
            if String.eqb (cText c) "" then skip
            else
              do last ← gets (λ o, lastPosted o !! key);
              if String.eqb (default EmptyString last) (hashText (cText c)) && negb force then skip
              else send_post key agent entry c notify
          end
        end
    end.

(** The end of a turn that is due before any reason to skip the post. *)
Definition end_done_turn (key : Key) (agent : Agent) : prog (option turn * option error) :=
  if String.eqb (AStatus agent) StatusDone then
    do t ← gets (λ o, turns o !! key);
    match t with
    | Some t =>
      do _ ← drop_turn key;
      do _ ← ask (Cancel TurnTimer key);
      do e ← finishTurn t;
      Ret (Some t, e)
    | None => Ret (None, None)
    end
  else Ret (None, None).

Definition fire (key : Key) (force : bool) : prog (option error) :=
  do agent ← ask (AgentOf key);
  match agent with
  | None => skip
  | Some agent =>
    do ended ← end_done_turn key agent;
    match ended.2 with
    | Some e => Ret (Some e)
    | None =>
      do o ← opts;
      if negb (SyncEnabled o) then skip
      else
        do pending ← gets (λ o, refresh o !! key);
        do redrawn ←
          match pending with
          | Some msgID =>
            if force then Ret (false, None)
            else do _ ← modify (on_refresh (delete key)); refreshKeyboard key msgID blockedLines
          | None => Ret (false, None)
          end;
        if redrawn.1 || match redrawn.2 with Some _ => true | None => false end then Ret redrawn.2
        else if String.eqb (AStatus agent) StatusBlocked then fire_post key agent ended.1 blockedLines force
        else if String.eqb (AStatus agent) StatusDone then fire_post key agent ended.1 doneLines force
        else do _ ← modify (on_captures (delete key)); skip
    end
  end.

Definition Fire (key : Key) : prog (option error) := fire key false.

(** One agent of the catch-up. *)
Definition catch_up (a : Agent) : prog (option error) :=
  if negb (String.eqb (AStatus a) StatusBlocked) then nil_
  else
    let key := AKey a in
    do o ← gets (λ o, (bool_decide (key ∈ announced o), default EmptyString (lastPosted o !! key)));
    if o.1 then skip
    else
      do again ← (if String.eqb o.2 "" then Ret true else do op ← opts; Ret (QuietReannounce op));
      if negb again then skip else fire key true.

Definition CatchUp : prog (option error) := do l ← ask LiveAgents; each catch_up l.

(** ** Buttons *)

Definition stale (ev : ButtonPressed) (text : string) : prog (option error) :=
  must edit_buttons (BtnMessageID ev) [];
  answer (CallbackID ev) text.

Definition submitKeys (key : Key) (kb : keyboard) : prog (list string) :=
  do text ← read_clean key blockedLines;
  let seen := mkDialog [] false 0 "" (kbCursor kb) (kbSubmitRow kb) in
  Ret (SubmitKeys match text with
                  | Some text => let live := ParseDialog text in if Multi live then live else seen
                  | None => seen
                  end).

Definition dialogStillOpen (key : Key) (kb : keyboard) (st : Status) : prog bool :=
  if negb (String.eqb st StatusWorking) then Ret false
  else
    do text ← read_clean key blockedLines;
    Ret match text with
        | None => false
        | Some text =>
          let d := ParseDialog text in
          negb (Nat.eqb (length (Choices d)) 0) && Nat.eqb (length (Choices d)) (length (kbChoices kb)) &&
          Bool.eqb (Multi d) (kbMulti kb) && (TextEntry d =? kbTextEntry kb)
        end.

Definition set_waiting (kb : keyboard) : keyboard :=
  mkKeyboard (kbMessage kb) (kbChoices kb) (kbMulti kb) (kbTextEntry kb) (kbTextLabel kb) (kbCursor kb) (kbSubmitRow kb) true.

Definition pressedText (key : Key) (kb : keyboard) (ev : ButtonPressed) : prog (option error) :=
  do _ ← modify (on_keyboards (insert key (set_waiting kb)));
  do now ← ask Now;
  do _ ← modify (on_typing (insert key (mkWait (BtnThreadID ev) (BtnMessageID ev) (time_add now typingTimeout))));
  must edit_buttons (BtnMessageID ev) [mkButton "✏️ waiting for your text" doneData 0];
  must answer (CallbackID ev) "now send the text";
  do r ← ask (TgSend (mkOutgoing (BtnThreadID ev) ("✏️ " +:+ kbTextLabel kb +:+ ": send the text as your next message")
                        false false false 0 (BtnMessageID ev) false [] true "" 0));
  Ret (fatal_only (match r with Ok _ => None | Err e => Some e end)).

(** The label of the pressed option, its digit when the dialog has none. *)
Definition pressed_label (kb : keyboard) (n : Z) (data : string) : string :=
  foldl (λ label c, if Number c =? n then cutLabel (ChLabel c) else label) data (kbChoices kb).

(** After the keys reached the agent. *)
Definition follow_up (key : Key) : prog (option error) :=
  do _ ← modify (on_captures (delete key));
  do _ ← ask (Schedule ScreenTimer key);
  nil_.

Definition pressed (key : Key) (kb : keyboard) (ev : ButtonPressed) (kind : pressKind) (n : Z) : prog (option error) :=
  match kind with
  | pressText => pressedText key kb ev
  | pressSubmit =>
    do _ ← modify (on_keyboards (delete key));
    do _ ← modify (on_refresh (delete key));
    must edit_buttons (BtnMessageID ev) [mkButton "✅ submitted" doneData 0];
    must answer (CallbackID ev) "submitted";
    follow_up key
  | pressDigit =>
    if kbMulti kb then
      do _ ← modify (on_refresh (insert key (BtnMessageID ev)));
      must answer (CallbackID ev) ("toggled: " +:+ BtnData ev);
      do _ ← ask (Schedule ScreenTimer key);
      nil_
    else
      do _ ← modify (on_keyboards (delete key));
      must edit_buttons (BtnMessageID ev)
        [mkButton ("✅ " +:+ BtnData ev +:+ " · " +:+ pressed_label kb n (BtnData ev)) doneData 0];
      must answer (CallbackID ev) ("sent: " +:+ BtnData ev);
      follow_up key
  | pressUnknown => follow_up key
  end.

Definition not_offered (kb : keyboard) (kind : pressKind) (n : Z) : bool :=
  match kind with
  | pressSubmit => negb (kbMulti kb)
  | pressText => (kbTextEntry kb =? 0) || negb (n =? kbTextEntry kb)
  | _ => false
  end || kbWaiting kb.

Definition send_press (key : Key) (kb : keyboard) (ev : ButtonPressed) (kind : pressKind) (n : Z) : prog (option error) :=
  do keys ← match kind with
            | pressText => Ret [itoa n]
            | pressSubmit => submitKeys key kb
            | _ => Ret [BtnData ev]
            end;
  do err ← ask (HerdrSendKeys (PaneID key) keys);
  match err with
  | Some e =>
    must retire key;
    answer (CallbackID ev) ("⚠️ " +:+ failureReason error_text e)
  | None => pressed key kb ev kind n
  end.

Definition Press (ev : ButtonPressed) : prog (option error) :=
  do key ← ask (KeyOfThread (BtnThreadID ev));
  match key with
  | None => stale ev "topic is not mapped"
  | Some key =>
    if String.eqb (BtnData ev) doneData then answer (CallbackID ev) "already answered"
    else
      let '(kind, n) := pressKindOf (BtnData ev) in
      match kind with
      | pressUnknown => stale ev "unknown button"
      | _ =>
        do kb ← gets (λ o, keyboards o !! key);
        match kb with
        | None => stale ev "not the latest question"
        | Some kb =>
          if negb (kbMessage kb =? BtnMessageID ev) then stale ev "not the latest question"
          else if not_offered kb kind n then stale ev "unknown button"
          else
            do agent ← ask (AgentOf key);
            match agent with
            | None => must retire key; answer (CallbackID ev) "agent has exited"
            | Some agent =>
              do open_ ← (if String.eqb (AStatus agent) StatusBlocked then Ret true
                          else dialogStillOpen key kb (AStatus agent));
              if negb open_ then must retire key; answer (CallbackID ev) "agent is not waiting anymore"
              else send_press key kb ev kind n
            end
        end
      end
  end.

(** ** Screens on request *)

Definition no_topic (what : string) (key : Key) : error := Errorf (what +:+ " for %s: no topic") [KeyString key] [].

Definition ScreenPost (key : Key) (lines : Z) : prog (option error) :=
  do entry ← ask (EntryOf key);
  match entry with
  | None => fail (no_topic "screen" key)
  | Some e =>
    do r ← ask (HerdrReadScreen (PaneID key) ScreenVisible lines);
    match r with
    | Err err => fail err
    | Ok s =>
      do text ← clean (SText s);
      let text := if String.eqb text "" then "(screen is empty)" else text in
      do r ← ask (TgSend (plain_post (ThreadID e) text true));
      match r with Ok _ => nil_ | Err err => fail err end
    end
  end.

(** [clock.Now().Format("150405")]. *)
Definition clock_stamp (at_ : Time) : string :=
  let s := (at_ / Second + zone) mod 86400 in
  pad_int 2 (s / 3600) +:+ pad_int 2 (s / 60 mod 60) +:+ pad_int 2 (s mod 60).

Definition ScreenAll (key : Key) : prog (option error) :=
  do entry ← ask (EntryOf key);
  match entry with
  | None => fail (no_topic "screen all" key)
  | Some e =>
    do r ← ask (CaptureSince key);
    match r with
    | Err err => fail err
    | Ok (lines, marked) =>
      do text ← clean (join lines nl);
      if String.eqb text "" then
        do r ← ask (TgSend (plain_post (ThreadID e) "(no output since your last message)" false));
        match r with Ok _ => nil_ | Err err => fail err end
      else
        let since := if marked then "your last message" else "daemon start" in
        let text := if marked then text else "(history starts at daemon start)" +:+ nl +:+ text in
        if screenAllInlineRunes <? rune_count text then
          do now ← ask Now;
          ask (TgSendDocument (mkDocument (ThreadID e)
                 ("screen-" +:+ replace_all (PaneID key) ":" "-" +:+ "-" +:+ clock_stamp now +:+ ".txt")
                 (text +:+ nl) (itoa (count text nl + 1) +:+ " lines since " +:+ since) 0))
        else
          do r ← ask (TgSend (plain_post (ThreadID e) text true));
          match r with Ok _ => nil_ | Err err => fail err end
    end
  end.
End Outbound.
