(* ===== verification/OutboundProps.v ===== *)
(** What the handlers of Outbound.v promise: the errors they end with, the
    reactions they owe, the answers a button press gets, the keys it sends and
    the posts a settled screen makes. *)
From S2P Require Import Prelude GoStrings Errors Status Mapping Config OptionRegistry Events TurnMeta Redact.
From S2P Require Import Format Choice AppText Registry Attachment Eff AppPorts Outbound.

Local Open Scope Z_scope.
Local Open Scope eff_scope.

Section Props.
Context (hashText : string → string) (error_text : error → string).
Context (chatID : Z) (operators : list Z) (replies : bool) (zone : Z).
Local Notation prog := (prog appE outbound).
Local Notation world := (world appE outbound).

(** ** The handlers of the bridge goroutine *)

Inductive handler : Type :=
  | HPrompt (key : Key) (thread message : Z)
  | HEvent (ev : AgentEvent)
  | HLive (key : Key) (lines : list string)
  | HGone (key : Key)
  | HSettled (key : Key)
  | HIdle (key : Key)
  | HPress (ev : ButtonPressed)
  | HTyped (key : Key) (w : typingWait) (text : string)
  | HTake (key : Key)
  | HCommand (key : Key)
  | HCatchUp.

Definition serve (h : handler) : prog (option error) :=
  match h with
  | HPrompt key thread message => PromptSent key thread message
  | HEvent ev => do _ ← Observe ev; nil_
  | HLive key lines => Live_post key lines
  | HGone key => Forget key
  | HSettled key => Fire hashText chatID operators replies key
  | HIdle key => EndTurn key
  | HPress ev => Press error_text ev
  | HTyped key w text => TypingDone key w text
  | HTake key => do _ ← TakeTyping key; nil_
  | HCommand key => CancelTyping key
  | HCatchUp => CatchUp hashText chatID operators replies
  end.

(** ** Errors *)

Notation fatal := (errs (λ e, isFatal e = true)).

Lemma fatal_only_ok err : from_option (λ e, isFatal e = true) True (fatal_only err).
Proof. destruct (fatal_only err) as [e|] eqn:H; [|done]. exact (proj1 (isFatal_fatal_only _ _ H)). Qed.

Lemma fatal_absorb (p : prog (option error)) : fatal (absorb p).
Proof. apply returns_then. intros e. apply returns_ret, fatal_only_ok. Qed.
Lemma fatal_ret err : fatal (Ret (fatal_only err) : prog _).
Proof. apply returns_ret, fatal_only_ok. Qed.
Lemma fatal_answer c t : fatal (answer c t).
Proof. apply fatal_absorb. Qed.
Lemma fatal_edit m b : fatal (edit_buttons m b).
Proof. apply fatal_absorb. Qed.
Lemma fatal_react t e : fatal (react t e).
Proof. apply fatal_absorb. Qed.
Hint Resolve fatal_absorb fatal_ret fatal_answer fatal_edit fatal_react : frames.

Lemma fatal_retire key : fatal (retire key).
Proof. unfold retire. errands. Qed.
Lemma fatal_finishTurn t : fatal (finishTurn t).
Proof. unfold finishTurn. errands. Qed.
Lemma fatal_markTyping key w text : fatal (markTyping key w text).
Proof. unfold markTyping. errands. Qed.
Lemma fatal_stale ev text : fatal (stale ev text).
Proof. unfold stale. errands. Qed.
Lemma fatal_follow_up key : fatal (follow_up key).
Proof. unfold follow_up. errands. Qed.
Lemma fatal_pressedText key kb ev : fatal (pressedText key kb ev).
Proof. unfold pressedText. errands. Qed.
Hint Resolve fatal_retire fatal_finishTurn fatal_markTyping fatal_stale fatal_follow_up fatal_pressedText : frames.

Lemma fatal_pressed key kb ev kind n : fatal (pressed key kb ev kind n).
Proof. unfold pressed. errands. Qed.
Hint Resolve fatal_pressed : frames.
Lemma fatal_send_press key kb ev kind n : fatal (send_press error_text key kb ev kind n).
Proof. unfold send_press. errands. Qed.
Hint Resolve fatal_send_press : frames.

Notation second_fatal := (errs_with (λ e, isFatal e = true)).

Lemma fatal_ring ops out reached closed : second_fatal (ring ops out reached closed).
Proof.
  revert reached closed. induction ops as [|op ops IH]; intros reached closed; cbn [ring]; [by apply returns_ret|].
  apply returns_then. intros [id|e]; [apply IH|].
  case_match eqn:H; [apply returns_ret; cbn; unfold isFatal; by rewrite H|]. case_match; apply IH.
Qed.

Lemma fatal_page agent thread message text d : second_fatal (page chatID operators agent thread message text d).
Proof.
  unfold page. eapply returns_bind; [apply fatal_ring|]. intros [[reached closed] err] H. cbn in H.
  destruct err as [e|]; [by apply returns_ret|]. destruct (negb _); [by apply returns_ret|].
  destruct (_ <? _); [by apply returns_ret|]. apply returns_then. intros _. apply returns_then. intros _. by apply returns_ret.
Qed.

Lemma fatal_end_done_turn key agent : second_fatal (end_done_turn key agent).
Proof.
  unfold end_done_turn. destruct (String.eqb _ _); [|by apply returns_ret].
  apply returns_then. intros [t|]; [|by apply returns_ret]. do 2 (apply returns_then; intros _).
  eapply returns_bind; [apply fatal_finishTurn|]. intros e He. by apply returns_ret.
Qed.

Lemma fatal_refreshKeyboard key m lines : second_fatal (refreshKeyboard hashText key m lines).
Proof.
  unfold refreshKeyboard. apply returns_then. intros [kb|]; [|by apply returns_ret].
  destruct (negb _); [by apply returns_ret|]. apply returns_then. intros [text|]; [|by apply returns_ret].
  destruct (negb _); [by apply returns_ret|]. do 2 (apply returns_then; intros _).
  eapply returns_bind; [apply fatal_absorb|]. intros e He. by apply returns_ret.
Qed.

Hint Resolve fatal_page fatal_end_done_turn fatal_refreshKeyboard : frames.

Lemma fatal_send_post key agent entry c notify : fatal (send_post hashText chatID operators key agent entry c notify).
Proof. unfold send_post. errands. Qed.
Hint Resolve fatal_send_post : frames.
Lemma fatal_fire_post key agent t lines force : fatal (fire_post hashText chatID operators replies key agent t lines force).
Proof. unfold fire_post, skip. errands. Qed.
Hint Resolve fatal_fire_post : frames.

Lemma fatal_redrawn key (pending : option Z) (force : bool) :
  second_fatal (match pending with
                | Some m => if force then Ret (false, None)
                            else do _ ← modify (on_refresh (delete key)); refreshKeyboard hashText key m blockedLines
                | None => Ret (false, None)
                end).
Proof.
  destruct pending as [m|]; [|by apply returns_ret]. destruct force; [by apply returns_ret|].
  apply returns_then. intros _. apply fatal_refreshKeyboard.
Qed.
Hint Resolve fatal_redrawn : frames.

Lemma fatal_fire key force : fatal (fire hashText chatID operators replies key force).
Proof. unfold fire, skip. errands. Qed.
Hint Resolve fatal_fire : frames.

Lemma fatal_Press ev : fatal (Press error_text ev).
Proof. unfold Press. errands. Qed.
Hint Resolve fatal_Press : frames.

(** A handler of the outbound ends with an error only when that error is fatal
    to the daemon. *)
Lemma fatal_serve h : errs (λ e, isFatal e = true) (serve h).
Proof.
  destruct h; cbn [serve]; unfold PromptSent, Live_post, Forget, Fire, EndTurn, TypingDone, CancelTyping, CatchUp, catch_up, skip;
    errands.
Qed.

(** ** Answers to a button press *)

(** The callbacks answered, the newest first. *)
Definition answered (w : world) : list string :=
  omap (λ e, match e with Ev o _ => match o with TgAnswer id _ => Some id | _ => None end end) (trace w).

(** [p] answers the callback [id] once and no other, or stops at an error before. *)
Definition once (id : string) (p : prog (option error)) : Prop :=
  ∀ w, wp anything p w (λ e w', answered w' = id :: answered w ∨ e ≠ None ∧ answered w' = answered w).

Lemma once_then {A} id (p : prog A) k : frames answered p → (∀ a, once id (k a)) → once id (bind p k).
Proof. intros Hp Hk w. eapply wp_frames; [exact Hp|]. intros a w' <-. apply Hk. Qed.

Lemma once_must id p q :
  frames answered p → once id q → once id (bind p (λ e, match e with Some e => Ret (Some e) | None => q end)).
Proof. intros Hp Hq. apply once_then; [done|]. intros [e|]; [|done]. intros w. by right. Qed.

Lemma once_answer id text : once id (answer id text).
Proof. intros w r _. by left. Qed.

Lemma once_answered id text q :
  frames answered q → once id (bind (answer id text) (λ e, match e with Some e => Ret (Some e) | None => q end)).
Proof.
  intros Hq w. apply wp_must. eapply wp_mono; [|apply once_answer]. intros [e|] w' H; [destruct H as [?|[_ ?]]; [by left|by right]|].
  eapply wp_mono; [|apply Hq]. intros e w'' ->. destruct H as [?|[? _]]; [by left|done].
Qed.

Lemma quiet_retire key : frames answered (retire key).
Proof. unfold retire, endTyping, edit_buttons, absorb. framed. Qed.
Lemma quiet_edit m bs : frames answered (edit_buttons m bs).
Proof. unfold edit_buttons, absorb. framed. Qed.
Lemma quiet_read key lines : frames answered (read_clean key lines).
Proof. unfold read_clean, clean, opts. framed. Qed.
Hint Resolve quiet_retire quiet_edit quiet_read : frames.
Lemma quiet_open key kb s : frames answered (dialogStillOpen key kb s).
Proof. unfold dialogStillOpen. framed. Qed.
Lemma quiet_submitKeys key kb : frames answered (submitKeys key kb).
Proof. unfold submitKeys. framed. Qed.
Lemma quiet_follow_up key : frames answered (follow_up key).
Proof. unfold follow_up. framed. Qed.
Hint Resolve quiet_open quiet_submitKeys quiet_follow_up once_answer : frames.

Ltac once_step :=
  match goal with
  | |- ∀ _, _ => intro
  | |- once _ (bind (answer _ _) _) => apply once_answered
  | |- once _ (bind _ (λ e, match e with Some e => Ret (Some e) | None => _ end)) => apply once_must
  | |- once _ (bind _ _) => apply once_then
  | |- once _ (let '_ := ?x in _) => destruct x
  | |- once _ (match ?x with _ => _ end) => destruct x
  | |- once _ (if ?x then _ else _) => destruct x
  end.
Ltac answers := repeat first [solve [auto 2 with frames nocore] | once_step | framed_step].

Lemma once_stale ev text : once (CallbackID ev) (stale ev text).
Proof. unfold stale. answers. Qed.
Hint Resolve once_stale : frames.
Lemma once_pressedText key kb ev : once (CallbackID ev) (pressedText key kb ev).
Proof. unfold pressedText. answers. Qed.
Hint Resolve once_pressedText : frames.
Lemma once_pressed key kb ev kind n : kind ≠ pressUnknown → once (CallbackID ev) (pressed key kb ev kind n).
Proof. destruct kind; intros H; [done|..]; unfold pressed; answers. Qed.
Lemma once_send_press key kb ev kind n : kind ≠ pressUnknown → once (CallbackID ev) (send_press error_text key kb ev kind n).
Proof.
  intros H. unfold send_press. apply once_then; [answers|]. intros keys.
  apply once_then; [answers|]. intros [e|]; [answers|by apply once_pressed].
Qed.

(** A button press is answered exactly once whatever it finds, so the
    phone stops its spinner; only a fatal error may come before the answer. *)
Theorem press_answered_once ev w r w' :
  exec anything (Press error_text ev) w r w' →
  answered w' = CallbackID ev :: answered w ∨
  (∃ e, r = Some e ∧ isFatal e = true) ∧ answered w' = answered w.
Proof.
  intros He.
  assert (once (CallbackID ev) (Press error_text ev)) as Ho.
  { unfold Press. destruct (pressKindOf (BtnData ev)) as [[] n]; answers; by apply once_send_press. }
  pose proof (wp_exec He (wp_and _ _ _ _ _ (fatal_Press ev w) (Ho w))) as [Hf [H|[Hn H]]]; [by left|].
  right. split; [|done]. destruct r as [e|]; [|done]. by exists e.
Qed.

(** ** Keys a button press sends *)

Definition keys_sent (w : world) : list (string * list string) :=
  omap (λ e, match e with Ev o _ => match o with HerdrSendKeys pane keys => Some (pane, keys) | _ => None end end) (trace w).

(** The dialog on the screen has the shape of the keyboard. *)
Definition same_dialog (kb : keyboard) (d : Dialog) : Prop :=
  Choices d ≠ [] ∧ length (Choices d) = length (kbChoices kb) ∧ Multi d = kbMulti kb ∧ TextEntry d = kbTextEntry kb.

(** The agent waits for an answer: it is blocked, or it is called working and
    the screen just read still shows the keyboard's dialog. *)
Definition waiting_for (key : Key) (kb : keyboard) (agent : Agent) (h : list (event appE)) : Prop :=
  AStatus agent = StatusBlocked ∨
  AStatus agent = StatusWorking ∧ ∃ s o,
    Ev (HerdrReadScreen (PaneID key) ScreenDetection blockedLines) (Ok s) ∈ h ∧
    same_dialog kb (ParseDialog (cleanScreen (SText s) (PostsChrome o)).1).

(** The rows a Submit goes by: of the multi-select dialog on the screen, just
    read, or else the ones the keyboard keeps. *)
Definition submit_rows (key : Key) (kb : keyboard) (d : Dialog) (h : list (event appE)) : Prop :=
  d = mkDialog [] false 0 "" (kbCursor kb) (kbSubmitRow kb) ∨
  Multi d = true ∧ ∃ s o, Ev (HerdrReadScreen (PaneID key) ScreenDetection blockedLines) (Ok s) ∈ h
    ∧ d = ParseDialog (cleanScreen (SText s) (PostsChrome o)).1.

(** What a button names, and so types: Submit of a multi-select keyboard the
    keys to its submit row; a digit itself, whether or not the keyboard has a
    choice of that number; the free-text row the digit of the keyboard's
    entry. *)
Definition types (key : Key) (kb : keyboard) (data : string) (keys : list string) (h : list (event appE)) : Prop :=
  data = submitData ∧ kbMulti kb = true ∧ (∃ d, keys = SubmitKeys d ∧ submit_rows key kb d h) ∨
  keys = [data] ∧ (∃ n, atoi data = Some n ∧ 1 ≤ n ≤ 9) ∨
  keys = [itoa (kbTextEntry kb)] ∧ has_prefix data textEntryPrefix = true
    ∧ atoi (trim_prefix data textEntryPrefix) = Some (kbTextEntry kb) ∧ 1 ≤ kbTextEntry kb ≤ 9.

Definition pressed_for (ev : ButtonPressed) (before : outbound) (h : list (event appE)) (pane : string) (keys : list string) : Prop :=
  ∃ key kb agent,
    pane = PaneID key ∧ Ev (KeyOfThread (BtnThreadID ev)) (Some key) ∈ h ∧
    keyboards before !! key = Some kb ∧ kbMessage kb = BtnMessageID ev ∧ kbWaiting kb = false ∧
    Ev (AgentOf key) (Some agent) ∈ h ∧ waiting_for key kb agent h ∧ types key kb (BtnData ev) keys h.

Lemma keyless_retire key : frames keys_sent (retire key).
Proof. unfold retire, endTyping, edit_buttons, absorb. framed. Qed.
Lemma keyless_answer c t : frames keys_sent (answer c t).
Proof. unfold answer, absorb. framed. Qed.
Lemma keyless_edit m bs : frames keys_sent (edit_buttons m bs).
Proof. unfold edit_buttons, absorb. framed. Qed.
Lemma keyless_read key lines : frames keys_sent (read_clean key lines).
Proof. unfold read_clean, clean, opts. framed. Qed.
Hint Resolve keyless_retire keyless_answer keyless_edit keyless_read : frames.
Lemma keyless_stale ev t : frames keys_sent (stale ev t).
Proof. unfold stale. framed. Qed.
Lemma keyless_open key kb s : frames keys_sent (dialogStillOpen key kb s).
Proof. unfold dialogStillOpen. framed. Qed.
Lemma keyless_submitKeys key kb : frames keys_sent (submitKeys key kb).
Proof. unfold submitKeys. framed. Qed.
Lemma keyless_pressed key kb ev kind n : frames keys_sent (pressed key kb ev kind n).
Proof. unfold pressed, pressedText, follow_up. framed. Qed.
Hint Resolve keyless_stale keyless_open keyless_submitKeys keyless_pressed : frames.

Lemma wp_submitKeys key kb w : wp anything (submitKeys key kb) w (λ keys w', ∃ d, keys = SubmitKeys d ∧ submit_rows key kb d (trace w')).
Proof.
  unfold submitKeys, read_clean, clean, opts. intros [sc|e] _; cbn; [|by eexists; split; [|left]]. intros o _. cbn.
  destruct (Multi (ParseDialog _)) eqn:Hm; [|by eexists; split; [|left]]. eexists. split; [done|]. right. split; [done|]. exists sc, o.
  split; [set_solver|done].
Qed.

Lemma submit_rows_later key kb d h l : submit_rows key kb d h → submit_rows key kb d (l ++ h).
Proof. intros [->|(Hm & sc & o & Hin & ->)]; [by left|right]. split; [done|]. exists sc, o. split; [set_solver|done]. Qed.

(** The keys of a press, by its kind. *)
Definition keys_of (key : Key) (kb : keyboard) (data : string) (kind : pressKind) (n : Z) (keys : list string) (h : list (event appE)) : Prop :=
  match kind with
  | pressText => keys = [itoa n]
  | pressSubmit => ∃ d, keys = SubmitKeys d ∧ submit_rows key kb d h
  | _ => keys = [data]
  end.

Lemma keys_of_later key kb data kind n keys h l : keys_of key kb data kind n keys h → keys_of key kb data kind n keys (l ++ h).
Proof. destruct kind; [done..| |done]. intros (d & -> & Hr). exists d. split; [done|]. by apply submit_rows_later. Qed.

(** Sending is one call, after which nothing more is sent. *)
Lemma wp_send_press key kb ev kind n w :
  wp anything (send_press error_text key kb ev kind n) w (λ _ w',
    ∃ keys, keys_sent w' = (PaneID key, keys) :: keys_sent w ∧ keys_of key kb (BtnData ev) kind n keys (trace w')).
Proof.
  unfold send_press. apply wp_bind.
  eapply wp_mono; [|apply wp_and with (Q' := λ keys w', keys_of key kb (BtnData ev) kind n keys (trace w')); [|by destruct kind; [..|apply wp_submitKeys|]]].
  2: { assert (frames keys_sent match kind with pressText => Ret [itoa n] | pressSubmit => submitKeys key kb | _ => Ret [BtnData ev] end)
         as H by (destruct kind; framed). exact (H w). }
  cbn. intros keys w1 [<- Hk] err _. set (w2 := told _ _ _).
  assert (keys_sent w2 = (PaneID key, keys) :: keys_sent w1) as H2 by done.
  apply (keys_of_later _ _ _ _ _ _ _ [Ev (HerdrSendKeys (PaneID key) keys) err]) in Hk. change (_ ++ trace w1) with (trace w2) in Hk. clearbody w2.
  eapply wp_mono; [|apply wp_and; [|apply wp_grows]; assert (frames keys_sent match err with
                      | Some e => bind (retire key) (λ e0, match e0 with Some e1 => Ret (Some e1) | None =>
                           answer (CallbackID ev) ("⚠️ " +:+ failureReason error_text e) end)
                      | None => pressed key kb ev kind n end) as H by framed; apply (H w2)].
  intros r w' [-> [l ->]]. exists keys. split; [done|]. by apply keys_of_later.
Qed.

Lemma open_spec key kb s w :
  wp anything (dialogStillOpen key kb s) w (λ open w', keys_sent w' = keys_sent w ∧ st w' = st w ∧
    (∃ l, trace w' = l ++ trace w) ∧ (open = true → s = StatusWorking ∧ ∃ sc o,
      Ev (HerdrReadScreen (PaneID key) ScreenDetection blockedLines) (Ok sc) ∈ trace w' ∧
      same_dialog kb (ParseDialog (cleanScreen (SText sc) (PostsChrome o)).1))).
Proof.
  apply wp_and; [apply keyless_open|]. apply wp_and.
  { assert (frames st (dialogStillOpen key kb s)) as H by (unfold dialogStillOpen, read_clean, clean, opts; framed). apply H. }
  apply wp_and; [apply wp_grows|]. unfold dialogStillOpen. destruct (String.eqb_spec s StatusWorking) as [->|]; cbn; [|done].
  intros [sc|e] _; cbn; [|done]. intros o _. cbn. intros H. split; [done|]. exists sc, o. split; [set_solver|].
  rewrite !andb_true_iff, negb_true_iff, Nat.eqb_neq, Nat.eqb_eq, Z.eqb_eq in H. destruct H as [[[Hn Hl] Hm] Ht].
  unfold same_dialog. split_and!; [|done|by apply eqb_prop|done]. intros E'. by rewrite E' in Hn.
Qed.

Lemma pressKindOf_spec data kind n :
  pressKindOf data = (kind, n) →
  match kind with
  | pressUnknown => True
  | pressSubmit => data = submitData
  | pressDigit => atoi data = Some n ∧ 1 ≤ n ≤ 9
  | pressText => has_prefix data textEntryPrefix = true ∧ atoi (trim_prefix data textEntryPrefix) = Some n ∧ 1 ≤ n ≤ 9
  end.
Proof.
  unfold pressKindOf. destruct (String.eqb_spec data submitData) as [->|]; [by intros [= <- <-]|].
  destruct (atoi (trim_prefix data textEntryPrefix)) as [m|] eqn:Ha; [|by intros [= <- <-]].
  destruct ((m <? 1) || (9 <? m)) eqn:Hr; [by intros [= <- <-]|]. apply orb_false_iff in Hr as [H1 H2].
  destruct (has_prefix data textEntryPrefix) eqn:Hp; intros [= <- <-]; [split_and!; [done|done|lia..]|].
  unfold trim_prefix in Ha. unfold has_prefix in Hp. destruct (cut_prefix data textEntryPrefix); [done|]. split; [done|lia].
Qed.

Lemma types_named key kb kind n data keys h :
  pressKindOf data = (kind, n) → kind ≠ pressUnknown → not_offered kb kind n = false → keys_of key kb data kind n keys h →
  kbWaiting kb = false ∧ types key kb data keys h.
Proof.
  intros Hk Hu Ho Hkeys. apply orb_false_iff in Ho as [Ho Hw]. split; [done|]. unfold types.
  pose proof (pressKindOf_spec _ _ _ Hk) as Hs. destruct kind; [done|..].
  - right. left. split; [done|]. by exists n.
  - left. apply negb_false_iff in Ho. done.
  - right. right. apply orb_false_iff in Ho as [H1%Z.eqb_neq H2]. apply negb_false_iff, Z.eqb_eq in H2. by subst.
Qed.

Lemma keyless_wp {A} (p : prog A) w (Q : A → world → Prop) :
  frames keys_sent p → (∀ a w', keys_sent w' = keys_sent w → Q a w') → wp anything p w Q.
Proof. intros Hp HQ. eapply wp_mono; [|apply Hp]. apply HQ. Qed.

(** C19: a button press types something into a pane at most once, only for the
    latest keyboard of the agent whose topic it was pressed in, and only while
    the agent waits for an answer; what it types is what the button names:
    the one digit of its data, the digit of the keyboard's own free-text row,
    or, on a multi-select keyboard, the keys from the cursor to the submit row
    of the screen.  A digit is not checked against the keyboard's choices
    ([digit_beyond_the_choices]). *)
Theorem press_types_button ev w r w' :
  exec anything (Press error_text ev) w r w' →
  keys_sent w' = keys_sent w ∨
  ∃ pane keys, keys_sent w' = (pane, keys) :: keys_sent w ∧ pressed_for ev (st w) (trace w') pane keys.
Proof.
  intros He. refine (wp_exec He (Q := λ _ w', keys_sent w' = keys_sent w ∨
    ∃ pane keys, keys_sent w' = (pane, keys) :: keys_sent w ∧ pressed_for ev (st w) (trace w') pane keys) _).
  unfold Press. cbn [bind ask call wp]. intros mkey _. set (w1 := told _ _ w).
  destruct mkey as [key|]; [|apply keyless_wp; [apply keyless_stale|by left]].
  destruct (String.eqb _ doneData); [apply keyless_wp; [apply keyless_answer|by left]|].
  destruct (pressKindOf (BtnData ev)) as [kind n] eqn:Hkind.
  destruct (decide (kind = pressUnknown)) as [->|Hu]; [apply keyless_wp; [apply keyless_stale|by left]|].
  assert (∀ x y : prog (option error), match kind with pressUnknown => x | _ => y end = y) as -> by (intros; by destruct kind).
  cbn [bind gets wp fst snd]. destruct (keyboards (st w1) !! key) as [kb|] eqn:Hkb; [|apply keyless_wp; [apply keyless_stale|by left]].
  destruct (negb _) eqn:Hm; [apply keyless_wp; [apply keyless_stale|by left]|].
  destruct (not_offered _ _ _) eqn:Hoff; [apply keyless_wp; [apply keyless_stale|by left]|].
  apply negb_false_iff, Z.eqb_eq in Hm.
  cbn [bind ask call wp]. intros magent _. set (w2 := told _ _ (put _ _)).
  destruct magent as [agent|].
  2: { assert (frames keys_sent (must retire key; answer (CallbackID ev) "agent has exited")) as H by framed.
       apply keyless_wp; [exact H|]. by left. }
  apply wp_bind. eapply wp_mono with (Q := λ open w3, keys_sent w3 = keys_sent w ∧ (∃ l, trace w3 = l ++ trace w2) ∧
    (open = true → waiting_for key kb agent (trace w3))).
  2: { destruct (String.eqb_spec (AStatus agent) StatusBlocked) as [Hb|].
       - split; [done|]. split; [by exists []|]. intros _. by left.
       - eapply wp_mono; [|apply open_spec]. intros open w3 (H1 & _ & H2 & H3). split_and!; [by rewrite H1|done|].
         intros ?. right. by apply H3. }
  intros open w3 (Hks & [l2 Hl2] & Hwait). destruct open; cbn [negb].
  2: { assert (frames keys_sent (must retire key; answer (CallbackID ev) "agent is not waiting anymore")) as H by framed.
       apply keyless_wp; [exact H|]. intros ?? ->. by left. }
  eapply wp_mono; [|apply wp_and; [apply wp_send_press|apply wp_grows]].
  intros e w4 [(keys & Hsent & Hkeys) [l4 Hl4]]. right. exists (PaneID key), keys. rewrite Hsent, Hks. split; [done|].
  destruct (types_named _ _ _ _ _ _ _ Hkind Hu Hoff Hkeys) as [Hnw Hty].
  rewrite Hl4, Hl2 in Hty. exists key, kb, agent. rewrite Hl4, Hl2. cbn [trace w2 told put]. split_and!; try done; [set_solver..|].
  destruct (Hwait eq_refl) as [Hb|(Hs & sc & o & Hin & Hd)]; [by left|]. right. split; [done|]. exists sc, o.
  split; [|done]. rewrite Hl2 in Hin. set_solver.
Qed.

(** ** Reactions *)

Definition reactions (w : world) : list (Z * Z * string) :=
  omap (λ e, match e with Ev o _ => match o with TgReact th m emoji => Some (th, m, emoji) | _ => None end end) (trace w).
Definition reacted_with (emoji : string) (th m : Z) (w : world) : nat :=
  length (filter (λ r, r = (th, m, emoji)) (reactions w)).

Definition owes (th m : Z) (t : turn) : Prop := tReacted t = true ∧ tThread t = th ∧ tMessage t = m.
#[local] Instance owes_dec th m t : Decision (owes th m t).
Proof. unfold owes. apply _. Defined.
Definition owed (th m : Z) (ts : gmap Key turn) : nat := size (filter (λ kt, owes th m kt.2) ts).

(** Every 👌 was preceded by its own 👀, those still owed included. *)
Definition Paid (w : world) : Prop :=
  ∀ th m, (reacted_with reactionDone th m w + owed th m (turns (st w)) ≤ reacted_with reactionTaken th m w)%nat.

Lemma owed_insert th m key t ts :
  owed th m (<[key := t]> ts) = (owed th m (delete key ts) + if decide (owes th m t) then 1 else 0)%nat.
Proof.
  unfold owed. rewrite <-insert_delete_eq, map_filter_insert. cbn. case_decide.
  - rewrite map_size_insert_None; [lia|]. apply map_lookup_filter_None. left. apply lookup_delete_eq.
  - rewrite delete_id; [lia|]. apply lookup_delete_eq.
Qed.

Lemma owed_lookup th m key t ts :
  ts !! key = Some t → owed th m ts = (owed th m (delete key ts) + if decide (owes th m t) then 1 else 0)%nat.
Proof. intros H. rewrite <-owed_insert, insert_id; done. Qed.

Lemma owed_delete th m key ts : (owed th m (delete key ts) ≤ owed th m ts)%nat.
Proof. destruct (ts !! key) as [t|] eqn:H; [rewrite (owed_lookup _ _ _ _ _ H); lia|by rewrite delete_id]. Qed.

Definition seen (w : world) : gmap Key turn * list (Z * Z * string) := (turns (st w), reactions w).

Lemma Paid_seen w w' : seen w' = seen w → Paid w → Paid w'.
Proof. intros [= Ht Hr] H th m. unfold reacted_with. rewrite Ht, Hr. apply H. Qed.

Lemma Paid_frames {A} (p : prog A) w : frames seen p → Paid w → wp anything p w (λ _, Paid).
Proof. intros Hp Hw. eapply wp_mono; [|apply Hp]. intros a w' H. exact (Paid_seen _ _ H Hw). Qed.

(** A new record of a turn owes nothing the old one did not. *)
Lemma Paid_set key t w :
  (∀ th m, owes th m t → ∃ t', turns (st w) !! key = Some t' ∧ owes th m t') → Paid w →
  Paid (put (on_turns (insert key t) (st w)) w).
Proof.
  intros Ht Hw th m. specialize (Hw th m). change (reacted_with ?e th m (put _ w)) with (reacted_with e th m w).
  cbn [st put turns on_turns]. rewrite owed_insert. pose proof (owed_delete th m key (turns (st w))). case_decide as Ho; [|lia].
  destruct (Ht th m Ho) as (t' & Hl & Ho'). rewrite (owed_lookup _ _ _ _ _ Hl), decide_True in Hw; [lia|done].
Qed.

Lemma Paid_drop key w : Paid w → Paid (put (on_turns (delete key) (st w)) w).
Proof.
  intros Hw th m. specialize (Hw th m). change (reacted_with ?e th m (put _ w)) with (reacted_with e th m w).
  cbn [st put turns on_turns]. pose proof (owed_delete th m key (turns (st w))). lia.
Qed.

Lemma reacted_told emoji th m t e b w :
  reacted_with emoji th m (told (TgReact (tThread t) (tMessage t) e) b w) =
  (reacted_with emoji th m w + if decide ((tThread t, tMessage t, e) = (th, m, emoji)) then 1 else 0)%nat.
Proof.
  unfold reacted_with. change (reactions (told _ b w)) with ((tThread t, tMessage t, e) :: reactions w).
  rewrite filter_cons. case_decide; cbn; lia.
Qed.

Lemma done_not_taken : reactionDone ≠ reactionTaken.
Proof. done. Qed.

(** A turn that ends pays what it owes. *)
Lemma Paid_done key t b w :
  turns (st w) !! key = Some t → tReacted t = true → Paid w →
  Paid (told (TgReact (tThread t) (tMessage t) reactionDone) b (put (on_turns (delete key) (st w)) w)).
Proof.
  intros Hl Hr Hw th m. specialize (Hw th m). rewrite !reacted_told. rewrite (owed_lookup th m _ _ _ Hl) in Hw.
  change (reacted_with ?e th m (put _ w)) with (reacted_with e th m w). cbn [st told put turns on_turns].
  rewrite (decide_False (P := (_, reactionDone) = (_, reactionTaken))) by (intros [= _ _ ?]; by apply done_not_taken).
  destruct (decide ((_, reactionDone) = (_, reactionDone))) as [[= <- <-]|Hn]; [rewrite decide_True in Hw by done; lia|].
  case_decide; lia.
Qed.

(** Taking a prompt: the 👀 asked for covers the new turn. *)
Lemma Paid_taken key t t' b w :
  tThread t = tThread t' → tMessage t = tMessage t' → Paid w →
  let w' := told (TgReact (tThread t) (tMessage t) reactionTaken) b w in
  Paid w' ∧ Paid (put (on_turns (insert key t') (st w')) w').
Proof.
  intros Hth Hm Hw w'. split; intros th m; specialize (Hw th m);
    change (reacted_with ?e th m (put _ w')) with (reacted_with e th m w'); unfold w'; rewrite !reacted_told;
    rewrite (decide_False (P := (_, reactionTaken) = (_, reactionDone))) by (intros [= _ _ ?]; by apply done_not_taken);
    cbn [st told put turns on_turns]; [lia|].
  rewrite owed_insert. pose proof (owed_delete th m key (turns (st w))).
  destruct (decide (owes th m t')) as [(_ & H1 & H2)|]; [|lia]. rewrite decide_True; [lia|]. congruence.
Qed.

Definition keeps {A} (p : prog A) : Prop := ∀ w, Paid w → wp anything p w (λ _, Paid).

Lemma keeps_frames {A} (p : prog A) : frames seen p → keeps p.
Proof. intros Hp w. by apply Paid_frames. Qed.
Lemma keeps_bind {A B} (p : prog A) (k : A → prog B) : keeps p → (∀ a, keeps (k a)) → keeps (bind p k).
Proof. intros Hp Hk w Hw. apply wp_bind. eapply wp_mono; [|by apply Hp]. intros a w'. apply Hk. Qed.
Lemma keeps_drop key : keeps (drop_turn key).
Proof. intros w Hw. cbn. by apply Paid_drop. Qed.
Lemma keeps_fresh key now : keeps (set_turn key (mkTurn 0 0 now false false)).
Proof. intros w Hw. cbn. apply Paid_set; [|done]. by intros th m [? _]. Qed.
Lemma keeps_each {A} (p : A → prog (option error)) l : (∀ x, keeps (p x)) → keeps (each p l).
Proof.
  intros H. induction l as [|x l IH]; [by intros w|]. apply keeps_bind; [done|].
  intros [e|]; [by intros w|exact IH].
Qed.

(** A part that never touches the turns, by a walk over it. *)
Ltac unseen := apply keeps_frames; framed.

Lemma blind_retire key : frames seen (retire key).
Proof. unfold retire, endTyping, edit_buttons, absorb. framed. Qed.
Lemma blind_edit m bs : frames seen (edit_buttons m bs).
Proof. unfold edit_buttons, absorb. framed. Qed.
Lemma blind_answer c t : frames seen (answer c t).
Proof. unfold answer, absorb. framed. Qed.
Lemma blind_clean text : frames seen (clean text).
Proof. unfold clean, opts. framed. Qed.
Lemma blind_opts : frames seen opts.
Proof. unfold opts. framed. Qed.
Hint Resolve blind_retire blind_edit blind_answer blind_clean blind_opts : frames.
Lemma blind_read key lines : frames seen (read_clean key lines).
Proof. unfold read_clean. framed. Qed.
Lemma blind_stale ev t : frames seen (stale ev t).
Proof. unfold stale. framed. Qed.
Hint Resolve blind_read blind_stale : frames.
Lemma blind_ring ops out reached closed : frames seen (ring ops out reached closed).
Proof. revert reached closed. induction ops as [|op ops IH]; intros; cbn [ring]; framed; apply IH. Qed.
Hint Resolve blind_ring : frames.
Lemma blind_page agent thread m text d : frames seen (page chatID operators agent thread m text d).
Proof. unfold page. framed. Qed.
Lemma blind_refresh key m lines : frames seen (refreshKeyboard hashText key m lines).
Proof. unfold refreshKeyboard, absorb. framed. Qed.
Lemma blind_capture key agent lines d : frames seen (delayedCapture key agent lines d).
Proof. unfold delayedCapture. framed. Qed.
Hint Resolve blind_page blind_refresh blind_capture : frames.
Lemma blind_content key agent t lines force : frames seen (take_content replies key agent t lines force).
Proof. unfold take_content, read_reply. framed. Qed.
Lemma blind_send_post key agent entry c n : frames seen (send_post hashText chatID operators key agent entry c n).
Proof. unfold send_post, paging. framed. Qed.
Hint Resolve blind_content blind_send_post : frames.
Lemma blind_fire_post key agent t lines force : frames seen (fire_post hashText chatID operators replies key agent t lines force).
Proof. unfold fire_post, short_turn, notify_for, skip. framed. Qed.
Lemma blind_submit key kb : frames seen (submitKeys key kb).
Proof. unfold submitKeys. framed. Qed.
Lemma blind_open key kb s : frames seen (dialogStillOpen key kb s).
Proof. unfold dialogStillOpen. framed. Qed.
Hint Resolve blind_fire_post blind_submit blind_open : frames.
Lemma blind_pressed key kb ev kind n : frames seen (pressed key kb ev kind n).
Proof. unfold pressed, pressedText, follow_up. framed. Qed.
Hint Resolve blind_pressed : frames.
Lemma blind_press ev : frames seen (Press error_text ev).
Proof. unfold Press, send_press. framed. Qed.
Lemma blind_mark key w t : frames seen (markTyping key w t).
Proof. unfold markTyping. framed. Qed.
Hint Resolve blind_press blind_mark : frames.

(** The turn read is the one of the state. *)
Lemma wp_turn {B} key (k : option turn → prog B) w Q :
  wp anything (k (turns (st w) !! key)) w Q → wp anything (bind (gets (λ o, turns o !! key)) k) w Q.
Proof. by destruct w. Qed.

Lemma keeps_again key t t' w :
  turns (st w) !! key = Some t → tThread t' = tThread t → tMessage t' = tMessage t → tReacted t' = tReacted t →
  Paid w → wp anything (set_turn key t') w (λ _, Paid).
Proof.
  intros Ht H1 H2 H3 Hw. cbn. apply Paid_set; [|done]. intros th m (? & ? & ?). exists t. split; [done|].
  unfold owes. split_and!; congruence.
Qed.

Lemma keeps_observeTurn ev : keeps (observeTurn ev).
Proof.
  intros w Hw. unfold observeTurn. apply wp_turn.
  destruct (turns (st w) !! event_key ev) as [t|] eqn:Ht; destruct (AEKind ev);
    try (apply keeps_bind; [apply keeps_drop|intros; unseen|done]); try (apply Paid_frames; [framed; fail|done]).
  all: destruct (String.eqb _ StatusWorking);
    [|destruct (String.eqb _ StatusIdle); [apply Paid_frames; [framed|done]|]].
  all: try (destruct (String.eqb _ StatusDone)); try (apply Paid_frames; [framed; fail|done]).
  all: cbn [bind ask call wp]; intros [] _.
  all: try (destruct (tEnded t); [|destruct (is_zero _)]); try (cbn [bind ask call wp]; intros now _);
    match goal with
    | |- wp _ (set_turn _ (mkTurn 0 _ _ _ _)) _ _ => apply keeps_fresh; exact Hw
    | |- wp _ (set_turn _ _) _ _ => eapply keeps_again; [exact Ht|reflexivity..|exact Hw]
    | |- _ => exact Hw
    end.
Qed.

Lemma keeps_pay key t w :
  turns (st w) !! key = Some t → Paid w →
  wp anything (finishTurn t) (put (on_turns (delete key) (st w)) w) (λ _, Paid).
Proof.
  intros Ht Hw. unfold finishTurn. destruct (tReacted t) eqn:Hr; cbn [negb]; [|by apply Paid_drop].
  cbn [bind opts ask call wp]. intros o _. destruct (PostsReactions o).
  - cbn. intros b _. exact (Paid_done key t b w Ht Hr Hw).
  - cbn. exact (Paid_drop key w Hw).
Qed.

Lemma keeps_EndTurn key : keeps (EndTurn key).
Proof.
  intros w Hw. unfold EndTurn. apply wp_turn. destruct (turns (st w) !! key) as [t|] eqn:Ht; [|done].
  cbn [bind ask call wp]. intros [a|] _; [|done]. destruct (String.eqb _ StatusIdle); [|done].
  cbn [bind drop_turn modify wp fst snd]. set (w1 := told _ _ w). exact (keeps_pay key t w1 Ht Hw).
Qed.

Lemma keeps_PromptSent key thread message : keeps (PromptSent key thread message).
Proof.
  unfold PromptSent. apply keeps_bind; [unseen|]. intros agent. apply keeps_bind; [unseen|]. intros started.
  apply keeps_bind; [unseen|]. intros _. apply keeps_bind; [unseen|]. intros o w Hw. destruct (PostsReactions o).
  - set (t := mkTurn thread message started false false). set (t' := mkTurn thread message started true false).
    unfold react, absorb, nil_, set_turn, modify, ask, call. cbn [bind wp fst snd]. intros b _.
    destruct (Paid_taken key t t' b w eq_refl eq_refl Hw) as [H1 H2]. destruct (fatal_only b); cbn; [exact H1|exact H2].
  - apply wp_bind. cbn. apply Paid_set; [by intros th m [? _]|exact Hw].
Qed.

Lemma keeps_fire key force : keeps (fire hashText chatID operators replies key force).
Proof.
  unfold fire. apply keeps_bind; [unseen|]. intros [agent|]; [|unseen]. apply keeps_bind; [|intros; unfold skip; unseen].
  intros w Hw. unfold end_done_turn. destruct (String.eqb _ StatusDone); [|done].
  apply wp_turn. destruct (turns (st w) !! key) as [t|] eqn:Ht; [|done].
  cbn [bind drop_turn modify wp fst snd ask call]. intros [] _. apply wp_bind. eapply wp_mono; [|exact (keeps_pay key t (told (Cancel TurnTimer key) tt w) Ht Hw)].
  done.
Qed.

Lemma keeps_Observe ev : keeps (Observe ev).
Proof. unfold Observe. apply keeps_bind; [apply keeps_observeTurn|intros; unseen]. Qed.

Lemma keeps_serve h : keeps (serve h).
Proof.
  destruct h; cbn [serve].
  - apply keeps_PromptSent.
  - apply keeps_bind; [apply keeps_Observe|intros; unseen].
  - unfold Live_post. unseen.
  - unfold Forget, endTyping. do 4 (apply keeps_bind; [unseen|intros _]).
    apply keeps_bind; [apply keeps_drop|intros _]. unseen.
  - apply keeps_fire.
  - apply keeps_EndTurn.
  - unseen.
  - unfold TypingDone. unseen.
  - unfold TakeTyping, endTyping. unseen.
  - unfold CancelTyping, endTyping. unseen.
  - unfold CatchUp. apply keeps_bind; [unseen|]. intros l. apply keeps_each. intros a. unfold catch_up, skip.
    destruct (negb _); [unseen|]. apply keeps_bind; [unseen|]. intros o. destruct o.1; [unseen|].
    apply keeps_bind; [unfold opts; unseen|]. intros again. destruct (negb again); [unseen|apply keeps_fire].
Qed.

Lemma Paid_start : Paid (mkWorld newOutbound []).
Proof.
  intros t n. change (0 + size (filter (λ kt, owes t n kt.2) (∅ : gmap Key turn)) ≤ 0)%nat. by rewrite map_filter_empty.
Qed.

(** ** Posts of settled screens *)

Definition posts (w : world) : list Outgoing :=
  omap (λ e, match e with Ev o _ => match o with TgSend out => Some out | _ => None end end) (trace w).

(** What the filters of [fire] let through: the agent is blocked or done, sync
    is on, its topic is live and not muted, quiet mode does not hold posts
    back, and the text is neither empty nor the one posted last. *)
Definition due (key : Key) (last : option string) (h : list (event appE)) (out : Outgoing) : Prop :=
  ∃ agent entry o q,
    Ev (AgentOf key) (Some agent) ∈ h ∧ (AStatus agent = StatusBlocked ∨ AStatus agent = StatusDone) ∧
    Ev OptionsNow o ∈ h ∧ SyncEnabled o = true ∧
    Ev (EntryOf key) (Some entry) ∈ h ∧ Live (EStatus entry) = true ∧ Muted entry = false ∧
    Ev Quiet q ∈ h ∧ (q = true → ∃ o', Ev OptionsNow o' ∈ h ∧ QuietPosts o' ≠ PostsHeld) ∧
    OThreadID out = ThreadID entry ∧ OText out ≠ "" ∧ default EmptyString last ≠ hashText (OText out) ∧
    (ONotify out = true → AStatus agent = StatusBlocked).

Definition notice (out : Outgoing) : Prop := out = plain_post 0 pagerNotice false.

(** The posts and what is remembered of the last one. *)
Definition posted (w : world) : list Outgoing * gmap Key string := (posts w, lastPosted (st w)).

Lemma silent_retire key : frames posted (retire key).
Proof. unfold retire, endTyping, edit_buttons, absorb. framed. Qed.
Lemma silent_clean text : frames posted (clean text).
Proof. unfold clean, opts. framed. Qed.
Lemma silent_opts : frames posted opts.
Proof. unfold opts. framed. Qed.
Hint Resolve silent_retire silent_clean silent_opts : frames.
Lemma silent_read key lines : frames posted (read_clean key lines).
Proof. unfold read_clean. framed. Qed.
Hint Resolve silent_read : frames.
Lemma silent_capture key agent lines d : frames posted (delayedCapture key agent lines d).
Proof. unfold delayedCapture. framed. Qed.
Hint Resolve silent_capture : frames.
Lemma silent_content key agent t lines force : frames posted (take_content replies key agent t lines force).
Proof. unfold take_content, read_reply. framed. Qed.
Lemma silent_short agent t : frames posted (short_turn agent t).
Proof. unfold short_turn. framed. Qed.
Lemma silent_notify agent force : frames posted (notify_for agent force).
Proof. unfold notify_for. framed. Qed.
Lemma silent_ended key agent : frames posted (end_done_turn key agent).
Proof. unfold end_done_turn, finishTurn, react, absorb, drop_turn. framed. Qed.
Lemma silent_ring ops out reached closed : frames posted (ring ops out reached closed).
Proof. revert reached closed. induction ops as [|op ops IH]; intros; cbn [ring]; framed; apply IH. Qed.
Lemma silent_paging : frames posted (paging operators).
Proof. unfold paging. framed. Qed.
Hint Resolve silent_content silent_short silent_notify silent_ended silent_ring silent_paging : frames.

(** The pager posts at most its notice. *)
Lemma wp_page agent thread m text d w :
  wp anything (page chatID operators agent thread m text d) w (λ _ w', ∃ l, posts w' = l ++ posts w ∧ Forall notice l).
Proof.
  unfold page. apply wp_bind. eapply wp_framed; [apply silent_ring|]. intros [[reached closed] err] w1 [= Hp _] _. rewrite <-Hp.
  assert (∀ w : world, ∃ l, posts w = l ++ posts w ∧ Forall notice l) as Hnone by (intros; exists []; by split).
  destruct err; [apply Hnone|]. destruct (negb _); [apply Hnone|]. destruct (_ <? _); [apply Hnone|].
  cbn. intros [] _ r _. exists [plain_post 0 pagerNotice false]. by split; [|repeat constructor].
Qed.

Lemma wp_send_post key agent entry c n w :
  wp anything (send_post hashText chatID operators key agent entry c n) w (λ _ w',
    posts w' = posts w ∨ ∃ l n' bs fold, posts w' = l ++ post_of entry c n' bs fold :: posts w ∧ Forall notice l ∧ (n' = true → n = true)).
Proof.
  unfold send_post. apply wp_must. eapply wp_framed; [apply silent_retire|]. intros [e|] w1 [= Hp _] _; [by left|].
  apply wp_bind. assert (frames posted (if String.eqb (cMode c) DoneScreen then Ret 0 else do o ← opts; Ret (FoldAfter o))) as Hf by framed.
  eapply wp_framed; [exact Hf|]. intros fold w2 [= Hp2 _] _.
  apply wp_bind. assert (frames posted (if n && String.eqb (AStatus agent) StatusBlocked then paging operators else Ret false)) as Hg by framed.
  eapply wp_framed; [exact Hg|]. intros paged w3 [= Hp3 _] _.
  set (bs := if String.eqb (AStatus agent) StatusBlocked then _ else _). set (out := post_of _ _ _ _ _).
  cbn [bind ask call wp]. intros r _. set (w4 := told _ _ w3).
  assert (posts w4 = out :: posts w) as H4 by (change (out :: posts w3 = out :: posts w); congruence).
  assert (∀ w5 : world, posts w5 = posts w4 → posts w5 = posts w ∨ ∃ l n' bs fold,
    posts w5 = l ++ post_of entry c n' bs fold :: posts w ∧ Forall notice l ∧ (n' = true → n = true)) as Hone.
  { intros w5 H5. right. exists [], (n && negb paged), bs, fold. rewrite H5, H4. split_and!; [done|done|].
    by intros [? _]%andb_prop. }
  destruct r as [id|e]; [|by apply Hone].
  cbn [bind modify wp fst snd]. apply wp_bind.
  assert (frames posts (match bs with [] => Ret tt | _ => modify (on_keyboards (insert key (keyboard_of id
    (if String.eqb (AStatus agent) StatusBlocked then ParseDialog (cText c) else noDialog)))) end : prog unit)) as Hk by framed.
  eapply wp_mono; [|apply Hk]. intros [] w5 H5. change (posts w5 = posts w4) in H5. destruct paged.
  - apply wp_bind. eapply wp_mono; [|apply wp_page]. intros [rang err] w6 (l & Hl & Hn). cbn [fst snd].
    assert (posts w6 = l ++ post_of entry c (n && negb true) bs fold :: posts w) as H6 by (rewrite Hl, H5, H4; done).
    destruct err as [e|]; [|destruct rang]; right; exists l, (n && negb true), bs, fold;
      (split_and!; [exact H6|exact Hn|by intros [? _]%andb_prop]).
  - destruct (n && _); cbn [bind modify wp fst snd nil_]; by apply Hone.
Qed.

(** Whether and how loud quiet mode lets a post through. *)
Lemma wp_notify_for agent w :
  wp anything (notify_for agent false) w (λ n w', ∀ b, n = Some b →
    (b = true → AStatus agent = StatusBlocked) ∧
    ∃ q, Ev Quiet q ∈ trace w' ∧ (q = true → ∃ o, Ev OptionsNow o ∈ trace w' ∧ QuietPosts o ≠ PostsHeld)).
Proof.
  unfold notify_for. cbn. intros q _. destruct q; cbn.
  - intros o _. destruct (String.eqb_spec (QuietPosts o) PostsHeld) as [|Hh]; [done|].
    assert (∃ q, Ev Quiet q ∈ trace (told OptionsNow o (told Quiet true w)) ∧
      (q = true → ∃ o', Ev OptionsNow o' ∈ trace (told OptionsNow o (told Quiet true w)) ∧ QuietPosts o' ≠ PostsHeld)) as Hq.
    { exists true. split; [set_solver|]. intros _. exists o. split; [set_solver|done]. }
    destruct (String.eqb _ PostsSilent); cbn; intros b [= <-]; (split; [|exact Hq]); [done|by intros ?%String.eqb_eq].
  - intros b [= <-]. split; [by intros ?%String.eqb_eq|]. exists false. split; [set_solver|done].
Qed.

(** A post of one settled screen, and what is only a notice. *)
Definition posts_due (key : Key) (before : world) (w' : world) : Prop :=
  ∃ l, posts w' = l ++ posts before ∧
    (l = [] ∨ ∃ notices out, l = notices ++ [out] ∧ Forall notice notices ∧
                due key (lastPosted (st before) !! key) (trace w') out).

Lemma posts_due_none key before w' : posts w' = posts before → posts_due key before w'.
Proof. intros H. exists []. split; [done|by left]. Qed.

Lemma wp_fire_post key agent t lines w0 w o :
  posted w = posted w0 → Ev (AgentOf key) (Some agent) ∈ trace w → Ev OptionsNow o ∈ trace w → SyncEnabled o = true →
  (AStatus agent = StatusBlocked ∨ AStatus agent = StatusDone) →
  wp anything (fire_post hashText chatID operators replies key agent t lines false) w (λ _, posts_due key w0).
Proof.
  intros Hw Ha Ho Hsync Hst. unfold fire_post, skip. apply wp_bind. eapply wp_framed; [apply silent_short|].
  intros short w1 H1 S1. rewrite Hw in H1. destruct short; [apply posts_due_none; by injection H1|].
  cbn [bind ask call wp]. intros entry _. set (w2 := told _ _ w1).
  assert (posted w2 = posted w0) as H2 by exact H1.
  assert (∀ w' : world, posted w' = posted w0 → posts_due key w0 w') as Hnone by (intros w' [= ? _]; by apply posts_due_none).
  destruct entry as [entry|]; [|by apply Hnone]. destruct (negb _ || _) eqn:Hlive; [by apply Hnone|].
  apply orb_false_iff in Hlive as [Hlive%negb_false_iff Hmute]. apply wp_bind.
  eapply wp_mono; [|apply wp_and; [apply wp_notify_for|apply wp_and; [apply silent_notify|apply wp_grows]]].
  intros notify w3 (Hn & H3 & [l3 Hl3]). rewrite H2 in H3. destruct notify as [notify|]; [|by apply Hnone].
  destruct (Hn _ eq_refl) as (Hloud & q & Hq & Hheld).
  apply wp_bind. eapply wp_framed; [apply silent_content|]. intros c w4 H4 S4. rewrite H3 in H4.
  destruct c as [c|]; [|by apply Hnone]. destruct (String.eqb_spec (cText c) "") as [|Htext]; [by apply Hnone|].
  cbn [bind gets wp fst snd]. set (w5 := put _ w4). assert (posted w5 = posted w0) as H5 by exact H4.
  destruct (String.eqb_spec (default EmptyString (lastPosted (st w4) !! key)) (hashText (cText c))) as [|Hnew]; [by apply Hnone|].
  cbn [andb negb]. eapply wp_mono; [|apply wp_and; [apply wp_send_post|apply wp_grows]].
  assert (posts w5 = posts w0) as -> by (by injection H5).
  intros r w6 [[Hp|(l & n' & bs & fold & Hp & Hl & Hn')] [l6 Hl6]]; [by apply posts_due_none|].
  exists (l ++ [post_of entry c n' bs fold]). rewrite Hp, <-app_assoc. split; [done|]. right. exists l, (post_of entry c n' bs fold).
  split_and!; [done|done|].
  assert (trace w2 ⊆ trace w6) as S2.
  { rewrite Hl6. change (trace w5) with (trace w4). rewrite Hl3 in S4. set_solver. }
  assert (trace w3 ⊆ trace w6) as S3 by (rewrite Hl6; change (trace w5) with (trace w4); set_solver).
  assert (trace w ⊆ trace w2) as S1' by (change (trace w2) with (Ev (EntryOf key) (Some entry) :: trace w1); set_solver).
  exists agent, entry, o, q. split_and!; try done; [by apply S2, S1'|by apply S2, S1'| |by apply S3| | |].
  - apply S2. by left.
  - intros E'. destruct (Hheld E') as (o' & ? & ?). exists o'. split; [by apply S3|done].
  - change (OText (post_of _ _ _ _ _)) with (cText c). injection H4 as _ H4. by rewrite <-H4.
  - intros E'. by apply Hloud, Hn'.
Qed.

(** A keyboard is redrawn without a post; what was posted last only changes
    when it is. *)
Lemma wp_refreshKeyboard key m lines w :
  wp anything (refreshKeyboard hashText key m lines) w (λ r w', posts w' = posts w ∧ (r.1 = false → posted w' = posted w)).
Proof.
  apply wp_and.
  { assert (frames posts (refreshKeyboard hashText key m lines)) as H by (unfold refreshKeyboard, read_clean, clean, opts, absorb; framed).
    apply H. }
  unfold refreshKeyboard. apply wp_bind. eapply wp_mono; [|apply (frames_gets posted)]. intros [kb|] w1 H1; [|intros _; exact H1].
  destruct (negb _); [intros _; exact H1|]. apply wp_bind. eapply wp_framed; [apply silent_read|]. intros [text|] w2 H2 _; [|done].
  destruct (negb _); [by rewrite <-H1, <-H2|]. cbn. done.
Qed.

(** C18: a settled screen is posted only when the agent is blocked or done,
    sync is on, its topic is live and unmuted, quiet mode does not hold posts
    back and the text is new; one post at most, and it rings only for a
    question. Anything else that is sent is the pager's notice in General. *)
Theorem settled_posts_due key w r w' :
  exec anything (Fire hashText chatID operators replies key) w r w' → posts_due key w w'.
Proof.
  intros He. refine (wp_exec He (Q := λ _, posts_due key w) _). unfold Fire, fire, skip.
  assert (∀ w' : world, posted w' = posted w → posts_due key w w') as Hnone by (intros ? [= ? _]; by apply posts_due_none).
  cbn [bind ask call wp]. intros [agent|] _; [|by apply Hnone]. apply wp_bind. set (w1 := told _ _ w).
  eapply wp_framed; [apply silent_ended|]. intros [t err] w2 H2 S2. change (posted w1) with (posted w) in H2. cbn [fst snd].
  destruct err; [by apply Hnone|]. cbn [bind opts ask call wp]. intros o _. set (w3 := told OptionsNow o w2).
  destruct (SyncEnabled o) eqn:Hs; [|by apply Hnone]. cbn [negb bind gets wp fst snd].
  set (w4 := put _ w3). assert (posted w4 = posted w) as H4 by exact H2.
  assert (Ev (AgentOf key) (Some agent) ∈ trace w4) as Ha.
  { change (trace w4) with (Ev OptionsNow o :: trace w2). right. apply S2. by left. }
  assert (Ev OptionsNow o ∈ trace w4) as Ho by by left.
  clearbody w4. apply wp_bind.
  eapply wp_mono with (Q := λ r w5, posts w5 = posts w ∧ (r.1 = false → posted w5 = posted w) ∧ trace w4 ⊆ trace w5).
  2: { destruct (refresh (st w3) !! key) as [m|]; [|split_and!; [by injection H4|by intros _|intros ?; done]].
       cbn [bind modify wp fst snd]. eapply wp_mono; [|apply wp_and; [apply wp_refreshKeyboard|apply wp_grows]].
       intros r' w5 [[Hp Hq] [l Hl]]. split_and!; [rewrite Hp; by injection H4|intros ?; by rewrite Hq|rewrite Hl; set_solver]. }
  intros [redrawn e] w5 (Hp & Hq & S5). cbn [fst snd]. destruct (redrawn || _) eqn:Hr; [by apply posts_due_none|].
  apply orb_false_iff in Hr as [-> _]. specialize (Hq eq_refl).
  destruct (String.eqb_spec (AStatus agent) StatusBlocked) as [Hb|_]; [|destruct (String.eqb_spec (AStatus agent) StatusDone) as [Hd|_]].
  - eapply wp_fire_post; [exact Hq|by apply S5|by apply S5|done|by left].
  - eapply wp_fire_post; [exact Hq|by apply S5|by apply S5|done|by right].
  - cbn. by apply Hnone.
Qed.
End Props.

(** ** A sample world: one agent with a topic, shown a dialog *)

Definition sample_key : Key := mkKey "p1" "t1".
Definition sample_agent (s : Status) : Agent := mkAgent sample_key "w1" "shop" "tab" "main" "claude" "ann" "" s 0 1 false "/home/ann".
Definition sample_screen : string :=
  join ["Do you want to proceed?"; "❯ 1. Yes"; "  2. Yes, and don't ask again"; "  3. No"] nl.

Definition sample_ports (s : Status) : oracle (E := appE) := λ B o _,
  match o in appE B return B with
  | AgentOf _ => Some (sample_agent s)
  | EntryOf _ => Some (mkEntry 7 "ann" s false false 0)
  | KeyOfThread 7 => Some sample_key
  | HerdrReadScreen _ _ _ => Ok (mkScreen sample_screen 0 false)
  | o => idle_port o
  end.
Definition start : world appE outbound := mkWorld newOutbound [].
Definition same_text (s : string) : string := s.
Definition no_text (e : error) : string := "".

(** The screen that settles is posted with its buttons and rings. *)
Definition settled : option error * world appE outbound :=
  interp (sample_ports StatusBlocked) (Fire same_text (-100) [1] true sample_key) start.

Lemma settled_posts_due_witness :
  map (λ o, (OThreadID o, ONotify o, map BData (OButtons o))) (posts settled.2) = [(7, true, ["1"; "2"; "3"])] ∧
  posts_due same_text sample_key start settled.2.
Proof.
  split; [vm_compute; reflexivity|].
  refine (settled_posts_due same_text (-100) [1] true sample_key start settled.1 settled.2 _).
  exact (interp_exec anything (sample_ports StatusBlocked) (Fire same_text (-100) [1] true sample_key) start (λ _ _ _, I)).
Defined.

Definition sample_press (data : string) : ButtonPressed := mkButtonPressed "cb" 7 100 1 data.
Definition pressed_two : option error * world appE outbound :=
  interp (sample_ports StatusBlocked) (Press no_text (sample_press "2")) settled.2.

Lemma press_answered_once_witness :
  answered pressed_two.2 = ["cb"] ∧
  (answered pressed_two.2 = "cb" :: answered settled.2 ∨
   (∃ e, pressed_two.1 = Some e ∧ isFatal e = true) ∧ answered pressed_two.2 = answered settled.2).
Proof.
  split; [vm_compute; reflexivity|].
  refine (press_answered_once no_text (sample_press "2") settled.2 pressed_two.1 pressed_two.2 _).
  exact (interp_exec anything (sample_ports StatusBlocked) (Press no_text (sample_press "2")) settled.2 (λ _ _ _, I)).
Defined.

Lemma press_types_button_witness :
  keys_sent pressed_two.2 = [("p1", ["2"])] ∧
  (keys_sent pressed_two.2 = keys_sent settled.2 ∨
   ∃ pane keys, keys_sent pressed_two.2 = (pane, keys) :: keys_sent settled.2 ∧
     pressed_for (sample_press "2") (st settled.2) (trace pressed_two.2) pane keys).
Proof.
  split; [vm_compute; reflexivity|].
  refine (press_types_button no_text (sample_press "2") settled.2 pressed_two.1 pressed_two.2 _).
  exact (interp_exec anything (sample_ports StatusBlocked) (Press no_text (sample_press "2")) settled.2 (λ _ _ _, I)).
Defined.

(** The keyboard has the choices 1 to 3; a press of 7 is typed all the same. *)
Example digit_beyond_the_choices :
  option_map (map Number) (kbChoices <$> keyboards (st settled.2) !! sample_key) = Some [1; 2; 3]
  ∧ keys_sent (interp (sample_ports StatusBlocked) (Press no_text (sample_press "7")) settled.2).2 = [("p1", ["7"])].
Proof. split; vm_compute; reflexivity. Qed.
