(* ===== verification/Inbound.v ===== *)
(** internal/app/inbound.go: operator messages become calls of the agent, and
    commands are answered.

    The handlers run on the bridge goroutine, like those of Outbound.v; their
    state is [inbound], beside the [outbound] they call. What a goroutine of its
    own does ([async]) is the task given to [Spawn]; its result comes back as a
    job. Log lines, and clock reads made only for them, are left out. *)
From S2P Require Import Prelude GoStrings Errors Status Mapping Config Chrome Command OptionRegistry Presence Events.
From S2P Require Import Json TurnMeta Redact Format Choice AppText Registry Attachment Eff AppPorts StatusView Panel Outbound.

Local Open Scope Z_scope.
Local Open Scope eff_scope.

(** ** Replies *)

Definition helpText : string := join
  ["Commands";
   "/screen [N|all]: post the agent screen: the whole visible screen, its last N lines, or with " +:+ dquote +:+ "all" +:+ dquote +:+ " everything since your last message";
   "/keys k1 k2 ...: send raw keys to the agent (esc, enter, y, 1 ...)";
   "/focus: bring the agent's pane to the front in Herdr";
   "/git status | diff [staged] | log [N]: git in the agent's directory; long output arrives as a file";
   "/stop: send esc to the agent (soft cancel of the running turn or dialog)";
   "/interrupt: send ctrl+c to the agent (hard interrupt)";
   "/close: close the agent's pane after a Yes/No confirmation";
   "/clear, /compact [instructions], /usage, /model [name]: typed into the agent as Claude Code commands while it is idle; the screen after the command is posted as a reply, /usage and a bare /model are closed with esc for you";
   "/status: this agent's status; in General, every agent with a link to its topic";
   "/away [2h]: treat you as away until /here or for the given time, so Telegram gets everything (General only)";
   "/here: back to automatic presence (General only)";
   "/new <workspace> [kind]: start an agent in a new tab of that workspace (General only; kind defaults to claude)";
   "/options: settings panel (General only): sync, quiet mode, status icons, secret redaction, topic cleanup";
   "/observers [add|remove <id>]: list or change who may watch the group without driving agents (General only)";
   "/help: this list";
   "";
   "While an agent is blocked, y, n, yes, no, 1-9, enter, ok and esc are sent as keys.";
   "A question with up to 5 numbered options also arrives with buttons; pressing one sends its number and the button turns into ✅.";
   "Any other text is typed into the agent as a prompt."] nl.

Definition stoppedReply : string := "⏹ sent esc".
Definition interruptedReply : string := "⛔ sent ctrl+c".
Definition topicOnly : string := "agent commands live in the agent's topic".
Definition closePrefix : string := "c:".
Definition closeYes : string := "c:y".
Definition closeNo : string := "c:n".
Definition closeAskFmt (label : string) : string := "Close " +:+ label +:+ "? The pane and its tab go away.".
Definition closeYesLabel : string := "Yes, close".
Definition closeNoLabel : string := "No".
Definition closingFmt (label : string) : string := "closing " +:+ label +:+ " …".
Definition closeKept : string := "not closed".
Definition newInGeneral : string := "/new works in General: /new <workspace> [kind]".
Definition observersInGeneral : string := "observer commands live in General: " +:+ ObserversUsage.
Definition newWorkspacesFmt (labels : string) : string := "workspaces: " +:+ labels.
Definition newNoWorkspaces : string := "no workspaces".
Definition newStartingFmt (kind workspace : string) : string := "starting " +:+ kind +:+ " in " +:+ workspace +:+ " …".
Definition newStartedFmt (kind workspace pane : string) : string :=
  "started " +:+ kind +:+ " in " +:+ workspace +:+ " (pane " +:+ pane +:+ ")".
Definition newFailedFmt (kind workspace reason : string) : string :=
  "⚠️ " +:+ kind +:+ " did not start in " +:+ workspace +:+ ": " +:+ reason.
Definition newTabFailedPrefix : string := "⚠️ could not create a tab: ".
Definition newListFailed : string := "⚠️ herdr: ".

Definition presenceInGeneral : string := "presence commands live in General".
Definition presenceUnavailable : string := "quiet mode is not available".
Definition presenceOff : string := "quiet mode is off (/options → Quiet)".
Definition presenceAwayUntil (at_ : string) : string :=
  "🏃 away until " +:+ at_ +:+ ", Telegram gets everything; /here returns to automatic".
Definition presenceAwayOpen : string := "🏃 away until /here, Telegram gets everything".
Definition presenceHereFmt (verdict : string) : string := "🖥 presence is automatic again: " +:+ verdict.
Definition presenceVerdictDesk : string := "at the desk, quiet on".
Definition presenceVerdictAway : string := "away".
Definition presenceVerdictNone : string := "not available on this platform".

Definition inboxOff : string := "⚠️ inbox is off (/options → Inbox)".
Definition inboxTooBigFmt (size max : string) : string := "⚠️ file too big: " +:+ size +:+ " > " +:+ max.
Definition inboxFailedFmt (reason : string) : string := "⚠️ download failed: " +:+ reason.
Definition inboxPartialFmt (failed total : Z) (reason : string) : string :=
  "⚠️ " +:+ itoa failed +:+ " of " +:+ itoa total +:+ " files failed: " +:+ reason.
Definition inboxGoneFmt (paths : string) : string := "⚠️ agent has exited, file kept at " +:+ paths.
Definition inboxNoStore : string := "⚠️ inbox is not available in this build".
Definition albumPrefix : string := "album:".
Definition submitPrefix : string := "submit:".

Definition gitUnavailable : string := "⚠️ git is not available in this build".
Definition gitNoCwd : string := "⚠️ Herdr reports no working directory".
Definition gitNotInstalled : string := "⚠️ git is not installed".

(** internal/app/consts.go. *)
Definition commandTailLines : Z := 12.
Definition gitInlineRunes : Z := 3600.
Definition agentStartTimeout : Duration := 60 * Second.
Definition albumSettle : Duration := Second.
Definition inboxSubmitDelay : Duration := 1500 * 1000000.
Definition strangerKeep : nat := 10.

(** ** The state *)

Record followUp := mkFollowUp { fuCmd : Command; fuWord : string; fuThread : Z; fuMessage : Z }.

Record album := mkAlbum { alKey : Key; alThread : Z; alParts : list TopicAttachment; alCaption : string }.

Record inbound := mkInbound {
  ipanel : panel; cfg : Config; strangers : list StrangerSeen; pending : gmap Key followUp;
  closing : gmap Key Z; albums : gmap string album
}.

Definition newInbound (c : Config) : inbound := mkInbound (mkPanel 0) c [] ∅ ∅ ∅.

Definition on_panel (i : inbound) (p : panel) := mkInbound p (cfg i) (strangers i) (pending i) (closing i) (albums i).
Definition on_cfg (c : Config) (i : inbound) := mkInbound (ipanel i) c (strangers i) (pending i) (closing i) (albums i).
Definition on_strangers f (i : inbound) := mkInbound (ipanel i) (cfg i) (f (strangers i)) (pending i) (closing i) (albums i).
Definition on_pending f (i : inbound) := mkInbound (ipanel i) (cfg i) (strangers i) (f (pending i)) (closing i) (albums i).
Definition on_closing f (i : inbound) := mkInbound (ipanel i) (cfg i) (strangers i) (pending i) (f (closing i)) (albums i).
Definition on_albums f (i : inbound) := mkInbound (ipanel i) (cfg i) (strangers i) (pending i) (closing i) (f (albums i)).

(** The state of the bridge goroutine. *)
Record bridge := mkBridge { bout : outbound; bin : inbound }.
Definition set_out (b : bridge) (o : outbound) : bridge := mkBridge o (bin b).
Definition set_in (b : bridge) (i : inbound) : bridge := mkBridge (bout b) i.

(** The jobs background tasks report back with. *)
Record startResult := mkStartResult {
  srMessage : Z; srWorkspace : string; srKind : string; srName : string; srPane : string;
  srAgent : result Agent; srStarted : Time
}.
Record inboxResult := mkInboxResult {
  irKey : Key; irThread : Z; irMessage : Z; irCaption : string; irPaths : list string;
  irFailed : list string; irTotal : Z; irStarted : Time
}.

(** ** Words *)

Definition idList (ids : list Z) : string :=
  match ids with [] => "none" | _ => join (map itoa ids) ", " end.

Definition workspaceLabels (workspaces : list Workspace) : list string :=
  map (λ ws, or_else (WsLabel ws) (WsID ws)) workspaces.

Definition joinAnd (items : list string) : string :=
  match reverse items with
  | [] => ""
  | [x] => x
  | x :: rest => join (reverse rest) ", " +:+ " and " +:+ x
  end.

Definition megabyte : Z := 1024 * 1024.
(** [float64(n)/mb]. *)
Definition megabytes (n : Z) : spec_float := SFdiv 53 1024 (float64_of n) (float64_of megabyte).
Definition humanBytes (n : Z) : string :=
  if 10 * megabyte <=? n then itoa (round_half_even (scaled (megabytes n) 1)) +:+ " MB"
  else if megabyte <=? n then
    let t := round_half_even (scaled (megabytes n) 10) in itoa (t / 10) +:+ "." +:+ itoa (t mod 10) +:+ " MB"
  else itoa (Z.quot (wrap64 (n + 1023)) 1024) +:+ " KB".

Definition gitEmpty (sub : string) : string :=
  if String.eqb sub "status" then "clean"
  else if String.eqb sub "diff" then "no changes"
  else if String.eqb sub "log" then "no commits"
  else "nothing".

(** [filepath.Base] with the separator of Unix. *)
Definition filepath_base (path : string) : string :=
  if String.eqb path "" then "."
  else
    let p := trim_right path "/" in
    if String.eqb p "" then "/" else default p (last (split_char "/" p)).

Definition forwardRefusal (status : Status) : option string :=
  if String.eqb status StatusWorking then Some "agent is working, try again when it is idle"
  else if String.eqb status StatusBlocked then Some "agent is waiting for an answer: reply to it or send /keys esc first"
  else None.

Definition forwardWord (line : string) : string :=
  let line := trim_prefix line "/" in
  match str_cut line " " with Some (word, _) => word | None => line end.

Definition albumKey (groupID : string) : Key := mkKey (albumPrefix +:+ groupID) "".
Definition submitKey (paneID : string) : Key := mkKey (submitPrefix +:+ paneID) "".

(** [entry, _ := topics.Entry(key)]: no entry is the zero entry, whose status is live. *)
Definition entry_live (entry : option TopicEntry) : bool :=
  match entry with Some e => Live (EStatus e) | None => true end.

Definition agent_exited : string := "agent has exited".
Definition unknown_command : string := "unknown command, see /help".
Definition screen_or_empty (text : string) : string := if String.eqb text "" then "(screen is empty)" else text.

(** ** Handlers *)

Section Inbound.
Context {U : UnicodeTables} (hashText : string → string) (error_text : error → string).
Context (chatID : Z) (operators : list Z) (replies : bool) (zone : Z).
(** Which of the optional services the daemon was given. *)
Context (hasStore hasGit hasInbox hasPresence hasSince : bool).
Local Notation prog := (prog appE bridge).

(** A handler of the outbound or of the panel, run by the inbound. *)
Definition outb {A} (p : Eff.prog appE outbound A) : prog A := zoom bout set_out p.
Definition paneled {A} (p : Eff.prog appE panel A) : prog A :=
  zoom (λ b, ipanel (bin b)) (λ b p, set_in b (on_panel (bin b) p)) p.
Definition igets {A} (f : inbound → A) : prog A := gets (λ b, f (bin b)).
Definition imodify (f : inbound → inbound) : prog unit := modify (λ b, set_in b (f (bin b))).

Definition reason (e : error) : string := failureReason error_text e.

Definition send_quiet (out : Outgoing) : prog (option error) :=
  do r ← ask (TgSend out); Ret match r with Ok _ => None | Err e => Some e end.
Definition iabsorb (p : prog (option error)) : prog (option error) := do e ← p; Ret (fatal_only e).

(** A message that quotes the operator's. *)
Definition quoting (threadID messageID : Z) (text : string) (code html : bool) : Outgoing :=
  mkOutgoing threadID text code html false 0 messageID false [] false "" 0.
Definition reply (threadID messageID : Z) (text : string) : prog (option error) :=
  iabsorb (send_quiet (quoting threadID messageID text false false)).

Definition failed (msg : TopicMessage) (err : error) : prog (option error) :=
  if isFatal err then fail err else reply (MsgThreadID msg) (MsgMessageID msg) ("⚠️ " +:+ reason err).
Definition herdrCall (msg : TopicMessage) (call : prog (option error)) : prog (option error) :=
  do err ← call;
  match err with Some e => failed msg e | None => nil_ end.

(** *** Messages in an agent's topic *)

Definition typed (msg : TopicMessage) (key : Key) (w : typingWait) : prog (option error) :=
  do err ← ask (HerdrPrompt (PaneID key) (MsgText msg));
  match err with
  | Some e => failed msg e
  | None =>
    must outb (TypingDone key w (MsgText msg));
    outb (PromptSent key (MsgThreadID msg) (MsgMessageID msg))
  end.

Definition control (msg : TopicMessage) (key : Key) (keyName confirm : string) : prog (option error) :=
  do err ← ask (HerdrSendKeys (PaneID key) [keyName]);
  match err with
  | Some e => failed msg e
  | None => reply (MsgThreadID msg) (MsgMessageID msg) confirm
  end.

Definition close_question (msg : TopicMessage) (agent : Agent) : Outgoing :=
  mkOutgoing (MsgThreadID msg) (closeAskFmt (Label agent)) false false false 0 (MsgMessageID msg) false
    [mkButton closeYesLabel closeYes 1; mkButton closeNoLabel closeNo 1] false "" 0.

Definition askClose (msg : TopicMessage) (key : Key) (agent : Agent) : prog (option error) :=
  do prev ← igets (λ i, closing i !! key);
  must match prev with
       | Some prev =>
         must outb (edit_buttons prev []);
         do _ ← imodify (on_closing (delete key)); nil_
       | None => nil_
       end;
  do r ← ask (TgSend (close_question msg agent));
  match r with
  | Err e => Ret (fatal_only (Some e))
  | Ok id => do _ ← imodify (on_closing (insert key id)); nil_
  end.

Definition edit_closing (messageID : Z) (text : string) : prog (option error) :=
  outb (absorb (ask (TgEditText messageID text false []))).

Definition PressClose (ev : ButtonPressed) : prog (option error) :=
  do key ← ask (KeyOfThread (BtnThreadID ev));
  match key with
  | None => outb (stale ev "topic is not mapped")
  | Some key =>
    do latest ← igets (λ i, closing i !! key);
    if negb (bool_decide (latest = Some (BtnMessageID ev))) then outb (stale ev "not the latest question")
    else
      do agent ← ask (AgentOf key);
      do _ ← imodify (on_closing (delete key));
      match agent with
      | None =>
        must outb (edit_buttons (BtnMessageID ev) []);
        outb (answer (CallbackID ev) agent_exited)
      | Some agent =>
        if String.eqb (BtnData ev) closeNo then
          must edit_closing (BtnMessageID ev) closeKept;
          outb (answer (CallbackID ev) "kept")
        else if String.eqb (BtnData ev) closeYes then
          do err ← ask (HerdrClosePane (PaneID key));
          match err with
          | Some e =>
            must edit_closing (BtnMessageID ev) ("⚠️ could not close: " +:+ reason e);
            outb (answer (CallbackID ev) "⚠️ failed")
          | None =>
            must edit_closing (BtnMessageID ev) (closingFmt (Label agent));
            outb (answer (CallbackID ev) "closing")
          end
        else outb (stale ev "unknown button")
      end
  end.

Definition Forget_in (key : Key) : prog unit := imodify (on_closing (delete key)).

Definition forward (msg : TopicMessage) (key : Key) (agent : Agent) (cmd : Command) : prog (option error) :=
  match forwardRefusal (AStatus agent) with
  | Some hint => reply (MsgThreadID msg) (MsgMessageID msg) ("⚠️ " +:+ hint)
  | None =>
    do err ← ask (HerdrPrompt (PaneID key) (CmdText cmd));
    match err with
    | Some e => failed msg e
    | None =>
      match Post (Forward cmd) with
      | Some ForwardPostNone => nil_
      | _ =>
        do _ ← imodify (on_pending (insert key (mkFollowUp cmd (forwardWord (CmdText cmd)) (MsgThreadID msg) (MsgMessageID msg))));
        do _ ← ask (Schedule CommandTimer key);
        nil_
      end
    end
  end.

(** *** /git *)

Definition gitFailure (sub : string) (err : error) : string :=
  if errors_is err ErrNotRepository then "⚠️ " +:+ reason err
  else if errors_is err ErrGitMissing then gitNotInstalled
  else if is_foreign err CtxDeadlineExceeded then "⚠️ git timed out"
  else "⚠️ git " +:+ sub +:+ " failed: " +:+ reason err.

Definition git_blanks : string := line_blanks +:+ nl.

Definition git_document (msg : TopicMessage) (agent : Agent) (spec : GitSpec) (res : GitResult) (out : string) (now : Time) : Document :=
  mkDocument (MsgThreadID msg)
    (filepath_base (Cwd agent) +:+ "-" +:+ Sub spec +:+ "-" +:+ clock_stamp zone now +:+
     (if String.eqb (Sub spec) "diff" then ".patch" else ".txt"))
    (out +:+ nl)
    ("git " +:+ join (GitArgs spec) " " +:+ " · " +:+ itoa (count out nl + 1) +:+ " lines" +:+
     (if GTruncated res then ", truncated" else ""))
    (MsgMessageID msg).

Definition gitCommand (msg : TopicMessage) (agent : Agent) (spec : GitSpec) : prog (option error) :=
  let say := reply (MsgThreadID msg) (MsgMessageID msg) in
  if String.eqb (Sub spec) "" then say GitUsage
  else if negb hasGit then say gitUnavailable
  else if String.eqb (trim_space (Cwd agent)) "" then say gitNoCwd
  else
    do res ← ask (GitRun (Cwd agent) (GitArgs spec));
    match res with
    | Err e => say (gitFailure (Sub spec) e)
    | Ok res =>
      let out := trim_right (GOutput res) git_blanks in
      if String.eqb out "" then say (gitEmpty (Sub spec))
      else if gitInlineRunes <? rune_count out then
        do now ← ask Now;
        iabsorb (ask (TgSendDocument (git_document msg agent spec res out now)))
      else iabsorb (send_quiet (quoting (MsgThreadID msg) (MsgMessageID msg) out true false))
    end.

Definition status_line (icons : StatusIcons) (agent : Agent) (key : Key) : string :=
  IconFor icons (AStatus agent) +:+ " " +:+ AStatus agent +:+ " · " +:+ Label agent +:+ " · pane " +:+ PaneID key.

(** The command of a topic message, once it is routed. *)
Definition topic_command (msg : TopicMessage) (key : Key) (agent : Agent) (cmd : Command) : prog (option error) :=
  let say := reply (MsgThreadID msg) (MsgMessageID msg) in
  match CmdKind cmd with
  | CmdPrompt =>
    do err ← ask (HerdrPrompt (PaneID key) (CmdText cmd));
    match err with
    | Some e => failed msg e
    | None => outb (PromptSent key (MsgThreadID msg) (MsgMessageID msg))
    end
  | CmdKeys => herdrCall msg (ask (HerdrSendKeys (PaneID key) (CmdKeyList cmd)))
  | CmdFocus => herdrCall msg (ask (HerdrFocus (PaneID key)))
  | CmdGit => gitCommand msg agent (Git cmd)
  | CmdStop => control msg key KeyEscape stoppedReply
  | CmdInterrupt => control msg key KeyInterrupt interruptedReply
  | CmdClose => askClose msg key agent
  | CmdScreen =>
    do err ← outb (if All cmd then ScreenAll zone key else ScreenPost key (CmdLines cmd));
    match err with Some e => failed msg e | None => nil_ end
  | CmdStatus => do o ← ask OptionsNow; say (status_line (OptStatusIcons o) agent key)
  | CmdHelp => say helpText
  | CmdOptions => say panelInGeneral
  | CmdAway | CmdHere => say presenceInGeneral
  | CmdNew => say newInGeneral
  | CmdObservers => say observersInGeneral
  | CmdForward => forward msg key agent cmd
  | CmdUnknown => say unknown_command
  end.

Definition route_topic (msg : TopicMessage) (key : Key) (agent : Agent) : prog (option error) :=
  do c ← igets cfg;
  topic_command msg key agent (Route (MsgText msg) (BotUsername c) (AStatus agent)).

Definition HandleTopic (msg : TopicMessage) : prog (option error) :=
  do key ← ask (KeyOfThread (MsgThreadID msg));
  match key with
  | None => nil_
  | Some key =>
    do entry ← ask (EntryOf key);
    do agent ← ask (AgentOf key);
    match agent with
    | Some agent =>
      if negb (entry_live entry) then reply (MsgThreadID msg) (MsgMessageID msg) agent_exited
      else if negb (has_prefix (trim_space (MsgText msg)) "/") then
        do w ← outb (TakeTyping key);
        match w with
        | Some w => typed msg key w
        | None => route_topic msg key agent
        end
      else
        must outb (CancelTyping key);
        route_topic msg key agent
    | None => reply (MsgThreadID msg) (MsgMessageID msg) agent_exited
    end
  end.

(** *** Settled commands, albums and attachment prompts *)

Definition fireSubmit (paneID : string) : prog (option error) :=
  do r ← ask (HerdrReadScreen paneID ScreenDetection blockedLines);
  match r with
  | Err _ => nil_
  | Ok screen =>
    match Choices (ParseDialog (trimScreen (SText screen))) with
    | _ :: _ => nil_
    | [] => do _ ← ask (HerdrSendKeys paneID [KeyEnter]); nil_
    end
  end.

Definition startDownload (key : Key) (threadID messageID : Z) (caption : string) (parts : list TopicAttachment) (max : Z) : prog unit :=
  do started ← ask Now;
  ask (Spawn (DownloadTask key threadID messageID caption parts max started)).

Definition fireAlbum (groupID : string) : prog (option error) :=
  do a ← igets (λ i, albums i !! groupID);
  match a with
  | None => nil_
  | Some a =>
    do _ ← imodify (on_albums (delete groupID));
    do o ← ask OptionsNow;
    do _ ← startDownload (alKey a) (alThread a) (match alParts a with at_ :: _ => AttMessageID at_ | [] => 0 end) (alCaption a)
             (alParts a) (InboxMaxBytes o);
    nil_
  end.

Definition dismiss (key : Key) (f : followUp) : prog (option error) :=
  do err ← ask (HerdrSendKeys (PaneID key) ["esc"]);
  match err with
  | Some e => reply (fuThread f) (fuMessage f) ("⚠️ could not close the overlay: " +:+ reason e)
  | None => nil_
  end.

(** The screen a settled command left, posted as a reply. *)
Definition follow_screen (key : Key) (entry : TopicEntry) (f : followUp) : prog (option error) :=
  let rule := Forward (fuCmd f) in
  let tail := match Post rule with Some ForwardPostTail => true | _ => false end in
  let whole := match Post rule with Some ForwardPostScreen => true | _ => false end in
  do r ← ask (HerdrReadScreen (PaneID key) ScreenVisible (if tail then commandTailLines else 0));
  match r with
  | Err e => reply (fuThread f) (fuMessage f) ("⚠️ screen read failed: " +:+ reason e)
  | Ok screen =>
    let raw := if whole && Dismiss rule then CutOverlay (SText screen) else SText screen in
    do o ← ask OptionsNow;
    let text := screen_or_empty (cleanScreen raw (PostsChrome o)).1 in
    iabsorb (send_quiet (quoting (ThreadID entry) (fuMessage f) text true false))
  end.

Definition fire_command (key : Key) : prog (option error) :=
  do f ← igets (λ i, pending i !! key);
  match f with
  | None => nil_
  | Some f =>
    do _ ← imodify (on_pending (delete key));
    do entry ← ask (EntryOf key);
    do agent ← ask (AgentOf key);
    let alive := match agent with Some _ => true | None => false end in
    match entry with
    | Some entry =>
      if alive && Live (EStatus entry) then
        must follow_screen key entry f;
        if Dismiss (Forward (fuCmd f)) then dismiss key f else nil_
      else if Dismiss (Forward (fuCmd f)) && alive then dismiss key f else nil_
    | None => if Dismiss (Forward (fuCmd f)) && alive then dismiss key f else nil_
    end
  end.

Definition Fire_in (key : Key) : prog (option error) :=
  match cut_prefix (PaneID key) albumPrefix with
  | Some group => fireAlbum group
  | None =>
    match cut_prefix (PaneID key) submitPrefix with
    | Some pane => fireSubmit pane
    | None => fire_command key
    end
  end.

(** *** General *)

Definition statusSummary : prog string :=
  do live ← ask LiveAgents;
  do o ← ask OptionsNow;
  do header ← presenceHeaderText zone hasPresence (QuietEnabled o);
  do now ← ask Now;
  do since ← (if hasSince then ask StatusSince else Ret ∅);
  view_render (mkStatusView live true (OptStatusIcons o) (negb (SyncEnabled o)) header chatID since now "" 0).

Definition HandleStranger (ev : StrangerSeen) : prog unit :=
  imodify (on_strangers (λ seen,
    foldl (λ kept s, if negb (StrFromID s =? StrFromID ev) && Nat.ltb (length kept) strangerKeep then kept ++ [s] else kept)
      [ev] seen)).

Definition observerReason (err : error) : string :=
  let msg := error_text err in
  match str_cut msg ": " with
  | Some (_, rest) => if errors_is err ErrInvalidObserver then rest else msg
  | None => msg
  end.

Definition observer_added (id : Z) : string :=
  "👁 " +:+ itoa id +:+ " is an observer now: sees the group, may use /status and /help in General".
Definition observer_removed (id : Z) : string := itoa id +:+ " is no longer an observer".

Definition changeObserver (spec : ObserversSpec) : prog string :=
  do c ← igets cfg;
  let adding := match Action spec with ObserverAdd => true | _ => false end in
  let '(next, err) := if adding then WithObserver c (ObserverID spec) else WithoutObserver c (ObserverID spec) in
  match err with
  | Some e => Ret ("⚠️ " +:+ observerReason e)
  | None =>
    if negb hasStore then Ret "⚠️ config not saved: no config store"
    else
      do saved ← ask (ConfigSave next);
      match saved with
      | Some e => Ret ("⚠️ config not saved: " +:+ reason e)
      | None =>
        do _ ← imodify (on_cfg next);
        do _ ← ask (TgSetAccess (OperatorIDs next) (ObserverIDs next));
        Ret (if adding then observer_added (ObserverID spec) else observer_removed (ObserverID spec))
      end
  end.

Definition stranger_name (s : StrangerSeen) : string :=
  join ((if String.eqb (StrName s) "" then [] else [EscapeString (StrName s)]) ++
        (if String.eqb (StrUsername s) "" then [] else ["@" +:+ EscapeString (StrUsername s)]) ++
        ["(" +:+ itoa (StrFromID s) +:+ ")"]) " ".

Definition strangerLine (s : StrangerSeen) : prog string :=
  do now ← ask Now;
  let d := formatDuration (time_sub now (StrAt s)) in
  do key ← ask (KeyOfThread (StrThreadID s));
  do where_ ←
    (if StrThreadID s =? 0 then Ret "General"
     else match key with
          | Some key =>
            do entry ← ask (EntryOf key);
            Ret match entry with Some e => EscapeString (EntryLabel e) | None => "General" end
          | None => Ret ("topic " +:+ itoa (StrThreadID s))
          end);
  Ret (stranger_name s +:+ " · " +:+ (if String.eqb d "" then "just now" else d +:+ " ago") +:+ " in " +:+ where_).

Fixpoint stranger_lines (seen : list StrangerSeen) : prog string :=
  match seen with
  | [] => Ret ""
  | s :: seen => do line ← strangerLine s; do rest ← stranger_lines seen; Ret ("· " +:+ line +:+ nl +:+ rest)
  end.

Definition observersList : prog string :=
  do i ← gets bin;
  do lines ← match strangers i with
             | [] => Ret (" none" +:+ nl)
             | seen => do lines ← stranger_lines seen; Ret (nl +:+ lines)
             end;
  Ret ("👤 Operators: " +:+ idList (OperatorIDs (cfg i)) +:+ nl +:+
       "👁 Observers: " +:+ idList (ObserverIDs (cfg i)) +:+ nl +:+
       "🚪 Seen recently, not allowed:" +:+ lines +:+
       "add one with /observers add &lt;id&gt;").

Definition observers (cmd : GeneralCommand) (spec : ObserversSpec) : prog (option error) :=
  match Action spec with
  | ObserverList =>
    do text ← observersList;
    iabsorb (send_quiet (quoting 0 (GenMessageID cmd) text false true))
  | _ => do text ← changeObserver spec; reply 0 (GenMessageID cmd) text
  end.

Definition workspaceHint (label : string) (m : MatchResult) (workspaces : list Workspace) : string :=
  let lst := match workspaces with [] => newNoWorkspaces | _ => newWorkspacesFmt (join (workspaceLabels workspaces) ", ") end in
  if String.eqb (trim_space label) "" then lst
  else match m with
       | MatchMany => quote label +:+ " matches " +:+ joinAnd (workspaceLabels (MatchWorkspaces label workspaces)) +:+ nl +:+ lst
       | _ => "no workspace named " +:+ quote label +:+ nl +:+ lst
       end.

(** The loop of [uniqueName], at most [fuel] further names tried. *)
Fixpoint free_name (taken : gset string) (kind name : string) (n : Z) (fuel : nat) : string :=
  match fuel with
  | O => name
  | S fuel =>
    if bool_decide (name ∈ taken) then free_name taken kind (kind +:+ "-" +:+ itoa n) (n + 1) fuel else name
  end.
Definition uniqueName (kind : string) (live : list Agent) : string :=
  free_name (list_to_set (map Name live)) kind kind 2 (S (length live)).

Definition startAgent (cmd : GeneralCommand) (parsed : Command) : prog (option error) :=
  let say := reply 0 (GenMessageID cmd) in
  do r ← ask HerdrListWorkspaces;
  match r with
  | Err e => say (newListFailed +:+ reason e)
  | Ok workspaces =>
    let '(ws, m) := MatchWorkspace (CmdWorkspace parsed) workspaces in
    match m with
    | MatchOne =>
      let kind := or_else (CmdAgentKind parsed) DefaultAgentKind in
      do r ← ask (HerdrCreateTab (WsID ws));
      match r with
      | Err e => say (newTabFailedPrefix +:+ reason e)
      | Ok tab =>
        do live ← ask LiveAgents;
        let name := uniqueName kind live in
        must say (newStartingFmt kind (WsLabel ws));
        do started ← ask Now;
        do _ ← ask (Spawn (StartTask (GenMessageID cmd) (WsLabel ws) kind name (RootPaneID tab) started));
        nil_
      end
    | _ => say (workspaceHint (CmdWorkspace parsed) m workspaces)
    end
  end.

Definition StartFinished (r : startResult) : prog (option error) :=
  reply 0 (srMessage r)
    match srAgent r with
    | Err e => newFailedFmt (srKind r) (srWorkspace r) (reason e)
    | Ok agent => newStartedFmt (srKind r) (srWorkspace r) (or_else (PaneID (AKey agent)) (srPane r))
    end.

Definition away (d : Duration) (by_ : Z) : prog string :=
  if negb hasPresence then Ret presenceUnavailable
  else
    do o ← ask OptionsNow;
    if negb (QuietEnabled o) then Ret presenceOff
    else
      do st ← ask (PresenceAway d by_);
      Ret (if is_zero (Until st) then presenceAwayOpen else presenceAwayUntil (wallClock zone (Until st))).

Definition here (by_ : Z) : prog string :=
  if negb hasPresence then Ret presenceUnavailable
  else
    do o ← ask OptionsNow;
    if negb (QuietEnabled o) then Ret presenceOff
    else
      do st ← ask (PresenceHere by_);
      Ret (presenceHereFmt (if negb (Supported st) then presenceVerdictNone
                            else if Presence.Quiet st then presenceVerdictDesk
                            else presenceVerdictAway)).

(** What an observer may ask in General. *)
Definition observer_may (k : CommandKind) : bool := match k with CmdStatus | CmdHelp => true | _ => false end.

Definition HandleGeneral (cmd : GeneralCommand) : prog (option error) :=
  do c ← igets cfg;
  let parsed := ParseCommand (GenText cmd) (BotUsername c) in
  let say := reply 0 (GenMessageID cmd) in
  if bool_decide (GenRole cmd = RoleObserver) && negb (observer_may (CmdKind parsed)) then nil_
  else
    match CmdKind parsed with
    | CmdStatus =>
      do text ← statusSummary;
      iabsorb (send_quiet (quoting 0 (GenMessageID cmd) text false true))
    | CmdHelp => say helpText
    | CmdOptions => paneled (Panel.Open cmd)
    | CmdAway => do text ← away (Command.Away parsed) (GenFromID cmd); say text
    | CmdHere => do text ← here (GenFromID cmd); say text
    | CmdStop | CmdInterrupt | CmdClose => say topicOnly
    | CmdNew => startAgent cmd parsed
    | CmdGit => say topicOnly
    | CmdObservers => observers cmd (Observers parsed)
    | _ => say unknown_command
    end.

(** *** Attachments *)

Definition HandleAttachment (at_ : TopicAttachment) : prog (option error) :=
  let say := reply (AttThreadID at_) (AttMessageID at_) in
  do key ← ask (KeyOfThread (AttThreadID at_));
  match key with
  | None => nil_
  | Some key =>
    do entry ← ask (EntryOf key);
    do agent ← ask (AgentOf key);
    if match agent with None => true | Some _ => negb (entry_live entry) end then say agent_exited
    else
      do o ← ask OptionsNow;
      let max := InboxMaxBytes o in
      if negb hasInbox then say inboxNoStore
      else if negb (InboxEnabled o) then say inboxOff
      else if max <? Size at_ then say (inboxTooBigFmt (humanBytes (Size at_)) (humanBytes max))
      else if String.eqb (GroupID at_) "" then
        do _ ← startDownload key (AttThreadID at_) (AttMessageID at_) (Caption at_) [at_] max;
        nil_
      else
        do _ ← imodify (on_albums (λ m,
                 let a := default (mkAlbum key (AttThreadID at_) [] "") (m !! GroupID at_) in
                 <[GroupID at_ := mkAlbum (alKey a) (alThread a) (alParts a ++ [at_])
                                    (or_else (alCaption a) (Caption at_))]> m));
        do _ ← ask (ScheduleAfter CommandTimer (albumKey (GroupID at_)) albumSettle);
        nil_
  end.

(** What the background goroutines do, one part after the other. *)
Definition fetch (at_ : TopicAttachment) (max : Z) : prog (result string) :=
  do r ← ask (TgDownload (FileID at_) max);
  match r with
  | Err e => Ret (Err e)
  | Ok data =>
    let name := SafeFileName (AttName at_) (DefaultAttachmentName (AttKind at_) (MIME at_)) in
    do now ← ask Now;
    ask (InboxSave (InboxFileName now zone (AttMessageID at_) name) data)
  end.

Fixpoint fetch_all (parts : list TopicAttachment) (max : Z) (paths fails : list string) : prog (list string * list string) :=
  match parts with
  | [] => Ret (paths, fails)
  | at_ :: parts =>
    do r ← fetch at_ max;
    match r with
    | Err e => fetch_all parts max paths (fails ++ [reason e])
    | Ok path => fetch_all parts max (paths ++ [path]) fails
    end
  end.

Definition InboxFinished (r : inboxResult) : prog (option error) :=
  let say := reply (irThread r) (irMessage r) in
  match irPaths r with
  | [] => say (inboxFailedFmt (default "" (head (irFailed r))))
  | paths =>
    do entry ← ask (EntryOf (irKey r));
    do agent ← ask (AgentOf (irKey r));
    match agent, entry with
    | Some _, Some e =>
      if negb (Live (EStatus e)) then say (inboxGoneFmt (join paths ", "))
      else
        do err ← ask (HerdrPrompt (PaneID (irKey r)) (AttachmentPrompt (irCaption r) paths));
        match err with
        | Some e => failed (mkTopicMessage (irThread r) (irMessage r) 0 "" 0) e
        | None =>
          do _ ← ask (ScheduleAfter CommandTimer (submitKey (PaneID (irKey r))) inboxSubmitDelay);
          must outb (PromptSent (irKey r) (irThread r) (irMessage r));
          match irFailed r with
          | f :: _ => say (inboxPartialFmt (Z.of_nat (length (irFailed r))) (irTotal r) f)
          | [] => nil_
          end
        end
    | _, _ => say (inboxGoneFmt (join paths ", "))
    end
  end.
End Inbound.

Example humanBytes_samples :
  map humanBytes [1; 1024; 1048575; 1048576; 1572864; 10485760; 20971520] =
  ["1 KB"; "1 KB"; "1024 KB"; "1.0 MB"; "1.5 MB"; "10 MB"; "20 MB"].
Proof. vm_compute. done. Qed.
