(* ===== verification/InboundProps.v ===== *)
(** What the handlers of Inbound.v do to the agents and to the daemon: one
    action at most per topic message, nothing for an observer, and a pane closed
    only by the last question about it. *)
From S2P Require Import Prelude GoStrings Errors Status Mapping Config Command OptionRegistry Presence Events TurnMeta Redact.
From S2P Require Import Choice AppText Registry Eff AppPorts StatusView Panel Outbound OutboundProps Inbound.

Local Open Scope Z_scope.
Local Open Scope eff_scope.

(** What an operator's message can set going: the agents, the machine and the
    configuration, as opposed to reads and to what is written to Telegram. *)
Inductive act :=
  | ActPrompt (pane text : string) | ActKeys (pane : string) (keys : list string) | ActFocus (pane : string)
  | ActClose (pane : string) | ActTab (workspace : string) | ActStart (pane : string) | ActTask (t : task)
  | ActConfig (c : Config) | ActAccess | ActOption | ActPresence | ActSave (name : string).

Definition act_of (e : event appE) : option act :=
  match e with
  | Ev o _ =>
    match o with
    | HerdrPrompt pane text => Some (ActPrompt pane text)
    | HerdrSendKeys pane keys => Some (ActKeys pane keys)
    | HerdrFocus pane => Some (ActFocus pane)
    | HerdrClosePane pane => Some (ActClose pane)
    | HerdrCreateTab ws => Some (ActTab ws)
    | HerdrStartAgent _ _ pane _ => Some (ActStart pane)
    | Spawn t => Some (ActTask t)
    | ConfigSave c => Some (ActConfig c)
    | TgSetAccess _ _ => Some ActAccess
    | OptionsSet _ _ _ | OptionsReset _ _ => Some ActOption
    | PresenceAway _ _ | PresenceHere _ => Some ActPresence
    | InboxSave name _ => Some (ActSave name)
    | _ => None
    end
  end.

Definition acts {S} (w : world appE S) : list act := omap act_of (trace w).

Section Props.
Context {U : UnicodeTables} (hashText : string → string) (error_text : error → string).
Context (chatID : Z) (operators : list Z) (replies : bool) (zone : Z).
Context (hasStore hasGit hasInbox hasPresence hasSince : bool).
Local Notation prog := (prog appE bridge).
Local Notation world := (world appE bridge).

(** ** Handlers that act on nothing *)

Lemma calm_outb {A} (p : Eff.prog appE outbound A) : frames acts p → frames acts (outb p).
Proof. intros Hp. by apply (frames_zoom bout set_out acts p); [..|intros []|]. Qed.
Hint Resolve calm_outb : frames.

Lemma calm_edit m bs : frames acts (edit_buttons m bs).
Proof. unfold edit_buttons, absorb. framed. Qed.
Lemma calm_answer c t : frames acts (answer c t).
Proof. unfold answer, absorb. framed. Qed.
Lemma calm_react t e : frames acts (react t e).
Proof. unfold react, absorb. framed. Qed.
Lemma calm_clean text : frames acts (clean text).
Proof. unfold clean, opts. framed. Qed.
Hint Resolve calm_edit calm_answer calm_react calm_clean : frames.
Lemma calm_stale ev t : frames acts (stale ev t).
Proof. unfold stale. framed. Qed.
Lemma calm_mark key w t : frames acts (markTyping key w t).
Proof. unfold markTyping. framed. Qed.
Hint Resolve calm_stale calm_mark : frames.
Lemma calm_take key : frames acts (TakeTyping key).
Proof. unfold TakeTyping, endTyping. framed. Qed.
Lemma calm_done key w t : frames acts (TypingDone key w t).
Proof. unfold TypingDone. framed. Qed.
Lemma calm_cancel key : frames acts (CancelTyping key).
Proof. unfold CancelTyping, endTyping. framed. Qed.
Lemma calm_prompt key th m : frames acts (PromptSent key th m).
Proof. unfold PromptSent, set_turn, opts. framed. Qed.
Lemma calm_screen key cmd : frames acts (if All cmd then ScreenAll zone key else ScreenPost key (CmdLines cmd)).
Proof. destruct (All cmd); [unfold ScreenAll|unfold ScreenPost]; unfold fail; framed. Qed.
Hint Resolve calm_take calm_done calm_cancel calm_prompt calm_screen : frames.

Lemma calm_reply thread message text : frames acts (reply thread message text).
Proof. unfold reply, iabsorb, send_quiet. framed. Qed.
Hint Resolve calm_reply : frames.
Lemma calm_failed msg err : frames acts (failed error_text msg err).
Proof. unfold failed, fail. framed. Qed.
Lemma calm_gitCommand msg agent spec : frames acts (gitCommand error_text zone hasGit msg agent spec).
Proof. unfold gitCommand, iabsorb, send_quiet. framed. Qed.
Lemma calm_askClose msg key agent : frames acts (askClose msg key agent).
Proof. unfold askClose, igets, imodify. framed. Qed.
Lemma calm_edit_closing m t : frames acts (edit_closing m t).
Proof. unfold edit_closing, absorb. apply calm_outb. framed. Qed.
Hint Resolve calm_failed calm_gitCommand calm_askClose calm_edit_closing : frames.

(** ** One action per topic message *)

(** A prompt, keys or a focus for one pane. *)
Definition agent_act (pane : string) (a : act) : Prop :=
  match a with ActPrompt p _ | ActKeys p _ | ActFocus p => p = pane | _ => False end.

(** [p] acts on the pane at most once. *)
Definition acts_once (pane : string) (p : prog (option error)) : Prop :=
  ∀ w, wp anything p w (λ _ w', acts w' = acts w ∨ ∃ a, acts w' = a :: acts w ∧ agent_act pane a).

Lemma acts_calm pane p : frames acts p → acts_once pane p.
Proof. intros Hp w. eapply wp_mono; [|apply Hp]. intros a w' H. by left. Qed.
Lemma acts_after {A} pane (p : prog A) k : frames acts p → (∀ a, acts_once pane (k a)) → acts_once pane (bind p k).
Proof. intros Hp Hk w. eapply wp_frames; [exact Hp|]. intros a w' <-. apply Hk. Qed.
Lemma acts_then {B} pane (o : appE B) (k : B → prog (option error)) :
  (∀ (w : world) b, ∃ a, acts (told o b w) = a :: acts w ∧ agent_act pane a) → (∀ b, frames acts (k b)) →
  acts_once pane (bind (ask o) k).
Proof.
  intros Ho Hk w b _. cbn. eapply wp_mono; [|apply Hk]. intros e w' H. cbn in H. rewrite H. right.
  destruct (Ho w b) as (a & E & Ha). by exists a.
Qed.

Ltac acted := apply acts_then; [intros; eexists; by split|].

Lemma once_topic_command msg key agent cmd : acts_once (PaneID key) (topic_command error_text zone hasGit msg key agent cmd).
Proof.
  unfold topic_command, control, forward, herdrCall, imodify.
  destruct (CmdKind cmd); try (apply acts_calm; framed; fail); try (acted; framed; fail).
  destruct (forwardRefusal (AStatus agent)); [apply acts_calm; framed|acted; framed].
Qed.

Lemma once_route_topic msg key agent : acts_once (PaneID key) (route_topic error_text zone hasGit msg key agent).
Proof. apply acts_after; [unfold igets; framed|intros c; apply once_topic_command]. Qed.

(** C20: a message in a topic makes at most one action, a prompt, keys or a
    focus, and only on the pane of the agent that topic belongs to and that was
    alive when it came; panes, tabs, options and the configuration are never
    touched. *)
Theorem topic_message_acts_once msg w r w' :
  exec anything (HandleTopic error_text zone hasGit msg) w r w' →
  acts w' = acts w ∨
  ∃ key agent a, acts w' = a :: acts w ∧ agent_act (PaneID key) a ∧
    Ev (KeyOfThread (MsgThreadID msg)) (Some key) ∈ trace w' ∧ Ev (AgentOf key) (Some agent) ∈ trace w'.
Proof.
  intros He. refine (wp_exec He (Q := λ _ w', acts w' = acts w ∨ ∃ key agent a, acts w' = a :: acts w ∧
    agent_act (PaneID key) a ∧ Ev (KeyOfThread (MsgThreadID msg)) (Some key) ∈ trace w' ∧ Ev (AgentOf key) (Some agent) ∈ trace w') _).
  unfold HandleTopic. cbn [bind ask call wp]. intros [key|] _; [|by left]. cbn [bind ask call wp]. intros entry _ [agent|] _.
  2: { eapply wp_mono; [|apply calm_reply]. intros ?? H. by left. }
  set (w1 := told _ _ (told _ _ _)).
  assert (∀ p, acts_once (PaneID key) p → wp anything p w1 (λ _ w', acts w' = acts w ∨ ∃ key agent a, acts w' = a :: acts w ∧
    agent_act (PaneID key) a ∧ Ev (KeyOfThread (MsgThreadID msg)) (Some key) ∈ trace w' ∧ Ev (AgentOf key) (Some agent) ∈ trace w')) as Hp.
  { intros p Hp. eapply wp_mono; [|apply wp_and; [apply Hp|apply wp_grows]].
    intros e w2 [[H|(a & H & Ha)] [l Hl]]; [by left|right]. exists key, agent, a. rewrite Hl. split_and!; [done|done| |];
      apply elem_of_app; right; cbn [w1 trace told]; [right; right; by left|by left]. }
  destruct (negb (entry_live entry)); [apply Hp, acts_calm; framed|].
  destruct (negb (has_prefix _ _)).
  - apply Hp, acts_after; [framed|]. intros [tw|]; [|apply once_route_topic]. unfold typed. acted. framed.
  - apply Hp, acts_after; [framed|]. intros [e|]; [apply acts_calm; framed|apply once_route_topic].
Qed.

(** ** Observers *)

Definition sent {S} (w : Eff.world appE S) : list Outgoing :=
  omap (λ e, match e with Ev o _ => match o with TgSend out => Some out | _ => None end end) (trace w).

(** Everything but reads. *)
Definition footprint (w : world) : list act * bridge * list Outgoing := (acts w, st w, sent w).

Lemma calm_agent_lines v agents : frames footprint (agent_lines v agents : prog _).
Proof. induction agents as [|a agents IH]; cbn [agent_lines]; unfold agent_line; framed. Qed.
Hint Resolve calm_agent_lines : frames.
Lemma calm_summary : frames footprint (statusSummary chatID zone hasPresence hasSince).
Proof. unfold statusSummary, presenceHeaderText, view_render, view_body. framed. Qed.

Lemma observer_may_spec k : observer_may k = true → k = CmdStatus ∨ k = CmdHelp.
Proof. destruct k; try discriminate; auto. Qed.

(** Whatever an observer writes in General, the daemon changes nothing
    and acts on nothing: it answers /status and /help with one message quoting
    theirs, and everything else with silence. *)
Theorem observer_only_reads cmd w r w' :
  GenRole cmd = RoleObserver →
  exec anything (HandleGeneral error_text chatID zone hasStore hasPresence hasSince cmd) w r w' →
  acts w' = acts w ∧ st w' = st w ∧
  (sent w' = sent w ∨ ∃ text html, sent w' = quoting 0 (GenMessageID cmd) text false html :: sent w ∧
     observer_may (CmdKind (ParseCommand (GenText cmd) (BotUsername (cfg (bin (st w)))))) = true).
Proof.
  intros Hrole He. refine (wp_exec He (Q := λ _ w', acts w' = acts w ∧ st w' = st w ∧ (sent w' = sent w ∨ ∃ text html,
    sent w' = quoting 0 (GenMessageID cmd) text false html :: sent w ∧
    observer_may (CmdKind (ParseCommand (GenText cmd) (BotUsername (cfg (bin (st w)))))) = true)) _).
  unfold HandleGeneral, igets. cbn [bind gets wp fst snd]. destruct w as [s h]. cbn [st put trace].
  set (parsed := ParseCommand _ _). rewrite bool_decide_true by done. cbn [andb].
  destruct (observer_may (CmdKind parsed)) eqn:Hmay; [|cbn; by split_and!; [..|left]]. cbn [negb].
  destruct (observer_may_spec _ Hmay) as [Hk|Hk]; rewrite Hk.
  - apply wp_bind. eapply wp_mono; [|apply calm_summary]. intros text w1 [= Ha Hs Hsent].
    unfold iabsorb, send_quiet. cbn. intros b _. split_and!; [exact Ha|exact Hs|]. right. exists text, true. split; [|done].
    change (quoting 0 (GenMessageID cmd) text false true :: sent w1 = quoting 0 (GenMessageID cmd) text false true :: sent (mkWorld s h)).
    by rewrite Hsent.
  - unfold reply, iabsorb, send_quiet. cbn [bind ask call wp]. intros b _. split_and!; [done|done|]. right. by exists helpText, false.
Qed.

(** ** Closing a pane *)

Definition closed_panes (w : world) : list string :=
  omap (λ a, match a with ActClose pane => Some pane | _ => None end) (acts w).

Lemma closed_framed {A} (p : prog A) : frames acts p → frames closed_panes p.
Proof. intros Hp w. eapply wp_mono; [|apply Hp]. unfold closed_panes. by intros a w' ->. Qed.

Definition close_asked (key : Key) (w : world) : option Z := closing (bin (st w)) !! key.

Lemma asked_outb {A} key (p : Eff.prog appE outbound A) : frames (close_asked key) (outb p).
Proof. apply (frames_outside bout set_out (close_asked key) p); [done|done|by intros []|done]. Qed.

(** A pane is closed only by the Yes of the last /close question asked in
    its agent's own topic while the agent is alive, and answering a question,
    whichever way, uses it up: no press closes a pane twice. *)
Theorem close_needs_last_question ev w r w' :
  exec anything (PressClose error_text ev) w r w' →
  closed_panes w' = closed_panes w ∨
  ∃ key agent, closed_panes w' = PaneID key :: closed_panes w ∧ BtnData ev = closeYes ∧
    Ev (KeyOfThread (BtnThreadID ev)) (Some key) ∈ trace w' ∧ Ev (AgentOf key) (Some agent) ∈ trace w' ∧
    close_asked key w = Some (BtnMessageID ev) ∧ close_asked key w' = None.
Proof.
  intros He. refine (wp_exec He (Q := λ _ w', closed_panes w' = closed_panes w ∨
    ∃ key agent, closed_panes w' = PaneID key :: closed_panes w ∧ BtnData ev = closeYes ∧
      Ev (KeyOfThread (BtnThreadID ev)) (Some key) ∈ trace w' ∧ Ev (AgentOf key) (Some agent) ∈ trace w' ∧
      close_asked key w = Some (BtnMessageID ev) ∧ close_asked key w' = None) _).
  assert (∀ p : prog (option error), frames acts p → ∀ w1, closed_panes w1 = closed_panes w → wp anything p w1 (λ _ w',
    closed_panes w' = closed_panes w)) as Hcalm.
  { intros p Hp w1 H1. eapply wp_mono; [|apply (closed_framed _ Hp)]. by intros ?? ->. }
  unfold PressClose. cbn [bind ask call wp]. intros [key|] _.
  2: { eapply wp_mono; [|apply Hcalm; [framed|done]]. intros ?? H. by left. }
  unfold igets. cbn [bind gets wp fst snd].
  destruct (negb _) eqn:Hq; [eapply wp_mono; [|apply Hcalm; [framed|done]]; intros ?? H; by left|].
  apply negb_false_iff, bool_decide_eq_true in Hq. cbn [bind ask call wp imodify modify fst snd]. intros agent _.
  set (w1 := put _ _). assert (closed_panes w1 = closed_panes w) as H1 by done.
  assert (close_asked key w1 = None) as Hc1 by (unfold close_asked, w1; cbn; apply lookup_delete_eq).
  destruct agent as [agent|]; [|eapply wp_mono; [|apply Hcalm; [framed|done]]; intros ?? H; by left].
  destruct (String.eqb_spec (BtnData ev) closeNo); [eapply wp_mono; [|apply Hcalm; [framed|done]]; intros ?? H; by left|].
  destruct (String.eqb_spec (BtnData ev) closeYes) as [Hyes|]; [|eapply wp_mono; [|apply Hcalm; [framed|done]]; intros ?? H; by left].
  cbn [bind ask call wp]. intros err _. set (w2 := told _ _ w1).
  assert (closed_panes w2 = PaneID key :: closed_panes w) as H2 by done.
  set (rest := match err with Some _ => _ | None => _ end).
  assert (frames (λ w, (closed_panes w, close_asked key w)) rest) as Hrest.
  { unfold rest, edit_closing. assert (∀ A (p : Eff.prog appE outbound A), frames acts p → frames (λ w, (closed_panes w, close_asked key w)) (outb p)) as Ho.
    { intros A p Hp v. eapply wp_mono; [|apply wp_and; [apply (closed_framed (outb p)); by apply calm_outb|
        apply (asked_outb key p)]].
      intros a v' [-> ->]. done. }
    destruct err; apply frames_bind; [|intros []| |intros []]; try apply frames_ret; apply Ho; framed.
    all: unfold absorb; framed. }
  eapply wp_mono; [|apply wp_and; [apply Hrest|apply wp_grows]]. intros e w3 [[= Hcl Hask] [l Hl]]. right. exists key, agent.
  rewrite Hcl, Hask, Hl. split_and!; [exact H2|exact Hyes| | |exact Hq|exact Hc1]; apply elem_of_app; right.
  - do 2 right. by left.
  - right. by left.
Qed.
End Props.
(** ** The name of a new agent *)

(** The names tried, in order: [kind], [kind-2], [kind-3] … *)
Definition nth_name (kind : string) (i : nat) : string :=
  match i with O => kind | S _ => kind +:+ "-" +:+ itoa (Z.of_nat i + 1) end.

Lemma app_same (s t : string) : s +:+ t = s → t = "".
Proof. induction s as [|c s IH]; [done|]. cbn. intros [= E]. by apply IH. Qed.

Lemma nth_name_inj kind : Inj (=) (=) (nth_name kind).
Proof.
  assert (∀ i, nth_name kind (S i) ≠ kind) as H.
  { intros i E%app_same. done. }
  intros [|i] [|j] E; [done|by destruct (H j)|by destruct (H i)|]. cbn [nth_name] in E.
  apply (inj (String.app kind)), (inj (String.app "-")), (inj itoa) in E. lia.
Qed.

Lemma free_name_spec taken kind fuel i :
  (∀ k, (k < i)%nat → nth_name kind k ∈ taken) → (size taken < i + fuel)%nat →
  ∃ j, free_name taken kind (nth_name kind i) (Z.of_nat i + 2) fuel = nth_name kind j ∧
    nth_name kind j ∉ taken ∧ ∀ k, (k < j)%nat → nth_name kind k ∈ taken.
Proof.
  revert i. induction fuel as [|fuel IH]; intros i Hi Hsize.
  - exfalso. assert (list_to_set (map (nth_name kind) (seq 0 i)) ⊆ taken) as Hsub.
    { intros x. rewrite elem_of_list_to_set, list_elem_of_fmap. intros (k & -> & [_ Hk]%elem_of_seq). by apply Hi. }
    apply subseteq_size in Hsub. rewrite size_list_to_set, length_map, length_seq in Hsub; [lia|].
    apply (@NoDup_fmap_2 _ _ (nth_name kind) (nth_name_inj kind)), NoDup_seq.
  - cbn [free_name]. case_bool_decide as Hin; [|by exists i].
    assert (kind +:+ "-" +:+ itoa (Z.of_nat i + 2) = nth_name kind (S i)) as -> by (cbn [nth_name]; do 3 f_equal; lia).
    replace (Z.of_nat i + 2 + 1) with (Z.of_nat (S i) + 2) by lia. apply IH; [|lia].
    intros k Hk. destruct (decide (k = i)) as [->|]; [done|]. apply Hi. lia.
Qed.

(** The search for the name of a new agent ends, with the first of kind,
    kind-2, kind-3 … that no live agent carries. *)
Theorem uniqueName_first_free kind live :
  ∃ i, uniqueName kind live = nth_name kind i ∧ nth_name kind i ∉ map Name live ∧
    ∀ k, (k < i)%nat → nth_name kind k ∈ map Name live.
Proof.
  unfold uniqueName. set (taken := list_to_set (map Name live) : gset string).
  destruct (free_name_spec taken kind (S (length live)) 0) as (i & E & Hi & Hk); [lia| |].
  - assert (size taken ≤ length (map Name live))%nat; [|rewrite length_map in *; lia].
    unfold taken. generalize (map Name live). intros l. induction l as [|x l IH]; cbn; [by rewrite size_empty|].
    rewrite size_union_alt, size_singleton. assert (size (list_to_set l ∖ {[x]} : gset string) ≤ size (list_to_set l : gset string))%nat;
      [apply subseteq_size; set_solver|lia].
  - exists i. change (free_name taken kind kind 2 (S (length live)) = nth_name kind i) in E. split_and!; [exact E| |];
      [intros Hin|intros k Hlt]; [apply Hi; unfold taken; by apply elem_of_list_to_set|].
    specialize (Hk k Hlt). unfold taken in Hk. by rewrite elem_of_list_to_set in Hk.
Qed.

(** ** Sample runs *)

Definition sample_inbound : Config := mkConfig 1 "token" "bot" (-100) "group" [1] [2] "info" 0.
Definition sample_start : world appE bridge := mkWorld (mkBridge newOutbound (newInbound sample_inbound)) [].
Definition topic_run (text : string) : option error * world appE bridge :=
  interp (sample_ports StatusIdle) (HandleTopic (U := latin1_tables) no_text 0 true (mkTopicMessage 7 41 1 text 0)) sample_start.

Lemma topic_message_acts_once_witness :
  acts (topic_run "go on").2 = [ActPrompt "p1" "go on"] ∧
  (acts (topic_run "go on").2 = acts sample_start ∨
   ∃ key agent a, acts (topic_run "go on").2 = a :: acts sample_start ∧ agent_act (PaneID key) a ∧
     Ev (KeyOfThread 7) (Some key) ∈ trace (topic_run "go on").2 ∧ Ev (AgentOf key) (Some agent) ∈ trace (topic_run "go on").2).
Proof.
  split; [vm_compute; reflexivity|].
  refine (topic_message_acts_once (U := latin1_tables) no_text 0 true (mkTopicMessage 7 41 1 "go on" 0) sample_start
            (topic_run "go on").1 (topic_run "go on").2 _).
  exact (interp_exec anything (sample_ports StatusIdle) (HandleTopic (U := latin1_tables) no_text 0 true (mkTopicMessage 7 41 1 "go on" 0))
           sample_start (λ _ _ _, I)).
Defined.

Definition observer_asks : GeneralCommand := mkGeneralCommand 50 2 "/status" RoleObserver.
Definition observer_run : option error * world appE bridge :=
  interp (sample_ports StatusIdle) (HandleGeneral (U := latin1_tables) no_text (-100) 0 true true true observer_asks) sample_start.

Lemma observer_only_reads_witness :
  map OText (sent observer_run.2) = ["no agents"] ∧
  acts observer_run.2 = acts sample_start ∧ st observer_run.2 = st sample_start ∧
  (sent observer_run.2 = sent sample_start ∨ ∃ text html, sent observer_run.2 = quoting 0 50 text false html :: sent sample_start ∧
     observer_may (CmdKind (ParseCommand (U := latin1_tables) "/status" "bot")) = true).
Proof.
  split; [vm_compute; reflexivity|].
  refine (observer_only_reads (U := latin1_tables) no_text (-100) 0 true true true observer_asks sample_start
            observer_run.1 observer_run.2 eq_refl _).
  exact (interp_exec anything (sample_ports StatusIdle) (HandleGeneral (U := latin1_tables) no_text (-100) 0 true true true observer_asks)
           sample_start (λ _ _ _, I)).
Defined.

(** /close is asked, and Yes is pressed. *)
Definition close_press : ButtonPressed := mkButtonPressed "cb" 7 100 1 closeYes.
Definition close_run : option error * world appE bridge :=
  interp (sample_ports StatusIdle) (PressClose no_text close_press) (topic_run "/close").2.

Lemma close_needs_last_question_witness :
  closed_panes close_run.2 = ["p1"] ∧
  (closed_panes close_run.2 = closed_panes (topic_run "/close").2 ∨
   ∃ key agent, closed_panes close_run.2 = PaneID key :: closed_panes (topic_run "/close").2 ∧ BtnData close_press = closeYes ∧
     Ev (KeyOfThread 7) (Some key) ∈ trace close_run.2 ∧ Ev (AgentOf key) (Some agent) ∈ trace close_run.2 ∧
     close_asked key (topic_run "/close").2 = Some 100 ∧ close_asked key close_run.2 = None).
Proof.
  split; [vm_compute; reflexivity|].
  refine (close_needs_last_question no_text close_press (topic_run "/close").2 close_run.1 close_run.2 _).
  exact (interp_exec anything (sample_ports StatusIdle) (PressClose no_text close_press) (topic_run "/close").2 (λ _ _ _, I)).
Defined.
