(* ===== verification/Bridge.v ===== *)
(** internal/app/bridge.go: the goroutine that serves the jobs of the daemon
    loop with the handlers of Outbound.v and Inbound.v.

    The gateway its handlers write to is the redacting one (Redact.v).  A job
    that does not fit the buffer is dropped and counted; a job of a type the
    switch of [Submit] does not name is dropped too. *)
From S2P Require Import Prelude GoStrings Errors Status Mapping Command Config Events AppText OptionRegistry Registry Presence Redact Eff AppPorts.
From S2P Require Import StatusView Panel Outbound OutboundProps Inbound.

Local Open Scope Z_scope.
Local Open Scope eff_scope.

(** internal/app/consts.go. *)
Definition bridgeBuffer : nat := 256.

Inductive job :=
  | JAgentEvent (ev : AgentEvent)
  | JLiveOutput (key : Key) (lines : list string)
  | JButton (ev : ButtonPressed)
  | JTopicMessage (msg : TopicMessage)
  | JTopicAttachment (at_ : TopicAttachment)
  | JInboxResult (r : inboxResult)
  | JGeneralCommand (cmd : GeneralCommand)
  | JStrangerSeen (ev : StrangerSeen)
  | JPresenceAway
  | JStartResult (r : startResult).

(** The types the switch of [Submit] lets through. *)
Definition known_type (j : job) : bool := match j with JStrangerSeen _ => false | _ => true end.

Record Bridge := mkBridgeState {
  state : bridge; jobs : list job; dropped : Z; handled : Z; fatal : option error
}.

Definition Submit (b : Bridge) (j : job) : Bridge :=
  if negb (known_type j) then b
  else if Nat.ltb (length (jobs b)) bridgeBuffer
  then mkBridgeState (state b) (jobs b ++ [j]) (dropped b) (handled b) (fatal b)
  else mkBridgeState (state b) (jobs b) (dropped b + 1) (handled b) (fatal b).

Section Bridge.
Context {U : UnicodeTables} (hashText : string → string) (error_text : error → string).
Context (config : Config) (replies : bool) (zone : Z).
Context (hasStore hasGit hasInbox hasPresence hasSince : bool).
Local Notation prog := (prog appE bridge).

Definition NewBridge : Bridge := mkBridgeState (mkBridge newOutbound (newInbound config)) [] 0 0 None.

Definition CallFire (key : Key) : prog (option error) :=
  outb (Fire hashText (ChatID config) (OperatorIDs config) replies key).

(** The press of a button belongs to the panel, to a /close question or to a dialog. *)
Definition handle_button (ev : ButtonPressed) : prog (option error) :=
  if has_prefix (BtnData ev) panelPrefix then paneled (PressPanel error_text ev)
  else if has_prefix (BtnData ev) closePrefix then PressClose error_text ev
  else outb (Press error_text ev).

(** [handle]: what the job does, and the error [run] gets to see. *)
Definition handle (j : job) : prog (option error) :=
  match j with
  | JAgentEvent ev =>
    do _ ← outb (Observe ev);
    match AEKind ev with
    | AgentGone => do _ ← Forget_in (event_key ev); outb (Forget (event_key ev))
    | _ => nil_
    end
  | JLiveOutput key lines => outb (Live_post key lines)
  | JButton ev => handle_button ev
  | JTopicMessage msg => HandleTopic error_text zone hasGit msg
  | JTopicAttachment at_ => HandleAttachment hasInbox at_
  | JInboxResult r => InboxFinished error_text r
  | JGeneralCommand cmd => HandleGeneral error_text (ChatID config) zone hasStore hasPresence hasSince cmd
  | JStrangerSeen ev => do _ ← HandleStranger ev; nil_
  | JPresenceAway => outb (CatchUp hashText (ChatID config) (OperatorIDs config) replies)
  | JStartResult r => StartFinished error_text r
  end.

(** What the loop of [Run] takes next: a job, or a key one of the debouncers
    has released. *)
Inductive input := InJob (j : job) | InScreen (key : Key) | InCommand (key : Key) | InTurn (key : Key).

Definition serve (i : input) : prog (option error) :=
  match i with
  | InJob j => handle j
  | InScreen key => CallFire key
  | InCommand key => Fire_in error_text key
  | InTurn key => outb (EndTurn key)
  end.

(** The error policy of [run]: the first fatal error is kept for the daemon. *)
Definition report (b : Bridge) (err : option error) : Bridge :=
  match fatal_only err, fatal b with
  | Some e, None => mkBridgeState (state b) (jobs b) (dropped b) (handled b) (Some e)
  | _, _ => b
  end.

(** ** The loop and what feeds it *)

(** The bridge and the trace of its ports. *)
Definition bworld := (Bridge * list (event appE))%type.

Inductive bstep : bworld → bworld → Prop :=
  | bridge_submit b h j : bstep (b, h) (Submit b j, h)
  | bridge_job b h j js r w :
      jobs b = j :: js → exec anything (handle j) (mkWorld (state b) h) r w →
      bstep (b, h) (report (mkBridgeState (st w) js (dropped b) (handled b + 1) (fatal b)) r, trace w)
  | bridge_due b h i r w :
      match i with InJob _ => False | _ => True end → exec anything (serve i) (mkWorld (state b) h) r w →
      bstep (b, h) (report (mkBridgeState (st w) (jobs b) (dropped b) (handled b) (fatal b)) r, trace w).

(** What a background task does, and the job it submits when it is over. *)
Definition run_task (t : task) : prog job :=
  match t with
  | StartTask messageID workspace kind name paneID started =>
    do r ← ask (HerdrStartAgent name kind paneID agentStartTimeout);
    Ret (JStartResult (mkStartResult messageID workspace kind name paneID r started))
  | DownloadTask key threadID messageID caption parts max started =>
    do r ← fetch_all error_text zone parts max [] [];
    Ret (JInboxResult (mkInboxResult key threadID messageID caption r.1 r.2 (Z.of_nat (length parts)) started))
  end.
End Bridge.

(** * What the bridge goroutine promises whatever job it serves: the errors it
    reports, the reactions it pays, who is listed to the operator. *)
Section Bridge.
Context {U : UnicodeTables} (hashText : string → string) (error_text : error → string).
Context (config : Config) (replies : bool) (zone : Z).
Context (hasStore hasGit hasInbox hasPresence hasSince : bool).
Local Notation prog := (prog appE bridge).
Local Notation world := (world appE bridge).
Notation fatal := (errs (λ e, isFatal e = true)).

(** ** Errors *)

Lemma fatal_outb (p : Eff.prog appE outbound (option error)) : fatal p → fatal (outb p).
Proof. apply returns_zoom; [done|done|by intros []]. Qed.
Lemma fatal_paneled (p : Eff.prog appE panel (option error)) : fatal p → fatal (paneled p).
Proof. apply returns_zoom; [done|done|by intros [o []]]. Qed.
Lemma fatal_last {S} err : fatal (Ret (fatal_only err) : Eff.prog appE S _).
Proof. apply returns_ret, fatal_only_ok. Qed.
Lemma fatal_iabsorb (p : prog (option error)) : fatal (iabsorb p).
Proof. apply errs_then. intros e. apply fatal_last. Qed.
Lemma fatal_reply (thread message : Z) (text : string) : fatal (reply thread message text).
Proof. apply fatal_iabsorb. Qed.
Lemma fatal_or {S} e (p : Eff.prog appE S (option error)) : fatal p → fatal (if isFatal e then fail e else p).
Proof. intros H. destruct (isFatal e) eqn:He; [by apply returns_ret|exact H]. Qed.
Lemma fatal_failed msg err : fatal (failed error_text msg err).
Proof. apply fatal_or, fatal_reply. Qed.
Hint Resolve fatal_outb fatal_paneled fatal_last fatal_iabsorb fatal_reply fatal_failed : frames.
Hint Resolve fatal_edit fatal_answer fatal_stale fatal_absorb : frames.


(** *** The panel *)

Lemma fatal_panel_edit message text bs : fatal (panel_edit message text bs).
Proof. unfold panel_edit. apply errs_then. intros [e|]; [apply fatal_or|]; errands. Qed.
Hint Resolve fatal_panel_edit : frames.
Lemma fatal_show message v : fatal (show message v).
Proof. unfold show. errands. Qed.
Lemma fatal_panel_answer c t : fatal (panel_answer c t).
Proof. unfold panel_answer. errands. Qed.
Hint Resolve fatal_show fatal_panel_answer : frames.
Lemma fatal_PressPanel ev : fatal (PressPanel error_text ev).
Proof. unfold PressPanel, panel_close, panel_reset, panel_toggle, panel_pick. errands. Qed.
Lemma fatal_Open cmd : fatal (Open cmd).
Proof. unfold Open. errands. Qed.
Hint Resolve fatal_PressPanel fatal_Open : frames.

(** *** The inbound *)

Lemma fatal_PromptSent key thread message : fatal (PromptSent key thread message).
Proof. exact (fatal_serve hashText error_text (ChatID config) (OperatorIDs config) replies (HPrompt key thread message)). Qed.
Lemma fatal_TypingDone key w text : fatal (TypingDone key w text).
Proof. exact (fatal_serve hashText error_text (ChatID config) (OperatorIDs config) replies (HTyped key w text)). Qed.
Lemma fatal_CancelTyping key : fatal (CancelTyping key).
Proof. exact (fatal_serve hashText error_text (ChatID config) (OperatorIDs config) replies (HCommand key)). Qed.
Hint Resolve fatal_PromptSent fatal_TypingDone fatal_CancelTyping : frames.

Lemma fatal_topic_command msg key agent cmd : fatal (topic_command error_text zone hasGit msg key agent cmd).
Proof.
  unfold topic_command, gitCommand, control, askClose, forward, herdrCall. errands.
Qed.
Hint Resolve fatal_topic_command : frames.
Lemma fatal_HandleTopic msg : fatal (HandleTopic error_text zone hasGit msg).
Proof. unfold HandleTopic, route_topic, typed. errands. Qed.
Lemma fatal_HandleGeneral cmd :
  fatal (HandleGeneral error_text (ChatID config) zone hasStore hasPresence hasSince cmd).
Proof. unfold HandleGeneral, startAgent, observers. errands. Qed.
Lemma fatal_Fire_in key : fatal (Fire_in error_text key).
Proof. unfold Fire_in, fireAlbum, fireSubmit, fire_command, follow_screen, dismiss. errands. Qed.
Lemma fatal_PressClose ev : fatal (PressClose error_text ev).
Proof. unfold PressClose, edit_closing. errands. Qed.
Lemma fatal_HandleAttachment at_ : fatal (HandleAttachment hasInbox at_).
Proof. unfold HandleAttachment. errands. Qed.
Lemma fatal_InboxFinished r : fatal (InboxFinished error_text r).
Proof. unfold InboxFinished. errands. Qed.
Lemma fatal_StartFinished r : fatal (StartFinished error_text r).
Proof. unfold StartFinished. errands. Qed.
Hint Resolve fatal_HandleTopic fatal_HandleGeneral fatal_Fire_in fatal_PressClose fatal_HandleAttachment
  fatal_InboxFinished fatal_StartFinished : frames.

(** Whatever job, timer or press the bridge goroutine serves and whatever
    the ports answer, the error [run] gets is nil or one of the three that stop
    the daemon: every other failure is dealt with inside the handler. *)
Theorem bridge_only_fatal i :
  errs (λ e, isFatal e = true) (serve hashText error_text config replies zone hasStore hasGit hasInbox hasPresence hasSince i).
Proof.
  destruct i as [j|key|key|key]; cbn [serve]; [destruct j; cbn [handle]|..]; try (errands; fail).
  - apply errs_then. intros _. destruct (AEKind ev); [apply errs_nil|apply errs_nil|apply errs_then; intros _].
    apply fatal_outb, (fatal_serve hashText error_text (ChatID config) (OperatorIDs config) replies (HGone (event_key ev))).
  - apply fatal_outb, (fatal_serve hashText error_text (ChatID config) (OperatorIDs config) replies (HLive key lines)).
  - unfold handle_button. destruct (has_prefix _ panelPrefix); [errands|]. destruct (has_prefix _ closePrefix); [errands|].
    apply fatal_outb, fatal_Press.
  - apply fatal_outb, (fatal_serve hashText error_text (ChatID config) (OperatorIDs config) replies HCatchUp).
  - apply fatal_outb, (fatal_serve hashText error_text (ChatID config) (OperatorIDs config) replies (HSettled key)).
  - apply fatal_outb, (fatal_serve hashText error_text (ChatID config) (OperatorIDs config) replies (HIdle key)).
Qed.

(** ** Reactions *)

(** The turns and reactions of the bridge. *)
Definition bseen (w : world) := seen (part bout w).
Definition settled_up (w : world) : Prop := Paid (part bout w).
Definition bkeeps {A} (p : prog A) : Prop := ∀ w, settled_up w → wp anything p w (λ _, settled_up).

Lemma bkeeps_frames {A} (p : prog A) : frames bseen p → bkeeps p.
Proof. intros Hp w Hw. eapply wp_mono; [|apply Hp]. intros a w' H. exact (Paid_seen _ _ H Hw). Qed.
Lemma bkeeps_bind {A B} (p : prog A) (k : A → prog B) : bkeeps p → (∀ a, bkeeps (k a)) → bkeeps (bind p k).
Proof. intros Hp Hk w Hw. apply wp_bind. eapply wp_mono; [|by apply Hp]. intros a w'. apply Hk. Qed.
Lemma bkeeps_ret {A} (a : A) : bkeeps (Ret a).
Proof. by intros w. Qed.
Lemma bkeeps_outb {A} (p : Eff.prog appE outbound A) : keeps p → bkeeps (outb p).
Proof.
  intros Hp w Hw. eapply wp_mono; [|apply (wp_zoom anything bout set_out p w (λ _, Paid)); [done|done|by intros []|by apply Hp]].
  intros a w' [H _]. exact H.
Qed.
Lemma bframes_outb {A} (p : Eff.prog appE outbound A) : frames seen p → frames bseen (outb p).
Proof. by apply frames_zoom; [..|intros []]. Qed.

(** The panel does not react and has no turns. *)
Definition reacts {S} (w : Eff.world appE S) : list (Z * Z * string) :=
  omap (λ e, match e with Ev o _ => match o with TgReact th m emoji => Some (th, m, emoji) | _ => None end end) (trace w).

Lemma bframes_paneled {A} (p : Eff.prog appE panel A) : frames reacts p → frames bseen (paneled p).
Proof.
  intros Hp w. eapply wp_mono; [|apply (wp_zoom anything _ _ p w (λ _ w', reacts w' = reacts w)); [done|done|by intros [o []]|]].
  - intros a [s h] [H E]. cbn in E. unfold bseen, seen. cbn. rewrite E. f_equal. exact H.
  - exact (Hp (mkWorld (ipanel (bin (st w))) (trace w))).
Qed.

Hint Resolve bframes_outb bframes_paneled : frames.
Hint Resolve blind_retire blind_edit blind_answer blind_clean blind_opts blind_stale blind_press blind_mark : frames.

Lemma still_last id : frames reacts (set_last id).
Proof. unfold set_last. framed. Qed.
Hint Resolve still_last : frames.
Lemma still_panel_edit message text bs : frames reacts (panel_edit message text bs).
Proof. unfold panel_edit, fail. framed. Qed.
Hint Resolve still_panel_edit : frames.
Lemma still_show message v : frames reacts (show message v).
Proof. unfold show. framed. Qed.
Lemma still_answer0 c t : frames reacts (answer0 c t).
Proof. unfold answer0. framed. Qed.
Hint Resolve still_show still_answer0 : frames.
Lemma still_PressPanel ev : frames reacts (PressPanel error_text ev).
Proof. unfold PressPanel, panel_close, panel_reset, panel_toggle, panel_pick, panel_answer. framed. Qed.
Lemma still_Open cmd : frames reacts (Open cmd).
Proof. unfold Open. framed. Qed.
Hint Resolve still_PressPanel still_Open : frames.

Lemma still_reply thread message text : frames bseen (reply thread message text).
Proof. unfold reply, iabsorb, send_quiet. framed. Qed.
Hint Resolve still_reply : frames.
Lemma still_failed msg err : frames bseen (failed error_text msg err).
Proof. unfold failed, fail. framed. Qed.
Hint Resolve still_failed : frames.
Lemma still_gitCommand msg agent spec : frames bseen (gitCommand error_text zone hasGit msg agent spec).
Proof. unfold gitCommand, iabsorb, send_quiet. framed. Qed.
Lemma still_edit_closing m t : frames bseen (edit_closing m t).
Proof. unfold edit_closing, absorb. apply bframes_outb. framed. Qed.
Hint Resolve still_gitCommand still_edit_closing : frames.
Lemma still_PressClose ev : frames bseen (PressClose error_text ev).
Proof. unfold PressClose, igets, imodify. framed. Qed.
Lemma still_askClose msg key agent : frames bseen (askClose msg key agent).
Proof. unfold askClose, igets, imodify. framed. Qed.
Lemma still_forward msg key agent cmd : frames bseen (forward error_text msg key agent cmd).
Proof. unfold forward, imodify. framed. Qed.
Hint Resolve still_PressClose still_askClose still_forward : frames.
Lemma still_screen key cmd : frames bseen (outb (if All cmd then ScreenAll zone key else ScreenPost key (CmdLines cmd))).
Proof. apply bframes_outb. destruct (All cmd); [unfold ScreenAll|unfold ScreenPost]; unfold fail; framed. Qed.
Hint Resolve still_screen : frames.

(** Everything of the inbound but the prompts. *)
Lemma still_download key th m c ps mx : frames bseen (startDownload key th m c ps mx : prog _).
Proof. unfold startDownload. framed. Qed.
Hint Resolve still_download : frames.
Lemma still_Fire_in key : frames bseen (Fire_in error_text key).
Proof.
  unfold Fire_in, fireAlbum, fireSubmit, fire_command, follow_screen, dismiss, igets, imodify, iabsorb, send_quiet. framed.
Qed.
Lemma still_agent_lines v agents : frames bseen (agent_lines v agents : prog _).
Proof. induction agents as [|a agents IH]; cbn [agent_lines]; unfold agent_line; framed. Qed.
Hint Resolve still_agent_lines : frames.
Lemma still_summary : frames bseen (statusSummary (ChatID config) zone hasPresence hasSince).
Proof. unfold statusSummary, presenceHeaderText, view_render, view_body. framed. Qed.
Lemma still_stranger_lines l : frames bseen (stranger_lines l).
Proof. induction l as [|s l IH]; cbn [stranger_lines]; unfold strangerLine; framed. Qed.
Hint Resolve still_summary still_stranger_lines : frames.
Lemma still_HandleGeneral cmd : frames bseen (HandleGeneral error_text (ChatID config) zone hasStore hasPresence hasSince cmd).
Proof.
  unfold HandleGeneral, startAgent, observers, changeObserver, observersList, away, here, igets, imodify, iabsorb, send_quiet. framed.
Qed.
Lemma still_HandleAttachment at_ : frames bseen (HandleAttachment hasInbox at_).
Proof. unfold HandleAttachment, imodify. framed. Qed.
Lemma still_StartFinished r : frames bseen (StartFinished error_text r).
Proof. unfold StartFinished. framed. Qed.

Lemma blind_take key : frames seen (TakeTyping key).
Proof. unfold TakeTyping, endTyping. framed. Qed.
Lemma blind_typed key w text : frames seen (TypingDone key w text).
Proof. unfold TypingDone. framed. Qed.
Lemma blind_cancel key : frames seen (CancelTyping key).
Proof. unfold CancelTyping, endTyping. framed. Qed.
Hint Resolve blind_take blind_typed blind_cancel still_Fire_in still_HandleGeneral still_HandleAttachment still_StartFinished : frames.

Lemma bkeeps_prompt key thread message : bkeeps (outb (PromptSent key thread message)).
Proof. apply bkeeps_outb, keeps_PromptSent. Qed.

(** A walk that stops at the prompts. *)
Ltac kept :=
  repeat first
    [ apply bkeeps_prompt
    | apply bkeeps_frames; solve [framed]
    | match goal with
      | |- ∀ _, _ => intro
      | |- bkeeps (bind _ _) => apply bkeeps_bind
      | |- bkeeps (match ?x with _ => _ end) => destruct x
      | |- bkeeps (if ?x then _ else _) => destruct x
      end ].

Lemma bkeeps_topic_command msg key agent cmd : bkeeps (topic_command error_text zone hasGit msg key agent cmd).
Proof. unfold topic_command, control, herdrCall. kept. Qed.
Lemma bkeeps_route_topic msg key agent : bkeeps (route_topic error_text zone hasGit msg key agent).
Proof. apply bkeeps_bind; [apply bkeeps_frames; unfold igets; framed|intros c; apply bkeeps_topic_command]. Qed.
Lemma bkeeps_HandleTopic msg : bkeeps (HandleTopic error_text zone hasGit msg).
Proof. unfold HandleTopic, typed. repeat first [apply bkeeps_route_topic | progress kept]. Qed.
Lemma bkeeps_InboxFinished r : bkeeps (InboxFinished error_text r).
Proof. unfold InboxFinished. kept. Qed.

Local Notation serve := (serve hashText error_text config replies zone hasStore hasGit hasInbox hasPresence hasSince).
Local Notation bstep := (bstep hashText error_text config replies zone hasStore hasGit hasInbox hasPresence hasSince).

Lemma bkeeps_handler h :
  bkeeps (outb (OutboundProps.serve hashText error_text (ChatID config) (OperatorIDs config) replies h)).
Proof. apply bkeeps_outb, keeps_serve. Qed.

Lemma bkeeps_serve i : bkeeps (serve i).
Proof.
  destruct i as [[ev|key lines|ev|msg|at_|r|cmd|ev| |r]|key|key|key]; cbn [Bridge.serve handle].
  - apply bkeeps_bind.
    + apply bkeeps_outb, keeps_Observe.
    + intros _. destruct (AEKind ev); [apply bkeeps_ret|apply bkeeps_ret|].
      apply bkeeps_bind; [apply bkeeps_frames; unfold Forget_in, imodify; framed|intros _].
      apply (bkeeps_handler (HGone (event_key ev))).
  - apply (bkeeps_handler (HLive key lines)).
  - unfold handle_button. apply bkeeps_frames.
    pose proof still_PressClose. destruct (has_prefix _ panelPrefix); [framed|]. destruct (has_prefix _ closePrefix); [done|framed].
  - apply bkeeps_HandleTopic.
  - apply bkeeps_frames. framed.
  - apply bkeeps_InboxFinished.
  - apply bkeeps_frames. framed.
  - apply bkeeps_frames. unfold HandleStranger, imodify. framed.
  - apply (bkeeps_handler HCatchUp).
  - apply bkeeps_frames. framed.
  - apply (bkeeps_handler (HSettled key)).
  - apply bkeeps_frames. framed.
  - apply (bkeeps_handler (HIdle key)).
Qed.

(** ** Runs of the bridge *)

Lemma report_state b e : state (report b e) = state b.
Proof. unfold report. by repeat case_match. Qed.
Lemma Submit_state b j : state (Submit b j) = state b.
Proof. unfold Submit. by repeat case_match. Qed.

(** What every served input keeps holds after every run. *)
Lemma bstep_inv (I : world → Prop) :
  (∀ i w, I w → (∀ ev, i ≠ InJob (JStrangerSeen ev)) → wp anything (serve i) w (λ _, I)) →
  ∀ x y, (∀ j, j ∈ jobs x.1 → known_type j = true) → I (mkWorld (state x.1) x.2) → rtc bstep x y → I (mkWorld (state y.1) y.2).
Proof.
  intros Hs x y. intros Hj HI Hr. revert Hj HI. induction Hr as [x|x y z Hxy _ IH]; [done|]. intros Hj HI.
  destruct Hxy as [b h j|b h j js r w Hjs He|b h i r w Hi He]; cbn in *.
  - apply IH; cbn; [|by rewrite Submit_state]. unfold Submit. destruct (known_type j) eqn:Hk; [|done]. cbn [negb].
    destruct (Nat.ltb (length (jobs b)) bridgeBuffer); cbn; [|done]. intros j'. rewrite elem_of_app, list_elem_of_singleton. intros [?| ->]; auto.
  - apply IH; cbn.
    + unfold report. repeat case_match; cbn; intros j' ?; apply Hj; rewrite Hjs; by right.
    + rewrite report_state. cbn. assert (known_type j = true) as Hk by (apply Hj; rewrite Hjs; by left).
      destruct w as [s t]. refine (wp_exec He (Q := λ _, I) (Hs (InJob j) _ HI _)). intros ev [= ->]. done.
  - apply IH; cbn.
    + unfold report. repeat case_match; cbn; done.
    + rewrite report_state. cbn. destruct w as [s t]. refine (wp_exec He (Q := λ _, I) (Hs i _ HI _)). by intros ev ->.
Qed.

(** In every run of the bridge goroutine from its start, whatever is
    submitted, whichever timers fire and whatever Telegram, Herdr and the clock
    answer, no message gets more 👌 than 👀 were put on it: the mark of a
    finished turn is never paid twice and never unprompted. *)
Theorem bridge_reactions_paid b h th m :
  rtc bstep (NewBridge config, []) (b, h) →
  (reacted_with reactionDone th m (mkWorld (bout (state b)) h) ≤ reacted_with reactionTaken th m (mkWorld (bout (state b)) h))%nat.
Proof.
  intros Hr. assert (settled_up (mkWorld (state b) h)) as H; [|specialize (H th m); unfold part in H; cbn in *; lia].
  refine (bstep_inv settled_up _ (NewBridge config, []) (b, h) _ _ Hr).
  - intros i w Hw _. by apply bkeeps_serve.
  - intros j Hj. by apply elem_of_nil in Hj.
  - apply Paid_start.
Qed.

(** A stranger the daemon hands over never reaches the queue, although [handle]
    has a case that would put it on the list of /observers. *)
Lemma stranger_never_queued b ev w r w' :
  Submit b (JStrangerSeen ev) = b ∧
  (exec anything (serve (InJob (JStrangerSeen ev))) w r w' → head (strangers (bin (st w'))) = Some ev).
Proof.
  split; [done|]. intros He. refine (wp_exec He (Q := λ _ w', head (strangers (bin (st w'))) = Some ev) _). cbn.
  generalize (strangers (bin (st w))). intros l.
  assert (∀ k, head k = Some ev → head (foldl (λ kept s, if negb (StrFromID s =? StrFromID ev) && Nat.ltb (length kept) strangerKeep
    then kept ++ [s] else kept) k l) = Some ev) as H; [|by apply H].
  induction l as [|s l IH]; intros k Hk; cbn [foldl]; [done|]. apply IH. destruct (_ && _); [by destruct k|done].
Qed.
End Bridge.

(** A run: a prompt is submitted and served, and the turn ends. *)
Definition sample_config : Config := mkConfig 1 "token" "bot" (-100) "group" [1] [] "info" 0.
Definition idle_agent_ports : oracle (E := appE) := λ B o h,
  match o in appE B return B with
  | OptionsNow => (With DefaultOptions OptionPostsReactions "true").1
  | o => sample_ports StatusIdle _ o h
  end.
Definition sample_job : job := JTopicMessage (mkTopicMessage 7 41 1 "go on" 0).
Definition served (i : input) (s : bridge) (h : list (event appE)) : option error * world appE bridge :=
  interp idle_agent_ports (serve (U := latin1_tables) same_text no_text sample_config true 0 true true true true true i) (mkWorld s h).
Definition after_prompt := served (InJob sample_job) (state (NewBridge sample_config)) [].
Definition after_turn := served (InTurn sample_key) (st after_prompt.2) (trace after_prompt.2).

Definition finished : Bridge := mkBridgeState (st after_turn.2) [] 0 1 None.
Local Notation sample_step :=
  (bstep (U := latin1_tables) same_text no_text sample_config true 0 true true true true true).

Lemma bridge_reactions_paid_witness :
  (reacted_with reactionTaken 7 41 (part bout after_turn.2), reacted_with reactionDone 7 41 (part bout after_turn.2)) = (1, 1)%nat ∧
  (reacted_with reactionDone 7 41 (mkWorld (bout (state finished)) (trace after_turn.2))
   ≤ reacted_with reactionTaken 7 41 (mkWorld (bout (state finished)) (trace after_turn.2)))%nat.
Proof.
  split; [vm_compute; reflexivity|].
  refine (bridge_reactions_paid (U := latin1_tables) same_text no_text sample_config true 0 true true true true true
            finished (trace after_turn.2) 7 41 _).
  eapply rtc_l; [exact (bridge_submit _ _ _ _ _ _ _ _ _ _ _ _ sample_job)|].
  eapply rtc_l.
  { refine (bridge_job _ _ _ _ _ _ _ _ _ _ (Submit (NewBridge sample_config) sample_job) [] sample_job [] after_prompt.1 after_prompt.2 eq_refl _).
    exact (interp_exec anything idle_agent_ports (serve (U := latin1_tables) same_text no_text sample_config true 0 true true true true true
      (InJob sample_job)) (mkWorld (state (NewBridge sample_config)) []) (λ _ _ _, I)). }
  assert (after_prompt.1 = None) as E1 by (vm_compute; reflexivity). rewrite E1.
  eapply rtc_l; [|].
  { refine (bridge_due _ _ _ _ _ _ _ _ _ _ _ _ (InTurn sample_key) after_turn.1 after_turn.2 I _).
    exact (interp_exec anything idle_agent_ports (serve (U := latin1_tables) same_text no_text sample_config true 0 true true true true true
      (InTurn sample_key)) (mkWorld (st after_prompt.2) (trace after_prompt.2)) (λ _ _ _, I)). }
  assert (after_turn.1 = None) as E2 by (vm_compute; reflexivity). rewrite E2. apply rtc_refl.
Defined.
