(* ===== verification/Capture.v ===== *)
(** internal/app/capture.go: the output of working agents, stitched from
    screens read about once a second into one history per agent (History.v).

    A mutex guards the maps; it is held over each [modify], and over the whole
    of [capture_observe]. *)
From S2P Require Import Prelude GoStrings Errors Status History Events AppText Registry Eff AppPorts.

Local Open Scope Z_scope.
Local Open Scope eff_scope.

(** internal/app/consts.go. *)
Definition captureInterval : Duration := Second.
Definition captureGrace : Duration := 3 * Second.
Definition captureMarkMinAway : Duration := 5 * Second.
Definition captureReadTimeout : Duration := 5 * Second.
Definition captureLines : Z := 400.

Record Capture := mkCaptureState {
  hist : gmap Key History; clast : gmap Key string; cstatus : gmap Key Status; cleft : gmap Key Time
}.
Definition NewCapture : Capture := mkCaptureState ∅ ∅ ∅ ∅.

Definition on_hist f (c : Capture) := mkCaptureState (f (hist c)) (clast c) (cstatus c) (cleft c).
Definition on_clast f (c : Capture) := mkCaptureState (hist c) (f (clast c)) (cstatus c) (cleft c).
Definition on_cstatus f (c : Capture) := mkCaptureState (hist c) (clast c) (f (cstatus c)) (cleft c).
Definition on_cleft f (c : Capture) := mkCaptureState (hist c) (clast c) (cstatus c) (f (cleft c)).
Definition drop_key (key : Key) (c : Capture) :=
  mkCaptureState (delete key (hist c)) (delete key (clast c)) (delete key (cstatus c)) (delete key (cleft c)).

(** [history]: the key's history, empty when there is none yet. *)
Definition history_of (c : Capture) (key : Key) : History := default NewHistory (hist c !! key).

Section Capture.
Context {U : UnicodeTables} (hashText : string → string).
(** The fields tests shorten. *)
Context (Grace MinAway : Duration).
Local Notation prog := (prog appE Capture).

(** The last switch of [Observe], for a status now known to be [cur]. *)
Definition status_moved (key : Key) (prev : option Status) (cur : Status) : prog unit :=
  let was_working := bool_decide (prev = Some StatusWorking) in
  if String.eqb cur StatusWorking && negb was_working then
    do at_ ← gets (λ c, cleft c !! key);
    do away ← match at_ with
              | Some at_ =>
                do now ← ask Now;
                do _ ← modify (on_cleft (delete key));
                Ret (time_sub now at_)
              | None => Ret MinAway
              end;
    if bool_decide (is_Some prev) && (away <? MinAway) then Ret tt
    else modify (λ c, on_hist (insert key (Mark (history_of c key))) c)
  else if was_working && negb (String.eqb cur StatusWorking) then
    do now ← ask Now;
    modify (on_cleft (insert key now))
  else Ret tt.

Definition capture_observe (ev : AgentEvent) : prog unit :=
  let key := event_key ev in
  match AEKind ev with
  | AgentGone => modify (drop_key key)
  | _ =>
    let cur := AStatus (AEAgent ev) in
    do prev ← gets (λ c, cstatus c !! key);
    do _ ← modify (on_cstatus (insert key cur));
    status_moved key prev cur
  end.

Definition inGrace (key : Key) (now : Time) : prog bool :=
  gets (λ c, match cleft c !! key with Some at_ => time_sub now at_ <=? Grace | None => false end).

(** [merge]: the state with the screen appended, and the lines that scrolled
    off the live screen. *)
Definition merge (key : Key) (screen : Screen) (c : Capture) : Capture * list string :=
  let h := history_of c key in
  let hash := hashText (SText screen) in
  if String.eqb (default EmptyString (clast c !! key)) hash then (on_hist (insert key h) c, [])
  else
    let '(h', (added, _, gap)) := Append h (screenLines (SText screen)) in
    let lines := CommittedTail h' added in
    (on_hist (insert key h') (on_clast (insert key hash) c), if gap : bool then HistoryGapMarker :: lines else lines).

Definition capture_read (key : Key) : prog (result Screen) := ask (HerdrReadScreen (PaneID key) ScreenRecent captureLines).
Definition merging (key : Key) (screen : Screen) : prog (list string) := Upd (merge key screen) Ret.
Definition publish (key : Key) (lines : list string) : prog unit :=
  match lines with [] => Ret tt | _ => ask (PublishLines key lines) end.

Definition capture (key : Key) : prog unit :=
  do r ← capture_read key;
  match r with
  | Err _ => Ret tt
  | Ok screen => do lines ← merging key screen; publish key lines
  end.

Fixpoint tick_agents (now : Time) (agents : list Agent) : prog unit :=
  match agents with
  | [] => Ret tt
  | a :: agents =>
    do wanted ← (if String.eqb (AStatus a) StatusWorking then Ret true else inGrace (AKey a) now);
    do _ ← (if wanted : bool then capture (AKey a) else Ret tt);
    tick_agents now agents
  end.
Definition tick : prog unit :=
  do now ← ask Now;
  do agents ← ask LiveAgents;
  tick_agents now agents.

(** The lines after the last mark, whether there is a mark, or why the screen
    could not be read. *)
Definition Since (key : Key) : prog (result (list string * bool)) :=
  do r ← capture_read key;
  match r with
  | Err e => Ret (Err e)
  | Ok screen =>
    do added ← merging key screen;
    do h ← gets (λ c, history_of c key);
    do _ ← publish key added;
    Ret (Ok (Lines h, Marked h))
  end.
End Capture.
