(* ===== verification/DaemonPorts.v ===== *)
(** What the daemon loop asks: the reconciler, which the loop owns, and the
    ports it shares with the goroutines of the registry, the bridge and the
    capture.

    The loop and the dashboard are programs over [daemonE].  The operations of
    the reconciler are a family of their own, [recE]: the theorems about the
    loop hold for any reconciler that keeps [rec_contract]; Mirror.v puts the
    one of Reconciler.v behind them. *)
From S2P Require Import Prelude GoStrings Errors Status Mapping Config OptionRegistry Presence Events Registry AppText Eff Gateway AppPorts StatusView Outbound Inbound Bridge.

Local Open Scope Z_scope.

(** The methods of [Reconciler] the loop calls. *)
Inductive recE : Type → Type :=
  | RecHandle (ev : AgentEvent) : recE (option error)
  | RecFire (key : Key) : recE (option error)
  | RecFlush : recE (option error)
  | RecReconcile (live : list Agent) : recE (option error)
  | RecResync (live : list Agent) : recE (option error)
  | RecSweep (maxAge : Duration) (canDelete : bool) : recE (Z * option error)
  | RecTopicClosed (thread : Z) : recE (option error)
  | RecTopicReopened (thread : Z) : recE (option error)
  | RecTopicRenamed (thread : Z) (name : string) : recE (bool * option error)
  | RecSetReadOnly (ro : bool) : recE unit
  | RecReadOnly : recE bool
  | RecSetDashboardID (id : Z) : recE unit
  | RecDashboardID : recE Z.

Inductive daemonE : Type → Type :=
  | App {B} (o : appE B) : daemonE B
  | Rec {B} (o : recE B) : daemonE B
  (* TelegramGateway *)
  | TgRights : daemonE (result Rights)
  | TgProbeDirect (user : Z) : daemonE (option error)
  | TgPin (message : Z) : daemonE (option error)
  | TgUnpin (message : Z) : daemonE (option error)
  | TgDeleteMessage (message : Z) : daemonE (option error)
  | TgSetStatusIcons (icons : StatusIcons) : daemonE unit
  | TgSetNoticeDelay (delay : Duration) (del : bool) : daemonE unit
  (* HerdrGateway *)
  | HerdrNotify (title body : string) : daemonE (option error)
  (* the registry *)
  | RegistrySnapshot : daemonE (list AgentEvent * option error)
  | RegistryHealth : daemonE Health
  | RegistryRequest : daemonE unit
  (* presence, bridge, capture, inbox *)
  | PresencePoll : daemonE unit
  | PresenceRecompute : daemonE unit
  | PresenceChanges : daemonE (option bool)
  | BridgeSubmit (j : job) : daemonE unit
  | BridgeDropped : daemonE Z
  | CaptureObserve (ev : AgentEvent) : daemonE unit
  | InboxSweep (maxAge : Duration) : daemonE (Z * option error)
  (* the debouncer of the dashboard *)
  | DashSchedule : daemonE unit
  | DashCancel : daemonE unit.

Definition app {S B} (o : appE B) : prog daemonE S B := call (App o).
Definition rec {S B} (o : recE B) : prog daemonE S B := call (Rec o).
Definition asked {S B} (o : daemonE B) : prog daemonE S B := call o.

(** A program of the bridge's ports on the loop. *)
Definition on_loop {S A} (p : prog appE S A) : prog daemonE S A := embed (@App) p.

(** Ports that succeed at everything and know of nothing, for sample runs. *)
Definition idle_rec {B} (o : recE B) : B :=
  match o in recE B return B with
  | RecSweep _ _ => (0, None)
  | RecTopicRenamed _ _ => (false, None)
  | RecReadOnly => false
  | RecDashboardID => 0
  | _ => ltac:(first [exact None | exact tt])
  end.
Definition idle_daemon {B} (o : daemonE B) : B :=
  match o in daemonE B return B with
  | App a => idle_port a
  | Rec r => idle_rec r
  | TgRights => Ok (mkRights true true true true true)
  | RegistrySnapshot => ([], None)
  | RegistryHealth => mkHealth 0 None 0
  | BridgeDropped => 0
  | InboxSweep _ => (0, None)
  | _ => ltac:(first [exact None | exact tt])
  end.
