(* ===== verification/Dashboard.v ===== *)
(** internal/app/dashboard.go: the pinned message in General that shows the
    overview of the agents.

    It runs on the daemon loop; [Observe_dash], [Since] and [Schedule_dash] are
    safe from elsewhere because the mutex and the atomic flag make them single
    steps. Log lines are left out, and with them the flag that keeps the
    warning about a missing pin right at one. *)
From S2P Require Import Prelude GoStrings Errors Status Mapping AppText OptionRegistry Registry Presence Redact Eff AppPorts StatusView DaemonPorts.

Local Open Scope Z_scope.
Local Open Scope eff_scope.

(** internal/app/consts.go. *)
Definition dashboardMaxAgents : Z := 40.

Record Dashboard := mkDash {
  since : gmap Key Time;
  last : gmap Key Status;
  lastHash : string;
  hasMessage : bool
}.

Definition set_times (s : gmap Key Time) (l : gmap Key Status) (b : Dashboard) : Dashboard :=
  mkDash s l (lastHash b) (hasMessage b).
Definition set_hash (h : string) (b : Dashboard) : Dashboard := mkDash (since b) (last b) h (hasMessage b).
Definition set_message (m : bool) (b : Dashboard) : Dashboard := mkDash (since b) (last b) (lastHash b) m.

Definition dashboardOffText : string := "<i>dashboard is off (/options → Sync)</i>".
Definition footer_updated (at_ : string) : string := "<i>updated " +:+ at_ +:+ "</i>".
Definition footer_stopped (at_ : string) : string := "<i>⏹ stopped " +:+ at_ +:+ "</i>".

Section Dashboard.
Context (hashText : string → string) (chatID zone : Z) (hasPresence : bool).
Local Notation prog := (prog daemonE Dashboard).

(** The atomic flag starts as what the reconciler has stored. *)
Definition NewDashboard : prog unit :=
  do id ← rec RecDashboardID; modify (λ _, mkDash ∅ ∅ "" (negb (id =? 0))).

Definition Schedule_dash : prog unit :=
  do o ← app OptionsNow;
  do has ← gets hasMessage;
  if negb (DashboardEnabled o) && negb has then Ret tt else asked DashSchedule.

Definition Observe_dash (ev : AgentEvent) : prog unit :=
  let key := event_key ev in
  let cur := AStatus (AEAgent ev) in
  do _ ← match AEKind ev with
         | AgentGone => modify (λ b, set_times (delete key (since b)) (delete key (last b)) b)
         | AgentAppeared => modify (λ b, set_times (delete key (since b)) (<[key := cur]> (last b)) b)
         | AgentChanged =>
           do prev ← gets (λ b, last b !! key);
           if bool_decide (prev = Some cur) then modify (λ b, set_times (since b) (<[key := cur]> (last b)) b)
           else
             do now ← app Now;
             modify (λ b, set_times (<[key := now]> (since b)) (<[key := cur]> (last b)) b)
         end;
  Schedule_dash.

Definition setID (id : Z) : prog unit :=
  do _ ← rec (RecSetDashboardID id); modify (set_message (negb (id =? 0))).

(** [view]; the footer is set by the caller. *)
Definition dash_view : prog statusView :=
  do agents ← app LiveAgents;
  do o ← app OptionsNow;
  do o' ← app OptionsNow;
  do o'' ← app OptionsNow;
  do header ← on_loop (presenceHeaderText zone hasPresence (QuietEnabled o''));
  do times ← gets since;
  do now ← app Now;
  Ret (mkStatusView agents true (OptStatusIcons o) (negb (SyncEnabled o')) header chatID times now "" dashboardMaxAgents).

Definition with_footer (footer : string) (v : statusView) : statusView :=
  mkStatusView (svAgents v) (svTopics v) (svIcons v) (svSyncOff v) (svPresence v) (svChatID v) (svSince v) (svNow v)
    footer (svMaxAgents v).

Definition Stop : prog unit :=
  do id ← rec RecDashboardID;
  do o ← app OptionsNow;
  if (id =? 0) || negb (DashboardEnabled o) then Ret tt
  else
    do _ ← asked DashCancel;
    do v ← dash_view;
    do now ← app Now;
    do text ← on_loop (view_render (with_footer (footer_stopped (wallClock zone now)) v));
    do _ ← app (TgEditText id text true []);
    Ret tt.

(** [failed]: only a fatal error goes on. *)
Definition dash_failed (err : error) : prog (option error) := Ret (fatal_only (Some err)).

(** [pin]; whether it worked only reaches the log. *)
Definition pin (id : Z) : prog unit := do _ ← asked (TgPin id); Ret tt.

Definition Repin : prog unit :=
  do id ← rec RecDashboardID;
  do o ← app OptionsNow;
  if (id =? 0) || negb (DashboardEnabled o) then Ret tt
  else
    do err ← asked (TgPin id);
    match err with
    | None => Ret tt
    | Some e =>
      if errors_is e ErrMessageGone then do _ ← setID 0; modify (set_hash "")
      else pin id
    end.

Definition forget_message : prog (option error) :=
  do _ ← setID 0; do _ ← modify (set_hash ""); nil_.

Definition remove (id : Z) : prog (option error) :=
  do _ ← asked (TgUnpin id);
  do err ← asked (TgDeleteMessage id);
  match err with
  | None => forget_message
  | Some e =>
    if errors_is e ErrMessageGone then forget_message
    else
      must dash_failed e;
      if context_error e then nil_
      else
        do err ← app (TgEditText id dashboardOffText true []);
        match err with
        | None => forget_message
        | Some e' =>
          if errors_is e' ErrMessageGone then forget_message
          else must dash_failed e'; forget_message
        end
  end.

(** The second half of [refresh]: a new message, pinned. *)
Definition dash_create (text hash : string) : prog (option error) :=
  do sent ← app (TgSend (mkOutgoing 0 text false true false 0 0 false [] false "" 0));
  match sent with
  | Err e => dash_failed e
  | Ok id =>
    do _ ← pin id;
    do _ ← setID id;
    do _ ← modify (set_hash hash);
    nil_
  end.

Definition refresh : prog (option error) :=
  do id ← rec RecDashboardID;
  do o ← app OptionsNow;
  if negb (DashboardEnabled o) then (if id =? 0 then nil_ else remove id)
  else
    do v ← dash_view;
    do body ← on_loop (view_body v);
    let hash := hashText body in
    do lasth ← gets lastHash;
    if negb (id =? 0) && String.eqb hash lasth then nil_
    else
      do text ← on_loop (view_render (with_footer (footer_updated (wallClock zone (svNow v))) v));
      if id =? 0 then dash_create text hash
      else
        do err ← app (TgEditText id text true []);
        match err with
        | None => do _ ← modify (set_hash hash); nil_
        | Some e => if errors_is e ErrMessageGone then dash_create text hash else dash_failed e
        end.

Definition Fire_dash : prog (option error) := refresh.
Definition Tick : prog (option error) := refresh.
Definition Enable (on : bool) : prog (option error) := refresh.
End Dashboard.

(** * The dashboard shows itself once: whatever fails, the only message of it
    that looks alive is the one the mapping stores. *)
(** The message the reconciler stores, [i] at the start. *)
Fixpoint stored (i : Z) (h : list (event daemonE)) : Z :=
  match h with
  | [] => i
  | @Ev _ _ o _ :: h =>
    match o with
    | Rec r => match r with RecSetDashboardID id => id | _ => stored i h end
    | _ => stored i h
    end
  end.

(** The reconciler answers what was stored last, and Telegram numbers its
    messages from one. *)
Definition dash_legal (i : Z) (h : list (event daemonE)) (B : Type) (o : daemonE B) (b : B) : Prop :=
  match o in daemonE B return B → Prop with
  | Rec r => match r in recE B return B → Prop with RecDashboardID => λ b, b = stored i h | _ => λ _, True end
  | App a => match a in appE B return B → Prop with TgSend _ => λ r, r ≠ Ok 0 | _ => λ _, True end
  | _ => λ _, True
  end b.

Definition message_set (id : Z) : gset Z := if id =? 0 then ∅ else {[ id ]}.

(** What an answer says of a message: it is gone. *)
Definition says_gone (e : option error) : bool :=
  match e with Some e => errors_is e ErrMessageGone | None => false end.
Definition says_done (e : option error) : bool := match e with None => true | Some e => errors_is e ErrMessageGone end.
Definition without (gone : bool) (id : Z) (s : gset Z) : gset Z := if gone then s ∖ {[ id ]} else s.

(** The dashboard messages that look alive: sent, and since then neither
    deleted, nor reported gone, nor turned into the off note. *)
Definition shown_step (s : gset Z) {B} (o : daemonE B) : B → gset Z :=
  match o in daemonE B return B → gset Z with
  | App a =>
    match a in appE B return B → gset Z with
    | TgSend _ => λ r, match r with Ok id => s ∪ {[ id ]} | Err _ => s end
    | TgEditText id text _ _ => λ e, without (if String.eqb text dashboardOffText then says_done e else says_gone e) id s
    | _ => λ _, s
    end
  | TgPin id => λ e, without (says_gone e) id s
  | TgDeleteMessage id => λ e, without (says_done e) id s
  | _ => λ _, s
  end.
Fixpoint shown (i : Z) (h : list (event daemonE)) : gset Z :=
  match h with [] => message_set i | Ev o b :: h => shown_step (shown i h) o b end.

(** The messages whose off note did not arrive. *)
Definition abandoned_step (s : gset Z) {B} (o : daemonE B) : B → gset Z :=
  match o in daemonE B return B → gset Z with
  | App a =>
    match a in appE B return B → gset Z with
    | TgEditText id text _ _ =>
      λ e, if String.eqb text dashboardOffText && negb (says_done e) then s ∪ {[ id ]} else s
    | _ => λ _, s
    end
  | _ => λ _, s
  end.
Fixpoint abandoned (h : list (event daemonE)) : gset Z :=
  match h with [] => ∅ | Ev o b :: h => abandoned_step (abandoned h) o b end.

(** What reaches the dashboard. *)
Inductive dash_cmd :=
  | CObserve (ev : AgentEvent) | CSchedule | CFire | CTick | CEnable (on : bool) | CStop | CRepin.

Section DashboardProps.
Context (hashText : string → string) (chatID zone : Z) (hasPresence : bool) (i : Z).
Local Notation prog := (prog daemonE Dashboard).
Local Notation world := (world daemonE Dashboard).

Definition run_dash (c : dash_cmd) : prog (option error) :=
  match c with
  | CObserve ev => do _ ← Observe_dash ev; nil_
  | CSchedule => do _ ← Schedule_dash; nil_
  | CFire => Fire_dash hashText chatID zone hasPresence
  | CTick => Tick hashText chatID zone hasPresence
  | CEnable on => Enable hashText chatID zone hasPresence on
  | CStop => do _ ← Stop chatID zone hasPresence; nil_
  | CRepin => do _ ← Repin; nil_
  end.

Definition seen (w : world) := (shown i (trace w), stored i (trace w), abandoned (trace w)).
Definition one_message (w : world) : Prop :=
  shown i (trace w) ⊆ message_set (stored i (trace w)) ∪ abandoned (trace w).

(** ** What the views ask *)

Definition view_op {B} (o : appE B) : Prop :=
  match o with EntryOf _ => True | PresenceNow => True | _ => False end.

Lemma asks_agent_lines {S} v agents : asks_only (@view_op) (@agent_lines S v agents).
Proof.
  induction agents as [|a agents IH]; [done|]. cbn [agent_lines].
  apply asks_only_bind; [|intros ?; apply asks_only_bind; [exact IH|done]].
  unfold agent_line. apply asks_only_bind; [|done]. destruct (svTopics v); [|done]. cbn. naive_solver.
Qed.

Lemma asks_view_body {S} v : asks_only (@view_op) (@view_body S v).
Proof. unfold view_body. destruct (merge_sort _ _); [done|]. apply asks_only_bind; [apply asks_agent_lines|done]. Qed.

Lemma asks_view_render {S} v : asks_only (@view_op) (@view_render S v).
Proof. apply asks_only_bind; [apply asks_view_body|done]. Qed.

Lemma asks_presence {S} b : asks_only (@view_op) (@presenceHeaderText S zone hasPresence b).
Proof. unfold presenceHeaderText. case_match; cbn; naive_solver. Qed.

(** They leave the messages alone. *)
Lemma seen_view {A} (p : Eff.prog appE Dashboard A) : asks_only (@view_op) p → frames seen (on_loop p).
Proof. apply frames_embed; [|done]. by intros B o b w; destruct o. Qed.

Lemma seen_dash_view : frames seen (dash_view chatID zone hasPresence).
Proof.
  unfold dash_view.
  repeat first
    [ apply frames_bind; [|intros ?] | apply frames_ret | apply frames_gets
    | apply seen_view, asks_presence | apply frames_call; intros; reflexivity ].
Qed.

Lemma seen_Schedule : frames seen Schedule_dash.
Proof.
  unfold Schedule_dash.
  repeat first [ apply frames_bind; [|intros ?] | apply frames_ret | apply frames_gets
    | case_match | apply frames_call; intros; reflexivity ].
Qed.

Lemma seen_Observe ev : frames seen (Observe_dash ev).
Proof.
  unfold Observe_dash. apply frames_bind; [|intros []; apply seen_Schedule].
  repeat first [ case_match | apply frames_bind; [|intros ?] | apply frames_gets
    | apply frames_modify; intros; reflexivity | apply frames_call; intros; reflexivity ].
Qed.

(** ** The writes *)

Local Notation wp := (wp (dash_legal i)).

Lemma wp_setID id w Q :
  (∀ w', stored i (trace w') = id → shown i (trace w') = shown i (trace w) → abandoned (trace w') = abandoned (trace w) → Q tt w') →
  wp (setID id) w Q.
Proof. intros HQ [] _. by apply HQ. Qed.

(** [w'] shows no message [w] did not show, stores the same, and has given up on no fewer. *)
Record no_more (w w' : world) : Prop := {
  more_shown : shown i (trace w') ⊆ shown i (trace w);
  more_stored : stored i (trace w') = stored i (trace w);
  more_abandoned : abandoned (trace w) ⊆ abandoned (trace w')
}.

Lemma no_more_one w w' : no_more w w' → one_message w → one_message w'.
Proof. intros [Hs Hi Ha]. unfold one_message. rewrite Hi. set_solver. Qed.

Lemma without_sub b id s : without b id s ⊆ s.
Proof. destruct b; set_solver. Qed.

Lemma without_sub' (b : bool) (x y : bool) id s : without (if b then x else y) id s ⊆ s.
Proof. apply without_sub. Qed.

Lemma wp_pin id w Q : (∀ w', no_more w w' → Q tt w') → wp (pin id) w Q.
Proof. intros HQ e _. apply HQ. split; [apply without_sub|done..]. Qed.

Lemma one_forgotten w : shown i (trace w) ⊆ abandoned (trace w) → wp forget_message w (λ _, one_message).
Proof.
  intros H. unfold forget_message. apply wp_bind, wp_setID. intros w1 Hi Hs Ha. cbn.
  unfold one_message. cbn. rewrite Hi, Hs, Ha. set_solver.
Qed.

Lemma one_created text hash w :
  one_message w → shown i (trace w) ⊆ abandoned (trace w) → wp (dash_create text hash) w (λ _, one_message).
Proof.
  intros H1 H. apply wp_ask. intros [id|e] Hid; [|exact H1]. cbn in Hid.
  apply wp_bind, wp_pin. intros w1 [Hs _ Ha]. apply wp_bind, wp_setID. intros w2 Hi Hs' Ha'.
  cbn. unfold one_message. cbn. rewrite Hi, Hs', Ha'. cbn in Hs, Ha |- *. unfold message_set.
  rewrite (proj2 (Z.eqb_neq id 0)) by congruence. set_solver.
Qed.

(** A message that is gone or marked off is not shown. *)
Lemma one_removed id w :
  one_message w → stored i (trace w) = id → wp (remove id) w (λ _, one_message).
Proof.
  intros H1 Hi. apply wp_ask. intros e0 _. apply wp_ask. intros e1 _. set (w1 := told _ _ (told _ _ w)).
  assert (Hsub : shown i (trace w) ⊆ {[ id ]} ∪ abandoned (trace w)).
  { unfold one_message in H1. rewrite Hi in H1. unfold message_set in H1. destruct (id =? 0); set_solver. }
  assert (Hgone : says_done e1 = true → shown i (trace w1) ⊆ abandoned (trace w1)) by (intros E; cbn; rewrite E; set_solver).
  assert (Hkeep : one_message w1) by (apply (no_more_one w); [split; [apply without_sub|done..]|done]).
  destruct e1 as [e1|]; [|by apply one_forgotten, Hgone].
  destruct (errors_is e1 ErrMessageGone) eqn:E1; [by apply one_forgotten, Hgone|].
  unfold dash_failed. cbn [bind]. destruct (fatal_only (Some e1)); [exact Hkeep|].
  destruct (context_error e1); [exact Hkeep|].
  apply wp_ask. intros e2 _. set (w2 := told _ _ w1).
  assert (Hoff : shown i (trace w2) ⊆ abandoned (trace w2)).
  { cbn. rewrite E1. cbn. destruct e2 as [e2|]; cbn; [destruct (errors_is e2 ErrMessageGone)|]; set_solver. }
  destruct e2 as [e2|]; [|by apply one_forgotten].
  destruct (errors_is e2 ErrMessageGone); [by apply one_forgotten|].
  cbn [bind]. destruct (fatal_only (Some e2)); [|by apply one_forgotten].
  cbn. unfold one_message. set_solver.
Qed.

Lemma one_refresh w : one_message w → wp (refresh hashText chatID zone hasPresence) w (λ _, one_message).
Proof.
  intros H1. unfold refresh. apply wp_ask. intros id Hid. cbn in Hid. apply wp_ask. intros o _. set (w1 := told _ _ (told _ _ w)).
  assert (Hone : one_message w1) by exact H1.
  assert (Hst : stored i (trace w1) = id) by done. clearbody w1. clear H1 Hid w.
  destruct (DashboardEnabled o); cbn [negb].
  2: { destruct (id =? 0); [exact Hone|by apply one_removed]. }
  apply (wp_framed_part _ seen); [apply seen_dash_view|]. intros v w2 E2.
  apply (wp_framed_part _ seen); [apply seen_view, asks_view_body|]. intros body w3 E3.
  apply wp_look.
  assert (E : seen w3 = seen w1) by congruence. unfold seen in E. injection E as Es Ei Ea.
  assert (Hone3 : one_message w3) by (unfold one_message; by rewrite Es, Ei, Ea).
  destruct (negb (id =? 0) && _); [exact Hone3|].
  apply (wp_framed_part _ seen); [apply seen_view, asks_view_render|]. intros text w4 E4.
  injection E4 as Es4 Ei4 Ea4.
  assert (Hone4 : one_message w4) by (unfold one_message; by rewrite Es4, Ei4, Ea4).
  assert (Hst4 : stored i (trace w4) = id) by congruence. clear -Hone4 Hst4.
  destruct (Z.eqb_spec id 0) as [->|Hne].
  { apply one_created; [done|]. unfold one_message in Hone4. rewrite Hst4 in Hone4. cbn in Hone4. set_solver. }
  apply wp_ask. intros e _. set (w5 := told _ _ w4).
  assert (Hone5 : one_message w5).
  { apply (no_more_one w4); [|done]. split; [apply without_sub'|done|].
    cbn. destruct (_ && _); set_solver. }
  destruct e as [e|]; [|exact Hone5]. destruct (errors_is e ErrMessageGone) eqn:Eg; [|exact Hone5].
  apply one_created; [done|]. cbn. rewrite Eg. unfold one_message in Hone4. rewrite Hst4 in Hone4.
  unfold message_set in Hone4. rewrite (proj2 (Z.eqb_neq id 0)) in Hone4 by done.
  destruct (String.eqb text dashboardOffText); cbn; set_solver.
Qed.

Lemma one_Stop w : one_message w → wp (Stop chatID zone hasPresence) w (λ _, one_message).
Proof.
  intros H1. unfold Stop. apply wp_ask. intros id _. apply wp_ask. intros o _. destruct (_ || _); [exact H1|].
  apply wp_ask. intros [] _. set (w1 := told _ _ _). assert (Hone : one_message w1) by exact H1. clearbody w1.
  apply (wp_framed_part _ seen); [apply seen_dash_view|]. intros v w2 E2. apply wp_ask. intros now _.
  apply (wp_framed_part _ seen); [apply seen_view, asks_view_render|]. intros text w3 E3.
  assert (E : seen w3 = seen w1) by (rewrite E3; exact E2). injection E as Es Ei Ea.
  apply wp_ask. intros e _. apply (no_more_one w3).
  - split; [apply without_sub'|done|]. cbn. destruct (_ && _); set_solver.
  - unfold one_message. by rewrite Es, Ei, Ea.
Qed.

Lemma one_Repin w : one_message w → wp Repin w (λ _, one_message).
Proof.
  intros H1. unfold Repin. apply wp_ask. intros id Hid. cbn in Hid. apply wp_ask. intros o _.
  destruct (Z.eqb_spec id 0); cbn [orb]; [exact H1|]. destruct (negb _); [exact H1|].
  apply wp_ask. intros e _. set (w1 := told _ _ _).
  assert (Hone : one_message w1) by (apply (no_more_one w); [split; [apply without_sub|done..]|done]).
  destruct e as [e|]; [|exact Hone]. destruct (errors_is e ErrMessageGone) eqn:Eg.
  - apply wp_bind, wp_setID. intros w2 Hi Hs Ha. cbn. unfold one_message. cbn. rewrite Hi, Hs, Ha. cbn. rewrite Eg. cbn.
    unfold one_message in H1. rewrite <-Hid in H1. unfold message_set in H1. rewrite (proj2 (Z.eqb_neq id 0)) in H1 by done.
    set_solver.
  - apply wp_pin. intros w2 H2. by apply (no_more_one w1).
Qed.

Lemma one_run c w : one_message w → wp (run_dash c) w (λ _, one_message).
Proof.
  intros H1. assert (Hframe : ∀ p : prog unit, frames seen p → wp (do _ ← p; nil_) w (λ _, one_message)).
  { intros p Hp. apply (wp_framed_part _ seen); [done|]. intros a w' E. injection E as Es Ei Ea.
    cbn. unfold one_message. by rewrite Es, Ei, Ea. }
  destruct c; cbn [run_dash].
  - apply Hframe, seen_Observe.
  - apply Hframe, seen_Schedule.
  - by apply one_refresh.
  - by apply one_refresh.
  - by apply one_refresh.
  - apply wp_bind. eapply wp_mono; [|by apply one_Stop]. by intros [].
  - apply wp_bind. eapply wp_mono; [|by apply one_Repin]. by intros [].
Qed.

(** C11: there is one dashboard. Whatever sequence of registry events, refreshes,
    minute ticks, option changes, repins and shutdown edits the dashboard goes
    through, and whatever Telegram and the other ports answer, the dashboard
    messages that still look alive (posted, and not yet deleted, reported gone
    or turned into the off note) are the one message the mapping stores and
    those whose off note Telegram refused. *)
Theorem dashboard_one_message s cs w' :
  session (dash_legal i) run_dash (mkWorld s []) cs w' →
  shown i (trace w') ⊆ message_set (stored i (trace w')) ∪ abandoned (trace w').
Proof.
  intros Hs. refine (session_inv one_message (λ _, True) _ _ _ Hs).
  - intros c w _ H. by apply one_run.
  - by apply Forall_true.
  - unfold one_message. cbn. set_solver.
Qed.
End DashboardProps.

(** ** A sample run, and an orphan *)

Definition dash_on : Options := (With DefaultOptions OptionSyncDashboard "true").1.
Definition dash_off : Options := (With DefaultOptions OptionSyncDashboard "false").1.

(** Ports that keep the stored id; [refused] is what deletions and edits answer. *)
Definition dash_ports (i : Z) (o : Options) (refused : option error) : oracle (E := daemonE) := λ B op h,
  match op in daemonE B return B with
  | Rec r => match r in recE B return B with RecDashboardID => stored i h | r => idle_rec r end
  | App a => match a in appE B return B with OptionsNow => o | TgEditText _ _ _ _ => refused | a => idle_port a end
  | TgDeleteMessage _ => refused
  | op => idle_daemon op
  end.

Lemma dash_ports_legal i o refused h B (op : daemonE B) : dash_legal i h B op (dash_ports i o refused B op h).
Proof. destruct op; try done; destruct o0; done. Qed.

Lemma dashboard_one_message_witness :
  let run := interp_all (run_dash (λ t, t) (-100) 0 true) (dash_ports 0 dash_on None) [CFire; CTick] (mkWorld (mkDash ∅ ∅ "" false) []) in
  stored 0 (trace run.2) = 100 ∧
  shown 0 (trace run.2) ⊆ message_set (stored 0 (trace run.2)) ∪ abandoned (trace run.2).
Proof.
  intros run. split; [by vm_compute|].
  apply (dashboard_one_message (λ t, t) (-100) 0 true 0 (mkDash ∅ ∅ "" false) run.1 run.2).
  apply interp_all_session. apply dash_ports_legal.
Defined.

(** The comment of [remove] promises that switching the option on again never
    leaves a live-looking orphan; a message Telegram neither deletes nor edits
    is forgotten all the same. *)
Lemma off_note_orphan :
  let run := interp (dash_ports 7 dash_off (Some (Opaque "timeout"))) (refresh (λ t, t) (-100) 0 true)
               (mkWorld (mkDash ∅ ∅ "" true) []) in
  run.1 = None ∧ stored 7 (trace run.2) = 0 ∧ shown 7 (trace run.2) = {[ 7 ]}.
Proof. by vm_compute. Qed.
