(* ===== verification/Daemon.v ===== *)
(** internal/app/daemon.go: the event loop.

    [start] is [Run] up to its loop and [wakeup] the body of the loop for one
    channel the [select] may have found ready, with the value received; which
    one that is, is left open, so a run of the loop is any list of [wake]s.
    Options hooks run on the goroutine of the bridge and only leave requests in
    channels of capacity one, which are flags here.  Log lines, contexts and
    their timeouts are left out. *)
From S2P Require Import Prelude GoStrings Errors Status Mapping GoTime Config Events AppText OptionRegistry AppOptions Registry Presence TgErrors.
From S2P Require Import Redact Eff Gateway TurnMeta AppPorts StatusView Outbound Inbound Bridge DaemonPorts Dashboard.
Local Open Scope Z_scope.
Local Open Scope eff_scope.

Definition socketGrace : Duration := 60 * Second.
Definition healthInterval : Duration := 5 * Second.
Definition notifyTitle : string := "Telegram Agents".
(** internal/app/consts.go. *)
Definition dropReportInterval : Duration := Minute.

Record Daemon := mkDaemon {
  cfg : Config;
  rights : Rights;
  pagerNoticed : bool;
  started : Time;
  lastDropped : Z;
  lastDropReport : Time;
  resync : bool;
  sweep : bool;
  probe : bool;
  dash : Dashboard
}.

Definition with_cfg f (d : Daemon) := mkDaemon (f (cfg d)) (rights d) (pagerNoticed d) (started d) (lastDropped d) (lastDropReport d) (resync d) (sweep d) (probe d) (dash d).
Definition set_rights_now r (d : Daemon) := mkDaemon (cfg d) r (pagerNoticed d) (started d) (lastDropped d) (lastDropReport d) (resync d) (sweep d) (probe d) (dash d).
Definition set_noticed b (d : Daemon) := mkDaemon (cfg d) (rights d) b (started d) (lastDropped d) (lastDropReport d) (resync d) (sweep d) (probe d) (dash d).
Definition set_started t (d : Daemon) := mkDaemon (cfg d) (rights d) (pagerNoticed d) t (lastDropped d) (lastDropReport d) (resync d) (sweep d) (probe d) (dash d).
Definition set_dropped n t (d : Daemon) := mkDaemon (cfg d) (rights d) (pagerNoticed d) (started d) n t (resync d) (sweep d) (probe d) (dash d).
Definition set_resync b (d : Daemon) := mkDaemon (cfg d) (rights d) (pagerNoticed d) (started d) (lastDropped d) (lastDropReport d) b (sweep d) (probe d) (dash d).
Definition set_sweep b (d : Daemon) := mkDaemon (cfg d) (rights d) (pagerNoticed d) (started d) (lastDropped d) (lastDropReport d) (resync d) b (probe d) (dash d).
Definition set_probe b (d : Daemon) := mkDaemon (cfg d) (rights d) (pagerNoticed d) (started d) (lastDropped d) (lastDropReport d) (resync d) (sweep d) b (dash d).
Definition set_dash (d : Daemon) (b : Dashboard) := mkDaemon (cfg d) (rights d) (pagerNoticed d) (started d) (lastDropped d) (lastDropReport d) (resync d) (sweep d) (probe d) b.

Definition set_chat (id : Z) (c : Config) : Config :=
  mkConfig (Config.Version c) (BotToken c) (BotUsername c) id (ChatTitle c) (OperatorIDs c) (ObserverIDs c) (LogLevel c) (ConfiguredAt c).
Definition set_manage (b : bool) (r : Rights) : Rights :=
  mkRights (IsForum r) (IsAdmin r) b (RCanDeleteMessages r) (RCanPinMessages r).
Definition days (d : Duration) : Z := Z.quot d (24 * Hour).

(** What a step of the loop ends with. *)
Inductive flow := Continue | Exit (err : option error).

Inductive wake :=
  | WPresenceTick
  | WPresence (quiet : bool)
  | WDone (cause : option error)
  | WEvent (ev : AgentEvent)
  | WFatal (e : error)
  | WDashDue
  | WDashTick
  | WProbe
  | WDue (key : Key)
  | WTelegram (ev : option Event)
  | WResync
  | WSweep
  | WSweepTick
  | WHealth.

Definition pick_chat (e : error) : option Z := match e with ChatMigratedError id => Some id | _ => None end.

Section Daemon.
Context (hashText : string → string) (error_text : error → string) (version : string) (zone : Z) (hasInbox : bool).
Context (SocketGrace : Duration).
(** The chat the dashboard was built for: a migration does not reach it. *)
Context (dashChat : Z).
Local Notation prog := (prog daemonE Daemon).

Definition dashed {A} (p : Eff.prog daemonE Dashboard A) : prog A := zoom dash set_dash p.
Definition dash_schedule : prog unit := dashed Schedule_dash.

(** ** Notices *)

Definition title : string := if String.eqb version "" then notifyTitle else notifyTitle +:+ " " +:+ version.

Definition general (text : string) : prog unit :=
  do _ ← app (TgSend (mkOutgoing 0 text false false false 0 0 false [] false "" 0)); Ret tt.

Definition notify (body : string) : prog unit := do _ ← asked (HerdrNotify notifyTitle body); Ret tt.

Definition fatal_reason (chat : string) (err : error) : string :=
  if errors_is err ErrBotUnauthorized then "Telegram rejected the bot token. Run the setup action."
  else if errors_is err ErrPollerConflict then "another process is polling this bot. Stop it, then start Telegram Agents again."
  else if errors_is err ErrForbidden then "the bot was removed from " +:+ chat +:+ ". Add it back as an administrator or run the setup action."
  else "stopped: " +:+ error_text err.

Context {U : UnicodeTables}.

(** [fmt.Sprintf("%q", d.cfg.ChatTitle)]. *)
Definition chat_quoted : prog string := gets (λ d, quote (ChatTitle (cfg d))).

Definition fatal (err : error) : prog (option error) :=
  do chat ← chat_quoted;
  do _ ← notify (fatal_reason chat err);
  fail err.

Definition handleErr (err : option error) : prog (option error) :=
  match err with
  | None => nil_
  | Some e =>
    match errors_as pick_chat e with
    | Some id =>
      do _ ← modify (with_cfg (set_chat id));
      do c ← gets cfg;
      do _ ← app (ConfigSave c);
      do _ ← notify "the Telegram group id changed; restart Telegram Agents to continue";
      nil_
    | None => if context_error e then nil_ else fatal e
    end
  end.

(** [d.handleErr(ctx, m)]. *)
Definition checked (m : prog (option error)) : prog (option error) := do err ← m; handleErr err.

(** ** Requests *)

Definition Resync : prog unit := modify (set_resync true).
Definition SweepNow : prog unit := modify (set_sweep true).
Definition ProbePager : prog unit := modify (set_probe true).

Definition applyNoticeDelay (cur : Options) : prog unit :=
  let '(delay, del) := OptionRegistry.NoticeDelay cur in asked (TgSetNoticeDelay delay del).

(** The hooks [NewDaemon] registers, in its order. *)
Definition option_hooks : list (string * (Options → prog unit)) :=
  [(OptionSyncEnabled, λ cur, do _ ← dash_schedule; if SyncEnabled cur then Resync else Ret tt);
   (OptionSyncDashboard, λ _, dash_schedule);
   (OptionPostsPager, λ cur, if PagerEnabled cur then ProbePager else Ret tt);
   ("icons.", λ cur,
      do _ ← asked (TgSetStatusIcons (OptStatusIcons cur));
      do _ ← dash_schedule;
      if SyncEnabled cur then Resync else Ret tt);
   (OptionNoticeDelay, applyNoticeDelay);
   (OptionDeleteAfterDays, λ cur, if DeleteAfter cur <=? 0 then Ret tt else SweepNow);
   (OptionInboxDeleteAfterDays, λ cur, if InboxDeleteAfter cur <=? 0 then Ret tt else SweepNow);
   ("quiet.", λ _, do _ ← asked PresenceRecompute; dash_schedule)].

(** What [Options.Set] runs for one changed key. *)
Fixpoint run_hooks (hooks : list (string * (Options → prog unit))) (key : string) (cur : Options) : prog unit :=
  match hooks with
  | [] => Ret tt
  | (p, f) :: hooks =>
    do _ ← (if hasPrefix key p then f cur else Ret tt);
    run_hooks hooks key cur
  end.
Definition option_changed (key : string) (cur : Options) : prog unit := run_hooks option_hooks key cur.

(** ** The pager *)

(** The loop over the operators: those whose chat takes messages, or the fatal
    error that ends it. *)
Fixpoint probe_operators (ops : list Z) (reachable : list Z) : prog (list Z * option error) :=
  match ops with
  | [] => Ret (reachable, None)
  | op :: ops =>
    do err ← asked (TgProbeDirect op);
    match err with
    | None => probe_operators ops (reachable ++ [op])
    | Some e =>
      if errors_is e ErrBotUnauthorized || errors_is e ErrPollerConflict
      then do err ← fatal e; Ret (reachable, err)
      else probe_operators ops reachable
    end
  end.

Definition probePager : prog (option error) :=
  do o ← app OptionsNow;
  if negb (PagerEnabled o) then nil_
  else
    do c ← gets cfg;
    do found ← probe_operators (OperatorIDs c) [];
    match found.2 with
    | Some e => Ret (Some e)
    | None =>
      let ok := negb (bool_decide (found.1 = [])) in
      do _ ← app (SetPagerReachable ok);
      if ok then do _ ← modify (set_noticed false); nil_
      else
        do noticed ← gets pagerNoticed;
        if noticed then nil_
        else do _ ← modify (set_noticed true); do _ ← general pagerNotice; nil_
    end.

(** ** Sweeps *)

Definition sweepInbox : prog unit :=
  if negb hasInbox then Ret tt
  else
    do o ← app OptionsNow;
    if InboxDeleteAfter o <=? 0 then Ret tt
    else do _ ← asked (InboxSweep (InboxDeleteAfter o)); Ret tt.

Definition runSweep : prog (option error) :=
  do o ← app OptionsNow;
  do r ← gets rights;
  must (do out ← rec (RecSweep (DeleteAfter o) (RCanDeleteMessages r)); handleErr out.2);
  do _ ← sweepInbox;
  nil_.

(** ** Passes *)

Definition handled_event (ev : AgentEvent) : prog (option error) := checked (rec (RecHandle ev)).

Definition replay (force : bool) : prog (option error) :=
  do snap ← asked RegistrySnapshot;
  must (each handled_event snap.1);
  must (checked (rec RecFlush));
  do live ← app LiveAgents;
  checked (if force then rec (RecResync live) else rec (RecReconcile live)).

(** The three consumers of a registry event beside the reconciler. *)
Definition pass_on (ev : AgentEvent) : prog unit :=
  do _ ← asked (CaptureObserve ev);
  do _ ← dashed (Observe_dash ev);
  asked (BridgeSubmit (JAgentEvent ev)).

Fixpoint pass_all (evs : list AgentEvent) : prog unit :=
  match evs with
  | [] => Ret tt
  | ev :: evs => do _ ← pass_on ev; pass_all evs
  end.

Definition checkRights : prog (option error) :=
  do r ← asked TgRights;
  match r with
  | Err e => if isFatal e then fatal e else nil_
  | Ok r =>
    do _ ← modify (set_rights_now r);
    do chat ← chat_quoted;
    if negb (IsForum r) then
      do _ ← rec (RecSetReadOnly true);
      do _ ← notify (chat +:+ " is not a forum group: enable Topics in the group settings");
      nil_
    else if negb (RCanManageTopics r) then
      do _ ← rec (RecSetReadOnly true);
      do _ ← notify ("the bot cannot manage topics in " +:+ chat +:+ ": grant it the " +:+ dquote +:+ "Manage topics" +:+ dquote +:+ " right");
      nil_
    else nil_
  end.

(** ** Telegram events *)

Definition rightsChanged (can : bool) : prog (option error) :=
  do _ ← modify (λ d, set_rights_now (set_manage can (rights d)) d);
  if negb can then
    do _ ← rec (RecSetReadOnly true);
    do chat ← chat_quoted;
    do _ ← notify ("the bot lost the " +:+ dquote +:+ "Manage topics" +:+ dquote +:+ " right in " +:+ chat +:+ "; topics are not updated until it is granted again");
    do _ ← general ("⚠️ the bot lost the " +:+ dquote +:+ "Manage topics" +:+ dquote +:+ " right; topics are not updated until it is granted again");
    nil_
  else
    do ro ← rec RecReadOnly;
    if ro then
      do _ ← rec (RecSetReadOnly false);
      do _ ← general ("✅ " +:+ dquote +:+ "Manage topics" +:+ dquote +:+ " right regained, topics are updated again");
      replay false
    else nil_.

Definition submit (j : job) : prog (option error) := do _ ← asked (BridgeSubmit j); nil_.

Definition onTelegramEvent (raw : Event) : prog (option error) :=
  match raw with
  | EvRightsChanged can => rightsChanged can
  | EvTopicMessage e => submit (JTopicMessage e)
  | EvTopicAttachment e => submit (JTopicAttachment e)
  | EvButtonPressed e => submit (JButton e)
  | EvGeneralCommand e => submit (JGeneralCommand e)
  | EvStrangerSeen e => submit (JStrangerSeen e)
  | EvTopicClosed thread => checked (rec (RecTopicClosed thread))
  | EvTopicReopened thread => checked (rec (RecTopicReopened thread))
  | EvTopicRenamed thread name =>
    do r ← rec (RecTopicRenamed thread name);
    do _ ← (if r.1 then asked RegistryRequest else Ret tt);
    handleErr r.2
  | EvHerdr _ => nil_
  end.

(** ** Health *)

Definition reportDrops (now : Time) : prog unit :=
  do n ← asked BridgeDropped;
  do d ← gets id;
  if n <=? lastDropped d then Ret tt
  else if negb (is_zero (lastDropReport d)) && (time_sub now (lastDropReport d) <? dropReportInterval) then Ret tt
  else modify (set_dropped n now).

Definition socketGone : prog bool :=
  do h ← asked RegistryHealth;
  match HLastErr h with
  | None => Ret false
  | Some _ =>
    do start ← gets started;
    let since := if is_zero (HLastOK h) || time_before (HLastOK h) start then start else HLastOK h in
    do now ← app Now;
    if SocketGrace <=? time_sub now since then Ret true
    else do _ ← asked RegistryRequest; Ret false
  end.

Definition shutdown : prog unit :=
  do _ ← general ("⏹ " +:+ title +:+ " stopping");
  do _ ← dashed (Stop dashChat zone true);
  do _ ← rec RecFlush;
  Ret tt.

(** ** The loop *)

(** [if err := m; err != nil { return err }], at the level of the loop. *)
Definition unless_error (m : prog (option error)) : prog flow :=
  do err ← m; Ret (match err with Some e => Exit (Some e) | None => Continue end).

Definition dash_refresh : prog (option error) :=
  dashed (refresh hashText dashChat zone true).

Definition wakeup (w : wake) : prog flow :=
  match w with
  | WPresenceTick => do _ ← asked PresencePoll; Ret Continue
  | WPresence quiet =>
    do _ ← dash_schedule;
    if quiet then Ret Continue
    else unless_error (must replay false; submit JPresenceAway)
  | WDone cause =>
    do _ ← shutdown;
    Ret (Exit match cause with
              | Some e => if is_foreign e CtxCanceled then None else Some e
              | None => None
              end)
  | WEvent ev => unless_error (must handled_event ev; do _ ← pass_on ev; nil_)
  | WFatal e => do _ ← shutdown; unless_error (fatal e)
  | WDashDue | WDashTick => unless_error (checked dash_refresh)
  | WProbe => do _ ← modify (set_probe false); unless_error probePager
  | WDue key => unless_error (checked (rec (RecFire key)))
  | WTelegram None => Ret Continue
  | WTelegram (Some raw) => unless_error (onTelegramEvent raw)
  | WResync => do _ ← modify (set_resync false); unless_error (replay true)
  | WSweep => do _ ← modify (set_sweep false); unless_error runSweep
  | WSweepTick => unless_error runSweep
  | WHealth =>
    do now ← app Now;
    do _ ← reportDrops now;
    do gone ← socketGone;
    if gone then
      do _ ← general ("⏹ " +:+ title +:+ ": Herdr socket unreachable for " +:+ duration_string SocketGrace +:+ ", exiting");
      do _ ← shutdown;
      Ret (Exit None)
    else Ret Continue
  end.

Definition start_reconcile : prog (option error) :=
  do live ← app LiveAgents; checked (rec (RecReconcile live)).

(** [Run] up to the loop. *)
Definition start : prog flow :=
  do now ← app Now;
  do _ ← modify (set_started now);
  do _ ← asked PresencePoll;
  do _ ← asked PresenceChanges;
  do o ← app OptionsNow;
  do _ ← asked (TgSetStatusIcons (OptStatusIcons o));
  do o ← app OptionsNow;
  do _ ← applyNoticeDelay o;
  unless_error
    (must checkRights;
     must probePager;
     do snap ← asked RegistrySnapshot;
     must start_reconcile;
     do _ ← dashed Repin;
     do _ ← dash_schedule;
     do _ ← pass_all snap.1;
     do live ← app LiveAgents;
     do o ← app OptionsNow;
     do _ ← general ("▶️ " +:+ title +:+ " started: " +:+ plural (Z.of_nat (length live)) "agent" +:+
                     (if SyncEnabled o then "" else " (sync off, see /options)"));
     runSweep).

(** The loop over the wakes the [select] found, until one of them ends it. *)
Fixpoint loop (ws : list wake) : prog flow :=
  match ws with
  | [] => Ret Continue
  | w :: ws => do f ← wakeup w; match f with Continue => loop ws | Exit err => Ret (Exit err) end
  end.

Definition Run (ws : list wake) : prog flow :=
  do f ← start; match f with Continue => loop ws | Exit err => Ret (Exit err) end.

(** ** Status *)

Record Stats := mkStats {
  StVersion : string; StPID : Z; StSince : Time; StAgents : Z; StDropped : Z; StHerdrOK : bool;
  StFailingSince : Time; StSyncOff : bool; StDeleteAfterDays : Z; StQuiet : string; StPager : string
}.

Definition pagerWord : prog string :=
  do o ← app OptionsNow;
  if negb (PagerEnabled o) then Ret "off"
  else do ok ← app PagerReachable; Ret (if ok then "on" else "unreachable").

(** [Stats]; the caller fills in the pid. *)
Definition stats : prog Stats :=
  do h ← asked RegistryHealth;
  do start ← gets started;
  do live ← app LiveAgents;
  do dropped ← asked BridgeDropped;
  do o ← app OptionsNow;
  do o' ← app OptionsNow;
  do p ← app PresenceNow;
  do pager ← pagerWord;
  let ok := match HLastErr h with None => true | Some _ => false end in
  Ret (mkStats version 0 start (Z.of_nat (length live)) dropped ok
         (if ok then time_zero
          else if is_zero (HLastOK h) || time_before (HLastOK h) start then start else HLastOK h)
         (negb (SyncEnabled o)) (days (DeleteAfter o')) (Word p) pager).

Definition StatsLine (s : Stats) (now : Time) : string :=
  let uptime := round_to (time_sub now (StSince s)) Second in
  let uptime := if is_zero (StSince s) || (uptime <? 0) then 0 else uptime in
  "version=" +:+ or_else (StVersion s) "dev" +:+
  " pid=" +:+ itoa (StPID s) +:+
  " uptime=" +:+ duration_string uptime +:+
  " agents=" +:+ itoa (StAgents s) +:+
  " dropped=" +:+ itoa (StDropped s) +:+
  " herdr=" +:+ (if StHerdrOK s then "ok"
                 else "failing since " +:+ duration_string (round_to (time_sub now (StFailingSince s)) Second)) +:+
  " sync=" +:+ (if StSyncOff s then "off" else "on") +:+
  " cleanup=" +:+ (if 0 <? StDeleteAfterDays s then itoa (StDeleteAfterDays s) +:+ "d" else "off") +:+
  " quiet=" +:+ or_else (StQuiet s) "off" +:+
  " pager=" +:+ or_else (StPager s) "off".
End Daemon.

(** * What ends the daemon: it dies of fatal errors only, and says so; it stops
    in order when it is told to or when the socket of Herdr stays gone. *)
(** The errors the reconciler does not absorb. *)
Definition rec_error (e : error) : Prop :=
  isFatal e = true ∨ is_Some (errors_as pick_chat e) ∨ context_error e = true.

(** What the loop relies on: the reconciler absorbs all other errors. *)
Definition rec_contract {B} (r : recE B) : B → Prop :=
  match r in recE B return B → Prop with
  | RecHandle _ | RecFire _ | RecFlush | RecReconcile _ | RecResync _ | RecTopicClosed _ | RecTopicReopened _ =>
    from_option rec_error True
  | RecSweep _ _ => λ out, from_option rec_error True out.2
  | RecTopicRenamed _ _ => λ out, from_option rec_error True out.2
  | _ => λ _, True
  end.
Definition daemon_legal (h : list (event daemonE)) (B : Type) (o : daemonE B) (b : B) : Prop :=
  match o in daemonE B return B → Prop with Rec r => rec_contract r | _ => λ _, True end b.

Section DaemonProps.
Context (hashText : string → string) (error_text : error → string) (version : string) (zone : Z) (hasInbox : bool).
Context (SocketGrace : Duration) (dashChat : Z) {U : UnicodeTables}.
Local Notation prog := (prog daemonE Daemon).
Local Notation world := (world daemonE Daemon).
Local Notation wp := (wp daemon_legal).

(** An answer that carries the error [e]. *)
Inductive says (e : error) : event daemonE → Prop :=
  | says_error (o : daemonE (option error)) : says e (Ev o (Some e))
  | says_result {A} (o : daemonE (result A)) : says e (Ev o (Err e))
  | says_pair {A} (o : daemonE (A * option error)) x : says e (Ev o (x, Some e)).
Definition answered (e : error) (h : list (event daemonE)) : Prop := ∃ ev, ev ∈ h ∧ says e ev.

(** The last thing the daemon did was to show the user why it stops. *)
Definition notified (e : error) (h : list (event daemonE)) : Prop :=
  ∃ chat b h', h = Ev (HerdrNotify notifyTitle (fatal_reason error_text chat e)) b :: h'.
(** A port answered a fatal error, and the user was told. *)
Definition announced (e : error) (h : list (event daemonE)) : Prop := isFatal e = true ∧ answered e h ∧ notified e h.

Lemma answered_now e ev h : says e ev → answered e (ev :: h).
Proof. intros H. exists ev. split; [by left|done]. Qed.
Lemma answered_later e ev h : answered e h → answered e (ev :: h).
Proof. intros (ev' & H & ?). exists ev'. split; [by right|done]. Qed.
#[local] Hint Resolve answered_now answered_later says_error says_result says_pair : answered.
#[local] Hint Extern 1 (answered _ (trace _)) => progress cbn [trace told put] : answered.

(** The errors [p] ends with are fatal and announced. *)
Definition loud (p : prog (option error)) : Prop :=
  ∀ w, wp p w (λ err w', from_option (λ e, announced e (trace w')) True err).

Lemma wp_any {A} (p : prog A) w : wp p w (λ _ _, True).
Proof. apply wp_legal, returns_any. Qed.

Lemma loud_nil : loud nil_.
Proof. by intros w. Qed.

Lemma loud_then {A} (p : prog A) k : (∀ a, loud (k a)) → loud (bind p k).
Proof. intros Hk w. apply wp_bind. eapply wp_mono; [|apply wp_any]. intros a w' _. apply Hk. Qed.

Lemma loud_must (p q : prog (option error)) :
  loud p → loud q → loud (bind p (λ e, match e with Some e => Ret (Some e) | None => q end)).
Proof. intros Hp Hq w. apply wp_must. eapply wp_mono; [|apply Hp]. intros [e|] w' H; [exact H|apply Hq]. Qed.

Lemma loud_each {A} (q : A → prog (option error)) l : (∀ x, loud (q x)) → loud (each q l).
Proof. intros H. induction l as [|x l IH]; [apply loud_nil|]. by apply loud_must. Qed.

Definition dies (err : option error) (w : world) : Prop := from_option (λ e, announced e (trace w)) True err.

Lemma wp_fatal e w : isFatal e = true → answered e (trace w) → wp (fatal error_text e) w dies.
Proof. intros He Ha. apply wp_look. intros b _. split_and!; [done|by apply answered_later|by do 3 eexists]. Qed.

Lemma wp_handleErr err w :
  from_option (λ e, rec_error e ∧ answered e (trace w)) True err → wp (handleErr error_text err) w dies.
Proof.
  destruct err as [e|]; [|done]. intros [He Ha]. unfold handleErr.
  destruct (errors_as pick_chat e) eqn:Em.
  { apply wp_update, wp_look, wp_ask. intros b _. apply wp_ask. by intros. }
  destruct (context_error e) eqn:Ec; [done|]. apply wp_fatal; [|done].
  destruct He as [?|[[? ?]|?]]; congruence.
Qed.

Create HintDb loud.
#[local] Hint Resolve loud_nil : loud.

(** What is checked is the answer of the reconciler, or a fatal error. *)
Lemma loud_rec (r : recE (option error)) :
  (∀ b, rec_contract r b → from_option rec_error True b) → loud (checked error_text (rec r)).
Proof.
  intros H w. apply wp_ask. intros [e|] Hb; [|done]. apply wp_handleErr. split; [by apply (H (Some e))|].
  auto with answered.
Qed.

(** A program whose errors are fatal answers of a port. *)
Definition honest {S} (p : Eff.prog daemonE S (option error)) : Prop :=
  ∀ w, Eff.wp anything p w (λ err w', from_option (λ e, isFatal e = true ∧ answered e (trace w')) True err).

Lemma loud_checked (m : prog (option error)) : honest m → loud (checked error_text m).
Proof.
  intros Hm w. apply wp_bind. eapply wp_mono; [|apply wp_legal, Hm]. intros [e|] w' He; [|done].
  destruct He. apply wp_handleErr. split; [by left|done].
Qed.

(** ** The handlers *)

Ltac louds :=
  repeat first
    [ solve [auto 2 with loud nocore]
    | match goal with
      | |- ∀ _, _ => intro
      | |- loud (bind _ (λ e, match e with Some e => Ret (Some e) | None => _ end)) => apply loud_must
      | |- loud (checked _ (rec _)) => apply loud_rec; by intros
      | |- loud (bind _ _) => apply loud_then
      | |- loud (each _ _) => apply loud_each
      | |- loud (match ?x with _ => _ end) => destruct x eqn:?
      | |- loud (if ?x then _ else _) => destruct x eqn:?
      end ].

Lemma loud_handled_event ev : loud (handled_event error_text ev).
Proof. apply loud_rec. by intros. Qed.

Lemma loud_replay force : loud (replay error_text force).
Proof. unfold replay. destruct force; louds; apply loud_handled_event. Qed.
#[local] Hint Resolve loud_handled_event loud_replay : loud.

Lemma loud_checkRights : loud (checkRights error_text).
Proof.
  intros w. apply wp_ask. intros [r|e] _; [revert r w|].
  - intros r w. match goal with |- wp (?p : prog _) ?w _ => assert (loud p) as H; [louds|apply H] end.
  - destruct (isFatal e) eqn:?; [|done]. apply wp_fatal; [done|]. auto with answered.
Qed.

(** The loop over the operators ends with a fatal error or none. *)
Lemma loud_probe_operators ops reachable (k : list Z * option error → prog (option error)) :
  (∀ found, loud (k (found, None))) → (∀ found e, k (found, Some e) = Ret (Some e)) →
  loud (bind (probe_operators error_text ops reachable) k).
Proof.
  intros Hk He. revert reachable. induction ops as [|op ops IH]; intros reachable; [apply Hk|].
  intros w [e|] _; [|apply IH]. cbn [asked call bind]. destruct (_ || _) eqn:Ef; [|apply IH].
  change (wp (bind (fatal error_text e) (λ err, k (reachable, err))) (told (TgProbeDirect op) (Some e) w) dies).
  apply wp_bind. eapply wp_mono; [|apply wp_fatal].
  - intros [e'|] w' H; [|apply Hk]. rewrite He. exact H.
  - unfold isFatal. apply orb_true_iff in Ef as [->| ->]; by rewrite ?orb_true_r.
  - auto with answered.
Qed.

Lemma loud_probePager : loud (probePager error_text).
Proof.
  unfold probePager. apply loud_then; intros o. destruct (negb _); [apply loud_nil|]. apply loud_then; intros c.
  apply loud_probe_operators; [|done]. intros found. cbn [snd fst]. louds.
Qed.

Lemma loud_runSweep : loud (runSweep error_text hasInbox).
Proof.
  unfold runSweep. apply loud_then; intros o. apply loud_then; intros r. apply loud_must; [|louds].
  intros w. apply wp_ask. intros [n [e|]] He; [|done]. apply wp_handleErr. split; [exact He|]. auto with answered.
Qed.

Lemma loud_onTelegramEvent raw : loud (onTelegramEvent error_text raw).
Proof.
  assert (Hrename : ∀ thread name, loud (onTelegramEvent error_text (EvTopicRenamed thread name))).
  { intros thread name w. apply wp_ask. intros [snapshot [e|]] He.
    - destruct snapshot; [apply wp_ask; intros [] _|]; (apply wp_handleErr; split; [exact He|]); auto with answered.
    - destruct snapshot; [apply wp_ask; intros [] _|]; done. }
  destruct raw; [..|apply Hrename| | | |]; unfold onTelegramEvent, rightsChanged, submit; louds.
Qed.
#[local] Hint Resolve loud_checkRights loud_probePager loud_runSweep loud_onTelegramEvent : loud.

(** The dashboard only lets fatal errors through. *)
Lemma honest_nil {S} : honest (nil_ : Eff.prog daemonE S _).
Proof. by intros w. Qed.

Lemma honest_then {S A} (p : Eff.prog daemonE S A) k : (∀ a, honest (k a)) → honest (bind p k).
Proof. intros Hk w. apply wp_bind. eapply wp_mono; [|apply (returns_any p)]. intros a w' _. apply Hk. Qed.

(** [failed] right after the call that answered the error. *)
Lemma wp_dash_failed e w : answered e (trace w) →
  Eff.wp anything (dash_failed e) w (λ err w', from_option (λ e, isFatal e = true ∧ answered e (trace w')) True err).
Proof. intros Ha. cbn. by destruct (isFatal e) eqn:?. Qed.

Lemma honest_forget : honest forget_message.
Proof. repeat (apply honest_then; intros ?). apply honest_nil. Qed.

Lemma honest_create text hash : honest (dash_create text hash).
Proof.
  intros w. apply wp_ask. intros [id|e] _; [|apply wp_dash_failed; auto with answered].
  assert (honest (do _ ← pin id; do _ ← setID id; do _ ← modify (set_hash hash); nil_)) as H; [|apply H].
  repeat (apply honest_then; intros ?). apply honest_nil.
Qed.

Lemma honest_remove id : honest (remove id).
Proof.
  intros w. apply wp_ask. intros e0 _. apply wp_ask. intros [e1|] _; [|apply honest_forget].
  destruct (errors_is e1 ErrMessageGone); [apply honest_forget|].
  apply wp_must. eapply wp_mono; [|apply wp_dash_failed; auto with answered]. intros [e|] w1 H; [exact H|].
  destruct (context_error e1); [done|]. apply wp_ask. intros [e2|] _; [|apply honest_forget].
  destruct (errors_is e2 ErrMessageGone); [apply honest_forget|].
  apply wp_must. eapply wp_mono; [|apply wp_dash_failed; auto with answered]. intros [e|] w2 H2; [exact H2|].
  apply honest_forget.
Qed.

Lemma honest_refresh chatID hasPresence : honest (refresh hashText chatID zone hasPresence).
Proof.
  unfold refresh. apply honest_then; intros id. apply honest_then; intros o.
  destruct (negb _); [destruct (id =? 0); [apply honest_nil|apply honest_remove]|].
  apply honest_then; intros v. apply honest_then; intros body. apply honest_then; intros old.
  destruct (_ && _); [apply honest_nil|]. apply honest_then; intros text.
  destruct (id =? 0); [apply honest_create|]. intros w. apply wp_ask. intros [e|] _; [|done].
  destruct (errors_is e ErrMessageGone); [apply honest_create|]. apply wp_dash_failed. auto with answered.
Qed.

Lemma loud_dash_refresh : loud (checked error_text (dash_refresh hashText zone dashChat)).
Proof.
  apply loud_checked. intros w.
  pose proof (honest_refresh dashChat true (part dash w)) as H.
  eapply wp_mono; [|eapply (wp_zoom anything dash set_dash); [done..|by intros []|exact H]].
  by intros err w' [Herr _].
Qed.
#[local] Hint Resolve loud_dash_refresh : loud.

(** ** The loop *)

(** An orderly end: the pending edits were flushed last. *)
Definition in_order (h : list (event daemonE)) : Prop := ∃ r h', h = Ev (Rec RecFlush) r :: h'.

(** Snapshots had been failing for the grace period since [start] or since the
    last good one. *)
Definition socket_down (start : Time) (h : list (event daemonE)) : Prop :=
  ∃ health now, Ev RegistryHealth health ∈ h ∧ Ev (App Now) now ∈ h ∧ HLastErr health ≠ None ∧
    SocketGrace ≤ time_sub now (if is_zero (HLastOK health) || time_before (HLastOK health) start then start else HLastOK health).

(** Why the loop may end as [f] on the wakes [ws]. *)
Definition explained (ws : list wake) (f : flow) (w : world) : Prop :=
  match f with
  | Continue => True
  | Exit (Some e) =>
    announced e (trace w) ∨ WFatal e ∈ ws ∧ notified e (trace w) ∨
    WDone (Some e) ∈ ws ∧ is_foreign e CtxCanceled = false ∧ in_order (trace w)
  | Exit None =>
    in_order (trace w) ∧ ((∃ cause, WDone cause ∈ ws) ∨ WHealth ∈ ws ∧ socket_down (started (st w)) (trace w))
  end.

Lemma explained_mono ws ws' f w : ws ⊆ ws' → explained ws f w → explained ws' f w.
Proof. intros H. destruct f as [|[e|]]; cbn; [done| |]; intros; naive_solver set_solver. Qed.

Lemma wp_unless_error ws m w : loud m → wp (unless_error m) w (explained ws).
Proof.
  intros Hm. apply wp_bind. eapply wp_mono; [|apply Hm]. intros [e|] w' H; [by left|done].
Qed.

Lemma frames_Stop : frames (λ w : world, started (st w)) (dashed (Stop dashChat zone true)).
Proof. apply frames_outside; [done..|by intros []|done]. Qed.

Lemma wp_shutdown w :
  wp (shutdown version zone dashChat) w (λ _ w', in_order (trace w') ∧ started (st w') = started (st w) ∧ trace w ⊆ trace w').
Proof.
  apply wp_legal. unfold shutdown. apply wp_bind. apply (wp_framed (λ w : world, started (st w))).
  { apply frames_bind; [apply frames_call|intros ?; apply frames_ret]. done. }
  intros a w1 E1 H1. apply wp_bind.
  apply (wp_framed (λ w : world, started (st w))); [apply frames_Stop|].
  intros b w2 E2 H2. apply wp_ask. intros r _. cbn. split_and!; [by do 2 eexists|congruence|set_solver].
Qed.

Lemma wp_socketGone w :
  wp (socketGone SocketGrace) w (λ gone w',
    st w' = st w ∧ (gone = true → socket_down (started (st w')) (trace w'))).
Proof.
  apply wp_ask. intros h _. destruct (HLastErr h) as [e|] eqn:Eh; [|done].
  apply wp_look, wp_ask. intros now _. destruct (SocketGrace <=? _) eqn:E.
  - split; [done|]. intros _. exists h, now. split_and!; [right; by left|by left|congruence|by apply Z.leb_le].
  - apply wp_ask. intros b _. split; [done|]. intros [=].
Qed.

Lemma wp_wakeup w0 w :
  wp (wakeup hashText error_text version zone hasInbox SocketGrace dashChat w0) w (explained [w0]).
Proof.
  destruct w0 as [|quiet|cause|ev|e| | | |key|[raw|]| | | |]; cbn [wakeup];
    try (apply wp_unless_error; louds; fail).
  - apply wp_ask. by intros.
  - apply wp_bind. eapply wp_mono; [|apply wp_any]. intros [] w1 _. destruct quiet; [done|].
    apply wp_unless_error. unfold submit. louds.
  - apply wp_bind. eapply wp_mono; [|apply wp_shutdown]. intros [] w1 (H1 & _ & _).
    destruct cause as [e|]; [destruct (is_foreign e CtxCanceled) eqn:E|].
    2: { do 2 right. split_and!; [by left|done|done]. }
    all: split; [done|]; left; eexists; by left.
  - apply wp_bind. eapply wp_mono; [|apply wp_any]. intros [] w1 _. apply wp_look. intros b _.
    right. left. split; [by left|]. by do 3 eexists.
  - apply wp_update, wp_unless_error. louds.
  - done.
  - apply wp_update, wp_unless_error. louds.
  - apply wp_update, wp_unless_error. louds.
  - apply wp_ask. intros now _. apply wp_bind. eapply wp_mono; [|apply wp_any]. intros [] w1 _.
    apply wp_bind. eapply wp_mono; [|apply wp_socketGone]. intros gone w2 [Es Hd]. destruct gone; [|done].
    specialize (Hd eq_refl). apply wp_ask. intros b _. set (w3 := told _ _ w2). apply wp_bind.
    eapply wp_mono; [|apply wp_shutdown]. intros [] w4 (Ho & Est & Ht). cbn. split; [exact Ho|]. right. split; [by left|].
    rewrite Est. destruct Hd as (h & n & Hh & Hn & ?). exists h, n. split_and!; [apply Ht; by right|apply Ht; by right|naive_solver..].
Qed.

Lemma wp_loop ws w :
  wp (loop hashText error_text version zone hasInbox SocketGrace dashChat ws) w (explained ws).
Proof.
  revert w. induction ws as [|w0 ws IH]; intros w; [done|]. apply wp_bind. eapply wp_mono; [|apply wp_wakeup].
  intros [|err] w1 H1.
  - eapply wp_mono; [|apply IH]. intros f w2. apply explained_mono. set_solver.
  - eapply explained_mono; [|exact H1]. set_solver.
Qed.

Lemma wp_start ws w : wp (start error_text version hasInbox) w (explained ws).
Proof.
  unfold start. do 8 (apply wp_bind; eapply wp_mono; [|apply wp_any]; intros ? ? _).
  apply wp_unless_error. unfold start_reconcile. louds.
Qed.

Lemma wp_Run ws w :
  wp (Run hashText error_text version zone hasInbox SocketGrace dashChat ws) w (explained ws).
Proof.
  apply wp_bind. eapply wp_mono; [|apply (wp_start ws)]. intros [|err] w1 H1; [apply wp_loop|exact H1].
Qed.

(** C4: the daemon ends for a reason, and says it. For every reconciler that
    absorbs all but fatal errors, migrations and ended contexts, whatever the
    ports answer and whichever channels the loop finds ready, [Run] returns an
    error only when a port answered that very error and it is fatal, or the
    bridge reported it, and then the last thing done is the desktop notice with
    the reason; or when the context ended with that cause.  It returns nil only
    when it was stopped or when the socket had been down for the grace period.
    In these orderly ends the pending edits are flushed last. *)
Theorem daemon_ends_for_a_reason ws w f w' :
  exec daemon_legal (Run hashText error_text version zone hasInbox SocketGrace dashChat ws) w f w' → explained ws f w'.
Proof.
  intros He. exact (wp_exec He (wp_Run ws w)).
Qed.
End DaemonProps.

(** ** A sample run *)

#[local] Existing Instance latin1_tables.

Definition idle_ports : oracle (E := daemonE) := λ B o _, idle_daemon o.

Lemma idle_ports_legal h B (o : daemonE B) : daemon_legal h B o (idle_ports B o h).
Proof. destruct o; try done. by destruct o. Qed.

Definition sample_daemon : Daemon :=
  mkDaemon (mkConfig 1 "t" "bot" (-100) "Team" [7] [] "info" 0) (mkRights false false false false false) false 0 0 0 false
    false false (mkDash ∅ ∅ "" false).

Lemma daemon_ends_for_a_reason_witness :
  let ws := [WHealth; WResync; WDone None] in
  let run := interp idle_ports (Run (λ t, t) (λ _, "?") "1.0" 0 true socketGrace (-100) ws) (mkWorld sample_daemon []) in
  run.1 = Exit None ∧ explained (λ _, "?") socketGrace ws run.1 run.2.
Proof.
  intros ws run. split; [by vm_compute|].
  apply (daemon_ends_for_a_reason (λ t, t) (λ _, "?") "1.0" 0 true socketGrace (-100) ws (mkWorld sample_daemon []) run.1 run.2).
  exact (interp_exec daemon_legal idle_ports _ _ idle_ports_legal).
Defined.
