(* ===== verification/Doctor.v ===== *)
(** internal/app/doctor.go and internal/adapters/telegram/inspector.go: the
    report of the doctor action and the test message, over the light Telegram
    client that serves both. *)
From S2P Require Import Prelude GoStrings Errors Status Mapping Config Rfc3339 AppText OptionRegistry TgErrors.
From S2P Require Import Eff Gateway Stores Supervisor Setup TurnMeta StatusView Daemon.

Local Open Scope Z_scope.

Record HerdrInfo := mkHerdrInfo { HVersion : string; HProtocol : Z }.
Record GroupInfo := mkGroupInfo { GTitle : string; GRights : Rights }.

(** The ports of the doctor; every answer comes within the bound of a check. *)
Inductive doctorE : Type → Type :=
  | DcConfig : doctorE (result Config)
  | DcOptions : doctorE (result Options)
  | DcMapping : doctorE (result Mapping)
  | DcBroken : doctorE (result (list string))
  | DcPid : doctorE (result PidInfo)
  | DcAlive (pid : Z) : doctorE bool
  | DcControl : doctorE (result string)
  | DcPing : doctorE (result HerdrInfo)
  | DcNow : doctorE Time
  | DcClient (cfg : Config) : doctorE (option error)          (* the client of a configuration; no call *)
  | DcGetMe : doctorE (result BotIdentity)
  | DcGetChat (chat : Z) : doctorE (result ChatInfo)
  | DcGetChatMember (chat user : Z) : doctorE (result ChatMember)
  | DcTyping (user : Z) : doctorE (option error)              (* the chat action of a private chat *)
  | DcSend (chat : Z) (text : string) : doctorE (result Z).

Local Open Scope eff_scope.

(** ** The inspector *)
Section Inspector.
Context {U : UnicodeTables} (error_text : error → string) (chatID : Z).
Local Notation prog := (prog doctorE unit).
Local Notation translate := (translate error_text).
Definition query {B} (o : doctorE B) : prog B := call o.
Definition said {B} (call : string) (e : error) : result B := Err (Errorf (call +:+ ": %w") [] [translate e]).

Definition inspect_identity : prog (result BotIdentity) :=
  do r ← query DcGetMe;
  Ret (match r with Err e => said "getMe" e | Ok me => Ok me end).

Definition inspect_group : prog (result GroupInfo) :=
  do r ← inspect_identity;
  match r with
  | Err e => Ret (Err e)
  | Ok me =>
    do r ← query (DcGetChat chatID);
    match r with
    | Err e => Ret (said "getChat" e)
    | Ok chat =>
      do r ← query (DcGetChatMember chatID (BotID me));
      Ret (match r with
           | Err e => said "getChatMember" e
           | Ok member => Ok (mkGroupInfo (InfoTitle chat) (member_rights (InfoForum chat) member))
           end)
    end
  end.

Definition ProbeDirect (user : Z) : prog (option error) :=
  do r ← query (DcTyping user);
  Ret (match r with Some e => Some (Errorf "sendChatAction: %w" [] [translate e]) | None => None end).

Definition inspect_send (text : string) : prog (result Z) :=
  do r ← query (DcSend chatID text);
  Ret (match r with Err e => said "sendMessage" e | Ok id => Ok id end).
End Inspector.

(** ** The checks *)
Section Doctor.
Context {U : UnicodeTables} (error_text : error → string) (hasBroken : bool) (ExpectedProtocol : Z) (Choices : ChoiceSource).
Local Notation prog := (prog doctorE unit).
Local Notation reason := (failureReason error_text).

Definition ok (name detail : string) : Check := mkCheck name CheckOK detail.
Definition warn (name detail : string) : Check := mkCheck name CheckWarn detail.
Definition bad (name detail : string) : Check := mkCheck name CheckFail detail.
Definition len_of {A} (l : list A) : Z := Z.of_nat (length l).

(** The configuration, if it is good, and the check. *)
Definition checkConfig : prog (option Config * Check) :=
  do r ← query DcConfig;
  Ret (match (match r with Ok cfg => match Validate cfg with Some e => Err e | None => Ok cfg end | Err e => Err e end) with
       | Err e =>
         (None, bad "config" (if errors_is e ErrNotConfigured then "not configured, run the setup action (" +:+ reason e +:+ ")"
                              else "unreadable: " +:+ reason e))
       | Ok cfg =>
         let bot := if String.eqb (BotUsername cfg) "" then "bot id unknown" else "@" +:+ BotUsername cfg in
         let level := if String.eqb (LogLevel cfg) "" then "info" else LogLevel cfg in
         (Some cfg, ok "config" ("config.json v" +:+ itoa (Version cfg) +:+ ": " +:+ bot +:+ ", chat " +:+ quote (ChatTitle cfg) +:+
            " (" +:+ itoa (ChatID cfg) +:+ "), " +:+ plural (len_of (OperatorIDs cfg)) "operator" +:+ ", " +:+
            plural (len_of (ObserverIDs cfg)) "observer" +:+ ", log level " +:+ level))
       end).

Definition checkOptions : prog Check :=
  do r ← query DcOptions;
  Ret (match r with
       | Err e => bad "options" ("options.json unreadable, defaults in force: " +:+ reason e)
       | Ok opts =>
         let '(clean, dropped) := SanitizeOptions opts Choices in
         let set := len_of (List.filter (λ spec, negb (IsDefault clean (OptKey spec))) OptionSpecs) in
         let detail := if 0 <? set then plural set "value" +:+ " set" else "defaults" in
         match dropped with
         | [] => ok "options" detail
         | _ => warn "options" (detail +:+ "; invalid values ignored: " +:+ join dropped ", ")
         end
       end).

Definition checkTelegram : prog Check :=
  do r ← inspect_identity error_text;
  Ret (match r with
       | Err e => bad "telegram" (if errors_is e ErrBotUnauthorized then "token rejected (401), run the setup action"
                                  else "getMe failed: " +:+ reason e)
       | Ok id => ok "telegram" ("@" +:+ IdentityUsername id +:+ " (id " +:+ itoa (BotID id) +:+ ")")
       end).

Definition yes (b : bool) : string := if b then "yes" else "no".
Definition group_check (g : GroupInfo) : Check :=
  let r := GRights g in
  let detail := quote (GTitle g) +:+ ": forum " +:+ yes (IsForum r) +:+ ", admin " +:+ yes (IsAdmin r) +:+ ", manage topics " +:+
    yes (RCanManageTopics r) +:+ ", delete messages " +:+ yes (RCanDeleteMessages r) +:+ ", pin messages " +:+ yes (RCanPinMessages r) in
  if negb (IsForum r) then bad "group" (detail +:+ "; enable Topics in the group settings")
  else if negb (IsAdmin r) || negb (RCanManageTopics r) then bad "group" (detail +:+ "; grant the bot the Manage topics right")
  else if negb (RCanDeleteMessages r) then warn "group" (detail +:+ "; topic cleanup and icon notices need Delete messages")
  else if negb (RCanPinMessages r) then warn "group" (detail +:+ "; the dashboard in General stays unpinned without Pin messages")
  else ok "group" detail.
Definition checkGroup (cfg : Config) : prog Check :=
  do r ← inspect_group error_text (ChatID cfg);
  Ret (match r with
       | Err e => bad "group" (if errors_is e ErrForbidden then "bot is not in the group any more, add it again through the setup action"
                               else "lookup failed: " +:+ reason e)
       | Ok g => group_check g
       end).

(** The operators the bot cannot write to, and those whose probe failed. *)
Fixpoint probe_operators (ids : list Z) (closed failed : list string) : prog (list string * list string) :=
  match ids with
  | [] => Ret (closed, failed)
  | id :: ids =>
    do e ← ProbeDirect error_text id;
    match e with
    | None => probe_operators ids closed failed
    | Some e =>
      if errors_is e ErrForbidden then probe_operators ids (closed ++ [itoa id]) failed
      else probe_operators ids closed (failed ++ [itoa id +:+ ": " +:+ reason e])
    end
  end.
Definition checkOperatorChat (cfg : Config) : prog Check :=
  do r ← probe_operators (OperatorIDs cfg) [] [];
  Ret (match r with
       | (_, _ :: _) => warn "operator chat" ("probe failed for " +:+ join r.2 ", ")
       | (_ :: _, []) => warn "operator chat" ("the bot cannot write to operator " +:+ join r.1 ", " +:+ ": open the bot and press Start, questions ring in the topics meanwhile")
       | ([], []) => ok "operator chat" (plural (len_of (OperatorIDs cfg)) "operator" +:+ " reachable, questions can ring from the bot's chat")
       end).

Definition checkHerdr : prog Check :=
  do r ← query DcPing;
  Ret (match r with
       | Err e => bad "herdr" ("socket not answering: " +:+ reason e)
       | Ok info =>
         let detail := "version " +:+ HVersion info +:+ ", protocol " +:+ itoa (HProtocol info) in
         if negb (ExpectedProtocol =? 0) && negb (HProtocol info =? ExpectedProtocol)
         then warn "herdr" (detail +:+ " (plugin built for " +:+ itoa ExpectedProtocol +:+ ")")
         else ok "herdr" detail
       end).

Definition checkDaemon : prog Check :=
  do r ← query DcPid;
  match r with
  | Err e => Ret (if errors_is e ErrNotRunning then warn "daemon" "not running (start action)"
                  else bad "daemon" ("pid file unreadable: " +:+ reason e))
  | Ok info =>
    do live ← query (DcAlive (PID info));
    if negb live then Ret (bad "daemon" ("stale pid file for " +:+ itoa (PID info) +:+ ", run the start action"))
    else
      do now ← query DcNow;
      let line := Summary (mkDaemonStatus true (PID info) (Since info)) now in
      do r ← query DcControl;
      Ret (match r with
           | Err e => if errors_is e ErrControlUnavailable then bad "daemon" (line +:+ ", not answering on the control channel; restart it")
                      else warn "daemon" (line +:+ ", status failed: " +:+ reason e)
           | Ok stats => ok "daemon" (if String.eqb stats "" then line else line +:+ ": " +:+ stats)
           end)
  end.

Definition checkMapping : prog Check :=
  do r ← query DcMapping;
  match r with
  | Err e => Ret (bad "mapping" ("mapping.json unreadable: " +:+ reason e))
  | Ok m =>
    let '(live, exited, muted) := Counts m in
    let n := Z.of_nat (size (Topics m)) in
    let detail := (if n =? 1 then "1 entry" else itoa n +:+ " entries") +:+ " (" +:+ itoa live +:+ " live, " +:+ itoa exited +:+ " exited, " +:+ itoa muted +:+ " muted)" in
    if negb hasBroken then Ret (ok "mapping" detail)
    else
      do r ← query DcBroken;
      Ret (match r with
           | Err e => warn "mapping" (detail +:+ "; backup listing failed: " +:+ reason e)
           | Ok (x :: l) => warn "mapping" (detail +:+ "; corrupt copies moved aside: " +:+ join (x :: l) ", ")
           | Ok [] => ok "mapping" detail
           end)
  end.

(** The three checks that need the Telegram client. *)
Definition telegram_checks (cfg : option Config) : prog (list Check) :=
  match cfg with
  | None => Ret [bad "telegram" "skipped: no config"; bad "group" "skipped: no config"; bad "operator chat" "skipped: no config"]
  | Some cfg =>
    do e ← query (DcClient cfg);
    match e with
    | Some e => Ret [bad "telegram" ("client: " +:+ reason e); bad "group" "skipped: no client"; bad "operator chat" "skipped: no client"]
    | None => do t ← checkTelegram; do g ← checkGroup cfg; do o ← checkOperatorChat cfg; Ret [t; g; o]
    end
  end.

Definition RunDoctor : prog (list Check) :=
  do c ← checkConfig;
  do o ← checkOptions;
  do t ← telegram_checks c.1;
  do h ← checkHerdr;
  do d ← checkDaemon;
  do m ← checkMapping;
  Ret ([c.2; o] ++ t ++ [h; d; m]).

Definition titled (version : string) : string := if String.eqb version "" then "" else " " +:+ version.
Definition check_line (c : Check) : string := TurnMeta.Mark c +:+ " " +:+ CName c +:+ ": " +:+ CDetail c +:+ nl.
Definition RenderChecks (version : string) (checks : list Check) : string :=
  let '(good, warned, failed) := Summarize checks in
  notifyTitle +:+ " doctor" +:+ titled version +:+ nl +:+ String.concat "" (map check_line checks) +:+
  itoa good +:+ " ok, " +:+ plural warned "warning" +:+ ", " +:+ plural failed "failure" +:+ nl.

(** ** The test message *)

Definition sendTestReason (e : error) : string :=
  if errors_is e ErrBotUnauthorized then "token rejected, run the setup action"
  else if errors_is e ErrForbidden then "the bot cannot post in the group, add it again through the setup action"
  else reason e.

(** [now.UTC().Format] of the year, month, day, hour and minute. *)
Definition minute_text (t : Time) : string :=
  let '(y, mo, d) := date_of (t / day_ns) in
  let secs := (t mod day_ns) / Second in
  dec 4 y +:+ "-" +:+ dec 2 mo +:+ "-" +:+ dec 2 d +:+ " " +:+ dec 2 (secs / 3600) +:+ ":" +:+ dec 2 (secs / 60 mod 60) +:+ " UTC".

Definition SendTest (chatID : Z) (version : string) (now : Time) : prog (string * option error) :=
  let text := "🔔 " +:+ notifyTitle +:+ titled version +:+ ": test message from the send-test action (" +:+ minute_text now +:+ ")" in
  do r ← inspect_send error_text chatID text;
  Ret (match r with
       | Err e => ("", Some (Errorf "send-test failed: %s" [sendTestReason e] []))
       | Ok id => ("send-test: delivered to General (message " +:+ itoa id +:+ ")", None)
       end).
End Doctor.

(** * What a report says *)
Section Report.
Context {U : UnicodeTables} (error_text : error → string) (hasBroken : bool) (ExpectedProtocol : Z) (Choices : ChoiceSource).
Local Notation prog := (prog doctorE unit).
Local Notation world := (world doctorE unit).
Local Notation trace_of := (list (event doctorE)).
Local Abbreviation wpa := (wp anything).

(** What a check without a complaint has seen. *)
Definition config_good (cfg : Config) (h : trace_of) : Prop := Ev DcConfig (Ok cfg) ∈ h ∧ Validate cfg = None.
Definition options_good (h : trace_of) : Prop := ∃ opts, Ev DcOptions (Ok opts) ∈ h ∧ (SanitizeOptions opts Choices).2 = [].
Definition token_good (h : trace_of) : Prop := ∃ me, Ev DcGetMe (Ok me) ∈ h.
Definition group_good (chat : Z) (h : trace_of) : Prop :=
  ∃ me info member, Ev DcGetMe (Ok me) ∈ h ∧ Ev (DcGetChat chat) (Ok info) ∈ h ∧ Ev (DcGetChatMember chat (BotID me)) (Ok member) ∈ h ∧
    member_rights (InfoForum info) member = mkRights true true true true true.
Definition operators_good (ids : list Z) (h : trace_of) : Prop := ∀ id, id ∈ ids → Ev (DcTyping id) None ∈ h.
Definition herdr_good (h : trace_of) : Prop := ∃ info, Ev DcPing (Ok info) ∈ h ∧ (ExpectedProtocol = 0 ∨ HProtocol info = ExpectedProtocol).
Definition daemon_good (h : trace_of) : Prop :=
  ∃ p stats, Ev DcPid (Ok p) ∈ h ∧ Ev (DcAlive (PID p)) true ∈ h ∧ Ev DcControl (Ok stats) ∈ h.
Definition mapping_good (h : trace_of) : Prop := ∃ m, Ev DcMapping (Ok m) ∈ h ∧ (hasBroken = true → Ev DcBroken (Ok []) ∈ h).

Definition healthy (h : trace_of) : Prop :=
  ∃ cfg, config_good cfg h ∧ options_good h ∧ token_good h ∧ group_good (ChatID cfg) h ∧ operators_good (OperatorIDs cfg) h ∧
    herdr_good h ∧ daemon_good h ∧ mapping_good h.

(** A check of the name [name]; a level of [CheckOK] has the reason [P]. *)
Definition reasoned (name : string) (P : trace_of → Prop) (c : Check) (h : trace_of) : Prop :=
  CName c = name ∧ (CLevel c = CheckOK → P h).
Definition is_check (name : string) (P : trace_of → Prop) (p : prog Check) : Prop :=
  (∀ h h' : trace_of, h ⊆ h' → P h → P h') ∧ ∀ w, wpa p w (λ c w', reasoned name P c (trace w')).

Lemma not_ok name P c h : CName c = name → CLevel c ≠ CheckOK → reasoned name P c h.
Proof. intros H1 H2. by split. Qed.
Lemma reasoned_mono name P c (h h' : trace_of) : (∀ h h' : trace_of, h ⊆ h' → P h → P h') → h ⊆ h' → reasoned name P c h → reasoned name P c h'.
Proof. intros HP Hh [H1 H2]. split; [done|]. intros Hc. by eapply HP, H2. Qed.

(** The trace only grows. *)
Lemma wp_grown {A} (p : prog A) w Q : wpa p w Q → wpa p w (λ a w', Q a w' ∧ trace w ⊆ trace w').
Proof. intros H. apply wp_and; [done|]. eapply wp_mono; [|apply wp_grows]. intros a w' [l ->]. set_solver. Qed.

Lemma is_check_options : is_check "options" options_good (checkOptions error_text Choices).
Proof.
  split; [intros h h' Hs (o & H & H'); exists o; auto|]. intros w. apply wp_ask. intros [opts|e] _; [|by apply not_ok]. cbn [wp].
  destruct (SanitizeOptions opts Choices) as [clean dropped] eqn:Hd. destruct dropped; [|by apply not_ok].
  split; [done|]. intros _. exists opts. split; [by left|by rewrite Hd].
Qed.

Lemma is_check_telegram : is_check "telegram" token_good (checkTelegram error_text).
Proof.
  split; [intros h h' Hs (me & H); exists me; auto|]. intros w. apply wp_bind, wp_ask. intros [me|e] _; cbn [wp]; [|by apply not_ok].
  split; [done|]. intros _. exists me. by left.
Qed.

Lemma group_check_ok g : CName (group_check g) = "group" ∧ (CLevel (group_check g) = CheckOK → GRights g = mkRights true true true true true).
Proof. unfold group_check. destruct (GRights g) as [[] [] [] [] []]; done. Qed.

Lemma is_check_group cfg : is_check "group" (group_good (ChatID cfg)) (checkGroup error_text cfg).
Proof.
  split; [intros h h' Hs (me & i & m & H1 & H2 & H3 & H4); exists me, i, m; auto|]. intros w.
  apply wp_bind, wp_bind, wp_bind, wp_ask. intros [me|e] _; cbn [wp]; [|by apply not_ok].
  apply wp_ask. intros [info|e] _; [|by apply not_ok]. apply wp_ask. intros [member|e] _; cbn [wp]; [|by apply not_ok].
  destruct (group_check_ok (mkGroupInfo (InfoTitle info) (member_rights (InfoForum info) member))) as [H1 H2].
  split; [done|]. intros H%H2. exists me, info, member. cbn. rewrite !elem_of_cons. auto 6.
Qed.

Lemma wp_probe_ops ids closed failed w :
  wpa (probe_operators error_text ids closed failed) w (λ r w', r = ([], []) → closed = [] ∧ failed = [] ∧ operators_good ids (trace w')).
Proof.
  revert closed failed w. induction ids as [|id ids IH]; intros closed failed w; cbn [probe_operators].
  - intros [= -> ->]. split; [done|]. split; [done|]. intros id H. by apply not_elem_of_nil in H.
  - apply wp_bind, wp_ask. intros [e|] _; cbn [wp].
    + destruct (errors_is _ ErrForbidden); (eapply wp_mono; [|apply IH]); intros r w' H Hr; apply H in Hr as (H1 & H2 & _); first [by destruct closed|by destruct failed].
    + eapply wp_mono; [|apply wp_grown, IH]. intros r w' [H Hs] Hr. apply H in Hr as (H1 & H2 & H3). split; [done|]. split; [done|].
      intros x [->|Hx]%elem_of_cons; [apply Hs; by left|by apply H3].
Qed.

Lemma is_check_operators cfg : is_check "operator chat" (operators_good (OperatorIDs cfg)) (checkOperatorChat error_text cfg).
Proof.
  split; [intros h h' Hs H id Hid; by apply Hs, H|]. intros w. apply wp_bind. eapply wp_mono; [|apply wp_probe_ops].
  intros [[|x c] [|y f]] w' H; cbn [wp]; [|by apply not_ok..]. split; [done|]. intros _. by apply H.
Qed.

Lemma is_check_herdr : is_check "herdr" herdr_good (checkHerdr error_text ExpectedProtocol).
Proof.
  split; [intros h h' Hs (i & H & H'); exists i; auto|]. intros w. apply wp_ask. intros [info|e] _; cbn [wp]; [|by apply not_ok].
  destruct (Z.eqb_spec ExpectedProtocol 0); cbn [negb andb].
  - split; [done|]. intros _. exists info. split; [by left|by left].
  - destruct (Z.eqb_spec (HProtocol info) ExpectedProtocol); cbn [negb]; [|by apply not_ok].
    split; [done|]. intros _. exists info. split; [by left|by right].
Qed.

Lemma is_check_daemon : is_check "daemon" daemon_good (checkDaemon error_text).
Proof.
  split; [intros h h' Hs (p & s & H1 & H2 & H3); exists p, s; auto|]. intros w. apply wp_ask. intros [p|e] _.
  2:{ cbn [wp]. destruct (errors_is e ErrNotRunning); by apply not_ok. }
  apply wp_ask. intros [] _; cbn [negb]; [|by apply not_ok]. apply wp_ask. intros now _. apply wp_ask. intros [stats|e] _; cbn [wp].
  - split; [done|]. intros _. exists p, stats. cbn. rewrite !elem_of_cons. auto 6.
  - destruct (errors_is e ErrControlUnavailable); by apply not_ok.
Qed.

Lemma is_check_mapping : is_check "mapping" mapping_good (checkMapping error_text hasBroken).
Proof.
  split; [intros h h' Hs (m & H1 & H2); exists m; auto|]. intros w. apply wp_ask. intros [m|e] _; [|by apply not_ok].
  destruct (Counts m) as [[live exited] muted]. destruct hasBroken eqn:Hb; cbn [negb].
  - apply wp_ask. intros [[|x l]|e] _; cbn [wp]; [|by apply not_ok..].
    split; [done|]. intros _. exists m. split; [by right; left|]. intros _. by left.
  - split; [done|]. intros _. exists m. split; [by left|by rewrite Hb].
Qed.

(** The Telegram checks: by name, and what they have asked. *)
Definition telegram_names : list string := ["telegram"; "group"; "operator chat"].
Definition telegram_report (cfg : option Config) (cs : list Check) (h : trace_of) : Prop :=
  map CName cs = telegram_names ∧
  (Forall (λ c, CLevel c = CheckOK) cs → ∃ c, cfg = Some c ∧ token_good h ∧ group_good (ChatID c) h ∧ operators_good (OperatorIDs c) h).

Lemma wp_check name P p w (Q : Check → world → Prop) : is_check name P p →
  (∀ c w', reasoned name P c (trace w') → trace w ⊆ trace w' → Q c w') → wpa p w Q.
Proof. intros [_ Hp] HQ. eapply wp_mono; [|apply wp_grown, Hp]. intros c w' [H1 H2]. by apply HQ. Qed.

Lemma wp_telegram_checks cfg w : wpa (telegram_checks error_text cfg) w (λ cs w', telegram_report cfg cs (trace w')).
Proof.
  assert (Hbad : ∀ a b c (w : world), telegram_report cfg [bad "telegram" a; bad "group" b; bad "operator chat" c] (trace w)).
  { intros a b c w'. split; [done|]. by intros [? _]%Forall_cons. }
  destruct cfg as [cfg|]; [|apply Hbad]. apply wp_ask. intros [e|] _; [apply Hbad|].
  apply wp_bind. eapply (wp_check _ _ _ _ _ is_check_telegram). intros t w1 H1 _.
  apply wp_bind. eapply (wp_check _ _ _ _ _ (is_check_group cfg)). intros g w2 H2 S2.
  apply wp_bind. eapply (wp_check _ _ _ _ _ (is_check_operators cfg)). intros o w3 H3 S3. cbn [wp].
  destruct H1 as [N1 H1], H2 as [N2 H2], H3 as [N3 H3]. split; [cbn; by rewrite N1, N2, N3|].
  intros [O1 [O2 [O3 _]%Forall_cons]%Forall_cons]%Forall_cons. exists cfg. split; [done|].
  split; [eapply (proj1 is_check_telegram); [|by apply H1]; set_solver|].
  split; [eapply (proj1 (is_check_group cfg)); [|by apply H2]; done|by apply H3].
Qed.
End Report.

(** The doctor always reports its eight checks in their order; a report
    without a complaint is only given for a system that answered well: a valid
    configuration, options none of which is dropped, a token Telegram accepts,
    a forum in which the bot is an administrator with every right, a reachable
    private chat for every operator, a Herdr of the expected protocol, a daemon
    that lives and answers, and a readable mapping without corrupt copies. *)
Theorem doctor_all_clear {U : UnicodeTables} error_text hasBroken protocol choices w :
  wp anything (RunDoctor error_text hasBroken protocol choices) w (λ cs w',
    map CName cs = ["config"; "options"; "telegram"; "group"; "operator chat"; "herdr"; "daemon"; "mapping"] ∧
    (Forall (λ c, CLevel c = CheckOK) cs → healthy hasBroken protocol choices (trace w'))).
Proof.
  apply wp_bind. eapply (wp_mono _ _ _ (λ (r : option Config * Check) w', CName r.2 = "config" ∧ match r.1 with Some cfg => config_good cfg (trace w') | None => CLevel r.2 ≠ CheckOK end)).
  2:{ apply wp_ask. intros r _. cbn [wp]. destruct r as [cfg|e]; [|done]. destruct (Validate cfg) as [e|] eqn:Hv; [done|]. split; [done|]. by split; [left|]. }
  intros [cfg c] w1 [N1 H1]. cbn [fst snd] in *.
  apply wp_bind. eapply (wp_check _ _ _ _ _ (is_check_options _ choices)). intros o w2 [N2 H2] S2.
  apply wp_bind. eapply wp_mono; [|apply wp_grown, wp_telegram_checks]. intros ts w3 [[N3 H3] S3].
  apply wp_bind. eapply (wp_check _ _ _ _ _ (is_check_herdr _ protocol)). intros hd w4 [N4 H4] S4.
  apply wp_bind. eapply (wp_check _ _ _ _ _ (is_check_daemon _)). intros d w5 [N5 H5] S5.
  apply wp_bind. eapply (wp_check _ _ _ _ _ (is_check_mapping _ hasBroken)). intros m w6 [N6 H6] S6. cbn [wp].
  split; [cbn; by rewrite N1, N2, map_app, N3; cbn; rewrite N4, N5, N6|].
  intros [O1 [O2 [O3 [O4 [O5 [O6 _]%Forall_cons]%Forall_cons]%Forall_cons]%Forall_app]%Forall_cons]%Forall_cons.
  destruct cfg as [cfg|]; [|done]. destruct (H3 O3) as (cfg' & [= <-] & T & G & P). exists cfg.
  assert (S : trace w3 ⊆ trace w6) by (do 2 (etrans; [eassumption|]); done).
  split; [split; [|apply H1]; apply S, S3, S2, H1|].
  split; [eapply (proj1 (is_check_options error_text choices)); [|by apply H2]; by etrans|].
  split; [eapply (proj1 (is_check_telegram error_text)); [|exact T]; done|].
  split; [eapply (proj1 (is_check_group error_text cfg)); [|exact G]; done|].
  split; [eapply (proj1 (is_check_operators error_text cfg)); [|exact P]; done|].
  split; [eapply (proj1 (is_check_herdr error_text protocol)); [|by apply H4]; by etrans|].
  split; [eapply (proj1 (is_check_daemon error_text)); [|by apply H5]; done|by apply H6].
Qed.

(** A system without a complaint. *)
Definition well : oracle (E := doctorE) := λ B o h,
  match o with
  | DcConfig => Ok (mkConfig 1 "1:tok" "relay_bot" (-100) "Agents" [9] [] "" 0)
  | DcOptions => Ok DefaultOptions
  | DcMapping => Ok (NewMapping (-100))
  | DcBroken => Ok []
  | DcPid => Ok (mkPidInfo 7 0)
  | DcAlive _ => true
  | DcControl => Ok ""
  | DcPing => Ok (mkHerdrInfo "1.2" 3)
  | DcNow => 61 * Second
  | DcClient _ => None
  | DcGetMe => Ok (mkBotIdentity 1 "relay_bot")
  | DcGetChat _ => Ok (mkChatInfo "Agents" true)
  | DcGetChatMember _ _ => Ok (mkMember ChatMemberTypeAdministrator (Some (mkAdmin true true true)))
  | DcTyping _ => None
  | DcSend _ _ => Ok 1
  end.

Example doctor_run {U : UnicodeTables} :
  let cs := (interp well (RunDoctor (λ _, "text") true 3 None) (mkWorld tt [])).1 in
  forallb (λ c, match CLevel c with CheckOK => true | _ => false end) cs = true ∧ Summarize cs = (8, 0, 0) ∧
  map CDetail (drop 5 cs) = ["version 1.2, protocol 3"; "running (pid 7, up 1m1s)"; "0 entries (0 live, 0 exited, 0 muted)"].
Proof. vm_compute. done. Qed.
