(* ===== verification/Cli.v ===== *)
(** internal/cli and internal/compose: the commands of the program (root.go,
    action.go, startup.go, daemon.go, setuppane.go, doctorpane.go), what they
    are wired to (container.go), and the connection of the daemon to Telegram
    (telegram/connect.go, bot.go).

    A command is a program over the functions of [wiring]; what it reads of
    standard input is state, so a prompt sees what earlier prompts have left.
    Contexts are left out: an operation that may be cut short answers so. *)
From S2P Require Import Prelude GoStrings GoTime Errors Status Mapping Command Config OptionRegistry TgErrors.
From S2P Require Import Queue Icons Eff Gateway Setup TurnMeta Supervisor Daemon Doctor System.

Local Open Scope Z_scope.

Definition exitOK : Z := 0.
Definition exitError : Z := 1.
Definition exitUsage : Z := 2.

Definition documentedCommands : list (string * string) :=
  [("version", "print the binary version and platform");
   ("startup", "[[startup]] hook: ensure the daemon is running");
   ("daemon", "run the long-lived sync daemon in the foreground");
   ("action <id>", "[[actions]] entrypoint: setup|start|stop|restart|status|resync|logs|doctor|send-test");
   ("setup-pane", "[[panes]] popup: interactive setup wizard");
   ("logs-pane", "[[panes]] overlay: tail of daemon.log");
   ("doctor-pane", "[[panes]] overlay: one line per diagnostic check");
   ("event", "[[events]] hook (fallback notifications)")].

(** [fmt]'s minus flag and width, of code points. *)
Definition pad_right (width : Z) (s : string) : string :=
  s +:+ string_of_runes (replicate (Z.to_nat (width - Z.of_nat (length (runes s)))) 32).

Definition usage_lines : list string :=
  ["usage: herdr-tg <command> [args]"; ""; "commands:"]
  ++ map (λ c, "  " +:+ pad_right 14 c.1 +:+ " " +:+ c.2) documentedCommands
  ++ [""; "environment:"; "  LOG_LEVEL      debug|info|warn|error (default info)"].

(** What is left of standard input, and the error at its end. *)
Record Stdin := mkStdin { pending : string; in_err : error }.
Record Shell := mkShell { cin : Stdin; probe : Probe }.

Inductive cmdE : Type → Type :=
  | CEnv : cmdE (result PluginEnv)
  | CConfigLoad : cmdE (result Config)
  | COut (text : string) : cmdE unit
  | CErr (text : string) : cmdE unit
  | CFileLogger (level : string) : cmdE (option error)
  | CCloseLog : cmdE unit
  | CNotify (title body : string) : cmdE (option error)
  | CAcquire : cmdE (option error)                       (* the pid file, for this process *)
  | CRelease : cmdE (option error)
  | CHerdrStart : cmdE (option error)
  | CHerdrClose : cmdE (option error)
  | CNewBot (token : string) : cmdE (option error)
  | CGetMe : cmdE (result BotIdentity)
  | CDeleteWebhook (drop : bool) : cmdE (option error)
  | CStickers : cmdE (result (list (option Sticker)))
  | CSetMyCommands (commands : list (string * string)) (chat : Z) : cmdE (option error)
  | CMappingLoad : cmdE (result Mapping)
  | COptionsLoad : cmdE (Options * option error)
  | CWatchResync : cmdE unit                             (* the handler of the hangup signal *)
  | CUnwatch : cmdE unit
  | CListen : cmdE (option error)
  | CUnlisten : cmdE unit
  | CTelegram : cmdE unit                                (* the poller and the queue, beside the loop *)
  | CLoop : cmdE (option error)                          (* the loop of the daemon, to its end *)
  | CStopTelegram : cmdE unit
  | CTelegramDone (timeout : Duration) : cmdE bool
  | CStart : cmdE Supervisor.started
  | CStop : cmdE (option error)
  | CRestart : cmdE (Z * option error)
  | CResync : cmdE (option error)
  | CDescribe : cmdE string
  | CStatus : cmdE DaemonStatus
  | COpenPane (pluginID entrypoint : string) : cmdE (option error)
  | CInspector (token : string) (chat : Z) : cmdE (option error)
  | CSendTest (chat : Z) (version : string) : cmdE (string * option error)
  | CDoctor : cmdE (list Check)
  | CWaitQuit : cmdE unit
  | COpenURL (url : string) : cmdE (option error)
  | CWizard {B} (o : setupE B) : cmdE B                  (* what the wizard asks of others than the user *)
  | COther (name : string) (args : list string) : cmdE Z. (* the log pane and the tools of developers *)

Local Open Scope eff_scope.

Section Cli.
Context {U : UnicodeTables} (error_text : error → string) (version platform : string).
Local Notation prog := (prog cmdE Shell).

Definition cmd {B} (o : cmdE B) : prog B := call o.
Definition println (text : string) : prog unit := cmd (COut (text +:+ nl)).
Definition err_line (text : string) : prog unit := cmd (CErr (text +:+ nl)).
Definition failed (name : string) (e : error) : prog Z :=
  do _ ← err_line ("herdr-tg " +:+ name +:+ ": " +:+ error_text e); Ret exitError.
(** A deferred call. *)
Definition finally {A B} (p : prog A) (cleanup : prog B) : prog A := do a ← p; do _ ← cleanup; Ret a.

(** ** What the commands are wired to *)

Definition NotifyTitle : string := "Telegram Agents".
Definition notify (body : string) : prog unit := do _ ← cmd (CNotify NotifyTitle body); Ret tt.

Definition LoadConfig : prog (result Config) :=
  do r ← cmd CConfigLoad;
  Ret (match r with
       | Err e => Err e
       | Ok cfg => match Validate cfg with Some e => Err e | None => Ok cfg end
       end).
Definition isNotConfigured (e : error) : bool := errors_is e ErrNotConfigured.
Definition isAlreadyRunning (e : error) : bool := errors_is e ErrAlreadyRunning.

(** ** Telegram *)

(** The final answers to polling; [true] stops the daemon. *)
Definition errorsHandler (e : error) : bool :=
  if is_foreign e CtxCanceled then false
  else is_foreign e BotUnauthorized || is_foreign e BotConflict.
Definition redact (e : option error) (token : string) : string :=
  match e with
  | None => ""
  | Some e => if String.eqb token "" then error_text e else replace_all (error_text e) token "***"
  end.

Definition NewBot (token : string) : prog (option error) :=
  do e ← cmd (CNewBot token);
  Ret ((λ e, Errorf "telegram bot: %w" [] [e]) <$> e).

Definition check (dropPending : bool) : prog (result BotIdentity) :=
  do r ← cmd CGetMe;
  match r with
  | Err e => Ret (Err (Errorf "getMe: %w" [] [translate error_text e]))
  | Ok me =>
    do e ← cmd (CDeleteWebhook dropPending);
    Ret (match e with Some e => Err (Errorf "deleteWebhook: %w" [] [translate error_text e]) | None => Ok me end)
  end.

Definition botCommands : list (string * string) :=
  [("screen", "Show the agent screen (N: last N lines, all: output since your last message)");
   ("keys", "Send raw keys to the agent, e.g. /keys esc");
   ("focus", "Bring the agent's pane to the front in Herdr");
   ("git", "git status | diff [staged] | log [N] in the agent's directory");
   ("stop", "Send esc to the agent: cancel the running turn or dialog");
   ("interrupt", "Send ctrl+c to the agent");
   ("clear", "Claude Code /clear: start a fresh conversation (idle agents only)");
   ("compact", "Claude Code /compact [instructions]: compact the context");
   ("usage", "Claude Code /usage: show the usage panel, closed for you afterwards");
   ("model", "Claude Code /model [name]: show the picker or set the model");
   ("close", "Close the agent's pane (asks Yes/No)");
   ("new", "Start an agent: /new <workspace> [kind] (General)");
   ("observers", "List or change observers: /observers [add|remove <id>] (General)");
   ("status", "Agent status here, all agents in General");
   ("away", "Treat me as away (General): /away or /away 2h");
   ("here", "Back to automatic presence (General)");
   ("options", "Settings panel (General): sync, quiet mode, posts, icons, redaction, topic cleanup");
   ("help", "List the commands")].
Definition relayCommands : list (string * string) :=
  [("status", "Workspaces, andares e conexões"); ("agents", "Escolher um agente deste andar");
   ("screen", "Prévia do terminal escolhido"); ("partituras", "Buscar exemplos por descrição");
   ("apply", "Aplicar exemplo pelo ID neste andar"); ("adapt", "Adaptar exemplo com IA");
   ("create", "Criar equipe pela descrição"); ("preview", "Gerar plano sem executar");
   ("resume", "Retomar criação registrada"); ("focus", "Focar agente no Maestri");
   ("stop", "Enviar Escape ao agente"); ("interrupt", "Enviar Ctrl+C ao agente");
   ("close", "Encerrar processo com confirmação"); ("mute", "Silenciar notificações deste andar");
   ("unmute", "Ativar notificações deste andar"); ("help", "Ajuda do Maestri Relay")].

Definition RegisterCommands (chatID : Z) : prog (option error) :=
  do e ← cmd (CSetMyCommands botCommands chatID);
  Ret ((λ e, Errorf "setMyCommands: %w" [] [translate error_text e]) <$> e).

(** A connected gateway: who the bot is, its icons, the tries of its queue. *)
Record Connected := mkConnected { CIdentity : BotIdentity; CIcons : IconSet; CQueue : QueueConfig }.
Definition one_try (q : QueueConfig) : QueueConfig := mkQueueConfig (MinGap q) (WindowLimit q) (Window q) 1 (MaxWait q).

Definition connect (token : string) (chatID : Z) (relay : bool) : prog (result Connected) :=
  do e ← NewBot token;
  match e with
  | Some e => Ret (Err e)
  | None =>
    do r ← check (negb relay);
    match r with
    | Err e => Ret (Err (Errorf "telegram check: %w" [] [e]))
    | Ok identity =>
      do stickers ← cmd CStickers;
      match LoadIcons error_text stickers with
      | Err e => Ret (Err (Errorf "telegram icons: %w" [] [e]))
      | Ok icons =>
        let q := DefaultQueueConfig in
        if relay then
          do e ← cmd (CSetMyCommands relayCommands chatID);
          Ret (match e with
               | Some e => Err (Errorf "menu Relay: %w" [] [translate error_text e])
               | None => Ok (mkConnected identity icons (one_try q))
               end)
        else do _ ← RegisterCommands chatID; Ret (Ok (mkConnected identity icons q))
      end
    end
  end.
Definition Connect (cfg : Config) : prog (result Connected) := connect (BotToken cfg) (ChatID cfg) false.

(** ** The parts of a daemon *)

Record Built := mkBuilt { BConnected : Connected; BMapping : Mapping; BOptions : Options }.

(** The mapping of another chat is not taken over. *)
Definition mapping_for (chatID : Z) (m : Mapping) : Mapping :=
  let m := if negb (Mapping.ChatID m =? 0) && negb (Mapping.ChatID m =? chatID) then NewMapping chatID else m in
  if Mapping.ChatID m =? 0 then mkMapping (Mapping.Version m) chatID (Mapping.Topics m) (Mapping.Dashboard m) else m.
Definition pack_choices (icons : IconSet) : ChoiceSource :=
  Some (λ name, if String.eqb name ChoiceSourceIcons then Emojis icons else []).
Definition options_for (icons : IconSet) (loaded : Options * option error) : Options :=
  let options := match loaded.2 with Some _ => DefaultOptions | None => loaded.1 end in
  let '(clean, dropped) := SanitizeOptions options (pack_choices icons) in
  match dropped with [] => options | _ => clean end.

Definition BuildDaemon (socket : string) (cfg : Config) : prog (result Built) :=
  do e ← cmd CHerdrStart;
  match e with
  | Some e => Ret (Err (Errorf "herdr connect %s: %w" [socket] [e]))
  | None =>
    do r ← Connect cfg;
    match r with
    | Err e => do _ ← cmd CHerdrClose; Ret (Err e)
    | Ok c =>
      do r ← cmd CMappingLoad;
      match r with
      | Err e => do _ ← cmd CHerdrClose; Ret (Err (Errorf "load mapping: %w" [] [e]))
      | Ok m =>
        do loaded ← cmd COptionsLoad;
        Ret (Ok (mkBuilt c (mapping_for (ChatID cfg) m) (options_for (CIcons c) loaded)))
      end
    end
  end.

Definition StartControl : prog (option error) :=
  do e ← cmd CListen;
  Ret ((λ e, Errorf "control channel: %w" [] [e]) <$> e).

(** ** daemon.go *)

Definition daemonNotifyTimeout : Duration := 3 * Second.
Definition telegramStopTimeout : Duration := 10 * Second.

Definition runWithTelegram (stopTimeout : Duration) : prog (option error) :=
  do _ ← cmd CTelegram;
  do e ← cmd CLoop;
  do _ ← cmd CStopTelegram;
  do _ ← cmd (CTelegramDone stopTimeout);
  Ret e.

(** From the control channel to the end of the loop. *)
Definition serve : prog Z :=
  do e ← runWithTelegram telegramStopTimeout;
  match e with
  | Some e => failed "daemon" e
  | None => Ret exitOK
  end.
Definition controlled : prog Z :=
  do e ← StartControl;
  match e with
  | Some _ => serve
  | None => finally serve (cmd CUnlisten)
  end.
(** What owns the pid file. *)
Definition owning (env : PluginEnv) (cfg : Config) : prog Z :=
  do r ← BuildDaemon (SocketPathE env) cfg;
  match r with
  | Err e =>
    do code ← failed "daemon" e;
    do _ ← notify ("Telegram Agents could not start: " +:+ error_text e);
    Ret code
  | Ok _ => finally (do _ ← cmd CWatchResync; finally controlled (cmd CUnwatch)) (cmd CHerdrClose)
  end.
Definition logging (env : PluginEnv) (cfg : Config) : prog Z :=
  do e ← cmd CAcquire;
  match e with
  | Some e => do code ← failed "daemon" e; Ret (if isAlreadyRunning e then exitOK else code)
  | None => finally (owning env cfg) (cmd CRelease)
  end.

Definition runDaemon : prog Z :=
  do r ← cmd CEnv;
  match r with
  | Err e => failed "daemon" e
  | Ok env =>
    do r ← LoadConfig;
    match r with
    | Err e =>
      do code ← failed "daemon" e;
      do _ ← (if isNotConfigured e then notify "Not configured: run the setup action to connect a Telegram group" else Ret tt);
      Ret code
    | Ok cfg =>
      do e ← cmd (CFileLogger (LogLevel cfg));
      match e with
      | Some e => failed "daemon" e
      | None => finally (logging env cfg) (cmd CCloseLog)
      end
    end
  end.

(** ** startup.go *)

Definition runStartup : prog Z :=
  do r ← cmd CEnv;
  match r with
  | Err e => failed "startup" e
  | Ok env =>
    do r ← LoadConfig;
    match r with
    | Err e =>
      if isNotConfigured e then
        do _ ← println "not configured; run the setup action";
        do _ ← notify "Run the setup action to connect a Telegram group";
        Ret exitOK
      else failed "startup" e
    | Ok _ =>
      do r ← cmd CStart;
      let '(pid, already, err) := r in
      match err with
      | Some e =>
        do code ← failed "startup" e;
        do _ ← notify ("Telegram Agents daemon failed to start: " +:+ error_text e);
        Ret code
      | None =>
        do _ ← println ((if already : bool then "daemon already running (pid " else "daemon started (pid ") +:+ itoa pid +:+ ")");
        Ret exitOK
      end
    end
  end.

(** ** action.go *)

Definition actionIDs : list string := ["setup"; "start"; "stop"; "restart"; "status"; "resync"; "logs"; "doctor"; "send-test"].
Definition isAction (id : string) : bool := existsb (String.eqb id) actionIDs.

Definition sendTest : prog (result string) :=
  do r ← cmd CEnv;
  match r with
  | Err e => Ret (Err e)
  | Ok _ =>
    do r ← LoadConfig;
    match r with
    | Err e => Ret (if errors_is e ErrNotConfigured then Ok "send-test failed: not configured, run the setup action" else Err e)
    | Ok cfg =>
      do e ← cmd (CInspector (BotToken cfg) (ChatID cfg));
      match e with
      | Some e => Ret (Err e)
      | None =>
        do r ← cmd (CSendTest (ChatID cfg) version);
        Ret (Ok (match r.2 with Some e => error_text e | None => r.1 end))
      end
    end
  end.

Definition doAction (pluginID id : string) : prog (result string) :=
  if existsb (String.eqb id) ["setup"; "logs"; "doctor"] then
    do e ← cmd (COpenPane pluginID id);
    Ret (match e with Some e => Err e | None => Ok ("opened the " +:+ id +:+ " pane") end)
  else if String.eqb id "send-test" then sendTest
  else if String.eqb id "start" then
    do r ← cmd CStart;
    let '(pid, already, err) := r in
    Ret (match err with
         | Some e => Err e
         | None => Ok ((if already : bool then "daemon already running (pid " else "daemon started (pid ") +:+ itoa pid +:+ ")")
         end)
  else if String.eqb id "stop" then
    do e ← cmd CStop;
    Ret (match e with
         | None => Ok "daemon stopped"
         | Some e => if errors_is e ErrNotRunning then Ok "daemon is not running" else Err e
         end)
  else if String.eqb id "restart" then
    do r ← cmd CRestart;
    Ret (match r.2 with Some e => Err e | None => Ok ("daemon restarted (pid " +:+ itoa r.1 +:+ ")") end)
  else if String.eqb id "status" then do s ← cmd CDescribe; Ret (Ok ("daemon " +:+ s))
  else if String.eqb id "resync" then
    do e ← cmd CResync;
    Ret (match e with
         | None => Ok "resync requested"
         | Some e => if errors_is e ErrNotRunning then Ok "daemon is not running; start it first" else Err e
         end)
  else Ret (Err (Errorf "unknown action %q" [id] [])).

Definition runAction (args : list string) : prog Z :=
  match args with
  | [id] =>
    if negb (isAction id) then do _ ← err_line ("usage: herdr-tg action " +:+ join actionIDs "|"); Ret exitUsage
    else
      do r ← cmd CEnv;
      match r with
      | Err e => failed ("action " +:+ id) e
      | Ok env =>
        do r ← doAction (PluginID env) id;
        match r with
        | Err e =>
          let msg :=
            if errors_is e ErrUnsupportedPlatform then id +:+ " is not available on this platform"
            else if errors_is e ErrControlUnavailable
            then id +:+ " failed: the daemon is not listening on its control channel; restart it"
            else id +:+ " failed: " +:+ error_text e in
          do _ ← err_line ("herdr-tg action: " +:+ msg); do _ ← notify msg; Ret exitError
        | Ok msg => do _ ← println msg; do _ ← notify msg; Ret exitOK
        end
      end
  | _ => do _ ← err_line ("usage: herdr-tg action " +:+ join actionIDs "|"); Ret exitUsage
  end.

(** ** setuppane.go: the console *)

Definition set_cin (i : Stdin) (s : Shell) : Shell := mkShell i (probe s).
Definition set_probe (p : Probe) (s : Shell) : Shell := mkShell (cin s) p.

Definition ReadString (i : Stdin) : Stdin * (string * option error) :=
  match str_cut (pending i) nl with
  | Some (line, rest) => (mkStdin rest (in_err i), (line +:+ nl, None))
  | None => (mkStdin "" (in_err i), (pending i, Some (in_err i)))
  end.
Definition read_string : prog (string * option error) := Upd (λ s, ((set_cin (ReadString (cin s)).1 s), (ReadString (cin s)).2)) Ret.

Definition readLine : prog (result string) :=
  do r ← read_string;
  Ret (match r.2 with
       | Some e => if String.eqb r.1 "" || negb (is_foreign e EOF) then Err (Errorf "read input: %w" [] [e]) else Ok (trim_space r.1)
       | None => Ok (trim_space r.1)
       end).
Definition Ask (prompt : string) : prog (result string) := do _ ← cmd (COut (prompt +:+ " ")); readLine.
Definition AskSecret (prompt : string) : prog (result string) :=
  do _ ← println "(the token is visible while you type; this pane closes when setup ends)"; Ask prompt.
Definition Confirm (prompt : string) : prog (result bool) :=
  do r ← Ask prompt;
  Ret (match r with
       | Err e => Err e
       | Ok line => Ok (existsb (String.eqb (to_lower line)) ["y"; "yes"])
       end).

Fixpoint print_options (i : Z) (options : list string) : prog unit :=
  match options with
  | [] => Ret tt
  | o :: options => do _ ← println ("  " +:+ itoa (i + 1) +:+ ") " +:+ o); print_options (i + 1) options
  end.
(** The turns of the prompt; [None] once they are used up. *)
Fixpoint choose_turns (turns : nat) (prompt : string) (n : Z) : prog (option (result Z)) :=
  match turns with
  | O => Ret None
  | S turns =>
    do r ← Ask (prompt +:+ " [1-" +:+ itoa n +:+ "]");
    match r with
    | Err e => Ret (Some (Err e))
    | Ok line =>
      match atoi line with
      | Some k =>
        if (1 <=? k) && (k <=? n) then Ret (Some (Ok (k - 1)))
        else do _ ← println ("please enter a number between 1 and " +:+ itoa n); choose_turns turns prompt n
      | None => do _ ← println ("please enter a number between 1 and " +:+ itoa n); choose_turns turns prompt n
      end
    end
  end.
(** A turn takes a byte of the input or ends with it. *)
Definition errTurns : error := Opaque "turns used up".
Definition Choose (prompt : string) (options : list string) : prog (result Z) :=
  do _ ← print_options 0 options;
  do i ← gets cin;
  do r ← choose_turns (S (String.length (pending i))) prompt (Z.of_nat (length options));
  Ret (default (Err errTurns) r).
Definition waitEnter : prog unit := do _ ← cmd (COut "press Enter to close "); do _ ← readLine; Ret tt.

(** The wizard asks its user through the console. *)
Definition console {B} (o : setupE B) : prog B :=
  match o in setupE B return prog B with
  | StPrint text => println text
  | StAskSecret prompt => AskSecret prompt
  | StConfirm prompt => Confirm prompt
  | StChoose prompt options => Choose prompt options
  | StOpenLink url => cmd (COpenURL url)
  | o => cmd (CWizard o)
  end.
Fixpoint on_console {A} (p : Eff.prog setupE Probe A) : prog A :=
  match p with
  | Ret a => Ret a
  | Vis o k => do b ← console o; on_console (k b)
  | Upd f k => Upd (λ s, (set_probe (f (probe s)).1 s, (f (probe s)).2)) (λ b, on_console (k b))
  end.

Definition closing (text : string) (code : Z) : prog Z := do _ ← println text; do _ ← waitEnter; Ret code.

(** The daemon takes over the new configuration. *)
Definition after_setup (cfg : Config) : prog Z :=
  let for_group verb pid := "Daemon " +:+ verb +:+ " (pid " +:+ itoa pid +:+ ") for group " +:+ quote (ChatTitle cfg) +:+ "." in
  do st ← cmd CStatus;
  if Running st then
    do r ← cmd CRestart;
    match r.2 with
    | Some e => closing ("Configuration saved, but the daemon could not be restarted: " +:+ error_text e) exitError
    | None => closing (for_group "restarted" r.1) exitOK
    end
  else
    do r ← cmd CStart;
    let '(pid, _, err) := r in
    match err with
    | Some e => closing ("Configuration saved, but the daemon could not be started: " +:+ error_text e) exitError
    | None => closing (for_group "started" pid) exitOK
    end.

Definition setup_on (wakes : list setup_wake) (ctx_err : error) : prog Z :=
  do r ← on_console (RunSetup error_text wakes ctx_err);
  match r with
  | Err e =>
    if is_foreign e ErrSetupCancelled then closing "Setup cancelled; nothing was changed." exitOK
    else closing ("Setup failed: " +:+ error_text e) exitError
  | Ok (cfg, _) => after_setup cfg
  end.
Definition runSetupPane (wakes : list setup_wake) (ctx_err : error) : prog Z :=
  do r ← cmd CEnv;
  match r with
  | Err e => failed "setup-pane" e
  | Ok _ =>
    do e ← cmd (CFileLogger "");
    match e with
    | Some _ => setup_on wakes ctx_err
    | None => finally (setup_on wakes ctx_err) (cmd CCloseLog)
    end
  end.

(** ** doctorpane.go, version.go, root.go *)

Definition runDoctorPane : prog Z :=
  do r ← cmd CEnv;
  match r with
  | Err e => failed "doctor-pane" e
  | Ok _ =>
    do _ ← println "running checks…";
    do checks ← cmd CDoctor;
    do _ ← cmd (COut (RenderChecks version checks));
    do _ ← println "(Esc or q to close)";
    do _ ← cmd CWaitQuit;
    Ret exitOK
  end.

Definition runVersion : prog Z := do _ ← println ("herdr-tg " +:+ version +:+ " " +:+ platform); Ret exitOK.
Definition notImplemented (name : string) : prog Z :=
  do _ ← err_line ("herdr-tg " +:+ name +:+ ": not implemented yet"); Ret exitUsage.
Definition printUsage : prog unit := cmd (CErr (String.concat "" (map (λ l, l +:+ nl) usage_lines))).

Definition commands (wakes : list setup_wake) (ctx_err : error) (name : string) (rest : list string) : option (prog Z) :=
  if String.eqb name "version" then Some runVersion
  else if String.eqb name "startup" then Some runStartup
  else if String.eqb name "daemon" then Some runDaemon
  else if String.eqb name "action" then Some (runAction rest)
  else if String.eqb name "setup-pane" then Some (runSetupPane wakes ctx_err)
  else if String.eqb name "logs-pane" then Some (cmd (COther name rest))
  else if String.eqb name "doctor-pane" then Some runDoctorPane
  else if String.eqb name "event" then Some (notImplemented "event")
  else if String.eqb name "dev" then Some (cmd (COther name rest))
  else None.

Definition Run (wakes : list setup_wake) (ctx_err : error) (args : list string) : prog Z :=
  match args with
  | [] => do _ ← printUsage; Ret exitUsage
  | name :: rest =>
    match commands wakes ctx_err name rest with
    | None =>
      do _ ← err_line ("herdr-tg: unknown subcommand " +:+ quote name +:+ nl);
      do _ ← printUsage;
      Ret exitUsage
    | Some p => p
    end
  end.
End Cli.

(** * What the commands promise *)

Section Promises.
Context {U : UnicodeTables} (error_text : error → string) (version platform : string).
Local Notation prog := (prog cmdE Shell).
Local Notation event := (event cmdE).

(** ** What is taken is given back *)

(** What a process takes for as long as it needs it. *)
Inductive resource := RLog | RPid | RHerdr | RResync | RControl | RTelegram.
#[local] Instance resource_eq_dec : EqDecision resource.
Proof. solve_decision. Defined.

Definition taken (ev : event) : option resource :=
  match ev with
  | Ev o b =>
    match o in cmdE B return B → option resource with
    | CFileLogger _ => λ e, match e with None => Some RLog | Some _ => None end
    | CAcquire => λ e, match e with None => Some RPid | Some _ => None end
    | CHerdrStart => λ e, match e with None => Some RHerdr | Some _ => None end
    | CWatchResync => λ _, Some RResync
    | CListen => λ e, match e with None => Some RControl | Some _ => None end
    | CTelegram => λ _, Some RTelegram
    | _ => λ _, None
    end b
  end.
Definition given (ev : event) : option resource :=
  match ev with
  | Ev o _ =>
    match o with
    | CCloseLog => Some RLog
    | CRelease => Some RPid
    | CHerdrClose => Some RHerdr
    | CUnwatch => Some RResync
    | CUnlisten => Some RControl
    | CStopTelegram => Some RTelegram
    | _ => None
    end
  end.

Definition push_held (r : resource) (l : option (list resource)) : option (list resource) := cons r <$> l.
Definition pop_held (r : resource) (l : option (list resource)) : option (list resource) :=
  match l with Some (r' :: l) => if decide (r = r') then Some l else None | _ => None end.
Definition held_step (ev : event) (l : option (list resource)) : option (list resource) :=
  match taken ev, given ev with
  | Some r, _ => push_held r l
  | None, Some r => pop_held r l
  | None, None => l
  end.
(** What is held, the latest first; [None] once something was given back that
    was not the latest. *)
Definition held (h : list event) : option (list resource) := foldr held_step (Some []) h.
Definition holds (w : world cmdE Shell) : option (list resource) := held (trace w).

Lemma pop_push r l : pop_held r (push_held r l) = l.
Proof. destruct l as [l|]; [|done]. cbn. by rewrite decide_True. Qed.

(** The deferred call gives back what was taken before. *)
Lemma wp_finally {A B} r (p : prog A) (o : cmdE B) w Q :
  frames holds p → (∀ b, taken (Ev o b) = None ∧ given (Ev o b) = Some r) →
  (∀ a w', holds w' = pop_held r (holds w) → Q a w') → wp anything (finally p (cmd o)) w Q.
Proof.
  intros Hp Ho HQ. apply wp_bind. eapply wp_mono; [|apply Hp]. intros a w1 H b _. apply HQ.
  destruct (Ho b) as [H1 H2]. change (held_step (Ev o b) (holds w1) = pop_held r (holds w)). unfold held_step. by rewrite H1, H2, H.
Qed.

(** [o] takes nothing and gives nothing back. *)
Definition neutral {B} (o : cmdE B) : Prop := ∀ b, taken (Ev o b) = None ∧ given (Ev o b) = None.
Lemma frames_neutral {B} (o : cmdE B) : neutral o → frames holds (cmd o).
Proof. intros Ho. apply frames_call. intros w b. destruct (Ho b) as [H1 H2].
  change (held_step (Ev o b) (holds w) = holds w). unfold held_step. by rewrite H1, H2.
Qed.
Hint Extern 1 (neutral _) => (intros ?; done) : core.
Hint Extern 4 (frames _ (cmd _)) => (apply frames_neutral; done) : core.

Lemma frames_finally {A B} r (p : prog A) (o : cmdE B) w :
  frames holds p → (∀ b, taken (Ev o b) = None ∧ given (Ev o b) = Some r) →
  wp anything (finally p (cmd o)) w (λ _ w', holds w' = pop_held r (holds w)).
Proof. intros Hp Ho. by eapply wp_finally. Qed.

(** Programs are seen through down to what they ask. *)
Ltac part_step :=
  match goal with
  | |- ∀ _, _ => intro
  | |- frames _ (finally _ _) => fail 1
  | |- frames _ (bind _ _) => apply frames_bind
  | |- frames _ (Ret _) => apply frames_ret
  | |- frames _ (cmd _) => apply frames_neutral; intros ?; split; reflexivity
  | |- frames _ (gets _) => apply frames_gets
  | |- frames _ (let '_ := ?x in _) => destruct x
  | |- frames _ (match ?x with _ => _ end) => destruct x
  | |- frames _ (if ?x then _ else _) => destruct x
  end.
Ltac parts := repeat first [solve [auto 2 with cli nocore] | part_step].

Lemma frames_println t : frames holds (println t).
Proof. unfold println. parts. Qed.
Lemma frames_err_line t : frames holds (err_line t).
Proof. unfold err_line. parts. Qed.
Lemma frames_failed name e : frames holds (failed error_text name e).
Proof. unfold failed, err_line. parts. Qed.
Lemma frames_notify body : frames holds (notify body).
Proof. unfold notify. parts. Qed.
Lemma frames_LoadConfig : frames holds LoadConfig.
Proof. unfold LoadConfig. parts. Qed.
Lemma frames_Connect cfg : frames holds (Connect error_text cfg).
Proof. unfold Connect, connect, NewBot, check, RegisterCommands. parts. Qed.
Lemma frames_read_line : frames holds readLine.
Proof. unfold readLine. apply frames_bind; [by intros w|]. parts. Qed.
#[local] Hint Resolve frames_println frames_err_line frames_failed frames_notify frames_LoadConfig frames_Connect frames_read_line : cli.

Lemma frames_Ask prompt : frames holds (Ask prompt).
Proof. unfold Ask. parts. Qed.
Lemma frames_print_options i options : frames holds (print_options i options).
Proof. revert i. induction options as [|o options IH]; intros i; cbn [print_options]; [apply frames_ret|]. parts. Qed.
#[local] Hint Resolve frames_Ask frames_print_options : cli.
Lemma frames_choose_turns turns prompt n : frames holds (choose_turns turns prompt n).
Proof. induction turns as [|turns IH]; cbn [choose_turns]; parts. Qed.
#[local] Hint Resolve frames_choose_turns : cli.

Lemma frames_console {B} (o : setupE B) : frames holds (console o).
Proof. destruct o; cbn [console]; unfold AskSecret, Confirm, Choose; parts. Qed.
Lemma frames_on_console {A} (p : Eff.prog setupE Probe A) : frames holds (on_console p).
Proof.
  induction p as [a|B o k IH|B f k IH]; cbn [on_console]; [apply frames_ret|apply frames_bind; [apply frames_console|exact IH]|].
  intros w. cbn. eapply wp_mono; [|apply IH]. by intros a w' ->.
Qed.
#[local] Hint Resolve frames_on_console : cli.

Lemma frames_setup_on wakes ce : frames holds (setup_on error_text wakes ce).
Proof. unfold setup_on, after_setup, closing, waitEnter. parts. Qed.
Lemma frames_runAction args : frames holds (runAction error_text version args).
Proof. unfold runAction, doAction, sendTest. parts. Qed.

Lemma mapping_for_chat chat m : Mapping.ChatID (mapping_for chat m) = chat.
Proof.
  unfold mapping_for. destruct (Z.eqb_spec (Mapping.ChatID m) 0) as [H0|H0]; cbn [negb andb].
  - by rewrite H0.
  - destruct (Z.eqb_spec (Mapping.ChatID m) chat) as [<-|H]; cbn [negb].
    + by rewrite (proj2 (Z.eqb_neq _ _) H0).
    + cbn. by destruct (Z.eqb_spec chat 0) as [->|].
Qed.

(** A daemon that is built holds Herdr; one that is not holds nothing new. *)
Lemma wp_BuildDaemon socket cfg w (Q : _ → _ → Prop) :
  (∀ r w', match r with
           | Ok b => holds w' = push_held RHerdr (holds w) ∧ Mapping.ChatID (BMapping b) = ChatID cfg
           | Err _ => holds w' = holds w
           end → Q r w') → wp anything (BuildDaemon error_text socket cfg) w Q.
Proof.
  intros HQ. unfold BuildDaemon. apply wp_ask. intros [e|] _; [by apply HQ|].
  set (w1 := told _ _ w). assert (H1 : holds w1 = push_held RHerdr (holds w)) by done. clearbody w1.
  apply wp_framed_part with (f := holds); [apply frames_Connect|]. intros [c|e] w2 H2; cbn [wp].
  2: { intros b _. apply HQ. cbn. change (pop_held RHerdr (holds w2) = holds w). by rewrite H2, H1, pop_push. }
  apply wp_ask. intros [m|e] _.
  2: { intros b _. apply HQ. cbn. change (pop_held RHerdr (holds w2) = holds w). by rewrite H2, H1, pop_push. }
  apply wp_ask. intros l _. apply HQ. split; [change (holds w2 = push_held RHerdr (holds w)); by rewrite H2|].
  apply mapping_for_chat.
Qed.


Lemma frames_runWithTelegram t : frames holds (runWithTelegram t).
Proof. intros w a _ e _ b _ c _. change (pop_held RTelegram (push_held RTelegram (holds w)) = holds w). apply pop_push. Qed.
#[local] Hint Resolve frames_runWithTelegram : cli.

Lemma frames_serve : frames holds (serve error_text).
Proof. unfold serve. parts. Qed.

(** What a program took before it is given back by the deferred call. *)
Lemma frames_deferred {A B} r (p : prog A) (o : cmdE B) w w' :
  frames holds p → (∀ b, taken (Ev o b) = None ∧ given (Ev o b) = Some r) → holds w' = push_held r (holds w) →
  wp anything (finally p (cmd o)) w' (λ _ w', holds w' = holds w).
Proof. intros Hp Ho H. apply (wp_finally r); [done..|]. intros a w2 ->. by rewrite H, pop_push. Qed.

Lemma frames_controlled : frames holds (controlled error_text).
Proof.
  unfold controlled, StartControl. intros w. apply wp_bind. intros [e|] _.
  - exact (frames_serve (told CListen (Some e) w)).
  - by apply (frames_deferred RControl); [apply frames_serve|..].
Qed.

Lemma frames_owning env cfg : frames holds (owning error_text env cfg).
Proof.
  unfold owning. intros w. apply wp_bind, wp_BuildDaemon. intros [b|e] w1.
  - intros [H _]. apply (frames_deferred RHerdr); [|done..]. intros w2. apply wp_ask. intros [] _.
    by apply (frames_deferred RResync); [apply frames_controlled|..].
  - intros <-. assert (H : frames holds (do code ← failed error_text "daemon" e;
      do _ ← notify ("Telegram Agents could not start: " +:+ error_text e); Ret code)) by parts.
    exact (H w1).
Qed.

Lemma frames_logging env cfg : frames holds (logging error_text env cfg).
Proof.
  unfold logging. intros w. apply wp_ask. intros [e|] _.
  - assert (H : frames holds (do code ← failed error_text "daemon" e; Ret (if isAlreadyRunning e then exitOK else code))) by parts.
    exact (H (told CAcquire (Some e) w)).
  - by apply (frames_deferred RPid); [apply frames_owning|..].
Qed.

Lemma frames_runDaemon : frames holds (runDaemon error_text).
Proof.
  unfold runDaemon. apply frames_bind; [parts|]. intros [env|e]; [|apply frames_failed].
  apply frames_bind; [apply frames_LoadConfig|]. intros [cfg|e]; [|parts]. intros w. apply wp_ask. intros [e|] _.
  - exact (frames_failed "daemon" e (told (CFileLogger _) (Some e) w)).
  - by apply (frames_deferred RLog); [apply frames_logging|..].
Qed.

Lemma frames_runSetupPane wakes ce : frames holds (runSetupPane error_text wakes ce).
Proof.
  unfold runSetupPane. apply frames_bind; [parts|]. intros [env|e]; [|apply frames_failed]. intros w. apply wp_ask. intros [e|] _.
  - exact (frames_setup_on wakes ce (told (CFileLogger "") (Some e) w)).
  - by apply (frames_deferred RLog); [apply frames_setup_on|..].
Qed.

Lemma frames_Run wakes ce args : frames holds (Run error_text version platform wakes ce args).
Proof.
  destruct args as [|name rest]; unfold Run; [unfold printUsage; parts|].
  unfold commands, runVersion, runStartup, notImplemented, runDoctorPane, printUsage.
  repeat (destruct (String.eqb name _); [first [apply frames_runDaemon|apply frames_runAction|apply frames_runSetupPane|parts]|]). parts.
Qed.

(** ** A daemon runs only what it owns *)

(** While the loop ran, the process held the log, the pid file, Herdr, the
    handler of the hangup signal, the poller, and perhaps the channel. *)
Definition loop_held (l : option (list resource)) : Prop :=
  l = Some [RTelegram; RResync; RHerdr; RPid; RLog] ∨ l = Some [RTelegram; RControl; RResync; RHerdr; RPid; RLog].
Fixpoint loops_owned (h : list event) : Prop :=
  match h with
  | [] => True
  | ev :: h => match ev with Ev CLoop _ => loop_held (held h) | _ => True end ∧ loops_owned h
  end.
(** The loop came to its end, or another daemon had the pid file. *)
Fixpoint ended_well (h : list event) : bool :=
  match h with
  | [] => false
  | Ev o b :: h =>
    match o in cmdE B return B → bool with
    | CLoop => λ e, match e with None => true | Some _ => false end
    | CAcquire => λ e, match e with Some e => isAlreadyRunning e | None => false end
    | _ => λ _, false
    end b || ended_well h
  end.

(** What the parts before the loop leave in the trace has no say in either. *)
Definition quiet_event (ev : event) : Prop :=
  match ev with Ev CLoop _ | Ev CAcquire _ => False | _ => True end.
Lemma quiet_loops l h : Forall quiet_event l → loops_owned (l ++ h) ↔ loops_owned h.
Proof.
  induction 1 as [|[B o b] l Hq _ IH]; [done|]. cbn [app loops_owned]. rewrite <-IH. split; [by intros [_ H]|].
  intros H. split; [|done]. by destruct o.
Qed.
Lemma quiet_ended l h : Forall quiet_event l → ended_well (l ++ h) = ended_well h.
Proof. induction 1 as [|[B o b] l Hq _ IH]; [done|]. cbn [app ended_well]. rewrite IH. by destruct o. Qed.

(** [p] asks neither for the loop nor for the pid file. *)
Definition quiet_ask (B : Type) (o : cmdE B) : Prop := match o with CLoop | CAcquire => False | _ => True end.
Lemma wp_unasked {A} (p : prog A) w : asks_only quiet_ask p → wp anything p w (λ _ w', ∃ l, trace w' = l ++ trace w ∧ Forall quiet_event l).
Proof.
  revert w. induction p as [a|B o k IH|B f k IH]; intros w; cbn.
  - intros _. by exists [].
  - intros [Ho Hk] b _. eapply wp_mono; [|apply IH, Hk]. intros a w' (l & -> & Hl). cbn. exists (l ++ [Ev o b]).
    rewrite <-app_assoc. split; [done|]. apply Forall_app. split; [done|]. apply Forall_singleton. by destruct o.
  - intros Hk. exact (IH _ (put (f (st w)).1 w) (Hk _)).
Qed.

(** What is known of a run so far: what is held, that no loop ran without, and
    whether it ended well. *)
Definition so_far (l : list resource) (well : bool) (w : world cmdE Shell) : Prop :=
  holds w = Some l ∧ loops_owned (trace w) ∧ ended_well (trace w) = well.

Lemma so_far_part {A} (p : prog A) l well w Q :
  frames holds p → asks_only quiet_ask p → so_far l well w → (∀ a w', so_far l well w' → Q a w') → wp anything p w Q.
Proof.
  intros Hf Hq (H1 & H2 & H3) HQ. eapply wp_mono; [|apply wp_and; [apply Hf|apply wp_unasked, Hq]].
  intros a w' [E (ev & E' & Hev)]. apply HQ. split; [by rewrite E|]. rewrite E'. split; [by apply quiet_loops|by rewrite quiet_ended].
Qed.

Lemma so_far_ask {B} (o : cmdE B) b l l' well w :
  quiet_ask B o → held_step (Ev o b) (Some l) = Some l' → so_far l well w → so_far l' well (told o b w).
Proof.
  intros Hq Hl (H1 & H2 & H3). split; [change (held_step (Ev o b) (holds w) = Some l'); by rewrite H1|].
  change (loops_owned (Ev o b :: trace w) ∧ ended_well (Ev o b :: trace w) = well). split.
  - cbn [loops_owned]. split; [by destruct o|done].
  - cbn [ended_well]. rewrite H3. by destruct o.
Qed.

Lemma so_far_finally {A B} r (p : prog A) (o : cmdE B) l w (Q : A → world cmdE Shell → Prop) :
  (∀ b, taken (Ev o b) = None ∧ given (Ev o b) = Some r) → quiet_ask B o →
  wp anything p w (λ a w', ∃ well, so_far (r :: l) well w' ∧ (∀ w2, so_far l well w2 → Q a w2)) →
  wp anything (finally p (cmd o)) w Q.
Proof.
  intros Ho Hq Hp. apply wp_bind. eapply wp_mono; [|exact Hp]. intros a w' (well & Hw & HQ) b _. apply HQ.
  destruct (Ho b) as [H1 H2]. eapply so_far_ask; [done| |exact Hw]. unfold held_step. rewrite H1, H2. cbn. by rewrite decide_True.
Qed.

(** The outcome of the parts: the code, and what ended well. *)
Definition outcome (l : list resource) (code : Z) (w : world cmdE Shell) : Prop :=
  so_far l (code =? exitOK) w ∧ (code = exitOK ∨ code = exitError).
Lemma outcome_finally {B} r (p : prog Z) (o : cmdE B) l w :
  (∀ b, taken (Ev o b) = None ∧ given (Ev o b) = Some r) → quiet_ask B o →
  wp anything p w (outcome (r :: l)) → wp anything (finally p (cmd o)) w (outcome l).
Proof.
  intros Ho Hq Hp. apply (so_far_finally r p o l); [done..|]. eapply wp_mono; [|exact Hp].
  intros code w' [H Hc]. exists (code =? exitOK). split; [exact H|]. intros w2 H2. by split.
Qed.
Lemma outcome_failed name e l w : so_far l false w → wp anything (failed error_text name e) w (outcome l).
Proof.
  intros H b _. split; [|by right]. exact (so_far_ask (CErr _) b l l false w I eq_refl H).
Qed.

Ltac quiet_step :=
  match goal with
  | |- ∀ _, _ => intro
  | |- asks_only _ (bind _ _) => apply asks_only_bind
  | |- asks_only _ (Ret _) => exact I
  | |- asks_only _ (cmd _) => by split
  | |- asks_only _ (let '_ := ?x in _) => destruct x
  | |- asks_only _ (match ?x with _ => _ end) => destruct x
  | |- asks_only _ (if ?x then _ else _) => destruct x
  end.
Ltac quiet := repeat quiet_step.

Lemma outcome_serve l w :
  loop_held (Some (RTelegram :: l)) → so_far l false w → wp anything (serve error_text) w (outcome l).
Proof.
  intros Hl (H1 & H2 & H3). unfold serve, runWithTelegram. intros b _ e _ b' _ c _. cbn [wp bind call].
  set (w1 := told _ c _). assert (so_far l (match e with None => true | Some _ => false end) w1).
  { split; [|split].
    - change (pop_held RTelegram (push_held RTelegram (holds w)) = Some l). by rewrite pop_push.
    - cbn. split; [done|]. split; [done|]. split; [|done]. change (loop_held (push_held RTelegram (holds w))). by rewrite H1.
    - cbn. rewrite H3. by destruct e. }
  destruct e as [e|]; [by apply outcome_failed|]. split; [done|by left].
Qed.

Definition build_left (w : world cmdE Shell) (r : result Built) (w' : world cmdE Shell) : Prop :=
  match r with Ok _ => holds w' = push_held RHerdr (holds w) | Err _ => holds w' = holds w end.
Lemma outcome_owning env cfg w :
  so_far [RPid; RLog] false w → wp anything (owning error_text env cfg) w (outcome [RPid; RLog]).
Proof.
  intros H. unfold owning. apply wp_bind. eapply wp_mono; [|apply wp_and; [apply (wp_BuildDaemon _ _ _ (build_left w)); intros [b|e] w' Hb; [apply Hb|exact Hb]|apply wp_unasked]].
  2: { unfold BuildDaemon, Connect, connect, NewBot, check, RegisterCommands. quiet. }
  destruct H as (H1 & H2 & H3). intros r w1 [Hr (ev & E & Hev)].
  assert (Hs : ∀ l, holds w1 = Some l → so_far l false w1).
  { intros l Hl. split; [done|]. rewrite E. split; [by apply quiet_loops|by rewrite quiet_ended]. }
  destruct r as [b|e].
  - cbn in Hr. rewrite H1 in Hr. apply (outcome_finally RHerdr); [done..|]. intros [] _.
    assert (so_far [RResync; RHerdr; RPid; RLog] false (told CWatchResync tt w1)) by by eapply so_far_ask; [..|apply Hs, Hr].
    apply (outcome_finally RResync); [done..|]. unfold controlled, StartControl. apply wp_bind. intros [e|] _.
    + cbn [wp bind fmap option_fmap option_map call]. apply outcome_serve; [by left|]. by eapply so_far_ask; [..|done].
    + apply (outcome_finally RControl); [done..|]. apply outcome_serve; [by right|]. by eapply so_far_ask; [..|done].
  - apply wp_bind. eapply wp_mono; [|apply outcome_failed, Hs; by rewrite Hr].
    intros code w2 [H Hc]. intros b _. split; [|done]. by eapply so_far_ask; [..|exact H].
Qed.

Lemma outcome_logging env cfg w : so_far [RLog] false w → wp anything (logging error_text env cfg) w (outcome [RLog]).
Proof.
  intros (H1 & H2 & H3). unfold logging. apply wp_ask. intros [e|] _.
  - intros b _. split; [|destruct (isAlreadyRunning e); [by left|by right]].
    apply (so_far_ask (CErr _) b [RLog] [RLog]); [done..|]. split; [exact H1|]. cbn. split; [done|]. rewrite H3, orb_false_r.
    by destruct (isAlreadyRunning e).
  - apply (outcome_finally RPid); [done..|]. apply outcome_owning. split; [change (push_held RPid (holds w) = Some [RPid; RLog]); by rewrite H1|].
    cbn. split; [done|]. by rewrite H3.
Qed.

Lemma outcome_runDaemon s : wp anything (runDaemon error_text) (mkWorld s []) (outcome []).
Proof.
  assert (H0 : so_far [] false (mkWorld s [])) by done. unfold runDaemon. apply wp_ask. intros [env|e] Hr.
  2: { apply outcome_failed. by eapply so_far_ask; [..|exact H0]. }
  assert (H1 : so_far [] false (told CEnv (Ok env) (mkWorld s []))) by by eapply so_far_ask; [..|exact H0].
  apply wp_bind, (so_far_part _ [] false); [apply frames_LoadConfig|unfold LoadConfig; quiet|done|]. intros [cfg|e] w H.
  - apply wp_ask. intros [e|] _; [apply outcome_failed; by eapply so_far_ask; [..|exact H]|].
    apply (outcome_finally RLog); [done..|]. apply outcome_logging. by eapply so_far_ask; [..|exact H].
  - apply wp_bind. eapply wp_mono; [|apply outcome_failed, H]. intros code w2 [H2 Hc]. apply wp_bind.
    apply (so_far_part _ [] (code =? exitOK)); [parts|unfold notify; quiet|done|]. intros [] w3 H3. by split.
Qed.

(** C29: every command gives back all it has taken (the log file, the pid
    file, the connection to Herdr, the signal handler, the control channel,
    the poller), the latest first. The daemon runs its loop only while it
    holds all of these but perhaps the control channel, and exits with 0 if
    and only if the loop ended without an error or another daemon owns the pid
    file, and with 1 otherwise. *)
Theorem commands_give_back wakes ctx_err args :
  frames holds (Run error_text version platform wakes ctx_err args) ∧
  ∀ s, wp anything (runDaemon error_text) (mkWorld s []) (λ code w,
    loops_owned (trace w) ∧ code = (if ended_well (trace w) then exitOK else exitError)).
Proof.
  split; [apply frames_Run|]. intros s. eapply wp_mono; [|apply outcome_runDaemon].
  intros code w ((_ & H2 & H3) & Hc). split; [done|]. rewrite H3. by destruct Hc as [-> | ->].
Qed.

(** ** The console *)

(** A line that is read is gone; without one the input is at its end. *)
Lemma wp_readLine w (Q : result string → world cmdE Shell → Prop) :
  (∀ line s', (String.length (pending (cin s')) < String.length (pending (cin (st w))))%nat → in_err (cin s') = in_err (cin (st w)) →
     Q (Ok line) (mkWorld s' (trace w))) →
  (∀ s', pending (cin s') = "" → Q (Err (Errorf "read input: %w" [] [in_err (cin (st w))])) (mkWorld s' (trace w))) →
  wp anything readLine w Q.
Proof.
  intros Hok Herr. unfold readLine, read_string. cbn. unfold put, ReadString. destruct (str_cut _ nl) as [[line rest]|] eqn:E; cbn.
  - apply Hok; [|done]. apply str_cut_first in E as [E _]; [|done]. apply (f_equal length) in E.
    rewrite !length_app, !length_bytes in E. cbn in *. lia.
  - destruct (String.eqb_spec (pending (cin (st w))) "") as [H|H]; cbn; [by apply Herr|].
    destruct (is_foreign _ EOF); cbn; [|by apply Herr]. apply Hok; [|done]. cbn. by destruct (pending (cin (st w))); [|cbn; lia].
Qed.

Lemma wp_choose_turns turns prompt n w :
  (String.length (pending (cin (st w))) < turns)%nat →
  wp anything (choose_turns turns prompt n) w (λ r w', match r with
    | Some (Ok k) => 0 ≤ k < n
    | Some (Err e) => e = Errorf "read input: %w" [] [in_err (cin (st w))] ∧ pending (cin (st w')) = ""
    | None => False
    end).
Proof.
  revert w. induction turns as [|turns IH]; intros w H; [lia|]. cbn [choose_turns]. apply wp_bind. unfold Ask. apply wp_ask. intros b _.
  apply wp_readLine; [|by intros s' Hs]. intros line s' Hs He.
  assert (Hagain : wp anything (do _ ← println ("please enter a number between 1 and " +:+ itoa n); choose_turns turns prompt n)
      (mkWorld s' (trace (told (COut ((prompt +:+ " [1-" +:+ itoa n +:+ "]") +:+ " ")) b w))) (λ r w', match r with
    | Some (Ok k) => 0 ≤ k < n
    | Some (Err e) => e = Errorf "read input: %w" [] [in_err (cin (st w))] ∧ pending (cin (st w')) = ""
    | None => False
    end)).
  { apply wp_ask. intros c _. cbn in He, Hs. rewrite <-He. apply IH. cbn. lia. }
  destruct (atoi line) as [k|]; [|exact Hagain]. destruct (Z.leb_spec 1 k); cbn; [|exact Hagain].
  destruct (Z.leb_spec k n); cbn; [lia|exact Hagain].
Qed.

(** The console asks until it gets a number of the list or the input ends: the
    turns it is given are enough. *)
Theorem choose_ends prompt options w :
  wp anything (Choose prompt options) w (λ r w', match r with
    | Ok k => 0 ≤ k < Z.of_nat (length options)
    | Err e => e = Errorf "read input: %w" [] [in_err (cin (st w))] ∧ pending (cin (st w')) = ""
    end).
Proof.
  unfold Choose. apply wp_bind.
  assert (Hp : ∀ i w, wp anything (print_options i options) w (λ _ w', st w' = st w)).
  { induction options as [|o l IH]; intros i w1; cbn [print_options]; [done|]. apply wp_ask. intros b _.
    eapply wp_mono; [|apply IH]. by intros a w2 ->. }
  eapply wp_mono; [|apply Hp]. intros [] w1 <-. apply wp_look, wp_bind.
  eapply wp_mono; [|apply wp_choose_turns; lia]. by intros [[k|e]|] w2 H.
Qed.

(** ** What an action reports *)

(** An action that is done or has failed says so once on the terminal and in a
    notification, in the same words; the exit code tells the two apart. *)
Definition reported (code : Z) (h : list event) : Prop :=
  ∃ msg b c h', h = Ev (CNotify NotifyTitle msg) b :: c :: h' ∧
    (code = exitOK ∧ c = Ev (COut (msg +:+ nl)) tt ∨
     code = exitError ∧ c = Ev (CErr ("herdr-tg action: " +:+ msg +:+ nl)) tt).

Theorem action_reports args w :
  wp anything (runAction error_text version args) w (λ code w',
    (∃ id, args = [id] ∧ isAction id = true ∧
       ((∃ e, code = exitError ∧ trace w' = Ev (CErr ("herdr-tg action " +:+ id +:+ ": " +:+ error_text e +:+ nl)) tt :: Ev CEnv (Err e) :: trace w)
        ∨ reported code (trace w'))) ∨
    (¬ (∃ id, args = [id] ∧ isAction id = true) ∧ code = exitUsage ∧
     trace w' = Ev (CErr ("usage: herdr-tg action setup|start|stop|restart|status|resync|logs|doctor|send-test" +:+ nl)) tt :: trace w)).
Proof.
  unfold runAction. destruct args as [|id [|x l]]; [intros [] _; right; split; [by intros (? & ? & _)|done]| |intros [] _; right; split; [by intros (? & ? & _)|done]].
  destruct (isAction id) eqn:Hid; cbn [negb].
  2: { intros [] _. right. split; [|done]. intros (id' & [= <-] & H). congruence. }
  apply wp_ask. intros [env|e] _.
  2: { intros [] _. left. exists id. split; [done|]. split; [done|]. left. exists e. split; [done|]. cbn. by rewrite !str_app_assoc. }
  apply wp_bind. eapply wp_mono; [|exact (returns_any (doAction error_text version (PluginID env) id) _)]. intros [msg|e] w1 _.
  - intros [] _ b _. left. exists id. split; [done|]. split; [done|]. right. exists msg, b. do 2 eexists. split; [done|]. by left.
  - intros [] _ b _. left. exists id. split; [done|]. split; [done|]. right. do 4 eexists. split; [reflexivity|].
    right. split; [done|]. by rewrite str_app_assoc.
Qed.

(** ** The parts of a daemon and the menu *)

(** The topics a daemon starts with are those of its own group. *)
Theorem built_for_group socket cfg w :
  wp anything (BuildDaemon error_text socket cfg) w (λ r w', match r with
    | Ok b => Mapping.ChatID (BMapping b) = ChatID cfg ∧ holds w' = push_held RHerdr (holds w)
    | Err _ => holds w' = holds w
    end).
Proof. apply wp_BuildDaemon. intros [b|e] w' H; [by destruct H|done]. Qed.

(** Every command of the menu is one the bridge knows; [keys] needs its keys. *)
Definition menu_text (name : string) : string := "/" +:+ name +:+ (if String.eqb name "keys" then " esc" else "").
Example menu_is_known : forallb (λ c, match CmdKind (ParseCommand (menu_text c.1) "") with CmdUnknown | CmdPrompt => false | _ => true end) botCommands = true.
Proof. vm_compute. reflexivity. Qed.
End Promises.
