(* ===== verification/RelayDomain.v ===== *)
(** internal/domain/relay.go: what the relay exchanges with the Maestri host
    (the Wire), its configuration, and the arrangements of agents it deploys. *)
From S2P Require Import Prelude GoStrings Errors Regexp Redact Json.

Local Open Scope Z_scope.

Record WireInfo := mkWireInfo {
  IName : string; ProtocolVersion : Z; Capabilities : list string; IRole : string
}.

(** The loop over the capabilities; no capability asked for is always there. *)
Fixpoint has_capability (caps : list string) (cap : string) : bool :=
  match caps with
  | [] => String.eqb cap ""
  | c :: caps' => if String.eqb c cap then true else has_capability caps' cap
  end.
Definition Has (i : WireInfo) (cap : string) : bool := has_capability (Capabilities i) cap.

Record WireFloor := mkWireFloor { FlID : string; FlName : string; IsCloneMissing : bool }.

Record WireWorkspace := mkWireWorkspace {
  WsID : string; WsName : string; WorkingDirectory : string; IsLocked : bool; WsFloors : list WireFloor
}.

Record WireTerminal := mkWireTerminal {
  TermID : string; NodeID : string; TermName : string; TermAgentType : string; FloorID : string;
  FloorName : string; TermStatus : string; IsRunning : bool; IsLive : bool; IsManager : bool;
  NeedsAttention : bool; Preview : list string
}.

Record WireItem := mkWireItem { ItKind : string; Terminal : WireTerminal; ItPrompt : string }.

(** [Canvas] is nil when the host sent none; a pending floor is its id and
    error. *)
Record WireFeed := mkWireFeed {
  FWorkspace : WireWorkspace; Floors : list WireFloor; Items : list WireItem; Epoch : string;
  Canvas : option json; PendingFloors : list (string * string)
}.

Record AgentPreset := mkAgentPreset {
  PsID : string; PsName : string; PsAgentType : string; PsCommand : string; IsDefault : bool
}.

Record RelayConfig := mkRelayConfig {
  WireURL : string; WirePin : string; WireToken : string; RBotToken : string; RChatID : Z;
  Operators : list Z; Observers : list Z; Workspaces : list string; StateDir : string;
  CatalogDir : string; PollSeconds : Z; LLMURL : string; LLMModel : string; LLMKey : string
}.

Definition Allows (c : RelayConfig) (ws : string) : bool :=
  existsb (λ id, String.eqb id ws || String.eqb id "*") (Workspaces c).

Definition Operator (c : RelayConfig) (id : Z) : bool :=
  existsb (λ allowed, (allowed =? id) && (0 <? id)) (Operators c).

(** ** Arrangements *)

Record ArrangementNode := mkNode {
  NID : string; NKind : string; NName : string; PresetID : string; NAgentType : string;
  NPrompt : string; NText : string; NURL : string; Manager : bool;
  X : spec_float; Y : spec_float; Width : spec_float; Height : spec_float
}.

Record ArrangementConnection := mkConn { From : string; To : string }.

Record Arrangement := mkArrangement {
  ArID : string; ArName : string; Description : string; Source : string; Revision : string;
  Nodes : list ArrangementNode; Connections : list ArrangementConnection
}.

(** [^[A-Za-z0-9_-]{1,100}$]. *)
Definition relay_id_char (r : Z) : bool := alnum r || one_of "_-" r.
Definition ValidRelayID (id : string) : bool :=
  (1 <=? rune_count id) && (rune_count id <=? 100) && forallb relay_id_char (runes id).

(** [url.Parse]: scheme, host and whether there are credentials. *)
Record URL := mkURL { Scheme : string; Host : string; HasUser : bool }.
Class UrlParser := { url_parse : string → option URL }.

Definition float_nan_or_inf (v : spec_float) : bool :=
  match v with S754_nan | S754_infinity _ => true | _ => false end.
(** [math.IsNaN(v) || math.IsInf(v, 0) || math.Abs(v) > 100000]. *)
Definition bad_coordinate (v : spec_float) : bool :=
  float_nan_or_inf v || SFltb (float64_of 100000) (SFabs v).
Definition below40 (v : spec_float) : bool := SFltb v (float64_of 40).

Section Validate.
Context {P : UrlParser}.

(** The switch over the kind of a node. *)
Definition validate_kind (n : ArrangementNode) : option error :=
  if String.eqb (NKind n) "terminal" then
    if String.eqb (trim_space (NPrompt n)) ""
    then Some (Errorf "responsabilidade ausente: %s" [NName n] []) else None
  else if String.eqb (NKind n) "note" then None
  else if String.eqb (NKind n) "portal" then
    match url_parse (NURL n) with
    | None => Some (Opaque "portal exige URL HTTP(S) sem credenciais")
    | Some u =>
      if String.eqb (Host u) "" || (negb (String.eqb (Scheme u) "https") && negb (String.eqb (Scheme u) "http")) || HasUser u
      then Some (Opaque "portal exige URL HTTP(S) sem credenciais") else None
    end
  else Some (Errorf "tipo de nó sem suporte: %s" [NKind n] []).

(** One round of the loop over the nodes; [nodes] are the ids seen so far. *)
Definition validate_node (nodes : gset string) (n : ArrangementNode) : option error :=
  if negb (ValidRelayID (NID n)) || String.eqb (NName n) "" || (200 <? len (NName n))
  then Some (Errorf "identidade de nó inválida: %q" [NID n] [])
  else if bool_decide (NID n ∈ nodes) then Some (Errorf "nó duplicado: %s" [NID n] [])
  else if existsb bad_coordinate [X n; Y n; Width n; Height n] then Some (Opaque "geometria inválida")
  else if below40 (Width n) || below40 (Height n) || (100000 <? len (NText n)) || (50000 <? len (NPrompt n))
  then Some (Opaque "dimensões ou conteúdo fora dos limites")
  else validate_kind n.

Fixpoint validate_nodes (nodes : gset string) (l : list ArrangementNode) : result (gset string) :=
  match l with
  | [] => Ok nodes
  | n :: l' =>
    match validate_node nodes n with
    | Some e => Err e
    | None => validate_nodes ({[NID n]} ∪ nodes) l'
    end
  end.

Definition edge_key (c : ArrangementConnection) : string := From c +:+ "/" +:+ To c.
Definition reverse_key (c : ArrangementConnection) : string := To c +:+ "/" +:+ From c.

Fixpoint validate_edges (nodes edges : gset string) (l : list ArrangementConnection) : option error :=
  match l with
  | [] => None
  | c :: l' =>
    if negb (bool_decide (From c ∈ nodes)) || negb (bool_decide (To c ∈ nodes)) || String.eqb (From c) (To c)
    then Some (Opaque "conexão com destino inválido")
    else if bool_decide (edge_key c ∈ edges) || bool_decide (reverse_key c ∈ edges)
    then Some (Opaque "conexão duplicada")
    else validate_edges nodes ({[edge_key c]} ∪ edges) l'
  end.

Definition Validate (a : Arrangement) : option error :=
  if String.eqb (trim_space (ArName a)) "" || (200 <? len (ArName a))
     || Nat.eqb (length (Nodes a)) 0 || Nat.ltb 80 (length (Nodes a)) || Nat.ltb 400 (length (Connections a))
  then Some (Opaque "arranjo precisa de nome, 1 a 80 nós e no máximo 400 conexões")
  else
    match validate_nodes ∅ (Nodes a) with
    | Err e => Some e
    | Ok nodes => validate_edges nodes ∅ (Connections a)
    end.

(** ** What a valid arrangement is *)

Definition good_kind (n : ArrangementNode) : Prop :=
  (NKind n = "terminal" ∧ trim_space (NPrompt n) ≠ "") ∨ NKind n = "note" ∨
  (NKind n = "portal" ∧ ∃ u, url_parse (NURL n) = Some u ∧ Host u ≠ "" ∧
     (Scheme u = "https" ∨ Scheme u = "http") ∧ HasUser u = false).

Record good_node (n : ArrangementNode) : Prop := {
  gn_id : ValidRelayID (NID n) = true;
  gn_name : NName n ≠ "" ∧ len (NName n) ≤ 200;
  gn_geometry : Forall (λ v, bad_coordinate v = false) [X n; Y n; Width n; Height n];
  gn_size : below40 (Width n) = false ∧ below40 (Height n) = false;
  gn_content : len (NText n) ≤ 100000 ∧ len (NPrompt n) ≤ 50000;
  gn_kind : good_kind n
}.

(** The connections are the edges of a simple undirected graph over the nodes. *)
Record simple_graph (nodes : list string) (l : list ArrangementConnection) : Prop := {
  sg_ends : ∀ c, c ∈ l → From c ∈ nodes ∧ To c ∈ nodes ∧ From c ≠ To c;
  sg_simple : ∀ i j c d, l !! i = Some c → l !! j = Some d → i ≠ j →
    ¬ (From c = From d ∧ To c = To d) ∧ ¬ (From c = To d ∧ To c = From d)
}.

Record good_arrangement (a : Arrangement) : Prop := {
  ga_name : trim_space (ArName a) ≠ "" ∧ len (ArName a) ≤ 200;
  ga_sizes : (1 ≤ length (Nodes a) ≤ 80)%nat ∧ (length (Connections a) ≤ 400)%nat;
  ga_ids : NoDup (map NID (Nodes a));
  ga_nodes : Forall good_node (Nodes a);
  ga_graph : simple_graph (map NID (Nodes a)) (Connections a)
}.

End Validate.

Record MaestroPlan := mkPlan {
  Action : string; Message : string; WorkspaceID : string; WorkspaceName : string; Directory : string;
  PFloorID : string; PFloorName : string; PArrangement : Arrangement
}.

(** ** The validation accepts exactly the valid arrangements *)

Lemma relay_id_ascii id : ValidRelayID id = true → id ≠ "" ∧ "/"%char ∉ bytes id.
Proof.
  unfold ValidRelayID. rewrite !andb_true_iff, !Z.leb_le, forallb_forall. intros [[H1 _] Hf]. split.
  { by intros ->. }
  assert (Ha : Forall (λ r, r < 128) (runes id)).
  { apply Forall_forall. intros r Hr. apply list_elem_of_In, Hf in Hr.
    unfold relay_id_char, alnum, ascii_upper, ascii_lower_letter, ascii_digit in Hr.
    change (one_of "_-" r) with ((r =? 95) || ((r =? 45) || false)) in Hr. lia. }
  intros Hin. assert (H47 : 47 ∈ runes id).
  { rewrite <-(runes_ascii_bytes id Ha). change 47 with (byte_of "/"). by apply list_elem_of_fmap_2. }
  apply list_elem_of_In, Hf in H47. done.
Qed.

Lemma slash_inj (a b c d : string) :
  "/"%char ∉ bytes a → "/"%char ∉ bytes c → a +:+ "/" +:+ b = c +:+ "/" +:+ d → a = c ∧ b = d.
Proof.
  intros Ha Hc E. apply (f_equal bytes) in E. rewrite !bytes_app in E. cbn in E.
  assert (∀ x y u v : list ascii, "/"%char ∉ x → "/"%char ∉ u → x ++ "/"%char :: y = u ++ "/"%char :: v → x = u ∧ y = v) as H.
  { induction x as [|p x IH]; intros y [|q u] v Hx Hu E'; cbn in E'.
    - by injection E' as ->.
    - destruct Hu. injection E' as <- _. by left.
    - destruct Hx. injection E' as -> _. by left.
    - injection E' as -> E'. destruct (IH y u v) as [-> ->]; [by intros ?; apply Hx; right|by intros ?; apply Hu; right|done|done]. }
  apply H in E as [E1 E2]; [|done..]. split; by apply bytes_inj.
Qed.

Section ValidateSpec.
Context {P : UrlParser}.

Lemma validate_kind_spec n : validate_kind n = None ↔ good_kind n.
Proof.
  unfold validate_kind, good_kind.
  destruct (String.eqb_spec (NKind n) "terminal") as [->|Ht].
  { destruct (String.eqb_spec (trim_space (NPrompt n)) ""); naive_solver. }
  destruct (String.eqb_spec (NKind n) "note") as [->|Hn]; [naive_solver|].
  destruct (String.eqb_spec (NKind n) "portal") as [->|Hp]; [|naive_solver].
  destruct (url_parse (NURL n)) as [u|]; [|naive_solver].
  set (bad := _ || _ || _).
  assert (Hbad : bad = false ↔ Host u ≠ "" ∧ (Scheme u = "https" ∨ Scheme u = "http") ∧ HasUser u = false).
  { unfold bad. rewrite !orb_false_iff, andb_false_iff, !negb_false_iff, !String.eqb_eq, String.eqb_neq. tauto. }
  destruct bad; split; [done| |intros _; right; right; split; [done|]; by exists u; split; [|apply Hbad]|done].
  by intros [[? _]|[?|(_ & u' & [= <-] & ?%Hbad)]].
Qed.

Lemma validate_node_spec nodes n : validate_node nodes n = None ↔ good_node n ∧ NID n ∉ nodes.
Proof.
  unfold validate_node. destruct (ValidRelayID (NID n)) eqn:Hid; cbn [negb orb];
    [|split; [done|]; intros [[] _]; congruence].
  destruct (String.eqb_spec (NName n) ""); cbn [orb]; [split; [done|]; intros [[? []] _]; congruence|].
  destruct (Z.ltb_spec 200 (len (NName n))); [split; [done|]; intros [[? []] _]; lia|].
  case_bool_decide; [naive_solver|].
  destruct (existsb bad_coordinate _) eqn:Hg.
  { split; [done|]. intros [[_ _ Hgeo _ _ _] _]. rewrite existsb_exists in Hg. destruct Hg as (v & Hv%list_elem_of_In & Hb).
    rewrite Forall_forall in Hgeo. apply Hgeo in Hv. congruence. }
  destruct (below40 (Width n)) eqn:Hw; cbn [orb]; [split; [done|]; intros [[? ? ? [] ? ?] _]; congruence|].
  destruct (below40 (Height n)) eqn:Hh; cbn [orb]; [split; [done|]; intros [[? ? ? [] ? ?] _]; congruence|].
  destruct (Z.ltb_spec 100000 (len (NText n))); cbn [orb]; [split; [done|]; intros [[? ? ? ? [] ?] _]; lia|].
  destruct (Z.ltb_spec 50000 (len (NPrompt n))); [split; [done|]; intros [[? ? ? ? [] ?] _]; lia|].
  rewrite validate_kind_spec. split; [|intros [[] _]; done]. intros Hk. split; [|done]. split; try done.
  apply Forall_forall. intros v Hv. destruct (bad_coordinate v) eqn:Hb; [|done].
  assert (existsb bad_coordinate [X n; Y n; Width n; Height n] = true); [|congruence].
  apply existsb_exists. exists v. by rewrite <-list_elem_of_In.
Qed.

Lemma validate_nodes_spec nodes l ids :
  validate_nodes nodes l = Ok ids ↔
  Forall good_node l ∧ NoDup (map NID l) ∧ (∀ n, n ∈ l → NID n ∉ nodes) ∧ ids = list_to_set (map NID l) ∪ nodes.
Proof.
  revert nodes. induction l as [|n l IH]; intros nodes; cbn [validate_nodes map].
  { split; [intros [= ->]; split_and!; [done|constructor|by intros ? ?%elem_of_nil|cbn; set_solver]|].
    intros (_ & _ & _ & ->). f_equal. cbn. set_solver. }
  destruct (validate_node nodes n) eqn:Hn.
  { split; [done|]. intros (Hf & _ & Hno & _). inversion Hf; subst.
    assert (validate_node nodes n = None); [|congruence]. apply validate_node_spec. split; [done|]. apply Hno. by left. }
  apply validate_node_spec in Hn as [Hgood Hnew]. rewrite IH. rewrite Forall_cons, NoDup_cons, list_to_set_cons.
  split.
  - intros (Hf & Hnd & Hno & ->). split_and!; [done|done| |done| |set_solver].
    + intros (m & Em & Hm)%list_elem_of_fmap. apply (Hno m Hm). set_solver.
    + intros m [->|Hm]%elem_of_cons; [done|]. intros ?. apply (Hno m Hm). set_solver.
  - intros ((_ & Hf) & (Hni & Hnd) & Hno & ->). split_and!; [done|done| |set_solver].
    intros m Hm [Em|Hin]%elem_of_union; [|by apply (Hno m); [right|]].
    apply elem_of_singleton in Em. apply Hni. rewrite <-Em. by apply list_elem_of_fmap_2.
Qed.

(** [edges] holds the keys of connections that end in [nodes]. *)
Lemma validate_edges_spec nodes done_ l :
  (∀ x, x ∈ nodes → ValidRelayID x = true) →
  Forall (λ c, From c ∈ nodes ∧ To c ∈ nodes) done_ →
  validate_edges nodes (list_to_set (map edge_key done_)) l = None ↔
  Forall (λ c, From c ∈ nodes ∧ To c ∈ nodes ∧ From c ≠ To c) l ∧
  (∀ i c, l !! i = Some c → ∀ d, d ∈ done_ ++ take i l →
     ¬ (From c = From d ∧ To c = To d) ∧ ¬ (From c = To d ∧ To c = From d)).
Proof.
  intros Hv. revert done_. induction l as [|c l IH]; intros done_ Hd; cbn [validate_edges].
  { split; [intros _; split; [constructor|done]|done]. }
  assert (Hslash : ∀ x, x ∈ nodes → "/"%char ∉ bytes x) by (intros x Hx; by apply relay_id_ascii, Hv).
  case_bool_decide as Hf; cbn [negb orb]; [|split; [done|]; intros [Hl _]; inversion Hl; naive_solver].
  case_bool_decide as Ht; cbn [negb orb]; [|split; [done|]; intros [Hl _]; inversion Hl; naive_solver].
  destruct (String.eqb_spec (From c) (To c)) as [E|Hne]; [split; [done|]; intros [Hl _]; inversion Hl; naive_solver|].
  assert (Hkey : edge_key c ∈@{gset string} list_to_set (map edge_key done_) ↔ ∃ d, d ∈ done_ ∧ From c = From d ∧ To c = To d).
  { rewrite elem_of_list_to_set, list_elem_of_fmap. rewrite Forall_forall in Hd. split.
    - intros (d & E & Hin). exists d. split; [done|]. destruct (Hd d Hin). apply slash_inj in E; auto.
    - intros (d & Hin & E1 & E2). exists d. split; [|done]. unfold edge_key. congruence. }
  assert (Hrev : reverse_key c ∈@{gset string} list_to_set (map edge_key done_) ↔ ∃ d, d ∈ done_ ∧ From c = To d ∧ To c = From d).
  { rewrite elem_of_list_to_set, list_elem_of_fmap. rewrite Forall_forall in Hd. split.
    - intros (d & E & Hin). exists d. split; [done|]. destruct (Hd d Hin). apply slash_inj in E as [? ?]; auto.
    - intros (d & Hin & E1 & E2). exists d. split; [|done]. unfold edge_key, reverse_key. congruence. }
  case_bool_decide as Hk; cbn [orb].
  { split; [done|]. intros [_ Hs]. apply Hkey in Hk as (d & Hin & ? & ?).
    destruct (Hs 0%nat c eq_refl d) as [[] _]; [|done]. rewrite app_nil_r. done. }
  case_bool_decide as Hr.
  { split; [done|]. intros [_ Hs]. apply Hrev in Hr as (d & Hin & ? & ?).
    destruct (Hs 0%nat c eq_refl d) as [_ []]; [|done]. rewrite app_nil_r. done. }
  replace ({[edge_key c]} ∪ list_to_set (map edge_key done_)) with (list_to_set (C:=gset string) (map edge_key (done_ ++ [c])))
    by (rewrite map_app, list_to_set_app_L; cbn; set_solver).
  rewrite IH by (apply Forall_app; split; [done|]; by repeat constructor). rewrite Forall_cons. split.
  - intros [Hl Hs]. split; [done|]. intros [|i] d Hi e He.
    + injection Hi as <-. rewrite app_nil_r in He. split; intros []; [apply Hk, Hkey|apply Hr, Hrev]; eauto.
    + apply (Hs i d Hi). by rewrite <-app_assoc.
  - intros [[_ Hl] Hs]. split; [done|]. intros i d Hi e He. apply (Hs (S i) d Hi). by rewrite <-app_assoc in He.
Qed.

Lemma Validate_good a : Validate a = None ↔ good_arrangement a.
Proof.
  unfold Validate.
  destruct (String.eqb_spec (trim_space (ArName a)) ""); cbn [orb]; [split; [done|]; by intros [[] _ _ _ _]|].
  destruct (Z.ltb_spec 200 (len (ArName a))); cbn [orb]; [split; [done|]; intros [[] _ _ _ _]; lia|].
  destruct (Nat.eqb_spec (length (Nodes a)) 0); cbn [orb]; [split; [done|]; intros [_ [] _ _ _]; lia|].
  destruct (Nat.ltb_spec 80 (length (Nodes a))); cbn [orb]; [split; [done|]; intros [_ [] _ _ _]; lia|].
  destruct (Nat.ltb_spec 400 (length (Connections a))); [split; [done|]; intros [_ [] _ _ _]; lia|].
  destruct (validate_nodes ∅ (Nodes a)) as [ids|e] eqn:Hn.
  - apply validate_nodes_spec in Hn as (Hf & Hnd & _ & ->). rewrite union_empty_r_L.
    assert (Hids : ∀ x, x ∈@{gset string} list_to_set (map NID (Nodes a)) → ValidRelayID x = true).
    { intros x. rewrite elem_of_list_to_set, list_elem_of_fmap. intros (m & -> & Hin).
      rewrite Forall_forall in Hf. by destruct (Hf m Hin). }
    change ∅ with (list_to_set (C:=gset string) (map edge_key [])). rewrite (validate_edges_spec _ []) by done.
    split.
    + intros [Hc Hs]. split; [done|lia|done|done|]. split.
      * intros c Hin. rewrite Forall_forall in Hc. specialize (Hc c Hin). by rewrite !elem_of_list_to_set in Hc.
      * intros i j c d Hi Hj Hij. destruct (decide (j < i)%nat).
        { apply (Hs i c Hi d). cbn. eapply list_elem_of_lookup_2. by rewrite lookup_take_lt by done. }
        destruct (Hs j d Hj c) as [Hs1 Hs2]; [cbn; apply (list_elem_of_lookup_2 _ i); rewrite lookup_take_lt by lia; done|].
        split; intros []; [by apply Hs1|by apply Hs2].
    + intros [_ _ _ _ [He Hs]]. split.
      * apply Forall_forall. intros c Hin. rewrite !elem_of_list_to_set. by apply He.
      * intros i c Hi d Hd. cbn in Hd. apply list_elem_of_lookup in Hd as [j Hj].
        apply lookup_take_Some in Hj as [Hj Hlt]. apply (Hs i j); [done..|lia].
  - split; [done|]. intros [_ _ Hnd Hf _].
    assert (validate_nodes ∅ (Nodes a) = Ok (list_to_set (map NID (Nodes a)) ∪ ∅)); [|congruence].
    apply validate_nodes_spec. split_and!; [done|done|set_solver|done].
Qed.

(** C14: [Validate] answers nil exactly for the arrangements that are
    well-formed: bounded sizes, distinct valid node ids, finite geometry within
    bounds, known kinds with what they require, and connections that form a
    simple undirected graph over the nodes. *)
Theorem graph_Validate_spec a : Validate a = None ↔ good_arrangement a.
Proof. apply Validate_good. Qed.

End ValidateSpec.
