(* ===== verification/RelayJson.v ===== *)
(** The JSON of what the relay exchanges with the Maestri host and the planner
    (the struct tags of internal/domain/relay.go).

    Slices are lists: an empty one is written as an empty list, which Go does
    unless the slice is nil. *)
From S2P Require Import Prelude GoStrings Json RelayDomain.

Local Open Scope Z_scope.

(** ** Writing *)

Definition unless_empty (key value : string) : list (string * json) :=
  if String.eqb value "" then [] else [(key, JStr value)].
Definition omit_false (key : string) (b : bool) : list (string * json) := if b then [(key, JBool true)] else [].
Definition node_json (n : ArrangementNode) : json :=
  JObj ([("id", JStr (NID n)); ("kind", JStr (NKind n)); ("name", JStr (NName n))]
        ++ unless_empty "presetId" (PresetID n) ++ unless_empty "agentType" (NAgentType n)
        ++ unless_empty "prompt" (NPrompt n) ++ unless_empty "text" (NText n) ++ unless_empty "url" (NURL n)
        ++ omit_false "manager" (Manager n)
        ++ [("x", JNum (X n)); ("y", JNum (Y n)); ("width", JNum (Width n)); ("height", JNum (Height n))]).
Definition conn_json (c : ArrangementConnection) : json := JObj [("from", JStr (From c)); ("to", JStr (To c))].
Definition arrangement_json (a : Arrangement) : json :=
  JObj ([("id", JStr (ArID a)); ("name", JStr (ArName a)); ("description", JStr (Description a))]
        ++ unless_empty "source" (Source a) ++ unless_empty "revision" (Revision a)
        ++ [("nodes", JArr (map node_json (Nodes a)));
            ("connections", JArr (map conn_json (Connections a)))]).
Definition plan_json (p : MaestroPlan) : json :=
  JObj (unless_empty "action" (Action p) ++ unless_empty "message" (Message p)
        ++ [("workspaceId", JStr (WorkspaceID p))] ++ unless_empty "workspaceName" (WorkspaceName p)
        ++ unless_empty "directory" (Directory p) ++ [("floorId", JStr (PFloorID p))]
        ++ unless_empty "floorName" (PFloorName p) ++ [("arrangement", arrangement_json (PArrangement p))]).

Definition floor_json (f : WireFloor) : json :=
  JObj [("id", JStr (FlID f)); ("name", JStr (FlName f)); ("isCloneMissing", JBool (IsCloneMissing f))].
Definition workspace_json (w : WireWorkspace) : json :=
  JObj ([("id", JStr (WsID w)); ("name", JStr (WsName w)); ("workingDirectory", JStr (WorkingDirectory w)); ("isLocked", JBool (IsLocked w))]
        ++ match WsFloors w with [] => [] | l => [("floors", JArr (map floor_json l))] end).
Definition preset_json (p : AgentPreset) : json :=
  JObj [("id", JStr (PsID p)); ("name", JStr (PsName p)); ("agentType", JStr (PsAgentType p)); ("command", JStr (PsCommand p));
        ("isDefault", JBool (IsDefault p))].

(** ** Reading *)

(** A slice of what [dec] reads. *)
Definition as_list {A} (dec : json → option A) (v : option json) : option (list A) :=
  match v with
  | None | Some JNull => Some []
  | Some (JArr l) => mapM dec l
  | Some _ => None
  end.

Section Decode.
(** [DisallowUnknownFields]. *)
Context (strict : bool).

Definition struct_fields (names : list string) (j : json) : option (list (string * json)) :=
  match as_fields j with
  | Some fs => if strict && negb (forallb (λ kv, existsb (λ name, key_folds name kv.1) names) fs) then None else Some fs
  | None => None
  end.

Definition node_fields : list string :=
  ["id"; "kind"; "name"; "presetId"; "agentType"; "prompt"; "text"; "url"; "manager"; "x"; "y"; "width"; "height"].
Definition decode_node (j : json) : option ArrangementNode :=
  fs ← struct_fields node_fields j;
  id ← as_string (struct_field "id" fs); kind ← as_string (struct_field "kind" fs); name ← as_string (struct_field "name" fs);
  preset ← as_string (struct_field "presetId" fs); agent ← as_string (struct_field "agentType" fs);
  prompt ← as_string (struct_field "prompt" fs); text ← as_string (struct_field "text" fs); url ← as_string (struct_field "url" fs);
  manager ← as_bool (struct_field "manager" fs);
  x ← as_float (struct_field "x" fs); y ← as_float (struct_field "y" fs);
  width ← as_float (struct_field "width" fs); height ← as_float (struct_field "height" fs);
  Some (mkNode id kind name preset agent prompt text url manager x y width height).

Definition decode_conn (j : json) : option ArrangementConnection :=
  fs ← struct_fields ["from"; "to"] j; from ← as_string (struct_field "from" fs); to ← as_string (struct_field "to" fs);
  Some (mkConn from to).

Definition arrangement_fields : list string := ["id"; "name"; "description"; "source"; "revision"; "nodes"; "connections"].
Definition decode_arrangement (j : json) : option Arrangement :=
  fs ← struct_fields arrangement_fields j;
  id ← as_string (struct_field "id" fs); name ← as_string (struct_field "name" fs); descr ← as_string (struct_field "description" fs);
  source ← as_string (struct_field "source" fs); rev ← as_string (struct_field "revision" fs);
  nodes ← as_list decode_node (struct_field "nodes" fs); conns ← as_list decode_conn (struct_field "connections" fs);
  Some (mkArrangement id name descr source rev nodes conns).

Definition plan_fields : list string :=
  ["action"; "message"; "workspaceId"; "workspaceName"; "directory"; "floorId"; "floorName"; "arrangement"].
Definition decode_plan (j : json) : option MaestroPlan :=
  fs ← struct_fields plan_fields j;
  action ← as_string (struct_field "action" fs); message ← as_string (struct_field "message" fs);
  ws ← as_string (struct_field "workspaceId" fs); wsname ← as_string (struct_field "workspaceName" fs);
  dir ← as_string (struct_field "directory" fs); floor ← as_string (struct_field "floorId" fs);
  floorname ← as_string (struct_field "floorName" fs);
  arr ← decode_arrangement (default JNull (struct_field "arrangement" fs));
  Some (mkPlan action message ws wsname dir floor floorname arr).
End Decode.

Definition decode_info (j : json) : option WireInfo :=
  fs ← as_fields j; name ← as_string (struct_field "name" fs); version ← as_int (struct_field "protocolVersion" fs);
  caps ← as_strings (struct_field "capabilities" fs); role ← as_string (struct_field "role" fs);
  Some (mkWireInfo name version caps role).

Definition decode_floor (j : json) : option WireFloor :=
  fs ← as_fields j; id ← as_string (struct_field "id" fs); name ← as_string (struct_field "name" fs);
  missing ← as_bool (struct_field "isCloneMissing" fs); Some (mkWireFloor id name missing).
Definition decode_workspace (j : json) : option WireWorkspace :=
  fs ← as_fields j; id ← as_string (struct_field "id" fs); name ← as_string (struct_field "name" fs);
  dir ← as_string (struct_field "workingDirectory" fs); locked ← as_bool (struct_field "isLocked" fs);
  floors ← as_list decode_floor (struct_field "floors" fs); Some (mkWireWorkspace id name dir locked floors).

Definition decode_terminal (j : json) : option WireTerminal :=
  fs ← as_fields j; id ← as_string (struct_field "id" fs); node ← as_string (struct_field "nodeId" fs);
  name ← as_string (struct_field "name" fs); agent ← as_string (struct_field "agentType" fs);
  floor ← as_string (struct_field "floorId" fs); floorname ← as_string (struct_field "floorName" fs);
  status ← as_string (struct_field "status" fs); running ← as_bool (struct_field "isRunning" fs);
  live ← as_bool (struct_field "isLive" fs); manager ← as_bool (struct_field "isManager" fs);
  attention ← as_bool (struct_field "needsAttention" fs); preview ← as_strings (struct_field "preview" fs);
  Some (mkWireTerminal id node name agent floor floorname status running live manager attention preview).
Definition decode_item (j : json) : option WireItem :=
  fs ← as_fields j; kind ← as_string (struct_field "kind" fs);
  term ← decode_terminal (default JNull (struct_field "terminal" fs)); prompt ← as_string (struct_field "prompt" fs);
  Some (mkWireItem kind term prompt).
Definition decode_pending (j : json) : option (string * string) :=
  fs ← as_fields j; id ← as_string (struct_field "id" fs); e ← as_string (struct_field "error" fs); Some (id, e).
Definition decode_feed (j : json) : option WireFeed :=
  fs ← as_fields j; ws ← decode_workspace (default JNull (struct_field "workspace" fs));
  floors ← as_list decode_floor (struct_field "floors" fs); items ← as_list decode_item (struct_field "items" fs);
  epoch ← as_string (struct_field "epoch" fs); pending ← as_list decode_pending (struct_field "pendingFloors" fs);
  Some (mkWireFeed ws floors items epoch (struct_field "canvas" fs) pending).

Definition decode_preset (j : json) : option AgentPreset :=
  fs ← as_fields j; id ← as_string (struct_field "id" fs); name ← as_string (struct_field "name" fs);
  agent ← as_string (struct_field "agentType" fs); command ← as_string (struct_field "command" fs);
  is_default ← as_bool (struct_field "isDefault" fs); Some (mkAgentPreset id name agent command is_default).
