(* ===== verification/Encoding.v ===== *)
(** The encodings the Maestri adapter uses: hexadecimal and base64 text,
    escaped query values, and SHA-256 (FIPS 180-4) on lists of bytes. *)
From S2P Require Import Prelude GoStrings JsonText.

Local Open Scope Z_scope.

Definition byte_values (s : string) : list Z := map byte_of (bytes s).
Definition of_byte_values (l : list Z) : string := of_bytes (map of_byte l).

(** ** encoding/hex *)

Definition hex_encode (l : list Z) : string := concat_str (map (hex_digits 2) l).

Fixpoint hex_pairs (l : list ascii) : option (list Z) :=
  match l with
  | [] => Some []
  | a :: b :: l => x ← hex_value a; y ← hex_value b; rest ← hex_pairs l; Some (x * 16 + y :: rest)
  | [_] => None
  end.
Definition hex_decode (s : string) : option (list Z) := hex_pairs (bytes s).

(** [strings.ToUpper] of ASCII text. *)
Definition upper_ascii (s : string) : string :=
  of_byte_values (map (λ b, if ascii_lower_letter b then b - 32 else b) (byte_values s)).

(** ** encoding/base64, the standard alphabet *)

Definition base64_char (v : Z) : ascii :=
  of_byte (if v <? 26 then 65 + v else if v <? 52 then 71 + v else if v <? 62 then v - 4 else if v =? 62 then 43 else 47).
Definition base64_value (c : ascii) : option Z :=
  let b := byte_of c in
  if ascii_upper b then Some (b - 65)
  else if ascii_lower_letter b then Some (b - 71)
  else if ascii_digit b then Some (b + 4)
  else if b =? 43 then Some 62
  else if b =? 47 then Some 63
  else None.

Definition base64_group (l : list Z) : list ascii :=
  match l with
  | [a] => [base64_char (a / 4); base64_char (a mod 4 * 16); "="; "="]%char
  | [a; b] => [base64_char (a / 4); base64_char (a mod 4 * 16 + b / 16); base64_char (b mod 16 * 4); "="]%char
  | [a; b; c] => [base64_char (a / 4); base64_char (a mod 4 * 16 + b / 16); base64_char (b mod 16 * 4 + c / 64); base64_char (c mod 64)]
  | _ => []
  end.
Fixpoint base64_groups (l : list Z) : list ascii :=
  match l with
  | a :: b :: c :: l => base64_group [a; b; c] ++ base64_groups l
  | l => base64_group l
  end.
Definition base64_encode (l : list Z) : string := of_bytes (base64_groups l).

(** Line ends are skipped; padding ends the text. *)
Fixpoint base64_quads (n : nat) (l : list ascii) : option (list Z) :=
  match n, l with
  | _, [] => Some []
  | S n, a :: b :: c :: d :: l =>
    x ← base64_value a; y ← base64_value b;
    if Ascii.eqb c "=" then if Ascii.eqb d "=" && Nat.eqb (length l) 0 then Some [x * 4 + y / 16] else None
    else
      z ← base64_value c;
      if Ascii.eqb d "=" then if Nat.eqb (length l) 0 then Some [x * 4 + y / 16; y mod 16 * 16 + z / 4] else None
      else t ← base64_value d; rest ← base64_quads n l; Some (x * 4 + y / 16 :: y mod 16 * 16 + z / 4 :: z mod 4 * 64 + t :: rest)
  | _, _ => None
  end.
Definition base64_decode (s : string) : option (list Z) :=
  let l := List.filter (λ c, negb (Ascii.eqb c newline || Ascii.eqb c "013")) (bytes s) in base64_quads (length l) l.

(** ** url.QueryEscape *)

Definition query_char (b : Z) : string :=
  if ascii_upper b || ascii_lower_letter b || ascii_digit b || (b =? 45) || (b =? 95) || (b =? 46) || (b =? 126)
  then String (of_byte b) ""
  else if b =? 32 then "+"
  else "%" +:+ upper_ascii (hex_digits 2 b).
Definition QueryEscape (s : string) : string := concat_str (map query_char (byte_values s)).

(** ** SHA-256 *)

Definition w32 (n : Z) : Z := n mod 2 ^ 32.
Definition add32 (l : list Z) : Z := w32 (foldr Z.add 0 l).
Definition rotr (n x : Z) : Z := Z.lor (Z.shiftr x n) (w32 (Z.shiftl x (32 - n))).
Definition xor3 (a b c : Z) : Z := Z.lxor (Z.lxor a b) c.
Definition big0 (x : Z) : Z := xor3 (rotr 2 x) (rotr 13 x) (rotr 22 x).
Definition big1 (x : Z) : Z := xor3 (rotr 6 x) (rotr 11 x) (rotr 25 x).
Definition small0 (x : Z) : Z := xor3 (rotr 7 x) (rotr 18 x) (Z.shiftr x 3).
Definition small1 (x : Z) : Z := xor3 (rotr 17 x) (rotr 19 x) (Z.shiftr x 10).
Definition choice (x y z : Z) : Z := Z.lxor (Z.land x y) (Z.land (Z.lxor x (2 ^ 32 - 1)) z).
Definition majority (x y z : Z) : Z := xor3 (Z.land x y) (Z.land x z) (Z.land y z).

(** The first 32 bits of the fractional parts of the roots of the first
    primes. *)
Definition round_constants : list Z := [
   1116352408; 1899447441; 3049323471; 3921009573; 961987163; 1508970993; 2453635748; 2870763221;
   3624381080; 310598401; 607225278; 1426881987; 1925078388; 2162078206; 2614888103; 3248222580;
   3835390401; 4022224774; 264347078; 604807628; 770255983; 1249150122; 1555081692; 1996064986;
   2554220882; 2821834349; 2952996808; 3210313671; 3336571891; 3584528711; 113926993; 338241895;
   666307205; 773529912; 1294757372; 1396182291; 1695183700; 1986661051; 2177026350; 2456956037;
   2730485921; 2820302411; 3259730800; 3345764771; 3516065817; 3600352804; 4094571909; 275423344;
   430227734; 506948616; 659060556; 883997877; 958139571; 1322822218; 1537002063; 1747873779;
   1955562222; 2024104815; 2227730452; 2361852424; 2428436474; 2756734187; 3204031479; 3329325298].
Definition initial_hash : list Z := [1779033703; 3144134277; 1013904242; 2773480762; 1359893119; 2600822924; 528734635; 1541459225].

(** The padded message: a multiple of 64 bytes. *)
Definition be_bytes (n : nat) (v : Z) : list Z := map (λ i, v / 256 ^ Z.of_nat (n - 1 - i) mod 256) (seq 0 n).
Definition padded (m : list Z) : list Z :=
  let l := Z.of_nat (length m) in
  m ++ [128] ++ repeat 0 (Z.to_nat ((55 - l) mod 64)) ++ be_bytes 8 (l * 8).

Fixpoint words (l : list Z) : list Z :=
  match l with
  | a :: b :: c :: d :: l => ((a * 256 + b) * 256 + c) * 256 + d :: words l
  | _ => []
  end.

(** The sixteen newest words of the schedule, newest first, and a step of the
    compression with each. *)
Definition next_word (last : list Z) : Z :=
  add32 [small1 (nth 1 last 0); nth 6 last 0; small0 (nth 14 last 0); nth 15 last 0].

Definition round (h : list Z) (k w : Z) : list Z :=
  match h with
  | [a; b; c; d; e; f; g; x] =>
    let t1 := add32 [x; big1 e; choice e f g; k; w] in
    let t2 := add32 [big0 a; majority a b c] in
    [add32 [t1; t2]; a; b; c; add32 [d; t1]; e; f; g]
  | _ => h
  end.

Fixpoint rounds (ks : list Z) (todo last h : list Z) : list Z :=
  match ks with
  | [] => h
  | k :: ks =>
    let '(w, todo) := match todo with w :: todo => (w, todo) | [] => (next_word last, []) end in
    rounds ks todo (take 16 (w :: last)) (round h k w)
  end.

Definition block (h b : list Z) : list Z := zip_with (λ x y, w32 (x + y)) h (rounds round_constants (words b) [] h).

Fixpoint blocks (n : nat) (h l : list Z) : list Z :=
  match n with
  | O => h
  | S n => blocks n (block h (take 64 l)) (drop 64 l)
  end.

(** [sha256.Sum256]: 32 bytes. *)
Definition sha256 (m : list Z) : list Z :=
  let l := padded m in blocks (length l / 64) initial_hash l ≫= be_bytes 4.

(** A hash function of 32 bytes, which the identifiers are made with; the
    program's is [sha256]. *)
Class Hashing := hash_sum : list Z → list Z.
Definition sha256_hashing : Hashing := sha256.

Example sha256_abc :
  hex_encode (sha256 (byte_values "abc")) = "ba7816bf8f01cfea414140de5dae2223b00361a396177a9cb410ff61f20015ad"
  ∧ hex_encode (sha256 []) = "e3b0c44298fc1c149afbf4c8996fb92427ae41e4649b934ca495991b7852b855".
Proof. vm_compute. done. Qed.

Example encodings :
  base64_encode (byte_values "Maestri!") = "TWFlc3RyaSE=" ∧ base64_decode "TWFlc3RyaSE=" = Some (byte_values "Maestri!")
  ∧ hex_decode "00fF1a" = Some [0; 255; 26] ∧ QueryEscape "a b/é.txt" = "a+b%2F%C3%A9.txt".
Proof. vm_compute. done. Qed.
