(* ===== verification/MaestriClient.v ===== *)
(** internal/adapters/maestri/client.go: the client of the Wire protocol.

    The HTTP client and the sockets are questions to the outside: an answer
    holds the status and the body of a reply, or that none came.  The state is
    the info of the host the client keeps. *)
From S2P Require Import Prelude GoStrings Errors Json JsonText Encoding RelayDomain RelayJson Eff.

Local Open Scope Z_scope.

(** [url.Parse]: what [New] looks at beside [RelayDomain.URL]. *)
Class UrlOrigin := { url_path : string → string; url_query : string → string; url_fragment : string → string; url_hostname : string → string }.

Record reply := mkReply { StatusCode : Z; Body : string; BodyErr : option error }.

Inductive wireE : Type → Type :=
  | WDo (method url : string) (headers : list (string * string)) (body : string) : wireE (result reply)
  | WCtxErr : wireE (option error)
  | WDial (url auth : string) : wireE (option error)       (* a websocket with a read limit *)
  | WSend (text : string) : wireE (option error)
  | WReceive : wireE (list (bool * string) * error)        (* messages, binary or not, and what ended them *)
  | WCloseNow : wireE unit.

Local Open Scope eff_scope.

Section Client.
Context {P : UrlParser} {O : UrlOrigin}.

(** ** New *)

(** The pin: hexadecimal, with or without colons, or base64. *)
Definition parse_pin (pin : string) : option (list Z) :=
  let text := trim_prefix pin "sha256//" in
  let of_32 (l : option (list Z)) := match l with Some l => if Nat.eqb (length l) 32 then Some l else None | None => None end in
  match of_32 (hex_decode (replace_all text ":" "")) with
  | Some want => Some want
  | None => of_32 (base64_decode text)
  end.

(** The key of the first certificate of the host. *)
Definition verify_connection (want : list Z) (certificates : list (list Z)) : option error :=
  match certificates with
  | [] => Some (Opaque "certificado Wire ausente")
  | key :: _ => if bool_decide (sha256 key = want) then None else Some (Opaque "chave de segurança Wire divergente")
  end.

Record Client := mkClient { base : string; token : string; pinned : option (list Z) }.

Definition New (address pin tok : string) : result Client :=
  let origin := match url_parse address with
                | None => false
                | Some u => String.eqb (Scheme u) "https" && negb (String.eqb (Host u) "") && negb (HasUser u)
                            && (String.eqb (url_path address) "" || String.eqb (url_path address) "/")
                            && String.eqb (url_query address) "" && String.eqb (url_fragment address) ""
                end in
  if negb origin then Err (Opaque "wireURL deve ser a origem HTTPS do host")
  else if String.eqb pin "" then Ok (mkClient (trim_right address "/") tok None)
  else
    match parse_pin pin with
    | None => Err (Opaque "wirePin precisa ser SHA-256 SPKI em hex ou base64")
    | Some want => Ok (mkClient (trim_right address "/") tok (Some want))
    end.

(** ** Requests *)

Context (c : Client).
Definition zero_info : WireInfo := mkWireInfo "" 0 [] "".
Local Notation prog := (prog wireE WireInfo).

Definition authorization : list (string * string) :=
  if String.eqb (token c) "" then [] else [("Authorization", "Bearer " +:+ token c)].

(** What a reply is read as: at most [n] bytes of it, and one value, whatever
    follows it; or nothing. *)
Definition decode_body {A} (dec : json → option A) (r : reply) : result A :=
  let text := str_take 16777216 (Body r) in
  match read_value (S (String.length text)) text with
  | Some (j, _) => match dec j with Some a => Ok a | None => Err (Opaque "resposta Wire inválida") end
  | None => Err (Opaque "resposta Wire inválida")
  end.
Definition discard_body (r : reply) : result unit :=
  if len (Body r) <? 1048576 then match BodyErr r with Some e => Err e | None => Ok tt end else Ok tt.

Definition request {A} (method path body mime : string) (read : reply → result A) : prog (result A) :=
  if negb (has_prefix path "/") || has_prefix path "//" then Ret (Err (Opaque "rota Wire inválida"))
  else
    match url_parse (base c +:+ path) with
    | None => Ret (Err (Opaque "url"))
    | Some _ =>
      do r ← call (WDo method (base c +:+ path) (authorization ++ if String.eqb mime "" then [] else [("Content-Type", mime)]) body);
      match r with
      | Err _ =>
        do e ← call WCtxErr;
        Ret (Err (match e with Some e => e | None => Opaque "conexão Wire falhou; confira endereço, pareamento e chave de segurança" end))
      | Ok r =>
        if (StatusCode r <? 200) || (300 <=? StatusCode r)
        then Ret (Err (Errorf "erro Wire %s: HTTP %d" [method; itoa (StatusCode r)] []))
        else Ret (read r)
      end
    end.

Definition Info : prog (result WireInfo) :=
  do r ← request "GET" "/api/info" "" "" (decode_body decode_info);
  match r with
  | Err e => Ret (Err e)
  | Ok info =>
    if negb (ProtocolVersion info =? 1) then Ret (Err (Errorf "protocolo Wire não suportado: %d" [itoa (ProtocolVersion info)] []))
    else do _ ← modify (λ _, info); Ret (Ok info)
  end.

(** [body] is what is marshalled, [None] for nil. *)
Definition Call {A} (cap method path : string) (body : option json) (read : reply → result A) : prog (result A) :=
  do cached ← gets id;
  do info ← (if negb (ProtocolVersion cached =? 1) then Info else Ret (Ok cached));
  match info with
  | Err e => Ret (Err e)
  | Ok info =>
    if negb (Has info cap) then Ret (Err (Errorf "host sem capability %s" [cap] []))
    else if negb (String.eqb method "GET") && negb (String.eqb (IRole info) "owner") then Ret (Err (Opaque "operação exige pareamento Wire owner"))
    else
      match (match body with None => Some "" | Some j => Marshal j end) with
      | None => Ret (Err (Opaque "json"))
      | Some data => request method path data "application/json" read
      end
  end.

Definition six_digits (code : string) : bool := (len code =? 6) && String.eqb (trim code "0123456789") "".

Definition decode_pairing (j : json) : option (string * Z) :=
  fs ← as_fields j; tok ← as_string (struct_field "token" fs); version ← as_int (struct_field "protocolVersion" fs); Some (tok, version).

Definition Pair (code : string) : prog (result string) :=
  if negb (six_digits code) then Ret (Err (Opaque "código precisa ter seis dígitos"))
  else
    match Marshal (JObj [("code", JStr code); ("deviceName", JStr "Maestri Relay")]) with
    | None => Ret (Err (Opaque "json"))
    | Some data =>
      do r ← request "POST" "/pair" data "application/json" (decode_body decode_pairing);
      Ret (match r with
           | Err e => Err e
           | Ok (tok, version) =>
             match hex_decode tok with
             | Some l => if Nat.eqb (length l) 32 && (version =? 1) then Ok tok else Err (Opaque "pareamento Wire inválido")
             | None => Err (Opaque "pareamento Wire inválido")
             end
           end)
    end.

(** ** Reads *)

Definition decode_field {A} (name : string) (dec : json → option A) (j : json) : option (list A) :=
  fs ← as_fields j; as_list dec (struct_field name fs).

Definition Workspaces : prog (result (list WireWorkspace)) :=
  Call "feedSnapshots" "GET" "/api/workspaces" None (decode_body (decode_field "workspaces" decode_workspace)).
Definition Feed (ws floor : string) : prog (result WireFeed) :=
  if negb (ValidRelayID ws) then Ret (Err (Opaque "workspace inválido"))
  else
    let floor := if String.eqb floor "" then "ground" else floor in
    if negb (ValidRelayID floor) then Ret (Err (Opaque "andar inválido"))
    else Call "feedSnapshots" "GET" ("/api/workspaces/" +:+ ws +:+ "/feed?floor=" +:+ floor) None (decode_body decode_feed).
Definition Presets : prog (result (list AgentPreset)) :=
  Call "canvasWrites" "GET" "/api/agent-presets" None (decode_body (decode_field "presets" decode_preset)).

(** ** Terminals *)

(** [strings.Replace(base, "https://", "wss://", 1)]. *)
Definition socket_base : string :=
  match str_cut (base c) "https://" with Some (a, b) => a +:+ "wss://" +:+ b | None => base c end.

Definition with_socket {A} (id : string) (use : prog (result A)) : prog (result A) :=
  if negb (ValidRelayID id) then Ret (Err (Opaque "terminal inválido"))
  else
    do e ← call (WDial (socket_base +:+ "/api/terminals/" +:+ id +:+ "/stream") ("Bearer " +:+ token c));
    match e with
    | Some _ => Ret (Err (Opaque "stream Wire indisponível"))
    | None => do r ← use; do _ ← call WCloseNow; Ret r
    end.

Definition Input (id : string) (data : list Z) : prog (result unit) :=
  do i ← Info;
  match i with
  | Err e => Ret (Err e)
  | Ok info =>
    if negb (String.eqb (IRole info) "owner") || negb (Has info "terminalInputBytes")
    then Ret (Err (Opaque "entrada de teclas não autorizada pelo Wire"))
    else
      with_socket id
        (do e ← call (WSend (default "" (Marshal (JObj [("data", JStr (base64_encode data)); ("type", JStr "inputBytes")]))));
         Ret (match e with Some e => Err e | None => Ok tt end))
  end.

(** The first binary message. *)
Fixpoint first_binary (messages : list (bool * string)) (ended : error) : result string :=
  match messages with
  | [] => Err ended
  | (binary, text) :: messages => if binary : bool then Ok text else first_binary messages ended
  end.
Definition Screen (id : string) : prog (result string) :=
  do i ← Info;
  match i with
  | Err e => Ret (Err e)
  | Ok info =>
    if negb (Has info "terminalStreaming") then Ret (Err (Opaque "host sem terminalStreaming"))
    else with_socket id (do got ← call WReceive; Ret (first_binary got.1 got.2))
  end.

Definition decode_attachment (j : json) : option string := fs ← as_fields j; as_string (struct_field "attachmentId" fs).

Definition Upload (id name mime data : string) : prog (result string) :=
  do i ← Info;
  match i with
  | Err e => Ret (Err e)
  | Ok info =>
    if negb (Has info "attachmentStaging") || negb (Has info "promptSegments") || negb (String.eqb (IRole info) "owner")
    then Ret (Err (Opaque "host não permite anexos"))
    else if negb (ValidRelayID id) || (8388608 <? len data) then Ret (Err (Opaque "anexo inválido ou maior que 8 MiB"))
    else request "POST" ("/api/terminals/" +:+ id +:+ "/attachments?filename=" +:+ QueryEscape name) data mime (decode_body decode_attachment)
  end.
End Client.

(** ** What the client may ask of the host *)

(** The operations that act on the host; [Workspaces], [Feed] and [Presets]
    are calls. *)
Inductive operation :=
  | DoPair (code : string)
  | DoCall (cap method path : string) (body : option json)
  | DoInput (id : string) (data : list Z)
  | DoScreen (id : string)
  | DoUpload (id name mime data : string).

Section Authorised.
Context {P : UrlParser} (c : Client) {A : Type} (read : reply → result A).
Local Notation prog := (prog wireE WireInfo).

Definition done {B} (p : prog (result B)) : prog (option error) := do r ← p; Ret (match r with Ok _ => None | Err e => Some e end).
Definition perform (op : operation) : prog (option error) :=
  match op with
  | DoPair code => done (Pair c code)
  | DoCall cap method path body => done (Call c cap method path body read)
  | DoInput id data => done (Input c id data)
  | DoScreen id => done (Screen c id)
  | DoUpload id name mime data => done (Upload c id name mime data)
  end.

(** The request for the info of the host, and what the last answer to one
    said. *)
Definition asks_info (method url : string) (headers : list (string * string)) : bool :=
  String.eqb method "GET" && String.eqb url (base c +:+ "/api/info") && bool_decide (headers = authorization c).
Definition told_info (r : result reply) : option WireInfo :=
  match r with
  | Ok r => if (StatusCode r <? 200) || (300 <=? StatusCode r) then None
            else match decode_body decode_info r with Ok i => if ProtocolVersion i =? 1 then Some i else None | Err _ => None end
  | Err _ => None
  end.
Fixpoint last_info (h : list (event wireE)) : WireInfo :=
  match h with
  | [] => zero_info
  | Ev o b :: h =>
    match o in wireE B return B → WireInfo with
    | WDo method url headers _ => λ r, if asks_info method url headers then default (last_info h) (told_info r) else last_info h
    | _ => λ _, last_info h
    end b
  end.

(** What the host must have said for a request of the operation: it speaks
    version 1, has the capability, and calls the client its owner unless the
    request only reads. Pairing comes before all that, with a code of six
    digits. *)
Definition owner (i : WireInfo) : Prop := IRole i = "owner".
Definition permitted (op : operation) (i : WireInfo) : Prop :=
  match op with
  | DoPair code => six_digits code = true
  | DoCall cap method _ _ => ProtocolVersion i = 1 ∧ Has i cap = true ∧ (method = "GET" ∨ owner i)
  | DoInput _ _ => ProtocolVersion i = 1 ∧ Has i "terminalInputBytes" = true ∧ owner i
  | DoScreen _ => ProtocolVersion i = 1 ∧ Has i "terminalStreaming" = true
  | DoUpload _ _ _ _ => ProtocolVersion i = 1 ∧ Has i "attachmentStaging" = true ∧ Has i "promptSegments" = true ∧ owner i
  end.

(** The requests that are the operation's own: where each goes, under which
    header, and what it carries. *)
Definition typed_headers (mime : string) : list (string * string) :=
  authorization c ++ (if String.eqb mime "" then [] else [("Content-Type", mime)]).
Definition terminal_socket (id url auth : string) : Prop :=
  ValidRelayID id = true ∧ url = socket_base c +:+ "/api/terminals/" +:+ id +:+ "/stream" ∧ auth = "Bearer " +:+ token c.
Definition own_request (op : operation) {B} (o : wireE B) : Prop :=
  match o, op with
  | WDo method url headers data', DoPair code =>
      method = "POST" ∧ url = base c +:+ "/pair" ∧ headers = typed_headers "application/json"
      ∧ Marshal (JObj [("code", JStr code); ("deviceName", JStr "Maestri Relay")]) = Some data'
  | WDo method url headers data', DoCall _ m path body =>
      method = m ∧ url = base c +:+ path ∧ has_prefix path "/" = true ∧ has_prefix path "//" = false
      ∧ headers = typed_headers "application/json" ∧ match body with None => data' = "" | Some j => Marshal j = Some data' end
  | WDo method url headers data', DoUpload id name mime data =>
      method = "POST" ∧ url = base c +:+ "/api/terminals/" +:+ id +:+ "/attachments?filename=" +:+ QueryEscape name ∧ ValidRelayID id = true
      ∧ headers = typed_headers mime ∧ data' = data ∧ len data ≤ 8388608
  | WDial url auth, (DoInput id _ | DoScreen id) => terminal_socket id url auth
  | WSend text, DoInput _ data => text = default "" (Marshal (JObj [("data", JStr (base64_encode data)); ("type", JStr "inputBytes")]))
  | WReceive, DoScreen _ => True
  | WCloseNow, (DoInput _ _ | DoScreen _) => True
  | WCtxErr, _ => True
  | _, _ => False
  end.
(** The request for the info carries nothing; pairing makes none. *)
Definition info_request (op : operation) {B} (o : wireE B) : Prop :=
  match o, op with
  | WDo _ _ _ _, DoPair _ => False
  | WDo method url headers body, _ => asks_info method url headers = true ∧ body = ""
  | WCtxErr, _ => True
  | _, _ => False
  end.
Definition event_ok (op : operation) (i : WireInfo) (ev : event wireE) : Prop :=
  match ev with Ev o _ => info_request op o ∨ own_request op o ∧ permitted op i end.

(** The sockets are those of the host itself. *)
Lemma socket_base_wss rest : base c = "https://" +:+ rest → socket_base c = "wss://" +:+ rest.
Proof. intros H. unfold socket_base. rewrite H. by destruct rest. Qed.

Definition authorised_since (op : operation) (h0 h : list (event wireE)) : Prop :=
  ∀ ev h1, (ev :: h1) `suffix_of` h → h0 `suffix_of` h1 → event_ok op (last_info h1) ev.

Lemma authorised_refl op h : authorised_since op h h.
Proof. intros ev h1 H1%suffix_length H2%suffix_length. cbn in H1. lia. Qed.

Lemma authorised_cons op h0 h ev : authorised_since op h0 h → event_ok op (last_info h) ev → authorised_since op h0 (ev :: h).
Proof.
  intros Ha Hev ev1 h1 [[|x k] E] H0; cbn in E; [by injection E as <- <-|]. injection E as _ ->. apply (Ha ev1 h1); [by exists k|done].
Qed.

Local Abbreviation wpa := (wp (anything (E := wireE))).

(** Every request is the info's, or permitted by the last info. *)
Lemma wp_authorised {B D} op h0 (o : wireE B) (k : B → prog D) (w : world wireE WireInfo) Q :
  authorised_since op h0 (trace w) → (∀ b, event_ok op (last_info (trace w)) (Ev o b)) →
  (∀ b, authorised_since op h0 (trace (told o b w)) → wpa (k b) (told o b w) Q) → wpa (bind (call o) k) w Q.
Proof. intros Ha Ho Hk. apply wp_ask. intros b _. apply Hk. apply authorised_cons; [done|apply Ho]. Qed.

Definition in_order (op : operation) (h0 : list (event wireE)) (w : world wireE WireInfo) : Prop :=
  authorised_since op h0 (trace w) ∧ st w = last_info (trace w).

Definition informed (op : operation) : Prop := match op with DoPair _ => False | _ => True end.

Lemma wp_Info op h0 (w : world wireE WireInfo) : informed op → in_order op h0 w →
  wpa (Info c) w (λ r w', in_order op h0 w' ∧ ∀ i, r = Ok i → st w' = i ∧ ProtocolVersion i = 1).
Proof.
  intros Hop [Ha Hst]. unfold Info. apply wp_bind. unfold request. cbn [has_prefix negb orb andb].
  change (negb (has_prefix "/api/info" "/") || has_prefix "/api/info" "//") with false.
  destruct (url_parse _); [|by split; [split|]].
  assert (asks_info "GET" (base c +:+ "/api/info") (authorization c ++ []) = true) as Hask.
  { unfold asks_info. rewrite app_nil_r, !String.eqb_refl, bool_decide_true by done. done. }
  change (if String.eqb "" "" then [] else [("Content-Type", "")]) with (@nil (string * string)).
  apply (wp_authorised op h0); [done|intros b; left; by destruct op|]. intros [r|e] Ha1.
  2: { apply (wp_authorised op h0); [done|intros b; by left|]. intros e2 Ha2. cbn [wp]. split; [split; [done|]|done].
       cbn [told st trace last_info]. by rewrite Hask. }
  assert (last_info (trace (told (WDo "GET" (base c +:+ "/api/info") (authorization c ++ []) "") (Ok r) w)) = default (last_info (trace w)) (told_info (Ok r))) as Hl.
  { cbn [told trace last_info]. by rewrite Hask. }
  set (w1 := told _ _ _) in *. assert (st w1 = st w) as Hs1 by done. clearbody w1. unfold told_info in Hl.
  destruct ((StatusCode r <? 200) || (300 <=? StatusCode r)); [by split; [split; [|rewrite Hl, Hs1]|]|].
  destruct (decode_body decode_info r) as [i|e]; [|by split; [split; [|rewrite Hl, Hs1]|]]. cbn [wp].
  destruct (Z.eqb_spec (ProtocolVersion i) 1) as [Hv|Hv]; cbn [negb]; [|by split; [split; [|rewrite Hl, Hs1]|]].
  apply wp_update. cbn [wp]. split; [split; [exact Ha1|by cbn [put trace st]; rewrite Hl]|]. by intros ? [= <-].
Qed.

Lemma asks_typed method url mime : mime ≠ "" ∨ method ≠ "GET" → asks_info method url (authorization c ++ (if String.eqb mime "" then [] else [("Content-Type", mime)])) = false.
Proof.
  intros [Hm|Hm]; unfold asks_info; [|by rewrite (proj2 (String.eqb_neq method "GET"))]. rewrite (proj2 (String.eqb_neq mime "")) by done. rewrite bool_decide_false; [by rewrite andb_false_r|].
  intros E. apply (f_equal length) in E. rewrite length_app in E. cbn in E. lia.
Qed.

(** A request of the operation's own. *)
Lemma wp_own_request {B} op h0 method path data mime (rd : reply → result B) (w : world wireE WireInfo) :
  (has_prefix path "/" = true → has_prefix path "//" = false → own_request op (WDo method (base c +:+ path) (typed_headers mime) data)) →
  mime ≠ "" ∨ method ≠ "GET" → in_order op h0 w → permitted op (last_info (trace w)) →
  wpa (request c method path data mime rd) w (λ _ w', in_order op h0 w').
Proof.
  intros Hown Hm [Ha Hst] Hp. unfold request. destruct (has_prefix path "/") eqn:H1; [|done]. destruct (has_prefix path "//") eqn:H2; [done|].
  cbn [negb orb]. destruct (url_parse _); [|done].
  pose proof (asks_typed method (base c +:+ path) mime Hm) as Hask. specialize (Hown eq_refl eq_refl). unfold typed_headers in Hown.
  set (hs := authorization c ++ _) in *. clearbody hs.
  apply (wp_authorised op h0); [done|intros b; right; by split|]. intros [r|e] Ha1.
  - destruct (_ || _); (split; [done|]); cbn [told st trace last_info]; by rewrite Hask.
  - apply (wp_authorised op h0); [done|intros b; left; by destruct op|]. intros e2 Ha2. split; [done|]. cbn [told st trace last_info]. by rewrite Hask.
Qed.
Lemma wp_socket {B} op h0 id (use : prog (result B)) (w : world wireE WireInfo) :
  (∀ url auth, terminal_socket id url auth → own_request op (WDial url auth)) → own_request op WCloseNow →
  in_order op h0 w → permitted op (last_info (trace w)) →
  (∀ w', in_order op h0 w' → permitted op (last_info (trace w')) →
    wpa use w' (λ _ w2, in_order op h0 w2 ∧ permitted op (last_info (trace w2)))) →
  wpa (with_socket c id use) w (λ _ w', in_order op h0 w').
Proof.
  intros Hown Hclose [Ha Hst] Hp Huse. unfold with_socket. destruct (ValidRelayID id) eqn:Hid; [|done]. cbn [negb].
  apply (wp_authorised op h0); [done|intros b; right; by split; [apply Hown|]|]. intros [e|] Ha1; [done|].
  apply wp_bind. eapply wp_mono; [|by apply Huse]. intros r w1 [[Ha2 Hs2] Hp2].
  apply (wp_authorised op h0); [done|by intros b; right|]. intros b Ha3. done.
Qed.

Lemma wp_done {B} op h0 (p : prog (result B)) (w : world wireE WireInfo) :
  wpa p w (λ _ w', in_order op h0 w') → wpa (done p) w (λ _ w', in_order op h0 w').
Proof. intros H. apply wp_bind. eapply wp_mono; [|exact H]. by intros r w' Hw. Qed.

(** C23: the client acts on the host only as the host allows. In every run of
    any of its operations (pairing, a call, keys, a look at a screen, an
    upload), whatever the network answers, each request is the one for the info
    of the host or the operation's own: that method, address, terminal, header
    and content. For its own request the last info by then spoke version 1,
    named the capability the operation needs, and called the client its owner
    unless the request only reads; pairing, before which there is no info,
    needs a code of six digits. *)
Theorem wire_authorised op (w : world wireE WireInfo) r w' : st w = last_info (trace w) →
  exec anything (perform op) w r w' → authorised_since op (trace w) (trace w') ∧ st w' = last_info (trace w').
Proof.
  intros Hst He. enough (wpa (perform op) w (λ _ w', in_order op (trace w) w')) as H by exact (wp_exec He H). clear He.
  assert (in_order op (trace w) w) as Hw by (split; [apply authorised_refl|done]).
  set (h0 := trace w) in *. destruct op as [code|cap method path body|id data|id|id name mime data]; cbn [perform]; apply wp_done; clearbody h0.
  - unfold Pair. destruct (six_digits code) eqn:Hc; [|done]. cbn [negb]. destruct (Marshal _) as [data|] eqn:Hd; [|done].
    apply wp_bind. eapply wp_mono; [|by apply (wp_own_request (DoPair code) h0); [intros _ _; split_and!|left|..]].
    intros r1 w1 Hin. done.
  - unfold Call. apply wp_look. cbn [id]. apply wp_bind.
    apply (wp_mono _ _ _ (λ r w', in_order (DoCall cap method path body) h0 w' ∧ ∀ i, r = Ok i → st w' = i ∧ ProtocolVersion i = 1)).
    2: { destruct (Z.eqb_spec (ProtocolVersion (st w)) 1) as [Hv|Hv]; cbn [negb]; [|by apply wp_Info]. split; [done|]. by intros i [= <-]. }
    intros [i|e] w1 [Hin Hi]; [|done]. destruct (Hi i eq_refl) as [Hs Hv]. destruct (Has i cap) eqn:Hc; [|done]. cbn [negb].
    destruct (negb (String.eqb method "GET") && negb (String.eqb (IRole i) "owner")) eqn:Hr; [done|].
    destruct (match body with None => Some "" | Some j => Marshal j end) as [data|] eqn:Hd; [|done].
    apply wp_own_request; [|by left|done|].
    { intros H1 H2. cbn. split_and!; [done..|]. destruct body; [done|congruence]. }
    rewrite <-(proj2 Hin), Hs. split; [done|]. split; [done|].
    apply andb_false_iff in Hr as [Hr%negb_false_iff%String.eqb_eq|Hr%negb_false_iff%String.eqb_eq]; auto.
  - unfold Input. apply wp_bind. eapply wp_mono; [|by apply (wp_Info (DoInput id data) h0)]. intros [i|e] w1 [Hin Hi]; [|done].
    destruct (Hi i eq_refl) as [Hs Hv]. destruct (negb (String.eqb (IRole i) "owner") || negb (Has i "terminalInputBytes")) eqn:Hr; [done|].
    apply orb_false_iff in Hr as [Hr1%negb_false_iff%String.eqb_eq Hr2%negb_false_iff].
    apply wp_socket; [done|done|done|rewrite <-(proj2 Hin), Hs; by split_and!|]. intros w2 [Ha2 Hs2] Hp2.
    apply (wp_authorised (DoInput id data) h0); [done|by intros b; right|]. intros [e|] Ha3; done.
  - unfold Screen. apply wp_bind. eapply wp_mono; [|by apply (wp_Info (DoScreen id) h0)]. intros [i|e] w1 [Hin Hi]; [|done].
    destruct (Hi i eq_refl) as [Hs Hv]. destruct (Has i "terminalStreaming") eqn:Hr; [|done]. cbn [negb].
    apply wp_socket; [done|done|done|rewrite <-(proj2 Hin), Hs; by split|]. intros w2 [Ha2 Hs2] Hp2.
    apply (wp_authorised (DoScreen id) h0); [done|by intros b; right|]. intros got Ha3; done.
  - unfold Upload. apply wp_bind. eapply wp_mono; [|by apply (wp_Info (DoUpload id name mime data) h0)]. intros [i|e] w1 [Hin Hi]; [|done].
    destruct (Hi i eq_refl) as [Hs Hv].
    destruct (negb (Has i "attachmentStaging") || negb (Has i "promptSegments") || negb (String.eqb (IRole i) "owner")) eqn:Hr; [done|].
    apply orb_false_iff in Hr as [[Hr1%negb_false_iff Hr2%negb_false_iff]%orb_false_iff Hr3%negb_false_iff%String.eqb_eq].
    destruct (ValidRelayID id) eqn:Hid; [|done]. cbn [negb orb]. destruct (Z.ltb_spec 8388608 (len data)); [done|].
    apply wp_own_request; [by intros _ _; cbn|by right|done|rewrite <-(proj2 Hin), Hs; by split_and!].
Qed.
End Authorised.

(** A parser of URLs, and a host that lets the client do what it names. *)
Definition any_url : UrlParser := {| url_parse := λ _, Some (mkURL "https" "host" false) |}.
Definition sample_host (role : string) : oracle (E := wireE) := λ B o _,
  match o in wireE B return B with
  | WDo _ _ _ _ => Ok (mkReply 200 (default "" (Marshal (JObj [("protocolVersion", JInt 1); ("role", JStr role); ("capabilities", JArr [JStr "canvasWrites"])]))) None)
  | WCtxErr => None
  | WDial _ _ => None
  | WSend _ => None
  | WReceive => ([], Opaque "closed")
  | WCloseNow => tt
  end.

(** A guest may not write: only the info was asked for. *)
Lemma wire_authorised_witness :
  let c := mkClient "https://host" "t" None in
  let run := interp (sample_host "guest") (@perform any_url c unit discard_body (DoCall "canvasWrites" "POST" "/api/x" None)) (mkWorld zero_info []) in
  run.1 = Some (Opaque "operação exige pareamento Wire owner")
  ∧ authorised_since c (DoCall "canvasWrites" "POST" "/api/x" None) [] (trace run.2) ∧ st run.2 = last_info c (trace run.2).
Proof.
  intros c run. split; [by vm_compute|].
  exact (wire_authorised (P := any_url) c discard_body (DoCall "canvasWrites" "POST" "/api/x" None) (mkWorld zero_info []) run.1 run.2 eq_refl
    (interp_exec anything (sample_host "guest") _ _ (λ _ _ _, I))).
Defined.
