(* ===== verification/Partitura.v ===== *)
(** internal/adapters/maestri/catalog.go and arrangement.go: the partituras of
    Maestri as arrangements of the relay, their catalog, and the native export.

    The directory walk and the download of the guide are questions to the
    outside; the archive of the download is the list of its entries. *)
From S2P Require Import Prelude GoStrings Errors Paths Eff Json JsonText RelayDomain RelayJson Encoding.
Local Open Scope Z_scope.

Definition GuideRevision : string := "24ccb073c761864d3352552053a38240f70224a1".
Definition GuideURL : string := "https://github.com/arthurspk/guiadomaestri".

Definition set_byte (i : nat) (f : Z → Z) (l : list Z) : list Z := alter f i l.

Section Hashed.
Context {H : Hashing}.

(** An identifier in the shape of a UUID from the hash of a text. *)
Definition stableID (s : string) : string :=
  let b := hash_sum (byte_values s) in
  let b := set_byte 6 (λ x, Z.lor (Z.land x 15) 80) b in
  let b := set_byte 8 (λ x, Z.lor (Z.land x 63) 128) b in
  let h := upper_ascii (hex_encode (take 16 b)) in
  str_take 8 h +:+ "-" +:+ str_take 4 (str_drop 8 h) +:+ "-" +:+ str_take 4 (str_drop 12 h) +:+ "-"
  +:+ str_take 4 (str_drop 16 h) +:+ "-" +:+ str_drop 20 h.

(** ** ParsePartitura *)

Record rawNode := mkRawNode { RawID : string; Frame : list (list spec_float); Content : gmap string json }.
Record rawPartitura := mkRaw {
  FormatVersion : Z; RID : string; RName : string; RDescription : string; RRoles : list (string * string);
  RNodes : list rawNode; NoteTexts : gmap string string;
  RConnections : list (gmap string json); NoteConnections : list (gmap string json); PortalConnections : list (gmap string json);
  NoteToNote : nat; PortalToPortal : nat; Drawings : nat
}.

Definition decode_role (j : json) : option (string * string) :=
  fs ← as_fields j; id ← as_string (struct_field "id" fs); prompt ← as_string (struct_field "prompt" fs); Some (id, prompt).
Definition decode_raw_node (j : json) : option rawNode :=
  fs ← as_fields j; id ← as_string (struct_field "id" fs);
  frame ← as_list (λ j, as_list (λ j, as_float (Some j)) (Some j)) (struct_field "frame" fs);
  content ← as_map Some (struct_field "content" fs);
  Some (mkRawNode id frame content).
Definition as_raw_maps (v : option json) : option (list (gmap string json)) := as_list (λ j, as_map Some (Some j)) v.

Definition decode_partitura (j : json) : option rawPartitura :=
  fs ← as_fields j;
  version ← as_int (struct_field "formatVersion" fs); id ← as_string (struct_field "id" fs); name ← as_string (struct_field "name" fs);
  descr ← as_string (struct_field "description" fs); roles ← as_list decode_role (struct_field "roles" fs);
  ps ← as_struct (struct_field "payload" fs);
  nodes ← as_list decode_raw_node (struct_field "nodes" ps);
  texts ← as_map (λ j, as_string (Some j)) (struct_field "noteTexts" ps);
  conns ← as_raw_maps (struct_field "connections" ps); notes ← as_raw_maps (struct_field "noteConnections" ps);
  portals ← as_raw_maps (struct_field "portalConnections" ps);
  n2n ← as_list Some (struct_field "noteToNoteConnections" ps); p2p ← as_list Some (struct_field "portalToPortalConnections" ps);
  drawings ← as_list Some (struct_field "drawings" ps);
  Some (mkRaw version id name descr roles nodes texts conns notes portals (length n2n) (length p2p) (length drawings)).

Record rawValue := mkRawValue {
  VID : string; VName : string; VAgentType : string; VRoleID : string; VManager : bool; VFileName : string; VURL : string
}.
Definition decode_value (j : json) : option rawValue :=
  fs ← as_fields j;
  id ← as_string (struct_field "id" fs); name ← as_string (struct_field "name" fs); agent ← as_string (struct_field "agentType" fs);
  role ← as_string (struct_field "assignedRoleId" fs); manager ← as_bool (struct_field "isManager" fs);
  file ← as_string (struct_field "fileName" fs); url ← as_string (struct_field "currentURL" fs);
  Some (mkRawValue id name agent role manager file url).

(** The value behind the key [_0]. *)
Definition unwrap (body : json) : option rawValue := fs ← as_fields body; v ← struct_field "_0" fs; decode_value v.

Definition json_error : error := Opaque "json".

(** What a node is, by the kind of its content; a terminal is noted. *)
Definition parse_content (raw : rawPartitura) (roles : gmap string string) (id kind : string) (v : rawValue) (x y w h : spec_float)
    (terms : gmap string string) : result (ArrangementNode * gmap string string) :=
  if String.eqb kind "terminal" then
    Ok (mkNode id "terminal" (VName v) "" (VAgentType v) (default "" (roles !! VRoleID v)) "" "" (VManager v) x y w h, <[VID v := id]> terms)
  else if String.eqb kind "stickyNote" then
    Ok (mkNode id "note" (VFileName v) "" "" "" (default "" (NoteTexts raw !! id)) "" false x y w h, terms)
  else if String.eqb kind "portal" then
    Ok (mkNode id "portal" (VName v) "" "" "" "" (VURL v) false x y w h, terms)
  else Err (Errorf "nó sem suporte: %s" [kind] []).

Definition bad_node : error := Opaque "nó com formato inválido".
Definition parse_node (raw : rawPartitura) (roles : gmap string string) (n : rawNode) (terms : gmap string string)
    : result (ArrangementNode * gmap string string) :=
  match map_to_list (Content n), Frame n with
  | [(kind, body)], [[x; y]; [w; h]] =>
    match unwrap body with
    | None => Err json_error
    | Some v => parse_content raw roles (RawID n) kind v x y w h terms
    end
  | _, _ => Err bad_node
  end.
Fixpoint parse_nodes (raw : rawPartitura) (roles : gmap string string) (l : list rawNode) (terms : gmap string string)
    : result (list ArrangementNode * gmap string string) :=
  match l with
  | [] => Ok ([], terms)
  | n :: l =>
    match parse_node raw roles n terms with
    | Err e => Err e
    | Ok (d, terms) => match parse_nodes raw roles l terms with Ok (ds, terms) => Ok (d :: ds, terms) | Err e => Err e end
    end
  end.

(** [str]: a key that is missing or no string is the empty string. *)
Definition raw_str (m : gmap string json) (key : string) : string := match m !! key with Some (JStr s) => s | _ => "" end.

Definition parse_raw (raw : rawPartitura) : result Arrangement :=
  if negb (FormatVersion raw =? 1) || Nat.ltb 0 (Drawings raw) || Nat.ltb 0 (NoteToNote raw) || Nat.ltb 0 (PortalToPortal raw)
  then Err (Opaque "formato ou componentes da partitura não suportados")
  else
    match parse_nodes raw (map_of_fields (RRoles raw)) (RNodes raw) ∅ with
    | Err e => Err e
    | Ok (nodes, terms) =>
      let term m key := default "" (terms !! raw_str m key) in
      Ok (mkArrangement (RID raw) (RName raw) (RDescription raw) "" "" nodes
            (map (λ m, mkConn (term m "terminalIdA") (term m "terminalIdB")) (RConnections raw)
             ++ map (λ m, mkConn (term m "terminalId") (raw_str m "noteNodeId")) (NoteConnections raw)
             ++ map (λ m, mkConn (term m "terminalId") (raw_str m "portalNodeId")) (PortalConnections raw)))
    end.

Section Parse.
Context {P : UrlParser}.

Definition parse_document (j : json) : result Arrangement :=
  match decode_partitura j with
  | None => Err json_error
  | Some raw =>
    match parse_raw raw with
    | Err e => Err e
    | Ok a => match Validate a with Some e => Err e | None => Ok a end
    end
  end.
Definition ParsePartitura (text : string) : result Arrangement :=
  match Unmarshal text with Some j => parse_document j | None => Err json_error end.
End Parse.

(** ** ResolvePresets *)

Definition candidate (n : ArrangementNode) (p : AgentPreset) : bool :=
  if negb (String.eqb (PresetID n) "") then String.eqb (PsID p) (PresetID n)
  else String.eqb (PsAgentType p) (NAgentType n) || (String.eqb (NAgentType n) "" && IsDefault p).

Definition with_preset (n : ArrangementNode) (p : AgentPreset) : ArrangementNode :=
  mkNode (NID n) (NKind n) (NName n) (PsID p) (PsAgentType p) (NPrompt n) (NText n) (NURL n) (Manager n) (X n) (Y n) (Width n) (Height n).
Definition is_terminal (n : ArrangementNode) : bool := String.eqb (NKind n) "terminal".

Definition resolve_node (presets : list AgentPreset) (n : ArrangementNode) : result ArrangementNode :=
  if negb (is_terminal n) then Ok n
  else
    match List.filter (candidate n) presets with
    | [p] => Ok (with_preset n p)
    | l => Err (Errorf "selecione um preset instalado para %s; encontrados %d" [NName n; itoa (Z.of_nat (length l))] [])
    end.
Fixpoint resolve_nodes (presets : list AgentPreset) (l : list ArrangementNode) : result (list ArrangementNode) :=
  match l with
  | [] => Ok []
  | n :: l =>
    match resolve_node presets n with
    | Err e => Err e
    | Ok n => match resolve_nodes presets l with Ok l => Ok (n :: l) | Err e => Err e end
    end
  end.

Definition with_nodes (a : Arrangement) (l : list ArrangementNode) : Arrangement :=
  mkArrangement (ArID a) (ArName a) (Description a) (Source a) (Revision a) l (Connections a).
Definition ResolvePresets (a : Arrangement) (presets : list AgentPreset) : result Arrangement :=
  match resolve_nodes presets (Nodes a) with Ok l => Ok (with_nodes a l) | Err e => Err e end.

(** ** NativePartitura *)

Definition fadd (x y : spec_float) : spec_float := SFadd 53 1024 x y.
Definition fsub (x y : spec_float) : spec_float := SFsub 53 1024 x y.
Definition fmul (x y : spec_float) : spec_float := SFmul 53 1024 x y.
Definition fdiv (x y : spec_float) : spec_float := SFdiv 53 1024 x y.

(** The commands of the presets the team uses. *)
Definition used (nodes : list ArrangementNode) (p : AgentPreset) : bool := existsb (λ n, is_terminal n && String.eqb (PresetID n) (PsID p)) nodes.
Definition used_commands (nodes : list ArrangementNode) (presets : list AgentPreset) : gmap string string :=
  map_of_fields (map (λ p, (PsID p, PsCommand p)) (List.filter (used nodes) presets)).

Definition export_text (a : Arrangement) (commands : gmap string string) : string :=
  default "" (Marshal (JObj [("Arrangement", arrangement_json a); ("Commands", JObj (map (λ kv, (kv.1, JStr kv.2)) (sorted_fields commands)))])).

Definition export_stamp : string := "2026-09-13T00:00:00Z".
Definition value_of (kind : string) (fs : list (string * json)) : json := JObj [(kind, JObj [("_0", JObj fs)])].

(** The middle of a side, the rope between two nodes. *)
Definition middle (at_ size : spec_float) : spec_float := fadd at_ (fdiv size (float64_of 2)).
Definition rope_point (from to : ArrangementNode) (i : Z) : json :=
  let fraction := fdiv (float64_of i) (float64_of 20) in
  let between p q := fadd (fmul p (fsub (float64_of 1) fraction)) (fmul q fraction) in
  JArr [JNum (between (middle (X from) (Width from)) (middle (X to) (Width to)));
        JNum (between (middle (Y from) (Height from)) (middle (Y to) (Height to)))].

Section Export.
Context (id : string) (commands : gmap string string) (texts : list (string * string)).

Definition node_id (n : string) : string := stableID (id +:+ "/node/" +:+ n).
Definition term_id (n : string) : string := stableID (id +:+ "/terminal/" +:+ n).
Definition role_id (n : string) : string := stableID (id +:+ "/role/" +:+ n).

Definition role_json (n : ArrangementNode) : json :=
  JObj [("color", JStr "#007AFF"); ("icon", JStr "person.text.rectangle"); ("id", JStr (role_id (NID n))); ("name", JStr (NName n));
        ("prompt", JStr (NPrompt n)); ("schemaVersion", JInt 1)].

Definition terminal_json (n : ArrangementNode) (command : string) : json :=
  value_of "terminal"
    [("agentType", JStr (NAgentType n)); ("assignedRoleId", JStr (role_id (NID n))); ("autoScrollLocked", JBool false); ("color", JStr "#007AFF");
     ("command", JStr command); ("icon", JStr "terminal"); ("id", JStr (term_id (NID n))); ("isManager", JBool (Manager n));
     ("isUnloaded", JBool false); ("lastActiveAt", JStr "1970-01-01T00:00:00Z"); ("monitorWithOmbro", JBool true); ("name", JStr (NName n));
     ("scrollbackFile", JStr ""); ("scrollbackLineCount", JInt 0); ("shellPath", JStr ""); ("shortcutMode", JObj [("kind", JStr "automatic")]);
     ("status", JStr "restored"); ("workingDirectory", JStr "")].
Definition note_json (n : ArrangementNode) : json :=
  value_of "stickyNote"
    [("color", JStr "blue"); ("fileName", JStr (NName n)); ("fontSize", JInt 14); ("hasCustomName", JBool true); ("isContentLocked", JBool false);
     ("isPreviewing", JBool true); ("storageMode", JObj [("managed", JObj [])])].
Definition portal_json (n : ArrangementNode) : json :=
  value_of "portal"
    [("chromeHidden", JBool false); ("currentURL", JStr (NURL n)); ("id", JStr (stableID (id +:+ "/portal/" +:+ NID n))); ("isUnloaded", JBool false);
     ("name", JStr (NName n)); ("source", JObj [("url", JObj [("_0", JStr (NURL n))])]); ("status", JStr "idle"); ("storageScope", JStr "isolated");
     ("surface", JObj [("browser", JObj [])])].

(** The content of a node; a terminal needs the command of its preset. *)
Definition content_json (n : ArrangementNode) : result json :=
  if is_terminal n then
    let command := default "" (commands !! PresetID n) in
    if String.eqb (trim_space command) "" then Err (Errorf "preset %s não expõe comando para exportação nativa" [PresetID n] [])
    else Ok (terminal_json n command)
  else if String.eqb (NKind n) "note" then Ok (note_json n)
  else if String.eqb (NKind n) "portal" then Ok (portal_json n)
  else Ok JNull.

Definition frame_json (n : ArrangementNode) : json := JArr [JArr [JNum (X n); JNum (Y n)]; JArr [JNum (Width n); JNum (Height n)]].
Definition export_node (index : nat) (n : ArrangementNode) : result json :=
  match content_json n with
  | Err e => Err e
  | Ok content =>
    Ok (JObj [("content", content); ("createdAt", JStr export_stamp); ("frame", frame_json n); ("id", JStr (node_id (NID n))); ("isLocked", JBool false);
              ("lastModifiedAt", JStr export_stamp); ("zIndex", JInt (50 + Z.of_nat index))])
  end.
Fixpoint export_nodes (index : nat) (l : list ArrangementNode) : result (list json) :=
  match l with
  | [] => Ok []
  | n :: l =>
    match export_node index n with
    | Err e => Err e
    | Ok j => match export_nodes (S index) l with Ok js => Ok (j :: js) | Err e => Err e end
    end
  end.

Definition note_texts (l : list ArrangementNode) : gmap string string :=
  map_of_fields (map (λ n, (node_id (NID n), NText n)) (List.filter (λ n, String.eqb (NKind n) "note") l)).

(** The edge of a connection, its terminal first, under the kind of its other
    end. *)
Definition oriented (from to : ArrangementNode) : ArrangementNode * ArrangementNode :=
  if negb (is_terminal from) && is_terminal to then (to, from) else (from, to).
Definition edge_ends (from to : ArrangementNode) : list (string * json) :=
  if is_terminal to then [("terminalIdA", JStr (term_id (NID from))); ("terminalIdB", JStr (term_id (NID to)))]
  else if String.eqb (NKind to) "note" then [("noteNodeId", JStr (node_id (NID to))); ("terminalId", JStr (term_id (NID from)))]
  else [("portalNodeId", JStr (node_id (NID to))); ("terminalId", JStr (term_id (NID from)))].
Definition edge_json (c : ArrangementConnection) (from to : ArrangementNode) : json :=
  JObj ([("createdAt", JStr export_stamp); ("id", JStr (stableID (id +:+ "/edge/" +:+ From c +:+ "/" +:+ To c)));
         ("ropePoints", JArr (map (λ i, rope_point from to (Z.of_nat i)) (seq 0 21)))] ++ edge_ends from to).

Definition no_node : ArrangementNode :=
  mkNode "" "" "" "" "" "" "" "" false (S754_zero false) (S754_zero false) (S754_zero false) (S754_zero false).
Definition by_id (nodes : list ArrangementNode) (n : string) : ArrangementNode := default no_node (map_of_fields (map (λ n, (NID n, n)) nodes) !! n).

(** The three lists of connections: between terminals, to notes, to portals. *)
Fixpoint export_connections (nodes : list ArrangementNode) (l : list ArrangementConnection) : result (list json * list json * list json) :=
  match l with
  | [] => Ok ([], [], [])
  | c :: l =>
    let '(from, to) := oriented (by_id nodes (From c)) (by_id nodes (To c)) in
    if negb (is_terminal from) then Err (Opaque "exportação desta conexão entre nós ainda não suportada")
    else
      match export_connections nodes l with
      | Err e => Err e
      | Ok (terms, notes, portals) =>
        let j := edge_json c from to in
        Ok (if is_terminal to then (j :: terms, notes, portals)
            else if String.eqb (NKind to) "note" then (terms, j :: notes, portals)
            else if String.eqb (NKind to) "portal" then (terms, notes, j :: portals)
            else (terms, notes, portals))
      end
  end.
End Export.

Definition string_map_json (m : gmap string string) : json := JObj (map (λ kv, (kv.1, JStr kv.2)) (sorted_fields m)).

(** The export of an arrangement whose presets are resolved. *)
Definition export (a : Arrangement) (presets : list AgentPreset) : result json :=
  let commands := used_commands (Nodes a) presets in
  let id := stableID (export_text a commands) in
  let workspace := stableID "maestri-relay-export" in
  match export_nodes id commands 0 (Nodes a) with
  | Err e => Err e
  | Ok nodes =>
    match export_connections id (Nodes a) (Connections a) with
    | Err e => Err e
    | Ok (terms, notes, portals) =>
      Ok (JObj
        [("appVersion", JStr "0.45.6"); ("color", JStr "#007AFF"); ("createdAt", JStr export_stamp); ("description", JStr (Description a));
         ("formatVersion", JInt 1); ("icon", JStr "paperplane"); ("id", JStr id); ("name", JStr ("Relay · " +:+ ArName a));
         ("payload", JObj
           [("connections", JArr terms); ("drawings", JArr []); ("nodes", JArr nodes); ("noteConnections", JArr notes);
            ("noteTexts", string_map_json (note_texts id (Nodes a))); ("noteToNoteConnections", JArr []); ("portalConnections", JArr portals);
            ("portalToPortalConnections", JArr []); ("sourceWorkingDirectory", JStr ""); ("sourceWorkspaceId", JStr workspace)]);
         ("roles", JArr (map (role_json id) (List.filter is_terminal (Nodes a)))); ("workspaceId", JStr workspace)])
    end
  end.

Definition NativePartitura `{P : UrlParser} (a : Arrangement) (presets : list AgentPreset) : result json :=
  match Validate a with
  | Some e => Err e
  | None => match ResolvePresets a presets with Err e => Err e | Ok a => export a presets end
  end.
End Hashed.

(** The identifier of the workspace of the exports. *)
Example export_workspace : stableID (H := sha256_hashing) "maestri-relay-export" = "E593FF8E-3F44-5D9C-A574-D7EC1048D769".
Proof. vm_compute. reflexivity. Qed.

(** * Theorems about Partitura.v: a native export is read back as the team it
    was made of. *)
(** ** Fields of documents *)

(** The fields of a decoder whose names are known, their values untouched. *)
Ltac read_keys :=
  unfold struct_field; cbn [last_field app];
  repeat match goal with
         | |- context [key_folds ?a ?b] => let v := eval vm_compute in (key_folds a b) in change (key_folds a b) with v
         end; cbn [mbind option_bind as_string as_bool as_fields default id].

Lemma map_of_fields_lookup {A} (l : list (string * A)) k v : NoDup l.*1 → (k, v) ∈ l → map_of_fields l !! k = Some v.
Proof. intros Hl Hin. rewrite map_of_fields_list by done. by apply elem_of_list_to_map. Qed.

Lemma mapM_map {A B C} (f : B → option C) (g : A → B) (h : A → C) l : Forall (λ x, f (g x) = Some (h x)) l → mapM f (map g l) = Some (map h l).
Proof. induction 1 as [|x l Hx _ IH]; cbn [map mapM]; [done|]. rewrite Hx. cbn [mbind option_bind]. by rewrite IH. Qed.

Section Hashed.
Context {Hsh : Hashing}.

(** ** What is read of an export *)

Section Reread.
Context (id : string) (commands : gmap string string).

Definition kind_is (k : string) (n : ArrangementNode) : bool := String.eqb (NKind n) k.

(** A node, under its new identifier and with what its kind carries. *)
Definition reread (n : ArrangementNode) : ArrangementNode :=
  let nid := node_id id (NID n) in
  if is_terminal n then mkNode nid "terminal" (NName n) "" (NAgentType n) (NPrompt n) "" "" (Manager n) (X n) (Y n) (Width n) (Height n)
  else if kind_is "note" n then mkNode nid "note" (NName n) "" "" "" (NText n) "" false (X n) (Y n) (Width n) (Height n)
  else mkNode nid "portal" (NName n) "" "" "" "" (NURL n) false (X n) (Y n) (Width n) (Height n).

(** The terminals by the identifiers the connections use. *)
Definition term_pair (n : ArrangementNode) : string * string := (term_id id (NID n), node_id id (NID n)).
Definition note_term (terms : gmap string string) (n : ArrangementNode) : gmap string string :=
  if is_terminal n then <[term_id id (NID n) := node_id id (NID n)]> terms else terms.

Definition known_kind (n : ArrangementNode) : Prop := NKind n = "terminal" ∨ NKind n = "note" ∨ NKind n = "portal".

(** The parts of an export a node refers to. *)
Definition refers (raw : rawPartitura) (roles : gmap string string) (n : ArrangementNode) : Prop :=
  (is_terminal n = true → roles !! role_id id (NID n) = Some (NPrompt n))
  ∧ (kind_is "note" n = true → NoteTexts raw !! node_id id (NID n) = Some (NText n)).

Lemma export_node_read i n j : known_kind n → export_node id commands i n = Ok j →
  ∃ rn, decode_raw_node j = Some rn ∧ ∀ raw roles terms, refers raw roles n → parse_node raw roles rn terms = Ok (reread n, note_term terms n).
Proof.
  unfold export_node, content_json. intros Hk H.
  assert (∃ kind fs v, (match content_json id commands n with Ok c => Some c | Err _ => None end) = Some (value_of kind fs) ∧ decode_value (JObj fs) = Some v
    ∧ ∀ raw roles terms, refers raw roles n → parse_content raw roles (node_id id (NID n)) kind v (X n) (Y n) (Width n) (Height n) terms = Ok (reread n, note_term terms n)) as (kind & fs & v & Hc & Hv & Hp).
  { unfold content_json, reread, note_term, refers, kind_is. unfold is_terminal in *. destruct Hk as [Hk|[Hk|Hk]]; rewrite Hk in *; cbn [String.eqb Ascii.eqb Bool.eqb] in *.
    - destruct (String.eqb (trim_space _) ""); [done|]. do 3 eexists. split; [reflexivity|]. split; [unfold decode_value; read_keys; reflexivity|].
      intros raw roles terms [Hr _]. unfold parse_content. cbn. rewrite (Hr eq_refl). done.
    - do 3 eexists. split; [reflexivity|]. split; [unfold decode_value; read_keys; reflexivity|].
      intros raw roles terms [_ Hn]. unfold parse_content. cbn. rewrite (Hn eq_refl). done.
    - do 3 eexists. split; [reflexivity|]. split; [unfold decode_value; read_keys; reflexivity|]. done. }
  fold (content_json id commands n) in H. destruct (content_json id commands n) as [c|]; [|done]. injection Hc as ->. injection H as <-.
  exists (mkRawNode (node_id id (NID n)) [[X n; Y n]; [Width n; Height n]] {[kind := JObj [("_0", JObj fs)]]}). split.
  - unfold decode_raw_node. cbn [as_fields mbind option_bind]. read_keys. reflexivity.
  - intros raw roles terms Hr. unfold parse_node. cbn [Content RawID Frame]. rewrite map_to_list_singleton.
    unfold unwrap, value_of. cbn [as_fields mbind option_bind]. read_keys. rewrite Hv. by apply Hp.
Qed.

Lemma export_nodes_read l : Forall known_kind l → ∀ i js, export_nodes id commands i l = Ok js →
  ∃ rns, mapM decode_raw_node js = Some rns
    ∧ ∀ raw roles terms, Forall (refers raw roles) l → parse_nodes raw roles rns terms = Ok (map reread l, foldl note_term terms l).
Proof.
  induction 1 as [|n l Hn _ IH]; intros i js H; cbn [export_nodes] in H.
  - injection H as <-. by exists [].
  - destruct (export_node id commands i n) as [j|] eqn:Hj; [|done]. destruct (export_nodes id commands (S i) l) as [js'|] eqn:Hjs; [|done].
    injection H as <-. destruct (export_node_read i n j Hn Hj) as (rn & Hd & Hp). destruct (IH _ _ Hjs) as (rns & Hds & Hps).
    exists (rn :: rns). cbn [mapM]. rewrite Hd. cbn [mbind option_bind]. rewrite Hds. split; [done|].
    intros raw roles terms [Hr Hrs]%Forall_cons. cbn [parse_nodes]. rewrite Hp by done. by rewrite Hps.
Qed.

(** ** Connections *)

Lemma as_map_object fs : as_map Some (Some (JObj fs)) = Some (map_of_fields fs).
Proof.
  cbn [as_map]. assert (mapM (λ kv : string * json, a ← Some kv.2; Some (kv.1, a)) fs = Some fs) as ->; [|done].
  induction fs as [|[k v] fs IH]; cbn [mapM mbind option_bind fst snd] in *; [done|]. by rewrite IH.
Qed.

Lemma raw_str_field fs k v : NoDup fs.*1 → (k, JStr v) ∈ fs → raw_str (map_of_fields fs) k = v.
Proof. intros Hl Hin. unfold raw_str. by rewrite (map_of_fields_lookup _ _ _ Hl Hin). Qed.

Context (nodes : list ArrangementNode).

Definition ends (c : ArrangementConnection) : ArrangementNode * ArrangementNode := oriented (by_id nodes (From c)) (by_id nodes (To c)).
Definition reread_conn (c : ArrangementConnection) : ArrangementConnection := mkConn (node_id id (NID (ends c).1)) (node_id id (NID (ends c).2)).
Definition toward (k : string) (l : list ArrangementConnection) : list ArrangementConnection := List.filter (λ c, kind_is k (ends c).2) l.

(** What an edge holds for the reader. *)
Definition edge_holds (c : ArrangementConnection) (fs : list (string * json)) : Prop :=
  let '(from, to) := ends c in
  edge_json id c from to = JObj fs ∧
  (is_terminal to = true → raw_str (map_of_fields fs) "terminalIdA" = term_id id (NID from) ∧ raw_str (map_of_fields fs) "terminalIdB" = term_id id (NID to))
  ∧ (kind_is "note" to = true → raw_str (map_of_fields fs) "terminalId" = term_id id (NID from) ∧ raw_str (map_of_fields fs) "noteNodeId" = node_id id (NID to))
  ∧ (kind_is "portal" to = true → raw_str (map_of_fields fs) "terminalId" = term_id id (NID from) ∧ raw_str (map_of_fields fs) "portalNodeId" = node_id id (NID to)).

Ltac distinct_keys := cbn [fmap list_fmap fst app]; apply (bool_decide_unpack _); vm_compute; exact I.

Lemma edge_read c : ∃ fs, edge_holds c fs.
Proof.
  unfold edge_holds. destruct (ends c) as [from to]. eexists. split; [reflexivity|]. unfold edge_ends, is_terminal, kind_is.
  generalize (JArr (map (λ i, rope_point from to (Z.of_nat i)) (seq 0 21))) as rope. intros rope.
  split_and!; intros E; apply String.eqb_eq in E; rewrite E; cbn [String.eqb Ascii.eqb Bool.eqb app];
    (split; apply raw_str_field; [distinct_keys|set_solver|distinct_keys|set_solver]).
Qed.

(** The terminals the reader knows. *)
Definition knows (terms : gmap string string) : Prop :=
  ∀ n, n ∈ nodes → is_terminal n = true → terms !! term_id id (NID n) = Some (node_id id (NID n)).

Definition term_of (terms : gmap string string) (m : gmap string json) (key : string) : string := default "" (terms !! raw_str m key).

Lemma export_connections_read l ts ns ps :
  Forall (λ c, (ends c).1 ∈ nodes ∧ (ends c).2 ∈ nodes ∧ known_kind (ends c).2) l →
  export_connections id nodes l = Ok (ts, ns, ps) →
  ∃ mt mn mp, as_raw_maps (Some (JArr ts)) = Some mt ∧ as_raw_maps (Some (JArr ns)) = Some mn ∧ as_raw_maps (Some (JArr ps)) = Some mp
    ∧ ∀ terms, knows terms →
      map (λ m, mkConn (term_of terms m "terminalIdA") (term_of terms m "terminalIdB")) mt = map reread_conn (toward "terminal" l)
      ∧ map (λ m, mkConn (term_of terms m "terminalId") (raw_str m "noteNodeId")) mn = map reread_conn (toward "note" l)
      ∧ map (λ m, mkConn (term_of terms m "terminalId") (raw_str m "portalNodeId")) mp = map reread_conn (toward "portal" l).
Proof.
  intros Hall. revert ts ns ps. induction Hall as [|c l (Hf & Ht & Hk) _ IH]; intros ts ns ps H; cbn [export_connections] in H.
  { injection H as <- <- <-. by exists [], [], []. }
  destruct (edge_read c) as [fs Hc]. unfold edge_holds in Hc. fold (ends c) in H. unfold toward, reread_conn. cbn [List.filter].
  destruct (ends c) as [from to] eqn:Hends. cbn [fst snd] in *. destruct Hc as (He & H1 & H2 & H3).
  destruct (is_terminal from) eqn:Hft; cbn [negb] in H; [|done].
  destruct (export_connections id nodes l) as [[[ts' ns'] ps']|] eqn:Hx; [|done].
  destruct (IH ts' ns' ps' eq_refl) as (mt & mn & mp & Hmt & Hmn & Hmp & Hterms). clear IH. cbn [as_raw_maps as_list] in Hmt, Hmn, Hmp.
  unfold is_terminal, kind_is in *.
  destruct Hk as [Hk|[Hk|Hk]]; rewrite Hk in *; cbn [String.eqb Ascii.eqb Bool.eqb] in *; injection H as <- <- <-; rewrite He.
  - exists (map_of_fields fs :: mt), mn, mp. cbn [as_raw_maps as_list mapM]. rewrite as_map_object. cbn [mbind option_bind]. rewrite Hmt.
    split_and!; [done..|]. intros terms Hkn. destruct (Hterms terms Hkn) as (E1 & E2 & E3). destruct (H1 eq_refl) as [Ha Hb].
    split_and!; [|exact E2|exact E3]. cbn [map]. rewrite Hends. cbn [fst snd]. unfold term_of at 1 2. rewrite Ha, Hb.
    rewrite (Hkn from Hf), (Hkn to Ht) by (unfold is_terminal; by rewrite ?Hk). cbn [from_option Datatypes.id]. f_equal. exact E1.
  - exists mt, (map_of_fields fs :: mn), mp. cbn [as_raw_maps as_list mapM]. rewrite as_map_object. cbn [mbind option_bind]. rewrite Hmn.
    split_and!; [done..|]. intros terms Hkn. destruct (Hterms terms Hkn) as (E1 & E2 & E3). destruct (H2 eq_refl) as [Ha Hb].
    split_and!; [exact E1| |exact E3]. cbn [map]. rewrite Hends. cbn [fst snd]. unfold term_of at 1. rewrite Ha, Hb.
    rewrite (Hkn from Hf) by done. cbn [from_option Datatypes.id]. f_equal. exact E2.
  - exists mt, mn, (map_of_fields fs :: mp). cbn [as_raw_maps as_list mapM]. rewrite as_map_object. cbn [mbind option_bind]. rewrite Hmp.
    split_and!; [done..|]. intros terms Hkn. destruct (Hterms terms Hkn) as (E1 & E2 & E3). destruct (H3 eq_refl) as [Ha Hb].
    split_and!; [exact E1|exact E2|]. cbn [map]. rewrite Hends. cbn [fst snd]. unfold term_of at 1. rewrite Ha, Hb.
    rewrite (Hkn from Hf) by done. cbn [from_option Datatypes.id]. f_equal. exact E3.
Qed.
End Reread.

(** ** Identifiers are valid *)

Definition id_byte (c : ascii) : Prop := byte_of c < 128 ∧ relay_id_char (byte_of c) = true.
Definition id_text (s : string) : Prop := Forall id_byte (bytes s).

Lemma id_text_app a b : id_text a → id_text b → id_text (a +:+ b).
Proof. unfold id_text. intros Ha Hb. rewrite bytes_app. by apply Forall_app. Qed.

Lemma id_text_take n s : id_text s → id_text (str_take n s).
Proof. unfold id_text, str_take. rewrite of_bytes_bytes. apply Forall_take. Qed.

Lemma id_text_drop n s : id_text s → id_text (str_drop n s).
Proof. unfold id_text, str_drop. rewrite of_bytes_bytes. apply Forall_drop. Qed.

Lemma upper_hex_id w n : id_text (upper_ascii (hex_digits w n)).
Proof.
  unfold id_text, upper_ascii, of_byte_values, byte_values. rewrite of_bytes_bytes. apply Forall_map, Forall_map, Forall_map.
  revert n. induction w as [|w IH]; intros n; cbn [hex_digits]; [constructor|].
  change (String.append ?a ?b) with (a +:+ b). rewrite bytes_app. apply Forall_app. split; [apply IH|].
  pose proof (Z.mod_pos_bound n 16 ltac:(lia)) as Hn. set (k := Z.to_nat (n mod 16)). assert (k < 16)%nat as Hk by lia. clearbody k. clear -Hk.
  do 16 (destruct k as [|k]; [repeat constructor|]). lia.
Qed.

Lemma hex_encode_upper l : id_text (upper_ascii (hex_encode l)).
Proof.
  induction l as [|x l IH]; [constructor|]. unfold hex_encode. cbn [map concat_str]. change (String.app ?a ?b) with (a +:+ b).
  assert (∀ a b, upper_ascii (a +:+ b) = upper_ascii a +:+ upper_ascii b) as ->.
  { intros a b. apply bytes_inj. unfold upper_ascii, of_byte_values, byte_values. by rewrite of_bytes_bytes, !bytes_app, !map_app, !of_bytes_bytes. }
  apply id_text_app; [apply upper_hex_id|exact IH].
Qed.

Lemma hex_digits_length w n : String.length (hex_digits w n) = w.
Proof.
  revert n. induction w as [|w IH]; intros n; cbn [hex_digits]; [done|]. change (String.append ?a ?b) with (a +:+ b).
  rewrite str_length_app, IH. cbn. lia.
Qed.

Lemma hex_encode_length l : String.length (hex_encode l) = (2 * length l)%nat.
Proof.
  induction l as [|x l IH]; [done|]. unfold hex_encode in *. cbn [map concat_str length]. change (String.app ?a ?b) with (a +:+ b).
  rewrite str_length_app, hex_digits_length, IH. lia.
Qed.

Lemma runes_of_ascii s : Forall (λ c, byte_of c < 128) (bytes s) → runes s = map byte_of (bytes s).
Proof.
  induction s as [|c s IH]; intros H; [done|]. apply Forall_cons in H as [Hc Hs].
  unfold runes. rewrite segs_ascii_cons by done. rewrite fmap_cons. cbn [fst bytes map]. f_equal. by apply IH.
Qed.

Lemma id_text_valid s : id_text s → (1 ≤ String.length s ≤ 100)%nat → ValidRelayID s = true.
Proof.
  unfold id_text, ValidRelayID, rune_count. intros Hid Hlen. rewrite runes_of_ascii by (eapply Forall_impl; [exact Hid|]; by intros c []).
  rewrite length_map, length_bytes. rewrite !andb_true_iff, !Z.leb_le. split; [lia|]. apply forallb_forall.
  intros r (c & -> & Hc)%list_elem_of_In%list_elem_of_fmap. rewrite Forall_forall in Hid. by apply Hid.
Qed.

Lemma stableID_valid s : ValidRelayID (stableID s) = true.
Proof.
  unfold stableID. set (l := take 16 _). assert (length l ≤ 16)%nat as Hl by (unfold l; rewrite length_take; lia). clearbody l.
  pose proof (hex_encode_upper l) as Hid. assert (String.length (upper_ascii (hex_encode l)) ≤ 32)%nat as Hlen.
  { unfold upper_ascii, of_byte_values, byte_values. rewrite <-length_bytes, of_bytes_bytes, !length_map, length_bytes, hex_encode_length. lia. }
  set (h := upper_ascii (hex_encode l)) in *. clearbody h.
  assert (id_text "-") as Hdash by (repeat constructor).
  apply id_text_valid.
  - repeat apply id_text_app; auto using id_text_take, id_text_drop.
  - rewrite !str_length_app. unfold str_take, str_drop. rewrite <-!length_bytes, !of_bytes_bytes, !length_take, !length_drop, length_bytes. cbn [bytes length]. lia.
Qed.

(** A text that starts with a letter is not blank. *)
Lemma drop_spaces_last l x : is_space x.1 = false → ∃ l', drop_spaces (l ++ [x]) = l' ++ [x].
Proof.
  intros Hx. induction l as [|[r b] l [l' IH]]; cbn [app drop_spaces].
  - destruct x as [r b]. cbn [fst] in Hx. rewrite Hx. by exists [].
  - destruct (is_space r); [by exists l'|]. by exists ((r, b) :: l).
Qed.

Lemma trim_space_letter c s : byte_of c < 128 → is_space (byte_of c) = false → trim_space (String c s) ≠ "".
Proof.
  intros Hc Hs. unfold trim_space. rewrite segs_ascii_cons by done. cbn [drop_spaces]. rewrite Hs, reverse_cons.
  destruct (drop_spaces_last (reverse (segs s)) (byte_of c, String c "") Hs) as [l' ->]. rewrite reverse_snoc. cbn. done.
Qed.

(** ** Presets *)

(** A node with the one preset there is for it. *)
Definition resolved (presets : list AgentPreset) (n m : ArrangementNode) : Prop :=
  if is_terminal n then ∃ p, List.filter (candidate n) presets = [p] ∧ m = with_preset n p else m = n.

Lemma resolve_nodes_spec presets l l' : resolve_nodes presets l = Ok l' ↔ Forall2 (resolved presets) l l'.
Proof.
  revert l'. induction l as [|n l IH]; intros l'; cbn [resolve_nodes].
  { split; [by intros [= <-]|]. by intros ->%Forall2_nil_inv_l. }
  assert (∀ m, resolve_node presets n = Ok m ↔ resolved presets n m) as Hn.
  { intros m. unfold resolve_node, resolved. destruct (is_terminal n); cbn [negb]; [|split; [by intros [= <-]|by intros ->]].
    destruct (List.filter _ _) as [|p [|q ps]]; (split; [try done|intros (p' & Hp & ->)]); [done| |by injection Hp as <-|done].
    intros [= <-]. by exists p. }
  split.
  - destruct (resolve_node presets n) as [m|]; [|done]. destruct (resolve_nodes presets l) as [ms|]; [|done]. intros [= <-].
    constructor; [by apply Hn|by apply IH].
  - intros (m & ms & Hm & Hms & ->)%Forall2_cons_inv_l. apply Hn in Hm as ->. apply IH in Hms as ->. done.
Qed.

Section Presets.
Context {P : UrlParser}.

Lemma resolved_good presets n m : resolved presets n m → NID m = NID n ∧ NKind m = NKind n ∧ (good_node n → good_node m).
Proof.
  unfold resolved. destruct (is_terminal n); [|by intros ->]. intros (p & _ & ->). split_and!; [done|done|]. intros [H1 H2 H3 H4 H5 H6]. by split.
Qed.

Lemma ResolvePresets_good a presets a' : good_arrangement a → ResolvePresets a presets = Ok a' → good_arrangement a'.
Proof.
  unfold ResolvePresets. destruct (resolve_nodes presets (Nodes a)) as [l|] eqn:Hl; [|done]. intros [H1 H2 H3 H4 H5] [= <-].
  apply resolve_nodes_spec in Hl. assert (map NID l = map NID (Nodes a)) as Hids.
  { clear -P Hl. induction Hl as [|n m l l' Hn _ IH]; [done|]. cbn [map]. apply resolved_good in Hn as (-> & _). by rewrite IH. }
  split; cbn [with_nodes ArName Nodes Connections]; [done| | | |].
  - by rewrite <-(Forall2_length _ _ _ Hl).
  - by rewrite Hids.
  - clear -P Hl H4. induction Hl as [|n m l l' Hn _ IH]; [constructor|]. apply Forall_cons in H4 as [Hg H4].
    constructor; [apply resolved_good in Hn as (_ & _ & Hn); by apply Hn|by apply IH].
  - by rewrite Hids.
Qed.
End Presets.

(** ** The arrangement of an export *)

Section Export.
Context {P : UrlParser} (id : string) (a : Arrangement).

Definition read_back : Arrangement :=
  mkArrangement id ("Relay · " +:+ ArName a) (Description a) "" "" (map (reread id) (Nodes a))
    (map (reread_conn id (Nodes a))
      (toward (Nodes a) "terminal" (Connections a) ++ toward (Nodes a) "note" (Connections a) ++ toward (Nodes a) "portal" (Connections a))).

(** No two identifiers of the export have the same hash. *)
Definition collision_free : Prop :=
  NoDup (map (λ n, node_id id (NID n)) (Nodes a)) ∧ NoDup (map (λ n, term_id id (NID n)) (Nodes a)) ∧ NoDup (map (λ n, role_id id (NID n)) (Nodes a)).

Context (Hgood : good_arrangement a).

Lemma by_id_in x : x ∈ map NID (Nodes a) → by_id (Nodes a) x ∈ Nodes a ∧ NID (by_id (Nodes a) x) = x.
Proof.
  intros (n & -> & Hn)%list_elem_of_fmap. unfold by_id.
  rewrite (map_of_fields_lookup _ (NID n) n); [done| |].
  - rewrite <-list_fmap_compose. exact (ga_ids a Hgood).
  - by apply (list_elem_of_fmap_2 (λ n, (NID n, n))).
Qed.

Lemma node_kind n : n ∈ Nodes a → known_kind n.
Proof.
  intros Hn. pose proof (ga_nodes a Hgood) as H. rewrite Forall_forall in H. destruct (gn_kind n (H n Hn)) as [[H1 _]|[H1|[H1 _]]]; unfold known_kind; auto.
Qed.

(** The two ends of a connection, whichever comes first. *)
Lemma ends_spec c : c ∈ Connections a → let '(f, t) := ends (Nodes a) c in
  f ∈ Nodes a ∧ t ∈ Nodes a ∧ (NID f = From c ∧ NID t = To c ∨ NID f = To c ∧ NID t = From c).
Proof.
  intros Hc. destruct (sg_ends _ _ (ga_graph a Hgood) c Hc) as (Hf & Ht & _).
  destruct (by_id_in _ Hf) as [Hf1 Hf2]. destruct (by_id_in _ Ht) as [Ht1 Ht2]. unfold ends, oriented. destruct (_ && _); auto.
Qed.

Lemma toward_perm l : Forall (λ c, known_kind (ends (Nodes a) c).2) l →
  toward (Nodes a) "terminal" l ++ toward (Nodes a) "note" l ++ toward (Nodes a) "portal" l ≡ₚ l.
Proof.
  induction 1 as [|c l Hc _ IH]; [done|]. unfold toward, kind_is in *. cbn [List.filter].
  destruct Hc as [Hc|[Hc|Hc]]; rewrite Hc; cbn [String.eqb Ascii.eqb Bool.eqb app]; (etransitivity; [|by apply perm_skip, IH]).
  - done.
  - symmetry. apply Permutation_middle.
  - rewrite !app_assoc. symmetry. apply Permutation_middle.
Qed.

(** A connection as the set of its ends. *)
Definition pair_set (c : ArrangementConnection) : gset string := {[From c; To c]}.

Lemma pair_set_eq (p q x y : string) : ({[p; q]} : gset string) = {[x; y]} → p = x ∧ q = y ∨ p = y ∧ q = x.
Proof. intros E. assert (p ∈ ({[x; y]} : gset string)) by (rewrite <-E; set_solver). assert (q ∈ ({[x; y]} : gset string)) by (rewrite <-E; set_solver).
  assert (x ∈ ({[p; q]} : gset string)) by (rewrite E; set_solver). assert (y ∈ ({[p; q]} : gset string)) by (rewrite E; set_solver). set_solver. Qed.

(** The connections of a simple graph are different sets. *)
Lemma simple_sets l : (∀ i j c d, l !! i = Some c → l !! j = Some d → i ≠ j →
    ¬ (From c = From d ∧ To c = To d) ∧ ¬ (From c = To d ∧ To c = From d)) ↔ NoDup (map pair_set l).
Proof.
  rewrite NoDup_alt. split.
  - intros H i j s (c & -> & Hi)%list_lookup_fmap_Some (d & E & Hj)%list_lookup_fmap_Some. destruct (decide (i = j)) as [|Hij]; [done|].
    destruct (H i j c d Hi Hj Hij) as [H1 H2]. unfold pair_set in E. apply pair_set_eq in E. tauto.
  - intros H i j c d Hi Hj Hij. assert (pair_set c ≠ pair_set d) as Hne.
    { intros E. apply Hij. apply (H i j (pair_set c)); apply list_lookup_fmap_Some; [by exists c|by exists d]. }
    split; intros [E1 E2]; apply Hne; unfold pair_set; rewrite E1, E2; [done|apply (comm_L (∪))].
Qed.

Lemma node_id_inj n m : collision_free → n ∈ Nodes a → m ∈ Nodes a → node_id id (NID n) = node_id id (NID m) → NID n = NID m.
Proof.
  intros (Hnd & _ & _) Hn Hm E. apply list_elem_of_lookup in Hn as [i Hi]. apply list_elem_of_lookup in Hm as [j Hj].
  assert (i = j) as <-; [|by rewrite Hi in Hj; injection Hj as ->].
  apply (proj1 (NoDup_alt _) Hnd i j (node_id id (NID n))); apply list_lookup_fmap_Some; [by exists n|exists m; by rewrite E].
Qed.

Lemma reread_good n : good_node n → good_node (reread id n).
Proof.
  intros [H1 H2 H3 H4 H5 H6]. assert (known_kind n) as Hk. { destruct H6 as [[? _]|[?|[? _]]]; unfold known_kind; auto. }
  unfold reread, is_terminal, kind_is. destruct Hk as [Hk|[Hk|Hk]]; rewrite Hk; cbn [String.eqb Ascii.eqb Bool.eqb];
    split; cbn; try done; try apply stableID_valid; try (change (len "") with 0; lia).
  - left. split; [done|]. destruct H6 as [[_ H6]|[H6|[H6 _]]]; [exact H6|congruence..].
  - right. by left.
  - right. right. split; [done|]. destruct H6 as [[? _]|[?|[_ H6]]]; [congruence..|done].
Qed.

Lemma reread_id n : NID (reread id n) = node_id id (NID n).
Proof. unfold reread. by destruct (is_terminal n), (kind_is "note" n). Qed.

(** What is read back is well-formed again. *)
Lemma read_back_good : collision_free → len (ArName a) ≤ 191 → good_arrangement read_back.
Proof.
  intros Hfree Hlen. pose proof Hgood as [[Hname _] [Hn Hc] Hids Hnodes Hgraph].
  set (conns := toward (Nodes a) "terminal" (Connections a) ++ toward (Nodes a) "note" (Connections a) ++ toward (Nodes a) "portal" (Connections a)).
  assert (conns ≡ₚ Connections a) as Hperm.
  { apply toward_perm, Forall_forall. intros c Hin. pose proof (ends_spec c Hin) as He. destruct (ends (Nodes a) c) as [f t]. cbn. by apply node_kind, He. }
  assert (map NID (map (reread id) (Nodes a)) = map (λ n, node_id id (NID n)) (Nodes a)) as Hids'.
  { rewrite map_map. apply map_ext, reread_id. }
  split; cbn [read_back ArName Nodes Connections].
  - split; [by apply trim_space_letter|]. unfold len in *. rewrite str_length_app. cbn [String.length]. lia.
  - rewrite !length_map. fold conns. by rewrite (Permutation_length Hperm).
  - rewrite Hids'. apply Hfree.
  - apply Forall_map. eapply Forall_impl; [exact Hnodes|]. intros n. apply reread_good.
  - fold conns. rewrite Hids'. split.
    + intros d (c & -> & Hin)%list_elem_of_fmap. rewrite Hperm in Hin. pose proof (ends_spec c Hin) as He.
      destruct (sg_ends _ _ Hgraph c Hin) as (_ & _ & Hne). unfold reread_conn. destruct (ends (Nodes a) c) as [f t] eqn:E. cbn [From To fst snd].
      destruct He as (Hf & Ht & He). split_and!; [by apply (list_elem_of_fmap_2 (λ n, node_id id (NID n)))|by apply (list_elem_of_fmap_2 (λ n, node_id id (NID n)))|].
      intros Eid. apply node_id_inj in Eid; [|done..]. destruct He as [[? ?]|[? ?]]; congruence.
    + apply simple_sets. destruct Hgraph as [_ Hs]. apply simple_sets in Hs.
      assert (NoDup (map pair_set conns)) as Hnd. { change (NoDup (pair_set <$> conns)). rewrite Hperm. exact Hs. }
      rewrite map_map. apply NoDup_alt. rewrite NoDup_alt in Hnd.
      intros i j s (c & -> & Hi)%list_lookup_fmap_Some (d & E & Hj)%list_lookup_fmap_Some.
      apply (Hnd i j (pair_set c)); apply list_lookup_fmap_Some; [by exists c|]. exists d. split; [|done].
      assert (c ∈ Connections a) as Hc2 by (rewrite <-Hperm; by eapply list_elem_of_lookup_2).
      assert (d ∈ Connections a) as Hd2 by (rewrite <-Hperm; by eapply list_elem_of_lookup_2).
      pose proof (ends_spec c Hc2) as Hec. pose proof (ends_spec d Hd2) as Hed. unfold reread_conn, pair_set in E |- *.
      destruct (ends (Nodes a) c) as [f t], (ends (Nodes a) d) as [f' t']. cbn [From To fst snd] in *. destruct Hec as (Hf & Ht & Hec), Hed as (Hf' & Ht' & Hed).
      assert (From c = From d ∧ To c = To d ∨ From c = To d ∧ To c = From d) as [[-> ->]|[-> ->]]; [|done|apply (comm_L (∪))].
      apply pair_set_eq in E as [[E1 E2]|[E1 E2]]; apply node_id_inj in E1, E2; try done; intuition congruence.
Qed.
End Export.

(** ** The export is read back *)

Lemma NoDup_map_filter {A B} (f : A → B) (p : A → bool) l : NoDup (map f l) → NoDup (map f (List.filter p l)).
Proof.
  induction l as [|x l IH]; cbn [map List.filter]; [done|]. intros [Hx Hl]%NoDup_cons. destruct (p x); cbn [map]; [|by apply IH].
  constructor; [|by apply IH]. intros (y & E & Hy)%list_elem_of_fmap. apply Hx. rewrite E. apply list_elem_of_fmap_2.
  apply list_elem_of_In, filter_In in Hy as [Hy _]. by apply list_elem_of_In.
Qed.

(** A table of the nodes of a kind. *)
Lemma table_lookup {A B} (k : A → string) (v : A → B) (p : A → bool) l x : NoDup (map k l) → x ∈ l → p x = true →
  map_of_fields (map (λ x, (k x, v x)) (List.filter p l)) !! k x = Some (v x).
Proof.
  intros Hl Hx Hp. apply map_of_fields_lookup.
  - rewrite <-list_fmap_compose. by apply (NoDup_map_filter k p).
  - apply (list_elem_of_fmap_2 (λ x, (k x, v x))). apply list_elem_of_In, filter_In. split; [by apply list_elem_of_In|done].
Qed.

Lemma note_terms id l terms : foldl (note_term id) terms l = foldl (λ m kv, <[kv.1 := kv.2]> m) terms (map (term_pair id) (List.filter is_terminal l)).
Proof. revert terms. induction l as [|n l IH]; intros terms; [done|]. cbn [foldl List.filter]. rewrite IH. unfold note_term. by destruct (is_terminal n). Qed.

Lemma string_map_read dec m : (∀ s, dec (JStr s) = Some s) → as_map dec (Some (string_map_json m)) = Some m.
Proof.
  intros Hdec. unfold string_map_json. cbn [as_map]. rewrite (mapM_map _ (λ kv, (kv.1, JStr kv.2)) (λ kv, kv)).
  - cbn. rewrite map_id. by rewrite map_of_sorted_fields.
  - apply Forall_forall. intros [k v] _. cbn [fst snd]. by rewrite Hdec.
Qed.

Lemma roles_read id l : as_list decode_role (Some (JArr (map (role_json id) l))) = Some (map (λ n, (role_id id (NID n), NPrompt n)) l).
Proof.
  cbn [as_list]. apply mapM_map. apply Forall_forall. intros n _. unfold decode_role, role_json. cbn [as_fields mbind option_bind]. by read_keys.
Qed.

Lemma empty_list_read {A} (dec : json → option A) : as_list dec (Some (JArr [])) = Some [].
Proof. done. Qed.

Section ReadBack.
Context {P : UrlParser}.

(** The parts of an export. *)
Lemma export_read a presets doc : good_arrangement a → export a presets = Ok doc →
  let id := stableID (export_text a (used_commands (Nodes a) presets)) in collision_free id a →
  ∃ raw, decode_partitura doc = Some raw ∧ parse_raw raw = Ok (read_back id a).
Proof.
  intros Hg Hx id (Hn & Ht & Hr). unfold export in Hx. fold id in Hx. set (commands := used_commands _ _) in *. clearbody id commands.
  destruct (export_nodes id commands 0 (Nodes a)) as [js|] eqn:Hnodes; [|done].
  destruct (export_connections id (Nodes a) (Connections a)) as [[[ts ns] ps]|] eqn:Hconns; [|done]. injection Hx as <-.
  destruct (export_nodes_read id commands (Nodes a)) with (i := 0%nat) (js := js) as (rns & Hrns & Hparse); [|done|].
  { apply Forall_forall. intros n Hin. by apply (node_kind a Hg). }
  destruct (export_connections_read id (Nodes a) (Connections a) ts ns ps) as (mt & mn & mp & Hmt & Hmn & Hmp & Hterms); [|done|].
  { apply Forall_forall. intros c Hin. pose proof (ends_spec a Hg c Hin) as He. destruct (ends (Nodes a) c) as [f t]. cbn.
    destruct He as (Hf & Hto & _). split_and!; [done|done|by apply (node_kind a Hg)]. }
  set (raw := mkRaw 1 id ("Relay · " +:+ ArName a) (Description a) (map (λ n, (role_id id (NID n), NPrompt n)) (List.filter is_terminal (Nodes a)))
    rns (note_texts id (Nodes a)) mt mn mp 0 0 0). exists raw. split.
  - unfold decode_partitura. cbn [as_fields mbind option_bind]. unfold as_struct. read_keys. rewrite roles_read. cbn [as_int mbind option_bind].
    rewrite decide_True by (by vm_compute). read_keys. cbn [as_list]. rewrite Hrns. cbn [mbind option_bind]. rewrite string_map_read by done. cbn [mbind option_bind].
    rewrite Hmt, Hmn, Hmp. done.
  - unfold parse_raw. cbn [raw FormatVersion Drawings NoteToNote PortalToPortal RRoles RNodes Z.eqb negb orb Nat.ltb Nat.leb Pos.eqb].
    rewrite Hparse.
    + unfold read_back. cbn [raw RID RName RDescription RConnections NoteConnections PortalConnections]. do 2 f_equal.
      destruct (Hterms (foldl (note_term id) ∅ (Nodes a))) as (E1 & E2 & E3).
      { intros n Hin Hterm. rewrite note_terms. exact (table_lookup (λ n, term_id id (NID n)) (λ n, node_id id (NID n)) is_terminal (Nodes a) n Ht Hin Hterm). }
      unfold term_of in *. rewrite E1, E2, E3. by rewrite !map_app.
    + apply Forall_forall. intros n Hin. split.
      * intros Hterm. exact (table_lookup (λ n, role_id id (NID n)) NPrompt is_terminal (Nodes a) n Hr Hin Hterm).
      * intros Hnote. exact (table_lookup (λ n, node_id id (NID n)) NText (kind_is "note") (Nodes a) n Hn Hin Hnote).
Qed.

(** C26: a native export of a team, read by [ParsePartitura], is the team it
    was made of: every node with its name, kind, frame and what its kind
    carries, every connection once with its terminal first, the team
    well-formed again; unless two identifiers of the export have the same
    hash or the name is too long to take the word before it. *)
Theorem native_export_read_back a0 presets doc a : NativePartitura a0 presets = Ok doc → ResolvePresets a0 presets = Ok a →
  let id := stableID (export_text a (used_commands (Nodes a) presets)) in
  collision_free id a → len (ArName a) ≤ 191 → parse_document doc = Ok (read_back id a).
Proof.
  intros Hx Ha id Hfree Hlen. unfold NativePartitura in Hx. destruct (Validate a0) eqn:Hv; [done|]. apply Validate_good in Hv. rewrite Ha in Hx.
  pose proof (ResolvePresets_good _ _ _ Hv Ha) as Hg.
  destruct (export_read a presets doc Hg Hx Hfree) as (raw & Hd & Hp). unfold parse_document. rewrite Hd, Hp. fold id.
  pose proof (read_back_good id a Hg Hfree Hlen) as Hb. apply Validate_good in Hb. by rewrite Hb.
Qed.
End ReadBack.
End Hashed.

(** A hash that is quick to evaluate: the end of the text. *)
Definition tail_hashing : Hashing := λ m, take 32 (reverse m ++ repeat 0 32).
Definition any_url : UrlParser := {| url_parse := λ _, Some (mkURL "https" "host" false) |}.
Definition sample_presets : list AgentPreset := [mkAgentPreset "p1" "Claude" "claude" "claude" true].
Definition sample_node (id kind prompt text url : string) : ArrangementNode :=
  mkNode id kind ("n " +:+ id) "" "" prompt text url false (float_of_decimal false 15 (-1)) (float64_of 20) (float64_of 640) (float64_of 480).
Definition sample_team : Arrangement :=
  mkArrangement "t" "Time" "dois agentes" "" ""
    [sample_node "a" "terminal" "coordena" "" ""; sample_node "n" "note" "" "leia" ""; sample_node "b" "terminal" "escreve" "" "";
     sample_node "w" "portal" "" "" "https://host"]
    [mkConn "n" "a"; mkConn "a" "b"; mkConn "b" "w"].
Definition sample_export : result json := NativePartitura (H := tail_hashing) (P := any_url) sample_team sample_presets.
Definition sample_resolved : Arrangement := match ResolvePresets sample_team sample_presets with Ok a => a | Err _ => sample_team end.

Lemma native_export_read_back_witness :
  ∃ doc, sample_export = Ok doc
    ∧ let id := stableID (H := tail_hashing) (export_text sample_resolved (used_commands (Nodes sample_resolved) sample_presets)) in
      parse_document (P := any_url) doc = Ok (read_back (Hsh := tail_hashing) id sample_resolved).
Proof.
  destruct sample_export as [doc|] eqn:E; [|by vm_compute in E]. exists doc. split; [done|].
  refine (native_export_read_back (Hsh := tail_hashing) (P := any_url) sample_team sample_presets doc sample_resolved E _ _ _); [by vm_compute| |by vm_compute].
  unfold collision_free. split_and!; apply (bool_decide_unpack _); vm_compute; exact I.
Defined.
