(* ===== verification/Catalog.v ===== *)
(** internal/adapters/maestri/catalog.go: the catalog of example arrangements,
    read from a directory and synchronised from the archive of the guide.

    The directory, the download and the archive are questions to the outside:
    a walk is the list of the entries it meets, in order; an archive is the
    list of its files. *)
From S2P Require Import Prelude GoStrings Errors Paths Eff Json JsonText RelayDomain RelayJson Encoding Partitura.

Local Open Scope Z_scope.

(** An entry of a walk, by its slash-separated path under the root, and the
    error the walk met there. *)
Record walked := mkWalked { Rel : string; WalkErr : option error; WIsDir : bool; WIsLink : bool }.
(** A file of an archive. *)
Record zfile := mkZFile { ZName : string; ZIsDir : bool; ZIsLink : bool; UncompressedSize : Z }.

Inductive catalogE : Type → Type :=
  | CWalk (dir : string) : catalogE (list walked)
  | CSize (dir rel : string) : catalogE (result Z)
  | CReadFile (dir rel : string) : catalogE (result string)
  | CGet (url : string) : catalogE (result (Z * result string))   (* status and body *)
  | CUnzip (data : string) : catalogE (result (list zfile))
  | COpen (name : string) : catalogE (result string)               (* the data of a file of the archive *)
  | CMkdirAll (dir : string) (mode : Z) : catalogE (option error)
  | CStat (path : string) : catalogE (option error)
  | CMkdirTemp (dir : string) : catalogE (result string)
  | CWriteFile (path data : string) : catalogE (option error)
  | CRemoveAll (path : string) : catalogE unit
  | CRename (from to : string) : catalogE (option error).

Definition partituraSuffix : string := ".maestripartitura".
Definition recipe_prefixes : list string := ["receitas/"; "roles/"; "notas/"; "instrucoes/"; "prompts/"; "temas/"; "workspaces/"].
Definition isRecipe (path : string) : bool := existsb (has_prefix path) recipe_prefixes.
Definition wanted (path : string) : bool := has_suffix path partituraSuffix || isRecipe path.

Local Open Scope eff_scope.
Local Notation prog := (prog catalogE unit).

(** ** LoadCatalog *)

Definition with_source (a : Arrangement) (source : string) : Arrangement :=
  mkArrangement (ArID a) (ArName a) (Description a) source GuideRevision (Nodes a) (Connections a).

Definition recipe {H : Hashing} (rel text : string) : Arrangement :=
  let name := trim_suffix rel (Ext rel) in
  mkArrangement (stableID rel) name "Exemplo do guia como nota de referência; comandos não são executados." "" ""
    [mkNode "reference" "note" name "" "" "" text "" false (float64_of 100) (float64_of 100) (float64_of 640) (float64_of 480)] [].

Section Catalog.
Context {P : UrlParser} {H : Hashing}.

(** The arrangement of a file. *)
Definition read_entry (rel text : string) : result Arrangement :=
  let a := if has_suffix rel partituraSuffix then
             match ParsePartitura text with Ok a => Ok a | Err e => Err (Errorf "%s: %w" [rel] [e]) end
           else if 100000 <? len text then Err (Errorf "receita grande demais: %s" [rel] [])
           else Ok (recipe rel text) in
  match a with
  | Err e => Err e
  | Ok a =>
    let a := with_source a (GuideURL +:+ "/blob/" +:+ GuideRevision +:+ "/" +:+ rel) in
    match Validate a with Some e => Err (Errorf "%s: %w" [rel] [e]) | None => Ok a end
  end.

(** The callback of the walk, entry by entry. *)
Definition max_entry : Z := 16777216.
Fixpoint load_entries (dir : string) (l : list walked) : prog (result (list Arrangement)) :=
  match l with
  | [] => Ret (Ok [])
  | w :: l =>
    match WalkErr w with
    | Some e => Ret (Err e)
    | None =>
      if WIsDir w then load_entries dir l
      else if WIsLink w then Ret (Err (Opaque "catálogo não aceita links simbólicos"))
      else if negb (wanted (Rel w)) then load_entries dir l
      else
        do s ← call (CSize dir (Rel w));
        match s with
        | Err e => Ret (Err e)
        | Ok size =>
          if max_entry <? size then Ret (Err (Errorf "entrada grande demais: %s" [Rel w] []))
          else
            do t ← call (CReadFile dir (Rel w));
            match t with
            | Err e => Ret (Err e)
            | Ok text =>
              match read_entry (Rel w) text with
              | Err e => Ret (Err e)
              | Ok a => do rest ← load_entries dir l; Ret (match rest with Ok l => Ok (a :: l) | Err e => Err e end)
              end
            end
        end
    end
  end.

(** [sort.Slice] by name; entries of one name stay in the order of the walk. *)
Fixpoint insert_name (a : Arrangement) (l : list Arrangement) : list Arrangement :=
  match l with
  | [] => [a]
  | b :: l' => if str_le (ArName a) (ArName b) then a :: l else b :: insert_name a l'
  end.
Definition sort_names (l : list Arrangement) : list Arrangement := foldr insert_name [] l.

Fixpoint duplicate_id (ids : gset string) (l : list Arrangement) : option string :=
  match l with
  | [] => None
  | a :: l => if bool_decide (ArID a ∈ ids) then Some (ArID a) else duplicate_id ({[ArID a]} ∪ ids) l
  end.

Definition LoadCatalog (dir : string) : prog (result (list Arrangement)) :=
  do l ← call (CWalk dir);
  do r ← load_entries dir l;
  Ret (match r with
       | Err e => Err e
       | Ok [] => Err (Opaque "catálogo vazio; execute catalog-sync")
       | Ok entries =>
         let entries := sort_names entries in
         match duplicate_id ∅ entries with
         | Some id => Err (Errorf "ID duplicado no catálogo: %s" [id] [])
         | None => Ok entries
         end
       end).

(** ** List and Get *)

Definition List_ (entries : list Arrangement) : list Arrangement := entries.

Definition zero_arrangement : Arrangement := mkArrangement "" "" "" "" "" [] [].
(** The copy goes through JSON. *)
Definition copied (a : Arrangement) : Arrangement :=
  match Marshal (arrangement_json a) with
  | Some text => match Unmarshal text with Some j => default zero_arrangement (decode_arrangement false j) | None => zero_arrangement end
  | None => zero_arrangement
  end.
Definition Get (entries : list Arrangement) (id : string) : result Arrangement :=
  match List.find (λ a, String.eqb (ArID a) id) entries with
  | Some a => Ok (copied a)
  | None => Err (Opaque "partitura não encontrada")
  end.

(** ** SyncCatalog *)

(** [fs.ValidPath]. *)
Definition ValidPath (name : string) : bool :=
  String.eqb (string_of_runes (runes name)) name && (String.eqb name "." || forallb valid_element (split_char slash name)).

Definition guide_archive : string := "https://codeload.github.com/arthurspk/guiadomaestri/zip/" +:+ GuideRevision.
Definition max_archive : Z := 67108864.
Definition max_total : Z := 134217728.

(** A file of the archive, its top directory cut off. *)
Definition inner_name (f : zfile) : option string :=
  match str_cut (ZName f) slash_str with
  | Some (_, name) => if String.eqb name "" || ZIsDir f then None else Some name
  | None => None
  end.

Fixpoint unpack (tmp : string) (total : Z) (l : list zfile) : prog (option error) :=
  match l with
  | [] => nil_
  | f :: l =>
    match inner_name f with
    | None => unpack tmp total l
    | Some name =>
      if negb (ValidPath name) || contains name backslash || ZIsLink f then fail (Opaque "caminho inseguro no pacote do guia")
      else
        let total := (total + UncompressedSize f) mod 2 ^ 64 in
        if (max_total <? total) || (max_entry <? UncompressedSize f) then fail (Opaque "conteúdo descompactado excede limite")
        else if negb (wanted name) then unpack tmp total l
        else
          do d ← call (COpen (ZName f));
          match d with
          | Err e => fail e
          | Ok data =>
            if max_entry <? len data then fail (Opaque "entrada grande demais")
            else
              must call (CMkdirAll (Dir (Join [tmp; name])) 448);
              must call (CWriteFile (Join [tmp; name]) data);
              unpack tmp total l
          end
    end
  end.

Definition SyncCatalog (dir : string) : prog (option error) :=
  do r ← call (CGet guide_archive);
  match r with
  | Err _ => fail (Opaque "download do guia falhou")
  | Ok (status, body) =>
    if negb (status =? 200) then fail (Errorf "download do guia: HTTP %d" [itoa status] [])
    else
      match body with
      | Err e => fail e
      | Ok b =>
        if max_archive <? len b then fail (Opaque "arquivo do guia excede 64 MiB")
        else
          do z ← call (CUnzip b);
          match z with
          | Err e => fail e
          | Ok files =>
            must call (CMkdirAll dir 448);
            let destination := Join [dir; GuideRevision] in
            do s ← call (CStat destination);
            match s with
            | None => do c ← LoadCatalog destination; Ret (match c with Ok _ => None | Err e => Some e end)
            | Some _ =>
              do t ← call (CMkdirTemp dir);
              match t with
              | Err e => fail e
              | Ok tmp =>
                do e ← (must unpack tmp 0 files;
                        do c ← LoadCatalog tmp;
                        match c with
                        | Err e => fail e
                        | Ok _ => call (CRename tmp destination)
                        end);
                do _ ← call (CRemoveAll tmp);
                Ret e
              end
            end
          end
      end
  end.
End Catalog.

(** * Theorems about Catalog.v: where a synchronisation writes. *)
Section Sync.
Context {P : UrlParser} {Hsh : Hashing} (dir : string).

(** [made] holds of the temporary directories the system makes: each is a
    clean rooted path. *)
Context (made : string → Prop).
Definition makes (h : list (event catalogE)) (B : Type) (o : catalogE B) (b : B) : Prop :=
  match o in catalogE B return B → Prop with
  | CMkdirTemp _ => λ r, match r with Ok tmp => made tmp ∧ clean_path tmp | Err _ => True end
  | _ => λ _, True
  end b.

(** The entries of the guide that are taken. *)
Definition safe_name (name : string) : Prop := ValidPath name = true ∧ wanted name = true.

Definition confined {B} (o : catalogE B) : Prop :=
  match o with
  | CWriteFile path data => ∃ tmp name, made tmp ∧ safe_name name ∧ path = tmp +:+ slash_str +:+ name ∧ len data ≤ max_entry
  | CRename from to => made from ∧ to = Join [dir; GuideRevision]
  | CRemoveAll path => made path
  | CMkdirTemp parent => parent = dir
  | _ => True
  end.
Definition confined_event (ev : event catalogE) : Prop := match ev with Ev o _ => confined o end.
Definition contained (w : world catalogE unit) : Prop := Forall confined_event (trace w).

Local Abbreviation wpm := (wp makes).

Lemma wp_confined {A B} (o : catalogE B) (k : B → prog A) (w : world catalogE unit) Q : contained w → confined o →
  (∀ b, makes (trace w) B o b → contained (told o b w) → wpm (k b) (told o b w) Q) → wpm (bind (call o) k) w Q.
Proof. intros Hw Ho Hk. apply wp_ask. intros b Hb. apply Hk; [done|]. by constructor. Qed.

Lemma wp_load_entries d l (w : world catalogE unit) : contained w → wpm (load_entries d l) w (λ _ w', contained w').
Proof.
  revert w. induction l as [|x l IH]; intros w Hw; [done|]. cbn [load_entries]. destruct (WalkErr x); [done|].
  destruct (WIsDir x); [by apply IH|]. destruct (WIsLink x); [done|]. destruct (negb _); [by apply IH|].
  apply wp_confined; [done..|]. intros [size|e] _ Hw1; [|done]. destruct (_ <? _); [done|].
  apply wp_confined; [done..|]. intros [text|e] _ Hw2; [|done]. destruct (read_entry _ _); [|done].
  apply wp_bind. eapply wp_mono; [|by apply IH]. by intros r w3 Hw3.
Qed.

Lemma wp_LoadCatalog d (w : world catalogE unit) : contained w → wpm (LoadCatalog d) w (λ _ w', contained w').
Proof.
  intros Hw. apply wp_confined; [done..|]. intros l _ Hw1. apply wp_bind. eapply wp_mono; [|by apply wp_load_entries]. by intros r w3 Hw3.
Qed.

Lemma valid_path_elements name : ValidPath name = true → name ≠ "." → Forall (λ e, valid_element e = true) (split_char slash name).
Proof.
  unfold ValidPath. rewrite andb_true_iff, orb_true_iff, !String.eqb_eq. intros [_ [H|H]] Hne; [done|].
  apply Forall_forall. intros e He. rewrite forallb_forall in H. by apply H, list_elem_of_In.
Qed.

Lemma wp_unpack tmp total l (w : world catalogE unit) : made tmp → clean_path tmp → contained w → wpm (unpack tmp total l) w (λ _ w', contained w').
Proof.
  intros Hm Hc. revert total w. induction l as [|f l IH]; intros total w Hw; [done|]. cbn [unpack].
  destruct (inner_name f) as [name|]; [|by apply IH]. destruct (ValidPath name) eqn:Hv; [|done]. cbn [negb orb].
  destruct (contains name backslash || ZIsLink f); [done|]. destruct (_ || _); [done|]. destruct (wanted name) eqn:Hwant; [|by apply IH]. cbn [negb].
  apply wp_confined; [done..|]. intros [data|e] _ Hw1; [|done]. destruct (Z.ltb_spec max_entry (len data)); [done|].
  apply wp_confined; [done..|]. intros [e|] _ Hw2; [done|].
  apply wp_confined; [done| |].
  { exists tmp, name. split_and!; [done|by split| |lia]. apply join_below; [done|]. apply valid_path_elements; [done|]. by intros ->. }
  intros [e|] _ Hw3; [done|]. by apply IH.
Qed.

(** C25: whatever the archive of the guide holds, a synchronisation writes
    only files below a temporary directory it had made in the catalog, under
    names without [..] elements, each within the limit for an entry; it moves
    only such a directory into the catalog, as the revision of the guide, and
    removes nothing else. *)
Theorem sync_confined (w : world catalogE unit) r w' : contained w → exec makes (SyncCatalog dir) w r w' → contained w'.
Proof.
  intros Hw He. enough (wpm (SyncCatalog dir) w (λ _ w', contained w')) as H by exact (wp_exec He H). clear He r w'.
  apply wp_confined; [done..|]. intros [[status body]|e] _ Hw1; [|done]. destruct (negb _); [done|]. destruct body as [b|e]; [|done].
  destruct (_ <? _); [done|]. apply wp_confined; [done..|]. intros [files|e] _ Hw2; [|done].
  apply wp_confined; [done..|]. intros [e|] _ Hw3; [done|]. apply wp_confined; [done..|]. intros [e|] _ Hw4.
  - apply wp_confined; [done..|]. intros [tmp|e'] Hmk Hw5; [destruct Hmk as [Hm Hc]|done]. apply wp_bind.
    eapply wp_mono; [intros e2 w6 Hw6; apply wp_confined; [exact Hw6|exact Hm|]; intros b2 _ Hw7; exact Hw7|].
    apply wp_must. eapply wp_mono; [|by apply wp_unpack]. intros [e2|] w6 Hw6; [done|].
    apply wp_bind. eapply wp_mono; [|by apply wp_LoadCatalog]. intros [c|e2] w7 Hw7; [|done].
    intros b2 _. by constructor.
  - apply wp_bind. eapply wp_mono; [|by apply wp_LoadCatalog]. by intros [c|e2] w7 Hw7.
Qed.
End Sync.

(** An archive with one recipe, and one with a path that climbs. *)
Definition sample_guide (name : string) : oracle (E := catalogE) := λ B o _,
  match o in catalogE B return B with
  | CWalk _ => [mkWalked "notas/leia.md" None false false]
  | CSize _ _ => Ok 4
  | CReadFile _ _ => Ok "leia"
  | CGet _ => Ok (200, Ok "zip")
  | CUnzip _ => Ok [mkZFile "guia/" true false 0; mkZFile ("guia/" +:+ name) false false 4]
  | COpen _ => Ok "leia"
  | CMkdirAll _ _ => None
  | CStat _ => Some (Foreign ErrNotExist)
  | CMkdirTemp _ => Ok "/c/.download-1"
  | CWriteFile _ _ => None
  | CRemoveAll _ => tt
  | CRename _ _ => None
  end.

Definition sync_sample (name : string) : option error * world catalogE unit :=
  interp (sample_guide name) (SyncCatalog (P := any_url) (H := tail_hashing) "/c") (mkWorld tt []).

Lemma sync_confined_witness :
  (sync_sample "notas/leia.md").1 = None
  ∧ (sync_sample "notas/../../x").1 = Some (Opaque "caminho inseguro no pacote do guia")
  ∧ contained "/c" (λ tmp, tmp = "/c/.download-1") (sync_sample "notas/leia.md").2.
Proof.
  split; [by vm_compute|]. split; [by vm_compute|].
  refine (sync_confined (P := any_url) (Hsh := tail_hashing) "/c" (λ tmp, tmp = "/c/.download-1") (mkWorld tt []) (sync_sample "notas/leia.md").1 _ _ _); [constructor|].
  apply (interp_exec (makes (λ tmp, tmp = "/c/.download-1")) (sample_guide "notas/leia.md")). intros h B o. destruct o; try exact I.
  split; [reflexivity|]. exists ["c"; ".download-1"]. split; [discriminate|]. split; [repeat constructor|reflexivity].
Defined.
