(* ===== verification/RelayCli.v ===== *)
(** The command line of the relay: internal/cli/relay.go and
    internal/compose/relay.go.

    A command runs the programs of the Wire client, the catalog, the planner
    and the stores, each with its own port and part of the state. Building the
    relay, its deployment and its loop (RelayProg.v has their programs) are
    questions here, as the bot is. *)
From S2P Require Import Prelude GoStrings Errors Paths Json JsonText Encoding Eff.
From S2P Require Import Files Stores RelayDomain RelayJson MaestriClient Partitura Catalog Planner.

Local Open Scope Z_scope.

(** What a client has learned of its host, and the pid the lock recorded. *)
Record Shop := mkShop { host : WireInfo; lock : Z }.

Inductive relE : Type → Type :=
  | LWire (c : Client) {B} (o : wireE B) : relE B
  | LCatalog {B} (o : catalogE B) : relE B
  | LPlanner (p : Planner) {B} (o : plannerE B) : relE B
  | LFile {B} (o : fsE B) : relE B
  | LOut (text : string) : relE unit
  | LErrOut (text : string) : relE unit
  | LScan : relE (option string)                              (* a line of standard input *)
  | LGetenv (name : string) : relE string
  | LHome : relE (result string)
  | LGetpid : relE Z
  | LNewRelay (cfg : RelayConfig) : relE (option error)       (* the state of the relay, loaded and checked *)
  | LDeploy (job : string) (plan : MaestroPlan) : relE (result (string + json))
  | LConnect (cfg : RelayConfig) : relE (option error)        (* telegram.ConnectRelay *)
  | LServe : relE (option error).                             (* the loop of the relay and the poller *)

Local Open Scope eff_scope.

(** ** The flags of a command *)

(** [flag.FlagSet.Parse] of flags that take a string: the values set, in
    order, and what is left of the arguments. *)
Definition flag_names : list string := ["config"; "out"; "request"; "template"; "workspace"; "floor"; "plan"; "job"; "query"].
Inductive parsed := Parsed (values : list (string * string)) (rest : list string) | FlagHelp | FlagError (e : error).
Definition set_flag (name value : string) (p : parsed) : parsed :=
  match p with Parsed l rest => Parsed ((name, value) :: l) rest | p => p end.

Definition flag_error (format : string) (name : string) : parsed := FlagError (Errorf format [name] []).
(** The name of a flag and its value, if it is given with it. *)
Definition split_flag (name : string) : string * option string :=
  match name with
  | String c name' => match str_cut name' "=" with
                      | Some (n, v) => (String c n, Some v)
                      | None => (name, None)
                      end
  | EmptyString => ("", None)
  end.

Fixpoint parse_flags (args : list string) : parsed :=
  match args with
  | [] => Parsed [] []
  | s :: rest =>
    if (len s <? 2) || negb (has_prefix s "-") then Parsed [] (s :: rest)
    else if String.eqb s "--" then Parsed [] rest
    else
      let name := if has_prefix s "--" then trim_prefix s "--" else trim_prefix s "-" in
      if String.eqb name "" || has_prefix name "-" || has_prefix name "=" then flag_error "bad flag syntax: %s" s
      else
        let '(name, value) := split_flag name in
        if negb (existsb (String.eqb name) flag_names)
        then if String.eqb name "help" || String.eqb name "h" then FlagHelp
             else flag_error "flag provided but not defined: -%s" name
        else
          match value with
          | Some v => set_flag name v (parse_flags rest)
          | None => match rest with
                    | v :: rest => set_flag name v (parse_flags rest)
                    | [] => flag_error "flag needs an argument: -%s" name
                    end
          end
  end.

(** The last value given wins. *)
Definition flag_value (name def : string) (values : list (string * string)) : string :=
  default def (snd <$> List.find (λ kv, String.eqb kv.1 name) (reverse values)).

(** ** The configuration *)

Definition config_fields : list string :=
  ["wireURL"; "wirePin"; "chatID"; "operators"; "observers"; "workspaces"; "stateDir"; "catalogDir"; "pollSeconds"; "llmURL"; "llmModel"].
Definition decode_relay_config (j : json) : option RelayConfig :=
  fs ← struct_fields true config_fields j;
  url ← as_string (struct_field "wireURL" fs); pin ← as_string (struct_field "wirePin" fs); chat ← as_int (struct_field "chatID" fs);
  operators ← as_ints (struct_field "operators" fs); observers ← as_ints (struct_field "observers" fs);
  workspaces ← as_strings (struct_field "workspaces" fs); state ← as_string (struct_field "stateDir" fs);
  catalog ← as_string (struct_field "catalogDir" fs); poll ← as_int (struct_field "pollSeconds" fs);
  llm ← as_string (struct_field "llmURL" fs); model ← as_string (struct_field "llmModel" fs);
  Some (mkRelayConfig url pin "" "" chat operators observers workspaces state catalog poll llm model "").

(** [init]: a nil slice of observers, empty slices else. *)
Definition initial_config (home : string) : json :=
  JObj [("wireURL", JStr "https://127.0.0.1:7434"); ("wirePin", JStr ""); ("chatID", JInt 0); ("operators", JArr []); ("observers", JNull);
        ("workspaces", JArr []); ("stateDir", JStr (Join [home; ".local"; "state"; "maestri-relay"]));
        ("catalogDir", JStr (Join [home; ".cache"; "maestri-relay"; "guide"])); ("pollSeconds", JInt 5); ("llmURL", JStr ""); ("llmModel", JStr "")].

Definition with_secrets (cfg : RelayConfig) (bot wire llm : string) : RelayConfig :=
  mkRelayConfig (WireURL cfg) (WirePin cfg) wire bot (RChatID cfg) (Operators cfg) (Observers cfg) (RelayDomain.Workspaces cfg) (StateDir cfg)
    (CatalogDir cfg) (PollSeconds cfg) (LLMURL cfg) (LLMModel cfg) llm.

(** [filepath.IsAbs] on Unix. *)
Definition IsAbs (path : string) : bool := has_prefix path "/".

Section RelayCli.
Context {U : UnicodeTables} {P : UrlParser} {O : UrlOrigin} {H : Hashing}.
Local Notation prog := (prog relE Shop).

Definition say {B} (o : relE B) : prog B := call o.
Definition println (text : string) : prog unit := say (LOut (text +:+ nl)).
Definition nothing (msg : string) : prog (option error) := fail (Opaque msg).

(** The programs of the parts. *)
Definition set_host (i : WireInfo) (s : Shop) : Shop := mkShop i (lock s).
Definition set_lock (pid : Z) (s : Shop) : Shop := mkShop (host s) pid.
Definition wire {A} (c : Client) (p : Eff.prog wireE WireInfo A) : prog A :=
  zoom host (λ s i, set_host i s) (embed (λ B o, LWire c o) p).
Definition locking {A} (p : Eff.prog fsE Z A) : prog A := zoom lock (λ s i, set_lock i s) (embed (λ B o, LFile o) p).
Definition none_of {S} (s : S) : unit := tt.
Definition catalog {A} (p : Eff.prog catalogE unit A) : prog A := zoom none_of (λ s _, s) (embed (λ B o, LCatalog o) p).
Definition planner {A} (pl : Planner) (p : Eff.prog plannerE unit A) : prog A := zoom none_of (λ s _, s) (embed (λ B o, LPlanner pl o) p).
Definition file {B} (o : fsE B) : prog B := say (LFile o).
Definition RelayWrite (path data : string) : prog (option error) := embed (λ B o, LFile o) (SaveRelay path data).

Definition loadRelayConfig (path : string) : prog (result RelayConfig) :=
  do r ← file (FReadFile path);
  match r with
  | Err e => Ret (Err e)
  | Ok text =>
    match (match read_value (S (String.length text)) text with Some (j, _) => decode_relay_config j | None => None end) with
    | None => Ret (Err json_error)
    | Some cfg =>
      if String.eqb (StateDir cfg) "" || String.eqb (CatalogDir cfg) "" || negb (IsAbs (StateDir cfg)) || negb (IsAbs (CatalogDir cfg))
      then Ret (Err (Opaque "stateDir e catalogDir precisam ser caminhos absolutos"))
      else
        do bot ← say (LGetenv "TELEGRAM_BOT_TOKEN");
        do tok ← say (LGetenv "MAESTRI_WIRE_TOKEN");
        do llm ← say (LGetenv "MAESTRI_LLM_KEY");
        if negb (String.eqb tok "") then Ret (Ok (with_secrets cfg bot tok llm))
        else
          do r ← file (FReadFile (Join [StateDir cfg; "wire-token"]));
          Ret (match r with
               | Ok text => Ok (with_secrets cfg bot (trim_space text) llm)
               | Err e => if is_foreign e ErrNotExist then Ok (with_secrets cfg bot "" llm) else Err e
               end)
    end
  end.

(** ** compose/relay.go *)

(** A new client knows nothing of its host. *)
Definition RelayWire (cfg : RelayConfig) : prog (result Client) :=
  do _ ← modify (set_host zero_info); Ret (New (WireURL cfg) (WirePin cfg) (WireToken cfg)).
Definition RelayCatalog (cfg : RelayConfig) : prog (result (list Arrangement)) := catalog (LoadCatalog (Join [CatalogDir cfg; GuideRevision])).
Definition RelaySync (cfg : RelayConfig) : prog (option error) := catalog (SyncCatalog (CatalogDir cfg)).

Fixpoint natives (presets : list AgentPreset) (l : list Arrangement) : result (list json) :=
  match l with
  | [] => Ok []
  | a :: l =>
    match NativePartitura a presets with
    | Err e => Err e
    | Ok native => match natives presets l with Err e => Err e | Ok all => Ok (native :: all) end
    end
  end.
Definition indented (j : json) : result string := match MarshalIndent j with Some text => Ok text | None => Err json_error end.

Definition RelayExport (cfg : RelayConfig) : prog (result string) :=
  do r ← RelayCatalog cfg;
  match r with
  | Err e => Ret (Err e)
  | Ok entries =>
    do r ← RelayWire cfg;
    match r with
    | Err e => Ret (Err e)
    | Ok c =>
      do r ← wire c (Presets c);
      Ret (match r with
           | Err e => Err e
           | Ok presets =>
             match natives presets (List_ entries) with
             | Err e => Err e
             | Ok all => indented (JObj [("formatVersion", JInt 1); ("partituras", JArr all)])
             end
           end)
    end
  end.

Definition with_floors (ws : WireWorkspace) (floors : list WireFloor) : WireWorkspace :=
  mkWireWorkspace (WsID ws) (WsName ws) (WorkingDirectory ws) (IsLocked ws) floors.
(** The workspaces a plan may use, with their floors. *)
Fixpoint allowed (cfg : RelayConfig) (c : Client) (l : list WireWorkspace) : prog (result (list WireWorkspace)) :=
  match l with
  | [] => Ret (Ok [])
  | ws :: l =>
    if Allows cfg (WsID ws) && negb (IsLocked ws) then
      do r ← wire c (Feed c (WsID ws) "ground");
      match r with
      | Err e => Ret (Err e)
      | Ok feed =>
        do r ← allowed cfg c l;
        Ret (match r with Err e => Err e | Ok l => Ok (with_floors ws (Floors feed) :: l) end)
      end
    else allowed cfg c l
  end.
Definition planner_of (cfg : RelayConfig) : Planner := mkPlanner (LLMURL cfg) (LLMKey cfg) (LLMModel cfg).

Definition RelayPlan (cfg : RelayConfig) (request : string) (base : MaestroPlan) : prog (result MaestroPlan) :=
  do r ← RelayWire cfg;
  match r with
  | Err e => Ret (Err e)
  | Ok c =>
    do r ← wire c (Workspaces c);
    match r with
    | Err e => Ret (Err e)
    | Ok workspaces =>
      do r ← wire c (Presets c);
      match r with
      | Err e => Ret (Err e)
      | Ok presets =>
        do r ← allowed cfg c workspaces;
        match r with
        | Err e => Ret (Err e)
        | Ok l => planner (planner_of cfg) (Plan (planner_of cfg) request base l presets)
        end
      end
    end
  end.

(** The relay, with its store and its catalog, if there is one. *)
Definition relayApp (cfg : RelayConfig) : prog (option error) :=
  must file (FMkdirAll (StateDir cfg) 448);
  must say (LNewRelay cfg);
  do r ← file (FStatTime (Join [CatalogDir cfg; GuideRevision]));
  match r with
  | Ok _ => do r ← RelayCatalog cfg; Ret (match r with Ok _ => None | Err e => Some e end)
  | Err e => if is_foreign e ErrNotExist then nil_ else fail e
  end.

Definition lock_path (cfg : RelayConfig) : string := Join [StateDir cfg; PidFileName].
Definition relayLock (cfg : RelayConfig) : prog (option error) :=
  do pid ← say LGetpid; locking (Acquire (lock_path cfg) pid).
Definition release (cfg : RelayConfig) : prog (option error) := locking (Release (lock_path cfg)).

Definition import_required : error :=
  Opaque "partitura com portais precisa ser importada na biblioteca do host antes da aplicação automática".

(** What holds the lock. *)
Definition locked_apply (cfg : RelayConfig) (id : string) (plan : MaestroPlan) : prog (string * option error) :=
  do r ← RelayWire cfg;
  match r with
  | Err e => Ret ("", Some e)
  | Ok c =>
    do e ← relayApp cfg;
    match e with
    | Some e => Ret ("", Some e)
    | None =>
      do r ← say (LDeploy id plan);
      match r with
      | Err e => Ret ("", Some e)
      | Ok (inl text) => Ret (text, None)
      | Ok (inr native) =>
        let path := Join [StateDir cfg; id +:+ ".maestripartitura"] in
        do e ← RelayWrite path (default "" (MarshalIndent native));
        Ret (match e with Some e => ("", Some e) | None => (path, Some import_required) end)
      end
    end
  end.
Definition RelayApply (cfg : RelayConfig) (id : string) (plan : MaestroPlan) : prog (string * option error) :=
  do e ← relayLock cfg;
  match e with
  | Some e => Ret ("", Some e)
  | None => do r ← locked_apply cfg id plan; do _ ← release cfg; Ret r
  end.

Definition locked_run (cfg : RelayConfig) : prog (option error) :=
  do r ← RelayWire cfg;
  match r with
  | Err e => fail e
  | Ok c =>
    do r ← wire c (Info c);
    match r with
    | Err e => fail e
    | Ok _ =>
      must say (LConnect cfg);
      must relayApp cfg;
      say LServe
    end
  end.
Definition RunRelay (cfg : RelayConfig) : prog (option error) :=
  must relayLock cfg;
  do e ← locked_run cfg; do _ ← release cfg; Ret e.

(** ** cli/relay.go: the commands *)

Definition or_print (output text : string) : prog (option error) :=
  if negb (String.eqb output "") then
    do e ← RelayWrite output text;
    match e with Some e => fail e | None => do _ ← println output; nil_ end
  else do _ ← println text; nil_.

Definition run_init (home config : string) : prog (option error) :=
  let text := default "" (MarshalIndent (initial_config home)) in
  must file (FMkdirAll (Dir config) 448);
  must file (FCreateExcl config);
  do n ← file (FWrite config text);
  do closeErr ← file (FClose config);
  match n.2 with
  | Some e => fail e
  | None => match closeErr with Some e => fail e | None => do _ ← println config; nil_ end
  end.

Definition run_pair (cfg : RelayConfig) : prog (option error) :=
  if String.eqb (WirePin cfg) "" then nothing "configure wirePin com a chave de segurança exibida pelo host antes de parear"
  else
    do r ← RelayWire cfg;
    match r with
    | Err e => fail e
    | Ok c =>
      do _ ← say (LOut "Código de pareamento do Maestri: ");
      do line ← say LScan;
      match line with
      | None => nothing "código não informado"
      | Some text =>
        do r ← wire c (Pair c (trim_space text));
        match r with
        | Err e => fail e
        | Ok tok =>
          must RelayWrite (Join [StateDir cfg; "wire-token"]) tok;
          do _ ← println "Pareamento salvo."; nil_
        end
      end
    end.

Definition info_json (i : WireInfo) : json :=
  JObj [("name", JStr (IName i)); ("protocolVersion", JInt (ProtocolVersion i)); ("capabilities", JArr (map JStr (Capabilities i)));
        ("role", JStr (IRole i))].
Definition run_doctor (cfg : RelayConfig) : prog (option error) :=
  do r ← RelayWire cfg;
  match r with
  | Err e => fail e
  | Ok c =>
    do r ← wire c (Info c);
    match r with
    | Err e => fail e
    | Ok info =>
      if String.eqb (IRole info) "" then nothing "resposta Wire recebida, mas o pareamento está ausente ou inválido"
      else do _ ← println (default "" (MarshalIndent (info_json info))); nil_
    end
  end.

Definition run_sync (cfg : RelayConfig) : prog (option error) :=
  must RelaySync cfg;
  do r ← RelayCatalog cfg;
  match r with
  | Err e => fail e
  | Ok l => do _ ← println ("Catálogo sincronizado: " +:+ itoa (Z.of_nat (length (List_ l))) +:+ " entradas."); nil_
  end.

Definition matches (query : string) (a : Arrangement) : bool :=
  String.eqb query "" || contains (to_lower (ArName a +:+ " " +:+ Description a)) (to_lower query).
Definition tab : string := String "009" "".
Fixpoint print_list (l : list Arrangement) : prog (option error) :=
  match l with
  | [] => nil_
  | a :: l => do _ ← println (ArID a +:+ tab +:+ ArName a); print_list l
  end.
Definition run_list (cfg : RelayConfig) (query : string) : prog (option error) :=
  do r ← RelayCatalog cfg;
  match r with
  | Err e => fail e
  | Ok l => print_list (List.filter (matches query) (List_ l))
  end.

Definition run_export (cfg : RelayConfig) (output : string) : prog (option error) :=
  if String.eqb output "" then nothing "informe --out para o pacote .maestripartituras"
  else
    do r ← RelayExport cfg;
    match r with
    | Err e => fail e
    | Ok text => or_print output text
    end.

(** A plan without a team is printed with empty lists where Go prints null. *)
Definition run_plan (cfg : RelayConfig) (output request template workspace floor : string) : prog (option error) :=
  let base a := mkPlan "" "" workspace "" "" floor "" a in
  do r ← (if negb (String.eqb template "") then
            do r ← RelayCatalog cfg;
            Ret (match r with
                 | Err e => Err e
                 | Ok entries => match Get entries template with Err e => Err e | Ok a => Ok (base a) end
                 end)
          else Ret (Ok (base no_arrangement)));
  match r with
  | Err e => fail e
  | Ok base =>
    do r ← (if negb (String.eqb request "") then RelayPlan cfg request base
            else Ret (if String.eqb template "" then Err (Opaque "informe --request ou --template") else Ok base));
    match r with
    | Err e => fail e
    | Ok plan =>
      match indented (plan_json plan) with
      | Err e => fail e
      | Ok text => or_print output text
      end
    end
  end.

Definition run_apply (cfg : RelayConfig) (planPath job : string) : prog (option error) :=
  if String.eqb planPath "" || String.eqb job "" then nothing "informe --plan e --job; mantenha o mesmo job ao retomar"
  else
    do r ← file (FReadFile planPath);
    match r with
    | Err e => fail e
    | Ok text =>
      match (match read_value (S (String.length text)) text with Some (j, _) => decode_plan true j | None => None end) with
      | None => fail json_error
      | Some plan =>
        do r ← RelayApply cfg job plan;
        do _ ← (if negb (String.eqb r.1 "") then println r.1 else Ret tt);
        Ret r.2
      end
    end.

(** What [run] asks of a configuration. *)
Definition run_error (cfg : RelayConfig) : option error :=
  if String.eqb (RBotToken cfg) "" || String.eqb (WireToken cfg) "" || (0 <=? RChatID cfg)
     || Nat.eqb (length (Operators cfg)) 0 || Nat.eqb (length (RelayDomain.Workspaces cfg)) 0
  then Some (Opaque "configure grupo, operadores, workspaces autorizados e tokens Telegram/Wire")
  else if existsb (λ id, id <=? 0) (Operators cfg) then Some (Opaque "IDs de operadores precisam ser positivos")
  else None.

Definition relay_usage : string :=
  "maestri-tg <init|pair|doctor|catalog-sync|catalog-list|catalog-export|plan|apply|run> [--config PATH]" +:+ nl +:+
  "Segredos: TELEGRAM_BOT_TOKEN, MAESTRI_WIRE_TOKEN, MAESTRI_LLM_KEY. Use <comando> --help para opções.".

Definition dispatch (command : string) (cfg : RelayConfig) (value : string → string) : prog (option error) :=
  if String.eqb command "pair" then run_pair cfg
  else if String.eqb command "doctor" then run_doctor cfg
  else if String.eqb command "catalog-sync" then run_sync cfg
  else if String.eqb command "catalog-list" then run_list cfg (value "query")
  else if String.eqb command "catalog-export" then run_export cfg (value "out")
  else if String.eqb command "plan" then run_plan cfg (value "out") (value "request") (value "template") (value "workspace") (value "floor")
  else if String.eqb command "apply" then run_apply cfg (value "plan") (value "job")
  else if String.eqb command "run" then match run_error cfg with Some e => fail e | None => RunRelay cfg end
  else fail (Errorf "comando desconhecido: %s" [command] []).

Definition runRelayCLI (args : list string) : prog (option error) :=
  match args with
  | [] => do _ ← println relay_usage; nil_
  | command :: args =>
    if String.eqb command "--help" || String.eqb command "help" then do _ ← println relay_usage; nil_
    else
      do r ← say LHome;
      match r with
      | Err e => fail e
      | Ok home =>
        match parse_flags args with
        | FlagHelp => nil_
        | FlagError e => fail e
        | Parsed values (_ :: _) => nothing "argumentos extras não reconhecidos"
        | Parsed values [] =>
          let config := flag_value "config" (Join [home; ".config"; "maestri-relay"; "config.json"]) values in
          if String.eqb command "init" then run_init home config
          else
            do r ← loadRelayConfig config;
            match r with
            | Err e => fail e
            | Ok cfg => dispatch command cfg (λ name, flag_value name "" values)
            end
        end
      end
  end.

Definition RelayMain (error_text : error → string) (args : list string) : prog Z :=
  do e ← runRelayCLI args;
  match e with
  | None => Ret 0
  | Some e => if is_foreign e CtxCanceled then Ret 0 else do _ ← say (LErrOut (error_text e +:+ nl)); Ret 1
  end.
End RelayCli.

(** * What the commands may do *)

(** ** Flags *)

Definition flag_args (l : list (string * string)) : list string := mjoin (map (λ kv, ["--" +:+ kv.1; kv.2]) l).

(** Flags that are written out are parsed as they were meant, whatever their
    values are. *)
Theorem flags_parsed l : Forall (λ kv, kv.1 ∈ flag_names) l → parse_flags (flag_args l) = Parsed l [].
Proof.
  induction 1 as [|[name v] l Hn _ IH]; [done|]. unfold flag_args. cbn [map mjoin list_join fst snd].
  change (parse_flags (("--" +:+ name) :: v :: flag_args l) = Parsed ((name, v) :: l) []).
  cbn [fst] in Hn. unfold flag_names in Hn. repeat (apply elem_of_cons in Hn as [Hn|Hn];
    [rewrite Hn; clear Hn name;
     match goal with |- parse_flags ((_ +:+ ?n) :: _) = _ => change (set_flag n v (parse_flags (flag_args l)) = Parsed ((n, v) :: l) []) end;
     by rewrite IH|]).
  by apply elem_of_nil in Hn.
Qed.

Section Safety.
Context {U : UnicodeTables} {P : UrlParser} {O : UrlOrigin} {H : Hashing}.
Local Notation prog := (prog relE Shop).

(** ** Commands that only look *)

(** The host is only asked for what it shows, and nothing is deployed. *)
Definition reads_wire (B : Type) (o : wireE B) : Prop :=
  match o with WDo method _ _ _ => method = "GET" | WCtxErr => True | _ => False end.
Definition looks (B : Type) (o : relE B) : Prop :=
  match o with
  | LWire _ o => reads_wire _ o
  | LNewRelay _ | LDeploy _ _ | LConnect _ | LServe => False
  | _ => True
  end.

Lemma asks_only_part {E S A} (Q : ∀ B, E B → Prop) (φ : ∀ B, E B → relE B) (get : Shop → S) (set : Shop → S → Shop) (p : Eff.prog E S A) :
  (∀ B (o : E B), Q B o → looks B (φ B o)) → asks_only Q p → asks_only looks (zoom get set (embed φ p)).
Proof. intros Hφ. induction p as [a|B o k IH|B f k IH]; cbn; naive_solver. Qed.

Lemma asks_only_any {E S A} (p : Eff.prog E S A) : asks_only (λ _ _, True) p.
Proof. induction p as [a|B o k IH|B f k IH]; cbn; naive_solver. Qed.

Ltac looking_step :=
  match goal with
  | |- ∀ _, _ => intro
  | |- asks_only _ (bind _ _) => apply asks_only_bind
  | |- asks_only _ (Ret _) => exact I
  | |- asks_only _ (fail _) => exact I
  | |- asks_only _ nil_ => exact I
  | |- asks_only _ (call _) => by split
  | |- asks_only _ (say _) => by split
  | |- asks_only _ (file _) => by split
  | |- asks_only _ (gets _) => by intros ?
  | |- asks_only _ (modify _) => by intros ?
  | |- asks_only _ (let '_ := ?x in _) => destruct x
  | |- asks_only _ (match ?x with _ => _ end) => destruct x
  | |- asks_only _ (if ?x then _ else _) => destruct x
  end.
Ltac looking := repeat first [solve [auto 2 with cli nocore] | looking_step].

Lemma reads_request c {A} path body mime (read : reply → result A) : asks_only reads_wire (request c "GET" path body mime read).
Proof. unfold request. looking. Qed.
#[local] Hint Resolve reads_request : cli.
Lemma reads_Info c : asks_only reads_wire (Info c).
Proof. unfold Info. looking. Qed.
#[local] Hint Resolve reads_Info : cli.
Lemma reads_Call c {A} cap path body (read : reply → result A) : asks_only reads_wire (Call c cap "GET" path body read).
Proof. unfold Call. cbn [String.eqb Ascii.eqb Bool.eqb negb andb]. looking. Qed.
#[local] Hint Resolve reads_Call : cli.
Lemma reads_Workspaces c : asks_only reads_wire (Workspaces c).
Proof. apply reads_Call. Qed.
Lemma reads_Presets c : asks_only reads_wire (Presets c).
Proof. apply reads_Call. Qed.
Lemma reads_Feed c ws floor : asks_only reads_wire (Feed c ws floor).
Proof. unfold Feed. looking. Qed.
#[local] Hint Resolve reads_Workspaces reads_Presets reads_Feed : cli.

Lemma looks_wire c {A} (p : Eff.prog wireE WireInfo A) : asks_only reads_wire p → asks_only looks (wire c p).
Proof. by apply asks_only_part. Qed.
Lemma looks_catalog {A} (p : Eff.prog catalogE unit A) : asks_only looks (catalog p).
Proof. by apply (asks_only_part (λ _ _, True)); [|apply asks_only_any]. Qed.
Lemma looks_planner pl {A} (p : Eff.prog plannerE unit A) : asks_only looks (planner pl p).
Proof. by apply (asks_only_part (λ _ _, True)); [|apply asks_only_any]. Qed.
Lemma looks_embed_file {A} (p : Eff.prog fsE Shop A) : asks_only looks (embed (λ B o, LFile o) p).
Proof. induction p as [a|B o k IH|B f k IH]; cbn; naive_solver. Qed.
Lemma looks_RelayWrite path data : asks_only looks (RelayWrite path data).
Proof. apply looks_embed_file. Qed.
#[local] Hint Resolve looks_wire looks_catalog looks_planner looks_RelayWrite : cli.

Lemma looks_RelayCatalog cfg : asks_only looks (RelayCatalog cfg).
Proof. apply looks_catalog. Qed.
Lemma looks_RelayWire cfg : asks_only looks (RelayWire cfg).
Proof. unfold RelayWire. looking. Qed.
Lemma looks_println t : asks_only looks (println t).
Proof. unfold println. looking. Qed.
#[local] Hint Resolve looks_RelayCatalog looks_RelayWire looks_println : cli.
Lemma looks_or_print output text : asks_only looks (or_print output text).
Proof. unfold or_print. looking. Qed.
Lemma looks_allowed cfg c l : asks_only looks (allowed cfg c l).
Proof. induction l as [|ws l IH]; cbn [allowed]; looking. Qed.
Lemma looks_print_list l : asks_only looks (print_list l).
Proof. induction l as [|a l IH]; cbn [print_list]; looking. Qed.
#[local] Hint Resolve looks_or_print looks_allowed looks_print_list : cli.
Lemma looks_load path : asks_only looks (loadRelayConfig path).
Proof. unfold loadRelayConfig. looking. Qed.
#[local] Hint Resolve looks_load : cli.

Definition acting : list string := ["pair"; "apply"; "run"].

Lemma looks_dispatch command cfg value : command ∉ acting → asks_only looks (dispatch command cfg value).
Proof.
  intros Hc. assert (Hne : ∀ s, s ∈ acting → String.eqb command s = false).
  { intros s Hs. apply String.eqb_neq. intros ->. done. }
  unfold dispatch. rewrite (Hne "pair"), (Hne "apply"), (Hne "run") by (unfold acting; set_solver).
  unfold run_doctor, run_sync, RelaySync, run_list, run_export, RelayExport, run_plan, RelayPlan, nothing. looking.
Qed.

(** A command that neither pairs, applies nor runs the relay asks the host only
    for what it shows, and neither deploys a team nor touches Telegram. *)
Theorem most_commands_look command args : command ∉ acting → asks_only looks (runRelayCLI (command :: args)).
Proof.
  intros Hc. pose proof (λ cfg value, looks_dispatch command cfg value Hc) as Hd. unfold runRelayCLI, run_init, nothing. looking.
Qed.

(** ** Commands that act *)

(** What only one process may do at a time is done after the lock was made. *)
Fixpoint after_lock (path : string) (h : list (event relE)) : Prop :=
  match h with
  | [] => True
  | ev :: h =>
    match ev with
    | Ev (LNewRelay _) _ | Ev (LDeploy _ _) _ | Ev (LConnect _) _ | Ev LServe _ => Ev (LFile (FCreateExcl path)) None ∈ h
    | _ => True
    end ∧ after_lock path h
  end.

Definition guarded_ask (B : Type) (o : relE B) : Prop :=
  match o with LNewRelay _ | LDeploy _ _ | LConnect _ | LServe => False | _ => True end.

(** Once the lock is made, everything goes. *)
Lemma wp_locked {A} path (p : prog A) w : Ev (LFile (FCreateExcl path)) None ∈ trace w → after_lock path (trace w) →
  wp anything p w (λ _ w', after_lock path (trace w')).
Proof.
  revert w. induction p as [a|B o k IH|B f k IH]; intros w Hl Hw; cbn; [done| |by apply (IH _ (put (f (st w)).1 w))].
  intros b _. apply IH; cbn; [by right|]. split; [by destruct o|done].
Qed.
(** Before that, what needs no lock. *)
Lemma wp_unlocked {A} path (p : prog A) w (Q : A → world relE Shop → Prop) : asks_only guarded_ask p → after_lock path (trace w) →
  (∀ a w', after_lock path (trace w') → Q a w') → wp anything p w Q.
Proof.
  intros Hp Hw HQ. revert w Hp Hw. induction p as [a|B o k IH|B f k IH]; intros w Hp Hw; cbn; [by apply HQ| |by apply IH].
  intros b _. destruct Hp as [Ho Hk]. apply IH; [done|]. cbn. split; [by destruct o|done].
Qed.

(** An [Acquire] that succeeds has made the file. *)
Definition file_made (path : string) (e : option error) (w : world fsE Z) : Prop := e = None → Ev (FCreateExcl path) None ∈ trace w.
Lemma makes_create path pid w : wp anything (create_pid path pid) w (file_made path).
Proof.
  unfold create_pid. apply wp_ask. intros [e|] _; [by intros ?|]. apply wp_ask. intros [n [e|]] _; cbn [snd].
  - apply wp_ask. intros b _. apply wp_ask. by intros b' _ ?.
  - intros b _ _. cbn. by do 2 right; left.
Qed.
Lemma makes_acquire path n pid w : wp anything (acquire path n pid) w (file_made path).
Proof.
  revert w. induction n as [|n IH]; intros w; [by intros ?|]. cbn [acquire]. apply wp_bind.
  eapply wp_mono; [|apply makes_create]. intros [e|] w1 H1.
  2: { apply wp_update. intros _. by apply H1. }
  destruct (negb _); [by intros ?|]. apply wp_bind. eapply wp_mono; [|exact (returns_any (read_pid path) w1)]. intros r w2 _.
  apply wp_bind. eapply wp_mono; [|exact (returns_any _ w2)]. intros live w3 _. destruct live; [by intros ?|].
  apply wp_must. eapply wp_mono; [|exact (returns_any (remove_pid path _) w3)]. intros [e'|] w4 _; [by intros ?|apply IH].
Qed.
Lemma makes_Acquire path pid w : wp anything (Acquire path pid) w (file_made path).
Proof. unfold Acquire. apply wp_ask. intros [e|] _; [by intros ?|apply makes_acquire]. Qed.

(** A part of the stores within the command. *)
Definition lift_file (ev : event fsE) : event relE := match ev with Ev o b => Ev (LFile o) b end.
Lemma wp_locking {A} (p : Eff.prog fsE Z A) s h t (Q : A → world relE Shop → Prop) :
  wp anything p (mkWorld (lock s) h) (λ a v, ∀ s', Q a (mkWorld s' (map lift_file (trace v) ++ t))) →
  wp anything (locking p) (mkWorld s (map lift_file h ++ t)) Q.
Proof.
  revert s h. induction p as [a|B o k IH|B f k IH]; intros s h; cbn.
  - intros HQ. apply HQ.
  - intros HQ b Hb. apply (IH b s (Ev o b :: h)), HQ, Hb.
  - intros HQ. by apply (IH _ (set_lock (f (lock s)).1 s) h).
Qed.

Lemma after_lock_files path l h : after_lock path h → after_lock path (map lift_file l ++ h).
Proof. intros Hh. induction l as [|[B o b] l IH]; [done|]. by split. Qed.

Lemma wp_relayLock cfg w (Q : option error → world relE Shop → Prop) : after_lock (lock_path cfg) (trace w) →
  (∀ e w', after_lock (lock_path cfg) (trace w') → (e = None → Ev (LFile (FCreateExcl (lock_path cfg))) None ∈ trace w') → Q e w') →
  wp anything (relayLock cfg) w Q.
Proof.
  intros Hw HQ. unfold relayLock. apply wp_ask. intros pid _. destruct w as [s h].
  apply (wp_locking _ s [] (Ev LGetpid pid :: h)). eapply wp_mono; [|apply makes_Acquire]. intros e v Hv s'. apply HQ; cbn [trace].
  - apply after_lock_files. by split.
  - intros He. apply elem_of_app. left. specialize (Hv He). apply list_elem_of_fmap. by exists (Ev (FCreateExcl (lock_path cfg)) None).
Qed.

Lemma after_RelayApply cfg id plan w : after_lock (lock_path cfg) (trace w) →
  wp anything (RelayApply cfg id plan) w (λ _ w', after_lock (lock_path cfg) (trace w')).
Proof.
  intros Hw. unfold RelayApply. apply wp_bind, wp_relayLock; [done|]. intros [e|] w1 H1 Hm; [done|]. by apply wp_locked; [apply Hm|].
Qed.
Lemma after_RunRelay cfg w : after_lock (lock_path cfg) (trace w) →
  wp anything (RunRelay cfg) w (λ _ w', after_lock (lock_path cfg) (trace w')).
Proof.
  intros Hw. unfold RunRelay. apply wp_must, wp_relayLock; [done|]. intros [e|] w1 H1 Hm; [done|]. by apply wp_locked; [apply Hm|].
Qed.

Lemma guarded_any_part {E S A} (φ : ∀ B, E B → relE B) (get : Shop → S) (set : Shop → S → Shop) (p : Eff.prog E S A) :
  (∀ B (o : E B), guarded_ask B (φ B o)) → asks_only guarded_ask (zoom get set (embed φ p)).
Proof. intros Hφ. induction p as [a|B o k IH|B f k IH]; cbn; naive_solver. Qed.
Lemma looks_guarded {A} (p : prog A) : asks_only looks p → asks_only guarded_ask p.
Proof.
  induction p as [a|B o k IH|B f k IH]; cbn; [done| |naive_solver]. intros [Ho Hk]. split; [by destruct o|]. intros b. apply IH, Hk.
Qed.

(** Whatever the command and the answers, the relay loads its state, deploys,
    connects to Telegram and runs only after this process has made the lock. *)
Theorem acts_under_lock command cfg value w : after_lock (lock_path cfg) (trace w) →
  wp anything (dispatch command cfg value) w (λ _ w', after_lock (lock_path cfg) (trace w')).
Proof.
  intros Hw. destruct (decide (command ∈ acting)) as [Hc|Hc].
  2: { apply (wp_unlocked _ _ _ _ (looks_guarded _ (looks_dispatch command cfg value Hc)) Hw). done. }
  repeat (apply elem_of_cons in Hc as [->|Hc]); [..|by apply elem_of_nil in Hc].
  - apply (wp_unlocked (lock_path cfg) _ _ _); [|done..].
    change (asks_only guarded_ask (run_pair cfg)). unfold run_pair, nothing, println, RelayWire, RelayWrite. looking.
    all: first [apply guarded_any_part; done | apply looks_guarded, looks_embed_file].
  - change (wp anything (run_apply cfg (value "plan") (value "job")) w (λ _ w', after_lock (lock_path cfg) (trace w'))).
    unfold run_apply. destruct (_ || _); [done|]. apply wp_ask. intros [text|e] _; [|by split]. 
    match goal with |- wp _ (match ?x with _ => _ end) _ _ => destruct x as [plan|]; [|by split] end.
    apply wp_bind. eapply wp_mono; [|apply after_RelayApply; by split]. intros r w1 H1. apply wp_bind.
    apply (wp_unlocked (lock_path cfg) _ _ _); [|done..]. destruct (negb _); unfold println; looking.
  - change (wp anything (match run_error cfg with Some e => fail e | None => RunRelay cfg end) w (λ _ w', after_lock (lock_path cfg) (trace w'))).
    destruct (run_error cfg); [done|]. by apply after_RunRelay.
Qed.
End Safety.
