(* ===== verification/RelayProg.v ===== *)
(** The state of the relay (the types of internal/app/relay.go) and the
    programs that work on it.

    A handler of the relay is a tree of the operations it performs on its
    ports, on its memory and on its state file: the answer of an operation
    selects the rest.  What a mutex protects is one [Atomic] block; between two
    operations outside such a block other handlers run.  The process may die
    between any two operations, also inside a block, and starts again from the
    state file. *)
From S2P Require Import Prelude GoStrings Errors Status Redact Json RelayDomain.

Local Open Scope Z_scope.

(** ** internal/app/relay.go: the types *)

Record relayTopic := mkRTopic {
  RWorkspace : string; RFloor : string; RName : string; RThread : Z; RPending : bool; RMuted : bool
}.

Record relayTarget := mkTarget {
  TgWorkspace : string; TgFloor : string; TgTerminal : string; TgEpoch : string; TgThread : Z;
  TgPrompt : string; TgAt : Time; TgActions : list string
}.

Record relayJob := mkJob {
  JPlan : MaestroPlan; JPending : string; JResults : gmap string json; JDone : bool
}.

Record relayState := mkRState {
  SVersion : Z; SChatID : Z; SHost : string;
  Topics : gmap string relayTopic; Replies : gmap Z relayTarget; Seen : gmap string Time;
  Jobs : gmap string relayJob
}.

(** The part of [Relay] that changes. *)
Record mem := mkMem {
  rstate : relayState; feeds : gmap string WireFeed; statuses : gmap string string; failure : option error
}.

Definition set_rstate (m : mem) (s : relayState) : mem := mkMem s (feeds m) (statuses m) (failure m).
Definition set_feeds (m : mem) (f : gmap string WireFeed) : mem := mkMem (rstate m) f (statuses m) (failure m).
Definition set_statuses (m : mem) (f : gmap string string) : mem := mkMem (rstate m) (feeds m) f (failure m).
Definition set_failure (m : mem) (e : error) : mem := mkMem (rstate m) (feeds m) (statuses m) (Some e).

Definition with_topics (f : gmap string relayTopic → gmap string relayTopic) (m : mem) : mem :=
  let s := rstate m in
  set_rstate m (mkRState (SVersion s) (SChatID s) (SHost s) (f (Topics s)) (Replies s) (Seen s) (Jobs s)).
Definition with_replies (f : gmap Z relayTarget → gmap Z relayTarget) (m : mem) : mem :=
  let s := rstate m in
  set_rstate m (mkRState (SVersion s) (SChatID s) (SHost s) (Topics s) (f (Replies s)) (Seen s) (Jobs s)).
Definition with_seen (f : gmap string Time → gmap string Time) (m : mem) : mem :=
  let s := rstate m in
  set_rstate m (mkRState (SVersion s) (SChatID s) (SHost s) (Topics s) (Replies s) (f (Seen s)) (Jobs s)).
Definition with_jobs (f : gmap string relayJob → gmap string relayJob) (m : mem) : mem :=
  let s := rstate m in
  set_rstate m (mkRState (SVersion s) (SChatID s) (SHost s) (Topics s) (Replies s) (Seen s) (f (Jobs s))).

(** ** Operations on the ports

    [tag] names the step of a job a Wire call belongs to, and the scope a
    topic is created for; neither reaches the port. *)
Inductive eop : Type → Type :=
  | WInfo : eop (result WireInfo)
  | WWorkspaces : eop (result (list WireWorkspace))
  | WFeed (ws floor : string) : eop (result WireFeed)
  | WPresets : eop (result (list AgentPreset))
  | WCall (tag : option (string * string)) (cap method path : string) (body : json) : eop (result json)
  | WInput (terminal : string) (data : list Z) : eop (result ())
  | WUpload (terminal name mime data : string) : eop (result string)
  | TRights : eop (result (bool * bool * bool))
  | TCreate (key name : string) (status : Status) : eop (result Topic)
  | TEdit (thread : Z) (patch : TopicPatch) : eop (result ())
  | TSend (out : Outgoing) : eop (result Z)
  | TEditButtons (message : Z) (buttons : list Button) : eop (result ())
  | TAnswerButton (callback text : string) : eop (result ())
  | TSendDocument (thread : Z) (name : string) (data : json) (caption : string) : eop (result ())
  | TDownload (file : string) (max : Z) : eop (result string)
  | PPlan (request : string) (base : MaestroPlan) (wss : list WireWorkspace) (presets : list AgentPreset) : eop (result MaestroPlan)
  | Now : eop Time
  | WaitSecond : eop (result ()).

Inductive prog (A : Type) : Type :=
  | Ret (a : A)
  | Ext {B : Type} (o : eop B) (k : B → prog A)
  | Mem {B : Type} (f : mem → mem * B) (k : B → prog A)
  | Persist (k : option error → prog A)
  | Atomic {B : Type} (p : prog B) (k : B → prog A).
Arguments Ret {A} a.
Arguments Ext {A B} o k.
Arguments Mem {A B} f k.
Arguments Persist {A} k.
Arguments Atomic {A B} p k.

Fixpoint pbind {A B} (p : prog A) (f : A → prog B) : prog B :=
  match p with
  | Ret a => f a
  | Ext o k => Ext o (λ b, pbind (k b) f)
  | Mem g k => Mem g (λ b, pbind (k b) f)
  | Persist k => Persist (λ e, pbind (k e) f)
  | Atomic q k => Atomic q (λ b, pbind (k b) f)
  end.

Declare Scope relay_scope.
Delimit Scope relay_scope with relay.
Notation "'do' x ← m ; k" := (pbind m (λ x, k))
  (at level 100, x name, m at level 99, k at level 200, right associativity) : relay_scope.
(** [x, err := m; if err != nil { return err }]. *)
Notation "'try' x ← m ; k" := (pbind m (λ r, match r with Ok x => k | Err e => Ret (Err e) end))
  (at level 100, x name, m at level 99, k at level 200, right associativity) : relay_scope.
#[global] Open Scope relay_scope.

Definition ext {B} (o : eop B) : prog B := Ext o Ret.
Definition get : prog mem := Mem (λ m, (m, m)) Ret.
Definition modify (f : mem → mem) : prog () := Mem (λ m, (f m, ())) Ret.
Definition persist : prog (option error) := Persist Ret.
Definition atomic {A} (p : prog A) : prog A := Atomic p Ret.
Definition ok {A} (a : A) : prog (result A) := Ret (Ok a).
Definition fails {A} (msg : string) : prog (result A) := Ret (Err (Opaque msg)).

(** A loop over [l] whose body may return an error. *)
Fixpoint each {A} (f : A → prog (result ())) (l : list A) : prog (result ()) :=
  match l with
  | [] => ok ()
  | x :: l' => try _ ← f x; each f l'
  end.

(** ** Executions *)

(** What the world has been asked and has answered, the newest first. *)
Inductive event : Type :=
  | Asked {B : Type} (o : eop B)
  | Answered {B : Type} (o : eop B) (b : B).

Record world := mkWorld { wmem : mem; disk : relayState; log : list event }.

Definition note (e : event) (w : world) : world := mkWorld (wmem w) (disk w) (e :: log w).
Definition ask {B} (o : eop B) (w : world) : world := note (Asked o) w.
Definition answer {B} (o : eop B) (b : B) (w : world) : world := note (Answered o b) (ask o w).
Definition put_mem (m : mem) (w : world) : world := mkWorld m (disk w) (log w).
Definition saved (w : world) : world := mkWorld (wmem w) (rstate (wmem w)) (log w).

(** A run of a program alone, which ends with a result or dies ([None]).  A
    save that fails, or dies, may still have replaced the file. *)
Inductive exec : ∀ {A}, prog A → world → option A → world → Prop :=
  | exec_dies {A} (p : prog A) w : exec p w None w
  | exec_ret {A} (a : A) w : exec (Ret a) w (Some a) w
  | exec_ext {A B} (o : eop B) (k : B → prog A) w b r w' :
      exec (k b) (answer o b w) r w' → exec (Ext o k) w r w'
  | exec_ext_dies {A B} (o : eop B) (k : B → prog A) w : exec (Ext o k) w None (ask o w)
  | exec_mem {A B} f (k : B → prog A) w r w' :
      exec (k (f (wmem w)).2) (put_mem (f (wmem w)).1 w) r w' → exec (Mem f k) w r w'
  | exec_saved {A} (k : option error → prog A) w r w' : exec (k None) (saved w) r w' → exec (Persist k) w r w'
  | exec_unsaved {A} (k : option error → prog A) w w1 e r w' :
      w1 = w ∨ w1 = saved w → exec (k (Some e)) w1 r w' → exec (Persist k) w r w'
  | exec_save_dies {A} (k : option error → prog A) w : exec (Persist k) w None (saved w)
  | exec_atomic {A B} (q : prog B) (k : B → prog A) w b w1 r w' :
      exec q w (Some b) w1 → exec (k b) w1 r w' → exec (Atomic q k) w r w'
  | exec_atomic_dies {A B} (q : prog B) (k : B → prog A) w w1 :
      exec q w None w1 → exec (Atomic q k) w None w1.

(** A run with answers computed from the log; saves succeed. *)
Definition oracle := ∀ B, eop B → list event → B.
Fixpoint interp {A} (orc : oracle) (p : prog A) (w : world) : A * world :=
  match p with
  | Ret a => (a, w)
  | Ext o k => let b := orc _ o (log w) in interp orc (k b) (answer o b w)
  | Mem f k => interp orc (k (f (wmem w)).2) (put_mem (f (wmem w)).1 w)
  | Persist k => interp orc (k None) (saved w)
  | Atomic q k => let '(b, w1) := interp orc q w in interp orc (k b) w1
  end.

Lemma pool_exec {A} orc (p : prog A) w : exec p w (Some (interp orc p w).1) (interp orc p w).2.
Proof.
  revert w. induction p as [A a|A B o k IH|A B f k IH|A k IH|A B q IHq k IH]; intros w; cbn [interp].
  - constructor.
  - eapply exec_ext, IH.
  - constructor. apply IH.
  - apply exec_saved, IH.
  - specialize (IHq w). destruct (interp orc q w) as [b w1] eqn:E. econstructor; [exact IHq|apply IH].
Qed.

(** ** What a program may do

    The operations it may perform after what has happened, the changes it may
    make to the memory, and whether it may save. *)
Record policy := mkPolicy {
  may : list event → ∀ B, eop B → Prop;
  changes : mem → mem → Prop;
  saves : Prop
}.

Fixpoint ensures {A} (pol : policy) (p : prog A) (h : list event) (Q : list event → A → Prop) : Prop :=
  match p with
  | Ret a => Q h a
  | Ext o k => may pol h _ o ∧ ∀ b, ensures pol (k b) (Answered o b :: Asked o :: h) Q
  | Mem f k => ∀ m, changes pol m (f m).1 ∧ ensures pol (k (f m).2) h Q
  | Persist k => saves pol ∧ ∀ e, ensures pol (k e) h Q
  | Atomic q k => ensures pol q h (λ h b, ensures pol (k b) h Q)
  end.

Section Ensures.
Context (pol : policy).

Lemma ensures_mono {A} (p : prog A) h (Q Q' : list event → A → Prop) :
  (∀ h a, Q h a → Q' h a) → ensures pol p h Q → ensures pol p h Q'.
Proof.
  revert h Q Q'. induction p as [A a|A B o k IH|A B f k IH|A k IH|A B q IHq k IH]; intros h Q Q' HQ; cbn [ensures].
  - auto.
  - intros [? H]. split; [done|]. intros b. by eapply IH.
  - intros H m. destruct (H m). split; [done|]. by eapply IH.
  - intros [? H]. split; [done|]. intros b. by eapply IH.
  - intros H. eapply IHq; [|exact H]. intros h' b Hb. by eapply IH.
Qed.

Lemma ensures_bind {A B} (p : prog A) (f : A → prog B) h (Q : list event → B → Prop) :
  ensures pol p h (λ h a, ensures pol (f a) h Q) → ensures pol (pbind p f) h Q.
Proof.
  revert f h Q. induction p as [A a|A C o k IH|A C g k IH|A k IH|A C q IHq k IH]; intros f h Q; cbn [ensures pbind].
  - done.
  - intros [? H]. split; [done|]. intros b. by apply IH.
  - intros H m. destruct (H m). split; [done|]. by apply IH.
  - intros [? H]. split; [done|]. intros b. by apply IH.
  - intros H. eapply ensures_mono; [|exact H]. intros h' b. apply IH.
Qed.

Lemma ensures_try {A B} (p : prog (result A)) (f : A → prog (result B)) h (Q : list event → result B → Prop) :
  ensures pol p h (λ h r, match r with Ok a => ensures pol (f a) h Q | Err e => Q h (Err e) end) →
  ensures pol (try x ← p; f x) h Q.
Proof. intros H. apply ensures_bind. eapply ensures_mono; [|exact H]. by intros h' [a|e]. Qed.

(** A loop whose body keeps an invariant of the history. *)
Lemma ensures_each {A} (I : list event → Prop) (f : A → prog (result ())) l h :
  (∀ x h, x ∈ l → I h → ensures pol (f x) h (λ h _, I h)) → I h → ensures pol (each f l) h (λ h _, I h).
Proof.
  revert h. induction l as [|x l IH]; intros h H HI; cbn [each]; [done|]. apply ensures_try.
  eapply ensures_mono; [|apply H; [by left|done]]. intros h' [u|e] HI'; [|done].
  apply IH; [|done]. intros y h'' ?. apply H. by right.
Qed.

(** What has been asked beyond [h] was allowed when it was asked. *)
Fixpoint asked_ok (h l : list event) : Prop :=
  match l with
  | [] => True
  | Asked o :: l' => may pol (l' ++ h) _ o ∧ asked_ok h l'
  | _ :: l' => asked_ok h l'
  end.

Lemma asked_ok_app h l l' : asked_ok h l → asked_ok (l ++ h) l' → asked_ok h (l' ++ l).
Proof.
  intros Hl. induction l' as [|[B o|B o b] l' IH]; cbn; [done| |done].
  intros [Hm ?]. rewrite <-app_assoc. split; [done|]. by apply IH.
Qed.

Lemma ensures_exec {A} (p : prog A) Q w r w' :
  exec p w r w' → ensures pol p (log w) Q →
  (∃ l, log w' = l ++ log w ∧ asked_ok (log w) l) ∧ match r with Some a => Q (log w') a | None => True end.
Proof.
  intros He. revert Q. induction He as
    [A p w|A a w|A B o k w b r w' _ IH|A B o k w|A B f k w r w' _ IH|A k w r w' _ IH|A k w w1 e r w' Hw _ IH|A k w
    |A B q k w b w1 r w' _ IHq _ IH|A B q k w w1 _ IHq]; intros Q H; cbn [ensures] in H.
  - split; [by exists []|done].
  - split; [by exists []|done].
  - destruct H as [Ho Hk]. destruct (IH Q (Hk b)) as [(l & El & Hl) HQ]. split; [|done].
    exists (l ++ [Answered o b; Asked o]). rewrite <-app_assoc. split; [done|]. apply asked_ok_app; by cbn.
  - destruct H as [Ho _]. split; [|done]. exists [Asked o]. by cbn.
  - destruct (H (wmem w)) as [_ Hk]. exact (IH Q Hk).
  - destruct H as [_ Hk]. exact (IH Q (Hk None)).
  - destruct H as [_ Hk]. assert (log w1 = log w) as E by (by destruct Hw as [->| ->]).
    rewrite <-E in *. exact (IH Q (Hk (Some e))).
  - split; [by exists []|done].
  - destruct (IHq _ H) as [(l & El & Hl) HQ]. destruct (IH Q HQ) as [(l' & El' & Hl') HQ']. split; [|done].
    exists (l' ++ l). rewrite <-app_assoc, <-El. split; [done|]. rewrite El in Hl'. by apply asked_ok_app.
  - destruct (IHq _ H) as [Hlog _]. by split.
Qed.

(** A program that may change nothing leaves memory and file alone. *)
Lemma ensures_unchanged {A} (p : prog A) Q w r w' :
  (∀ m m', changes pol m m' → m' = m) → ¬ saves pol → exec p w r w' → ensures pol p (log w) Q →
  wmem w' = wmem w ∧ disk w' = disk w.
Proof.
  intros Hc Hs He. revert Q. induction He as
    [A p w|A a w|A B o k w b r w' _ IH|A B o k w|A B f k w r w' _ IH|A k w r w' _ IH|A k w w1 e r w' Hw _ IH|A k w
    |A B q k w b w1 r w' He1 IHq _ IH|A B q k w w1 _ IHq]; intros Q H; cbn [ensures] in H; try (by destruct H); try done.
  - destruct H as [_ Hk]. by destruct (IH Q (Hk b)).
  - destruct (H (wmem w)) as [Hch Hk]. apply Hc in Hch. rewrite Hch in IH. by destruct (IH Q Hk).
  - destruct (ensures_exec _ _ _ _ _ He1 H) as [_ HQ]. destruct (IHq _ H) as [<- <-].
    exact (IH Q HQ).
  - exact (IHq _ H).
Qed.
End Ensures.

(** ** Programs in a known world

    [swp p w I Q]: whatever is answered, the program run alone from [w] ends in
    [Q], and satisfies [I] wherever it may die. *)
Fixpoint swp {A} (p : prog A) (w : world) (I : world → Prop) (Q : A → world → Prop) : Prop :=
  I w ∧
  match p with
  | Ret a => Q a w
  | Ext o k => I (ask o w) ∧ ∀ b, swp (k b) (answer o b w) I Q
  | Mem f k => swp (k (f (wmem w)).2) (put_mem (f (wmem w)).1 w) I Q
  | Persist k =>
    I (saved w) ∧ swp (k None) (saved w) I Q ∧ ∀ e, swp (k (Some e)) w I Q ∧ swp (k (Some e)) (saved w) I Q
  | Atomic q k => swp q w I (λ b w, swp (k b) w I Q)
  end.

Lemma swp_here {A} (p : prog A) w I Q : swp p w I Q → I w.
Proof. destruct p; by intros []. Qed.

Lemma swp_mono {A} (p : prog A) w I Q Q' : (∀ a w, Q a w → Q' a w) → swp p w I Q → swp p w I Q'.
Proof.
  revert w Q Q'. induction p as [A a|A B o k IH|A B f k IH|A k IH|A B q IHq k IH]; intros w Q Q' HQ; cbn [swp].
  - intros [? ?]. auto.
  - intros (? & ? & H). split; [done|]. split; [done|]. intros b. by eapply IH.
  - intros [? H]. split; [done|]. by eapply IH.
  - intros (? & ? & H & H'). do 2 (split; [done|]). split; [by eapply IH|]. intros e. destruct (H' e). split; by eapply IH.
  - intros [? H]. split; [done|]. eapply IHq; [|exact H]. intros b w' Hb. by eapply IH.
Qed.

Lemma swp_bind {A B} (p : prog A) (f : A → prog B) w I Q :
  swp p w I (λ a w, swp (f a) w I Q) → swp (pbind p f) w I Q.
Proof.
  revert f w Q. induction p as [A a|A C o k IH|A C g k IH|A k IH|A C q IHq k IH]; intros f w Q; cbn [swp pbind].
  - by intros [].
  - intros (? & ? & H). split; [done|]. split; [done|]. intros b. by apply IH.
  - intros [? H]. split; [done|]. by apply IH.
  - intros (? & ? & H & H'). do 2 (split; [done|]). split; [by apply IH|]. intros e. destruct (H' e). split; by apply IH.
  - intros [? H]. split; [done|]. eapply swp_mono; [|exact H]. intros b w' Hb. by apply IH.
Qed.

Lemma swp_try {A B} (p : prog (result A)) (f : A → prog (result B)) w I Q :
  swp p w I (λ r w, match r with Ok a => swp (f a) w I Q | Err e => I w ∧ Q (Err e) w end) →
  swp (try x ← p; f x) w I Q.
Proof. intros H. apply swp_bind. eapply swp_mono; [|exact H]. by intros [a|e] w'. Qed.

Lemma swp_exec {A} (p : prog A) w I Q r w' :
  exec p w r w' → swp p w I Q → match r with Some a => Q a w' | None => I w' end.
Proof.
  intros He. revert Q. induction He as
    [A p w|A a w|A B o k w b r w' _ IH|A B o k w|A B f k w r w' _ IH|A k w r w' _ IH|A k w w1 e r w' Hw _ IH|A k w
    |A B q k w b w1 r w' _ IHq _ IH|A B q k w w1 _ IHq]; intros Q H; cbn [swp] in H.
  - by apply swp_here in H.
  - by destruct H.
  - destruct H as (_ & _ & H). exact (IH Q (H b)).
  - by destruct H as (_ & H & _).
  - destruct H as [_ H]. exact (IH Q H).
  - destruct H as (_ & _ & H & _). exact (IH Q H).
  - destruct H as (_ & _ & _ & H). destruct (H e) as [H1 H2]. apply IH. by destruct Hw as [->| ->].
  - by destruct H as (_ & H & _).
  - destruct H as [_ H]. exact (IH Q (IHq _ H)).
  - destruct H as [_ H]. exact (IHq _ H).
Qed.

Lemma swp_get {A} (f : mem → prog A) w (I : world → Prop) Q :
  I w → swp (f (wmem w)) w I Q → swp (do m ← get; f m) w I Q.
Proof. destruct w. by intros HI H. Qed.

Lemma swp_modify {A} g (f : () → prog A) w (I : world → Prop) Q :
  I w → swp (f ()) (put_mem (g (wmem w)) w) I Q → swp (do u ← modify g; f u) w I Q.
Proof. by intros HI H. Qed.

Lemma swp_weaken {A} (p : prog A) w (I J : world → Prop) Q :
  (∀ w, I w → J w) → swp p w I Q → swp p w J Q.
Proof.
  intros HJ. revert w Q. induction p as [A a|A B o k IH|A B f k IH|A k IH|A B q IHq k IH]; intros w Q; cbn [swp]; intros [HI H];
    (split; [by apply HJ|]).
  - done.
  - destruct H as [? H]. split; [auto|]. intros b. by apply IH.
  - by apply IH.
  - destruct H as (? & H & H'). split; [auto|]. split; [by apply IH|]. intros e. destruct (H' e). split; by apply IH.
  - apply IHq. eapply swp_mono; [|exact H]. intros b w' ?. by apply IH.
Qed.

Lemma swp_always {A} (p : prog A) w (I : world → Prop) r w' : exec p w r w' → swp p w I (λ _, I) → I w'.
Proof. intros He H. pose proof (swp_exec _ _ _ _ _ _ He H). by destruct r. Qed.

Lemma swp_view {A B} (f : mem → B) (k : B → prog A) w (I : world → Prop) Q :
  I w → swp (k (f (wmem w))) w I Q → swp (do v ← atomic (do m ← get; Ret (f m)); k v) w I Q.
Proof. destruct w. intros HI H. by repeat split. Qed.

Lemma swp_atomic {A} (p : prog A) w (I : world → Prop) (Q : A → world → Prop) :
  I w → swp p w I (λ a w', I w' ∧ Q a w') → swp (atomic p) w I Q.
Proof. intros HI H. by split. Qed.

Lemma swp_ext {A B} (o : eop B) (f : B → prog A) w (I : world → Prop) Q :
  I w → I (ask o w) → (∀ b, swp (f b) (answer o b w) I Q) → swp (do b ← ext o; f b) w I Q.
Proof. by repeat split. Qed.
