(* ===== verification/Relay.v ===== *)
(** internal/app/relay.go: the topics of the relay, what it posts when an
    agent changes, and how a message finds the terminal it is meant for. *)
From S2P Require Import Prelude GoStrings Errors Status Redact Json RelayDomain RelayProg.

Local Open Scope Z_scope.

Record ArrangementCatalog := mkCatalog { CatList : list Arrangement; CatGet : string → result Arrangement }.

(** The part of [Relay] that does not change; [Wire], [Telegram] and [Store]
    are the operations of [prog]. *)
Record Relay := mkRelay {
  RConfig : RelayConfig;
  Catalog : option ArrangementCatalog;
  HasPlanner : bool;
  Native : option (Arrangement → list AgentPreset → result (list (string * json)))
}.

(** The order in which [range] visits the topics. *)
Class TopicOrder := {
  visit : gmap string relayTopic → list (string * relayTopic);
  visit_perm m : visit m ≡ₚ map_to_list m
}.

(** What the state file may hold. *)
Inductive loaded := LoadFails (e : error) | LoadEmpty | LoadCorrupt | LoadState (s : relayState).

Definition empty_state : relayState := mkRState 0 0 "" ∅ ∅ ∅ ∅.
Definition relay_host (c : RelayConfig) : string := WireURL c +:+ "|" +:+ WirePin c.

Definition NewRelay (c : RelayConfig) (file : loaded) : result mem :=
  let start (s : relayState) :=
    if negb (SVersion s =? 0) && negb (SVersion s =? 1) then Err (Opaque "versão de estado Relay não suportada")
    else if negb (SVersion s =? 0) && (negb (SChatID s =? RChatID c) || negb (String.eqb (SHost s) (relay_host c)))
    then Err (Opaque "estado pertence a outro grupo ou host; use outro stateDir")
    else Ok (mkMem (mkRState 1 (RChatID c) (relay_host c) (Topics s) (Replies s) (Seen s) (Jobs s)) ∅ ∅ None) in
  match file with
  | LoadFails e => Err e
  | LoadCorrupt => Err (Opaque "estado Relay corrompido; preserve o arquivo para recuperação")
  | LoadEmpty => start empty_state
  | LoadState s => start s
  end.

Definition save_failure : error :=
  Opaque "falha ao persistir estado; Relay interrompido para evitar duplicação".

(** A failed save stops every later one. *)
Definition save : prog (result ()) :=
  do m ← get;
  match failure m with
  | Some e => Ret (Err e)
  | None =>
    do err ← persist;
    match err with
    | None => ok ()
    | Some _ => do _ ← modify (λ m, set_failure m save_failure); Ret (Err save_failure)
    end
  end.

Lemma save_swp w (I : world → Prop) (Q : result () → world → Prop) :
  I w → I (saved w) →
  (∀ e m, rstate m = rstate (wmem w) ∧ failure m = Some e →
     I (put_mem m w) ∧ I (put_mem m (saved w)) ∧ Q (Err e) (put_mem m w) ∧ Q (Err e) (put_mem m (saved w))) →
  Q (Ok ()) (saved w) → swp save w I Q.
Proof.
  intros HI HIs He HQ. apply swp_get; [done|]. destruct (failure (wmem w)) as [e|] eqn:Hf.
  - split; [done|]. destruct (He e (wmem w) (conj eq_refl Hf)) as (_ & _ & H & _). by destruct w.
  - split; [done|]. split; [done|]. split; [by split|]. intros e.
    destruct (He save_failure (set_failure (wmem w) save_failure) (conj eq_refl eq_refl)) as (H1 & H2 & H3 & H4).
    by repeat split.
Qed.

Definition scope (ws floor : string) : string :=
  ws +:+ "/" +:+ (if String.eqb floor "ground" then "" else floor).

Definition rename_topic (name : string) (t : relayTopic) : relayTopic :=
  mkRTopic (RWorkspace t) (RFloor t) name (RThread t) (RPending t) (RMuted t).
Definition topic_created (thread : Z) (t : relayTopic) : relayTopic :=
  mkRTopic (RWorkspace t) (RFloor t) (RName t) thread false (RMuted t).
Definition set_muted (b : bool) (t : relayTopic) : relayTopic :=
  mkRTopic (RWorkspace t) (RFloor t) (RName t) (RThread t) (RPending t) b.

Definition ensureTopic (ws floor name : string) : prog (result Z) :=
  let key := scope ws floor in
  do m ← get;
  match Topics (rstate m) !! key with
  | Some t =>
    if RPending t
    then Ret (Err (Errorf "criação do tópico %s incerta; vincule o tópico existente com /bind" [name] []))
    else if negb (String.eqb (RName t) name) then
      try _ ← ext (TEdit (RThread t) (mkPatch (Some name) None));
      do _ ← modify (with_topics (alter (rename_topic name) key));
      try _ ← save;
      ok (RThread t)
    else ok (RThread t)
  | None =>
    do _ ← modify (with_topics (insert key (mkRTopic ws floor name 0 true false)));
    try _ ← save;
    try created ← ext (TCreate key name StatusIdle);
    do _ ← modify (with_topics (alter (topic_created (TThreadID created)) key));
    try _ ← save;
    ok (TThreadID created)
  end.

Section Relay.
Context {U : UnicodeTables} {P : UrlParser} {TO : TopicOrder}.
Context (r : Relay).

Notation cfg := (RConfig r).

Definition relay_redact (text : string) : string :=
  (Redact (NewRedactor [WireToken cfg; RBotToken cfg; LLMKey cfg]) text).1.

Definition post (thread : Z) (text : string) (maxParts : Z) (notify : bool) (buttons : list Button) : Outgoing :=
  mkOutgoing thread text false false false maxParts 0 notify buttons false "" 0.

(** Over 4000 replies, the thousand smallest message ids go. *)
Definition prune_replies (m : gmap Z relayTarget) : gmap Z relayTarget :=
  if Nat.ltb 4000 (size m)
  then foldl (λ acc k, delete k acc) m (take 1000 (merge_sort Z.le (map_to_list m).*1))
  else m.

Definition sendTarget (target : relayTarget) (text : string) (buttons : list Button) (notify : bool) : prog (result ()) :=
  let target := mkTarget (TgWorkspace target) (TgFloor target) (TgTerminal target) (TgEpoch target)
    (TgThread target) (TgPrompt target) (TgAt target) (TgActions target ++ map BData buttons) in
  try id ← ext (TSend (post (TgThread target) (relay_redact text) 1 notify buttons));
  do _ ← modify (with_replies (λ m, prune_replies (<[id := target]> m)));
  save.

Definition say (thread : Z) (text : string) : prog (result ()) :=
  try _ ← ext (TSend (post thread (relay_redact text) 2 false []));
  ok ().

(** ** Refresh *)

(** The feeds of the workspaces that are allowed, unlocked and reachable. *)
Fixpoint collect_feeds (wss : list WireWorkspace) (next : gmap string WireFeed) : prog (gmap string WireFeed) :=
  match wss with
  | [] => Ret next
  | ws :: wss' =>
    if negb (Allows cfg (WsID ws)) || IsLocked ws then collect_feeds wss' next
    else
      do feed ← ext (WFeed (WsID ws) "ground");
      match feed with
      | Err _ => collect_feeds wss' next
      | Ok f =>
        collect_feeds wss'
          (<[WsID ws := mkWireFeed ws (Floors f) (Items f) (Epoch f) (Canvas f) (PendingFloors f)]> next)
      end
  end.

Definition ground_name : string := "Térreo".

(** The topics of the floors, each once. *)
Fixpoint refresh_floors (ws : WireWorkspace) (floors : list WireFloor) (seen : gset string) : prog (result ()) :=
  match floors with
  | [] => ok ()
  | floor :: rest =>
    if bool_decide (FlID floor ∈ seen) then refresh_floors ws rest seen
    else
      let seen := {[FlID floor]} ∪ seen in
      if IsCloneMissing floor then refresh_floors ws rest seen
      else
        let name := if String.eqb (FlName floor) "" then ground_name else FlName floor in
        try _ ← ensureTopic (WsID ws) (FlID floor) (WsName ws +:+ " · " +:+ name);
        refresh_floors ws rest seen
  end.

Definition format_bool (b : bool) : string := if b then "true" else "false".

Definition item_status (feed : WireFeed) (item : WireItem) : string :=
  let a := Terminal item in
  Epoch feed +:+ "/" +:+ TermStatus a +:+ "/" +:+ format_bool (NeedsAttention a) +:+ "/" +:+ ItPrompt item.

Definition prompt_buttons : list Button := [mkButton "Aprovar" "approve" 1; mkButton "Recusar" "reject" 1].

(** A card for an agent whose status changed. *)
Definition refresh_item (ws : WireWorkspace) (feed : WireFeed) (item : WireItem) : prog (result ()) :=
  if negb (String.eqb (ItKind item) "terminal") && negb (String.eqb (ItKind item) "pendingPrompt") then ok ()
  else
    let a := Terminal item in
    do m ← get;
    match Topics (rstate m) !! scope (WsID ws) (FloorID a) with
    | None => ok ()
    | Some t =>
      if RPending t then ok ()
      else
        let key := WsID ws +:+ "/" +:+ TermID a in
        let status := item_status feed item in
        let old := statuses m !! key in
        do _ ← modify (λ m, set_statuses m (<[key := status]> (statuses m)));
        if bool_decide (old = Some status) || RMuted t then ok ()
        else if negb (NeedsAttention a) && (bool_decide (old = None) || String.eqb (TermStatus a) "running") then ok ()
        else
          do at_ ← ext Now;
          sendTarget (mkTarget (WsID ws) (FloorID a) (TermID a) (Epoch feed) (RThread t) (ItPrompt item) at_ [])
            ("[" +:+ TermName a +:+ "] " +:+ TermStatus a +:+ nl +:+ join (Preview a) nl)
            (if String.eqb (ItKind item) "pendingPrompt" then prompt_buttons else [])
            (NeedsAttention a)
    end.

Definition refresh_workspace (next : gmap string WireFeed) (ws : WireWorkspace) : prog (result ()) :=
  match next !! WsID ws with
  | None => ok ()
  | Some feed =>
    try _ ← refresh_floors ws (mkWireFloor "" ground_name false :: Floors feed) ∅;
    each (refresh_item ws feed) (Items feed)
  end.

Definition Refresh : prog (result ()) :=
  try _ ← ext WInfo;
  try wss ← ext WWorkspaces;
  do next ← collect_feeds wss ∅;
  atomic (
    do _ ← modify (λ m, set_feeds m next);
    try _ ← ensureTopic "maestro" "" "Maestro";
    each (refresh_workspace next) wss).

(** ** The terminal a message is meant for *)

(** The topic of a thread: the first one the iteration meets. *)
Definition topic_of_thread (thread : Z) (topics : gmap string relayTopic) : option relayTopic :=
  snd <$> List.find (λ kt, (RThread kt.2 =? thread) && negb (RPending kt.2)) (visit topics).

Definition stale_reply (bound : option relayTarget) (thread : Z) (topic : relayTopic) (feed : WireFeed) : bool :=
  match bound with
  | None => true
  | Some b =>
    negb (TgThread b =? thread) || negb (String.eqb (TgWorkspace b) (RWorkspace topic))
    || negb (String.eqb (TgFloor b) (RFloor topic)) || negb (String.eqb (TgEpoch b) (Epoch feed))
  end.

(** The loop over the items: a live terminal of the floor that is the one
    replied to, the one named, or a coordinator. *)
Definition eligible (topic : relayTopic) (a : WireTerminal) : bool :=
  negb (String.eqb (TermID a) "") && String.eqb (FloorID a) (RFloor topic) && IsLive a && IsRunning a.
Definition wanted (bound : option relayTarget) (reply : Z) (explicit : string) (a : WireTerminal) : bool :=
  if negb (reply =? 0) then match bound with Some b => String.eqb (TermID a) (TgTerminal b) | None => false end
  else if negb (String.eqb explicit "") then String.eqb (TermID a) explicit
  else IsManager a.
Definition candidates (topic : relayTopic) (bound : option relayTarget) (reply : Z) (explicit : string)
    (items : list WireItem) : list WireTerminal :=
  List.filter (λ a, eligible topic a && wanted bound reply explicit a) (map Terminal items).

(** [prompts[id]]: the last eligible item of that terminal. *)
Definition prompt_of (topic : relayTopic) (id : string) (items : list WireItem) : string :=
  default "" (last (map ItPrompt
    (List.filter (λ it, eligible topic (Terminal it) && String.eqb (TermID (Terminal it)) id) items))).

Definition no_topic {A} : prog (result A) := fails "tópico sem andar autorizado".

Definition target (thread reply : Z) (explicit : string) : prog (result (relayTarget * WireTerminal)) :=
  do view ← atomic (do m ← get; Ret (topic_of_thread thread (Topics (rstate m)), Replies (rstate m) !! reply));
  let bound := snd view in
  match fst view with
  | None => no_topic
  | Some topic =>
    if String.eqb (RWorkspace topic) "maestro" || negb (Allows cfg (RWorkspace topic)) then no_topic
    else
      try feed ← ext (WFeed (RWorkspace topic) (RFloor topic));
      if negb (String.eqb (WsID (FWorkspace feed)) (RWorkspace topic)) || negb (ValidRelayID (Epoch feed))
      then fails "feed sem identidade de workspace e sessão válida"
      else if negb (reply =? 0) && stale_reply bound thread topic feed
      then fails "resposta antiga ou sem destino válido; use /agents"
      else
        match candidates topic bound reply explicit (Items feed) with
        | [a] =>
          do at_ ← ext Now;
          ok (mkTarget (RWorkspace topic) (RFloor topic) (TermID a) (Epoch feed) thread
                (prompt_of topic (TermID a) (Items feed)) at_ [], a)
        | _ => fails "destino ausente ou ambíguo; use /agents e responda ao agente desejado"
        end
  end.

(** ** Deduplication *)

Definition seen_for : Duration := 48 * Hour.

Definition forget_old (now : Time) (seen : gmap string Time) : gmap string Time :=
  filter (λ kv, ¬ seen_for < time_sub now kv.2) seen.

(** Whether the event is new; it is recorded before anything is done. *)
Definition once (key : string) : prog (result bool) :=
  atomic (
    do m ← get;
    match Seen (rstate m) !! key with
    | Some _ => ok false
    | None =>
      do now ← ext Now;
      do _ ← modify (with_seen (λ seen, <[key := now]> (forget_old now seen)));
      try _ ← save;
      ok true
    end).

(** The checks and the first pass of [Run], before its loop. *)
Definition Run_start : prog (result ()) :=
  try rights ← ext TRights;
  let '(isForum, isAdmin, canManageTopics) := rights in
  if negb isForum || negb isAdmin || negb canManageTopics
  then fails "bot precisa ser administrador de um grupo com tópicos e permissão de gerenciá-los"
  else Refresh.

(** The seconds between two passes. *)
Definition poll_interval : Z := if PollSeconds cfg <? 2 then 5 else PollSeconds cfg.

End Relay.
