(* ===== verification/RelayDeploy.v ===== *)
(** internal/app/relay_deploy.go: creating a team on the host, step by step,
    each step recorded before and after it is asked of the Wire. *)
From S2P Require Import Prelude GoStrings Errors Status Redact Json RelayDomain RelayProg Relay.

Local Open Scope Z_scope.

(** ** One step of a job *)

Definition begin_step (step : string) (j : relayJob) : relayJob :=
  mkJob (JPlan j) step (JResults j) (JDone j).
Definition end_step (step : string) (result : json) (j : relayJob) : relayJob :=
  mkJob (JPlan j) "" (<[step := result]> (JResults j)) (JDone j).
Definition store_result (step : string) (result : json) (j : relayJob) : relayJob :=
  mkJob (JPlan j) (JPending j) (<[step := result]> (JResults j)) (JDone j).
Definition job_done (j : relayJob) : relayJob := mkJob (JPlan j) (JPending j) (JResults j) true.

Definition alter_job (f : relayJob → relayJob) (jobID : string) : mem → mem := with_jobs (alter f jobID).

(** The result on record, if any; else the step is marked as begun.  The job
    exists: [Deploy] has recorded it. *)
Definition step_begin (jobID step : string) : prog (result (option json)) :=
  do m ← get;
  match Jobs (rstate m) !! jobID with
  | None => fails "invalid memory address or nil pointer dereference"
  | Some job =>
    match JResults job !! step with
    | Some result => ok (Some result)
    | None =>
      if negb (String.eqb (JPending job) "")
      then Ret (Err (Errorf "etapa %s teve resultado incerto; reconcilie os recursos no host antes de retomar" [JPending job] []))
      else
        do _ ← modify (alter_job (begin_step step) jobID);
        try _ ← save;
        ok None
    end
  end.

Definition step_end (jobID step : string) (result : json) : prog (Errors.result json) :=
  do _ ← modify (alter_job (end_step step result) jobID);
  try _ ← save;
  ok result.

Definition step (jobID step cap method path : string) (body : json) : prog (result json) :=
  try known ← atomic (step_begin jobID step);
  match known with
  | Some result => ok result
  | None =>
    try result ← ext (WCall (Some (jobID, step)) cap method path body);
    atomic (step_end jobID step result)
  end.

(** [value[key]] of an object, which must be a valid id. *)
Definition resultID (raw : json) (key : string) : result string :=
  match as_fields raw with
  | None => Err (Errorf "json: cannot unmarshal %s into Go value of type map[string]json.RawMessage" [json_kind raw] [])
  | Some fields =>
    match map_field key fields with
    | Some (JStr id) => if ValidRelayID id then Ok id else Err (Errorf "resposta Wire não contém %s válido" [key] [])
    | _ => Err (Errorf "resposta Wire não contém %s válido" [key] [])
    end
  end.

(** The kinds of the nodes of a canvas by id. *)
Fixpoint canvas_nodes (nodes : list (list (string * json))) (acc : gmap string string) : result (gmap string string) :=
  match nodes with
  | [] => Ok acc
  | n :: rest =>
    match as_string (struct_field "id" n), as_string (struct_field "kind" n) with
    | Some id, Some kind =>
      if String.eqb id "" then Err (Opaque "canvas contém nó sem ID") else canvas_nodes rest (<[id := kind]> acc)
    | _, _ => Err (Opaque "canvas inválido; criação não verificada")
    end
  end.

Definition well_typed (fields : list string) (n : list (string * json)) : bool :=
  forallb (λ f, match as_string (struct_field f n) with Some _ => true | None => false end) fields.

(** The [nodes] of a canvas document whose string fields are all strings. *)
Definition decode_nodes (fields : list string) (raw : option json) : option (list (list (string * json))) :=
  match raw with
  | None => None
  | Some j =>
    match as_fields j with
    | None => None
    | Some fs =>
      match as_structs (struct_field "nodes" fs) with
      | Some ns => if forallb (well_typed fields) ns then Some ns else None
      | None => None
      end
    end
  end.

Definition relayCanvas (raw : option json) : result (gmap string string) :=
  match decode_nodes ["id"; "kind"] raw with
  | None => Err (Opaque "canvas inválido; criação não verificada")
  | Some ns => canvas_nodes ns ∅
  end.

(** ** What is checked before anything is done *)

Section Deploy.
Context {U : UnicodeTables} {P : UrlParser} {TO : TopicOrder}.
Context (r : Relay).

(** The SHA-256 of the plan's JSON; nothing is assumed of it. *)
Context (digest : MaestroPlan → string).

Notation cfg := (RConfig r).

Definition plan_error (jobID : string) (plan : MaestroPlan) : option error :=
  if negb (String.eqb (Action plan) "") && negb (String.eqb (Action plan) "create")
  then Some (Opaque "somente planos com action create podem ser aplicados")
  else if negb (ValidRelayID jobID) then Some (Opaque "ID de criação inválido")
  else match Validate (PArrangement plan) with
  | Some e => Some e
  | None =>
    if String.eqb (WorkspaceID plan) "" then
      if String.eqb (trim_space (WorkspaceName plan)) "" || String.eqb (trim_space (Directory plan)) ""
      then Some (Opaque "novo workspace precisa de nome e diretório explícitos")
      else if negb (Allows cfg "*") then Some (Opaque "configuração não autoriza criar novos workspaces")
      else None
    else if negb (ValidRelayID (WorkspaceID plan)) || negb (Allows cfg (WorkspaceID plan))
    then Some (Opaque "workspace não autorizado")
    else None
  end.

Definition floor_error (plan : MaestroPlan) : option error :=
  if negb (String.eqb (PFloorID plan) "") && negb (ValidRelayID (PFloorID plan)) then Some (Opaque "andar inválido")
  else if negb (String.eqb (PFloorID plan) "") && negb (String.eqb (PFloorName plan) "")
  then Some (Opaque "escolha andar existente ou nome para um novo")
  else None.

Definition is_terminal (n : ArrangementNode) : bool := String.eqb (NKind n) "terminal".
Definition is_portal (n : ArrangementNode) : bool := String.eqb (NKind n) "portal".

Definition host_error (info : WireInfo) (plan : MaestroPlan) : option error :=
  if negb (String.eqb (IRole info) "owner") then Some (Opaque "criação exige pareamento owner")
  else match List.find (λ cap, negb (Has info cap)) ["canvasWrites"; "feedSnapshots"] with
  | Some cap => Some (Errorf "host sem %s" [cap] [])
  | None =>
    if String.eqb (WorkspaceID plan) "" && negb (Has info "workspaceManagement")
    then Some (Opaque "host sem workspaceManagement")
    else if negb (String.eqb (PFloorName plan) "") && negb (Has info "floorManagement")
    then Some (Opaque "host sem floorManagement")
    else if existsb is_terminal (Nodes (PArrangement plan)) && (negb (Has info "roleManagement") || negb (Has info "terminalDrafts"))
    then Some (Opaque "host precisa de roleManagement e terminalDrafts")
    else None
  end.

Definition floor_found (plan : MaestroPlan) (feed : WireFeed) : bool :=
  String.eqb (PFloorID plan) ""
  || existsb (λ f, String.eqb (FlID f) (PFloorID plan) && negb (IsCloneMissing f)) (Floors feed).

(** [return err] as a step of a program. *)
Definition guard {A} (e : option error) (k : prog (result A)) : prog (result A) :=
  match e with Some e => Ret (Err e) | None => k end.

Definition check_plan (jobID : string) (plan : MaestroPlan) : prog (result WireInfo) :=
  guard (plan_error jobID plan) (guard (floor_error plan) (
    try info ← ext WInfo;
    guard (host_error info plan) (
      if String.eqb (WorkspaceID plan) "" then ok info
      else
        try feed ← ext (WFeed (WorkspaceID plan) (PFloorID plan));
        if floor_found plan feed then ok info
        else fails "andar de destino inexistente ou sem checkout"))).

(** The job on record, or a new one; [true] when it is already done. *)
Definition register_job (jobID : string) (plan : MaestroPlan) : prog (result bool) :=
  do m ← get;
  match Jobs (rstate m) !! jobID with
  | Some job =>
    if negb (String.eqb (digest (JPlan job)) (digest plan)) then fails "ID de criação já usado por outro plano"
    else if JDone job then ok true
    else try _ ← save; ok false
  | None =>
    do _ ← modify (with_jobs (insert jobID (mkJob plan "" ∅ false)));
    try _ ← save; ok false
  end.

(** ** Presets and portals *)

Definition with_preset (n : ArrangementNode) (id : string) : ArrangementNode :=
  mkNode (NID n) (NKind n) (NName n) id (NAgentType n) (NPrompt n) (NText n) (NURL n) (Manager n)
    (X n) (Y n) (Width n) (Height n).

Definition preset_matches (presets : list AgentPreset) (n : ArrangementNode) : list AgentPreset :=
  List.filter (λ p, String.eqb (PsAgentType p) (NAgentType n) || (String.eqb (NAgentType n) "" && IsDefault p)) presets.

Definition resolve_node (presets : list AgentPreset) (n : ArrangementNode) : result ArrangementNode :=
  if negb (is_terminal n) then Ok n
  else if String.eqb (PresetID n) "" then
    match preset_matches presets n with
    | [p] => Ok (with_preset n (PsID p))
    | ms => Err (Errorf "selecione preset instalado para %s; correspondências: %d" [NName n; itoa (Z.of_nat (length ms))] [])
    end
  else if existsb (λ p, String.eqb (PsID p) (PresetID n)) presets then Ok n
  else Err (Errorf "preset inexistente: %s" [PresetID n] []).

Fixpoint resolve_nodes (presets : list AgentPreset) (l : list ArrangementNode) : result (list ArrangementNode) :=
  match l with
  | [] => Ok []
  | n :: l' =>
    match resolve_node presets n with
    | Err e => Err e
    | Ok n' => match resolve_nodes presets l' with Err e => Err e | Ok l'' => Ok (n' :: l'') end
    end
  end.

Definition with_nodes (a : Arrangement) (ns : list ArrangementNode) : Arrangement :=
  mkArrangement (ArID a) (ArName a) (Description a) (Source a) (Revision a) ns (Connections a).

(** No portal, a portal whose native form is installed, or one to import. *)
Inductive native_form := NoNative | Installed (id : string) | ImportRequired (native : list (string * json)).

Definition installed_ids (raw : json) : option (list string) :=
  match as_fields raw with
  | None => None
  | Some fs =>
    match as_structs (struct_field "partituras" fs) with
    | Some ps => mapM (λ p, as_string (struct_field "id" p)) ps
    | None => None
    end
  end.

Definition native_phase (info : WireInfo) (a : Arrangement) (presets : list AgentPreset) : prog (result native_form) :=
  if negb (existsb is_portal (Nodes a)) then ok NoNative
  else
    match Native r with
    | None => fails "exportador de partituras não configurado"
    | Some export =>
      match export a presets with
      | Err e => Ret (Err e)
      | Ok native =>
        let nativeID := match map_field "id" native with Some (JStr s) => s | _ => "" end in
        if negb (Has info "partituras") then ok (ImportRequired native)
        else
          try raw ← ext (WCall None "partituras" "GET" "/api/partituras" JNull);
          match installed_ids raw with
          | None => fails "resposta Wire inválida"
          | Some ids => if existsb (λ id, equal_fold id nativeID) ids then ok (Installed nativeID) else ok (ImportRequired native)
          end
      end
    end.

(** ** Where the team goes *)

Definition workspace_phase (jobID : string) (plan : MaestroPlan) : prog (result string) :=
  if String.eqb (WorkspaceID plan) "" then
    try result ← step jobID "workspace" "workspaceManagement" "POST" "/api/workspaces"
      (JObj [("name", JStr (WorkspaceName plan)); ("workingDirectory", JStr (Directory plan)); ("createDirectory", JBool true)]);
    Ret (resultID result "workspaceId")
  else ok (WorkspaceID plan).

(** The wait for a new floor, a second at a time; the context of [Deploy]
    ends after five minutes. *)
Definition deploy_seconds : nat := 301.
Fixpoint await_floor (fuel : nat) (ws floor : string) : prog (result ()) :=
  match fuel with
  | O => Ret (Err (Foreign CtxDeadlineExceeded))
  | S fuel =>
    try feed ← ext (WFeed ws "ground");
    if existsb (λ f, String.eqb (FlID f) floor) (Floors feed) then ok ()
    else if existsb (λ p, String.eqb (fst p) floor && negb (String.eqb (snd p) "")) (PendingFloors feed)
    then fails "criação do andar falhou no host"
    else
      try _ ← ext WaitSecond;
      await_floor fuel ws floor
  end.

Definition floor_phase (jobID : string) (plan : MaestroPlan) (ws : string) : prog (result string) :=
  if negb (String.eqb (PFloorName plan) "") then
    try result ← step jobID "floor" "floorManagement" "POST" ("/api/workspaces/" +:+ ws +:+ "/floors")
      (JObj [("name", JStr (PFloorName plan)); ("gitIsolation", JBool false)]);
    match resultID result "floorId" with
    | Err e => Ret (Err e)
    | Ok floor =>
      try _ ← await_floor deploy_seconds ws floor;
      ok floor
    end
  else ok (PFloorID plan).

Definition withFloor (floor : string) (body : list (string * json)) : json :=
  JObj (if String.eqb floor "" then body else body ++ [("floorId", JStr floor)]).

Definition ws_base (ws : string) : string := "/api/workspaces/" +:+ ws.

(** ** A native arrangement *)

(** The canvas as it was before the arrangement was applied. *)
Definition native_before (jobID ws floor : string) : prog (result (option json)) :=
  do m ← atomic get;
  match Jobs (rstate m) !! jobID ≫= (λ j, JResults j !! "native-before") with
  | Some raw => ok (Some raw)
  | None =>
    try before ← ext (WFeed ws floor);
    match relayCanvas (Canvas before), Canvas before with
    | Err e, _ => Ret (Err e)
    | Ok _, None => ok None
    | Ok _, Some raw =>
      try _ ← atomic (do _ ← modify (alter_job (store_result "native-before" raw) jobID); save);
      ok (Some raw)
    end
  end.

Definition count_add (d : Z) (kind : string) (counts : gmap string Z) : gmap string Z :=
  <[kind := default 0 (counts !! kind) + d]> counts.

(** Per kind, the nodes that are new on the canvas less those of the plan. *)
Definition missing_counts (before after : gmap string string) (nodes : list ArrangementNode) : gmap string Z :=
  foldl (λ counts n, count_add (-1) (NKind n) counts)
    (foldl (λ counts ik, if before !! ik.1 then counts else count_add 1 ik.2 counts) ∅ (map_to_list after)) nodes.

Definition apply_native (jobID nativeID ws floor : string) (nodes : list ArrangementNode) : prog (result ()) :=
  try beforeRaw ← native_before jobID ws floor;
  try _ ← step jobID "partitura" "partituras" "POST" (ws_base ws +:+ "/partituras")
    (withFloor floor [("partituraId", JStr nativeID); ("x", jint 1000); ("y", jint 1000); ("mutationId", JStr (jobID +:+ "-partitura"))]);
  try after ← ext (WFeed ws floor);
  match relayCanvas beforeRaw, relayCanvas (Canvas after) with
  | Err e, _ | _, Err e => Ret (Err e)
  | Ok beforeNodes, Ok afterNodes =>
    if existsb (λ kc, snd kc <? 0) (map_to_list (missing_counts beforeNodes afterNodes nodes))
    then Ret (Err (Opaque ("a partitura ainda não foi confirmada no canvas; retome com /resume " +:+ jobID)))
    else ok ()
  end.

(** ** Node by node *)

Definition create_role (jobID ws : string) (n : ArrangementNode) : prog (result string) :=
  try role ← step jobID ("role-" +:+ NID n) "roleManagement" "POST" "/api/roles"
    (JObj [("name", JStr (NName n +:+ " · " +:+ jobID)); ("prompt", JStr (NPrompt n)); ("workspaceId", JStr ws);
           ("color", JStr "#007AFF"); ("icon", JStr "person.text.rectangle")]);
  Ret (resultID role "id").

(** The body and route that create a node, after its role if it is a terminal. *)
Definition node_request (jobID ws floor : string) (n : ArrangementNode) : prog (result (string * json)) :=
  let common := [("x", JNum (X n)); ("y", JNum (Y n)); ("mutationId", JStr (jobID +:+ "-" +:+ NID n))]
                ++ (if String.eqb floor "" then [] else [("floorId", JStr floor)]) in
  if is_terminal n then
    try roleID ← create_role jobID ws n;
    ok (ws_base ws +:+ "/terminals",
        JObj (common ++ [("presetId", JStr (PresetID n)); ("name", JStr (NName n)); ("roleId", JStr roleID);
                         ("maestroMode", JBool (Manager n)); ("monitorActivity", JBool true)]))
  else ok (ws_base ws +:+ "/nodes", JObj (common ++ [("kind", JStr "note"); ("text", JStr (NText n))])).

Definition create_node (jobID ws floor : string) (n : ArrangementNode) : prog (result string) :=
  try request ← node_request jobID ws floor n;
  try result ← step jobID ("node-" +:+ NID n) "canvasWrites" "POST" (fst request) (snd request);
  match resultID result "nodeId" with
  | Err e => Ret (Err e)
  | Ok id =>
    try _ ← step jobID ("frame-" +:+ NID n) "canvasWrites" "POST" (ws_base ws +:+ "/nodes/" +:+ id +:+ "/frame")
      (JObj [("x", JNum (X n)); ("y", JNum (Y n)); ("width", JNum (Width n)); ("height", JNum (Height n));
             ("mutationId", JStr (jobID +:+ "-frame-" +:+ NID n))]);
    ok id
  end.

Fixpoint create_nodes (jobID ws floor : string) (l : list ArrangementNode) (ids : gmap string string) : prog (result (gmap string string)) :=
  match l with
  | [] => ok ids
  | n :: l' =>
    try id ← create_node jobID ws floor n;
    create_nodes jobID ws floor l' (<[NID n := id]> ids)
  end.

Fixpoint create_edges (jobID ws : string) (ids : gmap string string) (i : nat) (l : list ArrangementConnection) : prog (result ()) :=
  match l with
  | [] => ok ()
  | c :: l' =>
    let s := "edge-" +:+ itoa (Z.of_nat i) in
    try _ ← step jobID s "canvasWrites" "POST" (ws_base ws +:+ "/connections")
      (JObj [("fromNodeId", JStr (default "" (ids !! From c))); ("toNodeId", JStr (default "" (ids !! To c)));
             ("mutationId", JStr (jobID +:+ "-" +:+ s))]);
    create_edges jobID ws ids (S i) l'
  end.

(** All the nodes created are on the canvas. *)
Definition confirm_nodes (jobID ws floor : string) (ids : gmap string string) : prog (result ()) :=
  try feed ← ext (WFeed ws floor);
  match decode_nodes ["id"] (Canvas feed) with
  | None => fails "não foi possível verificar os nós criados"
  | Some ns =>
    let found := omap (λ n, as_string (struct_field "id" n)) ns in
    if forallb (λ ni, existsb (String.eqb (snd ni)) found) (map_to_list ids) then ok ()
    else Ret (Err (Opaque ("host ainda não confirmou todos os nós; retome com /resume " +:+ jobID)))
  end.

Definition create_team (jobID ws floor : string) (a : Arrangement) : prog (result ()) :=
  try ids ← create_nodes jobID ws floor (Nodes a) ∅;
  try _ ← create_edges jobID ws ids 0 (Connections a);
  confirm_nodes jobID ws floor ids.

(** ** The whole *)

Inductive deployed := Deployed (message : string) | MustImport (native : list (string * json)).

Definition place_team (jobID nativeID : string) (plan : MaestroPlan) (a : Arrangement) : prog (result deployed) :=
  try ws ← workspace_phase jobID plan;
  try floor ← floor_phase jobID plan ws;
  try _ ← (if negb (String.eqb nativeID "") then apply_native jobID nativeID ws floor (Nodes a) else create_team jobID ws floor a);
  try _ ← atomic (do _ ← modify (alter_job job_done jobID); save);
  ok (Deployed ("Equipe " +:+ ArName a +:+ " criada. Workspace " +:+ ws +:+ ", andar " +:+ floor +:+ ". Criação " +:+ jobID +:+ ".")).

Definition Deploy (jobID : string) (plan : MaestroPlan) : prog (result deployed) :=
  try info ← check_plan jobID plan;
  try finished ← atomic (register_job jobID plan);
  if (finished : bool) then ok (Deployed ("Criação " +:+ jobID +:+ " já concluída; nada foi repetido."))
  else
    try presets ← ext WPresets;
    match resolve_nodes presets (Nodes (PArrangement plan)) with
    | Err e => Ret (Err e)
    | Ok nodes =>
      let a := with_nodes (PArrangement plan) nodes in
      try native ← native_phase info a presets;
      match native with
      | ImportRequired n => ok (MustImport n)
      | Installed id => place_team jobID id plan a
      | NoNative => place_team jobID "" plan a
      end
    end.

End Deploy.
