(* ===== verification/RelayInbound.v ===== *)
(** internal/app/relay_inbound.go: what the relay does with an event of the
    group: commands, prompts, buttons and attachments. *)
From S2P Require Import Prelude GoStrings Errors Status Config Events Attachment AppText Redact Json RelayDomain RelayJson RelayProg Relay RelayDeploy.
Local Open Scope Z_scope.

Definition relayHelp : string :=
  join ["Maestri Relay";
    "/status ou /workspaces: andares e conexões";
    "/agents: agentes do tópico; responda ao card para conversar";
    "/screen: prévia do terminal escolhido";
    "/focus, /stop, /interrupt, /close: controlar o agente escolhido";
    "/mute e /unmute: notificações do andar";
    "/partituras <descrição>: buscar todo o catálogo";
    "/apply <id>: aplicar exemplo neste andar";
    "/adapt <id> <descrição>: adaptar exemplo com IA";
    "/create <descrição>: criar equipe com IA";
    "/preview <descrição>: somente gerar o plano";
    "/resume <id>: retomar criação com resultados já registrados";
    "/bind <workspace-id> <floor-id|ground> <topic-id>: recuperar vínculo de tópico";
    "Texto sem resposta vai ao coordenador do andar. No tópico Maestro, texto cria uma equipe pela descrição."] nl.

(** [strings.Cut]. *)
Definition cut (s sep : string) : string * string :=
  match str_cut s sep with Some (b, a) => (b, a) | None => (s, "") end.

Section Inbound.
Context {U : UnicodeTables} {P : UrlParser} {TO : TopicOrder}.
Context (r : Relay) (digest : MaestroPlan → string).

(** [err.Error()]. *)
Context (error_text : error → string).

Notation cfg := (RConfig r).

(** ** Reports *)

Definition topic_state (m : mem) (t : relayTopic) : string :=
  if RPending t then "criação incerta"
  else if bool_decide (feeds m !! RWorkspace t = None) && negb (String.eqb (RWorkspace t) "maestro")
  then "indisponível" else "conectado".

Definition status (thread : Z) : prog (result ()) :=
  atomic (
    do m ← get;
    let topics := Topics (rstate m) in
    let line key :=
      match topics !! key with
      | None => []
      | Some t => [RName t +:+ ": " +:+ topic_state m t +:+ " (" +:+ topicLink (RChatID cfg) (RThread t) +:+ ")"]
      end in
    say r thread (join ("Maestri Relay" :: concat (map line (merge_sort String.le (map_to_list topics).*1))) nl)).

(** The last topic of the thread the iteration meets. *)
Definition last_topic (p : relayTopic → bool) (topics : gmap string relayTopic) : option relayTopic :=
  last (List.filter p (map snd (visit topics))).

Definition agent_buttons : list Button := [mkButton "Tela" "screen" 1; mkButton "Foco" "focus" 1].

Definition agent_card (topic : relayTopic) (thread : Z) (feed : WireFeed) (item : WireItem) : prog (result ()) :=
  let a := Terminal item in
  do at_ ← ext Now;
  atomic (sendTarget r
    (mkTarget (RWorkspace topic) (RFloor topic) (TermID a) (Epoch feed) thread (ItPrompt item) at_ [])
    ("[" +:+ TermName a +:+ "] " +:+ TermStatus a +:+ nl +:+ "Responda a esta mensagem para conversar com este agente.")
    agent_buttons false).

Definition agents (thread : Z) : prog (result ()) :=
  do found ← atomic (do m ← get; Ret (last_topic (λ t, RThread t =? thread) (Topics (rstate m))));
  let topic := default (mkRTopic "" "" "" 0 false false) found in
  if negb (Allows cfg (RWorkspace topic)) then fails "abra um tópico Workspace · Andar"
  else
    try feed ← ext (WFeed (RWorkspace topic) (RFloor topic));
    let items := List.filter (λ it, negb (String.eqb (TermID (Terminal it)) "")
                                    && String.eqb (FloorID (Terminal it)) (RFloor topic)) (Items feed) in
    try _ ← each (agent_card topic thread feed) items;
    if Nat.eqb (length items) 0 then say r thread "Nenhum agente neste andar." else ok ().

(** ** Acting on a terminal *)

Definition terminal_path (id suffix : string) : string := "/api/terminals/" +:+ id +:+ "/" +:+ suffix.

(** [out] is nil: the answer is not decoded. *)
Definition call_ (cap path : string) (body : json) : prog (result ()) :=
  try _ ← ext (WCall None cap "POST" path body);
  ok ().

Definition screen_text (a : WireTerminal) : string := "[" +:+ TermName a +:+ "]" +:+ nl +:+ join (Preview a) nl.

Definition button_ttl : Duration := 10 * Minute.

Definition clear_actions (t : relayTarget) : relayTarget :=
  mkTarget (TgWorkspace t) (TgFloor t) (TgTerminal t) (TgEpoch t) (TgThread t) (TgPrompt t) (TgAt t) [].
Definition zero_target : relayTarget := mkTarget "" "" "" "" 0 "" time_zero [].

(** The press is used up and saved, then asked of the host. *)
Definition press (e : ButtonPressed) (terminal : string) : prog (result ()) :=
  try _ ← atomic (
    do _ ← modify (with_replies (λ m, <[BtnMessageID e := clear_actions (default zero_target (m !! BtnMessageID e))]> m));
    save);
  try _ ← ext (WCall None (if String.eqb (BtnData e) "focus" then "terminalFocus" else "") "POST"
                 (terminal_path terminal (BtnData e)) (JObj []));
  do _ ← ext (TEditButtons (BtnMessageID e) []);
  ok ().

Definition button (e : ButtonPressed) : prog (result ()) :=
  do bound ← atomic (do m ← get; Ret (Replies (rstate m) !! BtnMessageID e));
  do now ← ext Now;
  let b := default zero_target bound in
  if bool_decide (bound = None) || negb (existsb (String.eqb (BtnData e)) (TgActions b))
     || negb (TgThread b =? BtnThreadID e) || (button_ttl <? time_sub now (TgAt b))
  then fails "botão expirado ou inválido; consulte /agents"
  else if String.eqb (BtnData e) "cancel" then ext (TEditButtons (BtnMessageID e) [])
  else
    try ta ← target r (BtnThreadID e) (BtnMessageID e) "";
    let '(t, agent) := ta in
    if String.eqb (BtnData e) "screen" then atomic (sendTarget r t (screen_text agent) [] false)
    else if String.eqb (BtnData e) "approve" || String.eqb (BtnData e) "reject" then
      if String.eqb (TgPrompt t) "" || negb (String.eqb (TgPrompt t) (TgPrompt b))
      then fails "a pergunta mudou; aguarde a notificação atual"
      else press e (TgTerminal t)
    else if String.eqb (BtnData e) "kill" || String.eqb (BtnData e) "focus" then press e (TgTerminal t)
    else fails "ação desconhecida".

Definition kind_text (k : AttachmentKind) : string :=
  match k with
  | AttachmentPhoto => "photo" | AttachmentDocument => "document" | AttachmentVoice => "voice"
  | AttachmentAudio => "audio" | AttachmentVideo => "video"
  end.

Definition max_download : Z := Z.shiftl 8 20.

Definition attachment (e : TopicAttachment) : prog (result ()) :=
  try first ← target r (AttThreadID e) (AttReplyTo e) "";
  try ta ← target r (AttThreadID e) (AttReplyTo e) (TgTerminal (fst first));
  let t := fst ta in
  try b ← ext (TDownload (FileID e) max_download);
  let name := if String.eqb (AttName e) "" then kind_text (AttKind e) +:+ ".bin" else AttName e in
  try id ← ext (WUpload (TgTerminal t) name (MIME e) b);
  let file := JObj [("attachmentId", JStr id)] in
  let segments := if String.eqb (Caption e) "" then [file] else [JObj [("text", JStr (Caption e))]; file] in
  call_ "promptSegments" (terminal_path (TgTerminal t) "prompt") (JObj [("segments", JArr segments)]).

(** ** The catalogue *)

Definition score (words : list string) (a : Arrangement) : Z :=
  let hay := to_lower (ArName a +:+ " " +:+ Description a) in
  Z.of_nat (length (List.filter (contains hay) words)).

(** [sort.SliceStable] by falling score. *)
Fixpoint insert_scored (x : Arrangement * Z) (l : list (Arrangement * Z)) : list (Arrangement * Z) :=
  match l with
  | [] => [x]
  | y :: l' => if snd y <=? snd x then x :: l else y :: insert_scored x l'
  end.
Definition sort_scored (l : list (Arrangement * Z)) : list (Arrangement * Z) := foldr insert_scored [] l.

Definition catalog_matches (query : string) (entries : list Arrangement) : list (Arrangement * Z) :=
  let words := fields (to_lower query) in
  sort_scored (List.filter (λ m, Nat.eqb (length words) 0 || (0 <? snd m)) (map (λ a, (a, score words a)) entries)).

Definition max_results : nat := 12.

Definition catalog (thread : Z) (query : string) : prog (result ()) :=
  match Catalog r with
  | None => fails "catálogo ausente; execute catalog-sync"
  | Some c =>
    let matches := catalog_matches query (CatList c) in
    let first := "Catálogo: " +:+ itoa (Z.of_nat (length (CatList c))) +:+ " entradas; " +:+ itoa (Z.of_nat (length matches))
                 +:+ " resultados. Use /apply ID neste andar ou /adapt ID descrição." in
    let lines := first :: map (λ m, ArName (fst m) +:+ nl +:+ ArID (fst m)) (take max_results matches)
                 ++ (if Nat.ltb max_results (length matches) then ["Refine a descrição para ver outros resultados."] else []) in
    say r thread (join lines (nl +:+ nl))
  end.

(** ** Binding a thread by hand *)

Definition bind_floor (floor : string) (feed : WireFeed) : option string :=
  foldl (λ acc v, if String.eqb (FlID v) floor then Some (FlName v) else acc)
    (if String.eqb floor "" then Some ground_name else None) (Floors feed).

Definition bind_save (ws floor : string) (thread : Z) (name : string) : prog (result ()) :=
  do m ← get;
  if existsb (λ kt, (RThread (snd kt) =? thread) && negb (String.eqb (fst kt) (scope ws floor))) (visit (Topics (rstate m)))
  then fails "tópico já vinculado a outro andar"
  else
    do _ ← modify (with_topics (insert (scope ws floor) (mkRTopic ws floor name thread false false)));
    save.

Definition bind (args : string) : prog (result ()) :=
  match fields args with
  | [ws; fl; th] =>
    match atoi th with
    | Some thread =>
      if thread <=? 0 then fails "topic-id inválido"
      else
        let floor := if String.eqb fl "ground" then "" else fl in
        if negb (Allows cfg ws) then fails "workspace não autorizado"
        else
          try feed ← ext (WFeed ws floor);
          match bind_floor floor feed with
          | None => fails "andar inexistente"
          | Some name => atomic (bind_save ws floor thread (WsName (FWorkspace feed) +:+ " · " +:+ name))
          end
    | None => fails "topic-id inválido"
    end
  | _ => fails "use /bind workspace-id floor-id|ground topic-id"
  end.

(** ** Creating a team *)

Definition empty_arrangement : Arrangement := mkArrangement "" "" "" "" "" [] [].

(** Where a request of this thread goes. *)
Definition maestro_base (thread : Z) : prog MaestroPlan :=
  do found ← atomic (do m ← get;
    Ret (last_topic (λ t, (RThread t =? thread) && negb (String.eqb (RWorkspace t) "maestro")) (Topics (rstate m))));
  Ret (match found with
       | Some t => mkPlan "" "" (RWorkspace t) "" "" (RFloor t) "" empty_arrangement
       | None => mkPlan "" "" "" "" "" "" "" empty_arrangement
       end).

Definition with_arrangement (p : MaestroPlan) (a : Arrangement) : MaestroPlan :=
  mkPlan (Action p) (Message p) (WorkspaceID p) (WorkspaceName p) (Directory p) (PFloorID p) (PFloorName p) a.

(** The base with the catalogue's arrangement, and what is left of the text. *)
Definition maestro_catalog (command args : string) (base : MaestroPlan) : result (MaestroPlan * string) :=
  if String.eqb command "/apply" || String.eqb command "/adapt" then
    match Catalog r with
    | None => Err (Opaque "catálogo não instalado")
    | Some c =>
      let '(id, rest) := cut args " " in
      match CatGet c id with
      | Err e => Err e
      | Ok a =>
        if String.eqb command "/apply" && String.eqb (WorkspaceID base) ""
        then Err (Opaque "use /apply no tópico Workspace · Andar desejado")
        else Ok (with_arrangement base a, trim_space rest)
      end
    end
  else Ok (base, args).

Fixpoint allowed_workspaces (wss : list WireWorkspace) : prog (result (list WireWorkspace)) :=
  match wss with
  | [] => ok []
  | ws :: wss' =>
    if Allows cfg (WsID ws) && negb (IsLocked ws) then
      try feed ← ext (WFeed (WsID ws) "ground");
      try rest ← allowed_workspaces wss';
      ok (mkWireWorkspace (WsID ws) (WsName ws) (WorkingDirectory ws) (IsLocked ws) (Floors feed) :: rest)
    else allowed_workspaces wss'
  end.

(** The planner's plan, which keeps the destination of the topic; or an
    answer that has been said ([None]). *)
Definition maestro_plan (thread : Z) (base : MaestroPlan) (args : string) : prog (result (option MaestroPlan)) :=
  if String.eqb (trim_space args) "" then fails "descreva a equipe ou adaptação desejada"
  else if negb (HasPlanner r) then fails "planejador não configurado"
  else
    try wss ← ext WWorkspaces;
    try allowed ← allowed_workspaces wss;
    try presets ← ext WPresets;
    try plan ← ext (PPlan args base allowed presets);
    if String.eqb (Action plan) "answer" then
      try _ ← say r thread (Message plan);
      ok None
    else if negb (String.eqb (WorkspaceID base) "")
            && (negb (String.eqb (WorkspaceID plan) (WorkspaceID base)) || negb (String.eqb (PFloorID plan) (PFloorID base))
                || negb (String.eqb (WorkspaceName plan) "") || negb (String.eqb (PFloorName plan) ""))
    then fails "pedido mudou o destino do tópico; use Maestro para criar outro workspace/andar"
    else ok (Some plan).

Definition import_text : string :=
  "partitura com portais precisa ser importada na biblioteca do host antes da aplicação automática".
Definition job_of (key : string) : string := replace_all key ":" "-".
Definition creation_error (jobID : string) (e : error) : error := Errorf "criação %s: %w" [jobID] [e].

Definition maestro_deploy (thread : Z) (jobID : string) (plan : MaestroPlan) : prog (result ()) :=
  do outcome ← Deploy r digest jobID plan;
  match outcome with
  | Err e => Ret (Err (creation_error jobID e))
  | Ok (MustImport native) =>
    try _ ← ext (TSendDocument thread "Relay.maestripartitura" (JObj native)
      ("Importe esta partitura no Maestri; o Wire não oferece importação da biblioteca. Depois use /resume " +:+ jobID));
    Ret (Err (creation_error jobID (Opaque import_text)))
  | Ok (Deployed message) =>
    do _ ← Refresh r;
    say r thread message
  end.

Definition maestro (thread : Z) (key command args : string) : prog (result ()) :=
  do base ← maestro_base thread;
  match maestro_catalog command args base with
  | Err e => Ret (Err e)
  | Ok (base, args) =>
    try planned ← (if String.eqb command "/apply" then ok (Some base) else maestro_plan thread base args);
    match planned with
    | None => ok ()
    | Some plan =>
      if String.eqb command "/preview" || String.eqb (Action plan) "preview"
      then ext (TSendDocument thread "maestri-plan.json" (plan_json plan) "Prévia; nada foi criado.")
      else maestro_deploy thread (job_of key) plan
    end
  end.

(** ** Messages *)

Definition resume (thread : Z) (jobID : string) : prog (result ()) :=
  do job ← atomic (do m ← get; Ret (Jobs (rstate m) !! jobID));
  match job with
  | None => fails "criação não encontrada"
  | Some j =>
    try d ← Deploy r digest jobID (JPlan j);
    match d with
    | Deployed message => say r thread message
    | MustImport _ => Ret (Err (Opaque import_text))
    end
  end.

Definition mute (thread : Z) (muted : bool) : prog (result ()) :=
  atomic (
    do m ← get;
    match List.find (λ kt, RThread (snd kt) =? thread) (visit (Topics (rstate m))) with
    | Some (key, _) => do _ ← modify (with_topics (alter (set_muted muted) key)); save
    | None => fails "tópico desconhecido"
    end).

Definition passed_commands : list string := ["/clear"; "/compact"; "/model"; "/usage"].

(** The text goes to the agent; the message then stands for it. *)
Definition send_prompt (msg : Z) (t : relayTarget) (word text : string) : prog (result ()) :=
  if has_prefix word "/" && negb (existsb (String.eqb word) passed_commands)
  then fails "comando desconhecido; consulte /help"
  else
    do sent ← ext (WCall None "" "POST" (terminal_path (TgTerminal t) "prompt") (JObj [("text", JStr text)]));
    match sent with
    | Err e => Ret (Err (Errorf "envio não confirmado; não foi repetido automaticamente: %w" [] [e]))
    | Ok _ => atomic (do _ ← modify (with_replies (insert msg t)); save)
    end.

Definition close_buttons : list Button := [mkButton "Sim, encerrar" "kill" 0; mkButton "Cancelar" "cancel" 0].

Definition to_agent (thread msg reply : Z) (word text : string) : prog (result ()) :=
  try first ← target r thread reply "";
  try ta ← target r thread reply (TgTerminal (fst first));
  let '(t, agent) := ta in
  if String.eqb word "/screen" then atomic (sendTarget r t (screen_text agent) [] false)
  else if String.eqb word "/focus" then call_ "terminalFocus" (terminal_path (TgTerminal t) "focus") (JObj [])
  else if String.eqb word "/stop" then ext (WInput (TgTerminal t) [27])
  else if String.eqb word "/interrupt" then ext (WInput (TgTerminal t) [3])
  else if String.eqb word "/close"
  then atomic (sendTarget r t ("Encerrar o processo de " +:+ TermName agent +:+ "?") close_buttons false)
  else if String.eqb word "/approve" || String.eqb word "/reject"
  then fails "responda usando os botões da pergunta atual"
  else send_prompt msg t word text.

Definition free_text (thread msg reply : Z) (key word text : string) : prog (result ()) :=
  do isMaestro ← atomic (do m ← get;
    Ret (match Topics (rstate m) !! scope "maestro" "" with Some t => RThread t =? thread | None => false end));
  if (isMaestro : bool) then maestro thread key "/create" text else to_agent thread msg reply word text.

Definition word_in (word : string) (l : list string) : bool := existsb (String.eqb word) l.

Definition dispatch (thread msg reply : Z) (key text : string) : prog (result ()) :=
  let '(word, args) := cut (trim_space text) " " in
  let '(word, _) := cut word "@" in
  let args := trim_space args in
  if word_in word ["/help"; "/start"] then say r thread relayHelp
  else if word_in word ["/status"; "/workspaces"; "/floors"] then status thread
  else if String.eqb word "/agents" then agents thread
  else if word_in word ["/partituras"; "/catalog"] then catalog thread args
  else if word_in word ["/apply"; "/adapt"; "/create"; "/preview"] then maestro thread key word args
  else if String.eqb word "/resume" then resume thread args
  else if String.eqb word "/bind" then bind args
  else if word_in word ["/mute"; "/unmute"] then mute thread (String.eqb word "/mute")
  else free_text thread msg reply key word text.

(** [k] runs if the event has not been seen. *)
Definition first_time (key : string) (k : prog (result ())) : prog (result ()) :=
  try new ← once key;
  if (new : bool) then k else ok ().

Definition message (thread msg reply user : Z) (text : string) : prog (result ()) :=
  let key := "m:" +:+ itoa msg in
  if negb (Operator cfg user) then ok ()
  else first_time key (dispatch thread msg reply key text).

(** The thread the answer belongs to, and what [Handle] does. *)
Definition event_thread (ev : Event) : Z :=
  match ev with
  | EvTopicMessage e => MsgThreadID e
  | EvButtonPressed e => BtnThreadID e
  | EvTopicAttachment e => AttThreadID e
  | _ => 0
  end.

Definition Handle (ev : Event) : prog (result ()) :=
  match ev with
  | EvTopicMessage e => message (MsgThreadID e) (MsgMessageID e) (MsgReplyTo e) (MsgFromID e) (MsgText e)
  | EvGeneralCommand e =>
    if negb (Operator cfg (GenFromID e)) then
      if bool_decide (GenRole e = RoleObserver) && (String.eqb (GenText e) "/help" || String.eqb (GenText e) "/status") then
        if String.eqb (GenText e) "/help" then say r 0 relayHelp else status 0
      else ok ()
    else message 0 (GenMessageID e) 0 (GenFromID e) (GenText e)
  | EvButtonPressed e =>
    if negb (Operator cfg (BtnFromID e)) then ok ()
    else first_time ("b:" +:+ CallbackID e)
      (do _ ← ext (TAnswerButton (CallbackID e) "Recebido"); button e)
  | EvTopicAttachment e =>
    if negb (Operator cfg (AttFromID e)) then ok ()
    else first_time ("m:" +:+ itoa (AttMessageID e)) (attachment e)
  | _ => ok ()
  end.

(** What the goroutine of [Run] does with an event: the error is posted. *)
Definition serve (ev : Event) : prog () :=
  do res ← Handle ev;
  match res with
  | Ok _ => Ret ()
  | Err e => do _ ← say r (event_thread ev) (error_text e); Ret ()
  end.

End Inbound.

(** * A concrete host, group and relay on which the theorems about the relay are
    tried. *)
#[global] Instance test_urls : UrlParser := {|
  url_parse s := if has_prefix s "https://" then Some (mkURL "https" (trim_prefix s "https://") false) else None
|}.

#[global, refine] Instance test_order : TopicOrder := {| visit m := map_to_list m |}.
Proof. done. Defined.

#[global] Existing Instance latin1_tables.

Definition test_config : RelayConfig :=
  mkRelayConfig "https://host" "pin" "" "" (-1001) [7] [] ["ws"] "" "" 5 "" "" "".

Definition test_relay : Relay := mkRelay test_config None false None.

Definition test_workspace : WireWorkspace := mkWireWorkspace "ws" "Demo" "/work" false [].
Definition test_floor : WireFloor := mkWireFloor "f1" "Review" false.
Definition test_terminal (id : string) (manager : bool) : WireTerminal :=
  mkWireTerminal id ("node-" +:+ id) ("agent " +:+ id) "codex" "f1" "Review" "idle" true true manager false ["$"].
Definition test_feed : WireFeed :=
  mkWireFeed test_workspace [test_floor]
    [mkWireItem "terminal" (test_terminal "a" true) ""; mkWireItem "terminal" (test_terminal "b" false) ""]
    "epoch1" (Some (JObj [("nodes", JArr [JObj [("id", JStr "created")]])])) [].
Definition test_info : WireInfo :=
  mkWireInfo "host" 1 ["canvasWrites"; "feedSnapshots"; "roleManagement"; "terminalDrafts"; "floorManagement"] "owner".

(** Every request succeeds; ids grow with the log. *)
Definition test_oracle : oracle := λ B o h,
  let id := Z.of_nat (length h) in
  match o in eop B return B with
  | WInfo => Ok test_info
  | WWorkspaces => Ok [test_workspace]
  | WFeed _ _ => Ok test_feed
  | WPresets => Ok [mkAgentPreset "preset" "Codex" "codex" "codex" true]
  | WCall _ _ _ _ _ => Ok (JObj [("id", JStr "role"); ("nodeId", JStr "created"); ("floorId", JStr "f1")])
  | WInput _ _ => Ok ()
  | WUpload _ _ _ _ => Ok "file"
  | TRights => Ok (true, true, true)
  | TCreate _ name _ => Ok (Status.mkTopic (100 + id) name "" false)
  | TEdit _ _ => Ok ()
  | TSend _ => Ok (1000 + id)
  | TEditButtons _ _ => Ok ()
  | TAnswerButton _ _ => Ok ()
  | TSendDocument _ _ _ _ => Ok ()
  | TDownload _ _ => Ok "bytes"
  | PPlan _ base _ _ => Ok base
  | Now => 1000 * Second + id
  | WaitSecond => Ok ()
  end.

Definition test_world : world :=
  let s := mkRState 1 (-1001) (relay_host test_config) ∅ ∅ ∅ ∅ in mkWorld (mkMem s ∅ ∅ None) s [].

Definition test_error (e : error) : string := match e with Opaque m => m | _ => "erro" end.
Definition test_digest (p : MaestroPlan) : string := ArName (PArrangement p).

(** A world after a first pass: the topics exist. *)
Definition test_up : world := (interp test_oracle (Refresh test_relay) test_world).2.

(** A one-agent team. *)
Definition num (n : Z) : spec_float := float64_of n.
Definition test_node (id : string) : ArrangementNode :=
  mkNode id "terminal" ("agent " +:+ id) "" "codex" "review" "" "" false (num 0) (num 0) (num 200) (num 100).
Definition test_team : Arrangement :=
  mkArrangement "team" "Team" "" "" "" [test_node "n1"; test_node "n2"] [mkConn "n1" "n2"].
Definition test_plan : MaestroPlan := mkPlan "create" "" "ws" "" "" "f1" "" test_team.

Definition test_message (msg reply user : Z) (text : string) : Event :=
  EvTopicMessage (mkTopicMessage 110 msg user text reply).

Example first_pass_makes_the_topics :
  map fst (map_to_list (Topics (rstate (wmem test_up)))) = ["ws/f1"; "ws/"; "maestro/"]
  ∧ (interp test_oracle (Refresh test_relay) test_world).1 = Ok ().
Proof. vm_compute. split; reflexivity. Qed.

Example deployment_runs :
  match (interp test_oracle (Deploy test_relay test_digest "m-1" test_plan) test_up).1 with
  | Ok (Deployed m) => m = "Equipe Team criada. Workspace ws, andar f1. Criação m-1."
  | _ => False
  end.
Proof. vm_compute. reflexivity. Qed.
