(* ===== verification/RelayOnce.v ===== *)
(** The relay creates each topic and performs each step of a job at most once,
    whatever handlers run at the same time and whenever the process dies.

    The pool of running handlers is a transition system: a handler makes one
    call, or runs one [Atomic] block; the process may die at any point and
    starts again from the state file with no handler running.  The locks of the
    source beyond the blocks (one refresh, one deployment, one message per
    terminal at a time) only remove interleavings. *)
From S2P Require Import Prelude GoStrings Errors Status Redact Json RelayDomain RelayProg Relay RelayDeploy Events RelayInbound.

Local Open Scope Z_scope.

(** ** Claims *)

(** What must not be asked twice. *)
Inductive claim := CTopic (key : string) | CStep (job step : string).

#[global] Instance claim_eq_dec : EqDecision claim.
Proof. solve_decision. Defined.

Definition claim_of {B} (o : eop B) : option claim :=
  match o with
  | WCall (Some (j, s)) _ _ _ _ => Some (CStep j s)
  | TCreate key _ _ => Some (CTopic key)
  | _ => None
  end.

Definition claim_at (e : event) : option claim :=
  match e with Asked o => claim_of o | Answered _ _ => None end.

(** How often [c] has been asked. *)
Definition asks (c : claim) (h : list event) : nat := length (filter (λ e, claim_at e = Some c) h).

(** The state records that [c] has been, or is being, asked. *)
Definition claimed (s : relayState) (c : claim) : Prop :=
  match c with
  | CTopic key => is_Some (Topics s !! key)
  | CStep j st => ∃ job, Jobs s !! j = Some job ∧ (is_Some (JResults job !! st) ∨ (JPending job = st ∧ st ≠ ""))
  end.

Record Safe (w : world) : Prop := {
  safe_once c : (asks c (log w) ≤ 1)%nat;
  safe_disk c : asks c (log w) ≠ 0%nat → claimed (disk w) c
}.

Record Inv (w : world) : Prop := {
  inv_safe : Safe w;
  inv_mem c : asks c (log w) ≠ 0%nat → claimed (rstate (wmem w)) c
}.

(** The step a handler has reserved: job, step, and whether it has asked. *)
Definition token : Type := option (string * string * bool).

Definition valid (t : token) (w : world) : Prop :=
  match t with
  | None => True
  | Some (j, st, asked) =>
    st ≠ "" ∧ claimed (disk w) (CStep j st) ∧ (∃ job, Jobs (rstate (wmem w)) !! j = Some job ∧ JPending job = st)
    ∧ (asked = false → asks (CStep j st) (log w) = 0%nat)
  end.

Definition apart (t u : token) : Prop :=
  match t, u with Some (j, _, _), Some (j', _, _) => j ≠ j' | _, _ => True end.

(** ** Programs that claim nothing new and leave the jobs alone *)

Definition quiet_policy : policy := {|
  may _ _ o := claim_of o = None;
  changes m m' := Jobs (rstate m') = Jobs (rstate m) ∧ dom (Topics (rstate m)) ⊆ dom (Topics (rstate m'));
  saves := True
|}.
Definition quiet {A} (p : prog A) : Prop := ∀ h, ensures quiet_policy p h (λ _ _, True).

(** A block after which every claim, and every token, is as good as before. *)
Definition keeps (w w' : world) : Prop := Inv w' ∧ ∀ t, valid t w → valid t w'.
Definition keeper {A} (p : prog A) : Prop := ∀ w, Inv w → swp p w Safe (λ _ w', keeps w w').

Lemma keeps_refl w : Inv w → keeps w w.
Proof. by split. Qed.

Lemma keeps_trans w1 w2 w3 : keeps w1 w2 → keeps w2 w3 → keeps w1 w3.
Proof. intros [_ H1] [? H2]. split; [done|]. auto. Qed.

Lemma asks_cons c e h : asks c (e :: h) = ((if decide (claim_at e = Some c) then 1 else 0) + asks c h)%nat.
Proof. unfold asks. rewrite filter_cons. by case_decide. Qed.

Lemma asks_note_quiet c {B} (o : eop B) b h :
  claim_of o = None → asks c (Asked o :: h) = asks c h ∧ asks c (Answered o b :: Asked o :: h) = asks c h.
Proof. intros E. rewrite !asks_cons. cbn [claim_at]. rewrite E. by rewrite !decide_False by done. Qed.

Lemma claimed_grow s s' c :
  Jobs s' = Jobs s → dom (Topics s) ⊆ dom (Topics s') → claimed s c → claimed s' c.
Proof.
  intros HJ HT. destruct c as [key|j st]; cbn [claimed].
  - rewrite <-!elem_of_dom. auto.
  - by rewrite HJ.
Qed.

Lemma keeps_log w w' :
  disk w' = disk w → wmem w' = wmem w → (∀ c, asks c (log w') = asks c (log w)) → Inv w → keeps w w'.
Proof.
  intros Hd Hm Hl [[H1 H2] H3]. split.
  - split; [split|]; intros c; rewrite Hl, ?Hd, ?Hm; auto.
  - intros [[[j st] a]|]; [|done]. cbn [valid]. by rewrite Hl, Hd, Hm.
Qed.

Lemma keeps_ask {B} (o : eop B) w : claim_of o = None → Inv w → keeps w (ask o w).
Proof. intros E. apply keeps_log; [done..|]. intros c. unfold ask, note. cbn [log]. rewrite asks_cons. cbn [claim_at]. by rewrite E. Qed.

Lemma keeps_answer {B} (o : eop B) b w : claim_of o = None → Inv w → keeps w (answer o b w).
Proof. intros E. apply keeps_log; [done..|]. intros c. by apply asks_note_quiet. Qed.

Lemma keeps_mem m w :
  Jobs (rstate m) = Jobs (rstate (wmem w)) → dom (Topics (rstate (wmem w))) ⊆ dom (Topics (rstate m)) →
  Inv w → keeps w (put_mem m w).
Proof.
  intros HJ HT [[H1 H2] H3]. split.
  - split; [by split|]. intros c Hc. eapply claimed_grow; [done|done|]. by apply H3.
  - intros [[[j st] a]|]; [|done]. cbn [valid put_mem wmem disk log]. by rewrite HJ.
Qed.

Lemma keeps_saved w : Inv w → keeps w (saved w).
Proof.
  intros [[H1 H2] H3]. split.
  - split; [by split|]. done.
  - intros [[[j st] a]|]; [|done]. cbn [valid saved wmem disk log]. intros (Hne & _ & (job & Hj & Hp) & Ha).
    split; [done|]. split; [|by eauto]. exists job. split; [done|]. by right.
Qed.

Lemma swp_keeps {A} (p : prog A) w w' Q :
  keeps w w' → swp p w' Safe (λ a w'', keeps w' w'' ∧ Q a) → swp p w' Safe (λ a w'', keeps w w'' ∧ Q a).
Proof. intros H. apply swp_mono. intros a w'' [? ?]. split; [|done]. by eapply keeps_trans. Qed.

Lemma quiet_swp {A} (p : prog A) (Q : list event → A → Prop) w0 w :
  ensures quiet_policy p (log w) Q → keeps w0 w → swp p w Safe (λ a w', keeps w0 w' ∧ Q (log w') a).
Proof.
  revert w Q. induction p as [A a|A B o k IH|A B f k IH|A k IH|A B q IHq k IH]; intros w Q; cbn [ensures swp];
    intros H Hk; pose proof Hk as [HI _]; (split; [apply HI|]).
  - done.
  - destruct H as [E H]. cbn in E. split; [by apply keeps_ask|].
    intros b. apply (IH b (answer o b w)); [apply H|]. eapply keeps_trans; [done|by apply keeps_answer].
  - destruct (H (wmem w)) as [[HJ HT] H']. apply (IH _ (put_mem _ w)); [done|].
    eapply keeps_trans; [done|by apply keeps_mem].
  - destruct H as [_ H]. assert (Hs : keeps w0 (saved w)) by (eapply keeps_trans; [done|by apply keeps_saved]).
    split; [apply Hs|]. split; [by apply (IH _ (saved w))|]. intros e. split; [by apply IH|by apply (IH _ (saved w))].
  - eapply swp_mono; [|exact (IHq w _ H Hk)]. intros b w' [Hk' H']. by apply IH.
Qed.

Lemma quiet_keeper {A} (p : prog A) : quiet p → keeper p.
Proof.
  intros Hq w HI. eapply swp_mono; [|apply (quiet_swp p _ w w (Hq _)); by apply keeps_refl].
  by intros a w' [? _].
Qed.

Lemma keeper_bind {A B} (p : prog A) (f : A → prog B) : keeper p → (∀ a, keeper (f a)) → keeper (pbind p f).
Proof.
  intros Hp Hf w HI. apply swp_bind. eapply swp_mono; [|by apply Hp]. intros a w' Hk.
  pose proof Hk as [HI' _]. eapply swp_mono; [|by apply Hf]. intros b w'' Hk'. exact (keeps_trans _ _ _ Hk Hk').
Qed.

Lemma keeper_ret {A} (a : A) : keeper (Ret a).
Proof. intros w HI. cbn. split; [apply HI|by apply keeps_refl]. Qed.

Lemma keeper_try {A B} (p : prog (result A)) (f : A → prog (result B)) :
  keeper p → (∀ a, keeper (f a)) → keeper (try x ← p; f x).
Proof. intros Hp Hf. apply keeper_bind; [done|]. intros [a|e]; [done|apply keeper_ret]. Qed.

Lemma keeper_each {A} (f : A → prog (result ())) l : (∀ x, keeper (f x)) → keeper (each f l).
Proof. intros Hf. induction l as [|x l IH]; cbn [each]; [apply keeper_ret|]. by apply keeper_try. Qed.

(** Asking for a claim that is on record and has never been asked. *)
Lemma claim_asked {B} (o : eop B) c w :
  claim_of o = Some c → Inv w → asks c (log w) = 0%nat → claimed (disk w) c → claimed (rstate (wmem w)) c →
  Safe (ask o w) ∧ ∀ b, Inv (answer o b w) ∧
    ∀ t, valid t w → (∀ j st, t = Some (j, st, false) → CStep j st ≠ c) → valid t (answer o b w).
Proof.
  intros E [[H1 H2] H3] H0 Hd Hm.
  assert (Ha : ∀ c', asks c' (Asked o :: log w) = if decide (c' = c) then 1%nat else asks c' (log w)).
  { intros c'. rewrite asks_cons. cbn [claim_at]. rewrite E. case_decide; case_decide; naive_solver. }
  assert (Hb : ∀ c' b, asks c' (Answered o b :: Asked o :: log w) = asks c' (Asked o :: log w)).
  { intros c' b. by rewrite asks_cons. }
  assert (HS : Safe (ask o w)).
  { split; intros c'; cbn [ask note log disk]; rewrite Ha; case_decide; subst; auto. }
  split; [done|]. intros b. split.
  - split; [split|]; intros c'; cbn [answer ask note log disk wmem]; rewrite Hb, Ha; case_decide; subst; auto.
  - intros [[[j st] a]|]; [|done]. cbn [valid answer ask note log disk wmem]. intros (? & ? & ? & Hask) Hne.
    split_and!; [done..|]. intros ->. rewrite Hb, Ha. rewrite decide_False by (by eapply Hne). auto.
Qed.

Lemma quiet_save : quiet save.
Proof. intros h. cbn. split; [done|]. destruct (failure m); cbn; [done|]. split; [done|]. intros [e|]; cbn; [|done]. by intros m'. Qed.

Lemma keeper_modify f :
  (∀ m, Jobs (rstate (f m)) = Jobs (rstate m) ∧ dom (Topics (rstate m)) ⊆ dom (Topics (rstate (f m)))) → keeper (modify f).
Proof. intros H. apply quiet_keeper. intros h. cbn. intros m. split; [apply H|done]. Qed.

Lemma keeper_ext {B} (o : eop B) : claim_of o = None → keeper (ext o).
Proof. intros E. apply quiet_keeper. intros h. by cbn. Qed.

Lemma keeper_get : keeper get.
Proof. apply quiet_keeper. intros h. by cbn. Qed.

Lemma keeper_atomic {A} (p : prog A) : keeper p → keeper (atomic p).
Proof.
  intros Hp w HI. cbn. split; [apply HI|]. eapply swp_mono; [|by apply Hp].
  intros a w' Hk. split; [apply Hk|done].
Qed.

Lemma keeper_topics f :
  (∀ tp : gmap string relayTopic, dom tp ⊆ dom (f tp)) → keeper (modify (with_topics f)).
Proof. intros H. apply keeper_modify. by intros m. Qed.

Lemma keeper_alter_topic f key : keeper (modify (with_topics (alter f key))).
Proof. apply keeper_topics. intros tp. by rewrite dom_alter_L. Qed.

Lemma keeper_insert_topic key t : keeper (modify (with_topics (insert key t))).
Proof. apply keeper_topics. intros tp. rewrite dom_insert_L. set_solver. Qed.

Lemma keeper_save : keeper save.
Proof. apply quiet_keeper, quiet_save. Qed.

(** A successful save has written the memory. *)
Lemma swp_save w : Inv w →
  swp save w Safe (λ r w', keeps w w' ∧ match r with Ok _ => w' = saved w | Err _ => True end).
Proof.
  intros HI. pose proof (keeps_saved w HI) as Hs. cbn. split; [apply HI|].
  change (put_mem (wmem w) w) with (mkWorld (wmem w) (disk w) (log w)). destruct w as [m d l]; cbn [wmem disk log] in *.
  destruct (failure m) eqn:Hf; cbn.
  { split; [apply HI|]. split; [by apply keeps_refl|done]. }
  split; [apply HI|]. split; [apply Hs|]. split; [split; [apply Hs|done]|]. intros e.
  assert (∀ w', Inv w' → keeps (mkWorld m d l) w' →
    keeps (mkWorld m d l) (put_mem (set_failure (wmem w') save_failure) w')) as Hfail.
  { intros w' HI' Hk. eapply keeps_trans; [done|]. by apply keeps_mem. }
  pose proof (keeps_refl _ HI) as Hr.
  pose proof (Hfail _ HI Hr) as H1. pose proof (Hfail _ (proj1 Hs) Hs) as H2.
  split.
  - split; [apply HI|]. split; [apply H1|]. by split.
  - split; [apply Hs|]. split; [apply H2|]. by split.
Qed.

Create HintDb relay.
#[export] Hint Resolve keeper_ret keeper_get keeper_save keeper_alter_topic keeper_insert_topic keeper_atomic : relay.
#[export] Hint Extern 1 (keeper (ext _)) => by apply keeper_ext : relay.

Lemma keeper_ensureTopic ws floor name : keeper (ensureTopic ws floor name).
Proof.
  unfold ensureTopic. set (key := scope ws floor).
  intros w HI. apply swp_get; [apply HI|].
  destruct (Topics (rstate (wmem w)) !! key) as [t|] eqn:Hkey.
  { assert (keeper (if RPending t
      then Ret (Err (Errorf "criação do tópico %s incerta; vincule o tópico existente com /bind" [name] []))
      else if negb (String.eqb (RName t) name) then
        try _ ← ext (TEdit (RThread t) (mkPatch (Some name) None));
        do _ ← modify (with_topics (alter (rename_topic name) key));
        try _ ← save;
        ok (RThread t)
      else ok (RThread t))) as Hkeep; [|exact (Hkeep w HI)].
    destruct (RPending t); [apply keeper_ret|]. destruct (negb _); [|apply keeper_ret].
    apply keeper_try; [by apply keeper_ext|]. intros _. apply keeper_bind; [auto with relay|]. intros _.
    apply keeper_try; auto with relay. intros _. apply keeper_ret. }
  assert (Hnew : asks (CTopic key) (log w) = 0%nat).
  { destruct (decide (asks (CTopic key) (log w) = 0%nat)) as [|Hn]; [done|].
    apply (inv_mem _ HI) in Hn. cbn in Hn. rewrite Hkey in Hn. by destruct Hn. }
  set (m1 := with_topics (insert key (mkRTopic ws floor name 0 true false)) (wmem w)).
  assert (Hk1 : keeps w (put_mem m1 w)).
  { apply keeps_mem; [done| |done]. cbn. rewrite dom_insert_L. set_solver. }
  apply swp_modify; [apply HI|]. apply swp_try. eapply swp_mono; [|apply swp_save, Hk1].
  intros [u|e] w2 [Hk2 Hw2].
  2:{ split; [apply Hk2|exact (keeps_trans _ _ _ Hk1 Hk2)]. }
  pose proof (keeps_trans _ _ _ Hk1 Hk2) as Hk. subst w2. cbn.
  destruct (claim_asked (TCreate key name StatusIdle) (CTopic key) (saved (put_mem m1 w))) as [HS Hans];
    [done|apply Hk|done|cbn; by rewrite lookup_insert_eq|cbn; by rewrite lookup_insert_eq|].
  split; [apply Hk|]. split; [exact HS|]. intros b. destruct (Hans b) as [HI3 Hv3].
  assert (Hk3 : keeps w (answer (TCreate key name StatusIdle) b (saved (put_mem m1 w)))).
  { split; [done|]. intros t Ht. apply Hv3; [by apply Hk|]. done. }
  assert (keeper (match b with
    | Ok created =>
      do _ ← modify (with_topics (alter (topic_created (TThreadID created)) key));
      try _ ← save;
      ok (TThreadID created)
    | Err e => Ret (Err e) end)) as Hrest.
  { destruct b as [created|e]; [|apply keeper_ret]. apply keeper_bind; [auto with relay|]. intros _.
    apply keeper_try; auto with relay. intros _. apply keeper_ret. }
  eapply swp_mono; [|exact (Hrest _ HI3)]. intros r w4 Hk4. exact (keeps_trans _ _ _ Hk3 Hk4).
Qed.

(** ** Handlers

    [safe t p]: a handler that holds the token [t] may run [p]. *)
Definition moves (t : token) (w : world) (t' : token) (w' : world) : Prop :=
  Inv w' ∧ valid t' w' ∧ ∀ u, valid u w → apart t u → valid u w' ∧ apart t' u.

Fixpoint safe {A} (t : token) (p : prog A) (Q : token → A → Prop) : Prop :=
  match p with
  | Ret a => Q t a
  | Ext o k =>
    match claim_of o with
    | None => ∀ b, safe t (k b) Q
    | Some (CStep j st) => t = Some (j, st, false) ∧ ∀ b, safe (Some (j, st, true)) (k b) Q
    | Some (CTopic _) => False
    end
  | Mem _ _ | Persist _ => False
  | Atomic q k =>
    ∀ w, Inv w → valid t w → swp q w Safe (λ b w', ∃ t', moves t w t' w' ∧ safe t' (k b) Q)
  end.

Lemma safe_mono {A} t (p : prog A) (Q Q' : token → A → Prop) :
  (∀ t a, Q t a → Q' t a) → safe t p Q → safe t p Q'.
Proof.
  revert t Q Q'. induction p as [A a|A B o k IH|A B f k IH|A k IH|A B q _ k IH]; intros t Q Q' HQ; cbn [safe]; auto.
  - destruct (claim_of o) as [[key|j st]|]; [done| |].
    + intros [? H]. split; [done|]. intros b. by eapply IH.
    + intros H b. by eapply IH.
  - intros H w HI Hv. eapply swp_mono; [|by apply H]. intros b w' (t' & ? & ?). exists t'. split; [done|]. by eapply IH.
Qed.

Lemma safe_bind {A B} t (p : prog A) (f : A → prog B) Q :
  safe t p (λ t a, safe t (f a) Q) → safe t (pbind p f) Q.
Proof.
  revert t f Q. induction p as [A a|A C o k IH|A C g k IH|A k IH|A C q _ k IH]; intros t f Q; cbn [safe pbind]; auto.
  - destruct (claim_of o) as [[key|j st]|]; [done| |].
    + intros [? H]. split; [done|]. intros b. by apply IH.
    + intros H b. by apply IH.
  - intros H w HI Hv. eapply swp_mono; [|by apply H]. intros b w' (t' & ? & ?). exists t'. split; [done|]. by apply IH.
Qed.

(** A token is never needed by a program that is safe without. *)
Lemma safe_weaken {A} t (p : prog A) (Q : A → Prop) :
  safe None p (λ _, Q) → safe t p (λ _, Q).
Proof.
  destruct t as [x|]; [|done].
  enough (∀ t, t = None → safe t p (λ _, Q) → safe (Some x) p (λ _, Q)) by eauto.
  induction p as [A a|A B o k IH|A B f k IH|A k IH|A B q _ k IH]; intros t ->; cbn [safe]; auto.
  - destruct (claim_of o) as [[key|j st]|]; [done|by intros []|]. intros H b. by eapply IH.
  - intros H w HI Hv. eapply swp_mono; [|by apply H]. intros b w' (t' & (HI' & Hv' & Hap) & Hs).
    exists t'. split; [|done]. split; [done|]. split; [done|]. intros u Hu _. by apply Hap.
Qed.

Definition good {A} (p : prog A) : Prop := safe None p (λ _ _, True).

Lemma good_ret {A} (a : A) : good (Ret a).
Proof. done. Qed.

Lemma good_bind {A B} (p : prog A) (f : A → prog B) : good p → (∀ a, good (f a)) → good (pbind p f).
Proof.
  intros Hp Hf. apply safe_bind. eapply safe_mono; [|exact Hp]. intros t a _.
  apply (safe_weaken _ _ (λ _, True)), Hf.
Qed.

Lemma good_try {A B} (p : prog (result A)) (f : A → prog (result B)) :
  good p → (∀ a, good (f a)) → good (try x ← p; f x).
Proof. intros Hp Hf. apply good_bind; [done|]. by intros [a|e]. Qed.

Lemma good_each {A} (f : A → prog (result ())) l : (∀ x, good (f x)) → good (each f l).
Proof. intros Hf. induction l as [|x l IH]; cbn [each]; [done|]. by apply good_try. Qed.

Lemma good_ext {B} (o : eop B) : claim_of o = None → good (ext o).
Proof. intros E. unfold good. cbn. by rewrite E. Qed.

Lemma moves_keeps w w' : keeps w w' → moves None w None w'.
Proof. intros [? H]. split; [done|]. split; [done|]. auto. Qed.

Lemma good_atomic {A} (p : prog A) : keeper p → good (atomic p).
Proof.
  intros Hp w HI _. eapply swp_mono; [|by apply Hp]. intros a w' Hk. exists None. split; [by apply moves_keeps|done].
Qed.

(** ** The step of a job *)

Lemma asks_claimed c w : Inv w → ¬ claimed (rstate (wmem w)) c → asks c (log w) = 0%nat.
Proof.
  intros HI Hn. destruct (decide (asks c (log w) = 0%nat)) as [|Hne]; [done|]. by apply (inv_mem _ HI) in Hne.
Qed.

Lemma dom_with_jobs f m : dom (Topics (rstate m)) ⊆ dom (Topics (rstate (with_jobs f m))).
Proof. done. Qed.

(** What changing one job keeps. *)
Lemma inv_alter_job (f : relayJob → relayJob) j w :
  (∀ job st, Jobs (rstate (wmem w)) !! j = Some job →
     is_Some (JResults job !! st) ∨ (JPending job = st ∧ st ≠ "") →
     is_Some (JResults (f job) !! st) ∨ (JPending (f job) = st ∧ st ≠ "")) →
  Inv w → Inv (put_mem (alter_job f j (wmem w)) w).
Proof.
  intros Hf [[H1 H2] H3]. split; [by split|]. intros c Hc. apply H3 in Hc.
  destruct c as [key|j' st]; cbn in *; [done|]. destruct Hc as (job & Hj & Hor).
  destruct (decide (j = j')) as [<-|Hne].
  - exists (f job). rewrite lookup_alter_eq, Hj. split; [done|]. by apply Hf.
  - exists job. by rewrite lookup_alter_ne.
Qed.

Lemma valid_alter_job (f : relayJob → relayJob) j w u :
  (∀ st a, u = Some (j, st, a) → ∀ job, JPending (f job) = JPending job) →
  valid u w → valid u (put_mem (alter_job f j (wmem w)) w).
Proof.
  destruct u as [[[j' st] a]|]; [|done]. intros Hf (Hne & Hd & (job & Hj & Hp) & Ha).
  split; [done|]. split; [done|]. split; [|done]. cbn.
  destruct (decide (j = j')) as [<-|Hnj].
  - exists (f job). rewrite lookup_alter_eq, Hj. split; [done|]. by rewrite (Hf st a).
  - exists job. by rewrite lookup_alter_ne.
Qed.

Definition begun (j st : string) (w : world) (r : result (option json)) (w' : world) : Prop :=
  match r with
  | Ok None => moves None w (Some (j, st, false)) w'
  | _ => keeps w w'
  end.

Lemma step_begin_spec j st w :
  st ≠ "" → Inv w → swp (step_begin j st) w Safe (begun j st w).
Proof.
  intros Hne HI. unfold step_begin. apply swp_get; [apply HI|].
  assert (Hret : ∀ r, r ≠ Ok None → swp (Ret r) w Safe (begun j st w)).
  { intros r Hr. split; [apply HI|]. pose proof (keeps_refl _ HI). by destruct r as [[]|]. }
  destruct (Jobs (rstate (wmem w)) !! j) as [job|] eqn:Hj; [|by apply Hret].
  destruct (JResults job !! st) eqn:Hres; [by apply Hret|].
  destruct (String.eqb_spec (JPending job) "") as [Hp|Hp]; cbn [negb]; [|by apply Hret].
  assert (Hnew : asks (CStep j st) (log w) = 0%nat).
  { apply asks_claimed; [done|]. intros (job' & Hj' & [[? Hs]|[? _]]); congruence. }
  apply swp_modify; [apply HI|]. set (w1 := put_mem _ w).
  assert (HI1 : Inv w1).
  { apply inv_alter_job; [|done]. intros job' st' Hj' [?|[? ?]]; [by left|]. congruence. }
  assert (Hv1 : ∀ u, valid u w → valid u w1 ∧ apart (Some (j, st, false)) u).
  { intros [[[j' st'] a]|] Hu; [|done]. cbn [apart].
    assert (j ≠ j') as Hjj.
    { intros <-. destruct Hu as (Hn & _ & (job' & Hj' & Hp') & _). congruence. }
    split; [|done]. apply valid_alter_job; [|done]. congruence. }
  apply swp_try. eapply swp_mono; [|apply swp_save, HI1]. intros [u|e] w2 [Hk Hw2].
  - subst w2. split; [apply Hk|]. split; [apply Hk|].
    assert (Hjob : Jobs (rstate (wmem w1)) !! j = Some (begin_step st job)).
    { cbn. by rewrite lookup_alter_eq, Hj. }
    split.
    + split; [done|]. split; [exists (begin_step st job); split; [done|by right]|]. split; [by exists (begin_step st job)|done].
    + intros t' Ht _. destruct (Hv1 t' Ht). split; [by apply Hk|done].
  - split; [apply Hk|]. split; [apply Hk|]. intros t Ht. by apply Hk, Hv1.
Qed.

Lemma step_end_spec j st result w :
  valid (Some (j, st, true)) w → Inv w →
  swp (step_end j st result) w Safe (λ _ w', moves (Some (j, st, true)) w None w').
Proof.
  intros Hv HI. unfold step_end. apply swp_modify; [apply HI|]. set (w1 := put_mem _ w).
  destruct Hv as (Hne & _ & (job & Hj & Hp) & _).
  assert (HI1 : Inv w1).
  { apply inv_alter_job; [|done]. intros job' st' Hj' [Hs|[Hs Hn]]; left; cbn [end_step JResults].
    - destruct (decide (st = st')) as [<-|]; [rewrite lookup_insert_eq; by eexists|by rewrite lookup_insert_ne].
    - assert (st' = st) as -> by congruence. rewrite lookup_insert_eq. by eexists. }
  assert (Hv1 : ∀ u, valid u w → apart (Some (j, st, true)) u → valid u w1).
  { intros u Hu Hap. apply valid_alter_job; [|done]. intros st' a ->. by destruct Hap. }
  apply swp_try. eapply swp_mono; [|apply swp_save, HI1].
  intros [u|e] w2 [Hk _]; (split; [apply Hk|]); (split; [apply Hk|]); (split; [done|]);
    intros t' Ht Hap; (split; [|done]); apply Hk; by apply Hv1.
Qed.

Lemma good_step j st cap method path body : st ≠ "" → good (step j st cap method path body).
Proof.
  intros Hne. unfold step, good. apply safe_bind. intros w HI _.
  eapply swp_mono; [|by apply step_begin_spec]. intros [[known|]|e] w' Hb; cbn [begun] in Hb.
  - exists None. split; [by apply moves_keeps|done].
  - exists (Some (j, st, false)). split; [done|]. cbn [safe ext pbind claim_of]. split; [done|].
    intros [result|e]; [|done]. cbn [safe pbind atomic]. intros w2 HI2 Hv2.
    eapply swp_mono; [|by apply step_end_spec]. intros r w3 Hm. by exists None.
  - exists None. split; [by apply moves_keeps|done].
Qed.

(** ** Every handler *)

Lemma keeper_alter_job f j :
  (∀ job, JPending (f job) = JPending job ∧ ∀ st, is_Some (JResults job !! st) → is_Some (JResults (f job) !! st)) →
  keeper (modify (alter_job f j)).
Proof.
  intros Hf w HI. cbn. split; [apply HI|].
  assert (HI1 : Inv (put_mem (alter_job f j (wmem w)) w)).
  { apply inv_alter_job; [|done]. intros job st _ [Hs|[Hp Hn]]; [left; by apply Hf|right].
    by rewrite (proj1 (Hf job)). }
  split; [apply HI1|]. split; [done|]. intros t. apply valid_alter_job. intros st a _ job. apply Hf.
Qed.

Lemma keeper_store_result j st result : keeper (modify (alter_job (store_result st result) j)).
Proof.
  apply keeper_alter_job. intros job. split; [done|]. intros st' Hs. cbn.
  destruct (decide (st = st')) as [<-|]; [rewrite lookup_insert_eq; by eexists|by rewrite lookup_insert_ne].
Qed.

Lemma keeper_job_done j : keeper (modify (alter_job job_done j)).
Proof. by apply keeper_alter_job. Qed.

Lemma keeper_register digest j plan : keeper (register_job digest j plan).
Proof.
  unfold register_job. intros w HI. apply swp_get; [apply HI|].
  destruct (Jobs (rstate (wmem w)) !! j) as [job|] eqn:Hj.
  { assert (keeper (if negb (String.eqb (digest (JPlan job)) (digest plan)) then fails "ID de criação já usado por outro plano"
      else if JDone job then ok true else try _ ← save; ok false)) as Hk; [|exact (Hk w HI)].
    destruct (negb _); [apply keeper_ret|]. destruct (JDone job); [apply keeper_ret|].
    apply keeper_try; [apply keeper_save|]. intros _. apply keeper_ret. }
  apply swp_modify; [apply HI|]. set (w1 := put_mem _ w).
  assert (Hk1 : keeps w w1).
  { split.
    - split; [destruct HI as [[??] _]; by split|]. intros c Hc%(inv_mem _ HI). destruct c as [key|j' st]; [done|]. cbn in *.
      destruct Hc as (job & Hj' & Hor). exists job. split; [|done]. rewrite lookup_insert_ne; [done|congruence].
    - intros [[[j' st] a]|]; [|done]. intros (? & ? & (job & Hj' & Hp) & ?). split_and!; [done..| |done].
      exists job. split; [|done]. cbn. rewrite lookup_insert_ne; [done|congruence]. }
  assert (keeper (try _ ← save; ok false)) as Hk2.
  { apply keeper_try; [apply keeper_save|]. intros _. apply keeper_ret. }
  eapply swp_mono; [|exact (Hk2 w1 (proj1 Hk1))]. intros r w2 Hk. exact (keeps_trans _ _ _ Hk1 Hk).
Qed.

#[export] Hint Resolve keeper_ensureTopic keeper_store_result keeper_job_done keeper_register : relay.
#[export] Hint Resolve good_ret good_atomic : relay.
#[export] Hint Extern 1 (keeper (ok _)) => apply keeper_ret : relay.
#[export] Hint Extern 1 (keeper (fails _)) => apply keeper_ret : relay.
#[export] Hint Extern 1 (good (ok _)) => apply good_ret : relay.
#[export] Hint Extern 1 (good (fails _)) => apply good_ret : relay.
#[export] Hint Extern 1 (good (ext _)) => by apply good_ext : relay.
#[export] Hint Extern 1 (good (step _ _ _ _ _ _)) => by apply good_step : relay.

(** Walks a program whose parts are known. *)
Ltac walk :=
  repeat first
    [ match goal with |- ∀ _, _ => intro end
    | solve [auto 2 with relay nocore]
    | match goal with
      | |- good (pbind _ _) => first [apply good_try | apply good_bind]
      | |- keeper (pbind _ _) => first [apply keeper_try | apply keeper_bind]
      | |- good (each _ _) => apply good_each
      | |- keeper (each _ _) => apply keeper_each
      | |- good (atomic _) => apply good_atomic
      | |- keeper (atomic _) => apply keeper_atomic
      | |- good (match ?x with _ => _ end) => destruct x
      | |- keeper (match ?x with _ => _ end) => destruct x
      end ].

Section Handlers.
Context {U : UnicodeTables} {P : UrlParser} {TO : TopicOrder}.
Context (r : Relay) (digest : MaestroPlan → string) (error_text : error → string).

Lemma keeper_quiet_modify f :
  (∀ m, Jobs (rstate (f m)) = Jobs (rstate m) ∧ Topics (rstate (f m)) = Topics (rstate m)) → keeper (modify f).
Proof. intros H. apply keeper_modify. intros m. destruct (H m) as [-> ->]. done. Qed.

Lemma keeper_sendTarget t text buttons notify : keeper (sendTarget r t text buttons notify).
Proof. unfold sendTarget. walk. by apply keeper_quiet_modify. Qed.

Lemma keeper_refresh_floors ws floors seen : keeper (refresh_floors ws floors seen).
Proof. revert seen. induction floors as [|f l IH]; intros seen; cbn [refresh_floors]; walk; apply IH. Qed.

Lemma keeper_refresh_item ws feed item : keeper (refresh_item r ws feed item).
Proof. unfold refresh_item. walk; [by apply keeper_quiet_modify|apply keeper_sendTarget]. Qed.

Lemma good_collect_feeds wss next : good (collect_feeds r wss next).
Proof. revert next. induction wss as [|ws l IH]; intros next; cbn [collect_feeds]; walk; apply IH. Qed.

Lemma good_Refresh : good (Refresh r).
Proof.
  unfold Refresh. walk; [apply good_collect_feeds|by apply keeper_quiet_modify|].
  unfold refresh_workspace. walk; [apply keeper_refresh_floors|apply keeper_refresh_item].
Qed.

Lemma good_target thread reply explicit : good (target r thread reply explicit).
Proof. unfold target, no_topic. walk. Qed.

Lemma good_say thread text : good (say r thread text).
Proof. unfold say. walk. Qed.

Lemma keeper_say thread text : keeper (say r thread text).
Proof. unfold say. walk. Qed.

Lemma good_once key : good (once key).
Proof. unfold once. walk; by apply keeper_quiet_modify. Qed.

Lemma good_guard {A} e (k : prog (result A)) : good k → good (guard e k).
Proof. by destruct e. Qed.

Lemma str_app_nonempty (a b : string) : a ≠ "" → a +:+ b ≠ "".
Proof. by destruct a. Qed.

Lemma good_check_plan jobID plan : good (check_plan r jobID plan).
Proof. unfold check_plan. repeat (apply good_guard; walk). Qed.

Lemma good_native_phase info a presets : good (native_phase r info a presets).
Proof. unfold native_phase. walk. Qed.

Lemma good_workspace_phase jobID plan : good (workspace_phase jobID plan).
Proof. unfold workspace_phase. walk. Qed.

Lemma good_await fuel ws floor : good (await_floor fuel ws floor).
Proof. induction fuel as [|fuel IH]; cbn [await_floor]; walk. Qed.

Lemma good_floor_phase jobID plan ws : good (floor_phase jobID plan ws).
Proof. unfold floor_phase. walk; apply good_await. Qed.

Lemma good_apply_native jobID nativeID ws floor nodes : good (apply_native jobID nativeID ws floor nodes).
Proof. unfold apply_native, native_before. walk. Qed.

Lemma good_create_node jobID ws floor n : good (create_node jobID ws floor n).
Proof.
  unfold create_node, node_request, create_role.
  walk; apply good_step; by apply str_app_nonempty.
Qed.

Lemma good_create_team jobID ws floor a : good (create_team jobID ws floor a).
Proof.
  unfold create_team, confirm_nodes. walk.
  - generalize (∅ : gmap string string). induction (Nodes a) as [|n l IH]; intros ids; cbn [create_nodes]; walk;
      apply good_create_node.
  - generalize 0%nat. induction (Connections a) as [|c l IH]; intros i; cbn [create_edges]; walk.
Qed.

Lemma good_Deploy jobID plan : good (Deploy r digest jobID plan).
Proof.
  unfold Deploy, place_team. walk; eauto using good_check_plan, good_native_phase, good_workspace_phase,
    good_floor_phase, good_apply_native, good_create_team.
Qed.

Lemma good_press e terminal : good (press e terminal).
Proof. unfold press. walk. by apply keeper_quiet_modify. Qed.

Lemma good_button e : good (button r e).
Proof.
  unfold button. walk; eauto using good_target, keeper_sendTarget, good_press.
Qed.

Lemma good_attachment e : good (attachment r e).
Proof. unfold attachment, call_. walk; eauto using good_target. Qed.

Lemma good_allowed_workspaces wss : good (allowed_workspaces r wss).
Proof. induction wss as [|ws l IH]; cbn [allowed_workspaces]; walk. Qed.

Lemma good_maestro thread key command args : good (maestro r digest thread key command args).
Proof.
  unfold maestro, maestro_base, maestro_plan, maestro_deploy.
  walk; eauto using good_say, good_Deploy, good_Refresh, good_allowed_workspaces.
Qed.

Lemma good_agents thread : good (agents r thread).
Proof. unfold agents, agent_card. walk; eauto using good_say, keeper_sendTarget. Qed.

Lemma good_to_agent thread msg reply word text : good (to_agent r thread msg reply word text).
Proof.
  unfold to_agent, send_prompt, call_. walk; eauto using good_target, keeper_sendTarget.
  by apply keeper_quiet_modify.
Qed.

Lemma good_dispatch thread msg reply key text : good (dispatch r digest thread msg reply key text).
Proof.
  unfold dispatch, status, catalog, resume, bind, bind_save, mute, free_text.
  walk; eauto using good_say, keeper_say, good_agents, good_maestro, good_Deploy, good_to_agent.
Qed.

Lemma good_serve ev : good (serve r digest error_text ev).
Proof.
  unfold serve, Handle, message, first_time, status.
  walk; eauto using good_say, keeper_say, good_once, good_dispatch, good_button, good_attachment.
Qed.
End Handlers.

(** ** The relay as a whole *)

Section Pool.
Context {U : UnicodeTables} {P : UrlParser} {TO : TopicOrder}.
Context (r : Relay) (digest : MaestroPlan → string) (error_text : error → string).

(** What the loop of [Run], and the command line, start. *)
Inductive started : prog () → Prop :=
  | started_event ev : started (serve r digest error_text ev)
  | started_tick : started (do _ ← Refresh r; Ret ())
  | started_deploy jobID plan : started (do _ ← Deploy r digest jobID plan; Ret ()).

(** The handlers that run, and the world. *)
Definition pool : Type := list (prog ()) * world.

(** Where the process may be when it dies. *)
Inductive dying : pool → world → Prop :=
  | dying_idle ts w : dying (ts, w) w
  | dying_call i ts w B (o : eop B) k : ts !! i = Some (Ext o k) → dying (ts, w) (ask o w)
  | dying_block i ts w B (q : prog B) k w' : ts !! i = Some (Atomic q k) → exec q w None w' → dying (ts, w) w'.

Inductive pool_step : pool → pool → Prop :=
  | pool_start ts w p : started p → pool_step (ts, w) (ts ++ [p], w)
  | pool_call i ts w B (o : eop B) k b :
      ts !! i = Some (Ext o k) → pool_step (ts, w) (<[i := k b]> ts, answer o b w)
  | pool_block i ts w B (q : prog B) k b w' :
      ts !! i = Some (Atomic q k) → exec q w (Some b) w' → pool_step (ts, w) (<[i := k b]> ts, w')
  | pool_mem i ts w B (f : mem → mem * B) k :
      ts !! i = Some (Mem f k) → pool_step (ts, w) (<[i := k (f (wmem w)).2]> ts, put_mem (f (wmem w)).1 w)
  | pool_save i ts w k e :
      ts !! i = Some (Persist k) → pool_step (ts, w) (<[i := k e]> ts, saved w)
  | pool_restart ts w w' m :
      dying (ts, w) w' → NewRelay (RConfig r) (LoadState (disk w')) = Ok m → pool_step (ts, w) ([], put_mem m w').

(** The relay is up for the first time, with nothing asked yet. *)
Definition fresh (s : pool) : Prop :=
  ∃ file m, NewRelay (RConfig r) file = Ok m ∧ s = ([], mkWorld m (rstate m) []).

(** Every handler is safe with its own token. *)
Definition well (s : pool) : Prop :=
  Inv s.2 ∧ ∃ tk : nat → token,
    (∀ i p, s.1 !! i = Some p → safe (tk i) p (λ _ _, True)) ∧
    (∀ i, valid (tk i) s.2) ∧ (∀ i j, i ≠ j → apart (tk i) (tk j)) ∧
    (∀ i, (length s.1 ≤ i)%nat → tk i = None).

Lemma started_good p : started p → good p.
Proof.
  intros []; [apply good_serve|apply good_bind; [apply good_Refresh|done]|apply good_bind; [apply good_Deploy|done]].
Qed.

Lemma apart_sym t u : apart t u → apart u t.
Proof. destruct t as [[[]]|], u as [[[]]|]; cbn; auto. Qed.

Lemma NewRelay_state c s m : NewRelay c (LoadState s) = Ok m → Topics (rstate m) = Topics s ∧ Jobs (rstate m) = Jobs s.
Proof. unfold NewRelay. repeat case_match; try done. by intros [= <-]. Qed.

Lemma restart_inv w m : Safe w → NewRelay (RConfig r) (LoadState (disk w)) = Ok m → Inv (put_mem m w).
Proof.
  intros [H1 H2] [HT HJ]%NewRelay_state. split; [by split|]. intros c Hc%H2.
  eapply claimed_grow; [exact HJ| |exact Hc]. cbn. by rewrite HT.
Qed.

Lemma fresh_well s : fresh s → well s.
Proof.
  intros (file & m & _ & ->). split.
  - split; [split|]; intros c; cbn; [lia|done|done].
  - exists (λ _, None). split_and!; done.
Qed.

(** One handler moves, from its token to another. *)
Lemma well_move ts w i p p' t' w' (tk : nat → token) :
  ts !! i = Some p → Inv w → (∀ j q, ts !! j = Some q → safe (tk j) q (λ _ _, True)) →
  (∀ j, valid (tk j) w) → (∀ j k, j ≠ k → apart (tk j) (tk k)) → (∀ j, (length ts ≤ j)%nat → tk j = None) →
  moves (tk i) w t' w' → safe t' p' (λ _ _, True) → well (<[i := p']> ts, w').
Proof.
  intros Hi HI Hs Hv Ha Hn (HI' & Hv' & Hm) Hs'. pose proof (lookup_lt_Some _ _ _ Hi) as Hlt.
  split; [done|]. exists (λ j, if decide (j = i) then t' else tk j). cbn [fst snd]. split_and!.
  - intros j q. destruct (decide (j = i)) as [->|Hne].
    + rewrite list_lookup_insert_eq by done. by intros [= <-].
    + rewrite list_lookup_insert_ne by done. apply Hs.
  - intros j. destruct (decide (j = i)) as [->|Hne]; [done|]. apply Hm; [done|]. by apply Ha.
  - intros j k Hjk. destruct (decide (j = i)) as [->|], (decide (k = i)) as [->|]; [done| | |by apply Ha].
    + apply Hm; [done|]. by apply Ha.
    + apply apart_sym, Hm; [done|]. apply Ha. congruence.
  - intros j. rewrite length_insert. intros Hj. rewrite decide_False by lia. by apply Hn.
Qed.

(** A call by the holder of the token is the first of its kind. *)
Lemma call_moves {B} (o : eop B) (k : B → prog ()) t w :
  safe t (Ext o k) (λ _ _, True) → Inv w → valid t w →
  Safe (ask o w) ∧ ∀ b, ∃ t', moves t w t' (answer o b w) ∧ safe t' (k b) (λ _ _, True).
Proof.
  cbn [safe]. destruct (claim_of o) as [[key|j st]|] eqn:E; [done| |]; intros Hs HI Hv.
  - destruct Hs as [-> Hs]. pose proof Hv as (Hne & Hd & (job & Hj & Hp) & Ha).
    destruct (claim_asked o (CStep j st) w) as [HS Hans]; [done|done|by apply Ha|done|exists job; split; [done|by right]|].
    split; [done|]. intros b. destruct (Hans b) as [HI' Hv']. exists (Some (j, st, true)). split; [|done].
    split; [done|]. split.
    + split; [done|]. split; [done|]. split; [by exists job|done].
    + intros u Hu Hap. split; [|done]. apply Hv'; [done|]. intros j' st' -> [= -> ->]. by destruct Hap.
  - split; [by apply (keeps_ask o w)|]. intros b. exists t. split; [|done].
    destruct (keeps_answer o b w E HI) as [HI' Hk]. split; [done|]. split; [by apply Hk|]. auto.
Qed.

Lemma dying_safe s w : well s → dying s w → Safe w.
Proof.
  intros (HI & tk & Hs & Hv & _) Hd. destruct Hd as [ts w|i ts w B o k Hi|i ts w B q k w' Hi He]; cbn [fst snd] in *.
  - apply HI.
  - by destruct (call_moves o k (tk i) w (Hs _ _ Hi) HI (Hv i)).
  - specialize (Hs _ _ Hi). cbn [safe] in Hs. exact (swp_exec _ _ _ _ _ _ He (Hs w HI (Hv i))).
Qed.

Lemma step_well s s' : pool_step s s' → well s → well s'.
Proof.
  intros Hst Hw. pose proof Hw as (HI & tk & Hs & Hv & Ha & Hn).
  destruct Hst as [ts w p Hp|i ts w B o k b Hi|i ts w B q k b w' Hi He|i ts w B f k Hi|i ts w k e Hi|ts w w' m Hd Hm];
    cbn [fst snd] in *.
  - split; [done|]. exists tk. cbn [fst snd]. split_and!; [|done|done|].
    + intros i q [Hi|[Hlen Hi]]%lookup_app_Some; [by apply Hs|]. rewrite Hn by done.
      apply list_lookup_singleton_Some in Hi as [_ <-]. by apply started_good.
    + intros i. rewrite length_app. cbn. intros ?. apply Hn. lia.
  - destruct (call_moves o k (tk i) w (Hs _ _ Hi) HI (Hv i)) as [_ Hans]. destruct (Hans b) as (t' & Hmv & Hs').
    by eapply well_move.
  - pose proof (Hs _ _ Hi) as Hsi. cbn [safe] in Hsi.
    destruct (swp_exec _ _ _ _ _ _ He (Hsi w HI (Hv i))) as (t' & Hmv & Hs'). by eapply well_move.
  - by specialize (Hs _ _ Hi).
  - by specialize (Hs _ _ Hi).
  - split; [by apply restart_inv; [eapply dying_safe|]|]. exists (λ _, None). split_and!; done.
Qed.

(** C15: Whatever events arrive, however their handlers interleave, whatever
    the host and Telegram answer, whichever saves fail and whenever the process
    dies and starts again, the relay asks for the creation of the topic of a
    floor at most once, and for each step of a deployment at most once. *)
Theorem relay_at_most_once s0 s :
  fresh s0 → rtc pool_step s0 s → ∀ c, (asks c (log s.2) ≤ 1)%nat.
Proof.
  intros Hf Hst. apply fresh_well in Hf.
  assert (well s) as (HI & _); [|intros c; apply HI].
  induction Hst as [|s1 s2 s3 Hst _ IH]; [done|]. apply IH. by eapply step_well.
Qed.
End Pool.

(** ** A run of the pool *)

(** A handler that runs alone to its end. *)
Lemma interp_pool {U : UnicodeTables} {P : UrlParser} {TO : TopicOrder} r digest error_text orc ts (p : prog ()) w :
  rtc (pool_step r digest error_text) (ts ++ [p], w) (ts ++ [Ret (interp orc p w).1], (interp orc p w).2).
Proof.
  assert (∀ A (p : prog A) (E : A = unit) w,
    let p' := eq_rect A prog p unit E in
    rtc (pool_step r digest error_text) (ts ++ [p'], w) (ts ++ [Ret (interp orc p' w).1], (interp orc p' w).2)) as H;
    [|exact (H unit p eq_refl w)].
  assert (Hlast : ∀ q : prog (), (ts ++ [q]) !! length ts = Some q) by (intros q; by rewrite lookup_app_r, Nat.sub_diag by lia).
  assert (Hput : ∀ q q' : prog (), <[length ts := q']> (ts ++ [q]) = ts ++ [q']).
  { intros q q'. rewrite insert_app_r_alt by lia. by rewrite Nat.sub_diag. }
  clear p w. induction p as [A a|A B o k IH|A B f k IH|A k IH|A B q _ k IH]; intros -> w; cbn [eq_rect interp].
  - constructor.
  - eapply rtc_l; [by apply (pool_call _ _ _ (length ts) _ w _ o k (orc _ o (log w)))|].
    rewrite Hput. apply (IH _ eq_refl).
  - eapply rtc_l; [by apply (pool_mem _ _ _ (length ts) _ w _ f k)|]. rewrite Hput. apply (IH _ eq_refl).
  - eapply rtc_l; [by apply (pool_save _ _ _ (length ts) _ w k None)|]. rewrite Hput. apply (IH _ eq_refl).
  - pose proof (pool_exec orc q w) as He. destruct (interp orc q w) as [b w1] eqn:Eq.
    eapply rtc_l; [by apply (pool_block _ _ _ (length ts) _ w _ q k b w1)|]. rewrite Hput. apply (IH _ eq_refl).
Qed.

Definition test_pool_step : pool → pool → Prop := pool_step test_relay test_digest test_error.

(** A first pass, then a deployment. *)
Lemma test_pool_runs :
  rtc test_pool_step ([], test_world)
    ([Ret (); Ret ()], (interp test_oracle (Deploy test_relay test_digest "m-1" test_plan) test_up).2).
Proof.
  eapply rtc_l; [apply (pool_start _ _ _ [] test_world _ (started_tick test_relay test_digest test_error))|].
  etrans; [exact (interp_pool test_relay test_digest test_error test_oracle [] _ test_world)|].
  eapply rtc_l; [apply (pool_start _ _ _ _ _ _ (started_deploy test_relay test_digest test_error "m-1" test_plan))|].
  etrans; [exact (interp_pool test_relay test_digest test_error test_oracle [_] _ _)|].
  match goal with |- rtc _ ?a ?b => replace a with b; [constructor|] end.
  vm_compute. reflexivity.
Qed.

Lemma relay_at_most_once_witness :
  ∃ s, rtc test_pool_step ([], test_world) s
    ∧ asks (CTopic "maestro/") (log s.2) = 1%nat ∧ asks (CStep "m-1" "node-n1") (log s.2) = 1%nat
    ∧ asks (CStep "m-1" "edge-0") (log s.2) = 1%nat
    ∧ ∀ c, (asks c (log s.2) ≤ 1)%nat.
Proof.
  eexists. split; [exact test_pool_runs|]. split; [vm_compute; reflexivity|].
  split; [vm_compute; reflexivity|]. split; [vm_compute; reflexivity|].
  refine (relay_at_most_once test_relay test_digest test_error ([], test_world) _ _ test_pool_runs).
  exists LoadEmpty, (wmem test_world). split; vm_compute; reflexivity.
Defined.
