(* ===== verification/RelayProps.v ===== *)
(** Who the relay obeys, what it may reach, and what it remembers: theorems
    about every handler of relay_inbound.go and relay.go. *)
From S2P Require Import Prelude GoStrings Errors Status Config Events Redact Json RelayDomain RelayProg Relay RelayDeploy RelayInbound.
Local Open Scope Z_scope.

(** ** Strangers *)

Section Relay.
Context {U : UnicodeTables} {P : UrlParser} {TO : TopicOrder}.
Context (r : Relay) (digest : MaestroPlan → string) (error_text : error → string).
Notation cfg := (RConfig r).

(** The event comes from an operator. *)
Definition from_operator (ev : Event) : bool :=
  match ev with
  | EvTopicMessage e => Operator cfg (MsgFromID e)
  | EvGeneralCommand e => Operator cfg (GenFromID e)
  | EvButtonPressed e => Operator cfg (BtnFromID e)
  | EvTopicAttachment e => Operator cfg (AttFromID e)
  | _ => false
  end.

(** What an observer may ask in General. *)
Definition observer_question (ev : Event) : bool :=
  match ev with
  | EvGeneralCommand e =>
    bool_decide (GenRole e = RoleObserver) && (String.eqb (GenText e) "/help" || String.eqb (GenText e) "/status")
  | _ => false
  end.

Definition posts_in_general {B} (o : eop B) : Prop :=
  match o with TSend out => OThreadID out = 0 | _ => False end.

Definition onlooker : policy := {|
  may _ _ o := posts_in_general o;
  changes m m' := m' = m;
  saves := False
|}.

Lemma say_onlooker text h : ensures onlooker (say r 0 text) h (λ _ _, True).
Proof. cbn. split; [done|]. by intros [id|e]; cbn. Qed.

Lemma status_onlooker h : ensures onlooker (status r 0) h (λ _ _, True).
Proof. intros m. cbn [changes fst snd ensures onlooker]. split; [done|]. apply say_onlooker. Qed.

Lemma asked_ok_onlooker h l : asked_ok onlooker h l →
  Forall (λ e, match e with Asked o => posts_in_general o | Answered _ _ => True end) l.
Proof. induction l as [|[B o|B o b] l IH]; cbn; [done|intros []|intros ?]; constructor; auto. Qed.

(** An event that no operator sent changes neither the state nor the
    file and reaches no agent: the relay at most answers an observer's /help or
    /status in General, and is silent otherwise. *)
Theorem strangers_do_nothing ev w res w' :
  from_operator ev = false → exec (serve r digest error_text ev) w res w' →
  wmem w' = wmem w ∧ disk w' = disk w ∧
  ∃ l, log w' = l ++ log w ∧
    Forall (λ e, match e with Asked o => posts_in_general o | Answered _ _ => True end) l ∧
    (observer_question ev = false → l = []).
Proof.
  intros Hf He.
  assert (Hcases : (observer_question ev = false ∧ serve r digest error_text ev = Ret ()) ∨
    ∃ p, event_thread ev = 0 ∧ (∀ h, ensures onlooker p h (λ _ _, True)) ∧ Handle r digest ev = p ∧ observer_question ev = true).
  { unfold serve. destruct ev as [e|e|e|e|e|? ?|?|?|?|e]; cbn [from_operator Handle observer_question event_thread] in *;
      unfold message; rewrite ?Hf; cbn [negb pbind ok]; try by left.
    destruct (bool_decide (GenRole e = RoleObserver)) eqn:Hr; cbn [andb]; [|by left].
    destruct (String.eqb (GenText e) "/help") eqn:Hh; cbn [orb].
    - right. eexists. split; [done|]. split; [|done]. intros h. apply say_onlooker.
    - destruct (String.eqb (GenText e) "/status") eqn:Hs; [|by left].
      right. eexists. split; [done|]. split; [|done]. intros h. apply status_onlooker. }
  destruct Hcases as [[Hq E]|(p & Ht & Hp & E & Hq)].
  - rewrite E in He. assert (w' = w) as -> by (inversion He; done). split; [done|]. split; [done|].
    exists []. done.
  - assert (Hall : ensures onlooker (serve r digest error_text ev) (log w) (λ _ _, True)).
    { unfold serve. rewrite E, Ht. apply ensures_bind. eapply ensures_mono; [|apply Hp].
      intros h [u|e] _; [done|]. apply ensures_bind. eapply ensures_mono; [|apply say_onlooker]. done. }
    destruct (ensures_exec _ _ _ _ _ _ He Hall) as [(l & El & Hl) _].
    destruct (ensures_unchanged onlooker _ _ _ _ _ (λ m m' H, H) (λ H, H) He Hall) as [Hm Hd].
    split; [done|]. split; [done|]. exists l. split; [done|]. split; [by eapply asked_ok_onlooker|]. congruence.
Qed.

(** ** What the relay may reach *)

(** A feed of an allowed workspace has been read in which [id] is a live,
    running terminal of that floor. *)
Definition listed (h : list event) (id : string) : Prop :=
  ∃ ws floor feed it, Answered (WFeed ws floor) (Ok feed) ∈ h ∧ Allows cfg ws = true ∧ ws ≠ "maestro" ∧
    WsID (FWorkspace feed) = ws ∧ it ∈ Items feed ∧ TermID (Terminal it) = id ∧ FloorID (Terminal it) = floor ∧
    id ≠ "" ∧ IsLive (Terminal it) = true ∧ IsRunning (Terminal it) = true.

(** A route of the deployment: roles, the list of workspaces (when new ones
    are allowed), or something inside an allowed workspace. *)
Definition route_in_scope (path : string) : Prop :=
  path = "/api/roles" ∨ (path = "/api/workspaces" ∧ Allows cfg "*" = true) ∨
  ∃ ws rest, Allows cfg ws = true ∧ path = ws_base ws +:+ "/" +:+ rest.

Definition in_scope (h : list event) {B} (o : eop B) : Prop :=
  match o with
  | WFeed ws _ => Allows cfg ws = true
  | WCall (Some _) _ method path _ => route_in_scope path
  | WCall None _ method path _ =>
    (method = "GET" ∧ path = "/api/partituras") ∨ ∃ id suffix, listed h id ∧ path = terminal_path id suffix
  | WInput id _ => listed h id
  | WUpload id _ _ _ => listed h id
  | PPlan _ base wss _ => Forall (λ ws, Allows cfg (WsID ws) = true ∧ IsLocked ws = false) wss
  | _ => True
  end.

(** Handlers remember nothing of the events seen: [once] has done so. *)
Definition same_seen (m m' : mem) : Prop := Seen (rstate m') = Seen (rstate m).
Definition scope_policy : policy := {| may h _ o := in_scope h o; changes := same_seen; saves := True |}.
Definition free_policy : policy := {| may h _ o := in_scope h o; changes _ _ := True; saves := True |}.

Definition post {A} (p : prog A) (Q : A → Prop) : Prop := ∀ h, ensures scope_policy p h (λ _ a, Q a).
Definition scoped {A} (p : prog A) : Prop := post p (λ _, True).

Lemma listed_cons e h id : listed h id → listed (e :: h) id.
Proof. intros (ws & floor & feed & it & Hin & Hrest). exists ws, floor, feed, it. split; [by right|done]. Qed.

Lemma post_bind {A B} (p : prog A) (f : A → prog B) Q R :
  post p Q → (∀ a, Q a → post (f a) R) → post (pbind p f) R.
Proof. intros Hp Hf h. apply ensures_bind. eapply ensures_mono; [|apply Hp]. intros h' a Ha. by apply Hf. Qed.

Lemma scoped_bind {A B} (p : prog A) (f : A → prog B) : scoped p → (∀ a, scoped (f a)) → scoped (pbind p f).
Proof. intros Hp Hf. eapply post_bind; [done|]. intros a _. apply Hf. Qed.

Lemma post_try {A B} (p : prog (result A)) (f : A → prog (result B)) Q R :
  post p (λ r, match r with Ok a => Q a | Err e => R (Err e) end) → (∀ a, Q a → post (f a) R) → post (try x ← p; f x) R.
Proof.
  intros Hp Hf h. apply ensures_try. eapply ensures_mono; [|apply Hp]. intros h' [a|e] Ha; [by apply Hf|done].
Qed.

Lemma scoped_after {A B} (p : prog (result A)) (f : A → prog (result B)) Q :
  post p (λ r, match r with Ok a => Q a | Err _ => True end) → (∀ a, Q a → scoped (f a)) → scoped (try x ← p; f x).
Proof.
  intros Hp Hf. eapply post_try; [|exact Hf]. intros h. eapply ensures_mono; [|apply Hp]. by intros h' [a|e].
Qed.

Lemma scoped_try {A B} (p : prog (result A)) (f : A → prog (result B)) :
  scoped p → (∀ a, scoped (f a)) → scoped (try x ← p; f x).
Proof. intros Hp Hf. apply scoped_bind; [done|]. by intros [a|e]. Qed.

Lemma scoped_atomic {A} (p : prog A) : scoped p → scoped (atomic p).
Proof. intros Hp h. exact (Hp h). Qed.

Lemma scoped_each {A} (f : A → prog (result ())) l : (∀ x, scoped (f x)) → scoped (each f l).
Proof. intros Hf. induction l as [|x l IH]; cbn [each]; [done|]. by apply scoped_try. Qed.

Lemma scoped_ext {B} (o : eop B) : (∀ h, in_scope h o) → scoped (ext o).
Proof. intros H h. split; [apply H|done]. Qed.

Lemma scoped_modify f : (∀ m, same_seen m (f m)) → scoped (modify f).
Proof. intros H h m. split; [apply H|done]. Qed.

Lemma scoped_free {A} (p : prog A) h Q : ensures scope_policy p h Q → ensures free_policy p h Q.
Proof.
  revert h Q. induction p as [A a|A B o k IH|A B f k IH|A k IH|A B q IHq k IH]; intros h Q; cbn [ensures]; auto.
  - intros [? H]. split; [done|]. auto.
  - intros H m. destruct (H m). split; [done|]. auto.
  - intros [? H]. split; [done|]. auto.
  - intros H. apply IHq. eapply ensures_mono; [|exact H]. intros h' b. apply IH.
Qed.

Lemma scoped_get : scoped get.
Proof. intros h m. by split. Qed.

Lemma scoped_save : scoped save.
Proof. intros h m. cbn. split; [done|]. destruct (failure m); cbn; [done|]. split; [done|]. intros [e|]; by cbn. Qed.

Lemma scoped_ret {A} (a : A) : scoped (Ret a).
Proof. done. Qed.
End Relay.

Create HintDb scope.
#[export] Hint Extern 1 (scoped _ (modify _)) => by apply scoped_modify : scope.
#[export] Hint Resolve scoped_get scoped_save scoped_ret : scope.
#[export] Hint Extern 1 (scoped _ (ok _)) => apply scoped_ret : scope.
#[export] Hint Extern 1 (scoped _ (fails _)) => apply scoped_ret : scope.
#[export] Hint Extern 1 (scoped _ (ext _)) => by apply scoped_ext : scope.
#[export] Hint Extern 2 (scoped _ (ext (WFeed _ _))) => apply scoped_ext; intros ?; by apply negb_false_iff : scope.

(** Walks a program whose parts are known. *)
Ltac stroll :=
  repeat first
    [ match goal with |- ∀ _, _ => intro end
    | solve [auto 2 with scope nocore]
    | match goal with
      | |- scoped _ (pbind _ _) => first [apply scoped_try | apply scoped_bind]
      | |- scoped _ (each _ _) => apply scoped_each
      | |- scoped _ (atomic _) => apply scoped_atomic
      | |- scoped _ (match ?x with _ => _ end) => destruct x eqn:?
      end ].

Section Scope.
Context {U : UnicodeTables} {P : UrlParser} {TO : TopicOrder}.
Context (r : Relay) (digest : MaestroPlan → string) (error_text : error → string).
Notation cfg := (RConfig r).

Lemma candidate_item topic bound reply explicit items a :
  candidates topic bound reply explicit items = [a] →
  ∃ it, it ∈ items ∧ Terminal it = a ∧ FloorID a = RFloor topic ∧ TermID a ≠ "" ∧ IsLive a = true ∧ IsRunning a = true
    ∧ wanted bound reply explicit a = true.
Proof.
  intros [Hin Hf]%filter_single. apply list_elem_of_fmap in Hin as (it & -> & Hit).
  unfold eligible in Hf. rewrite !andb_true_iff, negb_true_iff, String.eqb_eq, String.eqb_neq in Hf.
  exists it. naive_solver.
Qed.

Lemma target_listed thread reply explicit h :
  ensures (scope_policy r) (target r thread reply explicit) h
    (λ h' res, match res with Ok ta => listed r h' (TgTerminal ta.1) | Err _ => True end).
Proof.
  intros m. cbn [ensures pbind atomic get]. split; [done|].
  cbn [fst snd]. destruct (topic_of_thread thread (Topics (rstate m))) as [topic|]; [|done].
  destruct (String.eqb_spec (RWorkspace topic) "maestro") as [|Hm]; cbn [orb]; [done|].
  destruct (Allows cfg (RWorkspace topic)) eqn:Ha; cbn [negb]; [|done].
  cbn [ensures pbind ext]. split; [exact Ha|]. intros [feed|e]; [|done].
  destruct (String.eqb_spec (WsID (FWorkspace feed)) (RWorkspace topic)) as [Hw|]; cbn [negb orb]; [|done].
  destruct (ValidRelayID (Epoch feed)); cbn [negb]; [|done].
  destruct (negb (reply =? 0) && _); [done|].
  destruct (candidates topic _ reply explicit (Items feed)) as [|a [|]] eqn:Hc; [done| |done].
  apply candidate_item in Hc as (it & Hit & Ht & Hfl & Hid & Hl & Hr & _).
  cbn. split; [done|]. intros at_. do 2 apply listed_cons. subst a.
  exists (RWorkspace topic), (RFloor topic), feed, it. split_and!; try done. by left.
Qed.

Lemma scoped_collect_feeds wss next : scoped r (collect_feeds r wss next).
Proof.
  revert next. induction wss as [|ws l IH]; intros next; cbn [collect_feeds]; stroll.
  apply scoped_ext. intros h. cbn. destruct (Allows cfg (WsID ws)); done.
Qed.

Lemma scoped_ensureTopic ws floor name : scoped r (ensureTopic ws floor name).
Proof. unfold ensureTopic. stroll. Qed.

Lemma scoped_sendTarget t text buttons notify : scoped r (sendTarget r t text buttons notify).
Proof. unfold sendTarget. stroll. Qed.

Lemma scoped_say thread text : scoped r (say r thread text).
Proof. unfold say. stroll. Qed.

Lemma scoped_refresh_floors ws floors seen : scoped r (refresh_floors ws floors seen).
Proof. revert seen. induction floors as [|f l IH]; intros seen; cbn [refresh_floors]; stroll; apply scoped_ensureTopic. Qed.

Lemma scoped_Refresh : scoped r (Refresh r).
Proof.
  unfold Refresh, refresh_workspace, refresh_item.
  stroll; eauto using scoped_collect_feeds, scoped_ensureTopic, scoped_refresh_floors, scoped_sendTarget.
Qed.

Lemma scoped_guard {A} e (k : prog (result A)) : scoped r k → scoped r (guard e k).
Proof. by destruct e. Qed.

(** ** Deployment stays in its workspace *)

Lemma allows_star ws : Allows cfg "*" = true → Allows cfg ws = true.
Proof.
  unfold Allows. rewrite !existsb_exists. intros (id & Hin & Hid). exists id. split; [done|].
  rewrite orb_diag in Hid. by rewrite Hid, orb_true_r.
Qed.

Lemma scoped_step j st cap method path body : route_in_scope r path → scoped r (step j st cap method path body).
Proof.
  intros Hp. unfold step, step_begin, step_end. stroll.
Qed.

Lemma plan_error_allows jobID plan :
  plan_error r jobID plan = None →
  if String.eqb (WorkspaceID plan) "" then Allows cfg "*" = true else Allows cfg (WorkspaceID plan) = true.
Proof.
  unfold plan_error. repeat (case_match; try done); intros _;
    repeat match goal with H : negb _ = false |- _ => apply negb_false_iff in H end; try done.
  match goal with H : negb _ || negb _ = false |- _ => apply orb_false_iff in H as [_ H%negb_false_iff] end. done.
Qed.

Lemma scoped_check_plan jobID plan :
  post r (check_plan r jobID plan) (λ res, match res with Ok _ => plan_error r jobID plan = None | Err _ => True end).
Proof.
  unfold check_plan. destruct (plan_error r jobID plan) eqn:E; [done|]. cbn [guard].
  destruct (floor_error plan); [done|]. cbn [guard]. pose proof (plan_error_allows _ _ E) as Ha.
  intros h. split; [done|]. intros [info|e]; cbn [pbind]; [|done].
  destruct (host_error info plan); [done|]. cbn [guard]. destruct (String.eqb (WorkspaceID plan) ""); [done|].
  split; [exact Ha|]. intros [feed|e]; cbn [pbind]; [|done]. by destruct (floor_found plan feed).
Qed.

Lemma scoped_native_phase info a presets : scoped r (native_phase r info a presets).
Proof. unfold native_phase. stroll. apply scoped_ext. intros h. by left. Qed.

Lemma workspace_phase_allows jobID plan : plan_error r jobID plan = None →
  post r (workspace_phase jobID plan) (λ res, match res with Ok ws => Allows cfg ws = true | Err _ => True end).
Proof.
  intros Hp%plan_error_allows. unfold workspace_phase. destruct (String.eqb (WorkspaceID plan) "").
  - eapply (post_try _ _ _ (λ _, True)).
    + intros h. eapply ensures_mono; [|apply scoped_step; by right; left]. by intros h' [].
    + intros result _ h. cbn. destruct (resultID result "workspaceId"); [|done]. by apply allows_star.
  - by intros h.
Qed.

Section InWorkspace.
Context (ws : string) (Hws : Allows cfg ws = true).

Lemma route_ws rest : route_in_scope r (ws_base ws +:+ "/" +:+ rest).
Proof. right; right. by exists ws, rest. Qed.

Lemma scoped_await fuel floor : scoped r (await_floor fuel ws floor).
Proof. induction fuel as [|fuel IH]; cbn [await_floor]; stroll. Qed.

Lemma scoped_floor_phase jobID plan : scoped r (floor_phase jobID plan ws).
Proof.
  unfold floor_phase. stroll; [|apply scoped_await].
  apply scoped_step. exact (route_ws "floors").
Qed.

Lemma scoped_apply_native jobID nativeID floor nodes : scoped r (apply_native jobID nativeID ws floor nodes).
Proof. unfold apply_native, native_before. stroll. apply scoped_step. exact (route_ws "partituras"). Qed.

Lemma node_request_route jobID floor n :
  post r (node_request jobID ws floor n) (λ res, match res with Ok q => route_in_scope r q.1 | Err _ => True end).
Proof.
  unfold node_request. destruct (is_terminal n); [|intros h; exact (route_ws "nodes")].
  eapply (post_try _ _ _ (λ _, True)); [|intros id _ h; exact (route_ws "terminals")].
  assert (scoped r (create_role jobID ws n)) as H by (unfold create_role; stroll; apply scoped_step; by left).
  intros h. eapply ensures_mono; [|apply H]. by intros h' [].
Qed.

Lemma scoped_create_node jobID floor n : scoped r (create_node jobID ws floor n).
Proof.
  unfold create_node. eapply scoped_after; [apply node_request_route|].
  intros [path body] Hp. cbn [fst snd] in *. stroll.
  - by apply scoped_step.
  - apply scoped_step. exact (route_ws ("nodes/" +:+ _ +:+ "/frame")).
Qed.

Lemma scoped_create_team jobID floor a : scoped r (create_team jobID ws floor a).
Proof.
  unfold create_team, confirm_nodes. stroll.
  - generalize (∅ : gmap string string). induction (Nodes a) as [|n l IH]; intros ids; cbn [create_nodes]; stroll;
      apply scoped_create_node.
  - generalize 0%nat. induction (Connections a) as [|c l IH]; intros i; cbn [create_edges]; stroll.
    apply scoped_step. exact (route_ws "connections").
Qed.
End InWorkspace.

Lemma scoped_place_team jobID nativeID plan a :
  plan_error r jobID plan = None → scoped r (place_team jobID nativeID plan a).
Proof.
  intros Hp. unfold place_team. eapply scoped_after; [by apply workspace_phase_allows|].
  intros ws Hws. cbn in Hws.
  stroll; eauto using scoped_floor_phase, scoped_apply_native, scoped_create_team.
Qed.

Lemma scoped_register jobID plan : scoped r (register_job digest jobID plan).
Proof. unfold register_job. stroll. Qed.

Lemma scoped_Deploy jobID plan : scoped r (Deploy r digest jobID plan).
Proof.
  unfold Deploy. eapply scoped_after; [apply scoped_check_plan|].
  intros info Hp. cbn in Hp. stroll; eauto using scoped_register, scoped_native_phase, scoped_place_team.
Qed.

(** ** Messages *)

Lemma scoped_agents thread : scoped r (agents r thread).
Proof.
  unfold agents, agent_card. stroll; eauto using scoped_sendTarget, scoped_say.
Qed.

Lemma ensures_atomic_save f h (Q : list event → result () → Prop) :
  (∀ m, same_seen m (f m)) → (∀ res, Q h res) → ensures (scope_policy r) (atomic (do _ ← modify f; save)) h Q.
Proof.
  intros Hf HQ. cbn. intros m. split; [apply Hf|]. intros m'. split; [done|]. destruct (failure m'); cbn; [apply HQ|].
  split; [done|]. intros [e|]; cbn; [|apply HQ]. intros m''. split; [done|apply HQ].
Qed.

Lemma terminal_route h id suffix cap body :
  listed r h id → in_scope r h (WCall None cap "POST" (terminal_path id suffix) body).
Proof. intros Hl. right. by exists id, suffix. Qed.

Lemma press_scoped e id h : listed r h id → ensures (scope_policy r) (press e id) h (λ _ _, True).
Proof.
  intros Hl. unfold press. apply ensures_try, ensures_atomic_save; [done|]. intros [u|e']; [|done].
  cbn [ensures pbind ext]. split; [by apply terminal_route|]. intros [j|e']; cbn; [|done]. split; [done|]. done.
Qed.

Lemma after_target {A} thread reply explicit (f : relayTarget * WireTerminal → prog (result A)) h :
  (∀ h' ta, listed r h' (TgTerminal ta.1) → ensures (scope_policy r) (f ta) h' (λ _ _, True)) →
  ensures (scope_policy r) (try ta ← target r thread reply explicit; f ta) h (λ _ _, True).
Proof. intros Hf. apply ensures_try. eapply ensures_mono; [|apply target_listed]. intros h' [ta|e] Hl; [by apply Hf|done]. Qed.

Lemma scoped_button e : scoped r (button r e).
Proof.
  unfold button. apply scoped_bind; [stroll|]. intros bound. apply scoped_bind; [stroll|]. intros now. cbv zeta.
  destruct (_ || _); [stroll|]. destruct (String.eqb (BtnData e) "cancel"); [stroll|]. intros h. apply after_target. intros h' [t agent] Hl. cbn [fst] in Hl.
  assert (Hp := press_scoped e _ h' Hl). repeat case_match; try done. apply scoped_sendTarget.
Qed.

Lemma scoped_attachment e : scoped r (attachment r e).
Proof.
  intros h. apply after_target. intros h1 first _. apply after_target. intros h2 [t a] Hl. cbn [fst] in *.
  cbn [ensures pbind ext]. split; [done|]. intros [b|er]; cbn [ensures pbind]; [|done].
  split; [cbn; by do 2 apply listed_cons|]. intros [id|er]; cbn [ensures pbind call_ ext]; [|done].
  split; [apply terminal_route; by do 4 apply listed_cons|]. by intros [j|er].
Qed.

Lemma scoped_to_agent thread msg reply word text : scoped r (to_agent r thread msg reply word text).
Proof.
  intros h. apply after_target. intros h1 first _. apply after_target. intros h2 [t a] Hl. cbn [fst] in *.
  destruct (String.eqb word "/screen"); [apply scoped_sendTarget|].
  destruct (String.eqb word "/focus").
  { split; [by apply terminal_route|]. by intros [j|er]. }
  destruct (String.eqb word "/stop"); [by split|]. destruct (String.eqb word "/interrupt"); [by split|].
  destruct (String.eqb word "/close"); [apply scoped_sendTarget|]. destruct (_ || _); [done|].
  unfold send_prompt. destruct (_ && _); [done|].
  split; [by apply terminal_route|]. intros [j|er]; cbn [pbind]; [|done].
  by apply ensures_atomic_save.
Qed.

Lemma allowed_workspaces_post wss :
  post r (allowed_workspaces r wss) (λ res, match res with
    | Ok l => Forall (λ ws, Allows cfg (WsID ws) = true ∧ IsLocked ws = false) l | Err _ => True end).
Proof.
  induction wss as [|ws l IH]; cbn [allowed_workspaces]; [by intros h; cbn; constructor|].
  destruct (Allows cfg (WsID ws)) eqn:Ha; cbn [andb]; [|done]. destruct (IsLocked ws) eqn:Hl; cbn [negb]; [done|].
  intros h. split; [exact Ha|]. intros [feed|e]; cbn [pbind]; [|done]. apply ensures_try.
  eapply ensures_mono; [|apply IH]. intros h' [l'|e]; [|done]. intros Hf. cbn. constructor; [by split|done].
Qed.

Lemma scoped_maestro_plan thread base args : scoped r (maestro_plan r thread base args).
Proof.
  unfold maestro_plan. destruct (String.eqb _ _); [done|]. destruct (negb (HasPlanner r)); [done|].
  apply scoped_try; [by apply scoped_ext|]. intros wss. eapply scoped_after; [apply allowed_workspaces_post|].
  intros allowed Hal. cbn in Hal. apply scoped_try; [by apply scoped_ext|]. intros presets.
  apply scoped_try; [by apply scoped_ext|]. intros plan. stroll. apply scoped_say.
Qed.

Lemma scoped_maestro thread key command args : scoped r (maestro r digest thread key command args).
Proof.
  unfold maestro, maestro_base, maestro_deploy.
  stroll; eauto using scoped_maestro_plan, scoped_Deploy, scoped_Refresh, scoped_say.
Qed.

Lemma scoped_bind_save ws floor thread name : scoped r (bind_save ws floor thread name).
Proof. unfold bind_save. stroll. Qed.

Lemma scoped_bind_command args : scoped r (bind r args).
Proof.
  unfold bind. stroll; eauto using scoped_bind_save.
Qed.

Lemma scoped_dispatch thread msg reply key text : scoped r (dispatch r digest thread msg reply key text).
Proof.
  unfold dispatch, status, catalog, resume, mute, free_text.
  stroll; eauto using scoped_say, scoped_agents, scoped_maestro, scoped_Deploy, scoped_to_agent, scoped_bind_command.
Qed.

(** The key an event is remembered by. *)
Definition event_key (ev : Event) : option string :=
  match ev with
  | EvTopicMessage e => Some ("m:" +:+ itoa (MsgMessageID e))
  | EvGeneralCommand e => Some ("m:" +:+ itoa (GenMessageID e))
  | EvButtonPressed e => Some ("b:" +:+ CallbackID e)
  | EvTopicAttachment e => Some ("m:" +:+ itoa (AttMessageID e))
  | _ => None
  end.

(** An event does nothing, is an observer's question, or is an operator's:
    then it is handled the first time it is seen. *)
Inductive handled (ev : Event) : prog (result ()) → Prop :=
  | handled_not : handled ev (ok ())
  | handled_question p : from_operator r ev = false → scoped r p → handled ev p
  | handled_once key p : from_operator r ev = true → event_key ev = Some key → scoped r p → handled ev (first_time key p).

Lemma Handle_handled ev : handled ev (Handle r digest ev).
Proof.
  destruct ev as [e|e|e|e|e|? ?|?|?|?|e] eqn:E; cbn [Handle]; unfold message; try apply handled_not.
  - destruct (Operator cfg (MsgFromID e)) eqn:Ho; [|apply handled_not]. by apply handled_once, scoped_dispatch.
  - destruct (Operator cfg (AttFromID e)) eqn:Ho; [|apply handled_not]. by apply handled_once, scoped_attachment.
  - destruct (Operator cfg (BtnFromID e)) eqn:Ho; [|apply handled_not]. apply handled_once; [done..|].
    apply scoped_bind; [by apply scoped_ext|]. intros _. apply scoped_button.
  - destruct (Operator cfg (GenFromID e)) eqn:Ho; cbn [negb]; [by apply handled_once, scoped_dispatch|].
    destruct (_ && _); [|apply handled_not]. apply handled_question; [done|]. unfold status. stroll; apply scoped_say.
Qed.

Lemma scoped_report ev (p : prog (result ())) : scoped r p →
  scoped r (do res ← p; match res with Ok _ => Ret () | Err e => do _ ← say r (event_thread ev) (error_text e); Ret () end).
Proof. intros Hp. apply scoped_bind; [done|]. intros [u|e]; [done|]. apply scoped_bind; [apply scoped_say|done]. Qed.

Lemma free_bind {A B} (p : prog A) (f : A → prog B) h :
  (∀ h, ensures (free_policy r) p h (λ _ _, True)) → (∀ a, scoped r (f a)) → ensures (free_policy r) (pbind p f) h (λ _ _, True).
Proof.
  intros Hp Hf. apply ensures_bind. eapply ensures_mono; [|apply Hp]. intros h' a _. apply scoped_free, Hf.
Qed.

Lemma free_once key h : ensures (free_policy r) (once key) h (λ _ _, True).
Proof.
  intros m. cbn. split; [done|]. destruct (Seen (rstate m) !! key); cbn; [done|]. split; [done|]. intros now m1. split; [done|].
  intros m2. split; [done|]. destruct (failure m2); cbn; [done|]. split; [done|]. intros [e|]; cbn; [|done]. by intros.
Qed.

Lemma free_serve ev h : ensures (free_policy r) (serve r digest error_text ev) h (λ _ _, True).
Proof.
  unfold serve. pose proof (Handle_handled ev) as Hh. inversion Hh as [E|p Hop Hp E|key p Hop Hkey Hp E].
  - done.
  - by apply scoped_free, scoped_report.
  - apply free_bind.
    + intros h'. apply free_bind; [apply free_once|]. intros [[]|e]; [done..|]. done.
    + intros [u|e]; [done|]. apply scoped_bind; [apply scoped_say|done].
Qed.

(** What was asked in [h], with what had happened before. *)
Lemma asked_ok_at (pol : policy) h l l1 l2 B (o : eop B) :
  asked_ok pol h l → l = l1 ++ Asked o :: l2 → may pol (l2 ++ h) _ o.
Proof.
  intros Hl ->. induction l1 as [|[C q|C q b] l1 IH]; cbn in Hl; [by destruct Hl|destruct Hl; auto|auto].
Qed.

(** C16: Whatever an operator asks and the host answers, the relay reads feeds
    and deploys only in allowed workspaces, shows the planner only allowed
    unlocked ones, and writes to a terminal only after a feed of an allowed
    workspace has listed it as live and running on the floor read. *)
Theorem relay_in_scope p w res w' l1 l2 B (o : eop B) :
  (∃ ev, p = serve r digest error_text ev) ∨ p = (do _ ← Refresh r; Ret ()) →
  exec p w res w' → log w' = l1 ++ Asked o :: l2 ++ log w → in_scope r (l2 ++ log w) o.
Proof.
  intros Hp He Hl. assert (Hs : ensures (free_policy r) p (log w) (λ _ _, True)).
  { destruct Hp as [[ev ->]| ->]; [apply free_serve|]. apply scoped_free, scoped_bind; [apply scoped_Refresh|done]. }
  destruct (ensures_exec _ _ _ _ _ _ He Hs) as [(l & El & Hok) _].
  eapply (asked_ok_at (free_policy r) _ l l1 l2); [exact Hok|].
  rewrite El in Hl. apply (app_inv_tail (log w)). by rewrite <-app_assoc.
Qed.

(** ** Each event once *)

(** The event is on record, in memory and in the file. *)
Definition recorded (key : string) (w : world) : Prop :=
  is_Some (Seen (rstate (wmem w)) !! key) ∧ is_Some (Seen (disk w) !! key).

(** Since [h], only the clock was read. *)
Definition clock_since (h : list event) (w : world) : Prop :=
  ∃ l, log w = l ++ h ∧ Forall (λ e, match e with Asked o => match o with Now => True | _ => False end | _ => True end) l.

Lemma recorded_swp {A} key (p : prog A) h Q w :
  ensures (scope_policy r) p h Q → recorded key w → swp p w (recorded key) (λ a w', recorded key w' ∧ ∃ h', Q h' a).
Proof.
  revert h Q w. induction p as [A a|A B o k IH|A B f k IH|A k IH|A B q IHq k IH]; intros h Q w; cbn [ensures swp];
    intros H Hr; (split; [done|]).
  - split; [done|]. by exists h.
  - destruct H as [_ H]. split; [done|]. intros b. by apply (IH b _ _ (answer o b w) (H b)).
  - destruct (H (wmem w)) as [Hs H']. apply (IH _ _ _ (put_mem (f (wmem w)).1 w) H').
    red in Hs. unfold recorded. cbn. by rewrite Hs.
  - destruct H as [_ H]. assert (Hr' : recorded key (saved w)) by (by split; apply Hr).
    split; [done|]. split; [by eapply IH|]. intros e. split; by eapply IH.
  - eapply swp_mono; [|by eapply IHq]. intros b w' [Hr' [h' Hk]]. by eapply IH.
Qed.

Lemma scoped_recorded {A} key (p : prog A) w : scoped r p → recorded key w → swp p w (recorded key) (λ _ w', recorded key w').
Proof. intros Hp Hr. eapply swp_mono; [|by apply (recorded_swp key p [] _ w (Hp []))]. by intros a w' []. Qed.

(** The save has failed for [e]: the event is on record in memory, and after
    the clock nothing was asked but to post that error, if anything. *)
Definition reported (ev : Event) (key : string) (h : list event) (e : error) (w : world) : Prop :=
  let out := Relay.post (event_thread ev) (relay_redact r (error_text e)) 2 false [] in
  failure (wmem w) = Some e ∧ is_Some (Seen (rstate (wmem w)) !! key) ∧
  ∃ t l, log w = l ++ Answered Now t :: Asked Now :: h ∧ (l = [] ∨ l = [Asked (TSend out)] ∨ ∃ b, l = [Answered (TSend out) b; Asked (TSend out)]).

(** The event is on record, or only the clock was read, or the save failed. *)
Definition held (ev : Event) (key : string) (h : list event) (w : world) : Prop :=
  recorded key w ∨ clock_since h w ∨ ∃ e, reported ev key h e w.

(** [once] on a key already seen does nothing. *)
Lemma once_seen key w (I : world → Prop) Q s :
  Seen (rstate (wmem w)) !! key = Some s → I w → Q (Ok false) w → swp (once key) w I Q.
Proof.
  intros Hk HI HQ. cbn. split; [done|]. split; [done|].
  replace (put_mem (wmem w) w) with w by (by destruct w). by rewrite Hk.
Qed.

(** On a new one it succeeds only after recording it. *)
Lemma once_new ev key w :
  Seen (rstate (wmem w)) !! key = None →
  swp (once key) w (held ev key (log w)) (λ res w',
    match res with
    | Ok b => b = true ∧ recorded key w'
    | Err e => failure (wmem w') = Some e ∧ is_Some (Seen (rstate (wmem w')) !! key) ∧ ∃ t, log w' = Answered Now t :: Asked Now :: log w
    end).
Proof.
  intros Hk. assert (H0 : ∀ m d, held ev key (log w) (mkWorld m d (log w))) by (intros m d; right; left; by exists []).
  assert (Hw : held ev key (log w) w) by (destruct w; apply H0).
  cbn. split; [done|]. split; [done|]. rewrite Hk. cbn. split; [apply H0|].
  assert (H1 : ∀ t m d, held ev key (log w) (mkWorld m d (Answered Now t :: Asked Now :: log w))).
  { intros t m d. right. left. exists [Answered Now t; Asked Now]. split; [done|]. by repeat constructor. }
  split; [right; left; exists [Asked Now]; split; [done|by repeat constructor]|]. intros t. split; [apply H1|].
  set (m1 := with_seen _ _). assert (Hs : is_Some (Seen (rstate m1) !! key)) by (cbn; rewrite lookup_insert_eq; by eexists).
  match goal with |- _ ∧ swp _ _ ?I ?Q =>
    change (swp (try _ ← save; ok true) (mkWorld m1 (disk w) (Answered Now t :: Asked Now :: log w)) I Q) end.
  apply swp_try, save_swp; cbn [saved put_mem disk wmem log]; [apply H1..| |].
  - intros e m [E Hf]. do 2 (split; [apply H1|]). cbn [wmem log]. rewrite E.
    by split; (split; [apply H1|]; split; [apply H1|]; split; [done|]; split; [done|]; exists t).
  - do 2 (split; [apply H1|]). split; [done|]. by split.
Qed.

(** The report of a failed save. *)
Lemma report_held ev key h w1 e :
  failure (wmem w1) = Some e ∧ is_Some (Seen (rstate (wmem w1)) !! key) ∧ (∃ t, log w1 = Answered Now t :: Asked Now :: h) →
  swp (do _ ← say r (event_thread ev) (error_text e); Ret ()) w1 (held ev key h) (λ _, held ev key h).
Proof.
  intros (Hf & Hk & t & Hl). set (out := Relay.post (event_thread ev) (relay_redact r (error_text e)) 2 false []).
  assert (H : ∀ l w, wmem w = wmem w1 → log w = l ++ log w1 →
    (l = [] ∨ l = [Asked (TSend out)] ∨ ∃ b, l = [Answered (TSend out) b; Asked (TSend out)]) → held ev key h w).
  { intros l w Hw Hlog Hc. right. right. exists e. unfold reported. rewrite Hw. split; [done|]. split; [done|]. exists t, l. rewrite Hlog, Hl. by split. }
  cbn. split; [by apply (H [] w1); [..|left]|]. split; [by apply (H [Asked (TSend out)] (ask (TSend out) w1)); [..|right; left]|]. intros b.
  assert (Hb : held ev key h (answer (TSend out) b w1)) by (eapply (H [_; _]); [done..|right; right; by eexists]).
  destruct b as [id|e']; cbn; repeat split; exact Hb.
Qed.

(** It forgets nothing younger than two days. *)
Lemma once_remembers key w k s :
  Seen (rstate (wmem w)) !! k = Some s →
  swp (once key) w (λ _, True) (λ _ w', Seen (rstate (wmem w')) !! k = Some s
    ∨ ∃ t, log w' = Answered Now t :: Asked Now :: log w ∧ (k = key ∨ seen_for < time_sub t s)).
Proof.
  intros Hs. cbn. split; [done|]. split; [done|]. destruct (Seen (rstate (wmem w)) !! key) eqn:Hk; cbn.
  { split; [done|]. split; [done|]. by left. }
  split; [done|]. split; [done|]. intros t. split; [done|]. set (m1 := with_seen _ _).
  assert (H1 : ∀ m d, rstate m = rstate m1 → let w' := mkWorld m d (Answered Now t :: Asked Now :: log w) in
    Seen (rstate (wmem w')) !! k = Some s ∨ ∃ t', log w' = Answered Now t' :: Asked Now :: log w ∧ (k = key ∨ seen_for < time_sub t' s)).
  { intros m d E. cbn. rewrite E. cbn. destruct (decide (key = k)) as [->|Hne]; [right; exists t; by auto|].
    destruct (decide (seen_for < time_sub t s)) as [|Hold]; [right; exists t; by auto|]. left.
    rewrite lookup_insert_ne by done. by apply map_lookup_filter_Some. }
  change (swp (try _ ← save; ok true) (mkWorld m1 (disk w) (Answered Now t :: Asked Now :: log w)) (λ _, True)
    (λ b w', swp (Ret b) w' (λ _, True) (λ _ w', Seen (rstate (wmem w')) !! k = Some s
    ∨ ∃ t, log w' = Answered Now t :: Asked Now :: log w ∧ (k = key ∨ seen_for < time_sub t s)))).
  apply swp_try, save_swp; cbn [saved put_mem disk wmem log]; [done..| |].
  - intros e m [E _]. split_and!; try done; (split; [done|]); by apply H1.
  - do 2 (split; [done|]). by apply H1.
Qed.

(** C31: An operator's event is handled once.  On an event already seen the
    relay does nothing at all.  On a new one, wherever its run stops, either the
    event is on record in memory and in the state file, or nothing was asked but
    the clock, or the save has failed and beyond the clock only that error was
    posted, where the event came from: no other post, no call of the host and
    no change to Telegram precedes the record.  Recording it forgets no event
    younger than two days. *)
Theorem events_handled_once ev key w res w' :
  from_operator r ev = true → event_key ev = Some key → exec (serve r digest error_text ev) w res w' →
  match Seen (rstate (wmem w)) !! key with
  | Some _ => w' = w
  | None => held ev key (log w) w'
  end ∧
  (∀ b w1 k s, exec (once key) w (Some b) w1 → Seen (rstate (wmem w)) !! k = Some s →
     Seen (rstate (wmem w1)) !! k = Some s
     ∨ ∃ t, log w1 = Answered Now t :: Asked Now :: log w ∧ (k = key ∨ seen_for < time_sub t s)).
Proof.
  intros Hop Hkey He. split.
  2: { intros b w1 k s Ho Hs. exact (swp_exec _ _ _ _ _ _ Ho (once_remembers key w k s Hs)). }
  unfold serve in He. pose proof (Handle_handled ev) as Hh. inversion Hh as [E|p Hop' Hp E|key' p _ Hkey' Hp E].
  { rewrite <-E in He. assert (w' = w) as ->; [|by destruct (Seen _ !! key); [|right; left; exists []]].
    by apply (swp_always _ w (λ w', w' = w) _ _ He). }
  { congruence. }
  rewrite Hkey in Hkey'. injection Hkey' as <-. rewrite <-E in He.
  destruct (Seen (rstate (wmem w)) !! key) as [s|] eqn:Hs.
  - apply (swp_always _ w (λ w', w' = w) _ _ He).
    unfold first_time. do 2 apply swp_bind. by eapply once_seen.
  - apply (swp_always _ w (held ev key (log w)) _ _ He).
    unfold first_time. do 2 apply swp_bind. eapply swp_mono; [|by apply (once_new ev)].
    assert (Hrec : ∀ A (q : prog A) w1, scoped r q → recorded key w1 → swp q w1 (held ev key (log w)) (λ _, held ev key (log w))).
    { intros A q w1 Hq Hr. eapply swp_weaken; [|eapply swp_mono; [|by apply scoped_recorded]]; intros; by left. }
    intros [b|e] w1 Hw1.
    + destruct Hw1 as [-> Hr]. eapply swp_mono; [|eapply swp_weaken; [|by apply (scoped_recorded key p w1)]]; [|by left].
      intros [u|e] w2 Hr2; apply Hrec; [done|done|apply scoped_bind; [apply scoped_say|done]|done].
    + pose proof (report_held ev key (log w) w1 e Hw1) as Hr. split; [exact (swp_here _ _ _ _ Hr)|exact Hr].
Qed.
End Scope.

(** ** Witnesses *)

Lemma strangers_do_nothing_witness :
  let ev := EvGeneralCommand (mkGeneralCommand 5 99 "/help" RoleObserver) in
  let w' := (interp test_oracle (serve test_relay test_digest test_error ev) test_up).2 in
  log w' ≠ log test_up ∧ wmem w' = wmem test_up ∧ disk w' = disk test_up ∧
  ∃ l, log w' = l ++ log test_up ∧
    Forall (λ e, match e with Asked o => posts_in_general o | Answered _ _ => True end) l ∧
    (observer_question ev = false → l = []).
Proof.
  cbv zeta. split; [vm_compute; discriminate|].
  refine (strangers_do_nothing test_relay test_digest test_error (EvGeneralCommand (mkGeneralCommand 5 99 "/help" RoleObserver)) test_up _ _ eq_refl (pool_exec _ _ _)).
Defined.

(** A prompt to the coordinator of the floor. *)
Definition test_prompt : Event := test_message 55 0 7 "hello".
Definition test_prompted : world := (interp test_oracle (serve test_relay test_digest test_error test_prompt) test_up).2.

Lemma relay_in_scope_witness :
  ∃ l1 l2, log test_prompted = l1 ++ Asked (WCall None "" "POST" "/api/terminals/a/prompt" (JObj [("text", JStr "hello")])) :: l2 ++ log test_up
    ∧ in_scope test_relay (l2 ++ log test_up) (WCall None "" "POST" "/api/terminals/a/prompt" (JObj [("text", JStr "hello")])).
Proof.
  exists (take 1 (log test_prompted)), (take 10 (drop 2 (log test_prompted))).
  assert (Hl : log test_prompted = take 1 (log test_prompted)
    ++ Asked (WCall None "" "POST" "/api/terminals/a/prompt" (JObj [("text", JStr "hello")]))
    :: take 10 (drop 2 (log test_prompted)) ++ log test_up) by (vm_compute; reflexivity).
  split; [exact Hl|].
  refine (relay_in_scope test_relay test_digest test_error _ test_up _ test_prompted _ _ _ _
    (or_introl (ex_intro _ test_prompt eq_refl)) (pool_exec _ _ _) Hl).
Defined.

Lemma events_handled_once_witness :
  Seen (rstate (wmem test_prompted)) !! "m:55" ≠ None ∧
  match Seen (rstate (wmem test_up)) !! "m:55" with
  | Some _ => test_prompted = test_up
  | None => held test_relay test_error test_prompt "m:55" (log test_up) test_prompted
  end ∧
  (interp test_oracle (serve test_relay test_digest test_error test_prompt) test_prompted).2 = test_prompted.
Proof.
  split; [vm_compute; discriminate|]. split.
  - exact (proj1 (events_handled_once test_relay test_digest test_error test_prompt "m:55" test_up _ _ eq_refl eq_refl (pool_exec _ _ _))).
  - exact (proj1 (events_handled_once test_relay test_digest test_error test_prompt "m:55" test_prompted _ _ eq_refl eq_refl (pool_exec test_oracle _ _))).
Defined.

(** * Where a message goes, what a repeated deployment step does, and what the
    catalogue shows. *)
Section Routing.
Context {U : UnicodeTables} {P : UrlParser} {TO : TopicOrder}.
Context (r : Relay).
Notation cfg := (RConfig r).

Lemma topic_of_thread_some thread topics topic :
  topic_of_thread thread topics = Some topic →
  RThread topic = thread ∧ RPending topic = false ∧ ∃ key, topics !! key = Some topic.
Proof.
  unfold topic_of_thread. intros H. apply fmap_Some in H as ([key t] & Hf & ->). cbn [snd].
  apply List.find_some in Hf as [Hin Hp]. cbn [snd] in Hp. apply andb_true_iff in Hp as [Ht Hn].
  apply Z.eqb_eq in Ht. apply negb_true_iff in Hn. split; [done|]. split; [done|].
  exists key. apply elem_of_map_to_list. apply list_elem_of_In in Hin. by rewrite (visit_perm topics) in Hin.
Qed.

(** Threads are shared by no two bound topics: then the order of the
    iteration does not matter. *)
Lemma topic_of_thread_unique topics key topic :
  topics !! key = Some topic → RPending topic = false →
  (∀ key' topic', topics !! key' = Some topic' → RPending topic' = false → RThread topic' = RThread topic → topic' = topic) →
  topic_of_thread (RThread topic) topics = Some topic.
Proof.
  intros Hk Hn Hu. destruct (topic_of_thread (RThread topic) topics) as [t|] eqn:E.
  - apply topic_of_thread_some in E as (Ht & Hp & key' & Hk'). f_equal. by eapply Hu.
  - exfalso. unfold topic_of_thread in E. apply fmap_None in E.
    assert (Hin : In (key, topic) (visit topics)).
    { apply list_elem_of_In. rewrite (visit_perm topics). by apply elem_of_map_to_list. }
    apply (List.find_none _ _ E) in Hin. cbn [snd] in Hin. rewrite Z.eqb_refl, Hn in Hin. done.
Qed.

(** What a message is delivered to. *)
Record routed (w : world) (thread reply : Z) (explicit : string) (topic : relayTopic) (feed : WireFeed)
    (t : relayTarget) (a : WireTerminal) : Prop := {
  rt_topic : RThread topic = thread ∧ RPending topic = false ∧ ∃ key, Topics (rstate (wmem w)) !! key = Some topic;
  rt_allowed : RWorkspace topic ≠ "maestro" ∧ Allows cfg (RWorkspace topic) = true;
  rt_feed : WsID (FWorkspace feed) = RWorkspace topic ∧ ValidRelayID (Epoch feed) = true;
  rt_terminal : a ∈ map Terminal (Items feed) ∧ TermID a ≠ "" ∧ FloorID a = RFloor topic ∧ IsLive a = true ∧ IsRunning a = true;
  rt_unique : ∀ b, b ∈ map Terminal (Items feed) → eligible topic b = true →
    wanted (Replies (rstate (wmem w)) !! reply) reply explicit b = true → b = a;
  rt_reply : reply ≠ 0 → ∃ b, Replies (rstate (wmem w)) !! reply = Some b ∧ TgTerminal b = TermID a ∧ TgThread b = thread ∧
    TgWorkspace b = RWorkspace topic ∧ TgFloor b = RFloor topic ∧ TgEpoch b = Epoch feed;
  rt_explicit : reply = 0 → explicit ≠ "" → TermID a = explicit;
  rt_manager : reply = 0 → explicit = "" → IsManager a = true;
  rt_target : TgTerminal t = TermID a ∧ TgWorkspace t = RWorkspace topic ∧ TgFloor t = RFloor topic ∧
    TgEpoch t = Epoch feed ∧ TgThread t = thread
}.

Lemma single_routed w thread reply explicit topic feed a at_ :
  topic_of_thread thread (Topics (rstate (wmem w))) = Some topic →
  RWorkspace topic ≠ "maestro" → Allows cfg (RWorkspace topic) = true →
  WsID (FWorkspace feed) = RWorkspace topic → ValidRelayID (Epoch feed) = true →
  negb (reply =? 0) && stale_reply (Replies (rstate (wmem w)) !! reply) thread topic feed = false →
  candidates topic (Replies (rstate (wmem w)) !! reply) reply explicit (Items feed) = [a] →
  routed w thread reply explicit topic feed
    (mkTarget (RWorkspace topic) (RFloor topic) (TermID a) (Epoch feed) thread (prompt_of topic (TermID a) (Items feed)) at_ []) a.
Proof.
  intros Ht Hm Ha Hw He Hst Hc. unfold candidates in Hc.
  pose proof (filter_single _ _ _ Hc) as [Hin [Hel Hwa]%andb_true_iff].
  pose proof Hel as Hel'. unfold eligible in Hel'. rewrite !andb_true_iff, negb_true_iff, String.eqb_eq, String.eqb_neq in Hel'.
  destruct Hel' as [[[? ?] ?] ?].
  split; try done.
  - by apply topic_of_thread_some.
  - intros b Hb Hbe Hbw. apply (filter_single_unique _ _ _ b Hc Hb). by rewrite Hbe, Hbw.
  - intros Hr. unfold wanted, stale_reply in *. apply Z.eqb_neq in Hr. rewrite Hr in *. cbn [negb andb] in *.
    destruct (Replies (rstate (wmem w)) !! reply) as [b|]; [|done]. exists b. split; [done|].
    rewrite !orb_false_iff, !negb_false_iff, !String.eqb_eq, Z.eqb_eq in Hst. apply String.eqb_eq in Hwa.
    destruct Hst as [[[? ?] ?] ?]. by rewrite Hwa.
  - intros -> He'. unfold wanted in Hwa. cbn [Z.eqb negb] in Hwa. apply String.eqb_neq in He'. rewrite He' in Hwa.
    by apply String.eqb_eq in Hwa.
  - intros -> ->. exact Hwa.
Qed.

(** The feed [target] has read. *)
Definition feed_read (w w' : world) (topic : relayTopic) (feed : WireFeed) : Prop :=
  ∃ l, log w' = l ++ Answered (WFeed (RWorkspace topic) (RFloor topic)) (Ok feed) :: Asked (WFeed (RWorkspace topic) (RFloor topic)) :: log w.

(** When a message finds its terminal, that terminal is the only one in a
    fresh feed of the topic's floor that is live, running and the one meant: the
    one replied to in the same thread, floor and host session, the one named, or
    the floor's coordinator; nothing is changed or asked but the feed. *)
Theorem target_routes thread reply explicit w t a w' :
  exec (target r thread reply explicit) w (Some (Ok (t, a))) w' →
  wmem w' = wmem w ∧ disk w' = disk w ∧
  ∃ topic feed, feed_read w w' topic feed ∧ routed w thread reply explicit topic feed t a.
Proof.
  intros He.
  set (I := λ w1, wmem w1 = wmem w ∧ disk w1 = disk w).
  assert (H : swp (target r thread reply explicit) w I (λ res w1, I w1 ∧ match res with
    | Ok (t, a) => ∃ topic feed, feed_read w w1 topic feed ∧ routed w thread reply explicit topic feed t a
    | Err _ => True end)).
  { assert (HI : I w) by done. unfold target.
    apply (swp_view (λ m, (topic_of_thread thread (Topics (rstate m)), Replies (rstate m) !! reply))); [done|].
    cbn [fst snd]. destruct (topic_of_thread thread (Topics (rstate (wmem w)))) as [topic|] eqn:Ht; [|by do 2 split].
    destruct (String.eqb_spec (RWorkspace topic) "maestro") as [|Hm]; [by do 2 split|]. cbn [orb].
    destruct (Allows cfg (RWorkspace topic)) eqn:Ha; cbn [negb]; [|by do 2 split].
    cbn [swp ext pbind]. split; [done|]. split; [done|]. intros [feed|e]; [|by do 2 split].
    destruct (String.eqb_spec (WsID (FWorkspace feed)) (RWorkspace topic)) as [Hws|]; cbn [negb orb]; [|by do 2 split].
    destruct (ValidRelayID (Epoch feed)) eqn:Hep; cbn [negb]; [|by do 2 split].
    destruct (negb (reply =? 0) && stale_reply _ _ _ _) eqn:Hst; [by do 2 split|].
    destruct (candidates _ _ _ _ _) as [|a' [|]] eqn:Hc; [by do 2 split| |by do 2 split].
    cbn [swp ext pbind]. split; [done|]. split; [done|]. intros at_. split; [done|]. split; [done|].
    exists topic, feed. split; [by exists [Answered Now at_; Asked Now]|]. by apply single_routed. }
  destruct (swp_exec _ _ _ _ _ _ He H) as [[Hm Hd] Hr]. by split.
Qed.

(** ** Steps of a deployment *)

(** A step whose result is on record answers it and asks nothing; while
    another step is uncertain nothing is asked; otherwise the host is asked only
    after the step has been saved as begun, and its result is saved before the
    step succeeds. *)
Theorem step_spec j st cap method path body w res w' job :
  Jobs (rstate (wmem w)) !! j = Some job → exec (step j st cap method path body) w res w' →
  match JResults job !! st with
  | Some known => w' = w ∧ (∀ x, res = Some x → x = Ok known)
  | None =>
    if String.eqb (JPending job) "" then
      (∃ l, log w' = l ++ log w) ∧
      (log w' ≠ log w → (Jobs (disk w') !! j = Some (begin_step st job) ∨ ∃ result, Jobs (disk w') !! j = Some (end_step st result (begin_step st job)))) ∧
      (∀ result, res = Some (Ok result) →
         log w' = [Answered (WCall (Some (j, st)) cap method path body) (Ok result); Asked (WCall (Some (j, st)) cap method path body)] ++ log w ∧
         Jobs (disk w') !! j = Some (end_step st result (begin_step st job)) ∧ rstate (wmem w') = disk w')
    else w' = w ∧ (∀ x, res = Some x → x = Err (Errorf "etapa %s teve resultado incerto; reconcilie os recursos no host antes de retomar" [JPending job] []))
  end.
Proof.
  intros Hj He. set (tag := WCall (Some (j, st)) cap method path body) in *.
  destruct (JResults job !! st) as [known|] eqn:Hres; [|destruct (String.eqb_spec (JPending job) "") as [Hp|Hp]].
  - assert (H : swp (step j st cap method path body) w (λ w', w' = w) (λ x w', w' = w ∧ x = Ok known)).
    { unfold step. apply swp_try, swp_atomic; [done|]. unfold step_begin. apply swp_get; [done|]. rewrite Hj, Hres. by repeat split. }
    pose proof (swp_exec _ _ _ _ _ _ He H) as Hx. destruct res; [destruct Hx as [-> ->]|]; split; naive_solver.
  - set (Jb := begin_step st job).
    set (I := λ w', (∃ l, log w' = l ++ log w) ∧ (log w' ≠ log w → Jobs (disk w') !! j = Some Jb ∨ ∃ result, Jobs (disk w') !! j = Some (end_step st result Jb))).
    set (Q := λ res w', ∀ result, res = Ok result →
       log w' = [Answered tag (Ok result); Asked tag] ++ log w ∧
       Jobs (disk w') !! j = Some (end_step st result Jb) ∧ rstate (wmem w') = disk w').
    assert (H : swp (step j st cap method path body) w I (λ res w', I w' ∧ Q res w')).
    { assert (Hidle : ∀ m d, I (mkWorld m d (log w))) by (intros m d; by split; [exists []|]).
      assert (HI : I w) by (by destruct w).
      unfold step. apply swp_try, swp_atomic; [done|]. unfold step_begin. apply swp_get; [done|]. rewrite Hj, Hres, Hp. cbn [String.eqb negb].
      apply swp_modify; [done|]. apply swp_try, save_swp; [apply Hidle..| |].
      { intros e m _. do 2 (split; [apply Hidle|]). split; (split; [apply Hidle|]); repeat split; try apply Hidle; by intros. }
      set (w1 := saved _).
      assert (Hd1 : Jobs (disk w1) !! j = Some Jb) by (cbn; by rewrite lookup_alter_eq, Hj).
      assert (Hafter : ∀ l d m, Jobs d !! j = Some Jb ∨ (∃ result, Jobs d !! j = Some (end_step st result Jb)) → I (mkWorld m d (l ++ log w))).
      { intros l d m Hd. split; [by exists l|done]. }
      assert (HI1 : I w1) by apply Hidle.
      do 2 (split; [done|]). apply swp_ext; [done|apply (Hafter [Asked tag]); by left|].
      intros b. set (w2 := answer tag b w1).
      assert (HI2 : I w2) by (apply (Hafter [Answered tag b; Asked tag]); by left).
      destruct b as [result|e]; [|by split; [|split]].
      apply swp_atomic; [done|]. unfold step_end. apply swp_modify; [done|]. set (w3 := put_mem (alter_job (end_step st result) j (wmem w2)) w2).
      assert (Hd3 : Jobs (disk (saved w3)) !! j = Some (end_step st result Jb)) by (cbn; by rewrite !lookup_alter_eq, Hj).
      apply swp_try, save_swp.
      - apply (Hafter [Answered tag _; Asked tag]). by left.
      - apply (Hafter [Answered tag _; Asked tag]). right. by exists result.
      - intros e m _.
        assert (I (put_mem m w3)) by (apply (Hafter [Answered tag _; Asked tag]); by left).
        assert (I (put_mem m (saved w3))) by (apply (Hafter [Answered tag _; Asked tag]); right; by exists result).
        by split_and!; try (split; [|split]).
      - assert (I (saved w3)) by (apply (Hafter [Answered tag _; Asked tag]); right; by exists result).
        do 3 (split; [done|]). intros result' [= <-]. by repeat split. }
    pose proof (swp_exec _ _ _ _ _ _ He H) as Hx. destruct res as [res|].
    + destruct Hx as [[Hl Hd] HQ]. split; [done|]. split; [done|]. intros result [= ->]. by apply HQ.
    + destruct Hx as [Hl Hd]. by split_and!.
  - assert (H : swp (step j st cap method path body) w (λ w', w' = w) (λ x w', w' = w ∧
      x = Err (Errorf "etapa %s teve resultado incerto; reconcilie os recursos no host antes de retomar" [JPending job] []))).
    { unfold step. apply swp_try, swp_atomic; [done|]. unfold step_begin. apply swp_get; [done|]. rewrite Hj, Hres.
      apply String.eqb_neq in Hp. rewrite Hp. by repeat split. }
    pose proof (swp_exec _ _ _ _ _ _ He H) as Hx. destruct res; [destruct Hx as [-> ->]|]; split; naive_solver.
Qed.
End Routing.

(** ** The catalogue *)

Definition at_least (x y : Arrangement * Z) : Prop := snd y ≤ snd x.

Lemma insert_scored_filter x l s :
  List.filter (λ m, snd m =? s) (insert_scored x l) = List.filter (λ m, snd m =? s) (x :: l).
Proof.
  induction l as [|y l IH]; cbn [insert_scored]; [done|]. destruct (Z.leb_spec (snd y) (snd x)) as [|Hlt]; [done|].
  cbn [List.filter] in *. rewrite IH. destruct (Z.eqb_spec (snd x) s), (Z.eqb_spec (snd y) s); try done. lia.
Qed.

Lemma insert_scored_elem x l y : y ∈ insert_scored x l ↔ y = x ∨ y ∈ l.
Proof.
  induction l as [|z l IH]; cbn [insert_scored]; [by rewrite list_elem_of_singleton, elem_of_nil; tauto|].
  destruct (snd z <=? snd x); rewrite ?elem_of_cons; [tauto|]. rewrite IH. tauto.
Qed.

Lemma insert_scored_sorted x l : StronglySorted at_least l → StronglySorted at_least (insert_scored x l).
Proof.
  induction 1 as [|y l Hs IH Hy]; cbn [insert_scored]; [by repeat constructor|].
  destruct (Z.leb_spec (snd y) (snd x)) as [Hle|Hlt].
  - constructor; [by constructor|]. constructor; [done|]. eapply Forall_impl; [done|]. intros z Hz. unfold at_least in *. lia.
  - constructor; [done|]. apply Forall_forall. intros z [->|Hz]%insert_scored_elem; [unfold at_least; lia|].
    rewrite Forall_forall in Hy. by apply Hy.
Qed.

Section CatalogSpec.
Context {U : UnicodeTables}.

(** The catalogue shows exactly the arrangements that contain a word of
    the query (all of them without one), those with more of its words first,
    and those with as many in the order of the catalogue. *)
Theorem catalog_matches_spec query entries :
  let words := fields (to_lower query) in
  let shown := catalog_matches query entries in
  StronglySorted at_least shown ∧
  (∀ a s, (a, s) ∈ shown ↔ a ∈ entries ∧ s = score words a ∧ (words = [] ∨ 0 < s)) ∧
  ∀ s, List.filter (λ m, snd m =? s) shown
       = List.filter (λ m, snd m =? s) (List.filter (λ m, Nat.eqb (length words) 0 || (0 <? snd m)) (map (λ a, (a, score words a)) entries)).
Proof.
  intros words shown. unfold shown, catalog_matches. fold words. unfold sort_scored.
  set (l := List.filter _ _). split_and!.
  - induction l as [|x l IH]; cbn [foldr]; [constructor|]. by apply insert_scored_sorted.
  - intros a s. assert (∀ y, y ∈ foldr insert_scored [] l ↔ y ∈ l) as ->.
    { intros y. clear. induction l as [|x l IH]; cbn [foldr]; [done|]. rewrite insert_scored_elem, elem_of_cons, IH. done. }
    subst l. rewrite elem_of_list_filter, list_elem_of_fmap, orb_true_iff, Nat.eqb_eq, Z.ltb_lt. cbn [snd].
    rewrite length_zero_iff_nil. naive_solver.
  - intros s. clearbody l. clear. induction l as [|x l IH]; cbn [foldr]; [done|]. rewrite insert_scored_filter.
    cbn [List.filter]. by rewrite IH.
Qed.
End CatalogSpec.

(** ** A topic whose creation is uncertain

    It has no thread yet, and thread 0 is General: a request made in General
    is then taken for that floor. *)
Lemma pending_topic_takes_general {TO : TopicOrder} key ws floor name w :
  ws ≠ "maestro" → Topics (rstate (wmem w)) = {[key := mkRTopic ws floor name 0 true false]} →
  (interp test_oracle (maestro_base 0) w).1 = mkPlan "" "" ws "" "" floor "" empty_arrangement.
Proof.
  intros Hws HT. assert (Hv : visit (Topics (rstate (wmem w))) = [(key, mkRTopic ws floor name 0 true false)]).
  { apply Permutation_singleton_r. by rewrite (visit_perm _), HT, map_to_list_singleton. }
  unfold maestro_base. cbn [interp pbind atomic get fst snd]. unfold last_topic. rewrite Hv. cbn.
  apply String.eqb_neq in Hws. by rewrite Hws.
Qed.

(** ** Witnesses *)

Definition test_target : prog (result (relayTarget * WireTerminal)) := target test_relay 110 0 "".

Lemma target_routes_witness :
  ∃ t a w', (interp test_oracle test_target test_up) = (Ok (t, a), w') ∧ TermID a = "a" ∧
    wmem w' = wmem test_up ∧ disk w' = disk test_up ∧
    ∃ topic feed, feed_read test_up w' topic feed ∧ routed test_relay test_up 110 0 "" topic feed t a.
Proof.
  destruct (interp test_oracle test_target test_up) as [[[t a]|e] w'] eqn:E; [|vm_compute in E; discriminate].
  exists t, a, w'. split; [reflexivity|]. split; [vm_compute in E; injection E as _ <- _; reflexivity|].
  refine (target_routes test_relay 110 0 "" test_up t a w' _).
  pose proof (pool_exec test_oracle test_target test_up) as He. rewrite E in He. exact He.
Defined.

(** A job with one known result and one uncertain step. *)
Definition test_job : relayJob := mkJob test_plan "floor" {[ "workspace" := JStr "known" ]} false.
Definition test_uncertain : world :=
  put_mem (with_jobs (λ _, {[ "m-2" := test_job ]}) (wmem test_up)) test_up.

Lemma step_spec_witness :
  let run st := interp test_oracle (step "m-2" st "canvasWrites" "POST" "/api/x" JNull) test_uncertain in
  (run "workspace").2 = test_uncertain ∧ (run "workspace").1 = Ok (JStr "known") ∧
  (run "node-n1").2 = test_uncertain ∧
  (run "node-n1").1 = Err (Errorf "etapa %s teve resultado incerto; reconcilie os recursos no host antes de retomar" ["floor"] []).
Proof.
  cbv zeta. assert (Hj : Jobs (rstate (wmem test_uncertain)) !! "m-2" = Some test_job) by reflexivity.
  destruct (step_spec "m-2" "workspace" "canvasWrites" "POST" "/api/x" JNull test_uncertain _ _ test_job Hj (pool_exec test_oracle _ _)) as [H1 H2].
  destruct (step_spec "m-2" "node-n1" "canvasWrites" "POST" "/api/x" JNull test_uncertain _ _ test_job Hj (pool_exec test_oracle _ _)) as [H3 H4].
  split; [exact H1|]. split; [exact (H2 _ eq_refl)|]. split; [exact H3|exact (H4 _ eq_refl)].
Defined.
