(* ===== verification/Reconciler.v ===== *)
(** internal/app/reconciler.go, sweep.go and topicview.go: the single writer of
    forum topics.

    The gateways, the store, the clock, the sync switch and the quiet predicate
    are operations of the class [Gateway] over the world [W]; a handler is a
    computation of the state monad [M] over the reconciler and the world, and
    answers its Go error as an option. *)
From S2P Require Import Prelude GoStrings Errors Status Mapping Registry Debounce AppText.

Local Open Scope Z_scope.

Definition editDebounce : Duration := 3 * Second.
Definition mappingMaxEntries : Z := 500.
Definition sweepBatch : nat := 50.

(** ** topicview.go *)

Record topicView := mkView { entries : gmap Key TopicEntry; byThread : gmap Z Key }.

Definition newTopicView : topicView := mkView ∅ ∅.

Definition publish_step (m : Mapping) (v : topicView) (key : Key) : topicView :=
  match TopicFor m key with
  | None => v
  | Some e =>
    mkView (<[key := e]> (entries v))
      (match byThread v !! ThreadID e with
       | Some _ => byThread v
       | None => match KeyForThread m (ThreadID e) with
                 | Some k => <[ThreadID e := k]> (byThread v)
                 | None => byThread v
                 end
       end)
  end.
Definition publish (m : Mapping) : topicView := foldl (publish_step m) newTopicView (Keys m).

Definition view_entry (v : topicView) (key : Key) : option TopicEntry := entries v !! key.
Definition view_thread (v : topicView) (threadID : Z) : option Key := byThread v !! threadID.

(** ** The reconciler *)

Class Gateway (W : Type) := {
  tg_create : W → string → Status → W * result Topic;
  tg_edit : W → Z → TopicPatch → W * option error;
  tg_close : W → Z → W * option error;
  tg_reopen : W → Z → W * option error;
  tg_delete : W → Z → W * option error;
  tg_send : W → Z → string → W * option error;
  herdr_rename : W → string → option string → W * option error;
  herdr_rename_tab : W → string → string → W * option error;
  store_save : W → Mapping → W * option error;
  sync_paused : W → bool;
  quiet_now : W → bool;
  now : W → Time
}.

Record Reconciler := mkReconciler {
  mapping : Mapping;
  deb : debouncer;
  ragents : gmap Key Agent;
  rightsLost : bool;
  sweepRightsWarned : bool;
  force : bool;
  view : topicView
}.

Definition NewReconciler (m : Mapping) : Reconciler :=
  mkReconciler m newDebouncer ∅ false false false (publish m).

Definition set_mapping (r : Reconciler) (m : Mapping) : Reconciler :=
  mkReconciler m (deb r) (ragents r) (rightsLost r) (sweepRightsWarned r) (force r) (view r).
Definition set_deb (r : Reconciler) (d : debouncer) : Reconciler :=
  mkReconciler (mapping r) d (ragents r) (rightsLost r) (sweepRightsWarned r) (force r) (view r).
Definition set_ragents (r : Reconciler) (ag : gmap Key Agent) : Reconciler :=
  mkReconciler (mapping r) (deb r) ag (rightsLost r) (sweepRightsWarned r) (force r) (view r).
Definition set_rights (r : Reconciler) (b : bool) : Reconciler :=
  mkReconciler (mapping r) (deb r) (ragents r) b (sweepRightsWarned r) (force r) (view r).
Definition set_warned (r : Reconciler) (b : bool) : Reconciler :=
  mkReconciler (mapping r) (deb r) (ragents r) (rightsLost r) b (force r) (view r).
Definition set_force (r : Reconciler) (b : bool) : Reconciler :=
  mkReconciler (mapping r) (deb r) (ragents r) (rightsLost r) (sweepRightsWarned r) b (view r).
Definition set_view (r : Reconciler) (v : topicView) : Reconciler :=
  mkReconciler (mapping r) (deb r) (ragents r) (rightsLost r) (sweepRightsWarned r) (force r) v.

(** The state monad. *)
Definition M (W A : Type) : Type := Reconciler * W → (Reconciler * W) * A.
Definition ret {W A} (x : A) : M W A := λ s, (s, x).
Definition bind {W A B} (m : M W A) (f : A → M W B) : M W B := λ s, let '(s', x) := m s in f x s'.

Declare Scope reconciler_scope.
Delimit Scope reconciler_scope with reconciler.
Notation "'do' x ← m ; k" := (bind m (λ x, k))
  (at level 100, x name, m at level 99, k at level 200, right associativity) : reconciler_scope.
#[local] Open Scope reconciler_scope.

Definition get {W} : M W Reconciler := λ s, (s, s.1).
Definition modify {W} (f : Reconciler → Reconciler) : M W () := λ s, ((f s.1, s.2), ()).
Definition asks {W A} (f : W → A) : M W A := λ s, (s, f s.2).
Definition call {W A} (f : W → W * A) : M W A := λ s, let '(w', x) := f s.2 in ((s.1, w'), x).

Definition ok {W} : M W (option error) := ret None.

(** [for _, x := range l { if err := f(x); err != nil { return err } }]. *)
Fixpoint each {W A} (f : A → M W (option error)) (l : list A) : M W (option error) :=
  match l with
  | [] => ok
  | x :: l' => do err ← f x; match err with Some e => ret (Some e) | None => each f l' end
  end.

Definition with_method (method : string) (e : error) : error := Errorf "%s: %w" [method] [e].

Section Reconciler.
Context {U : UnicodeTables} {W : Type} `{!Gateway W}.

(** [err.Error()]. *)
Context (error_text : error → string).

Inductive skip := SkipNone | SkipRights | SkipSyncOff | SkipQuiet.

(** The log-once flags are not modelled. *)
Definition blockedReason : M W skip :=
  do r ← get; do paused ← asks sync_paused; do quiet ← asks quiet_now;
  ret (if rightsLost r then SkipRights
        else if paused then SkipSyncOff
        else if quiet then SkipQuiet
        else SkipNone).

Definition blocked : M W bool :=
  do reason ← blockedReason; ret (match reason with SkipNone => false | _ => true end).

Definition save : M W () :=
  do r ← get;
  do _ ← modify (λ r, set_view r (publish (mapping r)));
  do _ ← call (λ w, store_save w (mapping r));
  ret ().

Definition update_mapping (f : Mapping → Time → Mapping) : M W () :=
  do t ← asks now; modify (λ r, set_mapping r (f (mapping r) t)).

Definition fail (key : Key) (method : string) (err : error) : M W (option error) :=
  if errors_is err ErrTopicGone then
    do _ ← update_mapping (λ m _, Forget m key); do _ ← save; ok
  else if errors_is err ErrTopicClosed then ok
  else if errors_is err ErrForbidden || errors_is err ErrBotUnauthorized || errors_is err ErrPollerConflict
  then ret (Some (with_method method err))
  else if errors_is err ErrChatMigrated then ret (Some (with_method method err))
  else if context_error err then ret (Some (with_method method err))
  else ok.

Definition createTopic (a : Agent) : M W (option error) :=
  let '(name, status) := Desired a in
  do topic ← call (λ w, tg_create w name status);
  match topic with
  | Err err => fail (AKey a) "createForumTopic" err
  | Ok t => do _ ← update_mapping (λ m at_, Link m (AKey a) t a at_); do _ ← save; ok
  end.

(** The second half of [revive], after the topic is open. *)
Definition revive_open (a : Agent) (entry : TopicEntry) : M W (option error) :=
  let key := AKey a in
  do _ ← update_mapping (λ m at_, MarkReopened (Unmute m key at_) key at_);
  do _ ← save;
  let '(name, status) := Desired a in
  let patch := mkPatch (if negb (String.eqb name (EName entry)) then Some name else None) (Some status) in
  do err ← call (λ w, tg_edit w (ThreadID entry) patch);
  match err with
  | Some e => fail key "editForumTopic" e
  | None => do _ ← update_mapping (λ m at_, Apply m key patch at_); do _ ← save; ok
  end.

Definition revive (a : Agent) (entry : TopicEntry) : M W (option error) :=
  let key := AKey a in
  if Closed entry then
    do err ← call (λ w, tg_reopen w (ThreadID entry));
    match err with
    | Some e =>
      if errors_is e ErrTopicGone
      then do _ ← update_mapping (λ m _, Forget m key); createTopic a
      else fail key "reopenForumTopic" e
    | None => revive_open a entry
    end
  else revive_open a entry.

Definition create (a : Agent) : M W (option error) :=
  do reason ← blockedReason;
  match reason with
  | SkipNone =>
    do r ← get;
    match TopicFor (mapping r) (AKey a) with
    | Some entry => if negb (Live (EStatus entry)) then revive a entry else createTopic a
    | None => createTopic a
    end
  | _ => ok
  end.

Definition edit (key : Key) : M W (option error) :=
  do r ← get;
  match ragents r !! key with
  | None => ok
  | Some a =>
    match TopicFor (mapping r) key with
    | None => create a
    | Some entry =>
      if Muted entry && negb (force r) then ok
      else
        let '(patch, changed) := Diff (mapping r) key a in
        let '(patch, changed) :=
          if force r && Live (EStatus entry)
          then let '(name, status) := Desired a in (mkPatch (Some name) (Some status), true)
          else (patch, changed) in
        if negb changed then ok
        else
          do reason ← blockedReason;
          match reason with
          | SkipNone =>
            do err ← call (λ w, tg_edit w (ThreadID entry) patch);
            match err with
            | Some e => fail key "editForumTopic" e
            | None => do _ ← update_mapping (λ m at_, Apply m key patch at_); do _ ← save; ok
            end
          | _ => ok
          end
    end
  end.

Definition close (key : Key) : M W (option error) :=
  do r ← get;
  match TopicFor (mapping r) key with
  | None => ok
  | Some entry =>
    if Closed entry then ok
    else
      do b ← blocked;
      if b then ok
      else
        do err ← call (λ w, tg_close w (ThreadID entry));
        match err with
        | Some e => fail key "closeForumTopic" e
        | None => do _ ← update_mapping (λ m at_, MarkClosed m key at_); do _ ← save; ok
        end
  end.

(** The exited icon, then the closure: the tail of [exit] and of [finish]. *)
Definition mark_exited_and_close (key : Key) (entry : TopicEntry) : M W (option error) :=
  do err ← call (λ w, tg_edit w (ThreadID entry) (mkPatch None (Some StatusExited)));
  match err with
  | Some e => fail key "editForumTopic" e
  | None => do _ ← update_mapping (λ m at_, MarkExited m key at_); do _ ← save; close key
  end.

Definition exit (key : Key) : M W (option error) :=
  do r ← get;
  match TopicFor (mapping r) key with
  | None => ok
  | Some entry =>
    do reason ← blockedReason;
    match reason with
    | SkipNone =>
      if Muted entry then
        do _ ← update_mapping (λ m at_, MarkExited m key at_);
        do _ ← update_mapping (λ m at_, MarkClosed m key at_);
        do _ ← save; ok
      else if Live (EStatus entry) then mark_exited_and_close key entry
      else close key
    | _ => ok
    end
  end.

Definition finish (key : Key) : M W (option error) :=
  do r ← get;
  match TopicFor (mapping r) key with
  | None => ok
  | Some entry =>
    do b ← blocked;
    if b then ok else mark_exited_and_close key entry
  end.

(** The clock of the debouncer is the clock of the reconciler. *)
Definition at_clock (d : debouncer) (t : Time) : debouncer :=
  mkDebouncer (pending d) (waiters d) (closed d) (fresh_token d) (due d) t (latest d).
Definition schedule (key : Key) : M W () :=
  do t ← asks now;
  modify (λ r, set_deb r (Schedule (at_clock (deb r) t) key editDebounce)).
Definition cancel (key : Key) : M W () := modify (λ r, set_deb r (Cancel (deb r) key).1).

Definition Handle (ev : AgentEvent) : M W (option error) :=
  let a := AEAgent ev in
  let key := AKey a in
  match AEKind ev with
  | AgentAppeared | AgentChanged =>
    do _ ← modify (λ r, set_ragents r (<[key := a]> (ragents r)));
    do r ← get;
    match TopicFor (mapping r) key with
    | None => create a
    | Some entry =>
      if negb (Live (EStatus entry)) then create a
      else match AEKind ev with
           | AgentAppeared => edit key
           | _ => do _ ← schedule key; ok
           end
    end
  | AgentGone =>
    do _ ← cancel key;
    do _ ← modify (λ r, set_ragents r (delete key (ragents r)));
    exit key
  end.

Definition Fire (key : Key) : M W (option error) := edit key.

Definition Flush : M W (option error) :=
  do r ← get;
  let '(d, keys) := Drain (deb r) in
  do _ ← modify (λ r, set_deb r d);
  each edit keys.

(** The body of the loop over the live agents. *)
Definition reconcile_agent (a : Agent) : M W (option error) :=
  do r ← get;
  match TopicFor (mapping r) (AKey a) with
  | None => create a
  | Some entry =>
    if negb (Live (EStatus entry)) then create a
    else do _ ← cancel (AKey a); edit (AKey a)
  end.

Definition dedupe : M W () :=
  do r ← get;
  let '(m, n) := DedupeThreads (mapping r) in
  do _ ← modify (λ r, set_mapping r m);
  if 0 <? n then save else ret ().

Definition prune : M W () :=
  do r ← get;
  let '(m, n) := Prune (mapping r) mappingMaxEntries in
  do _ ← modify (λ r, set_mapping r m);
  if 0 <? n then save else ret ().

Definition live_agents (live : list Agent) : gmap Key Agent :=
  foldl (λ ag a, <[AKey a := a]> ag) ∅ live.

Definition exit_orphan (key : Key) : M W (option error) := do _ ← cancel key; exit key.

(** [if err := m; err != nil { return err }; k]. *)
Definition and_then (m k : M W (option error)) : M W (option error) :=
  do err ← m; match err with Some e => ret (Some e) | None => k end.

Definition reconcile_pass (live : list Agent) : M W (option error) :=
  do _ ← dedupe;
  do _ ← modify (λ r, set_ragents r (live_agents live));
  do r ← get;
  and_then (each exit_orphan (Orphans (mapping r) (list_to_set (AKey <$> live))))
    (do r ← get;
     and_then (each close (Unclosed (mapping r)))
       (and_then (each reconcile_agent (merge_sort agent_le live))
          (do _ ← prune; ok))).

Definition Reconcile (live : list Agent) : M W (option error) :=
  do b ← blocked;
  if b then ok else reconcile_pass live.

Definition Resync (live : list Agent) : M W (option error) :=
  do _ ← modify (λ r, set_force r true);
  do err ← Reconcile live;
  do _ ← modify (λ r, set_force r false);
  ret err.

Definition forced (fn : M W (option error)) : M W (option error) :=
  do was ← get;
  do _ ← modify (λ r, set_force r true);
  do err ← fn;
  do _ ← modify (λ r, set_force r (force was));
  ret err.

Definition SetReadOnly (ro : bool) : M W () := modify (λ r, set_rights r ro).

Definition SetDashboardID (id : Z) : M W () :=
  do r ← get;
  if Dashboard (mapping r) =? id then ret ()
  else do _ ← modify (λ r, set_mapping r (set_dashboard (mapping r) id)); save.

(** ** Operator actions on topics *)

Definition OnTopicClosed (threadID : Z) : M W (option error) :=
  do r ← get;
  match KeyForThread (mapping r) threadID with
  | None => ok
  | Some key =>
    match TopicFor (mapping r) key with
    | None => ok (* [KeyForThread] answers keys of the mapping: not reached *)
    | Some entry =>
      if negb (Live (EStatus entry))
      then do _ ← update_mapping (λ m at_, MarkClosed m key at_); do _ ← save; ok
      else do _ ← update_mapping (λ m at_, Mute m key at_); do _ ← save; ok
    end
  end.

Definition OnTopicReopened (threadID : Z) : M W (option error) :=
  do r ← get;
  match KeyForThread (mapping r) threadID with
  | None => ok
  | Some key =>
    do _ ← update_mapping (λ m at_, Unmute m key at_);
    do _ ← update_mapping (λ m at_, MarkReopened m key at_);
    do _ ← save;
    match ragents r !! key with
    | Some _ => do _ ← cancel key; forced (edit key)
    | None => finish key
    end
  end.

Definition agentPart (a : Agent) (name : string) : string :=
  let ws := or_else (WorkspaceLabel a) (WorkspaceID a) in
  let rest := trim_space (StripPrefix name) in
  if String.eqb ws "" then rest
  else match cut_prefix rest ws with
       | None => rest
       | Some cut =>
         let trimmed := trim_left cut " " in
         if String.eqb trimmed "" || has_prefix trimmed "·"
         then trim_space (trim_prefix trimmed "·")
         else rest
       end.

Definition renameFailed (entry : TopicEntry) (err : error) : M W (option error) :=
  do _ ← call (λ w, tg_send w (ThreadID entry) ("rename failed: " +:+ failureReason error_text err));
  ok.

(** [entry.Name = name; entry.UpdatedAt = r.clock.Now(); r.save(ctx)]. *)
Definition record_name (key : Key) (name : string) : M W () :=
  do _ ← update_mapping (λ m at_, update_entry m key (e_name name at_)); save.

Definition renameTab (key : Key) (a : Agent) (entry : TopicEntry) (name label : string)
    : M W (bool * option error) :=
  if String.eqb label "" || String.eqb label (TabLabel a) then
    do _ ← record_name key name;
    do _ ← schedule key;
    ret (false, None)
  else
    do err ← call (λ w, herdr_rename_tab w (TabID a) label);
    match err with
    | Some e => do err ← renameFailed entry e; ret (false, err)
    | None =>
      do _ ← modify (λ r, set_ragents r (<[key := with_tab_label a label]> (ragents r)));
      do _ ← record_name key name;
      do _ ← schedule key;
      ret (true, None)
    end.

Definition renameAgent (key : Key) (a : Agent) (entry : TopicEntry) (name rest : string)
    : M W (bool * option error) :=
  let named := negb (String.eqb rest "") && negb (String.eqb rest (TabLabel a))
               && negb (String.eqb rest (Kind a)) in
  let wire := if named then Some rest else None in
  let rest := if named then rest else "" in
  do err ← call (λ w, herdr_rename w (PaneID key) wire);
  match err with
  | Some e => do err ← renameFailed entry e; ret (false, err)
  | None =>
    do _ ← modify (λ r, set_ragents r (<[key := with_name a rest]> (ragents r)));
    do _ ← record_name key name;
    ret (true, None)
  end.

Definition OnTopicRenamed (threadID : Z) (name : string) : M W (bool * option error) :=
  do r ← get;
  match KeyForThread (mapping r) threadID with
  | None => ret (false, None)
  | Some key =>
    match TopicFor (mapping r) key, ragents r !! key with
    | Some entry, Some a =>
      if negb (Live (EStatus entry)) then ret (false, None)
      else
        let rest := agentPart a name in
        if String.eqb (Name a) "" && negb (String.eqb (TabID a) "")
        then renameTab key a entry name rest
        else renameAgent key a entry name rest
    | _, _ => ret (false, None)
    end
  end.

(** ** sweep.go *)

Inductive sweep_verdict := SweepDeleted | SweepStop | SweepFailed.

Definition sweep_verdict_of (err : option error) : sweep_verdict :=
  match err with
  | None => SweepDeleted
  | Some e =>
    if errors_is e ErrTopicGone then SweepDeleted
    else if errors_is e ErrForbidden then SweepStop
    else if context_error e then SweepStop
    else SweepFailed
  end.

(** The loop: the topics deleted and the error that stopped it. *)
Fixpoint sweep_loop (keys : list Key) (deleted : Z) : M W (Z * option error) :=
  match keys with
  | [] => ret (deleted, None)
  | key :: keys =>
    do r ← get;
    match TopicFor (mapping r) key with
    | None => sweep_loop keys deleted
    | Some entry =>
      do err ← call (λ w, tg_delete w (ThreadID entry));
      match sweep_verdict_of err with
      | SweepDeleted =>
        do _ ← update_mapping (λ m _, Forget m key);
        do _ ← save;
        sweep_loop keys (deleted + 1)
      | SweepStop => ret (deleted, err)
      | SweepFailed => sweep_loop keys deleted
      end
    end
  end.

Definition Sweep (maxAge : Duration) (canDeleteMessages : bool) : M W (Z * option error) :=
  if maxAge <=? 0 then ret (0, None)
  else
    do b ← blocked;
    if b then ret (0, None)
    else if negb canDeleteMessages then
      do _ ← modify (λ r, set_warned r true); ret (0, None)
    else
      do _ ← modify (λ r, set_warned r false);
      do r ← get;
      do t ← asks now;
      do out ← sweep_loop (take sweepBatch (Stale (mapping r) t maxAge)) 0;
      let '(deleted, stop) := out in
      ret (deleted, match stop with
                    | Some e => if context_error e then Some e else None
                    | None => None
                    end).
End Reconciler.
