(* ===== verification/ReconcilerLaws.v ===== *)
(** The contract between the reconciler and its gateways, and what it keeps
    through every call that may fail: the mapping stays in step with the forum.

    [Forum] says what the calls of the Bot API do to the topics of the forum: a
    call that succeeds has its effect, one that fails has none.  [InStep] is the
    invariant relating the mapping to the forum. *)
From S2P Require Import Prelude GoStrings Errors Status Mapping Registry Debounce Reconciler.
Local Open Scope Z_scope.
#[local] Open Scope reconciler_scope.

(** ** Weakest preconditions of the state monad *)

Definition wp {W A} (m : M W A) (Q : A → Reconciler * W → Prop) (s : Reconciler * W) : Prop :=
  Q (m s).2 (m s).1.

Lemma wp_ret {W A} (x : A) Q (s : Reconciler * W) : Q x s → wp (ret x) Q s.
Proof. done. Qed.
Lemma rwp_bind {W A B} (m : M W A) (f : A → M W B) Q s :
  wp m (λ x, wp (f x) Q) s → wp (bind m f) Q s.
Proof. unfold wp, bind. by destruct (m s). Qed.
Lemma wp_get {W} Q (s : Reconciler * W) : Q s.1 s → wp get Q s.
Proof. done. Qed.
Lemma wp_modify {W} f Q (s : Reconciler * W) : Q () (f s.1, s.2) → wp (modify f) Q s.
Proof. done. Qed.
Lemma wp_asks {W A} (f : W → A) Q (s : Reconciler * W) : Q (f s.2) s → wp (asks f) Q s.
Proof. done. Qed.
Lemma wp_call {W A} (f : W → W * A) Q (s : Reconciler * W) :
  (∀ w' x, f s.2 = (w', x) → Q x (s.1, w')) → wp (call f) Q s.
Proof. unfold wp, call. destruct (f s.2) as [w' x] eqn:E. intros H. by apply H. Qed.
Lemma rwp_mono {W A} (m : M W A) (P Q : A → Reconciler * W → Prop) s :
  (∀ x s', P x s' → Q x s') → wp m P s → wp m Q s.
Proof. unfold wp. auto. Qed.
Lemma rwp_and {W A} (m : M W A) (P Q : A → Reconciler * W → Prop) s :
  wp m P s → wp m Q s → wp m (λ x s', P x s' ∧ Q x s') s.
Proof. done. Qed.

(** [I] holds after [m] whenever it held before. *)
Definition keeps {W A} (I : Reconciler * W → Prop) (m : M W A) : Prop :=
  ∀ s, I s → wp m (λ _, I) s.

Lemma rkeeps_bind {W A B} I (m : M W A) (f : A → M W B) :
  keeps I m → (∀ x, keeps I (f x)) → keeps I (bind m f).
Proof. intros Hm Hf s Hs. apply rwp_bind. eapply rwp_mono; [|by apply Hm]. intros x s' H. by apply Hf. Qed.

Lemma keeps_ret {W A} (I : Reconciler * W → Prop) (x : A) : keeps I (ret x).
Proof. by intros s. Qed.

Lemma rkeeps_each {W A} (I : Reconciler * W → Prop) (f : A → M W (option error)) l :
  (∀ x, x ∈ l → keeps I (f x)) → keeps I (each f l).
Proof.
  induction l as [|x l IH]; intros Hf; [apply keeps_ret|]. simpl.
  apply rkeeps_bind; [apply Hf; by left|]. intros [e|]; [apply keeps_ret|].
  apply IH. intros y Hy. apply Hf. by right.
Qed.

(** ** The forum *)

Record ForumTopic := mkForumTopic { FTName : string; FTStatus : Status; FTClosed : bool }.

Definition ft_patch (p : TopicPatch) (ft : ForumTopic) : ForumTopic :=
  mkForumTopic (default (FTName ft) (PName p)) (default (FTStatus ft) (PStatus p)) (FTClosed ft).
Definition ft_close (b : bool) (ft : ForumTopic) : ForumTopic :=
  mkForumTopic (FTName ft) (FTStatus ft) b.

(** The effect of a call on one topic: all or nothing. *)
Definition topic_call (F F' : gmap Z ForumTopic) (tid : Z) (err : option error)
    (f : ForumTopic → ForumTopic) : Prop :=
  match err with
  | None => ∃ ft, F !! tid = Some ft ∧ F' = <[tid := f ft]> F
  | Some _ => F' = F
  end.

(** [op_close] and [op_reopen] are the operator's own actions in Telegram.
    Names are taken to be within the limit of Telegram and statuses to have an
    icon: the gateway cuts longer names and leaves out an icon the pack lacks. *)
Class Forum (W : Type) `{!Gateway W} := {
  forum : W → gmap Z ForumTopic;
  op_close : W → Z → W;
  op_reopen : W → Z → W;
  create_law w name st w' t : tg_create w name st = (w', Ok t) →
    forum w !! TThreadID t = None ∧ TClosed t = false ∧
    forum w' = <[TThreadID t := mkForumTopic (or_else (TName t) name) st false]> (forum w);
  create_err w name st w' e : tg_create w name st = (w', Err e) → forum w' = forum w;
  (** An empty patch asks nothing. *)
  edit_law w tid p w' err : PatchEmpty p = false → tg_edit w tid p = (w', err) →
    topic_call (forum w) (forum w') tid err (ft_patch p);
  close_law w tid w' err : tg_close w tid = (w', err) →
    topic_call (forum w) (forum w') tid err (ft_close true);
  reopen_law w tid w' err : tg_reopen w tid = (w', err) →
    topic_call (forum w) (forum w') tid err (ft_close false);
  (** Deleting a topic that is already gone reports it. *)
  delete_law w tid w' err : tg_delete w tid = (w', err) →
    forum w' = match err with
               | None => delete tid (forum w)
               | Some e => forum w
               end;
  save_law w m : forum (store_save w m).1 = forum w;
  op_close_law w tid : forum (op_close w tid) = alter (ft_close true) tid (forum w);
  op_reopen_law w tid : forum (op_reopen w tid) = alter (ft_close false) tid (forum w)
}.

(** A world in which nothing holds the writes and the calls the reconciler
    makes succeed: creation always, the other calls on topics that exist. *)
Class Willing (W : Type) `{!Gateway W, !Forum W} := {
  ready : W → Prop;
  ready_open w : ready w → sync_paused w = false ∧ quiet_now w = false;
  ready_save w m : ready w → ready (store_save w m).1;
  willing_create w name st : ready w →
    ∃ w' t, tg_create w name st = (w', Ok t) ∧ ready w' ∧ (TName t = "" ∨ TName t = name);
  willing_edit w tid p : ready w → is_Some (forum w !! tid) →
    ∃ w', tg_edit w tid p = (w', None) ∧ ready w';
  willing_close w tid : ready w → is_Some (forum w !! tid) →
    ∃ w', tg_close w tid = (w', None) ∧ ready w';
  willing_reopen w tid : ready w → is_Some (forum w !! tid) →
    ∃ w', tg_reopen w tid = (w', None) ∧ ready w'
}.

(** ** The invariant *)

(** An entry and its topic: same name; a live entry has the icon of its
    status and is open; an entry that is not muted is open or closed as the
    topic is; a muted entry of a gone agent is closed. *)
Record entry_ok (e : TopicEntry) (ft : ForumTopic) : Prop := {
  ok_name : FTName ft = EName e;
  ok_status : Live (EStatus e) = true → FTStatus ft = EStatus e;
  ok_closed : Muted e = false → FTClosed ft = Closed e;
  ok_muted : Muted e = true → Live (EStatus e) = false → Closed e = true;
  ok_live : Live (EStatus e) = true → Closed e = false
}.

Record InStep (m : Mapping) (F : gmap Z ForumTopic) : Prop := {
  step_keys key : is_Some (Topics m !! key) → is_Some (ParseKey key);
  step_unique k1 e1 k2 e2 : Topics m !! k1 = Some e1 → Topics m !! k2 = Some e2 →
    ThreadID e1 = ThreadID e2 → k1 = k2;
  step_entry key e : Topics m !! key = Some e →
    ∃ ft, F !! ThreadID e = Some ft ∧ entry_ok e ft
}.

(** Agents as the registry hands them over. *)
Definition wf_agent (a : Agent) : Prop := wf_key (AKey a) ∧ Live (AStatus a) = true.

Definition agents_ok (ag : gmap Key Agent) : Prop :=
  ∀ key a, ag !! key = Some a → AKey a = key ∧ wf_agent a.

(** A submap of a mapping in step is in step. *)
Lemma InStep_sub m m' F : Topics m' ⊆ Topics m → InStep m F → InStep m' F.
Proof.
  intros Hsub [Hk Hu He].
  assert (Hl : ∀ key e, Topics m' !! key = Some e → Topics m !! key = Some e).
  { intros key e H. by eapply lookup_weaken. }
  split.
  - intros key [e H]. apply Hk. eexists. by apply Hl.
  - intros k1 e1 k2 e2 H1 H2. eapply Hu; by apply Hl.
  - intros key e H. by apply (He key), Hl.
Qed.

(** One entry and its topic change together. *)
Lemma InStep_update m F k f e ft' :
  InStep m F → TopicFor m k = Some e → ThreadID (f e) = ThreadID e → entry_ok (f e) ft' →
  InStep (update_entry m k f) (<[ThreadID e := ft']> F).
Proof.
  intros [Hk Hu He] Hm Ht Hok. unfold TopicFor in Hm.
  assert (Hl : ∀ key e', Topics (update_entry m k f) !! key = Some e' →
    key = KeyString k ∧ e' = f e ∨ key ≠ KeyString k ∧ Topics m !! key = Some e').
  { intros key e'. rewrite update_entry_lookup. case_decide; [|naive_solver].
    subst. rewrite Hm. naive_solver. }
  split.
  - intros key [e' [[-> ->]|[_ H]]%Hl]; apply Hk; eauto using mk_is_Some.
  - intros k1 e1 k2 e2 [[-> ->]|[_ H1]]%Hl [[-> ->]|[_ H2]]%Hl; rewrite ?Ht; eauto.
  - intros key e' [[-> ->]|[Hne H]]%Hl.
    + exists ft'. rewrite Ht. by rewrite lookup_insert_eq.
    + rewrite lookup_insert_ne; [by apply He in H|]. intros E. by destruct Hne; eapply Hu.
Qed.

Lemma InStep_same m F k f e ft :
  InStep m F → TopicFor m k = Some e → F !! ThreadID e = Some ft →
  ThreadID (f e) = ThreadID e → entry_ok (f e) ft →
  InStep (update_entry m k f) F.
Proof. intros H Hm HF Ht Hok. rewrite <-(insert_id F (ThreadID e) ft) by done. by apply InStep_update. Qed.

(** A new topic for a new or forgotten or overwritten key. *)
Lemma InStep_link m F t a at_ :
  InStep m F → wf_agent a → F !! TThreadID t = None → TClosed t = false →
  InStep (Link m (AKey a) t a at_)
    (<[TThreadID t := mkForumTopic (or_else (TName t) (Desired a).1) (Desired a).2 false]> F).
Proof.
  intros [Hk Hu He] [Hwf Hlive] Hfresh Hc. unfold Link, Desired. cbn [fst snd].
  assert (Hne : ∀ key e, Topics m !! key = Some e → ThreadID e ≠ TThreadID t).
  { intros key e H Heq. apply He in H as (ft & H & _). congruence. }
  split; cbn [set_topics Topics].
  - intros key [e [[<- _]|[_ H]]%lookup_insert_Some]; [|by apply Hk; eauto using mk_is_Some].
    unfold ParseKey, KeyString. destruct Hwf as (Hs & Hp & Ht). rewrite str_cut_app_slash by done.
    destruct (String.eqb_spec (PaneID (AKey a)) ""), (String.eqb_spec (TerminalID (AKey a)) ""); try done; by eexists.
  - intros k1 e1 k2 e2 [[<- <-]|[? H1]]%lookup_insert_Some [[<- <-]|[? H2]]%lookup_insert_Some;
      simpl; intros E; eauto; exfalso; eapply Hne; eauto.
  - intros key e [[<- <-]|[? H]]%lookup_insert_Some.
    + eexists. simpl. rewrite lookup_insert_eq. split; [done|].
      by split.
    + rewrite lookup_insert_ne by (intros E; eapply Hne; eauto). by apply He in H.
Qed.

(** ** Updates of one entry *)

Lemma update_entry_twice m k f g :
  update_entry (update_entry m k f) k g = update_entry m k (g ∘ f).
Proof.
  unfold update_entry. destruct (Topics m !! KeyString k) as [e|] eqn:E; [|by rewrite E].
  unfold set_topics. cbn [Topics Version ChatID Dashboard].
  by rewrite lookup_insert_eq, insert_insert_eq.
Qed.

Lemma TopicFor_update m k f : TopicFor (update_entry m k f) k = f <$> TopicFor m k.
Proof. unfold TopicFor. by rewrite update_entry_lookup, decide_True. Qed.

Lemma InStep_topic m F k e : InStep m F → TopicFor m k = Some e →
  ∃ ft, F !! ThreadID e = Some ft ∧ entry_ok e ft.
Proof. intros H. by apply step_entry. Qed.

Lemma entry_ok_patch e ft p at_ :
  entry_ok e ft → (∀ s, PStatus p = Some s → Live s = true ∧ Closed e = false) →
  entry_ok (e_patch p at_ e) (ft_patch p ft).
Proof.
  intros [Hn Hs Hc Hm Hl] Hp. destruct p as [pn ps]. split; simpl in *; try done.
  - by destruct pn.
  - by destruct ps.
  - intros ? E. destruct ps as [s|]; simpl in E; [|auto]. destruct (Hp s eq_refl). congruence.
  - intros E. destruct ps as [s|]; simpl in E; [|auto]. by destruct (Hp s eq_refl).
Qed.

Lemma entry_ok_exited e ft at_ :
  entry_ok e ft → (Muted e = true → Closed e = true) →
  entry_ok (e_status StatusExited at_ e) (ft_patch (mkPatch None (Some StatusExited)) ft).
Proof. intros [Hn Hs Hc Hm Hl] Hmc. by split; simpl; auto. Qed.

Lemma entry_ok_closed e ft at_ :
  entry_ok e ft → Live (EStatus e) = false →
  entry_ok (e_closed true at_ e) (ft_close true ft).
Proof. intros [Hn Hs Hc Hm Hl] Hx. by split; simpl; rewrite ?Hx. Qed.

(** The agent of a muted topic is gone: nothing is sent. *)
Lemma entry_ok_muted_exit e ft at_ :
  entry_ok e ft → Muted e = true →
  entry_ok (e_closed true at_ (e_status StatusExited at_ e)) ft.
Proof. intros [Hn Hs Hc Hm Hl] Hmt. by split; simpl; rewrite ?Hmt. Qed.

Lemma entry_ok_reopened e ft at_ :
  entry_ok e ft →
  entry_ok (e_closed false at_ (e_muted false at_ e)) (ft_close false ft).
Proof. intros [Hn Hs Hc Hm Hl]. by split; simpl; auto. Qed.

Lemma entry_ok_open e ft at_ :
  entry_ok e ft → Live (EStatus e) = false → Closed e = false →
  entry_ok (e_closed false at_ (e_muted false at_ e)) ft.
Proof.
  intros [Hn Hs Hc Hm Hl] Hx Ho. split; simpl; auto.
  intros _. rewrite <-Ho. apply Hc. destruct (Muted e); [|done]. by rewrite Hm in Ho.
Qed.

(** ** Rules for the operations of the monad that touch the world *)

Lemma wp_update_mapping `{!Gateway W} f Q (s : Reconciler * W) :
  Q () (set_mapping s.1 (f (mapping s.1) (now s.2)), s.2) → wp (update_mapping f) Q s.
Proof. done. Qed.

Lemma wp_save `{!Gateway W} Q (s : Reconciler * W) :
  Q () (set_view s.1 (publish (mapping s.1)), (store_save s.2 (mapping s.1)).1) → wp save Q s.
Proof.
  intros H. unfold save. apply rwp_bind, wp_get, rwp_bind, wp_modify, rwp_bind, wp_call.
  simpl. intros w' x E. rewrite E in H. by apply wp_ret.
Qed.

Lemma wp_blockedReason `{!Gateway W} Q (s : Reconciler * W) :
  (∀ reason, blockedReason s = (s, reason) → Q reason s) → wp blockedReason Q s.
Proof. intros H. by apply H. Qed.

Lemma wp_blocked `{!Gateway W} Q (s : Reconciler * W) :
  (∀ b, blocked s = (s, b) → Q b s) → wp blocked Q s.
Proof. intros H. by apply H. Qed.

Ltac wp_step :=
  lazymatch goal with
  | |- wp (bind _ _) _ _ => apply rwp_bind
  | |- wp (ret _) _ _ => apply wp_ret
  | |- wp ok _ _ => apply wp_ret
  | |- wp get _ _ => apply wp_get
  | |- wp (modify _) _ _ => apply wp_modify
  | |- wp (asks _) _ _ => apply wp_asks
  | |- wp (update_mapping _) _ _ => apply wp_update_mapping
  | |- wp save _ _ => apply wp_save
  | |- wp blockedReason _ _ => apply wp_blockedReason; intros ?reason ?Hreason
  | |- wp blocked _ _ => apply wp_blocked; intros ?b ?Hb
  | |- wp (call _) _ _ => apply wp_call; intros ?w' ?x ?Hcall
  end; cbn [fst snd mapping deb ragents rightsLost force view set_mapping set_view set_deb
            set_ragents set_rights set_warned set_force] in *.
Ltac wp_steps := repeat wp_step.

Section in_step.
Context {U : UnicodeTables} `{!Gateway W, !Forum W}.

Definition Inv (s : Reconciler * W) : Prop :=
  InStep (mapping s.1) (forum s.2) ∧ agents_ok (ragents s.1).

Lemma Inv_saved r w m : Inv (r, w) → Inv (set_view r (publish m), (store_save w m).1).
Proof. unfold Inv. cbn [fst snd set_view mapping ragents]. by rewrite save_law. Qed.

Lemma keeps_save : keeps Inv save.
Proof. intros [r w] H. wp_steps. by apply Inv_saved. Qed.

Lemma keeps_blocked : keeps Inv blocked.
Proof. by intros s H. Qed.

(** The entries of [l], when there are any, are of gone agents. *)
Definition dead (l : list Key) (m : Mapping) : Prop :=
  ∀ k e, k ∈ l → TopicFor m k = Some e → Live (EStatus e) = false.

Definition Inv_on (l : list Key) (s : Reconciler * W) : Prop := Inv s ∧ dead l (mapping s.1).

Lemma Inv_on_nil s : Inv s → Inv_on [] s.
Proof. intros H. split; [done|]. by intros k e ?%elem_of_nil. Qed.

Lemma Inv_on_Inv l s : Inv_on l s → Inv s.
Proof. by intros [H _]. Qed.

Lemma Inv_on_saved l r w m : Inv_on l (r, w) → Inv_on l (set_view r (publish m), (store_save w m).1).
Proof. unfold Inv_on, Inv. cbn [fst snd set_view mapping ragents]. by rewrite save_law. Qed.

Lemma keeps_fail l key method err : keeps (Inv_on l) (fail key method err).
Proof.
  intros [r w] [[H Ha] Hd]. unfold fail. repeat case_match; wp_steps; [|by split..].
  apply Inv_on_saved. split; [split; [|done]|].
  - apply (InStep_sub (mapping r)); [|done]. apply delete_subseteq.
  - intros k e Hk Hke. unfold TopicFor, Forget in Hke. cbn in Hke.
    apply lookup_delete_Some in Hke as [_ ?]. by apply (Hd k e).
Qed.

Lemma dead_update l m k f e :
  dead l m → TopicFor m k = Some e →
  (l ≠ [] → Live (EStatus (f e)) = true → Live (EStatus e) = true) →
  dead l (update_entry m k f).
Proof.
  intros Hd He Hf k' e' Hk'. unfold TopicFor in *. rewrite update_entry_lookup. case_decide as Hkk.
  - rewrite <-Hkk, He. intros [= <-]. destruct (Live (EStatus (f e))) eqn:E; [|done].
    assert (Live (EStatus e) = true) as Ht by (apply Hf; [by destruct l; [set_solver|]|done]).
    rewrite (Hd k' e) in Ht; [done..|]. unfold TopicFor. by rewrite <-Hkk.
  - by apply Hd.
Qed.

(** A call on the topic of [k] followed by the update it stands for. *)
Lemma keeps_topic_call l k e (c : W → W * option error) f g method K s :
  (∀ w w' err, c w = (w', err) → topic_call (forum w) (forum w') (ThreadID e) err g) →
  (∀ at_, ThreadID (f at_ e) = ThreadID e) →
  (∀ at_ ft, entry_ok e ft → entry_ok (f at_ e) (g ft)) →
  (∀ at_, l ≠ [] → Live (EStatus (f at_ e)) = true → Live (EStatus e) = true) →
  TopicFor (mapping s.1) k = Some e → Inv_on l s →
  (∀ s' at_, Inv_on l s' → TopicFor (mapping s'.1) k = Some (f at_ e) → wp K (λ _, Inv_on l) s') →
  wp (do err ← call c;
      match err with
      | Some er => fail k method er
      | None => do _ ← update_mapping (λ m at_, update_entry m k (f at_)); do _ ← save; K
      end) (λ _, Inv_on l) s.
Proof.
  intros Hc Ht Hok Hf Hk [[H Ha] Hd] HK. destruct s as [r w]. wp_steps. apply Hc in Hcall.
  destruct x as [er|]; simpl in Hcall.
  - apply keeps_fail. split; [split; [|done]|done]. simpl. by rewrite Hcall.
  - destruct Hcall as (ft & HF & HF'). wp_steps.
    apply (HK _ (now w')); [|cbn; by rewrite TopicFor_update, Hk].
    apply Inv_on_saved. split; [split; [|done]|by eapply dead_update; eauto].
    cbn [fst snd mapping set_mapping]. rewrite HF'.
    apply InStep_update; [done|done|done|]. apply Hok.
    destruct (InStep_topic _ _ _ _ H Hk) as (ft' & ? & ?). congruence.
Qed.

Lemma keeps_close l key : key ∈ l → keeps (Inv_on l) (close key).
Proof.
  intros Hkey [r w] H. unfold close. wp_steps.
  destruct (TopicFor (mapping r) key) as [e|] eqn:He; [|by wp_steps].
  destruct (Closed e) eqn:Hc; [by wp_steps|]. wp_steps. destruct b; [by wp_steps|].
  assert (Hx : Live (EStatus e) = false) by by apply (proj2 H) in He.
  apply (keeps_topic_call l key e (λ w, tg_close w (ThreadID e)) (e_closed true) (ft_close true));
    try done.
  - intros *. apply close_law.
  - intros. by apply entry_ok_closed.
Qed.

Lemma keeps_nil {A} (m : M W A) : keeps (Inv_on []) m ↔ keeps Inv m.
Proof.
  split; intros H s Hs.
  - apply (rwp_mono _ (λ _, Inv_on [])); [intros x s'; apply Inv_on_Inv|]. by apply H, Inv_on_nil.
  - apply (rwp_mono _ (λ _, Inv)); [intros x s' ?; by apply Inv_on_nil|]. apply H. by eapply Inv_on_Inv.
Qed.

Lemma keeps_fail_Inv key method err : keeps Inv (fail key method err).
Proof. apply keeps_nil, keeps_fail. Qed.

Lemma keeps_close_gone key s :
  Inv s → (∀ e, TopicFor (mapping s.1) key = Some e → Live (EStatus e) = false) →
  wp (close key) (λ _, Inv) s.
Proof.
  intros H Hd. apply (rwp_mono _ (λ _, Inv_on [key])); [intros x s'; apply Inv_on_Inv|].
  apply keeps_close; [by left|]. split; [done|]. intros k e Hk; apply list_elem_of_singleton in Hk as ->; by apply Hd.
Qed.

(** [keeps_topic_call] without a list of gone agents. *)
Lemma keeps_topic_call_Inv k e (c : W → W * option error) f g method K s :
  (∀ w w' err, c w = (w', err) → topic_call (forum w) (forum w') (ThreadID e) err g) →
  (∀ at_, ThreadID (f at_ e) = ThreadID e) →
  (∀ at_ ft, entry_ok e ft → entry_ok (f at_ e) (g ft)) →
  TopicFor (mapping s.1) k = Some e → Inv s →
  (∀ s' at_, Inv s' → TopicFor (mapping s'.1) k = Some (f at_ e) → wp K (λ _, Inv) s') →
  wp (do err ← call c;
      match err with
      | Some er => fail k method er
      | None => do _ ← update_mapping (λ m at_, update_entry m k (f at_)); do _ ← save; K
      end) (λ _, Inv) s.
Proof.
  intros Hc Ht Hok Hk H HK.
  apply (rwp_mono _ (λ _, Inv_on [])); [intros x s'; apply Inv_on_Inv|].
  eapply (keeps_topic_call [] k e c f g); try done; [by apply Inv_on_nil|].
  intros s' at_ Hs'%Inv_on_Inv Hk'.
  apply (rwp_mono _ (λ _, Inv)); [intros x s'' ?; by apply Inv_on_nil|]. by eapply HK.
Qed.

Lemma keeps_mark_exited key e s :
  Inv s → TopicFor (mapping s.1) key = Some e → Muted e = false →
  wp (mark_exited_and_close key e) (λ _, Inv) s.
Proof.
  intros H He Hm. unfold mark_exited_and_close.
  apply (keeps_topic_call_Inv key e (λ w, tg_edit w (ThreadID e) (mkPatch None (Some StatusExited)))
    (e_status StatusExited) (ft_patch (mkPatch None (Some StatusExited)))); try done.
  - intros *. by apply edit_law.
  - intros at_ ft Hok. apply entry_ok_exited; [done|]. by rewrite Hm.
  - intros s' at_ Hs' Hk. apply keeps_close_gone; [done|]. rewrite Hk. by intros ? [= <-].
Qed.

Lemma keeps_exit key : keeps Inv (exit key).
Proof.
  intros [r w] H. unfold exit. wp_steps.
  destruct (TopicFor (mapping r) key) as [e|] eqn:He; [|by wp_steps].
  wp_steps. destruct reason; [|by wp_steps..].
  destruct (Muted e) eqn:Hm; [|destruct (Live (EStatus e)) eqn:Hl].
  - wp_steps. apply Inv_saved. split; [|apply H]. cbn [fst snd mapping set_mapping].
    unfold MarkClosed, MarkExited. rewrite update_entry_twice.
    destruct (InStep_topic _ _ _ _ (proj1 H) He) as (ft & HF & Hok).
    eapply InStep_same; [apply H|done|done|done|]. by apply entry_ok_muted_exit.
  - by apply keeps_mark_exited.
  - apply keeps_close_gone; [done|]. intros e'. cbn [fst mapping]. rewrite He. by intros [= <-].
Qed.

Lemma keeps_finish key s :
  Inv s → (∀ e, TopicFor (mapping s.1) key = Some e → Muted e = false) →
  wp (finish key) (λ _, Inv) s.
Proof.
  destruct s as [r w]. intros H Hm. unfold finish. wp_steps.
  destruct (TopicFor (mapping r) key) as [e|] eqn:He; [|by wp_steps].
  wp_steps. destruct b; [by wp_steps|]. apply keeps_mark_exited; [done|done|by apply Hm].
Qed.

Lemma keeps_createTopic a : wf_agent a → keeps Inv (createTopic a).
Proof.
  intros Ha [r w] [H Hag]. unfold createTopic. unfold Desired at 1. cbv iota beta. wp_steps.
  destruct x as [t|e].
  - wp_steps. apply Inv_saved. split; [|done]. cbn [fst snd mapping set_mapping].
    apply create_law in Hcall as (Hfresh & Hc & ->). by apply InStep_link.
  - apply keeps_fail_Inv. split; [|done]. simpl. by rewrite (create_err _ _ _ _ _ Hcall).
Qed.

(** [revive] once the topic is open in the forum. *)
Lemma PatchEmpty_status p st : PStatus p = Some st → PatchEmpty p = false.
Proof. unfold PatchEmpty. intros ->. by destruct (PName p). Qed.

Lemma keeps_revive_open a e s :
  wf_agent a → agents_ok (ragents s.1) → TopicFor (mapping s.1) (AKey a) = Some e →
  (∀ at_, InStep (update_entry (mapping s.1) (AKey a) (λ e, e_closed false at_ (e_muted false at_ e)))
            (forum s.2)) →
  wp (revive_open a e) (λ _, Inv) s.
Proof.
  intros Ha Hag He H. destruct s as [r w]. cbn [fst snd] in *. unfold revive_open. wp_steps.
  set (at_ := now w). unfold Unmute, setMuted, MarkReopened. rewrite update_entry_twice.
  set (m1 := update_entry _ _ _). unfold Desired. cbv iota beta zeta.
  set (p := mkPatch (if negb (String.eqb (DisplayName (Label a)) (EName e))
                     then Some (DisplayName (Label a)) else None) (Some (AStatus a))).
  apply (keeps_topic_call_Inv (AKey a) (e_closed false at_ (e_muted false at_ e))
    (λ w, tg_edit w (ThreadID e) p) (e_patch p) (ft_patch p)).
  - intros *. apply edit_law. by apply (PatchEmpty_status _ (AStatus a)).
  - done.
  - intros t ft Hok. apply entry_ok_patch; [done|]. intros s [= <-]. split; [apply Ha|done].
  - cbn [fst mapping set_view set_mapping]. unfold m1. by rewrite TopicFor_update, He.
  - apply Inv_saved. split; [apply H|done].
  - intros s' t Hs' _. by wp_steps.
Qed.

Lemma keeps_revive a e s :
  wf_agent a → Inv s → TopicFor (mapping s.1) (AKey a) = Some e → Live (EStatus e) = false →
  wp (revive a e) (λ _, Inv) s.
Proof.
  intros Ha [H Hag] He Hl. destruct s as [r w]. cbn [fst snd] in *. unfold revive.
  destruct (InStep_topic _ _ _ _ H He) as (ft & HF & Hok).
  destruct (Closed e) eqn:Hc.
  - wp_steps. apply reopen_law in Hcall. destruct x as [er|]; simpl in Hcall.
    + case_match; [wp_steps; apply keeps_createTopic|apply keeps_fail_Inv]; try done;
        (split; [|done]); cbn [fst snd mapping set_mapping]; rewrite Hcall; [|done].
      apply (InStep_sub (mapping r)); [|done]. apply delete_subseteq.
    + destruct Hcall as (ft' & HF' & Hw). apply keeps_revive_open; try done.
      cbn [fst snd]. rewrite Hw. intros at_. apply InStep_update; try done.
      apply entry_ok_reopened. by simplify_eq.
  - apply keeps_revive_open; try done. cbn [fst snd]. intros at_.
    eapply InStep_same; try done. by apply entry_ok_open.
Qed.

Lemma keeps_create a : wf_agent a → keeps Inv (create a).
Proof.
  intros Ha [r w] H. unfold create. wp_steps. destruct reason; [|by wp_steps..]. wp_steps.
  destruct (TopicFor (mapping r) (AKey a)) as [e|] eqn:He; [|by apply keeps_createTopic].
  destruct (Live (EStatus e)) eqn:Hl; [by apply keeps_createTopic|by apply keeps_revive].
Qed.

(** What [edit] sends: only to a live entry, and only the agent's own status. *)
Lemma edit_patch r key a e patch :
  TopicFor (mapping r) key = Some e →
  (let '(patch, changed) := Diff (mapping r) key a in
   if force r && Live (EStatus e)
   then let '(name, status) := Desired a in (mkPatch (Some name) (Some status), true)
   else (patch, changed)) = (patch, true) →
  Live (EStatus e) = true ∧ PatchEmpty patch = false ∧ ∀ s, PStatus patch = Some s → s = AStatus a.
Proof.
  unfold Diff, TopicFor. intros ->. unfold Desired. destruct (Live (EStatus e)); simpl.
  - destruct (force r); simpl; [intros [= <-]; by split_and!; [..|intros ? [= <-]]|].
    repeat (case_match; simpl); intros; simplify_eq/=; (split_and!; [done..|]); intros; by simplify_eq/=.
  - by rewrite andb_false_r.
Qed.

Lemma keeps_edit key : keeps Inv (edit key).
Proof.
  intros [r w] H. unfold edit. wp_steps.
  destruct (ragents r !! key) as [a|] eqn:Ha; [|by wp_steps].
  apply (proj2 H) in Ha as [Hkey Hwf]. cbn [fst] in *.
  destruct (TopicFor (mapping r) key) as [e|] eqn:He; [|by apply keeps_create].
  case_match; [by wp_steps|].
  destruct (Diff (mapping r) key a) as [p0 c0] eqn:Hd. set (q := if force r && _ then _ else _).
  destruct q as [patch changed] eqn:Hq. destruct changed; [|by wp_steps].
  destruct (edit_patch r key a e patch) as (Hl & Hne & Hs); [done|by rewrite Hd|].
  cbn [negb]. wp_steps. destruct reason; [|by wp_steps..].
  apply (keeps_topic_call_Inv key e (λ w, tg_edit w (ThreadID e) patch) (e_patch patch) (ft_patch patch)); try done.
  - intros *. by apply edit_law.
  - intros t ft Hok. apply entry_ok_patch; [done|]. intros s ->%Hs. split; [apply Hwf|].
    by apply (ok_live _ _ Hok).
Qed.

(** Only the debouncer, the agents, the log flags and the force flag change. *)
Lemma Inv_same r r' w : mapping r' = mapping r → agents_ok (ragents r') → Inv (r, w) → Inv (r', w).
Proof. unfold Inv. cbn [fst snd]. by intros -> ? [? _]. Qed.

Lemma keeps_schedule key : keeps Inv (schedule key).
Proof. intros [r w] H. unfold schedule. wp_steps. by apply (Inv_same r); [|apply H|]. Qed.

Lemma keeps_cancel key : keeps Inv (cancel key).
Proof. intros [r w] H. unfold cancel. wp_steps. by apply (Inv_same r); [|apply H|]. Qed.

Lemma agents_ok_insert ag a : agents_ok ag → wf_agent a → agents_ok (<[AKey a := a]> ag).
Proof. intros H Ha key a' [[<- <-]|[_ ?]]%lookup_insert_Some; [done|by apply H]. Qed.

Lemma agents_ok_delete ag k : agents_ok ag → agents_ok (delete k ag).
Proof. intros H key a [_ ?]%lookup_delete_Some. by apply H. Qed.

Lemma agents_ok_live live : Forall wf_agent live → agents_ok (live_agents live).
Proof.
  unfold live_agents. induction live as [|a live IH] using rev_ind; intros H.
  - intros key a E. cbn [foldl] in E. by apply lookup_empty_Some in E.
  - apply Forall_app in H as [H [Ha _]%Forall_cons]. rewrite foldl_app. cbn [foldl].
    apply agents_ok_insert; auto.
Qed.

Lemma keeps_Handle ev : wf_agent (AEAgent ev) → keeps Inv (Handle ev).
Proof.
  intros Ha. unfold Handle.
  assert (Hseen : keeps Inv (modify (W := W)
    (λ r, set_ragents r (<[AKey (AEAgent ev) := AEAgent ev]> (ragents r))))).
  { intros [r w] H. wp_steps. apply (Inv_same r); [done| |done]. apply agents_ok_insert; [apply H|done]. }
  destruct (AEKind ev).
  1, 2: apply rkeeps_bind; [done|]; intros []; apply rkeeps_bind; [by intros s|];
    intros r; repeat case_match;
    first [by apply keeps_create | apply keeps_edit
          | apply rkeeps_bind; [apply keeps_schedule|intros []; apply keeps_ret]].
  apply rkeeps_bind; [apply keeps_cancel|]. intros []. apply rkeeps_bind; [|intros []; apply keeps_exit].
  intros [r w] H. wp_steps. apply (Inv_same r); [done| |done].
  apply agents_ok_delete, H.
Qed.

Lemma keeps_Flush : keeps Inv Flush.
Proof.
  intros [r w] H. unfold Flush. wp_steps. destruct (Drain (deb r)) as [d keys]. wp_steps.
  apply rkeeps_each; [intros; apply keeps_edit|]. by apply (Inv_same r); [|apply H|].
Qed.

Lemma keeps_exit_orphan key : keeps Inv (exit_orphan key).
Proof. apply rkeeps_bind; [apply keeps_cancel|]. intros []. apply keeps_exit. Qed.

Lemma keeps_reconcile_agent a : wf_agent a → keeps Inv (reconcile_agent a).
Proof.
  intros Ha. apply rkeeps_bind; [by intros s|]. intros r.
  repeat case_match; try by apply keeps_create.
  apply rkeeps_bind; [apply keeps_cancel|]. intros []. apply keeps_edit.
Qed.

Lemma keeps_and_then I (m k : M W (option error)) : keeps I m → keeps I k → keeps I (and_then m k).
Proof. intros Hm Hk. apply rkeeps_bind; [done|]. intros [e|]; [apply keeps_ret|done]. Qed.

Lemma keeps_submap (f : Mapping → Mapping * Z) :
  (∀ m, Topics (f m).1 ⊆ Topics m) →
  keeps Inv (do r ← get; let '(m, n) := f (mapping r) in
             do _ ← modify (λ r, set_mapping r m); if 0 <? n then save else ret ()).
Proof.
  intros Hf [r w] [H Ha]. wp_steps. specialize (Hf (mapping r)).
  destruct (f (mapping r)) as [m n]. cbn [fst] in Hf. wp_steps.
  assert (Inv (set_mapping r m, w)) by (split; [by eapply InStep_sub|done]).
  case_match; [by apply keeps_save|by wp_steps].
Qed.

Lemma keeps_dedupe : keeps Inv dedupe.
Proof. apply keeps_submap. intros m. apply map_filter_subseteq. Qed.

Lemma keeps_prune : keeps Inv prune.
Proof.
  apply (keeps_submap (λ m, Prune m mappingMaxEntries)). intros m.
  destruct (decide (Z.of_nat (size (Topics m)) ≤ mappingMaxEntries)) as [Hle|Hgt].
  { unfold Prune. by rewrite (proj2 (Z.leb_le _ _) Hle), orb_true_r. }
  destruct (Prune m mappingMaxEntries) as [m' n] eqn:E.
  apply Prune_split in E as (l1 & l2 & Ht & _); [|done|lia].
  apply map_subseteq_spec. intros k e. cbn [fst]. rewrite Ht. by intros [? _]%delete_keys_lookup.
Qed.

(** The [Unclosed] loop: what it closes stays of a gone agent. *)
Lemma keeps_close_all l s : Inv_on l s → wp (each close l) (λ _, Inv) s.
Proof.
  intros H. apply (rwp_mono _ (λ _, Inv_on l)); [intros x s'; apply Inv_on_Inv|].
  apply rkeeps_each; [|done]. intros k Hk. by apply keeps_close.
Qed.

Lemma Unclosed_dead m : dead (Unclosed m) m.
Proof.
  intros k e [Hf _]%elem_of_list_filter He. rewrite He in Hf.
  by destruct (Live (EStatus e)).
Qed.

Lemma keeps_Reconcile live : Forall wf_agent live → keeps Inv (Reconcile live).
Proof.
  intros Hl. apply rkeeps_bind; [apply keeps_blocked|]. intros [|]; [apply keeps_ret|].
  apply rkeeps_bind; [apply keeps_dedupe|]. intros []. apply rkeeps_bind.
  { intros [r w] H. wp_steps. apply (Inv_same r); [done| |done]. by apply agents_ok_live. }
  intros []. apply rkeeps_bind; [by intros s|]. intros r. apply keeps_and_then.
  { apply rkeeps_each. intros k _. apply keeps_exit_orphan. }
  assert (Hrest : keeps Inv (and_then (each reconcile_agent (merge_sort agent_le live))
                               (do _ ← prune; ok))).
  { apply keeps_and_then; [|apply rkeeps_bind; [apply keeps_prune|intros []; apply keeps_ret]].
    apply rkeeps_each. intros a. rewrite merge_sort_Permutation. intros Ha.
    apply keeps_reconcile_agent. by eapply Forall_forall. }
  intros [r' w] H. wp_steps. unfold and_then at 1. apply rwp_bind.
  eapply rwp_mono; [|apply keeps_close_all; split; [done|apply Unclosed_dead]].
  intros [e|] s' Hs'; [by wp_steps|by apply Hrest].
Qed.

Lemma keeps_force b : keeps Inv (modify (W := W) (λ r, set_force r b)).
Proof. intros [r w] H. wp_steps. by apply (Inv_same r); [|apply H|]. Qed.

Lemma keeps_forced fn : keeps Inv fn → keeps Inv (forced fn).
Proof.
  intros Hf. apply rkeeps_bind; [by intros s|]. intros was.
  apply rkeeps_bind; [apply keeps_force|]. intros []. apply rkeeps_bind; [done|]. intros err.
  apply rkeeps_bind; [apply (keeps_force (force was))|]. intros []. apply keeps_ret.
Qed.

Lemma keeps_Resync live : Forall wf_agent live → keeps Inv (Resync live).
Proof.
  intros Hl. apply rkeeps_bind; [apply keeps_force|]. intros [].
  apply rkeeps_bind; [by apply keeps_Reconcile|]. intros err.
  apply rkeeps_bind; [apply keeps_force|]. intros []. apply keeps_ret.
Qed.

(** A topic deleted together with its entry. *)
Lemma InStep_forget m F k e :
  InStep m F → TopicFor m k = Some e → InStep (Forget m k) (delete (ThreadID e) F).
Proof.
  intros H He. destruct (InStep_sub m (Forget m k) F) as [Hk Hu Hen]; [apply delete_subseteq|done|].
  split; [done..|]. intros key e' He'. destruct (Hen key e' He') as (ft & HF & Hok).
  exists ft. split; [|done]. rewrite lookup_delete_ne; [done|]. intros E.
  unfold Forget in He'. cbn in He'. apply lookup_delete_Some in He' as [Hne He'].
  by apply Hne, (step_unique _ _ H _ e _ e').
Qed.

Lemma keeps_sweep_loop keys n : keeps Inv (sweep_loop keys n).
Proof.
  revert n. induction keys as [|key keys IH]; intros n [r w] H; [by wp_steps|].
  simpl. wp_steps. destruct (TopicFor (mapping r) key) as [e|] eqn:He; [|by apply IH].
  wp_steps. apply delete_law in Hcall. destruct H as [H Ha].
  assert (Hforget : Inv (set_mapping r (Forget (mapping r) key), w')).
  { split; [|done]. cbn [fst snd mapping set_mapping]. rewrite Hcall. destruct x.
    - apply (InStep_sub (mapping r)); [|done]. apply delete_subseteq.
    - by apply InStep_forget. }
  destruct x as [er|]; simpl.
  - assert (Inv (r, w')) by (split; [|done]; simpl; by rewrite Hcall).
    repeat case_match; wp_steps; try done; apply IH; [by apply Inv_saved|done].
  - wp_steps. apply IH. by apply Inv_saved.
Qed.

Lemma keeps_Sweep d b : keeps Inv (Sweep d b).
Proof.
  assert (Hw : ∀ v, keeps Inv (modify (W := W) (λ r, set_warned r v))).
  { intros v [r w] H. wp_steps. by apply (Inv_same r); [|apply H|]. }
  unfold Sweep. case_match; [apply keeps_ret|].
  apply rkeeps_bind; [apply keeps_blocked|]. intros [|]; [apply keeps_ret|].
  case_match; (apply rkeeps_bind; [apply Hw|]; intros []); [apply keeps_ret|].
  do 2 (apply rkeeps_bind; [by intros s|]; intros ?).
  apply rkeeps_bind; [apply keeps_sweep_loop|]. intros []. apply keeps_ret.
Qed.
End in_step.

(** * A forum in memory: a concrete world with the contract of ReconcilerLaws.v,
    at which the theorems about the reconciler are evaluated. *)
Record Sim := mkSim { sim_topics : gmap Z ForumTopic; sim_now : Time; sim_paused : bool; sim_saves : Z }.

Definition sim_set (w : Sim) (F : gmap Z ForumTopic) : Sim :=
  mkSim F (sim_now w) (sim_paused w) (sim_saves w).

(** A call on one topic: it fails when the topic is gone. *)
Definition sim_call (f : ForumTopic → ForumTopic) (w : Sim) (tid : Z) : Sim * option error :=
  match sim_topics w !! tid with
  | Some ft => (sim_set w (<[tid := f ft]> (sim_topics w)), None)
  | None => (w, Some (Sentinel ErrTopicGone))
  end.

Definition sim_create (w : Sim) (name : string) (st : Status) : Sim * result Topic :=
  let tid := fresh (dom (sim_topics w)) in
  (sim_set w (<[tid := mkForumTopic name st false]> (sim_topics w)), Ok (mkTopic tid "" "" false)).

Definition sim_delete (w : Sim) (tid : Z) : Sim * option error :=
  match sim_topics w !! tid with
  | Some _ => (sim_set w (delete tid (sim_topics w)), None)
  | None => (w, Some (Sentinel ErrTopicGone))
  end.

#[global] Instance Sim_gateway : Gateway Sim := {
  tg_create := sim_create;
  tg_edit w tid p := sim_call (ft_patch p) w tid;
  tg_close := sim_call (ft_close true);
  tg_reopen := sim_call (ft_close false);
  tg_delete := sim_delete;
  tg_send w _ _ := (w, None);
  herdr_rename w _ _ := (w, None);
  herdr_rename_tab w _ _ := (w, None);
  store_save w _ := (mkSim (sim_topics w) (sim_now w) (sim_paused w) (sim_saves w + 1), None);
  sync_paused := sim_paused;
  quiet_now _ := false;
  now := sim_now
}.

Lemma sim_call_law f w tid w' err :
  sim_call f w tid = (w', err) → topic_call (sim_topics w) (sim_topics w') tid err f.
Proof.
  unfold sim_call. destruct (sim_topics w !! tid) as [ft|] eqn:E; intros [= <- <-]; simpl; eauto.
Qed.

#[global, refine] Instance Sim_forum : Forum Sim := {
  forum := sim_topics;
  op_close w tid := sim_set w (alter (ft_close true) tid (sim_topics w));
  op_reopen w tid := sim_set w (alter (ft_close false) tid (sim_topics w))
}.
Proof.
  - intros w name st w' t [= <- <-]. split_and!; [|done|done].
    apply not_elem_of_dom, is_fresh.
  - intros w name st w' e [=].
  - intros w tid p w' err _. apply sim_call_law.
  - intros w tid w' err. apply sim_call_law.
  - intros w tid w' err. apply sim_call_law.
  - intros w tid w' err. cbn. unfold sim_delete.
    destruct (sim_topics w !! tid) eqn:E; by intros [= <- <-].
  - done.
  - done.
  - done.
Defined.

Lemma sim_call_willing f w tid :
  sim_paused w = false → is_Some (sim_topics w !! tid) →
  ∃ w', sim_call f w tid = (w', None) ∧ sim_paused w' = false.
Proof. intros Hp [ft H]. unfold sim_call. rewrite H. by eexists. Qed.

#[global, refine] Instance Sim_willing : Willing Sim := { ready w := sim_paused w = false }.
Proof.
  - done.
  - done.
  - intros w name st H. do 2 eexists. split; [done|]. split; [done|by left].
  - intros w tid p. apply sim_call_willing.
  - intros w tid. apply sim_call_willing.
  - intros w tid. apply sim_call_willing.
Defined.

(** The start: no agent, no topic. *)
Definition sim_start : Sim := mkSim ∅ 1000 false 0.
Definition sim_agent (pane : string) (st : Status) : Agent :=
  mkAgent (mkKey pane "1") "w1" "V3Jobs" "" "" "claude" "" "" st 0 0 false "".

Lemma sim_start_inv r : mapping r = NewMapping (-100) → ragents r = ∅ → Inv (r, sim_start).
Proof.
  intros Hm Ha. unfold Inv. cbn [fst snd]. rewrite Hm, Ha. split.
  - split; cbn [NewMapping Topics];
      [intros key [e H]|intros k1 e1 k2 e2 H|intros key e H]; by apply lookup_empty_Some in H.
  - intros key a H. by apply lookup_empty_Some in H.
Qed.

Lemma sim_agent_ok pane st : no_slash pane → pane ≠ "" → Live st = true → wf_agent (sim_agent pane st).
Proof. intros Hs Hp Hl. split; [|done]. by split_and!. Qed.
