(* ===== verification/TestKit.v ===== *)
(** internal/testkit: the Telegram, the stores, the clock and the processes in
    memory that the tests of the program run on. A fake is its state and one
    function per method; a method that fails does so because a test said so.

    The fake Telegram keeps the contract of ReconcilerLaws.v whatever failures
    a test orders, so what is proved for every forum is true of the tests. *)
From S2P Require Import Prelude GoStrings GoTime Errors Status Mapping Config Paths OptionRegistry TurnMeta Redact Eff.
From S2P Require Import AppPorts Gateway Stores Supervisor Doctor Registry Debounce Reconciler ReconcilerLaws.

Local Open Scope Z_scope.

(** ** fake_telegram.go *)

Record FakeTelegram := mkFakeTelegram {
  topics : gmap Z Topic; nextID : Z; nextMsgID : Z; calls : list string; settings : list string; sent : list Outgoing;
  direct_sent : list Outgoing; pinned : gset Z; buttons : gmap Z (list Button); texts : gmap Z string; icons : StatusIcons;
  f_operators : list Z; f_observers : list Z; pack : list string; docs : list Document; files : gmap string string;
  failNext : gmap string error; rights : Rights; rightErr : option error
}.

Definition NewFakeTelegram : FakeTelegram :=
  mkFakeTelegram ∅ 100 1000 [] [] [] [] ∅ ∅ ∅ DefaultStatusIcons [] [] ["⚡️"; "✅"; "❓"; "🏆"; "👀"; "🏁"; "🔥"; "🤖"; "🧠"] [] ∅ ∅
    (mkRights true true true true false) None.

Definition set_topics (m : gmap Z Topic) (f : FakeTelegram) : FakeTelegram :=
  mkFakeTelegram m (nextID f) (nextMsgID f) (calls f) (settings f) (sent f) (direct_sent f) (pinned f) (buttons f) (texts f) (icons f)
    (f_operators f) (f_observers f) (pack f) (docs f) (files f) (failNext f) (rights f) (rightErr f).
Definition set_nextID (n : Z) (f : FakeTelegram) : FakeTelegram :=
  mkFakeTelegram (topics f) n (nextMsgID f) (calls f) (settings f) (sent f) (direct_sent f) (pinned f) (buttons f) (texts f) (icons f)
    (f_operators f) (f_observers f) (pack f) (docs f) (files f) (failNext f) (rights f) (rightErr f).
Definition set_sent (l : list Outgoing) (d : list Outgoing) (f : FakeTelegram) : FakeTelegram :=
  mkFakeTelegram (topics f) (nextID f) (nextMsgID f) (calls f) (settings f) l d (pinned f) (buttons f) (texts f) (icons f)
    (f_operators f) (f_observers f) (pack f) (docs f) (files f) (failNext f) (rights f) (rightErr f).
(** The messages: the next id, what is pinned, the keyboards and the texts. *)
Definition set_messages (n : Z) (p : gset Z) (b : gmap Z (list Button)) (t : gmap Z string) (f : FakeTelegram) : FakeTelegram :=
  mkFakeTelegram (topics f) (nextID f) n (calls f) (settings f) (sent f) (direct_sent f) p b t (icons f)
    (f_operators f) (f_observers f) (pack f) (docs f) (files f) (failNext f) (rights f) (rightErr f).
Definition set_docs (l : list Document) (f : FakeTelegram) : FakeTelegram :=
  mkFakeTelegram (topics f) (nextID f) (nextMsgID f) (calls f) (settings f) (sent f) (direct_sent f) (pinned f) (buttons f) (texts f) (icons f)
    (f_operators f) (f_observers f) (pack f) l (files f) (failNext f) (rights f) (rightErr f).
Definition set_script (c : list string) (fn : gmap string error) (f : FakeTelegram) : FakeTelegram :=
  mkFakeTelegram (topics f) (nextID f) (nextMsgID f) c (settings f) (sent f) (direct_sent f) (pinned f) (buttons f) (texts f) (icons f)
    (f_operators f) (f_observers f) (pack f) (docs f) (files f) fn (rights f) (rightErr f).
Definition set_settings (s : list string) (i : StatusIcons) (ops obs : list Z) (f : FakeTelegram) : FakeTelegram :=
  mkFakeTelegram (topics f) (nextID f) (nextMsgID f) (calls f) s (sent f) (direct_sent f) (pinned f) (buttons f) (texts f) i
    ops obs (pack f) (docs f) (files f) (failNext f) (rights f) (rightErr f).

Definition FailNext (method : string) (err : error) (f : FakeTelegram) : FakeTelegram :=
  set_script (calls f) (<[method := err]> (failNext f)) f.
Definition SetRights (r : Rights) (err : option error) (f : FakeTelegram) : FakeTelegram :=
  mkFakeTelegram (topics f) (nextID f) (nextMsgID f) (calls f) (settings f) (sent f) (direct_sent f) (pinned f) (buttons f) (texts f) (icons f)
    (f_operators f) (f_observers f) (pack f) (docs f) (files f) (failNext f) r err.
Definition fake_reset (f : FakeTelegram) : FakeTelegram := set_docs [] (set_sent [] [] (set_script [] (failNext f) f)).

(** A call is recorded, and fails if the next one of its method is to. *)
Definition record (method call : string) (f : FakeTelegram) : FakeTelegram * option error :=
  let c := calls f ++ [call] in
  match failNext f !! method with
  | Some err => (set_script c (delete method (failNext f)) f, Some err)
  | None => (set_script c (failNext f) f, None)
  end.

Definition fake_create (name : string) (status : Status) (f : FakeTelegram) : FakeTelegram * result Topic :=
  let '(f, err) := record "create" ("create:" +:+ name +:+ ":" +:+ status) f in
  match err with
  | Some e => (f, Err e)
  | None =>
    let id := nextID f + 1 in
    let t := mkTopic id name status false in
    (set_topics (<[id := t]> (topics f)) (set_nextID id f), Ok t)
  end.

(** A call on one topic. *)
Definition on_topic (method call : string) (threadID : Z) (change : gmap Z Topic → Topic → gmap Z Topic) (f : FakeTelegram) :
    FakeTelegram * option error :=
  let '(f, err) := record method call f in
  match err with
  | Some e => (f, Some e)
  | None =>
    match topics f !! threadID with
    | None => (f, Some (Sentinel ErrTopicGone))
    | Some t => (set_topics (change (topics f) t) f, None)
    end
  end.

Definition patched (p : TopicPatch) (t : Topic) : Topic :=
  mkTopic (TThreadID t) (default (TName t) (PName p)) (default (TIconEmojiID t) (PStatus p)) (TClosed t).
Definition closed (b : bool) (t : Topic) : Topic := mkTopic (TThreadID t) (TName t) (TIconEmojiID t) b.

Definition fake_edit (threadID : Z) (patch : TopicPatch) (f : FakeTelegram) : FakeTelegram * option error :=
  if PatchEmpty patch then (f, None)
  else
    let parts := match PName patch with Some n => ["name=" +:+ n] | None => [] end
                 ++ match PStatus patch with Some s => ["status=" +:+ s] | None => [] end in
    on_topic "edit" ("edit:" +:+ itoa threadID +:+ ":" +:+ join parts ",") threadID (λ m t, <[threadID := patched patch t]> m) f.
Definition fake_close (threadID : Z) : FakeTelegram → FakeTelegram * option error :=
  on_topic "close" ("close:" +:+ itoa threadID) threadID (λ m t, <[threadID := closed true t]> m).
Definition fake_reopen (threadID : Z) : FakeTelegram → FakeTelegram * option error :=
  on_topic "reopen" ("reopen:" +:+ itoa threadID) threadID (λ m t, <[threadID := closed false t]> m).
Definition fake_delete (threadID : Z) : FakeTelegram → FakeTelegram * option error :=
  on_topic "delete" ("delete:" +:+ itoa threadID) threadID (λ m _, delete threadID m).

Definition put_buttons (id : Z) (bs : list Button) (m : gmap Z (list Button)) : gmap Z (list Button) :=
  if Nat.eqb (length bs) 0 then delete id m else <[id := bs]> m.
(** A message that was accepted. *)
Definition accept (out : Outgoing) (f : FakeTelegram) : FakeTelegram * result Z :=
  let id := nextMsgID f in
  (set_messages (id + 1) (pinned f) (if Nat.eqb (length (OButtons out)) 0 then buttons f else <[id := OButtons out]> (buttons f))
     (<[id := OText out]> (texts f)) f, Ok id).
Definition mark (b : bool) (text : string) : string := if b then text else "".
Definition button_mark (out : Outgoing) : string :=
  if Nat.ltb 0 (length (OButtons out)) then ":buttons=" +:+ itoa (Z.of_nat (length (OButtons out))) else "".
Definition known_thread (id : Z) (f : FakeTelegram) : bool := (id =? 0) || bool_decide (is_Some (topics f !! id)).

Definition fake_send (out : Outgoing) (f : FakeTelegram) : FakeTelegram * result Z :=
  let call := "send:" +:+ itoa (OThreadID out) +:+ ":" +:+ OText out
              +:+ mark (negb (OReplyTo out =? 0)) (":reply=" +:+ itoa (OReplyTo out)) +:+ mark (ONotify out) ":notify"
              +:+ button_mark out +:+ mark (OMarkdown out) ":markdown" +:+ mark (OForceReply out) ":forcereply" in
  let '(f, err) := record "send" call f in
  match err with
  | Some e => (f, Err e)
  | None =>
    if negb (known_thread (OThreadID out) f) then (f, Err (Sentinel ErrTopicGone))
    else accept out (set_sent (sent f ++ [out]) (direct_sent f) f)
  end.
Definition fake_direct (userID : Z) (out : Outgoing) (f : FakeTelegram) : FakeTelegram * result Z :=
  let call := "direct:" +:+ itoa userID +:+ ":" +:+ OText out +:+ mark (ONotify out) ":notify" +:+ button_mark out in
  let '(f, err) := record "direct" call f in
  match err with
  | Some e => (f, Err e)
  | None => accept out (set_sent (sent f) (direct_sent f ++ [out]) f)
  end.

(** A call that only leaves its record. *)
Definition recorded (method call : string) (change : FakeTelegram → FakeTelegram * option error) (f : FakeTelegram) :
    FakeTelegram * option error :=
  let '(f, err) := record method call f in
  match err with Some e => (f, Some e) | None => change f end.
Definition done_ (f : FakeTelegram) : FakeTelegram * option error := (f, None).

Definition fake_probe (userID : Z) := recorded "probe" ("probe:" +:+ itoa userID) done_.
Definition fake_pin (id : Z) :=
  recorded "pin" ("pin:" +:+ itoa id) (λ f,
    match texts f !! id with
    | None => (f, Some (Sentinel ErrMessageGone))
    | Some _ => (set_messages (nextMsgID f) ({[id]} ∪ pinned f) (buttons f) (texts f) f, None)
    end).
Definition fake_unpin (id : Z) :=
  recorded "unpin" ("unpin:" +:+ itoa id) (λ f, (set_messages (nextMsgID f) (pinned f ∖ {[id]}) (buttons f) (texts f) f, None)).
Definition fake_delete_message (id : Z) :=
  recorded "deletemsg" ("deletemsg:" +:+ itoa id) (λ f,
    match texts f !! id with
    | None => (f, Some (Sentinel ErrMessageGone))
    | Some _ => (set_messages (nextMsgID f) (pinned f ∖ {[id]}) (delete id (buttons f)) (delete id (texts f)) f, None)
    end).
Definition fake_edit_text (id : Z) (text : string) (bs : list Button) :=
  recorded "edittext" ("edittext:" +:+ itoa id +:+ ":" +:+ text +:+ ":buttons=" +:+ itoa (Z.of_nat (length bs))) (λ f,
    if negb (bool_decide (is_Some (texts f !! id))) && (1000 <=? id) && (id <? nextMsgID f) then (f, Some (Sentinel ErrMessageGone))
    else (set_messages (nextMsgID f) (pinned f) (put_buttons id bs (buttons f)) (<[id := text]> (texts f)) f, None)).
Definition fake_edit_buttons (id : Z) (bs : list Button) :=
  recorded "buttons" ("buttons:" +:+ itoa id +:+ ":" +:+ join (map BText bs) "|") (λ f,
    (set_messages (nextMsgID f) (pinned f) (put_buttons id bs (buttons f)) (texts f) f, None)).
Definition fake_answer (callbackID text : string) := recorded "answer" ("answer:" +:+ callbackID +:+ ":" +:+ text) done_.
Definition fake_react (threadID id : Z) (emoji : string) :=
  recorded "react" ("react:" +:+ itoa threadID +:+ ":" +:+ itoa id +:+ ":" +:+ emoji) done_.
Definition fake_document (doc : Document) :=
  recorded "document" ("document:" +:+ itoa (DThreadID doc) +:+ ":" +:+ DName doc +:+ ":" +:+ itoa (len (DData doc))
                       +:+ mark (negb (DReplyTo doc =? 0)) (":reply=" +:+ itoa (DReplyTo doc))) (λ f,
    if negb (known_thread (DThreadID doc) f) then (f, Some (Sentinel ErrTopicGone)) else (set_docs (docs f ++ [doc]) f, None)).
Definition fake_rights (f : FakeTelegram) : FakeTelegram * (Rights * option error) :=
  let '(f, err) := record "rights" "rights" f in
  match err with Some e => (f, (no_rights false, Some e)) | None => (f, (rights f, rightErr f)) end.
Definition fake_download (fileID : string) (max : Z) (f : FakeTelegram) : FakeTelegram * result string :=
  let '(f, err) := record "download" ("download:" +:+ fileID +:+ ":" +:+ itoa max) f in
  match err with
  | Some e => (f, Err e)
  | None =>
    match files f !! fileID with
    | None => (f, Err (Errorf "download %s: no such file in the fake" [fileID] []))
    | Some data => (f, if max <? len data then Err (Sentinel ErrFileTooBig) else Ok data)
    end
  end.

Definition fake_status_icons (i : StatusIcons) (f : FakeTelegram) : FakeTelegram := set_settings (settings f) i (f_operators f) (f_observers f) f.
Definition fake_notice_delay (delay : Duration) (del : bool) (f : FakeTelegram) : FakeTelegram :=
  let line := if negb del then "noticedelay:keep" else "noticedelay:" +:+ itoa (delay `quot` Second) in
  set_settings (settings f ++ [line]) (icons f) (f_operators f) (f_observers f) f.
Definition fake_access (ops obs : list Z) (f : FakeTelegram) : FakeTelegram :=
  set_settings (settings f ++ ["access:" +:+ itoa (Z.of_nat (length ops)) +:+ "/" +:+ itoa (Z.of_nat (length obs))]) (icons f) ops obs f.

(** ** mem_stores.go *)

(** A store that keeps what was saved last and fails while it is told to. *)
Record MemStore (A : Type) := mkMem { saved : option A; saves : Z; mem_err : option error }.
Arguments mkMem {A} _ _ _.
Arguments saved {A} _.
Arguments saves {A} _.
Arguments mem_err {A} _.
Definition mem_new {A} : MemStore A := mkMem None 0 None.
Definition mem_fail {A} (err : option error) (s : MemStore A) : MemStore A := mkMem (saved s) (saves s) err.
Definition mem_save {A} (a : A) (s : MemStore A) : MemStore A * option error :=
  match mem_err s with
  | Some e => (s, Some e)
  | None => (mkMem (Some a) (saves s + 1) None, None)
  end.
Definition mem_config_load (s : MemStore Config) : result Config :=
  match mem_err s with
  | Some e => Err e
  | None => match saved s with Some c => Ok c | None => Err (Sentinel ErrNotConfigured) end
  end.
Definition mem_mapping_load (s : MemStore Mapping) : Mapping := default (NewMapping 0) (saved s).
(** The store of options fails once, and holds the defaults at first. *)
Definition mem_options_load (s : MemStore Options) : Options := default DefaultOptions (saved s).
Definition mem_options_save (o : Options) (s : MemStore Options) : MemStore Options * option error :=
  match mem_err s with
  | Some e => (mkMem (saved s) (saves s) None, Some e)
  | None => (mkMem (Some o) (saves s + 1) None, None)
  end.

(** ** fake_herdr.go

    The calls are one list, of which the slices of the fake are the parts. *)

Inductive herdr_call :=
  | CallList | CallRead (target : string) (source : ScreenSource) (lines : Z) | CallPrompt (target text : string)
  | CallKeys (target : string) (keys : list string) | CallFocus (target : string) | CallRename (target : string) (name : option string)
  | CallRenameTab (tab label : string) | CallNotify (title body : string) | CallTab (workspace : string)
  | CallStart (name kind pane : string) (timeout : Duration) | CallClose (pane : string) | CallWatch (ids : list string).

(** What a test has scripted; [None] is a zero value. *)
Record HerdrScript := mkScript {
  agents : list Agent; listErr : option error; screens : gmap string string; revisions : gmap string Z; workspaces : list Workspace;
  startResult : option Agent; startDelay : Duration; info : option HerdrInfo
}.
Record FakeHerdr := mkFakeHerdr { script : HerdrScript; hfail : gmap string error; hcalls : list herdr_call }.
Definition NewFakeHerdr : FakeHerdr := mkFakeHerdr (mkScript [] None ∅ ∅ [] None 0 None) ∅ [].

Definition Reads (f : FakeHerdr) := omap (λ c, match c with CallRead t s n => Some (t, s, n) | _ => None end) (hcalls f).
Definition KeysCalls (f : FakeHerdr) := omap (λ c, match c with CallKeys t k => Some (t, k) | _ => None end) (hcalls f).
Definition FocusedCalls (f : FakeHerdr) := omap (λ c, match c with CallFocus t => Some t | _ => None end) (hcalls f).
Definition Renames (f : FakeHerdr) := omap (λ c, match c with CallRename t n => Some (t, n) | _ => None end) (hcalls f).
Definition TabRenames (f : FakeHerdr) := omap (λ c, match c with CallRenameTab t l => Some (t, l) | _ => None end) (hcalls f).
Definition Notifications (f : FakeHerdr) := omap (λ c, match c with CallNotify t b => Some (t, b) | _ => None end) (hcalls f).
Definition Prompts (f : FakeHerdr) := omap (λ c, match c with CallPrompt t x => Some (t +:+ ": " +:+ x) | _ => None end) (hcalls f).
Definition Tabs (f : FakeHerdr) := omap (λ c, match c with CallTab w => Some w | _ => None end) (hcalls f).
Definition Starts (f : FakeHerdr) := omap (λ c, match c with CallStart n k p t => Some (n, k, p, t) | _ => None end) (hcalls f).
Definition ClosedCalls (f : FakeHerdr) := omap (λ c, match c with CallClose p => Some p | _ => None end) (hcalls f).
Definition WatchCalls (f : FakeHerdr) := omap (λ c, match c with CallWatch l => Some l | _ => None end) (hcalls f).
Definition ListCalls (f : FakeHerdr) : nat := length (omap (λ c, match c with CallList => Some () | _ => None end) (hcalls f)).

(** [fail]: the failure queued for a method, taken out. *)
Definition take_fail (method : string) (f : FakeHerdr) : FakeHerdr * option error :=
  match hfail f !! method with
  | None => (f, None)
  | Some e => (mkFakeHerdr (script f) (delete method (hfail f)) (hcalls f), Some e)
  end.
Definition heard (c : herdr_call) (f : FakeHerdr) : FakeHerdr := mkFakeHerdr (script f) (hfail f) (hcalls f ++ [c]).
Definition answered {A} (r : FakeHerdr * option error) (a : A) : FakeHerdr * result A :=
  (r.1, match r.2 with Some e => Err e | None => Ok a end).

Definition fake_Ping (f : FakeHerdr) : FakeHerdr * result HerdrInfo :=
  answered (take_fail "ping" f) (default (mkHerdrInfo "fake" 17) (info (script f))).
Definition fake_ListAgents (f : FakeHerdr) : FakeHerdr * result (list Agent) :=
  let f := heard CallList f in (f, match listErr (script f) with Some e => Err e | None => Ok (agents (script f)) end).
Definition fake_ReadScreen (target : string) (source : ScreenSource) (lines : Z) (f : FakeHerdr) : FakeHerdr * result Screen :=
  answered (take_fail "read" (heard (CallRead target source lines) f))
    (mkScreen (default "screen" (screens (script f) !! target)) (default 0 (revisions (script f) !! target)) false).
Definition fake_Prompt (target text : string) (f : FakeHerdr) := take_fail "prompt" (heard (CallPrompt target text) f).
Definition fake_SendKeys (target : string) (keys : list string) (f : FakeHerdr) := take_fail "keys" (heard (CallKeys target keys) f).
Definition fake_Focus (target : string) (f : FakeHerdr) := take_fail "focus" (heard (CallFocus target) f).
Definition fake_Rename (target : string) (name : option string) (f : FakeHerdr) := take_fail "rename" (heard (CallRename target name) f).
Definition fake_RenameTab (tab label : string) (f : FakeHerdr) := take_fail "rename_tab" (heard (CallRenameTab tab label) f).
Definition fake_Notify (title body : string) (f : FakeHerdr) : FakeHerdr * option error := (heard (CallNotify title body) f, None).
Definition fake_ListWorkspaces (f : FakeHerdr) : FakeHerdr * result (list Workspace) := answered (take_fail "workspaces" f) (workspaces (script f)).
Definition fake_CreateTab (workspace : string) (f : FakeHerdr) : FakeHerdr * result Tab :=
  answered (take_fail "tab" (heard (CallTab workspace) f)) (mkTab "t-new" workspace "new" "p-new").
Definition no_agent : Agent := mkAgent (mkKey "" "") "" "" "" "" "" "" "" "" 0 0 false "".
Definition or_given (s given : string) : string := if String.eqb s "" then given else s.
(** [ended]: the context ended before the delay was over. *)
Definition fake_StartAgent (name kind pane : string) (timeout : Duration) (ended : option error) (f : FakeHerdr) : FakeHerdr * result Agent :=
  let '(f, err) := take_fail "start" (heard (CallStart name kind pane timeout) f) in
  let a := default no_agent (startResult (script f)) in
  let answer :=
    match err with
    | Some e => Err e
    | None => Ok (mkAgent (mkKey (or_given (PaneID (AKey a)) pane) (TerminalID (AKey a))) (WorkspaceID a) (WorkspaceLabel a) (Status.TabID a)
                    (TabLabel a) (or_given (Kind a) kind) (or_given (Name a) name) (Title a) (AStatus a) (Revision a) (StateChangeSeq a)
                    (Focused a) (Cwd a))
    end in
  (f, match ended with Some e => if 0 <? startDelay (script f) then Err e else answer | None => answer end).
Definition fake_ClosePane (pane : string) (f : FakeHerdr) := take_fail "close" (heard (CallClose pane) f).
Definition fake_WatchPanes (ids : list string) (f : FakeHerdr) : FakeHerdr * option error := (heard (CallWatch ids) f, None).

(** ** fake_inbox.go, fake_git.go, fake_idle.go, fake_replies.go *)

Record FakeInbox := mkFakeInbox { inbox_dir : string; inbox_saved : list (string * string * string); inbox_sweeps : list Duration; sweepN : Z; inbox_fail : gmap string error }.
Definition inbox_take (method : string) (f : FakeInbox) : FakeInbox * option error :=
  match inbox_fail f !! method with
  | None => (f, None)
  | Some e => (mkFakeInbox (inbox_dir f) (inbox_saved f) (inbox_sweeps f) (sweepN f) (delete method (inbox_fail f)), Some e)
  end.
Definition fake_inbox_save (name data : string) (f : FakeInbox) : FakeInbox * result string :=
  let '(f, err) := inbox_take "save" f in
  match err with
  | Some e => (f, Err e)
  | None =>
    let path := Join [inbox_dir f; name] in
    (mkFakeInbox (inbox_dir f) (inbox_saved f ++ [(name, path, data)]) (inbox_sweeps f) (sweepN f) (inbox_fail f), Ok path)
  end.
Definition fake_inbox_sweep (olderThan : Duration) (f : FakeInbox) : FakeInbox * result Z :=
  let f := mkFakeInbox (inbox_dir f) (inbox_saved f) (inbox_sweeps f ++ [olderThan]) (sweepN f) (inbox_fail f) in
  let '(f, err) := inbox_take "sweep" f in (f, match err with Some e => Err e | None => Ok (sweepN f) end).

Record FakeGit := mkFakeGit { git_calls : list (string * list string); git_result : GitResult; git_err : option error }.
Definition fake_git_run (dir : string) (args : list string) (f : FakeGit) : FakeGit * result GitResult :=
  (mkFakeGit (git_calls f ++ [(dir, args)]) (git_result f) (git_err f), match git_err f with Some e => Err e | None => Ok (git_result f) end).

Record FakeIdle := mkFakeIdle { idle_for : Duration; idle_err : option error; idle_calls : Z }.
Definition fake_idle_set (d : Duration) (f : FakeIdle) : FakeIdle := mkFakeIdle d None (idle_calls f).
Definition fake_idle_fail (e : option error) (f : FakeIdle) : FakeIdle := mkFakeIdle (idle_for f) e (idle_calls f).
Definition fake_idle (f : FakeIdle) : FakeIdle * result Duration :=
  (mkFakeIdle (idle_for f) (idle_err f) (idle_calls f + 1), match idle_err f with Some e => Err e | None => Ok (idle_for f) end).

Record FakeReplies := mkFakeReplies { reply_texts : gmap Key string; reply_metas : gmap Key (TurnMeta * Time); reply_errs : gmap Key error; reply_calls : list Key }.
Definition reply_set (key : Key) (text : string) (f : FakeReplies) : FakeReplies :=
  mkFakeReplies (<[key := text]> (reply_texts f)) (reply_metas f) (delete key (reply_errs f)) (reply_calls f).
Definition reply_fail (key : Key) (e : error) (f : FakeReplies) : FakeReplies :=
  mkFakeReplies (delete key (reply_texts f)) (delete key (reply_metas f)) (<[key := e]> (reply_errs f)) (reply_calls f).
Definition no_turn : TurnMeta := mkTurnMeta "" time_zero time_zero [] 0.
Definition fake_last_reply (a : Agent) (now : Time) (f : FakeReplies) : FakeReplies * result Reply :=
  let f := mkFakeReplies (reply_texts f) (reply_metas f) (reply_errs f) (reply_calls f ++ [AKey a]) in
  (f, match reply_errs f !! AKey a with
      | Some e => Err e
      | None =>
        match reply_texts f !! AKey a with
        | Some text =>
          let '(meta, written) := default (no_turn, time_add now (- Second)) (reply_metas f !! AKey a) in
          Ok (mkReply text ("fake:" +:+ KeyString (AKey a)) Second written meta)
        | None => Err (Errorf "%w: not scripted for %s" [KeyString (AKey a)] [Sentinel ErrNoReply])
        end
      end).

(** ** fake_clock.go *)

(** Timers are known by a number; one that is due is given the time. *)
Record FakeClock := mkFakeClock { clock_now : Time; timers : list (nat * Time); next_timer : nat }.
Definition NewFakeClock (start : Time) : FakeClock := mkFakeClock start [] 0.
Definition After (d : Duration) (c : FakeClock) : FakeClock * nat :=
  (mkFakeClock (clock_now c) (timers c ++ [(next_timer c, time_add (clock_now c) d)]) (S (next_timer c)), next_timer c).

(** [sort.SliceStable] by deadline. *)
Fixpoint insert_timer (t : nat * Time) (l : list (nat * Time)) : list (nat * Time) :=
  match l with
  | [] => [t]
  | u :: l' => if time_before u.2 t.2 then u :: insert_timer t l' else t :: l
  end.
Definition sort_timers (l : list (nat * Time)) : list (nat * Time) := foldr insert_timer [] l.
Definition is_due (now : Time) (t : nat * Time) : bool := negb (time_before now t.2).

(** The timers that fire, in order. *)
Definition Advance (d : Duration) (c : FakeClock) : FakeClock * list (nat * Time) :=
  let now := time_add (clock_now c) d in
  let sorted := sort_timers (timers c) in
  (mkFakeClock now (List.filter (λ t, negb (is_due now t)) sorted) (next_timer c), List.filter (is_due now) sorted).

(** ** fake_process.go *)

Record FakeProcess := mkFakeProcess {
  alive : gset Z; nextPID : Z; spawned : list (list string); signals : list string; unsupported : bool; noControl : bool;
  statusLine : string; ignoreStop : bool; spawnFails : option error; held : Z; heldSince : Time; SpawnAcquires : bool
}.
Definition NewFakeProcess : FakeProcess := mkFakeProcess ∅ 1000 [] [] false false "" false None 0 time_zero true.

Definition set_alive (a : gset Z) (h : Z) (since : Time) (p : FakeProcess) : FakeProcess :=
  mkFakeProcess a (nextPID p) (spawned p) (signals p) (unsupported p) (noControl p) (statusLine p) (ignoreStop p) (spawnFails p) h since (SpawnAcquires p).
Definition add_signal (s : string) (p : FakeProcess) : FakeProcess :=
  mkFakeProcess (alive p) (nextPID p) (spawned p) (signals p ++ [s]) (unsupported p) (noControl p) (statusLine p) (ignoreStop p) (spawnFails p)
    (held p) (heldSince p) (SpawnAcquires p).
Definition set_ignore (v : bool) (p : FakeProcess) : FakeProcess :=
  mkFakeProcess (alive p) (nextPID p) (spawned p) (signals p) (unsupported p) (noControl p) (statusLine p) v (spawnFails p) (held p) (heldSince p) (SpawnAcquires p).

(** The process ends, and the pid file with it. *)
Definition ends (pid : Z) (p : FakeProcess) : FakeProcess :=
  set_alive (alive p ∖ {[pid]}) (if held p =? pid then 0 else held p) (heldSince p) p.
Definition is_alive (pid : Z) (p : FakeProcess) : bool := bool_decide (pid ∈ alive p).

Definition fake_spawn (args : list string) (now : Time) (p : FakeProcess) : FakeProcess * result Z :=
  match spawnFails p with
  | Some e => (p, Err e)
  | None =>
    let pid := nextPID p + 1 in
    let acquires := SpawnAcquires p && (held p =? 0) in
    (mkFakeProcess ({[pid]} ∪ alive p) pid (spawned p ++ [args]) (signals p) (unsupported p) (noControl p) (statusLine p) (ignoreStop p) None
       (if acquires then pid else held p) (if acquires then now else heldSince p) (SpawnAcquires p), Ok pid)
  end.

Definition fake_signal (kind : string) (pid : Z) (ends_it : bool) (p : FakeProcess) : FakeProcess * option error :=
  let p := add_signal (kind +:+ ":" +:+ itoa pid) p in
  if noControl p then (p, Some (Errorf "%s: %w" [kind] [Sentinel ErrControlUnavailable]))
  else if unsupported p then (p, Some (Errorf "%s: %w" [kind] [Sentinel ErrUnsupportedPlatform]))
  else if negb (is_alive pid p) then (p, Some (Errorf "%s %d: %w" [kind; itoa pid] [Sentinel ErrNotRunning]))
  else (if ends_it then ends pid p else p, None).
Definition fake_stop (pid : Z) (p : FakeProcess) : FakeProcess * option error := fake_signal "stop" pid (negb (ignoreStop p)) p.
Definition fake_resync (pid : Z) (p : FakeProcess) : FakeProcess * option error := fake_signal "resync" pid false p.
Definition fake_status (p : FakeProcess) : FakeProcess * result string :=
  let p := add_signal "status" p in
  (p, if noControl p then Err (Errorf "control status: %w" [] [Sentinel ErrControlUnavailable]) else Ok (statusLine p)).
Definition fake_kill (pid : Z) (p : FakeProcess) : FakeProcess * option error :=
  let p := add_signal ("kill:" +:+ itoa pid) p in
  if negb (is_alive pid p) then (p, Some (Errorf "kill %d: %w" [itoa pid] [Sentinel ErrNotRunning])) else (ends pid p, None).

Definition fake_acquire (pid : Z) (now : Time) (p : FakeProcess) : FakeProcess * option error :=
  if negb (held p =? 0) then (p, Some (Errorf "%w: pid %d" [itoa (held p)] [Sentinel ErrAlreadyRunning]))
  else (set_alive (alive p) pid now p, None).
Definition fake_read (p : FakeProcess) : result PidInfo :=
  if held p =? 0 then Err (Sentinel ErrNotRunning) else Ok (mkPidInfo (held p) (heldSince p)).
Definition fake_release (p : FakeProcess) : FakeProcess := set_alive (alive p) 0 (heldSince p) p.

(** ** The fakes as ports *)

(** The supervisor on the fake processes and the fake clock, which a test
    moves as far as the supervisor waits. *)
Record Desk := mkDesk { procs : FakeProcess; clk : FakeClock }.
Definition on_procs {A} (r : FakeProcess * A) (w : Desk) : Desk * A := (mkDesk r.1 (clk w), r.2).
Definition desk_answer {B} (o : supE B) (w : Desk) : Desk * B :=
  match o in supE B return Desk * B with
  | SPidRead => (w, fake_read (procs w))
  | SRelease => (mkDesk (fake_release (procs w)) (clk w), None)
  | SAlive pid => (w, is_alive pid (procs w))
  | SSpawn args => on_procs (fake_spawn args (clock_now (clk w)) (procs w)) w
  | SStop pid => on_procs (fake_stop pid (procs w)) w
  | SResync pid => on_procs (fake_resync pid (procs w)) w
  | SStatus => on_procs (fake_status (procs w)) w
  | SKill pid => on_procs (fake_kill pid (procs w)) w
  | SNow => (w, clock_now (clk w))
  | SSleep d => (mkDesk (procs w) (Advance d (After d (clk w)).1).1, None)
  end.
Fixpoint on_desk {A} (p : Eff.prog supE unit A) (w : Desk) : A * Desk :=
  match p with
  | Ret a => (a, w)
  | Vis o k => let '(w, b) := desk_answer o w in on_desk (k b) w
  | Upd f k => on_desk (k (f tt).2) w
  end.

(** * What the fakes keep *)

(** ** The clock *)

Definition before (t u : nat * Time) : Prop := t.2 ≤ u.2.

Lemma insert_timer_perm t l : insert_timer t l ≡ₚ t :: l.
Proof. induction l as [|u l IH]; cbn; [done|]. destruct (time_before _ _); [|done]. rewrite IH. by constructor. Qed.
Lemma sort_timers_perm l : sort_timers l ≡ₚ l.
Proof. induction l as [|t l IH]; cbn; [done|]. by rewrite insert_timer_perm, IH. Qed.
Lemma insert_timer_sorted t l : StronglySorted before l → StronglySorted before (insert_timer t l).
Proof.
  induction 1 as [|u l Hl IH Hu]; cbn; [by repeat constructor|]. unfold time_before. destruct (Z.ltb_spec u.2 t.2) as [H|H].
  - constructor; [done|]. rewrite insert_timer_perm. constructor; [unfold before; lia|done].
  - constructor; [by constructor|]. constructor; [done|]. eapply Forall_impl; [exact Hu|]. unfold before. intros v Hv. lia.
Qed.
Lemma sort_timers_sorted l : StronglySorted before (sort_timers l).
Proof. induction l as [|t l IH]; cbn; [constructor|]. by apply insert_timer_sorted. Qed.

(** Moving the clock fires exactly the timers that are due by then, earliest
    first; none fires early, twice or is lost. *)
Theorem Advance_spec d c :
  let '(c', fired) := Advance d c in
  clock_now c' = time_add (clock_now c) d ∧ timers c' ++ fired ≡ₚ timers c ∧ StronglySorted before fired ∧
  Forall (λ t, t.2 ≤ clock_now c') fired ∧ Forall (λ t, clock_now c' < t.2) (timers c').
Proof.
  unfold Advance. cbn [clock_now timers]. set (now := time_add (clock_now c) d). set (l := sort_timers (timers c)).
  assert (Hp : ∀ l, List.filter (λ t, negb (is_due now t)) l ++ List.filter (is_due now) l ≡ₚ l).
  { clear. induction l as [|t l IH]; [done|]. cbn [List.filter]. destruct (is_due now t); cbn [negb app]; [rewrite <-Permutation_middle|]; by rewrite IH. }
  assert (Hs : ∀ l, StronglySorted before l → StronglySorted before (List.filter (is_due now) l)).
  { clear. induction 1 as [|t l Hl IH Ht]; cbn [List.filter]; [constructor|]. destruct (is_due now t); [|done]. constructor; [done|].
    rewrite List.Forall_forall in *. intros x [Hx _]%filter_In. by apply Ht. }
  split_and!; [done|by rewrite Hp; apply sort_timers_perm|apply Hs, sort_timers_sorted|..]; apply List.Forall_forall;
    intros t [_ Ht]%filter_In; unfold is_due, time_before in Ht.
  - by apply negb_true_iff, Z.ltb_ge in Ht.
  - by apply negb_true_iff, negb_false_iff, Z.ltb_lt in Ht.
Qed.

(** ** The fake Telegram keeps the contract of the forum *)

Definition ids_ok (f : FakeTelegram) : Prop := map_Forall (λ id _, id ≤ nextID f) (topics f).
Definition as_forum (t : Topic) : ForumTopic := mkForumTopic (TName t) (TIconEmojiID t) (TClosed t).
Definition fake_forum (f : FakeTelegram) : gmap Z ForumTopic := as_forum <$> topics f.

Lemma record_keeps method call f : topics (record method call f).1 = topics f ∧ nextID (record method call f).1 = nextID f.
Proof. unfold record. by destruct (failNext f !! method). Qed.

Lemma create_ids name st f : ids_ok f → ids_ok (fake_create name st f).1.
Proof.
  intros Hf. unfold fake_create. destruct (record _ _ f) as [f' err] eqn:E.
  destruct (record_keeps "create" ("create:" +:+ name +:+ ":" +:+ st) f) as [H1 H2]. rewrite E in H1, H2. cbn in H1, H2.
  destruct err; cbn; [unfold ids_ok; by rewrite H1, H2|]. unfold ids_ok. cbn. rewrite H1, H2. intros id t.
  rewrite lookup_insert_Some. intros [[<- _]|[_ Ht]]; [lia|]. apply Hf in Ht. lia.
Qed.

Lemma create_new name st f f' t : ids_ok f → fake_create name st f = (f', Ok t) →
  fake_forum f !! TThreadID t = None ∧ TName t = name ∧ TClosed t = false ∧
  fake_forum f' = <[TThreadID t := mkForumTopic name st false]> (fake_forum f).
Proof.
  intros Hf. unfold fake_create. destruct (record _ _ f) as [g err] eqn:E.
  destruct (record_keeps "create" ("create:" +:+ name +:+ ":" +:+ st) f) as [H1 H2]. rewrite E in H1, H2. cbn in H1, H2.
  destruct err; [done|]. intros [= <- <-]. unfold fake_forum. cbn. rewrite H1, H2. split_and!; [|done|done|by rewrite fmap_insert].
  rewrite lookup_fmap. destruct (topics f !! (nextID f + 1)) as [t|] eqn:Ht; [|done]. apply Hf in Ht. lia.
Qed.
Lemma create_failed name st f f' e : fake_create name st f = (f', Err e) → fake_forum f' = fake_forum f.
Proof.
  unfold fake_create. destruct (record _ _ f) as [g err] eqn:E.
  destruct (record_keeps "create" ("create:" +:+ name +:+ ":" +:+ st) f) as [H1 H2]. rewrite E in H1. cbn in H1.
  destruct err; intros [=]; subst. unfold fake_forum. by rewrite H1.
Qed.

(** A call on one topic does all or nothing. *)
Lemma on_topic_change method call id change f f' err :
  on_topic method call id change f = (f', err) →
  nextID f' = nextID f ∧
  match err with
  | None => ∃ t, topics f !! id = Some t ∧ topics f' = change (topics f) t
  | Some _ => topics f' = topics f
  end.
Proof.
  unfold on_topic. destruct (record method call f) as [g e] eqn:E. destruct (record_keeps method call f) as [H1 H2]. rewrite E in H1, H2. cbn in H1, H2.
  destruct e; [by intros [= <- <-]|]. rewrite H1. destruct (topics f !! id) as [t|] eqn:Ht; intros [= <- <-]; [|done].
  split; [done|]. by exists t.
Qed.

Lemma on_topic_call method call id (g : Topic → Topic) (h : ForumTopic → ForumTopic) f f' err :
  (∀ t, as_forum (g t) = h (as_forum t)) →
  on_topic method call id (λ m t, <[id := g t]> m) f = (f', err) →
  topic_call (fake_forum f) (fake_forum f') id err h.
Proof.
  intros Hg [_ Hc]%on_topic_change. unfold topic_call, fake_forum. destruct err; [by rewrite Hc|].
  destruct Hc as (t & Ht & ->). exists (as_forum t). rewrite lookup_fmap, Ht. split; [done|]. by rewrite fmap_insert, Hg.
Qed.

Lemma on_topic_ids method call id (change : gmap Z Topic → Topic → gmap Z Topic) f :
  (∀ m t, m !! id = Some t → dom (change m t) ⊆ dom m) → ids_ok f → ids_ok (on_topic method call id change f).1.
Proof.
  intros Hc Hf. destruct (on_topic method call id change f) as [f' err] eqn:E. apply on_topic_change in E as [Hn Hm]. cbn.
  unfold ids_ok. rewrite Hn. destruct err; [by rewrite Hm|]. destruct Hm as (t & Ht & ->). intros i x Hx.
  apply elem_of_dom_2, Hc, elem_of_dom in Hx as [y Hy]; [|done]. by apply Hf in Hy.
Qed.

(** The world of a test: the fakes the reconciler calls, its clock, and whether
    writes are held. *)
Record TestWorld := mkTestWorld {
  tg : FakeTelegram; hd : FakeHerdr; ms : MemStore Mapping; tnow : Time; paused : bool; quiet : bool; tg_ok : ids_ok tg
}.
Definition on_tg {A} (m : FakeTelegram → FakeTelegram * A) (Hm : ∀ f, ids_ok f → ids_ok (m f).1) (w : TestWorld) : TestWorld * A :=
  (mkTestWorld (m (tg w)).1 (hd w) (ms w) (tnow w) (paused w) (quiet w) (Hm (tg w) (tg_ok w)), (m (tg w)).2).
Definition on_hd {A} (m : FakeHerdr → FakeHerdr * A) (w : TestWorld) : TestWorld * A :=
  (mkTestWorld (tg w) (m (hd w)).1 (ms w) (tnow w) (paused w) (quiet w) (tg_ok w), (m (hd w)).2).
Definition on_ms {A} (m : MemStore Mapping → MemStore Mapping * A) (w : TestWorld) : TestWorld * A :=
  (mkTestWorld (tg w) (hd w) (m (ms w)).1 (tnow w) (paused w) (quiet w) (tg_ok w), (m (ms w)).2).

Lemma insert_ids {g : Topic → Topic} {id} (m : gmap Z Topic) t : m !! id = Some t → dom (<[id := g t]> m) ⊆ dom m.
Proof. intros Ht%elem_of_dom_2. rewrite dom_insert. set_solver. Qed.
Lemma edit_ids id p f : ids_ok f → ids_ok (fake_edit id p f).1.
Proof. unfold fake_edit. destruct (PatchEmpty p); [done|]. apply on_topic_ids, insert_ids. Qed.
Lemma close_ids id f : ids_ok f → ids_ok (fake_close id f).1.
Proof. apply on_topic_ids, insert_ids. Qed.
Lemma reopen_ids id f : ids_ok f → ids_ok (fake_reopen id f).1.
Proof. apply on_topic_ids, insert_ids. Qed.
Lemma delete_ids id f : ids_ok f → ids_ok (fake_delete id f).1.
Proof. apply on_topic_ids. intros m t _. set_solver. Qed.

Definition error_of {A} (r : FakeTelegram * result A) : FakeTelegram * option error :=
  (r.1, match r.2 with Ok _ => None | Err e => Some e end).
Definition topic_message (id : Z) (text : string) : Outgoing := mkOutgoing id text false false false 0 0 false [] false "" 0.
Lemma send_keeps out f : fake_forum (fake_send out f).1 = fake_forum f ∧ nextID (fake_send out f).1 = nextID f ∧ topics (fake_send out f).1 = topics f.
Proof.
  unfold fake_send. destruct (record _ _ f) as [g e] eqn:E.
  match type of E with record ?m ?c f = _ => destruct (record_keeps m c f) as [H1 H2] end. rewrite E in H1, H2. cbn in H1, H2.
  unfold fake_forum. destruct e; [cbn; by rewrite H1|]. destruct (known_thread (OThreadID out) g); cbn; by rewrite H1.
Qed.
Lemma send_ids out f : ids_ok f → ids_ok (error_of (fake_send out f)).1.
Proof. intros Hf. unfold error_of, ids_ok. cbn [fst]. destruct (send_keeps out f) as (_ & -> & ->). exact Hf. Qed.

#[local] Instance Test_gateway : Reconciler.Gateway TestWorld := {
  tg_create w name st := on_tg (fake_create name st) (create_ids name st) w;
  tg_edit w id p := on_tg (fake_edit id p) (edit_ids id p) w;
  tg_close w id := on_tg (fake_close id) (close_ids id) w;
  tg_reopen w id := on_tg (fake_reopen id) (reopen_ids id) w;
  tg_delete w id := on_tg (fake_delete id) (delete_ids id) w;
  tg_send w id text := on_tg (λ f, error_of (fake_send (topic_message id text) f)) (send_ids (topic_message id text)) w;
  herdr_rename w target name := on_hd (fake_Rename target name) w;
  herdr_rename_tab w tab label := on_hd (fake_RenameTab tab label) w;
  store_save w m := on_ms (mem_save m) w;
  sync_paused := paused;
  quiet_now := quiet;
  now := tnow
}.

Definition operator_closes (b : bool) (id : Z) (f : FakeTelegram) : FakeTelegram * () := (set_topics (alter (closed b) id (topics f)) f, ()).
Lemma operator_ids b id f : ids_ok f → ids_ok (operator_closes b id f).1.
Proof.
  intros Hf i t. cbn. rewrite lookup_alter_Some. intros [(<- & y & Hy & _)|[_ Hy]]; by apply Hf in Hy.
Qed.

(** The fake Telegram meets the contract, whatever failures are queued: the
    theorems about the reconciler are about the tests as well. *)
#[local, refine] Instance Test_forum : Forum TestWorld := {
  forum w := fake_forum (tg w);
  op_close w id := (on_tg (operator_closes true id) (operator_ids true id) w).1;
  op_reopen w id := (on_tg (operator_closes false id) (operator_ids false id) w).1
}.
Proof.
  - intros w name st w' t [= <- H]. cbn [tg on_tg fst]. destruct (fake_create name st (tg w)) as [f r] eqn:E. cbn in *. subst r.
    apply create_new in E as (H1 & H2 & H3 & H4); [|apply tg_ok]. split_and!; [done..|]. rewrite H4, H2. unfold or_else. by destruct (String.eqb name "").
  - intros w name st w' e [= <- H]. cbn [tg on_tg fst]. destruct (fake_create name st (tg w)) as [f r] eqn:E. cbn in *. subst r. by apply create_failed in E.
  - intros w id p w' err Hp [= <- H]. cbn [tg on_tg fst]. unfold fake_edit in *. rewrite Hp in *. destruct (on_topic _ _ _ _ (tg w)) as [f e] eqn:E. cbn in *. subst err.
    eapply (on_topic_call _ _ _ (patched p)); [|exact E]. by intros [].
  - intros w id w' err [= <- H]. unfold fake_close in *. cbn [tg on_tg fst]. destruct (on_topic _ _ _ _ (tg w)) as [f e] eqn:E. cbn in *. subst err.
    eapply (on_topic_call _ _ _ (closed true)); [|exact E]. by intros [].
  - intros w id w' err [= <- H]. unfold fake_reopen in *. cbn [tg on_tg fst]. destruct (on_topic _ _ _ _ (tg w)) as [f e] eqn:E. cbn in *. subst err.
    eapply (on_topic_call _ _ _ (closed false)); [|exact E]. by intros [].
  - intros w id w' err [= <- H]. cbn [tg on_tg fst]. destruct (fake_delete id (tg w)) as [f e] eqn:E. cbn in *. subst err.
    apply on_topic_change in E as [_ Hm]. unfold fake_forum. destruct e; [by rewrite Hm|]. destruct Hm as (t & _ & ->). by rewrite fmap_delete.
  - done.
  - intros w id. cbn. unfold fake_forum. apply map_eq. intros i. rewrite lookup_fmap, !lookup_alter, !lookup_fmap.
    by destruct (decide _); [destruct (topics (tg w) !! id)|].
  - intros w id. cbn. unfold fake_forum. apply map_eq. intros i. rewrite lookup_fmap, !lookup_alter, !lookup_fmap.
    by destruct (decide _); [destruct (topics (tg w) !! id)|].
Defined.

(** With no failure ordered and no writes held, every call is answered. *)
Definition obliging (w : TestWorld) : Prop := failNext (tg w) = ∅ ∧ mem_err (ms w) = None ∧ paused w = false ∧ quiet w = false.

Lemma record_quiet method call f : failNext f = ∅ → record method call f = (set_script (calls f ++ [call]) ∅ f, None).
Proof. intros H. unfold record. by rewrite H, lookup_empty. Qed.

Lemma on_topic_done method call id change f : failNext f = ∅ → is_Some (topics f !! id) →
  (on_topic method call id change f).2 = None ∧ failNext (on_topic method call id change f).1 = ∅.
Proof. intros H [t Ht]. unfold on_topic. rewrite record_quiet by done. cbn. by rewrite Ht. Qed.

Lemma forum_known (f : FakeTelegram) id : is_Some (fake_forum f !! id) → is_Some (topics f !! id).
Proof. unfold fake_forum. rewrite lookup_fmap. by intros [x [t [-> _]]%fmap_Some]. Qed.

Lemma pair_answer {A B} (p : A * B) (b : B) : p.2 = b → p = (p.1, b).
Proof. destruct p. cbn. by intros ->. Qed.

Lemma obliging_call (m : FakeTelegram → FakeTelegram * option error) Hm w : obliging w → (m (tg w)).2 = None ∧ failNext (m (tg w)).1 = ∅ →
  ∃ w', on_tg m Hm w = (w', None) ∧ obliging w'.
Proof.
  intros (H1 & H2 & H3 & H4) [Hr Hf]. exists (on_tg m Hm w).1. split; [unfold on_tg; cbn; by rewrite Hr|].
  by split_and!.
Qed.

#[local, refine] Instance Test_willing : Willing TestWorld := { ready := obliging }.
Proof.
  - by intros w (_ & _ & ? & ?).
  - intros w m (H1 & H2 & H3 & H4). unfold obliging. cbn. unfold mem_save. by rewrite H2.
  - intros w name st (H1 & H2 & H3 & H4). exists (tg_create w name st).1, (mkTopic (nextID (tg w) + 1) name st false).
    split; [apply pair_answer|split; [|by right]]; unfold obliging; cbn; unfold fake_create; rewrite record_quiet by done; [done|by split_and!].
  - intros w id p Hw Hid. apply obliging_call; [done|]. unfold fake_edit. destruct (PatchEmpty p); [by destruct Hw|].
    apply on_topic_done; [apply Hw|by apply forum_known].
  - intros w id Hw Hid. apply obliging_call; [done|]. apply on_topic_done; [apply Hw|by apply forum_known].
  - intros w id Hw Hid. apply obliging_call; [done|]. apply on_topic_done; [apply Hw|by apply forum_known].
Defined.

(** ** Tests run on the fakes *)

#[local] Existing Instance latin1_tables.

Definition new_world (f : FakeTelegram) (Hf : ids_ok f) : TestWorld := mkTestWorld f NewFakeHerdr mem_new 0 false false Hf.
Lemma no_ids m e : ids_ok (FailNext m e NewFakeTelegram).
Proof. apply map_Forall_empty. Qed.
Definition failing : TestWorld := new_world (FailNext "create" (Sentinel ErrTopicGone) NewFakeTelegram) (no_ids _ _).
Definition pair_of_agents : list Agent := [sim_agent "p1" StatusWorking; sim_agent "p2" StatusIdle].
Definition first_pass := Reconcile pair_of_agents (NewReconciler (NewMapping (-100)), failing).

(** The one creation a test makes fail is left out of the pass, which reports
    nothing, and the next pass makes it good. *)
Example failure_made_good :
  first_pass.2 = None ∧ calls (tg first_pass.1.2) = ["create:V3Jobs · claude:working"; "create:V3Jobs · claude:idle"] ∧
  map_to_list (fake_forum (tg first_pass.1.2)) = [(101, mkForumTopic "V3Jobs · claude" StatusIdle false)] ∧
  fake_forum (tg (Reconcile pair_of_agents first_pass.1).1.2) =
    {[101 := mkForumTopic "V3Jobs · claude" StatusIdle false; 102 := mkForumTopic "V3Jobs · claude" StatusWorking false]}.
Proof. vm_compute. by split_and!. Qed.

(** A daemon the supervisor starts on the fakes is process 1001, holds the pid
    file and is found by the second start; a stop ends it. One that ignores
    the stop is killed after the timeout, on the clock the test moves. *)
Definition start_desk (t : Time) (p : FakeProcess) : Desk := mkDesk p (NewFakeClock t).
Theorem start_and_stop t :
  let '(r, w) := on_desk (Start startTimeout supervisorPoll 50) (start_desk t NewFakeProcess) in
  r = Some (1001, false, None) ∧ fake_read (procs w) = Ok (mkPidInfo 1001 t) ∧
  on_desk (Start startTimeout supervisorPoll 50) w = (Some (1001, true, None), w) ∧
  (let '(r, w) := on_desk (Stop stopTimeout supervisorPoll 50) w in
   r = Some None ∧ alive (procs w) = ∅ ∧ held (procs w) = 0 ∧ signals (procs w) = ["stop:1001"]).
Proof. vm_compute. by split_and!. Qed.

Example stubborn_is_killed :
  let '(_, w) := on_desk (Start startTimeout supervisorPoll 50) (start_desk 0 NewFakeProcess) in
  let '(r, w') := on_desk (Stop stopTimeout supervisorPoll 60) (mkDesk (set_ignore true (procs w)) (clk w)) in
  r = Some None ∧ alive (procs w') = ∅ ∧ signals (procs w') = ["stop:1001"; "kill:1001"] ∧
  clock_now (clk w') = stopTimeout.
Proof. vm_compute. by split_and!. Qed.
