(* ===== verification/ReconcilerProps.v ===== *)
(** The mapping stays in step with the forum through any sequence of handler
    calls and operator actions, whatever calls fail; writes stop while they are
    blocked; the sweep deletes only what it may. *)
From S2P Require Import Prelude GoStrings Errors Status Mapping Registry Debounce Reconciler ReconcilerLaws.

Local Open Scope Z_scope.
#[local] Open Scope reconciler_scope.

(** ** Operator actions *)

Section operator.
Context {U : UnicodeTables} `{!Gateway W, !Forum W}.

Lemma InStep_no_empty_key m F : InStep m F → Topics m !! "" = None.
Proof.
  intros H. destruct (Topics m !! "") as [e|] eqn:E; [|done].
  apply mk_is_Some, (step_keys _ _ H) in E as [k Hk]. done.
Qed.

Lemma KeyForThread_some m F tid k :
  InStep m F → KeyForThread m tid = Some k → ∃ e, TopicFor m k = Some e ∧ ThreadID e = tid.
Proof.
  intros H. rewrite KeyForThread_best by by eapply InStep_no_empty_key.
  destruct (best_keys m !! tid) as [key|] eqn:E; [|done]. simpl. intros Hk%ParseKey_Some.
  apply best_keys_spec in E as (e & He & Ht & _). exists e. unfold TopicFor. by rewrite Hk.
Qed.

Lemma KeyForThread_none m F tid :
  InStep m F → KeyForThread m tid = None → ∀ key e, Topics m !! key = Some e → ThreadID e ≠ tid.
Proof.
  intros H. rewrite KeyForThread_best by by eapply InStep_no_empty_key.
  intros Hn key e He <-. destruct (best_keys_some _ _ _ He) as [key' Hk]. rewrite Hk in Hn.
  apply best_keys_spec in Hk as (e' & He' & _). simpl in Hn.
  apply mk_is_Some, (step_keys _ _ H) in He' as [k Hk]. congruence.
Qed.

(** A topic of no entry changes. *)
Lemma InStep_other m F f tid :
  InStep m F → (∀ key e, Topics m !! key = Some e → ThreadID e ≠ tid) → InStep m (alter f tid F).
Proof.
  intros [Hk Hu He] Hn. split; [done..|]. intros key e H.
  destruct (He key e H) as (ft & ? & ?). exists ft. split; [|done].
  rewrite lookup_alter_ne; [done|]. intros E. by apply (Hn key e).
Qed.

Lemma alter_insert_topic (F : gmap Z ForumTopic) f tid ft :
  F !! tid = Some ft → alter f tid F = <[tid := f ft]> F.
Proof.
  intros H. apply map_eq. intros i. rewrite lookup_alter, lookup_insert.
  case_decide; [|done]. subst. by rewrite H.
Qed.

(** The operator closes a topic and the daemon hears of it. *)
Lemma keeps_OnTopicClosed tid r w :
  Inv (r, w) → wp (OnTopicClosed tid) (λ _, Inv) (r, op_close w tid).
Proof.
  intros [H Ha]. unfold OnTopicClosed. wp_steps.
  destruct (KeyForThread (mapping r) tid) as [k|] eqn:Hk.
  - destruct (KeyForThread_some _ _ _ _ H Hk) as (e & He & <-). rewrite He.
    destruct (InStep_topic _ _ _ _ H He) as (ft & HF & Hok).
    assert (Hup : ∀ f, (∀ at_, ThreadID (f at_ e) = ThreadID e) →
      (∀ at_, entry_ok (f at_ e) (ft_close true ft)) →
      wp (do _ ← update_mapping (λ m at_, update_entry m k (f at_)); do _ ← save; ok)
        (λ _, Inv) (r, op_close w (ThreadID e))).
    { intros f Ht Hf. wp_steps. apply Inv_saved. split; [|done]. cbn [fst snd mapping set_mapping].
      rewrite op_close_law, (alter_insert_topic _ _ _ ft) by done.
      by apply InStep_update. }
    destruct Hok as [Hn Hs Hc Hm Hl]. destruct (Live (EStatus e)) eqn:Hlive; simpl.
    + apply (Hup (e_muted true)); [done|]. intros. split; simpl; auto; congruence.
    + apply (Hup (e_closed true)); [done|]. intros. split; simpl; rewrite ?Hlive; auto.
  - wp_steps. split; [|done]. cbn [fst snd]. rewrite op_close_law.
    apply InStep_other; [done|]. by eapply KeyForThread_none.
Qed.

Lemma keeps_OnTopicReopened tid r w :
  Inv (r, w) → wp (OnTopicReopened tid) (λ _, Inv) (r, op_reopen w tid).
Proof.
  intros [H Ha]. unfold OnTopicReopened. wp_steps.
  destruct (KeyForThread (mapping r) tid) as [k|] eqn:Hk.
  - destruct (KeyForThread_some _ _ _ _ H Hk) as (e & He & <-).
    destruct (InStep_topic _ _ _ _ H He) as (ft & HF & Hok). wp_steps.
    set (t := now _). unfold Unmute, setMuted, MarkReopened. rewrite update_entry_twice.
    set (m1 := update_entry _ _ _). set (s1 := (set_view _ _, _)).
    assert (Inv s1).
    { apply Inv_saved. split; [|done]. cbn [fst snd mapping set_mapping].
      rewrite op_reopen_law, (alter_insert_topic _ _ _ ft) by done.
      apply InStep_update; [done..|]. by apply entry_ok_reopened. }
    destruct (ragents r !! k) as [a|].
    + apply rkeeps_bind; [apply keeps_cancel|intros []; apply keeps_forced, keeps_edit|done].
    + apply keeps_finish; [done|]. intros e'. cbn [s1 fst mapping set_view set_mapping m1].
      unfold m1. rewrite TopicFor_update, He. by intros [= <-].
  - wp_steps. split; [|done]. cbn [fst snd]. rewrite op_reopen_law.
    apply InStep_other; [done|]. by eapply KeyForThread_none.
Qed.

Lemma keeps_SetReadOnly b : keeps Inv (SetReadOnly (W := W) b).
Proof. intros [r w] H. unfold SetReadOnly. wp_steps. by apply (Inv_same r); [|apply H|]. Qed.

Lemma keeps_SetDashboardID id : keeps Inv (SetDashboardID id).
Proof.
  intros [r w] H. unfold SetDashboardID. wp_steps. case_match; wp_steps; [done|].
  apply Inv_saved. destruct H as [H Ha]. split; [|done]. by apply (InStep_sub (mapping r)).
Qed.
End operator.

(** ** The mapping stays in step *)

(** What reaches the reconciler; the operator's two actions change the forum
    and are then handled. *)
Inductive action :=
  | ActEvent (ev : AgentEvent) | ActFire (key : Key) | ActFlush
  | ActReconcile (live : list Agent) | ActResync (live : list Agent)
  | ActSweep (maxAge : Duration) (canDeleteMessages : bool)
  | ActReadOnly (ro : bool) | ActDashboard (id : Z)
  | ActOperatorCloses (tid : Z) | ActOperatorReopens (tid : Z).

Definition action_ok (act : action) : Prop :=
  match act with
  | ActEvent ev => wf_agent (AEAgent ev)
  | ActReconcile live | ActResync live => Forall wf_agent live
  | _ => True
  end.

Section actions.
Context {U : UnicodeTables} `{!Gateway W, !Forum W}.

Definition perform (s : Reconciler * W) (act : action) : Reconciler * W :=
  match act with
  | ActEvent ev => (Handle ev s).1
  | ActFire key => (Fire key s).1
  | ActFlush => (Flush s).1
  | ActReconcile live => (Reconcile live s).1
  | ActResync live => (Resync live s).1
  | ActSweep d b => (Sweep d b s).1
  | ActReadOnly b => (SetReadOnly b s).1
  | ActDashboard id => (SetDashboardID id s).1
  | ActOperatorCloses tid => (OnTopicClosed tid (s.1, op_close s.2 tid)).1
  | ActOperatorReopens tid => (OnTopicReopened tid (s.1, op_reopen s.2 tid)).1
  end.

Lemma perform_keeps act s : action_ok act → Inv s → Inv (perform s act).
Proof.
  intros Hact H. destruct act; simpl in *.
  - by apply keeps_Handle.
  - by apply keeps_edit.
  - by apply keeps_Flush.
  - by apply keeps_Reconcile.
  - by apply keeps_Resync.
  - by apply keeps_Sweep.
  - by apply keeps_SetReadOnly.
  - by apply keeps_SetDashboardID.
  - destruct s. by apply keeps_OnTopicClosed.
  - destruct s. by apply keeps_OnTopicReopened.
Qed.

(** The mapping says what Telegram accepted. Start from a mapping in
    step with the forum and run any sequence of agent events, debounced edits,
    flushes, reconcile and resync passes, sweeps, rights changes and operator
    closures and reopenings, any of the calls failing at any point: afterwards
    thread ids are unique; the topic of every entry exists under the name of
    the entry; a live entry is open and its topic carries the icon of its
    status; the topic of an entry that is not muted is closed exactly when the
    entry says so; and a muted entry of a gone agent is closed. *)
Theorem mapping_in_step acts r w :
  InStep (mapping r) (forum w) → agents_ok (ragents r) → Forall action_ok acts →
  let '(r', w') := foldl perform (r, w) acts in
  InStep (mapping r') (forum w').
Proof.
  intros H Ha Hacts.
  assert (Inv (foldl perform (r, w) acts)) as Hinv.
  { assert (Inv (r, w)) as H0 by done. revert H0. generalize (r, w).
    induction Hacts as [|act acts Hact _ IH]; intros s Hs; [done|].
    simpl. by apply IH, perform_keeps. }
  destruct (foldl perform (r, w) acts). apply Hinv.
Qed.

(** ** Blocked writes *)

Definition writes_blocked (s : Reconciler * W) : Prop :=
  rightsLost s.1 = true ∨ sync_paused s.2 = true ∨ quiet_now s.2 = true.

Lemma blockedReason_blocked s :
  writes_blocked s → ∃ reason, blockedReason s = (s, reason) ∧ reason ≠ SkipNone.
Proof.
  destruct s as [r w]. unfold writes_blocked, blockedReason, bind, get, asks, ret.
  cbn [fst snd]. intros H. eexists. split; [done|].
  destruct (rightsLost r), (sync_paused w), (quiet_now w); naive_solver.
Qed.

Lemma blocked_blocked s : writes_blocked s → blocked s = (s, true).
Proof.
  intros (reason & H & Hr)%blockedReason_blocked. unfold blocked, bind, ret. rewrite H.
  by destruct reason.
Qed.

Lemma create_blocked a s : writes_blocked s → create a s = (s, None).
Proof.
  intros (reason & H & Hr)%blockedReason_blocked. unfold create, bind. rewrite H.
  by destruct reason.
Qed.

Lemma edit_blocked key s : writes_blocked s → edit key s = (s, None).
Proof.
  intros Hb. pose proof (blockedReason_blocked s Hb) as (reason & H & Hr).
  unfold edit. unfold bind at 1. unfold get. destruct (ragents s.1 !! key) as [a|]; [|done].
  destruct (TopicFor (mapping s.1) key) as [e|]; [|by apply create_blocked].
  case_match; [done|]. destruct (Diff _ _ _) as [p c].
  destruct (if force s.1 && _ then _ else _) as [patch changed]. destruct changed; [|done].
  cbn [negb]. unfold bind. rewrite H. by destruct reason.
Qed.

Lemma exit_blocked key s : writes_blocked s → exit key s = (s, None).
Proof.
  intros (reason & H & Hr)%blockedReason_blocked. unfold exit, get. unfold bind at 1.
  destruct (TopicFor (mapping s.1) key); [|done]. unfold bind. rewrite H. by destruct reason.
Qed.

Lemma each_id {A} (f : A → M W (option error)) l s :
  (∀ x, f x s = (s, None)) → each f l s = (s, None).
Proof. intros Hf. induction l as [|x l IH]; [done|]. simpl. unfold bind. by rewrite Hf. Qed.

(** While the bot cannot manage topics, the operator has switched sync
    off, or quiet mode holds the edits, no event, timer, flush, pass or sweep
    reaches Telegram, Herdr or the store, nor changes the mapping: the world is
    exactly what it was, every call answers no error, and only the list of
    known agents and the pending edits move. *)
Theorem blocked_writes_nothing s :
  writes_blocked s →
  (∀ key, Fire key s = (s, None)) ∧
  (∀ live, Reconcile live s = (s, None)) ∧
  (∀ maxAge can, Sweep maxAge can s = (s, (0, None))) ∧
  Flush s = ((set_deb s.1 (Drain (deb s.1)).1, s.2), None) ∧
  ∀ ev, ∃ ag d, Handle ev s = ((set_deb (set_ragents s.1 ag) d, s.2), None).
Proof.
  intros Hb. split_and!.
  - intros key. by apply edit_blocked.
  - intros live. unfold Reconcile, bind. by rewrite blocked_blocked.
  - intros d can. unfold Sweep. case_match; [done|]. unfold bind. by rewrite blocked_blocked.
  - unfold Flush, bind, get, modify. destruct (Drain (deb s.1)) as [d keys]. cbn [fst snd].
    apply each_id. intros key. by apply edit_blocked.
  - intros ev. unfold Handle. destruct (AEKind ev).
    1, 2: unfold bind at 1; cbn [modify fst snd];
      set (s1 := (set_ragents _ _, _)); assert (Hb1 : writes_blocked s1) by done;
      unfold bind at 1; cbn [get]; exists (ragents s1.1);
      repeat case_match; rewrite ?(create_blocked _ s1 Hb1), ?(edit_blocked _ s1 Hb1).
    all: try by exists (deb s.1); destruct s as [[]].
    + eexists. unfold bind, schedule, asks, modify, ok, ret. cbn. by destruct s as [[]].
    + unfold bind, cancel, modify. cbn [fst snd].
      rewrite exit_blocked by done. do 2 eexists. by destruct s as [[]].
Qed.

(** When the old topic is gone and its replacement cannot be created, the
    entry is forgotten in memory only: the published view and the store keep it
    until the next save. *)
Lemma revive_forget_unpublished a e r w w1 w2 msg :
  Closed e = true →
  tg_reopen w (ThreadID e) = (w1, Some (Sentinel ErrTopicGone)) →
  tg_create w1 (DisplayName (Label a)) (AStatus a) = (w2, Err (Opaque msg)) →
  revive a e (r, w) = ((set_mapping r (Forget (mapping r) (AKey a)), w2), None).
Proof.
  intros Hc Hr Hcr. unfold revive. rewrite Hc. unfold bind at 1, call at 1. cbn [fst snd]. rewrite Hr.
  change (errors_is _ _) with true. cbv iota. unfold update_mapping, bind at 1 2, asks, modify.
  cbn [fst snd]. unfold createTopic, Desired, bind at 1, call at 1. cbn [fst snd]. by rewrite Hcr.
Qed.

(** ** The sweep *)

(** [DeleteTopic] answered success, or that the topic was already gone. *)
Definition deletion_accepted (tid : Z) : Prop :=
  ∃ w w' err, tg_delete w tid = (w', err) ∧ sweep_verdict_of err = SweepDeleted.

(** From [m] to [m'] only entries of [keys] disappeared, each after its topic
    was deleted, and [n] of them. *)
Record swept (keys : list Key) (m m' : Mapping) (n : Z) : Prop := {
  swept_sub : Topics m' ⊆ Topics m;
  swept_count : n = Z.of_nat (size (Topics m)) - Z.of_nat (size (Topics m'));
  swept_le : n ≤ Z.of_nat (length keys);
  swept_only key e : Topics m !! key = Some e → Topics m' !! key = None →
    (∃ k, k ∈ keys ∧ key = KeyString k) ∧ deletion_accepted (ThreadID e)
}.

Lemma swept_refl keys m : swept keys m m 0.
Proof. split; [done|lia|lia|]. intros key e H H'. congruence. Qed.

Lemma swept_cons key keys m m' n : swept keys m m' n → swept (key :: keys) m m' n.
Proof.
  intros [Hs Hc Hn Ho]. split; [done|done|simpl; lia|]. intros k e H H'.
  destruct (Ho k e H H') as [(k' & ? & ?) ?]. split; [|done]. exists k'. split; [by right|done].
Qed.

Lemma swept_forget key keys e m m' n :
  TopicFor m key = Some e → deletion_accepted (ThreadID e) → swept keys (Forget m key) m' n →
  swept (key :: keys) m m' (1 + n).
Proof.
  intros He Hd [Hs Hc Hn Ho]. unfold Forget in *. cbn [set_topics Topics] in *. split.
  - etrans; [done|]. apply delete_subseteq.
  - pose proof (map_size_ne_0_lookup_2 _ _ (mk_is_Some _ _ He)).
    rewrite Hc, map_size_delete. unfold TopicFor in He. rewrite He. simpl. lia.
  - simpl. lia.
  - intros k e' H H'. destruct (decide (k = KeyString key)) as [->|Hne].
    + unfold TopicFor in He. simplify_eq. split; [|done]. exists key. split; [by left|done].
    + destruct (Ho k e') as [(k' & ? & ?) ?]; [by rewrite lookup_delete_ne|done|].
      split; [|done]. exists k'. split; [by right|done].
Qed.

Lemma sweep_loop_spec keys n s :
  wp (sweep_loop keys n) (λ out s', swept keys (mapping s.1) (mapping s'.1) (out.1 - n)) s.
Proof.
  revert n s. induction keys as [|key keys IH]; intros n [r w]; simpl.
  { wp_steps. rewrite Z.sub_diag. apply swept_refl. }
  wp_steps. destruct (TopicFor (mapping r) key) as [e|] eqn:He.
  2: { eapply rwp_mono; [|apply IH]. intros out s' H. by apply swept_cons. }
  wp_steps. destruct (sweep_verdict_of x) eqn:Hx.
  - wp_steps. eapply rwp_mono; [|apply IH]. cbn [fst mapping set_mapping set_view].
    intros out s' H. replace (out.1 - n) with (1 + (out.1 - (n + 1))) by lia.
    apply (swept_forget _ _ e); [done| |done]. by exists w, w', x.
  - wp_steps. rewrite Z.sub_diag. apply swept_refl.
  - eapply rwp_mono; [|apply IH]. intros out s' H. by apply swept_cons.
Qed.

#[local] Ltac nothing_swept :=
  intros [= <- <- <-]; cbn [fst snd mapping set_warned]; split_and!;
  [done | congruence | lia | lia | lia | done].

(** C12: a sweep removes at most 50 entries, each one exited, closed and
    unchanged for longer than the limit, and each only after Telegram accepted
    the deletion of its topic or reported it gone already; everything else
    stays as it was, live and open topics in particular; the count returned is
    the number of entries removed, and the only error returned is the
    cancellation of the context. *)
Theorem Sweep_spec r w maxAge can s' n err :
  Sweep maxAge can (r, w) = (s', (n, err)) →
  Topics (mapping s'.1) ⊆ Topics (mapping r) ∧
  (∀ key e, Topics (mapping r) !! key = Some e → Topics (mapping s'.1) !! key = None →
     Live (EStatus e) = false ∧ Closed e = true ∧ 0 < maxAge < time_sub (now w) (UpdatedAt e) ∧
     can = true ∧ deletion_accepted (ThreadID e)) ∧
  n = Z.of_nat (size (Topics (mapping r))) - Z.of_nat (size (Topics (mapping s'.1))) ∧
  0 ≤ n ≤ Z.of_nat sweepBatch ∧
  (∀ e, err = Some e → context_error e = true).
Proof.
  unfold Sweep. destruct (Z.leb_spec maxAge 0) as [?|Hage]; [nothing_swept|].
  unfold bind at 1. replace (blocked (r, w)) with ((r, w), (blocked (r, w)).2) by done.
  destruct (blocked (r, w)).2; [nothing_swept|].
  destruct can; cbn [negb]; [|nothing_swept]. unfold bind, modify, get, asks, ret. cbn [fst snd].
  set (keys := take _ _). pose proof (sweep_loop_spec keys 0 (set_warned r false, w)) as Hl.
  unfold wp in Hl. destruct (sweep_loop keys 0 _) as [s1 [n1 stop]].
  intros [= <- <- <-]. cbn [fst snd mapping set_warned] in *. destruct Hl as [Hs Hc Hn Ho].
  rewrite Z.sub_0_r in *. split_and!; [done| |done| | |].
  - intros key e H H'. destruct (Ho key e H H') as [(k & Hk & ->) Hd].
    apply subseteq_take in Hk. apply elem_of_Stale in Hk as (e' & _ & He' & ? & ? & ?).
    unfold TopicFor in He'. simplify_eq. done.
  - apply map_subseteq_size in Hs. lia.
  - unfold keys in Hn. rewrite length_take in Hn. lia.
  - intros e. destruct stop as [e'|]; [|done]. destruct (context_error e') eqn:E; [|done].
    by intros [= <-].
Qed.
End actions.

(** ** Witnesses *)

#[local] Existing Instance latin1_tables.

Lemma mapping_in_step_witness :
  let a := sim_agent "p1" StatusWorking in
  let acts := [ActEvent (mkAgentEvent AgentAppeared a); ActReconcile [a; sim_agent "p2" StatusIdle];
               ActOperatorCloses 1; ActEvent (mkAgentEvent AgentGone a); ActOperatorReopens 1] in
  let '(r', w') := foldl perform (NewReconciler (NewMapping (-100)), sim_start) acts in
  InStep (mapping r') (forum w').
Proof.
  intros a acts. apply mapping_in_step.
  - by apply (sim_start_inv (NewReconciler (NewMapping (-100)))).
  - by apply (sim_start_inv (NewReconciler (NewMapping (-100)))).
  - repeat constructor; try by apply sim_agent_ok.
Defined.

Lemma blocked_writes_nothing_witness :
  let s := (NewReconciler (NewMapping (-100)), mkSim ∅ 1000 true 0) in
  Reconcile [sim_agent "p1" StatusWorking] s = (s, None).
Proof.
  intros s. apply (blocked_writes_nothing s). right. left. reflexivity.
Defined.

Lemma Sweep_spec_witness :
  let e (t : Time) := mkEntry 7 "x" StatusExited true false t in
  let r := NewReconciler (mkMapping 1 (-100) (<["p/1" := e 10]> ∅) 0) in
  let w := mkSim (<[7 := mkForumTopic "x" StatusExited true]> ∅) 1000 false 0 in
  (Sweep 100 true (r, w)).2 = (1, None) ∧
  Topics (mapping (Sweep 100 true (r, w)).1.1) ⊆ Topics (mapping r).
Proof.
  intros e r w. split; [by vm_compute|].
  apply (Sweep_spec r w 100 true (Sweep 100 true (r, w)).1 1 None). vm_compute. reflexivity.
Defined.
