(* ===== verification/ReconcilerConv.v ===== *)
(** One reconcile pass over a forum that answers: the forum shows the live
    agents, and a second pass has nothing left to do. *)
From S2P Require Import Prelude GoStrings Errors Status Mapping Registry Debounce Reconciler ReconcilerLaws.

Local Open Scope Z_scope.
#[local] Open Scope reconciler_scope.

(** [ParseKey] undoes [KeyString]. *)
Lemma ParseKey_KeyString k : wf_key k → ParseKey (KeyString k) = Some k.
Proof.
  intros (Hs & Hp & Ht). unfold ParseKey, KeyString. rewrite str_cut_app_slash by done.
  destruct (String.eqb_spec (PaneID k) ""), (String.eqb_spec (TerminalID k) ""); try done.
  by destruct k.
Qed.

Lemma KeyString_inj k1 k2 : wf_key k1 → wf_key k2 → KeyString k1 = KeyString k2 → k1 = k2.
Proof. intros H1 H2 E. apply ParseKey_KeyString in H1, H2. congruence. Qed.

(** A loop whose body succeeds, with an invariant over the elements done. *)
Lemma rwp_each {W A} (f : A → M W (option error)) (J : list A → Reconciler * W → Prop) l :
  (∀ dn x rest s, l = dn ++ x :: rest → J dn s →
     wp (f x) (λ err s', err = None ∧ J (dn ++ [x]) s') s) →
  ∀ s, J [] s → wp (each f l) (λ err s', err = None ∧ J l s') s.
Proof.
  intros Hf. assert (∀ rest dn s, l = dn ++ rest → J dn s →
    wp (each f rest) (λ err s', err = None ∧ J l s') s) as H; [|intros s; by apply H].
  induction rest as [|x rest IH]; intros dn s Hl HJ; simpl.
  - apply wp_ret. split; [done|]. by rewrite Hl, app_nil_r.
  - apply rwp_bind. eapply rwp_mono; [|by apply (Hf dn x rest)]. cbn beta.
    intros err s' [-> HJ']. apply (IH (dn ++ [x])); [|done]. by rewrite <-app_assoc.
Qed.

Section conv.
Context {U : UnicodeTables} `{!Gateway W, !Forum W, !Willing W}.

Definition Ready (s : Reconciler * W) : Prop := Inv s ∧ ready s.2 ∧ rightsLost s.1 = false.

(** Only the entry of [key] may differ. *)
Record framed (key : string) (s s' : Reconciler * W) : Prop := {
  framed_topics k : k ≠ key → Topics (mapping s'.1) !! k = Topics (mapping s.1) !! k;
  framed_force : force s'.1 = force s.1;
  framed_agents : ragents s'.1 = ragents s.1
}.

Lemma framed_refl key s : framed key s s.
Proof. by split. Qed.
Lemma framed_trans key s1 s2 s3 : framed key s1 s2 → framed key s2 s3 → framed key s1 s3.
Proof. intros [H1 H2 H3] [H4 H5 H6]. split; [|congruence..]. intros k Hk. by rewrite H4, H1. Qed.

Lemma Ready_blockedReason s : Ready s → blockedReason s = (s, SkipNone).
Proof.
  destruct s as [r w]. intros (_ & Hw & Hr). apply ready_open in Hw as [Hp Hq].
  unfold blockedReason, bind, get, asks, ret. cbn [fst snd] in *. by rewrite Hr, Hp, Hq.
Qed.

Lemma Ready_blocked s : Ready s → blocked s = (s, false).
Proof. intros H. unfold blocked, bind, ret. by rewrite Ready_blockedReason. Qed.

(** [m] succeeds, touches the entry of [k] only, and leaves it as [Post] says. *)
Definition does (m : M W (option error)) (k : Key) (Post : option TopicEntry → Prop)
    (s : Reconciler * W) : Prop :=
  wp m (λ err s', err = None ∧ Ready s' ∧ framed (KeyString k) s s' ∧
          Post (TopicFor (mapping s'.1) k)) s.

Lemma does_ok k (Post : option TopicEntry → Prop) s :
  Ready s → Post (TopicFor (mapping s.1) k) → does ok k Post s.
Proof. intros H HP. unfold does. apply wp_ret. split_and!; auto using framed_refl. Qed.

Lemma does_framed m k Post s s1 :
  framed (KeyString k) s s1 → does m k Post s1 →
  wp m (λ err s', err = None ∧ Ready s' ∧ framed (KeyString k) s s' ∧
          Post (TopicFor (mapping s'.1) k)) s1.
Proof.
  intros Hf H. unfold does in H. eapply rwp_mono; [|exact H]. intros err s' (-> & ? & ? & ?). cbn beta in *.
  split_and!; auto. by eapply framed_trans.
Qed.

Lemma does_get f k Post s : does (f s.1) k Post s → does (do r ← get; f r) k Post s.
Proof. done. Qed.

Lemma does_blockedReason f k Post s :
  Ready s → does (f SkipNone) k Post s → does (do reason ← blockedReason; f reason) k Post s.
Proof. intros H. unfold does, wp, bind. by rewrite Ready_blockedReason. Qed.

Lemma does_blocked f k Post s :
  Ready s → does (f false) k Post s → does (do b ← blocked; f b) k Post s.
Proof. intros H. unfold does, wp, bind. by rewrite Ready_blocked. Qed.

Lemma does_mono m k (P Q : option TopicEntry → Prop) s :
  (∀ o, P o → Q o) → does m k P s → does m k Q s.
Proof. unfold does, wp. naive_solver. Qed.

Lemma Ready_saved r w m : Ready (r, w) → Ready (set_view r (publish m), (store_save w m).1).
Proof. intros (? & ? & ?). split_and!; [by apply Inv_saved|by apply ready_save|done]. Qed.

Lemma set_mapping_twice r m1 m2 : set_mapping (set_mapping r m1) m2 = set_mapping r m2.
Proof. done. Qed.

Lemma framed_update r w k f v w' :
  framed (KeyString k) (r, w) (set_view (set_mapping r (update_entry (mapping r) k f)) v, w').
Proof.
  split; [|done..]. intros key Hk. cbn [fst mapping set_view set_mapping].
  by rewrite update_entry_lookup, decide_False by congruence.
Qed.

(** A call that succeeds on the topic of [k], and the update it stands for. *)
Lemma does_topic_call k e (c : W → W * option error) f g method K Post s :
  (∀ w, ready w → is_Some (forum w !! ThreadID e) → ∃ w', c w = (w', None) ∧ ready w') →
  (∀ w w' err, c w = (w', err) → topic_call (forum w) (forum w') (ThreadID e) err g) →
  (∀ at_, ThreadID (f at_ e) = ThreadID e) →
  (∀ at_ ft, entry_ok e ft → entry_ok (f at_ e) (g ft)) →
  TopicFor (mapping s.1) k = Some e → Ready s →
  (∀ s' at_, Ready s' → TopicFor (mapping s'.1) k = Some (f at_ e) → does K k Post s') →
  does (do err ← call c;
        match err with
        | Some er => fail k method er
        | None => do _ ← update_mapping (λ m at_, update_entry m k (f at_)); do _ ← save; K
        end) k Post s.
Proof.
  intros Hw Hc Ht Hok Hk ([H Ha] & Hr & Hrights) HK. destruct s as [r w]. unfold does. wp_steps.
  destruct (InStep_topic _ _ _ _ H Hk) as (ft & HF & Hoke).
  destruct (Hw w) as (w1 & Hc1 & Hr1); [done|by eexists|]. rewrite Hc1 in Hcall. simplify_eq.
  apply Hc in Hc1 as (ft' & HF' & Hw'). wp_steps. simplify_eq.
  apply does_framed; [apply framed_update|]. eapply (HK _ (now w')).
  - apply Ready_saved. split_and!; [split; [|done]|done|done].
    cbn [fst snd mapping set_mapping]. rewrite Hw'. by apply InStep_update; auto.
  - cbn. by rewrite TopicFor_update, Hk.
Qed.

(** ** The operations *)

Lemma does_close key s :
  Ready s → (∀ e, TopicFor (mapping s.1) key = Some e → Live (EStatus e) = false) →
  does (close key) key (λ o', match TopicFor (mapping s.1) key, o' with
    | Some e, Some e' => Closed e' = true ∧ EStatus e' = EStatus e ∧ Muted e' = Muted e
    | o, o' => o' = o end) s.
Proof.
  intros H Hd. unfold close. apply does_get.
  destruct (TopicFor (mapping s.1) key) as [e|] eqn:He; [|apply does_ok; by rewrite ?He].
  destruct (Closed e) eqn:Hc; [apply does_ok; by rewrite ?He|].
  apply does_blocked; [done|]. cbv iota.
  apply (does_topic_call key e (λ w, tg_close w (ThreadID e)) (e_closed true) (ft_close true)); try done.
  - intros w. apply willing_close.
  - intros *. apply close_law.
  - intros at_ ft Hok. apply entry_ok_closed; [done|]. by apply Hd.
  - intros s' at_ Hs' He'. apply does_ok; [done|]. by rewrite He'.
Qed.

(** The agent of the entry is gone: exited and, its topic included, closed. *)
Definition gone_and_closed (o : option TopicEntry) : Prop :=
  ∀ e, o = Some e → Live (EStatus e) = false ∧ Closed e = true.

Lemma does_close_gone key e s :
  Ready s → TopicFor (mapping s.1) key = Some e → Live (EStatus e) = false →
  does (close key) key gone_and_closed s.
Proof.
  intros H He Hl. eapply does_mono; [|apply does_close; [done|]].
  - intros o. cbn beta. rewrite He. intros Ho e' ->. destruct Ho as (? & -> & _). done.
  - rewrite He. by intros ? [= <-].
Qed.

Lemma does_exit key s : Ready s → does (exit key) key gone_and_closed s.
Proof.
  intros H. unfold exit. apply does_get.
  destruct (TopicFor (mapping s.1) key) as [e|] eqn:He; [|apply does_ok; by rewrite ?He].
  apply does_blockedReason; [done|]. cbv iota.
  destruct (Muted e) eqn:Hm; [|destruct (Live (EStatus e)) eqn:Hl].
  - destruct s as [r w]. destruct H as ([H Ha] & Hr & Hrights). unfold does. wp_steps.
    unfold MarkClosed, MarkExited. rewrite update_entry_twice, set_mapping_twice.
    split_and!; [done| |apply framed_update|].
    + apply Ready_saved. split_and!; [split; [|done]|done|done].
      destruct (InStep_topic _ _ _ _ H He) as (ft & HF & Hok).
      eapply InStep_same; [done|done|done|done|]. by apply entry_ok_muted_exit.
    + cbn [fst mapping set_view set_mapping]. rewrite TopicFor_update, He. by intros ? [= <-].
  - unfold mark_exited_and_close.
    apply (does_topic_call key e (λ w, tg_edit w (ThreadID e) (mkPatch None (Some StatusExited)))
      (e_status StatusExited) (ft_patch (mkPatch None (Some StatusExited)))); try done.
    + intros w. apply willing_edit.
    + intros *. by apply edit_law.
    + intros at_ ft Hok. apply entry_ok_exited; [done|]. by rewrite Hm.
    + intros s' at_ Hs' He'. by eapply does_close_gone.
  - by eapply does_close_gone.
Qed.

(** The entry is live and says what the agent should have. *)
Definition shows (a : Agent) (strict : bool) (o : option TopicEntry) : Prop :=
  ∃ e, o = Some e ∧ Live (EStatus e) = true ∧
    (Muted e = false ∨ strict = true → (EName e, EStatus e) = Desired a).

Lemma does_createTopic a b s :
  wf_agent a → Ready s → does (createTopic a) (AKey a) (shows a b) s.
Proof.
  intros Ha ([H Hag] & Hr & Hrights). destruct s as [r w]. unfold createTopic, does.
  unfold Desired at 1. cbv iota beta. wp_steps.
  destruct (willing_create w (DisplayName (Label a)) (AStatus a)) as (w1 & t & Hc & Hr1 & Hn); [done|].
  rewrite Hc in Hcall. simplify_eq. pose proof (create_law _ _ _ _ _ Hc) as (Hfresh & Hcl & HF).
  wp_steps. split_and!; [done| | |].
  2: { split; [|done..]. intros k Hk. unfold Link, Desired. cbn. by rewrite lookup_insert_ne by done. }
  - apply Ready_saved. split_and!; [split; [|done]|done|done].
    cbn [fst snd mapping set_mapping]. rewrite HF. by apply InStep_link.
  - unfold Link, Desired, TopicFor. cbn. rewrite lookup_insert_eq. eexists. split; [done|]. cbn.
    split; [apply Ha|]. intros _. f_equal. destruct Hn as [->| ->]; [done|].
    by destruct (String.eqb _ "").
Qed.

Lemma does_revive_open a e b s :
  wf_agent a → TopicFor (mapping s.1) (AKey a) = Some e →
  (∀ at_, InStep (update_entry (mapping s.1) (AKey a) (λ e, e_closed false at_ (e_muted false at_ e)))
            (forum s.2)) →
  agents_ok (ragents s.1) → ready s.2 → rightsLost s.1 = false →
  does (revive_open a e) (AKey a) (shows a b) s.
Proof.
  intros Ha He H Hag Hr Hrights. destruct s as [r w]. cbn [fst snd] in *.
  unfold revive_open, does. wp_steps.
  set (at_ := now w). unfold Unmute, setMuted, MarkReopened. rewrite update_entry_twice.
  unfold Desired at 1. cbv iota beta zeta.
  set (p := mkPatch (if negb (String.eqb (DisplayName (Label a)) (EName e))
                     then Some (DisplayName (Label a)) else None) (Some (AStatus a))).
  apply does_framed; [apply framed_update|].
  apply (does_topic_call (AKey a) (e_closed false at_ (e_muted false at_ e))
    (λ w, tg_edit w (ThreadID e) p) (e_patch p) (ft_patch p)).
  - intros w'. apply willing_edit.
  - intros *. apply edit_law. by apply (PatchEmpty_status _ (AStatus a)).
  - done.
  - intros t ft Hok. apply entry_ok_patch; [done|]. intros s [= <-]. split; [apply Ha|done].
  - cbn [fst mapping set_view set_mapping]. by rewrite TopicFor_update, He.
  - apply Ready_saved. split_and!; [split; [apply H|done]|done|done].
  - intros s' t Hs' He'. apply does_ok; [done|]. rewrite He'. eexists. split; [done|].
    split; [apply Ha|]. intros _. cbn. unfold Desired, p. cbn.
    destruct (String.eqb_spec (DisplayName (Label a)) (EName e)) as [->|]; done.
Qed.

Lemma does_revive a e b s :
  wf_agent a → Ready s → TopicFor (mapping s.1) (AKey a) = Some e → Live (EStatus e) = false →
  does (revive a e) (AKey a) (shows a b) s.
Proof.
  intros Ha ([H Hag] & Hr & Hrights) He Hl. destruct s as [r w]. cbn [fst snd] in *. unfold revive.
  destruct (InStep_topic _ _ _ _ H He) as (ft & HF & Hok).
  destruct (Closed e) eqn:Hc.
  - unfold does. wp_steps.
    destruct (willing_reopen w (ThreadID e)) as (w1 & Hc1 & Hr1); [done|by eexists|].
    rewrite Hc1 in Hcall. simplify_eq. apply reopen_law in Hc1 as (ft' & HF' & Hw).
    apply does_framed; [by split|]. apply does_revive_open; try done.
    cbn [fst snd]. rewrite Hw. intros at_. apply InStep_update; try done.
    apply entry_ok_reopened. by simplify_eq.
  - apply does_revive_open; try done. cbn [fst snd]. intros at_.
    eapply InStep_same; try done. by apply entry_ok_open.
Qed.

Lemma does_create a b s :
  wf_agent a → Ready s → (∀ e, TopicFor (mapping s.1) (AKey a) = Some e → Live (EStatus e) = false) →
  does (create a) (AKey a) (shows a b) s.
Proof.
  intros Ha H Hd. unfold create. apply does_blockedReason; [done|]. cbv iota. apply does_get.
  destruct (TopicFor (mapping s.1) (AKey a)) as [e|] eqn:He; [|by apply does_createTopic].
  rewrite (Hd e eq_refl). cbn [negb]. apply does_revive; auto.
Qed.

Lemma does_edit a e s :
  Ready s → ragents s.1 !! AKey a = Some a → TopicFor (mapping s.1) (AKey a) = Some e →
  Live (EStatus e) = true → does (edit (AKey a)) (AKey a) (shows a (force s.1)) s.
Proof.
  intros H Ha He Hl. destruct s as [r w]. cbn [fst snd] in *. unfold edit. apply does_get. cbn [fst].
  rewrite Ha, He, Hl, andb_true_r.
  assert (Hwf : wf_agent a) by (apply (proj2 (proj1 H)) in Ha; tauto).
  destruct (Muted e && negb (force r)) eqn:Hm.
  { apply does_ok; [done|]. cbn [fst]. rewrite He. exists e. do 2 (split; [done|]).
    apply andb_true_iff in Hm as [-> ->%negb_true_iff]. by intros [|]. }
  unfold Diff. unfold TopicFor in He. rewrite He, Hl. cbn [negb].
  unfold Desired. cbv iota beta zeta.
  set (q := if force r then _ else _).
  assert (Hq : q.2 = false ∧ (EName e, EStatus e) = Desired a ∨
               q.2 = true ∧ (default (EName e) (PName q.1), default (EStatus e) (PStatus q.1)) = Desired a
                 ∧ PatchEmpty q.1 = false ∧ (∀ s, PStatus q.1 = Some s → s = AStatus a)).
  { unfold q, Desired. destruct (force r); cbn; [right; naive_solver|].
    destruct (String.eqb_spec (DisplayName (Label a)) (EName e)) as [<-|];
      destruct (String.eqb_spec (AStatus a) (EStatus e)) as [<-|]; cbn; naive_solver. }
  destruct q as [p c]. cbn [fst snd] in Hq. destruct Hq as [[-> Hq]|(-> & Hq & Hne & Hst)]; cbn [negb].
  { apply does_ok; [done|]. unfold TopicFor. cbn [fst]. rewrite He. by exists e. }
  apply does_blockedReason; [done|]. cbv iota.
  apply (does_topic_call (AKey a) e (λ w, tg_edit w (ThreadID e) p) (e_patch p) (ft_patch p)); try done.
  - intros w'. apply willing_edit.
  - intros *. by apply edit_law.
  - intros t ft Hok. apply entry_ok_patch; [done|]. intros s ->%Hst. split; [apply Hwf|].
    by apply (ok_live _ _ Hok).
  - intros s' at_ Hs' He'. apply does_ok; [done|]. rewrite He'. eexists. split; [done|].
    cbn. split; [|done]. unfold Desired in Hq. injection Hq as _ ->. apply Hwf.
Qed.

Lemma does_reconcile_agent a s :
  Ready s → ragents s.1 !! AKey a = Some a →
  does (reconcile_agent a) (AKey a) (shows a (force s.1)) s.
Proof.
  intros H Ha. assert (Hwf : wf_agent a) by (apply (proj2 (proj1 H)) in Ha; tauto).
  unfold reconcile_agent. apply does_get.
  destruct (TopicFor (mapping s.1) (AKey a)) as [e|] eqn:He.
  2: { apply does_create; [done..|]. by rewrite He. }
  destruct (Live (EStatus e)) eqn:Hl; cbn [negb].
  2: { apply does_create; [done..|]. rewrite He. by intros ? [= <-]. }
  destruct s as [r w]. unfold does, cancel. wp_steps.
  apply does_framed; [by split|]. by apply (does_edit a e (set_deb r _, w)).
Qed.

(** ** The loops *)

(** What a loop over the keys [dn] may have changed since [s0]. *)
Record framed_all (dn : list string) (s0 s : Reconciler * W) : Prop := {
  fall_ready : Ready s;
  fall_topics k : k ∉ dn → Topics (mapping s.1) !! k = Topics (mapping s0.1) !! k;
  fall_force : force s.1 = force s0.1;
  fall_agents : ragents s.1 = ragents s0.1
}.

Lemma framed_all_snoc dn k s0 s s' :
  framed_all dn s0 s → Ready s' → framed k s s' → framed_all (dn ++ [k]) s0 s'.
Proof.
  intros [_ Ht Hf Ha] Hr [Ht' Hf' Ha']. split; [done| |congruence..].
  intros key [Hk1 Hk2]%not_elem_of_app. rewrite Ht', Ht; set_solver.
Qed.

(** After the first loop every live entry that is not muted is of an agent. *)
Definition no_orphan (live : gset Key) (m : Mapping) : Prop :=
  ∀ key e, Topics m !! key = Some e → Live (EStatus e) = true → Muted e = false →
    ∃ k, k ∈ live ∧ KeyString k = key.

Lemma wp_cancel key Q (s : Reconciler * W) :
  Q () (set_deb s.1 (Cancel (deb s.1) key).1, s.2) → wp (cancel key) Q s.
Proof. done. Qed.

Lemma orphans_loop live s :
  Ready s →
  wp (each exit_orphan (Orphans (mapping s.1) live)) (λ err s',
    err = None ∧ Ready s' ∧ force s'.1 = force s.1 ∧ ragents s'.1 = ragents s.1 ∧
    no_orphan live (mapping s'.1)) s.
Proof.
  intros H. set (l := Orphans _ _).
  eapply rwp_mono; [|apply (rwp_each exit_orphan (λ dn s', framed_all (KeyString <$> dn) s s' ∧
    ∀ k, k ∈ dn → gone_and_closed (TopicFor (mapping s'.1) k)) l)].
  - intros err s' (-> & [[Hr Ht Hf Ha] Hg]). split_and!; try done.
    intros key e He Hl Hm. destruct (decide (key ∈ KeyString <$> l)) as [Hk|Hk].
    { apply list_elem_of_fmap in Hk as (k & -> & Hk). apply (Hg k Hk) in He as [? _]. congruence. }
    rewrite Ht in He by done.
    destruct (step_keys _ _ (proj1 (proj1 H)) key) as [k Hkey]; [by eexists|].
    exists k. split; [|by apply ParseKey_Some]. destruct (decide (k ∈ live)) as [|Hnl]; [done|].
    exfalso. apply Hk, list_elem_of_fmap. exists k. split; [symmetry; by apply ParseKey_Some|].
    apply elem_of_list_filter. unfold TopicFor. rewrite (ParseKey_Some _ _ Hkey), He, Hl, Hm. cbn.
    split; [by apply bool_decide_eq_true|]. apply elem_of_Keys. eauto.
  - intros dn k rest s1 Hl [Hfr Hg]. unfold exit_orphan. apply rwp_bind, wp_cancel.
    set (s2 := (set_deb _ _, _)).
    assert (Ready s2) as Hr2 by (destruct Hfr as [(? & ? & ?) _ _ _]; by split_and!).
    eapply rwp_mono; [|apply (does_exit k s2 Hr2)]. cbn beta.
    intros err s' (-> & Hr' & Hf & Hk). rewrite fmap_app. split_and!; [done| |].
    { eapply framed_all_snoc; [done|done|]. destruct Hf. by split. }
    intros k' [Hk'| ->%list_elem_of_singleton]%elem_of_app; [|done].
    destruct (decide (KeyString k' = KeyString k)) as [E|E]; unfold TopicFor in *.
    { by rewrite E. }
    rewrite (framed_topics _ _ _ Hf) by done. by apply Hg.
  - split; [split; auto|]. by intros k ?%elem_of_nil.
Qed.

(** What closing may change of an entry. *)
Definition closed_from (m m' : Mapping) : Prop :=
  ∀ key e', Topics m' !! key = Some e' → ∃ e, Topics m !! key = Some e ∧
    EStatus e' = EStatus e ∧ Muted e' = Muted e ∧ (Closed e = true → Closed e' = true).

(** After the second loop the topics of gone agents are closed. *)
Definition no_unclosed (m : Mapping) : Prop :=
  ∀ key e, Topics m !! key = Some e → Live (EStatus e) = false → Muted e = false → Closed e = true.

Lemma unclosed_loop s :
  Ready s →
  wp (each close (Unclosed (mapping s.1))) (λ err s',
    err = None ∧ Ready s' ∧ force s'.1 = force s.1 ∧ ragents s'.1 = ragents s.1 ∧
    closed_from (mapping s.1) (mapping s'.1) ∧ no_unclosed (mapping s'.1)) s.
Proof.
  intros H. set (l := Unclosed _).
  eapply rwp_mono; [|apply (rwp_each close (λ dn s', framed_all (KeyString <$> dn) s s' ∧
    closed_from (mapping s.1) (mapping s'.1) ∧
    ∀ k e, k ∈ dn → TopicFor (mapping s'.1) k = Some e → Closed e = true) l)].
  - intros err s' (-> & [Hr Ht Hf Ha] & Hc & Hg). split_and!; try done.
    intros key e He Hl Hm. destruct (decide (key ∈ KeyString <$> l)) as [Hk|Hk].
    { apply list_elem_of_fmap in Hk as (k & -> & Hk). by apply (Hg k). }
    rewrite Ht in He by done. destruct (Closed e) eqn:Hce; [done|].
    destruct (step_keys _ _ (proj1 (proj1 H)) key) as [k Hkey]; [by eexists|].
    exfalso. apply Hk, list_elem_of_fmap. exists k. split; [symmetry; by apply ParseKey_Some|].
    apply elem_of_list_filter. unfold TopicFor. rewrite (ParseKey_Some _ _ Hkey), He, Hl, Hm, Hce.
    split; [done|]. apply elem_of_Keys. eauto.
  - intros dn k rest s1 Hl (Hfr & Hc & Hg).
    assert (Hk : k ∈ l) by (rewrite Hl; set_solver).
    eapply rwp_mono; [|apply (does_close k s1 (fall_ready _ _ _ Hfr))].
    2: { intros e He. destruct (Hc _ _ He) as (e0 & He0 & -> & _). by apply (Unclosed_dead (mapping s.1) k). }
    cbn beta. intros err s' (-> & Hr' & Hf & Hpost). rewrite fmap_app. split_and!; [done| | |].
    { by eapply framed_all_snoc. }
    + intros key e' He'. destruct (decide (key = KeyString k)) as [->|Hne].
      * unfold TopicFor in Hpost. rewrite He' in Hpost.
        destruct (Topics (mapping s1.1) !! KeyString k) as [e1|] eqn:He1; [|done].
        destruct Hpost as (Hcl & Hst & Hm). destruct (Hc _ _ He1) as (e & He & Hst1 & Hm1 & _).
        exists e. split_and!; congruence.
      * rewrite (framed_topics _ _ _ Hf) in He' by done. by apply Hc.
    + intros k' e' Hk' He'. destruct (decide (KeyString k' = KeyString k)) as [E|E].
      * unfold TopicFor in *. rewrite E in He'. rewrite He' in Hpost.
        destruct (Topics (mapping s1.1) !! KeyString k); [by destruct Hpost|done].
      * unfold TopicFor in He'. rewrite (framed_topics _ _ _ Hf) in He' by done.
        apply elem_of_app in Hk' as [Hk'| ->%list_elem_of_singleton]; [by eapply Hg|done].
  - split_and!; [by split| |by intros k e ?%elem_of_nil].
    intros key e He. exists e. by split_and!.
Qed.

(** After the third loop every agent has its live entry. *)
Lemma agents_loop l s :
  Ready s → Forall wf_agent l → NoDup (AKey <$> l) → (∀ a, a ∈ l → ragents s.1 !! AKey a = Some a) →
  wp (each reconcile_agent l) (λ err s', err = None ∧
    framed_all (KeyString ∘ AKey <$> l) s s' ∧
    ∀ a, a ∈ l → shows a (force s.1) (TopicFor (mapping s'.1) (AKey a))) s.
Proof.
  intros H Hwf Hnd Hag.
  eapply rwp_mono; [|apply (rwp_each reconcile_agent (λ dn s', framed_all (KeyString ∘ AKey <$> dn) s s' ∧
    ∀ a, a ∈ dn → shows a (force s.1) (TopicFor (mapping s'.1) (AKey a))) l)].
  - intros err s' (-> & ? & ?). done.
  - intros dn a rest s1 Hl [Hfr Hg].
    assert (Ha : a ∈ l) by (rewrite Hl; set_solver).
    eapply rwp_mono; [|apply (does_reconcile_agent a s1 (fall_ready _ _ _ Hfr))].
    2: { rewrite (fall_agents _ _ _ Hfr). by apply Hag. }
    cbn beta. intros err s' (-> & Hr' & Hf & Hpost). rewrite fmap_app. split_and!; [done| |].
    { by eapply framed_all_snoc. }
    rewrite (fall_force _ _ _ Hfr) in Hpost.
    intros a' [Ha'| ->%list_elem_of_singleton]%elem_of_app; [|done].
    unfold TopicFor. rewrite (framed_topics _ _ _ Hf); [by apply Hg|].
    intros E. rewrite Hl, fmap_app, fmap_cons in Hnd.
    apply NoDup_app in Hnd as (_ & Hnd & _). apply (Hnd (AKey a')); [by apply list_elem_of_fmap_2|].
    rewrite Forall_forall in Hwf. rewrite (KeyString_inj (AKey a') (AKey a)); [by left| | |done];
      apply Hwf; rewrite Hl; set_solver.
  - split; [by split|]. by intros a ?%elem_of_nil.
Qed.

(** ** The pass *)

Definition saved_submap (f : Mapping → Mapping * Z) : M W () :=
  do r ← get; let '(m, n) := f (mapping r) in
  do _ ← modify (λ r, set_mapping r m); if 0 <? n then save else ret ().

Lemma wp_submap (f : Mapping → Mapping * Z) s :
  (∀ m, Topics (f m).1 ⊆ Topics m) → Ready s →
  wp (saved_submap f) (λ _ s', Ready s' ∧ mapping s'.1 = (f (mapping s.1)).1 ∧
    force s'.1 = force s.1 ∧ ragents s'.1 = ragents s.1) s.
Proof.
  intros Hf ([H Ha] & Hr & Hrights). destruct s as [r w]. unfold saved_submap. wp_steps.
  specialize (Hf (mapping r)). destruct (f (mapping r)) as [m n]. cbn [fst] in Hf. wp_steps.
  assert (Ready (set_mapping r m, w)).
  { split_and!; [split; [by eapply InStep_sub|done]|done|done]. }
  case_match; wp_steps; split_and!; try done. by apply Ready_saved.
Qed.

(** [Prune] keeps live entries and is idempotent. *)
Lemma Prune_live m :
  Topics (Prune m mappingMaxEntries).1 ⊆ Topics m ∧
  (∀ key e, Topics m !! key = Some e → Live (EStatus e) = true →
     Topics (Prune m mappingMaxEntries).1 !! key = Some e) ∧
  (Z.of_nat (size (Topics (Prune m mappingMaxEntries).1)) ≤ mappingMaxEntries ∨
   ∀ key e, Topics (Prune m mappingMaxEntries).1 !! key = Some e → Live (EStatus e) = true).
Proof.
  destruct (decide (Z.of_nat (size (Topics m)) ≤ mappingMaxEntries)) as [Hle|Hgt].
  { unfold Prune. rewrite (proj2 (Z.leb_le _ _) Hle), orb_true_r. split_and!; try done. by left. }
  destruct (Prune m mappingMaxEntries) as [m' n] eqn:E. cbn [fst].
  apply Prune_split in E as (l1 & l2 & Ht & _ & Hcap & _ & _ & Hl); [|done|lia].
  assert (Hx : ∀ key, key ∈ l1.*1 → ∃ e, Topics m !! key = Some e ∧ Live (EStatus e) = false).
  { intros key ([k a] & -> & Hk)%list_elem_of_fmap.
    destruct (proj1 (Hl k a)) as (e & ? & ? & _); [set_solver|]. by exists e. }
  split_and!.
  - apply map_subseteq_spec. intros k e. rewrite Ht. by intros [? _]%delete_keys_lookup.
  - intros key e He Hlv. rewrite Ht. apply delete_keys_lookup. split; [done|].
    intros (e' & ? & ?)%Hx. congruence.
  - destruct Hcap as [->|]; [|by left]. right. intros key e. rewrite Ht.
    intros [He Hk]%delete_keys_lookup. destruct (Live (EStatus e)) eqn:Hlv; [done|].
    exfalso. apply Hk, list_elem_of_fmap. exists (key, UpdatedAt e). split; [done|].
    assert ((key, UpdatedAt e) ∈ l1 ++ []) as Hin by (apply Hl; eauto). by rewrite app_nil_r in Hin.
Qed.

Lemma live_agents_lookup live a : NoDup (AKey <$> live) → a ∈ live → live_agents live !! AKey a = Some a.
Proof.
  unfold live_agents. induction live as [|b live IH] using rev_ind; [set_solver|].
  rewrite fmap_app, foldl_app. cbn [foldl fmap list_fmap].
  intros (Hnd & Hd & _)%NoDup_app [Ha| ->%list_elem_of_singleton]%elem_of_app.
  - rewrite lookup_insert_ne; [by apply IH|]. intros E. apply (Hd (AKey a)); [by apply list_elem_of_fmap_2|].
    rewrite <-E. by left.
  - apply lookup_insert_eq.
Qed.

(** What a pass leaves behind: the mapping is settled for the agents. *)
Record Settled (live : list Agent) (strict : bool) (s : Reconciler * W) : Prop := {
  settled_ready : Ready s;
  settled_agents : ragents s.1 = live_agents live;
  settled_force : force s.1 = strict;
  settled_shows a : a ∈ live → shows a strict (TopicFor (mapping s.1) (AKey a));
  settled_orphans : no_orphan (list_to_set (AKey <$> live)) (mapping s.1);
  settled_unclosed : no_unclosed (mapping s.1);
  settled_size : Z.of_nat (size (Topics (mapping s.1))) ≤ mappingMaxEntries ∨
    ∀ key e, Topics (mapping s.1) !! key = Some e → Live (EStatus e) = true
}.

Lemma wp_and_then m k (P : Reconciler * W → Prop) Q s :
  wp m (λ err s', err = None ∧ P s') s → (∀ s', P s' → wp k Q s') → wp (and_then m k) Q s.
Proof.
  intros Hm Hk. unfold and_then. apply rwp_bind. eapply rwp_mono; [|done].
  intros err s' [-> HP]. by apply Hk.
Qed.

Lemma pass_settles live s :
  Ready s → Forall wf_agent live → NoDup (AKey <$> live) →
  wp (Reconcile live) (λ err s', err = None ∧ Settled live (force s.1) s') s.
Proof.
  intros H Hwf Hnd. unfold Reconcile. apply rwp_bind. unfold wp at 1. rewrite Ready_blocked by done.
  cbn [fst snd]. cbv iota. unfold reconcile_pass. apply rwp_bind.
  eapply rwp_mono; [|apply (wp_submap DedupeThreads); [intros; apply map_filter_subseteq|done]].
  cbn beta. intros _ s1 (H1 & _ & Hf1 & _). apply rwp_bind, wp_modify.
  set (s2 := (set_ragents _ _, _)). assert (H2 : Ready s2).
  { destruct H1 as ([Hi _] & ? & ?). split_and!; [|done..]. split; [done|]. by apply agents_ok_live. }
  apply rwp_bind, wp_get. eapply wp_and_then; [by apply orphans_loop|].
  intros s3 (H3 & Hf3 & Ha3 & Ho3). apply rwp_bind, wp_get.
  eapply wp_and_then; [by apply unclosed_loop|].
  intros s4 (H4 & Hf4 & Ha4 & Hc4 & Hu4).
  assert (Hperm : merge_sort agent_le live ≡ₚ live) by apply merge_sort_Permutation.
  assert (Hag : ragents s4.1 = live_agents live) by (rewrite Ha4, Ha3; done).
  eapply wp_and_then; [apply agents_loop; [done|by rewrite Hperm|by rewrite Hperm|]|].
  { intros a. rewrite Hperm, Hag. by apply live_agents_lookup. }
  intros s5 (Hfr & Hs5). apply rwp_bind.
  eapply rwp_mono; [|apply (wp_submap (λ m, Prune m mappingMaxEntries)); [intros m; apply Prune_live|apply Hfr]].
  cbn beta. intros _ s6 (H6 & Hm6 & Hf6 & Ha6). apply wp_ret. split; [done|].
  destruct (Prune_live (mapping s5.1)) as (Hsub & Hlive & Hsize). rewrite <-Hm6 in Hsub, Hlive, Hsize.
  assert (Hf5 : force s5.1 = force s.1).
  { rewrite (fall_force _ _ _ Hfr), Hf4, Hf3. done. }
  assert (Hold : ∀ key e, Topics (mapping s6.1) !! key = Some e →
    (∃ a, a ∈ live ∧ KeyString (AKey a) = key ∧ Live (EStatus e) = true) ∨ Topics (mapping s4.1) !! key = Some e).
  { intros key e He. eapply lookup_weaken in He; [|done].
    destruct (decide (key ∈ KeyString ∘ AKey <$> merge_sort agent_le live)) as [Hk|Hk].
    - left. apply list_elem_of_fmap in Hk as (a & -> & Ha). exists a. rewrite <-Hperm. split_and!; [done..|].
      destruct (Hs5 a Ha) as (e' & He' & ? & _). unfold TopicFor in He'. cbn in He. congruence.
    - right. by rewrite <-(fall_topics _ _ _ Hfr). }
  split; [done| | | | | |done].
  - by rewrite Ha6, (fall_agents _ _ _ Hfr).
  - by rewrite Hf6.
  - intros a Ha. rewrite <-Hperm in Ha. destruct (Hs5 a Ha) as (e & He & Hl & Hd).
    exists e. unfold TopicFor in *. split_and!; [by apply Hlive|done|]. intros Hor. apply Hd.
    by rewrite Hf4, Hf3; change (force s2.1) with (force s1.1); rewrite Hf1.
  - intros key e He Hl Hm. destruct (Hold key e He) as [(a & Ha & Hk & _)|He4].
    + exists (AKey a). split; [|done]. apply elem_of_list_to_set, list_elem_of_fmap. by exists a.
    + destruct (Hc4 _ _ He4) as (e3 & He3 & Hst & Hmu & _). apply (Ho3 key e3); congruence.
  - intros key e He Hl Hm. destruct (Hold key e He) as [(a & Ha & Hk & Hx)|He4]; [congruence|].
    by apply (Hu4 key e).
Qed.

(** C1: a pass over a forum that answers makes the forum show the agents.
    Whatever happened before, as long as the mapping is in step with the forum
    and the bot has the right to manage topics: the pass succeeds; every live agent has one topic, with the agent's name
    and status icon and open, unless the operator muted it (under [Resync] even
    a muted topic gets its name and icon); every other topic the operator did
    not mute belongs to a gone agent and is closed; and at most 500 entries
    stay, or none of a gone agent. *)
Theorem Reconcile_converges live s :
  Inv s → ready s.2 → rightsLost s.1 = false →
  Forall wf_agent live → NoDup (AKey <$> live) →
  let '(s', err) := Reconcile live s in
  let m' := mapping s'.1 in
  err = None ∧ InStep m' (forum s'.2) ∧
  (∀ a, a ∈ live → ∃ e ft, TopicFor m' (AKey a) = Some e ∧ forum s'.2 !! ThreadID e = Some ft ∧
     (Muted e = false ∨ force s.1 = true → (FTName ft, FTStatus ft) = Desired a) ∧
     (Muted e = false → FTClosed ft = false)) ∧
  (∀ key e, Topics m' !! key = Some e → Muted e = false →
     (∀ a, a ∈ live → KeyString (AKey a) ≠ key) →
     Live (EStatus e) = false ∧
     ∃ ft, forum s'.2 !! ThreadID e = Some ft ∧ FTName ft = EName e ∧ FTClosed ft = true) ∧
  (Z.of_nat (size (Topics m')) ≤ mappingMaxEntries ∨
     ∀ key e, Topics m' !! key = Some e → Live (EStatus e) = true).
Proof.
  intros Hi Hr Hrights Hwf Hnd.
  pose proof (pass_settles live s (conj Hi (conj Hr Hrights)) Hwf Hnd) as H. unfold wp in H.
  destruct (Reconcile live s) as [s' err]. cbn [fst snd] in H. destruct H as [-> [[[HI _] _] _ _ Hs Ho Hu Hz]].
  split_and!; [done|done| | |done].
  - intros a Ha. destruct (Hs a Ha) as (e & He & Hl & Hd).
    destruct (InStep_topic _ _ _ _ HI He) as (ft & HF & [Hn Hst Hc Hm Hlv]).
    exists e, ft. split_and!; [done|done| |].
    + intros Hor. rewrite Hn, Hst by done. by apply Hd.
    + intros Hmu. by rewrite Hc, Hlv.
  - intros key e He Hm Hno. destruct (Live (EStatus e)) eqn:Hl.
    { exfalso. destruct (Ho key e He Hl Hm) as (k & Hk & <-).
      apply elem_of_list_to_set, list_elem_of_fmap in Hk as (a & -> & Ha). by apply (Hno a). }
    split; [done|]. destruct (step_entry _ _ HI key e He) as (ft & HF & [Hn Hst Hc _ _]).
    exists ft. split_and!; [done..|]. rewrite Hc by done. by apply (Hu key e).
Qed.

(** ** A second pass *)

Lemma each_ret {A} (f : A → M W (option error)) (P : Reconciler * W → Prop) l s :
  (∀ x s, x ∈ l → P s → wp (f x) (λ err s', err = None ∧ P s') s) → P s →
  wp (each f l) (λ err s', err = None ∧ P s') s.
Proof.
  intros Hf HP. eapply rwp_mono; [|apply (rwp_each f (λ _, P))]; [done| |done].
  intros dn x rest s1 Hl HP1. apply Hf; [|done]. rewrite Hl. set_solver.
Qed.

Lemma DedupeThreads_unique m F : InStep m F → DedupeThreads m = (m, 0).
Proof.
  intros H. unfold DedupeThreads.
  assert (Hb : ∀ key e, Topics m !! key = Some e → best_keys m !! ThreadID e = Some key).
  { intros key e He. destruct (best_keys_some _ _ _ He) as [key' Hk]. rewrite Hk.
    apply best_keys_spec in Hk as (e' & He' & Ht & _). f_equal. by eapply (step_unique _ _ H). }
  rewrite map_filter_id by (intros key e He; by apply Hb).
  rewrite (map_empty_filter_2 _ (Topics m)); [by destruct m|].
  intros key e He Hne. by apply Hne, Hb.
Qed.

Lemma Prune_settled m :
  (Z.of_nat (size (Topics m)) ≤ mappingMaxEntries ∨
     ∀ key e, Topics m !! key = Some e → Live (EStatus e) = true) →
  Prune m mappingMaxEntries = (m, 0).
Proof.
  intros H. unfold Prune. destruct (Z.leb_spec (Z.of_nat (size (Topics m))) mappingMaxEntries) as [|Hgt];
    [by rewrite orb_true_r|]. destruct H as [H|H]; [lia|].
  replace (exited_entries (Topics m)) with (@nil (string * Time)); [by destruct m|].
  symmetry. destruct (exited_entries (Topics m)) as [|[k a] l] eqn:E; [done|].
  assert ((k, a) ∈ exited_entries (Topics m)) as (e & He & Hl & _)%elem_of_exited_entries
    by (rewrite E; left).
  apply H in He. congruence.
Qed.

Lemma Orphans_settled live m :
  (∀ k, k ∈ live → wf_key k) → no_orphan live m → Orphans m live = [].
Proof.
  intros Hwf Ho. unfold Orphans. destruct (List.filter _ _) as [|k l] eqn:E; [done|].
  assert (k ∈ k :: l) as Hk by left. rewrite <-E in Hk. apply elem_of_list_filter in Hk as [Hf Hk].
  destruct (TopicFor m k) as [e|] eqn:He; [|done].
  destruct (Live (EStatus e)) eqn:Hl, (Muted e) eqn:Hm; try done. cbn in Hf.
  apply bool_decide_eq_true in Hf. destruct (Ho _ e He Hl Hm) as (k' & Hk' & Hs).
  apply elem_of_Keys in Hk as (key & _ & Hp). pose proof (ParseKey_Some _ _ Hp) as Hkey.
  pose proof (ParseKey_KeyString k' (Hwf k' Hk')) as Hp'. rewrite Hs, Hkey in Hp'. congruence.
Qed.

Lemma Unclosed_settled m : no_unclosed m → Unclosed m = [].
Proof.
  intros Hu. unfold Unclosed. destruct (List.filter _ _) as [|k l] eqn:E; [done|].
  assert (k ∈ k :: l) as Hk by left. rewrite <-E in Hk. apply elem_of_list_filter in Hk as [Hf _].
  destruct (TopicFor m k) as [e|] eqn:He; [|done].
  destruct (Live (EStatus e)) eqn:Hl, (Closed e) eqn:Hc, (Muted e) eqn:Hm; try done.
  by rewrite (Hu _ e He Hl Hm) in Hc.
Qed.

(** Nothing but the pending edits moved. *)
Definition still (live : list Agent) (s0 s : Reconciler * W) : Prop :=
  s.2 = s0.2 ∧ mapping s.1 = mapping s0.1 ∧ view s.1 = view s0.1 ∧
  ragents s.1 = live_agents live ∧ force s.1 = false.

Lemma reconcile_agent_still live s0 a s :
  NoDup (AKey <$> live) → a ∈ live → still live s0 s →
  shows a false (TopicFor (mapping s0.1) (AKey a)) →
  wp (reconcile_agent a) (λ err s', err = None ∧ still live s0 s') s.
Proof.
  intros Hnd Ha (Hw & Hm & Hv & Hag & Hf) (e & He & Hl & Hd). destruct s as [r w]. cbn [fst snd] in *.
  unfold reconcile_agent. apply rwp_bind, wp_get. cbn [fst]. rewrite Hm, He, Hl. cbn [negb].
  apply rwp_bind, wp_cancel. unfold edit. apply rwp_bind, wp_get.
  cbn [fst snd ragents mapping force set_deb]. rewrite Hag, live_agents_lookup, Hm, He, Hf by done.
  assert (still live s0 (set_deb r (Cancel (deb r) (AKey a)).1, w)) as Hst by (by split_and!).
  destruct (Muted e); [by apply wp_ret|]. cbn [andb].
  replace (Diff (mapping s0.1) (AKey a) a) with (mkPatch None None, false); [by apply wp_ret|].
  unfold TopicFor in He. unfold Diff. rewrite He, Hl. cbn [negb].
  specialize (Hd (or_introl eq_refl)). unfold Desired in *. injection Hd as -> ->.
  by rewrite !String.eqb_refl.
Qed.

(** C3: a pass is idempotent, as its comment says: after one pass over a
    forum that answers, a second pass for the same agents makes no call to
    Telegram or the store and leaves the mapping and the published view as they
    are. *)
Theorem Reconcile_idempotent live s :
  Inv s → ready s.2 → rightsLost s.1 = false → force s.1 = false →
  Forall wf_agent live → NoDup (AKey <$> live) →
  let s1 := (Reconcile live s).1 in
  let '(s2, err) := Reconcile live s1 in
  err = None ∧ s2.2 = s1.2 ∧ mapping s2.1 = mapping s1.1 ∧ view s2.1 = view s1.1.
Proof.
  intros Hi Hr Hrights Hforce Hwf Hnd s1.
  pose proof (pass_settles live s (conj Hi (conj Hr Hrights)) Hwf Hnd) as [_ H].
  fold s1 in H. rewrite Hforce in H. destruct H as [Hready Hag Hf Hs Ho Hu Hz]. clearbody s1.
  assert (wp (Reconcile live) (λ err s', err = None ∧ still live s1 s') s1) as H2.
  { unfold Reconcile. apply rwp_bind. unfold wp at 1. rewrite Ready_blocked by done.
    cbn [fst snd]. cbv iota. destruct s1 as [r w]. cbn [fst snd] in *.
    unfold reconcile_pass, dedupe, prune.
    pose proof (DedupeThreads_unique _ _ (proj1 (proj1 Hready))) as Hdd.
    wp_steps. rewrite Hdd. wp_steps. change (0 <? 0) with false. cbv iota. wp_steps.
    rewrite Orphans_settled; [|intros k [a [-> Ha]]%elem_of_list_to_set%list_elem_of_fmap|done].
    2: { rewrite Forall_forall in Hwf. by apply Hwf. }
    cbn [each]. unfold and_then. wp_steps. rewrite Unclosed_settled by done. cbn [each]. wp_steps.
    eapply rwp_mono; [|apply (each_ret _ (still live (r, w))); [|by split_and!]].
    2: { intros a s2 Ha Hst. rewrite merge_sort_Permutation in Ha. apply reconcile_agent_still; auto. }
    cbn beta. intros err [r' w'] [-> (Hw & Hm & Hv & Hag' & Hf')]. cbn [fst snd] in *. wp_steps.
    rewrite Hm, Prune_settled by done. wp_steps. change (0 <? 0) with false. cbv iota. wp_steps. by split_and!. }
  unfold wp in H2. destruct (Reconcile live s1) as [s2 err]. cbn [fst snd] in H2. destruct H2 as (-> & ? & ? & ? & _).
  by split_and!.
Qed.
End conv.

(** ** Witnesses *)

#[local] Existing Instance latin1_tables.

Definition two_agents : list Agent := [sim_agent "p1" StatusWorking; sim_agent "p2" StatusIdle].
Definition start : Reconciler * Sim := (NewReconciler (NewMapping (-100)), sim_start).

Lemma two_agents_ok : Forall wf_agent two_agents ∧ NoDup (AKey <$> two_agents).
Proof.
  split; [repeat constructor; by apply sim_agent_ok|].
  apply NoDup_cons. split; [by intros ?%list_elem_of_singleton|apply NoDup_singleton].
Qed.

Lemma Reconcile_converges_witness :
  (Reconcile two_agents start).2 = None.
Proof.
  pose proof (Reconcile_converges two_agents start) as H.
  destruct (Reconcile two_agents start) as [s' err].
  apply H; [by apply sim_start_inv|reflexivity|reflexivity|apply two_agents_ok|apply two_agents_ok].
Defined.

Lemma Reconcile_idempotent_witness :
  let s1 := (Reconcile two_agents start).1 in
  let '(s2, err) := Reconcile two_agents s1 in
  err = None ∧ s2.2 = s1.2 ∧ mapping s2.1 = mapping s1.1 ∧ view s2.1 = view s1.1.
Proof.
  exact (Reconcile_idempotent two_agents start (sim_start_inv start.1 eq_refl eq_refl) eq_refl eq_refl eq_refl
    (proj1 two_agents_ok) (proj2 two_agents_ok)).
Defined.
