(* ===== verification/Mirror.v ===== *)
(** The daemon loop and its reconciler together.

    [runs] is the loop of Daemon.v with the reconciler of Reconciler.v behind
    the operations of [recE], on a world with the gateway of the reconciler and
    the other ports of the loop. *)
From S2P Require Import Prelude GoStrings Errors Status Mapping Config OptionRegistry Presence Events Registry TgErrors AppText.
From S2P Require Import Reconciler ReconcilerLaws ReconcilerProps.
From S2P Require Import Eff AppPorts Bridge DaemonPorts Dashboard Daemon.

Local Open Scope Z_scope.

(** The other ports of the loop. *)
Class Ports (W : Type) := port : ∀ B, daemonE B → W → W * B.

Section Mirror.
Context {U : UnicodeTables} {W : Type} `{!Gateway W, !Ports W} (error_text : error → string).

Definition rec_run {B} (o : recE B) : M W B :=
  match o in recE B return M W B with
  | RecHandle ev => Reconciler.Handle ev
  | RecFire key => Reconciler.Fire key
  | RecFlush => Flush
  | RecReconcile live => Reconcile live
  | RecResync live => Reconciler.Resync live
  | RecSweep maxAge can => Sweep maxAge can
  | RecTopicClosed thread => OnTopicClosed thread
  | RecTopicReopened thread => OnTopicReopened thread
  | RecTopicRenamed thread name => OnTopicRenamed error_text thread name
  | RecSetReadOnly ro => SetReadOnly ro
  | RecReadOnly => λ s, (s, rightsLost s.1)
  | RecSetDashboardID id => SetDashboardID id
  | RecDashboardID => λ s, (s, Mapping.Dashboard (mapping s.1))
  end.

(** The topic view the loop shows is the published one. *)
Definition answer {B} (o : daemonE B) : M W B :=
  match o in daemonE B return M W B with
  | Rec r => rec_run r
  | App a =>
    match a in appE B return M W B with
    | EntryOf key => λ s, (s, view_entry (view s.1) key)
    | KeyOfThread thread => λ s, (s, view_thread (view s.1) thread)
    | a => λ s, let '(w, b) := port _ (App a) s.2 in ((s.1, w), b)
    end
  | o => λ s, let '(w, b) := port _ o s.2 in ((s.1, w), b)
  end.

(** A program of the loop, run with the reconciler. *)
Fixpoint runs {A} (p : prog daemonE Daemon A) (d : Daemon) (s : Reconciler * W) : Daemon * (Reconciler * W) * A :=
  match p with
  | Ret a => (d, s, a)
  | Vis o k => let '(s', b) := answer o s in runs (k b) d s'
  | Upd f k => runs (k (f d).2) (f d).1 s
  end.
End Mirror.

(** ** The reconciler keeps its contract *)

(** An error that means a migration names the new chat, as the ones of
    errors.go do ([translate_known]). *)
Definition known (e : error) : Prop := errors_is e ErrChatMigrated = true → is_Some (errors_as pick_chat e).
Definition known_err (err : option error) : Prop := from_option known True err.

Class KnownErrors (W : Type) `{!Gateway W} := {
  known_create w name st w' e : tg_create w name st = (w', Err e) → known e;
  known_edit w tid p : known_err (tg_edit w tid p).2;
  known_close w tid : known_err (tg_close w tid).2;
  known_reopen w tid : known_err (tg_reopen w tid).2
}.

Lemma translate_known {U : UnicodeTables} error_string e : raw e → known (translate error_string e).
Proof.
  intros Hraw. destruct (raw_core e Hraw) as (Hsc & _ & _). destruct (raw_plain e Hraw) as [_ Hsen]. unfold known.
  destruct (translate_cases error_string e Hraw) as [m s Ec|id Ec|f s Ec Hin|g Ec Hg|Ec|Hf Ht Hm].
  all: rewrite ?Hsen; try done.
  - by rewrite errors_is_api, Hsen.
  - rewrite errors_is_wrap2, Hsen, orb_false_r.
    repeat (apply elem_of_cons in Hin as [[= -> ->]|Hin]; [done|]). by apply elem_of_nil in Hin.
  - rewrite errors_is_wrap2, Hsen, orb_false_r. by destruct Hg as [-> | ->].
  - by rewrite errors_is_api, Hsen.
Qed.

Section contract.
Context {U : UnicodeTables} {W : Type} `{!Gateway W, !KnownErrors W} (error_text : error → string).

(** The errors a handler lets out are those of the contract. *)
Definition absorbs (m : M W (option error)) : Prop := ∀ s, from_option rec_error True (m s).2.

Lemma absorbs_ok : absorbs ok.
Proof. by intros s. Qed.

Lemma absorbs_bind {A} (m : M W A) f : (∀ x, absorbs (f x)) → absorbs (Reconciler.bind m f).
Proof. intros H s. unfold Reconciler.bind. destruct (m s). apply H. Qed.

Lemma absorbs_call {A} (f : W → W * A) k :
  (∀ w, absorbs (k (f w).2)) → absorbs (Reconciler.bind (Reconciler.call f) k).
Proof.
  intros H s. unfold Reconciler.bind, Reconciler.call. specialize (H s.2). destruct (f s.2) as [w x]. apply H.
Qed.

Lemma absorbs_and_then m k : absorbs m → absorbs k → absorbs (and_then m k).
Proof.
  intros Hm Hk s. unfold and_then, Reconciler.bind. specialize (Hm s). destruct (m s) as [s' [e|]]; [exact Hm|apply Hk].
Qed.

Lemma absorbs_each {A} (f : A → M W (option error)) l : (∀ x, absorbs (f x)) → absorbs (Reconciler.each f l).
Proof. intros H. induction l as [|x l IH]; [apply absorbs_ok|]. by apply (absorbs_and_then (f x)). Qed.

Lemma absorbs_fail key method e : known e → absorbs (Reconciler.fail key method e).
Proof.
  intros Hk s. unfold Reconciler.fail.
  assert (Hwrap : ∀ c : error → bool, c (with_method method e) = c e → c e = true → c (with_method method e) = true) by congruence.
  destruct (errors_is e ErrTopicGone); [by apply absorbs_bind; intros; apply absorbs_bind; intros; apply absorbs_ok|].
  destruct (errors_is e ErrTopicClosed); [done|].
  destruct (errors_is e ErrForbidden || errors_is e ErrBotUnauthorized || errors_is e ErrPollerConflict) eqn:Ef.
  { left. unfold isFatal, with_method. rewrite !errors_is_wrap.
    destruct (errors_is e ErrForbidden), (errors_is e ErrBotUnauthorized), (errors_is e ErrPollerConflict); done. }
  destruct (errors_is e ErrChatMigrated) eqn:Em.
  { right. left. unfold with_method. rewrite errors_as_wrap by done. by apply Hk. }
  destruct (context_error e) eqn:Ec; [|done].
  right. right. unfold with_method. unfold context_error in *. by rewrite !is_foreign_wrap.
Qed.

(** A call on a topic that ends in [fail]. *)
Lemma absorbs_topic_call (f : W → W * option error) key method k :
  (∀ w, known_err (f w).2) → absorbs k →
  absorbs (Reconciler.bind (Reconciler.call f) (λ err, match err with Some e => Reconciler.fail key method e | None => k end)).
Proof.
  intros Hf Hk. apply absorbs_call. intros w. specialize (Hf w). destruct (f w).2 as [e|]; [by apply absorbs_fail|exact Hk].
Qed.

Ltac absorbs :=
  repeat first
    [ apply absorbs_ok
    | assumption
    | match goal with
      | |- ∀ _, _ => intro
      | |- absorbs (and_then _ _) => apply absorbs_and_then
      | |- absorbs (Reconciler.each _ _) => apply absorbs_each
      | |- absorbs (Reconciler.bind (Reconciler.call _) (λ e, match e with Some e => Reconciler.fail _ _ e | None => _ end)) =>
        apply absorbs_topic_call; [intros; first [apply known_edit|apply known_close|apply known_reopen]|]
      | |- absorbs (Reconciler.bind _ _) => apply absorbs_bind
      | |- absorbs (match ?x with _ => _ end) => destruct x eqn:?
      end ].

Lemma absorbs_createTopic a : absorbs (createTopic a).
Proof.
  unfold createTopic. destruct (Desired a) as [name st]. apply absorbs_call. intros w.
  destruct (tg_create w name st) as [w' [t|e]] eqn:E; cbn [snd]; [absorbs|]. apply absorbs_fail. by eapply known_create.
Qed.

Lemma absorbs_revive_open a entry : absorbs (revive_open a entry).
Proof. unfold revive_open. absorbs. Qed.

Lemma absorbs_revive a entry : absorbs (revive a entry).
Proof.
  unfold revive. destruct (Closed entry); [|apply absorbs_revive_open]. apply absorbs_call. intros w.
  pose proof (known_reopen w (ThreadID entry)) as Hk. destruct (tg_reopen w (ThreadID entry)).2 as [e|]; [|apply absorbs_revive_open].
  destruct (errors_is e ErrTopicGone); [apply absorbs_bind; intros; apply absorbs_createTopic|by apply absorbs_fail].
Qed.

Lemma absorbs_create a : absorbs (create a).
Proof. unfold create. absorbs; first [apply absorbs_revive|apply absorbs_createTopic]. Qed.

Lemma absorbs_edit key : absorbs (edit key).
Proof. unfold edit. absorbs; apply absorbs_create. Qed.

Lemma absorbs_close key : absorbs (Reconciler.close key).
Proof. unfold Reconciler.close. absorbs. Qed.

Lemma absorbs_mark_exited key entry : absorbs (mark_exited_and_close key entry).
Proof. unfold mark_exited_and_close. absorbs. apply absorbs_close. Qed.

Lemma absorbs_exit key : absorbs (exit key).
Proof. unfold exit. absorbs; first [apply absorbs_mark_exited|apply absorbs_close]. Qed.

Lemma absorbs_finish key : absorbs (Reconciler.finish key).
Proof. unfold Reconciler.finish. absorbs; apply absorbs_mark_exited. Qed.

Lemma absorbs_Handle ev : absorbs (Handle ev).
Proof. unfold Handle. absorbs; first [apply absorbs_create|apply absorbs_edit|apply absorbs_exit]. Qed.

Lemma absorbs_Flush : absorbs Flush.
Proof. unfold Flush. absorbs; apply absorbs_edit. Qed.

Lemma absorbs_Reconcile live : absorbs (Reconcile live).
Proof.
  unfold Reconcile, reconcile_pass, exit_orphan, reconcile_agent.
  absorbs; first [apply absorbs_create|apply absorbs_edit|apply absorbs_exit|apply absorbs_close].
Qed.

(** What follows only hands the error on. *)
Lemma absorbs_last {A} (m : M W (option error)) (f : M W A) :
  absorbs m → absorbs (Reconciler.bind m (λ err, Reconciler.bind f (λ _, ret err))).
Proof.
  intros Hm s. unfold Reconciler.bind. specialize (Hm s). destruct (m s) as [s1 err]. by destruct (f s1).
Qed.

Lemma absorbs_Resync live : absorbs (Reconciler.Resync live).
Proof. apply absorbs_bind. intros _. apply absorbs_last, absorbs_Reconcile. Qed.

Lemma absorbs_OnTopicClosed tid : absorbs (OnTopicClosed tid).
Proof. unfold OnTopicClosed. absorbs. Qed.

Lemma absorbs_forced m : absorbs m → absorbs (forced m).
Proof. intros Hm. apply absorbs_bind. intros was. apply absorbs_bind. intros _. by apply absorbs_last. Qed.

Lemma absorbs_OnTopicReopened tid : absorbs (OnTopicReopened tid).
Proof.
  unfold OnTopicReopened. apply absorbs_bind; intros r. destruct (KeyForThread _ _) as [key|]; [|apply absorbs_ok].
  do 3 (apply absorbs_bind; intros _). destruct (ragents r !! key); [|apply absorbs_finish].
  apply absorbs_bind; intros _. apply absorbs_forced, absorbs_edit.
Qed.

Definition absorbs_with {A} (m : M W (A * option error)) : Prop := ∀ s, from_option rec_error True (m s).2.2.

Lemma absorbs_OnTopicRenamed tid name : absorbs_with (OnTopicRenamed error_text tid name).
Proof.
  intros s. unfold OnTopicRenamed, renameTab, renameAgent, renameFailed, record_name, schedule, update_mapping, save.
  unfold Reconciler.bind, Reconciler.get, ret, Reconciler.call, asks, Reconciler.modify, ok.
  repeat (case_match; simplify_eq/=; try done). all: unfold ret in *; by simplify_eq/=.
Qed.

Lemma absorbs_Sweep maxAge can : absorbs_with (Sweep maxAge can).
Proof.
  intros s. unfold Sweep, Reconciler.bind, Reconciler.get, ret, asks, Reconciler.modify.
  repeat (case_match; simplify_eq/=; try done). all: right; right; done.
Qed.

(** The error of every handler is fatal, a migration with its new chat, or the
    end of the context. *)
Lemma rec_run_contract {B} (o : recE B) (s : Reconciler * W) : rec_contract o (rec_run error_text o s).2.
Proof.
  destruct o; cbn; try done.
  - apply absorbs_Handle.
  - apply absorbs_edit.
  - apply absorbs_Flush.
  - apply absorbs_Reconcile.
  - apply absorbs_Resync.
  - apply absorbs_Sweep.
  - apply absorbs_OnTopicClosed.
  - apply absorbs_OnTopicReopened.
  - apply absorbs_OnTopicRenamed.
Qed.

Context `{!Ports W}.

Lemma rec_answer_legal {B} (o : daemonE B) (s : Reconciler * W) h : daemon_legal h B o (answer error_text o s).2.
Proof. destruct o; try done. apply rec_run_contract. Qed.

(** C10: the loop with the reconciler of Reconciler.v behind it refines the loop
    over any reconciler that keeps the contract. However the calls fail, as long
    as the gateway names the new chat in the errors that mean a migration, every
    run of a program of the loop on the real reconciler is a run of that program
    in which each answer is one the contract allows; so what is proved of the
    loop by itself ([daemon_ends_for_a_reason]) holds of the two together. *)
Theorem mirror_refines_loop {A} (p : prog daemonE Daemon A) d (s : Reconciler * W) h :
  ∃ h', exec daemon_legal p (mkWorld d h) (runs error_text p d s).2 (mkWorld (runs error_text p d s).1.1 (h' ++ h)).
Proof.
  revert d s h. induction p as [a|B o k IH|B f k IH]; intros d s h; cbn [runs].
  - exists []. constructor.
  - pose proof (rec_answer_legal o s h) as Hlegal. destruct (answer error_text o s) as [s' b].
    destruct (IH b d s' (Ev o b :: h)) as [h' He]. exists (h' ++ [Ev o b]). rewrite <-app_assoc.
    by apply (exec_vis _ o k (mkWorld d h) b).
  - destruct (IH (f d).2 (f d).1 s h) as [h' He]. exists h'. by apply (exec_upd _ f k (mkWorld d h)).
Qed.
End contract.

(** ** The mapping stays in step with the forum while the daemon runs *)

(** What the loop may ask in any state: the operator's actions on topics are
    asked only right after they happened, agents have keys Herdr produces, and
    writes are allowed again only if [grant] says so. *)
Definition calm (grant : bool) {B} (o : daemonE B) : Prop :=
  match o with
  | Rec r =>
    match r with
    | RecHandle ev => wf_agent (AEAgent ev)
    | RecReconcile live | RecResync live => Forall wf_agent live
    | RecTopicClosed _ | RecTopicReopened _ | RecTopicRenamed _ _ => False
    | RecSetReadOnly ro => ro || grant = true
    | _ => True
    end
  | _ => True
  end.

(** The registry hands over such agents. *)
Definition wf_answer {B} (o : daemonE B) : B → Prop :=
  match o in daemonE B return B → Prop with
  | App a => match a in appE B return B → Prop with LiveAgents => Forall wf_agent | _ => λ _, True end
  | RegistrySnapshot => λ r, Forall (λ ev, wf_agent (AEAgent ev)) r.1
  | _ => λ _, True
  end.

(** The other ports leave the topics alone, and so do General messages and the
    renaming of agents. *)
Class TopicsApart (W : Type) `{!Gateway W, !Forum W, !Ports W} := {
  port_forum {B} (o : daemonE B) w : forum (port B o w).1 = forum w;
  port_wf {B} (o : daemonE B) w : wf_answer o (port B o w).2;
  send_forum w thread text : forum (tg_send w thread text).1 = forum w;
  rename_forum w pane name : forum (herdr_rename w pane name).1 = forum w;
  rename_tab_forum w tab label : forum (herdr_rename_tab w tab label).1 = forum w
}.

Section guards.
Context (hashText : string → string) (error_text : error → string) (version : string) (zone : Z) (hasInbox : bool).
Context (SocketGrace : Duration) (dashChat : Z) {U : UnicodeTables} (grant : bool).
Local Notation prog := (prog daemonE).
Local Notation careful p := (guarded (@calm grant) (@wf_answer) p (λ _, True)).

Lemma careful_ask {S A B} (o : daemonE B) (k : B → prog S A) :
  calm grant o → (∀ b, wf_answer o b → careful (k b)) → careful (bind (call o) k).
Proof. by split. Qed.

Lemma careful_bind {S A B} (p : prog S A) (k : A → prog S B) : careful p → (∀ a, careful (k a)) → careful (bind p k).
Proof. intros Hp Hk. eapply guarded_bind; [exact Hp|]. intros a _. apply Hk. Qed.

Lemma careful_on_loop {S A} (p : Eff.prog appE S A) : careful (on_loop p).
Proof. induction p as [a|B o k IH|B f k IH]; [done|split; [done|intros b _; apply IH]|intros s; apply IH]. Qed.

Lemma careful_gets {S B} (f : S → B) : careful (gets f : prog S B).
Proof. done. Qed.

Ltac careful :=
  repeat first
    [ done
    | apply careful_on_loop
    | match goal with
      | |- ∀ _, _ => intro
      | |- guarded _ _ (each _ _) _ => apply guarded_each
      | |- guarded _ _ (dashed _) _ => apply guarded_zoom
      | |- guarded _ _ (bind (call _) _) _ => apply careful_ask
      | |- guarded _ _ (bind _ _) _ => apply careful_bind
      | |- guarded _ _ (match ?x with _ => _ end) _ => destruct x eqn:?
      end ].

Lemma careful_schedule : careful Schedule_dash.
Proof. unfold Schedule_dash, app, asked. careful. Qed.

Lemma careful_Observe ev : careful (Observe_dash ev).
Proof. unfold Observe_dash, app. apply careful_bind; [careful|intros; apply careful_schedule]. Qed.

Lemma careful_view chatID p : careful (dash_view chatID zone p).
Proof. unfold dash_view, app. careful. Qed.

Lemma careful_setID id : careful (setID id).
Proof. unfold setID, rec. careful. Qed.

Lemma careful_Stop chatID p : careful (Stop chatID zone p).
Proof. unfold Stop, app, rec, asked. careful. all: apply careful_view. Qed.

Lemma careful_remove id : careful (remove id).
Proof. unfold remove, forget_message, dash_failed, app, asked. careful. all: try apply careful_setID. Qed.

Lemma careful_create text hash : careful (dash_create text hash).
Proof. unfold dash_create, pin, dash_failed, app, asked. careful. all: apply careful_setID. Qed.

Lemma careful_refresh chatID p : careful (refresh hashText chatID zone p).
Proof.
  unfold refresh, app, rec. careful. all: first [apply careful_remove|apply careful_view|apply careful_create].
Qed.

Lemma careful_Repin : careful Repin.
Proof. unfold Repin, pin, app, rec, asked. careful. all: apply careful_setID. Qed.

(** ** The loop *)

Lemma careful_fatal e : careful (fatal error_text e).
Proof. unfold fatal, chat_quoted, notify, asked. careful. Qed.

Lemma careful_handleErr err : careful (handleErr error_text err).
Proof. unfold handleErr, notify, app, asked. careful. all: apply careful_fatal. Qed.

Lemma careful_checked (r : recE (option error)) : calm grant (Rec r) → careful (checked error_text (rec r)).
Proof. intros H. apply careful_ask; [done|]. intros err _. apply careful_handleErr. Qed.

Lemma careful_general text : careful (general text : prog Daemon unit).
Proof. unfold general, app. careful. Qed.

Lemma careful_replay force : careful (replay error_text force).
Proof.
  unfold replay. apply careful_ask; [done|]. intros snap Hsnap. apply careful_bind.
  { apply guarded_each. intros ev Hev. apply careful_checked. exact (proj1 (Forall_forall _ _) Hsnap ev Hev). }
  intros [e|]; [done|]. apply careful_bind; [by apply careful_checked|]. intros [e|]; [done|].
  apply careful_ask; [done|]. intros live Hl. by destruct force; apply careful_checked.
Qed.

Lemma careful_probe_operators ops reachable : careful (probe_operators error_text ops reachable).
Proof.
  revert reachable. induction ops as [|op ops IH]; intros reachable; [done|]. cbn [probe_operators]. unfold asked.
  careful; first [apply IH|apply careful_fatal].
Qed.

Lemma careful_probePager : careful (probePager error_text).
Proof. unfold probePager, app. careful; first [apply careful_probe_operators|apply careful_general]. Qed.

Lemma careful_runSweep : careful (runSweep error_text hasInbox).
Proof. unfold runSweep, sweepInbox, rec, app, asked. careful. all: apply careful_handleErr. Qed.

Lemma careful_checkRights : careful (checkRights error_text).
Proof. unfold checkRights, chat_quoted, notify, rec, asked. careful. all: apply careful_fatal. Qed.

Lemma careful_rightsChanged can : negb can || grant = true → careful (rightsChanged error_text can).
Proof.
  intros Hg. destruct can; unfold rightsChanged, chat_quoted, notify, rec, asked; careful; first [apply careful_general|apply careful_replay].
Qed.

Lemma careful_shutdown : careful (shutdown version zone dashChat).
Proof. unfold shutdown, rec. careful; first [apply careful_general|apply careful_Stop]. Qed.

Lemma careful_unless_error m : careful m → careful (unless_error m : prog Daemon flow).
Proof. intros Hm. by apply careful_bind. Qed.

Lemma careful_dash_schedule : careful dash_schedule.
Proof. apply guarded_zoom, careful_schedule. Qed.

Lemma careful_pass_on ev : careful (pass_on ev).
Proof. unfold pass_on, asked. careful. apply careful_Observe. Qed.

Lemma careful_pass_all evs : careful (pass_all evs).
Proof. induction evs as [|ev evs IH]; [done|]. apply careful_bind; [apply careful_pass_on|by intros []]. Qed.

Lemma careful_start : careful (start error_text version hasInbox).
Proof.
  unfold start, app, asked, start_reconcile. do 7 (apply careful_bind; [done|]; intros ?).
  apply careful_bind; [unfold applyNoticeDelay, asked; by careful|]. intros _. apply careful_unless_error.
  apply careful_bind; [apply careful_checkRights|]. intros [e|]; [done|].
  apply careful_bind; [apply careful_probePager|]. intros [e|]; [done|].
  apply careful_ask; [done|]. intros snap _. apply careful_bind.
  { apply careful_ask; [done|]. intros live Hl. by apply careful_checked. }
  intros [e|]; [done|]. apply careful_bind; [apply guarded_zoom, careful_Repin|]. intros _.
  apply careful_bind; [apply careful_dash_schedule|]. intros _. apply careful_bind; [apply careful_pass_all|]. intros _.
  apply careful_ask; [done|]. intros live _. apply careful_ask; [done|]. intros o _.
  apply careful_bind; [apply careful_general|]. intros _. apply careful_runSweep.
Qed.

(** A wake of the loop that is no action of the operator on a topic. *)
Definition calm_wake (w : wake) : Prop :=
  match w with
  | WEvent ev => wf_agent (AEAgent ev)
  | WTelegram (Some (EvTopicClosed _ | EvTopicReopened _ | EvTopicRenamed _ _)) => False
  | WTelegram (Some (EvRightsChanged can)) => negb can || grant = true
  | _ => True
  end.

Lemma careful_wakeup w : calm_wake w → careful (wakeup hashText error_text version zone hasInbox SocketGrace dashChat w).
Proof.
  destruct w as [|quiet|cause|ev|e| | | |key|[raw|]| | | |]; intros Hw; cbn [wakeup];
    try (apply careful_unless_error; first
      [ apply careful_runSweep | by apply careful_checked
      | apply careful_bind; [apply guarded_zoom, careful_refresh|intros; apply careful_handleErr] ]; fail).
  - by split.
  - apply careful_bind; [apply careful_dash_schedule|]. intros []. destruct quiet; [done|].
    apply careful_unless_error. unfold submit, asked. careful. apply careful_replay.
  - apply careful_bind; [apply careful_shutdown|done].
  - apply careful_unless_error. apply careful_bind; [by apply careful_checked|]. intros [e|]; [done|].
    apply careful_bind; [apply careful_pass_on|done].
  - apply careful_bind; [apply careful_shutdown|]. intros []. apply careful_unless_error, careful_fatal.
  - apply careful_bind; [done|]. intros []. apply careful_unless_error, careful_probePager.
  - apply careful_unless_error. destruct raw; try done; try (unfold onTelegramEvent, submit, asked; careful).
    by apply careful_rightsChanged.
  - done.
  - apply careful_bind; [done|]. intros []. apply careful_unless_error, careful_replay.
  - apply careful_bind; [done|]. intros []. apply careful_unless_error, careful_runSweep.
  - unfold reportDrops, socketGone, app, asked. careful; first [apply careful_general|apply careful_shutdown].
Qed.
End guards.

Section in_step.
Context (hashText : string → string) (error_text : error → string) (version : string) (zone : Z) (hasInbox : bool).
Context (SocketGrace : Duration) (dashChat : Z) {U : UnicodeTables} {W : Type}.
Context `{!Gateway W, !Forum W, !Ports W}.

Lemma runs_bind {A B} (p : prog daemonE Daemon A) (k : A → prog daemonE Daemon B) d s :
  runs error_text (bind p k) d s = let '(d', s', a) := runs error_text p d s in runs error_text (k a) d' s'.
Proof.
  revert d s. induction p as [a|C o q IH|C f q IH]; intros d s; cbn [bind runs]; [done| |apply IH].
  destruct (answer error_text o s) as [s' b]. apply IH.
Qed.

(** What every operation of a guarded program keeps, the program keeps. *)
Lemma runs_guarded (pre : ∀ B, daemonE B → Prop) (post : ∀ B, daemonE B → B → Prop) (I : Reconciler * W → Prop)
    {A} (p : prog daemonE Daemon A) Q d s :
  (∀ B (o : daemonE B) s, pre B o → I s → I (answer error_text o s).1 ∧ post B o (answer error_text o s).2) →
  guarded pre post p Q → I s → I (runs error_text p d s).1.2 ∧ Q (runs error_text p d s).2.
Proof.
  intros Hop. revert d s. induction p as [a|B o k IH|B f k IH]; intros d s Hp Hs; cbn [runs].
  - done.
  - destruct Hp as [Hpre Hk]. destruct (Hop B o s Hpre Hs) as [Hs' Hb]. destruct (answer error_text o s) as [s' b].
    by apply IH, Hs'; apply Hk.
  - by apply IH.
Qed.

Context `{!TopicsApart W}.

(** An operation that is one of the other ports. *)
Lemma Inv_port {B} (o : daemonE B) s : Inv s → Inv (s.1, (port B o s.2).1).
Proof. intros [H Ha]. split; [|done]. cbn [fst snd]. by rewrite port_forum. Qed.

Lemma answer_keeps grant {B} (o : daemonE B) s :
  calm grant o → Inv s → Inv (answer error_text o s).1 ∧ wf_answer o (answer error_text o s).2.
Proof.
  intros Hc Hs.
  assert (Hport : ∀ B (o : daemonE B), Inv (let '(w, b) := port B o s.2 in ((s.1, w), b)).1 ∧
    wf_answer o (let '(w, b) := port B o s.2 in ((s.1, w), b)).2).
  { intros B' o'. pose proof (Inv_port o' s Hs) as Hi. pose proof (port_wf o' s.2) as Hw. by destruct (port B' o' s.2). }
  destruct o as [B a|B r| | | | | | | | | | | | | | | | | | | |]; try apply Hport.
  - destruct a; first [apply Hport|by split].
  - split; [|done]. destruct r; cbn [answer rec_run]; try done.
    + by apply keeps_Handle.
    + by apply keeps_edit.
    + by apply keeps_Flush.
    + by apply keeps_Reconcile.
    + by apply keeps_Resync.
    + by apply keeps_Sweep.
    + by apply keeps_SetDashboardID.
Qed.

(** What happened in Telegram when the wake arrives: the operator closed or
    reopened a topic. *)
Definition happens (w : wake) (s : Reconciler * W) : Reconciler * W :=
  match w with
  | WTelegram (Some (EvTopicClosed thread)) => (s.1, op_close s.2 thread)
  | WTelegram (Some (EvTopicReopened thread)) => (s.1, op_reopen s.2 thread)
  | _ => s
  end.

(** The loop with its reconciler, in a forum in which operators act. *)
Fixpoint mirror_loop (ws : list wake) (d : Daemon) (s : Reconciler * W) : Daemon * (Reconciler * W) * flow :=
  match ws with
  | [] => (d, s, Continue)
  | w :: ws =>
    let '(d, s, f) := runs error_text (wakeup hashText error_text version zone hasInbox SocketGrace dashChat w) d (happens w s) in
    match f with Continue => mirror_loop ws d s | Exit err => (d, s, Exit err) end
  end.
Definition mirror_run (ws : list wake) (d : Daemon) (s : Reconciler * W) : Daemon * (Reconciler * W) * flow :=
  let '(d, s, f) := runs error_text (start error_text version hasInbox) d s in
  match f with Continue => mirror_loop ws d s | Exit err => (d, s, Exit err) end.

Definition wake_ok (w : wake) : Prop :=
  match w with
  | WEvent ev => wf_agent (AEAgent ev)
  | WTelegram (Some (EvTopicRenamed _ _)) => False
  | _ => True
  end.

Lemma runs_careful grant {A} (p : prog daemonE Daemon A) d s :
  guarded (@calm grant) (@wf_answer) p (λ _, True) → Inv s → Inv (runs error_text p d s).1.2.
Proof.
  intros Hp Hs. refine (proj1 (runs_guarded _ _ Inv p _ d s _ Hp Hs)). intros B o s' Hc. by apply (answer_keeps grant).
Qed.

(** The operator's action and what the loop does about it. *)
Lemma runs_operator (r : recE (option error)) d s :
  Inv (rec_run error_text r s).1 → Inv (runs error_text (unless_error (checked error_text (rec r))) d s).1.2.
Proof.
  intros H. change (Inv (runs error_text (bind (call (Rec r)) (λ err, unless_error (handleErr error_text err))) d s).1.2).
  cbn [runs bind call answer]. destruct (rec_run error_text r s) as [s' err].
  apply (runs_careful true); [|exact H]. apply careful_unless_error, careful_handleErr.
Qed.

Lemma mirror_step w d s : wake_ok w → Inv s →
  Inv (runs error_text (wakeup hashText error_text version zone hasInbox SocketGrace dashChat w) d (happens w s)).1.2.
Proof.
  intros Hw Hs. destruct w as [| | |ev| | | | | |[[]|]| | | |]; cbn [happens];
    try (apply (runs_careful true); [apply careful_wakeup; first [exact Hw|exact (orb_true_r _)]|exact Hs]; fail).
  - apply (runs_operator (RecTopicClosed threadID)). by destruct s; apply keeps_OnTopicClosed.
  - apply (runs_operator (RecTopicReopened threadID)). by destruct s; apply keeps_OnTopicReopened.
Qed.

Lemma mirror_loop_inv ws d s : Forall wake_ok ws → Inv s → Inv (mirror_loop ws d s).1.2.
Proof.
  intros Hws. revert d s. induction Hws as [|w ws Hw _ IH]; intros d s Hs; [done|]. cbn [mirror_loop].
  pose proof (mirror_step w d s Hw Hs) as H. destruct (runs _ _ d _) as [[d' s'] f]. cbn in H.
  destruct f; [by apply IH|exact H].
Qed.

(** C2: the mapping stays true while the daemon runs. Start the daemon on a
    mapping in step with the forum and let the loop be woken in any order by
    agent events, debounced edits, timers, requests, quiet mode, rights changes,
    operator messages and operator closures and reopenings of topics, with any
    call failing at any point: after every wake, and when it stops, every
    entry of the mapping has its topic in the forum under the entry's name, live
    entries are open and show the icon of their status, and closed and open
    agree, as in the reconciler alone. Renamings by hand are left out. *)
Theorem daemon_in_step ws d r w :
  InStep (mapping r) (forum w) → agents_ok (ragents r) → Forall wake_ok ws →
  let '(_, (r', w'), _) := mirror_run ws d (r, w) in InStep (mapping r') (forum w').
Proof.
  intros H Ha Hws. assert (Inv (mirror_run ws d (r, w)).1.2) as Hinv.
  { unfold mirror_run. pose proof (runs_careful true _ d (r, w) (careful_start error_text version hasInbox true)) as Hst.
    destruct (runs _ _ d _) as [[d' s'] f]. specialize (Hst (conj H Ha)). cbn in Hst.
    destruct f; [by apply mirror_loop_inv|exact Hst]. }
  destruct (mirror_run ws d (r, w)) as [[d' [r' w']] f]. apply Hinv.
Qed.

(** ** While the bot may not manage topics *)

Definition is_operator {B} (r : recE B) : bool :=
  match r with RecTopicClosed _ | RecTopicReopened _ | RecTopicRenamed _ _ => true | _ => false end.

Definition lost (F : gmap Z ForumTopic) (s : Reconciler * W) : Prop := rightsLost s.1 = true ∧ forum s.2 = F.

Section lost.
Context (F : gmap Z ForumTopic).

Lemma lost_blocked s : lost F s → writes_blocked s.
Proof. intros [H _]. by left. Qed.

(** A handler that does nothing while writes are blocked. *)
Lemma keeps_idle (m : M W (option error)) : (∀ s, writes_blocked s → m s = (s, None)) → keeps (lost F) m.
Proof. intros Hm s Hs. unfold ReconcilerLaws.wp. by rewrite (Hm s (lost_blocked s Hs)). Qed.

Lemma lost_save : keeps (lost F) save.
Proof. intros [r w] [Hr Hw]. apply wp_save. split; [done|]. cbn. by rewrite save_law. Qed.

Lemma lost_update f : keeps (lost F) (update_mapping f).
Proof. by intros [r w] H. Qed.

Lemma lost_modify f : (∀ r, rightsLost (f r) = rightsLost r) → keeps (lost F) (Reconciler.modify f).
Proof. intros Hf [r w] [Hr Hw]. split; [|done]. cbn in *. by rewrite Hf. Qed.

Lemma lost_call {A} (f : W → W * A) : (∀ w, forum (f w).1 = forum w) → keeps (lost F) (Reconciler.call f).
Proof.
  intros Hf [r w] [Hr Hw]. unfold ReconcilerLaws.wp, Reconciler.call. specialize (Hf w). cbn in *.
  destruct (f w) as [w' x]. split; [done|]. cbn in *. congruence.
Qed.

Lemma lost_get : keeps (lost F) Reconciler.get.
Proof. by intros s. Qed.

Lemma lost_asks {A} (f : W → A) : keeps (lost F) (asks f).
Proof. by intros s. Qed.

Lemma lost_blockedReason : keeps (lost F) blockedReason.
Proof. by intros s. Qed.

Lemma lost_finish key : keeps (lost F) (Reconciler.finish key).
Proof.
  apply keeps_idle. intros s Hs. unfold Reconciler.finish, Reconciler.bind at 1, Reconciler.get.
  destruct (TopicFor _ _); [|done]. unfold Reconciler.bind. by rewrite blocked_blocked.
Qed.

Ltac lost :=
  repeat first
    [ apply keeps_ret | apply lost_get | apply lost_save | apply lost_update | apply lost_asks
    | apply lost_finish | apply (keeps_idle (edit _)); intros; by apply edit_blocked
    | apply (keeps_idle (exit _)); intros; by apply exit_blocked
    | apply (keeps_idle (create _)); intros; by apply create_blocked
    | apply lost_modify; by intros []
    | apply lost_call; intros; first [apply send_forum|apply rename_forum|apply rename_tab_forum]
    | match goal with
      | |- ∀ _, _ => intro
      | |- keeps _ (Reconciler.bind _ _) => apply rkeeps_bind
      | |- keeps _ (Reconciler.each _ _) => apply rkeeps_each
      | |- keeps _ (match ?x with _ => _ end) => destruct x
      end ].

Lemma lost_rec {B} (r : recE B) : calm false (Rec r) ∨ is_operator r = true → keeps (lost F) (rec_run error_text r).
Proof.
  intros Hr. destruct r; cbn [rec_run].
  - unfold Handle, schedule, cancel. lost.
  - unfold Fire. lost.
  - unfold Flush. lost.
  - apply keeps_idle. intros s Hs. unfold Reconcile, Reconciler.bind. by rewrite blocked_blocked.
  - unfold Reconciler.Resync. apply rkeeps_bind; [lost|]. intros _. apply rkeeps_bind; [|lost].
    apply keeps_idle. intros s Hs. unfold Reconcile, Reconciler.bind. by rewrite blocked_blocked.
  - intros s Hs. unfold ReconcilerLaws.wp, Sweep. destruct (maxAge <=? 0); [done|]. unfold Reconciler.bind at 1.
    by rewrite blocked_blocked by by apply lost_blocked.
  - unfold OnTopicClosed. lost.
  - unfold OnTopicReopened, forced, cancel. lost.
  - unfold OnTopicRenamed, renameTab, renameAgent, renameFailed, record_name, schedule. lost.
  - destruct Hr as [Hr|[=]]. cbn in Hr. rewrite orb_false_r in Hr. subst ro. intros [r w] [_ Hw]. by split.
  - by intros s.
  - unfold SetDashboardID. lost.
  - by intros s.
Qed.

Lemma lost_answer {B} (o : daemonE B) s :
  calm false o → lost F s → lost F (answer error_text o s).1 ∧ wf_answer o (answer error_text o s).2.
Proof.
  intros Hc Hs.
  assert (Hport : ∀ B (o : daemonE B), lost F (let '(w, b) := port B o s.2 in ((s.1, w), b)).1 ∧
    wf_answer o (let '(w, b) := port B o s.2 in ((s.1, w), b)).2).
  { intros B' o'. pose proof (port_forum o' s.2) as Hi. pose proof (port_wf o' s.2) as Hw. destruct Hs as [Hr Hf].
    destruct (port B' o' s.2). split; [split; [exact Hr|cbn in *; congruence]|exact Hw]. }
  destruct o as [B a|B r| | | | | | | | | | | | | | | | | | | |]; try apply Hport.
  - destruct a; first [apply Hport|by split].
  - split; [|done]. apply lost_rec; [by left|exact Hs].
Qed.

Lemma runs_lost {A} (p : prog daemonE Daemon A) d s :
  guarded (@calm false) (@wf_answer) p (λ _, True) → lost F s → lost F (runs error_text p d s).1.2.
Proof.
  intros Hp Hs. refine (proj1 (runs_guarded _ _ (lost F) p _ d s _ Hp Hs)). intros B o s' Hc. by apply lost_answer.
Qed.

Lemma runs_lost_operator {A B} (r : recE B) (k : B → prog daemonE Daemon A) d s :
  is_operator r = true → (∀ b, guarded (@calm false) (@wf_answer) (k b) (λ _, True)) → lost F s →
  lost F (runs error_text (bind (rec r) k) d s).1.2.
Proof.
  intros Hr Hk Hs. cbn [runs bind rec call answer]. pose proof (lost_rec r (or_intror Hr) s Hs) as H.
  unfold ReconcilerLaws.wp in H. destruct (rec_run error_text r s) as [s' b]. by apply runs_lost.
Qed.
End lost.

(** A wake that does not give the right back. *)
Definition rights_away (w : wake) : Prop :=
  match w with
  | WEvent ev => wf_agent (AEAgent ev)
  | WTelegram (Some (EvRightsChanged true)) => False
  | _ => True
  end.

Lemma lost_wakeup F w d s : rights_away w → lost F s →
  lost F (runs error_text (wakeup hashText error_text version zone hasInbox SocketGrace dashChat w) d s).1.2.
Proof.
  intros Hw Hs. destruct w as [| | |ev| | | | | |[[]|]| | | |];
    try (apply runs_lost; [apply careful_wakeup; exact Hw|exact Hs]; fail).
  - refine (runs_lost_operator F (RecTopicRenamed threadID name) (λ r, unless_error (do _ ← (if r.1 then asked RegistryRequest else Ret tt); handleErr error_text r.2)%eff) d s _ _ Hs); [done|].
    intros r. apply careful_unless_error, careful_bind; [by destruct r.1|]. intros _. apply careful_handleErr.
  - refine (runs_lost_operator F (RecTopicClosed threadID) (λ err, unless_error (handleErr error_text err)) d s _ _ Hs); [done|].
    intros err. apply careful_unless_error, careful_handleErr.
  - refine (runs_lost_operator F (RecTopicReopened threadID) (λ err, unless_error (handleErr error_text err)) d s _ _ Hs); [done|].
    intros err. apply careful_unless_error, careful_handleErr.
  - apply runs_lost; [apply careful_wakeup; by destruct canManageTopics|exact Hs].
Qed.

(** C5: without the right to manage topics the daemon does not touch them.
    From the moment the reconciler is read-only, and until Telegram reports the
    right given back, no wake of the loop, be it an agent event, a timer, a
    resync, a sweep or an operator's action on a topic, changes any topic of the
    forum, and the reconciler stays read-only, whatever the ports answer. *)
Theorem rights_lost_freezes_forum ws d r w :
  rightsLost r = true → Forall rights_away ws →
  let '(_, (r', w'), _) :=
    runs error_text (loop hashText error_text version zone hasInbox SocketGrace dashChat ws) d (r, w) in
  rightsLost r' = true ∧ forum w' = forum w.
Proof.
  intros Hr Hws.
  assert (∀ d s, lost (forum w) s →
    lost (forum w) (runs error_text (loop hashText error_text version zone hasInbox SocketGrace dashChat ws) d s).1.2) as H.
  { induction Hws as [|w0 ws Hw0 _ IH]; intros d0 s Hs; [exact Hs|]. cbn [loop]. rewrite runs_bind.
    pose proof (lost_wakeup (forum w) w0 d0 s Hw0 Hs) as H1. destruct (runs _ _ d0 s) as [[d1 s1] f]. cbn in H1.
    destruct f; [by apply IH|exact H1]. }
  specialize (H d (r, w) (conj Hr eq_refl)). destruct (runs _ _ d _) as [[d' [r' w']] f]. exact H.
Qed.
End in_step.

(** ** A sample run in the forum of ReconcilerLaws.v *)

#[local] Existing Instance latin1_tables.

Definition sample_live : list Agent := [sim_agent "p1" StatusWorking; sim_agent "p2" StatusBlocked].

#[local] Instance sim_ports : Ports Sim := λ B o w,
  (w, match o in daemonE B return B with
      | App a => match a in appE B return B with LiveAgents => sample_live | a => idle_port a end
      | RegistrySnapshot => (mkAgentEvent AgentAppeared <$> sample_live, None)
      | o => idle_daemon o
      end).

#[local, refine] Instance sim_apart : TopicsApart Sim := {}.
Proof.
  - done.
  - assert (Forall wf_agent sample_live) as Hl by (repeat constructor; by apply sim_agent_ok).
    intros B o w. destruct o as [B a| | | | | | | | | | | | | | | | | | | | |]; try done.
    + by destruct a.
    + repeat constructor; by apply sim_agent_ok.
  - done.
  - done.
  - done.
Defined.

#[local, refine] Instance sim_known : KnownErrors Sim := {}.
Proof.
  - intros w name st w' e [=].
  - intros w tid p. cbn. unfold sim_call. by destruct (sim_topics w !! tid).
  - intros w tid. cbn. unfold sim_call. by destruct (sim_topics w !! tid).
  - intros w tid. cbn. unfold sim_call. by destruct (sim_topics w !! tid).
Defined.

Lemma daemon_in_step_witness :
  let ws := [WEvent (mkAgentEvent AgentAppeared (sim_agent "p3" StatusIdle)); WTelegram (Some (EvTopicClosed 1)); WResync; WDone None] in
  let '(_, (r', w'), f) :=
    mirror_run (λ t, t) (λ _, "?") "1.0" 0 true socketGrace (-100) ws sample_daemon (NewReconciler (NewMapping (-100)), sim_start) in
  InStep (mapping r') (forum w').
Proof.
  intros ws. apply (daemon_in_step (λ t, t) (λ _, "?") "1.0" 0 true socketGrace (-100) ws).
  - by apply (sim_start_inv (NewReconciler (NewMapping (-100)))).
  - by apply (sim_start_inv (NewReconciler (NewMapping (-100)))).
  - repeat constructor; try by apply sim_agent_ok.
Defined.

(** That run ends in order and mirrors the three agents. *)
Example sample_run_mirrors :
  let '(_, (r', w'), f) :=
    mirror_run (λ t, t) (λ _, "?") "1.0" 0 true socketGrace (-100)
      [WEvent (mkAgentEvent AgentAppeared (sim_agent "p3" StatusIdle)); WDone None]
      sample_daemon (NewReconciler (NewMapping (-100)), sim_start) in
  f = Exit None ∧ size (sim_topics w') = 3%nat ∧ size (Topics (mapping r')) = 3%nat.
Proof. by vm_compute. Qed.

Lemma mirror_refines_loop_witness :
  let p := Run (λ t, t) (λ _, "?") "1.0" 0 true socketGrace (-100) [WResync; WDone None] in
  let s := (NewReconciler (NewMapping (-100)), sim_start) in
  ∃ h', exec daemon_legal p (mkWorld sample_daemon []) (runs (λ _, "?") p sample_daemon s).2
    (mkWorld (runs (λ _, "?") p sample_daemon s).1.1 (h' ++ [])).
Proof. intros p s. apply (mirror_refines_loop (λ _, "?") p sample_daemon s []). Defined.

Lemma rights_lost_freezes_forum_witness :
  let ws := [WEvent (mkAgentEvent AgentAppeared (sim_agent "p3" StatusIdle)); WResync; WTelegram (Some (EvTopicReopened 1)); WSweepTick] in
  let r := set_rights (NewReconciler (NewMapping (-100))) true in
  let '(_, (r', w'), _) :=
    runs (λ _, "?") (loop (λ t, t) (λ _, "?") "1.0" 0 true socketGrace (-100) ws) sample_daemon (r, sim_start) in
  rightsLost r' = true ∧ forum w' = forum sim_start.
Proof.
  intros ws r. apply (rights_lost_freezes_forum (λ t, t) (λ _, "?") "1.0" 0 true socketGrace (-100) ws).
  - reflexivity.
  - repeat constructor; try by apply sim_agent_ok.
Defined.
